(* ===== verification/_CoqProject ===== *)
-Q . S2P
Prelude.v
Bytes.v
U256.v
Abi.v
AbiCodec.v
Types.v
Address.v
Concrete.v
AbiCodecProps.v
Serialize.v
SerializeProps.v
Consensus.v
ConsensusProps.v
Emission.v
SparseMerkle.v
SparseMerkleProps.v
State.v
StateViews.v
StateStorage.v
StateProps.v
BlockProps.v
Ledger.v
StateEquiv.v
StateWitness.v
Witness.v
WitnessProps.v
Node.v
Mempool.v
MempoolProps.v
Net.v
NetProps.v
Compact.v
CompactProps.v
Erlay.v
ErlayProps.v
Gossip.v
GossipProps.v
Executor.v
ExecutorProps.v
Rules.v
StateCache.v
Chain.v
ChainProps.v
NodeProps.v
MiningProps.v
ChainWitness.v
Persist.v
PersistProps.v
Lifecycle.v
Sync.v
View.v
SyncProps.v
SyncRound.v
Float.v
RateLimiter.v
RateLimiterProps.v
Noise.v
NoiseProps.v
NoiseConcrete.v
Peers.v
Manager.v
ManagerProps.v
PeersProps.v
SessionProps.v
Engine.v
EngineProps.v
ConnLoop.v
ConnLoopProps.v
Config.v
ConfigProps.v
Precompiles.v
PrecompileProps.v
Vm.v
VmProps.v
VmContract.v
VmWitness.v
