(* ===== verification/Prelude.v ===== *)
(** * Strangecoin: a verification library for the node

    Strangecoin is an account-based proof-of-work chain with wasm contracts.  The
    sources fall into a consensus core (src/crates/strangecoin-core), a node
    (src/src: block execution, state cache, mempool, fork choice, genesis, user
    interfaces), a network layer (src/crates/strangecoin-net), a contract executor on
    the wasmi crate (src/crates/strangecoin-vm-wasm) and a LevelDB wrapper
    (src/crates/strangecoin-storage).  A block travels as bytes (serialize.rs), is
    checked against the consensus rules (consensus.rs, block_executor.rs), applied to
    the account state (state/inner.rs), compared with the sparse Merkle root in its
    header (state/sparse_merkle.rs) and pushed on the chain the node keeps
    (blockchain_facade.rs); a competing chain replaces it when it has more work and
    validates from genesis (chain_selector.rs).  Blocks and transactions reach the node
    over authenticated, encrypted connections (noise/, peer/), are rate-limited and
    dispatched (rate_limiter.rs, connection_loop.rs), queued and applied by one engine
    (sync_engine.rs), and announced again (gossip/).  Contract calls run in frames around
    the wasmi engine (vm-wasm/src/lib.rs, host/) and settle on the account state.

    ** Conventions

    - Rust results are [result E A] with the constructor [Panic] for [expect], failed
      slice operations and out-of-range indices; fallible code is written in the monad
      of [result].
    - Machine integers are [Z]; arithmetic wraps where the code uses plain operators
      (the release profile), and is checked or saturating where the code says so.
    - A [HashMap] is a [gmap], its iteration order that of [map_to_list]; strings are
      byte strings; a cloned [State] is a value.
    - External crates are type classes: [Hex], [Blake3], [Bech32], [Secp256k1], [SipHash],
      [Snow], [Ed25519], [Kdf], [Digests] and the wasm engine [Wasmi]; sockets are
      [Socket].  What is assumed of them is a class of laws next to each ([HexOk],
      [SnowOk], [WasmiOk], ...).  The core sees contracts through the interfaces
      [VmExecutor] and [VmRuntime] with the laws [VmLaws] and [HeaderBlind], which
      [VmContract] discharges for the executor of vm-wasm; the network sees the node
      through [BlockchainView] and [NodeOps], which [View] and [Engine] implement.
      Collision resistance is never assumed globally: theorems that need it are about
      the finitely many inputs named in [collision_free_on].  [Concrete] gives simple
      functions with these laws, on which the theorems are evaluated.
    - Floating-point scores and token counts are rationals rounded to the format.
    - Clock readings, instants (integer nanoseconds), the parsed genesis file, the length
      of a JSON form and the number of nonces a miner tries before it is shut down are
      arguments.
    - Recursion that is not structural in the source is by fuel, with a proof that the
      fuel given suffices: the type parser of [Abi] by the length of its input, the
      256 levels of the sparse Merkle tree by [DEPTH]; host calls of a guest by its gas
      and nested frames by the depth limit ([execution_total]); [pow_loop] may run
      forever in the code, and [pow_search_first] says exactly when it stops.

    ** Files

    - Prelude, Bytes: results, loops, machine integers, big- and little-endian bytes.
    - U256, Consensus, ConsensusProps: consensus.rs and core/chain_selector.rs: 256-bit
      limb arithmetic against the integers, median time, retargeting, proof of work,
      signatures, and the fork-choice order.
    - Abi, AbiCodec, AbiCodecProps: core/abi: type names and their parser, argument
      encoding and decoding, selectors.
    - Types, Address: core/types.rs, vm/, error.rs, address.rs.
    - Serialize, SerializeProps: serialize.rs: the canonical encodings, their round
      trips and injectivity, transaction and receipt roots.
    - Emission: economics/emission.rs, governance/scip.rs, consensus_manager.rs.
    - SparseMerkle, SparseMerkleProps: state/sparse_merkle.rs: the optimised recursions
      equal the plain binary tree over 256-bit paths; proofs are complete and sound;
      roots can be updated from proofs alone.
    - State: state/inner.rs, contract_storage.rs, mod.rs: the transition, receipts and
      undo.  StateViews and StateStorage: the readings of a state the proofs use.
      StateProps, BlockProps: well-formedness, conservation of value, and rollback.
      Ledger: an abstract ledger of balances and nonces, with the documented nonce rule,
      which transfer blocks refine.
      StateEquiv: states equal up to undo records, and the operations as morphisms.
      StateWitness: concrete blocks.
    - Witness, WitnessProps: state/witness.rs: stateless verification agrees with full
      validation.
    - Node: src/error.rs.  Mempool, MempoolProps: src/mempool/mod.rs.
    - Executor, ExecutorProps: block_executor.rs, validation: acceptance as a
      conjunction of conditions.  Rules: the documented rules of a block, written without
      the checks of the code, and validation against them.
    - StateCache, Chain: state_cache.rs, the rest of block_executor.rs,
      blockchain_facade.rs, chain_selector.rs, consensus/mod.rs.
    - ChainProps: reconstruction accepts exactly the valid chains, and what validity
      implies.  NodeProps: a step relation over the operations of a node, consistency
      with the chain, adoption and convergence.  MiningProps: the miner.
      ChainWitness: two concrete nodes.
    - Persist, PersistProps: opening, saving and migrating the database (state_cache.rs).
      Lifecycle: every start, operation and restart of a node, and what its cache is worth
      at each point.
    - Net, NetProps: net/src/protocol.rs, protocol/hello.rs, discovery/addr_gossip.rs:
      message codecs, framing, the address book.  Compact(Props), Erlay(Props),
      Gossip(Props): net/src/gossip: compact blocks, set reconciliation, announcements,
      and the codecs of all messages.
    - Sync, View, SyncProps, SyncRound: net/src/sync.rs, blockchain_view.rs: headers-first
      download and the serving side.
    - Float, RateLimiter(Props): net/src/rate_limiter.rs: token buckets and bans.
    - Noise, NoiseProps, NoiseConcrete: net/src/noise and the encrypted frames of
      protocol.rs: handshake, identity, nonces.
    - Peers, Manager, ManagerProps, PeersProps, SessionProps: net/src/peer/scoring.rs,
      store.rs, pool.rs, manager.rs: scores, bans, persistence, connections.
    - Engine, EngineProps: net/src/sync_engine.rs: inbox and consumer.  ConnLoop(Props):
      net/src/peer/connection_loop.rs: the events of a session, its exits, and the
      dispatch of received frames.
    - Config, ConfigProps: src/config.rs: defaults, validation, derived settings.
    - Precompiles, PrecompileProps: vm-wasm/src/gas.rs, precompiles: gas weights and
      built-in contracts.  Vm, VmProps, VmContract, VmWitness: vm-wasm/src/lib.rs,
      error.rs, host: host functions, nested calls, frames and the executor.

    ** What the theorems show

    - State: applying a block keeps states well formed (no empty account stored, fields
      at machine width, storage roots up to date), creates at most its coinbase, which
      is within the reward, and is undone exactly by [unapply_block]; without contracts
      it refines the abstract ledger on blocks whose nonces are in turn.
    - Rules: validation accepts only blocks that keep the documented rules, nonces apart,
      and all that keep them, nonces included.
    - Chain: [rebuild_from_chain] decides an inductive validity predicate; an accepted
      chain is linked, committed, signed and mined; its supply is bounded by the
      issuance of its blocks; its tip hash commits to all of it.
    - Node: the work of a node is that of its chain and its code registry that of its
      codes, however it was started; once it was opened locally, adopted a chain or
      rebuilt its cache, the cache is the reconstruction of the chain, also across
      restarts; adoption only moves to better valid chains; two nodes that exchange
      their chains agree.
    - Miner: the search returns the first nonce that meets the target, and the block it
      seals is accepted by the node itself.
    - Sparse Merkle tree and witnesses: completeness, soundness and root updates, and
      stateless verification sound and complete for full validation.
    - Encodings: round trips for transactions, blocks and headers; decoders never
      panic; ids and roots determine what they commit to, up to collisions.
    - Mempool: no two transactions for one sender and nonce, size bound, payable runs,
      exact replacement rule.
    - Arithmetic and emission: limb operations refine the integers; retargeting stays
      in its band; the halving schedule emits a bounded total.
    - Persistence and codecs: a saved node reopens to the same chain and cache; message,
      compact-block, sketch and ABI codecs are inverse to their parsers.
    - Relay and sync: a block reconstructed from a compact message fits the announced
      header and count, and is the only such block up to collisions; reconciliation
      finds exactly the difference; a sync round with an honest peer downloads its chain.
    - Peers: traffic of a peer is bounded by its bucket; a handshake that completes proves
      the key of the other side, and two honest nodes connect; encrypted frames arrive
      intact and in order; the manager's tables stay consistent; a responsive peer
      without violations is never banned.
    - Engine and connections: what is enqueued, applied and announced, and that the node
      stays consistent under every sequence of frames; malformed or excessive frames
      are refused and never panic; a session ends on shutdown, a failed read, a ban or a
      malformed sync request only.
    - Contracts: execution comes back within its gas; read-only frames and failed calls
      leave storage and logs alone; storage is capped; a call settles on the state
      exactly the balances its code saw; the executor satisfies the interface the core
      is verified against; modular exponentiation is exact.

    ** Not modelled

    The wasm engine itself, LevelDB access, JSON and TOML text, logging, socket reads and
    writes below the byte stream, what makes the timers and time-outs of the connection
    loop fire (their firing is an event), DNS discovery and shadow replay, the graphical
    and command-line interfaces, key files, threads and locks (every facade, manager and engine call is one atomic operation), and
    the unchecked test hooks of the facade.

    ** Idealisations

    - Instants and durations are unbounded: the panic of [Instant + Duration] for huge
      configured ban periods ([decide_ban], [record_violation], [limiter_ban],
      [apply_rate_verdict]) and of [Duration::from_secs_f32] ([record_latency_sample]) is
      left out.
    - Floats have no infinities and no NaN: weights near the largest single are finite.
    - [value_bytes] adds without a bound where the code has [usize]; the storage cap keeps
      the sum far below it.
    - A panic of a precompile inside a nested call would be a failed call; it is shown
      impossible.
    - [serving_peer] answers at the level of payloads, without the session's encryption
      and its size limit. *)

From Stdlib Require Export ZArith Lia Strings.Byte.
From stdpp Require Export base tactics option list gmap fin_maps strings pretty.
From stdpp Require Export list_numbers.

#[global] Set Default Goal Selector "!".
Open Scope Z_scope.

(** ** Results: [Result<T, E>] together with the possibility of a panic *)

(** [Ok] and [Err] are Rust's; [Panic] stands for an [expect]/[unwrap] on a
    failure, an out-of-range index or a failed [assert!]. *)
Inductive result (E A : Type) : Type :=
  | Ok (a : A)
  | Err (e : E)
  | Panic.
Arguments Ok {E A} a.
Arguments Err {E A} e.
Arguments Panic {E A}.

#[export] Instance result_ret E : MRet (result E) := λ A a, Ok a.
#[export] Instance result_bind E : MBind (result E) := λ A B f r,
  match r with Ok a => f a | Err e => Err e | Panic => Panic end.
#[export] Instance result_fmap E : FMap (result E) := λ A B f r,
  match r with Ok a => Ok (f a) | Err e => Err e | Panic => Panic end.

#[export] Instance result_eq_dec {E A} `{EqDecision E, EqDecision A} :
  EqDecision (result E A).
Proof. solve_decision. Defined.

(** [Option::ok_or]. *)
Definition ok_or {E A} (o : option A) (e : E) : result E A :=
  match o with Some a => Ok a | None => Err e end.

(** [Option::expect] / [Result::expect]. *)
Definition expect {E A} (o : option A) : result E A :=
  match o with Some a => Ok a | None => Panic end.

(** [Result::map_err]. *)
Definition map_err {E F A} (f : E → F) (r : result E A) : result F A :=
  match r with Ok a => Ok a | Err e => Err (f e) | Panic => Panic end.

(** [if !cond { return Err(e) }]. *)
Definition ensure {E} (c : bool) (e : E) : result E unit :=
  if c then Ok tt else Err e.

(** [for x in xs { st = f(st, x)? }]. *)
Fixpoint foldM {E S A} (f : S → A → result E S) (s : S) (xs : list A) : result E S :=
  match xs with
  | [] => Ok s
  | x :: xs => s' ← f s x; foldM f s' xs
  end.

(** [xs.iter().map(f).collect::<Result<Vec<_>, _>>()]. *)
Fixpoint mapM_result {E A B} (f : A → result E B) (xs : list A) : result E (list B) :=
  match xs with
  | [] => Ok []
  | x :: xs => y ← f x; ys ← mapM_result f xs; Ok (y :: ys)
  end.

Definition is_ok {E A} (r : result E A) : bool :=
  match r with Ok _ => true | _ => false end.

(** ** Machine integers

    A [u64], [u32] or [u128] is a [Z] in range.  The workspace's release
    profile does not enable [overflow-checks], so an unchecked [+], [-] or [*]
    wraps; [checked_*] and [saturating_*] are the standard library's. *)

Abbreviation two8 := 256.
Abbreviation two32 := 4294967296.
Abbreviation two63 := 9223372036854775808.
Abbreviation two64 := 18446744073709551616.
Abbreviation two128 := 340282366920938463463374607431768211456.
Abbreviation u64_max := 18446744073709551615.

Definition in_u64 (z : Z) : Prop := 0 ≤ z < two64.
Definition in_u32 (z : Z) : Prop := 0 ≤ z < two32.

Definition wrap64 (z : Z) : Z := z mod two64.
Definition wrap128 (z : Z) : Z := z mod two128.
Definition add64 (a b : Z) : Z := wrap64 (a + b).
Definition sub64 (a b : Z) : Z := wrap64 (a - b).
Definition mul64 (a b : Z) : Z := wrap64 (a * b).

Definition checked_add64 (a b : Z) : option Z :=
  if decide (a + b < two64) then Some (a + b) else None.
Definition checked_sub64 (a b : Z) : option Z :=
  if decide (b ≤ a) then Some (a - b) else None.
Definition saturating_add64 (a b : Z) : Z := Z.min (a + b) u64_max.
Definition saturating_sub64 (a b : Z) : Z := Z.max (a - b) 0.
Definition saturating_mul64 (a b : Z) : Z := Z.min (a * b) u64_max.

(** [Iterator::sum] over [u64]: a chain of wrapping additions. *)
Definition sum64 (xs : list Z) : Z := foldl add64 0 xs.

(** Mathematical sum of a list, the reference for [sum64]. *)
Fixpoint sumZ (xs : list Z) : Z :=
  match xs with [] => 0 | x :: xs => x + sumZ xs end.

(** ** Decidable equality and countability of bytes *)

#[export] Instance byte_eq_dec : EqDecision byte := Byte.byte_eq_dec.
#[export] Program Instance byte_countable : Countable byte :=
  inj_countable Byte.to_N Byte.of_N _.
Next Obligation. intros b. apply Byte.of_to_N. Qed.

(** ** Automation *)

Create HintDb strange discriminated.

(** Inverts a chain of [result] binds that ended in [Ok]. *)
Ltac inv_result :=
  repeat match goal with
  | H : Ok _ = Ok _ |- _ => injection H; clear H; intros; subst
  | H : Err _ = Ok _ |- _ => discriminate H
  | H : Panic = Ok _ |- _ => discriminate H
  | H : Some _ = Some _ |- _ => injection H; clear H; intros; subst
  | H : None = Some _ |- _ => discriminate H
  | H : Some _ = None |- _ => discriminate H
  | H : mret _ = Ok _ |- _ => unfold mret, result_ret in H
  | H : mbind _ ?r = Ok _ |- _ =>
      let E := fresh "E" in
      unfold mbind, result_bind in H; destruct r eqn:E; cbn beta iota in H
  | H : match ?r with Ok _ => _ | Err _ => _ | Panic => _ end = Ok _ |- _ =>
      let E := fresh "E" in destruct r eqn:E; cbn beta iota in H
  | H : expect ?o = Ok _ |- _ =>
      let E := fresh "E" in unfold expect in H; destruct o eqn:E
  | H : ok_or ?o _ = Ok _ |- _ =>
      let E := fresh "E" in unfold ok_or in H; destruct o eqn:E
  | H : map_err _ ?r = Ok _ |- _ =>
      let E := fresh "E" in unfold map_err in H; destruct r eqn:E
  | H : ensure ?c _ = Ok _ |- _ =>
      let E := fresh "E" in unfold ensure in H; destruct c eqn:E
  | u : unit |- _ => destruct u
  end.

(** Unfolds the width-limited operations so that [lia] sees them. *)
Ltac unfold_width :=
  unfold in_u64, in_u32, wrap64, wrap128, add64, sub64, mul64,
    saturating_add64, saturating_sub64, saturating_mul64 in *.

(** ** Shared lemmas *)

Lemma bind_ok {E A B} (f : A → result E B) (a : A) : (Ok a ≫= f) = f a.
Proof. done. Qed.

Lemma bind_ok_inv {E A B} (f : A → result E B) (r : result E A) (b : B) :
  (r ≫= f) = Ok b → ∃ a, r = Ok a ∧ f a = Ok b.
Proof. destruct r; cbn; [eauto | done | done]. Qed.

Lemma ok_inj {E A} (x y : A) : x = y ↔ Ok (E:=E) x = Ok y.
Proof. split; congruence. Qed.

Lemma foldM_app {E S A} (f : S → A → result E S) xs ys s :
  foldM f s (xs ++ ys) = (foldM f s xs ≫= λ s', foldM f s' ys).
Proof.
  revert s. induction xs as [|x xs IH]; intros s; cbn; [done|].
  destruct (f s x); cbn; [apply IH | done | done].
Qed.

(** An invariant of the step is an invariant of the loop. *)
Lemma foldM_inv {E S A} (P : S → Prop) (f : S → A → result E S) xs s s' :
  (∀ s x s', x ∈ xs → P s → f s x = Ok s' → P s') →
  P s → foldM f s xs = Ok s' → P s'.
Proof.
  revert s. induction xs as [|x xs IH]; cbn; intros s Hf Hs H; [inv_result; done|].
  apply bind_ok_inv in H as (s1 & H1 & H2).
  eapply (IH s1); [|by eapply Hf; [left|..]|done].
  intros; eapply Hf; [by right|..]; done.
Qed.

Lemma mapM_result_length {E A B} (f : A → result E B) xs ys :
  mapM_result f xs = Ok ys → length ys = length xs.
Proof.
  revert ys. induction xs as [|x xs IH]; cbn; intros ys H; inv_result; cbn; auto.
Qed.

Lemma mapM_result_Forall2 {E A B} (f : A → result E B) xs ys :
  mapM_result f xs = Ok ys ↔ Forall2 (λ x y, f x = Ok y) xs ys.
Proof.
  split.
  - revert ys. induction xs as [|x xs IH]; cbn; intros ys H; inv_result; auto.
  - induction 1 as [|x y xs ys Hxy _ IH]; cbn; [done|]. by rewrite Hxy; cbn; rewrite IH.
Qed.

Lemma checked_add64_Some a b c :
  checked_add64 a b = Some c ↔ c = a + b ∧ a + b < two64.
Proof. unfold checked_add64. case_decide; split; intros; inv_result; [lia|f_equal; lia|lia]. Qed.

Lemma checked_sub64_Some a b c :
  checked_sub64 a b = Some c ↔ c = a - b ∧ b ≤ a.
Proof. unfold checked_sub64. case_decide; split; intros; inv_result; [lia|f_equal; lia|lia]. Qed.

Lemma wrap64_small z : in_u64 z → wrap64 z = z.
Proof. intros. by apply Z.mod_small. Qed.

Lemma sub64_add64 n d : in_u64 n → sub64 (add64 n d) d = n.
Proof.
  intros H. unfold sub64, add64, wrap64. rewrite Zminus_mod_idemp_l.
  replace (n + d - d) with n by lia. by apply Z.mod_small.
Qed.

Lemma wrap64_range z : in_u64 (wrap64 z).
Proof. by apply Z.mod_pos_bound. Qed.

Lemma wrap128_small z : 0 ≤ z < two128 → wrap128 z = z.
Proof. intros. by apply Z.mod_small. Qed.

Lemma sumZ_app xs ys : sumZ (xs ++ ys) = sumZ xs + sumZ ys.
Proof. induction xs; cbn; lia. Qed.

Lemma sumZ_nonneg xs : Forall (λ z, 0 ≤ z) xs → 0 ≤ sumZ xs.
Proof. induction 1; cbn; lia. Qed.

Lemma sumZ_Permutation xs ys : xs ≡ₚ ys → sumZ xs = sumZ ys.
Proof. induction 1; cbn; lia. Qed.

#[export] Instance sumZ_Proper : Proper ((≡ₚ) ==> (=)) sumZ.
Proof. intros xs ys. apply sumZ_Permutation. Qed.

(** The wrapping sum is the mathematical sum modulo [2^64]. *)
Lemma sum64_mod xs : sum64 xs = sumZ xs mod two64.
Proof.
  unfold sum64.
  enough (∀ a, foldl add64 (a mod two64) xs = (a + sumZ xs) mod two64) as H.
  { by specialize (H 0). }
  induction xs as [|x xs IH]; intros a; cbn; [f_equal; lia|].
  unfold add64, wrap64. rewrite Zplus_mod_idemp_l, IH. f_equal. lia.
Qed.

Lemma sum64_exact xs : in_u64 (sumZ xs) → sum64 xs = sumZ xs.
Proof. intros. rewrite sum64_mod. by apply Z.mod_small. Qed.

#[export] Hint Resolve wrap64_range sumZ_nonneg : strange.
#[export] Hint Rewrite @bind_ok : strange.
