(* ===== verification/Bytes.v ===== *)
(** * Bytes, integer encodings, UTF-8, and the external byte codecs

    The standard-library byte operations the sources use ([to_be_bytes],
    [from_be_bytes], [to_le_bytes], [str::as_bytes], [str::from_utf8]) and the
    interfaces of the two external crates every component leans on: [hex] and
    [blake3].  The crates are parameters (type classes); what the code relies on
    is stated as the classes [HexOk] and [Blake3Ok]. *)

From S2P Require Import Prelude.
From Stdlib Require Import String Ascii.
From stdpp Require Import strings.
Open Scope Z_scope.

(** ** Integers as bytes *)

Definition byte_val (b : byte) : Z := Z.of_N (Byte.to_N b).

(** [z as u8]. *)
Definition byte_of (z : Z) : byte :=
  match Byte.of_N (Z.to_N (z mod two8)) with Some b => b | None => x00 end.

Fixpoint to_le_bytes (n : nat) (z : Z) : list byte :=
  match n with
  | O => []
  | S n => byte_of z :: to_le_bytes n (z / two8)
  end.

Fixpoint from_le_bytes (bs : list byte) : Z :=
  match bs with
  | [] => 0
  | b :: bs => byte_val b + two8 * from_le_bytes bs
  end.

Definition to_be_bytes (n : nat) (z : Z) : list byte := reverse (to_le_bytes n z).
Definition from_be_bytes (bs : list byte) : Z := from_le_bytes (reverse bs).

(** ** Strings: a Rust [String] is its UTF-8 bytes *)

Definition as_bytes (s : string) : list byte := String.list_byte_of_string s.

(** Continuation byte [10xxxxxx]. *)
Definition utf8_cont (b : byte) : bool := (128 <=? byte_val b) && (byte_val b <=? 191).

(** The well-formedness test of [core::str::from_utf8]. *)
Fixpoint utf8_valid (bs : list byte) : bool :=
  match bs with
  | [] => true
  | b0 :: r0 =>
    let v := byte_val b0 in
    if v <=? 127 then utf8_valid r0 else
    match r0 with
    | [] => false
    | b1 :: r1 =>
      let c := byte_val b1 in
      if (194 <=? v) && (v <=? 223) then utf8_cont b1 && utf8_valid r1 else
      match r1 with
      | [] => false
      | b2 :: r2 =>
        if (v =? 224) then (160 <=? c) && (c <=? 191) && utf8_cont b2 && utf8_valid r2
        else if ((225 <=? v) && (v <=? 236)) || (v =? 238) || (v =? 239)
             then utf8_cont b1 && utf8_cont b2 && utf8_valid r2
        else if (v =? 237) then (128 <=? c) && (c <=? 159) && utf8_cont b2 && utf8_valid r2
        else
        match r2 with
        | [] => false
        | b3 :: r3 =>
          if (v =? 240) then (144 <=? c) && (c <=? 191) && utf8_cont b2 && utf8_cont b3 && utf8_valid r3
          else if (241 <=? v) && (v <=? 243)
               then utf8_cont b1 && utf8_cont b2 && utf8_cont b3 && utf8_valid r3
          else if (v =? 244) then (128 <=? c) && (c <=? 143) && utf8_cont b2 && utf8_cont b3 && utf8_valid r3
          else false
        end
      end
    end
  end.

(** [std::str::from_utf8(..).map(str::to_string)]. *)
Definition from_utf8 (bs : list byte) : option string :=
  if utf8_valid bs then Some (String.string_of_list_byte bs) else None.

(** The invariant of the type [String]. *)
Definition is_str (s : string) : Prop := utf8_valid (as_bytes s) = true.

(** ** 32-byte arrays *)

Definition zero32 : list byte := replicate 32 x00.
Definition is32 (h : list byte) : Prop := length h = 32%nat.

(** Bytewise lexicographic order of [[u8; N]] and [str] ([Ord]). *)
Fixpoint bytes_ltb (a b : list byte) : bool :=
  match a, b with
  | _, [] => false
  | [], _ :: _ => true
  | x :: a, y :: b =>
      if byte_val x <? byte_val y then true
      else if byte_val y <? byte_val x then false
      else bytes_ltb a b
  end.

Definition str_ltb (a b : string) : bool := bytes_ltb (as_bytes a) (as_bytes b).

(** ** External crates *)

(** Crate [hex]: [hex::encode], [hex::decode]. *)
Class Hex := {
  hex_encode : list byte → string;
  hex_decode : string → option (list byte)
}.

(** Documented: [decode] inverts [encode]. *)
Class HexOk `{Hex} : Prop := {
  hex_decode_encode : ∀ bs, hex_decode (hex_encode bs) = Some bs
}.

(** Crate [blake3]: [*blake3::hash(..).as_bytes()], which is also what a
    [Hasher] fed the same bytes in pieces finalizes to. *)
Class Blake3 := blake3 : list byte → list byte.

(** Documented: the digest is a [[u8; 32]]. *)
Class Blake3Ok `{Blake3} : Prop := {
  blake3_length : ∀ bs, is32 (blake3 bs)
}.

(** No two distinct preimages of [P] collide.  For a fixed finite [P] this is a
    satisfiable statement about the digest (an unrestricted injectivity of a
    32-byte digest is not). *)
Definition collision_free_on `{Blake3} (P : list (list byte)) : Prop :=
  ∀ x y, x ∈ P → y ∈ P → blake3 x = blake3 y → x = y.

(** The pairwise test on (preimage, digest) pairs, every digest computed once. *)
Definition pairs_collision_free (Q : list (list byte * list byte)) : Prop :=
  Forall (λ p, Forall (λ q, p.2 = q.2 → p.1 = q.1) Q) Q.
#[export] Instance pairs_collision_free_dec Q : Decision (pairs_collision_free Q).
Proof. unfold pairs_collision_free. apply _. Defined.

Lemma collision_free_on_pairs `{Blake3} P :
  pairs_collision_free ((λ x, (x, blake3 x)) <$> P) ↔ collision_free_on P.
Proof.
  unfold pairs_collision_free.
  rewrite Forall_fmap, Forall_forall. unfold collision_free_on, compose. cbn. split.
  - intros Hf x y Hx Hy. specialize (Hf x Hx). rewrite Forall_fmap, Forall_forall in Hf.
    apply (Hf y Hy).
  - intros Hc x Hx. rewrite Forall_fmap, Forall_forall. intros y Hy. exact (Hc x y Hx Hy).
Qed.

#[export] Instance collision_free_on_dec `{Blake3} P : Decision (collision_free_on P).
Proof.
  destruct (decide (pairs_collision_free ((λ x, (x, blake3 x)) <$> P))) as [Hd|Hd].
  - left. apply collision_free_on_pairs, Hd.
  - right. intros Hc. apply Hd, collision_free_on_pairs, Hc.
Defined.

(** ** Lemmas *)

Lemma byte_val_range b : 0 ≤ byte_val b < two8.
Proof. unfold byte_val. pose proof (Byte.to_N_bounded b). lia. Qed.

Lemma byte_of_val b : byte_of (byte_val b) = b.
Proof.
  unfold byte_of. rewrite Z.mod_small by apply byte_val_range.
  unfold byte_val. by rewrite N2Z.id, Byte.of_to_N.
Qed.

Lemma byte_val_of z : byte_val (byte_of z) = z mod two8.
Proof.
  unfold byte_of. pose proof (Z.mod_pos_bound z two8 ltac:(lia)) as Hz.
  destruct (Byte.of_N _) as [b|] eqn:E.
  - apply Byte.to_of_N in E. unfold byte_val. rewrite E. lia.
  - apply Byte.of_N_None_iff in E. lia.
Qed.

Lemma byte_val_inj a b : byte_val a = byte_val b → a = b.
Proof. intros H. by rewrite <- (byte_of_val a), <- (byte_of_val b), H. Qed.

Lemma length_to_le_bytes n z : length (to_le_bytes n z) = n.
Proof. revert z. induction n; cbn; auto. Qed.

Lemma length_to_be_bytes n z : length (to_be_bytes n z) = n.
Proof. unfold to_be_bytes. by rewrite length_reverse, length_to_le_bytes. Qed.

Lemma pow256_S n : 256 ^ Z.of_nat (S n) = two8 * 256 ^ Z.of_nat n.
Proof. rewrite Nat2Z.inj_succ, Z.pow_succ_r; lia. Qed.

Lemma from_to_le_bytes n z : from_le_bytes (to_le_bytes n z) = z mod 256 ^ Z.of_nat n.
Proof.
  revert z. induction n as [|n IH]; intros z; cbn [to_le_bytes from_le_bytes].
  - by rewrite Z.mod_1_r.
  - rewrite byte_val_of, IH, pow256_S, Z.rem_mul_r; lia.
Qed.

Lemma to_from_le_bytes bs : to_le_bytes (length bs) (from_le_bytes bs) = bs.
Proof.
  induction bs as [|b bs IH]; cbn [length to_le_bytes from_le_bytes]; [done|].
  pose proof (byte_val_range b) as Hb.
  f_equal.
  - apply byte_val_inj. rewrite byte_val_of.
    rewrite (Z.mul_comm two8), Z.mod_add, Z.mod_small; lia.
  - rewrite (Z.mul_comm two8), Z.div_add, Z.div_small, Z.add_0_l by lia. done.
Qed.

Lemma from_le_bytes_range bs : 0 ≤ from_le_bytes bs < 256 ^ Z.of_nat (length bs).
Proof.
  rewrite <- (to_from_le_bytes bs), from_to_le_bytes, length_to_le_bytes.
  apply Z.mod_pos_bound. lia.
Qed.

Lemma from_be_bytes_range bs : 0 ≤ from_be_bytes bs < 256 ^ Z.of_nat (length bs).
Proof. unfold from_be_bytes. rewrite <- (length_reverse bs). apply from_le_bytes_range. Qed.

Lemma from_to_be_bytes n z : from_be_bytes (to_be_bytes n z) = z mod 256 ^ Z.of_nat n.
Proof. unfold from_be_bytes, to_be_bytes. rewrite reverse_involutive. apply from_to_le_bytes. Qed.

Lemma to_from_be_bytes bs : to_be_bytes (length bs) (from_be_bytes bs) = bs.
Proof.
  unfold from_be_bytes, to_be_bytes.
  rewrite <- (length_reverse bs), to_from_le_bytes. apply reverse_involutive.
Qed.

Lemma from_le_bytes_app a b :
  from_le_bytes (a ++ b) = from_le_bytes a + 256 ^ Z.of_nat (length a) * from_le_bytes b.
Proof.
  induction a as [|x a IH]; cbn [app from_le_bytes length]; [lia|].
  rewrite IH, pow256_S. lia.
Qed.

Lemma from_be_bytes_app a b :
  from_be_bytes (a ++ b) = from_be_bytes a * 256 ^ Z.of_nat (length b) + from_be_bytes b.
Proof.
  unfold from_be_bytes. rewrite reverse_app, from_le_bytes_app, length_reverse. lia.
Qed.

Lemma from_be_bytes_inj a b :
  length a = length b → from_be_bytes a = from_be_bytes b → a = b.
Proof.
  intros Hl H. rewrite <- (to_from_be_bytes a), <- (to_from_be_bytes b). by rewrite Hl, H.
Qed.

(** The decoders recover a [u64]/[u32] exactly. *)
Lemma from_to_be_u64 z : in_u64 z → from_be_bytes (to_be_bytes 8 z) = z.
Proof. intros. rewrite from_to_be_bytes. apply Z.mod_small. done. Qed.

Lemma from_to_be_u32 z : in_u32 z → from_be_bytes (to_be_bytes 4 z) = z.
Proof. intros. rewrite from_to_be_bytes. apply Z.mod_small. done. Qed.

Lemma to_be_u64_inj a b : in_u64 a → in_u64 b → to_be_bytes 8 a = to_be_bytes 8 b → a = b.
Proof. intros Ha Hb H. by rewrite <- (from_to_be_u64 a), <- (from_to_be_u64 b), H. Qed.

Lemma to_le_u64_inj a b : in_u64 a → in_u64 b → to_le_bytes 8 a = to_le_bytes 8 b → a = b.
Proof.
  intros Ha Hb H. apply (f_equal from_le_bytes) in H.
  rewrite !from_to_le_bytes in H. change (256 ^ Z.of_nat 8) with two64 in H.
  by rewrite !Z.mod_small in H.
Qed.

Lemma as_bytes_of_bytes bs : as_bytes (String.string_of_list_byte bs) = bs.
Proof. apply String.list_byte_of_string_of_list_byte. Qed.

Lemma as_bytes_inj s t : as_bytes s = as_bytes t → s = t.
Proof.
  intros H. rewrite <- (String.string_of_list_byte_of_string s),
    <- (String.string_of_list_byte_of_string t). by unfold as_bytes in H; rewrite H.
Qed.

#[export] Instance as_bytes_Inj : Inj (=) (=) as_bytes.
Proof. intros s t. apply as_bytes_inj. Qed.

Lemma from_utf8_as_bytes s : is_str s → from_utf8 (as_bytes s) = Some s.
Proof.
  intros H. unfold from_utf8. rewrite H. unfold as_bytes.
  by rewrite String.string_of_list_byte_of_string.
Qed.

Lemma from_utf8_Some bs s : from_utf8 bs = Some s → is_str s ∧ as_bytes s = bs.
Proof.
  unfold from_utf8, is_str. destruct (utf8_valid bs) eqn:E; [|done].
  intros [= <-]. by rewrite as_bytes_of_bytes.
Qed.

(** [bytes_ltb] is a strict total order. *)
Lemma bytes_ltb_irrefl a : bytes_ltb a a = false.
Proof. induction a; cbn; [done|]. by rewrite Z.ltb_irrefl. Qed.

Lemma bytes_ltb_trans a b c :
  bytes_ltb a b = true → bytes_ltb b c = true → bytes_ltb a c = true.
Proof.
  revert b c. induction a as [|x a IH]; intros [|y b] [|z c]; cbn; try done.
  intros H1 H2.
  destruct (Z.ltb_spec (byte_val x) (byte_val y)), (Z.ltb_spec (byte_val y) (byte_val z)),
    (Z.ltb_spec (byte_val y) (byte_val x)), (Z.ltb_spec (byte_val z) (byte_val y)),
    (Z.ltb_spec (byte_val x) (byte_val z)), (Z.ltb_spec (byte_val z) (byte_val x));
    try done; try lia; eauto.
Qed.

Lemma bytes_ltb_total a b : bytes_ltb a b = false → bytes_ltb b a = false → a = b.
Proof.
  revert b. induction a as [|x a IH]; intros [|y b]; cbn; try done.
  destruct (Z.ltb_spec (byte_val x) (byte_val y)), (Z.ltb_spec (byte_val y) (byte_val x));
    try done; try lia.
  intros. rewrite (byte_val_inj x y) by lia. f_equal. auto.
Qed.

Lemma str_ltb_irrefl a : str_ltb a a = false.
Proof. apply bytes_ltb_irrefl. Qed.

Lemma str_ltb_trans a b c : str_ltb a b = true → str_ltb b c = true → str_ltb a c = true.
Proof. apply bytes_ltb_trans. Qed.

Lemma str_ltb_total a b : str_ltb a b = false → str_ltb b a = false → a = b.
Proof. intros H1 H2. apply as_bytes_inj, bytes_ltb_total; done. Qed.

Lemma length_zero32 : is32 zero32.
Proof. done. Qed.

#[export] Hint Resolve byte_val_range length_zero32 blake3_length : strange.
#[export] Hint Rewrite length_to_be_bytes length_to_le_bytes @hex_decode_encode : strange.

Arguments byte_val : simpl never.
Arguments byte_of : simpl never.
Arguments to_be_bytes : simpl never.
Arguments from_be_bytes : simpl never.
Arguments as_bytes : simpl never.
Arguments zero32 : simpl never.
