(* ===== verification/U256.v ===== *)
(** * 256-bit arithmetic on [[u64; 4]] limbs (core/src/consensus.rs)

    The proof-of-work code computes targets and chain work on four
    little-endian 64-bit limbs.  Each routine is translated with its loop; the
    theorems relate it to arithmetic on [Z] through [limbs_val]. *)

From S2P Require Import Prelude Bytes.
Open Scope Z_scope.

(** [pub type U256 = [u64; 4]], [words[0]] least significant. *)
Definition U256 : Type := list Z.

(** [a[i]] of an array; every index the code uses is in range. *)
Definition limb (a : list Z) (i : nat) : Z := default 0 (a !! i).

Definition u256_zero : U256 := [0; 0; 0; 0].
Definition u256_MAX : U256 := [u64_max; u64_max; u64_max; u64_max].

(** Value of a limb list, and the invariant of the array type. *)
Fixpoint limbs_val (l : list Z) : Z :=
  match l with [] => 0 | w :: l => w + two64 * limbs_val l end.
Definition wf_limbs (n : nat) (l : list Z) : Prop := length l = n ∧ Forall in_u64 l.
Definition wf256 (a : U256) : Prop := wf_limbs 4 a.

(** ** Conversions *)

(** [bytes.as_chunks::<8>().0]. *)
Definition chunks8 (bytes : list byte) : list (list byte) :=
  (λ i, take 8 (drop (8 * i) bytes)) <$> seq 0 (length bytes / 8).

Definition u256_from_bytes (bytes : list byte) : U256 :=
  foldl (λ words ic, <[(3 - ic.1)%nat := from_be_bytes ic.2]> words)
    u256_zero (imap pair (chunks8 bytes)).

Definition u256_from_u64 (v : Z) : U256 := [v; 0; 0; 0].

(** [l[at..at + x.len()].copy_from_slice(x)]. *)
Definition copy_at (pos : nat) (x l : list byte) : list byte :=
  take pos l ++ x ++ drop (pos + length x) l.

Definition u256_to_bytes (v : U256) : list byte :=
  foldl (λ bytes iw, copy_at ((3 - iw.1) * 8) (to_be_bytes 8 iw.2) bytes)
    zero32 (imap pair v).

(** ** Multiplication *)

(** The inner loop: adds [ai * b] into [r] from limb [idx] on. *)
Fixpoint mul_row (ai : Z) (b : list Z) (idx : nat) (r : list Z) (carry : Z) : list Z * Z :=
  match b with
  | [] => (r, carry)
  | bj :: b =>
      let cur := wrap128 (ai * bj + limb r idx + carry) in
      mul_row ai b (S idx) (<[idx := wrap64 cur]> r) (Z.shiftr cur 64)
  end.

(** [while carry != 0 && k < 8]; [n] is [8 - k]. *)
Fixpoint mul_carry (n : nat) (k : nat) (r : list Z) (carry : Z) : list Z :=
  match n with
  | O => r
  | S n =>
      if carry =? 0 then r
      else let cur := wrap128 (limb r k + carry) in
           mul_carry n (S k) (<[k := wrap64 cur]> r) (Z.shiftr cur 64)
  end.

Fixpoint mul_rows (a b : list Z) (i : nat) (r : list Z) : list Z :=
  match a with
  | [] => r
  | ai :: a =>
      if ai =? 0 then mul_rows a b (S i) r
      else let '(r1, carry) := mul_row ai b i r 0 in
           mul_rows a b (S i) (mul_carry (4 - i) (i + 4) r1 carry)
  end.

Definition u256_mul (a b : U256) : U256 :=
  let r := mul_rows a b 0 (replicate 8 0) in
  [limb r 0; limb r 1; limb r 2; limb r 3].

(** ** Shift, subtraction, addition *)

(** The loop of [u256_shl1] over the limbs from the lowest. *)
Fixpoint shl1_loop (v : list Z) (carry : Z) : list Z * Z :=
  match v with
  | [] => ([], carry)
  | w :: v =>
      let next := Z.shiftr w 63 in
      let w' := Z.lor (wrap64 (Z.shiftl w 1)) carry in
      let '(v', c) := shl1_loop v next in (w' :: v', c)
  end.

(** Returns the shifted value and the bit shifted out. *)
Definition u256_shl1 (v : U256) : U256 * Z := shl1_loop v 0.

(** [a.overflowing_sub(b)]. *)
Definition overflowing_sub64 (a b : Z) : Z * bool := (sub64 a b, a <? b).

Fixpoint sub_loop (a b : list Z) (borrow : Z) : list Z :=
  match a, b with
  | x :: a, y :: b =>
      let '(d1, b1) := overflowing_sub64 x y in
      let '(d2, b2) := overflowing_sub64 d1 borrow in
      d2 :: sub_loop a b (Z.b2z b1 + Z.b2z b2)
  | _, _ => a
  end.

Definition u256_sub_assign (a b : U256) : U256 := sub_loop a b 0.

Fixpoint add_loop (a b : list Z) (carry : Z) : list Z :=
  match a, b with
  | x :: a, y :: b =>
      let sum := wrap128 (x + y + carry) in
      wrap64 sum :: add_loop a b (wrap64 (Z.shiftr sum 64))
  | _, _ => []
  end.

Definition u256_add (a b : U256) : U256 := add_loop a b 0.

(** ** Comparisons: [for i in (0..4).rev()] with early returns *)

Fixpoint gt_loop (ixs : list nat) (a b : U256) : bool :=
  match ixs with
  | [] => false
  | i :: ixs =>
      if limb b i <? limb a i then true
      else if limb a i <? limb b i then false else gt_loop ixs a b
  end.

Definition u256_gt (a b : U256) : bool := gt_loop [3; 2; 1; 0]%nat a b.

Fixpoint le_loop (ixs : list nat) (a b : U256) : bool :=
  match ixs with
  | [] => true
  | i :: ixs =>
      if limb a i <? limb b i then true
      else if limb b i <? limb a i then false else le_loop ixs a b
  end.

Definition u256_le (a b : U256) : bool := le_loop [3; 2; 1; 0]%nat a b.

Fixpoint min_loop (ixs : list nat) (a b : U256) : U256 :=
  match ixs with
  | [] => a
  | i :: ixs =>
      if limb a i <? limb b i then a
      else if limb b i <? limb a i then b else min_loop ixs a b
  end.

Definition u256_min (a b : U256) : U256 := min_loop [3; 2; 1; 0]%nat a b.

Fixpoint max_loop (ixs : list nat) (a b : U256) : U256 :=
  match ixs with
  | [] => a
  | i :: ixs =>
      if limb b i <? limb a i then a
      else if limb a i <? limb b i then b else max_loop ixs a b
  end.

Definition u256_max (a b : U256) : U256 := max_loop [3; 2; 1; 0]%nat a b.

(** ** Division: restoring binary long division *)

(** [(a[bit / 64] >> (bit % 64)) & 1]. *)
Definition bit_of (a : list Z) (bit : nat) : Z :=
  Z.land (Z.shiftr (limb a (bit / 64)) (Z.of_nat (bit mod 64))) 1.

(** [q[bit / 64] |= 1u64 << (bit % 64)]. *)
Definition set_bit (q : list Z) (bit : nat) : list Z :=
  <[(bit / 64)%nat := Z.lor (limb q (bit / 64)) (Z.shiftl 1 (Z.of_nat (bit mod 64)))]> q.

Definition div_step (a b : U256) (bit : nat) (quotient remainder : U256) : U256 * U256 :=
  let '(r, out) := u256_shl1 remainder in
  let overflowed := out =? 1 in
  let r := if bit_of a bit =? 1 then <[0%nat := Z.lor (limb r 0) 1]> r else r in
  if overflowed || negb (u256_gt b r)
  then (set_bit quotient bit, u256_sub_assign r b)
  else (quotient, r).

(** [for bit in (0..n).rev()]. *)
Fixpoint div_loop (a b : U256) (n : nat) (quotient remainder : U256) : U256 :=
  match n with
  | O => quotient
  | S bit =>
      let '(q, r) := div_step a b bit quotient remainder in div_loop a b bit q r
  end.

Definition u256_div (a b : U256) : U256 :=
  if decide (b = u256_zero) then u256_zero
  else if u256_gt b a then u256_zero
  else div_loop a b 256 u256_zero u256_zero.

(** [a * b] saturating at the maximum. *)
Definition u256_mul_sat (a b : U256) : U256 :=
  if decide (a = u256_zero ∨ b = u256_zero) then u256_zero
  else let product := u256_mul a b in
       if decide (u256_div product b = a) then product else u256_MAX.

(** ** Limb lists as numbers *)

Lemma pow64_S n : two64 ^ Z.of_nat (S n) = two64 * two64 ^ Z.of_nat n.
Proof. rewrite Nat2Z.inj_succ, Z.pow_succ_r; lia. Qed.

Lemma limbs_val_range l : Forall in_u64 l → 0 ≤ limbs_val l < two64 ^ Z.of_nat (length l).
Proof.
  induction 1 as [|w l Hw _ IH]; [done|].
  cbn [length limbs_val]. rewrite pow64_S. unfold in_u64 in Hw. nia.
Qed.

Lemma limbs_val_inj a b :
  Forall in_u64 a → Forall in_u64 b → length a = length b →
  limbs_val a = limbs_val b → a = b.
Proof.
  intros Ha. revert b. induction Ha as [|x a Hx _ IH]; intros b Hb Hlen Hv.
  { by destruct b. }
  destruct Hb as [|y b Hy Hb]; [done|]. cbn in *. unfold in_u64 in *.
  assert (x = y ∧ limbs_val a = limbs_val b) as [-> ?] by lia.
  f_equal. apply IH; auto with lia.
Qed.

Lemma wf256_range a : wf256 a → 0 ≤ limbs_val a < 2 ^ 256.
Proof. intros [Hl Hf]. pose proof (limbs_val_range a Hf) as H. by rewrite Hl in H. Qed.

Lemma wf256_inj a b : wf256 a → wf256 b → limbs_val a = limbs_val b → a = b.
Proof. intros [? ?] [? ?] ?. apply limbs_val_inj; auto with lia. Qed.

Lemma limb_range l i : Forall in_u64 l → in_u64 (limb l i).
Proof.
  intros H. unfold limb. destruct (l !! i) as [w|] eqn:E; cbn; [|done].
  by eapply Forall_lookup_1 in H.
Qed.

Lemma limbs_val_insert l i v :
  (i < length l)%nat →
  limbs_val (<[i := v]> l) = limbs_val l + (v - limb l i) * two64 ^ Z.of_nat i.
Proof.
  revert i. induction l as [|w l IH]; intros i Hi; cbn in Hi; [lia|].
  destruct i as [|i].
  - cbn. unfold limb. cbn. lia.
  - cbn [insert list_insert limbs_val]. rewrite IH by lia. rewrite pow64_S.
    change (limb (w :: l) (S i)) with (limb l i). lia.
Qed.

Lemma limbs_val_app a b :
  limbs_val (a ++ b) = limbs_val a + two64 ^ Z.of_nat (length a) * limbs_val b.
Proof.
  induction a as [|w a IH]; cbn [app limbs_val length]; [lia|].
  rewrite IH, pow64_S. lia.
Qed.

(** A 256-bit value as its four limbs. *)
Lemma wf256_inv a : wf256 a → ∃ a0 a1 a2 a3, a = [a0; a1; a2; a3] ∧
  in_u64 a0 ∧ in_u64 a1 ∧ in_u64 a2 ∧ in_u64 a3.
Proof.
  intros [Hl Hf]. destruct a as [|a0 [|a1 [|a2 [|a3 [|]]]]]; try done.
  rewrite !Forall_cons in Hf. destruct Hf as (? & ? & ? & ? & _).
  by exists a0, a1, a2, a3.
Qed.

(** Proves [wf256] of an explicit limb list. *)
Ltac wf_limbs_tac :=
  split; [done|]; repeat (apply Forall_cons; split; [unfold in_u64 in *; lia|]); by constructor.

Ltac limbs H :=
  let a0 := fresh "w" in let a1 := fresh "w" in let a2 := fresh "w" in let a3 := fresh "w" in
  destruct (wf256_inv _ H) as (a0 & a1 & a2 & a3 & -> & ? & ? & ? & ?).

Lemma wf256_zero : wf256 u256_zero.
Proof. wf_limbs_tac. Qed.
Lemma wf256_MAX : wf256 u256_MAX.
Proof. wf_limbs_tac. Qed.
Lemma limbs_val_MAX : limbs_val u256_MAX = 2 ^ 256 - 1.
Proof. done. Qed.
Lemma wf256_from_u64 v : in_u64 v → wf256 (u256_from_u64 v).
Proof. intros. wf_limbs_tac. Qed.
Lemma limbs_val_from_u64 v : limbs_val (u256_from_u64 v) = v.
Proof. unfold u256_from_u64. cbn [limbs_val]. lia. Qed.

Lemma u256_eq_zero a : wf256 a → a = u256_zero ↔ limbs_val a = 0.
Proof.
  intros Ha. split; [by intros ->|]. intros H. by apply wf256_inj; [|apply wf256_zero|].
Qed.

(** ** Comparisons *)

Ltac cmp_cases :=
  repeat match goal with |- context [?x <? ?y] => destruct (Z.ltb_spec x y) end;
  unfold in_u64 in *; try lia; try done.

Lemma u256_gt_spec a b : wf256 a → wf256 b → u256_gt a b = (limbs_val b <? limbs_val a).
Proof. intros Ha Hb. limbs Ha. limbs Hb. unfold u256_gt, limb. cbn. cmp_cases. Qed.

Lemma u256_le_spec a b : wf256 a → wf256 b → u256_le a b = (limbs_val a <=? limbs_val b).
Proof.
  intros Ha Hb. limbs Ha. limbs Hb. unfold u256_le, limb. cbn.
  match goal with |- _ = (?x <=? ?y) => destruct (Z.leb_spec x y) end; cmp_cases.
Qed.

Lemma u256_min_spec a b : wf256 a → wf256 b →
  u256_min a b = if limbs_val a <=? limbs_val b then a else b.
Proof.
  intros Ha Hb. limbs Ha. limbs Hb. unfold u256_min, limb. cbn.
  match goal with |- _ = (if ?x <=? ?y then _ else _) => destruct (Z.leb_spec x y) end; cmp_cases.
Qed.

Lemma u256_max_spec a b : wf256 a → wf256 b →
  u256_max a b = if limbs_val b <=? limbs_val a then a else b.
Proof.
  intros Ha Hb. limbs Ha. limbs Hb. unfold u256_max, limb. cbn.
  match goal with |- _ = (if ?x <=? ?y then _ else _) => destruct (Z.leb_spec x y) end; cmp_cases.
Qed.

(** ** Conversions *)

Lemma u256_from_bytes_spec bytes :
  is32 bytes → wf256 (u256_from_bytes bytes) ∧ limbs_val (u256_from_bytes bytes) = from_be_bytes bytes.
Proof.
  intros Hl.
  assert (∃ c0 c1 c2 c3, bytes = c0 ++ c1 ++ c2 ++ c3 ∧ chunks8 bytes = [c0; c1; c2; c3] ∧
    length c0 = 8%nat ∧ length c1 = 8%nat ∧ length c2 = 8%nat ∧ length c3 = 8%nat)
    as (c0 & c1 & c2 & c3 & Hb & Hc & H0 & H1 & H2 & H3).
  { exists (take 8 bytes), (take 8 (drop 8 bytes)), (take 8 (drop 16 bytes)), (drop 24 bytes).
    unfold is32 in Hl. do 32 (destruct bytes as [|? bytes]; [done|]).
    destruct bytes; [done|done]. }
  unfold u256_from_bytes. rewrite Hc. cbn.
  pose proof (from_be_bytes_range c0) as R0. pose proof (from_be_bytes_range c1) as R1.
  pose proof (from_be_bytes_range c2) as R2. pose proof (from_be_bytes_range c3) as R3.
  rewrite H0 in R0. rewrite H1 in R1. rewrite H2 in R2. rewrite H3 in R3.
  change (256 ^ Z.of_nat 8) with two64 in *. split.
  - wf_limbs_tac.
  - rewrite Hb, !from_be_bytes_app, !length_app, H1, H2, H3. cbn. lia.
Qed.

Lemma u256_to_bytes_app w0 w1 w2 w3 :
  u256_to_bytes [w0; w1; w2; w3] =
  to_be_bytes 8 w3 ++ to_be_bytes 8 w2 ++ to_be_bytes 8 w1 ++ to_be_bytes 8 w0.
Proof. reflexivity. Qed.

Lemma u256_to_bytes_spec v : wf256 v →
  is32 (u256_to_bytes v) ∧ from_be_bytes (u256_to_bytes v) = limbs_val v.
Proof.
  intros Hv. limbs Hv. rewrite u256_to_bytes_app. unfold is32.
  rewrite !from_be_bytes_app, !length_app, !length_to_be_bytes.
  rewrite !from_to_be_u64 by done. split; [done|]. cbn. lia.
Qed.

Lemma u256_bytes_roundtrip v : wf256 v → u256_from_bytes (u256_to_bytes v) = v.
Proof.
  intros Hv. destruct (u256_to_bytes_spec v Hv) as [Hl Ht].
  destruct (u256_from_bytes_spec _ Hl) as [Hw Hf].
  apply wf256_inj; [done..|]. congruence.
Qed.

(** ** Addition, subtraction, shift *)

Lemma wf_limbs_cons n w l : wf_limbs (S n) (w :: l) ↔ in_u64 w ∧ wf_limbs n l.
Proof. unfold wf_limbs. rewrite Forall_cons. cbn. intuition lia. Qed.

Lemma add_loop_spec n a b c :
  wf_limbs n a → wf_limbs n b → 0 ≤ c ≤ 1 →
  wf_limbs n (add_loop a b c) ∧
  limbs_val (add_loop a b c) = (limbs_val a + limbs_val b + c) mod two64 ^ Z.of_nat n.
Proof.
  revert a b c. induction n as [|n IH]; intros a b c Ha Hb Hc.
  { destruct Ha as [Ha _], Hb as [Hb _]. destruct a, b; try done.
    split; [by repeat constructor|]. by rewrite Z.mod_1_r. }
  destruct a as [|x a], b as [|y b]; try (by destruct Ha); try (by destruct Hb).
  rewrite !wf_limbs_cons in *. destruct Ha as [Hx Ha], Hb as [Hy Hb].
  cbn [add_loop limbs_val]. unfold in_u64 in *.
  rewrite (wrap128_small (x + y + c)), Z.shiftr_div_pow2 by lia.
  change (2 ^ 64) with two64.
  assert (0 ≤ (x + y + c) / two64 ≤ 1) as Hc'
    by (split; [apply Z.div_pos; lia|apply Z.lt_succ_r, Z.div_lt_upper_bound; lia]).
  rewrite (wrap64_small (_ / _)) by (unfold in_u64; lia).
  destruct (IH a b _ Ha Hb Hc') as [IH1 IH2]. split.
  { apply wf_limbs_cons. split; [apply wrap64_range|done]. }
  rewrite IH2, pow64_S. unfold wrap64.
  rewrite Z.rem_mul_r by lia.
  replace (x + two64 * limbs_val a + (y + two64 * limbs_val b) + c)
    with ((x + y + c) + (limbs_val a + limbs_val b) * two64) by lia.
  rewrite Z.mod_add, Z.div_add by lia. f_equal. f_equal. f_equal. lia.
Qed.

(** [u256_add] is addition modulo [2^256]. *)
Lemma u256_add_spec a b : wf256 a → wf256 b →
  wf256 (u256_add a b) ∧ limbs_val (u256_add a b) = (limbs_val a + limbs_val b) mod 2 ^ 256.
Proof.
  intros Ha Hb. destruct (add_loop_spec 4 a b 0 Ha Hb) as [? H]; [lia|].
  split; [done|]. unfold u256_add. rewrite H. by rewrite Z.add_0_r.
Qed.

Lemma sub_loop_spec n a b c :
  wf_limbs n a → wf_limbs n b → 0 ≤ c ≤ 1 →
  wf_limbs n (sub_loop a b c) ∧
  limbs_val (sub_loop a b c) = (limbs_val a - limbs_val b - c) mod two64 ^ Z.of_nat n.
Proof.
  revert a b c. induction n as [|n IH]; intros a b c Ha Hb Hc.
  { destruct Ha as [Ha ?], Hb as [Hb ?]. destruct a, b; try done.
    split; [done|]. by rewrite Z.mod_1_r. }
  destruct a as [|x a], b as [|y b]; try (by destruct Ha); try (by destruct Hb).
  rewrite !wf_limbs_cons in *. destruct Ha as [Hx Ha], Hb as [Hy Hb].
  cbn [sub_loop limbs_val overflowing_sub64]. unfold in_u64 in *.
  set (brw := Z.b2z (x <? y) + Z.b2z (sub64 x y <? c)).
  assert (0 ≤ brw ≤ 1 ∧ sub64 (sub64 x y) c = x - y - c + two64 * brw) as [Hbrw Hd].
  { unfold brw, sub64, wrap64.
    destruct (Z.ltb_spec x y) as [E|E]; cbn [Z.b2z].
    - rewrite <- (Z.mod_add (x - y) 1 two64), (Z.mod_small (x - y + _)) by lia.
      destruct (Z.ltb_spec (x - y + 1 * two64) c); cbn [Z.b2z]; [lia|].
      rewrite Z.mod_small; lia.
    - rewrite (Z.mod_small (x - y)) by lia.
      destruct (Z.ltb_spec (x - y) c); cbn [Z.b2z].
      + rewrite <- (Z.mod_add (x - y - c) 1 two64), Z.mod_small; lia.
      + rewrite Z.mod_small; lia. }
  destruct (IH a b brw Ha Hb Hbrw) as [IH1 IH2]. split.
  { apply wf_limbs_cons. split; [apply wrap64_range|done]. }
  pose proof (wrap64_range (sub64 x y - c)) as Hr. unfold in_u64 in Hr.
  fold (sub64 (sub64 x y) c) in Hr.
  rewrite Hd in Hr |- *. rewrite IH2, pow64_S.
  rewrite Z.rem_mul_r by lia.
  replace (x + two64 * limbs_val a - (y + two64 * limbs_val b) - c)
    with ((x - y - c + two64 * brw) + (limbs_val a - limbs_val b - brw) * two64) by lia.
  rewrite Z.mod_add, Z.div_add by lia.
  rewrite (Z.mod_small (x - y - c + _)), (Z.div_small (x - y - c + _)) by done.
  by rewrite Z.add_0_l.
Qed.

(** [u256_sub_assign] is subtraction modulo [2^256]. *)
Lemma u256_sub_spec a b : wf256 a → wf256 b →
  wf256 (u256_sub_assign a b) ∧
  limbs_val (u256_sub_assign a b) = (limbs_val a - limbs_val b) mod 2 ^ 256.
Proof.
  intros Ha Hb. destruct (sub_loop_spec 4 a b 0 Ha Hb) as [? H]; [lia|].
  split; [done|]. unfold u256_sub_assign. rewrite H. by rewrite Z.sub_0_r.
Qed.

Lemma lor_low_bit k c : 0 ≤ c ≤ 1 → Z.lor (2 * k) c = 2 * k + c.
Proof.
  intros Hc. rewrite <- Z.add_nocarry_lor; [done|].
  assert (c = 0 ∨ c = 1) as [-> | ->] by lia; [apply Z.land_0_r|].
  change 1 with (Z.ones 1). rewrite Z.land_ones by lia.
  change (2 ^ 1) with 2. by rewrite Z.mul_comm, Z.mod_mul.
Qed.

(** One limb of the shift: the shifted word and its top bit carry [2 * w]. *)
Lemma shl1_limb w c : in_u64 w → 0 ≤ c ≤ 1 →
  let w' := Z.lor (wrap64 (Z.shiftl w 1)) c in
  in_u64 w' ∧ 0 ≤ Z.shiftr w 63 ≤ 1 ∧ w' + two64 * Z.shiftr w 63 = 2 * w + c.
Proof.
  intros Hw Hc. unfold in_u64, wrap64 in *. cbn zeta.
  rewrite Z.shiftl_mul_pow2, Z.shiftr_div_pow2 by lia.
  change (2 ^ 1) with 2. change (2 ^ 63) with two63.
  replace ((w * 2) mod two64) with (2 * (w mod two63)).
  2: { change two64 with (two63 * 2). rewrite Z.mul_mod_distr_r; lia. }
  rewrite lor_low_bit by lia. Z.div_mod_to_equations. lia.
Qed.

Lemma shl1_loop_spec n v c :
  wf_limbs n v → 0 ≤ c ≤ 1 →
  wf_limbs n (shl1_loop v c).1 ∧ 0 ≤ (shl1_loop v c).2 ≤ 1 ∧
  limbs_val (shl1_loop v c).1 + (shl1_loop v c).2 * two64 ^ Z.of_nat n = 2 * limbs_val v + c.
Proof.
  revert v c. induction n as [|n IH]; intros v c Hv Hc.
  { destruct Hv as [Hl ?]. destruct v; [|done]. cbn. split; [done|]. lia. }
  destruct v as [|w v]; [by destruct Hv|]. rewrite wf_limbs_cons in Hv. destruct Hv as [Hw Hv].
  destruct (shl1_limb w c Hw Hc) as (H1 & H2 & H3).
  cbn [shl1_loop]. destruct (IH v (Z.shiftr w 63) Hv H2) as (I1 & I2 & I3).
  destruct (shl1_loop v (Z.shiftr w 63)) as [v' c'] eqn:E. cbn [fst snd] in *.
  rewrite wf_limbs_cons, pow64_S. cbn [limbs_val]. split; [done|]. split; [done|]. nia.
Qed.

Lemma u256_shl1_spec v : wf256 v →
  wf256 (u256_shl1 v).1 ∧ 0 ≤ (u256_shl1 v).2 ≤ 1 ∧
  limbs_val (u256_shl1 v).1 + (u256_shl1 v).2 * 2 ^ 256 = 2 * limbs_val v.
Proof.
  intros Hv. destruct (shl1_loop_spec 4 v 0 Hv) as (? & ? & H); [lia|].
  unfold u256_shl1. split; [done|]. split; [done|]. rewrite Z.add_0_r in H. exact H.
Qed.

(** ** Multiplication *)

Lemma wf_limbs_insert n l i v : wf_limbs n l → in_u64 v → wf_limbs n (<[i := v]> l).
Proof. intros [? ?] ?. split; [by rewrite length_insert|by apply Forall_insert]. Qed.

Lemma div_mod_two64 x : wrap64 x + two64 * Z.shiftr x 64 = x.
Proof.
  unfold wrap64. rewrite Z.shiftr_div_pow2 by lia. change (2 ^ 64) with two64.
  pose proof (Z.div_mod x two64). lia.
Qed.

Lemma shiftr64_range x : 0 ≤ x < two128 → in_u64 (Z.shiftr x 64).
Proof.
  intros. rewrite Z.shiftr_div_pow2 by lia. change (2 ^ 64) with two64.
  split; [apply Z.div_pos|apply Z.div_lt_upper_bound]; lia.
Qed.

(** The intermediate of a row step fits in a [u128]. *)
Lemma mul_cur_range ai bj r c :
  in_u64 ai → in_u64 bj → in_u64 r → in_u64 c → 0 ≤ ai * bj + r + c < two128.
Proof. unfold in_u64. intros. nia. Qed.

Lemma mul_row_spec N ai b idx r c :
  in_u64 ai → Forall in_u64 b → wf_limbs N r → (idx + length b ≤ N)%nat → in_u64 c →
  wf_limbs N (mul_row ai b idx r c).1 ∧ in_u64 (mul_row ai b idx r c).2 ∧
  limbs_val (mul_row ai b idx r c).1
    + (mul_row ai b idx r c).2 * two64 ^ Z.of_nat (idx + length b)
  = limbs_val r + (ai * limbs_val b + c) * two64 ^ Z.of_nat idx.
Proof.
  intros Hai Hb. revert idx r c. induction Hb as [|bj b Hbj Hb IH]; intros idx r c Hr Hi Hc.
  { cbn [mul_row fst snd length limbs_val]. rewrite Nat.add_0_r. split; [done|]. split; [done|]. lia. }
  cbn [mul_row length limbs_val] in *.
  pose proof (mul_cur_range ai bj (limb r idx) c Hai Hbj (limb_range r idx (proj2 Hr)) Hc) as Hcur.
  rewrite wrap128_small by done.
  set (cur := ai * bj + limb r idx + c) in *.
  destruct (IH (S idx) (<[idx:=wrap64 cur]> r) (Z.shiftr cur 64)) as (I1 & I2 & I3).
  { apply wf_limbs_insert; [done|apply wrap64_range]. }
  { lia. }
  { by apply shiftr64_range. }
  split; [done|]. split; [done|].
  rewrite Nat.add_succ_r. rewrite <- Nat.add_succ_l, I3.
  rewrite limbs_val_insert, pow64_S by (destruct Hr; lia).
  pose proof (div_mod_two64 cur). unfold cur in *. nia.
Qed.

Lemma mul_carry_spec n k r c :
  wf_limbs 8 r → (4 ≤ k)%nat → (k + n = 8)%nat →
  wf_limbs 8 (mul_carry n k r c) ∧
  ∃ t, limbs_val (mul_carry n k r c) = limbs_val r + 2 ^ 256 * t.
Proof.
  revert k r c. induction n as [|n IH]; intros k r c Hr Hk Hn; cbn [mul_carry].
  { split; [done|]. exists 0. lia. }
  destruct (c =? 0).
  { split; [done|]. exists 0. lia. }
  edestruct (IH (S k)) as [I1 [t I2]]; [| |lia|].
  { apply wf_limbs_insert; [exact Hr|apply wrap64_range]. }
  { lia. }
  split; [exact I1|]. rewrite I2, limbs_val_insert by (destruct Hr; lia).
  replace (two64 ^ Z.of_nat k) with (2 ^ 256 * two64 ^ Z.of_nat (k - 4)).
  2: { change (2 ^ 256) with (two64 ^ 4). rewrite <- Z.pow_add_r by lia. f_equal. lia. }
  eexists. rewrite <- Z.add_assoc. f_equal.
  rewrite Z.mul_assoc, (Z.mul_comm _ (2 ^ 256)), <- !Z.mul_assoc, <- Z.mul_add_distr_l. done.
Qed.

Lemma mul_rows_spec a b i r :
  Forall in_u64 a → wf_limbs 4 b → wf_limbs 8 r → (i + length a = 4)%nat →
  wf_limbs 8 (mul_rows a b i r) ∧
  ∃ t, limbs_val (mul_rows a b i r)
       = limbs_val r + limbs_val a * limbs_val b * two64 ^ Z.of_nat i + 2 ^ 256 * t.
Proof.
  intros Ha Hb. revert i r. induction Ha as [|ai a Hai Ha IH]; intros i r Hr Hi; cbn [length] in Hi.
  { split; [done|]. exists 0. cbn [mul_rows limbs_val]. lia. }
  cbn [mul_rows limbs_val]. destruct (Z.eqb_spec ai 0) as [->|Hne].
  { destruct (IH (S i) r Hr) as [I1 [t I2]]; [lia|]. split; [done|].
    exists t. rewrite I2, pow64_S. lia. }
  destruct (mul_row_spec 8 ai b i r 0 Hai (proj2 Hb) Hr) as (R1 & R2 & R3).
  { rewrite (proj1 Hb). lia. }
  { done. }
  destruct (mul_row ai b i r 0) as [r1 c] eqn:E. cbn [fst snd] in *.
  destruct (mul_carry_spec (4 - i) (i + 4) r1 c R1) as [C1 [t1 C2]]; [lia..|].
  destruct (IH (S i) (mul_carry (4 - i) (i + 4) r1 c) C1) as [I1 [t2 I2]]; [lia|].
  split; [done|].
  exists (t1 + t2 - c * two64 ^ Z.of_nat i).
  rewrite I2, C2, pow64_S. rewrite (proj1 Hb), Nat2Z.inj_add, Z.pow_add_r in R3 by lia.
  change (two64 ^ Z.of_nat 4) with (2 ^ 256) in R3.
  generalize dependent (two64 ^ Z.of_nat i). intros p **.
  replace (limbs_val r1) with (limbs_val r + (ai * limbs_val b + 0) * p - c * (p * 2 ^ 256)) by lia.
  ring.
Qed.

Lemma limbs_low4 r : wf_limbs 8 r →
  wf256 [limb r 0; limb r 1; limb r 2; limb r 3] ∧
  limbs_val [limb r 0; limb r 1; limb r 2; limb r 3] = limbs_val r mod 2 ^ 256.
Proof.
  intros [Hl Hf].
  do 8 (destruct r as [|? r]; [done|]). destruct r; [|done].
  assert (wf256 [z; z0; z1; z2]) as Hw.
  { split; [done|]. by apply (Forall_take _ 4%nat) in Hf. }
  split; [done|].
  change [z; z0; z1; z2; z3; z4; z5; z6] with ([z; z0; z1; z2] ++ [z3; z4; z5; z6]).
  rewrite limbs_val_app. change (two64 ^ Z.of_nat (length [z; z0; z1; z2])) with (2 ^ 256).
  rewrite Z.mul_comm, Z.mod_add by lia. symmetry. apply Z.mod_small. by apply wf256_range.
Qed.

(** [u256_mul] is multiplication modulo [2^256]. *)
Lemma u256_mul_spec a b : wf256 a → wf256 b →
  wf256 (u256_mul a b) ∧ limbs_val (u256_mul a b) = (limbs_val a * limbs_val b) mod 2 ^ 256.
Proof.
  intros Ha Hb. unfold u256_mul.
  destruct (mul_rows_spec a b 0 (replicate 8 0)) as [H1 [t H2]]; [apply Ha|done| |by destruct Ha|].
  { wf_limbs_tac. }
  destruct (limbs_low4 _ H1) as [? ->]. split; [done|].
  rewrite H2. cbn [replicate limbs_val].
  rewrite (Z.mul_comm (2 ^ 256) t), Z.mod_add by lia. f_equal. cbn. lia.
Qed.

(** ** Division *)

Lemma limb_val l i : Forall in_u64 l → (i < length l)%nat →
  limb l i = (limbs_val l / two64 ^ Z.of_nat i) mod two64.
Proof.
  intros Hf. revert i. induction Hf as [|w l Hw Hf IH]; intros i Hi; cbn [length] in Hi; [lia|].
  destruct i as [|i]; cbn [limbs_val].
  - unfold limb. cbn. rewrite Z.div_1_r, (Z.mul_comm two64), Z.mod_add by lia.
    symmetry. by apply Z.mod_small.
  - change (limb (w :: l) (S i)) with (limb l i). rewrite IH by lia.
    rewrite pow64_S, <- Z.div_div by lia. f_equal. f_equal.
    rewrite (Z.mul_comm two64), Z.div_add by lia. by rewrite Z.div_small.
Qed.

Lemma nat_bit_split k : Z.of_nat k = 64 * Z.of_nat (k / 64) + Z.of_nat (k mod 64).
Proof. pose proof (Nat.div_mod_eq k 64). lia. Qed.

Lemma two64_pow i : two64 ^ Z.of_nat i = 2 ^ (64 * Z.of_nat i).
Proof. change two64 with (2 ^ 64). rewrite <- Z.pow_mul_r; [done|lia|lia]. Qed.

Lemma testbit_limb l k : Forall in_u64 l → (k < 64 * length l)%nat →
  Z.testbit (limb l (k / 64)) (Z.of_nat (k mod 64)) = Z.testbit (limbs_val l) (Z.of_nat k).
Proof.
  intros Hf Hk. rewrite limb_val by (done || (apply Nat.Div0.div_lt_upper_bound; lia)).
  pose proof (Nat.mod_upper_bound k 64 ltac:(lia)).
  change two64 with (2 ^ 64) at 2. rewrite Z.mod_pow2_bits_low by lia.
  rewrite two64_pow, Z.div_pow2_bits by lia. f_equal. pose proof (nat_bit_split k). lia.
Qed.

Lemma bit_of_spec a k : wf256 a → (k < 256)%nat →
  bit_of a k = (limbs_val a / 2 ^ Z.of_nat k) mod 2.
Proof.
  intros [Hl Hf] Hk. unfold bit_of.
  change 1 with (Z.ones 1). rewrite Z.land_ones by lia. change (2 ^ 1) with 2.
  rewrite Z.shiftr_div_pow2, <- !Z.testbit_spec' by lia.
  by rewrite testbit_limb by (done || rewrite Hl; lia).
Qed.

(** Setting a clear bit adds its weight. *)
Lemma set_bit_spec q k : wf256 q → (k < 256)%nat →
  Z.testbit (limbs_val q) (Z.of_nat k) = false →
  wf256 (set_bit q k) ∧ limbs_val (set_bit q k) = limbs_val q + 2 ^ Z.of_nat k.
Proof.
  intros Hq Hk Hb. pose proof Hq as [Hl Hf]. unfold set_bit.
  assert (k / 64 < 4)%nat as Hi by (apply Nat.Div0.div_lt_upper_bound; lia).
  pose proof (Nat.mod_upper_bound k 64 ltac:(lia)) as Hm.
  rewrite <- testbit_limb in Hb by (done || rewrite Hl; lia).
  set (w := limb q (k / 64)) in *. set (j := Z.of_nat (k mod 64)) in *.
  assert (Z.lor w (Z.shiftl 1 j) = w + 2 ^ j) as Hlor.
  { rewrite Z.shiftl_1_l, <- Z.add_nocarry_lor; [done|].
    apply Z.bits_inj'. intros m Hm'. rewrite Z.land_spec, Z.bits_0, Z.pow2_bits_eqb by lia.
    destruct (Z.eqb_spec j m) as [<-|]; [by rewrite Hb|apply andb_false_r]. }
  assert (in_u64 (Z.lor w (Z.shiftl 1 j))) as Hw.
  { pose proof (limb_range q (k / 64) Hf) as Hr. fold w in Hr. unfold in_u64 in *.
    split; [rewrite Hlor; lia|]. rewrite Z.shiftl_1_l.
    destruct (decide (w = 0)) as [->|]; [rewrite Z.lor_0_l; change two64 with (2 ^ 64); apply Z.pow_lt_mono_r; lia|].
    apply Z.log2_lt_cancel. rewrite Z.log2_lor by lia. change (Z.log2 two64) with 64.
    rewrite Z.log2_pow2 by lia. apply Z.max_lub_lt; [|lia].
    apply Z.log2_lt_pow2; [lia|]. change (2 ^ 64) with two64. lia. }
  split; [by apply wf_limbs_insert|].
  rewrite limbs_val_insert by lia. fold w. rewrite Hlor, two64_pow.
  replace (2 ^ Z.of_nat k) with (2 ^ j * 2 ^ (64 * Z.of_nat (k / 64))); [ring|].
  rewrite <- Z.pow_add_r by lia. f_equal. rewrite (nat_bit_split k). lia.
Qed.

(** Loop invariant: the bits of [a] from [n] up are divided. *)
Definition div_inv (a b : U256) (n : nat) (q r : U256) : Prop :=
  wf256 q ∧ wf256 r ∧ limbs_val r < limbs_val b ∧
  (∃ m, limbs_val q = m * 2 ^ Z.of_nat n ∧
        limbs_val a / 2 ^ Z.of_nat n = m * limbs_val b + limbs_val r).

Lemma pow2_S n : 2 ^ Z.of_nat (S n) = 2 * 2 ^ Z.of_nat n.
Proof. rewrite Nat2Z.inj_succ, Z.pow_succ_r; lia. Qed.

(** [remainder[0] |= bit] on a shifted remainder. *)
Lemma or_low_bit r r0 c bit : wf256 r0 → wf256 r → 0 ≤ bit ≤ 1 → 0 ≤ c →
  limbs_val r + c * 2 ^ 256 = 2 * limbs_val r0 →
  let r' := if bit =? 1 then <[0%nat := Z.lor (limb r 0) 1]> r else r in
  wf256 r' ∧ limbs_val r' + c * 2 ^ 256 = 2 * limbs_val r0 + bit.
Proof.
  intros H0 Hr Hb Hc Hv. cbn zeta. destruct (Z.eqb_spec bit 1) as [->|].
  2: { split; [done|]. lia. }
  limbs Hr. cbn in Hv. unfold limb. cbn.
  assert (∃ k, w = 2 * k) as [k ->].
  { exists (w / 2). Z.div_mod_to_equations. lia. }
  rewrite lor_low_bit by lia. split; [wf_limbs_tac|]. lia.
Qed.

Lemma div_step_inv a b k q r : wf256 a → wf256 b → (k < 256)%nat →
  div_inv a b (S k) q r → div_inv a b k (div_step a b k q r).1 (div_step a b k q r).2.
Proof.
  intros Ha Hb Hk (Hq & Hr & Hlt & m & Hm & Hdiv).
  destruct (u256_shl1_spec r Hr) as (Hs1 & Hs2 & Hs3).
  unfold div_step. destruct (u256_shl1 r) as [r1 out]. cbn [fst snd] in *.
  pose proof (bit_of_spec a k Ha Hk) as Hbit.
  pose proof (Z.mod_pos_bound (limbs_val a / 2 ^ Z.of_nat k) 2 ltac:(lia)) as Hb01.
  rewrite <- Hbit in Hb01.
  destruct (or_low_bit r1 r out (bit_of a k) Hr Hs1) as [Hw2 Hv2]; [lia..|].
  set (r2 := if bit_of a k =? 1 then _ else r1) in *. clearbody r2.
  assert (limbs_val a / 2 ^ Z.of_nat k = 2 * m * limbs_val b + (2 * limbs_val r + bit_of a k)) as Hak.
  { rewrite pow2_S, (Z.mul_comm 2), <- Z.div_div in Hdiv by lia.
    pose proof (Z.div_mod (limbs_val a / 2 ^ Z.of_nat k) 2). lia. }
  rewrite u256_gt_spec by done. rewrite pow2_S in Hm.
  pose proof (wf256_range b Hb). pose proof (wf256_range r2 Hw2).
  destruct ((out =? 1) || negb (limbs_val r2 <? limbs_val b)) eqn:E; cbn [fst snd].
  - destruct (u256_sub_spec r2 b Hw2 Hb) as [Hw3 Hv3].
    destruct (set_bit_spec q k Hq Hk) as [Hq1 Hq2].
    { rewrite Hm. replace (m * (2 * 2 ^ Z.of_nat k)) with ((m * 2) * 2 ^ Z.of_nat k) by ring.
      rewrite Z.mul_pow2_bits, Z.sub_diag by lia. rewrite Z.bit0_odd, Z.mul_comm, Z.odd_mul.
      done. }
    assert (limbs_val (u256_sub_assign r2 b) = 2 * limbs_val r + bit_of a k - limbs_val b) as Hsub.
    { rewrite Hv3, <- (Z.mod_add _ out) by lia.
      replace (limbs_val r2 - limbs_val b + out * 2 ^ 256)
        with (2 * limbs_val r + bit_of a k - limbs_val b) by lia.
      apply Z.mod_small.
      apply orb_true_iff in E as [E%Z.eqb_eq|E%negb_true_iff%Z.ltb_ge]; lia. }
    split; [done|]. split; [done|]. split; [lia|].
    exists (2 * m + 1). split; [rewrite Hq2, Hm; ring|]. rewrite Hak, Hsub. ring.
  - apply orb_false_iff in E as [E1%Z.eqb_neq E2%negb_false_iff%Z.ltb_lt].
    split; [done|]. split; [done|]. split; [done|].
    exists (2 * m). split; [rewrite Hm; ring|]. rewrite Hak. lia.
Qed.

Lemma div_loop_spec a b n q r : wf256 a → wf256 b → (n ≤ 256)%nat →
  div_inv a b n q r →
  wf256 (div_loop a b n q r) ∧ limbs_val (div_loop a b n q r) = limbs_val a / limbs_val b.
Proof.
  intros Ha Hb. revert q r. induction n as [|n IH]; intros q r Hn Hi.
  - destruct Hi as (Hq & Hr & Hlt & m & Hm & Hdiv). cbn in *.
    rewrite Z.div_1_r in Hdiv. split; [done|].
    pose proof (wf256_range r Hr).
    rewrite Hm. apply Z.div_unique_pos with (limbs_val r); lia.
  - cbn [div_loop]. pose proof (div_step_inv a b n q r Ha Hb ltac:(lia) Hi) as Hs.
    destruct (div_step a b n q r) as [q' r']. apply IH; [lia|done].
Qed.

(** [u256_div] is truncating division, with [x / 0 = 0]. *)
Lemma u256_div_spec a b : wf256 a → wf256 b →
  wf256 (u256_div a b) ∧ limbs_val (u256_div a b) = limbs_val a / limbs_val b.
Proof.
  intros Ha Hb. pose proof (wf256_range a Ha). pose proof (wf256_range b Hb).
  unfold u256_div. case_decide as E.
  { subst. split; [apply wf256_zero|]. cbn. by rewrite Z.div_0_r. }
  rewrite u256_eq_zero in E by done. rewrite u256_gt_spec by done.
  destruct (Z.ltb_spec (limbs_val a) (limbs_val b)).
  { split; [apply wf256_zero|]. rewrite Z.div_small by lia. done. }
  apply div_loop_spec; [done|done|lia|].
  split; [apply wf256_zero|]. split; [apply wf256_zero|]. split; [cbn; lia|].
  exists 0. split; [done|]. rewrite Z.div_small by done. done.
Qed.

(** ** Saturating multiplication *)

(** The division test detects every overflow. *)
Lemma u256_mul_sat_spec a b : wf256 a → wf256 b →
  wf256 (u256_mul_sat a b) ∧
  limbs_val (u256_mul_sat a b) = Z.min (limbs_val a * limbs_val b) (2 ^ 256 - 1).
Proof.
  intros Ha Hb. pose proof (wf256_range a Ha). pose proof (wf256_range b Hb).
  unfold u256_mul_sat. case_decide as E.
  { split; [apply wf256_zero|]. rewrite !u256_eq_zero in E by done.
    change (limbs_val u256_zero) with 0. destruct E as [-> | ->]; lia. }
  rewrite !u256_eq_zero in E by done.
  destruct (u256_mul_spec a b Ha Hb) as [Hm1 Hm2].
  destruct (u256_div_spec (u256_mul a b) b Hm1 Hb) as [Hd1 Hd2].
  assert (limbs_val a ≠ 0 ∧ limbs_val b ≠ 0) as [Ha0 Hb0] by tauto.
  destruct (Z.lt_ge_cases (limbs_val a * limbs_val b) (2 ^ 256)) as [Hlt|Hge].
  - rewrite decide_True.
    + split; [done|]. rewrite Hm2, Z.mod_small by nia. lia.
    + apply wf256_inj; [done..|]. rewrite Hd2, Hm2, Z.mod_small by nia.
      apply Z.div_mul. lia.
  - rewrite decide_False.
    + split; [apply wf256_MAX|]. rewrite limbs_val_MAX. lia.
    + intros Heq. rewrite Heq, Hm2 in Hd2.
      pose proof (Z.mod_pos_bound (limbs_val a * limbs_val b) (2 ^ 256) ltac:(lia)).
      pose proof (Z.mul_div_le ((limbs_val a * limbs_val b) mod 2 ^ 256) (limbs_val b) ltac:(lia)).
      lia.
Qed.

#[export] Hint Resolve wf256_zero wf256_MAX : strange.
