(* ===== verification/Abi.v ===== *)
(** * ABI types (core/src/abi/mod.rs)

    The type grammar of the JSON ABI with its classification, its canonical
    names and its parser.  [CreateTx] carries a list of [AbiParam], and the
    canonical transaction encoding embeds the canonical names. *)

From S2P Require Import Prelude Bytes.
Open Scope Z_scope.

Inductive AbiType : Type :=
  | TUint (bits : Z)
  | TInt (bits : Z)
  | TBool
  | TAddress
  | TBytes
  | TString
  | TArray (elem : AbiType)
  | TFixedArray (elem : AbiType) (len : Z)
  | TTuple (elems : list AbiType).

Record AbiParam := { ap_name : string; ap_type : AbiType }.

(** Induction over the nested type. *)
Section AbiType_nested_ind.
Variable P : AbiType → Prop.
Hypothesis PUint : ∀ n, P (TUint n).
Hypothesis PInt : ∀ n, P (TInt n).
Hypothesis PBool : P TBool.
Hypothesis PAddress : P TAddress.
Hypothesis PBytes : P TBytes.
Hypothesis PString : P TString.
Hypothesis PArray : ∀ t, P t → P (TArray t).
Hypothesis PFixed : ∀ t n, P t → P (TFixedArray t n).
Hypothesis PTuple : ∀ ts, Forall P ts → P (TTuple ts).

Fixpoint AbiType_nested_ind (t : AbiType) : P t :=
  match t with
  | TUint n => PUint n | TInt n => PInt n | TBool => PBool | TAddress => PAddress
  | TBytes => PBytes | TString => PString
  | TArray e => PArray e (AbiType_nested_ind e)
  | TFixedArray e n => PFixed e n (AbiType_nested_ind e)
  | TTuple ts => PTuple ts ((fix go ts := match ts return Forall P ts with
      | [] => Forall_nil_2 P
      | t :: ts => Forall_cons_2 P t ts (AbiType_nested_ind t) (go ts) end) ts)
  end.
End AbiType_nested_ind.

Fixpoint abi_eqb (a b : AbiType) : bool :=
  match a, b with
  | TUint n, TUint m | TInt n, TInt m => n =? m
  | TBool, TBool | TAddress, TAddress | TBytes, TBytes | TString, TString => true
  | TArray e, TArray f => abi_eqb e f
  | TFixedArray e n, TFixedArray f m => abi_eqb e f && (n =? m)
  | TTuple es, TTuple fs =>
      (fix go es fs := match es, fs with
       | [], [] => true
       | e :: es, f :: fs => abi_eqb e f && go es fs
       | _, _ => false end) es fs
  | _, _ => false
  end.

Lemma abi_eqb_eq a b : abi_eqb a b = true ↔ a = b.
Proof.
  revert b. induction a as [n|n| | | | |e IH|e n IH|es IH] using AbiType_nested_ind;
    intros b; destruct b; cbn; try (split; [done|congruence]); try done.
  1,2: rewrite Z.eqb_eq; split; congruence.
  - rewrite IH. split; congruence.
  - rewrite andb_true_iff, IH, Z.eqb_eq. split; [intros [-> ->]; done|intros [= -> ->]; done].
  - assert (∀ fs, (fix go es fs := match es, fs with
       | [], [] => true
       | e :: es, f :: fs => abi_eqb e f && go es fs
       | _, _ => false end) es fs = true ↔ es = fs) as H.
    { induction IH as [|e es He _ IHes]; intros [|f fs]; try done.
      rewrite andb_true_iff, He, IHes. split; [intros [-> ->]; done|intros [= -> ->]; done]. }
    rewrite H. split; congruence.
Qed.

#[export] Instance AbiType_eq_dec : EqDecision AbiType.
Proof.
  intros a b. destruct (abi_eqb a b) eqn:E.
  - left. by apply abi_eqb_eq.
  - right. intros H%abi_eqb_eq. congruence.
Defined.

#[export] Instance AbiParam_eq_dec : EqDecision AbiParam.
Proof. solve_decision. Defined.

(** ** Classification *)

(** [(8..=256).contains(&bits) && bits.is_multiple_of(8)]. *)
Definition validate_bits (bits : Z) : bool :=
  (8 <=? bits) && (bits <=? 256) && (bits mod 8 =? 0).

Fixpoint is_dynamic (t : AbiType) : bool :=
  match t with
  | TUint _ | TInt _ | TBool | TAddress => false
  | TBytes | TString | TArray _ => true
  | TFixedArray elem _ => is_dynamic elem
  | TTuple elems => existsb is_dynamic elems
  end.

Fixpoint static_size (t : AbiType) : option Z :=
  match t with
  | TUint _ | TInt _ | TBool | TAddress => Some 32
  | TFixedArray elem len => s ← static_size elem; Some (mul64 s len)
  | TTuple elems =>
      (fix go total es := match es with
       | [] => Some total
       | e :: es => s ← static_size e; go (add64 total s) es
       end) 0 elems
  | TBytes | TString | TArray _ => None
  end.

(** ** Canonical names *)

(** Decimal digits of [n] ([format!("{n}")]), most significant first. *)
Fixpoint dec_go (fuel : nat) (n : Z) : list byte :=
  match fuel with
  | O => []
  | S fuel =>
      if n <? 10 then [byte_of (48 + n)]
      else dec_go fuel (n / 10) ++ [byte_of (48 + n mod 10)]
  end.
Definition dec (n : Z) : list byte := dec_go (S (Z.to_nat (Z.log2 n))) n.
Definition lit (s : string) : list byte := as_bytes s.

(** Evaluates the string literals of the goal and the hypotheses. *)
Ltac eval_lits :=
  repeat match goal with
  | |- context [lit ?s] => let v := eval vm_compute in (lit s) in change (lit s) with v
  | H : context [lit ?s] |- _ => let v := eval vm_compute in (lit s) in change (lit s) with v in H
  end.

(** [parts.join(",")]. *)
Fixpoint join_comma (parts : list (list byte)) : list byte :=
  match parts with
  | [] => []
  | [p] => p
  | p :: ps => p ++ lit "," ++ join_comma ps
  end.

Fixpoint canonical_name (t : AbiType) : list byte :=
  match t with
  | TUint n => lit "uint" ++ dec n
  | TInt n => lit "int" ++ dec n
  | TBool => lit "bool"
  | TAddress => lit "address"
  | TBytes => lit "bytes"
  | TString => lit "string"
  | TArray elem => canonical_name elem ++ lit "[]"
  | TFixedArray elem len => canonical_name elem ++ lit "[" ++ dec len ++ lit "]"
  | TTuple elems => lit "(" ++ join_comma (canonical_name <$> elems) ++ lit ")"
  end.

(** ** Parsing *)

Definition is_digit (b : byte) : bool := (48 <=? byte_val b) && (byte_val b <=? 57).

(** Value of a run of decimal digits, bounded by [max]: [None] on a non-digit
    or as soon as the value passes [max]. *)
Fixpoint parse_digits (max acc : Z) (s : list byte) : option Z :=
  match s with
  | [] => Some acc
  | b :: s =>
      if is_digit b then
        let acc' := acc * 10 + (byte_val b - 48) in
        if acc' <=? max then parse_digits max acc' s else None
      else None
  end.

(** [str::parse::<uN>()]: a nonempty digit string, with an optional leading [+]. *)
Definition parse_uint (max : Z) (s : list byte) : option Z :=
  match s with
  | [] => None
  | b :: s' =>
      if decide (b = "+"%byte) then
        match s' with [] => None | _ => parse_digits max 0 s' end
      else parse_digits max 0 s
  end.

(** [s.strip_suffix(suf)] and [s.strip_prefix(pre)]. *)
Definition strip_prefix (pre s : list byte) : option (list byte) :=
  if decide (take (length pre) s = pre) then Some (drop (length pre) s) else None.
Definition strip_suffix (suf s : list byte) : option (list byte) :=
  reverse <$> strip_prefix (reverse suf) (reverse s).

(** [s.rfind(c)]: index of the last occurrence. *)
Definition rfind (c : byte) (s : list byte) : option nat :=
  match list_find (c =.) (reverse s) with
  | Some (i, _) => Some (length s - S i)%nat
  | None => None
  end.

(** The top-level comma split of a tuple body: [depth] counts open brackets,
    [cur] is the current part. *)
Fixpoint split_parts (s : list byte) (depth : nat) (cur : list byte) : list (list byte) :=
  match s with
  | [] => [cur]
  | b :: s =>
      if decide (b = "("%byte ∨ b = "["%byte) then split_parts s (S depth) (cur ++ [b])
      else if decide (b = ")"%byte ∨ b = "]"%byte) then split_parts s (pred depth) (cur ++ [b])
      else if decide (b = ","%byte ∧ depth = O) then cur :: split_parts s depth []
      else split_parts s depth (cur ++ [b])
  end.

Definition usize_max : Z := u64_max.

(** [AbiType::parse]; [None] is [Err(AbiError::InvalidType)].  The recursion is
    on strictly shorter strings: [fuel] bounds its depth. *)
Fixpoint parse_fuel (fuel : nat) (s : list byte) : option AbiType :=
  match fuel with
  | O => None
  | S fuel =>
    match strip_suffix (lit "[]") s with
    | Some inner => TArray <$> parse_fuel fuel inner
    | None =>
      if decide (last s = Some "]"%byte) then
        open ← rfind "["%byte s;
        let elem := take open s in
        let len_s := take (length s - 1 - S open) (drop (S open) s) in
        if negb (length len_s =? 0)%nat && forallb is_digit len_s then
          len ← parse_uint usize_max len_s;
          if len =? 0 then None
          else t ← parse_fuel fuel elem; Some (TFixedArray t len)
        else None
      else if decide (head s = Some "("%byte ∧ last s = Some ")"%byte ∧ (2 ≤ length s)%nat) then
        let inner := take (length s - 2) (drop 1 s) in
        if decide (inner = []) then Some (TTuple [])
        else TTuple <$> mapM (parse_fuel fuel) (split_parts inner 0 [])
      else if decide (s = lit "bool") then Some TBool
      else if decide (s = lit "address") then Some TAddress
      else if decide (s = lit "bytes") then Some TBytes
      else if decide (s = lit "string") then Some TString
      else match strip_prefix (lit "uint") s with
      | Some n => bits ← parse_uint 65535 n; if validate_bits bits then Some (TUint bits) else None
      | None =>
        match strip_prefix (lit "int") s with
        | Some n => bits ← parse_uint 65535 n; if validate_bits bits then Some (TInt bits) else None
        | None => None
        end
      end
    end
  end.

Definition abi_parse (s : list byte) : option AbiType := parse_fuel (S (length s)) s.

(** ** Well-formed types: what [parse] can return *)

Fixpoint wf_abi (t : AbiType) : bool :=
  match t with
  | TUint n | TInt n => validate_bits n
  | TBool | TAddress | TBytes | TString => true
  | TArray e => wf_abi e
  | TFixedArray e n => wf_abi e && (0 <? n) && (n <=? usize_max)
  | TTuple es => forallb wf_abi es
  end.

(** ** Decimal printing *)

Lemma is_digit_byte_of d : 0 ≤ d < 10 → is_digit (byte_of (48 + d)) = true.
Proof. intros. unfold is_digit. rewrite byte_val_of, Z.mod_small by lia. lia. Qed.

Lemma parse_digits_app max acc s b v :
  parse_digits max acc s = Some v → is_digit b = true →
  v * 10 + (byte_val b - 48) ≤ max →
  parse_digits max acc (s ++ [b]) = Some (v * 10 + (byte_val b - 48)).
Proof.
  revert acc. induction s as [|c s IH]; intros acc; cbn.
  - intros [= ->] -> ?. destruct (Z.leb_spec (v * 10 + (byte_val b - 48)) max); [done|lia].
  - destruct (is_digit c), (acc * 10 + (byte_val c - 48) <=? max); try done. eauto.
Qed.

Lemma dec_go_spec fuel n max :
  0 ≤ n ≤ max → n < 2 ^ Z.of_nat fuel →
  parse_digits max 0 (dec_go fuel n) = Some n
  ∧ forallb is_digit (dec_go fuel n) = true ∧ (0 < fuel → dec_go fuel n ≠ [])%nat.
Proof.
  revert n. induction fuel as [|fuel IH]; intros n Hn Hf.
  { rewrite Z.pow_0_r in Hf. replace n with 0 by lia. split_and!; [done..|lia]. }
  cbn [dec_go]. destruct (Z.ltb_spec n 10) as [H|H].
  - cbn. rewrite (is_digit_byte_of n), byte_val_of, Z.mod_small by lia.
    replace (0 * 10 + (48 + n - 48)) with n by lia.
    destruct (Z.leb_spec n max); [done|lia].
  - assert (n = 10 * (n / 10) + n mod 10) as E by (apply Z.div_mod; lia).
    pose proof (Z.mod_pos_bound n 10 ltac:(lia)).
    destruct (IH (n / 10)) as (IH1 & IH2 & _); [lia| |].
    { rewrite Nat2Z.inj_succ, Z.pow_succ_r in Hf by lia. lia. }
    assert (byte_val (byte_of (48 + n mod 10)) = 48 + n mod 10) as Hb.
    { rewrite byte_val_of, Z.mod_small; lia. }
    split_and!.
    + erewrite parse_digits_app; [|exact IH1|by apply is_digit_byte_of|]; rewrite Hb; [|lia].
      f_equal. lia.
    + rewrite forallb_app, IH2. cbn. by rewrite is_digit_byte_of.
    + intros _ Hnil. by apply app_nil in Hnil as [_ ?].
Qed.

Lemma dec_spec n max :
  0 ≤ n ≤ max →
  parse_digits max 0 (dec n) = Some n ∧ forallb is_digit (dec n) = true ∧ dec n ≠ [].
Proof.
  intros Hn. destruct (dec_go_spec (S (Z.to_nat (Z.log2 n))) n max) as (?&?&H); [done| |].
  - rewrite Nat2Z.inj_succ, Z2Nat.id by apply Z.log2_nonneg.
    destruct (decide (n = 0)) as [->|]; [done|]. apply Z.log2_spec. lia.
  - split_and!; [done..|]. apply H. lia.
Qed.

Lemma parse_uint_dec n max : 0 ≤ n ≤ max → parse_uint max (dec n) = Some n.
Proof.
  intros Hn. destruct (dec_spec n max Hn) as (H1 & H2 & H3).
  unfold parse_uint. destruct (dec n) as [|b s] eqn:E; [done|].
  case_decide as Hb; [|done]. subst b. by cbn in H2.
Qed.

(** ** String operations *)

Lemma strip_prefix_app pre s : strip_prefix pre (pre ++ s) = Some s.
Proof.
  unfold strip_prefix. rewrite take_app_length, decide_True by done. by rewrite drop_app_length.
Qed.

Lemma strip_suffix_app suf s : strip_suffix suf (s ++ suf) = Some s.
Proof. unfold strip_suffix. rewrite reverse_app, strip_prefix_app. cbn. by rewrite reverse_involutive. Qed.

Lemma strip_suffix_Some suf s x : strip_suffix suf s = Some x → s = x ++ suf.
Proof.
  unfold strip_suffix, strip_prefix. case_decide as H; cbn; [|done]. intros [= <-].
  rewrite <- (reverse_involutive s) at 1.
  rewrite <- (take_drop (length (reverse suf)) (reverse s)) at 1.
  by rewrite H, reverse_app, reverse_involutive.
Qed.

Lemma list_find_skip {A} (P : A → Prop) `{∀ x, Decision (P x)} xs y ys :
  Forall (λ x, ¬ P x) xs → P y → list_find P (xs ++ y :: ys) = Some (length xs, y).
Proof.
  induction 1 as [|x xs Hx _ IH]; intros Hy; cbn.
  - by rewrite decide_True.
  - rewrite decide_False by done. by rewrite IH.
Qed.

Lemma rfind_split c s t : c ∉ t → rfind c (s ++ c :: t) = Some (length s).
Proof.
  intros Hc. unfold rfind. rewrite reverse_app, reverse_cons, <- app_assoc. cbn [app].
  rewrite list_find_skip; [|apply Forall_forall; intros x Hx <-;
    by apply Hc, elem_of_reverse|done].
  f_equal. rewrite length_app, length_reverse. cbn. lia.
Qed.

Lemma digits_not b s : forallb is_digit s = true → is_digit b = false → b ∉ s.
Proof.
  intros H Hb Hin. rewrite forallb_forall in H. specialize (H b).
  rewrite <- list_elem_of_In in H. rewrite H in Hb; done.
Qed.

(** ** The comma splitter on canonical names *)

(** A string the splitter passes over at every depth. *)
Definition opaque_part (c : list byte) : Prop :=
  ∀ s d cur, split_parts (c ++ s) d cur = split_parts s d (cur ++ c).

Definition special_byte (b : byte) : bool :=
  negb (forallb (λ x, negb (bool_decide (b = x))) ["("; ")"; "["; "]"; ","]%byte).

Lemma opaque_nil : opaque_part [].
Proof. intros s d cur. by rewrite app_nil_r. Qed.

Lemma opaque_app a b : opaque_part a → opaque_part b → opaque_part (a ++ b).
Proof. intros Ha Hb s d cur. by rewrite <- app_assoc, Ha, Hb, app_assoc. Qed.

Lemma opaque_plain c : forallb (λ b, negb (special_byte b)) c = true → opaque_part c.
Proof.
  induction c as [|b c IH]; cbn; [intros _; apply opaque_nil|].
  intros [Hb Hc]%andb_true_iff s d cur. unfold special_byte in Hb. rewrite negb_involutive in Hb. cbn in Hb |- *.
  repeat (apply andb_true_iff in Hb as [?%negb_true_iff%bool_decide_eq_false Hb]).
  rewrite !decide_False by tauto. rewrite IH by done. by rewrite <- app_assoc.
Qed.

Lemma digit_plain b : is_digit b = true → negb (special_byte b) = true.
Proof.
  intros H. unfold special_byte. rewrite negb_involutive. apply forallb_forall.
  intros x Hx. apply negb_true_iff, bool_decide_eq_false. intros ->.
  cbn in Hx. destruct Hx as [<-|[<-|[<-|[<-|[<-|[]]]]]]; done.
Qed.

Lemma opaque_digits c : forallb is_digit c = true → opaque_part c.
Proof.
  intros H. apply opaque_plain, forallb_forall. intros b Hb.
  rewrite forallb_forall in H. by apply digit_plain, H.
Qed.

Lemma split_parts_steps s d cur :
  split_parts ("("%byte :: s) d cur = split_parts s (S d) (cur ++ ["("%byte])
  ∧ split_parts ("["%byte :: s) d cur = split_parts s (S d) (cur ++ ["["%byte])
  ∧ split_parts (")"%byte :: s) (S d) cur = split_parts s d (cur ++ [")"%byte])
  ∧ split_parts ("]"%byte :: s) (S d) cur = split_parts s d (cur ++ ["]"%byte])
  ∧ split_parts (","%byte :: s) (S d) cur = split_parts s (S d) (cur ++ [","%byte])
  ∧ split_parts (","%byte :: s) 0 cur = cur :: split_parts s 0 [].
Proof. split_and!; reflexivity. Qed.

(** Inside brackets commas no longer separate. *)
Lemma split_join_deep ts s d cur :
  Forall opaque_part ts →
  split_parts (join_comma ts ++ s) (S d) cur = split_parts s (S d) (cur ++ join_comma ts).
Proof.
  intros H. revert cur. induction H as [|t ts Ht Hts IH]; intros cur; cbn.
  - by rewrite app_nil_r.
  - destruct ts as [|t' ts]; [apply Ht|].
    rewrite <- app_assoc, Ht, <- app_assoc. change (lit ",") with [","%byte].
    cbn [app]. rewrite (proj1 (proj2 (proj2 (proj2 (proj2 (split_parts_steps _ _ _)))))), IH.
    by rewrite <- !app_assoc.
Qed.

(** At depth 0 the splitter inverts the join. *)
Lemma split_join ts :
  Forall opaque_part ts → ts ≠ [] → split_parts (join_comma ts) 0 [] = ts.
Proof.
  intros H. induction H as [|t ts Ht Hts IH]; intros Hne; [done|].
  destruct ts as [|t' ts].
  - cbn [join_comma]. rewrite <- (app_nil_r t) at 1. by rewrite Ht.
  - cbn [join_comma]. rewrite Ht. change (lit ",") with [","%byte].
    cbn [app]. rewrite (proj2 (proj2 (proj2 (proj2 (proj2 (split_parts_steps _ 0 _)))))).
    cbn [app]. f_equal. by apply IH.
Qed.

Lemma opaque_brackets c : (∀ s d cur,
    split_parts (c ++ s) (S d) cur = split_parts s (S d) (cur ++ c)) →
  opaque_part (lit "(" ++ c ++ lit ")") ∧ opaque_part (lit "[" ++ c ++ lit "]").
Proof.
  change (lit "(") with ["("%byte]. change (lit ")") with [")"%byte].
  change (lit "[") with ["["%byte]. change (lit "]") with ["]"%byte].
  intros H. split; intros s d cur; rewrite <- !app_assoc; cbn [app];
    pose proof (split_parts_steps (c ++ [")"%byte] ++ s) d cur) as (E1 & _);
    pose proof (split_parts_steps (c ++ ["]"%byte] ++ s) d cur) as (_ & E2 & _);
    cbn [app] in E1, E2; rewrite ?E1, ?E2, H;
    pose proof (split_parts_steps s d) as E3; rewrite ?(proj1 (proj2 (proj2 (E3 _)))),
      ?(proj1 (proj2 (proj2 (proj2 (E3 _))))); by rewrite <- !app_assoc.
Qed.

Lemma wf_uint_dec n : validate_bits n = true → forallb is_digit (dec n) = true.
Proof. intros H. apply (dec_spec n 65535). unfold validate_bits in H. lia. Qed.

Lemma canonical_name_opaque t : wf_abi t = true → opaque_part (canonical_name t).
Proof.
  induction t as [n|n| | | | |e IH|e n IH|es IH] using AbiType_nested_ind; cbn; intros Hwf;
    try (by apply opaque_plain).
  1,2: apply opaque_app; [by apply opaque_plain|by apply opaque_digits, wf_uint_dec].
  - apply opaque_app; [auto|]. by apply (opaque_brackets []); intros s d cur; rewrite app_nil_r.
  - apply andb_true_iff in Hwf as [[Hwf Hn]%andb_true_iff Hn'].
    apply opaque_app; [auto|]. apply opaque_brackets. intros. apply opaque_digits.
    apply (dec_spec n usize_max). lia.
  - apply opaque_brackets. intros. apply split_join_deep.
    rewrite forallb_forall in Hwf. rewrite Forall_forall in IH.
    apply Forall_fmap, Forall_forall. intros t Ht. apply IH; [done|].
    apply Hwf. by apply list_elem_of_In.
Qed.

Lemma canonical_name_nonempty t : canonical_name t ≠ [].
Proof. destruct t; cbn; try done; intros H; by apply app_nil in H as []. Qed.

(** ** Parsing inverts printing *)

(** The finitely many integer types, checked by evaluation. *)
Definition all_bits : list Z := (λ i, 8 * Z.of_nat i) <$> seq 1 32.

Lemma validate_bits_enum n : validate_bits n = true → n ∈ all_bits.
Proof.
  unfold validate_bits, all_bits. intros H. apply list_elem_of_fmap.
  exists (Z.to_nat (n / 8)). split.
  - rewrite Z2Nat.id by (apply Z.div_pos; lia). pose proof (Z.div_mod n 8 ltac:(lia)). lia.
  - apply elem_of_seq.
    assert (8 * (n / 8) = n) by (pose proof (Z.div_mod n 8 ltac:(lia)); lia). lia.
Qed.

Lemma parse_int_types f n :
  validate_bits n = true →
  parse_fuel (S f) (canonical_name (TUint n)) = Some (TUint n)
  ∧ parse_fuel (S f) (canonical_name (TInt n)) = Some (TInt n).
Proof.
  intros H%validate_bits_enum. revert n H. apply Forall_forall.
  unfold all_bits. repeat (apply Forall_cons; split; [split; reflexivity|]). constructor.
Qed.

Lemma last_snoc_bytes (s : list byte) b : last (s ++ [b]) = Some b.
Proof. apply last_snoc. Qed.

Lemma no_empty_suffix s b : b ≠ "]"%byte → strip_suffix (lit "[]") (s ++ [b]) = None.
Proof.
  intros Hb. destruct (strip_suffix _ _) as [x|] eqn:E; [|done].
  apply strip_suffix_Some in E. change (lit "[]") with (["["%byte] ++ ["]"%byte]) in E.
  rewrite app_assoc in E. by apply app_inj_tail in E as [_ ?].
Qed.

Lemma no_empty_suffix_digit s b :
  is_digit b = true → strip_suffix (lit "[]") (s ++ [b] ++ lit "]") = None.
Proof.
  intros Hb. destruct (strip_suffix _ _) as [x|] eqn:E; [|done].
  apply strip_suffix_Some in E. change (lit "[]") with (["["%byte] ++ ["]"%byte]) in E.
  change (lit "]") with ["]"%byte] in E. rewrite !app_assoc in E.
  apply app_inj_tail in E as [E _]. apply app_inj_tail in E as [_ ->]. done.
Qed.

Lemma mapM_parse_fuel f ts :
  Forall (λ t, parse_fuel f (canonical_name t) = Some t) ts →
  mapM (parse_fuel f) (canonical_name <$> ts) = Some ts.
Proof. induction 1 as [|t ts Ht _ IH]; cbn; [done|]. by rewrite Ht; cbn; rewrite IH. Qed.

Lemma length_join_comma ts t :
  t ∈ ts → (length t ≤ length (join_comma ts))%nat.
Proof.
  induction ts as [|u ts IH]; intros H; [by apply not_elem_of_nil in H|].
  cbn. apply elem_of_cons in H as [->|H].
  - destruct ts; [done|]. rewrite length_app. lia.
  - destruct ts; [by apply not_elem_of_nil in H|]. rewrite !length_app. specialize (IH H). lia.
Qed.

Lemma join_comma_nonempty ts : Forall (λ t, t ≠ []) ts → ts ≠ [] → join_comma ts ≠ [].
Proof.
  intros H Hne. destruct H as [|t ts Ht _]; [done|]. cbn. destruct ts; [done|].
  intros E. by apply app_nil in E as [? _].
Qed.

Lemma parse_fixed f s n t :
  0 < n ≤ usize_max → parse_fuel f s = Some t →
  parse_fuel (S f) (s ++ lit "[" ++ dec n ++ lit "]") = Some (TFixedArray t n).
Proof.
  intros Hn Ht. destruct (dec_spec n usize_max) as (_ & Hd & Hne); [lia|].
  assert (∃ d b, dec n = d ++ [b] ∧ is_digit b = true) as (d & b & Ed & Hb).
  { destruct (exists_last Hne) as (d & b & E). exists d, b. split; [done|].
    rewrite E, forallb_app in Hd. cbn in Hd. rewrite andb_true_r in Hd. by apply andb_true_iff in Hd as [_ ?]. }
  cbn [parse_fuel].
  rewrite Ed at 1. rewrite <- (app_assoc d), (app_assoc (lit "[")), (app_assoc s).
  rewrite no_empty_suffix_digit by done.
  assert (s ++ lit "[" ++ dec n ++ lit "]" = (s ++ lit "[" ++ dec n) ++ ["]"%byte]) as Es
    by by rewrite <- !app_assoc.
  rewrite decide_True by (by rewrite Es, last_snoc_bytes).
  assert (rfind "["%byte (s ++ lit "[" ++ dec n ++ lit "]") = Some (length s)) as ->.
  { apply rfind_split. apply not_elem_of_app. split; [by eapply digits_not|].
    change (lit "]") with ["]"%byte]. by intros [[=]|[]]%list_elem_of_In. }
  cbn [mbind option_bind]. rewrite take_app_length.
  assert (drop (S (length s)) (s ++ lit "[" ++ dec n ++ lit "]") = dec n ++ lit "]") as ->.
  { rewrite (app_assoc s). apply drop_app_length'. rewrite length_app. eval_lits; cbn; lia. }
  rewrite take_app_length' by (rewrite !length_app; eval_lits; cbn; lia).
  rewrite Hd. destruct (dec n) as [|b0 d0] eqn:E; [done|]. rewrite <- E. cbn [length Nat.eqb negb andb].
  rewrite parse_uint_dec by lia. cbn [mbind option_bind].
  destruct (Z.eqb_spec n 0); [lia|]. by rewrite E, Ht.
Qed.

Lemma parse_tuple f ts :
  Forall (λ t, parse_fuel f (canonical_name t) = Some t) ts → forallb wf_abi ts = true →
  parse_fuel (S f) (canonical_name (TTuple ts)) = Some (TTuple ts).
Proof.
  intros Hts Hwf. cbn [canonical_name]. set (inner := join_comma _).
  assert (lit "(" ++ inner ++ lit ")" = (lit "(" ++ inner) ++ [")"%byte]) as Es
    by by rewrite <- app_assoc.
  cbn [parse_fuel]. rewrite Es, no_empty_suffix by done. rewrite last_snoc_bytes.
  rewrite decide_False by done. rewrite decide_True.
  2: { split_and!; [done..|]. rewrite !length_app. eval_lits; cbn; lia. }
  assert (take (length ((lit "(" ++ inner) ++ [")"%byte]) - 2)
    (drop 1 ((lit "(" ++ inner) ++ [")"%byte])) = inner) as ->.
  { rewrite <- app_assoc. change (lit "(") with ["("%byte]. cbn [app drop].
    apply take_app_length'. cbn. rewrite !length_app. eval_lits; cbn; lia. }
  case_decide as Hi.
  - destruct ts as [|t ts]; [done|]. destruct (join_comma_nonempty (canonical_name <$> t :: ts)); [|done..].
    apply Forall_fmap, Forall_forall. intros. apply canonical_name_nonempty.
  - subst inner. rewrite split_join.
    + by rewrite mapM_parse_fuel.
    + apply Forall_fmap, Forall_forall. intros t Ht. apply canonical_name_opaque.
      rewrite forallb_forall in Hwf. by apply Hwf, list_elem_of_In.
    + intros E. apply fmap_nil_inv in E. by subst.
Qed.

Lemma parse_canonical_fuel t f :
  wf_abi t = true → (length (canonical_name t) < f)%nat →
  parse_fuel f (canonical_name t) = Some t.
Proof.
  revert f. induction t as [n|n| | | | |e IH|e n IH|es IH] using AbiType_nested_ind;
    intros [|f] Hwf Hf; try lia; try reflexivity; try (by apply parse_int_types).
  - cbn [canonical_name parse_fuel wf_abi] in *. rewrite strip_suffix_app.
    rewrite length_app in Hf. rewrite IH; [done..|]. eval_lits. cbn in Hf. lia.
  - cbn [canonical_name wf_abi] in *.
    apply andb_true_iff in Hwf as [[Hwf Hn]%andb_true_iff Hn'].
    rewrite !length_app in Hf. apply parse_fixed; [lia|]. apply IH; [done|]. eval_lits. cbn [length] in Hf. lia.
  - apply parse_tuple; [|done]. cbn in Hwf. rewrite forallb_forall in Hwf.
    rewrite Forall_forall in IH |- *. intros t Ht. apply IH; [done|by apply Hwf, list_elem_of_In|].
    cbn [canonical_name] in Hf. rewrite !length_app in Hf.
    pose proof (length_join_comma (canonical_name <$> es) (canonical_name t)
      ltac:(by apply list_elem_of_fmap_2)). eval_lits. cbn [length] in Hf. lia.
Qed.

Lemma abi_parse_canonical t : wf_abi t = true → abi_parse (canonical_name t) = Some t.
Proof. intros. apply parse_canonical_fuel; [done|lia]. Qed.

Lemma canonical_name_inj t u :
  wf_abi t = true → wf_abi u = true → canonical_name t = canonical_name u → t = u.
Proof.
  intros Ht Hu E. apply (f_equal abi_parse) in E.
  rewrite !abi_parse_canonical in E by done. by injection E.
Qed.
