(* ===== verification/AbiCodec.v ===== *)
(** * ABI argument codec and selectors (core/src/abi/encode.rs, decode.rs, selector.rs)

    Values, the head/tail encoding of argument lists, its decoder, and the document
    types with their lookups.  A [usize] is 64 bits wide. *)

From S2P Require Import Prelude Bytes Abi.
Open Scope Z_scope.

Inductive AbiError :=
  | ArityMismatch (expected got : Z)
  | TypeMismatch (expected got : string)
  | InvalidBits (bits : Z)
  | AbiInvalidValue (reason : string)
  | UnexpectedEnd (at_byte : Z)
  | TrailingData (at_byte remaining : Z)
  | InvalidOffset (offset bound : Z)
  | NonCanonicalOffset (expected got : Z)
  | InvalidUtf8
  | InvalidType (found : string)
  | NotImplemented (found : string)
  | UnknownFormatVersion (found : string).

Inductive AbiValue : Type :=
  | VUint (word : list byte)
  | VInt (word : list byte)
  | VBool (b : bool)
  | VAddress (word : list byte)
  | VBytes (bs : list byte)
  | VString (s : string)
  | VArray (vals : list AbiValue)
  | VFixedArray (vals : list AbiValue)
  | VTuple (vals : list AbiValue).

Definition uint_u64 (v : Z) : AbiValue := VUint (replicate 24 x00 ++ to_be_bytes 8 v).

(** [v] is an [i64]; [to_be_bytes] takes it modulo [2 ^ 64]. *)
Definition int_i64 (v : Z) : AbiValue :=
  VInt (replicate 24 (if v <? 0 then xff else x00) ++ to_be_bytes 8 (v mod two64)).

Definition value_kind (v : AbiValue) : string :=
  match v with
  | VUint _ => "uint" | VInt _ => "int" | VBool _ => "bool" | VAddress _ => "address"
  | VBytes _ => "bytes" | VString _ => "string" | VArray _ => "array"
  | VFixedArray _ => "fixed_array" | VTuple _ => "tuple"
  end.

Definition type_name (t : AbiType) : string := String.string_of_list_byte (canonical_name t).

Definition len64 {A} (l : list A) : Z := Z.of_nat (length l).

(** [AbiType::validate_bits(bits)?]. *)
Definition check_bits (bits : Z) : result AbiError unit :=
  if validate_bits bits then Ok tt else Err (InvalidBits bits).

Definition check_uint_range (value : list byte) (bits : Z) : result AbiError unit :=
  _ ← check_bits bits;
  let full := Z.to_nat (bits / 8) in
  if forallb (λ b, byte_val b =? 0) (take (32 - full) value) then Ok tt
  else Err (AbiInvalidValue ("uint" +:+ pretty bits +:+ " value has non-zero high bytes")).

(** The byte that sign-extends a value of [keep] bytes. *)
Definition sign_fill (value : list byte) (keep : nat) : result AbiError byte :=
  sign_byte ← expect (value !! (32 - keep)%nat);
  Ok (if Z.land (byte_val sign_byte) 128 =? 0 then x00 else xff).

Definition check_int_range (value : list byte) (bits : Z) : result AbiError unit :=
  _ ← check_bits bits;
  let keep := Z.to_nat (bits / 8) in
  fill ← sign_fill value keep;
  if forallb (λ b, bool_decide (b = fill)) (take (32 - keep) value) then Ok tt
  else Err (AbiInvalidValue ("int" +:+ pretty bits +:+ " value is not sign-extended")).

(** The head length both directions compute: four bytes per dynamic component. *)
Definition head_len (types : list AbiType) : Z :=
  foldl (λ n t, add64 n (if is_dynamic t then 4 else default 0 (static_size t))) 0 types.

(** [u32::try_from(n)]. *)
Definition try_u32 (n : Z) (e : AbiError) : result AbiError Z := if n <? two32 then Ok n else Err e.

(** ** Encoding *)

(** A component type with its two encoders: the recursion of the source goes through
    lists of references to component types. *)
Abbreviation Encoder := (AbiValue → result AbiError (list byte)).
Abbreviation EncEntry := (AbiType * (Encoder * Encoder))%type.

Definition encode_component (hl : Z) (acc : list byte * list byte) (p : EncEntry * AbiValue)
    : result AbiError (list byte * list byte) :=
  let '(head, tail) := acc in
  let '((t, (static, dynamic)), v) := p in
  if is_dynamic t then
    let pos := add64 hl (len64 tail) in
    offset ← try_u32 pos (InvalidOffset (two32 - 1) pos);
    body ← dynamic v;
    Ok (head ++ to_be_bytes 4 offset, tail ++ body)
  else
    bytes ← static v;
    Ok (head ++ bytes, tail).

Definition encode_entries (entries : list EncEntry) (values : list AbiValue) : result AbiError (list byte) :=
  if negb (length entries =? length values)%nat
  then Err (ArityMismatch (len64 entries) (len64 values)) else
  '(head, tail) ← foldM (encode_component (head_len entries.*1)) ([], []) (zip entries values);
  Ok (head ++ tail).

Definition mismatch {A} (t : AbiType) (v : AbiValue) : result AbiError A :=
  Err (TypeMismatch (type_name t) (value_kind v)).

Definition wrong_length {A} (len : Z) (vals : list AbiValue) : result AbiError A :=
  Err (AbiInvalidValue ("fixed array length " +:+ pretty len +:+ ", got " +:+ pretty (len64 vals))).

Fixpoint encode_static (t : AbiType) (v : AbiValue) {struct t} : result AbiError (list byte) :=
  match t, v with
  | TUint bits, VUint value => _ ← check_uint_range value bits; Ok value
  | TInt bits, VInt value => _ ← check_int_range value bits; Ok value
  | TBool, VBool b => Ok (replicate 31 x00 ++ [if b then x01 else x00])
  | TAddress, VAddress a => Ok a
  | TFixedArray elem len, VFixedArray vals =>
      if negb (len64 vals =? len) then wrong_length len vals else
      encode_entries (replicate (Z.to_nat len) (elem, (encode_static elem, encode_dynamic_body elem))) vals
  | TTuple elems, VTuple vals =>
      encode_entries (map (λ e, (e, (encode_static e, encode_dynamic_body e))) elems) vals
  | _, _ => mismatch t v
  end
with encode_dynamic_body (t : AbiType) (v : AbiValue) {struct t} : result AbiError (list byte) :=
  match t, v with
  | TBytes, VBytes b =>
      len ← try_u32 (len64 b) (AbiInvalidValue "bytes longer than u32::MAX");
      Ok (to_be_bytes 4 len ++ b)
  | TString, VString s =>
      let bytes := as_bytes s in
      len ← try_u32 (len64 bytes) (AbiInvalidValue "string longer than u32::MAX");
      Ok (to_be_bytes 4 len ++ bytes)
  | TArray elem, VArray vals =>
      count ← try_u32 (len64 vals) (AbiInvalidValue "array longer than u32::MAX elements");
      body ← encode_entries (replicate (length vals) (elem, (encode_static elem, encode_dynamic_body elem))) vals;
      Ok (to_be_bytes 4 count ++ body)
  | TFixedArray elem len, VFixedArray vals =>
      if negb (len64 vals =? len) then wrong_length len vals else
      encode_entries (replicate (Z.to_nat len) (elem, (encode_static elem, encode_dynamic_body elem))) vals
  | TTuple elems, VTuple vals =>
      encode_entries (map (λ e, (e, (encode_static e, encode_dynamic_body e))) elems) vals
  | _, _ => mismatch t v
  end.

Definition enc_entry (t : AbiType) : EncEntry := (t, (encode_static t, encode_dynamic_body t)).

Definition encode_tuple (types : list AbiType) (values : list AbiValue) : result AbiError (list byte) :=
  encode_entries (map enc_entry types) values.

Definition encode_args (params : list AbiParam) (values : list AbiValue) : result AbiError (list byte) :=
  if negb (length params =? length values)%nat
  then Err (ArityMismatch (len64 params) (len64 values)) else
  encode_tuple (ap_type <$> params) values.

(** ** Decoding *)

Definition read_word (data : list byte) : result AbiError (list byte) :=
  if (32 <=? length data)%nat then Ok (take 32 data) else Err (UnexpectedEnd (len64 data)).

Definition read_u32 (data : list byte) (at_byte : nat) : result AbiError Z :=
  if (at_byte + 4 <=? length data)%nat then Ok (from_be_bytes (take 4 (drop at_byte data)))
  else Err (UnexpectedEnd (len64 data)).

(** [&data[at..]] and [&data[at..at + n]]. *)
Definition slice_from (data : list byte) (at_byte : nat) : result AbiError (list byte) :=
  if (at_byte <=? length data)%nat then Ok (drop at_byte data) else Panic.
Definition slice_at (data : list byte) (at_byte n : nat) : result AbiError (list byte) :=
  if (at_byte + n <=? length data)%nat then Ok (take n (drop at_byte data)) else Panic.

Abbreviation Decoder := (list byte → result AbiError (AbiValue * nat)).
Abbreviation DecEntry := (AbiType * (Decoder * Decoder))%type.

(** One component: values, head position and tail position. *)
Definition decode_component (data : list byte) (acc : list AbiValue * nat * nat) (e : DecEntry)
    : result AbiError (list AbiValue * nat * nat) :=
  let '(values, head_pos, tail_pos) := acc in
  let '(t, (static, dynamic)) := e in
  if is_dynamic t then
    offset ← read_u32 data head_pos;
    if negb (offset =? Z.of_nat tail_pos)
    then Err (NonCanonicalOffset (Z.of_nat tail_pos mod two32) offset) else
    rest ← slice_from data tail_pos;
    '(value, consumed) ← dynamic rest;
    Ok (values ++ [value], (head_pos + 4)%nat, (tail_pos + consumed)%nat)
  else
    let size := Z.to_nat (default 0 (static_size t)) in
    bytes ← slice_at data head_pos size;
    '(value, _) ← static bytes;
    Ok (values ++ [value], (head_pos + size)%nat, tail_pos).

Definition decode_entries (entries : list DecEntry) (data : list byte)
    : result AbiError (list AbiValue * nat) :=
  let hl := head_len entries.*1 in
  if len64 data <? hl then Err (UnexpectedEnd (len64 data)) else
  '(values, _, tail_pos) ← foldM (decode_component data) ([], O, Z.to_nat hl) entries;
  Ok (values, tail_pos).

Definition not_here {A} (t : AbiType) (got : string) : result AbiError A :=
  Err (TypeMismatch (type_name t) got).

(** The bytes of a length-prefixed value and its end. *)
Definition read_prefixed (data : list byte) : result AbiError (list byte * nat) :=
  len ← read_u32 data 0;
  let end_ := (4 + Z.to_nat len)%nat in
  if (length data <? end_)%nat then Err (UnexpectedEnd (len64 data)) else
  Ok (take (Z.to_nat len) (drop 4 data), end_).

(** Rewrites the high bytes of a decoded [intN] with its sign. *)
Definition sign_extend (raw : list byte) (bits : Z) : result AbiError (list byte) :=
  let keep := Z.to_nat (bits / 8) in
  if (keep <? 32)%nat then
    fill ← sign_fill raw keep;
    Ok (replicate (32 - keep) fill ++ drop (32 - keep) raw)
  else Ok raw.

Fixpoint decode_static (t : AbiType) (data : list byte) {struct t} : result AbiError (AbiValue * nat) :=
  match t with
  | TUint bits =>
      raw ← read_word data;
      _ ← check_uint_range raw bits;
      Ok (VUint raw, 32%nat)
  | TInt bits =>
      raw ← read_word data;
      _ ← check_int_range raw bits;
      raw ← sign_extend raw bits;
      Ok (VInt raw, 32%nat)
  | TBool =>
      word ← read_word data;
      last ← expect (word !! 31%nat);
      if negb (forallb (λ b, byte_val b =? 0) (take 31 word)) || (1 <? byte_val last)
      then Err (AbiInvalidValue "bool word is not 0 or 1")
      else Ok (VBool (byte_val last =? 1), 32%nat)
  | TAddress =>
      word ← read_word data;
      Ok (VAddress word, 32%nat)
  | TFixedArray elem len =>
      '(values, consumed) ← decode_entries
         (replicate (Z.to_nat len) (elem, (decode_static elem, decode_dynamic_body elem))) data;
      Ok (VFixedArray values, consumed)
  | TTuple elems =>
      '(values, consumed) ← decode_entries
         (map (λ e, (e, (decode_static e, decode_dynamic_body e))) elems) data;
      Ok (VTuple values, consumed)
  | TBytes | TString | TArray _ => not_here t "static"
  end
with decode_dynamic_body (t : AbiType) (data : list byte) {struct t} : result AbiError (AbiValue * nat) :=
  match t with
  | TBytes =>
      '(bytes, end_) ← read_prefixed data;
      Ok (VBytes bytes, end_)
  | TString =>
      '(bytes, end_) ← read_prefixed data;
      s ← ok_or (from_utf8 bytes) InvalidUtf8;
      Ok (VString s, end_)
  | TArray elem =>
      count ← read_u32 data 0;
      if len64 data <? count then Err (UnexpectedEnd (len64 data)) else
      rest ← slice_from data 4;
      '(values, consumed) ← decode_entries
         (replicate (Z.to_nat count) (elem, (decode_static elem, decode_dynamic_body elem))) rest;
      Ok (VArray values, (4 + consumed)%nat)
  | TFixedArray elem len =>
      '(values, consumed) ← decode_entries
         (replicate (Z.to_nat len) (elem, (decode_static elem, decode_dynamic_body elem))) data;
      Ok (VFixedArray values, consumed)
  | TTuple elems =>
      '(values, consumed) ← decode_entries
         (map (λ e, (e, (decode_static e, decode_dynamic_body e))) elems) data;
      Ok (VTuple values, consumed)
  | TUint _ | TInt _ | TBool | TAddress => not_here t "dynamic"
  end.

Definition dec_entry (t : AbiType) : DecEntry := (t, (decode_static t, decode_dynamic_body t)).

Definition decode_tuple (types : list AbiType) (data : list byte) : result AbiError (list AbiValue * nat) :=
  decode_entries (map dec_entry types) data.

Definition decode_args (params : list AbiParam) (data : list byte) : result AbiError (list AbiValue) :=
  '(values, consumed) ← decode_tuple (ap_type <$> params) data;
  if negb (consumed =? length data)%nat
  then Err (TrailingData (Z.of_nat consumed) (len64 data - Z.of_nat consumed))
  else Ok values.

(** ** Selectors and documents *)

Definition method_signature (name : string) (params : list AbiParam) : list byte :=
  as_bytes name ++ lit "(" ++ join_comma ((λ p, canonical_name (ap_type p)) <$> params) ++ lit ")".

Definition method_selector `{B3 : Blake3} (name : string) (params : list AbiParam) : list byte :=
  take 4 (blake3 (method_signature name params)).

Definition types_selector `{B3 : Blake3} (types : list AbiType) : list byte :=
  take 4 (blake3 (join_comma (canonical_name <$> types))).

Record AbiEntry := { en_name : string; en_selector : list byte; en_non_reentrant : bool }.

Definition selector_from_name `{B3 : Blake3} (name : string) : list byte := method_selector name [].

Definition ABI_FORMAT_VERSION : string := "json-v1".
Definition ABI_FORMAT_VERSION_WIT_V2 : string := "wit-v2".

Record ContractAbi := { ca_format_version : string; ca_entries : list AbiEntry }.

Definition contract_abi_new (entries : list AbiEntry) : ContractAbi :=
  {| ca_format_version := ABI_FORMAT_VERSION; ca_entries := entries |}.

Definition entry_by_selector (abi : ContractAbi) (selector : list byte) : option AbiEntry :=
  snd <$> list_find (λ e, en_selector e = selector) (ca_entries abi).

Inductive StateMutability := Pure | View | Nonpayable | Payable.

Record AbiFunction := {
  fn_name : string; fn_inputs : list AbiParam; fn_outputs : list AbiParam;
  fn_state_mutability : StateMutability }.
Record AbiEventParam := { ev_name : string; ev_type : AbiType; ev_indexed : bool }.
Record AbiEvent := { evt_name : string; evt_inputs : list AbiEventParam }.
Record AbiErrorDecl := { err_name : string; err_inputs : list AbiParam }.
Record AbiDocument := {
  doc_format_version : string; doc_name : string; doc_functions : list AbiFunction;
  doc_events : list AbiEvent; doc_errors : list AbiErrorDecl }.

Definition document_new (name : string) (functions : list AbiFunction) : AbiDocument := {|
  doc_format_version := ABI_FORMAT_VERSION; doc_name := name; doc_functions := functions;
  doc_events := []; doc_errors := [] |}.

Definition check_format_version (d : AbiDocument) : result AbiError unit :=
  if decide (doc_format_version d = ABI_FORMAT_VERSION) then Ok tt
  else if decide (doc_format_version d = ABI_FORMAT_VERSION_WIT_V2)
  then Err (NotImplemented (doc_format_version d))
  else Err (UnknownFormatVersion (doc_format_version d)).

Definition function_by_name (d : AbiDocument) (name : string) : option AbiFunction :=
  snd <$> list_find (λ f, fn_name f = name) (doc_functions d).

Definition function_by_selector `{B3 : Blake3} (d : AbiDocument) (selector : list byte) : option AbiFunction :=
  snd <$> list_find (λ f, method_selector (fn_name f) (fn_inputs f) = selector) (doc_functions d).
