(* ===== verification/Types.v ===== *)
(** * Data types of the core (types.rs, error.rs, vm/*.rs)

    Blocks, headers, accounts, the three transaction kinds, the error
    enumerations, and the data a VM execution consumes and returns.  A field
    [from] of the source is [xx_from] here, [xx] a prefix per record. *)

From S2P Require Import Prelude Bytes Abi.
Open Scope Z_scope.

(** ** Accounts *)

Record EoaAccount := { eoa_balance : Z; eoa_nonce : Z }.

Record ContractAccount := {
  ct_code_hash : list byte;
  ct_storage_root : list byte;
  ct_nonce : Z;
  ct_balance : Z
}.

Inductive Account :=
  | Eoa (a : EoaAccount)
  | Contract (a : ContractAccount).

#[export] Instance EoaAccount_eq_dec : EqDecision EoaAccount.
Proof. solve_decision. Defined.
#[export] Instance ContractAccount_eq_dec : EqDecision ContractAccount.
Proof. solve_decision. Defined.
#[export] Instance Account_eq_dec : EqDecision Account.
Proof. solve_decision. Defined.

Definition account_default : Account := Eoa {| eoa_balance := 0; eoa_nonce := 0 |}.

Definition account_eoa (balance nonce : Z) : Account :=
  Eoa {| eoa_balance := balance; eoa_nonce := nonce |}.

Definition account_contract (code_hash storage_root : list byte) : Account :=
  Contract {| ct_code_hash := code_hash; ct_storage_root := storage_root;
              ct_nonce := 0; ct_balance := 0 |}.

Definition balance (a : Account) : Z :=
  match a with Eoa a => eoa_balance a | Contract a => ct_balance a end.

Definition nonce (a : Account) : Z :=
  match a with Eoa a => eoa_nonce a | Contract a => ct_nonce a end.

Definition account_set_balance (a : Account) (b : Z) : Account :=
  match a with
  | Eoa a => Eoa {| eoa_balance := b; eoa_nonce := eoa_nonce a |}
  | Contract a => Contract {| ct_code_hash := ct_code_hash a;
      ct_storage_root := ct_storage_root a; ct_nonce := ct_nonce a; ct_balance := b |}
  end.

Definition account_set_nonce (a : Account) (n : Z) : Account :=
  match a with
  | Eoa a => Eoa {| eoa_balance := eoa_balance a; eoa_nonce := n |}
  | Contract a => Contract {| ct_code_hash := ct_code_hash a;
      ct_storage_root := ct_storage_root a; ct_nonce := n; ct_balance := ct_balance a |}
  end.

(** [account.storage_root = root] on the [Account::Contract] arm. *)
Definition account_set_storage_root (a : Account) (root : list byte) : Account :=
  match a with
  | Eoa a => Eoa a
  | Contract a => Contract {| ct_code_hash := ct_code_hash a;
      ct_storage_root := root; ct_nonce := ct_nonce a; ct_balance := ct_balance a |}
  end.

Definition is_contract (a : Account) : bool :=
  match a with Contract _ => true | Eoa _ => false end.

Definition as_contract (a : Account) : option ContractAccount :=
  match a with Contract c => Some c | Eoa _ => None end.

Definition is_empty (a : Account) : bool :=
  match a with
  | Eoa a => (eoa_balance a =? 0) && (eoa_nonce a =? 0)
  | Contract a =>
      (ct_balance a =? 0) && (ct_nonce a =? 0)
      && bool_decide (ct_code_hash a = zero32)
      && bool_decide (ct_storage_root a = zero32)
  end.

(** The flat serde form of an account. *)
Record AccountFlat := {
  fl_balance : Z;
  fl_nonce : Z;
  fl_code_hash : option (list byte);
  fl_storage_root : option (list byte)
}.

Definition account_serialize (a : Account) : AccountFlat :=
  match a with
  | Eoa e => {| fl_balance := eoa_balance e; fl_nonce := eoa_nonce e;
                fl_code_hash := None; fl_storage_root := None |}
  | Contract c => {| fl_balance := ct_balance c; fl_nonce := ct_nonce c;
                     fl_code_hash := Some (ct_code_hash c);
                     fl_storage_root := Some (ct_storage_root c) |}
  end.

(** [None] is the custom serde error "storage_root without code_hash". *)
Definition account_deserialize (f : AccountFlat) : option Account :=
  match fl_code_hash f, fl_storage_root f with
  | None, None => Some (Eoa {| eoa_balance := fl_balance f; eoa_nonce := fl_nonce f |})
  | Some code_hash, storage_root =>
      Some (Contract {| ct_code_hash := code_hash;
        ct_storage_root := default zero32 storage_root;
        ct_nonce := fl_nonce f; ct_balance := fl_balance f |})
  | None, Some _ => None
  end.

(** ** Transactions *)

Record TransferTx := {
  tr_from : string;
  tr_to : string;
  tr_amount : Z;
  tr_fee : Z;
  tr_nonce : Z;
  tr_chain_id : Z;
  tr_signature : list byte;
  tr_is_coinbase : bool
}.

Record CreateTx := {
  cr_from : string;
  cr_init_code : list byte;
  cr_init_args : list byte;
  cr_constructor_params : list AbiParam;
  cr_endowment : Z;
  cr_gas_limit : Z;
  cr_fee : Z;
  cr_nonce : Z;
  cr_chain_id : Z;
  cr_signature : list byte
}.

Record CallTx := {
  ca_from : string;
  ca_to : string;
  ca_data : list byte;
  ca_value : Z;
  ca_gas_limit : Z;
  ca_fee : Z;
  ca_nonce : Z;
  ca_chain_id : Z;
  ca_signature : list byte
}.

Inductive Transaction :=
  | Transfer (t : TransferTx)
  | Create (t : CreateTx)
  | Call (t : CallTx).

#[export] Instance TransferTx_eq_dec : EqDecision TransferTx.
Proof. solve_decision. Defined.
#[export] Instance CreateTx_eq_dec : EqDecision CreateTx.
Proof. solve_decision. Defined.
#[export] Instance CallTx_eq_dec : EqDecision CallTx.
Proof. solve_decision. Defined.
#[export] Instance Transaction_eq_dec : EqDecision Transaction.
Proof. solve_decision. Defined.

(** [Transaction::transfer]. *)
Definition tx_transfer (from to : string) (amount nonce chain_id : Z) : Transaction :=
  Transfer {| tr_from := from; tr_to := to; tr_amount := amount; tr_fee := 0;
              tr_nonce := nonce; tr_chain_id := chain_id; tr_signature := [];
              tr_is_coinbase := false |}.

(** [Transaction::coinbase]. *)
Definition tx_coinbase (from to : string) (amount chain_id : Z) : Transaction :=
  Transfer {| tr_from := from; tr_to := to; tr_amount := amount; tr_fee := 0;
              tr_nonce := 0; tr_chain_id := chain_id; tr_signature := [];
              tr_is_coinbase := true |}.

(** [Transaction::create_with]. *)
Definition tx_create_with (from : string) (init_code init_args : list byte)
    (constructor_params : list AbiParam) (endowment gas_limit nonce chain_id : Z) : Transaction :=
  Create {| cr_from := from; cr_init_code := init_code; cr_init_args := init_args;
            cr_constructor_params := constructor_params; cr_endowment := endowment;
            cr_gas_limit := gas_limit; cr_fee := 0; cr_nonce := nonce;
            cr_chain_id := chain_id; cr_signature := [] |}.

(** [Transaction::create]: no constructor budget, no parameters. *)
Definition tx_create (from : string) (init_code init_args : list byte)
    (endowment nonce chain_id : Z) : Transaction :=
  Create {| cr_from := from; cr_init_code := init_code; cr_init_args := init_args;
            cr_constructor_params := []; cr_endowment := endowment;
            cr_gas_limit := 0; cr_fee := 0; cr_nonce := nonce;
            cr_chain_id := chain_id; cr_signature := [] |}.

(** [Transaction::call]. *)
Definition tx_call (from to : string) (data : list byte)
    (value gas_limit nonce chain_id : Z) : Transaction :=
  Call {| ca_from := from; ca_to := to; ca_data := data; ca_value := value;
          ca_gas_limit := gas_limit; ca_fee := 0; ca_nonce := nonce;
          ca_chain_id := chain_id; ca_signature := [] |}.

Definition sender (tx : Transaction) : string :=
  match tx with Transfer t => tr_from t | Create t => cr_from t | Call t => ca_from t end.

Definition receiver (tx : Transaction) : option string :=
  match tx with Transfer t => Some (tr_to t) | Create _ => None | Call t => Some (ca_to t) end.

Definition tx_nonce (tx : Transaction) : Z :=
  match tx with Transfer t => tr_nonce t | Create t => cr_nonce t | Call t => ca_nonce t end.

Definition tx_chain_id (tx : Transaction) : Z :=
  match tx with
  | Transfer t => tr_chain_id t | Create t => cr_chain_id t | Call t => ca_chain_id t
  end.

Definition signature (tx : Transaction) : list byte :=
  match tx with
  | Transfer t => tr_signature t | Create t => cr_signature t | Call t => ca_signature t
  end.

(** [*tx.signature_mut() = sig]. *)
Definition set_signature (tx : Transaction) (sg : list byte) : Transaction :=
  match tx with
  | Transfer t => Transfer {| tr_from := tr_from t; tr_to := tr_to t; tr_amount := tr_amount t;
      tr_fee := tr_fee t; tr_nonce := tr_nonce t; tr_chain_id := tr_chain_id t;
      tr_signature := sg; tr_is_coinbase := tr_is_coinbase t |}
  | Create t => Create {| cr_from := cr_from t; cr_init_code := cr_init_code t;
      cr_init_args := cr_init_args t; cr_constructor_params := cr_constructor_params t;
      cr_endowment := cr_endowment t; cr_gas_limit := cr_gas_limit t; cr_fee := cr_fee t;
      cr_nonce := cr_nonce t; cr_chain_id := cr_chain_id t; cr_signature := sg |}
  | Call t => Call {| ca_from := ca_from t; ca_to := ca_to t; ca_data := ca_data t;
      ca_value := ca_value t; ca_gas_limit := ca_gas_limit t; ca_fee := ca_fee t;
      ca_nonce := ca_nonce t; ca_chain_id := ca_chain_id t; ca_signature := sg |}
  end.

Definition fee (tx : Transaction) : Z :=
  match tx with Transfer t => tr_fee t | Create t => cr_fee t | Call t => ca_fee t end.

Definition value (tx : Transaction) : Z :=
  match tx with Transfer t => tr_amount t | Create t => cr_endowment t | Call t => ca_value t end.

Definition is_coinbase (tx : Transaction) : bool :=
  match tx with Transfer t => tr_is_coinbase t | Create _ => false | Call _ => false end.

(** ** Blocks *)

Record BlockHeader := {
  h_index : Z;
  h_timestamp : Z;
  h_previous_hash : string;
  h_hash : string;
  h_nonce : Z;
  h_target : string;
  h_consensus_version : Z;
  h_state_root : list byte;
  h_tx_root : list byte;
  h_receipts_root : list byte
}.

Record Block := {
  b_index : Z;
  b_timestamp : Z;
  b_transactions : list Transaction;
  b_previous_hash : string;
  b_hash : string;
  b_nonce : Z;
  b_target : string;
  b_consensus_version : Z;
  b_state_root : list byte;
  b_tx_root : list byte;
  b_receipts_root : list byte
}.

#[export] Instance BlockHeader_eq_dec : EqDecision BlockHeader.
Proof. solve_decision. Defined.
#[export] Instance Block_eq_dec : EqDecision Block.
Proof. solve_decision. Defined.

Definition header (b : Block) : BlockHeader :=
  {| h_index := b_index b; h_timestamp := b_timestamp b;
     h_previous_hash := b_previous_hash b; h_hash := b_hash b; h_nonce := b_nonce b;
     h_target := b_target b; h_consensus_version := b_consensus_version b;
     h_state_root := b_state_root b; h_tx_root := b_tx_root b;
     h_receipts_root := b_receipts_root b |}.

Definition from_header (h : BlockHeader) (txs : list Transaction) : Block :=
  {| b_index := h_index h; b_timestamp := h_timestamp h; b_transactions := txs;
     b_previous_hash := h_previous_hash h; b_hash := h_hash h; b_nonce := h_nonce h;
     b_target := h_target h; b_consensus_version := h_consensus_version h;
     b_state_root := h_state_root h; b_tx_root := h_tx_root h;
     b_receipts_root := h_receipts_root h |}.

(** ** VM data *)

Inductive VmError :=
  | OutOfGas
  | OutOfMemory
  | Reverted
  | HostFunctionError (name reason : string)
  | ReentrancyDetected
  | MaxCallDepth
  | MaxCodeSize
  | MaxStoragePerContract
  | GasMeteringBug
  | NotImplemented (feature : string).

Inductive TxStatus := StSuccess | StReverted | StOutOfGas | StFailed.

#[export] Instance VmError_eq_dec : EqDecision VmError.
Proof. solve_decision. Defined.
#[export] Instance TxStatus_eq_dec : EqDecision TxStatus.
Proof. solve_decision. Defined.

Definition canonical_byte (s : TxStatus) : Z :=
  match s with StSuccess => 0 | StReverted => 1 | StOutOfGas => 2 | StFailed => 3 end.

Record Log := { log_address : string; log_topics : list (list byte); log_data : list byte }.

Record ValueTransfer := { vt_from : string; vt_to : string; vt_amount : Z }.

(** Persisted storage of one contract, and of every contract by address. *)
Abbreviation ContractStorage := (gmap (list byte) (list byte)).
Abbreviation ContractStorageMap := (gmap string (gmap (list byte) (list byte))).

Record ExecutionResult := {
  ex_gas_used : Z;
  ex_logs : list Log;
  ex_status : TxStatus;
  ex_return_data : list byte;
  ex_storage_overlay : ContractStorageMap;
  ex_value_transfers : list ValueTransfer
}.

Record Receipt := {
  rc_txid : list byte;
  rc_gas_used : Z;
  rc_logs : list Log;
  rc_status : TxStatus;
  rc_block_height : Z;
  rc_tx_index : Z;
  rc_value_transfers : list ValueTransfer
}.

#[export] Instance Log_eq_dec : EqDecision Log.
Proof. solve_decision. Defined.
#[export] Instance ValueTransfer_eq_dec : EqDecision ValueTransfer.
Proof. solve_decision. Defined.
#[export] Instance Receipt_eq_dec : EqDecision Receipt.
Proof. solve_decision. Defined.

Definition from_execution (txid : list byte) (block_height tx_index : Z)
    (result : ExecutionResult) : Receipt :=
  {| rc_txid := txid; rc_gas_used := ex_gas_used result; rc_logs := ex_logs result;
     rc_status := ex_status result; rc_block_height := block_height; rc_tx_index := tx_index;
     rc_value_transfers := ex_value_transfers result |}.

Definition from_vm_error (txid : list byte) (block_height tx_index : Z)
    (err : VmError) (gas_limit : Z) : Receipt :=
  {| rc_txid := txid; rc_gas_used := gas_limit; rc_logs := [];
     rc_status := match err with OutOfGas => StOutOfGas | _ => StFailed end;
     rc_block_height := block_height; rc_tx_index := tx_index; rc_value_transfers := [] |}.

Record BlockContext := {
  bc_height : Z;
  bc_timestamp : Z;
  bc_coinbase : string;
  bc_block_gas_limit : Z
}.

Record ExecutionContext := {
  cx_block : BlockHeader;
  cx_accounts : gmap string Account;
  cx_caller : string;
  cx_callee : string;
  cx_value : Z;
  cx_gas_limit : Z;
  cx_gas_used : Z;
  cx_depth : Z;
  cx_reentrant : bool;
  cx_read_only : bool;
  cx_block_context : BlockContext;
  cx_storage : ContractStorageMap;
  cx_storage_overlay : ContractStorageMap;
  cx_storage_address : string;
  cx_input : list byte
}.

(** The trait [VmExecutor] on an executor state [V]: [execute] and
    [execute_constructor] borrow it ([&self]), [register_code] changes it.
    The error type is already converted with [Into<VmError>]; [gas_cost] is not
    called by the core. *)
Class VmExecutor (V : Type) := {
  execute : V → ExecutionContext → result VmError ExecutionResult;
  execute_constructor : V → ExecutionContext → result VmError ExecutionResult;
  register_code : V → string → list byte → result VmError V
}.

Definition BLOCK_GAS_LIMIT : Z := 1000000.
Definition MAX_CODE_SIZE : Z := 24 * 1024.
Definition MAX_STORAGE_PER_CONTRACT : Z := 1024 * 1024.
Definition MAX_CALL_DEPTH : Z := 1024.

(** ** Errors of the core

    [CHexError] and [CSecp256k1Error] carry the external crates' messages, which
    are not modelled. *)
Inductive CoreError :=
  | InvalidSignature
  | InvalidNonce (expected got : Z)
  | InvalidChainId (expected got : Z)
  | InvalidDifficulty
  | TimestampTooOld
  | TimestampInFuture
  | GenesisMismatch (expected got : list byte)
  | CHexError
  | CSecp256k1Error
  | InvalidCoinbaseAmount (expected got : Z)
  | InsufficientBalance (sender : string) (available required : Z)
  | StateOverflow
  | StateRootMismatch (expected got : list byte)
  | PostStateRootMismatch (expected got : list byte)
  | TxRootMismatch (expected got : list byte)
  | WitnessVerificationFailed
  | ProofAccountMismatch
  | InvalidAddressChecksum
  | InvalidAddressFormat (reason : string)
  | UnknownAddressHrp (hrp : string)
  | UnknownNetworkId (network_id : Z)
  | Bech32EncodeError
  | HeaderHashMismatch (expected got : string)
  | UnsupportedTxType (reason : string)
  | InvalidContractDeploy (reason : string)
  | InvalidGasLimit (reason : string)
  | VmExecution (e : VmError).

#[export] Instance CoreError_eq_dec : EqDecision CoreError.
Proof. solve_decision. Defined.

(** ** Lemmas *)

Lemma from_header_header b : from_header (header b) (b_transactions b) = b.
Proof. by destruct b. Qed.

Lemma header_from_header h txs : header (from_header h txs) = h.
Proof. by destruct h. Qed.

Lemma account_flat_roundtrip a : account_deserialize (account_serialize a) = Some a.
Proof. by destruct a as [[]|[]]. Qed.

Lemma balance_set_balance a b : balance (account_set_balance a b) = b.
Proof. by destruct a. Qed.
Lemma nonce_set_balance a b : nonce (account_set_balance a b) = nonce a.
Proof. by destruct a. Qed.
Lemma balance_set_nonce a n : balance (account_set_nonce a n) = balance a.
Proof. by destruct a. Qed.
Lemma nonce_set_nonce a n : nonce (account_set_nonce a n) = n.
Proof. by destruct a. Qed.
Lemma is_contract_set_balance a b : is_contract (account_set_balance a b) = is_contract a.
Proof. by destruct a. Qed.
Lemma is_contract_set_nonce a n : is_contract (account_set_nonce a n) = is_contract a.
Proof. by destruct a. Qed.
Lemma balance_set_storage_root a r : balance (account_set_storage_root a r) = balance a.
Proof. by destruct a. Qed.
Lemma set_balance_self a : account_set_balance a (balance a) = a.
Proof. by destruct a as [[]|[]]. Qed.
Lemma set_balance_twice a b c :
  account_set_balance (account_set_balance a b) c = account_set_balance a c.
Proof. by destruct a. Qed.
Lemma set_nonce_self a : account_set_nonce a (nonce a) = a.
Proof. by destruct a as [[]|[]]. Qed.
Lemma set_nonce_twice a b c :
  account_set_nonce (account_set_nonce a b) c = account_set_nonce a c.
Proof. by destruct a. Qed.
Lemma set_nonce_set_balance a b n :
  account_set_nonce (account_set_balance a b) n = account_set_balance (account_set_nonce a n) b.
Proof. by destruct a. Qed.

(** A prunable account has neither balance nor nonce. *)
Lemma is_empty_balance a : is_empty a = true → balance a = 0 ∧ nonce a = 0.
Proof. destruct a; cbn; intros H; split; lia. Qed.

Lemma signature_set tx sg : signature (set_signature tx sg) = sg.
Proof. by destruct tx. Qed.
Lemma set_signature_self tx : set_signature tx (signature tx) = tx.
Proof. by destruct tx as [[]|[]|[]]. Qed.
Lemma set_signature_twice tx a b : set_signature (set_signature tx a) b = set_signature tx b.
Proof. by destruct tx. Qed.

#[export] Hint Rewrite balance_set_balance nonce_set_balance balance_set_nonce nonce_set_nonce
  is_contract_set_balance is_contract_set_nonce balance_set_storage_root set_balance_self
  set_balance_twice set_nonce_self set_nonce_twice signature_set set_signature_self : strange.
