(* ===== verification/Address.v ===== *)
(** * Addresses (address.rs)

    Bech32m addresses of accounts and contracts.  The crates [bech32] and
    [secp256k1] are parameters. *)

From S2P Require Import Prelude Bytes Abi Types.
Open Scope Z_scope.

Definition CHAIN_ID_MAINNET : Z := 1.
Definition CHAIN_ID_TESTNET : Z := 2.
Definition CHAIN_ID_REGTEST : Z := 3.

(** Crate [bech32]: [Hrp::parse], [encode::<Bech32m>] and [decode]. *)
Class Bech32 := {
  hrp_parse : string → option string;
  bech32_encode : string → list byte → option string;
  bech32_decode : string → option (string * list byte)
}.

(** Documented: short lowercase letter strings are HRPs; decoding inverts
    encoding; the short payloads used here always encode. *)
Class Bech32Ok `{Bech32} : Prop := {
  hrp_parse_known : ∀ s, s ∈ ["sc"; "tsc"; "rsc"] → hrp_parse s = Some s;
  bech32_decode_encode : ∀ hrp data s,
    bech32_encode hrp data = Some s → bech32_decode s = Some (hrp, data);
  bech32_encode_short : ∀ hrp data, hrp ∈ ["sc"; "tsc"; "rsc"] →
    (length data ≤ 33)%nat → is_Some (bech32_encode hrp data)
}.

(** Crate [secp256k1]: a public key, its 33-byte form, and ECDSA key recovery
    from a 64-byte compact signature, a recovery id and a 32-byte digest ([None]
    covers the errors of [RecoveryId::from_i32], [from_compact] and
    [recover_ecdsa], which the source maps to one error). *)
Class Secp256k1 := {
  PublicKey : Type;
  pk_eq_dec :: EqDecision PublicKey;
  pk_serialize : PublicKey → list byte;
  pk_from_slice : list byte → PublicKey + string;
  recover_ecdsa : list byte → Z → list byte → option PublicKey
}.

Class Secp256k1Ok `{Secp256k1} : Prop := {
  pk_from_serialize : ∀ pk, pk_from_slice (pk_serialize pk) = inl pk;
  pk_serialize_length : ∀ pk, length (pk_serialize pk) = 33%nat
}.

Section Address.
Context `{B32 : Bech32, SK : Secp256k1, B3 : Blake3}.

Definition hrp_for_network (network_id : Z) : result CoreError string :=
  if network_id =? CHAIN_ID_MAINNET then Ok "sc"
  else if network_id =? CHAIN_ID_TESTNET then Ok "tsc"
  else if network_id =? CHAIN_ID_REGTEST then Ok "rsc"
  else Err (UnknownNetworkId network_id).

Definition encode_address (pk : PublicKey) (network_id : Z) : result CoreError string :=
  hrp ← hrp_for_network network_id;
  hrp ← ok_or (hrp_parse hrp) (InvalidAddressFormat ("Invalid HRP: " +:+ hrp));
  ok_or (bech32_encode hrp (pk_serialize pk)) Bech32EncodeError.

Definition decode_address (s : string) : result CoreError (PublicKey * Z) :=
  '(hrp, data) ← ok_or (bech32_decode s) InvalidAddressChecksum;
  network_id ←
    (if decide (hrp = "sc") then Ok CHAIN_ID_MAINNET
     else if decide (hrp = "tsc") then Ok CHAIN_ID_TESTNET
     else if decide (hrp = "rsc") then Ok CHAIN_ID_REGTEST
     else Err (UnknownAddressHrp hrp));
  match pk_from_slice data with
  | inl pk => Ok (pk, network_id)
  | inr e => Err (InvalidAddressFormat ("Invalid public key: " +:+ e))
  end.

(** The hashed input of a contract address. *)
Definition contract_addr_preimage (creator_addr : string) (nonce : Z) : list byte :=
  as_bytes "sc-contract-addr" ++ as_bytes creator_addr ++ to_be_bytes 8 nonce.

Definition derive_contract_address (creator_addr : string) (nonce network_id : Z)
    : result CoreError string :=
  hrp ← hrp_for_network network_id;
  hrp ← ok_or (hrp_parse hrp) (InvalidAddressFormat ("Invalid HRP: " +:+ hrp));
  ok_or (bech32_encode hrp (blake3 (contract_addr_preimage creator_addr nonce)))
    Bech32EncodeError.

Definition is_precompile_address (addr : string) : bool :=
  bool_decide (addr ∈ ["0x01"; "0x02"; "0x03"; "0x04"; "0x05"; "0x06"; "0x07"]).

(** ** Lemmas *)

Lemma hrp_for_network_Ok n hrp :
  hrp_for_network n = Ok hrp →
  hrp ∈ ["sc"; "tsc"; "rsc"]
  ∧ (hrp = "sc" ∧ n = CHAIN_ID_MAINNET ∨ hrp = "tsc" ∧ n = CHAIN_ID_TESTNET
     ∨ hrp = "rsc" ∧ n = CHAIN_ID_REGTEST).
Proof.
  unfold hrp_for_network.
  repeat match goal with |- context [?a =? ?b] => destruct (Z.eqb_spec a b) end;
    intros H; inv_result; split; try set_solver; tauto.
Qed.

Context `{B32ok : !Bech32Ok, SKok : !Secp256k1Ok, B3ok : !Blake3Ok}.

Lemma encode_address_total pk n hrp :
  hrp_for_network n = Ok hrp → ∃ s, encode_address pk n = Ok s.
Proof.
  intros H. pose proof (hrp_for_network_Ok _ _ H) as [Hin _].
  unfold encode_address. rewrite H. cbn. rewrite hrp_parse_known by done. cbn.
  destruct (bech32_encode_short hrp (pk_serialize pk)) as [s ->]; [done| |by exists s].
  rewrite pk_serialize_length. lia.
Qed.

(** Decoding inverts encoding, key and network. *)
Lemma decode_encode_address pk n s :
  encode_address pk n = Ok s → decode_address s = Ok (pk, n).
Proof.
  unfold encode_address. intros H.
  apply bind_ok_inv in H as (hrp & Hn & H). apply bind_ok_inv in H as (hrp' & Hp & H).
  pose proof (hrp_for_network_Ok _ _ Hn) as [Hin Hcase].
  rewrite hrp_parse_known in Hp by done. cbn in Hp. injection Hp as <-.
  unfold ok_or in H. destruct (bech32_encode _ _) as [s'|] eqn:E; [|done]. injection H as ->.
  apply bech32_decode_encode in E. unfold decode_address. rewrite E. cbn.
  rewrite pk_from_serialize.
  by destruct Hcase as [ [-> ->] | [ [-> ->] | [-> ->] ] ].
Qed.

Lemma derive_contract_address_total creator nonce n hrp :
  hrp_for_network n = Ok hrp → ∃ s, derive_contract_address creator nonce n = Ok s
    ∧ bech32_decode s = Some (hrp, blake3 (contract_addr_preimage creator nonce)).
Proof.
  intros H. pose proof (hrp_for_network_Ok _ _ H) as [Hin _].
  unfold derive_contract_address. rewrite H. cbn. rewrite hrp_parse_known by done. cbn.
  destruct (bech32_encode_short hrp (blake3 (contract_addr_preimage creator nonce)))
    as [s E]; [done|rewrite blake3_length; lia|].
  rewrite E. exists s. split; [done|]. by apply bech32_decode_encode.
Qed.

(** The preimage determines creator and nonce: the nonce has fixed width. *)
Lemma contract_addr_preimage_inj c c' n n' :
  in_u64 n → in_u64 n' →
  contract_addr_preimage c n = contract_addr_preimage c' n' → c = c' ∧ n = n'.
Proof.
  intros Hn Hn' H. unfold contract_addr_preimage in H. apply app_inv_head in H.
  apply app_inj_2 in H as [H1 H2]; [|by rewrite !length_to_be_bytes].
  split; [by apply as_bytes_inj|by apply to_be_u64_inj].
Qed.

End Address.
