(* ===== verification/Concrete.v ===== *)
(** * Concrete stand-ins for the external crates

    Simple functions with the shape and the documented laws of the crates
    [hex], [blake3], [bech32] and [secp256k1].  They are used only to evaluate
    the definitions on concrete inputs: [toy_hex] is the usual lowercase hex,
    [toy_blake3] a 32-byte checksum (a short polynomial hash, zero-padded) that agrees
    with BLAKE3 on the empty input, [toy_bech32] hex after the human-readable
    part and a separator, and [toy_secp] a scheme whose keys are single bytes
    and whose signatures open with the key. *)

From S2P Require Import Prelude Bytes Abi Types Address.
Open Scope Z_scope.

(** Discharges a decidable closed hypothesis by evaluation. *)
Ltac by_eval := apply (bool_decide_unpack _); vm_compute; exact I.

(** ** hex and blake3 *)

Definition nibble_char (n : Z) : byte :=
  if n <? 10 then byte_of (48 + n) else byte_of (87 + n).

Definition char_nibble (b : byte) : option Z :=
  let v := byte_val b in
  if (48 <=? v) && (v <=? 57) then Some (v - 48)
  else if (97 <=? v) && (v <=? 102) then Some (v - 87)
  else if (65 <=? v) && (v <=? 70) then Some (v - 55)
  else None.

Fixpoint toy_hex_bytes (bs : list byte) : list byte :=
  match bs with
  | [] => []
  | b :: bs => nibble_char (byte_val b / 16) :: nibble_char (byte_val b mod 16) :: toy_hex_bytes bs
  end.

Fixpoint toy_unhex (s : list byte) : option (list byte) :=
  match s with
  | [] => Some []
  | a :: b :: s =>
      x ← char_nibble a; y ← char_nibble b; r ← toy_unhex s;
      Some (byte_of (16 * x + y) :: r)
  | [_] => None
  end.

Definition toy_hex : Hex := {|
  hex_encode bs := String.string_of_list_byte (toy_hex_bytes bs);
  hex_decode s := toy_unhex (as_bytes s)
|}.

Fixpoint low_bytes (n : nat) (z : Z) : list byte :=
  match n with
  | O => []
  | S n => default x00 (Byte.of_N (Z.to_N (Z.land z 255))) :: low_bytes n (Z.shiftr z 8)
  end.

(** Zero bytes are only counted, which keeps the evaluation of Merkle paths cheap. *)
Definition toy_mix (h : Z) (b : byte) : Z :=
  match b with x00 => Z.succ h | _ => 33 * h + byte_val b end.

Definition toy_blake3 : Blake3 := λ bs,
  match bs with
  | [] =>
    [xaf; x13; x49; xb9; xf5; xf9; xa1; xa6; xa0; x9f; xb0; x2d; xc6; x03; x1e; x89;
     x25; x81; x64; xb6; xb8; x73; x0a; x4b; x48; x02; x6d; x1e; x94; x78; xf5; x46]
  | _ => low_bytes 5 (foldl toy_mix 5381 bs) ++ replicate 27 x00
  end.

Lemma nibble_roundtrip n : 0 ≤ n < 16 → char_nibble (nibble_char n) = Some n.
Proof.
  intros. unfold char_nibble, nibble_char.
  destruct (Z.ltb_spec n 10); rewrite byte_val_of, Z.mod_small by lia;
    repeat match goal with |- context [?a <=? ?b] => destruct (Z.leb_spec a b); try lia end;
    cbn; f_equal; lia.
Qed.

Lemma toy_unhex_hex bs : toy_unhex (toy_hex_bytes bs) = Some bs.
Proof.
  induction bs as [|b bs IH]; cbn; [done|].
  pose proof (byte_val_range b). pose proof (Z.mod_pos_bound (byte_val b) 16 ltac:(lia)).
  pose proof (Z.div_mod (byte_val b) 16 ltac:(lia)).
  rewrite nibble_roundtrip by lia. cbn. rewrite nibble_roundtrip by lia. cbn.
  rewrite IH. cbn. do 2 f_equal. rewrite <- (byte_of_val b) at 3. f_equal. lia.
Qed.

Lemma toy_hex_ok : @HexOk toy_hex.
Proof. constructor. intros bs. cbn. rewrite as_bytes_of_bytes. apply toy_unhex_hex. Qed.

Lemma toy_blake3_ok : @Blake3Ok toy_blake3.
Proof. constructor. by intros [|b bs]. Qed.

(** ** bech32 *)

Definition known_hrps : list string := ["sc"; "tsc"; "rsc"].

Definition toy_prefix (hrp : string) : list byte := as_bytes hrp ++ ["1"%byte].

Definition toy_bech32_decode (s : string) : option (string * list byte) :=
  list_find (λ hrp, is_Some (strip_prefix (toy_prefix hrp) (as_bytes s))) known_hrps
  ≫= λ '(_, hrp), data ← strip_prefix (toy_prefix hrp) (as_bytes s) ≫= toy_unhex;
  Some (hrp, data).

Definition toy_bech32 : Bech32 := {|
  hrp_parse hrp := if decide (hrp ∈ known_hrps) then Some hrp else None;
  bech32_encode hrp data :=
    if decide (hrp ∈ known_hrps)
    then Some (String.string_of_list_byte (toy_prefix hrp ++ toy_hex_bytes data)) else None;
  bech32_decode := toy_bech32_decode
|}.

Lemma toy_bech32_ok : @Bech32Ok toy_bech32.
Proof.
  constructor; cbn [hrp_parse bech32_encode bech32_decode toy_bech32].
  - intros s Hs. by rewrite decide_True.
  - intros hrp data s. case_decide as Hin; [|done]. intros [= <-].
    unfold toy_bech32_decode. rewrite as_bytes_of_bytes.
    assert (∀ h h', h ∈ known_hrps → h' ∈ known_hrps → h ≠ h' →
      strip_prefix (toy_prefix h') (toy_prefix h ++ toy_hex_bytes data) = None) as Hno.
    { intros h h' Hh Hh' Hne. unfold known_hrps in *.
      repeat (apply elem_of_cons in Hh as [->|Hh]; [|]); try by apply not_elem_of_nil in Hh.
      all: repeat (apply elem_of_cons in Hh' as [->|Hh']; [|]); try by apply not_elem_of_nil in Hh'.
      all: try done; reflexivity. }
    assert (list_find (λ h, is_Some (strip_prefix (toy_prefix h)
      (toy_prefix hrp ++ toy_hex_bytes data))) known_hrps ≫= (λ '(_, h), Some h) = Some hrp) as Hf.
    { destruct (list_find _ _) as [[i h]|] eqn:E; cbn.
      - apply list_find_Some in E as (Hi & Hs & _).
        destruct (decide (hrp = h)) as [->|Hne]; [done|].
        rewrite Hno in Hs; [by destruct Hs|done| |done]. by eapply list_elem_of_lookup_2.
      - apply list_find_None in E. rewrite Forall_forall in E.
        destruct (E hrp Hin). by rewrite strip_prefix_app. }
    destruct (list_find _ _) as [[i h]|]; cbn in Hf; [|done]. injection Hf as ->.
    cbn [mbind option_bind]. rewrite strip_prefix_app. cbn [mbind option_bind]. by rewrite toy_unhex_hex.
  - intros hrp data Hin _. rewrite decide_True by done. by eexists.
Qed.

(** ** secp256k1 *)

Definition toy_secp : Secp256k1 := {|
  PublicKey := byte;
  pk_eq_dec := byte_eq_dec;
  pk_serialize b := replicate 33 b;
  pk_from_slice s := match s with
    | b :: _ => if decide (s = replicate 33 b) then inl b else inr "malformed public key"
    | [] => inr "malformed public key" end;
  recover_ecdsa sg recid digest := if recid <? 4 then head sg else None
|}.

Lemma toy_secp_ok : @Secp256k1Ok toy_secp.
Proof. constructor; [|done]. intros pk. cbn. by rewrite decide_True. Qed.

(** ** A contract executor

    Code registry only: a constructor stores the argument bytes in slot 0, a call
    stores its input there, and value sent along moves from caller to callee. *)

Definition ToyVm : Type := gmap string (list byte).

Definition toy_run (ctx : ExecutionContext) (entry : bool) : ExecutionResult := {|
  ex_gas_used := 21; ex_logs := []; ex_status := StSuccess; ex_return_data := [];
  ex_storage_overlay := {[ cx_callee ctx := {[ zero32 := cx_input ctx ]} ]};
  ex_value_transfers := if entry && (0 <? cx_value ctx)
    then [{| vt_from := cx_caller ctx; vt_to := cx_callee ctx; vt_amount := cx_value ctx |}] else []
|}.

#[export] Instance toy_vm : VmExecutor ToyVm := {|
  execute vm ctx := match vm !! cx_callee ctx with
    | Some _ => Ok (toy_run ctx true)
    | None => Err (HostFunctionError "execute" "no code") end;
  execute_constructor vm ctx := Ok (toy_run ctx false);
  register_code vm address code := Ok (<[address := code]> vm)
|}.
