(* ===== verification/AbiCodecProps.v ===== *)
(** * Properties of the ABI codec

    Both directions of the codec are characterised by one relation, the canonical
    layout of a list of values as a head and a tail; hence [decode_args] accepts
    exactly the bytes [encode_args] produces. *)

From S2P Require Import Prelude Bytes Abi Concrete AbiCodec.
Open Scope Z_scope.

(** ** Sizes *)

(** The exact size of a static type, and the head contribution of any type. *)
Fixpoint size_of (t : AbiType) : Z :=
  match t with
  | TUint _ | TInt _ | TBool | TAddress => 32
  | TBytes | TString | TArray _ => 0
  | TFixedArray elem len => size_of elem * len
  | TTuple elems => sumZ (map size_of elems)
  end.

Definition head1 (t : AbiType) : Z := if is_dynamic t then 4 else size_of t.
Definition heads (ts : list AbiType) : Z := sumZ (map head1 ts).

(** Types whose heads have a sensible size, and whose arrays have elements that take
    room: [T[]] with a [T] of size zero is encoded but not decoded. *)
Fixpoint small (t : AbiType) : bool :=
  match t with
  | TUint _ | TInt _ | TBool | TAddress | TBytes | TString => true
  | TArray elem => small elem && (0 <? head1 elem) && (head1 elem <? two32)
  | TFixedArray elem len => small elem && (0 <=? len) && (head1 elem * len <? two32)
  | TTuple elems => forallb small elems && (sumZ (map head1 elems) <? two32)
  end.

Lemma heads_cons t ts : heads (t :: ts) = head1 t + heads ts.
Proof. done. Qed.

Lemma heads_replicate n t : heads (replicate n t) = head1 t * Z.of_nat n.
Proof. induction n as [|n IH]; [cbn; lia|]. cbn [replicate]. rewrite heads_cons, IH. lia. Qed.

(** A small static type has the size the code computes. *)
Definition sized (t : AbiType) : Prop :=
  0 ≤ head1 t ∧ (is_dynamic t = false → static_size t = Some (size_of t) ∧ 0 ≤ size_of t < two32).

Lemma existsb_false_Forall {A} (f : A → bool) l : existsb f l = false ↔ Forall (λ a, f a = false) l.
Proof.
  induction l as [|a l IH]; cbn; [split; [constructor|done]|].
  rewrite orb_false_iff, IH, Forall_cons. done.
Qed.

Lemma heads_nonneg ts : Forall sized ts → 0 ≤ heads ts.
Proof. intros H. apply sumZ_nonneg, Forall_fmap. eapply Forall_impl; [exact H|]. by intros t [? _]. Qed.

Lemma static_tuple_sum ts acc :
  Forall sized ts → Forall (λ t, is_dynamic t = false) ts → 0 ≤ acc → acc + heads ts < two64 →
  (fix go total es := match es with
    | [] => Some total
    | e :: es => s ← static_size e; go (add64 total s) es end) acc ts = Some (acc + heads ts).
Proof.
  revert acc. induction ts as [|t ts IH]; intros acc Hs Hd H0 Hlt; [cbn; f_equal; lia|].
  apply Forall_cons in Hs as [[Hh Ht] Hs], Hd as [Hd1 Hd]. destruct (Ht Hd1) as [E Hr].
  rewrite heads_cons in *. assert (head1 t = size_of t) as Eh by (unfold head1; by rewrite Hd1).
  rewrite Eh in *. pose proof (heads_nonneg ts Hs). rewrite E. cbn [mbind option_bind].
  assert (add64 acc (size_of t) = acc + size_of t) as -> by (apply wrap64_small; unfold in_u64; lia).
  rewrite IH; [f_equal; lia|done..| |]; lia.
Qed.

Lemma heads_static ts : Forall (λ t, is_dynamic t = false) ts → heads ts = sumZ (map size_of ts).
Proof. induction 1 as [|t ts H _ IH]; [done|]. rewrite heads_cons, IH. unfold head1. by rewrite H. Qed.

Lemma small_sized t : small t = true → sized t.
Proof.
  induction t as [n|n| | | | |e IH|e n IH|es IH] using AbiType_nested_ind; cbn [small]; intros H;
    try (split; [done|]; cbn; done).
  - apply andb_true_iff in H as [[H Hn]%andb_true_iff Hlt]. apply Z.leb_le in Hn. apply Z.ltb_lt in Hlt.
    destruct (IH H) as [Hh Hs]. unfold sized, head1 in *. cbn [is_dynamic size_of static_size].
    destruct (is_dynamic e); [done|]. destruct (Hs eq_refl) as [E Hr]. split; [nia|]. intros _.
    rewrite E. cbn. unfold mul64. rewrite wrap64_small by (unfold in_u64; nia). split; [done|nia].
  - apply andb_true_iff in H as [H Hlt]. apply Z.ltb_lt in Hlt.
    assert (Forall sized es) as Hs.
    { apply Forall_forall. intros t Ht. rewrite Forall_forall in IH. apply IH; [done|].
      rewrite forallb_forall in H. apply H. by apply list_elem_of_In. }
    unfold sized, head1. cbn [is_dynamic size_of static_size].
    destruct (existsb is_dynamic es) eqn:E; [done|]. apply existsb_false_Forall in E.
    pose proof (heads_nonneg es Hs). fold (heads es) in Hlt. rewrite <- heads_static by done.
    split; [done|]. intros _. rewrite static_tuple_sum; [|done..| |]; [|lia|lia]. split; [f_equal; lia|lia].
Qed.

Lemma head_len_exact ts : Forall sized ts → heads ts < two64 → head_len ts = heads ts.
Proof.
  intros Hs Hlt. unfold head_len.
  enough (∀ acc, 0 ≤ acc → acc + heads ts < two64 →
    foldl (λ n t, add64 n (if is_dynamic t then 4 else default 0 (static_size t))) acc ts = acc + heads ts) as H
    by (rewrite H; lia).
  clear Hlt. induction Hs as [|t ts [Hh Ht] Hs IH]; intros acc H0 Hlt; [cbn; lia|].
  rewrite heads_cons in *. pose proof (heads_nonneg ts Hs). cbn [foldl].
  assert ((if is_dynamic t then 4 else default 0 (static_size t)) = head1 t) as ->.
  { unfold head1. destruct (is_dynamic t); [done|]. by destruct (Ht eq_refl) as [-> _]. }
  assert (add64 acc (head1 t) = acc + head1 t) as -> by (apply wrap64_small; unfold in_u64; lia).
  rewrite IH; lia.
Qed.

(** ** Values *)

Fixpoint value_ok (v : AbiValue) : bool :=
  match v with
  | VUint w | VInt w | VAddress w => (length w =? 32)%nat
  | VBool _ | VBytes _ => true
  | VString s => utf8_valid (as_bytes s)
  | VArray vs | VFixedArray vs | VTuple vs => forallb value_ok vs
  end.

Abbreviation values_ok := (Forall (λ v, value_ok v = true)).

Lemma values_ok_forallb vs : forallb value_ok vs = true ↔ values_ok vs.
Proof. rewrite forallb_forall, Forall_forall. by setoid_rewrite list_elem_of_In. Qed.

(** ** The canonical layout *)

(** [lay ts vs p head tail]: the head and the tail of [vs] when the tail starts at
    position [p] of the tuple. *)
Inductive lay : list AbiType → list AbiValue → nat → list byte → list byte → Prop :=
  | lay_nil p : lay [] [] p [] []
  | lay_dynamic t ts v vs p body head tail :
      is_dynamic t = true → Z.of_nat p < two32 → value_ok v = true →
      encode_dynamic_body t v = Ok body →
      lay ts vs (p + length body) head tail →
      lay (t :: ts) (v :: vs) p (to_be_bytes 4 (Z.of_nat p) ++ head) (body ++ tail)
  | lay_static t ts v vs p bytes head tail :
      is_dynamic t = false → value_ok v = true →
      encode_static t v = Ok bytes →
      lay ts vs p head tail →
      lay (t :: ts) (v :: vs) p (bytes ++ head) tail.

(** What is proved of each type, by induction. *)
Definition static_exact (t : AbiType) : Prop :=
  (∀ v bytes, value_ok v = true → encode_static t v = Ok bytes → length bytes = Z.to_nat (size_of t)) ∧
  (∀ v n data, length data = Z.to_nat (size_of t) → Z.of_nat (length data) < two63 →
     decode_static t data = Ok (v, n) ↔
     n = length data ∧ encode_static t v = Ok data ∧ value_ok v = true).

Definition dynamic_exact (t : AbiType) : Prop :=
  ∀ v n data, Z.of_nat (length data) < two63 →
    decode_dynamic_body t data = Ok (v, n) ↔
    ∃ body rest, data = body ++ rest ∧ n = length body ∧
      encode_dynamic_body t v = Ok body ∧ value_ok v = true.

Definition exact (t : AbiType) : Prop :=
  sized t ∧ (is_dynamic t = false → static_exact t) ∧ (is_dynamic t = true → dynamic_exact t).

Lemma exact_sized ts : Forall exact ts → Forall sized ts.
Proof. intros H. eapply Forall_impl; [exact H|]. by intros t [? _]. Qed.

Lemma lay_length ts vs p h t : lay ts vs p h t → Forall exact ts → Z.of_nat (length h) = heads ts.
Proof.
  induction 1 as [|ty ts v vs p body head tail Hd _ _ _ _ IH|ty ts v vs p bytes head tail Hd Hv E _ IH];
    intros Hx; [done|..]; apply Forall_cons in Hx as [(Hs & Hst & _) Hx];
    rewrite length_app, heads_cons; unfold head1; rewrite Hd.
  - rewrite length_to_be_bytes. specialize (IH Hx). lia.
  - rewrite (proj1 (Hst Hd) v bytes Hv E). specialize (IH Hx). destruct Hs as [_ Hs].
    destruct (Hs Hd) as [_ ?]. lia.
Qed.

Lemma lay_values ts vs p h t : lay ts vs p h t → values_ok vs ∧ length ts = length vs.
Proof. induction 1 as [|? ? ? ? ? ? ? ? ? ? ? ? ? [IH1 IH2]|? ? ? ? ? ? ? ? ? ? ? ? [IH1 IH2]]; cbn; split; try done; try (by constructor); by rewrite IH2. Qed.

(** ** Encoding produces the layout *)

Lemma try_u32_ok n e m : try_u32 n e = Ok m ↔ n < two32 ∧ m = n.
Proof. unfold try_u32. destruct (Z.ltb_spec n two32); split; [intros [= <-]|intros [_ ->]|done|]; auto; lia. Qed.

(** The tail only grows. *)
Lemma encode_loop_tail hl l h0 t0 h t :
  foldM (encode_component hl) (h0, t0) l = Ok (h, t) → ∃ t', t = t0 ++ t'.
Proof.
  revert h0 t0. induction l as [|[[ty [s d]] v] l IH]; intros h0 t0 H.
  { injection H as _ <-. exists []. by rewrite app_nil_r. }
  cbn [foldM encode_component] in H. apply bind_ok_inv in H as ([h1 t1] & E & H). destruct (IH _ _ H) as [t2 ->].
  destruct (is_dynamic ty).
  - apply bind_ok_inv in E as (o & _ & E). apply bind_ok_inv in E as (b & _ & [= _ <-]).
    exists (b ++ t2). by rewrite app_assoc.
  - apply bind_ok_inv in E as (b & _ & [= _ <-]). by exists t2.
Qed.

Lemma encode_loop_heads ts vs hl h0 t0 h t :
  Forall exact ts → values_ok vs → length ts = length vs →
  foldM (encode_component hl) (h0, t0) (zip (map enc_entry ts) vs) = Ok (h, t) →
  Z.of_nat (length h) = Z.of_nat (length h0) + heads ts.
Proof.
  intros Hx. revert vs h0 t0. induction Hx as [|ty ts (Hs & Hst & _) Hx IH]; intros [|v vs] h0 t0 Hv Hl H; try done.
  { cbn in H. injection H as <- <-. unfold heads; cbn; lia. }
  apply Forall_cons in Hv as [Hv1 Hv]. injection Hl as Hl. rewrite heads_cons.
  cbn [map zip_with foldM encode_component enc_entry] in H. apply bind_ok_inv in H as ([h1 t1] & E & H).
  pose proof (IH vs h1 t1 Hv Hl H) as E1. unfold head1. destruct (is_dynamic ty) eqn:Hd.
  - apply bind_ok_inv in E as (o & _ & E). apply bind_ok_inv in E as (body & _ & [= <- <-]).
    rewrite length_app, length_to_be_bytes in E1. lia.
  - apply bind_ok_inv in E as (bytes & E & [= <- <-]). rewrite length_app in E1.
    rewrite (proj1 (Hst eq_refl) v bytes Hv1 E) in E1. destruct Hs as [_ Hs]. destruct (Hs Hd) as [_ ?]. lia.
Qed.

Lemma encode_pos hl (t0 : list byte) :
  0 ≤ hl → hl + Z.of_nat (length t0) < two64 → add64 hl (len64 t0) = Z.of_nat (Z.to_nat hl + length t0).
Proof. intros. unfold len64, add64. rewrite wrap64_small by (unfold in_u64; lia). lia. Qed.

Lemma encode_loop ts vs hl h0 t0 h t :
  values_ok vs → length ts = length vs → hl + Z.of_nat (length t) < two64 → 0 ≤ hl →
  foldM (encode_component hl) (h0, t0) (zip (map enc_entry ts) vs) = Ok (h, t) ↔
  ∃ h' t', h = h0 ++ h' ∧ t = t0 ++ t' ∧ lay ts vs (Z.to_nat hl + length t0) h' t'.
Proof.
  revert vs h0 t0. induction ts as [|ty ts IH]; intros [|v vs] h0 t0 Hv Hl Hlt H0; try done.
  { cbn [map zip_with foldM]. split.
    - intros [= <- <-]. exists [], []. rewrite !app_nil_r. split_and!; [done..|constructor].
    - intros (h' & t' & -> & -> & Hlay). inversion Hlay; subst. by rewrite !app_nil_r. }
  apply Forall_cons in Hv as [Hv1 Hv]. injection Hl as Hl.
  cbn [map zip_with foldM encode_component enc_entry]. destruct (is_dynamic ty) eqn:Hd.
  - split.
    + intros H. apply bind_ok_inv in H as ([h1 t1] & E & H).
      apply bind_ok_inv in E as (o & [Ho ->]%try_u32_ok & E). apply bind_ok_inv in E as (body & E & [= <- <-]).
      apply (IH vs _ _ Hv Hl Hlt H0) in H as (h' & t' & -> & -> & Hlay). rewrite !length_app in Hlt.
      rewrite encode_pos in * by lia.
      exists (to_be_bytes 4 (Z.of_nat (Z.to_nat hl + length t0)) ++ h'), (body ++ t').
      rewrite <- !app_assoc. split_and!; [done..|]. apply lay_dynamic; try done.
      by rewrite length_app, Nat.add_assoc in Hlay.
    + intros (h' & t' & -> & -> & Hlay).
      inversion Hlay as [|? ? ? ? ? body head tail _ Hp _ E Hlay' |]; subst; [|congruence].
      rewrite !length_app in Hlt. rewrite encode_pos by lia.
      rewrite (proj2 (try_u32_ok _ _ _) (conj Hp eq_refl)). cbn [mbind result_bind].
      rewrite E. cbn [mbind result_bind].
      apply (IH vs); [done..| |done|]; [rewrite !length_app; lia|]. exists head, tail.
      rewrite <- !app_assoc. split_and!; [done..|]. by rewrite length_app, Nat.add_assoc.
  - split.
    + intros H. apply bind_ok_inv in H as ([h1 t1] & E & H). apply bind_ok_inv in E as (bytes & E & [= <- <-]).
      apply (IH vs _ _ Hv Hl Hlt H0) in H as (h' & t'' & -> & -> & Hlay).
      exists (bytes ++ h'), t''. rewrite <- app_assoc. split_and!; [done..|]. by apply lay_static.
    + intros (h' & t' & -> & -> & Hlay).
      inversion Hlay as [| |? ? ? ? ? bytes head tail _ _ E Hlay']; subst; [congruence|].
      rewrite E. cbn [mbind result_bind].
      apply (IH vs); [done..|]. exists head, t'. by rewrite <- app_assoc.
Qed.

Lemma enc_entry_types ts : (map enc_entry ts).*1 = ts.
Proof. induction ts; cbn; f_equal; auto. Qed.
Lemma dec_entry_types ts : (map dec_entry ts).*1 = ts.
Proof. induction ts; cbn; f_equal; auto. Qed.

Lemma encode_tuple_layout ts vs bs :
  Forall exact ts → values_ok vs → Z.of_nat (length bs) < two63 →
  encode_tuple ts vs = Ok bs ↔ ∃ h t, bs = h ++ t ∧ lay ts vs (length h) h t.
Proof.
  intros Hx Hv Hlt. unfold encode_tuple, encode_entries. rewrite length_map.
  rewrite enc_entry_types.
  destruct (Nat.eqb_spec (length ts) (length vs)) as [Hl|Hl]; cbn [negb].
  2: { split; [done|]. intros (h & t & _ & H). by apply lay_values in H as [_ ?]. }
  split.
  - intros H. apply bind_ok_inv in H as ([h t] & E & [= <-]). rewrite length_app in Hlt.
    pose proof (encode_loop_heads _ _ _ _ _ _ _ Hx Hv Hl E) as Eh. cbn in Eh.
    rewrite head_len_exact in E by first [by apply exact_sized|lia].
    apply encode_loop in E as (h' & t' & -> & -> & Hlay); [|done..|lia|lia]. cbn [app length] in *.
    exists h', t'. split; [done|]. by replace (length h') with (Z.to_nat (heads ts) + 0)%nat by lia.
  - intros (h & t & -> & Hlay). rewrite length_app in Hlt.
    pose proof (lay_length _ _ _ _ _ Hlay Hx) as Eh. rewrite head_len_exact by first [by apply exact_sized|lia].
    rewrite (proj2 (encode_loop ts vs (heads ts) [] [] h t Hv Hl ltac:(lia) ltac:(lia))); [done|].
    exists h, t. split_and!; [done..|]. cbn [length]. by replace (Z.to_nat (heads ts) + 0)%nat with (length h) by lia.
Qed.

(** ** Decoding reads the layout *)

Lemma read_u32_at data p n : Z.of_nat n < two32 →
  read_u32 data p = Ok (Z.of_nat n) ↔ ∃ k, drop p data = to_be_bytes 4 (Z.of_nat n) ++ k.
Proof.
  intros Hn. unfold read_u32. assert (length (drop p data) = (length data - p)%nat) as Hl by apply length_drop.
  destruct (Nat.leb_spec (p + 4) (length data)) as [Hle|Hgt].
  - split.
    + intros [= E]. exists (drop 4 (drop p data)). rewrite <- (take_drop 4 (drop p data)) at 1. f_equal.
      rewrite <- E. rewrite <- (to_from_be_bytes (take 4 (drop p data))) at 1. f_equal.
      rewrite length_take. lia.
    + intros [k Ek]. rewrite Ek, take_app_length' by (by rewrite length_to_be_bytes).
      f_equal. apply from_to_be_u32. unfold in_u32. lia.
  - split; [done|]. intros [k Ek]. apply (f_equal length) in Ek. rewrite length_app, length_to_be_bytes in Ek. lia.
Qed.

Lemma read_u32_value data p o : read_u32 data p = Ok o → 0 ≤ o < two32.
Proof.
  unfold read_u32. case_match; [|done]. intros [= <-].
  pose proof (from_be_bytes_range (take 4 (drop p data))) as H1.
  assert (length (take 4 (drop p data)) ≤ 4)%nat as H2 by (rewrite length_take; lia).
  assert (256 ^ Z.of_nat (length (take 4 (drop p data))) ≤ 256 ^ 4) by (apply Z.pow_le_mono_r; lia). lia.
Qed.

Lemma drop_shift {A} (l s k : list A) p : drop p l = s ++ k → drop (p + length s) l = k.
Proof. intros H. by rewrite <- drop_drop, H, drop_app_length. Qed.

(** One dynamic component. *)
Lemma decode_dynamic_step data t ts vals hp tp vals' tp' hp' :
  is_dynamic t = true → dynamic_exact t → Z.of_nat (length data) < two63 → (tp ≤ length data)%nat →
  foldM (decode_component data) (vals, hp, tp) (map dec_entry (t :: ts)) = Ok (vals', hp', tp') ↔
  ∃ v body k k', drop hp data = to_be_bytes 4 (Z.of_nat tp) ++ k ∧ Z.of_nat tp < two32 ∧
    drop tp data = body ++ k' ∧ encode_dynamic_body t v = Ok body ∧ value_ok v = true ∧
    foldM (decode_component data) (vals ++ [v], (hp + 4)%nat, (tp + length body)%nat) (map dec_entry ts)
      = Ok (vals', hp', tp').
Proof.
  intros Hd Hx Hlt Htp. cbn [map foldM decode_component dec_entry]. rewrite Hd. unfold slice_from.
  destruct (Nat.leb_spec tp (length data)); [|lia]. cbn [mbind result_bind].
  assert (Z.of_nat (length (drop tp data)) < two63) as Hlt' by (rewrite length_drop; lia). split.
  - intros H1. apply bind_ok_inv in H1 as ([[vs1 hp1] tp1] & E & H1). apply bind_ok_inv in E as (o & Eo & E).
    destruct (Z.eqb_spec o (Z.of_nat tp)) as [->|]; [|done]. cbn [negb] in E.
    apply bind_ok_inv in E as ([v n] & Ev & [= <- <- <-]).
    apply (Hx v n _ Hlt') in Ev as (body & k' & Ek & -> & Ee & Hv).
    pose proof (read_u32_value _ _ _ Eo) as [_ Htp32]. apply read_u32_at in Eo as [k Ek0]; [|done].
    by exists v, body, k, k'.
  - intros (v & body & k & k' & Ek & Hp & Ek' & Ee & Hv & H1).
    rewrite (proj2 (read_u32_at data hp tp Hp) (ex_intro _ k Ek)). cbn [mbind result_bind]. rewrite Z.eqb_refl. cbn [negb].
    rewrite (proj2 (Hx v (length body) (drop tp data) Hlt')) by (exists body, k'; done). cbn [mbind result_bind]. done.
Qed.

(** One static component. *)
Lemma decode_static_step data t ts vals hp tp vals' tp' hp' :
  is_dynamic t = false → sized t → static_exact t → Z.of_nat (length data) < two63 →
  Z.of_nat hp + size_of t ≤ Z.of_nat (length data) →
  foldM (decode_component data) (vals, hp, tp) (map dec_entry (t :: ts)) = Ok (vals', hp', tp') ↔
  ∃ v bytes k, drop hp data = bytes ++ k ∧ length bytes = Z.to_nat (size_of t) ∧
    encode_static t v = Ok bytes ∧ value_ok v = true ∧
    foldM (decode_component data) (vals ++ [v], (hp + length bytes)%nat, tp) (map dec_entry ts)
      = Ok (vals', hp', tp').
Proof.
  intros Hd [_ Hs] [_ Hx] Hlt Hle. destruct (Hs Hd) as [Es Hr].
  cbn [map foldM decode_component dec_entry]. rewrite Hd, Es. cbn [default from_option id]. unfold slice_at.
  destruct (Nat.leb_spec (hp + Z.to_nat (size_of t)) (length data)); [|lia]. cbn [mbind result_bind].
  set (bytes := take (Z.to_nat (size_of t)) (drop hp data)).
  assert (length bytes = Z.to_nat (size_of t)) as Hlen by (unfold bytes; rewrite length_take, length_drop; lia).
  split.
  - intros H1. apply bind_ok_inv in H1 as ([[vs1 hp1] tp1] & E & H1).
    apply bind_ok_inv in E as ([v n] & Ev & [= <- <- <-]). apply Hx in Ev as (_ & Ee & Hv); [|done|lia].
    exists v, bytes, (drop (Z.to_nat (size_of t)) (drop hp data)). rewrite Hlen. split_and!; try done.
    unfold bytes. by rewrite take_drop.
  - intros (v & bytes' & k & Ek & Hlen' & Ee & Hv & H1).
    assert (bytes = bytes') as -> by (unfold bytes; by rewrite Ek, take_app_length').
    rewrite (proj2 (Hx v (length bytes') bytes' Hlen' ltac:(lia))) by done. cbn [mbind result_bind].
    by rewrite <- Hlen'.
Qed.

Lemma decode_loop data ts vals hp tp vals' hp' tp' :
  Forall exact ts → Z.of_nat (length data) < two63 → Z.of_nat hp + heads ts ≤ Z.of_nat (length data) →
  (tp ≤ length data)%nat →
  foldM (decode_component data) (vals, hp, tp) (map dec_entry ts) = Ok (vals', hp', tp') ↔
  ∃ vs h t k k', vals' = vals ++ vs ∧ lay ts vs tp h t ∧ drop hp data = h ++ k ∧ drop tp data = t ++ k' ∧
    hp' = (hp + length h)%nat ∧ tp' = (tp + length t)%nat.
Proof.
  intros Hx Hlt. revert vals hp tp. induction Hx as [|t ts (Hs & Hst & Hdy) Hx IH]; intros vals hp tp Hle Htp.
  { cbn [map foldM]. split.
    - intros [= <- <- <-]. exists [], [], [], (drop hp data), (drop tp data). rewrite app_nil_r. cbn [length].
      split_and!; try done; try lia. constructor.
    - intros (vs & h & t & k & k' & -> & Hlay & _ & _ & -> & ->). inversion Hlay; subst. cbn [length].
      by rewrite app_nil_r, !Nat.add_0_r. }
  rewrite heads_cons in Hle. pose proof (heads_nonneg ts (exact_sized ts Hx)) as Hnn. unfold head1 in Hle.
  destruct (is_dynamic t) eqn:Hd.
  - rewrite decode_dynamic_step by (try done; by apply Hdy). split.
    + intros (v & body & k & k' & Ek & Hp & Ek' & Ee & Hv & H).
      assert (tp + length body ≤ length data)%nat as Htp2.
      { pose proof (f_equal length Ek') as El. rewrite length_drop, length_app in El. lia. }
      apply IH in H as (vs & h & t' & k2 & k2' & -> & Hlay & E1 & E2 & -> & ->); [|lia|done].
      rewrite <- (length_to_be_bytes 4 (Z.of_nat tp)) in E1.
      rewrite (drop_shift _ _ _ _ Ek) in E1. rewrite (drop_shift _ _ _ _ Ek') in E2. subst k k'.
      exists (v :: vs), (to_be_bytes 4 (Z.of_nat tp) ++ h), (body ++ t'), k2, k2'.
      rewrite !length_app, length_to_be_bytes, <- !app_assoc. split_and!; try done; [by apply lay_dynamic|lia..].
    + intros (vs & h & t' & k & k' & -> & Hlay & E1 & E2 & -> & ->).
      inversion Hlay as [|? ? v vs' ? body head tail _ Hp Hv Ee Hlay'|]; subst; [|congruence].
      rewrite <- app_assoc in E1, E2. exists v, body, (head ++ k), (tail ++ k'). split_and!; try done.
      assert (tp + length body ≤ length data)%nat as Htp2.
      { pose proof (f_equal length E2) as El. rewrite length_drop, length_app in El. lia. }
      apply IH; [lia|done|]. exists vs', head, tail, k, k'.
      rewrite !length_app, length_to_be_bytes, <- app_assoc. split_and!; try done; [| |lia..].
      * rewrite <- (length_to_be_bytes 4 (Z.of_nat tp)). by apply drop_shift.
      * by apply drop_shift.
  - assert (0 ≤ size_of t) as Hsz by (destruct Hs as [_ Hs]; destruct (Hs Hd) as [_ ?]; lia).
    rewrite decode_static_step; [|done|done|by apply Hst|done|lia]. split.
    + intros (v & bytes & k & Ek & El & Ee & Hv & H).
      apply IH in H as (vs & h & t' & k2 & k2' & -> & Hlay & E1 & E2 & -> & ->); [|lia|done].
      rewrite (drop_shift _ _ _ _ Ek) in E1. subst k.
      exists (v :: vs), (bytes ++ h), t', k2, k2'. rewrite length_app, <- !app_assoc.
      split_and!; try done; [by apply lay_static|lia].
    + intros (vs & h & t' & k & k' & -> & Hlay & E1 & E2 & -> & ->).
      inversion Hlay as [| |? ? v vs' ? bytes head tail _ Hv Ee Hlay']; subst; [congruence|].
      pose proof (proj1 (Hst eq_refl) v bytes Hv Ee) as El. rewrite <- app_assoc in E1.
      exists v, bytes, (head ++ k). split_and!; try done.
      apply IH; [lia|done|]. exists vs', head, t', k, k'. rewrite length_app, <- app_assoc.
      split_and!; try done; [by apply drop_shift|lia].
Qed.

Lemma decode_tuple_layout ts vs n data :
  Forall exact ts → Z.of_nat (length data) < two63 → heads ts < two64 →
  decode_tuple ts data = Ok (vs, n) ↔
  ∃ h t rest, data = h ++ t ++ rest ∧ lay ts vs (length h) h t ∧ n = (length h + length t)%nat.
Proof.
  intros Hx Hlt Hh. unfold decode_tuple, decode_entries. rewrite dec_entry_types.
  rewrite head_len_exact by first [by apply exact_sized|done].
  pose proof (heads_nonneg ts (exact_sized ts Hx)) as Hnn. unfold len64.
  destruct (Z.ltb_spec (Z.of_nat (length data)) (heads ts)) as [Hs|Hs].
  { split; [done|]. intros (h & t & rest & -> & Hlay & _).
    apply lay_length in Hlay; [|done]. rewrite length_app in Hs. lia. }
  split.
  - intros H. apply bind_ok_inv in H as ([[vs' hp'] tp'] & E & [= <- <-]).
    apply decode_loop in E as (vs & h & t & k & k' & -> & Hlay & E1 & E2 & -> & ->); [|done|lia|lia|lia].
    rewrite drop_0 in E1. cbn [app]. pose proof (lay_length _ _ _ _ _ Hlay Hx) as Eh.
    replace (Z.to_nat (heads ts)) with (length h) in * by lia.
    exists h, t, k'. split_and!; [|done|lia]. rewrite <- E2, E1. by rewrite drop_app_length.
  - intros (h & t & rest & -> & Hlay & ->). pose proof (lay_length _ _ _ _ _ Hlay Hx) as Eh.
    replace (Z.to_nat (heads ts)) with (length h) by lia.
    rewrite (proj2 (decode_loop (h ++ t ++ rest) ts [] 0 (length h) vs (length h) (length h + length t) Hx Hlt
      ltac:(lia) ltac:(rewrite length_app; lia))); [done|].
    exists vs, h, t, (t ++ rest), rest. rewrite drop_0, drop_app_length. by split_and!.
Qed.

(** Decoding a tuple is encoding read backwards. *)
Lemma tuple_exact ts vs n data :
  Forall exact ts → Z.of_nat (length data) < two63 → heads ts < two64 →
  decode_tuple ts data = Ok (vs, n) ↔
  ∃ body rest, data = body ++ rest ∧ n = length body ∧ encode_tuple ts vs = Ok body ∧ values_ok vs.
Proof.
  intros Hx Hlt Hh. rewrite decode_tuple_layout by done. split.
  - intros (h & t & rest & -> & Hlay & ->). exists (h ++ t), rest. rewrite <- app_assoc, length_app.
    pose proof (proj1 (lay_values _ _ _ _ _ Hlay)) as Hv. split_and!; try done.
    apply encode_tuple_layout; [done..| |by exists h, t]. rewrite !length_app in *. lia.
  - intros (body & rest & -> & -> & E & Hv). rewrite length_app in Hlt.
    apply encode_tuple_layout in E as (h & t & -> & Hlay); [|done..|lia].
    exists h, t, rest. rewrite <- app_assoc, length_app. by split_and!.
Qed.

(** A tuple of static components has no tail. *)
Lemma lay_static_only ts vs p h t : Forall (λ t, is_dynamic t = false) ts → lay ts vs p h t → t = [].
Proof. intros Hd. induction 1; [done|..]; apply Forall_cons in Hd as [? ?]; [congruence|auto]. Qed.

Lemma tuple_static_length ts vs bs :
  Forall exact ts → Forall (λ t, is_dynamic t = false) ts → values_ok vs → heads ts < two63 →
  encode_tuple ts vs = Ok bs → Z.of_nat (length bs) = heads ts.
Proof.
  intros Hx Hd Hv Hlt H. unfold encode_tuple, encode_entries in H. rewrite length_map, enc_entry_types in H.
  destruct (Nat.eqb_spec (length ts) (length vs)) as [Hl|]; [|done]. cbn [negb] in H.
  apply bind_ok_inv in H as ([h t] & E & [= <-]).
  pose proof (encode_loop_heads _ _ _ _ _ _ _ Hx Hv Hl E) as Eh. cbn in Eh.
  enough (t = []) as -> by (rewrite app_nil_r; lia).
  clear -E Hd. revert E. generalize (head_len ts). generalize (@nil byte) at 1 as h0. intros h0 hl.
  revert vs h0. induction Hd as [|ty ts Hd _ IH]; intros [|v vs] h0 E; try (by injection E).
  cbn [map zip_with foldM encode_component enc_entry] in E. rewrite Hd in E.
  apply bind_ok_inv in E as ([h1 t1] & E1 & E). apply bind_ok_inv in E1 as (b & _ & [= <- <-]). by eapply IH.
Qed.

(** ** Words *)

Lemma read_word_32 data w : length data = 32%nat → read_word data = Ok w ↔ w = data.
Proof.
  intros Hl. unfold read_word. rewrite Hl. cbn [Nat.leb]. rewrite take_ge by lia.
  split; [by intros [= <-]|by intros ->].
Qed.

Lemma zeros_replicate l : forallb (λ b, byte_val b =? 0) l = true ↔ l = replicate (length l) x00.
Proof.
  induction l as [|b l IH]; [done|]. cbn [forallb length replicate]. rewrite andb_true_iff, IH, Z.eqb_eq. split.
  - intros [Hb E]. f_equal; [|exact E]. by apply byte_val_inj.
  - intros [= -> E]. by rewrite <- E.
Qed.

Lemma fill_replicate (f : byte) l : forallb (λ b, bool_decide (b = f)) l = true → l = replicate (length l) f.
Proof.
  induction l as [|b l IH]; [done|]. cbn [forallb length replicate]. rewrite andb_true_iff, bool_decide_eq_true.
  intros [-> ?]. f_equal. auto.
Qed.

(** The decoder's sign extension changes nothing in a value that passed the check. *)
Lemma sign_extend_id raw bits :
  length raw = 32%nat → check_int_range raw bits = Ok tt → sign_extend raw bits = Ok raw.
Proof.
  intros Hl H. unfold check_int_range in H. apply bind_ok_inv in H as ([] & _ & H).
  unfold sign_extend. destruct (Nat.ltb_spec (Z.to_nat (bits / 8)) 32); [|done].
  apply bind_ok_inv in H as (f & -> & H). cbn [mbind result_bind].
  destruct (forallb _ _) eqn:E; [|done]. apply fill_replicate in E.
  rewrite length_take, Hl in E. rewrite Nat.min_l in E by lia. rewrite <- E. by rewrite take_drop.
Qed.

Lemma bool_word data b :
  length data = 32%nat →
  (∃ last, data !! 31%nat = Some last ∧
     negb (forallb (λ b, byte_val b =? 0) (take 31 data)) || (1 <? byte_val last) = false ∧
     (byte_val last =? 1) = b) ↔ data = replicate 31 x00 ++ [if b then x01 else x00].
Proof.
  intros Hl. split.
  - intros (last & Hlast & [Hz%negb_false_iff H1%Z.ltb_ge]%orb_false_iff & <-).
    apply zeros_replicate in Hz. rewrite length_take, Hl in Hz. cbn [Nat.min] in Hz.
    rewrite <- (take_drop 31 data), Hz at 1. f_equal. rewrite (drop_S _ _ _ Hlast), drop_ge by lia. f_equal.
    apply byte_val_inj. pose proof (byte_val_range last). destruct (Z.eqb_spec (byte_val last) 1) as [->|]; [done|].
    change (byte_val x00) with 0. lia.
  - intros ->. by destruct b; eexists.
Qed.

Lemma fixed_entries n t : map enc_entry (replicate n t) = replicate n (enc_entry t).
Proof. apply (fmap_replicate enc_entry). Qed.
Lemma fixed_entries' n t : map dec_entry (replicate n t) = replicate n (dec_entry t).
Proof. apply (fmap_replicate dec_entry). Qed.

(** ** Types made of components *)

Section Group.
Context (ts : list AbiType) (K : list AbiValue → AbiValue).
Context (enc : AbiValue → result AbiError (list byte)) (dec : list byte → result AbiError (AbiValue * nat)).
Hypothesis Hexact : Forall exact ts.
Hypothesis HK : ∀ vals, value_ok (K vals) = forallb value_ok vals.
Hypothesis Henc : ∀ v bs, enc v = Ok bs ↔ ∃ vals, v = K vals ∧ encode_tuple ts vals = Ok bs.
Hypothesis Hdec : ∀ data v n, dec data = Ok (v, n) ↔ ∃ vals, v = K vals ∧ decode_tuple ts data = Ok (vals, n).

Lemma group_dynamic v n data :
  heads ts < two64 → Z.of_nat (length data) < two63 →
  dec data = Ok (v, n) ↔
  ∃ body rest, data = body ++ rest ∧ n = length body ∧ enc v = Ok body ∧ value_ok v = true.
Proof.
  intros Hh Hlt. rewrite Hdec. split.
  - intros (vals & -> & E). apply tuple_exact in E as (body & rest & -> & -> & E & Hv); [|done..].
    exists body, rest. split_and!; [done..| |by rewrite HK, values_ok_forallb].
    apply Henc. by exists vals.
  - intros (body & rest & -> & -> & E & Hv). apply Henc in E as (vals & -> & E).
    rewrite HK, values_ok_forallb in Hv. exists vals. split; [done|]. apply tuple_exact; [done..|].
    by exists body, rest.
Qed.

Hypothesis Hstatic : Forall (λ t, is_dynamic t = false) ts.
Hypothesis Hheads : heads ts < two32.

Lemma group_length v bs : value_ok v = true → enc v = Ok bs → Z.of_nat (length bs) = heads ts.
Proof.
  intros Hv E. apply Henc in E as (vals & -> & E). rewrite HK, values_ok_forallb in Hv.
  apply tuple_static_length in E; try done. lia.
Qed.

Lemma group_static v n data :
  Z.of_nat (length data) = heads ts →
  dec data = Ok (v, n) ↔ n = length data ∧ enc v = Ok data ∧ value_ok v = true.
Proof.
  intros Hl. rewrite group_dynamic by lia. split.
  - intros (body & rest & -> & -> & E & Hv). pose proof (group_length _ _ Hv E) as Hb.
    rewrite length_app in Hl. assert (rest = []) as -> by (apply nil_length_inv; lia).
    by rewrite app_nil_r.
  - intros (-> & E & Hv). exists data, []. by rewrite app_nil_r.
Qed.
End Group.

Lemma fixed_enc_static e n v bs :
  encode_static (TFixedArray e n) v = Ok bs ↔
  ∃ vals, v = VFixedArray vals ∧ len64 vals = n ∧ encode_tuple (replicate (Z.to_nat n) e) vals = Ok bs.
Proof.
  unfold encode_tuple. rewrite fixed_entries. destruct v; cbn [encode_static]; try (split; [done|]; by intros (? & ? & _)).
  destruct (Z.eqb_spec (len64 vals) n) as [E|E]; cbn [negb]; split; try done.
  - intros H. by exists vals.
  - by intros (? & [= <-] & _ & H).
  - by intros (? & [= <-] & ? & _).
Qed.

Lemma fixed_enc_dynamic e n v bs :
  encode_dynamic_body (TFixedArray e n) v = Ok bs ↔
  ∃ vals, v = VFixedArray vals ∧ len64 vals = n ∧ encode_tuple (replicate (Z.to_nat n) e) vals = Ok bs.
Proof. rewrite <- fixed_enc_static. by destruct v. Qed.

(** The arity test of [encode_tuple] makes the length test of fixed arrays redundant. *)
Lemma fixed_arity e n vals bs :
  0 ≤ n → encode_tuple (replicate (Z.to_nat n) e) vals = Ok bs → len64 vals = n.
Proof.
  intros Hn. unfold encode_tuple, encode_entries, len64. rewrite length_map, length_replicate.
  destruct (Nat.eqb_spec (Z.to_nat n) (length vals)); [lia|done].
Qed.

Lemma dec_inv (r : result AbiError (list AbiValue * nat)) (K : list AbiValue → AbiValue) v (n : nat) :
  (('(values, consumed) ← r; Ok (K values, consumed)) : result AbiError (AbiValue * nat)) = Ok (v, n)
  ↔ ∃ vals, v = K vals ∧ r = Ok (vals, n).
Proof.
  destruct r as [[vals c]| |]; cbn; split; try done.
  - intros [= <- <-]. by exists vals.
  - by intros (? & -> & [= <- <-]).
  - by intros (? & _ & ?).
  - by intros (? & _ & ?).
Qed.

Lemma fixed_exact e n : exact e → 0 ≤ n → head1 e * n < two32 → sized (TFixedArray e n) → exact (TFixedArray e n).
Proof.
  intros He Hn Hlt Hs. set (ts := replicate (Z.to_nat n) e).
  assert (Forall exact ts) as Hx by (by apply Forall_replicate).
  assert (heads ts = head1 e * n) as Hh by (unfold ts; by rewrite heads_replicate, Z2Nat.id).
  assert (∀ v bs, encode_static (TFixedArray e n) v = Ok bs ↔
    ∃ vals, v = VFixedArray vals ∧ encode_tuple ts vals = Ok bs) as Henc.
  { intros v bs. rewrite fixed_enc_static. split; [by intros (vals & ? & _ & ?); exists vals|].
    intros (vals & ? & E). exists vals. split_and!; try done. by eapply fixed_arity. }
  assert (∀ v bs, encode_dynamic_body (TFixedArray e n) v = Ok bs ↔
    ∃ vals, v = VFixedArray vals ∧ encode_tuple ts vals = Ok bs) as Henc'.
  { intros v bs. rewrite fixed_enc_dynamic, <- fixed_enc_static. apply Henc. }
  assert (∀ data v k, decode_static (TFixedArray e n) data = Ok (v, k) ↔
    ∃ vals, v = VFixedArray vals ∧ decode_tuple ts data = Ok (vals, k)) as Hdec.
  { intros. unfold decode_tuple, ts. rewrite fixed_entries'. apply dec_inv. }
  split_and!; [done|..].
  - intros Hd. assert (is_dynamic e = false) as Hde by exact Hd.
    assert (Forall (λ t, is_dynamic t = false) ts) as Hst by (by apply Forall_replicate).
    assert (size_of (TFixedArray e n) = heads ts) as Esz by (rewrite Hh; unfold head1; by rewrite Hde).
    pose proof (heads_nonneg ts (exact_sized ts Hx)) as Hnn. split.
    + intros v bs Hv E. pose proof (group_length ts VFixedArray _ Hx (λ _, eq_refl) Henc Hst ltac:(lia) v bs Hv E). lia.
    + intros v k data Hl _.
      apply (group_static ts VFixedArray _ _ Hx (λ _, eq_refl) Henc Hdec Hst ltac:(lia)). lia.
  - intros _ v k data Hl. apply (group_dynamic ts VFixedArray _ _ Hx (λ _, eq_refl) Henc'); [|lia|done].
    intros. apply (Hdec data0).
Qed.

Lemma tuple_type_exact es : Forall exact es → heads es < two32 → sized (TTuple es) → exact (TTuple es).
Proof.
  intros Hx Hlt Hs.
  assert (∀ v bs, encode_static (TTuple es) v = Ok bs ↔ ∃ vals, v = VTuple vals ∧ encode_tuple es vals = Ok bs) as Henc.
  { intros v bs. destruct v; cbn [encode_static]; try (split; [done|]; by intros (? & ? & _)).
    split; [intros H; by exists vals|by intros (? & [= <-] & ?)]. }
  assert (∀ v bs, encode_dynamic_body (TTuple es) v = Ok bs ↔ ∃ vals, v = VTuple vals ∧ encode_tuple es vals = Ok bs) as Henc'.
  { intros v bs. rewrite <- Henc. by destruct v. }
  assert (∀ data v k, decode_static (TTuple es) data = Ok (v, k) ↔
    ∃ vals, v = VTuple vals ∧ decode_tuple es data = Ok (vals, k)) as Hdec by (intros; apply dec_inv).
  split_and!; [done|..].
  - intros Hd. assert (Forall (λ t, is_dynamic t = false) es) as Hst by (by apply existsb_false_Forall).
    assert (size_of (TTuple es) = heads es) as Esz by (by rewrite heads_static).
    pose proof (heads_nonneg es (exact_sized es Hx)) as Hnn. split.
    + intros v bs Hv E. pose proof (group_length es VTuple _ Hx (λ _, eq_refl) Henc Hst ltac:(lia) v bs Hv E). lia.
    + intros v k data Hl _. apply (group_static es VTuple _ _ Hx (λ _, eq_refl) Henc Hdec Hst ltac:(lia)). lia.
  - intros _ v k data Hl. apply (group_dynamic es VTuple _ _ Hx (λ _, eq_refl) Henc' Hdec); [lia|done].
Qed.

(** A length-prefixed byte string. *)
Lemma prefixed_exact data bs n : 
  read_prefixed data = Ok (bs, n) ↔
  ∃ rest, data = (to_be_bytes 4 (len64 bs) ++ bs) ++ rest ∧ n = (4 + length bs)%nat ∧ len64 bs < two32.
Proof.
  unfold read_prefixed. split.
  - intros H. apply bind_ok_inv in H as (o & Eo & H). pose proof (read_u32_value _ _ _ Eo) as Ho.
    destruct (Nat.ltb_spec (length data) (4 + Z.to_nat o)) as [|Hle]; [done|]. injection H as <- <-.
    assert (length (take (Z.to_nat o) (drop 4 data)) = Z.to_nat o) as Hl by (rewrite length_take, length_drop; lia).
    rewrite <- (Z2Nat.id o) in Eo by lia. apply read_u32_at in Eo as [k Ek]; [|lia]. rewrite drop_0 in Ek.
    exists (drop (Z.to_nat o) (drop 4 data)). unfold len64. rewrite Hl. split_and!; [|done|lia].
    rewrite <- app_assoc, take_drop. rewrite Ek at 1. f_equal.
    rewrite <- (length_to_be_bytes 4 (Z.of_nat (Z.to_nat o))) at 1. rewrite Ek at 1. by rewrite drop_app_length.
  - intros (rest & -> & -> & Hlt). unfold len64 in *.
    rewrite (proj2 (read_u32_at _ 0 (length bs) Hlt)) by (exists (bs ++ rest); by rewrite drop_0, app_assoc).
    cbn [mbind result_bind]. rewrite Nat2Z.id, !length_app, length_to_be_bytes.
    destruct (Nat.ltb_spec (4 + length bs + length rest) (4 + length bs)); [lia|].
    rewrite <- app_assoc, (drop_app_length' _ _ 4) by (by rewrite length_to_be_bytes). by rewrite take_app_length.
Qed.

Lemma array_exact e : exact e → 0 < head1 e < two32 → dynamic_exact (TArray e).
Proof.
  intros He Hh v n data Hlt. cbn [decode_dynamic_body].
  assert (∀ k, Forall exact (replicate k e)) as Hx by (intros; by apply Forall_replicate).
  split.
  - intros H. apply bind_ok_inv in H as (o & Eo & H). pose proof (read_u32_value _ _ _ Eo) as Ho.
    destruct (Z.ltb_spec (len64 data) o); [done|]. apply bind_ok_inv in H as (r & Er & H).
    unfold slice_from in Er. destruct (Nat.leb_spec 4 (length data)); [|done]. injection Er as <-.
    apply bind_ok_inv in H as ([vals c] & E & [= <- <-]).
    fold (dec_entry e) in E. rewrite <- fixed_entries' in E.
    apply (tuple_exact (replicate (Z.to_nat o) e)) in E as (body & rest & Eb & -> & E & Hv); [|done| |].
    2: rewrite length_drop; lia. 2: rewrite heads_replicate; nia.
    pose proof (fixed_arity e o vals body ltac:(lia) E) as Hlen. unfold len64 in Hlen.
    rewrite <- (Z2Nat.id o) in Eo by lia. apply read_u32_at in Eo as [k Ek]; [|lia]. rewrite drop_0 in Ek.
    exists (to_be_bytes 4 (len64 vals) ++ body), rest. unfold len64. rewrite Hlen, length_app, length_to_be_bytes.
    split_and!; try done; [..|cbn; by apply values_ok_forallb].
    + rewrite <- app_assoc, <- Eb. rewrite Ek at 1. rewrite Z2Nat.id by lia. f_equal.
      rewrite <- (length_to_be_bytes 4 (Z.of_nat (Z.to_nat o))) at 1. rewrite Ek at 1. by rewrite drop_app_length.
    + cbn [encode_dynamic_body]. rewrite (proj2 (try_u32_ok _ _ o)) by (unfold len64; lia). cbn [mbind result_bind].
      replace (length vals) with (Z.to_nat o) by lia. fold (enc_entry e). rewrite <- fixed_entries.
      fold (encode_tuple (replicate (Z.to_nat o) e) vals). by rewrite E.
  - intros (body & rest & -> & -> & E & Hv). destruct v; try done. cbn [encode_dynamic_body] in E.
    apply bind_ok_inv in E as (o & [Ho ->]%try_u32_ok & E). apply bind_ok_inv in E as (b & E & <-%ok_inj).
    fold (enc_entry e) in E. rewrite <- fixed_entries in E. fold (encode_tuple (replicate (length vals) e) vals) in E.
    cbn [value_ok] in Hv. rewrite values_ok_forallb in Hv. unfold len64 in *.
    rewrite !length_app, length_to_be_bytes in Hlt.
    rewrite (proj2 (read_u32_at _ 0 (length vals) Ho)) by (exists (b ++ rest); by rewrite drop_0, app_assoc).
    cbn [mbind result_bind].
    assert (length vals ≤ length b)%nat as Hcnt.
    { pose proof (proj1 (encode_tuple_layout _ _ b (Hx (length vals)) Hv ltac:(lia)) E) as (h & t & -> & Hlay).
      apply lay_length in Hlay; [|done]. rewrite heads_replicate in Hlay. rewrite length_app. nia. }
    rewrite !length_app, length_to_be_bytes.
    destruct (Z.ltb_spec (Z.of_nat (4 + length b + length rest)) (Z.of_nat (length vals))); [lia|].
    unfold slice_from. rewrite !length_app, length_to_be_bytes.
    destruct (Nat.leb_spec 4 (4 + length b + length rest)); [|lia]. cbn [mbind result_bind].
    rewrite <- app_assoc, (drop_app_length' _ _ 4) by (by rewrite length_to_be_bytes).
    rewrite Nat2Z.id. fold (dec_entry e). rewrite <- fixed_entries'.
    fold (decode_tuple (replicate (length vals) e) (b ++ rest)).
    rewrite (proj2 (tuple_exact (replicate (length vals) e) vals (length b) (b ++ rest) (Hx _)
      ltac:(rewrite length_app; lia) ltac:(rewrite heads_replicate; nia))) by (by exists b, rest).
    done.
Qed.

Lemma word_exact t (mk : list byte → AbiValue) (check : list byte → result AbiError unit) :
  is_dynamic t = false → size_of t = 32 → static_size t = Some 32 →
  (∀ w, value_ok (mk w) = (length w =? 32)%nat) →
  (∀ v bs, encode_static t v = Ok bs ↔ v = mk bs ∧ check bs = Ok tt) →
  (∀ data v n, length data = 32%nat →
     decode_static t data = Ok (v, n) ↔ v = mk data ∧ check data = Ok tt ∧ n = 32%nat) →
  exact t.
Proof.
  intros Hd Hsz Hst Hok Henc Hdec. split_and!; [|intros _; split|by rewrite Hd].
  - split; [unfold head1; rewrite Hd; lia|]. intros _. split; [by rewrite Hsz|lia].
  - intros v bs Hv [-> _]%Henc. rewrite Hok in Hv. apply Nat.eqb_eq in Hv. by rewrite Hsz.
  - intros v n data Hl _. rewrite Hsz in Hl. rewrite Hdec, Henc by done. split.
    + intros (-> & ? & ->). split_and!; try done. rewrite Hok. by apply Nat.eqb_eq.
    + intros (-> & [-> ?] & _). by split_and!.
Qed.

Lemma bool_exact : exact TBool.
Proof.
  split_and!; [by split|intros _; split|done].
  - intros v bs _ H. destruct v; try done. by injection H as <-.
  - intros v n data Hl _. cbn [size_of] in Hl. change (Z.to_nat 32) with 32%nat in Hl.
    cbn [decode_static]. rewrite (proj2 (read_word_32 data data Hl) eq_refl). cbn [mbind result_bind].
    rewrite Hl. split.
    + intros H. apply bind_ok_inv in H as (last & El & H). destruct (data !! 31%nat) as [l|] eqn:E; [|done].
      injection El as ->. destruct (_ || _) eqn:Eb; [done|]. injection H as <- <-. split_and!; try done.
      cbn [encode_static]. f_equal. symmetry. apply bool_word; [done|]. by exists last.
    + intros (-> & H & _). destruct v; try done. injection H as E. symmetry in E. apply bool_word in E as (last & -> & Eb & <-); [|done].
      cbn [expect mbind result_bind]. by rewrite Eb.
Qed.

(** Every small type is coded exactly. *)
Lemma small_exact t : small t = true → exact t.
Proof.
  intros Hsm. pose proof (small_sized t Hsm) as Hsz. revert Hsm Hsz.
  induction t as [n|n| | | | |e IH|e n IH|es IH] using AbiType_nested_ind; intros Hsm Hsz.
  - apply (word_exact _ VUint (λ w, check_uint_range w n)); try done.
    + intros v bs. destruct v; cbn [encode_static]; try (split; [done|]; by intros [? _]).
      destruct (check_uint_range word n) as [[]| |] eqn:E; cbn; split; try done; [intros [= <-]|..];
        try (by split); intros [[= <-] ?]; congruence.
    + intros data v k Hl. cbn [decode_static]. rewrite (proj2 (read_word_32 data data Hl) eq_refl). cbn [mbind result_bind].
      destruct (check_uint_range data n) as [[]| |]; cbn; split; try (by intros (? & ? & _)); try done; [by intros [= <- <-]|by intros (-> & _ & ->)].
  - apply (word_exact _ VInt (λ w, check_int_range w n)); try done.
    + intros v bs. destruct v; cbn [encode_static]; try (split; [done|]; by intros [? _]).
      destruct (check_int_range word n) as [[]| |] eqn:E; cbn; split; try done; [intros [= <-]|..];
        try (by split); intros [[= <-] ?]; congruence.
    + intros data v k Hl. cbn [decode_static]. rewrite (proj2 (read_word_32 data data Hl) eq_refl). cbn [mbind result_bind].
      destruct (check_int_range data n) as [[]| |] eqn:E; cbn [mbind result_bind];
        [rewrite (sign_extend_id data n Hl E)|..]; cbn; split; try (by intros (? & ? & _)); try done;
        [by intros [= <- <-]|by intros (-> & _ & ->)].
  - exact bool_exact.
  - apply (word_exact _ VAddress (λ _, Ok tt)); try done.
    + intros v bs. destruct v; cbn [encode_static]; try (split; [done|]; by intros [? _]).
      split; [by intros [= <-]|by intros [[= <-] _]].
    + intros data v k Hl. cbn [decode_static]. rewrite (proj2 (read_word_32 data data Hl) eq_refl). cbn.
      split; [by intros [= <- <-]|by intros (-> & _ & ->)].
  - split_and!; [done..|]. intros _ v n data _. cbn [decode_dynamic_body]. split.
    + intros H. apply bind_ok_inv in H as ([bs k] & (rest & -> & -> & Hlt)%prefixed_exact & [= <- <-]).
      exists (to_be_bytes 4 (len64 bs) ++ bs), rest. rewrite length_app, length_to_be_bytes. split_and!; try done.
      cbn [encode_dynamic_body]. by rewrite (proj2 (try_u32_ok _ _ (len64 bs))).
    + intros (body & rest & -> & -> & E & _). destruct v; try done. cbn [encode_dynamic_body] in E.
      apply bind_ok_inv in E as (o & [Ho ->]%try_u32_ok & <-%ok_inj).
      rewrite (proj2 (prefixed_exact _ bs (4 + length bs))) by (by exists rest). cbn.
      by rewrite length_app, length_to_be_bytes.
  - split_and!; [done..|]. intros _ v n data _. cbn [decode_dynamic_body]. split.
    + intros H. apply bind_ok_inv in H as ([bs k] & (rest & -> & -> & Hlt)%prefixed_exact & H).
      destruct (from_utf8 bs) as [s|] eqn:Es; [|done]. injection H as <- <-. apply from_utf8_Some in Es as [Hs <-].
      exists (to_be_bytes 4 (len64 (as_bytes s)) ++ as_bytes s), rest. rewrite length_app, length_to_be_bytes.
      split_and!; try done. cbn [encode_dynamic_body]. by rewrite (proj2 (try_u32_ok _ _ (len64 (as_bytes s)))).
    + intros (body & rest & -> & -> & E & Hv). destruct v; try done. cbn [encode_dynamic_body] in E.
      apply bind_ok_inv in E as (o & [Ho ->]%try_u32_ok & <-%ok_inj).
      rewrite (proj2 (prefixed_exact _ (as_bytes s) (4 + length (as_bytes s)))) by (by exists rest).
      cbn [mbind result_bind]. rewrite from_utf8_as_bytes by exact Hv. cbn.
      by rewrite length_app, length_to_be_bytes.
  - cbn [small] in Hsm. apply andb_true_iff in Hsm as [[Hsm H0%Z.ltb_lt]%andb_true_iff Hlt%Z.ltb_lt].
    split_and!; [done..|]. intros _. apply array_exact; [|done]. apply IH; [done|by apply small_sized].
  - cbn [small] in Hsm. apply andb_true_iff in Hsm as [[Hsm H0%Z.leb_le]%andb_true_iff Hlt%Z.ltb_lt].
    apply fixed_exact; try done. apply IH; [done|by apply small_sized].
  - cbn [small] in Hsm. apply andb_true_iff in Hsm as [Hsm Hlt%Z.ltb_lt].
    apply tuple_type_exact; try done. apply Forall_forall. intros t Ht. rewrite Forall_forall in IH.
    rewrite forallb_forall in Hsm. specialize (Hsm t (proj1 (list_elem_of_In _ _) Ht)).
    apply IH; [done..|by apply small_sized].
Qed.

(** ** The codec *)

(** C39: the ABI codec is a bijection between well-formed argument lists and canonical
    calldata: for parameters whose heads take less than 2^32 bytes and whose array elements
    take at least one, and data below 2^63 bytes, [decode_args] returns [values] from
    [data] if and only if [encode_args] turns [values] into exactly [data].  So
    decoding inverts encoding, no two byte strings decode to the same arguments, and
    shuffled, padded or truncated layouts are all rejected. *)
Theorem abi_codec_bijective (params : list AbiParam) (values : list AbiValue) (data : list byte) :
  small (TTuple (ap_type <$> params)) = true → Z.of_nat (length data) < two63 →
  decode_args params data = Ok values ↔
  encode_args params values = Ok data ∧ Forall (λ v, value_ok v = true) values.
Proof.
  intros Hsm Hlt. cbn [small] in Hsm. apply andb_true_iff in Hsm as [Hsm Hh%Z.ltb_lt].
  assert (Forall exact (ap_type <$> params)) as Hx.
  { apply Forall_forall. intros t Ht. apply small_exact. rewrite forallb_forall in Hsm.
    apply Hsm. by apply list_elem_of_In. }
  fold (heads (ap_type <$> params)) in Hh. unfold decode_args, encode_args.
  assert (∀ v, encode_tuple (ap_type <$> params) v = Ok data → length params = length v) as Harity.
  { intros v E. unfold encode_tuple, encode_entries in E. rewrite length_map, length_fmap in E.
    by destruct (Nat.eqb_spec (length params) (length v)). }
  split.
  - intros H. apply bind_ok_inv in H as ([vs n] & E & H). destruct (Nat.eqb_spec n (length data)) as [En|]; [|done].
    injection H as <-. apply tuple_exact in E as (body & rest & -> & -> & E & Hv); [|done..|lia].
    rewrite length_app in En. assert (rest = []) as -> by (apply nil_length_inv; lia). rewrite app_nil_r in *.
    rewrite (Harity vs E), Nat.eqb_refl. done.
  - destruct (Nat.eqb_spec (length params) (length values)); cbn [negb]; intros [E Hv]; [|done].
    rewrite (proj2 (tuple_exact _ values (length data) data Hx Hlt ltac:(lia)))
      by (exists data, []; by rewrite app_nil_r).
    cbn [mbind result_bind]. by rewrite Nat.eqb_refl.
Qed.

(** Arguments [(uint64, string, (bool, bytes)[2], address[])]. *)
Definition demo_params : list AbiParam :=
  (λ t, {| ap_name := ""; ap_type := t |}) <$>
  [TUint 64; TString; TFixedArray (TTuple [TBool; TBytes]) 2; TArray TAddress].

Definition demo_args : list AbiValue :=
  [uint_u64 300; VString "hi";
   VFixedArray [VTuple [VBool true; VBytes [x01]]; VTuple [VBool false; VBytes []]];
   VArray [VAddress (replicate 32 x07)]].

Definition demo_calldata : list byte := Eval vm_compute in
  match encode_args demo_params demo_args with Ok d => d | _ => [] end.

Lemma abi_codec_bijective_witness :
  encode_args demo_params demo_args = Ok demo_calldata ∧ decode_args demo_params demo_calldata = Ok demo_args.
Proof.
  assert (encode_args demo_params demo_args = Ok demo_calldata) as E by (vm_compute; reflexivity).
  split; [exact E|]. apply (abi_codec_bijective demo_params demo_args demo_calldata).
  - vm_compute. reflexivity.
  - vm_compute. reflexivity.
  - split; [exact E|by_eval].
Defined.

(** Five empty tuples are encoded as an array, but its element count exceeds the bytes
    that follow and the decoder takes it for an attack. *)
Example empty_elements_not_decodable :
  let params := [{| ap_name := "xs"; ap_type := TArray (TTuple []) |}] in
  ∃ data, encode_args params [VArray (replicate 5 (VTuple []))] = Ok data
    ∧ decode_args params data = Err (UnexpectedEnd 4).
Proof. exists (to_be_bytes 4 4 ++ to_be_bytes 4 5). split; vm_compute; reflexivity. Qed.
