(* ===== verification/Serialize.v ===== *)
(** * Canonical encodings (serialize.rs)

    Transactions, headers, blocks and receipts as bytes; the Merkle roots over
    them; and the decoders.  A decoder reads from [bytes] at an [offset] and
    returns the advanced offset, as the source does through [&mut usize].  The
    [&'static str] errors are kept as strings. *)

From S2P Require Import Prelude Bytes Abi Types.
Open Scope Z_scope.

Section Serialize.
Context `{HX : Hex, B3 : Blake3}.

Definition FORMAT_VERSION : Z := 7.
Definition TX_TAG_TRANSFER : Z := 0.
Definition TX_TAG_CREATE : Z := 1.
Definition TX_TAG_CALL : Z := 2.

(** ** Writers *)

(** [(b.len() as u32).to_be_bytes()] followed by [b]. *)
Definition write_bytes (b : list byte) : list byte :=
  to_be_bytes 4 (Z.of_nat (length b)) ++ b.

Definition write_string (s : string) : list byte := write_bytes (as_bytes s).

(** [expect]s a 32-byte hex string. *)
Definition write_bytes32 {E} (s : string) : result E (list byte) :=
  bytes ← expect (hex_decode s);
  if decide (length bytes = 32%nat) then Ok bytes else Panic.

(** Comma-joined canonical type names; the names are ASCII, kept as bytes. *)
Definition encode_constructor_params (params : list AbiParam) : list byte :=
  join_comma ((λ p, canonical_name (ap_type p)) <$> params).

Definition serialize_transaction (tx : Transaction) : list byte :=
  byte_of FORMAT_VERSION ::
  match tx with
  | Transfer t =>
      byte_of TX_TAG_TRANSFER :: write_string (tr_from t) ++ write_string (tr_to t)
      ++ to_be_bytes 8 (tr_amount t) ++ to_be_bytes 8 (tr_fee t) ++ to_be_bytes 8 (tr_nonce t)
      ++ to_be_bytes 4 (tr_chain_id t) ++ [byte_of (if tr_is_coinbase t then 1 else 0)]
  | Create t =>
      byte_of TX_TAG_CREATE :: write_string (cr_from t) ++ write_bytes (cr_init_code t)
      ++ write_bytes (cr_init_args t)
      ++ write_bytes (encode_constructor_params (cr_constructor_params t))
      ++ to_be_bytes 8 (cr_endowment t) ++ to_be_bytes 8 (cr_gas_limit t)
      ++ to_be_bytes 8 (cr_fee t) ++ to_be_bytes 8 (cr_nonce t) ++ to_be_bytes 4 (cr_chain_id t)
  | Call t =>
      byte_of TX_TAG_CALL :: write_string (ca_from t) ++ write_string (ca_to t)
      ++ write_bytes (ca_data t) ++ to_be_bytes 8 (ca_value t)
      ++ to_be_bytes 8 (ca_gas_limit t) ++ to_be_bytes 8 (ca_fee t)
      ++ to_be_bytes 8 (ca_nonce t) ++ to_be_bytes 4 (ca_chain_id t)
  end.

Definition serialize_transaction_signed (tx : Transaction) : list byte :=
  serialize_transaction tx ++ write_bytes (signature tx).

Definition txid (tx : Transaction) : list byte := blake3 (serialize_transaction_signed tx).

Definition serialize_log (log : Log) : list byte :=
  write_string (log_address log) ++ to_be_bytes 4 (Z.of_nat (length (log_topics log)))
  ++ concat (log_topics log) ++ write_bytes (log_data log).

Definition serialize_value_transfer (t : ValueTransfer) : list byte :=
  write_string (vt_from t) ++ write_string (vt_to t) ++ to_be_bytes 8 (vt_amount t).

Definition serialize_receipt (r : Receipt) : list byte :=
  byte_of FORMAT_VERSION :: rc_txid r ++ to_be_bytes 8 (rc_block_height r)
  ++ to_be_bytes 4 (rc_tx_index r) ++ to_be_bytes 8 (rc_gas_used r)
  ++ [byte_of (canonical_byte (rc_status r))]
  ++ to_be_bytes 4 (Z.of_nat (length (rc_logs r))) ++ concat (serialize_log <$> rc_logs r)
  ++ to_be_bytes 4 (Z.of_nat (length (rc_value_transfers r)))
  ++ concat (serialize_value_transfer <$> rc_value_transfers r).

Definition serialize_header {E} (h : BlockHeader) : result E (list byte) :=
  previous_hash ← write_bytes32 (h_previous_hash h);
  target_bytes ← write_bytes32 (h_target h);
  Ok (byte_of FORMAT_VERSION :: to_be_bytes 8 (h_index h) ++ to_be_bytes 8 (h_timestamp h)
      ++ previous_hash ++ h_tx_root h ++ target_bytes ++ to_be_bytes 8 (h_nonce h)
      ++ to_be_bytes 4 (h_consensus_version h) ++ h_state_root h ++ h_receipts_root h).

Definition serialize_block_header {E} (b : Block) : result E (list byte) :=
  serialize_header (header b).

Definition HEADER_WIRE_LEN : nat := 1 + 8 + 8 + 32 + 32 + 32 + 8 + 4 + 32 + 32.

Definition header_hash {E} (h : BlockHeader) : result E (list byte) :=
  blake3 <$> serialize_header h.

Definition block_hash {E} (b : Block) : result E (list byte) :=
  blake3 <$> serialize_block_header b.

(** The loop over the transactions of [serialize_block]. *)
Definition serialize_txs (txs : list Transaction) : list byte :=
  concat ((λ tx, write_bytes (serialize_transaction_signed tx)) <$> txs).

Definition serialize_block {E} (b : Block) : result E (list byte) :=
  out ← serialize_block_header b;
  Ok (out ++ to_be_bytes 4 (Z.of_nat (length (b_transactions b)))
      ++ serialize_txs (b_transactions b)).

(** ** Merkle roots *)

(** One pass of [hashes.chunks(2)]; an odd last node is paired with itself. *)
Fixpoint merkle_level (hashes : list (list byte)) : list (list byte) :=
  match hashes with
  | a :: b :: rest => blake3 (a ++ b) :: merkle_level rest
  | [a] => [blake3 (a ++ a)]
  | [] => []
  end.

(** [while hashes.len() > 1]; every pass shortens the list, so [fuel] the
    length of the list is enough. *)
Fixpoint merkle_loop {E} (fuel : nat) (hashes : list (list byte)) : result E (list byte) :=
  match hashes with
  | [] => Panic
  | [h] => Ok h
  | _ => match fuel with O => Panic | S fuel => merkle_loop fuel (merkle_level hashes) end
  end.

Definition merkle_root {E} (txids : list (list byte)) : result E (list byte) :=
  match txids with
  | [] => Ok zero32
  | [t] => Ok (blake3 (t ++ t))
  | _ => merkle_loop (length txids) txids
  end.

Definition compute_tx_root {E} (transactions : list Transaction) : result E (list byte) :=
  match transactions with
  | [] => Ok zero32
  | _ => merkle_root (txid <$> transactions)
  end.

(** [leaves.sort_unstable()]. *)
Fixpoint insert_leaf (x : list byte) (l : list (list byte)) : list (list byte) :=
  match l with
  | [] => [x]
  | y :: l' => if bytes_ltb y x then y :: insert_leaf x l' else x :: l
  end.
Definition sort_leaves (l : list (list byte)) : list (list byte) := foldr insert_leaf [] l.

Definition compute_receipts_root {E} (receipts : list Receipt) : result E (list byte) :=
  merkle_root (sort_leaves ((λ r, blake3 (serialize_receipt r)) <$> receipts)).

(** ** Readers *)

(** [&bytes[offset..offset + len]]. *)
Definition slice (bytes : list byte) (offset len : nat) : list byte :=
  take len (drop offset bytes).

Definition read_u32_be (bytes : list byte) (offset : nat) : result string (Z * nat) :=
  if decide (length bytes < offset + 4)%nat then Err "Buffer too short for u32"
  else Ok (from_be_bytes (slice bytes offset 4), offset + 4)%nat.

Definition read_u64_be (bytes : list byte) (offset : nat) : result string (Z * nat) :=
  if decide (length bytes < offset + 8)%nat then Err "Buffer too short for u64"
  else Ok (from_be_bytes (slice bytes offset 8), offset + 8)%nat.

Definition read_string (bytes : list byte) (offset : nat) : result string (string * nat) :=
  '(len, offset) ← read_u32_be bytes offset;
  let len := Z.to_nat len in
  if decide (length bytes < offset + len)%nat then Err "Buffer too short for string"
  else
    s ← ok_or (from_utf8 (slice bytes offset len)) "Invalid UTF-8 in string";
    Ok (s, offset + len)%nat.

Definition read_bytes (bytes : list byte) (offset : nat) : result string (list byte * nat) :=
  '(len, offset) ← read_u32_be bytes offset;
  let len := Z.to_nat len in
  if decide (length bytes < offset + len)%nat then Err "Buffer too short for bytes"
  else Ok (slice bytes offset len, offset + len)%nat.

Definition read_tx_tag (bytes : list byte) (offset : nat) : result string (Z * nat) :=
  match bytes !! offset with
  | None => Err "Buffer too short for tx tag"
  | Some b =>
      let tag := byte_val b in
      if (tag =? TX_TAG_TRANSFER) || (tag =? TX_TAG_CREATE) || (tag =? TX_TAG_CALL)
      then Ok (tag, offset + 1)%nat
      else Err "Unknown transaction tag"
  end.

(** [raw.split(',')]: the maximal comma-free pieces. *)
Fixpoint split_comma (s cur : list byte) : list (list byte) :=
  match s with
  | [] => [cur]
  | b :: s => if decide (b = ","%byte) then cur :: split_comma s []
              else split_comma s (cur ++ [b])
  end.

Definition decode_constructor_params (raw : string) : result string (list AbiParam) :=
  if decide (as_bytes raw = []) then Ok []
  else mapM_result (λ name,
         t ← ok_or (abi_parse name) "Invalid constructor_params type";
         Ok {| ap_name := ""; ap_type := t |}) (split_comma (as_bytes raw) []).

Definition deserialize_unsigned_body (bytes : list byte) (offset : nat)
    : result string (Transaction * nat) :=
  '(tag, offset) ← read_tx_tag bytes offset;
  if tag =? TX_TAG_TRANSFER then
    '(from, offset) ← read_string bytes offset;
    '(to, offset) ← read_string bytes offset;
    '(amount, offset) ← read_u64_be bytes offset;
    '(fee, offset) ← read_u64_be bytes offset;
    '(nonce, offset) ← read_u64_be bytes offset;
    '(chain_id, offset) ← read_u32_be bytes offset;
    b ← ok_or (bytes !! offset) "Buffer too short for is_coinbase";
    Ok (Transfer {| tr_from := from; tr_to := to; tr_amount := amount; tr_fee := fee;
          tr_nonce := nonce; tr_chain_id := chain_id; tr_signature := [];
          tr_is_coinbase := negb (byte_val b =? 0) |}, (offset + 1)%nat)
  else if tag =? TX_TAG_CREATE then
    '(from, offset) ← read_string bytes offset;
    '(init_code, offset) ← read_bytes bytes offset;
    '(init_args, offset) ← read_bytes bytes offset;
    '(constructor_params_raw, offset) ← read_string bytes offset;
    constructor_params ← decode_constructor_params constructor_params_raw;
    '(endowment, offset) ← read_u64_be bytes offset;
    '(gas_limit, offset) ← read_u64_be bytes offset;
    '(fee, offset) ← read_u64_be bytes offset;
    '(nonce, offset) ← read_u64_be bytes offset;
    '(chain_id, offset) ← read_u32_be bytes offset;
    Ok (Create {| cr_from := from; cr_init_code := init_code; cr_init_args := init_args;
          cr_constructor_params := constructor_params; cr_endowment := endowment;
          cr_gas_limit := gas_limit; cr_fee := fee; cr_nonce := nonce;
          cr_chain_id := chain_id; cr_signature := [] |}, offset)
  else if tag =? TX_TAG_CALL then
    '(from, offset) ← read_string bytes offset;
    '(to, offset) ← read_string bytes offset;
    '(data, offset) ← read_bytes bytes offset;
    '(value, offset) ← read_u64_be bytes offset;
    '(gas_limit, offset) ← read_u64_be bytes offset;
    '(fee, offset) ← read_u64_be bytes offset;
    '(nonce, offset) ← read_u64_be bytes offset;
    '(chain_id, offset) ← read_u32_be bytes offset;
    Ok (Call {| ca_from := from; ca_to := to; ca_data := data; ca_value := value;
          ca_gas_limit := gas_limit; ca_fee := fee; ca_nonce := nonce;
          ca_chain_id := chain_id; ca_signature := [] |}, offset)
  else Err "Unknown transaction tag".

(** The version check both transaction decoders open with. *)
Definition read_version (bytes : list byte) : result string nat :=
  match bytes !! 0%nat with
  | None => Err "Empty buffer"
  | Some b => if byte_val b =? FORMAT_VERSION then Ok 1%nat
              else Err "Unsupported format version"
  end.

Definition deserialize_transaction (bytes : list byte) : result string Transaction :=
  offset ← read_version bytes;
  '(tx, _) ← deserialize_unsigned_body bytes offset;
  Ok tx.

Definition deserialize_transaction_signed (bytes : list byte) : result string Transaction :=
  offset ← read_version bytes;
  '(tx, offset) ← deserialize_unsigned_body bytes offset;
  '(sig_len, offset) ← read_u32_be bytes offset;
  if decide ((offset + Z.to_nat sig_len)%nat = length bytes)
  then Ok (set_signature tx (drop offset bytes))
  else Err "Signature length mismatch".

Definition deserialize_header (bytes : list byte) : result string BlockHeader :=
  if negb (length bytes =? HEADER_WIRE_LEN)%nat then Err "Header length mismatch" else
  version ← expect (bytes !! 0%nat);
  if negb (byte_val version =? FORMAT_VERSION) then Err "Unsupported format version" else
  '(index, offset) ← read_u64_be bytes 1;
  '(timestamp, offset) ← read_u64_be bytes offset;
  let previous_hash := hex_encode (slice bytes offset 32) in
  let offset := (offset + 32)%nat in
  let tx_root := slice bytes offset 32 in
  let offset := (offset + 32)%nat in
  let target := hex_encode (slice bytes offset 32) in
  let offset := (offset + 32)%nat in
  '(nonce, offset) ← read_u64_be bytes offset;
  '(consensus_version, offset) ← read_u32_be bytes offset;
  let state_root := slice bytes offset 32 in
  let offset := (offset + 32)%nat in
  let receipts_root := slice bytes offset 32 in
  let h hash := {| h_index := index; h_timestamp := timestamp;
      h_previous_hash := previous_hash; h_hash := hash; h_nonce := nonce;
      h_target := target; h_consensus_version := consensus_version;
      h_state_root := state_root; h_tx_root := tx_root; h_receipts_root := receipts_root |} in
  hash ← header_hash (h "");
  Ok (h (hex_encode hash)).

(** The loop [for _ in 0..tx_count] of [deserialize_block]. *)
Fixpoint read_transactions (tx_count : nat) (bytes : list byte) (offset : nat)
    : result string (list Transaction * nat) :=
  match tx_count with
  | O => Ok ([], offset)
  | S tx_count =>
      '(tx_len, offset) ← read_u32_be bytes offset;
      let tx_len := Z.to_nat tx_len in
      if decide (length bytes < offset + tx_len)%nat
      then Err "Transaction length exceeds buffer"
      else
        tx ← deserialize_transaction_signed (slice bytes offset tx_len);
        '(txs, offset) ← read_transactions tx_count bytes (offset + tx_len);
        Ok (tx :: txs, offset)
  end.

Definition deserialize_block (bytes : list byte) : result string Block :=
  if decide (length bytes < HEADER_WIRE_LEN + 4)%nat then Err "Block too short" else
  h ← deserialize_header (slice bytes 0 HEADER_WIRE_LEN);
  '(tx_count, offset) ← read_u32_be bytes HEADER_WIRE_LEN;
  let remaining := (length bytes - offset)%nat in
  if decide (Z.of_nat remaining / 4 < tx_count) then Err "Transaction count exceeds buffer" else
  '(transactions, offset) ← read_transactions (Z.to_nat tx_count) bytes offset;
  if decide (offset = length bytes) then Ok (from_header h transactions)
  else Err "Trailing bytes after block".

End Serialize.
