(* ===== verification/SerializeProps.v ===== *)
(** * Properties of the canonical encodings

    Round trips of transactions, headers and blocks, canonicity of headers,
    absence of panics on arbitrary input, and the Merkle commitments. *)

From S2P Require Import Prelude Bytes Abi Types Concrete Serialize.
From Stdlib Require Import Sorting.Sorted.
Open Scope Z_scope.

(** Takes one read step of a decoder: [H] is the cursor hypothesis. *)
Ltac read_with lem H :=
  let E := fresh "E" in
  apply lem in H as [E H]; [rewrite E; clear E; cbn [mbind result_bind] | try done..].

Section Readers.
Context `{HX : Hex, B3 : Blake3}.

(** The reader stands at [offset] of [bytes] and [rest] remains. *)
Definition cursor (bytes : list byte) (offset : nat) (rest : list byte) : Prop :=
  ∃ pre, bytes = pre ++ rest ∧ length pre = offset.

Lemma cursor_start bs : cursor bs 0 bs.
Proof. by exists []. Qed.

Lemma cursor_app bs off x rest : cursor bs off (x ++ rest) → cursor bs (off + length x) rest.
Proof. intros (pre & -> & <-). exists (pre ++ x). by rewrite <- app_assoc, length_app. Qed.

Lemma cursor_slice bs off x rest : cursor bs off (x ++ rest) → slice bs off (length x) = x.
Proof. intros (pre & -> & <-). unfold slice. by rewrite drop_app_length, take_app_length. Qed.

Lemma cursor_drop bs off rest : cursor bs off rest → drop off bs = rest.
Proof. intros (pre & -> & <-). apply drop_app_length. Qed.

Lemma cursor_length bs off rest : cursor bs off rest → (length bs = off + length rest)%nat.
Proof. intros (pre & -> & <-). apply length_app. Qed.

Lemma cursor_byte bs off b rest :
  cursor bs off (b :: rest) → bs !! off = Some b ∧ cursor bs (off + 1) rest.
Proof.
  intros H. split.
  - destruct H as (pre & -> & <-). by rewrite lookup_app_r, Nat.sub_diag by lia.
  - by apply (cursor_app bs off [b]).
Qed.

Lemma read_u32_ok bs off z rest :
  cursor bs off (to_be_bytes 4 z ++ rest) → in_u32 z →
  read_u32_be bs off = Ok (z, off + 4)%nat ∧ cursor bs (off + 4) rest.
Proof.
  intros H Hz. split.
  - unfold read_u32_be. rewrite decide_False.
    + pose proof (cursor_slice _ _ _ _ H) as Hs. rewrite length_to_be_bytes in Hs.
      by rewrite Hs, from_to_be_u32.
    + rewrite (cursor_length _ _ _ H), length_app, length_to_be_bytes. lia.
  - apply cursor_app in H. by rewrite length_to_be_bytes in H.
Qed.

Lemma read_u64_ok bs off z rest :
  cursor bs off (to_be_bytes 8 z ++ rest) → in_u64 z →
  read_u64_be bs off = Ok (z, off + 8)%nat ∧ cursor bs (off + 8) rest.
Proof.
  intros H Hz. split.
  - unfold read_u64_be. rewrite decide_False.
    + pose proof (cursor_slice _ _ _ _ H) as Hs. rewrite length_to_be_bytes in Hs.
      by rewrite Hs, from_to_be_u64.
    + rewrite (cursor_length _ _ _ H), length_app, length_to_be_bytes. lia.
  - apply cursor_app in H. by rewrite length_to_be_bytes in H.
Qed.

(** A length that fits the [u32] prefix. *)
Definition short (b : list byte) : Prop := Z.of_nat (length b) < two32.

Lemma read_bytes_ok bs off b rest :
  cursor bs off (write_bytes b ++ rest) → short b →
  read_bytes bs off = Ok (b, off + (4 + length b))%nat ∧ cursor bs (off + (4 + length b)) rest.
Proof.
  intros H Hb. unfold write_bytes in H. rewrite <- app_assoc in H.
  apply read_u32_ok in H as [E H]; [|unfold short in Hb; unfold in_u32; lia].
  unfold read_bytes. rewrite E. cbn [mbind result_bind]. rewrite Nat2Z.id, decide_False.
  - rewrite (cursor_slice _ _ _ _ H), Nat.add_assoc. split; [done|]. by apply cursor_app.
  - rewrite (cursor_length _ _ _ H), length_app. lia.
Qed.

Lemma read_string_ok bs off s rest :
  cursor bs off (write_string s ++ rest) → short (as_bytes s) → is_str s →
  read_string bs off = Ok (s, off + (4 + length (as_bytes s)))%nat
  ∧ cursor bs (off + (4 + length (as_bytes s))) rest.
Proof.
  intros H Hb Hs. unfold write_string, write_bytes in H. rewrite <- app_assoc in H.
  apply read_u32_ok in H as [E H]; [|unfold short in Hb; unfold in_u32; lia].
  unfold read_string. rewrite E. cbn [mbind result_bind]. rewrite Nat2Z.id, decide_False.
  - rewrite (cursor_slice _ _ _ _ H), from_utf8_as_bytes by done. rewrite Nat.add_assoc. cbn [mbind result_bind ok_or].
    split; [done|]. by apply cursor_app.
  - rewrite (cursor_length _ _ _ H), length_app. lia.
Qed.

(** ** Well-formed transactions *)

(** A [String] field: valid UTF-8 that fits its length prefix. *)
Definition wf_string (s : string) : Prop := is_str s ∧ short (as_bytes s).

(** What the parameter encoding can carry: unnamed parameters of well-formed
    types whose canonical names have no comma (no tuple of two or more). *)
Definition wf_param (p : AbiParam) : Prop :=
  ap_name p = "" ∧ wf_abi (ap_type p) = true ∧ ","%byte ∉ canonical_name (ap_type p).

Definition wf_params (ps : list AbiParam) : Prop :=
  Forall wf_param ps ∧ utf8_valid (encode_constructor_params ps) = true
  ∧ short (encode_constructor_params ps).

Definition wf_tx (tx : Transaction) : Prop :=
  short (signature tx) ∧
  match tx with
  | Transfer t => wf_string (tr_from t) ∧ wf_string (tr_to t) ∧ in_u64 (tr_amount t)
      ∧ in_u64 (tr_fee t) ∧ in_u64 (tr_nonce t) ∧ in_u32 (tr_chain_id t)
  | Create t => wf_string (cr_from t) ∧ short (cr_init_code t) ∧ short (cr_init_args t)
      ∧ wf_params (cr_constructor_params t) ∧ in_u64 (cr_endowment t)
      ∧ in_u64 (cr_gas_limit t) ∧ in_u64 (cr_fee t) ∧ in_u64 (cr_nonce t)
      ∧ in_u32 (cr_chain_id t)
  | Call t => wf_string (ca_from t) ∧ wf_string (ca_to t) ∧ short (ca_data t)
      ∧ in_u64 (ca_value t) ∧ in_u64 (ca_gas_limit t) ∧ in_u64 (ca_fee t)
      ∧ in_u64 (ca_nonce t) ∧ in_u32 (ca_chain_id t)
  end.

#[export] Instance wf_tx_dec tx : Decision (wf_tx tx).
Proof.
  unfold wf_tx, wf_params, wf_param, wf_string, is_str, short, in_u64, in_u32.
  destruct tx; apply _.
Defined.

(** ** Constructor parameters *)

Lemma split_comma_free c s cur :
  ","%byte ∉ c → split_comma (c ++ s) cur = split_comma s (cur ++ c).
Proof.
  revert cur. induction c as [|b c IH]; intros cur Hc; cbn; [by rewrite app_nil_r|].
  apply not_elem_of_cons in Hc as [Hb Hc]. rewrite decide_False by congruence.
  rewrite IH by done. by rewrite <- app_assoc.
Qed.

Lemma split_comma_join ts :
  Forall (λ t, ","%byte ∉ t) ts → ts ≠ [] → split_comma (join_comma ts) [] = ts.
Proof.
  induction 1 as [|t ts Ht Hts IH]; intros Hne; [done|].
  cbn [join_comma]. destruct ts as [|t' ts].
  - rewrite <- (app_nil_r t) at 1. by rewrite split_comma_free.
  - rewrite split_comma_free by done. change (lit ",") with [","%byte].
    cbn [app split_comma]. rewrite decide_True by done. f_equal. by apply IH.
Qed.

Lemma decode_params_ok ps :
  Forall wf_param ps →
  decode_constructor_params (String.string_of_list_byte (encode_constructor_params ps)) = Ok ps.
Proof.
  intros Hps. unfold decode_constructor_params. rewrite as_bytes_of_bytes.
  destruct (decide (ps = [])) as [->|Hne]; [done|].
  unfold encode_constructor_params. rewrite decide_False.
  - rewrite split_comma_join.
    + apply mapM_result_Forall2, Forall2_fmap_l. clear Hne.
      induction Hps as [|[n t] ps (Hn & Ht & _) _ IH]; constructor; [|done].
      cbn [ap_name ap_type compose] in *. rewrite abi_parse_canonical by done. by rewrite Hn.
    + apply Forall_fmap. by eapply Forall_impl; [exact Hps|]; intros p (_ & _ & ?).
    + intros E%fmap_nil_inv. done.
  - apply join_comma_nonempty.
    + apply Forall_fmap, Forall_forall. intros. apply canonical_name_nonempty.
    + intros E%fmap_nil_inv. done.
Qed.

(** ** Transactions *)

Lemma read_params_ok bs off ps rest :
  cursor bs off (write_bytes (encode_constructor_params ps) ++ rest) → wf_params ps →
  ∃ raw off', read_string bs off = Ok (raw, off') ∧ decode_constructor_params raw = Ok ps
    ∧ cursor bs off' rest.
Proof.
  intros H (Hp & Hu & Hs). set (raw := String.string_of_list_byte (encode_constructor_params ps)).
  assert (as_bytes raw = encode_constructor_params ps) as E by apply as_bytes_of_bytes.
  rewrite <- E in H, Hs, Hu. change (write_bytes (as_bytes raw)) with (write_string raw) in H.
  apply read_string_ok in H as [E1 H]; [|done..].
  eexists raw, _. split_and!; [done| |done]. by apply decode_params_ok.
Qed.

Lemma read_tag_ok bs off tag rest :
  tag = TX_TAG_TRANSFER ∨ tag = TX_TAG_CREATE ∨ tag = TX_TAG_CALL →
  cursor bs off (byte_of tag :: rest) →
  read_tx_tag bs off = Ok (tag, off + 1)%nat ∧ cursor bs (off + 1) rest.
Proof.
  intros Ht H. apply cursor_byte in H as [E H]. split; [|done].
  unfold read_tx_tag. rewrite E, byte_val_of.
  by destruct Ht as [ -> | [ -> | -> ] ].
Qed.

(** The body decoder inverts the encoder and stops right after it; the
    signature is read separately. *)
Lemma unsigned_body_ok bs tx rest :
  wf_tx tx → cursor bs 0 (serialize_transaction tx ++ rest) →
  ∃ off, read_version bs = Ok 1%nat
    ∧ deserialize_unsigned_body bs 1 = Ok (set_signature tx [], off) ∧ cursor bs off rest.
Proof.
  intros [_ Hwf] H. unfold serialize_transaction in H. cbn [app] in H.
  apply cursor_byte in H as [Ev H]. change (0 + 1)%nat with 1%nat in H.
  assert (read_version bs = Ok 1%nat) as Hv.
  { unfold read_version. rewrite Ev, byte_val_of. done. }
  unfold deserialize_unsigned_body. destruct tx as [t|t|t]; cbn [app] in H.
  - destruct Hwf as ([]&[] & ? & ? & ? & ?). rewrite <- !app_assoc in H.
    apply read_tag_ok in H as [E H]; [|by left]. rewrite E. cbn [mbind result_bind].
    change (TX_TAG_TRANSFER =? TX_TAG_TRANSFER) with true. cbn iota.
    read_with read_string_ok H. read_with read_string_ok H. do 3 read_with read_u64_ok H.
    read_with read_u32_ok H. apply cursor_byte in H as [Eb H]. rewrite Eb. cbn.
    eexists. split_and!; [done| |exact H]. destruct t as [fr tt am fe no ch si cb]; cbn.
    by destruct cb.
  - destruct Hwf as ([] & ? & ? & ? & ? & ? & ? & ? & ?). rewrite <- !app_assoc in H.
    apply read_tag_ok in H as [E H]; [|by right; left]. rewrite E. cbn [mbind result_bind].
    change (TX_TAG_CREATE =? TX_TAG_TRANSFER) with false.
    change (TX_TAG_CREATE =? TX_TAG_CREATE) with true. cbn iota.
    read_with read_string_ok H. do 2 read_with read_bytes_ok H.
    apply read_params_ok in H as (raw & off & E1 & E2 & H); [|done].
    rewrite E1. cbn [mbind result_bind]. rewrite E2. cbn [mbind result_bind].
    do 4 read_with read_u64_ok H. read_with read_u32_ok H.
    eexists. by split_and!.
  - destruct Hwf as ([]&[] & ? & ? & ? & ? & ? & ?). rewrite <- !app_assoc in H.
    apply read_tag_ok in H as [E H]; [|by right; right]. rewrite E. cbn [mbind result_bind].
    change (TX_TAG_CALL =? TX_TAG_TRANSFER) with false.
    change (TX_TAG_CALL =? TX_TAG_CREATE) with false.
    change (TX_TAG_CALL =? TX_TAG_CALL) with true. cbn iota.
    do 2 read_with read_string_ok H. read_with read_bytes_ok H.
    do 4 read_with read_u64_ok H. read_with read_u32_ok H.
    eexists. by split_and!.
Qed.

Lemma deserialize_signed_ok tx :
  wf_tx tx → deserialize_transaction_signed (serialize_transaction_signed tx) = Ok tx.
Proof.
  intros Hwf. unfold deserialize_transaction_signed.
  set (bs := serialize_transaction_signed tx).
  destruct (unsigned_body_ok bs tx (write_bytes (signature tx))) as (off & E1 & E2 & H);
    [done|apply cursor_start|].
  rewrite E1. cbn [mbind result_bind]. rewrite E2. cbn [mbind result_bind].
  unfold write_bytes in H. apply read_u32_ok in H as [E H].
  2: { destruct Hwf as [Hs _]. unfold short in Hs. unfold in_u32. lia. }
  rewrite E. cbn [mbind result_bind]. rewrite Nat2Z.id, decide_True.
  - rewrite (cursor_drop _ _ _ H), set_signature_twice, set_signature_self. done.
  - by rewrite (cursor_length _ _ _ H).
Qed.

End Readers.

(** ** Headers *)

Section Headers.
Context `{HX : Hex, HXok : !HexOk, B3 : Blake3, B3ok : !Blake3Ok}.

(** A hash field as the decoder writes it: the hex of 32 bytes. *)
Definition canonical_hex32 (s : string) : Prop :=
  match hex_decode s with Some b => is32 b ∧ hex_encode b = s | None => False end.

Definition wf_header (h : BlockHeader) : Prop :=
  in_u64 (h_index h) ∧ in_u64 (h_timestamp h) ∧ in_u64 (h_nonce h)
  ∧ in_u32 (h_consensus_version h)
  ∧ canonical_hex32 (h_previous_hash h) ∧ canonical_hex32 (h_target h)
  ∧ is32 (h_state_root h) ∧ is32 (h_tx_root h) ∧ is32 (h_receipts_root h)
  ∧ hex_encode <$> header_hash (E:=string) h = Ok (h_hash h).

#[export] Instance canonical_hex32_dec s : Decision (canonical_hex32 s).
Proof. unfold canonical_hex32, is32. destruct (hex_decode s); apply _. Defined.
#[export] Instance wf_header_dec h : Decision (wf_header h).
Proof. unfold wf_header, in_u64, in_u32, is32. apply _. Defined.

Lemma canonical_hex32_inv s :
  canonical_hex32 s → ∃ b, hex_decode s = Some b ∧ is32 b ∧ hex_encode b = s.
Proof. unfold canonical_hex32. destruct (hex_decode s) as [b|]; [|done]. intros []. by exists b. Qed.

Lemma write_bytes32_hex {E} b : is32 b → write_bytes32 (E:=E) (hex_encode b) = Ok b.
Proof.
  intros Hb. unfold write_bytes32. rewrite hex_decode_encode. cbn. by rewrite decide_True.
Qed.

(** The bytes of a header whose hash fields are the hex of [p] and [t]. *)
Lemma serialize_header_eq {E} h p t :
  h_previous_hash h = hex_encode p → h_target h = hex_encode t → is32 p → is32 t →
  serialize_header (E:=E) h = Ok (byte_of FORMAT_VERSION :: to_be_bytes 8 (h_index h)
      ++ to_be_bytes 8 (h_timestamp h) ++ p ++ h_tx_root h ++ t ++ to_be_bytes 8 (h_nonce h)
      ++ to_be_bytes 4 (h_consensus_version h) ++ h_state_root h ++ h_receipts_root h).
Proof. intros Ep Et Hp Ht. unfold serialize_header. by rewrite Ep, Et, !write_bytes32_hex. Qed.

(** [serialize_header] never looks at the [hash] field. *)
Lemma header_hash_ignores_hash {E} h k :
  header_hash (E:=E) {| h_index := h_index h; h_timestamp := h_timestamp h;
      h_previous_hash := h_previous_hash h; h_hash := k; h_nonce := h_nonce h;
      h_target := h_target h; h_consensus_version := h_consensus_version h;
      h_state_root := h_state_root h; h_tx_root := h_tx_root h;
      h_receipts_root := h_receipts_root h |} = header_hash h.
Proof. done. Qed.

Lemma cursor_slice32 bs off x rest : is32 x →
  cursor bs off (x ++ rest) → slice bs off 32 = x ∧ cursor bs (off + 32) rest.
Proof.
  intros Hx H. pose proof (cursor_slice _ _ _ _ H) as E. apply cursor_app in H.
  by rewrite Hx in E, H.
Qed.

Lemma deserialize_header_ok h :
  wf_header h → ∃ bs, serialize_header (E:=string) h = Ok bs
    ∧ length bs = HEADER_WIRE_LEN ∧ deserialize_header bs = Ok h.
Proof.
  intros (Hi & Hts & Hn & Hv & Hp & Ht & Hs & Htx & Hr & Hh).
  apply canonical_hex32_inv in Hp as (p & _ & Hp32 & Ep).
  apply canonical_hex32_inv in Ht as (t & _ & Ht32 & Et).
  rewrite (serialize_header_eq h p t) by done. eexists. split; [done|].
  set (bs := _ :: _). assert (length bs = HEADER_WIRE_LEN) as Hl.
  { subst bs. cbn [length]. rewrite !length_app, !length_to_be_bytes, Hp32, Ht32, Hs, Htx, Hr. done. }
  split; [done|]. unfold deserialize_header. rewrite Hl, Nat.eqb_refl. cbn [negb].
  pose proof (cursor_start bs) as H. unfold bs in H at 2.
  apply cursor_byte in H as [E0 H]. rewrite E0. cbn [expect mbind result_bind].
  rewrite byte_val_of. change (FORMAT_VERSION mod two8 =? FORMAT_VERSION) with true. cbn [negb].
  change (0 + 1)%nat with 1%nat in H.
  do 2 (apply read_u64_ok in H as [E H]; [rewrite E; clear E; cbn [mbind result_bind]|done]).
  do 3 (apply cursor_slice32 in H as [E H]; [rewrite E; clear E|done]).
  apply read_u64_ok in H as [E H]; [rewrite E; clear E; cbn [mbind result_bind]|done].
  apply read_u32_ok in H as [E H]; [rewrite E; clear E; cbn [mbind result_bind]|done].
  apply cursor_slice32 in H as [E H]; [rewrite E; clear E|done].
  rewrite <- (app_nil_r (h_receipts_root h)) in H.
  apply cursor_slice32 in H as [E H]; [rewrite E; clear E|done].
  rewrite Ep, Et, header_hash_ignores_hash.
  destruct (header_hash h) as [hash|e|]; cbn in Hh; [|done..]. injection Hh as Hh.
  cbn. rewrite Hh. by destruct h.
Qed.

(** ** Canonicity and absence of panics of the header decoder *)

Lemma read_u64_inv bs off :
  (off + 8 ≤ length bs)%nat →
  ∃ z, read_u64_be bs off = Ok (z, off + 8)%nat ∧ to_be_bytes 8 z = slice bs off 8 ∧ in_u64 z.
Proof.
  intros H. unfold read_u64_be. rewrite decide_False by lia. eexists. split; [done|].
  assert (length (slice bs off 8) = 8%nat) as Hl
    by (unfold slice; rewrite length_take, length_drop; lia).
  split; [rewrite <- Hl at 1; apply to_from_be_bytes|].
  pose proof (from_be_bytes_range (slice bs off 8)) as Hr. by rewrite Hl in Hr.
Qed.

Lemma read_u32_inv bs off :
  (off + 4 ≤ length bs)%nat →
  ∃ z, read_u32_be bs off = Ok (z, off + 4)%nat ∧ to_be_bytes 4 z = slice bs off 4 ∧ in_u32 z.
Proof.
  intros H. unfold read_u32_be. rewrite decide_False by lia. eexists. split; [done|].
  assert (length (slice bs off 4) = 4%nat) as Hl
    by (unfold slice; rewrite length_take, length_drop; lia).
  split; [rewrite <- Hl at 1; apply to_from_be_bytes|].
  pose proof (from_be_bytes_range (slice bs off 4)) as Hr. by rewrite Hl in Hr.
Qed.

Lemma slice_app bs off n rest :
  slice bs off n ++ drop (off + n) bs ++ rest = drop off bs ++ rest.
Proof. unfold slice. by rewrite app_assoc, <- drop_drop, take_drop. Qed.

Lemma slice_length bs off n : (off + n ≤ length bs)%nat → length (slice bs off n) = n.
Proof. intros. unfold slice. rewrite length_take, length_drop. lia. Qed.

(** On a buffer of the right length the decoder either rejects the version
    byte or returns the header whose encoding is the buffer. *)
Lemma deserialize_header_cases bs :
  (∃ e, deserialize_header bs = Err e)
  ∨ ∃ h, deserialize_header bs = Ok h ∧ wf_header h ∧ serialize_header (E:=string) h = Ok bs.
Proof.
  unfold deserialize_header. destruct (Nat.eqb_spec (length bs) HEADER_WIRE_LEN) as [Hl|];
    cbn [negb]; [|by left; eexists].
  destruct bs as [|v bs0] eqn:Ebs; [done|]. rewrite <- Ebs in *.
  replace (bs !! 0%nat) with (Some v) by by rewrite Ebs. cbn [expect mbind result_bind].
  destruct (Z.eqb_spec (byte_val v) FORMAT_VERSION) as [Hv|]; cbn [negb]; [|by left; eexists].
  right. unfold HEADER_WIRE_LEN in Hl. cbn in Hl.
  destruct (read_u64_inv bs 1) as (i & -> & Ei & Hi); [lia|]. cbn [mbind result_bind].
  destruct (read_u64_inv bs (1 + 8)) as (ts & -> & Ets & Hts); [lia|]. cbn [mbind result_bind].
  destruct (read_u64_inv bs (1 + 8 + 8 + 32 + 32 + 32)) as (n & -> & En & Hn); [lia|].
  cbn [mbind result_bind].
  destruct (read_u32_inv bs (1 + 8 + 8 + 32 + 32 + 32 + 8)) as (cv & -> & Ecv & Hcv); [lia|].
  cbn [mbind result_bind].
  match goal with |- context [header_hash ?h] => set (h0 := h) end.
  assert (serialize_header (E:=string) h0 = Ok bs) as Hser.
  { rewrite (serialize_header_eq h0 (slice bs (1 + 8 + 8) 32) (slice bs (1 + 8 + 8 + 32 + 32) 32));
      [|done|done|apply slice_length; lia|apply slice_length; lia].
    subst h0. cbn [h_index h_timestamp h_nonce h_consensus_version h_tx_root h_state_root h_receipts_root].
    rewrite Ei, Ets, En, Ecv.
    rewrite <- (app_nil_r (slice bs (1 + 8 + 8 + 32 + 32 + 32 + 8 + 4 + 32) 32)).
    assert (drop (1 + 8 + 8 + 32 + 32 + 32 + 8 + 4 + 32 + 32) bs = []) as Hnil
      by (apply drop_ge; lia).
    rewrite <- Hnil at 1. rewrite <- (app_nil_r (drop _ bs)), !slice_app, app_nil_r.
    rewrite Ebs. cbn [drop]. f_equal. f_equal. rewrite <- (byte_of_val v), Hv. done. }
  assert (header_hash (E:=string) h0 = Ok (blake3 bs)) as Hh
    by (unfold header_hash; by rewrite Hser).
  rewrite Hh. cbn [mbind result_bind]. eexists. split; [done|]. split; [|done].
  unfold wf_header, canonical_hex32. cbn -[slice header_hash].
  rewrite !hex_decode_encode. split_and!; try done; try (apply slice_length; lia).
  rewrite <- (header_hash_ignores_hash h0 (hex_encode (blake3 bs))) in Hh.
  subst h0. cbn -[slice header_hash] in Hh. rewrite Hh. done.
Qed.

End Headers.

(** ** Decoders of untrusted bytes return *)

Section NoPanic.
Context `{HX : Hex, HXok : !HexOk, B3 : Blake3, B3ok : !Blake3Ok}.

Lemma bind_no_panic {E A B} (r : result E A) (k : A → result E B) :
  r ≠ Panic → (∀ a, r = Ok a → k a ≠ Panic) → (r ≫= k) ≠ Panic.
Proof. destruct r; cbn; auto. Qed.

Lemma read_u32_no_panic bs off : read_u32_be bs off ≠ Panic.
Proof. unfold read_u32_be. by case_decide. Qed.

Lemma read_u64_no_panic bs off : read_u64_be bs off ≠ Panic.
Proof. unfold read_u64_be. by case_decide. Qed.

Lemma read_string_no_panic bs off : read_string bs off ≠ Panic.
Proof.
  apply bind_no_panic; [apply read_u32_no_panic|]. intros [len off'] _.
  cbv zeta beta iota. case_decide; [done|]. by destruct (from_utf8 _).
Qed.

Lemma read_bytes_no_panic bs off : read_bytes bs off ≠ Panic.
Proof.
  apply bind_no_panic; [apply read_u32_no_panic|]. intros [len off'] _.
  cbv zeta beta iota. by case_decide.
Qed.

Lemma decode_params_no_panic raw : decode_constructor_params raw ≠ Panic.
Proof.
  unfold decode_constructor_params. case_decide; [done|].
  generalize (split_comma (as_bytes raw) []) as names. intros names.
  induction names as [|n ns IH]; cbn [mapM_result]; [done|].
  apply bind_no_panic; [by destruct (abi_parse n)|]. intros t _.
  apply bind_no_panic; [done|]. done.
Qed.

Lemma read_tag_no_panic bs off : read_tx_tag bs off ≠ Panic.
Proof. unfold read_tx_tag. destruct (bs !! off); [|done]. by destruct (_ || _). Qed.

Hint Resolve read_u32_no_panic read_u64_no_panic read_string_no_panic read_bytes_no_panic
  decode_params_no_panic read_tag_no_panic : core.

Ltac no_panic :=
  repeat first
    [ done
    | progress cbv zeta beta iota
    | apply bind_no_panic; [by auto|let p := fresh in intros p _; try destruct p as [? ?]]
    | match goal with |- context [if ?c then _ else _] => destruct c end ].

Lemma body_no_panic bs off : deserialize_unsigned_body bs off ≠ Panic.
Proof.
  unfold deserialize_unsigned_body. no_panic.
  apply bind_no_panic; [by destruct (bs !! _)|done].
Qed.

Hint Resolve body_no_panic : core.

Lemma read_version_no_panic bs : read_version bs ≠ Panic.
Proof. unfold read_version. destruct (bs !! 0%nat); [|done]. by destruct (_ =? _). Qed.

Hint Resolve read_version_no_panic : core.

Lemma signed_no_panic bs : deserialize_transaction_signed bs ≠ Panic.
Proof. unfold deserialize_transaction_signed. no_panic. Qed.

Lemma header_no_panic bs : deserialize_header bs ≠ Panic.
Proof. destruct (deserialize_header_cases bs) as [[e ->]|(h & -> & _)]; done. Qed.

Hint Resolve signed_no_panic header_no_panic : core.

Lemma read_transactions_no_panic n bs off : read_transactions n bs off ≠ Panic.
Proof. revert off. induction n; intros off; cbn [read_transactions]; no_panic. Qed.

Hint Resolve read_transactions_no_panic : core.

Lemma block_no_panic bs : deserialize_block bs ≠ Panic.
Proof. unfold deserialize_block. no_panic. Qed.

(** ** Blocks *)

Definition wf_block (b : Block) : Prop :=
  wf_header (header b)
  ∧ Forall (λ tx, wf_tx tx ∧ short (serialize_transaction_signed tx)) (b_transactions b)
  ∧ Z.of_nat (length (b_transactions b)) < two32.

#[export] Instance wf_block_dec b : Decision (wf_block b).
Proof. unfold wf_block, short. apply _. Defined.

Lemma length_serialize_txs txs : (4 * length txs ≤ length (serialize_txs txs))%nat.
Proof.
  induction txs as [|tx txs IH]; cbn; [lia|]. unfold serialize_txs in *.
  rewrite length_app. unfold write_bytes at 1. rewrite length_app, length_to_be_bytes. cbn in IH. lia.
Qed.

Lemma read_transactions_ok txs bs off rest :
  Forall (λ tx, wf_tx tx ∧ short (serialize_transaction_signed tx)) txs →
  cursor bs off (serialize_txs txs ++ rest) →
  ∃ off', read_transactions (length txs) bs off = Ok (txs, off') ∧ cursor bs off' rest.
Proof.
  intros Hwf. revert off. induction Hwf as [|tx txs [Htx Hs] _ IH]; intros off H; [by exists off|].
  unfold serialize_txs in H. cbn [fmap list_fmap concat] in H. unfold write_bytes in H at 1.
  rewrite <- !app_assoc in H.
  apply read_u32_ok in H as [E H]; [|unfold short in Hs; unfold in_u32; lia].
  cbn [length read_transactions]. rewrite E. cbn [mbind result_bind]. rewrite Nat2Z.id.
  rewrite decide_False by (rewrite (cursor_length _ _ _ H), length_app; lia).
  rewrite (cursor_slice _ _ _ _ H), deserialize_signed_ok by done. cbn [mbind result_bind].
  apply cursor_app in H. destruct (IH _ H) as (off' & E' & H').
  exists off'. by rewrite E'.
Qed.

Lemma deserialize_block_ok b :
  wf_block b → ∃ bs, serialize_block (E:=string) b = Ok bs ∧ deserialize_block bs = Ok b.
Proof.
  intros (Hh & Htx & Hn). apply deserialize_header_ok in Hh as (hb & Es & Hl & Ed).
  unfold serialize_block, serialize_block_header. rewrite Es. cbn [mbind result_bind].
  eexists. split; [done|]. set (bs := _ ++ _).
  assert (cursor bs 0 (hb ++ (to_be_bytes 4 (Z.of_nat (length (b_transactions b)))
      ++ serialize_txs (b_transactions b)))) as H by apply cursor_start.
  pose proof (cursor_length _ _ _ H) as Hbs. rewrite !length_app, length_to_be_bytes, Hl in Hbs.
  unfold deserialize_block. rewrite decide_False by lia.
  rewrite <- Hl at 1. rewrite (cursor_slice _ _ _ _ H), Ed. cbn [mbind result_bind].
  apply cursor_app in H. rewrite Hl in H. change (0 + HEADER_WIRE_LEN)%nat with HEADER_WIRE_LEN in H.
  apply read_u32_ok in H as [E H]; [|unfold in_u32; lia].
  rewrite E. cbn [mbind result_bind].
  pose proof (length_serialize_txs (b_transactions b)) as Hmin.
  rewrite decide_False.
  2: { pose proof (cursor_length _ _ _ H) as Hc.
       apply Z.le_ngt, Z.div_le_lower_bound; lia. }
  rewrite <- (app_nil_r (serialize_txs _)) in H.
  apply read_transactions_ok in H as (off' & E' & H'); [|done].
  rewrite Nat2Z.id, E'. cbn [mbind result_bind]. rewrite decide_True.
  - by rewrite from_header_header.
  - rewrite (cursor_length _ _ _ H'). cbn. lia.
Qed.

End NoPanic.

(** ** Merkle roots *)

Section Merkle.
Context `{HX : Hex, B3 : Blake3, B3ok : !Blake3Ok}.

(** Induction two elements at a time, as [chunks(2)] walks the list. *)
Lemma list_pair_ind {A} (P : list A → Prop) :
  P [] → (∀ a, P [a]) → (∀ a b l, P l → P (a :: b :: l)) → ∀ l, P l.
Proof.
  intros H0 H1 H2. enough (∀ l, P l ∧ ∀ a, P (a :: l)) as H by apply H.
  induction l as [|b l [IH1 IH2]]; split; auto.
Qed.

Lemma merkle_level_bounds l :
  (length (merkle_level l) ≤ length l)%nat
  ∧ (l ≠ [] → merkle_level l ≠ [])
  ∧ (2 ≤ length l → length (merkle_level l) < length l)%nat.
Proof.
  induction l as [|a|a b l (IH1 & _)] using list_pair_ind; cbn; split_and!; try done; lia.
Qed.

Lemma merkle_level_length l l' :
  length l = length l' → length (merkle_level l) = length (merkle_level l').
Proof.
  revert l'. induction l as [|a|a b l IH] using list_pair_ind;
    intros [|a' [|b' l']]; cbn; try done. intros [= H]. f_equal. auto.
Qed.

Lemma merkle_level_32 l : Forall is32 (merkle_level l).
Proof.
  induction l using list_pair_ind; cbn; [constructor|..];
    (apply Forall_cons_2; [apply blake3_length|done || constructor]).
Qed.

Lemma merkle_loop_cons {E} fuel a b l :
  merkle_loop (E:=E) (S fuel) (a :: b :: l) = merkle_loop fuel (merkle_level (a :: b :: l)).
Proof. done. Qed.

(** The loop ends within its fuel with one hash. *)
Lemma merkle_loop_total {E} fuel l :
  l ≠ [] → (length l ≤ S fuel)%nat → ∃ h, merkle_loop (E:=E) fuel l = Ok h.
Proof.
  revert l. induction fuel as [|fuel IH]; intros [|a [|b l]] Hne Hl; try done; cbn [length] in Hl;
    [cbn; eauto|lia|cbn; eauto|].
  rewrite merkle_loop_cons. pose proof (merkle_level_bounds (a :: b :: l)) as (_ & H1 & H2).
  apply IH; [by apply H1|]. cbn [length] in H2. lia.
Qed.

Lemma merkle_root_total {E} l : ∃ h, merkle_root (E:=E) l = Ok h.
Proof.
  destruct l as [|a [|b l]]; cbn [merkle_root]; [by eexists..|]. apply merkle_loop_total; [done|cbn; lia].
Qed.

(** Everything hashed on the way to the root. *)
Fixpoint level_preimages (l : list (list byte)) : list (list byte) :=
  match l with
  | a :: b :: rest => (a ++ b) :: level_preimages rest
  | [a] => [a ++ a]
  | [] => []
  end.

Fixpoint merkle_preimages (fuel : nat) (l : list (list byte)) : list (list byte) :=
  match fuel with
  | O => []
  | S fuel => level_preimages l ++ merkle_preimages fuel (merkle_level l)
  end.

Lemma collision_free_sub P Q : P ⊆ Q → collision_free_on Q → collision_free_on P.
Proof. intros HPQ H x y Hx Hy. apply H; by apply HPQ. Qed.

Lemma merkle_level_inj l l' :
  length l = length l' → Forall is32 l → Forall is32 l' →
  collision_free_on (level_preimages l ++ level_preimages l') →
  merkle_level l = merkle_level l' → l = l'.
Proof.
  revert l'. induction l as [|a|a b l IH] using list_pair_ind;
    intros [|a' [|b' l']] Hl H32 H32' Hcf H; try done; cbn in H, Hcf.
  - injection H as H. apply Hcf in H; [|set_solver..].
    apply app_inj_1 in H as [-> _]; [done|]. apply Forall_inv in H32, H32'.
    by rewrite H32, H32'.
  - apply Forall_cons_1 in H32 as [Ha [Hb Hr]%Forall_cons_1],
      H32' as [Ha' [Hb' Hr']%Forall_cons_1].
    injection H as H1 H2. injection Hl as Hl. apply Hcf in H1; [|set_solver..].
    apply app_inj_1 in H1 as [-> ->]; [|by rewrite Ha, Ha']. do 2 f_equal.
    apply IH; try done. eapply collision_free_sub; [|done]. set_solver.
Qed.

Lemma merkle_loop_inj {E} fuel l l' h :
  length l = length l' → Forall is32 l → Forall is32 l' →
  collision_free_on (merkle_preimages fuel l ++ merkle_preimages fuel l') →
  merkle_loop (E:=E) fuel l = Ok h → merkle_loop (E:=E) fuel l' = Ok h → l = l'.
Proof.
  revert l l'. induction fuel as [|fuel IH]; intros [|a [|b l]] [|a' [|b' l']] Hl H32 H32' Hcf H H';
    try done.
  1,2: cbn in H, H'; congruence.
  rewrite merkle_loop_cons in H, H'. cbn [merkle_preimages] in Hcf.
  apply merkle_level_inj; try done.
  { eapply collision_free_sub; [|exact Hcf]. set_solver. }
  apply (IH _ _); auto using merkle_level_length, merkle_level_32.
  eapply collision_free_sub; [|exact Hcf]. set_solver.
Qed.

Lemma merkle_root_inj {E} l l' h :
  length l = length l' → Forall is32 l → Forall is32 l' →
  collision_free_on (merkle_preimages (length l) l ++ merkle_preimages (length l') l') →
  merkle_root (E:=E) l = Ok h → merkle_root (E:=E) l' = Ok h → l = l'.
Proof.
  intros Hl H32 H32' Hcf H H'. rewrite <- Hl in Hcf.
  destruct l as [|a [|b l]], l' as [|a' [|b' l']]; try done.
  - apply merkle_level_inj; try done. cbn in H, H' |- *; congruence.
  - cbn [merkle_root] in H, H'. rewrite <- Hl in H'. by eapply merkle_loop_inj.
Qed.

(** *** Sorting *)

Definition bytes_le (a b : list byte) : Prop := bytes_ltb b a = false.

Lemma bytes_le_trans a b c : bytes_le a b → bytes_le b c → bytes_le a c.
Proof.
  unfold bytes_le. intros H1 H2. destruct (bytes_ltb c a) eqn:E; [|done].
  destruct (bytes_ltb b c) eqn:E'.
  - by rewrite (bytes_ltb_trans b c a) in H1.
  - rewrite (bytes_ltb_total b c) in H1 by done. congruence.
Qed.

Lemma insert_leaf_perm x l : insert_leaf x l ≡ₚ x :: l.
Proof. induction l as [|y l IH]; cbn; [done|]. destruct (bytes_ltb y x); [|done]. rewrite IH. constructor. Qed.

Lemma sort_leaves_perm l : sort_leaves l ≡ₚ l.
Proof. induction l as [|x l IH]; cbn; [done|]. by rewrite insert_leaf_perm, IH. Qed.

Lemma insert_leaf_sorted x l : StronglySorted bytes_le l → StronglySorted bytes_le (insert_leaf x l).
Proof.
  induction 1 as [|y l Hl IH Hy]; cbn; [repeat constructor|].
  destruct (bytes_ltb y x) eqn:E; constructor; try done.
  - rewrite insert_leaf_perm. constructor; [|done].
    unfold bytes_le. destruct (bytes_ltb x y) eqn:E'; [|done].
    pose proof (bytes_ltb_trans _ _ _ E E') as Hc. by rewrite bytes_ltb_irrefl in Hc.
  - by constructor.
  - constructor; [done|]. eapply Forall_impl; [exact Hy|]. intros z. by apply bytes_le_trans.
Qed.

Lemma sort_leaves_sorted l : StronglySorted bytes_le (sort_leaves l).
Proof. induction l; cbn; [constructor|]. by apply insert_leaf_sorted. Qed.

Lemma sorted_perm_eq l l' :
  StronglySorted bytes_le l → StronglySorted bytes_le l' → l ≡ₚ l' → l = l'.
Proof.
  intros Hl. revert l'. induction Hl as [|x l Hl IH Hx]; intros l' Hl' Hp.
  { symmetry. by apply Permutation_nil. }
  destruct Hl' as [|y l' Hl' Hy]; [by apply Permutation_nil_r in Hp|].
  assert (x = y) as ->.
  { assert (x ∈ y :: l') as [->|Hxy]%elem_of_cons by (rewrite <- Hp; set_solver); [done|].
    assert (y ∈ x :: l) as [->|Hyx]%elem_of_cons by (rewrite Hp; set_solver); [done|].
    rewrite Forall_forall in Hx, Hy. apply bytes_ltb_total; [by apply Hy|by apply Hx]. }
  f_equal. apply IH; [done|]. by apply Permutation_cons_inv in Hp.
Qed.

Lemma sort_leaves_Permutation l l' : l ≡ₚ l' → sort_leaves l = sort_leaves l'.
Proof.
  intros H. apply sorted_perm_eq; [apply sort_leaves_sorted..|]. by rewrite !sort_leaves_perm.
Qed.

End Merkle.


(** ** Concrete data for the witnesses *)

Definition sample_transfer : Transaction :=
  set_signature (tx_transfer "alice" "bob" 100 1 1) [x01; x02; x03; x04].
Definition sample_create : Transaction :=
  tx_create_with "alice" [x00; x61] [x07]
    [ {| ap_name := ""; ap_type := TArray (TUint 64) |};
      {| ap_name := ""; ap_type := TFixedArray TBool 3 |} ] 50 1000 2 1.
Definition sample_call : Transaction := tx_call "alice" "carol" [x09] 7 100000 3 1.
Definition sample_txs : list Transaction :=
  [tx_coinbase "" "miner" 50 1; sample_transfer; sample_create; sample_call].

(** A header over [txs] with its hash filled in by the toy digest. *)
Definition sample_header (txs : list Transaction) : BlockHeader :=
  let root := match @compute_tx_root toy_blake3 string txs with Ok r => r | _ => [] end in
  let h hash := {| h_index := 5; h_timestamp := 1700000000;
    h_previous_hash := @hex_encode toy_hex (replicate 32 x11); h_hash := hash; h_nonce := 42;
    h_target := @hex_encode toy_hex (replicate 32 xff); h_consensus_version := 1;
    h_state_root := replicate 32 x22; h_tx_root := root; h_receipts_root := replicate 32 x33 |} in
  match @header_hash toy_hex toy_blake3 string (h "") with
  | Ok d => h (@hex_encode toy_hex d) | _ => h "" end.

Definition sample_block : Block := from_header (sample_header sample_txs) sample_txs.

(** ** The properties of the encodings *)

Section Claims.
Context `{HX : Hex, B3 : Blake3}.

Lemma txid_map_inj txs txs' :
  length txs = length txs' → Forall wf_tx txs → Forall wf_tx txs' →
  collision_free_on ((serialize_transaction_signed <$> txs)
    ++ (serialize_transaction_signed <$> txs')) →
  txid <$> txs = txid <$> txs' → txs = txs'.
Proof.
  intros Hl Hwf. revert txs' Hl.
  induction Hwf as [|tx txs Htx _ IH]; intros [|tx' txs'] Hl Hwf' Hcf E; try done.
  apply Forall_cons_1 in Hwf' as [Htx' Hwf']. cbn in E. injection E as E1 E2. f_equal.
  - apply Hcf in E1; [|cbn; set_solver..]. apply (f_equal deserialize_transaction_signed) in E1.
    rewrite !deserialize_signed_ok in E1 by done. congruence.
  - apply IH; try done; [by injection Hl|]. eapply collision_free_sub; [|exact Hcf].
    cbn. set_solver.
Qed.

Lemma txs_of_root `{B3ok : !Blake3Ok} {E} (txs txs' : list Transaction) (root : list byte) :
  length txs = length txs' → Forall wf_tx txs → Forall wf_tx txs' →
  collision_free_on ((serialize_transaction_signed <$> txs) ++ (serialize_transaction_signed <$> txs')
    ++ merkle_preimages (length txs) (txid <$> txs)
    ++ merkle_preimages (length txs') (txid <$> txs')) →
  merkle_root (E:=E) (txid <$> txs) = Ok root → merkle_root (E:=E) (txid <$> txs') = Ok root →
  txs = txs'.
Proof.
  intros Hl Hwf Hwf' Hcf H H'.
  assert (∀ l, Forall is32 (txid <$> l)) as H32.
  { intros l. apply Forall_fmap, Forall_forall. intros. apply blake3_length. }
  apply txid_map_inj; try done.
  - eapply collision_free_sub; [|exact Hcf]. set_solver.
  - apply (merkle_root_inj (E:=E) _ _ root); auto.
    + by rewrite !length_fmap.
    + rewrite !length_fmap. eapply collision_free_sub; [|exact Hcf]. set_solver.
Qed.

(** every well-formed transaction (fields in range, lengths that fit the
    [u32] prefixes, unnamed comma-free constructor types) is recovered exactly
    by [deserialize_transaction_signed] from its signed encoding, and up to the
    (not encoded) signature by [deserialize_transaction] from its unsigned one. *)
Theorem transaction_roundtrip (tx : Transaction) :
  wf_tx tx →
  deserialize_transaction_signed (serialize_transaction_signed tx) = Ok tx
  ∧ deserialize_transaction (serialize_transaction tx) = Ok (set_signature tx []).
Proof.
  intros Hwf. split; [by apply deserialize_signed_ok|]. unfold deserialize_transaction.
  destruct (unsigned_body_ok (serialize_transaction tx) tx []) as (off & E1 & E2 & _); [done| |].
  - rewrite app_nil_r. apply cursor_start.
  - rewrite E1. cbn [mbind result_bind]. by rewrite E2.
Qed.

(** the signed encoding is injective on well-formed transactions, so a txid
    preimage determines the transaction and two transactions with the same txid
    exhibit a BLAKE3 collision. *)
Theorem txid_injective (tx tx' : Transaction) :
  wf_tx tx → wf_tx tx' →
  collision_free_on [serialize_transaction_signed tx; serialize_transaction_signed tx'] →
  txid tx = txid tx' → tx = tx'.
Proof.
  intros H H' Hcf E. apply Hcf in E; [|set_solver..].
  apply (f_equal deserialize_transaction_signed) in E.
  rewrite !deserialize_signed_ok in E by done. congruence.
Qed.

(** the block's [tx_root] commits to its transactions: two lists of
    well-formed transactions of the same length with the same root are equal,
    unless some preimage hashed on the way collides. *)
Theorem tx_root_binding `{B3ok : !Blake3Ok} (txs txs' : list Transaction) (root : list byte) :
  length txs = length txs' → Forall wf_tx txs → Forall wf_tx txs' →
  collision_free_on ((serialize_transaction_signed <$> txs) ++ (serialize_transaction_signed <$> txs')
    ++ merkle_preimages (length txs) (txid <$> txs)
    ++ merkle_preimages (length txs') (txid <$> txs')) →
  compute_tx_root (E:=string) txs = Ok root → compute_tx_root (E:=string) txs' = Ok root →
  txs = txs'.
Proof.
  intros Hl Hwf Hwf' Hcf H H'. apply (txs_of_root (E:=string) txs txs' root); try done.
  - destruct txs; exact H.
  - destruct txs'; exact H'.
Qed.

(** for every byte string, [deserialize_header] returns [h] exactly when [h]
    is a well-formed header (its [hash] field being the hash of its encoding)
    whose canonical encoding is that byte string: decoding and encoding are
    inverse bijections, and a peer cannot choose the [hash] field. *)
Theorem header_codec_bijective `{HXok : !HexOk, B3ok : !Blake3Ok} (bs : list byte) (h : BlockHeader) :
  deserialize_header bs = Ok h ↔ wf_header h ∧ serialize_header (E:=string) h = Ok bs.
Proof.
  split.
  - intros H. destruct (deserialize_header_cases bs) as [[e E]|(h' & E & ? & ?)]; [congruence|].
    rewrite H in E. by injection E as ->.
  - intros [Hwf H]. destruct (deserialize_header_ok h Hwf) as (bs' & E & _ & E').
    rewrite H in E. by injection E as ->.
Qed.

(** a well-formed block survives [serialize_block]/[deserialize_block]. *)
Theorem block_roundtrip `{HXok : !HexOk, B3ok : !Blake3Ok} (b : Block) :
  wf_block b →
  ∃ bs, serialize_block (E:=string) b = Ok bs ∧ deserialize_block bs = Ok b.
Proof. apply deserialize_block_ok. Qed.

(** decoding bytes of an untrusted peer never panics: [deserialize_block],
    [deserialize_header] and both transaction decoders return [Ok] or [Err] on
    every input. *)
Theorem decoders_never_panic `{HXok : !HexOk, B3ok : !Blake3Ok} (bs : list byte) :
  deserialize_block bs ≠ Panic ∧ deserialize_header bs ≠ Panic
  ∧ deserialize_transaction_signed bs ≠ Panic ∧ deserialize_transaction bs ≠ Panic.
Proof.
  split_and!.
  - apply block_no_panic.
  - apply header_no_panic.
  - apply signed_no_panic.
  - apply bind_no_panic; [apply read_version_no_panic|]. intros off _.
    apply bind_no_panic; [apply body_no_panic|]. by intros [tx off'] _.
Qed.

(** the receipts commitment is a function of the set of receipts: any
    permutation of the receipts has the same root, and it always exists. *)
Theorem receipts_root_order_independent `{B3ok : !Blake3Ok} (rs rs' : list Receipt) :
  rs ≡ₚ rs' →
  compute_receipts_root (E:=string) rs = compute_receipts_root rs'
  ∧ ∃ root, compute_receipts_root (E:=string) rs = Ok root.
Proof.
  intros Hp. unfold compute_receipts_root. split; [|apply merkle_root_total].
  f_equal. apply sort_leaves_Permutation. by rewrite Hp.
Qed.

(** duplicating the odd last transaction leaves the root unchanged, for
    every hash function: the header of a block with three transactions is also
    a header of the block that repeats the third. *)
Theorem tx_root_duplicate_tail (a b c : Transaction) :
  compute_tx_root (E:=string) [a; b; c] = compute_tx_root [a; b; c; c].
Proof. done. Qed.

(** the transfer decoder accepts any nonzero [is_coinbase] byte: an encoding
    whose last byte is replaced by any nonzero byte decodes to the same coinbase
    transaction, so the unsigned encoding is not canonical on this byte. *)
Theorem coinbase_flag_not_canonical (t : TransferTx) (flag : byte) :
  wf_tx (Transfer t) → tr_is_coinbase t = true → flag ≠ x00 →
  ∃ body, serialize_transaction (Transfer t) = body ++ [x01]
    ∧ deserialize_transaction (body ++ [flag]) = Ok (set_signature (Transfer t) []).
Proof.
  intros Hwf Hc Hf. exists (byte_of FORMAT_VERSION :: byte_of TX_TAG_TRANSFER
    :: write_string (tr_from t) ++ write_string (tr_to t)
    ++ to_be_bytes 8 (tr_amount t) ++ to_be_bytes 8 (tr_fee t) ++ to_be_bytes 8 (tr_nonce t)
    ++ to_be_bytes 4 (tr_chain_id t)).
  split; [unfold serialize_transaction; rewrite Hc; cbn [app]; rewrite <- !app_assoc; done|].
  destruct Hwf as (_ & [Hs1 Hs1'] & [Hs2 Hs2'] & Ha & Hfe & Hno & Hch).
  pose proof (cursor_start ((byte_of FORMAT_VERSION :: byte_of TX_TAG_TRANSFER
    :: write_string (tr_from t) ++ write_string (tr_to t)
    ++ to_be_bytes 8 (tr_amount t) ++ to_be_bytes 8 (tr_fee t) ++ to_be_bytes 8 (tr_nonce t)
    ++ to_be_bytes 4 (tr_chain_id t)) ++ [flag])) as H.
  set (bs := _ ++ [flag]) in H at 1 |- *. cbn [app] in H. rewrite <- !app_assoc in H.
  apply cursor_byte in H as [Ev H]. change (0 + 1)%nat with 1%nat in H.
  unfold deserialize_transaction, read_version. rewrite Ev, byte_val_of. cbn [mbind result_bind].
  change (FORMAT_VERSION mod two8 =? FORMAT_VERSION) with true. cbn [mbind result_bind].
  unfold deserialize_unsigned_body. apply read_tag_ok in H as [E H]; [|by left].
  rewrite E. cbn [mbind result_bind].
  change (TX_TAG_TRANSFER =? TX_TAG_TRANSFER) with true. cbn iota.
  read_with read_string_ok H. read_with read_string_ok H. do 3 read_with read_u64_ok H.
  read_with read_u32_ok H. apply cursor_byte in H as [Eb _]. rewrite Eb. cbn.
  assert (byte_val flag ≠ 0) as Hn by (intros H0; by apply Hf, byte_val_inj).
  destruct (Z.eqb_spec (byte_val flag) 0); [done|]. cbn. by rewrite Hc.
Qed.

(** a [Create] whose constructor takes a tuple of two types is encoded but
    its encoding is rejected by the decoder: the parameter list is split at
    every comma, the commas inside the tuple included. *)
Theorem tuple_params_not_decodable :
  let t := tx_create_with "alice" [] [] [ {| ap_name := ""; ap_type := TTuple [TBool; TAddress] |} ]
             0 0 1 1 in
  deserialize_transaction_signed (serialize_transaction_signed t)
    = Err "Invalid constructor_params type".
Proof. vm_compute. done. Qed.

End Claims.


(** ** Witnesses *)

Lemma transaction_roundtrip_witness :
  wf_tx sample_create
  ∧ @deserialize_transaction_signed (serialize_transaction_signed sample_create) = Ok sample_create.
Proof.
  assert (wf_tx sample_create) as H by by_eval.
  split; [exact H|]. exact (proj1 (transaction_roundtrip sample_create H)).
Defined.

Lemma txid_injective_witness :
  bool_decide (@txid toy_blake3 sample_transfer = @txid toy_blake3 sample_call) = false.
Proof.
  apply bool_decide_eq_false_2. intros E.
  assert (sample_transfer = sample_call) as H; [|discriminate H].
  refine (@txid_injective toy_blake3 sample_transfer sample_call _ _ _ E); by_eval.
Defined.

Lemma tx_root_binding_witness :
  match @compute_tx_root toy_blake3 string sample_txs with
  | Ok root => sample_txs = sample_txs | _ => False end.
Proof.
  assert (is_ok (@compute_tx_root toy_blake3 string sample_txs) = true) as H
    by (vm_compute; reflexivity).
  destruct (@compute_tx_root toy_blake3 string sample_txs) as [root|e|] eqn:E; [|discriminate H..].
  apply (@tx_root_binding toy_blake3 toy_blake3_ok sample_txs sample_txs root);
    [reflexivity|by_eval..|exact E|exact E].
Defined.

Lemma header_codec_bijective_witness :
  match @serialize_header toy_hex string (sample_header sample_txs) with
  | Ok bs => @deserialize_header toy_hex toy_blake3 bs = Ok (sample_header sample_txs)
  | _ => False end.
Proof.
  assert (is_ok (@serialize_header toy_hex string (sample_header sample_txs)) = true) as H
    by (vm_compute; reflexivity).
  destruct (@serialize_header toy_hex string (sample_header sample_txs)) as [bs|e|] eqn:E;
    [|discriminate H..].
  apply (@header_codec_bijective toy_hex toy_blake3 toy_hex_ok toy_blake3_ok).
  split; [by_eval|exact E].
Defined.

Lemma block_roundtrip_witness :
  ∃ bs, @serialize_block toy_hex string sample_block = Ok bs
    ∧ @deserialize_block toy_hex toy_blake3 bs = Ok sample_block.
Proof.
  apply (@block_roundtrip toy_hex toy_blake3 toy_hex_ok toy_blake3_ok). by_eval.
Defined.

Lemma decoders_never_panic_witness :
  @deserialize_block toy_hex toy_blake3 [x07; x00] ≠ Panic.
Proof.
  exact (proj1 (@decoders_never_panic toy_hex toy_blake3 toy_hex_ok toy_blake3_ok [x07; x00])).
Defined.

Definition sample_receipt (i : Z) : Receipt :=
  {| rc_txid := replicate 32 x01; rc_gas_used := 0; rc_logs := []; rc_status := StSuccess;
     rc_block_height := 5; rc_tx_index := i; rc_value_transfers := [] |}.

Lemma receipts_root_order_independent_witness :
  @compute_receipts_root toy_blake3 string [sample_receipt 0; sample_receipt 1]
  = @compute_receipts_root toy_blake3 string [sample_receipt 1; sample_receipt 0].
Proof.
  exact (proj1 (@receipts_root_order_independent toy_blake3 toy_blake3_ok _ _
    (perm_swap (sample_receipt 1) (sample_receipt 0) []))).
Defined.

Lemma coinbase_flag_not_canonical_witness :
  ∃ body, serialize_transaction (tx_coinbase "" "miner" 50 1) = body ++ [x01]
    ∧ deserialize_transaction (body ++ [x02]) = Ok (tx_coinbase "" "miner" 50 1).
Proof.
  apply (coinbase_flag_not_canonical {| tr_from := ""; tr_to := "miner"; tr_amount := 50;
    tr_fee := 0; tr_nonce := 0; tr_chain_id := 1; tr_signature := []; tr_is_coinbase := true |} x02).
  - by_eval.
  - reflexivity.
  - discriminate.
Defined.
