(* ===== verification/Consensus.v ===== *)
(** * Consensus rules (consensus.rs) and fork choice (core chain_selector.rs)

    Median time past, timestamps, the difficulty retarget, proof of work,
    signature verification, accumulated work, and the total order on chains.
    [expect], slice indexing and [copy_from_slice] on a wrong length are
    [Panic]. *)

From S2P Require Import Prelude Bytes U256 Abi Types Address Serialize.
Open Scope Z_scope.

Definition CURRENT_CONSENSUS_VERSION : Z := 1.
Definition MEDIAN_TIME_WINDOW : Z := 11.
Definition MAX_FUTURE_TIME : Z := 2 * 60 * 60.
Definition RETARGET_INTERVAL : Z := 2016.
Definition TARGET_BLOCK_TIME : Z := 600.
Definition MAX_TARGET_CHANGE_FACTOR : Z := 4.
Definition RBF_MIN_DELTA_BPS : Z := 3000.
Definition RBF_BPS_DENOMINATOR : Z := 10000.
Definition MAX_RBF_REPLACEMENTS : Z := 10.

Section Consensus.
Context `{HX : Hex, B3 : Blake3, B32 : Bech32, SK : Secp256k1}.

(** ** Timestamps *)

(** [times.sort()] on [u64]s. *)
Fixpoint insert_time (x : Z) (l : list Z) : list Z :=
  match l with
  | [] => [x]
  | y :: l' => if y <? x then y :: insert_time x l' else x :: l
  end.
Definition sort_times (l : list Z) : list Z := foldr insert_time [] l.

Definition median_time_past {E} (blocks : list Block) (current_height : Z) : result E Z :=
  if current_height =? 0 then Ok 0 else
  let start := saturating_sub64 current_height MEDIAN_TIME_WINDOW in
  if decide (Z.of_nat (length blocks) < start) then Panic else
  let times := sort_times (b_timestamp <$> drop (Z.to_nat start) blocks) in
  expect (times !! (length times / 2)%nat).

Definition validate_timestamp (block : Block) (prev_blocks : list Block) (now : Z)
    : result CoreError unit :=
  if b_index block =? 0 then Ok tt else
  mtp ← median_time_past prev_blocks (b_index block);
  if b_timestamp block <=? mtp then Err TimestampTooOld
  else if add64 now MAX_FUTURE_TIME <? b_timestamp block then Err TimestampInFuture
  else Ok tt.

(** ** Difficulty *)

(** [hex::decode(..).expect(..)] followed by [copy_from_slice] into a [[u8; 32]]. *)
Definition target_array {E} (target : string) : result E (list byte) :=
  target_bytes ← expect (hex_decode target);
  if decide (length target_bytes = 32%nat) then Ok target_bytes else Panic.

Definition compute_target {E} (prev_blocks : list Block) : result E (list byte) :=
  if Z.of_nat (length prev_blocks) <? RETARGET_INTERVAL then
    last ← expect (last prev_blocks);
    target_array (b_target last)
  else
    let window := drop (length prev_blocks - Z.to_nat RETARGET_INTERVAL) prev_blocks in
    first ← expect (head window);
    last ← expect (last window);
    let actual_time := saturating_sub64 (b_timestamp last) (b_timestamp first) in
    let expected_time := mul64 TARGET_BLOCK_TIME (RETARGET_INTERVAL - 1) in
    prev_target_arr ← target_array (b_target last);
    let prev_u256 := u256_from_bytes prev_target_arr in
    let min_target := u256_div prev_u256 (u256_from_u64 MAX_TARGET_CHANGE_FACTOR) in
    let max_target := u256_mul_sat prev_u256 (u256_from_u64 MAX_TARGET_CHANGE_FACTOR) in
    if saturating_mul64 expected_time MAX_TARGET_CHANGE_FACTOR <=? actual_time
    then Ok (u256_to_bytes max_target)
    else if saturating_mul64 actual_time MAX_TARGET_CHANGE_FACTOR <=? expected_time
    then Ok (u256_to_bytes min_target)
    else
      let numerator := u256_mul prev_u256 (u256_from_u64 actual_time) in
      let new_target := u256_div numerator (u256_from_u64 expected_time) in
      Ok (u256_to_bytes (u256_min (u256_max new_target min_target) max_target)).

Definition validate_difficulty (block : Block) : result CoreError unit :=
  hash ← block_hash block;
  target_bytes ← ok_or (hex_decode (b_target block)) InvalidDifficulty;
  target_arr ← (if decide (length target_bytes = 32%nat) then Ok target_bytes else Panic);
  if u256_gt (u256_from_bytes hash) (u256_from_bytes target_arr)
  then Err InvalidDifficulty else Ok tt.

Definition validate_header_pow (h : BlockHeader) : result CoreError unit :=
  computed ← header_hash h;
  if negb (bool_decide (h_hash h = "")) && negb (bool_decide (h_hash h = hex_encode computed))
  then Err (HeaderHashMismatch (hex_encode computed) (h_hash h)) else
  target_bytes ← ok_or (hex_decode (h_target h)) InvalidDifficulty;
  if negb (length target_bytes =? 32)%nat then Err InvalidDifficulty else
  if u256_gt (u256_from_bytes computed) (u256_from_bytes target_bytes)
  then Err InvalidDifficulty else Ok tt.

(** ** Transactions *)

Definition recover_pubkey_from_sig (sg message : list byte) : result CoreError PublicKey :=
  if negb (length sg =? 65)%nat then Err InvalidSignature else
  rec_id ← expect (sg !! 64%nat);
  ok_or (recover_ecdsa (take 64 sg) (byte_val rec_id) (blake3 message)) InvalidSignature.

Definition validate_nonce (tx_nonce account_nonce : Z) : result CoreError unit :=
  expected ← ok_or (checked_add64 account_nonce 1) StateOverflow;
  if negb (tx_nonce =? expected) then Err (InvalidNonce expected tx_nonce) else Ok tt.

(** The kind-specific checks at the head of [verify_transaction]. *)
Definition verify_limits (tx : Transaction) : result CoreError unit :=
  match tx with
  | Create create =>
      if (length (cr_init_code create) =? 0)%nat
      then Err (InvalidContractDeploy "init_code is empty")
      else if MAX_CODE_SIZE <? Z.of_nat (length (cr_init_code create))
      then Err (InvalidContractDeploy
             ("init_code exceeds max code size of " +:+ pretty MAX_CODE_SIZE +:+ " bytes"))
      else if BLOCK_GAS_LIMIT <? cr_gas_limit create
      then Err (InvalidGasLimit ("create gas_limit " +:+ pretty (cr_gas_limit create)
             +:+ " exceeds block gas limit " +:+ pretty BLOCK_GAS_LIMIT))
      else Ok tt
  | Call call =>
      if ca_gas_limit call =? 0 then Err (InvalidGasLimit "gas_limit must be > 0") else Ok tt
  | Transfer _ => Ok tt
  end.

Definition verify_transaction (tx : Transaction) : result CoreError unit :=
  if is_coinbase tx then Ok tt else
  _ ← verify_limits tx;
  pk ← recover_pubkey_from_sig (signature tx) (serialize_transaction tx);
  '(sender_pk, _) ← decode_address (sender tx);
  if decide (sender_pk = pk) then Ok tt else Err InvalidSignature.

Definition validate_tx_root (block : Block) : result CoreError unit :=
  computed ← compute_tx_root (b_transactions block);
  if decide (computed = b_tx_root block) then Ok tt
  else Err (TxRootMismatch computed (b_tx_root block)).

Definition is_regtest (network_id : Z) : bool := network_id =? CHAIN_ID_REGTEST.

(** ** Work *)

Definition work_from_target (target : list byte) : U256 :=
  let target_u256 := u256_from_bytes target in
  if decide (target_u256 = u256_zero) then u256_zero
  else u256_div u256_MAX target_u256.

Definition add_work {E} (total : U256) (target : string) : result E U256 :=
  arr ← target_array target; Ok (u256_add total (work_from_target arr)).

Definition cumulative_work {E} (chain : list Block) : result E U256 :=
  foldM (λ total block, add_work total (b_target block)) u256_zero chain.

Definition cumulative_work_headers {E} (headers : list BlockHeader) : result E U256 :=
  foldM (λ total h, add_work total (h_target h)) u256_zero headers.

(** ** Fork choice *)

Record ChainInfo := {
  ci_tip_height : Z;
  ci_tip_hash : string;
  ci_total_work : U256;
  ci_tip_timestamp : Z
}.

Definition is_better (a b : ChainInfo) : bool :=
  if u256_gt (ci_total_work a) (ci_total_work b) then true
  else if u256_gt (ci_total_work b) (ci_total_work a) then false
  else if ci_tip_timestamp a <? ci_tip_timestamp b then true
  else if ci_tip_timestamp b <? ci_tip_timestamp a then false
  else str_ltb (ci_tip_hash a) (ci_tip_hash b).

(** [Iterator::reduce]. *)
Definition select_best (chains : list ChainInfo) : option ChainInfo :=
  match chains with
  | [] => None
  | c :: cs => Some (foldl (λ best candidate,
      if is_better candidate best then candidate else best) c cs)
  end.

Definition chain_info {E} (chain : list Block) : result E (option ChainInfo) :=
  match last chain with
  | None => Ok None
  | Some tip =>
      total_work ← cumulative_work chain;
      Ok (Some {| ci_tip_height := b_index tip; ci_tip_hash := b_hash tip;
                  ci_total_work := total_work; ci_tip_timestamp := b_timestamp tip |})
  end.

End Consensus.
