(* ===== verification/ConsensusProps.v ===== *)
(** * Properties of the consensus rules and of fork choice *)

From S2P Require Import Prelude Bytes U256 Abi Types Address Concrete Serialize SerializeProps Consensus.
From Stdlib Require Import Sorting.Sorted.
Open Scope Z_scope.

Section Sorting.

Lemma insert_time_perm x l : insert_time x l ≡ₚ x :: l.
Proof. induction l as [|y l IH]; cbn; [done|]. destruct (y <? x); [|done]. rewrite IH. constructor. Qed.

Lemma sort_times_perm l : sort_times l ≡ₚ l.
Proof. induction l as [|x l IH]; cbn; [done|]. by rewrite insert_time_perm, IH. Qed.

Lemma insert_time_sorted x l : StronglySorted Z.le l → StronglySorted Z.le (insert_time x l).
Proof.
  induction 1 as [|y l Hl IH Hy]; cbn; [repeat constructor|].
  destruct (Z.ltb_spec y x); constructor; try done.
  - rewrite insert_time_perm. constructor; [lia|done].
  - by constructor.
  - constructor; [done|]. eapply Forall_impl; [exact Hy|]. cbn. lia.
Qed.

Lemma sort_times_sorted l : StronglySorted Z.le (sort_times l).
Proof. induction l; cbn; [constructor|]. by apply insert_time_sorted. Qed.

(** Splitting a sorted list at position [k]. *)
Lemma sorted_split l k m :
  StronglySorted Z.le l → l !! k = Some m →
  ∃ lo hi, l = lo ++ m :: hi ∧ length lo = k ∧ Forall (λ z, z ≤ m) lo ∧ Forall (λ z, m ≤ z) hi.
Proof.
  intros Hs. revert k. induction Hs as [|x l Hs IH Hx]; intros k Hk; [done|].
  destruct k as [|k]; cbn in Hk.
  - injection Hk as ->. by exists [], l.
  - destruct (IH _ Hk) as (lo & hi & -> & <- & Hlo & Hhi). exists (x :: lo), hi.
    split_and!; try done. constructor; [|done].
    apply Forall_app in Hx as [_ Hx]. by apply Forall_inv in Hx.
Qed.

End Sorting.

Section Consensus.
Context `{HX : Hex, B3 : Blake3, B32 : Bech32, SK : Secp256k1}.

(** ** Median time past *)

(** The window [median_time_past] looks at. *)
Definition mtp_window (blocks : list Block) (height : Z) : list Z :=
  b_timestamp <$> drop (Z.to_nat (saturating_sub64 height MEDIAN_TIME_WINDOW)) blocks.

(** [m] is a median of [l]: [l] splits into a lower half below and the rest above. *)
Definition is_median (l : list Z) (m : Z) : Prop :=
  ∃ lo hi, l ≡ₚ lo ++ m :: hi ∧ length lo = (length l / 2)%nat
    ∧ Forall (λ z, z ≤ m) lo ∧ Forall (λ z, m ≤ z) hi.

Lemma median_time_past_spec {E} blocks height :
  0 < height → height = Z.of_nat (length blocks) →
  ∃ m, median_time_past (E:=E) blocks height = Ok m ∧ is_median (mtp_window blocks height) m.
Proof.
  intros Hh Hlen. unfold median_time_past, mtp_window, MEDIAN_TIME_WINDOW.
  destruct (Z.eqb_spec height 0); [lia|].
  set (start := saturating_sub64 height 11).
  assert (start < height ∧ 0 ≤ start) by (unfold start, saturating_sub64; lia).
  rewrite decide_False by lia. set (w := b_timestamp <$> _).
  assert (length w ≠ 0%nat) as Hw by (subst w; rewrite length_fmap, length_drop; lia).
  assert (length (sort_times w) = length w) as El by (by rewrite sort_times_perm).
  rewrite El. destruct (lookup_lt_is_Some_2 (sort_times w) (length w / 2)) as [m Hm].
  { rewrite El. apply Nat.div_lt; lia. }
  exists m. rewrite Hm. split; [done|].
  destruct (sorted_split _ _ _ (sort_times_sorted w) Hm) as (lo & hi & E1 & E2 & ? & ?).
  exists lo, hi. split_and!; try done. by rewrite <- (sort_times_perm w), E1.
Qed.

(** ** Retargeting *)

Definition target_val (target : string) : Z :=
  match hex_decode target with Some b => from_be_bytes b | None => 0 end.

Definition valid_target (target : string) : Prop :=
  match hex_decode target with Some b => is32 b | None => False end.
#[export] Instance valid_target_dec t : Decision (valid_target t).
Proof. unfold valid_target, is32. destruct (hex_decode t); apply _. Defined.

Lemma target_array_ok {E} t :
  valid_target t →
  ∃ b, target_array (E:=E) t = Ok b ∧ is32 b ∧ from_be_bytes b = target_val t.
Proof.
  unfold valid_target, target_array, target_val. destruct (hex_decode t) as [b|]; [|done].
  intros Hb. exists b. cbn. by rewrite decide_True.
Qed.

Lemma is32_range b : is32 b → 0 ≤ from_be_bytes b < 2 ^ 256.
Proof. intros Hb. pose proof (from_be_bytes_range b) as H. by rewrite Hb in H. Qed.

(** The retarget window's schedule and elapsed time. *)
Definition EXPECTED_TIME : Z := TARGET_BLOCK_TIME * (RETARGET_INTERVAL - 1).

(** The rule the retarget means to implement: scale by elapsed over expected
    time, clamped to a factor of four either way and to 256 bits. *)
Definition retarget_ref (prev actual : Z) : Z :=
  Z.min (Z.max (prev * actual / EXPECTED_TIME) (prev / 4)) (Z.min (prev * 4) (2 ^ 256 - 1)).

Lemma retarget_val (p : U256) (actual : Z) :
  wf256 p → in_u64 actual →
  let min_target := u256_div p (u256_from_u64 4) in
  let max_target := u256_mul_sat p (u256_from_u64 4) in
  let new_target := u256_div (u256_mul p (u256_from_u64 actual)) (u256_from_u64 EXPECTED_TIME) in
  let out := u256_min (u256_max new_target min_target) max_target in
  wf256 min_target ∧ limbs_val min_target = limbs_val p / 4
  ∧ wf256 max_target ∧ limbs_val max_target = Z.min (limbs_val p * 4) (2 ^ 256 - 1)
  ∧ wf256 out ∧ limbs_val out =
      Z.min (Z.max ((limbs_val p * actual) mod 2 ^ 256 / EXPECTED_TIME) (limbs_val p / 4))
        (Z.min (limbs_val p * 4) (2 ^ 256 - 1)).
Proof.
  intros Hp Ha min_target max_target new_target out.
  assert (wf256 (u256_from_u64 4)) as H4 by (by apply wf256_from_u64).
  assert (wf256 (u256_from_u64 EXPECTED_TIME)) as HE by (by apply wf256_from_u64).
  assert (wf256 (u256_from_u64 actual)) as HA by (by apply wf256_from_u64).
  destruct (u256_div_spec p _ Hp H4) as [Wmin Vmin]. rewrite limbs_val_from_u64 in Vmin.
  destruct (u256_mul_sat_spec p _ Hp H4) as [Wmax Vmax]. rewrite limbs_val_from_u64 in Vmax.
  destruct (u256_mul_spec p _ Hp HA) as [Wm Vm]. rewrite limbs_val_from_u64 in Vm.
  destruct (u256_div_spec _ _ Wm HE) as [Wn Vn]. rewrite limbs_val_from_u64, Vm in Vn.
  fold min_target in Wmin, Vmin. fold max_target in Wmax, Vmax. fold new_target in Wn, Vn.
  assert (wf256 (u256_max new_target min_target) ∧ limbs_val (u256_max new_target min_target)
    = Z.max (limbs_val new_target) (limbs_val min_target)) as [WM VM].
  { rewrite u256_max_spec by done. destruct (Z.leb_spec (limbs_val min_target) (limbs_val new_target));
      split; try done; lia. }
  split_and!; try done; subst out; rewrite u256_min_spec by done;
    destruct (Z.leb_spec (limbs_val (u256_max new_target min_target)) (limbs_val max_target)); try done.
  - rewrite VM, Vn, Vmin in *. lia.
  - rewrite VM, Vn, Vmin in *. lia.
Qed.

(** Which blocks [compute_target] looks at once the chain is long enough. *)
Definition retarget_window (prev_blocks : list Block) (first last : Block) : Prop :=
  ∃ older mid, prev_blocks = older ++ first :: mid ++ [last]
    ∧ Z.of_nat (length mid) = RETARGET_INTERVAL - 2.

Definition elapsed (first last : Block) : Z :=
  saturating_sub64 (b_timestamp last) (b_timestamp first).

Lemma compute_target_long {E} prev_blocks first last :
  retarget_window prev_blocks first last →
  in_u64 (b_timestamp first) → in_u64 (b_timestamp last) → valid_target (b_target last) →
  ∃ out, compute_target (E:=E) prev_blocks = Ok out ∧ is32 out
    ∧ (EXPECTED_TIME * 4 ≤ elapsed first last →
        from_be_bytes out = Z.min (target_val (b_target last) * 4) (2 ^ 256 - 1))
    ∧ (elapsed first last * 4 ≤ EXPECTED_TIME →
        from_be_bytes out = target_val (b_target last) / 4)
    ∧ (EXPECTED_TIME < elapsed first last * 4 → elapsed first last < EXPECTED_TIME * 4 →
        from_be_bytes out = Z.min (Z.max
          ((target_val (b_target last) * elapsed first last) mod 2 ^ 256 / EXPECTED_TIME)
          (target_val (b_target last) / 4)) (Z.min (target_val (b_target last) * 4) (2 ^ 256 - 1))).
Proof.
  intros (older & mid & -> & Hm) Hf Hl Ht. unfold compute_target.
  set (blocks := older ++ first :: mid ++ [last]).
  assert (length blocks = (length older + Z.to_nat RETARGET_INTERVAL)%nat) as Hlen.
  { subst blocks. rewrite length_app. cbn. rewrite length_app. cbn. unfold RETARGET_INTERVAL in *. lia. }
  rewrite Hlen. destruct (Z.ltb_spec (Z.of_nat (length older + Z.to_nat RETARGET_INTERVAL))
    RETARGET_INTERVAL) as [Hc|_]; [unfold RETARGET_INTERVAL in *; lia|].
  rewrite Nat.add_sub. subst blocks. rewrite drop_app_length. cbn [head expect mbind result_bind].
  rewrite app_comm_cons, last_snoc. cbn [expect mbind result_bind].
  destruct (target_array_ok (E:=E) _ Ht) as (arr & -> & Ha & Ev). cbn [mbind result_bind].
  destruct (u256_from_bytes_spec arr Ha) as [Wp Vp]. rewrite Ev in Vp.
  fold (elapsed first last). set (t := elapsed first last).
  assert (in_u64 t) as Hin by (unfold t, elapsed; unfold_width; lia).
  change MAX_TARGET_CHANGE_FACTOR with 4.
  change (mul64 TARGET_BLOCK_TIME (RETARGET_INTERVAL - 1)) with EXPECTED_TIME.
  change (saturating_mul64 EXPECTED_TIME 4) with (EXPECTED_TIME * 4).
  assert (0 < EXPECTED_TIME ∧ EXPECTED_TIME * 16 < two64) as HE by done.
  destruct (retarget_val _ t Wp Hin) as (Wmin & Vmin & Wmax & Vmax & Wo & Vo). rewrite Vp in *.
  destruct (Z.leb_spec (EXPECTED_TIME * 4) t) as [H1|H1].
  { eexists. split; [done|]. destruct (u256_to_bytes_spec _ Wmax) as [? ->].
    split_and!; [done|done|lia|lia]. }
  assert (saturating_mul64 t 4 = t * 4) as -> by (unfold saturating_mul64; unfold_width; lia).
  destruct (Z.leb_spec (t * 4) EXPECTED_TIME) as [H2|H2].
  { eexists. split; [done|]. destruct (u256_to_bytes_spec _ Wmin) as [? ->].
    split_and!; [done|lia|done|lia]. }
  eexists. split; [done|]. destruct (u256_to_bytes_spec _ Wo) as [? ->].
  split_and!; [done|lia|lia|done].
Qed.

Lemma target_val_range t : valid_target t → 0 ≤ target_val t < 2 ^ 256.
Proof.
  unfold valid_target, target_val. destruct (hex_decode t) as [b|]; [|done]. apply is32_range.
Qed.

(** ** Work *)

Definition work_val (target : string) : Z :=
  if target_val target =? 0 then 0 else (2 ^ 256 - 1) / target_val target.

Lemma work_from_target_spec b :
  is32 b → wf256 (work_from_target b) ∧ limbs_val (work_from_target b)
    = if from_be_bytes b =? 0 then 0 else (2 ^ 256 - 1) / from_be_bytes b.
Proof.
  intros Hb. destruct (u256_from_bytes_spec b Hb) as [W V]. unfold work_from_target.
  case_decide as E.
  - split; [apply wf256_zero|]. rewrite E in V. rewrite <- V. done.
  - rewrite u256_eq_zero in E by done. rewrite V in E.
    destruct (Z.eqb_spec (from_be_bytes b) 0); [done|].
    destruct (u256_div_spec _ _ wf256_MAX W) as [W' V']. split; [done|].
    by rewrite V', V, limbs_val_MAX.
Qed.

Lemma add_work_spec {E} total t :
  wf256 total → valid_target t →
  ∃ w, add_work (E:=E) total t = Ok w ∧ wf256 w
    ∧ limbs_val w = (limbs_val total + work_val t) mod 2 ^ 256.
Proof.
  intros Ht Hv. destruct (target_array_ok (E:=E) t Hv) as (b & Eb & H32 & Ev).
  unfold add_work. rewrite Eb. cbn. eexists. split; [done|].
  destruct (work_from_target_spec b H32) as [W V].
  destruct (u256_add_spec _ _ Ht W) as [W' V']. split; [done|].
  rewrite V', V, Ev. done.
Qed.

Lemma fold_work_spec {E A} (f : A → string) (xs : list A) total :
  wf256 total → Forall (λ x, valid_target (f x)) xs →
  ∃ w, foldM (E:=E) (λ total x, add_work total (f x)) total xs = Ok w ∧ wf256 w
    ∧ limbs_val w = (limbs_val total + sumZ ((λ x, work_val (f x)) <$> xs)) mod 2 ^ 256.
Proof.
  intros Ht H. revert total Ht. induction H as [|x xs Hx _ IH]; intros total Ht.
  - exists total. split_and!; [done..|]. cbn. rewrite Z.add_0_r, Z.mod_small; [done|].
    by apply wf256_range.
  - cbn [foldM]. destruct (add_work_spec (E:=E) total (f x) Ht Hx) as (w & -> & Hw & Vw).
    cbn [mbind result_bind]. destruct (IH w Hw) as (w' & -> & Hw' & Vw').
    exists w'. split_and!; [done..|]. rewrite Vw', Vw, Zplus_mod_idemp_l.
    cbn [fmap list_fmap sumZ]. f_equal. lia.
Qed.

(** ** Fork choice *)

(** The key fork choice compares. *)
Definition chain_key (c : ChainInfo) : U256 * Z * string :=
  (ci_total_work c, ci_tip_timestamp c, ci_tip_hash c).

Definition wf_info (c : ChainInfo) : Prop := wf256 (ci_total_work c).
#[export] Instance wf_info_dec c : Decision (wf_info c).
Proof. unfold wf_info, wf256, wf_limbs, in_u64. apply _. Defined.

(** [a] strictly precedes [b]: more work, then earlier, then smaller hash. *)
Definition better (a b : ChainInfo) : Prop :=
  limbs_val (ci_total_work b) < limbs_val (ci_total_work a)
  ∨ limbs_val (ci_total_work a) = limbs_val (ci_total_work b)
    ∧ (ci_tip_timestamp a < ci_tip_timestamp b
       ∨ ci_tip_timestamp a = ci_tip_timestamp b ∧ str_ltb (ci_tip_hash a) (ci_tip_hash b) = true).

Lemma is_better_spec a b : wf_info a → wf_info b → is_better a b = true ↔ better a b.
Proof.
  intros Ha Hb. unfold is_better, better. rewrite !u256_gt_spec by done.
  destruct (Z.ltb_spec (limbs_val (ci_total_work b)) (limbs_val (ci_total_work a))),
    (Z.ltb_spec (limbs_val (ci_total_work a)) (limbs_val (ci_total_work b))),
    (Z.ltb_spec (ci_tip_timestamp a) (ci_tip_timestamp b)),
    (Z.ltb_spec (ci_tip_timestamp b) (ci_tip_timestamp a)); try lia;
    split; intros; try done; try lia; try (left; lia); try (right; split; [lia|]; try (left; lia)).
  all: try (destruct H3 as [?|[? [?|[? ?]]]]; try lia; done).
  right. split; [lia|done].
Qed.

Lemma better_irrefl a : ¬ better a a.
Proof.
  intros [?|[_ [?|[_ H]]]]; try lia. by rewrite str_ltb_irrefl in H.
Qed.

Lemma better_trans a b c : better a b → better b c → better a c.
Proof.
  unfold better. intros H1 H2.
  destruct H1 as [H1|[E1 [H1|[T1 H1]]]], H2 as [H2|[E2 [H2|[T2 H2]]]];
    try (left; lia); right; (split; [lia|]); try (left; lia).
  right. split; [lia|]. by eapply str_ltb_trans.
Qed.

Lemma better_total a b : wf_info a → wf_info b →
  better a b ∨ better b a ∨ chain_key a = chain_key b.
Proof.
  intros Ha Hb. unfold better, chain_key.
  destruct (Z.lt_trichotomy (limbs_val (ci_total_work a)) (limbs_val (ci_total_work b))) as [?|[Ew|?]];
    [tauto| |tauto].
  destruct (Z.lt_trichotomy (ci_tip_timestamp a) (ci_tip_timestamp b)) as [?|[Et|?]]; [tauto| |].
  2: { right; left; right. split; [done|]. by left. }
  destruct (str_ltb (ci_tip_hash a) (ci_tip_hash b)) eqn:E1; [tauto|].
  destruct (str_ltb (ci_tip_hash b) (ci_tip_hash a)) eqn:E2.
  { right; left; right. split; [done|]. by right. }
  right; right. f_equal; [f_equal|]; [by apply wf256_inj|done|by apply str_ltb_total].
Qed.

Lemma select_best_fold c cs :
  wf_info c → Forall wf_info cs →
  let b := foldl (λ best candidate, if is_better candidate best then candidate else best) c cs in
  b ∈ c :: cs ∧ wf_info b ∧ Forall (λ x, ¬ better x b) (c :: cs).
Proof.
  intros Hc Hcs. revert c Hc. induction Hcs as [|d cs Hd Hcs IH]; intros c Hc; cbn.
  { split_and!; [set_solver|done|]. constructor; [apply better_irrefl|constructor]. }
  destruct (is_better d c) eqn:E.
  - apply is_better_spec in E; [|done..].
    destruct (IH d Hd) as (Hin & Hwf & Hbest). split_and!; [set_solver|done|].
    constructor; [|done]. intros Hcb. apply Forall_inv in Hbest.
    by apply Hbest, (better_trans _ c).
  - assert (¬ better d c) as Hdc by (rewrite <- is_better_spec by done; congruence).
    destruct (IH c Hc) as (Hin & Hwf & Hbest). split_and!; [set_solver|done|].
    apply Forall_cons_1 in Hbest as [H1 H2]. constructor; [done|]. constructor; [|done].
    intros Hdb. set (b := foldl _ c cs) in *.
    destruct (better_total c b Hc Hwf) as [?|[Hbc|Ek]]; [done|by apply Hdc, (better_trans _ b)|].
    apply Hdc. unfold better, chain_key in *. injection Ek as E1 E2 E3. by rewrite E1, E2, E3.
Qed.

(** ** Transactions *)

Lemma recover_pubkey_spec sg msg pk :
  recover_pubkey_from_sig sg msg = Ok pk ↔
  length sg = 65%nat ∧ ∃ r, sg !! 64%nat = Some r
    ∧ recover_ecdsa (take 64 sg) (byte_val r) (blake3 msg) = Some pk.
Proof.
  unfold recover_pubkey_from_sig. destruct (Nat.eqb_spec (length sg) 65) as [Hl|Hl]; cbn [negb].
  2: { split; [done|]. by intros [? _]. }
  destruct (lookup_lt_is_Some_2 sg 64) as [r Hr]; [lia|]. rewrite Hr. cbn.
  destruct (recover_ecdsa _ _ _) as [pk'|] eqn:E; cbn; split.
  - intros [= ->]. split; [done|]. by exists r.
  - intros (_ & r' & [= <-] & E'). rewrite E in E'. by injection E' as ->.
  - done.
  - intros (_ & r' & [= <-] & E'). rewrite E in E'. done.
Qed.

Lemma decode_address_no_panic s : decode_address s ≠ Panic.
Proof.
  unfold decode_address. destruct (bech32_decode s) as [[hrp data]|]; cbn; [|done].
  repeat case_decide; cbn; try done; by destruct (pk_from_slice data).
Qed.

End Consensus.

(** ** The properties *)

Section Claims.
Context `{HX : Hex, B3 : Blake3, B32 : Bech32, SK : Secp256k1}.

(** the [U256] limb routines compute on the denoted integers: addition and
    multiplication modulo [2^256], truncating division with [x / 0 = 0],
    saturating multiplication, the comparison, and the 32-byte big-endian round
    trip.  The binary long division and the schoolbook product are thereby equal
    to their one-line references. *)
Theorem u256_refines_integers (a b : U256) :
  wf256 a → wf256 b →
  limbs_val (u256_add a b) = (limbs_val a + limbs_val b) mod 2 ^ 256
  ∧ limbs_val (u256_mul a b) = (limbs_val a * limbs_val b) mod 2 ^ 256
  ∧ limbs_val (u256_div a b) = limbs_val a / limbs_val b
  ∧ limbs_val (u256_mul_sat a b) = Z.min (limbs_val a * limbs_val b) (2 ^ 256 - 1)
  ∧ u256_gt a b = (limbs_val b <? limbs_val a)
  ∧ u256_le a b = (limbs_val a <=? limbs_val b)
  ∧ u256_from_bytes (u256_to_bytes a) = a
  ∧ wf256 (u256_add a b) ∧ wf256 (u256_mul a b) ∧ wf256 (u256_div a b).
Proof.
  intros Ha Hb. destruct (u256_add_spec a b Ha Hb), (u256_mul_spec a b Ha Hb),
    (u256_div_spec a b Ha Hb), (u256_mul_sat_spec a b Ha Hb).
  split_and!; auto using u256_gt_spec, u256_le_spec, u256_bytes_roundtrip.
Qed.

(** on a full retarget window with well-formed last target [p] and elapsed
    time [t], [compute_target] returns (it does not panic) a 32-byte target
    within a factor four of [p] and within 256 bits; and when [p] is at most
    [2^233], it is exactly [p * t / 1209000] clamped to that range. *)
Theorem compute_target_correct {E} (prev_blocks : list Block) (first last : Block) :
  retarget_window prev_blocks first last →
  in_u64 (b_timestamp first) → in_u64 (b_timestamp last) → valid_target (b_target last) →
  let p := target_val (b_target last) in
  ∃ out, compute_target (E:=E) prev_blocks = Ok out ∧ is32 out
    ∧ p / 4 ≤ from_be_bytes out ≤ Z.min (p * 4) (2 ^ 256 - 1)
    ∧ (p ≤ 2 ^ 233 → from_be_bytes out = retarget_ref p (elapsed first last)).
Proof.
  intros Hw Hf Hl Ht p. pose proof (target_val_range _ Ht) as Hp. fold p in Hp.
  destruct (compute_target_long (E:=E) _ _ _ Hw Hf Hl Ht) as (out & Eo & H32 & H1 & H2 & H3).
  exists out. split; [done|]. split; [done|]. fold p in H1, H2, H3.
  set (t := elapsed first last) in *.
  assert (0 ≤ t) as Ht0 by (unfold t, elapsed, saturating_sub64; lia).
  assert (EXPECTED_TIME = 1209000) as HE by done.
  assert (0 ≤ p / 4 ≤ p) as Hq.
  { split; [apply Z.div_pos; lia|]. apply Z.div_le_upper_bound; lia. }
  destruct (Z.le_gt_cases (EXPECTED_TIME * 4) t) as [C1|C1].
  { rewrite H1 by done. split; [lia|]. intros _. unfold retarget_ref.
    assert (p * 4 ≤ p * t / EXPECTED_TIME) by (apply Z.div_le_lower_bound; nia). lia. }
  destruct (Z.le_gt_cases (t * 4) EXPECTED_TIME) as [C2|C2].
  { rewrite H2 by done. split; [lia|]. intros _. unfold retarget_ref.
    assert (p * t / EXPECTED_TIME ≤ p / 4).
    { apply Z.div_le_lower_bound; [lia|].
      pose proof (Z.mul_div_le (p * t) EXPECTED_TIME ltac:(lia)). nia. }
    lia. }
  rewrite H3 by done. split; [lia|]. intros Hs. unfold retarget_ref.
  rewrite (Z.mod_small (p * t)); [done|]. split; [nia|].
  change (2 ^ 256) with (2 ^ 233 * 2 ^ 23). nia.
Qed.

(** before the first full window the target of the last block is kept. *)
Theorem compute_target_short (older : list Block) (last : Block) :
  Z.of_nat (length older) + 1 < RETARGET_INTERVAL → valid_target (b_target last) →
  hex_decode (b_target last) = (match compute_target (E:=CoreError) (older ++ [last]) with
    | Ok out => Some out | _ => None end).
Proof.
  intros Hl Ht. unfold compute_target. rewrite length_app. cbn [length].
  destruct (Z.ltb_spec (Z.of_nat (length older + 1)) RETARGET_INTERVAL); [|lia].
  rewrite last_snoc. cbn. unfold target_array, valid_target in *.
  destruct (hex_decode (b_target last)) as [b|]; [|done]. cbn. by rewrite decide_True.
Qed.

(** a block at height [n > 0] on [n] previous blocks passes
    [validate_timestamp] exactly when its timestamp is above the median of the
    last (at most eleven) timestamps and at most two hours after [now]; the
    median always exists (no panic). *)
Theorem validate_timestamp_correct (block : Block) (prev_blocks : list Block) (now : Z) :
  0 < b_index block → b_index block = Z.of_nat (length prev_blocks) →
  0 ≤ now → now + MAX_FUTURE_TIME < two64 →
  ∃ m, is_median (mtp_window prev_blocks (b_index block)) m
    ∧ (validate_timestamp block prev_blocks now = Ok tt
       ↔ m < b_timestamp block ≤ now + MAX_FUTURE_TIME)
    ∧ validate_timestamp block prev_blocks now ≠ Panic.
Proof.
  intros Hi Hlen Hn0 Hn.
  destruct (median_time_past_spec (E:=CoreError) _ _ Hi Hlen) as (m & E & Hm).
  exists m. split; [done|]. unfold validate_timestamp.
  destruct (Z.eqb_spec (b_index block) 0); [lia|]. rewrite E. cbn [mbind result_bind].
  unfold add64. rewrite wrap64_small by (unfold in_u64, MAX_FUTURE_TIME in *; lia).
  destruct (Z.leb_spec (b_timestamp block) m); [split; [split; [done|lia]|done]|].
  destruct (Z.ltb_spec (now + MAX_FUTURE_TIME) (b_timestamp block));
    (split; [split; [try done; try lia|try done; try lia]|done]).
Qed.

(** Acceptance by [validate_difficulty]: a 32-byte target the hash does not exceed. *)
Lemma difficulty_iff `{B3ok : !Blake3Ok} (block : Block) :
  validate_difficulty block = Ok tt ↔
  ∃ hash, block_hash (E:=CoreError) block = Ok hash ∧ valid_target (b_target block)
    ∧ from_be_bytes hash ≤ target_val (b_target block).
Proof.
  unfold validate_difficulty, valid_target, target_val.
  destruct (block_hash block) as [hash|e|] eqn:Hh; cbn [mbind result_bind];
    [|by split; [|intros (? & ? & _)]..].
  destruct (hex_decode (b_target block)) as [b|]; cbn [ok_or mbind result_bind];
    [|by split; [|intros (? & _ & ? & _)]].
  destruct (decide (length b = 32%nat)) as [Hb|Hb]; cbn [mbind result_bind];
    [|by split; [|intros (? & _ & ? & _)]].
  assert (is32 hash) as H32.
  { unfold block_hash, serialize_block_header in Hh.
    destruct (serialize_header (header block)); [|done..]. injection Hh as <-. apply blake3_length. }
  destruct (u256_from_bytes_spec hash H32) as [W1 V1], (u256_from_bytes_spec b Hb) as [W2 V2].
  rewrite u256_gt_spec, V1, V2 by done.
  destruct (Z.ltb_spec (from_be_bytes b) (from_be_bytes hash)) as [Hlt|Hle].
  - split; [done|]. intros (h & [= <-] & _ & ?). lia.
  - split; [|done]. intros _. by exists hash.
Qed.

(** proof of work is the numeric comparison: [validate_difficulty] accepts a
    block with a 32-byte hex target exactly when its hash, read as a big-endian
    number, does not exceed the target. *)
Theorem validate_difficulty_correct `{B3ok : !Blake3Ok} (block : Block) (hash : list byte) :
  block_hash (E:=CoreError) block = Ok hash → valid_target (b_target block) →
  validate_difficulty block = Ok tt ↔ from_be_bytes hash ≤ target_val (b_target block).
Proof.
  intros Hh Ht. rewrite difficulty_iff, Hh. split; [by intros (? & [= <-] & _ & ?)|]. by exists hash.
Qed.

(** the header-only check accepts exactly the headers whose declared hash is
    empty or the recomputed one and whose hash meets the declared target. *)
Theorem validate_header_pow_correct `{B3ok : !Blake3Ok} (h : BlockHeader) (hash : list byte) :
  header_hash (E:=CoreError) h = Ok hash →
  validate_header_pow h = Ok tt ↔
  (h_hash h = "" ∨ h_hash h = hex_encode hash) ∧ valid_target (h_target h)
  ∧ from_be_bytes hash ≤ target_val (h_target h).
Proof.
  intros Hh. unfold validate_header_pow. rewrite Hh. cbn [mbind result_bind].
  assert (is32 hash) as H32.
  { unfold header_hash in Hh. destruct (serialize_header h); [|done..]. injection Hh as <-.
    apply blake3_length. }
  destruct (bool_decide_reflect (h_hash h = "")), (bool_decide_reflect (h_hash h = hex_encode hash));
    cbn [negb andb]; try (split; [done|tauto]).
  all: unfold valid_target, target_val; destruct (hex_decode (h_target h)) as [b|];
    cbn [ok_or mbind result_bind]; [|split; [done|tauto]].
  all: destruct (Nat.eqb_spec (length b) 32) as [Hb|Hb]; cbn [negb];
    [|split; [done|by intros (_ & ? & _)]].
  all: destruct (u256_from_bytes_spec hash H32) as [W1 V1], (u256_from_bytes_spec b Hb) as [W2 V2];
    rewrite u256_gt_spec, V1, V2 by done;
    destruct (Z.ltb_spec (from_be_bytes b) (from_be_bytes hash)); split; intros; try done; try tauto; lia.
Qed.

(** [verify_transaction] accepts a transaction exactly when it is a coinbase,
    or it is within the deploy and gas limits and its 65-byte signature recovers,
    over the digest of the unsigned encoding, the very key the sender address
    encodes. *)
Theorem verify_transaction_correct (tx : Transaction) :
  verify_transaction tx = Ok tt ↔
  is_coinbase tx = true ∨
  is_coinbase tx = false ∧ verify_limits tx = Ok tt ∧ length (signature tx) = 65%nat ∧
  ∃ recid pk net, signature tx !! 64%nat = Some recid
    ∧ recover_ecdsa (take 64 (signature tx)) (byte_val recid) (blake3 (serialize_transaction tx))
      = Some pk
    ∧ decode_address (sender tx) = Ok (pk, net).
Proof.
  unfold verify_transaction. destruct (is_coinbase tx); [tauto|]. split.
  - intros H. right. apply bind_ok_inv in H as ([] & H1 & H). apply bind_ok_inv in H as (pk & H2 & H).
    apply bind_ok_inv in H as ([spk net] & H3 & H). case_decide; [subst|done].
    apply recover_pubkey_spec in H2 as (? & r & ? & ?). split_and!; try done. by exists r, pk, net.
  - intros [?|(_ & H1 & H2 & r & pk & net & Hr & Hrec & Hd)]; [done|].
    rewrite H1. cbn [mbind result_bind].
    rewrite (proj2 (recover_pubkey_spec _ _ pk)) by eauto. cbn [mbind result_bind].
    rewrite Hd. cbn [mbind result_bind]. by rewrite decide_True.
Qed.

(** [is_better] is a strict total order on the triple (work, tip time, tip
    hash): irreflexive, transitive, and any two chains are ordered one way unless
    their triples agree. *)
Theorem is_better_strict_total_order (a b c : ChainInfo) :
  wf_info a → wf_info b → wf_info c →
  is_better a a = false
  ∧ (is_better a b = true → is_better b c = true → is_better a c = true)
  ∧ (is_better a b = true ∨ is_better b a = true ∨ chain_key a = chain_key b)
  ∧ (chain_key a = chain_key b → is_better a b = false).
Proof.
  intros Ha Hb Hc. split_and!.
  - destruct (is_better a a) eqn:E; [|done]. apply is_better_spec in E; [|done..].
    by apply better_irrefl in E.
  - rewrite !is_better_spec by done. apply better_trans.
  - rewrite !is_better_spec by done. by apply better_total.
  - intros [= E1 E2 E3]. destruct (is_better a b) eqn:E; [|done].
    apply is_better_spec in E; [|done..]. unfold better in E. rewrite E1, E2, E3 in E.
    by apply (better_irrefl b) in E.
Qed.

(** [select_best] returns a chain of the list that no other chain of the list
    beats, and the choice does not depend on the order in which the chains are
    presented (up to chains indistinguishable to fork choice). *)
Theorem select_best_optimal (chains chains' : list ChainInfo) :
  Forall wf_info chains → chains ≡ₚ chains' → chains ≠ [] →
  ∃ best best', select_best chains = Some best ∧ select_best chains' = Some best'
    ∧ best ∈ chains ∧ (∀ c, c ∈ chains → is_better c best = false)
    ∧ chain_key best = chain_key best'.
Proof.
  intros Hwf Hp Hne. assert (Forall wf_info chains') as Hwf' by by rewrite <- Hp.
  destruct chains as [|c cs]; [done|]. destruct chains' as [|c' cs'].
  { by apply Permutation_nil_r in Hp. }
  apply Forall_cons_1 in Hwf as Hc. apply Forall_cons_1 in Hwf' as Hc'.
  destruct (select_best_fold c cs) as (Hin & Hb & Hbest); [tauto..|].
  destruct (select_best_fold c' cs') as (Hin' & Hb' & Hbest'); [tauto..|].
  cbn [select_best]. set (b := foldl _ c cs) in *. set (b' := foldl _ c' cs') in *.
  exists b, b'. split_and!; [done..| |].
  - intros x Hx. rewrite Forall_forall in Hbest, Hwf. destruct (is_better x b) eqn:E; [|done].
    apply is_better_spec in E; [|by apply Hwf|done]. by apply Hbest in E.
  - rewrite Forall_forall in Hbest, Hbest'.
    destruct (better_total b b') as [?|[?|?]]; [done..| | |done].
    + destruct (Hbest' b); [by rewrite <- Hp|done].
    + destruct (Hbest b'); [by rewrite Hp|done].
Qed.

(** accumulated work is the sum over the blocks of
    [(2^256 - 1) / target] (0 for a zero target) modulo [2^256], and the
    header-only computation agrees with the one over full blocks. *)
Theorem cumulative_work_correct (chain : list Block) :
  Forall (λ b, valid_target (b_target b)) chain →
  ∃ w, cumulative_work (E:=CoreError) chain = Ok w ∧ wf256 w
    ∧ limbs_val w = sumZ ((λ b, work_val (b_target b)) <$> chain) mod 2 ^ 256
    ∧ cumulative_work_headers (E:=CoreError) (header <$> chain) = Ok w.
Proof.
  intros H. destruct (fold_work_spec (E:=CoreError) b_target chain u256_zero wf256_zero H)
    as (w & E & Hw & Vw).
  exists w. split_and!; try done. rewrite <- E. clear. unfold cumulative_work_headers.
  generalize u256_zero as total. induction chain as [|b bs IH]; intros total; cbn; [done|].
  destruct (add_work total (b_target b)); cbn; [apply IH|done..].
Qed.

(** addresses round-trip: on a known network every key has an address and
    decoding it gives back the key and the network. *)
Theorem address_roundtrip `{B32ok : !Bech32Ok, SKok : !Secp256k1Ok} (pk : PublicKey) (net : Z) :
  net ∈ [CHAIN_ID_MAINNET; CHAIN_ID_TESTNET; CHAIN_ID_REGTEST] →
  ∃ s, encode_address pk net = Ok s ∧ decode_address s = Ok (pk, net).
Proof.
  intros Hn. destruct (encode_address_total pk net
    (if net =? CHAIN_ID_MAINNET then "sc" else if net =? CHAIN_ID_TESTNET then "tsc" else "rsc"))
    as [s Hs].
  - unfold hrp_for_network. repeat (apply elem_of_cons in Hn as [->|Hn]; [done|]).
    by apply not_elem_of_nil in Hn.
  - exists s. split; [done|]. by apply decode_encode_address.
Qed.

(** contract addresses exist on every known network, differ from every key's
    address, and two deployments share an address only if creator and nonce agree
    or the two hashed inputs collide. *)
Theorem contract_address_separation `{B32ok : !Bech32Ok, SKok : !Secp256k1Ok, B3ok : !Blake3Ok}
    (creator creator' : string) (n n' net : Z) (hrp : string) :
  in_u64 n → in_u64 n' → hrp_for_network net = Ok hrp →
  collision_free_on [contract_addr_preimage creator n; contract_addr_preimage creator' n'] →
  ∃ s s', derive_contract_address creator n net = Ok s
    ∧ derive_contract_address creator' n' net = Ok s'
    ∧ (s = s' → creator = creator' ∧ n = n')
    ∧ ∀ pk net', encode_address pk net' ≠ Ok s.
Proof.
  intros Hn Hn' Hh Hcf.
  destruct (derive_contract_address_total creator n net hrp Hh) as (s & Es & Ds).
  destruct (derive_contract_address_total creator' n' net hrp Hh) as (s' & Es' & Ds').
  exists s, s'. split_and!; try done.
  - intros <-. rewrite Ds in Ds'. injection Ds' as Ds'. apply Hcf in Ds'; [|set_solver..].
    by apply contract_addr_preimage_inj.
  - intros pk net' Hpk. unfold encode_address in Hpk.
    apply bind_ok_inv in Hpk as (hrp' & H1 & Hpk). apply bind_ok_inv in Hpk as (hrp2 & H2 & Hpk).
    unfold ok_or in Hpk. destruct (bech32_encode hrp2 _) as [s2|] eqn:E; [|done].
    injection Hpk as ->. apply bech32_decode_encode in E. rewrite Ds in E. injection E as _ E.
    apply (f_equal length) in E. rewrite pk_serialize_length, blake3_length in E. done.
Qed.

End Claims.

(** ** A retarget that leaves the schedule

    A window of 2016 blocks at the largest target, exactly on schedule. *)

Definition sample_header_block (ts : Z) (target : list byte) : Block :=
  {| b_index := 0; b_timestamp := ts; b_transactions := [];
     b_previous_hash := @hex_encode toy_hex zero32; b_hash := ""; b_nonce := 0;
     b_target := @hex_encode toy_hex target; b_consensus_version := 1;
     b_state_root := zero32; b_tx_root := zero32; b_receipts_root := zero32 |}.

Definition sample_window (target : list byte) (span : Z) : list Block :=
  let b := sample_header_block 1000 target in
  b :: replicate 2014 b ++ [sample_header_block (1000 + span) target].

(** with the largest target and blocks exactly on schedule the retarget does
    not keep the target: the 256-bit product wraps and the result is the floor
    [prev / 4], a fourfold difficulty increase, where the rule says no change. *)
Theorem retarget_wraps_at_max_target :
  let prev := replicate 32 xff in
  @compute_target toy_hex CoreError (sample_window prev EXPECTED_TIME)
    = Ok (x3f :: replicate 31 xff)
  ∧ retarget_ref (from_be_bytes prev) EXPECTED_TIME = from_be_bytes prev.
Proof. vm_compute. done. Qed.

(** ** Witnesses *)

Lemma u256_refines_integers_witness :
  limbs_val (u256_div [5; 7; 0; 1] [3; 0; 0; 0]) = limbs_val [5; 7; 0; 1] / limbs_val [3; 0; 0; 0].
Proof.
  apply (u256_refines_integers [5; 7; 0; 1] [3; 0; 0; 0]).
  - unfold wf256, wf_limbs, in_u64. by_eval.
  - unfold wf256, wf_limbs, in_u64. by_eval.
Defined.

Lemma compute_target_correct_witness :
  ∃ out, @compute_target toy_hex CoreError (sample_window zero32 EXPECTED_TIME) = Ok out
    ∧ is32 out.
Proof.
  destruct (@compute_target_correct toy_hex CoreError (sample_window zero32 EXPECTED_TIME)
    (sample_header_block 1000 zero32) (sample_header_block (1000 + EXPECTED_TIME) zero32))
    as (out & H1 & H2 & _).
  - exists [], (replicate 2014 (sample_header_block 1000 zero32)). split; [reflexivity|reflexivity].
  - unfold in_u64. by_eval.
  - unfold in_u64. by_eval.
  - by_eval.
  - exists out. split; [exact H1|exact H2].
Defined.

Lemma compute_target_short_witness :
  @hex_decode toy_hex (@hex_encode toy_hex zero32)
  = (match @compute_target toy_hex CoreError ([] ++ [sample_header_block 1000 zero32]) with
     | Ok out => Some out | _ => None end).
Proof.
  apply (@compute_target_short toy_hex [] (sample_header_block 1000 zero32)).
  - reflexivity.
  - by_eval.
Defined.

Definition sample_child (ts : Z) : Block :=
  {| b_index := 1; b_timestamp := ts; b_transactions := [];
     b_previous_hash := @hex_encode toy_hex zero32; b_hash := ""; b_nonce := 0;
     b_target := @hex_encode toy_hex (replicate 32 xff); b_consensus_version := 1;
     b_state_root := zero32; b_tx_root := zero32; b_receipts_root := zero32 |}.

Lemma validate_timestamp_correct_witness :
  ∃ m, is_median (mtp_window [sample_header_block 1000 zero32] 1) m
    ∧ (validate_timestamp (sample_child 1600) [sample_header_block 1000 zero32] 2000 = Ok tt
       ↔ m < 1600 ≤ 2000 + MAX_FUTURE_TIME)
    ∧ validate_timestamp (sample_child 1600) [sample_header_block 1000 zero32] 2000 ≠ Panic.
Proof.
  apply (validate_timestamp_correct (sample_child 1600) [sample_header_block 1000 zero32] 2000).
  - reflexivity.
  - reflexivity.
  - lia.
  - reflexivity.
Defined.

Definition toy_hash_of (r : result CoreError (list byte)) : list byte :=
  match r with Ok h => h | _ => [] end.

Lemma validate_difficulty_correct_witness :
  @validate_difficulty toy_hex toy_blake3 (sample_child 1600) = Ok tt.
Proof.
  apply (@validate_difficulty_correct toy_hex toy_blake3 toy_blake3_ok (sample_child 1600)
    (toy_hash_of (@block_hash toy_hex toy_blake3 CoreError (sample_child 1600)))).
  - vm_compute. reflexivity.
  - by_eval.
  - vm_compute. discriminate.
Defined.

Lemma validate_header_pow_correct_witness :
  @validate_header_pow toy_hex toy_blake3 (header (sample_child 1600)) = Ok tt.
Proof.
  apply (@validate_header_pow_correct toy_hex toy_blake3 toy_blake3_ok (header (sample_child 1600))
    (toy_hash_of (@header_hash toy_hex toy_blake3 CoreError (header (sample_child 1600))))).
  - vm_compute. reflexivity.
  - split; [left; reflexivity|]. split; [by_eval|]. vm_compute. discriminate.
Defined.

Definition sample_info (w ts : Z) (h : string) : ChainInfo :=
  {| ci_tip_height := 5; ci_tip_hash := h; ci_total_work := [w; 0; 0; 0]; ci_tip_timestamp := ts |}.

Lemma is_better_strict_total_order_witness :
  is_better (sample_info 9 1 "a") (sample_info 9 1 "b") = true
  ∨ is_better (sample_info 9 1 "b") (sample_info 9 1 "a") = true
  ∨ chain_key (sample_info 9 1 "a") = chain_key (sample_info 9 1 "b").
Proof.
  apply (is_better_strict_total_order (sample_info 9 1 "a") (sample_info 9 1 "b")
    (sample_info 8 1 "c")); by_eval.
Defined.

Lemma select_best_optimal_witness :
  ∃ best best', select_best [sample_info 9 1 "a"; sample_info 9 0 "b"] = Some best
    ∧ select_best [sample_info 9 0 "b"; sample_info 9 1 "a"] = Some best'
    ∧ chain_key best = chain_key best'.
Proof.
  destruct (select_best_optimal [sample_info 9 1 "a"; sample_info 9 0 "b"]
    [sample_info 9 0 "b"; sample_info 9 1 "a"]) as (b & b' & H1 & H2 & _ & _ & H3).
  - by_eval.
  - apply perm_swap.
  - discriminate.
  - exists b, b'. split; [exact H1|]. split; [exact H2|exact H3].
Defined.

Lemma cumulative_work_correct_witness :
  ∃ w, @cumulative_work toy_hex CoreError [sample_child 5] = Ok w ∧ wf256 w.
Proof.
  destruct (@cumulative_work_correct toy_hex [sample_child 5]) as (w & H1 & H2 & _).
  - by_eval.
  - exists w. split; [exact H1|exact H2].
Defined.

Lemma address_roundtrip_witness :
  ∃ s, @encode_address toy_bech32 toy_secp x41 CHAIN_ID_TESTNET = Ok s
    ∧ @decode_address toy_bech32 toy_secp s = Ok (x41, CHAIN_ID_TESTNET).
Proof.
  apply (@address_roundtrip toy_bech32 toy_secp toy_bech32_ok toy_secp_ok x41 CHAIN_ID_TESTNET).
  by_eval.
Defined.

Lemma contract_address_separation_witness :
  ∃ s s', @derive_contract_address toy_bech32 toy_blake3 "alice" 1 CHAIN_ID_MAINNET = Ok s
    ∧ @derive_contract_address toy_bech32 toy_blake3 "alice" 2 CHAIN_ID_MAINNET = Ok s'
    ∧ (s = s' → "alice" = "alice" ∧ 1 = 2)
    ∧ ∀ pk net', @encode_address toy_bech32 toy_secp pk net' ≠ Ok s.
Proof.
  apply (@contract_address_separation toy_blake3 toy_bech32 toy_secp toy_bech32_ok toy_secp_ok
    toy_blake3_ok "alice" "alice" 1 2 CHAIN_ID_MAINNET "sc").
  - unfold in_u64. lia.
  - unfold in_u64. lia.
  - reflexivity.
  - by_eval.
Defined.
