(* ===== verification/Emission.v ===== *)
(** * Emission and rule activation
    (economics/emission.rs, governance/scip.rs, blockchain/consensus_manager.rs)

    Block rewards, the activation-height table of consensus versions, and the
    manager that answers which rules hold at a height. *)

From S2P Require Import Prelude Bytes Address Consensus.
From Stdlib Require Import Sorting.Sorted.
Open Scope Z_scope.

(** ** Emission *)

Definition TAIL_RATE_NUMERATOR : Z := 6.
Definition TAIL_RATE_DENOMINATOR : Z := 1000.
Definition BLOCKS_PER_YEAR : Z := 365 * 24 * 6.
Definition HALVING_INTERVAL : Z := 210000.
Definition MAX_SUPPLY_PRE_TAIL : Z := 21000000 * 100000000.
Definition INITIAL_REWARD : Z := 50 * 100000000.
Definition REGTEST_REWARD : Z := 0.

Definition halving_schedule (height : Z) : Z :=
  let halvings := height / HALVING_INTERVAL in
  if 64 <=? halvings then 0 else Z.shiftr INITIAL_REWARD halvings.

Definition calculate_tail_reward (total_supply : Z) : Z :=
  mul64 total_supply TAIL_RATE_NUMERATOR / mul64 TAIL_RATE_DENOMINATOR BLOCKS_PER_YEAR.

Definition block_reward_at_height_for_chain (height total_supply chain_id : Z) : Z :=
  if chain_id =? CHAIN_ID_REGTEST then REGTEST_REWARD
  else Z.max (halving_schedule height) (calculate_tail_reward total_supply).

(** ** Activation table

    A [BTreeMap<Height, u32>] iterates in increasing key order: it is kept here
    as its list of bindings, strictly increasing in the height. *)

Record ConsensusRules := {
  cr_consensus_version : Z;
  cr_activations : list (Z * Z)
}.

Definition wf_activations (l : list (Z * Z)) : Prop :=
  StronglySorted (λ p q, p.1 < q.1) l.

(** The loop over the bindings. *)
Definition activate (height version : Z) (activations : list (Z * Z)) : Z :=
  foldl (λ active '(activation_height, new_version),
    if activation_height <=? height then new_version else active) version activations.

Definition current_consensus_rules (height : Z) (rules : ConsensusRules) : Z :=
  activate height (cr_consensus_version rules) (cr_activations rules).

Definition current_consensus_version (height : Z) (activations : list (Z * Z)) : Z :=
  activate height 1 activations.

(** ** Consensus manager *)

Inductive ConsensusPhase := Pow | Pos.

#[export] Instance ConsensusPhase_eq_dec : EqDecision ConsensusPhase.
Proof. solve_decision. Defined.

Record ConsensusManager := {
  cm_rules : ConsensusRules;
  cm_pos_activation_height : option Z
}.

Definition manager_new : ConsensusManager := {|
  cm_rules := {| cr_consensus_version := CURRENT_CONSENSUS_VERSION; cr_activations := [] |};
  cm_pos_activation_height := None
|}.

Definition manager_with_rules (rules : ConsensusRules) : ConsensusManager :=
  {| cm_rules := rules; cm_pos_activation_height := None |}.

Definition with_pos_activation (m : ConsensusManager) (height : Z) : ConsensusManager :=
  {| cm_rules := cm_rules m; cm_pos_activation_height := Some height |}.

Definition expected_version (m : ConsensusManager) (height : Z) : Z :=
  current_consensus_rules height (cm_rules m).

Definition phase_at (m : ConsensusManager) (height : Z) : ConsensusPhase :=
  match cm_pos_activation_height m with
  | Some h => if h <=? height then Pos else Pow
  | None => Pow
  end.

(** ** Lemmas: emission *)

Lemma halving_schedule_eq h : 0 ≤ h → halving_schedule h = INITIAL_REWARD / 2 ^ (h / HALVING_INTERVAL).
Proof.
  intros Hh. assert (0 ≤ h / HALVING_INTERVAL) as Hk by (by apply Z.div_pos).
  unfold halving_schedule. destruct (Z.leb_spec 64 (h / HALVING_INTERVAL)) as [H|H].
  - rewrite Z.div_small; [done|]. split; [done|].
    apply Z.lt_le_trans with (2 ^ 64); [done|]. apply Z.pow_le_mono_r; lia.
  - by rewrite Z.shiftr_div_pow2.
Qed.

(** Rewards of the first [n] heights from [h] on. *)
Fixpoint emitted_from (h : Z) (n : nat) : Z :=
  match n with O => 0 | S n => halving_schedule h + emitted_from (h + 1) n end.

(** Reward of the [k]-th era, and twice it bounds everything from era [k] on. *)
Definition era_reward (k : Z) : Z := INITIAL_REWARD / 2 ^ k.

Lemma era_reward_halves k : 0 ≤ k → 2 * era_reward (k + 1) ≤ era_reward k.
Proof.
  intros Hk. unfold era_reward. rewrite Z.pow_add_r, Z.pow_1_r by lia.
  rewrite <- Z.div_div by lia. set (x := INITIAL_REWARD / 2 ^ k).
  apply Z.mul_div_le. lia.
Qed.

Lemma era_reward_nonneg k : 0 ≤ k → 0 ≤ era_reward k.
Proof. intros. apply Z.div_pos; [done|]. apply Z.pow_pos_nonneg; lia. Qed.

(** With [d] blocks left in era [k], at most [d] rewards of this era plus a full
    interval at (twice the next) remain: the potential that bounds emission. *)
Lemma emitted_bound n h :
  0 ≤ h →
  emitted_from h n ≤ ((h / HALVING_INTERVAL + 1) * HALVING_INTERVAL - h)
      * era_reward (h / HALVING_INTERVAL)
    + HALVING_INTERVAL * era_reward (h / HALVING_INTERVAL).
Proof.
  revert h. induction n as [|n IH]; intros h Hh; cbn [emitted_from].
  - pose proof (era_reward_nonneg (h / HALVING_INTERVAL) ltac:(by apply Z.div_pos)).
    pose proof (Z.mul_succ_div_gt h HALVING_INTERVAL ltac:(done)).
    unfold HALVING_INTERVAL in *. apply Z.add_nonneg_nonneg; apply Z.mul_nonneg_nonneg; lia.
  - specialize (IH (h + 1) ltac:(lia)). rewrite halving_schedule_eq by done.
    fold (era_reward (h / HALVING_INTERVAL)).
    assert (0 ≤ h / HALVING_INTERVAL) as Hk by by apply Z.div_pos.
    pose proof (Z.div_mod h HALVING_INTERVAL ltac:(done)) as Hdm.
    pose proof (Z.mod_pos_bound h HALVING_INTERVAL ltac:(done)) as Hb.
    destruct (decide (h mod HALVING_INTERVAL = HALVING_INTERVAL - 1)) as [E|E].
    + assert ((h + 1) / HALVING_INTERVAL = h / HALVING_INTERVAL + 1) as Eq.
      { symmetry. apply (Z.div_unique_pos _ _ _ 0); lia. }
      rewrite Eq in IH. pose proof (era_reward_halves (h / HALVING_INTERVAL) Hk).
      unfold HALVING_INTERVAL in *. nia.
    + assert ((h + 1) / HALVING_INTERVAL = h / HALVING_INTERVAL) as Eq.
      { symmetry. apply (Z.div_unique_pos _ _ _ (h mod HALVING_INTERVAL + 1)); lia. }
      rewrite Eq in IH. lia.
Qed.

(** ** Lemmas: activation *)

Lemma activate_app h v l1 l2 : activate h v (l1 ++ l2) = activate h (activate h v l1) l2.
Proof. unfold activate. apply foldl_app. Qed.

Lemma activate_below h v l : Forall (λ p, h < p.1) l → activate h v l = v.
Proof.
  revert v. induction l as [|[a b] l IH]; intros v Hl; [done|].
  apply Forall_cons_1 in Hl as [Ha Hl]. cbn in *.
  destruct (Z.leb_spec a h); [lia|]. by apply IH.
Qed.

Lemma sorted_app_lt l1 p l2 :
  wf_activations (l1 ++ p :: l2) → Forall (λ q, p.1 < q.1) l2.
Proof.
  unfold wf_activations. induction l1 as [|q l1 IH]; cbn; intros H; apply StronglySorted_inv in H as [H1 H2];
    [done|auto].
Qed.

(** ** The properties *)

(** the halving schedule never mints more than the declared pre-tail cap:
    the rewards of any number of consecutive blocks from genesis sum to at most
    [MAX_SUPPLY_PRE_TAIL]. *)
Theorem halving_total_bounded (n : nat) : emitted_from 0 n ≤ MAX_SUPPLY_PRE_TAIL.
Proof.
  pose proof (emitted_bound n 0 ltac:(lia)) as H. etrans; [exact H|]. done.
Qed.

(** on mainnet and testnet the reward of a block is at least the tail reward
    and the halving reward and equals one of them; while six times the supply
    fits a [u64] the tail of a year is at most 0.6% of the supply, and adding the
    reward to the supply does not overflow while the supply is below [2^61]; on
    regtest nothing is minted. *)
Theorem block_reward_bounds (height supply chain : Z) :
  0 ≤ height → 0 ≤ supply < 2 ^ 61 →
  let r := block_reward_at_height_for_chain height supply chain in
  (chain = CHAIN_ID_REGTEST → r = 0)
  ∧ (chain ≠ CHAIN_ID_REGTEST →
      r = Z.max (halving_schedule height) (supply * 6 / 52560000))
  ∧ 0 ≤ r ≤ Z.max INITIAL_REWARD (supply * 6 / 52560000)
  ∧ BLOCKS_PER_YEAR * calculate_tail_reward supply * 1000 ≤ supply * 6
  ∧ in_u64 (supply + r).
Proof.
  intros Hh Hs r. unfold r, block_reward_at_height_for_chain.
  assert (0 ≤ halving_schedule height ≤ INITIAL_REWARD) as Hhal.
  { rewrite halving_schedule_eq by done. split; [by apply era_reward_nonneg, Z.div_pos|].
    apply Z.div_le_upper_bound; [apply Z.pow_pos_nonneg; [lia|by apply Z.div_pos]|].
    pose proof (Z.pow_pos_nonneg 2 (height / HALVING_INTERVAL) ltac:(lia) ltac:(by apply Z.div_pos)).
    unfold INITIAL_REWARD. nia. }
  assert (calculate_tail_reward supply = supply * 6 / 52560000) as ->.
  { unfold calculate_tail_reward, mul64, TAIL_RATE_NUMERATOR. rewrite wrap64_small; [done|].
    unfold in_u64. lia. }
  pose proof (Z.mul_div_le (supply * 6) 52560000 ltac:(lia)) as Hd.
  assert (0 ≤ supply * 6 / 52560000) by (apply Z.div_pos; lia).
  unfold in_u64, BLOCKS_PER_YEAR, INITIAL_REWARD in *.
  destruct (Z.eqb_spec chain CHAIN_ID_REGTEST); split_and!; unfold REGTEST_REWARD; try done; lia.
Qed.

(** the version in force at a height is that of the greatest activation
    height at or below it, and the initial version when every activation is
    still ahead. *)
Theorem expected_version_correct (m : ConsensusManager) (height : Z) :
  let acts := cr_activations (cm_rules m) in
  wf_activations acts →
  (∀ a v, (a, v) ∈ acts → a ≤ height →
     (∀ a' v', (a', v') ∈ acts → a' ≤ height → a' ≤ a) → expected_version m height = v)
  ∧ (Forall (λ p, height < p.1) acts →
     expected_version m height = cr_consensus_version (cm_rules m)).
Proof.
  intros acts Hwf. split; [|apply activate_below].
  intros a v Hin Ha Hmax. unfold expected_version, current_consensus_rules. fold acts.
  apply list_elem_of_split in Hin as (l1 & l2 & E). rewrite E in *. rewrite activate_app.
  change (activate height (activate height (cr_consensus_version (cm_rules m)) l1) ((a, v) :: l2))
    with (activate height (if a <=? height then v else
      activate height (cr_consensus_version (cm_rules m)) l1) l2).
  destruct (Z.leb_spec a height); [|lia]. apply activate_below, Forall_forall.
  intros [a' v'] Hin'. cbn. destruct (Z.lt_ge_cases height a') as [|Hle]; [done|].
  exfalso. specialize (Hmax a' v' ltac:(set_solver) Hle).
  apply sorted_app_lt in Hwf. rewrite Forall_forall in Hwf. specialize (Hwf _ Hin'). cbn in Hwf. lia.
Qed.

(** ** Witnesses *)

Lemma block_reward_bounds_witness :
  block_reward_at_height_for_chain 210000 2100000000000000 CHAIN_ID_MAINNET
  = Z.max (halving_schedule 210000) (2100000000000000 * 6 / 52560000).
Proof.
  apply (block_reward_bounds 210000 2100000000000000 CHAIN_ID_MAINNET); [lia|lia|discriminate].
Defined.

Lemma expected_version_correct_witness :
  expected_version (manager_with_rules
    {| cr_consensus_version := 1; cr_activations := [(100, 2); (200, 3)] |}) 150 = 2.
Proof.
  apply (expected_version_correct (manager_with_rules
    {| cr_consensus_version := 1; cr_activations := [(100, 2); (200, 3)] |}) 150) with (a := 100).
  - apply SSorted_cons; [apply SSorted_cons; constructor|].
    apply Forall_cons_2; [reflexivity|constructor].
  - left.
  - lia.
  - intros a' v' Hin Ha'. apply elem_of_cons in Hin as [[= -> ->]|Hin]; [lia|].
    apply elem_of_cons in Hin as [[= -> ->]|Hin]; [lia|]. by apply not_elem_of_nil in Hin.
Defined.
