(* ===== verification/SparseMerkle.v ===== *)
(** * Sparse Merkle trie (state/sparse_merkle.rs)

    The depth-256 binary trie that commits to accounts, receipts and contract
    storage: roots, sibling proofs, proof verification, and the recomputation of
    a root from the proofs of the updated leaves.

    A slice [sorted[start..end]] is the list of its elements, so [hash_range] and
    [collect_siblings] take the segment itself; the level [bit] is
    [DEPTH - rem], which makes the recursion structural in [rem]. *)

From S2P Require Import Prelude Bytes Abi Types Serialize.
Open Scope Z_scope.

Definition DEPTH : nat := 256.

(** [blake3::hash(b"")], a literal in the source. *)
Definition EMPTY_HASH : list byte :=
  [xaf; x13; x49; xb9; xf5; xf9; xa1; xa6; xa0; x9f; xb0; x2d; xc6; x03; x1e; x89;
   x25; x81; x64; xb6; xb8; x73; x0a; x4b; x48; x02; x6d; x1e; x94; x78; xf5; x46].

(** Documented: that literal is the BLAKE3 digest of the empty input. *)
Class Blake3Empty `{Blake3} : Prop := { blake3_empty : blake3 [] = EMPTY_HASH }.

Definition CONTRACT_LEAF_TAG : byte := x01.
Definition RECEIPT_LEAF_TAG : byte := x02.
Definition STORAGE_LEAF_TAG : byte := x03.

(** Stable sort by key, [Vec::sort_by_key]. *)
Fixpoint insert_by_key (x : list byte * list byte) (l : list (list byte * list byte))
    : list (list byte * list byte) :=
  match l with
  | [] => [x]
  | y :: l' => if bytes_ltb y.1 x.1 then y :: insert_by_key x l' else x :: l
  end.
Definition sort_by_key (l : list (list byte * list byte)) : list (list byte * list byte) :=
  foldr insert_by_key [] l.

(** [slice.partition_point(p)]: length of the leading run satisfying [p]. *)
Fixpoint partition_point {A} (p : A → bool) (l : list A) : nat :=
  match l with
  | [] => O
  | x :: l => if p x then S (partition_point p l) else O
  end.

(** Bit [bit_index] of [key], most significant bit of byte 0 first. *)
Definition bit_at (key : list byte) (bit_index : nat) : Z :=
  let b := default x00 (key !! (bit_index / 8)%nat) in
  let shift := 7 - Z.of_nat (bit_index mod 8) in
  Z.land (Z.shiftr (byte_val b) shift) 1.

Definition path_prefix (key : list byte) (depth : nat) : list byte :=
  let whole := (depth / 8)%nat in
  let rem := (depth mod 8)%nat in
  let prefix := take whole key ++ replicate (32 - whole) x00 in
  if (0 <? rem)%nat then
    let k := byte_val (default x00 (key !! whole)) in
    let mask := Z.land (Z.shiftl 255 (8 - Z.of_nat rem)) 255 in
    <[whole := byte_of (Z.land k mask)]> prefix
  else prefix.

Definition sibling_path (key : list byte) (level : nat) : list byte :=
  let path := path_prefix key level in
  if bit_at key level =? 0 then
    let i := (level / 8)%nat in
    let b := byte_val (default x00 (path !! i)) in
    <[i := byte_of (Z.lor b (Z.shiftl 1 (7 - Z.of_nat (level mod 8))))]> path
  else path.

(** The node map of [root_after_updates], by (depth, path prefix). *)
Abbreviation NodeMap := (gmap (nat * list byte) (list byte)).

Section SparseMerkle.
Context `{B3 : Blake3}.

Definition hash_bytes (data : list byte) : list byte := blake3 data.
Definition hash_pair (left right : list byte) : list byte := blake3 (left ++ right).
Definition account_key_hash (address : string) : list byte := hash_bytes (as_bytes address).

(** What [account_leaf_hash] feeds the hasher. *)
Definition account_leaf_preimage (key_hash : list byte) (account : Account) : list byte :=
  key_hash ++
  match account with
  | Eoa eoa => to_le_bytes 8 (eoa_balance eoa) ++ to_le_bytes 8 (eoa_nonce eoa)
  | Contract c => [CONTRACT_LEAF_TAG] ++ ct_code_hash c ++ ct_storage_root c
      ++ to_le_bytes 8 (ct_balance c) ++ to_le_bytes 8 (ct_nonce c)
  end.

Definition account_leaf_hash (key_hash : list byte) (account : Account) : list byte :=
  blake3 (account_leaf_preimage key_hash account).

Definition leaf_hash_for (key : list byte) (account : Account) : list byte :=
  if is_empty account then EMPTY_HASH else account_leaf_hash key account.

(** The static [TABLE] of empty-subtree hashes; entry [rem] is the source's
    [table[DEPTH - rem]]. *)
Fixpoint empty_table_upto (n : nat) : list (list byte) :=
  match n with
  | O => [EMPTY_HASH]
  | S n =>
      let table := empty_table_upto n in
      let e := default [] (last table) in
      table ++ [hash_pair e e]
  end.
Definition empty_table : list (list byte) := empty_table_upto DEPTH.

(** [empty_subtree(DEPTH - rem)] read off the table. *)
Definition empty_at (table : list (list byte)) (rem : nat) : list byte :=
  default [] (table !! rem).

(** Splits a segment at the first key whose bit [bit] is set. *)
Definition split_at_bit (bit : nat) (seg : list (list byte * list byte)) :=
  let mid := partition_point (λ kv, bit_at kv.1 bit =? 0) seg in
  (take mid seg, drop mid seg).

Fixpoint hash_range_tab (table : list (list byte)) (rem : nat)
    (seg : list (list byte * list byte)) : list byte :=
  match seg with
  | [] => empty_at table rem
  | kv :: _ =>
    match rem with
    | O => kv.2
    | S rem' =>
      let '(l, r) := split_at_bit (DEPTH - rem) seg in
      hash_pair (hash_range_tab table rem' l) (hash_range_tab table rem' r)
    end
  end.

Definition hash_range (rem : nat) (seg : list (list byte * list byte)) : list byte :=
  hash_range_tab empty_table rem seg.

(** The siblings on the path of [key], the one nearest the root first. *)
Fixpoint collect_siblings_tab (table : list (list byte)) (rem : nat)
    (seg : list (list byte * list byte)) (key : list byte) : list (list byte) :=
  match rem with
  | O => []
  | S rem' =>
    let '(l, r) := split_at_bit (DEPTH - rem) seg in
    if bit_at key (DEPTH - rem) =? 0
    then hash_range_tab table rem' r :: collect_siblings_tab table rem' l key
    else hash_range_tab table rem' l :: collect_siblings_tab table rem' r key
  end.

Definition collect_siblings (rem : nat) (seg : list (list byte * list byte)) (key : list byte)
    : list (list byte) := collect_siblings_tab empty_table rem seg key.

Record SparseMerkleTrie := { leaves : gmap (list byte) (list byte) }.

Definition trie_new : SparseMerkleTrie := {| leaves := ∅ |}.

Definition trie_insert (t : SparseMerkleTrie) (address : string) (account : Account)
    : SparseMerkleTrie :=
  let key := account_key_hash address in
  if is_empty account then {| leaves := delete key (leaves t) |}
  else {| leaves := <[key := account_leaf_hash key account]> (leaves t) |}.

Definition root (t : SparseMerkleTrie) : list byte :=
  hash_range DEPTH (sort_by_key (map_to_list (leaves t))).

Definition empty_root : list byte := empty_at empty_table DEPTH.

Definition compute_root (accounts : gmap string Account) : list byte :=
  if decide (accounts = ∅) then empty_root else
  hash_range DEPTH (sort_by_key
    ((λ '(addr, account), let key := account_key_hash addr in
        (key, account_leaf_hash key account)) <$>
      filter (λ p, is_empty p.2 = false) (map_to_list accounts))).

Definition prove (t : SparseMerkleTrie) (address : string) (account : Account)
    : result CoreError (list (list byte)) :=
  let key := account_key_hash address in
  let is_pruned := is_empty account in
  let expected_leaf := if is_pruned then EMPTY_HASH else account_leaf_hash key account in
  let matches := match leaves t !! key with
    | None => is_pruned
    | Some leaf => negb is_pruned && bool_decide (leaf = expected_leaf)
    end in
  if matches then Ok (collect_siblings DEPTH (sort_by_key (map_to_list (leaves t))) key)
  else Err ProofAccountMismatch.

(** The loop [for i in (0..DEPTH).rev()] of the verifiers: combines [acc] with
    [proof[i]] for [i = n - 1, ..., 0]. *)
Fixpoint fold_proof (n : nat) (key : list byte) (proof : list (list byte)) (acc : list byte)
    : list byte :=
  match n with
  | O => acc
  | S i =>
    let s := default [] (proof !! i) in
    fold_proof i key proof
      (if bit_at key i =? 0 then hash_pair acc s else hash_pair s acc)
  end.

Definition verify_proof (root : list byte) (address : string) (account : Account)
    (proof : list (list byte)) : bool :=
  if negb (length proof =? DEPTH)%nat then false else
  let key := account_key_hash address in
  bool_decide (fold_proof DEPTH key proof (leaf_hash_for key account) = root).

(** ** Recomputing a root from proofs *)

Record LeafUpdate := {
  lu_address : string;
  lu_pre : Account;
  lu_proof : list (list byte);
  lu_post : Account
}.

(** Inserts the pre-image leaf and the siblings of one update. *)
Definition seed_update (nodes : NodeMap) (u : LeafUpdate) : NodeMap :=
  let key := account_key_hash (lu_address u) in
  foldl (λ m level,
      <[(S level, sibling_path key level) := default [] (lu_proof u !! level)]> m)
    (<[(DEPTH, key) := leaf_hash_for key (lu_pre u)]> nodes) (seq 0 DEPTH).

Definition seed_nodes (pre_root : list byte) (updates : list LeafUpdate)
    : result CoreError NodeMap :=
  foldM (λ nodes u,
    if verify_proof pre_root (lu_address u) (lu_pre u) (lu_proof u)
    then Ok (seed_update nodes u) else Err WitnessVerificationFailed) ∅ updates.

Definition write_posts (nodes : NodeMap) (updates : list LeafUpdate) : NodeMap :=
  foldl (λ m u, let key := account_key_hash (lu_address u) in
    <[(DEPTH, key) := leaf_hash_for key (lu_post u)]> m) nodes updates.

(** One step of the ancestor chain: the node of [key] at [level]. *)
Definition rehash_level (key : list byte) (nodes : NodeMap) (level : nat)
    : result CoreError NodeMap :=
  let on_path := path_prefix key (S level) in
  let off_path := sibling_path key level in
  let '(l_path, r_path) := if bit_at key level =? 0 then (on_path, off_path)
                        else (off_path, on_path) in
  left_hash ← ok_or (nodes !! (S level, l_path)) WitnessVerificationFailed;
  right_hash ← ok_or (nodes !! (S level, r_path)) WitnessVerificationFailed;
  Ok (<[(level, path_prefix key level) := hash_pair left_hash right_hash]> nodes).

Definition rehash_key (nodes : NodeMap) (u : LeafUpdate) : result CoreError NodeMap :=
  foldM (rehash_level (account_key_hash (lu_address u))) nodes (reverse (seq 0 DEPTH)).

Definition root_after_updates (pre_root : list byte) (updates : list LeafUpdate)
    : result CoreError (list byte) :=
  match updates with
  | [] => Ok pre_root
  | _ =>
    nodes ← seed_nodes pre_root updates;
    nodes ← foldM rehash_key (write_posts nodes updates) updates;
    ok_or (nodes !! (0%nat, zero32)) WitnessVerificationFailed
  end.

(** ** Receipts sub-trie *)

Definition receipt_leaf_hash (r : Receipt) : list byte :=
  blake3 (RECEIPT_LEAF_TAG :: serialize_receipt r).

(** The loop that keeps the first receipt of every txid, in order. *)
Definition receipt_leaves (receipts : list Receipt) : list (list byte * list byte) :=
  foldl (λ sorted r,
    if existsb (λ kv, bool_decide (kv.1 = rc_txid r)) sorted then sorted
    else sorted ++ [(rc_txid r, receipt_leaf_hash r)]) [] receipts.

Definition receipts_subroot (receipts : list Receipt) : list byte :=
  match receipts with
  | [] => empty_root
  | _ => hash_range DEPTH (sort_by_key (receipt_leaves receipts))
  end.

Definition prove_receipt (receipts : list Receipt) (txid : list byte)
    : result CoreError (list (list byte)) :=
  match list_find (λ r, rc_txid r = txid) receipts with
  | None => Err ProofAccountMismatch
  | Some (_, receipt) =>
      Ok (collect_siblings DEPTH (sort_by_key (receipt_leaves receipts)) (rc_txid receipt))
  end.

Definition verify_receipt_proof (root : list byte) (receipt : Receipt)
    (proof : list (list byte)) : bool :=
  if negb (length proof =? DEPTH)%nat then false else
  bool_decide (fold_proof DEPTH (rc_txid receipt) proof (receipt_leaf_hash receipt) = root).

(** [state::receipts_root]. *)
Definition receipts_root (receipts : list Receipt) : list byte := receipts_subroot receipts.

(** ** Contract storage sub-trie *)

Definition storage_leaf_hash (key value : list byte) : list byte :=
  blake3 (STORAGE_LEAF_TAG :: key ++ value).

Definition contract_storage_root (entries : ContractStorage) : list byte :=
  if decide (entries = ∅) then zero32 else
  hash_range DEPTH (sort_by_key
    ((λ '(key, value), (key, storage_leaf_hash key value)) <$> map_to_list entries)).

End SparseMerkle.
