(* ===== verification/SparseMerkleProps.v ===== *)
(** * Correctness of the sparse Merkle trie

    The reference is [tree f rem p]: the hash of the complete binary tree of
    height [rem] under the path [p] whose leaf at path [q] is [f q].  It is never
    evaluated (a tree has [2^256] leaves); [hash_range], the proofs and
    [root_after_updates] are shown to compute its values. *)

From S2P Require Import Prelude Bytes Abi Types Address Concrete Serialize SerializeProps SparseMerkle.
From Stdlib Require Import Sorting.Sorted.
Open Scope Z_scope.

(** ** Bits of a key *)

Definition bits_of_byte (b : byte) : list bool :=
  (λ i, Z.testbit (byte_val b) (7 - Z.of_nat i)) <$> seq 0 8.

Definition bits (key : list byte) : list bool := key ≫= bits_of_byte.

Definition unbits (l : list bool) : Z := foldl (λ a b, 2 * a + Z.b2z b) 0 l.

(** Exhaustive checks over the 256 bytes. *)
Definition all_bytes : list byte := byte_of <$> seqZ 0 256.

Lemma elem_of_all_bytes b : b ∈ all_bytes.
Proof.
  apply list_elem_of_fmap. exists (byte_val b). rewrite byte_of_val. split; [done|].
  apply elem_of_seqZ. pose proof (byte_val_range b). lia.
Qed.

Lemma all_bytes_spec (P : byte → bool) : forallb P all_bytes = true → ∀ b, P b = true.
Proof.
  intros H b. rewrite forallb_forall in H. apply H, list_elem_of_In, elem_of_all_bytes.
Qed.

Lemma all_bytes2_spec (P : byte → nat → bool) n :
  forallb (λ b, forallb (P b) (seq 0 n)) all_bytes = true → ∀ b i, (i < n)%nat → P b i = true.
Proof.
  intros H b i Hi. pose proof (all_bytes_spec _ H b) as Hb. rewrite forallb_forall in Hb.
  apply Hb, in_seq. lia.
Qed.

Lemma length_bits_of_byte b : length (bits_of_byte b) = 8%nat.
Proof. done. Qed.

Lemma length_bits key : length (bits key) = (8 * length key)%nat.
Proof.
  induction key as [|b key IH]; [done|]. unfold bits in *. cbn [mbind list_bind length].
  rewrite length_app, IH, length_bits_of_byte. lia.
Qed.

Lemma unbits_byte b : byte_of (unbits (bits_of_byte b)) = b.
Proof.
  assert (forallb (λ b, bool_decide (byte_of (unbits (bits_of_byte b)) = b)) all_bytes = true) as H
    by (vm_compute; reflexivity).
  pose proof (all_bytes_spec _ H b) as H'. by apply bool_decide_eq_true in H'.
Qed.

Lemma bits_inj a b : length a = length b → bits a = bits b → a = b.
Proof.
  revert b. induction a as [|x a IH]; intros [|y b] Hl H; try done.
  unfold bits in H. cbn [mbind list_bind] in H. apply app_inj_1 in H as [H1 H2]; [|done].
  f_equal; [by rewrite <- (unbits_byte x), <- (unbits_byte y), H1|]. apply IH; [by injection Hl|done].
Qed.

Lemma lookup_bits key i :
  bits key !! i = (key !! (i / 8)%nat) ≫= λ b, bits_of_byte b !! (i mod 8)%nat.
Proof.
  revert i. induction key as [|b key IH]; intros i; [done|].
  unfold bits in *. cbn [mbind list_bind]. destruct (decide (i < 8)%nat) as [Hi|Hi].
  - rewrite lookup_app_l by (rewrite length_bits_of_byte; lia).
    by rewrite Nat.div_small, Nat.mod_small.
  - rewrite lookup_app_r by (rewrite length_bits_of_byte; lia). rewrite length_bits_of_byte, IH.
    assert (i = (i - 8) + 1 * 8)%nat as Ei by lia.
    replace (i / 8)%nat with (S ((i - 8) / 8)) by (rewrite Ei at 2; rewrite Nat.div_add; lia).
    replace (i mod 8)%nat with ((i - 8) mod 8)%nat by (rewrite Ei at 2; by rewrite Nat.Div0.mod_add).
    done.
Qed.

Lemma land_one_odd x : Z.land x 1 = Z.b2z (Z.odd x).
Proof. change 1 with (Z.ones 1). rewrite Z.land_ones by lia. apply Zmod_odd. Qed.

Lemma lookup_bits_of_byte b i : (i < 8)%nat →
  bits_of_byte b !! i = Some (Z.testbit (byte_val b) (7 - Z.of_nat i)).
Proof.
  intros Hi. unfold bits_of_byte. rewrite list_lookup_fmap, lookup_seq_lt by done. done.
Qed.

(** [bit_at] reads the bit list. *)
Lemma bit_at_bits key i : is32 key → (i < DEPTH)%nat →
  bits key !! i = Some (negb (bit_at key i =? 0)).
Proof.
  intros Hk Hi. rewrite lookup_bits. unfold bit_at, DEPTH in *.
  destruct (lookup_lt_is_Some_2 key (i / 8)) as [b Hb].
  { rewrite Hk. apply Nat.Div0.div_lt_upper_bound. lia. }
  rewrite Hb. cbn [default mbind option_bind].
  rewrite lookup_bits_of_byte by (apply Nat.mod_upper_bound; lia). f_equal.
  rewrite land_one_odd, Zodd_even_bool. rewrite <- Z.negb_odd, negb_involutive.
  rewrite Z.testbit_odd. by destruct (Z.odd _).
Qed.

(** Lexicographic order on bit lists of one length. *)
Fixpoint bits_ltb (a b : list bool) : bool :=
  match a, b with
  | x :: a, y :: b => if negb x && y then true else if x && negb y then false else bits_ltb a b
  | _, _ => false
  end.

Lemma bits_ltb_app a b c d : length a = length b →
  bits_ltb (a ++ c) (b ++ d) = if bits_ltb a b then true else if bits_ltb b a then false
    else bits_ltb c d.
Proof.
  revert b. induction a as [|x a IH]; intros [|y b] Hl; try done.
  cbn. injection Hl as Hl. destruct x, y; cbn; try done; by apply IH.
Qed.

Lemma byte_ltb_bits x y : (byte_val x <? byte_val y) = bits_ltb (bits_of_byte x) (bits_of_byte y).
Proof.
  assert (forallb (λ x, forallb (λ y, bool_decide ((byte_val x <? byte_val y)
    = bits_ltb (bits_of_byte x) (bits_of_byte y))) all_bytes) all_bytes = true) as H
    by (vm_compute; reflexivity).
  pose proof (all_bytes_spec _ (all_bytes_spec _ H x) y) as H'. by apply bool_decide_eq_true in H'.
Qed.

Lemma bytes_ltb_bits a b : length a = length b → bytes_ltb a b = bits_ltb (bits a) (bits b).
Proof.
  revert b. induction a as [|x a IH]; intros [|y b] Hl; try done. injection Hl as Hl.
  unfold bits. cbn [mbind list_bind bytes_ltb]. rewrite bits_ltb_app by done.
  rewrite !byte_ltb_bits. unfold bits in IH. by rewrite IH.
Qed.

(** Of two keys with a common prefix the smaller one has the smaller next bit. *)
Lemma sorted_bit_order a b p ra rb :
  length a = length b → bytes_ltb a b = true →
  bits a = p ++ true :: ra → bits b = p ++ false :: rb → False.
Proof.
  intros Hl Hlt Ha Hb. rewrite bytes_ltb_bits, Ha, Hb, bits_ltb_app in Hlt by done.
  assert (bits_ltb p p = false) as E.
  { clear. induction p as [|[] p IH]; cbn; auto. }
  by rewrite E in Hlt.
Qed.

(** ** The reference tree *)

Section Tree.
Context `{B3 : Blake3, B3ok : !Blake3Ok}.

Fixpoint tree (f : list bool → list byte) (rem : nat) (p : list bool) : list byte :=
  match rem with
  | O => f p
  | S rem => hash_pair (tree f rem (p ++ [false])) (tree f rem (p ++ [true]))
  end.

(** Hash of the empty tree of height [rem]: the meaning of the table. *)
Fixpoint empty_subtree (rem : nat) : list byte :=
  match rem with
  | O => EMPTY_HASH
  | S rem => hash_pair (empty_subtree rem) (empty_subtree rem)
  end.

Lemma empty_table_upto_spec n :
  length (empty_table_upto n) = S n ∧ last (empty_table_upto n) = Some (empty_subtree n)
  ∧ ∀ rem, (rem ≤ n)%nat → empty_table_upto n !! rem = Some (empty_subtree rem).
Proof.
  induction n as [|n (IH1 & IH2 & IH3)]; cbn [empty_table_upto].
  { split_and!; [done|done|]. intros [|rem] H; [done|lia]. }
  rewrite IH2. cbn [default empty_subtree]. split_and!.
  - rewrite length_app, IH1. cbn. lia.
  - by rewrite last_snoc.
  - intros rem Hr. destruct (decide (rem ≤ n)%nat).
    + rewrite lookup_app_l by lia. by apply IH3.
    + assert (rem = S n) as -> by lia. rewrite lookup_app_r, IH1, Nat.sub_diag by lia. done.
Qed.

Lemma empty_at_spec rem : (rem ≤ DEPTH)%nat → empty_at empty_table rem = empty_subtree rem.
Proof.
  intros H. unfold empty_at, empty_table.
  destruct (empty_table_upto_spec DEPTH) as (_ & _ & E). by rewrite E.
Qed.

Lemma hash_range_nil rem : (rem ≤ DEPTH)%nat → hash_range rem [] = empty_subtree rem.
Proof. intros H. rewrite <- empty_at_spec by done. by destruct rem. Qed.

Lemma hash_range_S rem kv seg :
  hash_range (S rem) (kv :: seg) =
  hash_pair (hash_range rem (split_at_bit (DEPTH - S rem) (kv :: seg)).1)
    (hash_range rem (split_at_bit (DEPTH - S rem) (kv :: seg)).2).
Proof. reflexivity. Qed.

Lemma collect_siblings_S rem seg key :
  collect_siblings (S rem) seg key =
  let '(l, r) := split_at_bit (DEPTH - S rem) seg in
  if bit_at key (DEPTH - S rem) =? 0
  then hash_range rem r :: collect_siblings rem l key
  else hash_range rem l :: collect_siblings rem r key.
Proof. reflexivity. Qed.

Lemma tree_ext f g rem p :
  (∀ q, length q = rem → f (p ++ q) = g (p ++ q)) → tree f rem p = tree g rem p.
Proof.
  revert p. induction rem as [|rem IH]; intros p H; cbn.
  - specialize (H [] eq_refl). by rewrite app_nil_r in H.
  - f_equal; apply IH; intros q Hq; rewrite <- app_assoc; apply H; cbn; by rewrite Hq.
Qed.

Lemma tree_empty f rem p :
  (∀ q, length q = rem → f (p ++ q) = EMPTY_HASH) → tree f rem p = empty_subtree rem.
Proof.
  revert p. induction rem as [|rem IH]; intros p H; cbn.
  - specialize (H [] eq_refl). by rewrite app_nil_r in H.
  - f_equal; apply IH; intros q Hq; rewrite <- app_assoc; apply H; cbn; by rewrite Hq.
Qed.

Lemma tree_32 f rem p : (∀ q, is32 (f q)) → is32 (tree f rem p).
Proof. intros H. destruct rem; cbn; [apply H|apply blake3_length]. Qed.

(** The leaf a list of (key, hash) pairs puts at a path. *)
Definition leaf_at (ls : list (list byte * list byte)) (p : list bool) : list byte :=
  match list_find (λ kv, bits kv.1 = p) ls with Some (_, kv) => kv.2 | None => EMPTY_HASH end.

Lemma leaf_at_app_l l r p : Forall (λ kv, bits kv.1 ≠ p) r → leaf_at (l ++ r) p = leaf_at l p.
Proof.
  intros Hr. unfold leaf_at. destruct (list_find _ l) as [[i kv]|] eqn:E.
  - by rewrite (list_find_app_l _ _ _ _ _ E).
  - rewrite list_find_app_r by done.
    destruct (list_find _ r) as [[j kv]|] eqn:E'; cbn; [|done].
    apply list_find_Some in E' as (Hj & Hb & _). rewrite Forall_lookup in Hr. by apply Hr in Hj.
Qed.

Lemma leaf_at_app_r l r p : Forall (λ kv, bits kv.1 ≠ p) l → leaf_at (l ++ r) p = leaf_at r p.
Proof.
  intros Hl. unfold leaf_at. rewrite list_find_app_r.
  - by destruct (list_find _ r) as [[j kv]|]; cbn.
  - apply list_find_None. done.
Qed.

(** A segment of leaves sorted by key below the path [p]. *)
Definition seg_ok (p : list bool) (seg : list (list byte * list byte)) : Prop :=
  Forall (λ kv, is32 kv.1 ∧ ∃ r, bits kv.1 = p ++ r) seg
  ∧ StronglySorted (λ a b, bytes_ltb a.1 b.1 = true) seg.

Lemma sorted_app_inv {A} (R : A → A → Prop) l r :
  StronglySorted R (l ++ r) → StronglySorted R l ∧ StronglySorted R r.
Proof.
  induction l as [|x l IH]; cbn; intros H; [split; [constructor|done]|].
  apply StronglySorted_inv in H as [H1 H2]. destruct (IH H1). split; [|done].
  constructor; [done|]. by apply Forall_app in H2 as [].
Qed.

Lemma bits_next kv p : is32 kv → (length p < DEPTH)%nat → (∃ r, bits kv = p ++ r) →
  ∃ r, bits kv = (p ++ [negb (bit_at kv (length p) =? 0)]) ++ r.
Proof.
  intros Hk Hp [r Hr]. pose proof (bit_at_bits kv (length p) Hk Hp) as Hb.
  rewrite Hr, lookup_app_r, Nat.sub_diag in Hb by lia.
  destruct r as [|b r]; [done|]. cbn in Hb. injection Hb as ->.
  exists r. by rewrite <- app_assoc.
Qed.

Lemma partition_point_spec {A} (P : A → bool) l :
  Forall (λ x, P x = true) (take (partition_point P l) l)
  ∧ ∀ x r, drop (partition_point P l) l = x :: r → P x = false.
Proof.
  induction l as [|y l [IH1 IH2]]; cbn; [done|]. destruct (P y) eqn:E; cbn.
  - split; [by constructor|done].
  - split; [constructor|]. by intros x r [= <- _].
Qed.

(** The two halves of a segment are the segments of the two children. *)
Lemma split_at_bit_spec p seg l r :
  (length p < DEPTH)%nat → seg_ok p seg → split_at_bit (length p) seg = (l, r) →
  seg = l ++ r ∧ seg_ok (p ++ [false]) l ∧ seg_ok (p ++ [true]) r.
Proof.
  intros Hp [Hseg Hs] [= <- <-]. set (P := λ kv : list byte * list byte, bit_at kv.1 (length p) =? 0).
  destruct (partition_point_spec P seg) as [H1 H2].
  set (mid := partition_point P seg) in *. rewrite <- (take_drop mid seg) in Hseg, Hs.
  split; [by rewrite take_drop|]. apply sorted_app_inv in Hs as Hs'. destruct Hs' as [Hs1 Hs2].
  apply Forall_app in Hseg as [Hl Hr]. split; (split; [|done]).
  - apply Forall_forall. intros kv Hin. rewrite Forall_forall in Hl, H1.
    destruct (Hl kv Hin) as [Hk Hx]. split; [done|].
    destruct (bits_next _ _ Hk Hp Hx) as [x Ex]. specialize (H1 kv Hin). unfold P in H1.
    rewrite H1 in Ex. by exists x.
  - destruct (drop mid seg) as [|kv0 r] eqn:Ed; [constructor|].
    specialize (H2 kv0 r eq_refl). apply Forall_cons_1 in Hr as [[Hk0 Hx0] Hr].
    destruct (bits_next _ _ Hk0 Hp Hx0) as [x0 Ex0]. unfold P in H2. rewrite H2 in Ex0. cbn in Ex0.
    apply StronglySorted_inv in Hs2 as [_ Hlt]. constructor; [by eauto|].
    apply Forall_forall. intros kv Hin. rewrite Forall_forall in Hr, Hlt.
    destruct (Hr kv Hin) as [Hk Hx]. split; [done|].
    destruct (bits_next _ _ Hk Hp Hx) as [x Ex]. destruct (bit_at kv.1 (length p) =? 0); [|by exists x].
    exfalso. apply (sorted_bit_order kv0.1 kv.1 p x0 x).
    + by rewrite Hk0, Hk.
    + by apply Hlt.
    + by rewrite Ex0, <- app_assoc.
    + by rewrite Ex, <- app_assoc.
Qed.

Lemma seg_other p b q r seg :
  seg_ok (p ++ [b]) seg → q = p ++ negb b :: r → Forall (λ kv, bits kv.1 ≠ q) seg.
Proof.
  intros [H _] ->. eapply Forall_impl; [exact H|]. intros kv [_ [x E]] E'. cbn in E'.
  rewrite E, <- app_assoc in E'. apply app_inv_head in E'. injection E' as E'. by destruct b.
Qed.

(** Restricting the leaves to one child does not change that child. *)
Lemma tree_split_l p l r rem :
  seg_ok (p ++ [true]) r →
  tree (leaf_at (l ++ r)) rem (p ++ [false]) = tree (leaf_at l) rem (p ++ [false]).
Proof.
  intros Hr. apply tree_ext. intros q _. apply leaf_at_app_l.
  apply (seg_other p true _ q); [done|]. by rewrite <- app_assoc.
Qed.

Lemma tree_split_r p l r rem :
  seg_ok (p ++ [false]) l →
  tree (leaf_at (l ++ r)) rem (p ++ [true]) = tree (leaf_at r) rem (p ++ [true]).
Proof.
  intros Hl. apply tree_ext. intros q _. apply leaf_at_app_r.
  apply (seg_other p false _ q); [done|]. by rewrite <- app_assoc.
Qed.

Lemma hash_range_spec rem p seg :
  (length p + rem = DEPTH)%nat → seg_ok p seg → hash_range rem seg = tree (leaf_at seg) rem p.
Proof.
  revert p seg. induction rem as [|rem IH]; intros p seg Hp Hs.
  - destruct seg as [|kv seg]; [by rewrite hash_range_nil by lia|].
    change (hash_range 0 (kv :: seg)) with kv.2.
    destruct Hs as [Hs _]. apply Forall_inv in Hs as [Hk [r Hr]].
    assert (r = []) as ->.
    { apply (f_equal length) in Hr. rewrite length_bits, Hk, length_app in Hr. unfold DEPTH in Hp.
      destruct r; [done|]. cbn in Hr. lia. }
    rewrite app_nil_r in Hr. unfold leaf_at. cbn. by rewrite decide_True.
  - destruct seg as [|kv seg'] eqn:Eseg.
    { rewrite hash_range_nil by lia. symmetry. by apply tree_empty. }
    rewrite hash_range_S, <- Eseg in *. replace (DEPTH - S rem)%nat with (length p) by lia.
    destruct (split_at_bit (length p) seg) as [l r] eqn:E. cbn [fst snd].
    destruct (split_at_bit_spec p seg l r) as (-> & Hl & Hr); [lia|done|done|].
    assert (∀ c, length (p ++ [c]) + rem = DEPTH)%nat as Hp'
      by (intros; rewrite length_app; cbn [length]; lia).
    rewrite (IH (p ++ [false]) l), (IH (p ++ [true]) r) by done. cbn [tree].
    by rewrite tree_split_l, tree_split_r.
Qed.

(** ** Proofs *)

(** The honest siblings along the remaining path. *)
Fixpoint sibs (f : list bool → list byte) (p path : list bool) : list (list byte) :=
  match path with
  | [] => []
  | b :: path => tree f (length path) (p ++ [negb b]) :: sibs f (p ++ [b]) path
  end.

Lemma sibs_ext f g p path :
  (∀ q, length q = length path → f (p ++ q) = g (p ++ q)) → sibs f p path = sibs g p path.
Proof.
  revert p. induction path as [|b path IH]; intros p H; cbn; [done|]. f_equal.
  - apply tree_ext. intros q Hq. rewrite <- app_assoc. apply H. cbn. by rewrite Hq.
  - apply IH. intros q Hq. rewrite <- app_assoc. apply H. cbn. by rewrite Hq.
Qed.

Lemma length_sibs f p path : length (sibs f p path) = length path.
Proof. revert p. induction path; intros; cbn; auto. Qed.

Lemma sibs_32 f p path : (∀ q, is32 (f q)) → Forall is32 (sibs f p path).
Proof. intros H. revert p. induction path; intros; cbn; constructor; auto using tree_32. Qed.

Lemma collect_siblings_spec rem p path seg key :
  (length p + rem = DEPTH)%nat → is32 key → bits key = p ++ path → seg_ok p seg →
  collect_siblings rem seg key = sibs (leaf_at seg) p path.
Proof.
  revert p path seg. induction rem as [|rem IH]; intros p path seg Hp Hk Hpath Hs.
  - assert (length path = 0%nat) as Hl.
    { apply (f_equal length) in Hpath. rewrite length_bits, Hk, length_app in Hpath.
      unfold DEPTH in Hp. lia. }
    by destruct path.
  - rewrite collect_siblings_S. replace (DEPTH - S rem)%nat with (length p) by lia.
    destruct (split_at_bit (length p) seg) as [l r] eqn:E.
    destruct (split_at_bit_spec p seg l r) as (-> & Hl & Hr); [lia|done|done|].
    pose proof (bit_at_bits key (length p) Hk ltac:(lia)) as Hb.
    rewrite Hpath, lookup_app_r, Nat.sub_diag in Hb by lia.
    destruct path as [|b path]; [done|]. cbn in Hb. injection Hb as Hb.
    assert (length path = rem) as Hlen.
    { apply (f_equal length) in Hpath. rewrite length_bits, Hk, length_app in Hpath.
      cbn [length] in Hpath. unfold DEPTH in Hp. lia. }
    assert (bits key = (p ++ [b]) ++ path) as Hpath' by (by rewrite <- app_assoc).
    assert (∀ c, length (p ++ [c]) + rem = DEPTH)%nat as Hp'
      by (intros; rewrite length_app; cbn [length]; lia).
    destruct (bit_at key (length p) =? 0); cbn in Hb; subst b; cbn [sibs negb]; f_equal.
    + rewrite Hlen. rewrite tree_split_r by done. by apply hash_range_spec.
    + rewrite (IH (p ++ [false]) path l) by done. apply sibs_ext. intros q _. symmetry.
      apply leaf_at_app_l. apply (seg_other p true _ q); [done|]. by rewrite <- app_assoc.
    + rewrite Hlen. rewrite tree_split_l by done. by apply hash_range_spec.
    + rewrite (IH (p ++ [true]) path r) by done. apply sibs_ext. intros q _. symmetry.
      apply leaf_at_app_r. apply (seg_other p false _ q); [done|]. by rewrite <- app_assoc.
Qed.

(** The verifier's fold, from the root down. *)
Definition combine (b : bool) (s h : list byte) : list byte :=
  if b then hash_pair s h else hash_pair h s.

Fixpoint up (path : list bool) (ss : list (list byte)) (acc : list byte) : list byte :=
  match path, ss with
  | b :: path, s :: ss => combine b s (up path ss acc)
  | _, _ => acc
  end.

Lemma up_snoc path ss b s acc :
  length path = length ss → up (path ++ [b]) (ss ++ [s]) acc = up path ss (combine b s acc).
Proof. revert ss. induction path as [|c path IH]; intros [|t ss] H; try done. cbn. f_equal. auto. Qed.

Lemma fold_proof_up n key proof acc :
  is32 key → length proof = DEPTH → (n ≤ DEPTH)%nat →
  fold_proof n key proof acc = up (take n (bits key)) (take n proof) acc.
Proof.
  intros Hk Hl. revert acc. induction n as [|i IH]; intros acc Hn; [done|].
  cbn [fold_proof]. rewrite IH by lia.
  destruct (lookup_lt_is_Some_2 proof i) as [s Hs]; [lia|].
  rewrite (take_S_r _ _ _ (bit_at_bits key i Hk ltac:(lia))), (take_S_r _ _ _ Hs), Hs.
  rewrite up_snoc.
  - cbn. unfold combine. by destruct (bit_at key i =? 0).
  - rewrite !length_take, length_bits, Hk, Hl. unfold DEPTH. lia.
Qed.

Lemma length_bits32 key : is32 key → length (bits key) = DEPTH.
Proof. intros Hk. by rewrite length_bits, Hk. Qed.

Lemma fold_proof_full key proof acc :
  is32 key → length proof = DEPTH → fold_proof DEPTH key proof acc = up (bits key) proof acc.
Proof.
  intros Hk Hl. rewrite fold_proof_up by done. rewrite !take_ge; [done| |].
  - by rewrite Hl.
  - by rewrite length_bits32.
Qed.

(** Completeness: the honest siblings lead from the leaf to the root. *)
Lemma up_sibs f p path : up path (sibs f p path) (f (p ++ path)) = tree f (length path) p.
Proof.
  revert p. induction path as [|b path IH]; intros p; cbn; [by rewrite app_nil_r|].
  specialize (IH (p ++ [b])). rewrite <- app_assoc in IH. cbn in IH. rewrite IH.
  by destruct b.
Qed.

(** [up] together with the inputs it hashes, outermost first. *)
Fixpoint up_trace (path : list bool) (ss : list (list byte)) (acc : list byte)
    : list byte * list (list byte) :=
  match path, ss with
  | b :: path, s :: ss =>
      let '(h, pre) := up_trace path ss acc in
      let x := if b : bool then s ++ h else h ++ s in (blake3 x, x :: pre)
  | _, _ => (acc, [])
  end.

Definition up_preimages (path : list bool) (ss : list (list byte)) (acc : list byte)
    : list (list byte) := (up_trace path ss acc).2.

Lemma up_trace_hash path ss acc : (up_trace path ss acc).1 = up path ss acc.
Proof.
  revert ss. induction path as [|b path IH]; intros [|s ss]; cbn; try done.
  specialize (IH ss). destruct (up_trace path ss acc) as [h pre]. cbn in *. subst. by destruct b.
Qed.

Lemma up_preimages_cons b path s ss acc :
  up_preimages (b :: path) (s :: ss) acc =
  (if b then s ++ up path ss acc else up path ss acc ++ s) :: up_preimages path ss acc.
Proof.
  unfold up_preimages. cbn. rewrite <- up_trace_hash. by destruct (up_trace path ss acc).
Qed.

Lemma up_32 path ss acc : is32 acc → is32 (up path ss acc).
Proof. intros H. destruct path as [|b path], ss; cbn; try done. destruct b; apply blake3_length. Qed.

(** Binding: without a collision, one root admits one leaf and one proof. *)
Lemma up_inj path ss ss' acc acc' :
  length ss = length path → length ss' = length path → Forall is32 ss → Forall is32 ss' →
  is32 acc → is32 acc' →
  collision_free_on (up_preimages path ss acc ++ up_preimages path ss' acc') →
  up path ss acc = up path ss' acc' → acc = acc' ∧ ss = ss'.
Proof.
  revert ss ss'. induction path as [|b path IH]; intros [|s ss] [|s' ss'] Hl Hl' H32 H32' Ha Ha' Hcf E;
    try done.
  apply Forall_cons_1 in H32 as [Hs Hss], H32' as [Hs' Hss'].
  injection Hl as Hl. injection Hl' as Hl'. rewrite !up_preimages_cons in Hcf. cbn in E, Hcf.
  pose proof (up_32 path ss acc Ha) as Hu. pose proof (up_32 path ss' acc' Ha') as Hu'.
  assert (s = s' ∧ up path ss acc = up path ss' acc') as [-> E'].
  { unfold combine, hash_pair in E. destruct b; apply Hcf in E; try (by left);
      try (apply elem_of_cons; right; apply elem_of_app; right; by left).
    - apply app_inj_1 in E as [-> ->]; [done|]. by rewrite Hs, Hs'.
    - apply app_inj_1 in E as [-> ->]; [done|]. by rewrite Hu, Hu'. }
  destruct (IH ss ss') as [-> ->]; try done.
  eapply collision_free_sub; [|exact Hcf]. set_solver.
Qed.

End Tree.

(** ** Sorting leaves by key *)

Section SortByKey.

Lemma insert_by_key_perm x l : insert_by_key x l ≡ₚ x :: l.
Proof.
  induction l as [|y l IH]; cbn; [done|]. destruct (bytes_ltb _ _); [|done]. rewrite IH. constructor.
Qed.

Lemma sort_by_key_perm l : sort_by_key l ≡ₚ l.
Proof. induction l as [|x l IH]; cbn; [done|]. by rewrite insert_by_key_perm, IH. Qed.

Definition key_lt (a b : list byte * list byte) : Prop := bytes_ltb a.1 b.1 = true.

Lemma insert_by_key_sorted x l :
  x.1 ∉ l.*1 → StronglySorted key_lt l → StronglySorted key_lt (insert_by_key x l).
Proof.
  intros Hx Hs. induction Hs as [|y l Hl IH Hy]; cbn; [repeat constructor|].
  apply not_elem_of_cons in Hx as [Hxy Hx]. destruct (bytes_ltb y.1 x.1) eqn:E.
  - constructor; [by apply IH|]. rewrite insert_by_key_perm. by constructor.
  - assert (bytes_ltb x.1 y.1 = true) as E'.
    { destruct (bytes_ltb x.1 y.1) eqn:E'; [done|]. by destruct Hxy; apply bytes_ltb_total. }
    constructor; [by constructor|]. constructor; [done|].
    eapply Forall_impl; [exact Hy|]. intros z. by apply bytes_ltb_trans.
Qed.

Lemma sort_by_key_sorted l : NoDup l.*1 → StronglySorted key_lt (sort_by_key l).
Proof.
  induction l as [|x l IH]; cbn; intros Hn; [constructor|].
  apply NoDup_cons in Hn as [Hx Hn]. apply insert_by_key_sorted; [|by apply IH].
  by rewrite (sort_by_key_perm l).
Qed.

(** With distinct keys the sorted list depends only on the set of leaves. *)
Lemma sort_by_key_unique l l' : NoDup l.*1 → l ≡ₚ l' → sort_by_key l = sort_by_key l'.
Proof.
  intros Hn Hp. assert (NoDup l'.*1) as Hn' by by rewrite <- Hp.
  pose proof (sort_by_key_sorted l Hn) as Hs. pose proof (sort_by_key_sorted l' Hn') as Hs'.
  assert (sort_by_key l ≡ₚ sort_by_key l') as Hq by by rewrite !sort_by_key_perm.
  clear -Hs Hs' Hq. revert Hs' Hq. generalize (sort_by_key l') as m'.
  induction Hs as [|x m Hm IH Hx]; intros m' Hs' Hq; [symmetry; by apply Permutation_nil|].
  destruct Hs' as [|y m' Hm' Hy]; [by apply Permutation_nil_r in Hq|].
  assert (x = y) as ->.
  { assert (x ∈ y :: m') as [->|Hxy]%elem_of_cons by (rewrite <- Hq; set_solver); [done|].
    assert (y ∈ x :: m) as [->|Hyx]%elem_of_cons by (rewrite Hq; set_solver); [done|].
    rewrite Forall_forall in Hx, Hy. pose proof (bytes_ltb_trans _ _ _ (Hx _ Hyx) (Hy _ Hxy)) as Hc.
    by rewrite bytes_ltb_irrefl in Hc. }
  f_equal. apply IH; [done|]. by apply Permutation_cons_inv in Hq.
Qed.

End SortByKey.

Section Trie.
Context `{B3 : Blake3, B3ok : !Blake3Ok}.

Definition wf_trie (t : SparseMerkleTrie) : Prop :=
  map_Forall (λ k h, is32 k ∧ is32 h) (leaves t).

Definition sorted_leaves (t : SparseMerkleTrie) : list (list byte * list byte) :=
  sort_by_key (map_to_list (leaves t)).

Lemma seg_ok_leaves t : wf_trie t → seg_ok [] (sorted_leaves t).
Proof.
  intros Hwf. split.
  - unfold sorted_leaves. rewrite sort_by_key_perm. apply Forall_forall. intros [k h] Hin.
    apply elem_of_map_to_list in Hin. destruct (Hwf _ _ Hin) as [Hk _]. split; [done|]. by eexists.
  - apply sort_by_key_sorted, NoDup_fst_map_to_list.
Qed.

(** The tree's leaf function reads the trie's map. *)
Lemma leaf_at_trie t key :
  wf_trie t → is32 key → leaf_at (sorted_leaves t) (bits key) = default EMPTY_HASH (leaves t !! key).
Proof.
  intros Hwf Hk. unfold leaf_at. destruct (list_find _ _) as [[i kv]|] eqn:E.
  - apply list_find_Some in E as (Hi & Hb & _). apply list_elem_of_lookup_2 in Hi.
    unfold sorted_leaves in Hi. rewrite sort_by_key_perm in Hi. destruct kv as [k h].
    apply elem_of_map_to_list in Hi. destruct (Hwf _ _ Hi) as [Hk' _]. cbn in *.
    apply bits_inj in Hb as ->; [|by rewrite Hk, Hk']. by rewrite Hi.
  - apply list_find_None in E. destruct (leaves t !! key) as [h|] eqn:Hl; [|done].
    apply elem_of_map_to_list in Hl. rewrite Forall_forall in E. destruct (E (key, h)); [|done].
    unfold sorted_leaves. by rewrite sort_by_key_perm.
Qed.

Lemma leaf_at_32 t q : wf_trie t → is32 (leaf_at (sorted_leaves t) q).
Proof.
  intros Hwf. unfold leaf_at. destruct (list_find _ _) as [[i [k h]]|] eqn:E; [|done].
  apply list_find_Some in E as (Hi & _ & _). apply list_elem_of_lookup_2 in Hi.
  unfold sorted_leaves in Hi. rewrite sort_by_key_perm in Hi. apply elem_of_map_to_list in Hi.
  by destruct (Hwf _ _ Hi).
Qed.

Lemma root_tree t : wf_trie t → root t = tree (leaf_at (sorted_leaves t)) DEPTH [].
Proof. intros Hwf. apply hash_range_spec; [done|]. by apply seg_ok_leaves. Qed.

(** The siblings [prove] returns, and that they lead to the root. *)
Definition honest_proof (t : SparseMerkleTrie) (key : list byte) : list (list byte) :=
  collect_siblings DEPTH (sorted_leaves t) key.

Lemma honest_proof_sibs t key : wf_trie t → is32 key →
  honest_proof t key = sibs (leaf_at (sorted_leaves t)) [] (bits key).
Proof. intros Hwf Hk. apply collect_siblings_spec; try done. by apply seg_ok_leaves. Qed.

Lemma honest_proof_length t key : wf_trie t → is32 key → length (honest_proof t key) = DEPTH.
Proof. intros Hwf Hk. by rewrite honest_proof_sibs, length_sibs, length_bits32. Qed.

Lemma honest_proof_32 t key : wf_trie t → is32 key → Forall is32 (honest_proof t key).
Proof.
  intros Hwf Hk. rewrite honest_proof_sibs by done. apply sibs_32. intros. by apply leaf_at_32.
Qed.

Lemma honest_proof_root t key : wf_trie t → is32 key →
  up (bits key) (honest_proof t key) (default EMPTY_HASH (leaves t !! key)) = root t.
Proof.
  intros Hwf Hk. rewrite honest_proof_sibs, <- leaf_at_trie, root_tree by done.
  rewrite <- (length_bits32 key Hk). apply (up_sibs _ []).
Qed.

Lemma leaf_hash_for_32 k a : is32 (leaf_hash_for k a).
Proof. unfold leaf_hash_for. destruct (is_empty a); [done|apply blake3_length]. Qed.

Lemma verify_proof_spec r addr a proof :
  verify_proof r addr a proof = true ↔ length proof = DEPTH
    ∧ up (bits (account_key_hash addr)) proof (leaf_hash_for (account_key_hash addr) a) = r.
Proof.
  unfold verify_proof. destruct (Nat.eqb_spec (length proof) DEPTH) as [Hl|Hl]; cbn [negb].
  - rewrite bool_decide_eq_true, fold_proof_full; [tauto|apply blake3_length|done].
  - split; [done|]. by intros [? _].
Qed.

(** Hash inputs of a claimed proof and of the honest one. *)
Definition proof_preimages (t : SparseMerkleTrie) (addr : string) (a : Account)
    (proof : list (list byte)) : list (list byte) :=
  let key := account_key_hash addr in
  up_preimages (bits key) proof (leaf_hash_for key a)
  ++ up_preimages (bits key) (honest_proof t key) (default EMPTY_HASH (leaves t !! key)).

(** A verifying proof carries the true leaf and the true siblings. *)
Lemma verify_proof_binding t addr a proof :
  wf_trie t → Forall is32 proof → collision_free_on (proof_preimages t addr a proof) →
  verify_proof (root t) addr a proof = true →
  let key := account_key_hash addr in
  leaf_hash_for key a = default EMPTY_HASH (leaves t !! key) ∧ proof = honest_proof t key.
Proof.
  intros Hwf H32 Hcf [Hl Hv]%verify_proof_spec key. fold key in Hv.
  assert (is32 key) as Hk by apply blake3_length.
  rewrite <- (honest_proof_root t key Hwf Hk) in Hv.
  eapply up_inj; [| | | | | |exact Hcf|exact Hv].
  - by rewrite length_bits32.
  - by rewrite length_bits32, honest_proof_length.
  - done.
  - by apply honest_proof_32.
  - apply leaf_hash_for_32.
  - destruct (leaves t !! key) as [h|] eqn:E; [|done]. by destruct (Hwf _ _ E).
Qed.

(** ** Building tries *)

Lemma trie_insert_wf t addr a : wf_trie t → wf_trie (trie_insert t addr a).
Proof.
  intros Hwf. unfold trie_insert, wf_trie. destruct (is_empty a); cbn.
  - by apply map_Forall_delete.
  - apply map_Forall_insert_2; [|done]. split; apply blake3_length.
Qed.

Lemma trie_insert_lookup t addr a key :
  leaves (trie_insert t addr a) !! key =
  if decide (key = account_key_hash addr)
  then (if is_empty a then None else Some (account_leaf_hash key a))
  else leaves t !! key.
Proof.
  unfold trie_insert. case_decide as E.
  - subst. destruct (is_empty a); cbn; [by rewrite lookup_delete_eq|by rewrite lookup_insert_eq].
  - destruct (is_empty a); cbn; [by rewrite lookup_delete_ne|by rewrite lookup_insert_ne].
Qed.

Definition trie_of_list (l : list (string * Account)) : SparseMerkleTrie :=
  foldl (λ t '(addr, a), trie_insert t addr a) trie_new l.

Lemma trie_of_list_wf l : wf_trie (trie_of_list l).
Proof.
  unfold trie_of_list. induction l as [|[addr a] l IH] using rev_ind; [apply map_Forall_empty|].
  rewrite foldl_app. cbn. by apply trie_insert_wf.
Qed.

(** The pair [compute_root] puts in its list for an account. *)
Definition leaf_pair (p : string * Account) : list byte * list byte :=
  (account_key_hash p.1, account_leaf_hash (account_key_hash p.1) p.2).

Lemma trie_of_list_leaves l :
  NoDup ((λ p, account_key_hash p.1) <$> l) →
  leaves (trie_of_list l) = list_to_map (leaf_pair <$> filter (λ p, is_empty p.2 = false) l).
Proof.
  unfold trie_of_list. induction l as [|[addr a] l IH] using rev_ind; intros Hn; [done|].
  rewrite fmap_app in Hn. apply NoDup_app in Hn as (Hn & Hx & _).
  rewrite foldl_app, filter_app, fmap_app. cbn [foldl]. set (t := foldl _ _ l) in *.
  assert (account_key_hash addr ∉ (leaf_pair <$> filter (λ p, is_empty p.2 = false) l).*1) as Hnew.
  { rewrite <- list_fmap_compose. intros (p & E & Hp)%list_elem_of_fmap. cbn in E.
    apply list_elem_of_filter in Hp as [_ Hp].
    apply (Hx (account_key_hash addr)).
    - apply list_elem_of_fmap. by exists p.
    - apply list_elem_of_fmap. exists (addr, a). split; [done|by left]. }
  unfold trie_insert. destruct (is_empty a) eqn:Ea; cbn [leaves].
  - rewrite filter_cons_False by (cbn; congruence). rewrite app_nil_r, IH by done.
    apply delete_id, not_elem_of_list_to_map, Hnew.
  - rewrite filter_cons_True by done. cbn [filter fmap list_fmap].
    rewrite IH by done. symmetry. by apply (list_to_map_snoc _ _ _ Hnew).
Qed.

(** The batch computation agrees with the trie filled one insert at a time, in
    any order, when no two addresses hash to the same key. *)
Lemma compute_root_trie accounts l :
  l ≡ₚ map_to_list accounts →
  NoDup ((λ p, account_key_hash p.1) <$> l) →
  compute_root accounts = root (trie_of_list l).
Proof.
  intros Hl Hn. unfold compute_root, root. rewrite trie_of_list_leaves by done.
  set (pairs := leaf_pair <$> filter (λ p, is_empty p.2 = false) l).
  assert (NoDup pairs.*1) as Hnd.
  { unfold pairs. rewrite <- list_fmap_compose.
    eapply sublist_NoDup; [exact Hn|].
    apply (fmap_sublist (fst ∘ leaf_pair)), sublist_filter. }
  rewrite <- (sort_by_key_unique pairs (map_to_list (list_to_map pairs))); [|done|].
  2: { symmetry. by apply map_to_list_to_map. }
  case_decide as He.
  - subst. rewrite map_to_list_empty in Hl. apply Permutation_nil_r in Hl as ->.
    change (sort_by_key pairs) with (@nil (list byte * list byte)).
    rewrite hash_range_nil by done. unfold empty_root. by rewrite empty_at_spec.
  - f_equal. rewrite (list_fmap_ext _ leaf_pair) by (by intros ? []).
    apply sort_by_key_unique; by rewrite <- Hl.
Qed.

(** No two addresses of [addrs] share a key. *)
Lemma keys_NoDup (l : list (string * Account)) :
  NoDup l.*1 → collision_free_on (as_bytes <$> l.*1) →
  NoDup ((λ p, account_key_hash p.1) <$> l).
Proof.
  intros Hn Hcf. change (NoDup (account_key_hash ∘ fst <$> l)). rewrite list_fmap_compose.
  apply NoDup_fmap_2_strong; [|done]. intros x y Hx Hy E. apply Hcf in E.
  - by apply as_bytes_inj.
  - by apply list_elem_of_fmap_2.
  - by apply list_elem_of_fmap_2.
Qed.

(** ** Leaves determine accounts *)

Definition wf_account (a : Account) : Prop :=
  in_u64 (balance a) ∧ in_u64 (nonce a) ∧
  match a with Contract c => is32 (ct_code_hash c) ∧ is32 (ct_storage_root c) | Eoa _ => True end.
#[export] Instance wf_account_dec a : Decision (wf_account a).
Proof. unfold wf_account, in_u64, is32. destruct a; apply _. Defined.

Lemma account_leaf_preimage_inj k a a' :
  is32 k → wf_account a → wf_account a' →
  account_leaf_preimage k a = account_leaf_preimage k a' → a = a'.
Proof.
  intros Hk Ha Ha' H. unfold account_leaf_preimage in H. apply app_inv_head in H.
  destruct a as [[b n]|[ch sr n b]], a' as [[b' n']|[ch' sr' n' b']];
    destruct Ha as (Hb & Hn & Hx), Ha' as (Hb' & Hn' & Hx'); cbn -[to_le_bytes] in *.
  - apply app_inj_1 in H as [H1 H2]; [|by rewrite !length_to_le_bytes].
    apply to_le_u64_inj in H1 as ->, H2 as ->; done.
  - apply (f_equal length) in H. cbn -[to_le_bytes] in H.
    rewrite !length_app, !length_to_le_bytes in H. destruct Hx' as [E1 E2]. rewrite E1, E2 in H. done.
  - apply (f_equal length) in H. cbn -[to_le_bytes] in H.
    rewrite !length_app, !length_to_le_bytes in H. destruct Hx as [E1 E2]. rewrite E1, E2 in H. done.
  - apply (f_equal tail) in H. cbn [tail] in H. destruct Hx as [E1 E2], Hx' as [E1' E2'].
    apply app_inj_1 in H as [-> H]; [|by rewrite E1, E1'].
    apply app_inj_1 in H as [-> H]; [|by rewrite E2, E2'].
    apply app_inj_1 in H as [H1 H2]; [|by rewrite !length_to_le_bytes].
    apply to_le_u64_inj in H1 as ->, H2 as ->; done.
Qed.

End Trie.

(** ** Paths as byte prefixes *)

Section Paths.

Lemma mask_bits b rem r : (rem < 8)%nat → (r < 8)%nat →
  bits_of_byte (byte_of (Z.land (byte_val b) (Z.land (Z.shiftl 255 (8 - Z.of_nat rem)) 255))) !! r
  = Some ((r <? rem)%nat && default false (bits_of_byte b !! r)).
Proof.
  intros Hm Hr.
  assert (forallb (λ b, forallb (λ rem, forallb (λ r, bool_decide (
    bits_of_byte (byte_of (Z.land (byte_val b) (Z.land (Z.shiftl 255 (8 - Z.of_nat rem)) 255))) !! r
    = Some ((r <? rem)%nat && default false (bits_of_byte b !! r)))) (seq 0 8)) (seq 0 8))
    all_bytes = true) as H by (vm_compute; reflexivity).
  pose proof (all_bytes2_spec (λ b rem, _) 8 H b rem Hm) as H1. cbv beta in H1.
  rewrite forallb_forall in H1. specialize (H1 r ltac:(apply in_seq; lia)).
  by apply bool_decide_eq_true in H1.
Qed.

Lemma set_bits b r : (r < 8)%nat →
  bits_of_byte (byte_of (Z.lor (byte_val b) (Z.shiftl 1 (7 - Z.of_nat r))))
  = <[r := true]> (bits_of_byte b).
Proof.
  intros Hr.
  assert (forallb (λ b, forallb (λ r, bool_decide (
    bits_of_byte (byte_of (Z.lor (byte_val b) (Z.shiftl 1 (7 - Z.of_nat r))))
    = <[r := true]> (bits_of_byte b))) (seq 0 8)) all_bytes = true) as H
    by (vm_compute; reflexivity).
  pose proof (all_bytes2_spec (λ b r, _) 8 H b r Hr) as H1. cbv beta in H1.
  by apply bool_decide_eq_true in H1.
Qed.

Lemma bits_zero_byte r : (r < 8)%nat → bits_of_byte x00 !! r = Some false.
Proof. intros. by do 8 (destruct r as [|r]; [done|]); lia. Qed.

Lemma bits_byte_some b r : (r < 8)%nat → ∃ v, bits_of_byte b !! r = Some v.
Proof. intros. by apply lookup_lt_is_Some_2. Qed.

Lemma path_prefix_32 key d : is32 key → (d ≤ DEPTH)%nat → is32 (path_prefix key d).
Proof.
  intros Hk Hd. unfold path_prefix, is32, DEPTH in *.
  assert (d / 8 ≤ 32)%nat by (apply Nat.Div0.div_le_upper_bound; lia).
  destruct (0 <? d mod 8)%nat; rewrite ?length_insert, length_app, length_take, length_replicate; lia.
Qed.

(** The byte prefix has the first [d] bits of the key and zeros after them. *)
Lemma bits_path_prefix key d : is32 key → (d ≤ DEPTH)%nat →
  bits (path_prefix key d) = take d (bits key) ++ replicate (DEPTH - d) false.
Proof.
  intros Hk Hd. pose proof (path_prefix_32 key d Hk Hd) as H32.
  apply list_eq. intros i. destruct (decide (i < DEPTH)%nat) as [Hi|Hi].
  2: { rewrite (lookup_ge_None_2 (bits _)) by (rewrite length_bits32 by done; lia).
       rewrite lookup_ge_None_2; [done|].
       rewrite length_app, length_take, length_replicate, length_bits32 by done. lia. }
  assert (i = 8 * (i / 8) + i mod 8)%nat as Ei by (apply Nat.div_mod_eq).
  assert (d = 8 * (d / 8) + d mod 8)%nat as Ed by (apply Nat.div_mod_eq).
  pose proof (Nat.mod_upper_bound i 8 ltac:(lia)). pose proof (Nat.mod_upper_bound d 8 ltac:(lia)).
  set (q := (i / 8)%nat) in *. set (r := (i mod 8)%nat) in *.
  assert (q < 32)%nat as Hq by (unfold DEPTH in *; lia).
  destruct (lookup_lt_is_Some_2 key q) as [b Hb]; [by rewrite Hk|].
  assert ((take d (bits key) ++ replicate (DEPTH - d) false) !! i
    = Some ((i <? d)%nat && default false (bits_of_byte b !! r))) as ->.
  { destruct (Nat.ltb_spec i d).
    - rewrite lookup_app_l by (rewrite length_take, length_bits32; [lia|done]).
      rewrite lookup_take_lt, lookup_bits by lia. fold q r. rewrite Hb. cbn [mbind option_bind andb].
      by destruct (bits_byte_some b r) as [v ->]; [lia|].
    - rewrite lookup_app_r by (rewrite length_take; lia).
      rewrite lookup_replicate_2; [done|]. rewrite length_take, length_bits32 by done. lia. }
  rewrite lookup_bits. fold q r. unfold path_prefix. fold q r.
  set (pre := take (d / 8) key ++ replicate (32 - d / 8) x00).
  assert (pre !! q = Some (if (q <? d / 8)%nat then b else x00)) as Hpre.
  { unfold pre. destruct (Nat.ltb_spec q (d / 8)).
    - by rewrite lookup_app_l, lookup_take_lt by (rewrite ?length_take, ?Hk; lia).
    - rewrite lookup_app_r by (rewrite length_take; lia).
      apply lookup_replicate_2. rewrite length_take, Hk. lia. }
  destruct (Nat.ltb_spec 0 (d mod 8)).
  - destruct (decide (q = d / 8)%nat) as [E|E].
    + rewrite <- E at 1. rewrite list_lookup_insert_eq by by apply lookup_lt_Some in Hpre.
      cbn [mbind option_bind]. rewrite <- E, Hb. cbn [default]. rewrite mask_bits by lia.
      f_equal. f_equal. destruct (Nat.ltb_spec r (d mod 8)), (Nat.ltb_spec i d); lia.
    + rewrite list_lookup_insert_ne, Hpre by done. cbn [mbind option_bind].
      destruct (Nat.ltb_spec q (d / 8)), (Nat.ltb_spec i d); try lia.
      * by destruct (bits_byte_some b r) as [v ->]; [lia|].
      * by apply bits_zero_byte.
  - rewrite Hpre. cbn [mbind option_bind].
    destruct (Nat.ltb_spec q (d / 8)), (Nat.ltb_spec i d); try lia.
    + by destruct (bits_byte_some b r) as [v ->]; [lia|].
    + by apply bits_zero_byte.
Qed.

Lemma bits_set_bit path i b : path !! (i / 8)%nat = Some b →
  bits (<[(i / 8)%nat := byte_of (Z.lor (byte_val b) (Z.shiftl 1 (7 - Z.of_nat (i mod 8))))]> path)
  = <[i := true]> (bits path).
Proof.
  intros Hb. apply list_eq. intros j. rewrite lookup_bits.
  pose proof (Nat.mod_upper_bound i 8 ltac:(lia)). pose proof (Nat.mod_upper_bound j 8 ltac:(lia)).
  pose proof (Nat.div_mod_eq i 8). pose proof (Nat.div_mod_eq j 8).
  assert (i < length (bits path))%nat as Hi.
  { rewrite length_bits. apply lookup_lt_Some in Hb. lia. }
  destruct (decide (i / 8 = j / 8)%nat) as [E|E].
  - rewrite <- E, list_lookup_insert_eq by by apply lookup_lt_Some in Hb.
    cbn [mbind option_bind]. rewrite set_bits by done.
    destruct (decide (i mod 8 = j mod 8)%nat) as [E'|E'].
    + assert (i = j) as <- by lia. rewrite !list_lookup_insert_eq; [done|done|].
      by rewrite length_bits_of_byte.
    + rewrite !list_lookup_insert_ne by congruence. rewrite lookup_bits, <- E, Hb. done.
  - rewrite !list_lookup_insert_ne by congruence. by rewrite lookup_bits.
Qed.

Lemma insert_app_replicate (l : list bool) n : (0 < n)%nat →
  <[length l := true]> (l ++ replicate n false) = l ++ true :: replicate (n - 1) false.
Proof.
  intros. destruct n as [|n]; [lia|]. rewrite insert_app_r_alt, Nat.sub_diag by lia.
  cbn. by rewrite Nat.sub_0_r.
Qed.

Definition key_bit (key : list byte) (level : nat) : bool := negb (bit_at key level =? 0).

Lemma bits_sibling_path key level : is32 key → (level < DEPTH)%nat →
  is32 (sibling_path key level) ∧
  bits (sibling_path key level)
  = take level (bits key) ++ negb (key_bit key level) :: replicate (DEPTH - S level) false.
Proof.
  intros Hk Hl. unfold sibling_path, key_bit.
  pose proof (path_prefix_32 key level Hk ltac:(lia)) as H32.
  pose proof (bits_path_prefix key level Hk ltac:(lia)) as Hb.
  assert (DEPTH - level = S (DEPTH - S level))%nat as Edl by lia.
  destruct (bit_at key level =? 0).
  - split; [unfold is32; by rewrite length_insert|].
    destruct (lookup_lt_is_Some_2 (path_prefix key level) (level / 8)) as [b E].
    { rewrite H32. apply Nat.Div0.div_lt_upper_bound. done. }
    rewrite E. cbn [default]. rewrite bits_set_bit, Hb by done.
    assert (length (take level (bits key)) = level) as El
      by (rewrite length_take, length_bits32 by done; lia).
    rewrite <- El at 1. rewrite insert_app_replicate by lia. rewrite Edl. cbn. by rewrite Nat.sub_0_r.
  - split; [done|]. by rewrite Hb, Edl.
Qed.

Lemma take_S_bits key level : is32 key → (level < DEPTH)%nat →
  take (S level) (bits key) = take level (bits key) ++ [key_bit key level].
Proof. intros Hk Hl. by rewrite (take_S_r _ _ _ (bit_at_bits key level Hk Hl)). Qed.

(** Every 256-bit path is the bits of a key. *)
Lemma bits_surj n (q : list bool) : length q = (8 * n)%nat → ∃ k, length k = n ∧ bits k = q.
Proof.
  revert q. induction n as [|n IH]; intros q Hq.
  { exists []. by destruct q. }
  do 8 (destruct q as [|? q]; [cbn in Hq; lia|]). cbn [length] in Hq.
  destruct (IH q ltac:(lia)) as (k & Hk & Hb).
  exists (byte_of (unbits [b; b0; b1; b2; b3; b4; b5; b6]) :: k). split; [cbn; by rewrite Hk|].
  unfold bits in *. cbn [mbind list_bind]. rewrite Hb. 
  by destruct b, b0, b1, b2, b3, b4, b5, b6.
Qed.

End Paths.

(** ** Recomputing the root from the proofs of the updated leaves *)

Section Updates.
Context `{B3 : Blake3, B3ok : !Blake3Ok}.

(** [π] is the byte form of a path of length [d]. *)
Definition canonical_path (d : nat) (π : list byte) : Prop :=
  is32 π ∧ (d ≤ DEPTH)%nat ∧ bits π = take d (bits π) ++ replicate (DEPTH - d) false.

Lemma canonical_path_inj d π π' :
  canonical_path d π → canonical_path d π' → take d (bits π) = take d (bits π') → π = π'.
Proof.
  intros (H32 & _ & E) (H32' & _ & E') H. apply bits_inj; [by rewrite H32, H32'|].
  by rewrite E, E', H.
Qed.

Lemma canonical_prefix key d : is32 key → (d ≤ DEPTH)%nat →
  canonical_path d (path_prefix key d) ∧ take d (bits (path_prefix key d)) = take d (bits key).
Proof.
  intros Hk Hd. rewrite bits_path_prefix by done.
  assert (length (take d (bits key)) = d) as Hl by (rewrite length_take, length_bits32 by done; lia).
  assert (take d (take d (bits key) ++ replicate (DEPTH - d) false) = take d (bits key)) as E
    by (by apply take_app_length').
  split; [|done]. split_and!; [by apply path_prefix_32|done|].
  rewrite bits_path_prefix by done. by rewrite E.
Qed.

Lemma canonical_sibling key level : is32 key → (level < DEPTH)%nat →
  canonical_path (S level) (sibling_path key level)
  ∧ take (S level) (bits (sibling_path key level)) = take level (bits key) ++ [negb (key_bit key level)].
Proof.
  intros Hk Hl. destruct (bits_sibling_path key level Hk Hl) as [H32 Hb].
  assert (take (S level) (bits (sibling_path key level))
    = take level (bits key) ++ [negb (key_bit key level)]) as E.
  { rewrite Hb, (cons_middle _ _ (replicate _ _)), app_assoc. apply take_app_length'.
    rewrite length_app, length_take, length_bits32 by done. cbn. lia. }
  split; [|done]. split_and!; [done|lia|]. by rewrite E, Hb, <- app_assoc.
Qed.

Lemma canonical_full key : is32 key → canonical_path DEPTH key.
Proof.
  intros Hk. split_and!; [done|done|]. rewrite Nat.sub_diag, app_nil_r, take_ge; [done|].
  by rewrite length_bits32.
Qed.

Lemma path_prefix_full key : is32 key → path_prefix key DEPTH = key.
Proof.
  intros Hk. destruct (canonical_prefix key DEPTH Hk ltac:(done)) as [Hc E].
  eapply canonical_path_inj; [exact Hc|by apply canonical_full|done].
Qed.

Variable f : list bool → list byte.

(** Every stored node holds the reference hash [g] assigns to its path, unless
    [skip] exempts it. *)
Definition nodes_ok (g : list bool → list byte) (skip : nat → list byte → Prop) (nodes : NodeMap)
    : Prop :=
  ∀ d π h, nodes !! (d, π) = Some h →
    canonical_path d π ∧ (¬ skip d π → h = tree g (DEPTH - d) (take d (bits π))).

Lemma nodes_ok_insert (nodes : NodeMap) g skip d π h :
  nodes_ok g skip nodes → canonical_path d π →
  (¬ skip d π → h = tree g (DEPTH - d) (take d (bits π))) →
  nodes_ok g skip (<[(d, π) := h]> nodes).
Proof.
  intros H Hc Hh d' π' h' Hl. destruct (decide ((d, π) = (d', π'))) as [[= <- <-]|Hne].
  - rewrite lookup_insert_eq in Hl. by injection Hl as <-.
  - rewrite lookup_insert_ne in Hl by done. by apply H.
Qed.

Lemma sibs_lookup g p path i b :
  path !! i = Some b →
  sibs g p path !! i = Some (tree g (length path - S i) (p ++ take i path ++ [negb b])).
Proof.
  revert p i. induction path as [|c path IH]; intros p [|i] H; cbn in *; try done.
  - injection H as ->. by rewrite Nat.sub_0_r.
  - rewrite (IH _ _ H). by rewrite <- app_assoc.
Qed.

(** *** Seeding *)

Lemma seed_siblings_ok (g : list bool → list byte) (key : list byte) (proof : list (list byte)) (nodes : NodeMap) (levels : list nat) :
  is32 key → proof = sibs g [] (bits key) → Forall (λ l, l < DEPTH)%nat levels →
  nodes_ok g (λ _ _, False) nodes →
  nodes_ok g (λ _ _, False) (foldl (λ m level,
    <[(S level, sibling_path key level) := default [] (proof !! level)]> m) nodes levels).
Proof.
  intros Hk -> Hl. revert nodes. induction Hl as [|l levels Hl _ IH]; intros nodes Hn; [done|].
  cbn [foldl]. apply IH. destruct (canonical_sibling key l Hk Hl) as [Hc E].
  apply nodes_ok_insert; [done|done|]. intros _.
  rewrite (sibs_lookup _ _ _ _ _ (bit_at_bits key l Hk Hl)). cbn [default].
  by rewrite E, length_bits32.
Qed.

(** All entries the chain of [key] will look up are present. *)
Definition has_path (nodes : NodeMap) (key : list byte) : Prop :=
  is_Some (nodes !! (DEPTH, key))
  ∧ ∀ level, (level < DEPTH)%nat → is_Some (nodes !! (S level, sibling_path key level)).

Lemma insert_mono (nodes : NodeMap) i h x : is_Some (nodes !! x) → is_Some (<[i := h]> nodes !! x).
Proof.
  intros H. destruct (decide (i = x)) as [->|]; [by rewrite lookup_insert_eq|].
  by rewrite lookup_insert_ne.
Qed.

Lemma has_path_insert nodes key i h : has_path nodes key → has_path (<[i := h]> nodes) key.
Proof.
  intros [H1 H2]. split; [|intros level Hl; specialize (H2 level Hl)]; by apply insert_mono.
Qed.

Lemma seed_siblings_has (key : list byte) (proof : list (list byte)) (nodes : NodeMap) (levels : list nat) x :
  (is_Some (nodes !! x) ∨ ∃ l, l ∈ levels ∧ x = (S l, sibling_path key l)) →
  is_Some (foldl (λ m level,
    <[(S level, sibling_path key level) := default [] (proof !! level)]> m) nodes levels !! x).
Proof.
  revert nodes. induction levels as [|l levels IH]; intros nodes H; cbn.
  - destruct H as [H|(l & Hl & _)]; [done|by apply not_elem_of_nil in Hl].
  - apply IH. destruct H as [H|(l' & [->|Hl']%elem_of_cons & ->)].
    + left. by apply insert_mono.
    + left. rewrite lookup_insert_eq. done.
    + right. eauto.
Qed.

Lemma seed_update_has nodes u : has_path (seed_update nodes u) (account_key_hash (lu_address u)).
Proof.
  unfold seed_update. split; [|intros level Hl]; apply seed_siblings_has.
  - left. rewrite lookup_insert_eq. done.
  - right. exists level. split; [|done]. apply elem_of_seq. lia.
Qed.

Lemma seed_update_mono nodes u x : is_Some (nodes !! x) → is_Some (seed_update nodes u !! x).
Proof.
  intros H. apply seed_siblings_has. left. by apply insert_mono.
Qed.

Lemma seed_update_ok nodes u :
  let key := account_key_hash (lu_address u) in
  lu_proof u = sibs f [] (bits key) → leaf_hash_for key (lu_pre u) = f (bits key) →
  nodes_ok f (λ _ _, False) nodes → nodes_ok f (λ _ _, False) (seed_update nodes u).
Proof.
  intros key Hp Hleaf Hn. assert (is32 key) as Hk by apply blake3_length.
  apply seed_siblings_ok; [done|done| |].
  - apply Forall_forall. intros l Hl%elem_of_seq. lia.
  - apply nodes_ok_insert; [done|by apply canonical_full|]. intros _. fold key. rewrite Hleaf, Nat.sub_diag.
    cbn. by rewrite take_ge by by rewrite length_bits32.
Qed.

Lemma seed_nodes_ok pre_root updates :
  (∀ u, u ∈ updates → let key := account_key_hash (lu_address u) in
     verify_proof pre_root (lu_address u) (lu_pre u) (lu_proof u) = true
     ∧ lu_proof u = sibs f [] (bits key) ∧ leaf_hash_for key (lu_pre u) = f (bits key)) →
  ∃ nodes, seed_nodes pre_root updates = Ok nodes ∧ nodes_ok f (λ _ _, False) nodes
    ∧ ∀ u, u ∈ updates → has_path nodes (account_key_hash (lu_address u)).
Proof.
  intros H. unfold seed_nodes.
  assert (∀ nodes, nodes_ok f (λ _ _, False) nodes → ∃ nodes',
    foldM (λ nodes u, if verify_proof pre_root (lu_address u) (lu_pre u) (lu_proof u)
      then Ok (seed_update nodes u) else Err WitnessVerificationFailed) nodes updates = Ok nodes'
    ∧ nodes_ok f (λ _ _, False) nodes' ∧ (∀ x, is_Some (nodes !! x) → is_Some (nodes' !! x))
    ∧ ∀ u, u ∈ updates → has_path nodes' (account_key_hash (lu_address u))) as Hgen.
  { induction updates as [|u us IH]; intros nodes Hn.
    { exists nodes. split_and!; try done. intros u Hu. by apply not_elem_of_nil in Hu. }
    cbn [foldM]. destruct (H u (list_elem_of_here _ _)) as (-> & Hp & Hl). cbn [mbind result_bind].
    destruct (IH ltac:(intros; apply H; by right) _ (seed_update_ok nodes u Hp Hl Hn))
      as (nodes' & E & Hok & Hmono & Hhas).
    exists nodes'. split_and!; [done|done| |].
    - intros x Hx. by apply Hmono, seed_update_mono.
    - intros u' [->|Hu']%elem_of_cons; [|by apply Hhas].
      destruct (seed_update_has nodes u) as [H1 H2]. split; [by apply Hmono|].
      intros level Hlv. by apply Hmono, H2. }
  destruct (Hgen ∅) as (nodes & E & Hok & _ & Hhas); [by intros ?? ? ?%lookup_empty_Some|].
  by exists nodes.
Qed.

(** *** The ancestor chain of one key *)

Variable g : list bool → list byte.

(** [key] lies below the node [(d, π)]. *)
Definition below (key : list byte) (d : nat) (π : list byte) : Prop :=
  take d (bits key) = take d (bits π).

(** Nodes above level [l] on the path of [key], or above a key of [todo], are
    not yet final. *)
Definition pending (todo : list (list byte)) (key : list byte) (l d : nat) (π : list byte) : Prop :=
  (d < DEPTH)%nat ∧ ((∃ k, k ∈ todo ∧ below k d π) ∨ ((d < l)%nat ∧ below key d π)).

Lemma below_parent k l d π : (l ≤ d)%nat → below k d π → below k l π.
Proof.
  unfold below. intros Hl H. apply (f_equal (take l)) in H.
  by rewrite !take_take, Nat.min_l in H.
Qed.

Lemma child_final todo key l nodes π h :
  is32 key → (l < DEPTH)%nat →
  nodes_ok g (pending todo key (S l)) nodes → nodes !! (S l, π) = Some h →
  (∀ k, k ∈ todo → ¬ below k l (path_prefix key l)) →
  take l (bits π) = take l (bits key) →
  h = tree g (DEPTH - S l) (take (S l) (bits π)).
Proof.
  intros Hk Hl Hn Hh Htodo Hpi. destruct (Hn _ _ _ Hh) as [_ Hv]. apply Hv.
  intros [_ [(k & Hin & Hb)|[Hlt _]]]; [|lia].
  apply (Htodo k Hin). apply (below_parent _ l) in Hb; [|lia]. unfold below in *.
  rewrite Hb, Hpi. symmetry. apply canonical_prefix; [done|lia].
Qed.

Lemma rehash_level_ok todo key nodes l :
  is32 key → (l < DEPTH)%nat → has_path nodes key →
  is_Some (nodes !! (S l, path_prefix key (S l))) →
  nodes_ok g (pending todo key (S l)) nodes →
  ∃ h, rehash_level key nodes l = Ok (<[(l, path_prefix key l) := h]> nodes)
    ∧ nodes_ok g (pending todo key l) (<[(l, path_prefix key l) := h]> nodes).
Proof.
  intros Hk Hl [_ Hsib] [hon Eon] Hn. destruct (Hsib l Hl) as [hoff Eoff].
  destruct (canonical_prefix key l Hk ltac:(lia)) as [Hc Ec].
  destruct (canonical_prefix key (S l) Hk ltac:(lia)) as [_ Eon'].
  destruct (canonical_sibling key l Hk Hl) as [_ Eoff'].
  assert (take l (bits (path_prefix key (S l))) = take l (bits key)) as Ton.
  { apply (f_equal (take l)) in Eon'. by rewrite !take_take, Nat.min_l in Eon' by lia. }
  assert (take l (bits (sibling_path key l)) = take l (bits key)) as Toff.
  { apply (f_equal (take l)) in Eoff'. rewrite take_take, Nat.min_l in Eoff' by lia. rewrite Eoff'.
    apply take_app_length'. rewrite length_take, length_bits32 by done. lia. }
  exists (combine (key_bit key l) hoff hon). split.
  { unfold rehash_level, combine, key_bit. destruct (bit_at key l =? 0);
      rewrite ?Eon, ?Eoff; cbn [ok_or mbind result_bind]; rewrite ?Eon, ?Eoff; done. }
  intros d π h Hlk. destruct (decide ((l, path_prefix key l) = (d, π))) as [[= <- <-]|Hne].
  - rewrite lookup_insert_eq in Hlk. injection Hlk as <-. split; [done|]. intros Hnp.
    assert (∀ k, k ∈ todo → ¬ below k l (path_prefix key l)) as Htodo.
    { intros k Hin Hb. apply Hnp. split; [done|]. left. eauto. }
    pose proof (child_final _ _ _ _ _ _ Hk Hl Hn Eon Htodo Ton) as Von.
    pose proof (child_final _ _ _ _ _ _ Hk Hl Hn Eoff Htodo Toff) as Voff.
    rewrite Eon', take_S_bits in Von by done. rewrite Eoff' in Voff.
    replace (DEPTH - l)%nat with (S (DEPTH - S l)) by lia. cbn [tree]. rewrite Ec, Von, Voff.
    by destruct (key_bit key l).
  - rewrite lookup_insert_ne in Hlk by done. destruct (Hn _ _ _ Hlk) as [Hc' Hv].
    split; [done|]. intros Hnp. apply Hv. intros [Hd [Hex|[Hdl Hb]]]; apply Hnp; (split; [done|]).
    + by left.
    + right. split; [|done]. destruct (decide (d = l)) as [->|]; [|lia]. exfalso. apply Hne.
      f_equal. apply (canonical_path_inj l); [done|done|]. unfold below in Hb. by rewrite Ec.
Qed.

Lemma rehash_chain_ok todo key n nodes :
  is32 key → (n ≤ DEPTH)%nat → has_path nodes key →
  is_Some (nodes !! (n, path_prefix key n)) →
  nodes_ok g (pending todo key n) nodes →
  ∃ nodes', foldM (rehash_level key) nodes (reverse (seq 0 n)) = Ok nodes'
    ∧ nodes_ok g (pending todo key 0) nodes'
    ∧ (∀ x, is_Some (nodes !! x) → is_Some (nodes' !! x))
    ∧ is_Some (nodes' !! (0%nat, path_prefix key 0)).
Proof.
  intros Hk. revert nodes. induction n as [|n IH]; intros nodes Hn Hp Hs Hok.
  { exists nodes. by split_and!. }
  rewrite seq_S, reverse_app. cbn [reverse app foldM]. change (0 + n)%nat with n.
  destruct (rehash_level_ok todo key nodes n) as (h & E & Hok'); [done|lia|done|done|done|].
  cbn [foldM app]. change (reverse [n]) with [n]. cbn [app foldM]. rewrite E. cbn [mbind result_bind].
  destruct (IH (<[(n, path_prefix key n):=h]> nodes)) as (nodes' & E' & Hok'' & Hmono & Hroot);
    [lia|by apply has_path_insert|by rewrite lookup_insert_eq|done|].
  exists nodes'. split_and!; [done|done| |done].
  intros x Hx. by apply Hmono, insert_mono.
Qed.

Lemma rehash_keys_ok (nodes : NodeMap) us :
  (∀ u, u ∈ us → has_path nodes (account_key_hash (lu_address u))) →
  nodes_ok g (λ d π, (d < DEPTH)%nat ∧ ∃ u, u ∈ us ∧ below (account_key_hash (lu_address u)) d π) nodes →
  ∃ nodes', foldM rehash_key nodes us = Ok nodes' ∧ nodes_ok g (λ _ _, False) nodes'
    ∧ (∀ x, is_Some (nodes !! x) → is_Some (nodes' !! x))
    ∧ (us ≠ [] → is_Some (nodes' !! (0%nat, zero32))).
Proof.
  revert nodes. induction us as [|u us IH]; intros nodes Hp Hok.
  { exists nodes. split_and!; try done. intros d π h Hl. destruct (Hok _ _ _ Hl) as [Hc Hv].
    split; [done|]. intros _. apply Hv. intros (_ & u & Hu & _). by apply not_elem_of_nil in Hu. }
  set (key := account_key_hash (lu_address u)). assert (is32 key) as Hk by apply blake3_length.
  cbn [foldM].
  change (rehash_key nodes u) with (foldM (rehash_level key) nodes (reverse (seq 0 DEPTH))).
  destruct (rehash_chain_ok ((λ u, account_key_hash (lu_address u)) <$> us) key DEPTH nodes)
    as (nodes1 & E1 & Hok1 & Hm1 & Hr1); [done|done|apply Hp; by left| | |].
  { rewrite path_prefix_full by done. apply Hp. by left. }
  { intros d π h Hl. destruct (Hok _ _ _ Hl) as [Hc Hv]. split; [done|]. intros Hnp. apply Hv.
    intros (Hd & u' & [->|Hu']%elem_of_cons & Hb); apply Hnp; (split; [done|]); [by right|].
    left. eexists. split; [by apply (list_elem_of_fmap_2 (λ u, account_key_hash (lu_address u)))|done]. }
  rewrite E1. cbn [mbind result_bind].
  destruct (IH nodes1) as (nodes2 & E2 & Hok2 & Hm2 & _).
  { intros u' Hu'. destruct (Hp u') as [H1 H2]; [by right|]. split; [by apply Hm1|].
    intros level Hlv. by apply Hm1, H2. }
  { intros d π h Hl. destruct (Hok1 _ _ _ Hl) as [Hc Hv]. split; [done|]. intros Hnp. apply Hv.
    intros [Hd [(k & (u' & -> & Hu')%list_elem_of_fmap & Hb)|[Hlt _]]]; [|lia].
    apply Hnp. split; [done|]. by exists u'. }
  exists nodes2. split_and!; [done|done| |].
  - intros x Hx. by apply Hm2, Hm1.
  - intros _. by apply Hm2.
Qed.

End Updates.

Section UpdatesTrie.
Context `{B3 : Blake3, B3ok : !Blake3Ok}.

(** The trie after writing every post-image. *)
Definition apply_updates (t : SparseMerkleTrie) (us : list LeafUpdate) : SparseMerkleTrie :=
  foldl (λ t u, trie_insert t (lu_address u) (lu_post u)) t us.

Lemma apply_updates_wf t us : wf_trie t → wf_trie (apply_updates t us).
Proof.
  unfold apply_updates. revert t. induction us as [|u us IH]; intros t Hwf; cbn; [done|].
  by apply IH, trie_insert_wf.
Qed.

Lemma apply_updates_other t us k :
  (∀ u, u ∈ us → account_key_hash (lu_address u) ≠ k) →
  leaves (apply_updates t us) !! k = leaves t !! k.
Proof.
  unfold apply_updates. revert t. induction us as [|u us IH]; intros t H; cbn; [done|].
  rewrite IH by (intros; apply H; by right). rewrite trie_insert_lookup, decide_False; [done|].
  intros ->. by apply (H u); [left|].
Qed.

Lemma trie_insert_leaf t addr a :
  default EMPTY_HASH (leaves (trie_insert t addr a) !! account_key_hash addr)
  = leaf_hash_for (account_key_hash addr) a.
Proof. rewrite trie_insert_lookup, decide_True by done. unfold leaf_hash_for. by destruct (is_empty a). Qed.

(** Leaf entries follow the trie; inner entries still hold the old tree. *)
Definition posts_inv (f : list bool → list byte) (t : SparseMerkleTrie) (nodes : NodeMap) : Prop :=
  ∀ d π h, nodes !! (d, π) = Some h → canonical_path d π
    ∧ (d = DEPTH → h = default EMPTY_HASH (leaves t !! π))
    ∧ ((d < DEPTH)%nat → h = tree f (DEPTH - d) (take d (bits π))).

Lemma write_posts_inv (nodes : NodeMap) f t us :
  posts_inv f t nodes → posts_inv f (apply_updates t us) (write_posts nodes us).
Proof.
  unfold apply_updates, write_posts. revert t nodes.
  induction us as [|u us IH]; intros t nodes H; cbn [foldl]; [done|]. apply IH. clear IH.
  set (key := account_key_hash (lu_address u)). assert (is32 key) as Hk by apply blake3_length.
  intros d π h Hl. destruct (decide ((DEPTH, key) = (d, π))) as [[= <- <-]|Hne].
  - rewrite lookup_insert_eq in Hl. injection Hl as <-. split_and!; [by apply canonical_full| |lia].
    intros _. symmetry. apply trie_insert_leaf.
  - rewrite lookup_insert_ne in Hl by done. destruct (H _ _ _ Hl) as (Hc & H1 & H2).
    split_and!; [done| |done]. intros ->. rewrite trie_insert_lookup, decide_False; [by apply H1|].
    intros ->. by apply Hne.
Qed.

Lemma write_posts_has (nodes : NodeMap) us key : has_path nodes key → has_path (write_posts nodes us) key.
Proof.
  unfold write_posts. revert nodes. induction us as [|u us IH]; intros nodes H; cbn [foldl]; [done|].
  by apply IH, has_path_insert.
Qed.

(** Off the paths of the updates the two tries have the same subtrees. *)
Lemma tree_updates t us d π :
  wf_trie t → (d ≤ DEPTH)%nat → is32 π →
  (∀ u, u ∈ us → ¬ below (account_key_hash (lu_address u)) d π) →
  tree (leaf_at (sorted_leaves t)) (DEPTH - d) (take d (bits π))
  = tree (leaf_at (sorted_leaves (apply_updates t us))) (DEPTH - d) (take d (bits π)).
Proof.
  intros Hwf Hd Hpi H. apply tree_ext. intros q Hq.
  assert (length (take d (bits π)) = d) as Hl by (rewrite length_take, length_bits32 by done; lia).
  destruct (bits_surj 32 (take d (bits π) ++ q)) as (k & Hk & Ek).
  { rewrite length_app, Hl, Hq. unfold DEPTH in *. lia. }
  rewrite <- Ek, !leaf_at_trie by (try done; by apply apply_updates_wf).
  rewrite apply_updates_other; [done|]. intros u Hu <-. apply (H u Hu). unfold below.
  rewrite Ek. by apply take_app_length'.
Qed.

Lemma posts_nodes_ok (nodes : NodeMap) t us :
  wf_trie t → posts_inv (leaf_at (sorted_leaves t)) (apply_updates t us) nodes →
  nodes_ok (leaf_at (sorted_leaves (apply_updates t us)))
    (λ d π, (d < DEPTH)%nat ∧ ∃ u, u ∈ us ∧ below (account_key_hash (lu_address u)) d π) nodes.
Proof.
  intros Hwf H d π h Hl. destruct (H _ _ _ Hl) as ((Hpi & Hd & Hc) & H1 & H2).
  split; [by split_and!|]. intros Hskip. destruct (decide (d = DEPTH)) as [->|Hne].
  - rewrite H1, Nat.sub_diag, take_ge by (try done; by rewrite length_bits32). cbn.
    by rewrite leaf_at_trie by (try done; by apply apply_updates_wf).
  - assert (d < DEPTH)%nat as Hlt by lia. rewrite H2 by done.
    apply tree_updates; [done|lia|done|]. intros u Hu Hb. apply Hskip. eauto.
Qed.

(** An update whose pre-image and siblings are the trie's own. *)
Definition honest_update (t : SparseMerkleTrie) (u : LeafUpdate) : Prop :=
  let key := account_key_hash (lu_address u) in
  lu_proof u = honest_proof t key ∧ leaf_hash_for key (lu_pre u) = default EMPTY_HASH (leaves t !! key).

Lemma honest_verifies t addr a :
  wf_trie t → leaf_hash_for (account_key_hash addr) a = default EMPTY_HASH (leaves t !! account_key_hash addr) →
  verify_proof (root t) addr a (honest_proof t (account_key_hash addr)) = true.
Proof.
  intros Hwf Hl. assert (is32 (account_key_hash addr)) as Hk by apply blake3_length.
  apply verify_proof_spec. rewrite honest_proof_length by done. split; [done|].
  by rewrite Hl, honest_proof_root.
Qed.

Lemma root_after_updates_honest t us :
  wf_trie t → (∀ u, u ∈ us → honest_update t u) →
  root_after_updates (root t) us = Ok (root (apply_updates t us)).
Proof.
  intros Hwf Hus. destruct us as [|u0 us0] eqn:Eus; [done|]. rewrite <- Eus in *.
  set (f := leaf_at (sorted_leaves t)).
  destruct (seed_nodes_ok f (root t) us) as (nodes & E & Hok & Hhas).
  { intros u Hu key. destruct (Hus u Hu) as [Hp Hleaf].
    assert (is32 key) as Hk by apply blake3_length. split_and!.
    - rewrite Hp. by apply honest_verifies.
    - by rewrite Hp, honest_proof_sibs.
    - unfold f. by rewrite leaf_at_trie. }
  assert (posts_inv f t nodes) as Hinv.
  { intros d π h Hl. destruct (Hok _ _ _ Hl) as [Hc Hv]. specialize (Hv ltac:(tauto)).
    split_and!; [done| |done]. intros ->. destruct Hc as (Hpi & _).
    rewrite Hv, Nat.sub_diag, take_ge by (by rewrite length_bits32). cbn. unfold f. by rewrite leaf_at_trie. }
  apply (write_posts_inv _ _ _ us) in Hinv. apply posts_nodes_ok in Hinv; [|done].
  destruct (rehash_keys_ok _ _ us (λ u Hu, write_posts_has nodes us _ (Hhas u Hu)) Hinv)
    as (nodes' & E' & Hok' & _ & Hroot).
  unfold root_after_updates. rewrite Eus. cbn [mbind result_bind]. rewrite <- Eus, E.
  cbn [mbind result_bind]. rewrite E'. cbn [mbind result_bind].
  destruct Hroot as [h Hh]; [by rewrite Eus|]. rewrite Hh. cbn [ok_or]. f_equal.
  destruct (Hok' _ _ _ Hh) as [_ Hv]. rewrite Hv by tauto.
  rewrite root_tree by (by apply apply_updates_wf). by rewrite Nat.sub_0_r.
Qed.

Lemma root_after_updates_trie t us :
  wf_trie t →
  (∀ u, u ∈ us → Forall is32 (lu_proof u)
     ∧ verify_proof (root t) (lu_address u) (lu_pre u) (lu_proof u) = true
     ∧ collision_free_on (proof_preimages t (lu_address u) (lu_pre u) (lu_proof u))) →
  root_after_updates (root t) us = Ok (root (apply_updates t us)).
Proof.
  intros Hwf Hus. apply root_after_updates_honest; [done|]. intros u Hu. destruct (Hus u Hu) as (H32 & Hv & Hcf).
  destruct (verify_proof_binding _ _ _ _ Hwf H32 Hcf Hv) as [Hleaf Hp]. by split.
Qed.

(** ** Receipts *)

Lemma receipt_leaves_spec rs :
  NoDup (receipt_leaves rs).*1
  ∧ Forall (λ kv, ∃ r, r ∈ rs ∧ kv.1 = rc_txid r) (receipt_leaves rs)
  ∧ ∀ i r, list_find (λ r', rc_txid r' = rc_txid r) rs = Some (i, r) →
      (rc_txid r, receipt_leaf_hash r) ∈ receipt_leaves rs.
Proof.
  unfold receipt_leaves. induction rs as [|x rs IH] using rev_ind.
  { split_and!; [constructor|constructor|done]. }
  destruct IH as (H1 & H2 & H3). rewrite foldl_app. cbn [foldl]. set (l := foldl _ [] rs) in *.
  assert (Forall (λ kv, ∃ r, r ∈ rs ++ [x] ∧ kv.1 = rc_txid r) l) as H2'.
  { eapply Forall_impl; [exact H2|]. intros kv (r & ? & ?). exists r. set_solver. }
  assert (∀ i r, list_find (λ r', rc_txid r' = rc_txid r) rs = Some (i, r) →
    (rc_txid r, receipt_leaf_hash r) ∈ l) as H3' by done.
  destruct (existsb _ l) eqn:E.
  - split_and!; [done|done|]. intros i r Hr. destruct (list_find (λ r', rc_txid r' = rc_txid r) rs)
      as [[j r']|] eqn:E'.
    + rewrite (list_find_app_l _ _ _ _ _ E') in Hr. injection Hr as <- <-. by apply (H3 j).
    + exfalso. rewrite list_find_app_r in Hr by done. cbn in Hr.
      case_decide as Hd; [|done]. cbn in Hr. injection Hr as _ <-.
      apply existsb_exists in E as (kv & Hin & Hkv). apply bool_decide_eq_true in Hkv.
      rewrite Forall_forall in H2. destruct (H2 kv) as (r & Hr & Hkr); [by apply list_elem_of_In|].
      apply list_find_None in E'. rewrite Forall_forall in E'. apply (E' r Hr). congruence.
  - assert (rc_txid x ∉ l.*1) as Hx.
    { intros (kv & Ekv & Hin)%list_elem_of_fmap. apply not_true_iff_false in E. apply E.
      apply existsb_exists. exists kv. split; [by apply list_elem_of_In|]. by apply bool_decide_eq_true. }
    split_and!.
    + rewrite fmap_app. apply NoDup_app. split_and!; [done| |apply NoDup_singleton].
      intros k Hk ->%list_elem_of_singleton. done.
    + apply Forall_app. split; [done|]. constructor; [|constructor]. exists x. set_solver.
    + intros i r Hr. apply elem_of_app. destruct (list_find (λ r', rc_txid r' = rc_txid r) rs)
        as [[j r']|] eqn:E'.
      * rewrite (list_find_app_l _ _ _ _ _ E') in Hr. injection Hr as <- <-. left. by apply (H3 j).
      * rewrite list_find_app_r in Hr by done. cbn in Hr. case_decide; [|done]. cbn in Hr.
        injection Hr as _ <-. right. by left.
Qed.

Lemma receipts_root_nonempty rs :
  rs ≠ [] → receipts_root rs = hash_range DEPTH (sort_by_key (receipt_leaves rs)).
Proof. destruct rs as [|r rs]; [intros H; destruct (H eq_refl)|intros _; reflexivity]. Qed.

Lemma leaf_at_in l k h :
  NoDup l.*1 → Forall (λ kv, is32 kv.1) l → (k, h) ∈ l → leaf_at (sort_by_key l) (bits k) = h.
Proof.
  intros Hn H32 Hin. unfold leaf_at. rewrite Forall_forall in H32.
  destruct (list_find _ _) as [[i [k' h']]|] eqn:E.
  - apply list_find_Some in E as (Hi & Hb & _). apply list_elem_of_lookup_2 in Hi.
    rewrite sort_by_key_perm in Hi. cbn in Hb. pose proof (H32 _ Hin) as Hk. pose proof (H32 _ Hi) as Hk'.
    apply bits_inj in Hb as ->; [|by rewrite Hk, Hk']. cbn.
    apply (elem_of_list_to_map_1 (M:=gmap (list byte)) _ _ _ Hn) in Hi, Hin. congruence.
  - apply list_find_None in E. rewrite Forall_forall in E. destruct (E (k, h)); [|done].
    by rewrite sort_by_key_perm.
Qed.

End UpdatesTrie.

(** ** The properties *)

Section Claims.
Context `{B3 : Blake3, B3ok : !Blake3Ok}.

(** The leaf of an address in the trie of a state. *)
Lemma trie_leaf (accounts : gmap string Account) (addr : string) :
  collision_free_on (as_bytes <$> addr :: (map_to_list accounts).*1) →
  let a := default account_default (accounts !! addr) in
  leaves (trie_of_list (map_to_list accounts)) !! account_key_hash addr
  = if is_empty a then None else Some (account_leaf_hash (account_key_hash addr) a).
Proof.
  intros Hkeys a.
  assert (NoDup ((λ p, account_key_hash p.1) <$> map_to_list accounts)) as Hnd.
  { apply keys_NoDup; [apply NoDup_fst_map_to_list|]. eapply collision_free_sub; [|exact Hkeys].
    cbn. set_solver. }
  rewrite trie_of_list_leaves by done.
  assert (∀ addr' a', (addr', a') ∈ map_to_list accounts → account_key_hash addr = account_key_hash addr' → addr' = addr) as Hinj.
  { intros addr' a' Hin E. apply Hkeys in E; [by apply as_bytes_inj in E|set_solver|].
    cbn. apply elem_of_cons. right. apply list_elem_of_fmap_2, list_elem_of_fmap. by exists (addr', a'). }
  destruct (is_empty a) eqn:Ee.
  - apply not_elem_of_list_to_map_1. rewrite <- list_fmap_compose.
    intros ([addr' a'] & E1 & [E2 Hin]%list_elem_of_filter)%list_elem_of_fmap. cbn in E1, E2.
    apply (Hinj addr' a' Hin) in E1 as ->. apply elem_of_map_to_list in Hin. unfold a in Ee.
    rewrite Hin in Ee. cbn in Ee. congruence.
  - apply elem_of_list_to_map_1.
    + rewrite <- list_fmap_compose. eapply sublist_NoDup; [exact Hnd|].
      apply (fmap_sublist (fst ∘ leaf_pair)), sublist_filter.
    + apply list_elem_of_fmap. exists (addr, a). split; [done|]. apply list_elem_of_filter.
      split; [done|]. apply elem_of_map_to_list. unfold a in *. by destruct (accounts !! addr).
Qed.

(** Leaves determine accounts, up to the empty ones. *)
Lemma leaf_exact `{B3e : !Blake3Empty} (key : list byte) (a b : Account) :
  is32 key → wf_account a → wf_account b →
  collision_free_on [[]; account_leaf_preimage key a; account_leaf_preimage key b] →
  leaf_hash_for key a = leaf_hash_for key b →
  a = b ∨ is_empty a = true ∧ is_empty b = true.
Proof.
  intros Hk Ha Hb Hcf E.
  assert (∀ x, account_leaf_preimage key x ≠ []) as Hn.
  { intros x. unfold account_leaf_preimage. intros [H0 _]%app_nil. by rewrite H0 in Hk. }
  unfold leaf_hash_for, account_leaf_hash in E. rewrite <- blake3_empty in E.
  destruct (is_empty a), (is_empty b); [by right|..].
  - apply Hcf in E; [|set_solver..]. by destruct (Hn b).
  - apply Hcf in E; [|set_solver..]. by destruct (Hn a).
  - left. apply Hcf in E; [|set_solver..]. by apply account_leaf_preimage_inj in E.
Qed.

(** [prove] returns the trie's own siblings, exactly for the account in the trie. *)
Lemma prove_ok t addr a proof :
  prove t addr a = Ok proof ↔ proof = honest_proof t (account_key_hash addr) ∧
    leaves t !! account_key_hash addr =
      if is_empty a then None else Some (account_leaf_hash (account_key_hash addr) a).
Proof.
  unfold prove, honest_proof, sorted_leaves. cbv zeta. set (key := account_key_hash addr).
  generalize (collect_siblings DEPTH (sort_by_key (map_to_list (leaves t))) key) as ss. intros ss.
  destruct (leaves t !! key) as [h|], (is_empty a); cbn;
    try (case_bool_decide; subst); cbn; (split; [intros [= <-]; by split|intros [-> ?]; congruence]).
Qed.

(** the batch [compute_root] over a map of accounts equals the root of the
    trie filled by [insert], in whatever order the accounts are inserted, when no
    two of the addresses hash to the same key. *)
Theorem compute_root_incremental (accounts : gmap string Account) (l : list (string * Account)) :
  l ≡ₚ map_to_list accounts →
  collision_free_on (as_bytes <$> l.*1) →
  compute_root accounts = root (trie_of_list l).
Proof.
  intros Hl Hcf. apply compute_root_trie; [done|]. apply keys_NoDup; [|done].
  rewrite Hl. apply NoDup_fst_map_to_list.
Qed.

(** completeness of proofs: whenever [prove] returns a proof for an account
    (or for its absence), it has 256 siblings and [verify_proof] accepts it against
    the trie's root; and [prove] returns one exactly when the claimed account is
    the one in the trie. *)
Theorem prove_verify_complete (l : list (string * Account)) (addr : string) (account : Account) :
  let t := trie_of_list l in
  (∀ proof, prove t addr account = Ok proof →
     length proof = DEPTH ∧ verify_proof (root t) addr account proof = true)
  ∧ (is_ok (prove t addr account) = true ↔
     leaves t !! account_key_hash addr =
       if is_empty account then None else Some (account_leaf_hash (account_key_hash addr) account)).
Proof.
  intros t. assert (wf_trie t) as Hwf by apply trie_of_list_wf. split.
  - intros proof [-> Hleaf]%prove_ok. assert (is32 (account_key_hash addr)) as Hk by apply blake3_length.
    rewrite honest_proof_length by done. split; [done|]. apply honest_verifies; [done|].
    rewrite Hleaf. unfold leaf_hash_for. by destruct (is_empty account).
  - split.
    + destruct (prove t addr account) as [p| |] eqn:E; [|done..]. intros _. by apply prove_ok in E as [_ ?].
    + intros H. by rewrite (proj2 (prove_ok t addr account _) (conj eq_refl H)).
Qed.

(** soundness of proofs: if [verify_proof] accepts a claimed account against
    the root of a state, then either the claimed account is exactly the account of
    that address, or both are empty -- unless one of the listed hash inputs
    collides.  A light client cannot be convinced of a wrong balance. *)
Theorem verify_proof_sound `{B3e : !Blake3Empty} (accounts : gmap string Account) (addr : string)
    (account : Account) (proof : list (list byte)) :
  let t := trie_of_list (map_to_list accounts) in
  let key := account_key_hash addr in
  wf_account account → map_Forall (λ _ a, wf_account a) accounts → Forall is32 proof →
  collision_free_on (as_bytes <$> addr :: (map_to_list accounts).*1) →
  collision_free_on (proof_preimages t addr account proof) →
  collision_free_on [[]; account_leaf_preimage key account;
    account_leaf_preimage key (default account_default (accounts !! addr))] →
  verify_proof (compute_root accounts) addr account proof = true →
  accounts !! addr = Some account
  ∨ is_empty account = true ∧ is_empty (default account_default (accounts !! addr)) = true.
Proof.
  intros t key Ha Hwf H32 Hkeys Hpre Hleaf Hv.
  assert (NoDup ((λ p, account_key_hash p.1) <$> map_to_list accounts)) as Hnd.
  { apply keys_NoDup; [apply NoDup_fst_map_to_list|]. eapply collision_free_sub; [|exact Hkeys].
    cbn. set_solver. }
  rewrite (compute_root_trie accounts (map_to_list accounts)) in Hv by done. fold t in Hv.
  destruct (verify_proof_binding t addr account proof (trie_of_list_wf _) H32 Hpre Hv) as [E _].
  unfold t in E. rewrite trie_leaf in E by done. fold key in E.
  set (b := default account_default (accounts !! addr)) in *.
  assert (wf_account b) as Hb.
  { unfold b. destruct (accounts !! addr) as [a|] eqn:Ea; [by apply (Hwf addr)|]. by_eval. }
  assert (leaf_hash_for key account = leaf_hash_for key b) as El
    by (rewrite E; unfold leaf_hash_for; by destruct (is_empty b)).
  destruct (leaf_exact key account b (blake3_length _) Ha Hb Hleaf El) as [->|?]; [|by right].
  unfold b. destruct (accounts !! addr); [by left|by right].
Qed.

(** C38: stateless root update: if every pre-image proof verifies against the
    pre-state root (and no hash input on those proofs collides), then
    [root_after_updates] succeeds and returns exactly the root of the pre-state
    trie with every post-image written in place. *)
Theorem root_after_updates_correct (l : list (string * Account)) (updates : list LeafUpdate) :
  let t := trie_of_list l in
  Forall (λ u, Forall is32 (lu_proof u)
     ∧ verify_proof (root t) (lu_address u) (lu_pre u) (lu_proof u) = true
     ∧ collision_free_on (proof_preimages t (lu_address u) (lu_pre u) (lu_proof u))) updates →
  root_after_updates (root t) updates
  = Ok (root (foldl (λ t u, trie_insert t (lu_address u) (lu_post u)) t updates)).
Proof.
  intros t H. apply root_after_updates_trie; [apply trie_of_list_wf|].
  by apply Forall_forall.
Qed.

(** an unverifiable pre-image is refused: if some proof does not verify
    against the pre-state root, [root_after_updates] fails with
    [WitnessVerificationFailed]. *)
Theorem root_after_updates_rejects (pre_root : list byte) (updates : list LeafUpdate) (u : LeafUpdate) :
  u ∈ updates → verify_proof pre_root (lu_address u) (lu_pre u) (lu_proof u) = false →
  root_after_updates pre_root updates = Err WitnessVerificationFailed.
Proof.
  intros Hin Hv. unfold root_after_updates. destruct updates as [|u0 us] eqn:E; [set_solver|].
  rewrite <- E in *. assert (∀ nodes, foldM (λ nodes u,
    if verify_proof pre_root (lu_address u) (lu_pre u) (lu_proof u)
    then Ok (seed_update nodes u) else Err WitnessVerificationFailed) nodes updates
    = Err WitnessVerificationFailed) as H.
  { clear E. induction updates as [|v vs IH]; intros nodes; [set_solver|]. cbn.
    apply elem_of_cons in Hin as [<-|Hin]; [by rewrite Hv|].
    destruct (verify_proof _ _ _ (lu_proof v)); cbn; [by apply IH|done]. }
  unfold seed_nodes. by rewrite H.
Qed.

(** every receipt of a block (the first with its txid) has a proof that
    verifies against the header's [receipts_root]. *)
Theorem receipt_proofs_complete (rs : list Receipt) (r : Receipt) (i : nat) :
  Forall (λ r, is32 (rc_txid r)) rs →
  list_find (λ r', rc_txid r' = rc_txid r) rs = Some (i, r) →
  ∃ proof, prove_receipt rs (rc_txid r) = Ok proof
    ∧ verify_receipt_proof (receipts_root rs) r proof = true.
Proof.
  intros H32 Hf. unfold prove_receipt. rewrite Hf. eexists. split; [done|].
  destruct (receipt_leaves_spec rs) as (Hn & Hin & Hl). specialize (Hl i r Hf).
  assert (r ∈ rs) as Hr by (apply list_find_Some in Hf as (Hr & _); by eapply list_elem_of_lookup_2).
  rewrite Forall_forall in H32.
  assert (Forall (λ kv, is32 kv.1) (receipt_leaves rs)) as Hk.
  { eapply Forall_impl; [exact Hin|]. intros kv (r' & Hr' & ->). by apply H32. }
  assert (seg_ok [] (sort_by_key (receipt_leaves rs))) as Hs.
  { split; [|by apply sort_by_key_sorted]. rewrite sort_by_key_perm.
    eapply Forall_impl; [exact Hk|]. intros kv Hkv. split; [done|]. by eexists. }
  assert (is32 (rc_txid r)) as Hk0 by by apply H32.
  rewrite (collect_siblings_spec DEPTH [] (bits (rc_txid r))) by done.
  unfold verify_receipt_proof. rewrite length_sibs, length_bits32, Nat.eqb_refl by done. cbn [negb].
  apply bool_decide_eq_true. rewrite fold_proof_full by (try done; by rewrite length_sibs, length_bits32).
  rewrite <- (leaf_at_in _ _ _ Hn Hk Hl).
  rewrite (up_sibs _ [] (bits (rc_txid r))), length_bits32 by done.
  rewrite receipts_root_nonempty by (intros ->; by apply not_elem_of_nil in Hr).
  symmetry. apply hash_range_spec; [reflexivity|exact Hs].
Qed.

End Claims.

(** ** Witnesses *)

Lemma toy_blake3_empty : @Blake3Empty toy_blake3.
Proof. constructor. reflexivity. Qed.

Definition sample_accounts : gmap string Account :=
  <["alice" := account_eoa 100 1]> (<["bob" := account_eoa 7 0]> ∅).

Definition sample_trie : SparseMerkleTrie := @trie_of_list toy_blake3 (map_to_list sample_accounts).

Definition sample_proof (addr : string) (a : Account) : list (list byte) :=
  match @prove toy_blake3 sample_trie addr a with Ok p => p | _ => [] end.

Lemma compute_root_incremental_witness :
  @compute_root toy_blake3 sample_accounts
  = @root toy_blake3 (@trie_of_list toy_blake3 (map_to_list sample_accounts)).
Proof.
  apply (@compute_root_incremental toy_blake3 sample_accounts (map_to_list sample_accounts)).
  - reflexivity.
  - by_eval.
Defined.

Lemma prove_verify_complete_witness :
  is_ok (@prove toy_blake3 sample_trie "alice" (account_eoa 100 1)) = true.
Proof.
  apply (@prove_verify_complete toy_blake3 toy_blake3_ok (map_to_list sample_accounts) "alice"
    (account_eoa 100 1)).
  vm_compute. reflexivity.
Defined.

Lemma verify_proof_sound_witness :
  sample_accounts !! "alice" = Some (account_eoa 100 1)
  ∨ is_empty (account_eoa 100 1) = true
    ∧ is_empty (default account_default (sample_accounts !! "alice")) = true.
Proof.
  apply (@verify_proof_sound toy_blake3 toy_blake3_ok toy_blake3_empty sample_accounts "alice"
    (account_eoa 100 1) (sample_proof "alice" (account_eoa 100 1))).
  - by_eval.
  - by_eval.
  - unfold is32. by_eval.
  - by_eval.
  - by_eval.
  - by_eval.
  - vm_compute. reflexivity.
Defined.

Definition sample_update : LeafUpdate := {|
  lu_address := "bob"; lu_pre := account_eoa 7 0; lu_proof := sample_proof "bob" (account_eoa 7 0);
  lu_post := account_eoa 9 0 |}.

Lemma root_after_updates_correct_witness :
  @root_after_updates toy_blake3 (@root toy_blake3 sample_trie) [sample_update]
  = Ok (@root toy_blake3 (@trie_insert toy_blake3 sample_trie "bob" (account_eoa 9 0))).
Proof.
  apply (@root_after_updates_correct toy_blake3 toy_blake3_ok (map_to_list sample_accounts)
    [sample_update]).
  apply Forall_singleton. split; [unfold is32; by_eval|]. split; [vm_compute; reflexivity|by_eval].
Defined.

Lemma root_after_updates_rejects_witness :
  @root_after_updates toy_blake3 zero32 [sample_update] = Err WitnessVerificationFailed.
Proof.
  apply (@root_after_updates_rejects toy_blake3 toy_blake3_ok zero32 [sample_update] sample_update).
  - left.
  - vm_compute. reflexivity.
Defined.

Lemma receipt_proofs_complete_witness :
  ∃ proof, @prove_receipt toy_blake3 [sample_receipt 0] (replicate 32 x01) = Ok proof
    ∧ @verify_receipt_proof toy_blake3 (@receipts_root toy_blake3 [sample_receipt 0])
        (sample_receipt 0) proof = true.
Proof.
  apply (@receipt_proofs_complete toy_blake3 toy_blake3_ok [sample_receipt 0] (sample_receipt 0) 0).
  - unfold is32. by_eval.
  - reflexivity.
Defined.
