(* ===== verification/State.v ===== *)
(** * State transition (state/inner.rs, state/contract_storage.rs, state/mod.rs)

    Accounts, contract storage, receipts and undo records; application of a block
    (transfers, deployments and calls through the VM interface) and its reversal.

    [State.clone] deep-copies the storage map, so a state is a plain value here
    and the [Arc<RwLock<..>>] handle its contents.  Iteration over a [HashMap] is
    iteration over [map_to_list].  The VM executor is a value threaded through the
    block; when a transition fails the working copy is dropped, as in the source. *)

From S2P Require Import Prelude Bytes Abi Types Address Serialize Consensus Emission SparseMerkle.
Open Scope Z_scope.

(** ** Contract storage overlay *)

Record ContractStorageOverlay := { entries : gmap (list byte) (option (list byte)) }.

Definition from_writes (writes : ContractStorage) : ContractStorageOverlay :=
  {| entries := Some <$> writes |}.

Definition preimages_of (o : ContractStorageOverlay) (base : ContractStorage)
    : list (list byte * option (list byte)) :=
  (λ '(key, _), (key, base !! key)) <$> map_to_list (entries o).

Definition apply_entry (storage : ContractStorage) (e : list byte * option (list byte))
    : ContractStorage :=
  match e.2 with Some value => <[e.1 := value]> storage | None => delete e.1 storage end.

Definition apply_to (o : ContractStorageOverlay) (storage : ContractStorage) : ContractStorage :=
  foldl apply_entry storage (map_to_list (entries o)).

(** ** State *)

(** [StorageUndoEntry]: contract, slot, value before the call. *)
Definition StorageUndoEntry : Type := (string * list byte * option (list byte))%type.

Record State := {
  balances : gmap string Account;
  contract_storage : ContractStorageMap;
  receipts : list Receipt;
  storage_undo : gmap (list byte) (list StorageUndoEntry);
  value_transfers_undo : gmap (list byte) (list ValueTransfer)
}.

Definition state_new : State :=
  {| balances := ∅; contract_storage := ∅; receipts := []; storage_undo := ∅;
     value_transfers_undo := ∅ |}.

Definition with_balances (s : State) (b : gmap string Account) : State :=
  {| balances := b; contract_storage := contract_storage s; receipts := receipts s;
     storage_undo := storage_undo s; value_transfers_undo := value_transfers_undo s |}.
Definition with_storage (s : State) (m : ContractStorageMap) : State :=
  {| balances := balances s; contract_storage := m; receipts := receipts s;
     storage_undo := storage_undo s; value_transfers_undo := value_transfers_undo s |}.
Definition with_receipts (s : State) (r : list Receipt) : State :=
  {| balances := balances s; contract_storage := contract_storage s; receipts := r;
     storage_undo := storage_undo s; value_transfers_undo := value_transfers_undo s |}.
Definition with_storage_undo (s : State) (u : gmap (list byte) (list StorageUndoEntry)) : State :=
  {| balances := balances s; contract_storage := contract_storage s; receipts := receipts s;
     storage_undo := u; value_transfers_undo := value_transfers_undo s |}.
Definition with_value_undo (s : State) (u : gmap (list byte) (list ValueTransfer)) : State :=
  {| balances := balances s; contract_storage := contract_storage s; receipts := receipts s;
     storage_undo := storage_undo s; value_transfers_undo := u |}.

(** [PartialEq for State]: balances and storage contents. *)
Definition state_eq (a b : State) : Prop :=
  balances a = balances b ∧ contract_storage a = contract_storage b.

Definition get_balance (s : State) (addr : string) : Z :=
  default 0 (balance <$> balances s !! addr).

Definition get_nonce (s : State) (addr : string) : Z :=
  default 0 (nonce <$> balances s !! addr).

Definition get_account (s : State) (addr : string) : option Account := balances s !! addr.

Definition total_supply (s : State) : Z :=
  sum64 ((λ p, balance p.2) <$> map_to_list (balances s)).

Definition prune_if_empty (s : State) (addr : string) : State :=
  match balances s !! addr with
  | Some account => if is_empty account then with_balances s (delete addr (balances s)) else s
  | None => s
  end.

(** [entry(addr).or_default()]. *)
Definition entry_or_default (s : State) (addr : string) : Account :=
  default account_default (balances s !! addr).

Definition set_balance (s : State) (addr : string) (b : Z) : State :=
  prune_if_empty (with_balances s
    (<[addr := account_set_balance (entry_or_default s addr) b]> (balances s))) addr.

Definition set_nonce (s : State) (addr : string) (n : Z) : State :=
  prune_if_empty (with_balances s
    (<[addr := account_set_nonce (entry_or_default s addr) n]> (balances s))) addr.

Definition set_account (s : State) (addr : string) (account : Account) : State :=
  if is_empty account then with_balances s (delete addr (balances s))
  else with_balances s (<[addr := account]> (balances s)).

(** ** Elementary moves *)

Definition deduct_sender (s : State) (tx : TransferTx) : result CoreError State :=
  let sender_balance := get_balance s (tr_from tx) in
  if sender_balance <? tr_amount tx
  then Err (InsufficientBalance (tr_from tx) sender_balance (tr_amount tx))
  else
    new_balance ← ok_or (checked_sub64 sender_balance (tr_amount tx)) StateOverflow;
    Ok (set_balance s (tr_from tx) new_balance).

Definition credit_receiver (s : State) (tx : TransferTx) : result CoreError State :=
  new_balance ← ok_or (checked_add64 (get_balance s (tr_to tx)) (tr_amount tx)) StateOverflow;
  Ok (set_balance s (tr_to tx) new_balance).

Definition increment_nonce (s : State) (tx : TransferTx) : State :=
  set_nonce s (tr_from tx) (add64 (get_nonce s (tr_from tx)) 1).

Definition debit_receiver (s : State) (tx : TransferTx) : result CoreError State :=
  new_balance ← ok_or (checked_sub64 (get_balance s (tr_to tx)) (tr_amount tx)) StateOverflow;
  Ok (set_balance s (tr_to tx) new_balance).

Definition credit_sender (s : State) (tx : TransferTx) : result CoreError State :=
  new_balance ← ok_or (checked_add64 (get_balance s (tr_from tx)) (tr_amount tx)) StateOverflow;
  Ok (set_balance s (tr_from tx) new_balance).

Definition decrement_nonce (s : State) (tx : TransferTx) : State :=
  set_nonce s (tr_from tx) (sub64 (get_nonce s (tr_from tx)) 1).

Definition commit_transfer (s : State) (t : ValueTransfer) : result CoreError State :=
  new_payer ← ok_or (checked_sub64 (get_balance s (vt_from t)) (vt_amount t)) StateOverflow;
  let s := set_balance s (vt_from t) new_payer in
  new_payee ← ok_or (checked_add64 (get_balance s (vt_to t)) (vt_amount t)) StateOverflow;
  Ok (set_balance s (vt_to t) new_payee).

Definition commit_value_transfers (s : State) (txid : list byte) (transfers : list ValueTransfer)
    : result CoreError State :=
  match transfers with
  | [] => Ok s
  | _ =>
    s ← foldM commit_transfer s transfers;
    Ok (with_value_undo s (<[txid := transfers]> (value_transfers_undo s)))
  end.

Definition reverse_transfer (s : State) (t : ValueTransfer) : result CoreError State :=
  new_payee ← ok_or (checked_sub64 (get_balance s (vt_to t)) (vt_amount t)) StateOverflow;
  let s := set_balance s (vt_to t) new_payee in
  new_payer ← ok_or (checked_add64 (get_balance s (vt_from t)) (vt_amount t)) StateOverflow;
  Ok (set_balance s (vt_from t) new_payer).

Definition reverse_value_transfers (s : State) (transfers : list ValueTransfer)
    : result CoreError State :=
  foldM reverse_transfer s (reverse transfers).

Section StateTransition.
Context `{HX : Hex, B3 : Blake3, B32 : Bech32}.

Definition root_from (o : ContractStorageOverlay) (base : ContractStorage) : list byte :=
  contract_storage_root (apply_to o base).

(** ** Contract storage *)

(** One contract scope of a frame's overlay: merges the writes, records the
    pre-images, refreshes the account's storage root. *)
Definition flush_scope (acc : State * list StorageUndoEntry) (scope : string * ContractStorage)
    : State * list StorageUndoEntry :=
  let '(s, undo) := acc in
  let '(address, writes) := scope in
  if decide (writes = ∅) then (s, undo) else
  match balances s !! address with
  | Some (Contract c) =>
      let overlay := from_writes writes in
      let storage := default ∅ (contract_storage s !! address) in
      let undo' := undo ++ ((λ '(key, preimage), (address, key, preimage)) <$>
                              preimages_of overlay storage) in
      let storage' := apply_to overlay storage in
      let account' := account_set_storage_root (Contract c) (contract_storage_root storage') in
      (with_balances (with_storage s (<[address := storage']> (contract_storage s)))
         (<[address := account']> (balances s)), undo')
  | _ => (s, undo)
  end.

Definition flush_storage_writes (s : State) (result : ExecutionResult) (txid : list byte) : State :=
  let '(s, undo) := foldl flush_scope (s, []) (map_to_list (ex_storage_overlay result)) in
  match undo with [] => s | _ => with_storage_undo s (<[txid := undo]> (storage_undo s)) end.

Definition restore_slot (m : ContractStorageMap) (e : StorageUndoEntry) : ContractStorageMap :=
  let '(contract, key, preimage) := e in
  <[contract := apply_entry (default ∅ (m !! contract)) (key, preimage)]> m.

(** The per-contract tail of [unapply_call_storage]. *)
Definition refresh_root (s : State) (contract : string) : State :=
  let m := contract_storage s in
  let m := if decide (m !! contract = Some ∅) then delete contract m else m in
  let root := match m !! contract with Some st => contract_storage_root st | None => zero32 end in
  let b := match balances s !! contract with
    | Some (Contract c) => <[contract := account_set_storage_root (Contract c) root]> (balances s)
    | _ => balances s end in
  with_balances (with_storage s m) b.

Definition unapply_call_storage (s : State) (txid : list byte) : State :=
  match storage_undo s !! txid with
  | None => s
  | Some undo_entries =>
    let s := with_storage_undo s (delete txid (storage_undo s)) in
    let s := with_storage s (foldl restore_slot (contract_storage s) undo_entries) in
    let touched : gset string := list_to_set ((λ e : StorageUndoEntry, e.1.1) <$> undo_entries) in
    foldl refresh_root s (elements touched)
  end.

(** ** Applying transactions *)

Definition validate_tx_chain_id (tx : Transaction) (chain_id : Z) : result CoreError unit :=
  if negb (tx_chain_id tx =? chain_id)
  then Err (InvalidChainId chain_id (tx_chain_id tx)) else Ok tt.

Definition transfer_receipt (tx : Transaction) (block : Block) (tx_index : Z)
    (value_transfers : list ValueTransfer) : Receipt :=
  {| rc_txid := txid tx; rc_gas_used := 0; rc_logs := []; rc_status := StSuccess;
     rc_block_height := b_index block; rc_tx_index := tx_index;
     rc_value_transfers := value_transfers |}.

Definition find_coinbase_receiver (block : Block) : string :=
  default "" (list_find (λ tx, is_coinbase tx = true) (b_transactions block)
              ≫= λ '(_, tx), receiver tx).

Context `{VM : VmExecutor V}.

(** The frame [apply_create] and [apply_call] hand to the executor. *)
Definition make_context (s : State) (block : Block) (caller callee : string)
    (value gas_limit : Z) (input : list byte) : ExecutionContext :=
  {| cx_block := header block; cx_accounts := balances s; cx_caller := caller;
     cx_callee := callee; cx_value := value; cx_gas_limit := gas_limit; cx_gas_used := 0;
     cx_depth := 0; cx_reentrant := false; cx_read_only := false;
     cx_block_context := {| bc_height := b_index block; bc_timestamp := b_timestamp block;
       bc_coinbase := find_coinbase_receiver block; bc_block_gas_limit := BLOCK_GAS_LIMIT |};
     cx_storage := contract_storage s; cx_storage_overlay := ∅;
     cx_storage_address := callee; cx_input := input |}.

Definition apply_create (s : State) (create : CreateTx) (chain_id : Z) (vm : V) (block : Block)
    (tx_index : Z) : result CoreError (State * V * Receipt) :=
  let from := cr_from create in
  let sender_nonce := get_nonce s from in
  address ← derive_contract_address from sender_nonce chain_id;
  if bool_decide (is_contract <$> get_account s address = Some true)
  then Err (InvalidContractDeploy ("contract address collision at `" +:+ address +:+ "`")) else
  let sender_balance := get_balance s from in
  if sender_balance <? cr_endowment create
  then Err (InsufficientBalance from sender_balance (cr_endowment create)) else
  let s := set_account s address (Contract {| ct_code_hash := blake3 (cr_init_code create);
             ct_storage_root := zero32; ct_nonce := 1; ct_balance := cr_endowment create |}) in
  let s := set_nonce s from (add64 sender_nonce 1) in
  vm ← map_err VmExecution (register_code vm address (cr_init_code create));
  let ctx := make_context s block from address (cr_endowment create) (cr_gas_limit create)
               (cr_init_args create) in
  let txid := txid (Create create) in
  match execute_constructor vm ctx with
  | Ok result =>
    if decide (ex_status result = StSuccess) then
      let s := flush_storage_writes s result txid in
      new_sender ← ok_or (checked_sub64 (get_balance s from) (cr_endowment create)) StateOverflow;
      let s := set_balance s from new_sender in
      s ← commit_value_transfers s txid (ex_value_transfers result);
      let value_transfers :=
        (if 0 <? cr_endowment create
         then [{| vt_from := from; vt_to := address; vt_amount := cr_endowment create |}] else [])
        ++ ex_value_transfers result in
      let r := from_execution txid (b_index block) tx_index result in
      Ok (s, vm, {| rc_txid := rc_txid r; rc_gas_used := rc_gas_used r; rc_logs := rc_logs r;
            rc_status := rc_status r; rc_block_height := rc_block_height r;
            rc_tx_index := rc_tx_index r; rc_value_transfers := value_transfers |})
    else
      Ok (set_account s address account_default, vm,
          from_execution txid (b_index block) tx_index result)
  | Err vm_error =>
      Ok (set_account s address account_default, vm,
          from_vm_error txid (b_index block) tx_index vm_error (cr_gas_limit create))
  | Panic => Panic
  end.

Definition apply_call (s : State) (block : Block) (call : CallTx) (vm : V) (tx_index : Z)
    : result CoreError (State * Receipt) :=
  let from := ca_from call in
  let sender_balance := get_balance s from in
  if sender_balance <? ca_value call
  then Err (InsufficientBalance from sender_balance (ca_value call)) else
  let s := set_nonce s from (add64 (get_nonce s from) 1) in
  let txid := txid (Call call) in
  if negb (bool_decide (is_contract <$> get_account s (ca_to call) = Some true)) then
    let value_transfers :=
      if 0 <? ca_value call
      then [{| vt_from := from; vt_to := ca_to call; vt_amount := ca_value call |}] else [] in
    s ← commit_value_transfers s txid value_transfers;
    Ok (s, {| rc_txid := txid; rc_gas_used := 0; rc_logs := []; rc_status := StSuccess;
              rc_block_height := b_index block; rc_tx_index := tx_index;
              rc_value_transfers := value_transfers |})
  else
  let ctx := make_context s block from (ca_to call) (ca_value call) (ca_gas_limit call)
               (ca_data call) in
  match execute vm ctx with
  | Ok result =>
      s ← (if decide (ex_status result = StSuccess) then
             s ← commit_value_transfers s txid (ex_value_transfers result);
             Ok (flush_storage_writes s result txid)
           else Ok s);
      Ok (s, from_execution txid (b_index block) tx_index result)
  | Err vm_error =>
      Ok (s, from_vm_error txid (b_index block) tx_index vm_error (ca_gas_limit call))
  | Panic => Panic
  end.

(** Working state of a block: state, executor, receipts so far. *)
Definition Work : Type := State * option V * list Receipt.

(** One iteration of the second loop of [apply_non_genesis]. *)
Definition apply_tx (block : Block) (chain_id : Z) (w : Work) (itx : Z * Transaction)
    : result CoreError Work :=
  let '(s, vm, receipts) := w in
  let '(tx_index, tx) := itx in
  if is_coinbase tx then Ok w else
  match tx with
  | Transfer transfer =>
      s ← deduct_sender s transfer;
      s ← credit_receiver s transfer;
      let s := increment_nonce s transfer in
      Ok (s, vm, receipts ++ [transfer_receipt tx block tx_index
            [{| vt_from := tr_from transfer; vt_to := tr_to transfer;
                vt_amount := tr_amount transfer |}]])
  | Create create =>
      match vm with
      | None => Err (UnsupportedTxType "create transactions require a VM executor (S1.5-P14)")
      | Some vm =>
          '(s, vm, receipt) ← apply_create s create chain_id vm block tx_index;
          Ok (s, Some vm, receipts ++ [receipt])
      end
  | Call call =>
      match vm with
      | None => Err (UnsupportedTxType "call transactions require a VM executor (S1.5-P14)")
      | Some vm =>
          '(s, receipt) ← apply_call s block call vm tx_index;
          Ok (s, Some vm, receipts ++ [receipt])
      end
  end.

(** [block.transactions.iter().enumerate()], the index cast to [u32]. *)
Definition enumerate (txs : list Transaction) : list (Z * Transaction) :=
  imap (λ i tx, (Z.of_nat i mod two32, tx)) txs.

Definition apply_genesis_tx (block : Block) (chain_id : Z) (w : Work) (itx : Z * Transaction)
    : result CoreError Work :=
  let '(s, vm, receipts) := w in
  let '(tx_index, tx) := itx in
  _ ← validate_tx_chain_id tx chain_id;
  match tx with
  | Transfer transfer =>
      s ← credit_receiver s transfer;
      Ok (s, vm, receipts ++ [transfer_receipt tx block tx_index []])
  | _ => Err (UnsupportedTxType "create/call transactions are not supported at genesis")
  end.

Definition apply_genesis (w : Work) (block : Block) (chain_id : Z) : result CoreError Work :=
  foldM (apply_genesis_tx block chain_id) w (enumerate (b_transactions block)).

Definition apply_non_genesis (w : Work) (block : Block) (chain_id : Z) : result CoreError Work :=
  let '(s, vm, receipts) := w in
  _ ← foldM (λ _ tx, validate_tx_chain_id tx chain_id) tt (b_transactions block);
  let expected_reward :=
    block_reward_at_height_for_chain (b_index block) (total_supply s) chain_id in
  '(coinbase_index, coinbase_tx) ←
    ok_or (list_find (λ tx, is_coinbase tx = true) (b_transactions block))
      (InvalidCoinbaseAmount expected_reward 0);
  coinbase_transfer ← (match coinbase_tx with
    | Transfer transfer => Ok transfer
    | _ => Err (UnsupportedTxType "coinbase must be a transfer transaction")
    end);
  if expected_reward <? tr_amount coinbase_transfer
  then Err (InvalidCoinbaseAmount expected_reward (tr_amount coinbase_transfer)) else
  s ← credit_receiver s coinbase_transfer;
  let receipts := receipts ++
    [transfer_receipt coinbase_tx block (Z.of_nat coinbase_index mod two32) []] in
  foldM (apply_tx block chain_id) (s, vm, receipts) (enumerate (b_transactions block)).

Definition apply_block_inner (s : State) (block : Block) (chain_id : Z) (vm : option V)
    : result CoreError (State * option V) :=
  let w : Work := (with_receipts s [], vm, []) in
  '(s, vm, rs) ← (if b_index block =? 0 then apply_genesis w block chain_id
                  else apply_non_genesis w block chain_id);
  Ok (with_receipts s rs, vm).

Definition apply_block_with_vm (s : State) (block : Block) (chain_id : Z) (vm : V)
    : result CoreError (State * option V) :=
  apply_block_inner s block chain_id (Some vm).

(** ** Reversal *)

Definition unapply_genesis_tx (s : State) (tx : Transaction) : result CoreError State :=
  match tx with
  | Transfer transfer => debit_receiver s transfer
  | _ => Err (UnsupportedTxType "create/call transactions are not supported at genesis")
  end.

(** [receipts.iter().find(|r| r.txid == txid).map(..).unwrap_or(true)]. *)
Definition was_success (s : State) (id : list byte) : bool :=
  match list_find (λ r, rc_txid r = id) (receipts s) with
  | Some (_, r) => bool_decide (rc_status r = StSuccess)
  | None => true
  end.

Definition unapply_create (s : State) (create : CreateTx) (chain_id : Z) : result CoreError State :=
  let from := cr_from create in
  let id := txid (Create create) in
  n ← ok_or (checked_sub64 (get_nonce s from) 1) StateOverflow;
  address ← derive_contract_address from n chain_id;
  let success := was_success s id in
  let s := unapply_call_storage s id in
  s ← (if success then
         s ← (match value_transfers_undo s !! id with
              | Some transfers =>
                  reverse_value_transfers
                    (with_value_undo s (delete id (value_transfers_undo s))) transfers
              | None => Ok s
              end);
         new_balance ← ok_or (checked_add64 (get_balance s from) (cr_endowment create)) StateOverflow;
         Ok (set_balance s from new_balance)
       else Ok (with_value_undo s (delete id (value_transfers_undo s))));
  let s := set_account s address account_default in
  let s := with_storage s (delete address (contract_storage s)) in
  Ok (set_nonce s from n).

Definition unapply_call (s : State) (call : CallTx) : result CoreError State :=
  let from := ca_from call in
  let id := txid (Call call) in
  n ← ok_or (checked_sub64 (get_nonce s from) 1) StateOverflow;
  let s := set_nonce s from n in
  s ← (if was_success s id then
         match value_transfers_undo s !! id with
         | Some transfers =>
             reverse_value_transfers
               (with_value_undo s (delete id (value_transfers_undo s))) transfers
         | None =>
             if 0 <? ca_value call then
               reverse_value_transfers s
                 [{| vt_from := from; vt_to := ca_to call; vt_amount := ca_value call |}]
             else Ok s
         end
       else Ok s);
  Ok (unapply_call_storage s id).

Definition unapply_tx (chain_id : Z) (s : State) (tx : Transaction) : result CoreError State :=
  match tx with
  | Transfer transfer =>
      if tr_is_coinbase transfer then debit_receiver s transfer
      else
        let s := decrement_nonce s transfer in
        s ← debit_receiver s transfer;
        credit_sender s transfer
  | Create create => unapply_create s create chain_id
  | Call call => unapply_call s call
  end.

Definition unapply_block (s : State) (block : Block) (chain_id : Z) : result CoreError State :=
  s ← (if b_index block =? 0
       then foldM unapply_genesis_tx s (reverse (b_transactions block))
       else foldM (unapply_tx chain_id) s (reverse (b_transactions block)));
  Ok (with_receipts s []).

(** ** Post-state roots (state/mod.rs) *)

Definition check_state_root (new_state : State) (block : Block) (allow_zero_state_root : bool)
    : result CoreError (list byte) :=
  let computed := compute_root (balances new_state) in
  if decide (b_state_root block = zero32) then
    if (b_index block =? 0) || allow_zero_state_root then Ok computed
    else Err (StateRootMismatch zero32 computed)
  else if decide (b_state_root block = computed) then Ok computed
  else Err (StateRootMismatch (b_state_root block) computed).

Definition root_after_with_vm (s : State) (block : Block) (chain_id : Z)
    (allow_zero_state_root : bool) (vm : V) : result CoreError (list byte) :=
  '(new_state, _) ← apply_block_with_vm s block chain_id vm;
  check_state_root new_state block allow_zero_state_root.

End StateTransition.

(** ** The transfer-only path *)

(** The executor stand-in [NoVm]: never reached, since the transfer-only path
    passes no executor. *)
Inductive NoVm := no_vm.
Definition no_vm_error : VmError := HostFunctionError "apply_block" "no VM executor available".
#[export] Instance NoVm_executor : VmExecutor NoVm := {|
  execute _ _ := Err no_vm_error;
  execute_constructor _ _ := Err no_vm_error;
  register_code _ _ _ := Err no_vm_error
|}.

Section TransferOnly.
Context `{HX : Hex, B3 : Blake3, B32 : Bech32}.

Definition apply_block (s : State) (block : Block) (chain_id : Z) : result CoreError State :=
  fst <$> apply_block_inner (V:=NoVm) s block chain_id None.

Definition root_after (s : State) (block : Block) (chain_id : Z) (allow_zero_state_root : bool)
    : result CoreError (list byte) :=
  new_state ← apply_block s block chain_id;
  check_state_root new_state block allow_zero_state_root.

Definition compute_state_root (accounts : gmap string Account) : list byte := compute_root accounts.

End TransferOnly.
