(* ===== verification/StateViews.v ===== *)
(** * Pointwise view of the state

    A state is observed through three functions on addresses, the balance, the
    nonce and the contract body, next to the storage map and the undo maps.  On
    solid states (no account that pruning would drop) these determine the account
    map, and every mutator changes one component only. *)

From S2P Require Import Prelude Bytes Abi Types Address Serialize Consensus Emission SparseMerkle State.
Open Scope Z_scope.

(** ** Invariants *)

(** An account pruning keeps: an EOA in use, or a contract with code. *)
Definition solid_account (a : Account) : Prop :=
  match a with Eoa _ => is_empty a = false | Contract c => ct_code_hash c ≠ zero32 end.

Definition solid (s : State) : Prop := map_Forall (λ _ a, solid_account a) (balances s).

(** Balances and nonces are [u64]s. *)
Definition in_range (s : State) : Prop :=
  map_Forall (λ _ a, in_u64 (balance a) ∧ in_u64 (nonce a)) (balances s).

#[export] Instance solid_account_dec a : Decision (solid_account a).
Proof. destruct a; cbn; apply _. Defined.
#[export] Instance solid_dec s : Decision (solid s).
Proof. unfold solid. apply _. Defined.
#[export] Instance in_range_dec s : Decision (in_range s).
Proof. unfold in_range, in_u64. apply _. Defined.

(** ** Views *)

Abbreviation bal := get_balance.
Abbreviation non := get_nonce.

(** Code hash and storage root of a contract account. *)
Definition account_body (a : Account) : option (list byte * list byte) :=
  match a with Eoa _ => None | Contract c => Some (ct_code_hash c, ct_storage_root c) end.

Definition body (s : State) (a : string) : option (list byte * list byte) :=
  balances s !! a ≫= account_body.

Definition upd {A} (f : string → A) (k : string) (v : A) : string → A :=
  λ a, if decide (a = k) then v else f a.

Lemma upd_eq {A} (f : string → A) k v : upd f k v k = v.
Proof. unfold upd. by rewrite decide_True. Qed.
Lemma upd_ne {A} (f : string → A) k v a : a ≠ k → upd f k v a = f a.
Proof. intros. unfold upd. by rewrite decide_False. Qed.

Lemma account_ext (x y : Account) :
  balance x = balance y → nonce x = nonce y → account_body x = account_body y → x = y.
Proof.
  destruct x as [[] | []], y as [[] | []]; cbn; intros; simplify_eq; done.
Qed.

Lemma default_not_solid x :
  balance x = 0 → nonce x = 0 → account_body x = None → ¬ solid_account x.
Proof. destruct x as [[b n] | c]; [|done]. cbn. by intros -> ->. Qed.

(** On solid states the views determine the accounts. *)
Lemma solid_ext s t :
  solid s → solid t →
  (∀ a, bal s a = bal t a) → (∀ a, non s a = non t a) → (∀ a, body s a = body t a) →
  balances s = balances t.
Proof.
  intros Hs Ht Hb Hn Hc. apply map_eq. intros a.
  specialize (Hb a). specialize (Hn a). specialize (Hc a).
  unfold get_balance, get_nonce, body in *.
  destruct (balances s !! a) as [x|] eqn:Ex, (balances t !! a) as [y|] eqn:Ey; cbn in *.
  - f_equal. by apply account_ext.
  - by destruct (default_not_solid x Hb Hn Hc (Hs _ _ Ex)).
  - by destruct (default_not_solid y (eq_sym Hb) (eq_sym Hn) (eq_sym Hc) (Ht _ _ Ey)).
  - done.
Qed.

(** Everything but the accounts. *)
Definition rest (s : State) := with_balances s ∅.

Lemma state_ext s t : balances s = balances t → rest s = rest t → s = t.
Proof. destruct s, t. unfold rest, with_balances. cbn. intros -> H. by injection H as -> -> -> ->. Qed.

Lemma rest_fields s t :
  rest s = rest t →
  contract_storage s = contract_storage t ∧ receipts s = receipts t ∧
  storage_undo s = storage_undo t ∧ value_transfers_undo s = value_transfers_undo t.
Proof. destruct s, t. unfold rest, with_balances. cbn. intros H. by injection H. Qed.

(** ** Mutators *)

Definition stable_account (a : Account) : Prop :=
  match a with Eoa _ => True | Contract c => ct_code_hash c ≠ zero32 end.

Lemma stable_empty a :
  stable_account a → is_empty a = true → balance a = 0 ∧ nonce a = 0 ∧ account_body a = None.
Proof.
  destruct a as [[b n] | c]; cbn.
  - intros _ [?%Z.eqb_eq ?%Z.eqb_eq]%andb_true_iff. done.
  - intros Hc H. rewrite bool_decide_eq_false_2 in H by done.
    rewrite andb_false_r in H. done.
Qed.

Lemma stable_entry s a : solid s → stable_account (entry_or_default s a).
Proof.
  intros H. unfold entry_or_default. destruct (balances s !! a) as [x|] eqn:E; [|done].
  specialize (H a x E). by destruct x.
Qed.

(** The common shape of [set_balance], [set_nonce] and [set_account]. *)
Definition put (s : State) (k : string) (x : Account) : State :=
  with_balances s (if is_empty x then delete k (balances s) else <[k := x]> (balances s)).

Lemma prune_insert s k x :
  prune_if_empty (with_balances s (<[k := x]> (balances s))) k = put s k x.
Proof.
  unfold prune_if_empty, put. cbn. rewrite lookup_insert_eq.
  destruct (is_empty x); cbn; [by rewrite delete_insert_eq|done].
Qed.

Lemma set_balance_put s k b : set_balance s k b = put s k (account_set_balance (entry_or_default s k) b).
Proof. apply prune_insert. Qed.
Lemma set_nonce_put s k n : set_nonce s k n = put s k (account_set_nonce (entry_or_default s k) n).
Proof. apply prune_insert. Qed.
Lemma set_account_put s k x : set_account s k x = put s k x.
Proof. unfold set_account, put. by destruct (is_empty x). Qed.

Lemma rest_put s k x : rest (put s k x) = rest s.
Proof. done. Qed.

Lemma solid_put s k x : solid s → stable_account x → solid (put s k x).
Proof.
  intros Hs Hx. unfold solid, put. cbn. destruct (is_empty x) eqn:E.
  - by apply map_Forall_delete.
  - apply map_Forall_insert_2; [|done]. by destruct x.
Qed.

Lemma in_range_put s k x :
  in_range s → in_u64 (balance x) → in_u64 (nonce x) → in_range (put s k x).
Proof.
  intros Hs Hb Hn. unfold in_range, put. cbn. destruct (is_empty x) eqn:E.
  - by apply map_Forall_delete.
  - by apply map_Forall_insert_2.
Qed.

Lemma put_lookup s k x a :
  balances (put s k x) !! a =
  if decide (a = k) then (if is_empty x then None else Some x) else balances s !! a.
Proof.
  unfold put. cbn. case_decide as E; [subst|]; destruct (is_empty x).
  - by rewrite lookup_delete_eq.
  - by rewrite lookup_insert_eq.
  - by rewrite lookup_delete_ne.
  - by rewrite lookup_insert_ne.
Qed.

Lemma bal_put s k x a : stable_account x → bal (put s k x) a = upd (bal s) k (balance x) a.
Proof.
  intros Hx. unfold get_balance. rewrite put_lookup. unfold upd. case_decide; [|done].
  destruct (is_empty x) eqn:E; [|done]. by destruct (stable_empty x Hx E) as (-> & _).
Qed.
Lemma non_put s k x a : stable_account x → non (put s k x) a = upd (non s) k (nonce x) a.
Proof.
  intros Hx. unfold get_nonce. rewrite put_lookup. unfold upd. case_decide; [|done].
  destruct (is_empty x) eqn:E; [|done]. by destruct (stable_empty x Hx E) as (_ & -> & _).
Qed.
Lemma body_put s k x a : stable_account x → body (put s k x) a = upd (body s) k (account_body x) a.
Proof.
  intros Hx. unfold body. rewrite put_lookup. unfold upd. case_decide; [|done].
  destruct (is_empty x) eqn:E; [|done]. by destruct (stable_empty x Hx E) as (_ & _ & ->).
Qed.

Lemma entry_balance s a : balance (entry_or_default s a) = bal s a.
Proof. unfold get_balance, entry_or_default. by destruct (balances s !! a). Qed.
Lemma entry_nonce s a : nonce (entry_or_default s a) = non s a.
Proof. unfold get_nonce, entry_or_default. by destruct (balances s !! a). Qed.
Lemma entry_body s a : account_body (entry_or_default s a) = body s a.
Proof. unfold body, entry_or_default. by destruct (balances s !! a). Qed.

Lemma stable_set_balance x b : stable_account x → stable_account (account_set_balance x b).
Proof. by destruct x. Qed.
Lemma stable_set_nonce x n : stable_account x → stable_account (account_set_nonce x n).
Proof. by destruct x. Qed.

Lemma in_range_bal s a : in_range s → in_u64 (bal s a).
Proof.
  intros H. unfold get_balance. destruct (balances s !! a) as [x|] eqn:E; cbn; [|done].
  by apply (H a x E).
Qed.
Lemma in_range_non s a : in_range s → in_u64 (non s a).
Proof.
  intros H. unfold get_nonce. destruct (balances s !! a) as [x|] eqn:E; cbn; [|done].
  by apply (H a x E).
Qed.

(** [t] differs from [s] in balances (resp. nonces) only. *)
Definition only_bal (s t : State) : Prop :=
  rest t = rest s ∧ (∀ a, non t a = non s a) ∧ (∀ a, body t a = body s a).
Definition only_non (s t : State) : Prop :=
  rest t = rest s ∧ (∀ a, bal t a = bal s a) ∧ (∀ a, body t a = body s a).

#[export] Instance only_bal_preorder : PreOrder only_bal.
Proof.
  split; [by intros s|]. intros s t u (H1 & H2 & H3) (K1 & K2 & K3).
  split_and!; [congruence| |]; intros a; [by rewrite K2|by rewrite K3].
Qed.

Lemma set_balance_spec s k b :
  solid s →
  solid (set_balance s k b) ∧ only_bal s (set_balance s k b) ∧
  (∀ a, bal (set_balance s k b) a = upd (bal s) k b a) ∧
  (in_range s → in_u64 b → in_range (set_balance s k b)).
Proof.
  intros Hs. rewrite set_balance_put.
  assert (stable_account (account_set_balance (entry_or_default s k) b)) as Hst
    by by apply stable_set_balance, stable_entry.
  assert (nonce (account_set_balance (entry_or_default s k) b) = non s k) as Hn
    by (rewrite <- entry_nonce; by destruct (entry_or_default s k)).
  assert (account_body (account_set_balance (entry_or_default s k) b) = body s k) as Hb
    by (rewrite <- entry_body; by destruct (entry_or_default s k)).
  assert (balance (account_set_balance (entry_or_default s k) b) = b) as Hbal
    by by destruct (entry_or_default s k).
  split_and!; [by apply solid_put|split_and!; [done| |]| |]; intros.
  - rewrite non_put, Hn by done. unfold upd. by case_decide; subst.
  - rewrite body_put, Hb by done. unfold upd. by case_decide; subst.
  - by rewrite bal_put, Hbal.
  - apply in_range_put; rewrite ?Hbal, ?Hn; auto using in_range_non.
Qed.

Lemma set_nonce_spec s k n :
  solid s →
  solid (set_nonce s k n) ∧ only_non s (set_nonce s k n) ∧
  (∀ a, non (set_nonce s k n) a = upd (non s) k n a) ∧
  (in_range s → in_u64 n → in_range (set_nonce s k n)).
Proof.
  intros Hs. rewrite set_nonce_put.
  assert (stable_account (account_set_nonce (entry_or_default s k) n)) as Hst
    by by apply stable_set_nonce, stable_entry.
  assert (balance (account_set_nonce (entry_or_default s k) n) = bal s k) as Hn
    by (rewrite <- entry_balance; by destruct (entry_or_default s k)).
  assert (account_body (account_set_nonce (entry_or_default s k) n) = body s k) as Hb
    by (rewrite <- entry_body; by destruct (entry_or_default s k)).
  assert (nonce (account_set_nonce (entry_or_default s k) n) = n) as Hnon
    by by destruct (entry_or_default s k).
  split_and!; [by apply solid_put|split_and!; [done| |]| |]; intros.
  - rewrite bal_put, Hn by done. unfold upd. by case_decide; subst.
  - rewrite body_put, Hb by done. unfold upd. by case_decide; subst.
  - by rewrite non_put, Hnon.
  - apply in_range_put; rewrite ?Hnon, ?Hn; auto using in_range_bal.
Qed.

Lemma set_account_spec s k x :
  solid s → stable_account x →
  solid (set_account s k x) ∧ rest (set_account s k x) = rest s ∧
  (∀ a, bal (set_account s k x) a = upd (bal s) k (balance x) a) ∧
  (∀ a, non (set_account s k x) a = upd (non s) k (nonce x) a) ∧
  (∀ a, body (set_account s k x) a = upd (body s) k (account_body x) a) ∧
  (in_range s → in_u64 (balance x) → in_u64 (nonce x) → in_range (set_account s k x)).
Proof.
  intros Hs Hx. rewrite set_account_put.
  split_and!; [by apply solid_put|done|..]; intros;
    [by apply bal_put|by apply non_put|by apply body_put|by apply in_range_put].
Qed.

(** ** Moves between balances *)

(** Pointwise effect of adding [d] at [k]. *)
Definition bump (f : string → Z) (k : string) (d : Z) : string → Z := upd f k (f k + d).

Lemma bump_at (f : string → Z) k d a : bump f k d a = if decide (a = k) then f a + d else f a.
Proof. unfold bump, upd. by case_decide; subst. Qed.

(** A state with the balances of [s] is taken back to the balances of [r]. *)
Definition undoes (undo : State → result CoreError State) (r s : State) : Prop :=
  ∀ t, solid t → (∀ a, bal t a = bal s a) →
    ∃ t', undo t = Ok t' ∧ solid t' ∧ only_bal t t' ∧ (∀ a, bal t' a = bal r a).

Lemma set_balance_to s k b t :
  solid t → (∀ a, bal t a = upd (bal s) k b a) →
  solid (set_balance t k (bal s k)) ∧ only_bal t (set_balance t k (bal s k)) ∧
  (∀ a, bal (set_balance t k (bal s k)) a = bal s a).
Proof.
  intros Ht Hb. destruct (set_balance_spec t k (bal s k) Ht) as (? & ? & E & _).
  split_and!; [done..|]. intros a. rewrite E. unfold upd. case_decide; [by subst|].
  rewrite Hb. by rewrite upd_ne.
Qed.

(** The shape shared by all credits. *)
Definition credit (s : State) (k : string) (v : Z) : result CoreError State :=
  b ← ok_or (checked_add64 (bal s k) v) StateOverflow; Ok (set_balance s k b).
(** The shape shared by all debits. *)
Definition debit (s : State) (k : string) (v : Z) : result CoreError State :=
  b ← ok_or (checked_sub64 (bal s k) v) StateOverflow; Ok (set_balance s k b).

Lemma credit_spec s k v s' :
  solid s → credit s k v = Ok s' →
  bal s k + v < two64 ∧ solid s' ∧ only_bal s s' ∧ (∀ a, bal s' a = bump (bal s) k v a) ∧
  (in_range s → 0 ≤ v → in_range s').
Proof.
  unfold credit. intros Hs H. inv_result.
  match goal with H : checked_add64 _ _ = _ |- _ => apply checked_add64_Some in H as (-> & Hlt) end.
  destruct (set_balance_spec s k (bal s k + v) Hs) as (? & ? & ? & Hr).
  split_and!; try done. intros Hi Hv. apply Hr; [done|].
  pose proof (in_range_bal s k Hi). unfold in_u64 in *. lia.
Qed.

Lemma debit_spec s k v s' :
  solid s → debit s k v = Ok s' →
  v ≤ bal s k ∧ solid s' ∧ only_bal s s' ∧ (∀ a, bal s' a = bump (bal s) k (- v) a) ∧
  (in_range s → 0 ≤ v → in_range s').
Proof.
  unfold debit. intros Hs H. inv_result.
  match goal with H : checked_sub64 _ _ = _ |- _ => apply checked_sub64_Some in H as (-> & Hlt) end.
  destruct (set_balance_spec s k (bal s k - v) Hs) as (? & ? & ? & Hr).
  split_and!; try done. intros Hi Hv. apply Hr; [done|].
  pose proof (in_range_bal s k Hi). unfold in_u64 in *. lia.
Qed.

Lemma credit_ok s k v :
  solid s → bal s k + v < two64 → ∃ s', credit s k v = Ok s'.
Proof. intros Hs H. unfold credit. rewrite (proj2 (checked_add64_Some _ _ _) (conj eq_refl H)). eauto. Qed.
Lemma debit_ok s k v :
  solid s → v ≤ bal s k → ∃ s', debit s k v = Ok s'.
Proof. intros Hs H. unfold debit. rewrite (proj2 (checked_sub64_Some _ _ _) (conj eq_refl H)). eauto. Qed.

(** A credit is undone by the debit, and a debit by the credit. *)
Lemma debit_undoes_credit s k v s' :
  solid s → in_range s → credit s k v = Ok s' → undoes (λ t, debit t k v) s s'.
Proof.
  intros Hs Hi H t Ht Hb. destruct (credit_spec _ _ _ _ Hs H) as (_ & _ & _ & Hc & _).
  destruct (debit_ok t k v) as [t' E]; [done| |].
  { rewrite Hb, Hc, bump_at, decide_True by done. pose proof (in_range_bal s k Hi).
    unfold in_u64 in *. lia. }
  destruct (debit_spec _ _ _ _ Ht E) as (_ & ? & ? & Hd & _).
  exists t'. split_and!; [done..|]. intros a. rewrite Hd, bump_at, Hb, Hc, bump_at.
  case_decide; lia.
Qed.

Lemma credit_undoes_debit s k v s' :
  solid s → in_range s → debit s k v = Ok s' → undoes (λ t, credit t k v) s s'.
Proof.
  intros Hs Hi H t Ht Hb. destruct (debit_spec _ _ _ _ Hs H) as (_ & _ & _ & Hc & _).
  destruct (credit_ok t k v) as [t' E]; [done| |].
  { rewrite Hb, Hc, bump_at, decide_True by done. pose proof (in_range_bal s k Hi).
    unfold in_u64 in *. lia. }
  destruct (credit_spec _ _ _ _ Ht E) as (_ & ? & ? & Hd & _).
  exists t'. split_and!; [done..|]. intros a. rewrite Hd, bump_at, Hb, Hc, bump_at.
  case_decide; lia.
Qed.

Lemma undoes_comp (u v : State → result CoreError State) r s m :
  undoes u r m → undoes v m s → undoes (λ t, t' ← v t; u t') r s.
Proof.
  intros Hu Hv t Ht Hb. destruct (Hv t Ht Hb) as (t1 & E1 & H1 & O1 & B1).
  destruct (Hu t1 H1 B1) as (t2 & E2 & H2 & O2 & B2).
  exists t2. rewrite E1. cbn [mbind result_bind]. split_and!; [done..| |done]. by transitivity t1.
Qed.

(** A debit followed by a credit, the shape of every value move. *)
Definition move (s : State) (from to : string) (v : Z) : result CoreError State :=
  s ← debit s from v; credit s to v.

Lemma commit_transfer_move s t : commit_transfer s t = move s (vt_from t) (vt_to t) (vt_amount t).
Proof.
  unfold commit_transfer, move, debit. destruct (checked_sub64 _ _); [|done]. done.
Qed.
Lemma reverse_transfer_move s t : reverse_transfer s t = move s (vt_to t) (vt_from t) (vt_amount t).
Proof.
  unfold reverse_transfer, move, debit. destruct (checked_sub64 _ _); [|done]. done.
Qed.

(** The operations on balances keep the state solid and in range and change
    nothing but balances. *)
Definition bal_step (s s' : State) : Prop :=
  solid s' ∧ in_range s' ∧ only_bal s s'.

#[export] Instance bal_step_trans : Transitive bal_step.
Proof. intros s t u (?&?&?) (?&?&?). split_and!; [done..|]. by transitivity t. Qed.

Lemma credit_step s k v s' :
  solid s → in_range s → 0 ≤ v → credit s k v = Ok s' → bal_step s s'.
Proof. intros Hs Hi Hv H. destruct (credit_spec _ _ _ _ Hs H) as (_&?&?&_&?). split_and!; auto. Qed.
Lemma debit_step s k v s' :
  solid s → in_range s → 0 ≤ v → debit s k v = Ok s' → bal_step s s'.
Proof. intros Hs Hi Hv H. destruct (debit_spec _ _ _ _ Hs H) as (_&?&?&_&?). split_and!; auto. Qed.

Lemma move_spec s from to v s' :
  solid s → in_range s → 0 ≤ v → move s from to v = Ok s' →
  bal_step s s' ∧ v ≤ bal s from ∧
  (∀ a, bal s' a = bump (bump (bal s) from (- v)) to v a) ∧
  undoes (λ t, move t to from v) s s'.
Proof.
  intros Hs Hi Hv H. unfold move in H. apply bind_ok_inv in H as (m & H1 & H2).
  destruct (debit_step _ _ _ _ Hs Hi Hv H1) as (Hm & Hmi & Hmo).
  pose proof (credit_step _ _ _ _ Hm Hmi Hv H2) as Hst.
  destruct (debit_spec _ _ _ _ Hs H1) as (Hle & _ & _ & B1 & _).
  destruct (credit_spec _ _ _ _ Hm H2) as (_ & _ & _ & B2 & _).
  split_and!; [|done| |].
  - transitivity m; [done|done].
  - intros a. rewrite B2, !bump_at, !B1, !bump_at. by case_decide.
  - apply (undoes_comp _ _ s s' m).
    + by apply credit_undoes_debit.
    + by apply debit_undoes_credit.
Qed.

Lemma undoes_refl s : undoes Ok s s.
Proof. intros t Ht Hb. exists t. done. Qed.

(** A committed list of value transfers is undone in reverse order. *)
Lemma commit_fold_spec ts s s' :
  solid s → in_range s → Forall (λ t, 0 ≤ vt_amount t) ts → foldM commit_transfer s ts = Ok s' →
  bal_step s s' ∧ undoes (λ t, foldM reverse_transfer t (reverse ts)) s s'.
Proof.
  intros Hs Hi Hts. revert s Hs Hi. induction Hts as [|t ts Ht _ IH]; intros s Hs Hi H; cbn in H.
  { inv_result. split; [by split_and!|]. apply undoes_refl. }
  apply bind_ok_inv in H as (m & H1 & H2). rewrite commit_transfer_move in H1.
  destruct (move_spec _ _ _ _ _ Hs Hi Ht H1) as (Hst & _ & _ & U1).
  destruct (IH m) as (Hst2 & U2); [apply Hst|apply Hst|done|].
  split; [by transitivity m|]. intros u Hu Hb.
  destruct (undoes_comp _ _ _ _ _ U1 U2 u Hu Hb) as (u' & E & Hr). exists u'. split; [|done].
  rewrite reverse_cons, foldM_app. rewrite <- E.
  destruct (foldM reverse_transfer u (reverse ts)) as [a| |]; cbn [mbind result_bind foldM]; [|done..].
  rewrite reverse_transfer_move. by destruct (move a _ _ _).
Qed.
