(* ===== verification/StateStorage.v ===== *)
(** * Contract storage: committing a frame's writes and taking them back

    [flush_storage_writes] and [unapply_call_storage] described contract by
    contract ([sview]), and the proof that the second undoes the first. *)

From S2P Require Import Prelude Bytes Abi Types Address Serialize Consensus Emission SparseMerkle State StateViews.
Open Scope Z_scope.

(** ** Overlays and slots *)

Lemma apply_entries_lookup (l : list (list byte * option (list byte))) st k :
  NoDup l.*1 →
  foldl apply_entry st l !! k =
  match (list_to_map l : gmap _ _) !! k with Some v => v | None => st !! k end.
Proof.
  revert st. induction l as [|[k' v] l IH]; intros st Hnd; cbn; [done|].
  apply NoDup_cons in Hnd as [Hk Hnd]. rewrite IH by done.
  destruct (decide (k' = k)) as [->|Hne].
  - rewrite lookup_insert_eq, not_elem_of_list_to_map_1 by done.
    unfold apply_entry. cbn. destruct v; [by rewrite lookup_insert_eq|by rewrite lookup_delete_eq].
  - rewrite lookup_insert_ne by done. destruct (list_to_map l !! k); [done|].
    unfold apply_entry. cbn.
    destruct v; [by rewrite lookup_insert_ne|by rewrite lookup_delete_ne].
Qed.

Lemma apply_to_lookup o st k :
  apply_to o st !! k = match entries o !! k with Some v => v | None => st !! k end.
Proof.
  unfold apply_to. rewrite apply_entries_lookup by apply NoDup_fst_map_to_list.
  by rewrite list_to_map_to_list.
Qed.

Lemma apply_to_writes w st : apply_to (from_writes w) st = w ∪ st.
Proof.
  apply map_eq. intros k. rewrite apply_to_lookup. cbn.
  rewrite lookup_fmap, lookup_union. destruct (w !! k), (st !! k); done.
Qed.

Lemma elem_of_preimages w base k p :
  (k, p) ∈ preimages_of (from_writes w) base ↔ is_Some (w !! k) ∧ p = base !! k.
Proof.
  unfold preimages_of. rewrite list_elem_of_fmap. split.
  - intros ([k' v] & [= -> ->] & Hin%elem_of_map_to_list). cbn in Hin.
    rewrite lookup_fmap in Hin. destruct (w !! k'); [eauto|done].
  - intros [[v Hv] ->]. exists (k, Some v). split; [done|].
    apply elem_of_map_to_list. cbn. by rewrite lookup_fmap, Hv.
Qed.

(** Value of a storage slot. *)
Definition slot (m : ContractStorageMap) (a : string) (k : list byte) : option (list byte) :=
  default ∅ (m !! a) !! k.

Lemma slot_restore m e a k :
  slot (restore_slot m e) a k = if decide ((a, k) = e.1) then e.2 else slot m a k.
Proof.
  destruct e as [[c key] p]. unfold slot, restore_slot, apply_entry. cbn [fst snd].
  case_decide as E.
  - simplify_eq. rewrite lookup_insert_eq. cbn [default id].
    destruct p; [by rewrite lookup_insert_eq|by rewrite lookup_delete_eq].
  - destruct (decide (c = a)) as [->|].
    + rewrite lookup_insert_eq. cbn [default id].
      assert (key ≠ k) by congruence.
      destruct p; [by rewrite lookup_insert_ne|by rewrite lookup_delete_ne].
    + by rewrite lookup_insert_ne.
Qed.

Lemma restore_slots u m0 m a k :
  (∀ e, e ∈ u → e.2 = slot m0 e.1.1 e.1.2) →
  slot (foldl restore_slot m u) a k =
  if decide ((a, k) ∈ u.*1) then slot m0 a k else slot m a k.
Proof.
  revert m. induction u as [|e u IH]; intros m Hu; cbn [foldl fmap list_fmap].
  { rewrite decide_False; [done|]. apply not_elem_of_nil. }
  rewrite IH by (intros; apply Hu; by right). rewrite slot_restore.
  destruct (decide ((a, k) ∈ u.*1)) as [Hin|Hout].
  - rewrite decide_True; [done|]. by right.
  - case_decide as E.
    + rewrite decide_True by (rewrite E; by left).
      rewrite (Hu e) by by left. by rewrite <- E.
    + rewrite decide_False; [done|]. rewrite elem_of_cons. tauto.
Qed.

Lemma restore_slots_dom u m a :
  is_Some (foldl restore_slot m u !! a) ↔ is_Some (m !! a) ∨ a ∈ u.*1.*1.
Proof.
  revert m. induction u as [|[[c k] p] u IH]; intros m; cbn [foldl fmap list_fmap].
  { rewrite elem_of_nil. tauto. }
  rewrite IH, elem_of_cons. cbn [restore_slot fst].
  destruct (decide (c = a)) as [->|].
  - rewrite lookup_insert_eq. naive_solver.
  - rewrite lookup_insert_ne by done. naive_solver.
Qed.

Section Storage.
Context `{HX : Hex, B3 : Blake3, B32 : Bech32}.

(** ** Per-contract views *)

Definition sview (s : State) (a : string) := (contract_storage s !! a, body s a).

(** Root recorded for a storage map. *)
Definition storage_root_at (st : option ContractStorage) : list byte :=
  match st with Some st => contract_storage_root st | None => zero32 end.

(** Storage is non-empty and belongs to contracts, and every contract records
    the root of its storage. *)
Definition storage_ok (s : State) : Prop :=
  map_Forall (λ a st, st ≠ ∅ ∧ is_Some (body s a)) (contract_storage s) ∧
  map_Forall (λ a x, from_option (λ b, b.2 = storage_root_at (contract_storage s !! a)) True
                       (account_body x)) (balances s).

#[export] Instance storage_ok_dec s : Decision (storage_ok s).
Proof.
  unfold storage_ok. apply and_dec; [apply _|]. apply map_Forall_dec. intros a x.
  destruct (account_body x); cbn; apply _.
Defined.

Lemma storage_ok_alt s :
  storage_ok s ↔
  (∀ a st, contract_storage s !! a = Some st → st ≠ ∅ ∧ is_Some (body s a)) ∧
  (∀ a c r, body s a = Some (c, r) → r = storage_root_at (contract_storage s !! a)).
Proof.
  unfold storage_ok, map_Forall. f_equiv. split.
  - intros H a c r Hb. unfold body in Hb. apply bind_Some in Hb as (x & Hx & Hxb).
    specialize (H a x Hx). by rewrite Hxb in H.
  - intros H a x Hx. destruct (account_body x) as [[c r]|] eqn:E; [|done]. cbn.
    apply (H a c r). unfold body. by rewrite Hx.
Qed.

(** ** Flushing writes *)

Definition flush_view (w : ContractStorage)
    (v : option ContractStorage * option (list byte * list byte)) :=
  let st := w ∪ default ∅ v.1 in
  (Some st, (λ b, (b.1, contract_storage_root st)) <$> v.2).

(** The writes of a scope list that reach the contract at [a]. *)
Definition hits (s : State) (l : list (string * ContractStorage)) (a : string)
    : option ContractStorage :=
  w ← (list_to_map l : gmap string ContractStorage) !! a;
  if decide (w ≠ ∅ ∧ is_Some (body s a)) then Some w else None.

(** Fields a storage operation leaves alone. *)
Definition storage_frame (s t : State) : Prop :=
  receipts t = receipts s ∧ value_transfers_undo t = value_transfers_undo s ∧
  (∀ a, bal t a = bal s a) ∧ (∀ a, non t a = non s a) ∧
  (solid s → solid t) ∧ (in_range s → in_range t).

#[export] Instance storage_frame_preorder : PreOrder storage_frame.
Proof.
  split; [by intros s|]. intros s t u (?&?&?&?&?&?) (?&?&?&?&?&?).
  split_and!; [congruence|congruence| | |auto|auto]; intros a; etransitivity; eauto.
Qed.

(** Rewriting the storage root of one contract. *)
Lemma set_root_frame s a c r m :
  balances s !! a = Some (Contract c) →
  let t := with_balances (with_storage s m)
             (<[a := account_set_storage_root (Contract c) r]> (balances s)) in
  storage_frame s t ∧ storage_undo t = storage_undo s ∧
  (∀ b, body t b = if decide (b = a) then Some (ct_code_hash c, r) else body s b).
Proof.
  intros Ha t. split; [split_and!|split; [done|]].
  - done.
  - done.
  - intros b. unfold get_balance. cbn. destruct (decide (a = b)) as [->|];
      [by rewrite lookup_insert_eq, Ha|by rewrite lookup_insert_ne].
  - intros b. unfold get_nonce. cbn. destruct (decide (a = b)) as [->|];
      [by rewrite lookup_insert_eq, Ha|by rewrite lookup_insert_ne].
  - intros Hs. unfold solid. cbn. apply map_Forall_insert_2; [|done].
    exact (Hs a _ Ha).
  - intros Hs. unfold in_range. cbn. apply map_Forall_insert_2; [|done].
    exact (Hs a _ Ha).
  - intros b. unfold body. cbn. case_decide; [subst; by rewrite lookup_insert_eq|].
    by rewrite lookup_insert_ne.
Qed.

Lemma flush_scope_miss s u a w :
  ¬ (w ≠ ∅ ∧ is_Some (body s a)) → flush_scope (s, u) (a, w) = (s, u).
Proof.
  intros H. unfold flush_scope. case_decide as Hw; [done|].
  unfold body in H. destruct (balances s !! a) as [[e|c]|]; [done| |done].
  destruct H. split; [done|]. cbn. eauto.
Qed.

Lemma flush_scope_hit s u a w :
  w ≠ ∅ → is_Some (body s a) →
  ∃ s', flush_scope (s, u) (a, w) =
          (s', u ++ ((λ '(k, p), (a, k, p)) <$>
                       preimages_of (from_writes w) (default ∅ (contract_storage s !! a)))) ∧
    storage_frame s s' ∧ storage_undo s' = storage_undo s ∧
    (∀ b, sview s' b = if decide (b = a) then flush_view w (sview s a) else sview s b).
Proof.
  intros Hw Hb. unfold flush_scope. rewrite decide_False by done.
  unfold body in Hb. destruct (balances s !! a) as [[e|c]|] eqn:Ea;
    [by destruct Hb| |by destruct Hb].
  rewrite apply_to_writes. eexists. split; [reflexivity|].
  destruct (set_root_frame s a c (contract_storage_root (w ∪ default ∅ (contract_storage s !! a)))
    (<[a := w ∪ default ∅ (contract_storage s !! a)]> (contract_storage s)) Ea) as (Hf & Hu & Hbody).
  split_and!; [exact Hf|exact Hu|]. intros b. unfold sview. rewrite Hbody. cbn [contract_storage with_balances with_storage].
  case_decide; [subst|by rewrite lookup_insert_ne].
  rewrite lookup_insert_eq. unfold flush_view, body. rewrite Ea. done.
Qed.

Lemma hits_cons s a w l b :
  hits s ((a, w) :: l) b =
  if decide (b = a) then (if decide (w ≠ ∅ ∧ is_Some (body s a)) then Some w else None)
  else hits s l b.
Proof.
  unfold hits. cbn [list_to_map foldr fst snd]. case_decide; [subst; by rewrite lookup_insert_eq|].
  by rewrite lookup_insert_ne.
Qed.

Lemma hits_ext s t l b : (is_Some (body s b) ↔ is_Some (body t b)) → hits s l b = hits t l b.
Proof.
  intros H. unfold hits. destruct (_ !! b); [|done]. cbn. by apply decide_ext; rewrite H.
Qed.

Lemma hits_notin s l b : b ∉ l.*1 → hits s l b = None.
Proof. intros H. unfold hits. by rewrite not_elem_of_list_to_map_1. Qed.

(** The undo entries a scope list records. *)
Definition recorded (s : State) (l : list (string * ContractStorage)) (e : StorageUndoEntry) : Prop :=
  ∃ w, hits s l e.1.1 = Some w ∧ is_Some (w !! e.1.2) ∧ e.2 = slot (contract_storage s) e.1.1 e.1.2.

Lemma elem_of_scope_undo s a w e :
  e ∈ ((λ '(k, p), (a, k, p)) <$> preimages_of (from_writes w) (default ∅ (contract_storage s !! a)))
  ↔ e.1.1 = a ∧ is_Some (w !! e.1.2) ∧ e.2 = slot (contract_storage s) a e.1.2.
Proof.
  rewrite list_elem_of_fmap. split.
  - intros ([k p] & -> & [? ->]%elem_of_preimages). done.
  - destruct e as [[b k] p]. cbn. intros (-> & ? & ->). exists (k, slot (contract_storage s) a k).
    split; [done|]. by apply elem_of_preimages.
Qed.

Lemma flush_view_body w v : is_Some (flush_view w v).2 ↔ is_Some v.2.
Proof. unfold flush_view. cbn. by rewrite fmap_is_Some. Qed.

Lemma flush_fold l s u s' u' :
  NoDup l.*1 → foldl flush_scope (s, u) l = (s', u') →
  storage_frame s s' ∧ storage_undo s' = storage_undo s ∧
  (∀ a, sview s' a = match hits s l a with Some w => flush_view w (sview s a) | None => sview s a end) ∧
  (∀ e, e ∈ u' ↔ e ∈ u ∨ recorded s l e) ∧
  (∃ v, u' = u ++ v ∧ (v = [] → s' = s)).
Proof.
  revert s u. induction l as [|[a w] l IH]; intros s u Hnd H.
  { cbn in H. simplify_eq. split_and!; [done|done|done| |exists []; by rewrite app_nil_r].
    intros e. split; [by left|]. intros [?|(w & Hw & _)]; [done|].
    by rewrite hits_notin in Hw by apply not_elem_of_nil. }
  apply NoDup_cons in Hnd as [Ha Hnd]. cbn [foldl] in H.
  destruct (decide (w ≠ ∅ ∧ is_Some (body s a))) as [[Hw Hb]|Hmiss].
  - destruct (flush_scope_hit s u a w Hw Hb) as (s1 & E & Hf & Hu & Hv). rewrite E in H.
    destruct (IH _ _ Hnd H) as (Hf' & Hu' & Hv' & He & (v & -> & Hnil)).
    assert (∀ b, hits s1 l b = hits s l b) as Hh.
    { intros b. apply hits_ext. change (is_Some (sview s1 b).2 ↔ is_Some (sview s b).2).
      rewrite Hv. case_decide; [subst; apply flush_view_body|done]. }
    split_and!; [by transitivity s1|congruence| | |].
    + intros b. rewrite Hv', Hh, hits_cons, Hv. case_decide; [subst|done].
      rewrite decide_True by done. by rewrite hits_notin.
    + intros e. rewrite He, elem_of_app, elem_of_scope_undo. unfold recorded.
      setoid_rewrite Hh. setoid_rewrite hits_cons.
      destruct (decide (e.1.1 = a)) as [Ea|Ea].
      * rewrite Ea, hits_notin, decide_True by done. split.
        -- intros [[?|(_ & ? & ?)]|(? & ? & _)]; [by left|right; by exists w|done].
        -- intros [?|(w0 & [= <-] & ? & ?)]; [by left; left|by left; right].
      * assert (slot (contract_storage s1) e.1.1 e.1.2 = slot (contract_storage s) e.1.1 e.1.2) as ->.
        { specialize (Hv e.1.1). rewrite decide_False in Hv by done. unfold slot.
          injection Hv as -> _. done. }
        tauto.
    + eexists. rewrite <- app_assoc. split; [done|]. intros [Hn _]%app_nil.
      apply fmap_nil_inv in Hn. destruct (map_choose w Hw) as (k & x & Hk).
      assert ((k, default ∅ (contract_storage s !! a) !! k) ∈ ([] : list (list byte * option (list byte)))) as Hin.
      { rewrite <- Hn. apply elem_of_preimages. eauto. }
      by apply elem_of_nil in Hin.
  - rewrite flush_scope_miss in H by done.
    destruct (IH _ _ Hnd H) as (Hf & Hu & Hv & He & Hx).
    assert (∀ b, hits s ((a, w) :: l) b = hits s l b) as Hh.
    { intros b. rewrite hits_cons. case_decide; [subst|done].
      rewrite decide_False by done. by rewrite hits_notin. }
    split_and!; [done|done| | |done].
    + intros b. by rewrite Hv, Hh.
    + intros e. rewrite He. unfold recorded. by setoid_rewrite Hh.
Qed.

(** ** Taking writes back *)

Definition refresh_view (v : option ContractStorage * option (list byte * list byte)) :=
  let st := if decide (v.1 = Some ∅) then None else v.1 in
  (st, (λ b, (b.1, storage_root_at st)) <$> v.2).

Lemma refresh_root_spec s a :
  storage_frame s (refresh_root s a) ∧ storage_undo (refresh_root s a) = storage_undo s ∧
  (∀ b, sview (refresh_root s a) b = if decide (b = a) then refresh_view (sview s a) else sview s b).
Proof.
  unfold refresh_root.
  set (m := if decide (contract_storage s !! a = Some ∅) then delete a (contract_storage s)
            else contract_storage s).
  assert (∀ b, m !! b = if decide (b = a) then (refresh_view (sview s a)).1
                        else contract_storage s !! b) as Hm.
  { intros b. unfold m, refresh_view, sview. cbn. case_decide; case_decide; subst;
      [by rewrite lookup_delete_eq|by rewrite lookup_delete_ne|done|done]. }
  assert (match m !! a with Some st => contract_storage_root st | None => zero32 end
          = storage_root_at (refresh_view (sview s a)).1) as ->.
  { rewrite Hm, decide_True by done. done. }
  destruct (balances s !! a) as [[e|c]|] eqn:Ea.
  2: { destruct (set_root_frame s a c (storage_root_at (refresh_view (sview s a)).1) m Ea)
         as (Hf & Hu & Hb).
       split_and!; [exact Hf|exact Hu|]. intros b. unfold sview at 1.
       rewrite Hb. cbn [contract_storage with_balances with_storage]. rewrite Hm.
       case_decide; [subst|done]. unfold refresh_view, sview, body. rewrite Ea. done. }
  all: split_and!; [done..|]; intros b; unfold sview at 1; cbn [contract_storage with_balances with_storage];
    rewrite Hm; case_decide; [subst|done]; unfold refresh_view, sview, body; cbn; rewrite Ea; done.
Qed.

Lemma refresh_fold l s :
  NoDup l →
  storage_frame s (foldl refresh_root s l) ∧ storage_undo (foldl refresh_root s l) = storage_undo s ∧
  (∀ b, sview (foldl refresh_root s l) b =
        if decide (b ∈ l) then refresh_view (sview s b) else sview s b).
Proof.
  revert s. induction l as [|a l IH]; intros s Hnd; cbn [foldl].
  { split_and!; [done|done|]. intros b. by rewrite decide_False by apply not_elem_of_nil. }
  apply NoDup_cons in Hnd as [Ha Hnd]. destruct (refresh_root_spec s a) as (Hf & Hu & Hv).
  destruct (IH (refresh_root s a) Hnd) as (Hf' & Hu' & Hv').
  split_and!; [by transitivity (refresh_root s a)|congruence|].
  intros b. rewrite Hv', Hv. destruct (decide (b = a)) as [->|].
  - rewrite decide_False by done. by rewrite decide_True by by left.
  - by apply decide_ext; set_solver.
Qed.

(** ** The round trip *)

Definition view_ok (v : option ContractStorage * option (list byte * list byte)) : Prop :=
  (∀ st, v.1 = Some st → st ≠ ∅ ∧ is_Some v.2) ∧
  (∀ c r, v.2 = Some (c, r) → r = storage_root_at v.1).

Lemma storage_ok_views s : storage_ok s ↔ ∀ a, view_ok (sview s a).
Proof.
  rewrite storage_ok_alt. split.
  - intros [H1 H2] a. split; cbn; [apply H1|apply H2].
  - intros H. split; intros a; apply (H a).
Qed.

Lemma view_ok_flush w v : w ≠ ∅ → is_Some v.2 → view_ok (flush_view w v).
Proof.
  intros Hw [[c r] Hv]. unfold flush_view. rewrite Hv. split; cbn.
  - intros st [= <-]. split; [|by eauto]. destruct (map_choose w Hw) as (k & x & Hk).
    intros H. apply (f_equal (.!! k)) in H. rewrite (lookup_union_Some_l _ _ _ _ Hk) in H.
    by rewrite lookup_empty in H.
  - by intros ?? [= <- <-].
Qed.

(** Restoring a flushed contract's slots and refreshing its root gives back the
    view before the flush. *)
Lemma refresh_restored (w m : ContractStorage)
    (v : option ContractStorage * option (list byte * list byte)) :
  view_ok v → is_Some v.2 → m = default ∅ v.1 → refresh_view (Some m, (flush_view w v).2) = v.
Proof.
  destruct v as [st b]. intros [H1 H2] [[c r] Hb] ->. cbn in Hb. subst b. cbn in *.
  unfold refresh_view. cbn.
  specialize (H2 c r eq_refl). destruct st as [st|]; cbn in *.
  - destruct (H1 st eq_refl) as [Hne _]. rewrite decide_False by congruence. by subst.
  - rewrite decide_True by done. by subst.
Qed.

Lemma restore_untouched u m a : a ∉ u.*1.*1 → foldl restore_slot m u !! a = m !! a.
Proof.
  revert m. induction u as [|[[c k] p] u IH]; intros m H; cbn [foldl]; [done|].
  cbn [fmap list_fmap fst] in H. rewrite not_elem_of_cons in H. destruct H as [? ?].
  rewrite IH by done. cbn. by rewrite lookup_insert_ne.
Qed.

(** The slots a scope list touched, taken back on top of the flushed storage. *)
Lemma restore_flushed s l u m a w :
  (∀ e, e ∈ u ↔ recorded s l e) → hits s l a = Some w →
  m !! a = Some (w ∪ default ∅ (contract_storage s !! a)) →
  foldl restore_slot m u !! a = Some (default ∅ (contract_storage s !! a)).
Proof.
  intros Hu Hh Hm.
  assert (is_Some (foldl restore_slot m u !! a)) as [st Hst]
    by (apply restore_slots_dom; left; by rewrite Hm).
  rewrite Hst. f_equal. apply map_eq. intros k.
  assert (st !! k = slot (foldl restore_slot m u) a k) as -> by (unfold slot; by rewrite Hst).
  rewrite (restore_slots u (contract_storage s)).
  2: { intros e He. apply Hu in He as (? & _ & _ & ?). done. }
  case_decide as Hin; [done|]. unfold slot. rewrite Hm. cbn [default id].
  destruct (w !! k) as [x|] eqn:Ek; [|by rewrite lookup_union, Ek, (left_id_L None _)].
  destruct Hin. apply list_elem_of_fmap.
  exists (a, k, slot (contract_storage s) a k). split; [done|]. apply Hu.
  exists w. split_and!; [done| |done]. cbn. by rewrite Ek.
Qed.

(** [undo] records what [flush] changed: taking it back restores every view. *)
Definition storage_undoes (id : list byte) (s s' : State) : Prop :=
  ∀ t, storage_undo t = storage_undo s' → (∀ a, sview t a = sview s' a) →
    storage_frame t (unapply_call_storage t id) ∧
    storage_undo (unapply_call_storage t id) = storage_undo s ∧
    (∀ a, sview (unapply_call_storage t id) a = sview s a).

Lemma storage_undoes_refl id s : storage_undo s !! id = None → storage_undoes id s s.
Proof. intros H t Ht Hv. unfold unapply_call_storage. rewrite Ht, H. done. Qed.

Lemma hits_Some s l a w : hits s l a = Some w → w ≠ ∅ ∧ is_Some (body s a).
Proof.
  unfold hits. destruct (_ !! a) as [x|]; [|done]. cbn. case_decide; [|done]. by intros [= <-].
Qed.

Lemma touched_iff s l u a :
  (∀ e, e ∈ u ↔ recorded s l e) →
  a ∈ elements (list_to_set ((λ e : StorageUndoEntry, e.1.1) <$> u) : gset string)
  ↔ is_Some (hits s l a).
Proof.
  intros Hu. rewrite elem_of_elements, elem_of_list_to_set, list_elem_of_fmap. split.
  - intros (e & -> & He). apply Hu in He as (w & -> & _). eauto.
  - intros [w Hw]. destruct (hits_Some _ _ _ _ Hw) as [Hne _].
    destruct (map_choose w Hne) as (k & x & Hk).
    exists (a, k, slot (contract_storage s) a k). split; [done|]. apply Hu. exists w.
    split_and!; [done| |done]. cbn. by rewrite Hk.
Qed.

Lemma unapply_flushed id s l u s' :
  storage_ok s → storage_undo s !! id = None →
  (∀ a, sview s' a = match hits s l a with Some w => flush_view w (sview s a) | None => sview s a end) →
  (∀ e, e ∈ u ↔ recorded s l e) → storage_undo s' = <[id := u]> (storage_undo s) →
  storage_undoes id s s'.
Proof.
  intros Hok Hnone Hv Hu Hs' t Ht Hvt. unfold unapply_call_storage.
  rewrite Ht, Hs', lookup_insert_eq, delete_insert_eq, delete_id by done.
  set (t1 := with_storage _ _).
  assert (storage_frame t t1) as Hft by done.
  destruct (refresh_fold (elements (list_to_set ((λ e : StorageUndoEntry, e.1.1) <$> u) : gset string))
              t1 (NoDup_elements _)) as (Hf & Hsu & Hr).
  split_and!; [by transitivity t1|done|]. intros a. rewrite Hr.
  pose proof (Hv a) as Hva. rewrite <- Hvt in Hva.
  rewrite (decide_ext _ _ _ _ (touched_iff s l u a Hu)).
  destruct (hits s l a) as [w|] eqn:Ew.
  - rewrite decide_True by eauto. destruct (hits_Some _ _ _ _ Ew) as [_ Hb].
    assert (sview t1 a = (Some (default ∅ (contract_storage s !! a)), (flush_view w (sview s a)).2)) as ->.
    { unfold sview at 1. f_equal.
      - cbn. apply (restore_flushed s l u _ a w Hu Ew). unfold flush_view, sview in Hva.
        by injection Hva.
      - change (body t1 a) with (sview t a).2. by rewrite Hva. }
    apply refresh_restored; [by apply storage_ok_views|done|done].
  - rewrite decide_False by (by intros []). rewrite <- Hva. unfold sview. f_equal.
    cbn. apply restore_untouched. rewrite <- list_fmap_compose. intros Hin.
    apply (elem_of_list_to_set (C:=gset string)), elem_of_elements, (touched_iff s l u a Hu) in Hin.
    rewrite Ew in Hin. by destruct Hin.
Qed.

(** A storage operation of the transaction [id]. *)
Definition storage_step (id : list byte) (s s' : State) : Prop :=
  storage_frame s s' ∧ storage_ok s' ∧ (∀ a, is_Some (body s' a) ↔ is_Some (body s a)) ∧
  (∀ i, i ≠ id → storage_undo s' !! i = storage_undo s !! i) ∧
  (storage_undo s !! id = None → storage_undoes id s s').

Lemma storage_step_refl id s : storage_ok s → storage_step id s s.
Proof. intros. split_and!; [done..|]. by apply storage_undoes_refl. Qed.

Lemma flush_spec s r id :
  storage_ok s → storage_step id s (flush_storage_writes s r id).
Proof.
  intros Hok. unfold flush_storage_writes.
  destruct (foldl flush_scope (s, []) (map_to_list (ex_storage_overlay r))) as [s1 u] eqn:E.
  apply flush_fold in E as (Hf & Hsu & Hv & Hu & (v & Hv' & Hnil)); [|apply NoDup_fst_map_to_list].
  cbn in Hv'. subst v. assert (∀ e, e ∈ u ↔ recorded s (map_to_list (ex_storage_overlay r)) e) as Hu'.
  { intros e. rewrite Hu, elem_of_nil. tauto. }
  assert (storage_ok s1) as Hok1.
  { apply storage_ok_views. intros a. rewrite Hv. destruct (hits _ _ a) eqn:Eh.
    - apply hits_Some in Eh as []. by apply view_ok_flush.
    - by apply storage_ok_views. }
  assert (∀ a, is_Some (body s1 a) ↔ is_Some (body s a)) as Hb.
  { intros a. change (is_Some (sview s1 a).2 ↔ is_Some (sview s a).2). rewrite Hv.
    destruct (hits _ _ a); [apply flush_view_body|done]. }
  destruct u as [|e u].
  { rewrite Hnil by done. by apply storage_step_refl. }
  split_and!; [exact Hf|exact Hok1|exact Hb| |].
  - intros i Hi. cbn. rewrite lookup_insert_ne by done. by rewrite Hsu.
  - intros Hnone. apply (unapply_flushed id s (map_to_list (ex_storage_overlay r)) (e :: u)); [done|done|exact Hv|done|].
    cbn. by rewrite Hsu.
Qed.
End Storage.
