(* ===== verification/StateProps.v ===== *)
(** * Properties of the state transition

    One lemma per transaction kind states everything a step guarantees
    ([step_ok]): the invariant, the effect on the supply, the receipt, and that
    unapplying the transaction restores the state.  The block theorems are
    inductions over it, for every executor that keeps the contract [VmLaws]. *)

From S2P Require Import Prelude Bytes Abi Types Address Concrete Serialize Consensus Emission SparseMerkle State StateViews StateStorage.
Open Scope Z_scope.

(** ** Supply *)

(** The mathematical sum of all balances; [total_supply] is its wrapping form. *)
Definition supply (s : State) : Z := sumZ ((λ p, balance p.2) <$> map_to_list (balances s)).

Lemma total_supply_wrap s : total_supply s = supply s mod two64.
Proof. apply sum64_mod. Qed.

Lemma supply_over s (D : gset string) :
  dom (balances s) ⊆ D → sumZ (bal s <$> elements D) = supply s.
Proof.
  intros HD. rewrite (union_difference_L _ _ HD), elements_disj_union by set_solver.
  rewrite fmap_app, sumZ_app.
  assert (sumZ (bal s <$> elements (D ∖ dom (balances s))) = 0) as ->.
  { assert (∀ l, (∀ a, a ∈ l → bal s a = 0) → sumZ (bal s <$> l) = 0) as Hz.
    { induction l as [|a l IH]; intros H; cbn; [done|].
      rewrite H by by left. rewrite IH; [done|]. intros; apply H; by right. }
    apply Hz. intros a Ha%elem_of_elements%elem_of_difference. destruct Ha as [_ Ha%not_elem_of_dom].
    unfold get_balance. by rewrite Ha. }
  rewrite Z.add_0_r. unfold supply. change (dom (balances s)) with (dom (D:=gset string) (balances s)).
  assert (elements (dom (D:=gset string) (balances s)) ≡ₚ (map_to_list (balances s)).*1) as ->.
  { apply NoDup_Permutation; [apply NoDup_elements|apply NoDup_fst_map_to_list|].
    intros a. rewrite elem_of_elements, elem_of_dom, list_elem_of_fmap. split.
    - intros [x Hx]. exists (a, x). split; [done|]. by apply elem_of_map_to_list.
    - intros ([? x] & -> & Hx%elem_of_map_to_list). cbn. by rewrite Hx. }
  rewrite <- list_fmap_compose. f_equal. apply list_fmap_ext. intros i [a x] Hx. cbn.
  apply list_elem_of_lookup_2, elem_of_map_to_list in Hx. unfold get_balance. by rewrite Hx.
Qed.

Lemma sumZ_upd (f g : string → Z) k b l :
  (∀ a, g a = upd f k b a) → NoDup l → k ∈ l →
  sumZ (g <$> l) = sumZ (f <$> l) - f k + b.
Proof.
  intros Hg Hnd Hin. apply elem_of_Permutation in Hin as [l' Hl]. rewrite Hl in Hnd |- *.
  apply NoDup_cons in Hnd as [Hk _]. cbn. rewrite Hg, upd_eq.
  replace (g <$> l') with (f <$> l'); [lia|].
  apply list_fmap_ext. intros i a Ha. rewrite Hg, upd_ne; [done|].
  intros ->. apply Hk. by eapply list_elem_of_lookup_2.
Qed.

Lemma supply_upd s t k b : (∀ a, bal t a = upd (bal s) k b a) → supply t = supply s - bal s k + b.
Proof.
  intros H. set (D := dom (balances s) ∪ dom (balances t) ∪ {[k]} : gset string).
  rewrite <- (supply_over s D), <- (supply_over t D) by (unfold D; set_solver).
  apply sumZ_upd; [done|apply NoDup_elements|]. apply elem_of_elements. unfold D. set_solver.
Qed.

Lemma supply_bump s t k d : (∀ a, bal t a = bump (bal s) k d a) → supply t = supply s + d.
Proof. intros H. rewrite (supply_upd s t k _ H). lia. Qed.

Lemma supply_same s t : (∀ a, bal t a = bal s a) → supply t = supply s.
Proof.
  intros H. rewrite (supply_upd s t "" (bal s "")); [lia|].
  intros a. rewrite H. unfold upd. by case_decide; subst.
Qed.

Lemma supply_nonneg s : in_range s → 0 ≤ supply s.
Proof.
  intros H. apply sumZ_nonneg, Forall_fmap, Forall_forall. intros [a x] Hx%elem_of_map_to_list.
  destruct (H a x Hx) as [[? ?] _]. cbn. done.
Qed.

Lemma supply_move s from to v s' :
  solid s → in_range s → 0 ≤ v → move s from to v = Ok s' → supply s' = supply s.
Proof.
  intros Hs Hi Hv H. unfold move in H. apply bind_ok_inv in H as (m & H1 & H2).
  destruct (debit_spec _ _ _ _ Hs H1) as (_ & Hm & _ & B1 & _).
  destruct (credit_spec _ _ _ _ Hm H2) as (_ & _ & _ & B2 & _).
  rewrite (supply_bump _ _ _ _ B2), (supply_bump _ _ _ _ B1). lia.
Qed.

Lemma supply_commit ts s s' :
  solid s → in_range s → Forall (λ t, 0 ≤ vt_amount t) ts → foldM commit_transfer s ts = Ok s' →
  supply s' = supply s.
Proof.
  intros Hs Hi Hts. revert s Hs Hi. induction Hts as [|t ts Ht _ IH]; intros s Hs Hi H; cbn in H.
  { by inv_result. }
  apply bind_ok_inv in H as (m & H1 & H2). rewrite commit_transfer_move in H1.
  destruct (move_spec _ _ _ _ _ Hs Hi Ht H1) as ((? & ? & _) & _).
  rewrite (IH m) by done. by eapply supply_move.
Qed.

(** ** The executor's contract *)

(** What the core relies on: amounts are [u64]s, and a successful top-level call that
    carried value lists its entry transfer. *)
Class VmLaws (V : Type) `{VM : VmExecutor V} : Prop := {
  execute_amounts : ∀ vm ctx r, execute vm ctx = Ok r →
    Forall (λ t, 0 ≤ vt_amount t) (ex_value_transfers r);
  constructor_amounts : ∀ vm ctx r, execute_constructor vm ctx = Ok r →
    Forall (λ t, 0 ≤ vt_amount t) (ex_value_transfers r);
  execute_entry_transfer : ∀ vm ctx r, execute vm ctx = Ok r → ex_status r = StSuccess →
    cx_depth ctx = 0 → 0 < cx_value ctx → ex_value_transfers r ≠ []
}.

#[export] Instance novm_laws : VmLaws NoVm.
Proof. split; done. Qed.

Section StateProps.
Context `{HX : Hex, B3 : Blake3, B32 : Bech32}.
Context `{VM : VmExecutor V}.

(** ** Invariant of the state *)

Definition wf (s : State) : Prop := solid s ∧ in_range s ∧ storage_ok s.

#[export] Instance wf_dec s : Decision (wf s).
Proof. unfold wf. apply _. Defined.

(** Amounts are [u64]s and deployed code does not hash to the zero hash. *)
Definition tx_ok (tx : Transaction) : Prop :=
  match tx with
  | Transfer t => 0 ≤ tr_amount t
  | Create c => 0 ≤ cr_endowment c < two64 ∧ blake3 (cr_init_code c) ≠ zero32
  | Call c => 0 ≤ ca_value c
  end.

#[export] Instance tx_ok_dec tx : Decision (tx_ok tx).
Proof. destruct tx; cbn; apply _. Defined.

(** No undo record under a transaction id yet. *)
Definition undo_free (s : State) (id : list byte) : Prop :=
  storage_undo s !! id = None ∧ value_transfers_undo s !! id = None.

(** Room for [k] more increments of any nonce. *)
Definition nonce_room (k : Z) (s : State) : Prop :=
  k < two64 ∧ map_Forall (λ _ x, nonce x + k < two64) (balances s).

Lemma nonce_room_non k s a : nonce_room k s → non s a + k < two64.
Proof.
  intros [Hk H]. unfold get_nonce. destruct (balances s !! a) as [x|] eqn:E; cbn; [|lia].
  by apply (H a x E).
Qed.

(** The address a deployment gets is new, and is not the deployer's. *)
Definition deploy_fresh (chain_id : Z) (s : State) (tx : Transaction) : Prop :=
  match tx with
  | Create c =>
      match derive_contract_address (cr_from c) (non s (cr_from c)) chain_id with
      | Ok address => get_account s address = None ∧ address ≠ cr_from c
      | _ => True
      end
  | _ => True
  end.

#[export] Instance deploy_fresh_dec chain_id s tx : Decision (deploy_fresh chain_id s tx).
Proof. destruct tx; cbn; [apply _|destruct (derive_contract_address _ _ _); apply _|apply _]. Defined.

(** Unapplying [tx] on [s'], with receipt [r] on record, restores [s]. *)
Definition reverts (chain_id : Z) (tx : Transaction) (r : Receipt) (s s' : State) : Prop :=
  ∀ R i, list_find (λ x, rc_txid x = txid tx) R = Some (i, r) →
    unapply_tx chain_id (with_receipts s' R) tx = Ok (with_receipts s R).

Definition undo_frame (id : list byte) (s s' : State) : Prop :=
  ∀ i, i ≠ id → (undo_free s i → undo_free s' i).

Lemma was_success_receipt R i (r : Receipt) id s :
  receipts s = R → list_find (λ x, rc_txid x = id) R = Some (i, r) →
  was_success s id = bool_decide (rc_status r = StSuccess).
Proof. intros <- H. unfold was_success. by rewrite H. Qed.

(** ** Transfers *)

Lemma deduct_sender_debit s t s' :
  deduct_sender s t = Ok s' → debit s (tr_from t) (tr_amount t) = Ok s'.
Proof. unfold deduct_sender, debit. case_match; [done|]. done. Qed.

Lemma state_by_views s t :
  solid s → solid t → (∀ a, bal s a = bal t a) → (∀ a, non s a = non t a) →
  (∀ a, body s a = body t a) → rest s = rest t → s = t.
Proof. intros. apply state_ext; [by apply solid_ext|done]. Qed.

Lemma rest_with_receipts s t R : rest s = rest t → rest (with_receipts s R) = rest (with_receipts t R).
Proof. intros (H1 & H2 & H3 & H4)%rest_fields. unfold rest, with_balances. cbn. congruence. Qed.

(** Everything [apply_transfer] establishes about the account maps. *)
Lemma transfer_reverts chain_id s t m :
  solid s → in_range s → 0 ≤ tr_amount t → tr_is_coinbase t = false →
  move s (tr_from t) (tr_to t) (tr_amount t) = Ok m →
  ∀ R, unapply_tx chain_id (with_receipts (increment_nonce m t) R) (Transfer t)
       = Ok (with_receipts s R).
Proof.
  intros Hs Hi Hv Hcb Hm R. destruct (move_spec _ _ _ _ _ Hs Hi Hv Hm) as ((Hms & Hmi & Hrest & Hnon & Hbody) & _ & _ & Hu).
  unfold unapply_tx. rewrite Hcb. unfold increment_nonce.
  set (n1 := add64 (non m (tr_from t)) 1).
  destruct (set_nonce_spec m (tr_from t) n1 Hms) as (H1 & (Hr1 & Hb1 & Hc1) & Hn1 & _).
  set (t0 := with_receipts (set_nonce m (tr_from t) n1) R).
  unfold decrement_nonce. set (n0 := sub64 (non t0 (tr_from t)) 1).
  destruct (set_nonce_spec t0 (tr_from t) n0 H1) as (H2 & (Hr2 & Hb2 & Hc2) & Hn2 & _).
  destruct (Hu (set_nonce t0 (tr_from t) n0)) as (u & Eu & Hus & (Hr3 & Hn3 & Hc3) & Hb3).
  { done. }
  { intros a. rewrite Hb2. apply Hb1. }
  change (move (set_nonce t0 (tr_from t) n0) (tr_to t) (tr_from t) (tr_amount t) = Ok (with_receipts s R)).
  rewrite Eu. f_equal. apply state_by_views; [done|done|apply Hb3| | |].
  - intros a. rewrite Hn3, Hn2. change (non (with_receipts s R) a) with (non s a).
    assert (n0 = non s (tr_from t)) as ->.
    { unfold n0. change (non t0 (tr_from t)) with (non (set_nonce m (tr_from t) n1) (tr_from t)).
      rewrite Hn1, upd_eq. unfold n1. rewrite Hnon. by apply sub64_add64, in_range_non. }
    unfold upd. case_decide; [by subst|].
    change (non t0 a) with (non (set_nonce m (tr_from t) n1) a). by rewrite Hn1, upd_ne, Hnon.
  - intros a. rewrite Hc3, Hc2. change (body t0 a) with (body (set_nonce m (tr_from t) n1) a).
    rewrite Hc1. apply Hbody.
  - rewrite Hr3, Hr2. apply rest_with_receipts. by rewrite Hr1.
Qed.

Lemma storage_ok_ext s t : (∀ a, sview t a = sview s a) → storage_ok s → storage_ok t.
Proof. rewrite !storage_ok_views. intros H Hs a. by rewrite H. Qed.

Lemma sview_ext s t a :
  contract_storage t = contract_storage s → (∀ a, body t a = body s a) → sview t a = sview s a.
Proof. intros H1 H2. unfold sview. by rewrite H1, H2. Qed.

Lemma only_bal_sview s t a : only_bal s t → sview t a = sview s a.
Proof. intros (H & _ & Hb). apply sview_ext; [|done]. by apply rest_fields. Qed.
Lemma only_non_sview s t a : only_non s t → sview t a = sview s a.
Proof. intros (H & _ & Hb). apply sview_ext; [|done]. by apply rest_fields. Qed.

(** Incrementing a nonce, the common last or first action of a transaction. *)
Lemma bump_nonce_spec s k :
  wf s → let s' := set_nonce s k (add64 (non s k) 1) in
  wf s' ∧ only_non s s' ∧ (∀ a, non s' a = upd (non s) k (add64 (non s k) 1) a) ∧
  (∀ a, non s' a ≤ non s a + 1).
Proof.
  intros (Hs & Hi & Hok) s'. destruct (set_nonce_spec s k (add64 (non s k) 1) Hs) as (H1 & H2 & H3 & H4).
  split_and!; [|done|done|].
  - split_and!; [done|apply H4; [done|apply wrap64_range]|].
    apply (storage_ok_ext s); [|done]. intros a. by apply only_non_sview.
  - intros a. unfold s'. rewrite H3. unfold upd. case_decide; [subst|lia].
    pose proof (in_range_non s k Hi). unfold_width.
    apply Z.mod_le; lia.
Qed.

(** What a step guarantees about the states before and after. *)
Record step_ok (chain_id : Z) (tx : Transaction) (r : Receipt) (s s' : State) : Prop := {
  step_wf : wf s';
  step_undo : undo_frame (txid tx) s s';
  step_receipt : rc_txid r = txid tx;
  step_supply : supply s' ≤ supply s;
  step_supply_eq : (∀ c, tx ≠ Create c) → supply s' = supply s;
  step_nonce : ∀ a, non s' a ≤ Z.max 1 (non s a + 1);
  step_reverts : undo_free s (txid tx) → nonce_room 1 s → deploy_fresh chain_id s tx →
    reverts chain_id tx r s s'
}.

Lemma undo_frame_eq id s s' :
  storage_undo s' = storage_undo s → value_transfers_undo s' = value_transfers_undo s →
  undo_frame id s s'.
Proof. intros H1 H2 i _. unfold undo_free. by rewrite H1, H2. Qed.

Lemma transfer_step_ok chain_id block i s t m :
  wf s → tx_ok (Transfer t) → tr_is_coinbase t = false →
  move s (tr_from t) (tr_to t) (tr_amount t) = Ok m →
  ∀ vts, step_ok chain_id (Transfer t) (transfer_receipt (Transfer t) block i vts) s (increment_nonce m t).
Proof.
  intros (Hs & Hi & Hok) Hv Hcb Hm vts.
  destruct (move_spec _ _ _ _ _ Hs Hi Hv Hm) as ((Hms & Hmi & Hob) & _ & _ & _).
  assert (wf m) as Hwm.
  { split_and!; [done..|]. apply (storage_ok_ext s); [|done]. intros a. by apply only_bal_sview. }
  destruct (bump_nonce_spec m (tr_from t) Hwm) as (Hw & (Hr & Hb & _) & _ & Hn).
  assert (supply (increment_nonce m t) = supply s) as Hsup.
  { rewrite (supply_same m) by done. by eapply supply_move. }
  destruct Hob as (Hr0 & Hn0 & _).
  assert (rest (increment_nonce m t) = rest s) as (_ & _ & Hu1 & Hu2)%rest_fields by (by rewrite <- Hr0).
  split; [done|by apply undo_frame_eq|done|lia|done| |].
  - intros a. specialize (Hn a). rewrite (Hn0 a) in Hn. unfold increment_nonce. lia.
  - intros _ _ _ R j _. by apply transfer_reverts.
Qed.

(** ** Value transfers recorded under a transaction id *)

(** The first half of every undo: take the recorded transfers back. *)
Definition take_back (id : list byte) (t : State) : result CoreError State :=
  match value_transfers_undo t !! id with
  | Some ts => reverse_value_transfers (with_value_undo t (delete id (value_transfers_undo t))) ts
  | None => Ok t
  end.

(** Fields other than balances and the value-transfer record. *)
Definition value_frame (s t : State) : Prop :=
  contract_storage t = contract_storage s ∧ receipts t = receipts s ∧
  storage_undo t = storage_undo s ∧ (∀ a, non t a = non s a) ∧ (∀ a, body t a = body s a).

Lemma only_bal_value_frame s t : only_bal s t → value_frame s t.
Proof. intros ((?&?&?&?)%rest_fields & ? & ?). by split_and!. Qed.

Lemma commit_spec id ts s s' :
  solid s → in_range s → Forall (λ t, 0 ≤ vt_amount t) ts →
  commit_value_transfers s id ts = Ok s' →
  solid s' ∧ in_range s' ∧ value_frame s s' ∧ supply s' = supply s ∧
  (∀ i, i ≠ id → value_transfers_undo s' !! i = value_transfers_undo s !! i) ∧
  (ts ≠ [] → is_Some (value_transfers_undo s' !! id)) ∧
  (value_transfers_undo s !! id = None →
   ∀ t, solid t → (∀ a, bal t a = bal s' a) → value_transfers_undo t = value_transfers_undo s' →
     ∃ t', take_back id t = Ok t' ∧ solid t' ∧ (∀ a, bal t' a = bal s a) ∧
       value_frame t t' ∧ value_transfers_undo t' = value_transfers_undo s).
Proof.
  intros Hs Hi Hts H. unfold commit_value_transfers in H. destruct ts as [|x ts].
  { inv_result. split_and!; [done..|]. intros Hnone t Ht Hb Hu. exists t. unfold take_back.
    rewrite Hu, Hnone. done. }
  apply bind_ok_inv in H as (m & H1 & H2). injection H2 as <-.
  destruct (commit_fold_spec _ _ _ Hs Hi Hts H1) as ((Hm & Hmi & Hob) & Hundo).
  pose proof (only_bal_value_frame _ _ Hob) as Hvf.
  destruct Hob as ((_ & _ & _ & Hv)%rest_fields & _).
  split_and!; [done|done|exact Hvf| | | |].
  - exact (supply_commit (x :: ts) s m Hs Hi Hts H1).
  - intros i Hne. cbn. rewrite lookup_insert_ne by done. by rewrite Hv.
  - intros _. cbn. rewrite lookup_insert_eq. eauto.
  - intros Hnone t Ht Hb Hu. unfold take_back, reverse_value_transfers.
    cbn [value_transfers_undo with_value_undo] in Hu. rewrite Hv in Hu. rewrite Hu, lookup_insert_eq.
    rewrite delete_insert_eq, delete_id by done.
    destruct (Hundo (with_value_undo t (value_transfers_undo s))) as (t' & E & Ht' & Ho & Hb'); [done|done|].
    exists t'. pose proof (only_bal_value_frame _ _ Ho) as Hvf'.
    destruct Ho as ((_ & _ & _ & Hv')%rest_fields & _).
    split_and!; [exact E|done|done|exact Hvf'|done].
Qed.

(** ** Calls *)

Lemma checked_decrement s s' k :
  in_range s → nonce_room 1 s → non s' k = add64 (non s k) 1 →
  checked_sub64 (non s' k) 1 = Some (non s k).
Proof.
  intros Hi Hroom ->. pose proof (in_range_non s k Hi). pose proof (nonce_room_non 1 s k Hroom).
  unfold add64. rewrite wrap64_small by (unfold in_u64 in *; lia).
  apply checked_sub64_Some. unfold in_u64 in *. lia.
Qed.

(** Undoing the nonce increment of [s1] on a state with the nonces of [s1]. *)
Lemma nonce_back s s1 k t :
  (∀ a, non s1 a = upd (non s) k (add64 (non s k) 1) a) → solid t → (∀ a, non t a = non s1 a) →
  let t' := set_nonce t k (non s k) in
  solid t' ∧ only_non t t' ∧ (∀ a, non t' a = non s a).
Proof.
  intros H1 Ht Hn t'. destruct (set_nonce_spec t k (non s k) Ht) as (H2 & H3 & H4 & _).
  split_and!; [done..|]. intros a. unfold t'. rewrite H4. unfold upd. case_decide; [by subst|].
  by rewrite Hn, H1, upd_ne.
Qed.

Lemma unapply_call_shape chain_id t c n :
  checked_sub64 (non t (ca_from c)) 1 = Some n →
  (was_success t (txid (Call c)) = true → 0 < ca_value c →
     is_Some (value_transfers_undo t !! txid (Call c))) →
  unapply_tx chain_id t (Call c) =
  (t2 ← (if was_success t (txid (Call c)) then take_back (txid (Call c)) (set_nonce t (ca_from c) n)
         else Ok (set_nonce t (ca_from c) n));
   Ok (unapply_call_storage t2 (txid (Call c)))).
Proof.
  intros Hn Hval. cbn [unapply_tx]. unfold unapply_call. rewrite Hn. cbn [ok_or mbind result_bind].
  assert (rest (set_nonce t (ca_from c) n) = rest t) as (_ & Hrec & _ & Hvu)%rest_fields
    by (rewrite set_nonce_put; apply rest_put).
  assert (was_success (set_nonce t (ca_from c) n) (txid (Call c)) = was_success t (txid (Call c))) as ->
    by (unfold was_success; by rewrite Hrec).
  destruct (was_success t (txid (Call c))); [|done]. unfold take_back. rewrite Hvu.
  destruct (value_transfers_undo t !! txid (Call c)); [done|].
  destruct (Z.ltb_spec 0 (ca_value c)) as [Hlt|]; [|done]. by destruct (Hval eq_refl Hlt).
Qed.

Lemma call_success_step chain_id s c ts s2 s' r :
  let id := txid (Call c) in
  let s1 := set_nonce s (ca_from c) (add64 (non s (ca_from c)) 1) in
  wf s → Forall (λ t, 0 ≤ vt_amount t) ts → (0 < ca_value c → ts ≠ []) →
  commit_value_transfers s1 id ts = Ok s2 → storage_step id s2 s' →
  rc_txid r = id → rc_status r = StSuccess →
  step_ok chain_id (Call c) r s s'.
Proof.
  intros id s1 Hwf Hts Hval Hc (Hsf & Hsok & _ & Hsu & Hback) Hid Hstat.
  destruct (bump_nonce_spec s (ca_from c) Hwf) as ((Hs1 & Hi1 & Hok1) & (Hr1 & Hb1 & Hc1) & Hn1 & Hle1).
  fold s1 in Hs1, Hi1, Hok1, Hr1, Hb1, Hc1, Hn1, Hle1.
  destruct (rest_fields _ _ Hr1) as (F1 & F2 & F3 & F4).
  destruct (commit_spec id ts s1 s2) as (Hs2 & Hi2 & (V1 & V2 & V3 & V4 & V5) & Hsup & Hvu & Hrec & Htb);
    [done..|].
  destruct Hsf as (G1 & G2 & G3 & G4 & G5 & G6).
  assert (supply s' = supply s) as Hsupply.
  { rewrite (supply_same s2), Hsup by done. by apply supply_same. }
  split; [by split_and!; auto| |done|lia|done| |].
  - intros i Hne [? ?]. split; [rewrite Hsu, V3, F3 by done|rewrite G2, Hvu, F4 by done]; done.
  - intros a. rewrite G4, V4. specialize (Hle1 a). lia.
  - intros [Hfs Hfv] Hroom _ R i Hfind. fold id in Hfs, Hfv. set (t0 := with_receipts s' R).
    rewrite (unapply_call_shape chain_id t0 c (non s (ca_from c))).
    2: { apply (checked_decrement s); [apply Hwf|done|]. change (non t0 (ca_from c)) with (non s' (ca_from c)).
         by rewrite G4, V4, Hn1, upd_eq. }
    2: { intros _ Hpos. change (value_transfers_undo t0) with (value_transfers_undo s').
         rewrite G2. by apply Hrec, Hval. }
    rewrite (was_success_receipt R i r) by done. rewrite bool_decide_eq_true_2 by done.
    destruct (nonce_back s s1 (ca_from c) t0) as (T1 & (Tr & Tb & Tc) & Tn); [done|by apply G5| |].
    { intros a. change (non t0 a) with (non s' a). by rewrite G4, V4. }
    set (t1 := set_nonce t0 (ca_from c) (non s (ca_from c))) in *.
    destruct (rest_fields _ _ Tr) as (R1 & R2 & R3 & R4).
    destruct (Htb ltac:(by rewrite F4) t1) as (t2 & E2 & U1 & U2 & (W1 & W2 & W3 & W4 & W5) & U4); [done| | |].
    { intros a. rewrite Tb. apply G3. }
    { by rewrite R4. }
    fold id. rewrite E2. cbn [mbind result_bind]. f_equal.
    destruct (Hback ltac:(by rewrite V3, F3) t2) as ((X1 & X2 & X3 & X4 & X5 & _) & Y & Z).
    { by rewrite W3, R3. }
    { intros a. transitivity (sview t1 a); [by apply sview_ext|]. apply sview_ext; [by rewrite R1|done]. }
    assert (∀ a, sview (unapply_call_storage t2 id) a = sview s a) as HZ.
    { intros a. rewrite Z. transitivity (sview s1 a); [by apply sview_ext|by apply sview_ext]. }
    apply state_by_views; [by apply X5|apply Hwf| | | |].
    + intros a. rewrite X3, U2. apply Hb1.
    + intros a. rewrite X4, W4. apply Tn.
    + intros a. exact (f_equal snd (HZ a)).
    + assert (contract_storage (unapply_call_storage t2 id) = contract_storage s) as E5.
      { apply map_eq. intros a. exact (f_equal fst (HZ a)). }
      unfold rest, with_balances. cbn. rewrite E5, X1, W2, R2, Y, V3, F3, X2, U4, F4. done.
Qed.

Lemma call_failed_step chain_id s c r :
  let id := txid (Call c) in
  wf s → rc_txid r = id → rc_status r ≠ StSuccess →
  step_ok chain_id (Call c) r s (set_nonce s (ca_from c) (add64 (non s (ca_from c)) 1)).
Proof.
  intros id Hwf Hid Hstat.
  destruct (bump_nonce_spec s (ca_from c) Hwf) as (Hw1 & (Hr1 & Hb1 & Hc1) & Hn1 & Hle1).
  set (s1 := set_nonce _ _ _) in *. destruct (rest_fields _ _ Hr1) as (F1 & F2 & F3 & F4).
  assert (supply s1 = supply s) as Hsup by by apply supply_same.
  split; [done|by apply undo_frame_eq|done|lia|done| |].
  - intros a. specialize (Hle1 a). lia.
  - intros [Hfs Hfv] Hroom _ R i Hfind. fold id in Hfs, Hfv. set (t0 := with_receipts s1 R).
    assert (was_success t0 id = false) as Hws.
    { rewrite (was_success_receipt R i r) by done. by apply bool_decide_eq_false_2. }
    rewrite (unapply_call_shape chain_id t0 c (non s (ca_from c))).
    2: { apply (checked_decrement s); [apply Hwf|done|]. change (non t0 (ca_from c)) with (non s1 (ca_from c)).
         by rewrite Hn1, upd_eq. }
    2: { fold id. by rewrite Hws. }
    fold id. rewrite Hws. cbn [mbind result_bind]. f_equal.
    destruct (nonce_back s s1 (ca_from c) t0) as (T1 & (Tr & Tb & Tc) & Tn); [done|apply Hw1|done|].
    set (t1 := set_nonce t0 (ca_from c) (non s (ca_from c))) in *.
    assert (unapply_call_storage t1 id = t1) as ->.
    { unfold unapply_call_storage. destruct (rest_fields _ _ Tr) as (_ & _ & R3 & _).
      rewrite R3. change (storage_undo t0) with (storage_undo s1). by rewrite F3, Hfs. }
    apply state_by_views; [done|apply Hwf| |done| |].
    + intros a. rewrite Tb. apply Hb1.
    + intros a. rewrite Tc. apply Hc1.
    + rewrite Tr. by apply rest_with_receipts.
Qed.

Context `{VL : !VmLaws V}.

Lemma call_step_ok chain_id s block c vm i s' r :
  wf s → tx_ok (Call c) →
  apply_call s block c vm i = Ok (s', r) → step_ok chain_id (Call c) r s s'.
Proof.
  intros Hwf Hv H. unfold apply_call in H. case_match; [done|].
  destruct (bump_nonce_spec s (ca_from c) Hwf) as ((Hs1 & Hi1 & Hok1) & (Hr1 & _) & _).
  set (s1 := set_nonce s (ca_from c) (add64 (non s (ca_from c)) 1)) in *.
  assert (∀ ts s2, Forall (λ t, 0 ≤ vt_amount t) ts →
            commit_value_transfers s1 (txid (Call c)) ts = Ok s2 → storage_ok s2) as Hcommit.
  { intros ts s2 Hts Hc. destruct (commit_spec (txid (Call c)) ts s1 s2 Hs1 Hi1 Hts) as (_ & _ & (V1 & _ & V3 & _ & V5) & _);
      [done|].
    apply (storage_ok_ext s1); [|done]. intros a. by apply sview_ext. }
  destruct (negb _).
  - apply bind_ok_inv in H as (s2 & Hc & H2). injection H2 as <- <-.
    set (ts := if 0 <? ca_value c then _ else _) in *.
    assert (Forall (λ t, 0 ≤ vt_amount t) ts) as Hts.
    { unfold ts. destruct (0 <? ca_value c); constructor; [exact Hv|constructor]. }
    pose proof (Hcommit _ _ Hts Hc).
    apply (call_success_step chain_id s c ts s2); [done..| |done|by apply storage_step_refl|done|done].
    unfold ts. by destruct (Z.ltb_spec 0 (ca_value c)); [|lia].
  - destruct (execute vm _) as [res|e|] eqn:Ex; [| |done].
    + apply bind_ok_inv in H as (s3 & H3 & H4). injection H4 as <- <-. case_decide as Hst.
      * apply bind_ok_inv in H3 as (s2 & Hc & H2). injection H2 as <-.
        pose proof (execute_amounts _ _ _ Ex) as Hts. pose proof (Hcommit _ _ Hts Hc).
        apply (call_success_step chain_id s c (ex_value_transfers res) s2); [done..| |done|by apply flush_spec|done|done].
        intros Hpos. by apply (execute_entry_transfer _ _ _ Ex).
      * injection H3 as <-. by apply call_failed_step.
    + injection H as <- <-. apply call_failed_step; [done..|]. by destruct e.
Qed.

(** ** Deployments *)

(** The account a deployment installs before the constructor runs. *)
Definition new_contract (c : CreateTx) : Account :=
  Contract {| ct_code_hash := blake3 (cr_init_code c); ct_storage_root := zero32;
              ct_nonce := 1; ct_balance := cr_endowment c |}.

(** The state the constructor runs in. *)
Definition deployed (s : State) (c : CreateTx) (address : string) : State :=
  set_nonce (set_account s address (new_contract c)) (cr_from c) (add64 (non s (cr_from c)) 1).

Lemma not_contract_body s a :
  bool_decide (is_contract <$> get_account s a = Some true) = false → body s a = None.
Proof.
  rewrite bool_decide_eq_false. unfold get_account, body.
  destruct (balances s !! a) as [[]|]; cbn; done.
Qed.

Lemma no_contract_no_storage s a : storage_ok s → body s a = None → contract_storage s !! a = None.
Proof.
  intros [H _]%storage_ok_alt Hb. destruct (contract_storage s !! a) eqn:E; [|done].
  destruct (H a _ E) as [_ Hs]. rewrite Hb in Hs. by destruct Hs.
Qed.

Lemma deployed_spec s c address :
  wf s → tx_ok (Create c) → body s address = None →
  let s2 := deployed s c address in
  wf s2 ∧ rest s2 = rest s ∧ (∀ a, bal s2 a = upd (bal s) address (cr_endowment c) a) ∧
  (∀ a, non s2 a = upd (upd (non s) address 1) (cr_from c) (add64 (non s (cr_from c)) 1) a) ∧
  (∀ a, body s2 a = upd (body s) address (Some (blake3 (cr_init_code c), zero32)) a).
Proof.
  intros (Hs & Hi & Hok) [He Hcode] Hnb s2.
  destruct (set_account_spec s address (new_contract c) Hs Hcode) as (S1 & Sr & Sb & Sn & Sc & Si).
  unfold s2, deployed. set (s1 := set_account _ _ _) in *.
  destruct (set_nonce_spec s1 (cr_from c) (add64 (non s (cr_from c)) 1) S1) as (T1 & (Tr & Tb & Tc) & Tn & Ti).
  set (s2' := set_nonce _ _ _) in *.
  assert (∀ a, body s2' a = upd (body s) address (Some (blake3 (cr_init_code c), zero32)) a) as Hbody
    by (intros a; by rewrite Tc, Sc).
  assert (rest s2' = rest s) as Hrest by congruence.
  split_and!; [|done| | |done].
  - split_and!; [done|apply Ti; [apply Si; done|apply wrap64_range]|].
    pose proof (no_contract_no_storage s address Hok Hnb) as Hst.
    apply storage_ok_views. intros a. unfold sview. rewrite Hbody.
    destruct (rest_fields _ _ Hrest) as (-> & _). unfold upd. case_decide as Ea.
    + subst a. rewrite Hst. split; cbn; [done|]. by intros ?? [= <- <-].
    + by apply storage_ok_views.
  - intros a. rewrite Tb. by rewrite Sb.
  - intros a. rewrite Tn. unfold upd. case_decide; [done|]. rewrite Sn. done.
Qed.

(** Removing the deployed account and stepping the nonce back restores the
    state before the deployment. *)
Lemma undeploy s c address t R :
  wf s → get_account s address = None → address ≠ cr_from c →
  solid t → receipts t = R → storage_undo t = storage_undo s →
  value_transfers_undo t = value_transfers_undo s →
  (∀ a, a ≠ address → bal t a = bal s a ∧ contract_storage t !! a = contract_storage s !! a ∧ body t a = body s a) →
  (∀ a, a ≠ address → a ≠ cr_from c → non t a = non s a) →
  (let t := set_account t address account_default in
   let t := with_storage t (delete address (contract_storage t)) in
   set_nonce t (cr_from c) (non s (cr_from c))) = with_receipts s R.
Proof.
  intros (Hs & Hi & Hok) Hnone Hne Ht HR Hsu Hvu Hfar Hnon.
  destruct (set_account_spec t address account_default Ht I) as (S1 & Sr & Sb & Sn & Sc & _).
  destruct (rest_fields _ _ Sr) as (G1 & G2 & G3 & G4).
  cbn zeta. set (t1 := set_account _ _ _) in *. clearbody t1.
  set (t2 := with_storage t1 _).
  destruct (set_nonce_spec t2 (cr_from c) (non s (cr_from c)) S1) as (T1 & (Tr & Tb & Tc) & Tn & _).
  assert (body s address = None) as Hnb by (unfold body; unfold get_account in Hnone; by rewrite Hnone).
  assert (bal s address = 0 ∧ non s address = 0) as [Hb0 Hn0]
    by (unfold get_balance, get_nonce; unfold get_account in Hnone; by rewrite Hnone).
  apply state_by_views; [done|done| | | |].
  - intros a. rewrite Tb. change (bal t1 a = bal s a). rewrite Sb. unfold upd.
    case_decide; [by subst|]. by apply Hfar.
  - intros a. rewrite Tn. change (upd (non t1) (cr_from c) (non s (cr_from c)) a = non s a).
    unfold upd. case_decide; [by subst|]. rewrite Sn. unfold upd. case_decide; [by subst|]. by apply Hnon.
  - intros a. rewrite Tc. change (body t1 a = body s a). rewrite Sc. unfold upd.
    case_decide; [by subst|]. by apply Hfar.
  - rewrite Tr. unfold t2, rest, with_balances, with_storage. cbn. rewrite G1, G2, G3, G4, HR, Hsu, Hvu.
    f_equal. apply map_eq. intros a. destruct (decide (a = address)) as [->|].
    + rewrite lookup_delete_eq. symmetry. by apply no_contract_no_storage.
    + rewrite lookup_delete_ne by done. by apply Hfar.
Qed.

Lemma create_failed_step chain_id s c address r :
  let id := txid (Create c) in
  wf s → tx_ok (Create c) → body s address = None →
  derive_contract_address (cr_from c) (non s (cr_from c)) chain_id = Ok address →
  rc_txid r = id → rc_status r ≠ StSuccess →
  step_ok chain_id (Create c) r s (set_account (deployed s c address) address account_default).
Proof.
  intros id Hwf Htx Hnb Hder Hid Hstat.
  destruct (deployed_spec s c address Hwf Htx Hnb) as ((Hs2 & Hi2 & Hok2) & Hr2 & Hb2 & Hn2 & Hc2).
  set (s2 := deployed s c address) in *.
  destruct (set_account_spec s2 address account_default Hs2 I) as (S1 & Sr & Sb & Sn & Sc & Si).
  set (s' := set_account _ _ _) in *. assert (rest s' = rest s) as Hrest by congruence.
  destruct (rest_fields _ _ Hrest) as (F1 & F2 & F3 & F4).
  assert (supply s' ≤ supply s) as Hsup.
  { rewrite (supply_upd s2 s' _ _ Sb), (supply_upd s s2 _ _ Hb2), Hb2, upd_eq. cbn.
    destruct Hwf as (_ & Hi & _). pose proof (in_range_bal s address Hi) as Hp. unfold in_u64 in Hp. lia. }
  assert (∀ a, body s' a = body s a) as Hbody.
  { intros a. rewrite Sc. unfold upd. case_decide; [by subst|]. by rewrite Hc2, upd_ne. }
  split; [|by apply undo_frame_eq|done|done| | |].
  - split_and!; [done|by apply Si|]. apply (storage_ok_ext s); [|apply Hwf]. intros a. by apply sview_ext.
  - intros H. by destruct (H c).
  - intros a. rewrite Sn. unfold upd at 1. destruct Hwf as (_ & Hi & _).
    pose proof (in_range_non s a Hi) as Hp. unfold in_u64 in Hp. case_decide; [cbn; lia|].
    rewrite Hn2. unfold upd. case_decide; [|case_decide; lia]. subst.
    assert (add64 (non s (cr_from c)) 1 ≤ non s (cr_from c) + 1) by (apply Z.mod_le; lia). lia.
  - intros [Hfs Hfv] Hroom Hfresh R i Hfind. fold id in Hfs, Hfv. cbn in Hfresh. rewrite Hder in Hfresh. destruct Hfresh as [Hnone Hne].
    set (t0 := with_receipts s' R). cbn [unapply_tx]. unfold unapply_create. fold id.
    assert (checked_sub64 (non t0 (cr_from c)) 1 = Some (non s (cr_from c))) as ->.
    { apply (checked_decrement s); [apply Hwf|done|]. change (non t0 (cr_from c)) with (non s' (cr_from c)).
      by rewrite Sn, upd_ne, Hn2, upd_eq by done. }
    cbn [ok_or mbind result_bind]. rewrite Hder. cbn [mbind result_bind].
    rewrite (was_success_receipt R i r) by done. rewrite bool_decide_eq_false_2 by done.
    assert (unapply_call_storage t0 id = t0) as ->.
    { unfold unapply_call_storage. change (storage_undo t0) with (storage_undo s'). by rewrite F3, Hfs. }
    cbn [mbind result_bind]. f_equal.
    apply (undeploy s c address (with_value_undo t0 (delete id (value_transfers_undo t0))) R); [done..| | | |].
    + change (storage_undo s' = storage_undo s). done.
    + change (delete id (value_transfers_undo s') = value_transfers_undo s). by rewrite F4, delete_id.
    + intros a Ha. split_and!; [|by rewrite <- F1|by rewrite <- Hbody].
      change (bal s' a = bal s a). by rewrite Sb, upd_ne, Hb2, upd_ne.
    + intros a Ha Hf. change (non s' a = non s a). by rewrite Sn, upd_ne, Hn2, upd_ne, upd_ne.
Qed.

(** Taking back a successful deployment's transfers and endowment. *)
Lemma create_success_step chain_id s c address ts s3 s4 s5 r :
  let id := txid (Create c) in
  wf s → tx_ok (Create c) → body s address = None →
  derive_contract_address (cr_from c) (non s (cr_from c)) chain_id = Ok address →
  storage_step id (deployed s c address) s3 →
  debit s3 (cr_from c) (cr_endowment c) = Ok s4 →
  Forall (λ t, 0 ≤ vt_amount t) ts → commit_value_transfers s4 id ts = Ok s5 →
  rc_txid r = id → rc_status r = StSuccess → step_ok chain_id (Create c) r s s5.
Proof.
  intros id Hwf Htx Hnb Hder (Hsf & Hok3 & Hb3 & Hsu3 & Hback) Hdeb Hts Hcom Hid Hstat.
  destruct (deployed_spec s c address Hwf Htx Hnb) as ((Hs2 & Hi2 & Hok2) & Hr2 & Hb2 & Hn2 & Hc2).
  set (s2 := deployed s c address) in *. destruct Hsf as (G1 & G2 & G3 & G4 & G5 & G6).
  specialize (G5 Hs2). specialize (G6 Hi2). destruct (rest_fields _ _ Hr2) as (F1 & F2 & F3 & F4).
  destruct Htx as [Hend Hcode].
  destruct (debit_step _ _ _ _ G5 G6 (proj1 Hend) Hdeb) as (D1 & D2 & Dob).
  pose proof (credit_undoes_debit _ _ _ _ G5 G6 Hdeb) as Dundo.
  destruct (debit_spec _ _ _ _ G5 Hdeb) as (_ & _ & _ & Db & _).
  destruct (only_bal_value_frame _ _ Dob) as (E1 & E2 & E3 & E4 & E5).
  destruct Dob as ((_ & _ & _ & E6)%rest_fields & _).
  destruct (commit_spec id ts s4 s5 D1 D2 Hts) as (C1 & C2 & (V1 & V2 & V3 & V4 & V5) & Csup & Cvu & _ & Ctb);
    [done|].
  assert (∀ a, sview s5 a = sview s3 a) as Hview.
  { intros a. transitivity (sview s4 a); by apply sview_ext. }
  split; [| |done| | | |].
  - split_and!; [done|done|]. by apply (storage_ok_ext s3).
  - intros i Hne [? ?]. split; [by rewrite V3, E3, Hsu3, F3|by rewrite Cvu, E6, G2, F4].
  - rewrite Csup, (supply_bump _ _ _ _ Db), (supply_same s2 s3 G3), (supply_upd s s2 _ _ Hb2).
    destruct Hwf as (_ & Hi & _). pose proof (in_range_bal s address Hi) as Hp. unfold in_u64 in Hp. lia.
  - intros H. by destruct (H c).
  - intros a. rewrite V4, E4, G4, Hn2. destruct Hwf as (_ & Hi & _).
    pose proof (in_range_non s a Hi) as Hp. unfold in_u64 in Hp.
    unfold upd. case_decide; [|case_decide; lia]. subst.
    assert (add64 (non s (cr_from c)) 1 ≤ non s (cr_from c) + 1) by (apply Z.mod_le; lia). lia.
  - intros [Hfs Hfv] Hroom Hfresh R i Hfind. fold id in Hfs, Hfv. cbn in Hfresh. rewrite Hder in Hfresh. destruct Hfresh as [Hnone Hne].
    set (t0 := with_receipts s5 R). cbn [unapply_tx]. unfold unapply_create. fold id.
    assert (checked_sub64 (non t0 (cr_from c)) 1 = Some (non s (cr_from c))) as ->.
    { apply (checked_decrement s); [apply Hwf|done|]. change (non t0 (cr_from c)) with (non s5 (cr_from c)).
      by rewrite V4, E4, G4, Hn2, upd_eq. }
    cbn [ok_or mbind result_bind]. rewrite Hder. cbn [mbind result_bind].
    rewrite (was_success_receipt R i r) by done. rewrite bool_decide_eq_true_2 by done.
    destruct (Hback ltac:(by rewrite F3) t0) as ((X1 & X2 & X3 & X4 & X5 & _) & Y & Z).
    { change (storage_undo s5 = storage_undo s3). by rewrite V3, E3. }
    { intros a. apply (Hview a). }
    set (t1 := unapply_call_storage t0 id) in *. clearbody t1. specialize (X5 C1).
    destruct (Ctb ltac:(by rewrite E6, G2, F4) t1) as (t2 & K1 & K2 & K3 & (W1 & W2 & W3 & W4 & W5) & K5); [done|done|done|].
    change (match value_transfers_undo t1 !! id with
            | Some transfers => reverse_value_transfers (with_value_undo t1 (delete id (value_transfers_undo t1))) transfers
            | None => Ok t1 end) with (take_back id t1).
    rewrite K1. cbn [mbind result_bind].
    destruct (Dundo t2) as (t3 & L1 & L2 & Lo & L4); [done|done|].
    change (ok_or (checked_add64 (bal t2 (cr_from c)) (cr_endowment c)) StateOverflow
            ≫= (λ new_balance, Ok (set_balance t2 (cr_from c) new_balance))) with
           (credit t2 (cr_from c) (cr_endowment c)).
    rewrite L1. cbn [mbind result_bind]. f_equal.
    destruct (only_bal_value_frame _ _ Lo) as (M1 & M2 & M3 & M4 & M5).
    destruct Lo as ((_ & _ & _ & M6)%rest_fields & _).
    apply (undeploy s c address t3 R); [done..| | | | |].
    + by rewrite M2, W2, X1.
    + by rewrite M3, W3, Y, F3.
    + by rewrite M6, K5, E6, G2, F4.
    + intros a Ha. pose proof (Z a) as Za. unfold sview in Za. injection Za as Za1 Za2.
      split_and!; [by rewrite L4, G3, Hb2, upd_ne|by rewrite M1, W1, Za1, F1|].
      by rewrite M5, W5, Za2, Hc2, upd_ne.
    + intros a Ha Hf. rewrite M4, W4, X4. change (non t0 a) with (non s5 a).
      by rewrite V4, E4, G4, Hn2, upd_ne, upd_ne.
Qed.

Lemma create_step_ok s c chain_id vm block i s' vm' r :
  wf s → tx_ok (Create c) →
  apply_create s c chain_id vm block i = Ok (s', vm', r) → step_ok chain_id (Create c) r s s'.
Proof.
  intros Hwf Htx H. unfold apply_create in H.
  apply bind_ok_inv in H as (address & Hder & H). destruct (bool_decide _) eqn:Hc; [done|].
  apply not_contract_body in Hc. destruct (_ <? _); [done|].
  apply bind_ok_inv in H as (vm1 & _ & H).
  change (set_nonce _ (cr_from c) _) with (deployed s c address) in H.
  destruct (deployed_spec s c address Hwf Htx Hc) as ((_ & _ & Hok2) & (_ & _ & F3 & _)%rest_fields & _).
  destruct (execute_constructor vm1 _) as [res|e|] eqn:Ex; [| |done].
  - case_decide as Hst.
    + apply bind_ok_inv in H as (b & Hb & H). apply bind_ok_inv in H as (s5 & H5 & H).
      injection H as <- _ <-.
      eapply (create_success_step chain_id s c address (ex_value_transfers res)
                (flush_storage_writes (deployed s c address) res (txid (Create c)))); [done..| | | | | |].
      * by apply flush_spec.
      * unfold debit. rewrite Hb. reflexivity.
      * by apply (constructor_amounts _ _ _ Ex).
      * exact H5.
      * done.
      * done.
    + injection H as <- _ <-. by apply create_failed_step.
  - injection H as <- _ <-. apply create_failed_step; [done..|]. by destruct e.
Qed.

Lemma apply_tx_step chain_id block s vm rs i tx s' vm' rs' :
  wf s → tx_ok tx → is_coinbase tx = false →
  apply_tx block chain_id (s, vm, rs) (i, tx) = Ok (s', vm', rs') →
  ∃ r, rs' = rs ++ [r] ∧ step_ok chain_id tx r s s'.
Proof.
  intros Hwf Htx Hcb H. unfold apply_tx in H. rewrite Hcb in H. destruct tx as [t|c|c].
  - apply bind_ok_inv in H as (m & H1%deduct_sender_debit & H). apply bind_ok_inv in H as (m' & H2 & H).
    injection H as <- _ <-. eexists. split; [done|]. apply transfer_step_ok; [done..|].
    unfold move. rewrite H1. exact H2.
  - destruct vm as [vm|]; [|done]. apply bind_ok_inv in H as ([[s1 vm1] r] & H1 & H).
    injection H as <- _ <-. exists r. split; [done|]. by eapply create_step_ok.
  - destruct vm as [vm|]; [|done]. apply bind_ok_inv in H as ([s1 r] & H1 & H).
    injection H as <- _ <-. exists r. split; [done|]. by eapply call_step_ok.
Qed.
End StateProps.
