(* ===== verification/BlockProps.v ===== *)
(** * Properties of block application

    Theorems on whole blocks: the invariant, the supply, the receipts, the exact
    ledger semantics of transfer blocks, and reorganisation safety. *)

From S2P Require Import Prelude Bytes Abi Types Address Concrete Serialize Consensus Emission SparseMerkle State StateViews StateStorage StateProps.
Open Scope Z_scope.

Section BlockProps.
Context `{HX : Hex, B3 : Blake3, B32 : Bech32}.
Context `{VM : VmExecutor V} `{VL : !VmLaws V}.

Lemma enumerate_snd txs : (enumerate txs).*2 = txs.
Proof.
  unfold enumerate. rewrite fmap_imap. rewrite (imap_ext _ (λ _ tx, tx)) by done.
  induction txs as [|x l IH]; cbn; [done|]. f_equal. done.
Qed.

(** ** The transaction loop *)

Lemma apply_txs_ok block chain_id itxs s vm rs s' vm' rs' :
  wf s → Forall (λ p, tx_ok p.2) itxs →
  foldM (apply_tx block chain_id) (s, vm, rs) itxs = Ok (s', vm', rs') →
  wf s' ∧ supply s' ≤ supply s ∧
  (Forall (λ p, ∀ c, p.2 ≠ Create c) itxs → supply s' = supply s) ∧
  ∃ rs2, rs' = rs ++ rs2 ∧
    rc_txid <$> rs2 = txid <$> filter (λ tx, is_coinbase tx = false) itxs.*2.
Proof.
  revert s vm rs. induction itxs as [|[i tx] itxs IH]; intros s vm rs Hwf Hok H; cbn [foldM] in H.
  { injection H as <- _ <-. split_and!; [done|lia|done|]. exists []. by rewrite app_nil_r. }
  apply Forall_cons in Hok as [Htx Hok]. apply bind_ok_inv in H as ([[s1 vm1] rs1] & H1 & H2).
  rewrite fmap_cons, filter_cons. cbn [snd]. destruct (is_coinbase tx) eqn:Hcb.
  - unfold apply_tx in H1. rewrite Hcb in H1. injection H1 as <- <- <-.
    rewrite decide_False by done.
    destruct (IH _ _ _ Hwf Hok H2) as (? & ? & He & ?). split_and!; [done..| |done].
    intros [_ Hc]%Forall_cons. by apply He.
  - rewrite decide_True by done.
    destruct (apply_tx_step _ _ _ _ _ _ _ _ _ _ Hwf Htx Hcb H1) as (r & -> & [W _ Hr Hsle Hseq _ _]).
    destruct (IH _ _ _ W Hok H2) as (? & ? & He & rs2 & -> & Hrs).
    split_and!; [done|lia| |].
    + intros [Hc Hcs]%Forall_cons. rewrite He, Hseq; done.
    + exists (r :: rs2). rewrite <- app_assoc. split; [done|]. rewrite !fmap_cons. by rewrite Hr, Hrs.
Qed.

(** Every deployment of the loop gets an address that is new when it runs. *)
Fixpoint deploys_fresh (block : Block) (chain_id : Z) (w : Work) (itxs : list (Z * Transaction)) : Prop :=
  match itxs with
  | [] => True
  | itx :: itxs =>
      deploy_fresh chain_id w.1.1 itx.2 ∧
      match apply_tx block chain_id w itx with
      | Ok w' => deploys_fresh block chain_id w' itxs
      | _ => True
      end
  end.

#[export] Instance deploys_fresh_dec block chain_id w itxs :
  Decision (deploys_fresh block chain_id w itxs).
Proof.
  revert w. induction itxs as [|itx itxs IH]; intros w; cbn; [apply _|].
  apply and_dec; [apply _|]. destruct (apply_tx block chain_id w itx); [apply IH|apply _|apply _].
Defined.

Lemma nonce_room_step k s s' :
  0 ≤ k → wf s → wf s' → (∀ a, non s' a ≤ Z.max 1 (non s a + 1)) →
  nonce_room (k + 1) s → nonce_room k s'.
Proof.
  intros Hk (_ & Hi & _) _ Hn Hroom. split; [destruct Hroom; lia|]. intros a x Hx.
  specialize (Hn a). pose proof (nonce_room_non _ _ a Hroom) as Hr. destruct Hroom as [Hk1 _].
  assert (non s' a = nonce x) as Hnx by (unfold get_nonce; by rewrite Hx).
  lia.
Qed.

Lemma nonce_room_le k k' s : k' ≤ k → nonce_room k s → nonce_room k' s.
Proof.
  intros Hle [Hk H]. split; [lia|]. intros a x Hx. specialize (H a x Hx). cbn in H. lia.
Qed.

Lemma unapply_txs block chain_id itxs s vm rs s' vm' rs2 R :
  wf s → Forall (λ p, tx_ok p.2) itxs → Forall (λ p, is_coinbase p.2 = false) itxs →
  NoDup (txid <$> itxs.*2) → Forall (λ p, undo_free s (txid p.2)) itxs →
  nonce_room (Z.of_nat (length itxs)) s → deploys_fresh block chain_id (s, vm, rs) itxs →
  foldM (apply_tx block chain_id) (s, vm, rs) itxs = Ok (s', vm', rs ++ rs2) →
  (∀ r, r ∈ rs2 → ∃ i, list_find (λ x, rc_txid x = rc_txid r) R = Some (i, r)) →
  foldM (unapply_tx chain_id) (with_receipts s' R) (reverse itxs.*2) = Ok (with_receipts s R).
Proof.
  revert s vm rs rs2. induction itxs as [|[i tx] itxs IH];
    intros s vm rs rs2 Hwf Hok Hcb Hnd Hfree Hroom Hfresh H HR; cbn [foldM] in H.
  { by injection H as <- _ _. }
  apply Forall_cons in Hok as [Htx Hok]. apply Forall_cons in Hcb as [Hc Hcb].
  apply Forall_cons in Hfree as [Hf Hfree]. cbn [snd] in *.
  rewrite !fmap_cons in Hnd. cbn [snd] in Hnd. apply NoDup_cons in Hnd as [Hnin Hnd].
  destruct Hfresh as [Hfr Hfresh]. cbn [snd fst] in Hfr.
  destruct (apply_tx block chain_id (s, vm, rs) (i, tx)) as [[[s1 vm1] rs1]| |] eqn:H1; [|done..].
  cbn [mbind result_bind] in H.
  destruct (apply_tx_step _ _ _ _ _ _ _ _ _ _ Hwf Htx Hc H1) as (r & -> & [W Hu Hr _ _ Hn Hrev]).
  destruct (apply_txs_ok _ _ _ _ _ _ _ _ _ W Hok H) as (_ & _ & _ & rs3 & Hrs & _).
  rewrite <- app_assoc in Hrs. apply app_inv_head in Hrs. cbn in Hrs. subst rs2.
  rewrite fmap_cons, reverse_cons, foldM_app. cbn [length] in Hroom.
  replace (Z.of_nat (S (length itxs))) with (Z.of_nat (length itxs) + 1) in Hroom by lia.
  rewrite (IH s1 vm1 (rs ++ [r]) rs3); [|done|done|done|done| | |done| |].
  - cbn [mbind result_bind foldM]. destruct (HR r) as [j Hj]; [by left|].
    rewrite (Hrev Hf) with (i := j); [done| |done|by rewrite Hr in Hj].
    apply (nonce_room_le (Z.of_nat (length itxs) + 1)); [lia|done].
  - apply Forall_forall. intros p Hp. rewrite Forall_forall in Hfree. apply Hu; [|by apply Hfree].
    intros E. apply Hnin. rewrite <- E. by apply list_elem_of_fmap_2, list_elem_of_fmap_2.
  - apply (nonce_room_step _ s); [lia|done..].
  - by rewrite <- app_assoc.
  - intros r' Hr'. apply HR. by right.
Qed.

Lemma list_find_unique R (r : Receipt) :
  NoDup (rc_txid <$> R) → r ∈ R → ∃ i, list_find (λ x, rc_txid x = rc_txid r) R = Some (i, r).
Proof.
  intros Hnd [i Hi]%list_elem_of_lookup_1. exists i. apply list_find_Some. split_and!; [done|done|].
  intros j y Hj Hlt E. assert (j = i); [|lia].
  eapply NoDup_lookup; [done|rewrite list_lookup_fmap, Hj; cbn; by rewrite E|by rewrite list_lookup_fmap, Hi].
Qed.

(** ** Anatomy of an accepted block *)

Lemma chain_ids_ok txs chain_id :
  foldM (λ _ tx, validate_tx_chain_id tx chain_id) tt txs = Ok tt ↔
  Forall (λ tx, tx_chain_id tx = chain_id) txs.
Proof.
  induction txs as [|tx txs IH]; cbn [foldM]; [by split|]. rewrite Forall_cons.
  assert (validate_tx_chain_id tx chain_id = Ok tt ↔ tx_chain_id tx = chain_id) as Hv.
  { unfold validate_tx_chain_id. by destruct (Z.eqb_spec (tx_chain_id tx) chain_id). }
  destruct (validate_tx_chain_id tx chain_id) as [[]| |]; cbn [mbind result_bind].
  - rewrite IH. tauto.
  - split; [done|]. intros [?%Hv _]. done.
  - split; [done|]. intros [?%Hv _]. done.
Qed.

(** Reward the block at height [b_index block] may claim. *)
Definition reward_of (s : State) (block : Block) (chain_id : Z) : Z :=
  block_reward_at_height_for_chain (b_index block) (total_supply s) chain_id.

Lemma apply_non_genesis_inv s vm block chain_id s' vm' rs :
  apply_non_genesis (s, vm, []) block chain_id = Ok (s', vm', rs) →
  Forall (λ tx, tx_chain_id tx = chain_id) (b_transactions block) ∧
  ∃ k cb s1, list_find (λ tx, is_coinbase tx = true) (b_transactions block) = Some (k, Transfer cb) ∧
    tr_amount cb ≤ reward_of s block chain_id ∧
    credit s (tr_to cb) (tr_amount cb) = Ok s1 ∧
    foldM (apply_tx block chain_id)
      (s1, vm, [transfer_receipt (Transfer cb) block (Z.of_nat k mod two32) []])
      (enumerate (b_transactions block)) = Ok (s', vm', rs).
Proof.
  unfold apply_non_genesis. intros H. apply bind_ok_inv in H as ([] & Hids & H).
  split; [by apply chain_ids_ok|]. apply bind_ok_inv in H as ([k tx] & Hf & H).
  unfold ok_or in Hf. destruct (list_find _ _) as [[k' tx']|]; [|done]. injection Hf as -> ->.
  apply bind_ok_inv in H as (cb & Hcb & H). destruct tx as [cb'|c|c]; [|done..]. injection Hcb as ->.
  unfold reward_of. destruct (Z.ltb_spec (block_reward_at_height_for_chain (b_index block) (total_supply s) chain_id)
    (tr_amount cb)) as [|Hle]; [done|].
  apply bind_ok_inv in H as (s1 & Hc & H). exists k, cb, s1. split_and!; [done|done|exact Hc|exact H].
Qed.

Lemma wf_with_receipts s R : wf s → wf (with_receipts s R).
Proof. done. Qed.

Lemma wf_credit s k v s' :
  wf s → 0 ≤ v → credit s k v = Ok s' → wf s'.
Proof.
  intros (Hs & Hi & Hok) Hv H. destruct (credit_step _ _ _ _ Hs Hi Hv H) as (? & ? & Ho).
  split_and!; [done..|]. apply (storage_ok_ext s); [|done]. intros a. by apply only_bal_sview.
Qed.

Lemma supply_credit s k v s' : solid s → credit s k v = Ok s' → supply s' = supply s + v.
Proof. intros Hs H. destruct (credit_spec _ _ _ _ Hs H) as (_ & _ & _ & Hb & _). by eapply supply_bump. Qed.

Lemma Forall_enumerate (P : Transaction → Prop) txs :
  Forall P txs → Forall (λ p, P p.2) (enumerate txs).
Proof. rewrite <- (enumerate_snd txs) at 1. by rewrite Forall_fmap. Qed.

Lemma found_ok (P Q : Transaction → Prop) `{∀ x, Decision (P x)} txs k tx :
  list_find P txs = Some (k, tx) → Forall Q txs → Q tx.
Proof.
  intros (Hk & _ & _)%list_find_Some HQ. by apply (Forall_lookup_1 _ _ _ _ HQ Hk).
Qed.

Lemma apply_genesis_fold block chain_id itxs s (vm : option V) rs s' vm' rs' :
  wf s → Forall (λ p, tx_ok p.2) itxs →
  foldM (apply_genesis_tx block chain_id) (s, vm, rs) itxs = Ok (s', vm', rs') →
  wf s' ∧ only_bal s s' ∧
  ∃ rs2, rs' = rs ++ rs2 ∧ rc_txid <$> rs2 = txid <$> itxs.*2 ∧
  undoes (λ t, foldM unapply_genesis_tx t (reverse itxs.*2)) s s'.
Proof.
  revert s vm rs. induction itxs as [|[i tx] itxs IH]; intros s vm rs Hwf Hok H; cbn [foldM] in H.
  { injection H as <- _ <-. split_and!; [done..|]. exists []. rewrite app_nil_r.
    split_and!; [done..|]. apply undoes_refl. }
  apply Forall_cons in Hok as [Htx Hok]. apply bind_ok_inv in H as ([[s1 vm1] rs1] & H1 & H2).
  unfold apply_genesis_tx in H1. apply bind_ok_inv in H1 as ([] & _ & H1).
  destruct tx as [t|c|c]; [|done..]. apply bind_ok_inv in H1 as (s1' & H1 & E). injection E as <- <- <-.
  pose proof (wf_credit _ _ _ _ Hwf Htx H1) as Hwf1.
  destruct (IH _ _ _ Hwf1 Hok H2) as (Hwf' & Ho' & rs2 & -> & Hrs & Hu).
  destruct Hwf as (Hs & Hi & _).
  destruct (credit_step _ _ _ _ Hs Hi Htx H1) as (_ & _ & Ho).
  split_and!; [done|by transitivity s1'|]. exists (transfer_receipt (Transfer t) block i [] :: rs2).
  split_and!; [by rewrite <- app_assoc|by rewrite !fmap_cons, Hrs|].
  intros u Hus Hub.
  destruct (undoes_comp _ _ _ _ _ (debit_undoes_credit _ _ _ _ Hs Hi H1) Hu u Hus Hub) as (u' & E & Hu').
  exists u'. split; [|done]. rewrite fmap_cons, reverse_cons, foldM_app. cbn [snd]. rewrite <- E.
  destruct (foldM unapply_genesis_tx u (reverse itxs.*2)) as [a| |]; cbn [mbind result_bind foldM]; [|done..].
  unfold unapply_genesis_tx, debit_receiver, debit. by destruct (checked_sub64 _ _).
Qed.

(** Amount a genesis block allocates. *)
Definition allocation (block : Block) : Z := sumZ (value <$> b_transactions block).

Lemma genesis_supply block chain_id itxs s (vm : option V) rs s' vm' rs' :
  solid s → foldM (apply_genesis_tx block chain_id) (s, vm, rs) itxs = Ok (s', vm', rs') →
  supply s' = supply s + sumZ (value <$> itxs.*2).
Proof.
  revert s vm rs. induction itxs as [|[i tx] itxs IH]; intros s vm rs Hs H; cbn [foldM] in H.
  { injection H as <- _ _. cbn. lia. }
  apply bind_ok_inv in H as ([[s1 vm1] rs1] & H1 & H2).
  unfold apply_genesis_tx in H1. apply bind_ok_inv in H1 as ([] & _ & H1).
  destruct tx as [t|c|c]; [|done..]. apply bind_ok_inv in H1 as (s1' & H1 & E). injection E as <- <- <-.
  destruct (credit_spec _ _ _ _ Hs H1) as (_ & Hs1 & _). rewrite (IH _ _ _ Hs1 H2).
  rewrite (supply_credit _ _ _ _ Hs H1). cbn. lia.
Qed.

(** What applying a block does to the invariant and to the supply. *)
Lemma apply_block_effect s block chain_id vm s' vm' :
  wf s → Forall tx_ok (b_transactions block) →
  apply_block_inner s block chain_id vm = Ok (s', vm') →
  wf s' ∧ (b_index block = 0 → supply s' = supply s + allocation block) ∧
  (b_index block ≠ 0 → ∃ k cb,
    list_find (λ tx, is_coinbase tx = true) (b_transactions block) = Some (k, Transfer cb) ∧
    0 ≤ tr_amount cb ≤ reward_of s block chain_id ∧
    supply s' ≤ supply s + tr_amount cb ∧
    (Forall (λ tx, ∀ c, tx ≠ Create c) (b_transactions block) → supply s' = supply s + tr_amount cb)).
Proof.
  intros Hwf Hok H. unfold apply_block_inner in H. apply bind_ok_inv in H as ([[s1 vm1] rs] & H & E).
  injection E as <- _. change (supply (with_receipts s1 rs)) with (supply s1).
  apply Forall_enumerate in Hok as Hok'. pose proof (wf_with_receipts s [] Hwf) as Hwf0.
  destruct (Z.eqb_spec (b_index block) 0) as [H0|H0].
  - split_and!; [|intros _|done].
    + by destruct (apply_genesis_fold _ _ _ _ _ _ _ _ _ Hwf0 Hok' H).
    + rewrite (genesis_supply _ _ _ _ _ _ _ _ _ (proj1 Hwf0) H), enumerate_snd. done.
  - apply apply_non_genesis_inv in H as (_ & k & cb & s2 & Hf & Hle & Hc & H).
    assert (0 ≤ tr_amount cb) as Hcb by exact (found_ok _ tx_ok _ _ _ Hf Hok).
    pose proof (supply_credit _ _ _ _ (proj1 Hwf0) Hc) as Hsup.
    change (supply (with_receipts s [])) with (supply s) in Hsup.
    destruct (apply_txs_ok _ _ _ _ _ _ _ _ _ (wf_credit _ _ _ _ Hwf0 Hcb Hc) Hok' H) as (W & Hle2 & Heq & _).
    split_and!; [done|done|]. intros _. exists k, cb. split_and!; [done|done|exact Hle|lia|].
    intros Hn. rewrite Heq; [lia|]. by apply Forall_enumerate in Hn.
Qed.

(** C3: Applying a block, genesis or not, with any executor that keeps its
    contract, preserves the state invariant: no account that pruning would have
    dropped, balances and nonces in [u64], contract storage owned by contracts,
    non-empty, and committed to by the contract's storage root. *)
Theorem apply_block_preserves_wf s block chain_id vm s' vm' :
  wf s → Forall tx_ok (b_transactions block) →
  apply_block_inner s block chain_id vm = Ok (s', vm') → wf s'.
Proof. intros Hwf Hok H. by apply (apply_block_effect s block chain_id vm s' vm'). Qed.

(** C2: No inflation, from a well-formed state and for typed transactions (amounts of u64,
    no code that hashes to zero).  A genesis block grows the sum of all balances by exactly
    the amounts it allocates.  Any other accepted block has a coinbase transfer; its first
    one is within the block reward, and whatever transactions the block carries and
    whatever the executor returns, the sum of all balances grows by at most the amount
    of that coinbase, and by exactly that amount when the block deploys no contract. *)
Theorem apply_block_no_inflation s block chain_id vm s' vm' :
  wf s → Forall tx_ok (b_transactions block) →
  apply_block_inner s block chain_id vm = Ok (s', vm') →
  (b_index block = 0 → supply s' = supply s + allocation block) ∧
  (b_index block ≠ 0 → ∃ k cb,
    list_find (λ tx, is_coinbase tx = true) (b_transactions block) = Some (k, Transfer cb) ∧
    0 ≤ tr_amount cb ≤ reward_of s block chain_id ∧
    supply s' ≤ supply s + tr_amount cb ∧
    (Forall (λ tx, ∀ c, tx ≠ Create c) (b_transactions block) → supply s' = supply s + tr_amount cb)).
Proof. intros Hwf Hok H. by apply (apply_block_effect s block chain_id vm s' vm'). Qed.

(** A block leaves exactly one receipt per transaction it executed: the
    coinbase's first, then one per non-coinbase transaction in block order, each
    under that transaction's id. *)
Theorem apply_block_receipts s block chain_id vm s' vm' :
  wf s → Forall tx_ok (b_transactions block) → b_index block ≠ 0 →
  apply_block_inner s block chain_id vm = Ok (s', vm') →
  ∃ k cb, list_find (λ tx, is_coinbase tx = true) (b_transactions block) = Some (k, cb) ∧
    rc_txid <$> receipts s' =
      txid cb :: (txid <$> filter (λ tx, is_coinbase tx = false) (b_transactions block)).
Proof.
  intros Hwf Hok Hidx H. unfold apply_block_inner in H. apply bind_ok_inv in H as ([[s1 vm1] rs] & H & E).
  injection E as <- _. destruct (Z.eqb_spec (b_index block) 0); [done|].
  apply Forall_enumerate in Hok as Hok'.
  apply apply_non_genesis_inv in H as (_ & k & cb & s2 & Hf & Hle & Hc & H).
  assert (0 ≤ tr_amount cb) as Hcb by exact (found_ok _ tx_ok _ _ _ Hf Hok).
  pose proof (wf_credit _ _ _ _ (wf_with_receipts s [] Hwf) Hcb Hc) as Hwf2.
  destruct (apply_txs_ok _ _ _ _ _ _ _ _ _ Hwf2 Hok' H) as (_ & _ & _ & rs2 & -> & Hrs).
  exists k, (Transfer cb). split; [done|]. cbn. rewrite Hrs, enumerate_snd. done.
Qed.

(** ** Reorganisation safety *)

(** The state the transaction loop of a block with its coinbase first starts from. *)
Definition loop_start (s : State) (block : Block) : State :=
  match b_transactions block with
  | Transfer cb :: _ =>
      match credit_receiver (with_receipts s []) cb with Ok s1 => s1 | _ => s end
  | _ => s
  end.

(** The coinbase is the first transaction and the only one of its kind. *)
Definition coinbase_first (txs : list Transaction) : Prop :=
  match txs with
  | Transfer cb :: rest => tr_is_coinbase cb = true ∧ Forall (λ tx, is_coinbase tx = false) rest
  | _ => False
  end.

#[export] Instance coinbase_first_dec txs : Decision (coinbase_first txs).
Proof. destruct txs as [|[] ?]; cbn; apply _. Defined.

(** Blocks whose application can be taken back: distinct transaction ids without
    undo records, nonces with room, and beyond genesis the coinbase in front and
    every deployment at a new address. *)
Definition reorg_ready (s : State) (block : Block) (chain_id : Z) (vm : option V) : Prop :=
  Forall tx_ok (b_transactions block) ∧
  NoDup (txid <$> b_transactions block) ∧
  Forall (λ tx, undo_free s (txid tx)) (b_transactions block) ∧
  nonce_room (Z.of_nat (length (b_transactions block))) s ∧
  (b_index block ≠ 0 →
    coinbase_first (b_transactions block) ∧
    deploys_fresh block chain_id (loop_start s block, vm, []) (enumerate (b_transactions block))).

#[export] Instance reorg_ready_dec s block chain_id vm : Decision (reorg_ready s block chain_id vm).
Proof. unfold reorg_ready, undo_free, nonce_room. apply _. Defined.

(** Freshness looks at states and executor only, not at the receipts so far. *)
Lemma deploys_fresh_receipts block chain_id itxs s (vm : option V) rs rs' :
  deploys_fresh block chain_id (s, vm, rs) itxs → deploys_fresh block chain_id (s, vm, rs') itxs.
Proof.
  revert s vm rs rs'. induction itxs as [|[i tx] itxs IH]; intros s vm rs rs'; cbn [deploys_fresh]; [done|].
  cbn [fst snd]. intros [Hd H]. split; [done|]. revert H. unfold apply_tx. destruct (is_coinbase tx); [by apply IH|].
  destruct tx as [t|c|c].
  - destruct (deduct_sender s t) as [s1| |]; cbn [mbind result_bind]; [|done..].
    destruct (credit_receiver s1 t) as [s2| |]; cbn [mbind result_bind]; [|done..]. apply IH.
  - destruct vm as [vm|]; [|done].
    destruct (apply_create s c chain_id vm block i) as [[[s1 v1] r1]| |]; cbn [mbind result_bind]; [|done..].
    apply IH.
  - destruct vm as [vm|]; [|done].
    destruct (apply_call s block c vm i) as [[s1 r1]| |]; cbn [mbind result_bind]; [|done..]. apply IH.
Qed.

Lemma unapply_genesis_block s block chain_id vm s' vm' :
  wf s → Forall tx_ok (b_transactions block) → b_index block = 0 →
  apply_block_inner (V:=V) s block chain_id vm = Ok (s', vm') →
  unapply_block s' block chain_id = Ok (with_receipts s []).
Proof.
  intros Hwf Hok Hidx H. unfold apply_block_inner in H. apply bind_ok_inv in H as ([[s1 vm1] rs] & H & E).
  injection E as <- _. rewrite Hidx in H. apply Forall_enumerate in Hok as Hok'.
  destruct (apply_genesis_fold _ _ _ _ _ _ _ _ _ (wf_with_receipts s [] Hwf) Hok' H)
    as ((Hs1 & _) & (Hr & Hn & Hb) & rs2 & _ & _ & Hu).
  destruct (Hu (with_receipts s1 rs) Hs1 (λ a, eq_refl)) as (t & Et & Ht & (Tr & Tn & Tb) & Tbal).
  unfold unapply_block. rewrite Hidx. cbn [Z.eqb]. rewrite enumerate_snd in Et. rewrite Et.
  cbn [mbind result_bind]. f_equal. apply state_by_views; [done|apply Hwf|apply Tbal| | |].
  - intros a. change (non t a = non s a). rewrite Tn. apply Hn.
  - intros a. change (body t a = body s a). rewrite Tb. apply Hb.
  - transitivity (rest (with_receipts (with_receipts s1 rs) [])); [by apply rest_with_receipts|].
    transitivity (rest (with_receipts s1 [])); [done|]. transitivity (rest (with_receipts (with_receipts s []) [])); [|done].
    by apply rest_with_receipts.
Qed.

Lemma apply_tx_coinbase block chain_id (w : Work) i tx :
  is_coinbase tx = true → apply_tx block chain_id w (i, tx) = Ok w.
Proof. intros H. unfold apply_tx. destruct w as [[s vm] rs]. by rewrite H. Qed.

Lemma filter_non_coinbase txs :
  Forall (λ tx, is_coinbase tx = false) txs → filter (λ tx, is_coinbase tx = false) txs = txs.
Proof.
  induction 1 as [|tx txs H _ IH]; [done|]. rewrite filter_cons, decide_True by done. by rewrite IH.
Qed.

(** An applied block with its coinbase in front: the credit, then the loop over
    the other transactions. *)
Lemma coinbase_first_inv s block chain_id vm s' vm' :
  b_index block ≠ 0 → coinbase_first (b_transactions block) → wf s →
  Forall tx_ok (b_transactions block) →
  deploys_fresh block chain_id (loop_start s block, vm, []) (enumerate (b_transactions block)) →
  apply_block_inner s block chain_id vm = Ok (s', vm') →
  ∃ cb itxs s1 s2 r rs2, b_transactions block = Transfer cb :: itxs.*2 ∧ tr_is_coinbase cb = true ∧
    Forall (λ p, is_coinbase p.2 = false) itxs ∧
    credit (with_receipts s []) (tr_to cb) (tr_amount cb) = Ok s1 ∧ wf s1 ∧
    deploys_fresh block chain_id (s1, vm, [r]) itxs ∧
    foldM (apply_tx block chain_id) (s1, vm, [r]) itxs = Ok (s2, vm', [r] ++ rs2) ∧
    s' = with_receipts s2 (r :: rs2) ∧ rc_txid <$> (r :: rs2) = txid <$> b_transactions block.
Proof.
  intros Hidx Hfirst Hwf Hok Hfresh H. unfold apply_block_inner in H.
  apply bind_ok_inv in H as ([[s2 vm1] rs] & H & E). injection E as <- <-.
  destruct (Z.eqb_spec (b_index block) 0) as [|_]; [done|].
  apply apply_non_genesis_inv in H as (_ & k & cb & s1 & Hf & _ & Hc & H).
  unfold loop_start in Hfresh.
  destruct (b_transactions block) as [|[cb'|?|?] txs] eqn:Etx; [done| |done..].
  destruct Hfirst as [Hcb Hrest]. cbn [list_find] in Hf. rewrite decide_True in Hf by exact Hcb.
  injection Hf as <- ->. change (credit_receiver (with_receipts s []) cb) with
    (credit (with_receipts s []) (tr_to cb) (tr_amount cb)) in Hfresh. rewrite Hc in Hfresh.
  apply Forall_cons in Hok as [Hamt Hok].
  assert (wf s1) as Hwf1 by by eapply (wf_credit (with_receipts s [])).
  unfold enumerate in H, Hfresh. rewrite imap_cons in H, Hfresh.
  set (itxs := imap _ txs) in H, Hfresh. assert (itxs.*2 = txs) as Hsnd.
  { unfold itxs. rewrite fmap_imap. rewrite (imap_ext _ (λ _ tx, tx)) by done.
    clear. induction txs as [|x l IH]; cbn; [done|]. by f_equal. }
  cbn [foldM] in H. rewrite apply_tx_coinbase in H by exact Hcb. cbn [mbind result_bind] in H.
  cbn [deploys_fresh] in Hfresh. destruct Hfresh as [_ Hfresh].
  rewrite apply_tx_coinbase in Hfresh by exact Hcb.
  rewrite <- Hsnd in Hok, Hrest. rewrite Forall_fmap in Hok, Hrest.
  destruct (apply_txs_ok _ _ _ _ _ _ _ _ _ Hwf1 Hok H) as (_ & _ & _ & rs2 & -> & Hrs).
  eexists cb, itxs, s1, s2, _, rs2. rewrite Hsnd. split_and!; [done|done|done|exact Hc|done| |exact H|done|].
  - by eapply deploys_fresh_receipts.
  - rewrite !fmap_cons, Hrs, Hsnd, filter_non_coinbase; [done|]. rewrite <- Hsnd. by apply Forall_fmap.
Qed.

(** C1: Reorganisation safety: for every block of transfers, deployments and
    calls that meets [reorg_ready], unapplying it after it was applied succeeds and
    restores the state exactly (accounts, contract storage and undo records), the
    receipts of the last block being cleared. *)
Theorem unapply_apply_block s block chain_id vm s' vm' :
  wf s → reorg_ready s block chain_id vm →
  apply_block_inner s block chain_id vm = Ok (s', vm') →
  unapply_block s' block chain_id = Ok (with_receipts s []).
Proof.
  intros Hwf (Hok & Hnd & Hfree & Hroom & Hshape) H.
  destruct (decide (b_index block = 0)) as [Hidx|Hidx]; [by eapply unapply_genesis_block|].
  destruct (Hshape Hidx) as [Hfirst Hfresh]. clear Hshape.
  destruct (coinbase_first_inv _ _ _ _ _ _ Hidx Hfirst Hwf Hok Hfresh H)
    as (cb & itxs & s1 & s2 & r & rs2 & Etx & Hcb & Hrest & Hc & Hwf1 & Hfr & Hloop & -> & Hids).
  unfold unapply_block. destruct (Z.eqb_spec (b_index block) 0) as [|_]; [done|].
  rewrite <- Hids in Hnd. rewrite Etx in Hok, Hfree, Hroom, Hids |- *.
  apply Forall_cons in Hok as [Hamt Hok]. apply Forall_cons in Hfree as [_ Hfree].
  rewrite Forall_fmap in Hok, Hfree.
  destruct (wf_with_receipts s [] Hwf) as (Hs0 & Hi0 & _).
  destruct (credit_step _ _ _ _ Hs0 Hi0 Hamt Hc) as (_ & _ & (Hr1 & Hn1 & Hb1)).
  destruct (rest_fields _ _ Hr1) as (_ & _ & U1 & U2).
  rewrite reverse_cons, foldM_app.
  rewrite (unapply_txs block chain_id itxs s1 vm [r] s2 vm' rs2); [|done|done|done| | | |done|done|].
  - cbn [mbind result_bind foldM unapply_tx]. rewrite Hcb.
    destruct (debit_undoes_credit _ _ _ _ Hs0 Hi0 Hc (with_receipts s1 (r :: rs2)))
      as (t & Et & Ht & (Tr & Tn & Tb) & Tbal); [apply Hwf1|done|].
    change (debit_receiver (with_receipts s1 (r :: rs2)) cb) with
      (debit (with_receipts s1 (r :: rs2)) (tr_to cb) (tr_amount cb)). rewrite Et.
    cbn [mbind result_bind]. f_equal. apply state_by_views; [done|apply Hwf|apply Tbal| | |].
    + intros a. change (non t a = non s a). rewrite Tn. apply Hn1.
    + intros a. change (body t a = body s a). rewrite Tb. apply Hb1.
    + transitivity (rest (with_receipts (with_receipts s1 (r :: rs2)) [])); [by apply rest_with_receipts|].
      transitivity (rest (with_receipts s1 [])); [done|].
      transitivity (rest (with_receipts (with_receipts s []) [])); [|done]. by apply rest_with_receipts.
  - rewrite Hids, fmap_cons in Hnd. by apply NoDup_cons in Hnd as [_ ?].
  - eapply Forall_impl; [exact Hfree|]. intros p [? ?]. split; [by rewrite U1|by rewrite U2].
  - cbn [length] in Hroom. rewrite length_fmap in Hroom.
    apply (nonce_room_le (Z.of_nat (S (length itxs)))); [lia|]. destruct Hroom as [Hk Hroom].
    split; [done|]. intros a x Hx. assert (non s1 a = nonce x) as <- by (unfold get_nonce; by rewrite Hx).
    rewrite Hn1. by apply (nonce_room_non _ s a).
  - intros r' Hr'. apply list_find_unique; [done|]. by right.
Qed.
End BlockProps.
