(* ===== verification/Ledger.v ===== *)
(** * Abstract ledger

    The contract of the transfer-only path ([apply_block]) as a pure ledger: two
    functions on addresses, unbounded integers, no pruning, no overflow checks, with
    the documented nonce rule (invariant 11, docs/spec/consensus.tla: a transfer
    carries the nonce of its account plus one).  [apply_block] refines it, errors
    included, on the blocks the ledger does not refuse for a nonce; that rule itself is
    not enforced by the transition ([StateWitness.transfer_replayed]). *)

From S2P Require Import Prelude Bytes Abi Types Address Concrete Serialize Consensus Emission SparseMerkle State StateViews StateStorage StateProps BlockProps.
Open Scope Z_scope.

(** ** The specification *)

Record Ledger := { funds : string → Z; count : string → Z }.

Definition mint (l : Ledger) (k : string) (v : Z) : Ledger :=
  {| funds := bump (funds l) k v; count := count l |}.

(** Why the ledger refuses a block: an error of the node, or a nonce out of turn. *)
Inductive LedgerError := Refused (e : CoreError) | BadNonce.

Definition pay (l : Ledger) (t : TransferTx) : result LedgerError Ledger :=
  if negb (tr_nonce t =? count l (tr_from t) + 1) then Err BadNonce else
  if tr_amount t <=? funds l (tr_from t) then
    Ok {| funds := bump (bump (funds l) (tr_from t) (- tr_amount t)) (tr_to t) (tr_amount t);
          count := bump (count l) (tr_from t) 1 |}
  else Err (Refused (InsufficientBalance (tr_from t) (funds l (tr_from t)) (tr_amount t))).

Definition pay_tx (l : Ledger) (tx : Transaction) : result LedgerError Ledger :=
  if is_coinbase tx then Ok l else
  match tx with
  | Transfer t => pay l t
  | Create _ => Err (Refused (UnsupportedTxType "create transactions require a VM executor (S1.5-P14)"))
  | Call _ => Err (Refused (UnsupportedTxType "call transactions require a VM executor (S1.5-P14)"))
  end.

(** An allocation of the genesis block. *)
Definition allocate (chain_id : Z) (l : Ledger) (tx : Transaction) : result LedgerError Ledger :=
  if negb (tx_chain_id tx =? chain_id) then Err (Refused (InvalidChainId chain_id (tx_chain_id tx))) else
  match tx with
  | Transfer t => Ok (mint l (tr_to t) (tr_amount t))
  | _ => Err (Refused (UnsupportedTxType "create/call transactions are not supported at genesis"))
  end.

(** The genesis block allocates; any other one needs the right chain ids and a coinbase
    within the reward, then makes its payments in order. *)
Definition ledger_block (l : Ledger) (index : Z) (txs : list Transaction) (chain_id reward : Z)
    : result LedgerError Ledger :=
  if index =? 0 then foldM (allocate chain_id) l txs else
  match list_find (λ tx, tx_chain_id tx ≠ chain_id) txs with
  | Some (_, tx) => Err (Refused (InvalidChainId chain_id (tx_chain_id tx)))
  | None =>
    match list_find (λ tx, is_coinbase tx = true) txs with
    | Some (_, Transfer cb) =>
        if tr_amount cb <=? reward then foldM pay_tx (mint l (tr_to cb) (tr_amount cb)) txs
        else Err (Refused (InvalidCoinbaseAmount reward (tr_amount cb)))
    | _ => Err (Refused (InvalidCoinbaseAmount reward 0))
    end
  end.

(** The most a block can issue. *)
Definition issue (s : State) (block : Block) (chain_id : Z) : Z :=
  if b_index block =? 0 then allocation block else reward_of s block chain_id.

Definition ledger_of (s : State) : Ledger := {| funds := bal s; count := non s |}.

(** [s] holds exactly what [l] says, and has the contracts of [s0]. *)
Definition represents (s0 s : State) (l : Ledger) : Prop :=
  (∀ a, bal s a = funds l a) ∧ (∀ a, non s a = count l a) ∧ (∀ a, body s a = body s0 a) ∧
  contract_storage s = contract_storage s0.

(** ** Refinement *)

Lemma bal_le_supply s a : solid s → in_range s → bal s a ≤ supply s.
Proof.
  intros Hs Hi. destruct (set_balance_spec s a 0 Hs) as (_ & _ & Hb & Hr).
  pose proof (supply_upd _ _ _ _ Hb). pose proof (supply_nonneg _ (Hr Hi ltac:(done))). lia.
Qed.

Section Refinement.
Context `{HX : Hex, B3 : Blake3, B32 : Bech32}.

(** The outcome of the code agrees with the one of the ledger. *)
Definition agrees {A} (R : A → Ledger → Prop) (r : result CoreError A) (l : result LedgerError Ledger) : Prop :=
  match r, l with
  | Ok a, Ok l => R a l
  | Err e, Err (Refused e') => e = e'
  | _, _ => False
  end.

Lemma represents_step s0 s l m t :
  represents s0 s l → wf s → tr_nonce t = count l (tr_from t) + 1 → in_u64 (tr_nonce t) → 0 ≤ tr_amount t →
  move s (tr_from t) (tr_to t) (tr_amount t) = Ok m →
  represents s0 (increment_nonce m t)
    {| funds := bump (bump (funds l) (tr_from t) (- tr_amount t)) (tr_to t) (tr_amount t);
       count := bump (count l) (tr_from t) 1 |}.
Proof.
  intros (R1 & R2 & R3 & R4) (Hs & Hi & _) Hn Hu Hv Hm.
  destruct (move_spec _ _ _ _ _ Hs Hi Hv Hm) as ((Hms & _ & (Mr & Mn & Mb)) & _ & Mbal & _).
  destruct (set_nonce_spec m (tr_from t) (add64 (non m (tr_from t)) 1) Hms) as (_ & (Nr & Nb & Nc) & Nn & _).
  unfold increment_nonce. split_and!.
  - intros a. rewrite Nb, Mbal. cbn. rewrite !bump_at, !R1. done.
  - intros a. rewrite Nn. cbn. unfold upd. rewrite bump_at, <- R2. case_decide as E; [subst|apply Mn].
    rewrite Mn. rewrite <- R2 in Hn. rewrite Hn in Hu. by apply wrap64_small.
  - intros a. by rewrite Nc, Mb.
  - rewrite <- R4. transitivity (contract_storage m); by apply rest_fields.
Qed.

Lemma pay_refines block chain_id s0 s l rs i tx :
  represents s0 s l → wf s → tx_ok tx → in_u64 (tx_nonce tx) → supply s < two64 → pay_tx l tx ≠ Err BadNonce →
  agrees (λ w l', represents s0 w.1.1 l' ∧ w.1.2 = (None : option NoVm))
    (apply_tx block chain_id (s, None, rs) (i, tx)) (pay_tx l tx).
Proof.
  intros Hrep Hwf Htx Hu Hsup Hnb. unfold apply_tx, pay_tx in *. destruct (is_coinbase tx); [done|].
  destruct tx as [t|c|c]; [|done..]. pose proof Hrep as (R1 & _). pose proof Hwf as (Hs & Hi & _).
  unfold pay in *. destruct (Z.eqb_spec (tr_nonce t) (count l (tr_from t) + 1)) as [Hn|]; [|done].
  cbn [negb]. rewrite <- R1. unfold deduct_sender.
  destruct (Z.leb_spec (tr_amount t) (bal s (tr_from t))) as [Hle|Hgt].
  2: { rewrite (proj2 (Z.ltb_lt _ _)) by done. done. }
  rewrite (proj2 (Z.ltb_ge _ _)) by done.
  destruct (debit_ok s (tr_from t) (tr_amount t) Hs Hle) as [m Hm].
  unfold debit in Hm. rewrite Hm. cbn [mbind result_bind].
  destruct (debit_spec s (tr_from t) (tr_amount t) m Hs Hm) as (_ & Hms & Ho & Mb & Hmi).
  assert (bal m (tr_to t) + tr_amount t < two64) as Hlt.
  { pose proof (bal_le_supply m (tr_to t) Hms (Hmi Hi Htx)). pose proof (supply_bump _ _ _ _ Mb). lia. }
  destruct (credit_ok m (tr_to t) (tr_amount t) Hms Hlt) as [m' Hm'].
  change (credit_receiver m t) with (credit m (tr_to t) (tr_amount t)). rewrite Hm'.
  cbn [mbind result_bind agrees fst snd]. split; [|done]. apply (represents_step s0 s l m'); [done..|].
  unfold move, debit. rewrite Hm. exact Hm'.
Qed.

Lemma pay_all_refines block chain_id s0 itxs s l rs :
  represents s0 s l → wf s → Forall (λ p, tx_ok p.2 ∧ in_u64 (tx_nonce p.2)) itxs → supply s < two64 →
  foldM pay_tx l itxs.*2 ≠ Err BadNonce →
  agrees (λ w l', represents s0 w.1.1 l' ∧ w.1.2 = (None : option NoVm))
    (foldM (apply_tx block chain_id) (s, None, rs) itxs) (foldM pay_tx l itxs.*2).
Proof.
  revert s l rs. induction itxs as [|[i tx] itxs IH]; intros s l rs Hrep Hwf Hok Hsup Hnb; [done|].
  apply Forall_cons in Hok as [[Htx Hu] Hok]. rewrite fmap_cons in *. cbn [foldM snd] in *.
  assert (pay_tx l tx ≠ Err BadNonce) as Hnb1 by (intros E; by rewrite E in Hnb).
  pose proof (pay_refines block chain_id s0 s l rs i tx Hrep Hwf Htx Hu Hsup Hnb1) as Hstep.
  destruct (apply_tx block chain_id (s, None, rs) (i, tx)) as [[[s1 vm1] rs1]| |] eqn:E,
    (pay_tx l tx) as [l1| |]; try done.
  destruct Hstep as [Hrep1 Evm]. cbn [fst snd] in Hrep1, Evm. subst vm1. cbn [mbind result_bind] in *.
  destruct (is_coinbase tx) eqn:Hcb.
  - rewrite apply_tx_coinbase in E by done. injection E as <- <-. by apply IH.
  - destruct (apply_tx_step _ _ _ _ _ _ _ _ _ _ Hwf Htx Hcb E) as (r & -> & [W _ _ Hle _ Hn _]).
    apply IH; try done. lia.
Qed.

(** Genesis: every allocation fits while the total does. *)
Lemma allocate_refines block chain_id s0 itxs s l rs :
  represents s0 s l → wf s → Forall (λ p, tx_ok p.2) itxs →
  supply s + sumZ (value <$> itxs.*2) < two64 →
  agrees (λ w l', represents s0 w.1.1 l')
    (foldM (apply_genesis_tx block chain_id) (s, (None : option NoVm), rs) itxs)
    (foldM (allocate chain_id) l itxs.*2).
Proof.
  revert s l rs. induction itxs as [|[i tx] itxs IH]; intros s l rs Hrep Hwf Hok Hsup; [done|].
  apply Forall_cons in Hok as [Htx Hok]. rewrite !fmap_cons in *. cbn [foldM snd sumZ] in *.
  assert (0 ≤ sumZ (value <$> itxs.*2)) as Hpos.
  { apply sumZ_nonneg, Forall_fmap, Forall_fmap. eapply Forall_impl; [exact Hok|]. intros [j [t|c|c]]; cbn; lia. }
  unfold apply_genesis_tx at 2, allocate at 2, validate_tx_chain_id.
  destruct (Z.eqb_spec (tx_chain_id tx) chain_id); cbn [negb mbind result_bind]; [|done].
  destruct tx as [t|c|c]; [|done..]. pose proof Hwf as (Hs & Hi & _). cbn [value snd] in Hsup.
  pose proof (bal_le_supply s (tr_to t) Hs Hi) as Hb.
  destruct (credit_ok s (tr_to t) (tr_amount t) Hs ltac:(lia)) as [s1 Hc].
  change (credit_receiver s t) with (credit s (tr_to t) (tr_amount t)). rewrite Hc. cbn [mbind result_bind].
  apply IH; [|by apply (wf_credit s (tr_to t) (tr_amount t))|done|].
  - destruct Hrep as (R1 & R2 & R3 & R4).
    destruct (credit_spec s (tr_to t) (tr_amount t) s1 Hs Hc) as (_ & _ & (Hr & Hn & Hbd) & Hbal & _).
    split_and!; intros; cbn [funds count mint].
    + rewrite Hbal, !bump_at, R1. done.
    + by rewrite Hn.
    + by rewrite Hbd.
    + rewrite <- R4. by apply rest_fields.
  - rewrite (supply_credit _ _ _ _ Hs Hc). lia.
Qed.

Lemma chain_ids_find txs chain_id :
  foldM (λ _ tx, validate_tx_chain_id tx chain_id) tt txs =
  match list_find (λ tx, tx_chain_id tx ≠ chain_id) txs with
  | Some (_, tx) => Err (InvalidChainId chain_id (tx_chain_id tx))
  | None => Ok tt
  end.
Proof.
  induction txs as [|tx txs IH]; [done|]. cbn [foldM list_find].
  assert (validate_tx_chain_id tx chain_id =
          if decide (tx_chain_id tx ≠ chain_id) then Err (InvalidChainId chain_id (tx_chain_id tx)) else Ok tt) as ->.
  { unfold validate_tx_chain_id. destruct (Z.eqb_spec (tx_chain_id tx) chain_id).
    - by rewrite decide_False by naive_solver. - by rewrite decide_True. }
  case_decide; [done|]. cbn [mbind result_bind]. rewrite IH.
  by destruct (list_find _ txs) as [[]|].
Qed.

Lemma represents_credit s k v s1 :
  solid s → credit (with_receipts s []) k v = Ok s1 → represents s s1 (mint (ledger_of s) k v).
Proof.
  intros Hs H. destruct (credit_spec (with_receipts s []) k v s1 Hs H) as (_ & _ & (Hr & Hn & Hb) & Hbal & _).
  split_and!; [exact Hbal|exact Hn|exact Hb|exact (proj1 (rest_fields _ _ Hr))].
Qed.

(** Any block but the genesis. *)
Lemma payments_refine s block chain_id :
  wf s → Forall tx_ok (b_transactions block) → Forall (λ tx, in_u64 (tx_nonce tx)) (b_transactions block) →
  b_index block ≠ 0 → supply s + reward_of s block chain_id < two64 →
  let l := ledger_block (ledger_of s) (b_index block) (b_transactions block) chain_id (reward_of s block chain_id) in
  l ≠ Err BadNonce →
  agrees (λ w l', represents s w.1.1 l')
    (apply_non_genesis (with_receipts s [], (None : option NoVm), []) block chain_id) l.
Proof.
  intros Hwf Hok Hu Hidx Hsup l Hnb. subst l. unfold apply_non_genesis, ledger_block in *.
  destruct (Z.eqb_spec (b_index block) 0) as [|_]; [done|]. rewrite chain_ids_find.
  destruct (list_find (λ tx, tx_chain_id tx ≠ chain_id) _) as [[]|]; [done|]. cbn [mbind result_bind].
  change (block_reward_at_height_for_chain _ _ _) with (reward_of s block chain_id).
  destruct (list_find (λ tx, is_coinbase tx = true) _) as [[k tx]|] eqn:Hf; [|done].
  cbn [ok_or mbind result_bind]. destruct tx as [cb|c|c]; [|by apply list_find_Some in Hf as (_ & ? & _)..].
  cbn [mbind result_bind]. rewrite Z.leb_antisym in *.
  destruct (Z.ltb_spec (reward_of s block chain_id) (tr_amount cb)) as [|Hle]; [done|]. cbn [negb] in *.
  assert (0 ≤ tr_amount cb) as Hcb by exact (found_ok _ tx_ok _ _ _ Hf Hok).
  pose proof Hwf as (Hs & Hi & _). pose proof (bal_le_supply s (tr_to cb) Hs Hi) as Hbs.
  destruct (credit_ok (with_receipts s []) (tr_to cb) (tr_amount cb)) as [s1 Hc]; [done| |].
  { change (bal s (tr_to cb) + tr_amount cb < two64). lia. }
  change (credit_receiver (with_receipts s []) cb) with (credit (with_receipts s []) (tr_to cb) (tr_amount cb)).
  rewrite Hc. cbn [mbind result_bind].
  pose proof (wf_credit _ _ _ _ (wf_with_receipts s [] Hwf) Hcb Hc) as Hwf1.
  pose proof (supply_credit _ _ _ _ (proj1 (wf_with_receipts s [] Hwf)) Hc) as Hsup1.
  change (supply (with_receipts s [])) with (supply s) in Hsup1.
  pose proof (pay_all_refines block chain_id s (enumerate (b_transactions block)) s1 _
    [transfer_receipt (Transfer cb) block (Z.of_nat k mod two32) []] (represents_credit _ _ _ _ Hs Hc) Hwf1) as H.
  rewrite enumerate_snd in H. cbn [app].
  destruct (foldM (apply_tx block chain_id) _ _) as [[[s2 vm2] rs2]| |],
    (foldM pay_tx _ _) as [l| |]; apply H; try done; try lia;
    apply (Forall_enumerate (λ tx, tx_ok tx ∧ in_u64 (tx_nonce tx))), Forall_and; done.
Qed.

End Refinement.
