(* ===== verification/StateEquiv.v ===== *)
(** * Observational equivalence of states

    [PartialEq for State] compares accounts and contract storage and ignores the
    receipts and undo records of the last block.  The transition respects it: two
    equivalent parents accept the same blocks, with the same receipts and
    equivalent results.  This is what lets a node run from its cache, which keeps
    neither receipts nor undo records. *)

From S2P Require Import Prelude Bytes Abi Types Address Serialize Consensus Emission SparseMerkle State.
Open Scope Z_scope.

(** ** Related results *)

(** Both succeed with related values, both fail with one error, or both panic. *)
Definition result_rel {E A} (R : relation A) (r r' : result E A) : Prop :=
  match r, r' with
  | Ok a, Ok a' => R a a'
  | Err e, Err e' => e = e'
  | Panic, Panic => True
  | _, _ => False
  end.

Lemma result_rel_bind {E A B} (R : relation A) (S : relation B) (r r' : result E A)
    (f f' : A → result E B) :
  result_rel R r r' → (∀ a a', R a a' → result_rel S (f a) (f' a')) →
  result_rel S (r ≫= f) (r' ≫= f').
Proof. destruct r, r'; cbn; auto; done. Qed.

Lemma result_rel_same {E A} (R : relation A) (r : result E A) :
  (∀ a, r = Ok a → R a a) → result_rel R r r.
Proof. destruct r; cbn; auto. Qed.

Lemma result_rel_bind_same {E A B} (S : relation B) (r : result E A) (f f' : A → result E B) :
  (∀ a, r = Ok a → result_rel S (f a) (f' a)) → result_rel S (r ≫= f) (r ≫= f').
Proof. destruct r; cbn; auto. Qed.

Lemma result_rel_foldM {E A X} (R : relation A) (f : A → X → result E A) xs a a' :
  (∀ a a' x, R a a' → result_rel R (f a x) (f a' x)) →
  R a a' → result_rel R (foldM f a xs) (foldM f a' xs).
Proof.
  intros Hf. revert a a'. induction xs as [|x xs IH]; intros a a' Ha; cbn [foldM]; [done|].
  eapply result_rel_bind; [by apply Hf|]. auto.
Qed.

Lemma result_rel_ok {E A} (R : relation A) (r r' : result E A) a :
  result_rel R r r' → r = Ok a → ∃ a', r' = Ok a' ∧ R a a'.
Proof. intros H ->. destruct r'; cbn in H; [by eauto|done..]. Qed.

#[export] Instance result_rel_symmetric {E A} (R : relation A) :
  Symmetric R → Symmetric (@result_rel E A R).
Proof. intros HR [] []; cbn; auto. Qed.

(** ** The equivalence *)

#[export] Instance state_equiv : Equiv State := state_eq.

#[export] Instance state_equivalence : Equivalence (≡@{State}).
Proof.
  split; [done|by intros s t []|]. intros s t u [? ?] [? ?]. split; by etransitivity.
Qed.

Lemma state_equiv_receipts s R : with_receipts s R ≡ s.
Proof. done. Qed.

#[export] Instance get_balance_proper : Proper ((≡) ==> (=) ==> (=)) get_balance.
Proof. intros s t [H _] a ? <-. unfold get_balance. by rewrite H. Qed.
#[export] Instance get_nonce_proper : Proper ((≡) ==> (=) ==> (=)) get_nonce.
Proof. intros s t [H _] a ? <-. unfold get_nonce. by rewrite H. Qed.
#[export] Instance get_account_proper : Proper ((≡) ==> (=) ==> (=)) get_account.
Proof. intros s t [H _] a ? <-. unfold get_account. by rewrite H. Qed.
#[export] Instance total_supply_proper : Proper ((≡) ==> (=)) total_supply.
Proof. intros s t [H _]. unfold total_supply. by rewrite H. Qed.

#[export] Instance with_balances_proper : Proper ((≡) ==> (=) ==> (≡)) with_balances.
Proof. intros s t [_ H] b ? <-. by split. Qed.
#[export] Instance with_receipts_proper : Proper ((≡) ==> (=) ==> (≡)) with_receipts.
Proof. intros s t [? ?] b ? <-. by split. Qed.
#[export] Instance set_balance_proper : Proper ((≡) ==> (=) ==> (=) ==> (≡)) set_balance.
Proof.
  intros s t [Hb Hs] a ? <- b ? <-. unfold set_balance, prune_if_empty, entry_or_default. cbn.
  rewrite Hb. repeat case_match; by split.
Qed.
#[export] Instance set_nonce_proper : Proper ((≡) ==> (=) ==> (=) ==> (≡)) set_nonce.
Proof.
  intros s t [Hb Hs] a ? <- b ? <-. unfold set_nonce, prune_if_empty, entry_or_default. cbn.
  rewrite Hb. repeat case_match; by split.
Qed.
#[export] Instance set_account_proper : Proper ((≡) ==> (=) ==> (=) ==> (≡)) set_account.
Proof.
  intros s t [Hb Hs] a ? <- x ? <-. unfold set_account. rewrite Hb. case_match; by split.
Qed.

Lemma deduct_sender_equiv s t tx : s ≡ t → result_rel (≡) (deduct_sender s tx) (deduct_sender t tx).
Proof.
  intros H. unfold deduct_sender. rewrite (get_balance_proper _ _ H _ _ eq_refl).
  case_match; [done|]. apply result_rel_bind_same. intros b _. cbn. by rewrite H.
Qed.

Lemma credit_receiver_equiv s t tx : s ≡ t → result_rel (≡) (credit_receiver s tx) (credit_receiver t tx).
Proof.
  intros H. unfold credit_receiver. rewrite (get_balance_proper _ _ H _ _ eq_refl).
  apply result_rel_bind_same. intros b _. cbn. by rewrite H.
Qed.

#[export] Instance increment_nonce_proper : Proper ((≡) ==> (=) ==> (≡)) increment_nonce.
Proof. intros s t H tx ? <-. unfold increment_nonce. by rewrite H. Qed.

Lemma commit_transfer_equiv s t x : s ≡ t → result_rel (≡) (commit_transfer s x) (commit_transfer t x).
Proof.
  intros H. unfold commit_transfer. rewrite (get_balance_proper _ _ H _ _ eq_refl).
  apply result_rel_bind_same. intros b _.
  assert (set_balance s (vt_from x) b ≡ set_balance t (vt_from x) b) as H1 by by rewrite H.
  rewrite (get_balance_proper _ _ H1 _ _ eq_refl).
  apply result_rel_bind_same. intros b' _. cbn. by rewrite H1.
Qed.

Lemma commit_value_transfers_equiv s t id ts :
  s ≡ t → result_rel (≡) (commit_value_transfers s id ts) (commit_value_transfers t id ts).
Proof.
  intros H. unfold commit_value_transfers. destruct ts as [|x ts]; [done|].
  eapply result_rel_bind; [apply result_rel_foldM; [|exact H]; intros; by apply commit_transfer_equiv|].
  intros s' t' [? ?]. by split.
Qed.

Section Equiv.
Context `{HX : Hex, B3 : Blake3, B32 : Bech32}.

Lemma flush_scope_equiv s t u sc :
  s ≡ t → (flush_scope (s, u) sc).1 ≡ (flush_scope (t, u) sc).1
        ∧ (flush_scope (s, u) sc).2 = (flush_scope (t, u) sc).2.
Proof.
  intros [Hb Hs]. unfold flush_scope. destruct sc as [a w]. case_decide; [by split|].
  rewrite Hb, Hs. destruct (balances t !! a) as [[|c]|]; by split.
Qed.

Lemma flush_equiv s t r id : s ≡ t → flush_storage_writes s r id ≡ flush_storage_writes t r id.
Proof.
  intros H. unfold flush_storage_writes.
  assert (∀ l u s t, s ≡ t → (foldl flush_scope (s, u) l).1 ≡ (foldl flush_scope (t, u) l).1
     ∧ (foldl flush_scope (s, u) l).2 = (foldl flush_scope (t, u) l).2) as Hf.
  { clear. induction l as [|sc l IH]; intros u s t H; cbn [foldl]; [done|].
    destruct (flush_scope_equiv s t u sc H) as [H1 H2].
    destruct (flush_scope (s, u) sc) as [s1 u1], (flush_scope (t, u) sc) as [t1 u2].
    cbn in H1, H2. subst u2. by apply IH. }
  destruct (Hf (map_to_list (ex_storage_overlay r)) [] s t H) as [H1 H2].
  destruct (foldl _ (s, _) _) as [s1 u1], (foldl _ (t, _) _) as [t1 u2].
  cbn in H1, H2. subst u2. destruct u1; [done|]. destruct H1. by split.
Qed.

Context `{VM : VmExecutor V}.

Lemma make_context_equiv s t block caller callee v g i :
  s ≡ t → make_context s block caller callee v g i = make_context t block caller callee v g i.
Proof. intros [Hb Hs]. unfold make_context. by rewrite Hb, Hs. Qed.

Definition create_eq (x y : State * V * Receipt) : Prop := x.1.1 ≡ y.1.1 ∧ x.1.2 = y.1.2 ∧ x.2 = y.2.

Lemma apply_create_equiv s t c chain_id vm block i :
  s ≡ t → result_rel create_eq (apply_create s c chain_id vm block i) (apply_create t c chain_id vm block i).
Proof.
  intros Hst. unfold apply_create.
  rewrite (get_nonce_proper _ _ Hst _ _ eq_refl). apply result_rel_bind_same. intros addr _.
  rewrite (get_account_proper _ _ Hst _ _ eq_refl), (get_balance_proper _ _ Hst _ _ eq_refl).
  case_match; [done|]. case_match; [done|].
  match goal with |- context [make_context (set_nonce (set_account s ?a ?x) ?f ?n)] =>
    assert (set_nonce (set_account s a x) f n ≡ set_nonce (set_account t a x) f n) as Hs1 by by rewrite Hst end.
  apply result_rel_bind_same. intros vm' _. rewrite (make_context_equiv _ _ _ _ _ _ _ _ Hs1).
  destruct (execute_constructor _ _) as [r|e|]; [|split; [by apply set_account_proper|done]|done].
  destruct (decide (ex_status r = StSuccess)); [|split; [by apply set_account_proper|done]].
  pose proof (flush_equiv _ _ r (txid (Create c)) Hs1) as Hs2.
  rewrite (get_balance_proper _ _ Hs2 _ _ eq_refl). apply result_rel_bind_same. intros b _.
  eapply result_rel_bind; [apply commit_value_transfers_equiv; by rewrite Hs2|].
  intros s' t' Hs3. by split.
Qed.

Definition call_eq (x y : State * Receipt) : Prop := x.1 ≡ y.1 ∧ x.2 = y.2.

Lemma apply_call_equiv s t block c vm i :
  s ≡ t → result_rel call_eq (apply_call s block c vm i) (apply_call t block c vm i).
Proof.
  intros Hst. unfold apply_call. rewrite (get_balance_proper _ _ Hst _ _ eq_refl),
    (get_nonce_proper _ _ Hst _ _ eq_refl). case_match; [done|].
  match goal with |- context [set_nonce s ?f ?n] =>
    assert (set_nonce s f n ≡ set_nonce t f n) as Hs1 by by rewrite Hst end.
  rewrite (get_account_proper _ _ Hs1 _ _ eq_refl). case_match.
  - eapply result_rel_bind; [by apply commit_value_transfers_equiv|]. intros s' t' Hs2. by split.
  - rewrite (make_context_equiv _ _ _ _ _ _ _ _ Hs1).
    destruct (execute _ _) as [r|e|]; [|by split|done]. destruct (decide (ex_status r = StSuccess)).
    + eapply (result_rel_bind (≡)).
      * eapply result_rel_bind; [by apply commit_value_transfers_equiv|]. intros s' t' Hs2. by apply flush_equiv.
      * intros s' t' Hs2. by split.
    + by split.
Qed.

Definition work_eq (x y : @Work V) : Prop := x.1.1 ≡ y.1.1 ∧ x.1.2 = y.1.2 ∧ x.2 = y.2.

Lemma apply_tx_equiv block chain_id w w' itx :
  work_eq w w' → result_rel work_eq (apply_tx block chain_id w itx) (apply_tx block chain_id w' itx).
Proof.
  destruct w as [[s vm] rs], w' as [[t vm'] rs']. intros (H & Hv & Hr). cbn in H, Hv, Hr. subst vm' rs'.
  destruct itx as [i tx]. cbn [apply_tx]. case_match; [done|]. destruct tx as [x|c|c].
  - eapply result_rel_bind; [by apply deduct_sender_equiv|]. intros s1 t1 H1.
    eapply result_rel_bind; [by apply credit_receiver_equiv|]. intros s2 t2 H2.
    split; [by apply increment_nonce_proper|done].
  - destruct vm as [vm|]; [|done]. eapply result_rel_bind; [by apply apply_create_equiv|].
    intros [[s1 v1] r1] [[t1 v2] r2] (H1 & Hv & Hr). cbn in Hv, Hr. subst. by split.
  - destruct vm as [vm|]; [|done]. eapply result_rel_bind; [by apply apply_call_equiv|].
    intros [s1 r1] [t1 r2] (H1 & Hr). cbn in Hr. subst. by split.
Qed.

Lemma apply_genesis_tx_equiv block chain_id w w' itx :
  work_eq w w' → result_rel work_eq (apply_genesis_tx block chain_id w itx) (apply_genesis_tx block chain_id w' itx).
Proof.
  destruct w as [[s vm] rs], w' as [[t vm'] rs']. intros (H & Hv & Hr). cbn in H, Hv, Hr. subst vm' rs'.
  destruct itx as [i tx]. unfold apply_genesis_tx. apply result_rel_bind_same. intros _ _.
  destruct tx as [x|c|c]; [|done..]. eapply result_rel_bind; [by apply credit_receiver_equiv|].
  intros s1 t1 H1. by split.
Qed.

(** Results of a block: equivalent states with the same receipts, same executor. *)
Definition block_eq (x y : State * option V) : Prop :=
  x.1 ≡ y.1 ∧ receipts x.1 = receipts y.1 ∧ x.2 = y.2.

Lemma apply_block_equiv s t block chain_id vm :
  s ≡ t → result_rel block_eq (apply_block_inner s block chain_id vm) (apply_block_inner t block chain_id vm).
Proof.
  intros H. unfold apply_block_inner.
  eapply (result_rel_bind work_eq).
  - case_match.
    + apply result_rel_foldM; [intros; by apply apply_genesis_tx_equiv|]. split; [by apply H|done].
    + unfold apply_non_genesis. apply result_rel_bind_same. intros _ _.
      rewrite (total_supply_proper (with_receipts s []) (with_receipts t [])) by exact H.
      apply result_rel_bind_same. intros [k cb] _. apply result_rel_bind_same. intros tr _.
      case_match; [done|]. eapply result_rel_bind; [by apply credit_receiver_equiv|].
      intros s1 t1 Hs1. apply result_rel_foldM; [intros; by apply apply_tx_equiv|]. by split.
  - intros [[s1 v1] r1] [[t1 v2] r2] (H1 & Hv & Hr). cbn in Hv, Hr. subst. cbn. split; [|done].
    by apply H1.
Qed.

End Equiv.
