(* ===== verification/StateWitness.v ===== *)
(** * The state theorems on concrete blocks

    A block with a coinbase, a transfer, a deployment and calls runs through the
    definitions with the stand-ins of [Concrete]; two further runs exhibit what
    the transition does not check. *)

From S2P Require Import Prelude Bytes Abi Types Address Concrete Serialize Consensus Emission SparseMerkle State StateViews StateStorage StateProps BlockProps Ledger.
Open Scope Z_scope.

#[local] Existing Instances toy_hex toy_blake3 toy_bech32 toy_vm.

#[local] Instance toy_vm_laws : VmLaws ToyVm.
Proof.
  assert (∀ ctx e, Forall (λ t, 0 ≤ vt_amount t) (ex_value_transfers (toy_run ctx e))) as H.
  { intros ctx e. cbn. destruct (e && (0 <? cx_value ctx)) eqn:E; constructor; [|constructor].
    apply andb_true_iff in E as [_ E%Z.ltb_lt]. cbn. lia. }
  split; intros vm ctx r Hr; cbn in Hr.
  - destruct (_ !! _); [|done]. injection Hr as <-. apply H.
  - injection Hr as <-. apply H.
  - destruct (_ !! _); [|done]. injection Hr as <-. intros _ _ Hv. cbn.
    by rewrite (proj2 (Z.ltb_lt _ _) Hv).
Qed.

Definition demo_state : State :=
  with_balances state_new
    (<["alice" := account_eoa 1000 3]> (<["bob" := account_eoa 50 0]> ∅)).

(** The address of alice's first deployment in [demo_block]: her transfer moves
    her nonce from 3 to 4. *)
Definition demo_address : string :=
  match derive_contract_address "alice" 4 1 with Ok a => a | _ => "" end.

Definition demo_block (txs : list Transaction) : Block := {|
  b_index := 7; b_timestamp := 1700000000; b_transactions := txs;
  b_previous_hash := ""; b_hash := ""; b_nonce := 0; b_target := ""; b_consensus_version := 1;
  b_state_root := zero32; b_tx_root := zero32; b_receipts_root := zero32 |}.

Definition demo_txs : list Transaction :=
  [tx_coinbase "" "miner" 25 1; tx_transfer "alice" "bob" 300 3 1;
   tx_create "alice" [x00; x61] [x07] 100 4 1; tx_call "bob" demo_address [x2a] 40 1000 0 1;
   tx_call "bob" "carol" [] 5 1000 1 1].

Lemma demo_applies :
  is_ok (apply_block_inner demo_state (demo_block demo_txs) 1 (Some (∅ : ToyVm))) = true.
Proof. vm_compute. reflexivity. Qed.

Definition demo_after : State :=
  match apply_block_inner demo_state (demo_block demo_txs) 1 (Some (∅ : ToyVm)) with
  | Ok (s, _) => s | _ => demo_state end.

Example demo_after_balances :
  (get_balance demo_after <$> ["alice"; "bob"; "miner"; "carol"; demo_address])
  = [600; 305; 25; 5; 140].
Proof. vm_compute. reflexivity. Qed.


(** ** Witnesses *)

Lemma demo_wf : wf demo_state.
Proof. by_eval. Qed.
Lemma demo_tx_ok : Forall tx_ok (b_transactions (demo_block demo_txs)).
Proof. by_eval. Qed.
Lemma demo_reorg_ready : reorg_ready demo_state (demo_block demo_txs) 1 (Some (∅ : ToyVm)).
Proof. by_eval. Qed.

Lemma apply_block_preserves_wf_witness :
  ∃ s' vm', apply_block_inner demo_state (demo_block demo_txs) 1 (Some (∅ : ToyVm)) = Ok (s', vm')
    ∧ wf s'.
Proof.
  pose proof demo_applies as H.
  destruct (apply_block_inner demo_state (demo_block demo_txs) 1 (Some (∅ : ToyVm)))
    as [[s' vm']|e|] eqn:E; [|discriminate H|discriminate H].
  exists s', vm'. split; [reflexivity|].
  exact (apply_block_preserves_wf demo_state (demo_block demo_txs) 1 (Some ∅) s' vm' demo_wf demo_tx_ok E).
Defined.

Lemma apply_block_no_inflation_witness :
  ∃ s' vm', apply_block_inner demo_state (demo_block demo_txs) 1 (Some (∅ : ToyVm)) = Ok (s', vm')
    ∧ 25 ≤ reward_of demo_state (demo_block demo_txs) 1 ∧ supply s' ≤ supply demo_state + 25.
Proof.
  pose proof demo_applies as H.
  destruct (apply_block_inner demo_state (demo_block demo_txs) 1 (Some (∅ : ToyVm)))
    as [[s' vm']|e|] eqn:E; [|discriminate H|discriminate H].
  destruct (proj2 (apply_block_no_inflation demo_state (demo_block demo_txs) 1 (Some ∅) s' vm' demo_wf
    demo_tx_ok E) ltac:(discriminate)) as (k & cb & Hf & [_ H1] & H2 & _).
  injection Hf as <- <-. exists s', vm'. split; [reflexivity|]. split; [exact H1|exact H2].
Defined.

Lemma apply_block_receipts_witness :
  ∃ s' vm', apply_block_inner demo_state (demo_block demo_txs) 1 (Some (∅ : ToyVm)) = Ok (s', vm')
    ∧ length (receipts s') = 5%nat.
Proof.
  pose proof demo_applies as H.
  destruct (apply_block_inner demo_state (demo_block demo_txs) 1 (Some (∅ : ToyVm)))
    as [[s' vm']|e|] eqn:E; [|discriminate H|discriminate H].
  destruct (apply_block_receipts demo_state (demo_block demo_txs) 1 (Some ∅) s' vm' demo_wf demo_tx_ok
    ltac:(discriminate) E) as (k & cb & _ & H1).
  exists s', vm'. split; [reflexivity|].
  rewrite <- (length_fmap rc_txid), H1. cbn [length]. rewrite length_fmap. vm_compute. reflexivity.
Defined.

Lemma unapply_apply_block_witness :
  ∃ s' vm', apply_block_inner demo_state (demo_block demo_txs) 1 (Some (∅ : ToyVm)) = Ok (s', vm')
    ∧ unapply_block s' (demo_block demo_txs) 1 = Ok demo_state.
Proof.
  pose proof demo_applies as H.
  destruct (apply_block_inner demo_state (demo_block demo_txs) 1 (Some (∅ : ToyVm)))
    as [[s' vm']|e|] eqn:E; [|discriminate H|discriminate H].
  exists s', vm'. split; [reflexivity|].
  exact (unapply_apply_block demo_state (demo_block demo_txs) 1 (Some ∅) s' vm' demo_wf demo_reorg_ready E).
Defined.

(** A transfer block for the ledger: alice pays bob, bob pays carol out of it, each
    with the next nonce of its account. *)
Definition demo_payments : list Transaction :=
  [tx_coinbase "" "miner" 25 1; tx_transfer "alice" "bob" 300 4 1; tx_transfer "bob" "carol" 320 1 1].

Definition demo_ledger : result LedgerError Ledger :=
  ledger_block (ledger_of demo_state) 1 demo_payments 1 (reward_of demo_state (demo_block demo_payments) 1).

Lemma demo_ledger_pays : match demo_ledger with Ok l => funds l "bob" = 30 | _ => False end.
Proof. vm_compute. reflexivity. Qed.


(** ** What the transition does not check *)

(** The transaction nonce plays no role: changing it changes no balance, nonce or
    acceptance decision, so a signed transfer can be included again. *)
Definition renonce (t : TransferTx) (n : Z) : TransferTx :=
  {| tr_from := tr_from t; tr_to := tr_to t; tr_amount := tr_amount t; tr_fee := tr_fee t;
     tr_nonce := n; tr_chain_id := tr_chain_id t; tr_signature := tr_signature t;
     tr_is_coinbase := tr_is_coinbase t |}.

Lemma transfer_nonce_ignored block chain_id (w : Work (V:=ToyVm)) i t n :
  (λ w' : Work, w'.1) <$> apply_tx block chain_id w (i, Transfer (renonce t n))
  = (λ w' : Work, w'.1) <$> apply_tx block chain_id w (i, Transfer t).
Proof.
  destruct w as [[s vm] rs]. cbn [apply_tx is_coinbase renonce tr_is_coinbase].
  destruct (tr_is_coinbase t); [done|].
  change (deduct_sender s (renonce t n)) with (deduct_sender s t).
  destruct (deduct_sender s t) as [s1| |]; cbn [mbind result_bind]; [|done..].
  change (credit_receiver s1 (renonce t n)) with (credit_receiver s1 t).
  by destruct (credit_receiver s1 t) as [s2| |].
Qed.

(** The same transfer twice in one block pays twice. *)
Example transfer_replayed :
  match apply_block demo_state
    (demo_block [tx_coinbase "" "miner" 25 1; tx_transfer "alice" "bob" 300 3 1;
                 tx_transfer "alice" "bob" 300 3 1]) 1 with
  | Ok s' => (bal s' "alice", bal s' "bob") = (400, 650)
  | _ => False
  end.
Proof. vm_compute. reflexivity. Qed.

(** With two coinbases only the first is credited but both are debited on undo. *)
Example second_coinbase_breaks_undo :
  let block := demo_block [tx_coinbase "" "miner" 25 1; tx_coinbase "" "alice" 10 1] in
  match apply_block demo_state block 1 with
  | Ok s' => (λ s, bal s "alice") <$> unapply_block s' block 1 = Ok 990
  | _ => False
  end.
Proof. vm_compute. reflexivity. Qed.

(** Deploying at an address that already holds funds destroys them. *)
Example deploy_burns_prefunded_address :
  let funded := set_balance demo_state demo_address 77 in
  match apply_block_inner funded (demo_block demo_txs) 1 (Some (∅ : ToyVm)) with
  | Ok (s', _) => supply s' = supply funded + 25 - 77
  | _ => False
  end.
Proof. vm_compute. reflexivity. Qed.
