(* ===== verification/Witness.v ===== *)
(** * Stateless verification (core/src/state/witness.rs)

    A block's witness holds a Merkle proof for every account the block touches; a
    verifier that knows only the parent state root replays the block on them and
    recomputes the post-state root. *)

From S2P Require Import Prelude Bytes Abi Types Address Serialize Consensus Emission SparseMerkle State.
From stdpp Require Import sorting.
Open Scope Z_scope.

Record AccountProof := {
  ap_balance : Z;
  ap_nonce : Z;
  ap_code_hash : option (list byte);
  ap_storage_root : option (list byte);
  ap_key_hash : list byte;
  ap_proof : list (list byte)
}.

(** [AccountProof::account]. *)
Definition proof_account (p : AccountProof) : Account :=
  match ap_code_hash p, ap_storage_root p with
  | Some code_hash, Some storage_root =>
      Contract {| ct_code_hash := code_hash; ct_storage_root := storage_root;
                  ct_nonce := ap_nonce p; ct_balance := ap_balance p |}
  | _, _ => account_eoa (ap_balance p) (ap_nonce p)
  end.

Record StateWitness := {
  sw_pre_state_root : list byte;
  sw_proofs : gmap string AccountProof
}.

(** [if !addresses.contains(&a) { addresses.push(a) }]. *)
Definition push_new (addresses : list string) (a : string) : list string :=
  if decide (a ∈ addresses) then addresses else addresses ++ [a].

Definition push_receiver (addresses : list string) (tx : Transaction) : list string :=
  match receiver tx with Some r => push_new addresses r | None => addresses end.

Definition collect_touched_addresses (block : Block) : list string :=
  foldl (λ addresses tx,
    if is_coinbase tx then push_receiver addresses tx
    else push_receiver (push_new addresses (sender tx)) tx) [] (b_transactions block).

Section Witness.
Context `{B3 : Blake3}.

(** [sort_by_key(|(addr, _)| blake3(addr))]. *)
Definition hash_le (p q : string * Account) : Prop :=
  bytes_ltb (account_key_hash q.1) (account_key_hash p.1) = false.
#[export] Instance hash_le_dec : RelDecision hash_le.
Proof. intros p q. unfold hash_le. apply _. Defined.

Definition build_trie (s : State) : SparseMerkleTrie :=
  foldl (λ t '(addr, account), trie_insert t addr account) trie_new
    (merge_sort hash_le (map_to_list (balances s))).

(** One address of [build_witness]. *)
Definition prove_account (s : State) (trie : SparseMerkleTrie) (addr : string)
    : result CoreError AccountProof :=
  let account := default account_default (balances s !! addr) in
  proof ← prove trie addr account;
  Ok {| ap_balance := balance account; ap_nonce := nonce account;
        ap_code_hash := ct_code_hash <$> as_contract account;
        ap_storage_root := ct_storage_root <$> as_contract account;
        ap_key_hash := account_key_hash addr; ap_proof := proof |}.

Definition build_witness (pre_state : State) (block : Block) : result CoreError StateWitness :=
  let pre_state_root := compute_root (balances pre_state) in
  let trie := build_trie pre_state in
  proofs ← foldM (λ proofs addr, p ← prove_account pre_state trie addr; Ok (<[addr := p]> proofs))
             ∅ (collect_touched_addresses block);
  Ok {| sw_pre_state_root := pre_state_root; sw_proofs := proofs |}.

(** The partial state a witness describes. *)
Definition reconstructed (w : StateWitness) : State :=
  with_balances state_new (proof_account <$> sw_proofs w).

Definition witness_updates (w : StateWitness) (post_state : State) : list LeafUpdate :=
  (λ '(addr, p), {| lu_address := addr; lu_pre := proof_account p; lu_proof := ap_proof p;
                    lu_post := default account_default (balances post_state !! addr) |})
    <$> map_to_list (sw_proofs w).

Context `{HX : Hex, B32 : Bech32}.

Definition verify_block_stateless (parent_state_root : list byte) (block : Block) (chain_id : Z)
    (w : StateWitness) : result CoreError unit :=
  if negb (bool_decide (sw_pre_state_root w = parent_state_root))
  then Err WitnessVerificationFailed else
  if negb (forallb (λ '(addr, p), verify_proof parent_state_root addr (proof_account p) (ap_proof p))
             (map_to_list (sw_proofs w)))
  then Err WitnessVerificationFailed else
  if negb (forallb (λ addr, bool_decide (is_Some (sw_proofs w !! addr)))
             (collect_touched_addresses block))
  then Err WitnessVerificationFailed else
  post_state ← apply_block (reconstructed w) block chain_id;
  computed ← root_after_updates parent_state_root (witness_updates w post_state);
  if (b_index block =? 0) && bool_decide (b_state_root block = zero32) then Ok tt else
  if decide (b_state_root block = computed) then Ok tt
  else Err (PostStateRootMismatch (b_state_root block) computed).

End Witness.
