(* ===== verification/WitnessProps.v ===== *)
(** * Properties of stateless verification

    The transfer-only transition reads and writes only the accounts a block touches,
    so replaying it on the proven accounts gives the accounts the full state would
    get; with the root recomputation of the sparse Merkle tree this makes stateless
    verification agree with full validation. *)

From S2P Require Import Prelude Bytes Abi Types Address Concrete Serialize SerializeProps Consensus Emission SparseMerkle SparseMerkleProps State StateViews StateStorage StateEquiv StateProps BlockProps Witness.
From stdpp Require Import sorting.
Open Scope Z_scope.

(** ** Locality of the transition *)

(** Two states show the same accounts on [D]. *)
Definition agree (D : gset string) (s t : State) : Prop :=
  ∀ a, a ∈ D → entry_or_default s a = entry_or_default t a.

(** Outside [D] nothing changed. *)
Definition frozen (D : gset string) (s t : State) : Prop :=
  ∀ a, a ∉ D → balances t !! a = balances s !! a.

#[export] Instance frozen_preorder D : PreOrder (frozen D).
Proof. split; [by intros s a|]. intros s t u H1 H2 a Ha. by rewrite H2, H1. Qed.

Lemma entry_put s k x a :
  entry_or_default (put s k x) a
  = if decide (a = k) then (if is_empty x then account_default else x) else entry_or_default s a.
Proof.
  unfold entry_or_default. rewrite put_lookup. case_decide; [|done]. by destruct (is_empty x).
Qed.

Lemma agree_put D s t k x y :
  agree D s t → x = y → agree D (put s k x) (put t k y).
Proof. intros H <- a Ha. rewrite !entry_put. case_decide; [done|]. by apply H. Qed.

Lemma frozen_put D s k x : k ∈ D → frozen D s (put s k x).
Proof. intros Hk a Ha. rewrite put_lookup. by rewrite decide_False by (intros ->; done). Qed.

Lemma agree_balance D s t a : agree D s t → a ∈ D → get_balance s a = get_balance t a.
Proof. intros H Ha. by rewrite <- !entry_balance, (H a Ha). Qed.
Lemma agree_nonce D s t a : agree D s t → a ∈ D → get_nonce s a = get_nonce t a.
Proof. intros H Ha. by rewrite <- !entry_nonce, (H a Ha). Qed.

(** A step that only involves accounts of [D]: equal accounts there give equal
    outcomes there, and the rest is frozen. *)
Definition local_step (D : gset string) (f : State → result CoreError State) : Prop :=
  ∀ s t, agree D s t →
    result_rel (agree D) (f s) (f t) ∧ ∀ t', f t = Ok t' → frozen D t t'.

Lemma local_set_balance D k (f : Z → option Z) (e : CoreError) :
  k ∈ D → local_step D (λ s, b ← ok_or (f (get_balance s k)) e; Ok (set_balance s k b)).
Proof.
  intros Hk s t H. rewrite (agree_balance D s t k H Hk). split.
  - apply result_rel_bind_same. intros b _. cbn. rewrite !set_balance_put.
    apply agree_put; [done|]. by rewrite (H k Hk).
  - intros t' E. apply bind_ok_inv in E as (b & _ & [= <-]). rewrite set_balance_put. by apply frozen_put.
Qed.

Lemma local_credit D tx : tr_to tx ∈ D → local_step D (λ s, credit_receiver s tx).
Proof. intros H. by apply (local_set_balance D (tr_to tx) (λ b, checked_add64 b (tr_amount tx))). Qed.

Lemma local_deduct D tx : tr_from tx ∈ D → local_step D (λ s, deduct_sender s tx).
Proof.
  intros Hk s t H. unfold deduct_sender. rewrite (agree_balance D s t _ H Hk).
  case_match; [split; [|intros]; done|].
  pose proof (local_set_balance D (tr_from tx) (λ b, checked_sub64 b (tr_amount tx)) StateOverflow Hk s t H) as Hl.
  cbn beta in Hl. by rewrite (agree_balance D s t _ H Hk) in Hl.
Qed.

Lemma local_increment D s t tx :
  tr_from tx ∈ D → agree D s t →
  agree D (increment_nonce s tx) (increment_nonce t tx) ∧ frozen D t (increment_nonce t tx).
Proof.
  intros Hk H. unfold increment_nonce. rewrite !set_nonce_put, (agree_nonce D s t _ H Hk). split.
  - apply agree_put; [done|]. by rewrite (H _ Hk).
  - by apply frozen_put.
Qed.

(** ** Locality of a block *)

(** The accounts a transaction names are in [D]. *)
Definition names_in (D : gset string) (tx : Transaction) : Prop :=
  (is_coinbase tx = false → sender tx ∈ D) ∧ ∀ r, receiver tx = Some r → r ∈ D.

Section Local.
Context `{HX : Hex, B3 : Blake3, B32 : Bech32}.

(** Working states that agree on [D], without executor, with the same receipts. *)
Definition work_agree (D : gset string) (x y : @Work NoVm) : Prop :=
  agree D x.1.1 y.1.1 ∧ x.1.2 = None ∧ y.1.2 = None ∧ x.2 = y.2.

Lemma local_apply_tx D block chain_id w w' itx :
  names_in D itx.2 → work_agree D w w' →
  result_rel (work_agree D) (apply_tx block chain_id w itx) (apply_tx block chain_id w' itx)
  ∧ ∀ w2, apply_tx block chain_id w' itx = Ok w2 → frozen D w'.1.1 w2.1.1.
Proof.
  destruct w as [[s vm] rs], w' as [[t vm'] rs'], itx as [i tx]. intros [Hs Hr] (H & Hv & Hv' & Hrs).
  cbn in H, Hv, Hv', Hrs, Hs, Hr. subst vm vm' rs'. unfold apply_tx.
  destruct (is_coinbase tx) eqn:Ecb; [split; [done|]; by intros w2 [= <-]|].
  destruct tx as [tr|c|c]; [|split; [done|]; done..].
  assert (tr_from tr ∈ D) as Hfrom by (by apply Hs). assert (tr_to tr ∈ D) as Hto by (by apply Hr).
  destruct (local_deduct D tr Hfrom s t H) as [H1 F1]. split.
  - eapply result_rel_bind; [exact H1|]. intros s1 t1 A1. destruct (local_credit D tr Hto s1 t1 A1) as [H2 _].
    eapply result_rel_bind; [exact H2|]. intros s2 t2 A2. cbn. split_and!; [|done..].
    by apply local_increment.
  - intros w2 E. apply bind_ok_inv in E as (t1 & E1 & E). apply bind_ok_inv in E as (t2 & E2 & [= <-]). cbn.
    transitivity t1; [by apply F1|].
    destruct (local_credit D tr Hto t1 t1) as [_ F2]; [done|]. transitivity t2; [by apply F2|].
    by apply (local_increment D t2 t2).
Qed.

Lemma local_genesis_tx D block chain_id w w' itx :
  names_in D itx.2 → work_agree D w w' →
  result_rel (work_agree D) (apply_genesis_tx block chain_id w itx) (apply_genesis_tx block chain_id w' itx)
  ∧ ∀ w2, apply_genesis_tx block chain_id w' itx = Ok w2 → frozen D w'.1.1 w2.1.1.
Proof.
  destruct w as [[s vm] rs], w' as [[t vm'] rs'], itx as [i tx]. intros [_ Hr] (H & Hv & Hv' & Hrs).
  cbn in H, Hv, Hv', Hrs, Hr. subst vm vm' rs'. unfold apply_genesis_tx.
  destruct (validate_tx_chain_id tx chain_id) as [[]| |]; cbn [mbind result_bind]; [|split; done..].
  destruct tx as [tr|c|c]; [|split; done..].
  assert (tr_to tr ∈ D) as Hto by (by apply Hr). destruct (local_credit D tr Hto s t H) as [H1 F1]. split.
  - eapply result_rel_bind; [exact H1|]. intros s1 t1 A1. by split_and!.
  - intros w2 E. apply bind_ok_inv in E as (t1 & E1 & [= <-]). by apply F1.
Qed.

(** A loop of such steps. *)
Lemma local_loop D (f : @Work NoVm → Z * Transaction → result CoreError (@Work NoVm)) itxs w w' :
  (∀ w w' itx, names_in D itx.2 → work_agree D w w' →
     result_rel (work_agree D) (f w itx) (f w' itx)
     ∧ ∀ w2, f w' itx = Ok w2 → frozen D w'.1.1 w2.1.1) →
  Forall (λ p, names_in D p.2) itxs → work_agree D w w' →
  result_rel (work_agree D) (foldM f w itxs) (foldM f w' itxs)
  ∧ ∀ w2, foldM f w' itxs = Ok w2 → frozen D w'.1.1 w2.1.1.
Proof.
  intros Hf Hn. revert w w'. induction Hn as [|itx itxs Hi _ IH]; intros w w' H; cbn [foldM].
  { split; [done|]. by intros w2 [= <-]. }
  destruct (Hf w w' itx Hi H) as [H1 F1].
  destruct (f w itx) as [x| |], (f w' itx) as [y| |]; cbn in H1 |- *; try (split; done).
  destruct (IH x y H1) as [H2 F2]. split; [done|]. intros w2 E.
  transitivity y.1.1; [by apply F1|by apply F2].
Qed.

Lemma local_apply_block D s t block chain_id s' :
  agree D s t → Forall (names_in D) (b_transactions block) →
  (∀ k cb, list_find (λ tx, is_coinbase tx = true) (b_transactions block) = Some (k, Transfer cb) →
     tr_amount cb ≤ reward_of s block chain_id → tr_amount cb ≤ reward_of t block chain_id) →
  apply_block s block chain_id = Ok s' →
  ∃ t', apply_block t block chain_id = Ok t' ∧ agree D s' t' ∧ frozen D t t'.
Proof.
  intros H Hn Hrew Ha. unfold apply_block in Ha. apply Forall_enumerate in Hn as Hn'.
  destruct (apply_block_inner s block chain_id None) as [[x vx]| |] eqn:E; [|done..].
  cbn in Ha. injection Ha as ->.
  unfold apply_block_inner in E. apply bind_ok_inv in E as ([[s1 v1] rs] & E & [= <- _]).
  assert (∃ t1 vt, (if b_index block =? 0 then apply_genesis (with_receipts t [], None, []) block chain_id
    else apply_non_genesis (with_receipts t [], None, []) block chain_id) = Ok (t1, vt, rs)
    ∧ agree D s1 t1 ∧ frozen D t t1) as (t1 & vt & Et & A1 & F1).
  { destruct (b_index block =? 0).
    - destruct (local_loop D (apply_genesis_tx block chain_id) (enumerate (b_transactions block))
        (with_receipts s [], None, []) (with_receipts t [], None, [])) as [Hr Hf];
        [intros; by apply local_genesis_tx|done|by split_and!|].
      destruct (result_rel_ok _ _ _ _ Hr E) as ([[t1 vt] rt] & Et & A & _ & _ & Ers). cbn in A, Ers. subst rt.
      exists t1, vt. split_and!; [done..|by apply (Hf _ Et)].
    - apply apply_non_genesis_inv in E as (Hids & k & cb & s2 & Hf & Hle & Hc & E).
      pose proof (found_ok _ (names_in D) _ _ _ Hf Hn) as [_ Hto].
      assert (credit_receiver (with_receipts s []) cb = Ok s2) as Hc' by exact Hc.
      destruct (local_credit D cb (Hto _ eq_refl) (with_receipts s []) (with_receipts t []) H) as [Hr Hfz].
      destruct (result_rel_ok _ _ _ _ Hr Hc') as (t2 & Ec & A2).
      destruct (local_loop D (apply_tx block chain_id) (enumerate (b_transactions block))
        (s2, None, [transfer_receipt (Transfer cb) block (Z.of_nat k mod two32) []])
        (t2, None, [transfer_receipt (Transfer cb) block (Z.of_nat k mod two32) []])) as [Hl Hlf];
        [intros; by apply local_apply_tx|done|by split_and!|].
      destruct (result_rel_ok _ _ _ _ Hl E) as ([[t1 vt] rt] & Et & A & _ & _ & Ers). cbn in A, Ers. subst rt.
      exists t1, vt. split_and!; [|done|].
      + unfold apply_non_genesis. rewrite (proj2 (chain_ids_ok _ _) Hids). cbn [mbind result_bind].
        rewrite Hf. cbn [ok_or mbind result_bind].
        change (total_supply (with_receipts t [])) with (total_supply t).
        fold (reward_of t block chain_id).
        change (reward_of (with_receipts s []) block chain_id) with (reward_of s block chain_id) in Hle.
        destruct (Z.ltb_spec (reward_of t block chain_id) (tr_amount cb)) as [Hlt|_];
          [specialize (Hrew k cb Hf Hle); lia|].
        rewrite Ec. cbn [mbind result_bind]. exact Et.
      + transitivity t2; [exact (Hfz t2 Ec)|exact (Hlf _ Et)]. }
  exists (with_receipts t1 rs). split_and!; [|done|done].
  unfold apply_block, apply_block_inner. cbv zeta. by destruct (b_index block =? 0); rewrite Et.
Qed.

End Local.

(** ** Touched addresses *)

Lemma push_new_spec l a b : b ∈ push_new l a ↔ b ∈ l ∨ b = a.
Proof. unfold push_new. case_decide; set_solver. Qed.

Lemma touched_names (txs : list Transaction) l (D : gset string) :
  (∀ a, a ∈ foldl (λ addresses tx,
    if is_coinbase tx then push_receiver addresses tx
    else push_receiver (push_new addresses (sender tx)) tx) l txs → a ∈ D) →
  (∀ a, a ∈ l → a ∈ D) ∧ Forall (names_in D) txs.
Proof.
  revert l. induction txs as [|tx txs IH]; intros l H; cbn [foldl] in H; [done|].
  destruct (IH _ H) as [H1 H2].
  assert (∀ l' a, a ∈ l' → a ∈ push_receiver l' tx) as Hmono.
  { intros l' a Ha. unfold push_receiver. destruct (receiver tx); [|done]. apply push_new_spec. by left. }
  assert (∀ l' r, receiver tx = Some r → r ∈ push_receiver l' tx) as Hrec.
  { intros l' r Hr. unfold push_receiver. rewrite Hr. apply push_new_spec. by right. }
  destruct (is_coinbase tx) eqn:E.
  - split; [intros a Ha; by apply H1, Hmono|]. constructor; [|done]. split; [by rewrite E|].
    intros r Hr. by apply H1, Hrec.
  - split; [intros a Ha; apply H1, Hmono, push_new_spec; by left|]. constructor; [|done]. split.
    + intros _. apply H1, Hmono, push_new_spec. by right.
    + intros r Hr. by apply H1, Hrec.
Qed.

(** ** The root of the post-state *)

Section Roots.
Context `{B3 : Blake3, B3ok : !Blake3Ok}.

(** The leaf an account contributes, if any. *)
Definition leaf_opt (addr : string) (a : Account) : option (list byte) :=
  if is_empty a then None else Some (account_leaf_hash (account_key_hash addr) a).

Lemma apply_updates_hit t us u :
  NoDup ((λ u, account_key_hash (lu_address u)) <$> us) → u ∈ us →
  leaves (apply_updates t us) !! account_key_hash (lu_address u) = leaf_opt (lu_address u) (lu_post u).
Proof.
  revert t. induction us as [|v us IH]; intros t Hnd Hu; [set_solver|].
  rewrite fmap_cons in Hnd. apply NoDup_cons in Hnd as [Hv Hnd].
  change (apply_updates t (v :: us)) with (apply_updates (trie_insert t (lu_address v) (lu_post v)) us).
  apply elem_of_cons in Hu as [->|Hu]; [|by apply IH].
  rewrite apply_updates_other.
  - by rewrite trie_insert_lookup, decide_True.
  - intros u' Hu' E. apply Hv. rewrite <- E.
    by apply (list_elem_of_fmap_2 (λ u, account_key_hash (lu_address u))).
Qed.

Lemma trie_of_list_none (l : list (string * Account)) k :
  k ∉ ((λ p, account_key_hash p.1) <$> l) → leaves (trie_of_list l) !! k = None.
Proof.
  unfold trie_of_list. induction l as [|[a x] l IH] using rev_ind; intros Hk; [done|].
  rewrite fmap_app in Hk. rewrite foldl_app. cbn [foldl]. rewrite trie_insert_lookup.
  rewrite decide_False; [apply IH; set_solver|]. intros ->. apply Hk, elem_of_app. right. cbn. set_solver.
Qed.

(** Writing the post accounts of [D] into the trie of [P] gives the root of [Q]. *)
Lemma post_root (P Q : gmap string Account) (us : list LeafUpdate) :
  let D := lu_address <$> us in
  NoDup D → collision_free_on (as_bytes <$> (map_to_list P).*1 ++ D) →
  (∀ a, a ∉ D → Q !! a = P !! a) →
  (∀ u, u ∈ us → lu_post u = default account_default (Q !! lu_address u)) →
  root (apply_updates (trie_of_list (map_to_list P)) us) = compute_root Q.
Proof.
  intros D HD Hcf Hout Hin.
  assert (∀ a, is_Some (P !! a) ∨ a ∈ D → as_bytes a ∈ (as_bytes <$> (map_to_list P).*1 ++ D)) as Hmem.
  { intros a Ha. apply list_elem_of_fmap_2, elem_of_app. destruct Ha as [[x Hx]|Ha]; [left|by right].
    apply list_elem_of_fmap. exists (a, x). split; [done|]. by apply elem_of_map_to_list. }
  assert (∀ a b, is_Some (P !! a) ∨ a ∈ D → is_Some (P !! b) ∨ b ∈ D →
            account_key_hash a = account_key_hash b → a = b) as Hinj.
  { intros a b Ha Hb E. apply as_bytes_inj, Hcf; auto. }
  assert (∀ a, is_Some (Q !! a) → is_Some (P !! a) ∨ a ∈ D) as HQ.
  { intros a Ha. destruct (decide (a ∈ D)); [by right|]. left. by rewrite <- Hout. }
  assert (∀ (M : gmap string Account) a, (∀ b, is_Some (M !! b) → is_Some (P !! b) ∨ b ∈ D) →
    is_Some (P !! a) ∨ a ∈ D → collision_free_on (as_bytes <$> a :: (map_to_list M).*1)) as Hsub.
  { intros M a HM Ha. eapply collision_free_sub; [|exact Hcf]. intros x Hx. cbn in Hx.
    apply elem_of_cons in Hx as [->|Hx]; [by apply Hmem|].
    apply list_elem_of_fmap in Hx as (b & -> & Hb). apply Hmem, HM.
    apply list_elem_of_fmap in Hb as ([b' y] & -> & Hb%elem_of_map_to_list). by exists y. }
  rewrite (compute_root_trie Q (map_to_list Q)); [|done|].
  2: { apply keys_NoDup; [apply NoDup_fst_map_to_list|].
       eapply collision_free_sub; [|exact Hcf]. intros x (b & -> & Hb)%list_elem_of_fmap.
       apply Hmem, HQ. apply list_elem_of_fmap in Hb as ([b' y] & -> & Hb%elem_of_map_to_list). by exists y. }
  unfold root. enough (leaves (apply_updates (trie_of_list (map_to_list P)) us)
    = leaves (trie_of_list (map_to_list Q))) as -> by done. apply map_eq. intros k.
  destruct (decide (k ∈ (account_key_hash <$> D))) as [(a & -> & Ha)%list_elem_of_fmap|Hk].
  - pose proof Ha as (u & -> & Hu)%list_elem_of_fmap. rewrite apply_updates_hit; [|..|done].
    + rewrite trie_leaf by (apply Hsub; [exact HQ|by right]). cbn. by rewrite (Hin u Hu).
    + change ((λ u, account_key_hash (lu_address u)) <$> us) with (account_key_hash ∘ lu_address <$> us).
      rewrite list_fmap_compose. apply NoDup_fmap_2_strong; [|done]. intros x y Hx Hy. apply Hinj; by right.
  - rewrite apply_updates_other.
    2: { intros u Hu <-. apply Hk, list_elem_of_fmap_2. by apply (list_elem_of_fmap_2 lu_address). }
    destruct (decide (k ∈ ((λ p, account_key_hash p.1) <$> map_to_list P ++ map_to_list Q))) as [Hin'|Hnin].
    + apply list_elem_of_fmap in Hin' as ([a x] & -> & Hax). cbn in *.
      assert (is_Some (P !! a) ∨ is_Some (Q !! a)) as Hor.
      { apply elem_of_app in Hax as [H%elem_of_map_to_list|H%elem_of_map_to_list]; [left|right]; by exists x. }
      assert (a ∉ D) as HaD by (intros HaD; by apply Hk, list_elem_of_fmap_2).
      assert (is_Some (P !! a)) as HP by (rewrite Hout in Hor by done; tauto).
      rewrite (trie_leaf P a) by (apply Hsub; [intros; by left|by left]).
      rewrite (trie_leaf Q a) by (apply Hsub; [exact HQ|by left]). by rewrite Hout.
    + rewrite fmap_app, not_elem_of_app in Hnin. destruct Hnin. by rewrite !trie_of_list_none by done.
Qed.

End Roots.

(** ** Rewards of a partial state *)

Lemma reward_mono s t block chain_id :
  0 ≤ supply s ≤ supply t → supply t * TAIL_RATE_NUMERATOR < two64 →
  reward_of s block chain_id ≤ reward_of t block chain_id.
Proof.
  intros [H0 Hle] Hlt. unfold reward_of, block_reward_at_height_for_chain.
  destruct (chain_id =? CHAIN_ID_REGTEST); [done|]. apply Z.max_le_compat_l.
  unfold calculate_tail_reward. rewrite !total_supply_wrap. unfold TAIL_RATE_NUMERATOR in *.
  rewrite !(Z.mod_small _ two64) by lia. apply Z.div_le_mono; [done|].
  unfold mul64. rewrite !wrap64_small by (unfold in_u64; lia). lia.
Qed.

Lemma sumZ_fmap_le (f g : string → Z) l : (∀ a, a ∈ l → f a ≤ g a) → sumZ (f <$> l) ≤ sumZ (g <$> l).
Proof.
  induction l as [|a l IH]; intros H; cbn; [done|].
  pose proof (H a ltac:(by left)). assert (∀ b, b ∈ l → f b ≤ g b) as H' by (intros; apply H; by right).
  specialize (IH H'). lia.
Qed.

Lemma supply_partial s t :
  in_range t → (∀ a, a ∈ dom (balances s) → bal s a = bal t a) → supply s ≤ supply t.
Proof.
  intros Hr H. set (D := dom (balances s) ∪ dom (balances t) : gset string).
  rewrite <- (supply_over s D), <- (supply_over t D) by (unfold D; set_solver).
  apply sumZ_fmap_le. intros a _. destruct (decide (a ∈ dom (balances s))) as [Ha|Ha]; [by rewrite H|].
  apply not_elem_of_dom in Ha. unfold get_balance at 1. rewrite Ha. cbn. apply (in_range_bal t a Hr).
Qed.

Section Stateless.
Context `{HX : Hex, B3 : Blake3, B32 : Bech32}.
Context `{B3ok : !Blake3Ok}.

(** ** Anatomy of an accepted witness *)

Lemma stateless_inv r block chain_id w :
  verify_block_stateless r block chain_id w = Ok tt ↔
  sw_pre_state_root w = r ∧
  (∀ addr p, sw_proofs w !! addr = Some p → verify_proof r addr (proof_account p) (ap_proof p) = true) ∧
  (∀ addr, addr ∈ collect_touched_addresses block → is_Some (sw_proofs w !! addr)) ∧
  ∃ ps computed, apply_block (reconstructed w) block chain_id = Ok ps ∧
    root_after_updates r (witness_updates w ps) = Ok computed ∧
    (b_index block = 0 ∧ b_state_root block = zero32 ∨ b_state_root block = computed).
Proof.
  unfold verify_block_stateless.
  destruct (bool_decide_reflect (sw_pre_state_root w = r)) as [->|Hr]; cbn [negb];
    [|by split; [|intros [? _]]].
  destruct (forallb _ (map_to_list (sw_proofs w))) eqn:Hv; cbn [negb].
  2: { split; [done|]. intros (_ & Hall & _). exfalso. apply not_true_iff_false in Hv. apply Hv, forallb_forall.
       intros [addr p] Hin%list_elem_of_In%elem_of_map_to_list. by apply Hall. }
  destruct (forallb _ (collect_touched_addresses block)) eqn:Ht; cbn [negb].
  2: { split; [done|]. intros (_ & _ & Hall & _). exfalso. apply not_true_iff_false in Ht. apply Ht, forallb_forall.
       intros addr Hin%list_elem_of_In. by apply bool_decide_eq_true, Hall. }
  rewrite forallb_forall in Hv, Ht.
  assert (∀ addr p, sw_proofs w !! addr = Some p → verify_proof r addr (proof_account p) (ap_proof p) = true) as Hv'.
  { intros addr p H. apply (Hv (addr, p)). by apply list_elem_of_In, elem_of_map_to_list. }
  assert (∀ addr, addr ∈ collect_touched_addresses block → is_Some (sw_proofs w !! addr)) as Ht'.
  { intros addr H%list_elem_of_In. specialize (Ht addr H). by apply bool_decide_eq_true in Ht. }
  destruct (apply_block (reconstructed w) block chain_id) as [ps| |]; cbn [mbind result_bind].
  2,3: split; [done|]; by intros (_ & _ & _ & ? & ? & ? & _).
  destruct (root_after_updates r (witness_updates w ps)) as [c| |] eqn:Ec; cbn [mbind result_bind].
  2,3: split; [done|]; intros (_ & _ & _ & ? & ? & [= <-] & E & _); congruence.
  assert (((b_index block =? 0) && bool_decide (b_state_root block = zero32) = true)
    ↔ b_index block = 0 ∧ b_state_root block = zero32) as Hz
    by (rewrite andb_true_iff, Z.eqb_eq, bool_decide_eq_true; done).
  split.
  - intros H. split_and!; [done..|]. exists ps, c. split_and!; [done..|].
    destruct (_ && _); [left; by apply Hz|]. case_decide; [by right|done].
  - intros (_ & _ & _ & ps2 & c2 & [= <-] & E & Hor). rewrite Ec in E. injection E as <-.
    destruct (_ && _); [done|]. destruct Hor as [Hor| ->]; [by apply Hz in Hor|]. by rewrite decide_True.
Qed.

Lemma touched_in_proofs block w :
  (∀ addr, addr ∈ collect_touched_addresses block → is_Some (sw_proofs w !! addr)) →
  Forall (names_in (dom (sw_proofs w))) (b_transactions block).
Proof.
  intros H. apply (touched_names (b_transactions block) [] (dom (sw_proofs w))).
  intros a Ha. apply elem_of_dom. by apply H.
Qed.

(** Addresses of the pre-state and of the witness. *)
Definition all_addresses (pre : State) (w : StateWitness) : list string :=
  (map_to_list (balances pre)).*1 ++ (map_to_list (sw_proofs w)).*1.

Lemma updates_addresses w ps : lu_address <$> witness_updates w ps = (map_to_list (sw_proofs w)).*1.
Proof.
  unfold witness_updates. rewrite <- list_fmap_compose. apply list_fmap_ext. by intros i [addr p] _.
Qed.

(** Replaying on the proven accounts and rewriting their leaves gives the root of the
    full post-state, whenever the witness shows the true accounts. *)
Lemma stateless_root pre w ps post computed :
  collision_free_on (as_bytes <$> all_addresses pre w) →
  frozen (dom (sw_proofs w)) pre post → agree (dom (sw_proofs w)) ps post →
  root_after_updates (compute_root (balances pre)) (witness_updates w ps) = Ok computed →
  (∀ u, u ∈ witness_updates w ps → honest_update (trie_of_list (map_to_list (balances pre))) u) →
  computed = compute_root (balances post).
Proof.
  intros Hcf Hfz Hag Hroot Hhon.
  assert (compute_root (balances pre) = root (trie_of_list (map_to_list (balances pre)))) as Epre.
  { apply compute_root_trie; [done|]. apply keys_NoDup; [apply NoDup_fst_map_to_list|].
    eapply collision_free_sub; [|exact Hcf]. unfold all_addresses. rewrite fmap_app. set_solver. }
  rewrite Epre, root_after_updates_honest in Hroot; [|apply trie_of_list_wf|done].
  injection Hroot as <-. apply post_root; rewrite ?updates_addresses.
  - apply NoDup_fst_map_to_list.
  - exact Hcf.
  - intros a Ha. apply Hfz. intros Hd. apply Ha. apply elem_of_dom in Hd as [p Hp].
    apply list_elem_of_fmap. exists (a, p). split; [done|]. by apply elem_of_map_to_list.
  - intros u Hu. unfold witness_updates in Hu. apply list_elem_of_fmap in Hu as ([a p] & -> & Hin%elem_of_map_to_list).
    cbn. apply (Hag a). apply elem_of_dom. by exists p.
Qed.

(** ** Soundness *)

(** The claimed accounts have the shape of accounts a state stores: machine-width
    fields, 32-byte siblings, and no all-zero contract record standing for absence. *)
Definition claims_ok (w : StateWitness) : Prop :=
  map_Forall (λ _ p, wf_account (proof_account p) ∧ Forall is32 (ap_proof p)
    ∧ (is_empty (proof_account p) = true → proof_account p = account_default)) (sw_proofs w).

(** No collision among the hash inputs of the claims and of the state. *)
Definition no_collisions (pre : State) (w : StateWitness) : Prop :=
  collision_free_on (as_bytes <$> all_addresses pre w) ∧
  map_Forall (λ addr p,
    let t := trie_of_list (map_to_list (balances pre)) in
    let key := account_key_hash addr in
    collision_free_on (proof_preimages t addr (proof_account p) (ap_proof p)) ∧
    collision_free_on [[]; account_leaf_preimage key (proof_account p);
      account_leaf_preimage key (entry_or_default pre addr)]) (sw_proofs w).

Lemma solid_entry_empty s a : solid s → is_empty (entry_or_default s a) = true → entry_or_default s a = account_default.
Proof.
  intros Hs. unfold entry_or_default. destruct (balances s !! a) as [x|] eqn:E; [|done]. cbn.
  specialize (Hs a x E). destruct x as [e|c]; cbn in Hs |- *; [congruence|].
  rewrite !andb_true_iff, bool_decide_eq_true. by intros [[_ ?] _].
Qed.

Lemma reconstructed_entry w a p : sw_proofs w !! a = Some p → entry_or_default (reconstructed w) a = proof_account p.
Proof. intros H. unfold entry_or_default, reconstructed. cbn. by rewrite lookup_fmap, H. Qed.

(** Verified claims are the true accounts, with the true siblings. *)
Lemma claims_true `{B3e : !Blake3Empty} pre w :
  solid pre → map_Forall (λ _ a, wf_account a) (balances pre) → claims_ok w → no_collisions pre w →
  (∀ addr p, sw_proofs w !! addr = Some p →
     verify_proof (compute_root (balances pre)) addr (proof_account p) (ap_proof p) = true) →
  agree (dom (sw_proofs w)) (reconstructed w) pre
  ∧ ∀ ps u, u ∈ witness_updates w ps → honest_update (trie_of_list (map_to_list (balances pre))) u.
Proof.
  intros Hs Hwf Hcl [Hkeys Hcol] Hv. set (t := trie_of_list (map_to_list (balances pre))).
  assert (compute_root (balances pre) = root t) as Epre.
  { apply compute_root_trie; [done|]. apply keys_NoDup; [apply NoDup_fst_map_to_list|].
    eapply collision_free_sub; [|exact Hkeys]. unfold all_addresses. rewrite fmap_app. set_solver. }
  rewrite Epre in Hv.
  assert (∀ a p, sw_proofs w !! a = Some p → let key := account_key_hash a in
    (leaf_hash_for key (proof_account p) = default EMPTY_HASH (leaves t !! key) ∧ ap_proof p = honest_proof t key)
    ∧ proof_account p = entry_or_default pre a) as Hall.
  { intros a p Hp key. destruct (Hcl a p Hp) as (Hwp & H32 & Hph). destruct (Hcol a p Hp) as [Hc1 Hc2].
    pose proof (verify_proof_binding t a (proof_account p) (ap_proof p) (trie_of_list_wf _) H32 Hc1 (Hv a p Hp)) as Hb.
    split; [exact Hb|]. destruct Hb as [E _].
    unfold t in E. rewrite trie_leaf in E.
    2: { eapply collision_free_sub; [|exact Hkeys]. unfold all_addresses. rewrite fmap_app, fmap_cons.
         intros x [->|Hx]%elem_of_cons; [|set_solver]. apply elem_of_app. right.
         apply list_elem_of_fmap_2, list_elem_of_fmap. exists (a, p). split; [done|]. by apply elem_of_map_to_list. }
    change (default account_default (balances pre !! a)) with (entry_or_default pre a) in E.
    assert (wf_account (entry_or_default pre a)) as Hwe.
    { unfold entry_or_default. destruct (balances pre !! a) as [x|] eqn:Ex; [by apply (Hwf a)|]. by_eval. }
    destruct (leaf_exact (account_key_hash a) (proof_account p) (entry_or_default pre a)) as [?|[E1 E2]];
      [apply blake3_length|done|done|done| |done|].
    - rewrite E. unfold leaf_hash_for. by destruct (is_empty (entry_or_default pre a)).
    - rewrite (Hph E1). symmetry. by apply solid_entry_empty. }
  split.
  - intros a [p Hp]%elem_of_dom. rewrite (reconstructed_entry w a p Hp). by destruct (Hall a p Hp).
  - intros ps u Hu. unfold witness_updates in Hu.
    apply list_elem_of_fmap in Hu as ([a p] & -> & Hin%elem_of_map_to_list). destruct (Hall a p Hin) as [[? ?] _]. by split.
Qed.

Lemma reconstructed_supply pre w :
  in_range pre → agree (dom (sw_proofs w)) (reconstructed w) pre →
  0 ≤ supply (reconstructed w) ≤ supply pre.
Proof.
  intros Hr Hag.
  assert (∀ a, a ∈ dom (balances (reconstructed w)) → bal (reconstructed w) a = bal pre a) as Hb.
  { intros a Ha. cbn in Ha. rewrite dom_fmap in Ha. by apply (agree_balance (dom (sw_proofs w))). }
  split; [|by apply supply_partial]. apply sumZ_nonneg, Forall_fmap, Forall_forall.
  intros [a x] Hx%elem_of_map_to_list. cbn.
  assert (bal (reconstructed w) a = balance x) as <- by (unfold get_balance; by rewrite Hx).
  rewrite Hb by (apply elem_of_dom; by exists x). apply (in_range_bal pre a Hr).
Qed.

(** C19: Soundness of stateless verification: a verifier that knows only the root of the
    pre-state, and accepts a block with some witness, accepts only what a full node
    accepts: the block applies to the full pre-state and its header commits to the
    root of the full post-state -- for blocks after the genesis, a supply small enough
    for the reward formula (six times the supply below 2^64) and witnesses whose claims
    are well-shaped accounts, unless some hash input collides. *)
Theorem stateless_sound `{B3e : !Blake3Empty} (pre : State) (block : Block) (chain_id : Z) (w : StateWitness) :
  wf pre → map_Forall (λ _ a, wf_account a) (balances pre) →
  supply pre * TAIL_RATE_NUMERATOR < two64 →
  claims_ok w → no_collisions pre w → b_index block ≠ 0 →
  verify_block_stateless (compute_root (balances pre)) block chain_id w = Ok tt →
  ∃ post, apply_block pre block chain_id = Ok post
    ∧ b_state_root block = compute_root (balances post).
Proof.
  intros (Hs & Hr & _) Hwf Hsup Hcl Hcol Hidx H%stateless_inv.
  destruct H as (_ & Hv & Ht & ps & computed & Ha & Hc & Hroot).
  destruct (claims_true pre w Hs Hwf Hcl Hcol Hv) as [Hag Hhon].
  destruct (local_apply_block (dom (sw_proofs w)) (reconstructed w) pre block chain_id ps) as (post & Hp & Hag' & Hfz);
    [done|by apply touched_in_proofs| |done|].
  { intros _ cb _ Hle. etransitivity; [exact Hle|]. apply reward_mono; [by apply reconstructed_supply|done]. }
  exists post. split; [done|]. destruct Hroot as [[? _]| ->]; [done|].
  eapply stateless_root; [by destruct Hcol|done..|by apply Hhon].
Qed.

(** ** Completeness *)

(** The trie of [build_witness] is the one of [compute_root]: the order of insertion
    does not matter. *)
Lemma build_trie_eq s :
  collision_free_on (as_bytes <$> (map_to_list (balances s)).*1) →
  build_trie s = trie_of_list (map_to_list (balances s)).
Proof.
  intros Hcf. unfold build_trie. fold (trie_of_list (merge_sort hash_le (map_to_list (balances s)))).
  set (l := merge_sort _ _). assert (l ≡ₚ map_to_list (balances s)) as Hl by apply merge_sort_Permutation.
  assert (NoDup ((λ p, account_key_hash p.1) <$> map_to_list (balances s))) as Hnd
    by (apply keys_NoDup; [apply NoDup_fst_map_to_list|done]).
  assert (leaves (trie_of_list l) = leaves (trie_of_list (map_to_list (balances s)))) as E.
  { rewrite !trie_of_list_leaves; [|done|by rewrite Hl]. apply list_to_map_proper.
    - rewrite <- list_fmap_compose. eapply sublist_NoDup; [|apply (fmap_sublist (fst ∘ leaf_pair)), sublist_filter].
      change (NoDup ((λ p, account_key_hash p.1) <$> l)). by rewrite Hl.
    - by rewrite Hl. }
  destruct (trie_of_list l), (trie_of_list (map_to_list (balances s))). cbn in E. by rewrite E.
Qed.

(** The entry [build_witness] writes for an address. *)
Definition honest_claim (s : State) (addr : string) : AccountProof :=
  let a := entry_or_default s addr in
  {| ap_balance := balance a; ap_nonce := nonce a; ap_code_hash := ct_code_hash <$> as_contract a;
     ap_storage_root := ct_storage_root <$> as_contract a; ap_key_hash := account_key_hash addr;
     ap_proof := honest_proof (trie_of_list (map_to_list (balances s))) (account_key_hash addr) |}.

Lemma honest_claim_account s addr : proof_account (honest_claim s addr) = entry_or_default s addr.
Proof. unfold proof_account, honest_claim. by destruct (entry_or_default s addr) as [[]|[]]. Qed.

Lemma prove_account_honest s addr :
  collision_free_on (as_bytes <$> addr :: (map_to_list (balances s)).*1) →
  prove_account s (build_trie s) addr = Ok (honest_claim s addr).
Proof.
  intros Hcf. unfold prove_account. rewrite build_trie_eq.
  2: { eapply collision_free_sub; [|exact Hcf]. cbn. set_solver. }
  fold (entry_or_default s addr). cbv zeta.
  rewrite (proj2 (prove_ok _ _ _ (honest_proof (trie_of_list (map_to_list (balances s))) (account_key_hash addr)))).
  - done.
  - split; [done|]. by apply trie_leaf.
Qed.

Definition honest_proofs (s : State) (addrs : list string) : gmap string AccountProof :=
  set_to_map (λ a, (a, honest_claim s a)) (list_to_set addrs : gset string).

Lemma honest_proofs_lookup s addrs a p :
  honest_proofs s addrs !! a = Some p ↔ a ∈ addrs ∧ p = honest_claim s a.
Proof.
  unfold honest_proofs. rewrite lookup_set_to_map by done. split.
  - intros (b & Hb & [= <- <-]). by rewrite elem_of_list_to_set in Hb.
  - intros [Ha ->]. exists a. by rewrite elem_of_list_to_set.
Qed.

Lemma build_witness_honest s block :
  collision_free_on (as_bytes <$> (map_to_list (balances s)).*1 ++ collect_touched_addresses block) →
  build_witness s block = Ok {| sw_pre_state_root := compute_root (balances s);
                                sw_proofs := honest_proofs s (collect_touched_addresses block) |}.
Proof.
  intros Hcf. unfold build_witness. cbv zeta. set (addrs := collect_touched_addresses block) in *.
  enough (foldM (λ proofs addr, p ← prove_account s (build_trie s) addr; Ok (<[addr := p]> proofs)) ∅ addrs
    = Ok (honest_proofs s addrs)) as -> by done.
  assert (∀ a, a ∈ addrs → prove_account s (build_trie s) a = Ok (honest_claim s a)) as Hp.
  { intros a Ha. apply prove_account_honest. eapply collision_free_sub; [|exact Hcf].
    rewrite fmap_cons, fmap_app. intros x [->|Hx]%elem_of_cons; apply elem_of_app; [right|by left].
    by apply list_elem_of_fmap_2. }
  clearbody addrs. clear Hcf. induction addrs as [|a l IH] using rev_ind; [done|].
  rewrite foldM_app, IH by (intros; apply Hp; set_solver). cbn [mbind result_bind foldM].
  rewrite Hp by set_solver. cbn. f_equal. apply map_eq. intros b. apply option_eq. intros q.
  rewrite honest_proofs_lookup, lookup_insert_Some, honest_proofs_lookup, elem_of_app, list_elem_of_singleton.
  destruct (decide (a = b)) as [->|]; [|intuition congruence]. split.
  - intros [[_ <-]|[? _]]; [|done]. split; [by right|done].
  - intros [_ ->]. by left.
Qed.

Lemma reward_floor s block chain_id :
  block_reward_at_height_for_chain (b_index block) 0 chain_id ≤ reward_of s block chain_id.
Proof.
  unfold reward_of, block_reward_at_height_for_chain. destruct (_ =? _); [done|].
  apply Z.max_le_compat_l. change (calculate_tail_reward 0) with 0. unfold calculate_tail_reward.
  apply Z.div_pos; [|done]. unfold mul64, wrap64. by apply Z.mod_pos_bound.
Qed.

(** What [build_witness] proves: the touched accounts, with the true leaves. *)
Lemma honest_witness pre block w :
  collision_free_on (as_bytes <$> (map_to_list (balances pre)).*1 ++ collect_touched_addresses block) →
  w = {| sw_pre_state_root := compute_root (balances pre);
         sw_proofs := honest_proofs pre (collect_touched_addresses block) |} →
  (∀ a, is_Some (sw_proofs w !! a) ↔ a ∈ collect_touched_addresses block) ∧
  agree (dom (sw_proofs w)) pre (reconstructed w) ∧
  (∀ ps u, u ∈ witness_updates w ps → honest_update (trie_of_list (map_to_list (balances pre))) u) ∧
  (∀ a p, sw_proofs w !! a = Some p →
     verify_proof (root (trie_of_list (map_to_list (balances pre)))) a (proof_account p) (ap_proof p) = true).
Proof.
  intros Hcf ->. cbn [sw_proofs].
  assert (∀ a p, honest_proofs pre (collect_touched_addresses block) !! a = Some p →
    leaf_hash_for (account_key_hash a) (proof_account p)
    = default EMPTY_HASH (leaves (trie_of_list (map_to_list (balances pre))) !! account_key_hash a)) as Hleaf.
  { intros a p [H ->]%honest_proofs_lookup. rewrite honest_claim_account, trie_leaf.
    - fold (entry_or_default pre a). unfold leaf_hash_for. by destruct (is_empty (entry_or_default pre a)).
    - eapply collision_free_sub; [|exact Hcf]. rewrite fmap_cons, fmap_app.
      intros x [->|Hx]%elem_of_cons; apply elem_of_app; [right|by left]. by apply list_elem_of_fmap_2. }
  split_and!.
  - intros a. split; [by intros [p [? _]%honest_proofs_lookup]|].
    intros H. exists (honest_claim pre a). by apply honest_proofs_lookup.
  - intros a [p Hp]%elem_of_dom. pose proof Hp as [_ E]%honest_proofs_lookup.
    by rewrite (reconstructed_entry {| sw_pre_state_root := _ |} a p Hp), E, honest_claim_account.
  - intros ps u ([a p] & -> & Hin%elem_of_map_to_list)%list_elem_of_fmap. split; [|by apply Hleaf].
    cbn [sw_proofs] in Hin. by apply honest_proofs_lookup in Hin as [_ ->].
  - intros a p Hp. pose proof Hp as [_ E]%honest_proofs_lookup. rewrite E at 2. cbn [ap_proof honest_claim].
    apply honest_verifies; [apply trie_of_list_wf|by apply Hleaf].
Qed.

(** C20: Completeness of stateless verification: for every block a full node applies and
    whose header commits to the resulting root, [build_witness] returns a witness
    that [verify_block_stateless] accepts -- provided no two account keys collide and
    the coinbase stays within the part of the reward that does not depend on the total
    supply (the verifier only sees the supply of the touched accounts). *)
Theorem stateless_complete (pre : State) (block : Block) (chain_id : Z) (post : State) :
  collision_free_on (as_bytes <$> (map_to_list (balances pre)).*1 ++ collect_touched_addresses block) →
  (∀ k cb, list_find (λ tx, is_coinbase tx = true) (b_transactions block) = Some (k, Transfer cb) →
     tr_amount cb ≤ block_reward_at_height_for_chain (b_index block) 0 chain_id) →
  apply_block pre block chain_id = Ok post →
  b_state_root block = compute_root (balances post) →
  ∃ w, build_witness pre block = Ok w
    ∧ verify_block_stateless (compute_root (balances pre)) block chain_id w = Ok tt.
Proof.
  intros Hcf Hcb Ha Hroot. rewrite build_witness_honest by done. eexists. split; [done|].
  set (w := {| sw_pre_state_root := _; sw_proofs := _ |}).
  destruct (honest_witness pre block w Hcf eq_refl) as (Ht & Hag & Hhon & Hver).
  assert (Forall (names_in (dom (sw_proofs w))) (b_transactions block)) as Hn
    by (apply touched_in_proofs; intros a H; by apply Ht).
  assert (compute_root (balances pre) = root (trie_of_list (map_to_list (balances pre)))) as Epre.
  { apply compute_root_trie; [done|]. apply keys_NoDup; [apply NoDup_fst_map_to_list|].
    eapply collision_free_sub; [|exact Hcf]. rewrite fmap_app. set_solver. }
  destruct (local_apply_block _ pre (reconstructed w) block chain_id post Hag Hn) as (ps & Hps & Hag' & _);
    [|done|].
  { intros k cb Hf _. etransitivity; [by eapply Hcb|]. apply reward_floor. }
  destruct (local_apply_block _ pre pre block chain_id post (λ _ _, eq_refl) Hn) as (post' & E & _ & Hfz);
    [done..|]. rewrite Ha in E. injection E as <-.
  pose proof (root_after_updates_honest _ (witness_updates w ps) (trie_of_list_wf (map_to_list (balances pre))) (Hhon ps)) as Hr.
  rewrite <- Epre in Hr.
  apply stateless_inv. split_and!; [done|by rewrite Epre|intros a H; by apply Ht|].
  exists ps. eexists. split_and!; [done|exact Hr|]. right. rewrite Hroot. symmetry.
  eapply (stateless_root pre w ps post); [|done| |exact Hr|by apply Hhon].
  - eapply collision_free_sub; [|exact Hcf]. unfold all_addresses. rewrite !fmap_app.
    intros x [Hx|Hx]%elem_of_app; apply elem_of_app; [by left|right].
    apply list_elem_of_fmap in Hx as (a & -> & ([a' p] & -> & Hin%elem_of_map_to_list)%list_elem_of_fmap).
    apply list_elem_of_fmap_2, Ht. by exists p.
  - intros a H. symmetry. by apply Hag'.
Qed.

End Stateless.

(** ** Concrete runs *)

#[local] Existing Instances toy_hex toy_blake3 toy_bech32.

Definition light_pre : State :=
  with_balances state_new (<["alice" := account_eoa 1000 3]> (<["bob" := account_eoa 50 0]> ∅)).

(** Block 7: the reward of a new miner and a transfer to it from alice; bob is not touched. *)
Definition light_block (root : list byte) : Block := {|
  b_index := 7; b_timestamp := 1700000000;
  b_transactions := [tx_coinbase "" "miner" 25 1; tx_transfer "alice" "miner" 300 3 1];
  b_previous_hash := ""; b_hash := ""; b_nonce := 0; b_target := ""; b_consensus_version := 1;
  b_state_root := root; b_tx_root := zero32; b_receipts_root := zero32 |}.

Definition light_post : State :=
  match apply_block light_pre (light_block zero32) 1 with Ok s => s | _ => light_pre end.
Definition light_root : list byte := Eval vm_compute in compute_root (balances light_post).
Definition light_witness : StateWitness :=
  match build_witness light_pre (light_block zero32) with
  | Ok w => w | _ => {| sw_pre_state_root := []; sw_proofs := ∅ |} end.

Lemma stateless_sound_witness :
  ∃ post, apply_block light_pre (light_block light_root) 1 = Ok post
    ∧ b_state_root (light_block light_root) = compute_root (balances post).
Proof.
  apply (@stateless_sound toy_blake3 toy_bech32 toy_blake3_ok toy_blake3_empty
    light_pre (light_block light_root) 1 light_witness).
  - by_eval.
  - by_eval.
  - vm_compute. reflexivity.
  - unfold claims_ok, is32. by_eval.
  - unfold no_collisions. by_eval.
  - discriminate.
  - vm_compute. reflexivity.
Defined.

Lemma stateless_complete_witness :
  ∃ w, build_witness light_pre (light_block light_root) = Ok w
    ∧ verify_block_stateless (compute_root (balances light_pre)) (light_block light_root) 1 w = Ok tt.
Proof.
  apply (@stateless_complete toy_blake3 toy_bech32 toy_blake3_ok
    light_pre (light_block light_root) 1 light_post).
  - by_eval.
  - intros k cb H. vm_compute in H. injection H as _ <-. vm_compute. discriminate.
  - vm_compute. reflexivity.
  - vm_compute. reflexivity.
Defined.

(** The same witness with the absent miner claimed as an all-zero contract, which hashes
    to the empty leaf too. *)
Definition phantom_witness : StateWitness := {|
  sw_pre_state_root := sw_pre_state_root light_witness;
  sw_proofs := alter (λ p, {| ap_balance := 0; ap_nonce := 0; ap_code_hash := Some zero32;
    ap_storage_root := Some zero32; ap_key_hash := ap_key_hash p; ap_proof := ap_proof p |})
    "miner" (sw_proofs light_witness) |}.

Definition phantom_root : list byte := Eval vm_compute in
  match apply_block (reconstructed phantom_witness) (light_block zero32) 1 with
  | Ok s => match root_after_updates (compute_root (balances light_pre)) (witness_updates phantom_witness s) with
            | Ok r => r | _ => [] end
  | _ => [] end.

(** The verifier accepts the phantom's root, which is not the root a full node computes:
    the hypothesis of [stateless_sound] on the claimed records is needed. *)
Example phantom_contract_accepted :
  verify_block_stateless (compute_root (balances light_pre)) (light_block phantom_root) 1 phantom_witness = Ok tt
  ∧ phantom_root ≠ compute_root (balances light_post).
Proof. split; [vm_compute; reflexivity|vm_compute; discriminate]. Qed.
