(* ===== verification/Node.v ===== *)
(** * Node errors (src/error.rs)

    The node's error enumeration and the conversion of core errors into it.  The
    texts of the third-party errors (hex, secp256k1, bech32, I/O) are not
    modelled: the constructors that wrap them carry no payload. *)

From S2P Require Import Prelude Bytes Abi Types Address.
Open Scope Z_scope.

Module Node.

Inductive StrangecoinError :=
  | InvalidSignature
  | InvalidNonce (expected got : Z)
  | InvalidChainId (expected got : Z)
  | InvalidDifficulty
  | SizeLimitExceeded (what : string)
  | IoError
  | SerializationError
  | LeveldbError
  | TimestampTooOld
  | TimestampInFuture
  | GenesisMismatch (expected got : list byte)
  | PeerBanned
  | HexError
  | Secp256k1Error
  | InvalidCoinbaseAmount (expected got : Z)
  | MempoolFull (max : Z)
  | DuplicateTx
  | InsufficientBalance (available required : Z)
  | ConfigError (msg : string)
  | GrantBlocksDisabled
  | InvalidBlock (msg : string)
  | InvalidHelloMessage
  | ForeignNetworkId (peer : string) (expected got : Z)
  | GenesisNetworkMismatch (network_id chain_id : Z)
  | RbfFeerateTooLow (needed got : Z)
  | RbfReplacementLimit (max : Z)
  | BlockGasLimitExceeded (total limit : Z).

#[export] Instance StrangecoinError_eq_dec : EqDecision StrangecoinError.
Proof. solve_decision. Defined.

(** [format!("{:?}", bytes)] of a byte array, and [{:x?}]. *)
Definition join_comma (xs : list string) : string :=
  match xs with [] => "" | x :: xs => foldl (λ acc y, acc +:+ ", " +:+ y) x xs end.

Definition debug_bytes (bs : list byte) : string :=
  "[" +:+ join_comma ((λ b, pretty (byte_val b)) <$> bs) +:+ "]".

Definition hex_digit (n : Z) : string :=
  String.string_of_list_byte [if n <? 10 then byte_of (48 + n) else byte_of (87 + n)].

Definition hex_short (b : byte) : string :=
  let v := byte_val b in
  if v <? 16 then hex_digit v else hex_digit (v / 16) +:+ hex_digit (v mod 16).

Definition debug_hex_bytes (bs : list byte) : string :=
  "[" +:+ join_comma (hex_short <$> bs) +:+ "]".

Definition vm_error_text (e : VmError) : string :=
  match e with
  | OutOfGas => "out of gas"
  | OutOfMemory => "out of memory"
  | Reverted => "execution reverted"
  | HostFunctionError name reason => "host function `" +:+ name +:+ "` failed: " +:+ reason
  | ReentrancyDetected => "reentrancy detected"
  | MaxCallDepth => "max call depth exceeded"
  | MaxCodeSize => "contract code exceeds max code size"
  | MaxStoragePerContract => "contract storage exceeds max size per contract"
  | GasMeteringBug => "gas metering inconsistency detected"
  | NotImplemented feature => "feature `" +:+ feature +:+ "` is not implemented yet"
  end.

(** [impl From<CoreError> for StrangecoinError]. *)
Definition from_core (e : CoreError) : StrangecoinError :=
  match e with
  | Types.InvalidSignature => InvalidSignature
  | Types.InvalidNonce expected got => InvalidNonce expected got
  | Types.InvalidChainId expected got => InvalidChainId expected got
  | Types.InvalidDifficulty => InvalidDifficulty
  | Types.TimestampTooOld => TimestampTooOld
  | Types.TimestampInFuture => TimestampInFuture
  | Types.GenesisMismatch expected got => GenesisMismatch expected got
  | CHexError => HexError
  | CSecp256k1Error => Secp256k1Error
  | Types.InvalidCoinbaseAmount expected got => InvalidCoinbaseAmount expected got
  | Types.InsufficientBalance _ available required => InsufficientBalance available required
  | StateOverflow => ConfigError "arithmetic overflow in state transition"
  | StateRootMismatch expected got =>
      ConfigError ("state root mismatch: expected " +:+ debug_bytes expected +:+ ", got "
                   +:+ debug_bytes got)
  | PostStateRootMismatch expected got =>
      ConfigError ("post-state root mismatch: block commits to " +:+ debug_bytes expected
                   +:+ ", recomputed " +:+ debug_bytes got)
  | TxRootMismatch expected got =>
      ConfigError ("tx root mismatch: expected " +:+ debug_bytes expected +:+ ", got "
                   +:+ debug_bytes got)
  | WitnessVerificationFailed => ConfigError "witness verification failed"
  | ProofAccountMismatch =>
      ConfigError "proof account mismatch: claimed account not found in trie state"
  | InvalidAddressChecksum => ConfigError "invalid address checksum"
  | InvalidAddressFormat reason => ConfigError ("invalid address format: " +:+ reason)
  | UnknownAddressHrp hrp => ConfigError ("unknown address HRP: " +:+ hrp)
  | UnknownNetworkId network_id => ConfigError ("unknown network ID: " +:+ pretty network_id)
  | Bech32EncodeError => ConfigError "bech32 encode error: "
  | HeaderHashMismatch expected got =>
      InvalidBlock ("header hash mismatch: expected " +:+ expected +:+ ", got " +:+ got)
  | UnsupportedTxType reason => InvalidBlock ("unsupported tx type: " +:+ reason)
  | InvalidContractDeploy reason => InvalidBlock ("invalid contract deploy: " +:+ reason)
  | InvalidGasLimit reason => InvalidBlock ("invalid gas limit: " +:+ reason)
  | VmExecution err => InvalidBlock ("vm execution failed: " +:+ vm_error_text err)
  end.

(** The [?] operator on a core result. *)
Definition lift {A} (r : result CoreError A) : result StrangecoinError A := map_err from_core r.

Lemma lift_ok {A} (r : result CoreError A) a : lift r = Ok a ↔ r = Ok a.
Proof. destruct r; cbn; split; congruence. Qed.

End Node.
