(* ===== verification/Mempool.v ===== *)
(** * Mempool (src/mempool/mod.rs)

    Pending transactions by id and by sender and nonce, replace-by-fee with the
    size-based feerate proxy, and the bound on replacement chains.  The nonce maps
    are [BTreeMap]s: [btree_entries] lists them in key order where the order shows.
    Every failure of [insert] returns before its first mutation, so the updated
    pool comes with the success value. *)

From S2P Require Import Prelude Bytes U256 Abi Types Address Serialize Consensus Node.
From stdpp Require Import sorting.
Open Scope Z_scope.

Definition MAX_PENDING_TXS : Z := 10000.

Abbreviation TxId := (list byte).

Inductive InsertOutcome :=
  | Accepted
  | Replaced (ids : list TxId).

Record Mempool := {
  mp_chain_id : Z;
  mp_txs : gmap TxId Transaction;
  mp_by_sender : gmap string (gmap Z TxId);
  mp_generations : gmap TxId Z
}.

(** Iteration over a [BTreeMap<u64, TxId>]: increasing nonces. *)
Definition key_le (p q : Z * TxId) : Prop := p.1 ≤ q.1.
#[export] Instance key_le_dec : RelDecision key_le.
Proof. intros p q. unfold key_le. apply _. Defined.

Definition btree_entries (m : gmap Z TxId) : list (Z * TxId) := merge_sort key_le (map_to_list m).

Definition mempool_new (chain_id : Z) : Mempool :=
  {| mp_chain_id := chain_id; mp_txs := ∅; mp_by_sender := ∅; mp_generations := ∅ |}.

(** ** Feerates *)

Definition signed_len (tx : Transaction) : Z :=
  Z.of_nat (length (serialize_transaction_signed tx)).

Definition feerate_micro (tx : Transaction) : Z := 1000000 / Z.max (signed_len tx) 1.

Definition required_feerate_micro (old : Transaction) : Z :=
  1000000 * (RBF_BPS_DENOMINATOR + RBF_MIN_DELTA_BPS)
    / mul64 RBF_BPS_DENOMINATOR (Z.max (signed_len old) 1).

Definition feerate_bump_ok (old new : Transaction) : bool :=
  mul64 (signed_len new) (RBF_BPS_DENOMINATOR + RBF_MIN_DELTA_BPS)
    <=? mul64 (signed_len old) RBF_BPS_DENOMINATOR.

Section Mempool.
Context `{HX : Hex, B3 : Blake3, B32 : Bech32, SK : Secp256k1}.

(** ** Operations *)

(** The conflicting transaction (same sender and nonce), then the sender's later
    ones; [tx.nonce() + 1] wraps. *)
Definition find_replaceable (p : Mempool) (tx : Transaction) : list TxId :=
  match mp_by_sender p !! sender tx with
  | Some map =>
      match map !! tx_nonce tx with
      | Some conflict =>
          conflict :: (filter (λ e : Z * TxId, add64 (tx_nonce tx) 1 ≤ e.1) (btree_entries map)).*2
      | None => []
      end
  | None => []
  end.

(** The sender's pending ids that are not [excluded]. *)
Definition pending_ids (p : Mempool) (who : string) (excluded : list TxId) : list TxId :=
  match mp_by_sender p !! who with
  | Some m => filter (λ id, id ∉ excluded) (btree_entries m).*2
  | None => []
  end.

Definition tx_cost (tx : Transaction) : Z := add64 (value tx) (fee tx).

Definition validate_against_pool (p : Mempool) (tx : Transaction) (account : Account)
    (excluded : list TxId) : result Node.StrangecoinError unit :=
  let ids := pending_ids p (sender tx) excluded in
  let pending_count := Z.of_nat (length ids) in
  _ ← Node.lift (validate_nonce (tx_nonce tx) (saturating_add64 (nonce account) pending_count));
  let pending_spent := sum64 (tx_cost <$> omap (λ id, mp_txs p !! id) ids) in
  let available := saturating_sub64 (balance account) pending_spent in
  let required := tx_cost tx in
  if available <? required then Err (Node.InsufficientBalance available required) else Ok tt.

Definition store (p : Mempool) (tx_id : TxId) (tx : Transaction) (generation : Z) : Mempool :=
  {| mp_chain_id := mp_chain_id p;
     mp_txs := <[tx_id := tx]> (mp_txs p);
     mp_by_sender := <[sender tx := <[tx_nonce tx := tx_id]> (default ∅ (mp_by_sender p !! sender tx))]>
                       (mp_by_sender p);
     mp_generations := <[tx_id := generation]> (mp_generations p) |}.

Definition mempool_remove (p : Mempool) (tx_id : TxId) : Mempool :=
  {| mp_chain_id := mp_chain_id p;
     mp_txs := delete tx_id (mp_txs p);
     mp_by_sender :=
       match mp_txs p !! tx_id with
       | Some tx =>
           match mp_by_sender p !! sender tx with
           | Some m =>
               let m' := delete (tx_nonce tx) m in
               if decide (m' = ∅) then delete (sender tx) (mp_by_sender p)
               else <[sender tx := m']> (mp_by_sender p)
           | None => mp_by_sender p
           end
       | None => mp_by_sender p
       end;
     mp_generations := delete tx_id (mp_generations p) |}.

Definition mempool_insert (p : Mempool) (tx : Transaction) (account : Account)
    : result Node.StrangecoinError (InsertOutcome * Mempool) :=
  let tx_id := txid tx in
  if decide (is_Some (mp_txs p !! tx_id)) then Err Node.DuplicateTx else
  _ ← Node.lift (verify_transaction tx);
  if negb (tx_chain_id tx =? mp_chain_id p)
  then Err (Node.InvalidChainId (mp_chain_id p) (tx_chain_id tx)) else
  let replaceable := find_replaceable p tx in
  match replaceable with
  | [] =>
      if MAX_PENDING_TXS <=? Z.of_nat (size (mp_txs p))
      then Err (Node.MempoolFull MAX_PENDING_TXS) else
      _ ← validate_against_pool p tx account [];
      Ok (Accepted, store p tx_id tx 0)
  | conflict_id :: _ =>
      conflict_tx ← expect (mp_txs p !! conflict_id);
      if negb (feerate_bump_ok conflict_tx tx)
      then Err (Node.RbfFeerateTooLow (required_feerate_micro conflict_tx) (feerate_micro tx)) else
      let generation := (default 0 (mp_generations p !! conflict_id) + 1) mod two32 in
      if MAX_RBF_REPLACEMENTS <? generation
      then Err (Node.RbfReplacementLimit MAX_RBF_REPLACEMENTS) else
      _ ← validate_against_pool p tx account replaceable;
      Ok (Replaced replaceable, store (foldl mempool_remove p replaceable) tx_id tx generation)
  end.

Definition generation (p : Mempool) (tx_id : TxId) : option Z := mp_generations p !! tx_id.

(** [HashMap::values] in some order; the order is not observable to the rules. *)
Definition transactions (p : Mempool) : list Transaction := (map_to_list (mp_txs p)).*2.

Definition get_pending (p : Mempool) (max_count : nat) : list Transaction :=
  take max_count (transactions p).

Definition mempool_len (p : Mempool) : Z := Z.of_nat (size (mp_txs p)).
Definition mempool_is_empty (p : Mempool) : bool := bool_decide (mp_txs p = ∅).
Definition mempool_contains (p : Mempool) (tx_id : TxId) : bool := bool_decide (is_Some (mp_txs p !! tx_id)).
Definition mempool_get (p : Mempool) (tx_id : TxId) : option Transaction := mp_txs p !! tx_id.

End Mempool.
