(* ===== verification/MempoolProps.v ===== *)
(** * Properties of the mempool

    The two indexes agree, the size and replacement bounds hold and no insertion
    panics in any reachable pool; a replacement evicts exactly the conflict and the
    later transactions of its sender; and per sender the pool is a gap-free run of
    nonces the sender can pay for. *)

From S2P Require Import Prelude Bytes U256 Abi Types Address Concrete Serialize Consensus ConsensusProps Node Mempool.
From stdpp Require Import sorting.
Open Scope Z_scope.

(** The id pending for a sender at a nonce. *)
Definition pending_slot (p : Mempool) (s : string) (n : Z) : option TxId :=
  mp_by_sender p !! s ≫= λ m, m !! n.

Section MempoolProps.
Context `{HX : Hex, B3 : Blake3, B32 : Bech32, SK : Secp256k1}.

(** ** Invariant *)

Record pool_ok (p : Mempool) : Prop := {
  pool_txs : ∀ id tx, mp_txs p !! id = Some tx →
    txid tx = id ∧ tx_chain_id tx = mp_chain_id p ∧ verify_transaction tx = Ok tt ∧
    pending_slot p (sender tx) (tx_nonce tx) = Some id;
  pool_slots : ∀ s n id, pending_slot p s n = Some id →
    ∃ tx, mp_txs p !! id = Some tx ∧ sender tx = s ∧ tx_nonce tx = n;
  pool_nonempty : ∀ s m, mp_by_sender p !! s = Some m → m ≠ ∅;
  pool_gens : dom (mp_generations p) = dom (mp_txs p);
  pool_gen_bound : ∀ id g, mp_generations p !! id = Some g → 0 ≤ g ≤ MAX_RBF_REPLACEMENTS;
  pool_size : Z.of_nat (size (mp_txs p)) ≤ MAX_PENDING_TXS
}.

Lemma pool_new_ok chain_id : pool_ok (mempool_new chain_id).
Proof. by split. Qed.

(** ** Removal *)

Lemma slot_remove p id tx s n :
  mp_txs p !! id = Some tx →
  pending_slot (mempool_remove p id) s n =
  if decide (s = sender tx ∧ n = tx_nonce tx) then None else pending_slot p s n.
Proof.
  intros Htx. unfold pending_slot, mempool_remove. cbn. rewrite Htx.
  destruct (mp_by_sender p !! sender tx) as [m|] eqn:Em.
  2: { case_decide as E; [|done]. destruct E as [-> ->]. by rewrite Em. }
  case_decide as Hempty; destruct (decide (s = sender tx)) as [->|Hs].
  - rewrite lookup_delete_eq, Em. cbn. case_decide as E; [done|].
    assert (n ≠ tx_nonce tx) as Hn by naive_solver.
    apply (f_equal (.!! n)) in Hempty. rewrite lookup_delete_ne in Hempty by done. by rewrite Hempty.
  - rewrite lookup_delete_ne by done. rewrite decide_False by naive_solver. done.
  - rewrite lookup_insert_eq, Em. cbn. destruct (decide (n = tx_nonce tx)) as [->|].
    + rewrite lookup_delete_eq. by rewrite decide_True.
    + rewrite lookup_delete_ne by done. by rewrite decide_False by naive_solver.
  - rewrite lookup_insert_ne by done. by rewrite decide_False by naive_solver.
Qed.

Lemma remove_absent p id : pool_ok p → mp_txs p !! id = None → mempool_remove p id = p.
Proof.
  intros Hp Hid. unfold mempool_remove. rewrite Hid, delete_id by done.
  assert (mp_generations p !! id = None) as Hg.
  { apply not_elem_of_dom. rewrite (pool_gens p Hp). by apply not_elem_of_dom. }
  rewrite delete_id by done. by destruct p.
Qed.

Lemma remove_ok p id : pool_ok p → pool_ok (mempool_remove p id).
Proof.
  intros Hp. destruct (mp_txs p !! id) as [tx|] eqn:Hid; [|by rewrite remove_absent].
  pose proof (slot_remove p id tx) as Hslot.
  split.
  - intros i t Ht. cbn in Ht. apply lookup_delete_Some in Ht as [Hne Ht].
    destruct (pool_txs p Hp i t Ht) as (? & ? & ? & Hsl). split_and!; [done..|].
    rewrite Hslot by done. rewrite decide_False; [done|]. intros [E1 E2].
    destruct (pool_txs p Hp id tx Hid) as (_ & _ & _ & Hsl'). rewrite E1, E2 in Hsl. congruence.
  - intros s n i Hi. rewrite Hslot in Hi by done. case_decide as E; [done|].
    destruct (pool_slots p Hp s n i Hi) as (t & Ht & <- & <-). exists t. split_and!; [|done..].
    cbn. rewrite lookup_delete_ne; [done|]. intros ->. apply E. by simplify_eq.
  - intros s m. cbn. rewrite Hid. destruct (mp_by_sender p !! sender tx) as [m'|] eqn:Em; [|by apply pool_nonempty].
    case_decide.
    + intros [_ ?%(pool_nonempty p Hp)]%lookup_delete_Some. done.
    + intros [[<- <-]|[_ H']]%lookup_insert_Some; [done|]. by apply (pool_nonempty p Hp) in H'.
  - cbn. rewrite !dom_delete_L. by rewrite (pool_gens p Hp).
  - intros i g Hg. cbn in Hg. apply lookup_delete_Some in Hg as [_ Hg]. by apply (pool_gen_bound p Hp) in Hg.
  - cbn. pose proof (pool_size p Hp). rewrite map_size_delete, Hid. lia.
Qed.

(** Removing a list of ids: what is left. *)
Lemma removes_ok ids p : pool_ok p → pool_ok (foldl mempool_remove p ids).
Proof. revert p. induction ids as [|i ids IH]; intros p Hp; cbn; [done|]. by apply IH, remove_ok. Qed.

Lemma removes_txs ids p i :
  mp_txs (foldl mempool_remove p ids) !! i = if decide (i ∈ ids) then None else mp_txs p !! i.
Proof.
  revert p. induction ids as [|j ids IH]; intros p; cbn [foldl].
  { by rewrite decide_False by apply not_elem_of_nil. }
  rewrite IH. cbn. destruct (decide (i = j)) as [->|Hne].
  - rewrite lookup_delete_eq. rewrite (decide_True (P := j ∈ j :: ids)) by by left. by case_decide.
  - rewrite lookup_delete_ne by done. by apply decide_ext; rewrite elem_of_cons; naive_solver.
Qed.

Lemma removes_chain ids p : mp_chain_id (foldl mempool_remove p ids) = mp_chain_id p.
Proof. revert p. induction ids as [|j ids IH]; intros p; cbn; [done|]. by rewrite IH. Qed.

Lemma removes_slots ids p s n :
  pool_ok p →
  pending_slot (foldl mempool_remove p ids) s n =
  match pending_slot p s n with Some id => if decide (id ∈ ids) then None else Some id | None => None end.
Proof.
  revert p. induction ids as [|j ids IH]; intros p Hp; cbn [foldl].
  { destruct (pending_slot p s n); [|done]. by rewrite decide_False by apply not_elem_of_nil. }
  rewrite IH by by apply remove_ok.
  destruct (mp_txs p !! j) as [tx|] eqn:Hj.
  - rewrite (slot_remove p j tx) by done. destruct (pool_txs p Hp j tx Hj) as (_ & _ & _ & Hsl).
    case_decide as E.
    + destruct E as [-> ->]. rewrite Hsl. by rewrite decide_True by by left.
    + destruct (pending_slot p s n) as [id|] eqn:Es; [|done].
      assert (id ≠ j) as Hne.
      { intros ->. destruct (pool_slots p Hp s n j Es) as (t & Ht & <- & <-). apply E. by simplify_eq. }
      by apply decide_ext; rewrite elem_of_cons; naive_solver.
  - rewrite remove_absent by done. destruct (pending_slot p s n) as [id|] eqn:Es; [|done].
    destruct (pool_slots p Hp s n id Es) as (t & Ht & _).
    assert (id ≠ j) by congruence. by apply decide_ext; rewrite elem_of_cons; naive_solver.
Qed.

(** ** Storing *)

Lemma slot_store p id tx g s n :
  pending_slot (store p id tx g) s n =
  if decide (s = sender tx ∧ n = tx_nonce tx) then Some id else pending_slot p s n.
Proof.
  unfold pending_slot, store. cbn. destruct (decide (s = sender tx)) as [->|Hs].
  - rewrite lookup_insert_eq. cbn. destruct (decide (n = tx_nonce tx)) as [->|].
    + rewrite lookup_insert_eq. by rewrite decide_True.
    + rewrite lookup_insert_ne by done. rewrite decide_False by naive_solver.
      destruct (mp_by_sender p !! sender tx); [done|apply lookup_empty].
  - rewrite lookup_insert_ne by done. by rewrite decide_False by naive_solver.
Qed.

Lemma store_ok p tx g :
  pool_ok p → pending_slot p (sender tx) (tx_nonce tx) = None → mp_txs p !! txid tx = None →
  verify_transaction tx = Ok tt → tx_chain_id tx = mp_chain_id p →
  0 ≤ g ≤ MAX_RBF_REPLACEMENTS → Z.of_nat (size (mp_txs p)) < MAX_PENDING_TXS →
  pool_ok (store p (txid tx) tx g).
Proof.
  intros Hp Hslot Hnew Hver Hchain Hg Hsize. split.
  - intros i t Ht. cbn in Ht. rewrite slot_store.
    apply lookup_insert_Some in Ht as [[<- <-]|[Hne Ht]]; [by rewrite decide_True|].
    destruct (pool_txs p Hp i t Ht) as (? & ? & ? & Hsl). split_and!; [done..|].
    rewrite decide_False; [done|]. intros [E1 E2]. rewrite E1, E2 in Hsl. congruence.
  - intros s n i Hi. rewrite slot_store in Hi. case_decide as E.
    + injection Hi as <-. destruct E as [-> ->]. exists tx. cbn. by rewrite lookup_insert_eq.
    + destruct (pool_slots p Hp s n i Hi) as (t & Ht & <- & <-). exists t. cbn.
      rewrite lookup_insert_ne; [done|]. congruence.
  - intros s m. cbn. intros [[<- <-]|[_ H]]%lookup_insert_Some; [apply insert_non_empty|].
    by apply (pool_nonempty p Hp) in H.
  - cbn. rewrite !dom_insert_L. by rewrite (pool_gens p Hp).
  - intros i g' H. cbn in H. apply lookup_insert_Some in H as [[_ <-]|[_ H]]; [done|].
    by apply (pool_gen_bound p Hp) in H.
  - cbn. rewrite map_size_insert_None by done. lia.
Qed.

(** ** Insertion *)

Lemma elem_of_btree m e : e ∈ btree_entries m ↔ m !! e.1 = Some e.2.
Proof.
  unfold btree_entries. rewrite merge_sort_Permutation. destruct e. apply elem_of_map_to_list.
Qed.

Lemma replaceable_nil p tx :
  find_replaceable p tx = [] → pending_slot p (sender tx) (tx_nonce tx) = None.
Proof.
  unfold find_replaceable, pending_slot. destruct (mp_by_sender p !! sender tx) as [m|]; [|done].
  cbn. by destruct (m !! tx_nonce tx).
Qed.

Lemma replaceable_cons p tx c ids :
  find_replaceable p tx = c :: ids →
  pending_slot p (sender tx) (tx_nonce tx) = Some c ∧
  ∀ id, id ∈ ids ↔ ∃ n, add64 (tx_nonce tx) 1 ≤ n ∧ pending_slot p (sender tx) n = Some id.
Proof.
  unfold find_replaceable, pending_slot. destruct (mp_by_sender p !! sender tx) as [m|]; [|done].
  cbn. destruct (m !! tx_nonce tx) as [c'|]; [|done]. intros [= <- <-]. split; [done|].
  intros id. rewrite list_elem_of_fmap. split.
  - intros ([n i] & -> & [Hle Hin]%list_elem_of_filter). exists n. split; [done|]. by apply elem_of_btree in Hin.
  - intros (n & Hle & Hn). exists (n, id). split; [done|]. apply list_elem_of_filter. split; [done|].
    by apply elem_of_btree.
Qed.

(** Everything a successful insertion went through. *)
Lemma insert_inv p tx acc out p' :
  mempool_insert p tx acc = Ok (out, p') →
  mp_txs p !! txid tx = None ∧ verify_transaction tx = Ok tt ∧ tx_chain_id tx = mp_chain_id p ∧
  validate_against_pool p tx acc (find_replaceable p tx) = Ok tt ∧
  match find_replaceable p tx with
  | [] => out = Accepted ∧ Z.of_nat (size (mp_txs p)) < MAX_PENDING_TXS ∧ p' = store p (txid tx) tx 0
  | c :: ids => out = Replaced (c :: ids) ∧
      ∃ g, 0 ≤ g ≤ MAX_RBF_REPLACEMENTS ∧ p' = store (foldl mempool_remove p (c :: ids)) (txid tx) tx g
  end.
Proof.
  unfold mempool_insert. case_decide as Hdup; [done|]. intros H.
  apply bind_ok_inv in H as ([] & Hv%Node.lift_ok & H).
  destruct (Z.eqb_spec (tx_chain_id tx) (mp_chain_id p)) as [Hc|]; [|done]. cbn [negb] in H.
  split_and!; [by apply eq_None_not_Some|done|done|..].
  - destruct (find_replaceable p tx) as [|c ids].
    + case_match; [done|]. by apply bind_ok_inv in H as ([] & ? & _).
    + apply bind_ok_inv in H as (ctx & _ & H). case_match; [done|]. case_match; [done|].
      by apply bind_ok_inv in H as ([] & ? & _).
  - destruct (find_replaceable p tx) as [|c ids].
    + destruct (Z.leb_spec MAX_PENDING_TXS (Z.of_nat (size (mp_txs p)))); [done|].
      apply bind_ok_inv in H as ([] & _ & H). by injection H as <- <-.
    + apply bind_ok_inv in H as (ctx & _ & H). case_match; [done|].
      set (g := (default 0 (mp_generations p !! c) + 1) mod two32) in H.
      destruct (Z.ltb_spec MAX_RBF_REPLACEMENTS g); [done|].
      apply bind_ok_inv in H as ([] & _ & H). injection H as <- <-. split; [done|]. exists g.
      split; [|done]. split; [|done]. by apply Z.mod_pos_bound.
Qed.

Lemma insert_ok p tx acc out p' :
  pool_ok p → mempool_insert p tx acc = Ok (out, p') → pool_ok p'.
Proof.
  intros Hp H. apply insert_inv in H as (Hnew & Hver & Hchain & _ & H).
  destruct (find_replaceable p tx) as [|c ids] eqn:Er.
  - destruct H as (_ & Hsz & ->). apply store_ok; try done; [by apply replaceable_nil|lia..].
  - destruct H as (_ & g & Hg & ->). apply replaceable_cons in Er as [Hslot _].
    pose proof (removes_ok (c :: ids) p Hp) as Hq. set (q := foldl mempool_remove p (c :: ids)) in *.
    apply store_ok; try done.
    + unfold q. rewrite removes_slots, Hslot by done. by rewrite decide_True by by left.
    + unfold q. rewrite removes_txs. by case_decide.
    + unfold q. by rewrite removes_chain.
    + destruct (pool_slots p Hp _ _ _ Hslot) as (t & Ht & _).
      assert (mp_txs q ⊆ delete c (mp_txs p)) as Hsub.
      { apply map_subseteq_spec. intros i x. unfold q. rewrite removes_txs. case_decide as Hi; [done|].
        intros Hx. rewrite lookup_delete_ne; [done|]. intros ->. apply Hi. by left. }
      apply map_subseteq_size in Hsub. rewrite map_size_delete, Ht in Hsub.
      pose proof (pool_size p Hp). assert (size (mp_txs p) ≠ 0%nat); [|lia].
      intros E. apply map_size_empty_inv in E. by rewrite E, lookup_empty in Ht.
Qed.

Lemma verify_transaction_no_panic tx : verify_transaction tx ≠ Panic.
Proof.
  unfold verify_transaction. destruct (is_coinbase tx); [done|].
  destruct (verify_limits tx) eqn:El; cbn [mbind result_bind]; [|done|].
  2: { destruct tx; cbn in El; repeat case_match; done. }
  destruct (recover_pubkey_from_sig (signature tx) (serialize_transaction tx)) eqn:Er;
    cbn [mbind result_bind]; [|done|].
  2: { unfold recover_pubkey_from_sig in Er.
       destruct (Nat.eqb_spec (length (signature tx)) 65) as [Hl|]; [|done]. cbn in Er.
       destruct (lookup_lt_is_Some_2 (signature tx) 64) as [b Hb]; [lia|].
       rewrite Hb in Er. cbn in Er. by destruct (recover_ecdsa _ _ _). }
  pose proof (decode_address_no_panic (sender tx)).
  destruct (decode_address (sender tx)) as [[]| |]; cbn [mbind result_bind]; [by case_decide|done|done].
Qed.

Lemma validate_against_pool_no_panic p tx acc ex : validate_against_pool p tx acc ex ≠ Panic.
Proof.
  unfold validate_against_pool, validate_nonce. destruct (checked_add64 _ _); cbn; [|done].
  destruct (tx_nonce tx =? _); cbn; [|done]. by destruct (_ <? _).
Qed.

Lemma insert_no_panic p tx acc : pool_ok p → mempool_insert p tx acc ≠ Panic.
Proof.
  intros Hp. unfold mempool_insert. case_decide; [done|].
  pose proof (verify_transaction_no_panic tx).
  destruct (verify_transaction tx); cbn [Node.lift map_err mbind result_bind]; [|done|done].
  case_match; [done|]. destruct (find_replaceable p tx) as [|c ids] eqn:Er.
  - case_match; [done|]. pose proof (validate_against_pool_no_panic p tx acc []).
    by destruct (validate_against_pool p tx acc []).
  - apply replaceable_cons in Er as [Hslot _]. destruct (pool_slots p Hp _ _ _ Hslot) as (t & Ht & _).
    rewrite Ht. cbn [expect mbind result_bind]. case_match; [done|]. case_match; [done|].
    pose proof (validate_against_pool_no_panic p tx acc (c :: ids)).
    by destruct (validate_against_pool p tx acc (c :: ids)).
Qed.

(** Pools the node can be in: it inserts and removes. *)
Inductive mempool_reachable (chain_id : Z) : Mempool → Prop :=
  | reach_new : mempool_reachable chain_id (mempool_new chain_id)
  | reach_insert p tx acc out p' :
      mempool_reachable chain_id p → mempool_insert p tx acc = Ok (out, p') →
      mempool_reachable chain_id p'
  | reach_remove p id :
      mempool_reachable chain_id p → mempool_reachable chain_id (mempool_remove p id).

(** C40: In every pool reachable by insertions and removals the index by id and the
    index by sender and nonce describe the same transactions, every one is
    verified and of the pool's network, the pool and every replacement chain stay
    within their limits, and a further insertion cannot panic. *)
Theorem mempool_reachable_ok chain_id p :
  mempool_reachable chain_id p →
  pool_ok p ∧ mp_chain_id p = chain_id ∧ ∀ tx acc, mempool_insert p tx acc ≠ Panic.
Proof.
  intros H. assert (pool_ok p ∧ mp_chain_id p = chain_id) as [Hp Hc].
  { induction H as [|p tx acc out p' _ [IH1 IH2] H|p id _ [IH1 IH2]]; [split; [apply pool_new_ok|done]|..].
    - split; [by eapply insert_ok|]. rewrite <- IH2. apply insert_inv in H as (_ & _ & _ & _ & H).
      destruct (find_replaceable p tx); [by destruct H as (_ & _ & ->)|].
      destruct H as (_ & g & _ & ->). cbn [mp_chain_id store]. apply removes_chain.
    - by split; [apply remove_ok|]. }
  split_and!; [done..|]. intros. by apply insert_no_panic.
Qed.

(** A successful insertion adds its transaction and evicts nothing, or, when
    the sender already has a transaction with that nonce, evicts exactly the
    sender's transactions from that nonce on; everything else stays. *)
Theorem mempool_insert_effect p tx acc out p' :
  pool_ok p → 0 ≤ tx_nonce tx < u64_max → mempool_insert p tx acc = Ok (out, p') →
  ∃ evicted, out = match evicted with [] => Accepted | _ => Replaced evicted end ∧
    (∀ i, mp_txs p' !! i = if decide (i = txid tx) then Some tx
                           else if decide (i ∈ evicted) then None else mp_txs p !! i) ∧
    (∀ i, i ∈ evicted ↔ is_Some (pending_slot p (sender tx) (tx_nonce tx)) ∧
       ∃ t, mp_txs p !! i = Some t ∧ sender t = sender tx ∧ tx_nonce tx ≤ tx_nonce t).
Proof.
  intros Hp Hn H. apply insert_inv in H as (_ & _ & _ & _ & H). exists (find_replaceable p tx).
  destruct (find_replaceable p tx) as [|c ids] eqn:Er.
  - destruct H as (-> & _ & ->). apply replaceable_nil in Er. split_and!; [done|..].
    + intros i. cbn. rewrite (decide_False (P := i ∈ [])) by apply not_elem_of_nil.
      case_decide; [subst; by rewrite lookup_insert_eq|by rewrite lookup_insert_ne].
    + intros i. rewrite elem_of_nil, Er. split; [done|]. by intros [[] _].
  - destruct H as (-> & g & _ & ->). apply replaceable_cons in Er as [Hslot Hids]. split_and!; [done|..].
    + intros i. cbn [mp_txs store]. case_decide; [subst; by rewrite lookup_insert_eq|].
      rewrite lookup_insert_ne by done. apply removes_txs.
    + intros i. rewrite Hslot, elem_of_cons, Hids.
      assert (add64 (tx_nonce tx) 1 = tx_nonce tx + 1) as -> by (apply wrap64_small; unfold in_u64; lia).
      split.
      * intros Hi. split; [by eauto|]. destruct Hi as [->|(n & Hle & Hi)].
        -- destruct (pool_slots p Hp _ _ _ Hslot) as (t & ? & ? & ?). exists t. split_and!; [done..|lia].
        -- destruct (pool_slots p Hp _ _ _ Hi) as (t & ? & ? & ?). exists t. split_and!; [done..|lia].
      * intros (_ & t & Ht & Hs & Hle). destruct (pool_txs p Hp i t Ht) as (_ & _ & _ & Hi).
        rewrite Hs in Hi. destruct (decide (tx_nonce t = tx_nonce tx)) as [E|E].
        -- left. rewrite E in Hi. congruence.
        -- right. exists (tx_nonce t). split; [lia|done].
Qed.

(** ** Runs of nonces *)

(** The sender's entries that are not excluded. *)
Definition pending_entries (p : Mempool) (s : string) (ex : list TxId) : list (Z * TxId) :=
  match mp_by_sender p !! s with
  | Some m => filter (λ e : Z * TxId, e.2 ∉ ex) (btree_entries m)
  | None => []
  end.

Lemma filter_snd (P : TxId → Prop) `{∀ x, Decision (P x)} (l : list (Z * TxId)) :
  filter P l.*2 = (filter (λ e : Z * TxId, P e.2) l).*2.
Proof.
  induction l as [|e l IH]; [done|]. rewrite fmap_cons, !filter_cons. case_decide; [|done].
  by rewrite IH.
Qed.

Lemma pending_ids_entries p s ex : pending_ids p s ex = (pending_entries p s ex).*2.
Proof.
  unfold pending_ids, pending_entries. destruct (mp_by_sender p !! s) as [m|]; [|done].
  apply filter_snd.
Qed.

Lemma elem_of_pending p s ex n id :
  (n, id) ∈ pending_entries p s ex ↔ pending_slot p s n = Some id ∧ id ∉ ex.
Proof.
  unfold pending_entries, pending_slot. destruct (mp_by_sender p !! s) as [m|]; cbn.
  - rewrite list_elem_of_filter, elem_of_btree. cbn. tauto.
  - rewrite elem_of_nil. split; [done|]. by intros [? _].
Qed.

Lemma pending_entries_NoDup p s ex : NoDup (pending_entries p s ex).*1.
Proof.
  unfold pending_entries. destruct (mp_by_sender p !! s) as [m|]; [|apply NoDup_nil_2].
  assert (NoDup (btree_entries m).*1) as H.
  { unfold btree_entries. rewrite merge_sort_Permutation. apply NoDup_fst_map_to_list. }
  revert H. generalize (btree_entries m). induction l as [|e l IH]; [done|]. rewrite filter_cons.
  cbn [fmap list_fmap]. intros [Hn Hl]%NoDup_cons. case_decide; [|by apply IH].
  cbn [fmap list_fmap]. apply NoDup_cons. split; [|by apply IH]. intros Hin. apply Hn.
  apply list_elem_of_fmap in Hin as (e' & E & [_ He']%list_elem_of_filter). rewrite E.
  by apply list_elem_of_fmap_2.
Qed.

Lemma pending_ids_NoDup p s ex : pool_ok p → NoDup (pending_ids p s ex).
Proof.
  intros Hp. rewrite pending_ids_entries. apply NoDup_fmap_2_strong.
  - intros [n id] [n' id'] H1 H2 E. cbn in E. subst id'. f_equal.
    apply elem_of_pending in H1 as [H1 _], H2 as [H2 _].
    destruct (pool_slots p Hp _ _ _ H1) as (t & Ht & _ & <-), (pool_slots p Hp _ _ _ H2) as (t' & Ht' & _ & <-).
    congruence.
  - by eapply NoDup_fmap_1, pending_entries_NoDup.
Qed.

Lemma elem_of_pending_ids p s ex id :
  id ∈ pending_ids p s ex ↔ (id ∉ ex) ∧ ∃ n, pending_slot p s n = Some id.
Proof.
  rewrite pending_ids_entries, list_elem_of_fmap. split.
  - intros ([n i] & -> & [? ?]%elem_of_pending). cbn. eauto.
  - intros (? & n & ?). exists (n, id). split; [done|]. by apply elem_of_pending.
Qed.

Lemma pending_count p s ex a k :
  0 ≤ k → (∀ n, (∃ id, pending_slot p s n = Some id ∧ id ∉ ex) ↔ a < n ≤ a + k) →
  Z.of_nat (length (pending_ids p s ex)) = k.
Proof.
  intros Hk H. rewrite pending_ids_entries, length_fmap, <- (length_fmap fst).
  assert ((pending_entries p s ex).*1 ≡ₚ seqZ (a + 1) k) as ->; [|rewrite length_seqZ; lia].
  apply NoDup_Permutation; [apply pending_entries_NoDup|apply NoDup_seqZ|].
  intros n. rewrite elem_of_seqZ, list_elem_of_fmap. split.
  - intros ([n' id] & -> & [? ?]%elem_of_pending). cbn.
    assert (a < n' ≤ a + k) by (apply H; eauto). lia.
  - intros Hn. destruct (proj2 (H n)) as (id & ? & ?); [lia|]. exists (n, id). split; [done|].
    by apply elem_of_pending.
Qed.

(** What a sender's pending transactions cost, and the runs they form. *)
Definition cost (tx : Transaction) : Z := value tx + fee tx.

Definition spent (p : Mempool) (s : string) (ex : list TxId) : Z :=
  sumZ (cost <$> omap (λ id, mp_txs p !! id) (pending_ids p s ex)).

Record run_ok (acc : string → Account) (p : Mempool) (s : string) (top : Z) : Prop := {
  run_top : nonce (acc s) ≤ top;
  run_nonces : ∀ n, is_Some (pending_slot p s n) ↔ nonce (acc s) < n ≤ top;
  run_paid : spent p s [] ≤ balance (acc s)
}.

(** Transactions whose cost does not wrap. *)
Definition costs_ok (p : Mempool) : Prop :=
  map_Forall (λ _ tx, 0 ≤ value tx ∧ 0 ≤ fee tx ∧ cost tx < two64) (mp_txs p).

Lemma spent_nonneg p s ex : costs_ok p → 0 ≤ spent p s ex.
Proof.
  intros Hc. apply sumZ_nonneg, Forall_fmap, Forall_forall. intros tx Htx.
  apply list_elem_of_omap in Htx as (id & _ & Hid). destruct (Hc id tx Hid) as (? & ? & _). cbn.
  unfold cost. lia.
Qed.

(** Excluding ids only lowers the bill. *)
Lemma spent_excluded p s ex : costs_ok p → spent p s ex ≤ spent p s [].
Proof.
  intros Hc. unfold spent, pending_ids. destruct (mp_by_sender p !! s) as [m|]; [|done].
  generalize ((btree_entries m).*2). induction l as [|i l IH]; [done|].
  rewrite !filter_cons. rewrite (decide_True (P := i ∉ [])) by apply not_elem_of_nil.
  cbn [omap list_omap]. destruct (mp_txs p !! i) as [t|] eqn:Ei.
  - destruct (Hc i t Ei) as (? & ? & _). case_decide; cbn [omap list_omap]; rewrite ?Ei; cbn; unfold cost in *; lia.
  - case_decide; cbn [omap list_omap]; rewrite ?Ei; done.
Qed.

Lemma tx_cost_exact tx : 0 ≤ value tx → 0 ≤ fee tx → cost tx < two64 → tx_cost tx = cost tx.
Proof. intros. apply wrap64_small. unfold in_u64, cost in *. lia. Qed.

Lemma spent_wrap p s ex :
  costs_ok p → spent p s ex < two64 →
  sum64 (tx_cost <$> omap (λ id, mp_txs p !! id) (pending_ids p s ex)) = spent p s ex.
Proof.
  intros Hc Hlt. pose proof (spent_nonneg p s ex Hc). unfold spent in *.
  assert (tx_cost <$> omap (λ id, mp_txs p !! id) (pending_ids p s ex)
          = cost <$> omap (λ id, mp_txs p !! id) (pending_ids p s ex)) as ->.
  { apply list_fmap_ext. intros i tx Htx. apply list_elem_of_lookup_2, list_elem_of_omap in Htx as (id & _ & Hid).
    destruct (Hc id tx Hid) as (? & ? & ?). by apply tx_cost_exact. }
  by apply sum64_exact.
Qed.

(** The fields of the pool after an insertion that evicts [find_replaceable]. *)
Lemma insert_fields p tx acc out p' :
  pool_ok p → mempool_insert p tx acc = Ok (out, p') →
  let ex := find_replaceable p tx in
  (∀ i, mp_txs p' !! i = if decide (i = txid tx) then Some tx
                         else if decide (i ∈ ex) then None else mp_txs p !! i) ∧
  (∀ s n, pending_slot p' s n =
     if decide (s = sender tx ∧ n = tx_nonce tx) then Some (txid tx) else
     match pending_slot p s n with Some id => if decide (id ∈ ex) then None else Some id | None => None end).
Proof.
  intros Hp H ex. apply insert_inv in H as (_ & _ & _ & _ & H). unfold ex.
  assert (∃ g, p' = store (foldl mempool_remove p (find_replaceable p tx)) (txid tx) tx g) as [g ->].
  { destruct (find_replaceable p tx); [destruct H as (_ & _ & ->); by exists 0|].
    destruct H as (_ & g & _ & ->). by exists g. }
  split.
  - intros i. cbn [mp_txs store]. case_decide; [subst; by rewrite lookup_insert_eq|].
    rewrite lookup_insert_ne by done. apply removes_txs.
  - intros s n. rewrite slot_store. case_decide; [done|]. by apply removes_slots.
Qed.

Lemma insert_bill p tx acc out p' s :
  pool_ok p → pool_ok p' → mempool_insert p tx acc = Ok (out, p') →
  spent p' s [] = (if decide (s = sender tx) then cost tx else 0) + spent p s (find_replaceable p tx).
Proof.
  intros Hp Hp' H. destruct (insert_fields _ _ _ _ _ Hp H) as [Htxs Hslots].
  apply insert_inv in H as (Hnew & _). set (ex := find_replaceable p tx) in *.
  assert (pending_ids p' s [] ≡ₚ (if decide (s = sender tx) then [txid tx] else []) ++ pending_ids p s ex) as E.
  { apply NoDup_Permutation; [by apply pending_ids_NoDup| |].
    - case_decide; cbn; [|by apply pending_ids_NoDup]. apply NoDup_cons. split; [|by apply pending_ids_NoDup].
      intros [_ [n Hn]]%elem_of_pending_ids. destruct (pool_slots p Hp _ _ _ Hn) as (t & Ht & _). congruence.
    - intros id. rewrite elem_of_app, !elem_of_pending_ids. split.
      + intros (_ & n & Hn). rewrite Hslots in Hn. case_decide as E.
        * injection Hn as <-. destruct E as [-> _]. left. rewrite decide_True by done. by left.
        * destruct (pending_slot p s n) as [i|] eqn:Ei; [|done]. case_decide; [done|]. injection Hn as <-. eauto.
      + intros Hid. split; [apply not_elem_of_nil|]. destruct Hid as [Hid|(Hex & n & Hn)].
        * case_decide as E; [|by apply elem_of_nil in Hid]. apply list_elem_of_singleton in Hid as ->. subst s.
          exists (tx_nonce tx). by rewrite Hslots, decide_True.
        * exists n. rewrite Hslots, Hn. rewrite (decide_False (P := id ∈ ex)) by done. case_decide as E; [|done].
          destruct E as [-> ->]. exfalso. unfold ex, find_replaceable in Hex. unfold pending_slot in Hn.
          destruct (mp_by_sender p !! sender tx) as [m|]; [|done]. cbn in Hn. rewrite Hn in Hex.
          apply Hex. by left. }
  assert (∀ l : list TxId, (∀ id, id ∈ l → (id ∉ ex) ∧ is_Some (mp_txs p !! id)) →
            omap (λ id, mp_txs p' !! id) l = omap (λ id, mp_txs p !! id) l) as Hsame.
  { induction l as [|i l IH]; intros Hl; [done|]. cbn [omap list_omap].
    destruct (Hl i) as [Hi [t Ht]]; [by left|]. rewrite (Htxs i).
    rewrite (decide_False (P := i = txid tx)) by congruence. rewrite decide_False by done. rewrite Ht.
    f_equal. apply IH. intros j Hj. apply Hl. by right. }
  unfold spent. rewrite E. rewrite omap_app, fmap_app, sumZ_app, (Hsame (pending_ids p s ex)).
  - f_equal. case_decide; [|done]. cbn. rewrite Htxs, decide_True by done. cbn. lia.
  - intros id (Hex & n & Hn)%elem_of_pending_ids. split; [done|].
    destruct (pool_slots p Hp _ _ _ Hn) as (t & Ht & _). eauto.
Qed.

(** Slots that survive an insertion, when the pool held a run. *)
Lemma insert_keeps p tx acc top n :
  pool_ok p → 0 ≤ tx_nonce tx < u64_max → run_ok acc p (sender tx) top →
  (∃ id, pending_slot p (sender tx) n = Some id ∧ id ∉ find_replaceable p tx) ↔
  nonce (acc (sender tx)) < n ≤ (if decide (find_replaceable p tx = []) then top else tx_nonce tx - 1).
Proof.
  intros Hp Hn [Htop Hrun _]. destruct (find_replaceable p tx) as [|c ids] eqn:Er.
  - rewrite decide_True by done. rewrite <- Hrun. split; [intros (id & -> & _); eauto|].
    intros [id Hid]. exists id. split; [done|apply not_elem_of_nil].
  - rewrite decide_False by done. apply replaceable_cons in Er as [Hslot Hids].
    assert (nonce (acc (sender tx)) < tx_nonce tx ≤ top) as Hin by (apply Hrun; eauto).
    assert (add64 (tx_nonce tx) 1 = tx_nonce tx + 1) as Ha by (apply wrap64_small; unfold in_u64; lia).
    rewrite Ha in Hids. split.
    + intros (id & Hid & Hex). assert (nonce (acc (sender tx)) < n ≤ top) by (apply Hrun; eauto).
      destruct (decide (n < tx_nonce tx)); [lia|]. exfalso. apply Hex. apply elem_of_cons.
      destruct (decide (n = tx_nonce tx)) as [->|]; [left; congruence|]. right. apply Hids. exists n. split; [lia|done].
    + intros Hle. destruct (proj2 (Hrun n)) as [id Hid]; [lia|]. exists id. split; [done|].
      intros [->|Hi]%elem_of_cons.
      * destruct (pool_slots p Hp _ _ _ Hid) as (t & Ht & _ & <-), (pool_slots p Hp _ _ _ Hslot) as (t' & Ht' & _ & E).
        simplify_eq. lia.
      * apply Hids in Hi as (n' & Hle' & Hi).
        destruct (pool_slots p Hp _ _ _ Hid) as (t & Ht & _ & <-), (pool_slots p Hp _ _ _ Hi) as (t' & Ht' & _ & E).
        simplify_eq. lia.
Qed.

(** A run admits exactly the next nonce, or a nonce of the run as a
    replacement, and only a cost the remaining balance covers. *)
Lemma validate_run p tx acc top :
  pool_ok p → costs_ok p → (∀ s, in_u64 (nonce (acc s)) ∧ in_u64 (balance (acc s))) →
  0 ≤ tx_nonce tx < u64_max → 0 ≤ value tx → 0 ≤ fee tx → cost tx < two64 →
  run_ok acc p (sender tx) top →
  validate_against_pool p tx (acc (sender tx)) (find_replaceable p tx) = Ok tt →
  (find_replaceable p tx = [] → tx_nonce tx = top + 1) ∧
  spent p (sender tx) (find_replaceable p tx) + cost tx ≤ balance (acc (sender tx)).
Proof.
  intros Hp Hc Hacc Hn Hv Hf Hcost Hrun H. unfold validate_against_pool in H.
  destruct (Hacc (sender tx)) as [Ha Hb].
  set (k := (if decide (find_replaceable p tx = []) then top else tx_nonce tx - 1) - nonce (acc (sender tx))).
  pose proof (run_top _ _ _ _ Hrun) as Htop. pose proof (run_nonces _ _ _ _ Hrun) as Hnon.
  assert (0 ≤ k) as Hk.
  { unfold k. case_decide as E; [lia|]. destruct (find_replaceable p tx) as [|c ids] eqn:Er; [done|].
    apply replaceable_cons in Er as [Hs _]. assert (nonce (acc (sender tx)) < tx_nonce tx ≤ top) by (apply Hnon; eauto).
    lia. }
  rewrite (pending_count p (sender tx) (find_replaceable p tx) (nonce (acc (sender tx))) k Hk) in H.
  2: { intros n. rewrite (insert_keeps p tx acc top n Hp Hn Hrun). unfold k. split; intros; lia. }
  apply bind_ok_inv in H as ([] & Hnonce%Node.lift_ok & H).
  pose proof (spent_excluded p (sender tx) (find_replaceable p tx) Hc) as Hle.
  pose proof (run_paid _ _ _ _ Hrun) as Hpaid. pose proof (spent_nonneg p (sender tx) (find_replaceable p tx) Hc).
  unfold in_u64 in *. rewrite spent_wrap, tx_cost_exact in H by (try done; lia).
  destruct (Z.ltb_spec (saturating_sub64 (balance (acc (sender tx))) (spent p (sender tx) (find_replaceable p tx))) (cost tx));
    [done|]. unfold saturating_sub64 in *. split; [|lia].
  intros E. unfold validate_nonce in Hnonce. apply bind_ok_inv in Hnonce as (e & He & Hnonce).
  unfold ok_or in He. destruct (checked_add64 _ _) eqn:Hadd; [|done]. injection He as ->.
  apply checked_add64_Some in Hadd as [-> Hlt]. unfold k in *. rewrite decide_True in * by done.
  unfold saturating_add64 in *. destruct (Z.eqb_spec (tx_nonce tx)
    (Z.min (nonce (acc (sender tx)) + (top - nonce (acc (sender tx)))) u64_max + 1)); [lia|done].
Qed.

(** Against a fixed view of the accounts, insertions keep every sender's
    pending transactions a gap-free run of nonces right after the account's nonce
    whose total cost the account's balance covers; the run of the inserted
    transaction's sender now ends at its nonce. *)
Theorem mempool_runs_payable p tx acc out p' :
  pool_ok p → costs_ok p → (∀ s, in_u64 (nonce (acc s)) ∧ in_u64 (balance (acc s))) →
  (∀ s, ∃ top, run_ok acc p s top) →
  0 ≤ tx_nonce tx < u64_max → 0 ≤ value tx → 0 ≤ fee tx → cost tx < two64 →
  mempool_insert p tx (acc (sender tx)) = Ok (out, p') →
  costs_ok p' ∧ run_ok acc p' (sender tx) (tx_nonce tx) ∧ (∀ s, ∃ top, run_ok acc p' s top).
Proof.
  intros Hp Hc Hacc Hruns Hn Hv Hf Hcost H. pose proof (insert_ok _ _ _ _ _ Hp H) as Hp'.
  destruct (insert_fields _ _ _ _ _ Hp H) as [Htxs Hslots].
  pose proof (λ s, insert_bill _ _ _ _ _ s Hp Hp' H) as Hbill.
  apply insert_inv in H as (_ & _ & _ & Hval & _). destruct (Hruns (sender tx)) as [top Hrun].
  destruct (validate_run p tx acc top) as [Hnext Hpay]; [done..|].
  assert (run_ok acc p' (sender tx) (tx_nonce tx)) as Hr.
  { pose proof (λ n, insert_keeps p tx acc top n Hp Hn Hrun) as Hkeep.
    pose proof (run_top _ _ _ _ Hrun) as Htop. pose proof (run_nonces _ _ _ _ Hrun) as Hnon.
    assert (nonce (acc (sender tx)) < tx_nonce tx ∧
      (if decide (find_replaceable p tx = []) then top else tx_nonce tx - 1) = tx_nonce tx - 1) as [Hlt Hend].
    { case_decide as E; [specialize (Hnext E); split; lia|]. split; [|done].
      destruct (find_replaceable p tx) as [|c ids] eqn:Er; [done|].
      apply replaceable_cons in Er as [Hs _]. apply Hnon. eauto. }
    rewrite Hend in Hkeep. clear Hend. split; [lia| |].
    - intros n. rewrite Hslots. case_decide as E; [destruct E as [_ ->]; split; [intros; lia|by eauto]|].
      assert (n ≠ tx_nonce tx) by naive_solver. specialize (Hkeep n).
      destruct (pending_slot p (sender tx) n) as [id|] eqn:Eid.
      + case_decide as Ex; split; try lia.
        * by intros []. 
        * intros. exfalso. destruct (proj2 Hkeep) as (i & [= ->] & ?); [lia|done].
        * intros _. assert (nonce (acc (sender tx)) < n ≤ tx_nonce tx - 1) by (apply Hkeep; eauto). lia.
        * eauto.
      + split; [by intros []|]. intros. destruct (proj2 Hkeep) as (i & ? & _); [lia|done].
    - rewrite Hbill, decide_True by done. lia. }
  split_and!; [|done|].
  - intros i t Ht. rewrite Htxs in Ht. case_decide; [by simplify_eq|]. case_decide; [done|]. by apply (Hc i t).
  - intros s. destruct (decide (s = sender tx)) as [->|Hne]; [eauto|]. destruct (Hruns s) as [top' [T1 T2 T3]].
    exists top'. split; [done| |].
    + intros n. rewrite <- T2, Hslots. rewrite decide_False by naive_solver.
      destruct (pending_slot p s n) as [id|] eqn:Eid; [|done]. rewrite decide_False; [done|]. intros Hex.
      destruct (find_replaceable p tx) as [|c ids] eqn:Er; [by apply elem_of_nil in Hex|].
      apply replaceable_cons in Er as [Hs Hids]. destruct (pool_slots p Hp _ _ _ Eid) as (t & Ht & Hst & _).
      apply elem_of_cons in Hex as [->|(n' & _ & Hn')%Hids].
      * destruct (pool_slots p Hp _ _ _ Hs) as (t' & Ht' & Hst' & _). congruence.
      * destruct (pool_slots p Hp _ _ _ Hn') as (t' & Ht' & Hst' & _). congruence.
    + rewrite Hbill, decide_False by done. pose proof (spent_excluded p s (find_replaceable p tx) Hc). lia.
Qed.
End MempoolProps.

(** ** Concrete pools *)

Section Witnesses.
#[local] Existing Instances toy_hex toy_blake3 toy_bech32 toy_secp.

(** A key's address and a transfer it signed under the stand-in scheme, whose
    signatures open with the key. *)
Definition key_address : string :=
  match encode_address (x42 : PublicKey) CHAIN_ID_REGTEST with Ok a => a | _ => "" end.

Definition signed_by_key (tx : Transaction) : Transaction :=
  set_signature tx (replicate 64 x42 ++ [x00]).

Definition demo_transfer (to : string) (amount n : Z) : Transaction :=
  signed_by_key (tx_transfer key_address to amount n CHAIN_ID_REGTEST).

Definition demo_account (s : string) : Account :=
  if decide (s = key_address) then account_eoa 1000 0 else account_default.

Definition pool_after (p : Mempool) (tx : Transaction) : Mempool :=
  match mempool_insert p tx (demo_account (sender tx)) with Ok (_, p') => p' | _ => p end.

(** Two transfers, the first with a longer receiver so that it can be replaced. *)
Definition long_receiver : string :=
  "a receiver whose name makes the signed encoding considerably longer than that of the replacement ................".
Definition demo_pool : Mempool :=
  pool_after (pool_after (mempool_new CHAIN_ID_REGTEST) (demo_transfer long_receiver 100 1))
    (demo_transfer "bob" 200 2).

Lemma demo_pool_steps :
  is_ok (mempool_insert (mempool_new CHAIN_ID_REGTEST) (demo_transfer long_receiver 100 1) (account_eoa 1000 0)) = true
  ∧ is_ok (mempool_insert (pool_after (mempool_new CHAIN_ID_REGTEST) (demo_transfer long_receiver 100 1))
       (demo_transfer "bob" 200 2) (account_eoa 1000 0)) = true.
Proof. split; vm_compute; reflexivity. Qed.

Lemma pool_after_reachable p tx :
  mempool_reachable CHAIN_ID_REGTEST p → mempool_reachable CHAIN_ID_REGTEST (pool_after p tx).
Proof.
  intros H. unfold pool_after. destruct (mempool_insert p tx _) as [[o p']|e|] eqn:E; [|done..].
  by eapply reach_insert.
Qed.

Lemma demo_pool_reachable : mempool_reachable CHAIN_ID_REGTEST demo_pool.
Proof. unfold demo_pool. do 2 apply pool_after_reachable. apply reach_new. Qed.

Lemma demo_pool_ok : pool_ok demo_pool.
Proof.
  assert (∀ p, mempool_reachable CHAIN_ID_REGTEST p → pool_ok p) as H.
  { induction 1; [apply pool_new_ok|by eapply insert_ok|by apply remove_ok]. }
  apply H, demo_pool_reachable.
Qed.

Lemma mempool_reachable_ok_witness :
  size (mp_txs demo_pool) = 2%nat ∧ mp_chain_id demo_pool = CHAIN_ID_REGTEST.
Proof.
  split; [vm_compute; reflexivity|].
  exact (proj1 (proj2 (mempool_reachable_ok CHAIN_ID_REGTEST demo_pool demo_pool_reachable))).
Defined.

(** Replacing nonce 1 evicts both pending transactions. *)
Lemma mempool_insert_effect_witness :
  match mempool_insert demo_pool (demo_transfer "bob" 50 1) (account_eoa 1000 0) with
  | Ok (out, p') => mp_txs p' !! txid (demo_transfer "bob" 50 1) = Some (demo_transfer "bob" 50 1)
  | _ => False
  end.
Proof.
  assert (is_ok (mempool_insert demo_pool (demo_transfer "bob" 50 1) (account_eoa 1000 0)) = true) as Hok
    by (vm_compute; reflexivity).
  destruct (mempool_insert demo_pool (demo_transfer "bob" 50 1) (account_eoa 1000 0)) as [[out p']|e|] eqn:E;
    [|discriminate Hok|discriminate Hok].
  destruct (mempool_insert_effect demo_pool (demo_transfer "bob" 50 1) (account_eoa 1000 0) out p'
    demo_pool_ok ltac:(cbn; lia) E) as (ev & _ & H & _).
  rewrite H, decide_True; reflexivity.
Defined.

(** On the empty pool every sender has the empty run. *)
Lemma empty_runs s : ∃ top, run_ok demo_account (mempool_new CHAIN_ID_REGTEST) s top.
Proof.
  exists (nonce (demo_account s)). split; [lia| |].
  - intros n. unfold pending_slot. cbn. rewrite lookup_empty. split; [by intros []|lia].
  - unfold spent, pending_ids. cbn. unfold demo_account. by case_decide.
Qed.

Lemma mempool_runs_payable_witness :
  match mempool_insert (mempool_new CHAIN_ID_REGTEST) (demo_transfer "bob" 200 1) (demo_account key_address) with
  | Ok (_, p') => run_ok demo_account p' key_address 1
  | _ => False
  end.
Proof.
  assert (is_ok (mempool_insert (mempool_new CHAIN_ID_REGTEST) (demo_transfer "bob" 200 1)
    (demo_account key_address)) = true) as Hok by (vm_compute; reflexivity).
  destruct (mempool_insert (mempool_new CHAIN_ID_REGTEST) (demo_transfer "bob" 200 1) (demo_account key_address))
    as [[out p']|e|] eqn:E; [|discriminate Hok|discriminate Hok].
  refine (proj1 (proj2 (mempool_runs_payable (mempool_new CHAIN_ID_REGTEST) (demo_transfer "bob" 200 1)
    demo_account out p' (pool_new_ok _) (map_Forall_empty _) _ empty_runs _ _ _ _ E))).
  - intros s. unfold demo_account, in_u64. case_decide; cbn; lia.
  - cbn. lia.
  - cbn. lia.
  - cbn. lia.
  - unfold cost. cbn. lia.
Defined.

(** ** What admission does not check *)

(** A transaction flagged coinbase is admitted without any signature. *)
Example unsigned_coinbase_admitted :
  let tx := Transfer {| tr_from := "victim"; tr_to := "thief"; tr_amount := 900; tr_fee := 0;
    tr_nonce := 1; tr_chain_id := CHAIN_ID_REGTEST; tr_signature := []; tr_is_coinbase := true |} in
  is_ok (mempool_insert (mempool_new CHAIN_ID_REGTEST) tx (account_eoa 1000 0)) = true.
Proof. vm_compute. reflexivity. Qed.

(** [value + fee] wraps: the largest amount with fee one costs nothing. *)
Example wrapped_cost_admitted :
  let tx := signed_by_key (Transfer {| tr_from := key_address; tr_to := "bob"; tr_amount := u64_max;
    tr_fee := 1; tr_nonce := 1; tr_chain_id := CHAIN_ID_REGTEST; tr_signature := [];
    tr_is_coinbase := false |}) in
  is_ok (mempool_insert (mempool_new CHAIN_ID_REGTEST) tx (account_eoa 0 0)) = true.
Proof. vm_compute. reflexivity. Qed.
End Witnesses.
