(* ===== verification/Net.v ===== *)
(** * Wire protocol (crates/strangecoin-net)

    The message codecs of [protocol.rs], [protocol/hello.rs], [gossip/inv.rs],
    [gossip/get_data.rs] and [discovery/addr_gossip.rs], the length-prefixed
    framing, and the discovery address book.  A parser keeps an offset into the
    payload, as the source does; an index or a slice outside the payload is a
    [Panic].  A stream is the list of bytes still to be read, and a writer's
    result is the list of bytes written: socket failures other than an early
    end of the stream are not modelled. *)

From S2P Require Import Prelude Bytes Abi Types Serialize.
From stdpp Require Import sorting.
Open Scope Z_scope.

Inductive NetError :=
  | Handshake (what : string)
  | Transport (what : string)
  | Peer (what : string)
  | Protocol (what : string)
  | RateLimit (what : string)
  | Discovery (what : string)
  | Replay (what : string).
#[export] Instance NetError_eq_dec : EqDecision NetError.
Proof. solve_decision. Defined.

Definition size_err (what : string) : NetError := Protocol ("size limit exceeded: " +:+ what).

Definition MAX_MESSAGE_SIZE : Z := 32 * 1024 * 1024.
Definition MAX_BLOCK_SIZE : Z := 4 * 1024 * 1024.
Definition MAX_TX_SIZE : Z := 256 * 1024.

Definition MSG_GET_HEADERS : Z := 1.
Definition MSG_HEADERS : Z := 2.
Definition MSG_GET_BLOCKS : Z := 3.
Definition MSG_BLOCKS : Z := 4.
Definition MSG_ADDR : Z := 5.
Definition MSG_INV : Z := 6.
Definition MSG_GET_DATA : Z := 7.
Definition MSG_TX : Z := 8.
Definition MSG_COMPACT_BLOCK : Z := 9.
Definition MSG_NOTFOUND : Z := 10.
Definition MSG_GET_BLOCK_TXN : Z := 11.
Definition MSG_BLOCK_TXN : Z := 12.
Definition MSG_ERLAY_RECONCILE : Z := 13.

Definition MAX_HEADERS_BATCH : Z := 2000.
Definition MAX_BLOCKS_BATCH : Z := 128.
Definition MAX_INV_BATCH : Z := 512.
Definition INV_ITEM_WIRE_LEN : Z := 33.
Definition MAX_ADDR_ENTRIES : Z := 1000.
Definition MIN_ENTRY_WIRE_LEN : Z := 1 + 4 + 2 + 32.

Definition KNOWN_TAGS : list Z :=
  [MSG_GET_HEADERS; MSG_HEADERS; MSG_GET_BLOCKS; MSG_BLOCKS; MSG_ADDR; MSG_INV; MSG_GET_DATA;
   MSG_TX; MSG_COMPACT_BLOCK; MSG_NOTFOUND; MSG_GET_BLOCK_TXN; MSG_BLOCK_TXN;
   MSG_ERLAY_RECONCILE].

Definition is_known_tag (tag : Z) : bool := bool_decide (tag ∈ KNOWN_TAGS).

(** [v.len()] as an integer. *)
Definition lenZ {A} (l : list A) : Z := Z.of_nat (length l).

(** ** Reading a payload *)

(** [bytes[i]] and [&bytes[offset..offset + n]]. *)
Definition byte_at {E} (bytes : list byte) (i : nat) : result E byte := expect (bytes !! i).
Definition range {E} (bytes : list byte) (offset n : nat) : result E (list byte) :=
  if (offset + n <=? length bytes)%nat then Ok (slice bytes offset n) else Panic.

Definition take_u32 (bytes : list byte) (offset : nat) : result NetError (Z * nat) :=
  if (length bytes <? offset + 4)%nat then Err (size_err "u32 truncation")
  else Ok (from_be_bytes (slice bytes offset 4), (offset + 4)%nat).

Definition take_u64 (bytes : list byte) (offset : nat) : result NetError (Z * nat) :=
  if (length bytes <? offset + 8)%nat then Err (size_err "u64 truncation")
  else Ok (from_be_bytes (slice bytes offset 8), (offset + 8)%nat).

(** [for _ in 0..count { items.push(read(&mut offset)?) }]. *)
Fixpoint read_items {A} (read : nat → result NetError (A * nat)) (count offset : nat)
    : result NetError (list A * nat) :=
  match count with
  | O => Ok ([], offset)
  | S count =>
      '(item, offset) ← read offset;
      '(items, offset) ← read_items read count offset;
      Ok (item :: items, offset)
  end.

(** The first byte of a payload, where the length has been checked. *)
Definition has_tag (bytes : list byte) (tag : Z) : result NetError bool :=
  b ← byte_at bytes 0; Ok (byte_val b =? tag).

(** [[tag][count: u32 BE][item]…]. *)
Definition tagged (tag count : Z) (body : list byte) : list byte :=
  byte_of tag :: to_be_bytes 4 count ++ body.

Section Protocol.
Context `{HX : Hex, B3 : Blake3}.

(** ** GET_HEADERS and HEADERS *)

Definition encode_get_headers (from_height : Z) : list byte :=
  byte_of MSG_GET_HEADERS :: to_be_bytes 8 from_height.

Definition parse_get_headers (bytes : list byte) : result NetError Z :=
  if negb (length bytes =? 9)%nat then Err (size_err "GET_HEADERS") else
  ok ← has_tag bytes MSG_GET_HEADERS;
  if negb ok then Err (size_err "GET_HEADERS") else
  '(h, _) ← take_u64 bytes 1; Ok h.

Definition encode_headers (headers : list BlockHeader) : result NetError (list byte) :=
  if MAX_HEADERS_BATCH <? lenZ headers then Err (size_err "headers batch") else
  items ← mapM_result (λ h, bytes ← serialize_header h; Ok (write_bytes bytes)) headers;
  let out := tagged MSG_HEADERS (lenZ headers) (concat items) in
  if MAX_MESSAGE_SIZE <? lenZ out then Err (size_err "headers message") else Ok out.

Definition read_header_item (bytes : list byte) (offset : nat) : result NetError (BlockHeader * nat) :=
  '(len, offset) ← take_u32 bytes offset;
  if negb (len =? Z.of_nat HEADER_WIRE_LEN) || (lenZ bytes <? Z.of_nat offset + len)
  then Err (size_err "header item") else
  bs ← range bytes offset (Z.to_nat len);
  header ← map_err (λ _, size_err "header decode") (deserialize_header bs);
  Ok (header, (offset + Z.to_nat len)%nat).

Definition parse_headers (bytes : list byte) : result NetError (list BlockHeader) :=
  if (length bytes =? 0)%nat then Err (size_err "HEADERS tag") else
  ok ← has_tag bytes MSG_HEADERS;
  if negb ok then Err (size_err "HEADERS tag") else
  '(count, offset) ← take_u32 bytes 1;
  if MAX_HEADERS_BATCH <? count then Err (size_err "headers batch") else
  if (lenZ bytes - Z.of_nat offset) / 4 <? count then Err (size_err "headers truncation") else
  '(headers, offset) ← read_items (read_header_item bytes) (Z.to_nat count) offset;
  if negb (offset =? length bytes)%nat then Err (size_err "HEADERS trailing") else Ok headers.

(** ** GET_BLOCKS and BLOCKS *)

Definition encode_get_blocks (hashes : list (list byte)) : result NetError (list byte) :=
  if MAX_BLOCKS_BATCH <? lenZ hashes then Err (size_err "blocks batch") else
  Ok (tagged MSG_GET_BLOCKS (lenZ hashes) (concat hashes)).

Definition read_hash_item (bytes : list byte) (offset : nat) : result NetError (list byte * nat) :=
  hash ← range bytes offset 32; Ok (hash, (offset + 32)%nat).

Definition parse_get_blocks (bytes : list byte) : result NetError (list (list byte)) :=
  if (length bytes <? 5)%nat then Err (size_err "GET_BLOCKS") else
  ok ← has_tag bytes MSG_GET_BLOCKS;
  if negb ok then Err (size_err "GET_BLOCKS") else
  '(count, offset) ← take_u32 bytes 1;
  if MAX_BLOCKS_BATCH <? count then Err (size_err "blocks batch") else
  if negb (count * 32 =? lenZ bytes - Z.of_nat offset) then Err (size_err "GET_BLOCKS payload") else
  '(hashes, _) ← read_items (read_hash_item bytes) (Z.to_nat count) offset;
  Ok hashes.

Definition encode_block_item (block : Block) : result NetError (list byte) :=
  bytes ← serialize_block block;
  if MAX_BLOCK_SIZE <? lenZ bytes then Err (size_err "block size") else
  Ok (write_bytes bytes).

Definition encode_blocks (blocks : list Block) : result NetError (list byte) :=
  if MAX_BLOCKS_BATCH <? lenZ blocks then Err (size_err "blocks batch") else
  items ← mapM_result encode_block_item blocks;
  let out := tagged MSG_BLOCKS (lenZ blocks) (concat items) in
  if MAX_MESSAGE_SIZE <? lenZ out then Err (size_err "blocks message") else Ok out.

Definition read_block_item (bytes : list byte) (offset : nat) : result NetError (Block * nat) :=
  '(len, offset) ← take_u32 bytes offset;
  if (MAX_BLOCK_SIZE <? len) || (lenZ bytes <? Z.of_nat offset + len)
  then Err (size_err "block item") else
  bs ← range bytes offset (Z.to_nat len);
  block ← map_err (λ _, size_err "block decode") (deserialize_block bs);
  Ok (block, (offset + Z.to_nat len)%nat).

Definition parse_blocks (bytes : list byte) : result NetError (list Block) :=
  if (length bytes =? 0)%nat then Err (size_err "BLOCKS tag") else
  ok ← has_tag bytes MSG_BLOCKS;
  if negb ok then Err (size_err "BLOCKS tag") else
  '(count, offset) ← take_u32 bytes 1;
  if MAX_BLOCKS_BATCH <? count then Err (size_err "blocks batch") else
  if (lenZ bytes - Z.of_nat offset) / 4 <? count then Err (size_err "blocks truncation") else
  '(blocks, offset) ← read_items (read_block_item bytes) (Z.to_nat count) offset;
  if negb (offset =? length bytes)%nat then Err (size_err "BLOCKS trailing") else Ok blocks.

(** ** Top-level dispatch *)

Inductive InboundMessage :=
  | GetHeaders (from_height : Z)
  | GetBlocks (hashes : list (list byte))
  | KnownTag (tag : Z)
  | UnknownMessage (bytes : list byte).

Definition decode_message (bytes : list byte) : result NetError InboundMessage :=
  match bytes with
  | [] => Ok (UnknownMessage bytes)
  | tag :: _ =>
      let tag := byte_val tag in
      if tag =? MSG_GET_HEADERS then GetHeaders <$> parse_get_headers bytes
      else if tag =? MSG_GET_BLOCKS then GetBlocks <$> parse_get_blocks bytes
      else if is_known_tag tag then Ok (KnownTag tag)
      else Ok (UnknownMessage bytes)
  end.

(** ** Length-prefixed framing *)

(** [reader.read_exact(&mut [0u8; n])]: the bytes and the rest of the stream. *)
Definition read_exact (stream : list byte) (n : nat) : option (list byte * list byte) :=
  if (n <=? length stream)%nat then Some (take n stream, drop n stream) else None.

Definition read_length_prefixed (stream : list byte) : result NetError (list byte * list byte) :=
  '(len_buf, stream) ← ok_or (read_exact stream 4) (Transport "length prefix");
  let len := from_be_bytes len_buf in
  if MAX_MESSAGE_SIZE <? len then Err (size_err "message") else
  ok_or (read_exact stream (Z.to_nat len)) (Transport "message body").

Definition write_length_prefixed (payload : list byte) : result NetError (list byte) :=
  if MAX_MESSAGE_SIZE <? lenZ payload then Err (size_err "message") else
  Ok (to_be_bytes 4 (lenZ payload) ++ payload).

(** ** INV, GET_DATA, NOTFOUND and TX *)

Inductive InvKind := InvTx | InvBlock.
#[export] Instance InvKind_eq_dec : EqDecision InvKind.
Proof. solve_decision. Defined.

Definition to_wire (k : InvKind) : Z := match k with InvTx => 1 | InvBlock => 2 end.
Definition from_wire (b : Z) : option InvKind :=
  if b =? 1 then Some InvTx else if b =? 2 then Some InvBlock else None.

Record InventoryItem := { it_kind : InvKind; it_hash : list byte }.
#[export] Instance InventoryItem_eq_dec : EqDecision InventoryItem.
Proof. solve_decision. Defined.

Definition inv_tx (txid : list byte) : InventoryItem := {| it_kind := InvTx; it_hash := txid |}.
Definition inv_block (hash : list byte) : InventoryItem := {| it_kind := InvBlock; it_hash := hash |}.

Definition encode_item (i : InventoryItem) : list byte := byte_of (to_wire (it_kind i)) :: it_hash i.

Definition encode_inv_items (tag : Z) (items : list InventoryItem) : result NetError (list byte) :=
  if MAX_INV_BATCH <? lenZ items
  then Err (Protocol ("inv batch: " +:+ pretty (lenZ items) +:+ " items > " +:+ pretty MAX_INV_BATCH))
  else Ok (tagged tag (lenZ items) (concat (encode_item <$> items))).

Definition read_inv_item (what : string) (bytes : list byte) (offset : nat)
    : result NetError (InventoryItem * nat) :=
  b ← byte_at bytes offset;
  kind ← ok_or (from_wire (byte_val b)) (Protocol (what +:+ ": unknown item kind"));
  let offset := (offset + 1)%nat in
  hash ← range bytes offset 32;
  Ok ({| it_kind := kind; it_hash := hash |}, (offset + 32)%nat).

Definition parse_inv_items (expected_tag : Z) (bytes : list byte) (what : string)
    : result NetError (list InventoryItem) :=
  let bad := Err (Protocol (what +:+ ": bad tag or missing count")) in
  if (length bytes <? 5)%nat then bad else
  ok ← has_tag bytes expected_tag;
  if negb ok then bad else
  count_bytes ← range bytes 1 4;
  let count := from_be_bytes count_bytes in
  if MAX_INV_BATCH <? count
  then Err (Protocol (what +:+ ": count " +:+ pretty count +:+ " > " +:+ pretty MAX_INV_BATCH)) else
  if negb (count * INV_ITEM_WIRE_LEN =? lenZ bytes - 5)
  then Err (Protocol (what +:+ ": count exceeds payload length")) else
  '(items, _) ← read_items (read_inv_item what bytes) (Z.to_nat count) 5;
  Ok items.

(** [Inv], [GetData] and [NotFound] are one-field structs: their items. *)
Definition inv_encode := encode_inv_items MSG_INV.
Definition inv_parse (bytes : list byte) := parse_inv_items MSG_INV bytes "INV".
Definition get_data_encode := encode_inv_items MSG_GET_DATA.
Definition get_data_parse (bytes : list byte) := parse_inv_items MSG_GET_DATA bytes "GET_DATA".
Definition not_found_encode := encode_inv_items MSG_NOTFOUND.
Definition not_found_parse (bytes : list byte) := parse_inv_items MSG_NOTFOUND bytes "NOTFOUND".

Definition encode_tx (tx : Transaction) : result NetError (list byte) :=
  let body := serialize_transaction_signed tx in
  if MAX_TX_SIZE <? lenZ body
  then Err (Protocol ("tx size " +:+ pretty (lenZ body) +:+ " > " +:+ pretty MAX_TX_SIZE)) else
  Ok (tagged MSG_TX (lenZ body) body).

Definition parse_tx (bytes : list byte) : result NetError Transaction :=
  let bad := Err (Protocol "tx message: bad tag or missing length") in
  if (length bytes <? 5)%nat then bad else
  ok ← has_tag bytes MSG_TX;
  if negb ok then bad else
  len_bytes ← range bytes 1 4;
  let len := from_be_bytes len_bytes in
  if MAX_TX_SIZE <? len
  then Err (Protocol ("tx message: length " +:+ pretty len +:+ " > " +:+ pretty MAX_TX_SIZE)) else
  if negb (len =? lenZ bytes - 5) then Err (Protocol "tx message: length exceeds payload length") else
  map_err (λ _, Protocol "tx message: tx decode") (deserialize_transaction_signed (drop 5 bytes)).

End Protocol.

(** ** HELLO *)

Definition MIN_PROTO_VERSION : Z := 2.
Definition HELLO_WIRE_LEN : nat := 20.

Inductive Capability := CapNoise | CapCompactBlocks | CapErlay | CapShadow.
Definition bit (c : Capability) : Z :=
  match c with CapNoise => 1 | CapCompactBlocks => 2 | CapErlay => 4 | CapShadow => 8 end.
Definition STAGE2_CAPABILITIES : Z :=
  Z.lor (Z.lor (bit CapNoise) (bit CapCompactBlocks)) (bit CapErlay).

Record Hello := {
  hl_version : Z; hl_network_id : Z; hl_capabilities : Z; hl_height : Z }.

Definition hello_new (network_id capabilities height : Z) : Hello :=
  {| hl_version := MIN_PROTO_VERSION; hl_network_id := network_id;
     hl_capabilities := capabilities; hl_height := height |}.

Definition hello_encode (h : Hello) : list byte :=
  to_be_bytes 4 (hl_version h) ++ to_be_bytes 4 (hl_network_id h)
  ++ to_be_bytes 4 (hl_capabilities h) ++ to_be_bytes 8 (hl_height h).

Definition hello_decode (bytes : list byte) : result NetError Hello :=
  if negb (length bytes =? HELLO_WIRE_LEN)%nat
  then Err (Protocol ("hello: length " +:+ pretty (lenZ bytes) +:+ " != " +:+ pretty (Z.of_nat HELLO_WIRE_LEN))) else
  height_bytes ← range bytes 12 8;
  version ← range bytes 0 4;
  network_id ← range bytes 4 4;
  capabilities ← range bytes 8 4;
  Ok {| hl_version := from_be_bytes version; hl_network_id := from_be_bytes network_id;
        hl_capabilities := from_be_bytes capabilities; hl_height := from_be_bytes height_bytes |}.

Definition negotiate_capabilities (local remote : Z) : Z := Z.land local remote.

Definition validate_hello (hello : Hello) (local_network_id : Z) : result NetError unit :=
  if hl_version hello <? MIN_PROTO_VERSION
  then Err (Protocol ("hello: protocol version " +:+ pretty (hl_version hello)
                      +:+ " below minimum " +:+ pretty MIN_PROTO_VERSION)) else
  if negb (hl_network_id hello =? local_network_id)
  then Err (Protocol ("hello: network_id mismatch: peer " +:+ pretty (hl_network_id hello)
                      +:+ ", local " +:+ pretty local_network_id))
  else Ok tt.

(** ** ADDR *)

(** A [NodeId] is its 32 bytes.  [octets] holds 4 or 16 bytes. *)
Abbreviation NodeId := (list byte) (only parsing).

Inductive SocketAddr :=
  | SockV4 (octets : list byte) (port : Z)
  | SockV6 (octets : list byte) (port flowinfo scope_id : Z).
#[export] Instance SocketAddr_eq_dec : EqDecision SocketAddr.
Proof. solve_decision. Defined.

Definition sock_port (a : SocketAddr) : Z := match a with SockV4 _ p | SockV6 _ p _ _ => p end.
Definition sock_octets (a : SocketAddr) : list byte := match a with SockV4 o _ | SockV6 o _ _ _ => o end.

Record AddrEntry := { ae_node_id : NodeId; ae_addr : SocketAddr }.
#[export] Instance AddrEntry_eq_dec : EqDecision AddrEntry.
Proof. solve_decision. Defined.

Definition encode_addr_entry (e : AddrEntry) : list byte :=
  byte_of (match ae_addr e with SockV4 _ _ => 4 | SockV6 _ _ _ _ => 6 end)
  :: sock_octets (ae_addr e) ++ to_be_bytes 2 (sock_port (ae_addr e)) ++ ae_node_id e.

Definition encode_addr (entries : list AddrEntry) : result NetError (list byte) :=
  if MAX_ADDR_ENTRIES <? lenZ entries
  then Err (Protocol ("addr batch: " +:+ pretty (lenZ entries) +:+ " entries > " +:+ pretty MAX_ADDR_ENTRIES))
  else Ok (tagged MSG_ADDR (lenZ entries) (concat (encode_addr_entry <$> entries))).

Definition addr_truncated (what : string) : NetError := Protocol ("addr message: " +:+ what).

(** The [match family] of [parse_addr]: an address without its port, and the offset. *)
Definition read_ip (bytes : list byte) (family : Z) (offset : nat)
    : result NetError ((Z → SocketAddr) * nat) :=
  if family =? 4 then
    if (length bytes <? offset + 4)%nat then Err (addr_truncated "ipv4 truncation") else
    octets ← range bytes offset 4;
    Ok (λ port, SockV4 octets port, (offset + 4)%nat)
  else if family =? 6 then
    if (length bytes <? offset + 16)%nat then Err (addr_truncated "ipv6 truncation") else
    octets ← range bytes offset 16;
    Ok (λ port, SockV6 octets port 0 0, (offset + 16)%nat)
  else Err (addr_truncated "unknown address family").

Definition read_addr_entry (bytes : list byte) (offset : nat) : result NetError (AddrEntry * nat) :=
  family ← byte_at bytes offset;
  '(ip, offset) ← read_ip bytes (byte_val family) (offset + 1);
  if (length bytes <? offset + 2)%nat then Err (addr_truncated "port truncation") else
  port ← range bytes offset 2;
  let offset := (offset + 2)%nat in
  if (length bytes <? offset + 32)%nat then Err (addr_truncated "node_id truncation") else
  node_id ← range bytes offset 32;
  Ok ({| ae_node_id := node_id; ae_addr := ip (from_be_bytes port) |}, (offset + 32)%nat).

Definition parse_addr (bytes : list byte) : result NetError (list AddrEntry) :=
  let bad := Err (addr_truncated "bad tag or missing count") in
  if (length bytes <? 5)%nat then bad else
  ok ← has_tag bytes MSG_ADDR;
  if negb ok then bad else
  count_bytes ← range bytes 1 4;
  let count := from_be_bytes count_bytes in
  if MAX_ADDR_ENTRIES <? count
  then Err (Protocol ("addr batch: count " +:+ pretty count +:+ " > " +:+ pretty MAX_ADDR_ENTRIES)) else
  if lenZ bytes <? 5 + count * MIN_ENTRY_WIRE_LEN
  then Err (addr_truncated "count exceeds payload length") else
  '(entries, offset) ← read_items (read_addr_entry bytes) (Z.to_nat count) 5;
  if negb (offset =? length bytes)%nat then Err (addr_truncated "trailing bytes") else Ok entries.

(** ** Address book *)

Record AddrRecord := { ar_addr : SocketAddr; ar_verified : bool }.

(** [HashMap<NodeId, AddrRecord>]. *)
Definition AddrBook : Type := gmap NodeId AddrRecord.

Definition book_insert (book : AddrBook) (node_id : NodeId) (addr : SocketAddr) (verified : bool)
    : AddrBook * bool :=
  match book !! node_id with
  | Some _ => (book, false)
  | None => (<[node_id := {| ar_addr := addr; ar_verified := verified |}]> book, true)
  end.

Definition mark_verified (book : AddrBook) (node_id : NodeId) : AddrBook * bool :=
  match book !! node_id with
  | Some r => (<[node_id := {| ar_addr := ar_addr r; ar_verified := true |}]> book, negb (ar_verified r))
  | None => (book, false)
  end.

(** The derived [Ord]s: [SocketAddr] by family, address, port, then flow and scope. *)
Definition sock_key (a : SocketAddr) : list byte :=
  match a with
  | SockV4 o p => x04 :: o ++ to_be_bytes 2 p
  | SockV6 o p f s => x06 :: o ++ to_be_bytes 2 p ++ to_be_bytes 4 f ++ to_be_bytes 4 s
  end.
Definition entry_le (a b : AddrEntry) : Prop :=
  bytes_ltb (ae_node_id b ++ sock_key (ae_addr b)) (ae_node_id a ++ sock_key (ae_addr a)) = false.
#[export] Instance entry_le_dec : RelDecision entry_le.
Proof. intros a b. unfold entry_le. apply _. Defined.

Definition book_entries (book : AddrBook) : list AddrEntry :=
  (λ p, {| ae_node_id := p.1; ae_addr := ar_addr p.2 |}) <$> map_to_list book.

Definition top_k_sorted (book : AddrBook) (max_count : nat) : list AddrEntry :=
  take max_count (merge_sort entry_le (book_entries book)).

Definition is_unspecified (a : SocketAddr) : bool :=
  forallb (λ b, byte_val b =? 0) (sock_octets a).
Definition is_multicast (a : SocketAddr) : bool :=
  match a with
  | SockV4 (b :: _) _ => Z.land (byte_val b) 240 =? 224
  | SockV6 (b :: _) _ _ _ => byte_val b =? 255
  | _ => false
  end.

Definition is_dialable (a : SocketAddr) : bool :=
  negb (sock_port a =? 0) && negb (is_unspecified a) && negb (is_multicast a).

Definition handle_addr_message (entries : list AddrEntry) (book : AddrBook) : AddrBook * Z :=
  foldl (λ '(book, added) e,
    if negb (is_dialable (ae_addr e)) then (book, added) else
    let '(book, fresh) := book_insert book (ae_node_id e) (ae_addr e) false in
    (book, if fresh then added + 1 else added)) (book, 0) entries.

(** [v.dedup()]. *)
Fixpoint dedup {A} `{EqDecision A} (l : list A) : list A :=
  match l with
  | a :: l' => match l' with
               | b :: _ => if decide (a = b) then dedup l' else a :: dedup l'
               | [] => [a]
               end
  | [] => []
  end.

(** The [AddrSender] trait: delivery changes the sender's state and may fail. *)
Class AddrSender (S : Type) := send_addr : S → NodeId → list byte → result NetError unit * S.

Definition broadcast_known_addrs {S} `{AddrSender S} (book : AddrBook) (recipients : list NodeId)
    (sender : S) (max_count : nat) : result NetError (Z * S) :=
  if (length recipients =? 0)%nat || (max_count =? 0)%nat || bool_decide (book = ∅)
  then Ok (0, sender) else
  payload ← encode_addr (top_k_sorted book max_count);
  Ok (foldl (λ '(sent, sender) peer,
        let '(r, sender) := send_addr sender peer payload in
        (if is_ok r then sent + 1 else sent, sender)) (0, sender) (dedup (sort_leaves recipients))).

