(* ===== verification/NetProps.v ===== *)
(** * Properties of the wire protocol

    Every codec of [Net] against its inverse, canonicity of the fixed-shape
    messages, absence of panics on untrusted payloads (with the one exception,
    ADDR), framing, and the address book. *)

From S2P Require Import Prelude Bytes Abi Types Concrete Serialize SerializeProps Net.
From stdpp Require Import sorting.
Open Scope Z_scope.

(** ** Item codecs

    An item reader [read] inverts the item encoder [enc] on the values [wf]
    describes: in the middle of any payload it reads back what was written, and
    what it returns is what the payload holds at that place. *)
Class ItemCodec {A} (enc : A → list byte) (wf : A → Prop)
    (read : list byte → nat → result NetError (A * nat)) : Prop := {
  item_read bs off x rest :
    wf x → cursor bs off (enc x ++ rest) → read bs off = Ok (x, (off + length (enc x))%nat)
}.

Class ItemCanonical {A} (enc : A → list byte) (wf : A → Prop)
    (read : list byte → nat → result NetError (A * nat)) : Prop := {
  item_inv bs off x off' :
    read bs off = Ok (x, off') → wf x ∧ drop off bs = enc x ++ drop off' bs ∧ (off' ≤ length bs)%nat
}.

Section Items.
Context {A : Type} (enc : A → list byte) (wf : A → Prop)
  (read : list byte → nat → result NetError (A * nat)).

Lemma read_items_ok `{!ItemCodec enc wf read} bs xs off rest :
  Forall wf xs → cursor bs off (concat (enc <$> xs) ++ rest) →
  read_items (read bs) (length xs) off = Ok (xs, (off + length (concat (enc <$> xs)))%nat).
Proof.
  intros Hwf. revert off. induction Hwf as [|x xs Hx _ IH]; intros off H;
    cbn [length read_items fmap list_fmap concat]; [by rewrite Nat.add_0_r|].
  cbn [fmap list_fmap concat] in H. rewrite <- app_assoc in H.
  rewrite (item_read bs off x _ Hx H). cbn [mbind result_bind]. apply cursor_app in H.
  rewrite (IH _ H). cbn [mbind result_bind]. by rewrite length_app, Nat.add_assoc.
Qed.

Lemma read_items_inv `{!ItemCanonical enc wf read} bs n off xs off' :
  (off ≤ length bs)%nat → read_items (read bs) n off = Ok (xs, off') →
  length xs = n ∧ Forall wf xs ∧ drop off bs = concat (enc <$> xs) ++ drop off' bs
  ∧ (off' ≤ length bs)%nat.
Proof.
  revert off xs. induction n as [|n IH]; intros off xs Hoff H; cbn [read_items] in H.
  { by injection H as <- <-. }
  apply bind_ok_inv in H as ([x off1] & E1 & H). apply item_inv in E1 as (Hx & Ed & Hl).
  apply bind_ok_inv in H as ([xs' off2] & E2 & H). injection H as <- <-.
  apply IH in E2 as (Hn & Hwf & Ed2 & Hl2); [|done].
  cbn [length fmap list_fmap concat]. split_and!; [lia|by constructor| |done].
  by rewrite Ed, Ed2, app_assoc.
Qed.

(** Readers of items of a fixed width do not leave a payload that holds them. *)
Lemma read_items_fixed_no_panic bs w n off :
  (∀ o, (o + w ≤ length bs)%nat → read bs o ≠ Panic
        ∧ ∀ x o', read bs o = Ok (x, o') → o' = (o + w)%nat) →
  (off + n * w ≤ length bs)%nat → read_items (read bs) n off ≠ Panic.
Proof.
  intros Hr. revert off. induction n as [|n IH]; intros off H; cbn [read_items]; [done|].
  destruct (Hr off) as [Hp Ho]; [lia|].
  apply bind_no_panic; [done|]. intros [x o'] E. apply Ho in E as ->.
  apply bind_no_panic; [apply IH; lia|]. by intros [??] _.
Qed.

Lemma read_items_no_panic bs n off :
  (∀ o, read bs o ≠ Panic) → read_items (read bs) n off ≠ Panic.
Proof.
  intros Hr. revert off. induction n as [|n IH]; intros off; cbn [read_items]; [done|].
  apply bind_no_panic; [apply Hr|]. intros [??] _. apply bind_no_panic; [apply IH|]. by intros [??] _.
Qed.
End Items.

(** ** Primitive readers *)

Lemma take_u32_eq bs off :
  take_u32 bs off = map_err (λ _, size_err "u32 truncation") (read_u32_be bs off).
Proof.
  unfold take_u32, read_u32_be. destruct (Nat.ltb_spec (length bs) (off + 4));
    [by rewrite decide_True|by rewrite decide_False by lia].
Qed.

Lemma take_u32_ok bs off z rest :
  cursor bs off (to_be_bytes 4 z ++ rest) → in_u32 z →
  take_u32 bs off = Ok (z, off + 4)%nat ∧ cursor bs (off + 4) rest.
Proof. intros H Hz. rewrite take_u32_eq. by apply read_u32_ok in H as [-> H]. Qed.

Lemma take_u32_inv bs off z off' :
  take_u32 bs off = Ok (z, off') →
  in_u32 z ∧ off' = (off + 4)%nat ∧ drop off bs = to_be_bytes 4 z ++ drop off' bs ∧ (off' ≤ length bs)%nat.
Proof.
  unfold take_u32. destruct (Nat.ltb_spec (length bs) (off + 4)) as [|Hl]; [done|].
  destruct (read_u32_inv bs off Hl) as (z' & E & Ez & Hz).
  unfold read_u32_be in E. rewrite decide_False in E by lia. injection E as E.
  rewrite E. intros H. assert (z = z' ∧ off' = (off + 4)%nat) as [-> ->] by (split; congruence).
  split_and!; [done|done| |done]. rewrite Ez. pose proof (slice_app bs off 4 []) as Hs.
  by rewrite !app_nil_r in Hs.
Qed.

Lemma take_u32_no_panic bs off : take_u32 bs off ≠ Panic.
Proof. unfold take_u32. by destruct (_ <? _)%nat. Qed.

Lemma range_ok {E} bs off n x rest :
  cursor bs off (x ++ rest) → length x = n → range (E:=E) bs off n = Ok x.
Proof.
  intros H <-. unfold range. rewrite (cursor_slice _ _ _ _ H).
  rewrite (cursor_length _ _ _ H), length_app. by rewrite (proj2 (Nat.leb_le _ _)) by lia.
Qed.

Lemma range_inv {E} bs off n x :
  range (E:=E) bs off n = Ok x →
  length x = n ∧ drop off bs = x ++ drop (off + n) bs ∧ (off + n ≤ length bs)%nat.
Proof.
  unfold range. destruct (Nat.leb_spec (off + n) (length bs)) as [Hl|]; [|done]. intros <-%ok_inj.
  split_and!; [by apply slice_length| |done].
  pose proof (slice_app bs off n []) as Hs. by rewrite !app_nil_r in Hs.
Qed.

Lemma range_no_panic {E} bs off n : (off + n ≤ length bs)%nat → range (E:=E) bs off n ≠ Panic.
Proof. intros H. unfold range. by rewrite (proj2 (Nat.leb_le _ _)). Qed.

Lemma has_tag_cons tag b bs : has_tag (b :: bs) tag = Ok (byte_val b =? tag).
Proof. done. Qed.

(** A decoded integer re-encodes to its bytes. *)
Lemma to_from_be n x : length x = n → to_be_bytes n (from_be_bytes x) = x.
Proof. intros <-. apply to_from_be_bytes. Qed.

Lemma from_be_u32 x : length x = 4%nat → in_u32 (from_be_bytes x).
Proof. intros H. pose proof (from_be_bytes_range x) as Hr. by rewrite H in Hr. Qed.

Lemma cursor_tagged tag count body :
  cursor (tagged tag count body) 1 (to_be_bytes 4 count ++ body).
Proof. by exists [byte_of tag]. Qed.

Lemma length_tagged tag count body : length (tagged tag count body) = (5 + length body)%nat.
Proof. unfold tagged. cbn [length]. rewrite length_app, length_to_be_bytes. done. Qed.

Lemma has_tag_tagged tag count body :
  0 ≤ tag < two8 → has_tag (tagged tag count body) tag = Ok true.
Proof.
  intros Ht. unfold tagged. rewrite has_tag_cons, byte_val_of, Z.mod_small by done.
  by rewrite Z.eqb_refl.
Qed.

(** A payload that starts with [tag] and a count is the [tagged] of its parts. *)
Lemma tagged_eq bs b tag count :
  bs !! 0%nat = Some b → byte_val b = tag → drop 1 bs = to_be_bytes 4 count ++ drop 5 bs →
  bs = tagged tag count (drop 5 bs).
Proof.
  destruct bs as [|b' bs]; [done|]. intros [= ->] <- H. unfold tagged.
  rewrite byte_of_val. f_equal. exact H.
Qed.

Arguments tagged : simpl never.

(** Steps through the opening of a parser on a [tagged] payload. *)
Ltac open_tagged :=
  rewrite ?length_tagged; cbn [Nat.ltb Nat.leb Nat.eqb plus]; rewrite has_tag_tagged by done;
  cbn [mbind result_bind negb].

(** ** Instances *)

Section Instances.
Context `{HX : Hex, HXok : !HexOk, B3 : Blake3, B3ok : !Blake3Ok}.

#[export] Instance hash_item_codec : ItemCodec (λ h : list byte, h) is32 read_hash_item.
Proof.
  split. intros bs off x rest Hx H. unfold read_hash_item.
  rewrite (range_ok _ _ _ _ _ H Hx). cbn [mbind result_bind]. by rewrite Hx.
Qed.

#[export] Instance hash_item_canonical : ItemCanonical (λ h : list byte, h) is32 read_hash_item.
Proof.
  split. intros bs off x off' H. unfold read_hash_item in H.
  apply bind_ok_inv in H as (h & E & H). injection H as -> <-. by apply range_inv in E.
Qed.

Definition wf_item (i : InventoryItem) : Prop := is32 (it_hash i).

Lemma from_to_wire k : from_wire (byte_val (byte_of (to_wire k))) = Some k.
Proof. by destruct k. Qed.

Lemma to_from_wire b k : from_wire (byte_val b) = Some k → byte_of (to_wire k) = b.
Proof.
  intros H. rewrite <- (byte_of_val b). f_equal. unfold from_wire in H.
  destruct (Z.eqb_spec (byte_val b) 1); [by injection H as <-|].
  destruct (Z.eqb_spec (byte_val b) 2); [by injection H as <-|done].
Qed.

#[export] Instance inv_item_codec what : ItemCodec encode_item wf_item (read_inv_item what).
Proof.
  split. intros bs off [k h] rest Hx H. unfold read_inv_item, encode_item in *. cbn in Hx, H |- *.
  unfold wf_item in Hx. cbn in Hx. apply cursor_byte in H as [E H]. unfold byte_at. rewrite E.
  cbn [expect mbind result_bind]. rewrite from_to_wire. cbn [ok_or mbind result_bind].
  rewrite (range_ok _ _ _ _ _ H Hx). cbn [mbind result_bind]. rewrite Hx. f_equal. f_equal. lia.
Qed.

#[export] Instance inv_item_canonical what : ItemCanonical encode_item wf_item (read_inv_item what).
Proof.
  split. intros bs off [k h] off' H. unfold read_inv_item, byte_at in H.
  apply bind_ok_inv in H as (b & Eb & H). destruct (bs !! off) as [b'|] eqn:El; [|done].
  injection Eb as ->. apply bind_ok_inv in H as (k' & Ek & H).
  destruct (from_wire (byte_val b)) as [k''|] eqn:Ew; [|done]. injection Ek as ->.
  apply bind_ok_inv in H as (h' & Eh & H). injection H as -> -> <-.
  apply range_inv in Eh as (Hl & Ed & Hb). split_and!; [done| |done].
  unfold encode_item. cbn [it_kind it_hash]. rewrite (drop_S _ _ _ El), (to_from_wire b k) by done.
  cbn [app]. f_equal. rewrite <- Ed. f_equal. lia.
Qed.

(** The wire form of a header; empty for one that does not serialize. *)
Definition header_item (h : BlockHeader) : list byte :=
  match serialize_header (E:=string) h with Ok bs => write_bytes bs | _ => [] end.

Lemma serialize_header_result {E F} h bs :
  serialize_header (E:=E) h = Ok bs → serialize_header (E:=F) h = Ok bs.
Proof.
  unfold serialize_header, write_bytes32. destruct (hex_decode (h_previous_hash h)); [|done].
  cbn [expect mbind result_bind]. case_decide; [|done]. cbn [mbind result_bind].
  destruct (hex_decode (h_target h)); [|done].
  cbn [expect mbind result_bind]. case_decide; [|done]. intros <-%ok_inj. done.
Qed.

Lemma header_item_wf h : wf_header h →
  ∃ bs, serialize_header (E:=string) h = Ok bs ∧ header_item h = write_bytes bs
    ∧ length bs = HEADER_WIRE_LEN ∧ deserialize_header bs = Ok h.
Proof.
  intros Hwf. destruct (deserialize_header_ok h Hwf) as (bs & Es & Hl & Ed).
  exists bs. unfold header_item. by rewrite Es.
Qed.

#[export] Instance header_item_codec : ItemCodec header_item wf_header read_header_item.
Proof.
  split. intros bs off h rest Hwf H. destruct (header_item_wf h Hwf) as (hb & Es & Ei & Hl & Ed).
  rewrite Ei in H |- *. unfold write_bytes in H |- *. rewrite <- app_assoc in H.
  apply take_u32_ok in H as [E H]; [|rewrite Hl; done].
  unfold read_header_item. rewrite E. cbn [mbind result_bind].
  pose proof (cursor_length _ _ _ H) as Hbs. rewrite length_app in Hbs.
  rewrite Hl, Z.eqb_refl. cbn [negb orb]. rewrite Nat2Z.id.
  unfold lenZ. rewrite (proj2 (Z.ltb_ge _ _)) by lia.
  rewrite (range_ok _ _ _ _ _ H Hl). cbn [mbind result_bind]. rewrite Ed. cbn [map_err mbind result_bind].
  rewrite length_app, length_to_be_bytes, Hl. f_equal. f_equal. lia.
Qed.

#[export] Instance header_item_canonical : ItemCanonical header_item wf_header read_header_item.
Proof.
  split. intros bs off h off' H. unfold read_header_item in H.
  apply bind_ok_inv in H as ([len o1] & E & H). apply take_u32_inv in E as (Hlen & -> & Ed & Hb).
  destruct (Z.eqb_spec len (Z.of_nat HEADER_WIRE_LEN)) as [->|]; [|done]. cbn [negb orb] in H.
  rewrite Nat2Z.id in H. destruct (_ <? _); [done|].
  apply bind_ok_inv in H as (hb & Er & H). apply range_inv in Er as (Hl & Ed2 & Hb2).
  apply bind_ok_inv in H as (h' & Eh & H). injection H as -> <-.
  destruct (deserialize_header_cases hb) as [[e E]|(h' & E & Hwf & Es)]; rewrite E in Eh; [done|].
  injection Eh as ->. split_and!; [done| |done].
  unfold header_item. rewrite Es. unfold write_bytes. by rewrite Hl, <- app_assoc, <- Ed2.
Qed.

(** ADDR entries: what [SocketAddr::new] builds. *)
Definition wf_sock (a : SocketAddr) : Prop :=
  0 ≤ sock_port a < 65536 ∧
  match a with
  | SockV4 o _ => length o = 4%nat
  | SockV6 o _ f s => length o = 16%nat ∧ f = 0 ∧ s = 0
  end.
Definition wf_addr_entry (e : AddrEntry) : Prop := is32 (ae_node_id e) ∧ wf_sock (ae_addr e).
#[export] Instance wf_addr_entry_dec e : Decision (wf_addr_entry e).
Proof. unfold wf_addr_entry, wf_sock, is32. destruct (ae_addr e); apply _. Defined.

Lemma from_to_be_u16 z : 0 ≤ z < 65536 → from_be_bytes (to_be_bytes 2 z) = z.
Proof. intros. rewrite from_to_be_bytes. by apply Z.mod_small. Qed.

Lemma read_ip_ok bs off a rest : wf_sock a → cursor bs off (sock_octets a ++ rest) →
  read_ip bs (byte_val (byte_of (match a with SockV4 _ _ => 4 | SockV6 _ _ _ _ => 6 end))) off
  = Ok (λ port, match a with SockV4 o _ => SockV4 o port | SockV6 o _ _ _ => SockV6 o port 0 0 end,
        (off + length (sock_octets a))%nat).
Proof.
  intros [_ Hwf] H. pose proof (cursor_length _ _ _ H) as Hl. rewrite length_app in Hl.
  unfold read_ip. destruct a as [o p|o p f s]; cbn [sock_octets] in *.
  - change (byte_val (byte_of 4) =? 4) with true. cbn [sock_octets].
    rewrite (proj2 (Nat.ltb_ge _ _)) by lia. rewrite (range_ok _ _ _ _ _ H Hwf). by rewrite Hwf.
  - destruct Hwf as (Hwf & -> & ->). change (byte_val (byte_of 6) =? 4) with false.
    change (byte_val (byte_of 6) =? 6) with true. cbn [sock_octets].
    rewrite (proj2 (Nat.ltb_ge _ _)) by lia. rewrite (range_ok _ _ _ _ _ H Hwf). by rewrite Hwf.
Qed.

#[export] Instance addr_entry_codec : ItemCodec encode_addr_entry wf_addr_entry read_addr_entry.
Proof.
  split. intros bs off [nid a] rest [Hn Ha] H. unfold encode_addr_entry in *. cbn [ae_node_id ae_addr] in *.
  cbn [app] in H. rewrite <- !app_assoc in H. apply cursor_byte in H as [E H].
  unfold read_addr_entry, byte_at. rewrite E. cbn [expect mbind result_bind].
  rewrite (read_ip_ok _ _ _ _ Ha H). cbn [mbind result_bind]. apply cursor_app in H.
  pose proof (cursor_length _ _ _ H) as Hl. rewrite !length_app, length_to_be_bytes, Hn in Hl.
  rewrite (proj2 (Nat.ltb_ge _ _)) by lia.
  rewrite (range_ok _ _ _ _ _ H) by apply length_to_be_bytes. cbn [mbind result_bind].
  apply cursor_app in H. rewrite length_to_be_bytes in H. rewrite (proj2 (Nat.ltb_ge _ _)) by lia.
  rewrite (range_ok _ _ _ _ _ H Hn). cbn [mbind result_bind]. rewrite from_to_be_u16 by apply Ha.
  f_equal. f_equal.
  - f_equal. destruct a as [o p|o p f s]; [done|]. destruct Ha as (_ & _ & -> & ->). done.
  - cbn [length]. rewrite !length_app, length_to_be_bytes, Hn. lia.
Qed.

Lemma read_ip_inv bs fam off ip off' p :
  read_ip bs (byte_val fam) off = Ok (ip, off') → 0 ≤ p < 65536 →
  wf_sock (ip p) ∧ byte_of (match ip p with SockV4 _ _ => 4 | SockV6 _ _ _ _ => 6 end) = fam
  ∧ drop off bs = sock_octets (ip p) ++ drop off' bs ∧ sock_port (ip p) = p.
Proof.
  intros H Hp. unfold read_ip in H.
  destruct (Z.eqb_spec (byte_val fam) 4) as [E4|]; [|destruct (Z.eqb_spec (byte_val fam) 6) as [E6|]; [|done]].
  - destruct (_ <? _)%nat; [done|]. apply bind_ok_inv in H as (o & Er & H). injection H as <- <-.
    apply range_inv in Er as (Hl & Ed & _). rewrite <- (byte_of_val fam), E4. by split_and!.
  - destruct (_ <? _)%nat; [done|]. apply bind_ok_inv in H as (o & Er & H). injection H as <- <-.
    apply range_inv in Er as (Hl & Ed & _). rewrite <- (byte_of_val fam), E6. by split_and!.
Qed.

#[export] Instance addr_entry_canonical : ItemCanonical encode_addr_entry wf_addr_entry read_addr_entry.
Proof.
  split. intros bs off e off' H. unfold read_addr_entry, byte_at in H.
  apply bind_ok_inv in H as (fam & Ef & H). destruct (bs !! off) as [b|] eqn:El; [|done].
  injection Ef as ->. apply bind_ok_inv in H as ([ip o1] & Ei & H).
  destruct (_ <? _)%nat; [done|]. apply bind_ok_inv in H as (port & Ep & H).
  destruct (_ <? _)%nat; [done|]. apply bind_ok_inv in H as (nid & En & H).
  apply range_inv in Ep as (Hpl & Epd & _). apply range_inv in En as (Hnl & End & Hb).
  pose proof (from_be_bytes_range port) as Hpr. rewrite Hpl in Hpr.
  destruct (read_ip_inv _ _ _ _ _ (from_be_bytes port) Ei Hpr) as (Hs & Hf & Hd & Hsp).
  injection H as <- <-. split_and!; [done| |done].
  unfold encode_addr_entry. cbn [ae_node_id ae_addr]. rewrite (drop_S _ _ _ El), Hf, Hsp, to_from_be by done.
  cbn [app]. f_equal. rewrite <- !app_assoc, <- End, <- Epd, <- Hd. f_equal. lia.
Qed.

(** Block bodies: one direction only, the coinbase flag of a transaction has
    several encodings. *)
Definition block_item (b : Block) : list byte :=
  match serialize_block (E:=string) b with Ok bs => write_bytes bs | _ => [] end.
Definition fits_block (b : Block) : Prop :=
  match serialize_block (E:=string) b with Ok bs => lenZ bs ≤ MAX_BLOCK_SIZE | _ => True end.

#[export] Instance block_item_codec :
  ItemCodec block_item (λ b, wf_block b ∧ fits_block b) read_block_item.
Proof.
  split. intros bs off b rest [Hwf Hfit] H. destruct (deserialize_block_ok b Hwf) as (bb & Es & Ed).
  unfold block_item, fits_block in *. rewrite Es in *. unfold write_bytes in *. rewrite <- app_assoc in H.
  assert (in_u32 (Z.of_nat (length bb))) by (unfold in_u32, lenZ, MAX_BLOCK_SIZE in *; lia).
  apply take_u32_ok in H as [E H]; [|done].
  unfold read_block_item. rewrite E. cbn [mbind result_bind].
  pose proof (cursor_length _ _ _ H) as Hbs. rewrite length_app in Hbs. unfold lenZ in *.
  rewrite (proj2 (Z.ltb_ge _ _) Hfit). cbn [orb]. rewrite (proj2 (Z.ltb_ge _ _)) by lia.
  rewrite Nat2Z.id, (range_ok _ _ _ _ _ H) by done. cbn [mbind result_bind]. rewrite Ed.
  cbn [map_err mbind result_bind]. rewrite length_app, length_to_be_bytes. f_equal. f_equal. lia.
Qed.
End Instances.

(** ** Whole messages *)

Lemma drop_all_nil {A} (l : list A) : drop (length l) l = [].
Proof. by apply drop_ge. Qed.

Lemma length_concat_fixed {A} (enc : A → list byte) w xs :
  Forall (λ x, length (enc x) = w) xs → length (concat (enc <$> xs)) = (w * length xs)%nat.
Proof.
  induction 1 as [|x xs Hx _ IH]; cbn [fmap list_fmap concat length]; [lia|].
  rewrite length_app, Hx. cbn in IH. lia.
Qed.

Section Messages.
Context `{HX : Hex, HXok : !HexOk, B3 : Blake3, B3ok : !Blake3Ok}.

(** The opening shared by the parsers that read the count with [range]. *)
Lemma open_range_inv bs tag (ok : bool) count_bytes :
  has_tag bs tag = Ok ok → ok = true → range (E:=NetError) bs 1 4 = Ok count_bytes →
  bs = tagged tag (from_be_bytes count_bytes) (drop 5 bs) ∧ in_u32 (from_be_bytes count_bytes).
Proof.
  intros Ht -> Hr. unfold has_tag, byte_at in Ht. destruct (bs !! 0%nat) as [b|] eqn:Eb; [|done].
  apply range_inv in Hr as (Hl & Ed & _). split; [|by apply from_be_u32].
  apply (tagged_eq _ b); [done| |by rewrite to_from_be].
  cbn in Ht. injection Ht as Ht. by apply Z.eqb_eq.
Qed.

Lemma open_take_inv bs tag (ok : bool) count off :
  has_tag bs tag = Ok ok → ok = true → take_u32 bs 1 = Ok (count, off) →
  bs = tagged tag count (drop 5 bs) ∧ in_u32 count ∧ off = 5%nat ∧ (5 ≤ length bs)%nat.
Proof.
  intros Ht -> Hr. unfold has_tag, byte_at in Ht. destruct (bs !! 0%nat) as [b|] eqn:Eb; [|done].
  apply take_u32_inv in Hr as (Hc & -> & Ed & Hl). split_and!; [|done..].
  apply (tagged_eq _ b); [done| |done]. cbn in Ht. injection Ht as Ht. by apply Z.eqb_eq.
Qed.

Lemma take_u32_tagged tag count body : in_u32 count →
  take_u32 (tagged tag count body) 1 = Ok (count, 5%nat) ∧ cursor (tagged tag count body) 5 body.
Proof. intros Hc. by apply take_u32_ok; [apply cursor_tagged|]. Qed.

Lemma range_tagged {E} tag count body :
  range (E:=E) (tagged tag count body) 1 4 = Ok (to_be_bytes 4 count)
  ∧ cursor (tagged tag count body) 5 body.
Proof.
  split.
  - apply (range_ok _ _ _ _ body); [apply cursor_tagged|apply length_to_be_bytes].
  - pose proof (cursor_app _ _ _ _ (cursor_tagged tag count body)) as H.
    by rewrite length_to_be_bytes in H.
Qed.

Lemma cursor_nil_r bs off x : cursor bs off x → cursor bs off (x ++ []).
Proof. by rewrite app_nil_r. Qed.

(** A payload whose remainder is exactly its items. *)
Lemma parse_items_exact {A} (enc : A → list byte) wf read `{!ItemCodec enc wf read} tag count xs :
  Forall wf xs →
  read_items (read (tagged tag count (concat (enc <$> xs)))) (length xs) 5
  = Ok (xs, length (tagged tag count (concat (enc <$> xs)))).
Proof.
  intros Hwf. rewrite (read_items_ok enc wf read _ xs 5 []); [|done|].
  - by rewrite length_tagged.
  - apply cursor_nil_r, (range_tagged (E:=NetError)).
Qed.

Lemma get_headers_iff bs h :
  parse_get_headers bs = Ok h ↔ in_u64 h ∧ bs = encode_get_headers h.
Proof.
  split.
  - unfold parse_get_headers. destruct (Nat.eqb_spec (length bs) 9) as [Hl|]; [|done]. cbn [negb].
    destruct bs as [|b bs]; [done|]. rewrite has_tag_cons. cbn [mbind result_bind].
    destruct (Z.eqb_spec (byte_val b) MSG_GET_HEADERS) as [Hb|]; [|done]. cbn [negb].
    unfold take_u64. rewrite (proj2 (Nat.ltb_ge _ _)) by (rewrite Hl; lia). cbn [mbind result_bind].
    intros <-%ok_inj. cbn [length] in Hl. unfold slice. change (drop 1 (b :: bs)) with (drop 0 bs).
    rewrite drop_0, take_ge by lia.
    pose proof (from_be_bytes_range bs) as Hr. replace (length bs) with 8%nat in Hr by lia.
    split; [done|]. unfold encode_get_headers. rewrite <- Hb, byte_of_val. f_equal.
    symmetry. apply to_from_be. lia.
  - intros [Hh ->]. unfold parse_get_headers, encode_get_headers. cbn [length].
    rewrite length_to_be_bytes. cbn [Nat.eqb negb]. rewrite has_tag_cons. cbn [mbind result_bind].
    change (byte_val (byte_of MSG_GET_HEADERS) =? MSG_GET_HEADERS) with true. cbn [negb].
    unfold take_u64. cbn [length]. rewrite length_to_be_bytes. cbn [Nat.ltb Nat.leb plus mbind result_bind].
    unfold slice. change (drop 1 (byte_of MSG_GET_HEADERS :: to_be_bytes 8 h)) with (to_be_bytes 8 h).
    rewrite take_ge by (rewrite length_to_be_bytes; lia).
    by rewrite from_to_be_u64.
Qed.

Lemma get_blocks_iff bs hs :
  parse_get_blocks bs = Ok hs ↔ Forall is32 hs ∧ encode_get_blocks hs = Ok bs.
Proof.
  split.
  - unfold parse_get_blocks. destruct (_ <? 5)%nat; [done|]. intros H.
    apply bind_ok_inv in H as (ok & Ht & H). destruct ok; [|done]. cbn [negb] in H.
    apply bind_ok_inv in H as ([count off] & Hc & H).
    destruct (open_take_inv _ _ _ _ _ Ht eq_refl Hc) as (Eb & Hu & -> & Hlen).
    destruct (Z.ltb_spec MAX_BLOCKS_BATCH count) as [|Hmax]; [done|].
    destruct (Z.eqb_spec (count * 32) (lenZ bs - Z.of_nat 5)) as [Hsz|]; [|done]. cbn [negb] in H.
    apply bind_ok_inv in H as ([hs' off'] & Hr & H). injection H as ->.
    apply (read_items_inv _ _ _) in Hr as (Hn & Hwf & Hd & Hle); [|done]. rewrite list_fmap_id in Hd.
    assert (length (concat hs) = (32 * length hs)%nat) as Hcl
      by (rewrite <- (list_fmap_id hs) at 1; by apply length_concat_fixed).
    unfold in_u32, lenZ in *.
    assert (drop off' bs = []) as Hnil.
    { apply (f_equal length) in Hd. rewrite length_app, length_drop, Hcl in Hd.
      apply nil_length_inv. lia. }
    split; [done|]. unfold encode_get_blocks. rewrite Hnil, app_nil_r in Hd. rewrite Hd in Eb.
    unfold lenZ. replace (Z.of_nat (length hs)) with count by lia.
    rewrite (proj2 (Z.ltb_ge _ _) Hmax). by rewrite <- Eb.
  - unfold encode_get_blocks. intros [Hwf H].
    destruct (Z.ltb_spec MAX_BLOCKS_BATCH (lenZ hs)) as [|Hmax]; [done|].
    assert (in_u32 (lenZ hs)) by (unfold in_u32, lenZ, MAX_BLOCKS_BATCH in *; lia).
    apply ok_inj in H as <-. unfold parse_get_blocks. open_tagged.
    rewrite (proj1 (take_u32_tagged _ _ _ H0)). cbn [mbind result_bind].
    rewrite (proj2 (Z.ltb_ge _ _) Hmax). unfold lenZ in *. rewrite length_tagged, Nat2Z.id.
    assert (length (concat hs) = (32 * length hs)%nat) as Hcl
      by (rewrite <- (list_fmap_id hs) at 1; by apply length_concat_fixed).
    rewrite Hcl. rewrite (proj2 (Z.eqb_eq _ _)) by lia. cbn [negb].
    rewrite <- (list_fmap_id hs) at 2.
    rewrite (parse_items_exact (λ h, h) is32 read_hash_item) by done. done.
Qed.

Lemma inv_items_iff tag what bs items :
  0 ≤ tag < two8 →
  parse_inv_items tag bs what = Ok items ↔ Forall wf_item items ∧ encode_inv_items tag items = Ok bs.
Proof.
  intros Htag. assert (∀ xs, Forall wf_item xs → length (concat (encode_item <$> xs)) = (33 * length xs)%nat) as Hcl.
  { intros xs Hx. apply length_concat_fixed. eapply Forall_impl; [done|].
    intros x Hi. unfold encode_item. cbn [length]. by rewrite Hi. }
  split.
  - unfold parse_inv_items. cbv zeta. destruct (_ <? 5)%nat eqn:E5; [done|]. intros H.
    apply Nat.ltb_ge in E5. apply bind_ok_inv in H as (ok & Ht & H). destruct ok; [|done]. cbn [negb] in H.
    apply bind_ok_inv in H as (cb & Hc & H).
    destruct (open_range_inv _ _ _ _ Ht eq_refl Hc) as (Eb & Hu).
    destruct (Z.ltb_spec MAX_INV_BATCH (from_be_bytes cb)) as [|Hmax]; [done|].
    destruct (Z.eqb_spec (from_be_bytes cb * INV_ITEM_WIRE_LEN) (lenZ bs - 5)) as [Hsz|]; [|done].
    cbn [negb] in H. apply bind_ok_inv in H as ([xs off'] & Hr & H). injection H as ->.
    apply (read_items_inv encode_item wf_item _) in Hr as (Hn & Hwf & Hd & Hle); [|done].
    unfold in_u32, lenZ, INV_ITEM_WIRE_LEN in *.
    assert (drop off' bs = []) as Hnil.
    { apply (f_equal length) in Hd. rewrite length_app, length_drop, Hcl in Hd by done.
      apply nil_length_inv. lia. }
    split; [done|]. unfold encode_inv_items. rewrite Hnil, app_nil_r in Hd. rewrite Hd in Eb.
    unfold lenZ. replace (Z.of_nat (length items)) with (from_be_bytes cb) by lia.
    rewrite (proj2 (Z.ltb_ge _ _) Hmax). by rewrite <- Eb.
  - unfold encode_inv_items. intros [Hwf H].
    destruct (Z.ltb_spec MAX_INV_BATCH (lenZ items)) as [|Hmax]; [done|].
    assert (in_u32 (lenZ items)) as Hu by (unfold in_u32, lenZ, MAX_INV_BATCH in *; lia).
    apply ok_inj in H as <-. unfold parse_inv_items. cbv zeta. open_tagged.
    rewrite (proj1 (range_tagged _ _ _)). cbn [mbind result_bind]. rewrite from_to_be_u32 by done.
    rewrite (proj2 (Z.ltb_ge _ _) Hmax). unfold lenZ in *. rewrite length_tagged, Nat2Z.id, Hcl by done.
    unfold INV_ITEM_WIRE_LEN. rewrite (proj2 (Z.eqb_eq _ _)) by lia. cbn [negb].
    rewrite (parse_items_exact encode_item wf_item (read_inv_item what)) by done. done.
Qed.

(** Encoders of items that serialize. *)
Lemma mapM_items {A} (f : A → result NetError (list byte)) (enc : A → list byte) xs :
  Forall (λ x, f x = Ok (enc x)) xs → mapM_result f xs = Ok (enc <$> xs).
Proof. induction 1 as [|x xs Hx _ IH]; cbn; [done|]. rewrite Hx. cbn. by rewrite IH. Qed.

Lemma encode_header_item h : wf_header h →
  (bytes ← serialize_header (E:=NetError) h; Ok (write_bytes bytes)) = Ok (header_item h).
Proof.
  intros Hwf. destruct (header_item_wf h Hwf) as (bs & Es & Ei & _).
  by rewrite (serialize_header_result _ _ Es), Ei.
Qed.

Lemma length_header_item h : wf_header h → length (header_item h) = (4 + HEADER_WIRE_LEN)%nat.
Proof.
  intros Hwf. destruct (header_item_wf h Hwf) as (bs & _ & -> & Hl & _).
  unfold write_bytes. by rewrite length_app, length_to_be_bytes, Hl.
Qed.

Lemma length_header_items hs : Forall wf_header hs →
  length (concat (header_item <$> hs)) = ((4 + HEADER_WIRE_LEN) * length hs)%nat.
Proof.
  intros Hwf. apply length_concat_fixed. eapply Forall_impl; [done|]. apply length_header_item.
Qed.

Lemma headers_iff bs hs :
  parse_headers bs = Ok hs ↔ Forall wf_header hs ∧ encode_headers hs = Ok bs.
Proof.
  split.
  - unfold parse_headers. destruct (_ =? 0)%nat; [done|]. intros H.
    apply bind_ok_inv in H as (ok & Ht & H). destruct ok; [|done]. cbn [negb] in H.
    apply bind_ok_inv in H as ([count off] & Hc & H).
    destruct (open_take_inv _ _ _ _ _ Ht eq_refl Hc) as (Eb & Hu & -> & Hlen).
    destruct (Z.ltb_spec MAX_HEADERS_BATCH count) as [|Hmax]; [done|]. destruct (_ <? count); [done|].
    apply bind_ok_inv in H as ([xs off'] & Hr & H).
    apply (read_items_inv header_item wf_header _) in Hr as (Hn & Hwf & Hd & Hle); [|done].
    destruct (Nat.eqb_spec off' (length bs)) as [->|]; [|done]. injection H as ->.
    rewrite drop_all_nil, app_nil_r in Hd. split; [done|]. unfold in_u32 in Hu.
    unfold encode_headers, lenZ. replace (Z.of_nat (length hs)) with count by lia.
    rewrite (proj2 (Z.ltb_ge _ _) Hmax), (mapM_items _ header_item).
    2: { eapply Forall_impl; [done|]. apply encode_header_item. }
    cbn [mbind result_bind]. rewrite Hd in Eb. rewrite <- Eb.
    rewrite (proj2 (Z.ltb_ge _ _)); [done|]. rewrite Eb, length_tagged, length_header_items by done.
    unfold MAX_HEADERS_BATCH, MAX_MESSAGE_SIZE, HEADER_WIRE_LEN in *. lia.
  - unfold encode_headers. intros [Hwf H].
    destruct (Z.ltb_spec MAX_HEADERS_BATCH (lenZ hs)) as [|Hmax]; [done|].
    rewrite (mapM_items _ header_item) in H.
    2: { eapply Forall_impl; [done|]. apply encode_header_item. }
    cbn [mbind result_bind] in H. destruct (_ <? _); [done|]. apply ok_inj in H as <-.
    assert (in_u32 (lenZ hs)) as Hu by (unfold in_u32, lenZ, MAX_HEADERS_BATCH in *; lia).
    unfold parse_headers. open_tagged.
    rewrite (proj1 (take_u32_tagged _ _ _ Hu)). cbn [mbind result_bind].
    rewrite (proj2 (Z.ltb_ge _ _) Hmax). unfold lenZ in *. rewrite length_tagged, Nat2Z.id.
    rewrite length_header_items by done.
    rewrite (proj2 (Z.ltb_ge _ _)) by (apply Z.div_le_lower_bound; lia).
    rewrite (parse_items_exact header_item wf_header read_header_item) by done. cbn [mbind result_bind].
    rewrite length_tagged, length_header_items, Nat.eqb_refl by done. done.
Qed.

Lemma length_addr_entry e : wf_addr_entry e → (39 ≤ length (encode_addr_entry e))%nat.
Proof.
  intros [Hn [_ Ha]]. unfold encode_addr_entry. cbn [length]. rewrite !length_app, length_to_be_bytes, Hn.
  destruct (ae_addr e); cbn [sock_octets]; lia.
Qed.

Lemma length_addr_entries es : Forall wf_addr_entry es →
  (39 * length es ≤ length (concat (encode_addr_entry <$> es)))%nat.
Proof.
  induction 1 as [|e es He _ IH]; cbn [fmap list_fmap concat length]; [lia|].
  rewrite length_app. apply length_addr_entry in He. cbn in IH. lia.
Qed.

Lemma addr_iff bs es :
  parse_addr bs = Ok es ↔ Forall wf_addr_entry es ∧ encode_addr es = Ok bs.
Proof.
  split.
  - unfold parse_addr. cbv zeta. destruct (_ <? 5)%nat eqn:E5; [done|]. intros H.
    apply Nat.ltb_ge in E5. apply bind_ok_inv in H as (ok & Ht & H). destruct ok; [|done]. cbn [negb] in H.
    apply bind_ok_inv in H as (cb & Hc & H).
    destruct (open_range_inv _ _ _ _ Ht eq_refl Hc) as (Eb & Hu).
    destruct (Z.ltb_spec MAX_ADDR_ENTRIES (from_be_bytes cb)) as [|Hmax]; [done|]. destruct (_ <? _); [done|].
    apply bind_ok_inv in H as ([xs off'] & Hr & H).
    apply (read_items_inv encode_addr_entry wf_addr_entry _) in Hr as (Hn & Hwf & Hd & Hle); [|done].
    destruct (Nat.eqb_spec off' (length bs)) as [->|]; [|done]. injection H as ->.
    rewrite drop_all_nil, app_nil_r in Hd. split; [done|]. unfold in_u32 in Hu.
    unfold encode_addr, lenZ. replace (Z.of_nat (length es)) with (from_be_bytes cb) by lia.
    rewrite (proj2 (Z.ltb_ge _ _) Hmax). rewrite Hd in Eb. by rewrite <- Eb.
  - unfold encode_addr. intros [Hwf H].
    destruct (Z.ltb_spec MAX_ADDR_ENTRIES (lenZ es)) as [|Hmax]; [done|].
    assert (in_u32 (lenZ es)) as Hu by (unfold in_u32, lenZ, MAX_ADDR_ENTRIES in *; lia).
    apply ok_inj in H as <-. unfold parse_addr. cbv zeta. open_tagged.
    rewrite (proj1 (range_tagged _ _ _)). cbn [mbind result_bind]. rewrite from_to_be_u32 by done.
    rewrite (proj2 (Z.ltb_ge _ _) Hmax). unfold lenZ in *. rewrite length_tagged, Nat2Z.id.
    pose proof (length_addr_entries es Hwf) as Hml. unfold MIN_ENTRY_WIRE_LEN.
    rewrite (proj2 (Z.ltb_ge _ _)) by lia.
    rewrite (parse_items_exact encode_addr_entry wf_addr_entry read_addr_entry) by done.
    cbn [mbind result_bind]. by rewrite length_tagged, Nat.eqb_refl.
Qed.

Definition wf_hello (h : Hello) : Prop :=
  in_u32 (hl_version h) ∧ in_u32 (hl_network_id h) ∧ in_u32 (hl_capabilities h) ∧ in_u64 (hl_height h).

Lemma hello_iff bs h : hello_decode bs = Ok h ↔ wf_hello h ∧ hello_encode h = bs.
Proof.
  split.
  - unfold hello_decode. destruct (Nat.eqb_spec (length bs) HELLO_WIRE_LEN) as [Hl|]; [|done]. cbn [negb].
    intros H. unfold HELLO_WIRE_LEN in Hl.
    apply bind_ok_inv in H as (hb & E4 & H). apply bind_ok_inv in H as (vb & E1 & H).
    apply bind_ok_inv in H as (nb & E2 & H). apply bind_ok_inv in H as (cb & E3 & H).
    apply range_inv in E1 as (L1 & D1 & _). apply range_inv in E2 as (L2 & D2 & _).
    apply range_inv in E3 as (L3 & D3 & _). apply range_inv in E4 as (L4 & D4 & _).
    apply ok_inj in H as <-. split.
    + unfold wf_hello. cbn [hl_version hl_network_id hl_capabilities hl_height].
      split_and!; [by apply from_be_u32..|].
      pose proof (from_be_bytes_range hb) as Hr. by rewrite L4 in Hr.
    + unfold hello_encode. cbn [hl_version hl_network_id hl_capabilities hl_height].
      rewrite !to_from_be by done. rewrite drop_0 in D1. rewrite D1. f_equal.
      cbn [plus] in D2, D3, D4 |- *. rewrite D2. f_equal. rewrite D3. f_equal. rewrite D4, (drop_ge bs) by lia.
      by rewrite app_nil_r.
  - intros ((H1 & H2 & H3 & H4) & <-). unfold hello_decode.
    pose proof (cursor_start (hello_encode h)) as C1. unfold hello_encode in C1 at 2.
    pose proof (cursor_app _ _ _ _ C1) as C2. pose proof (cursor_app _ _ _ _ C2) as C3.
    pose proof (cursor_app _ _ _ _ C3) as C4. rewrite !length_to_be_bytes in *. cbn [plus] in *.
    rewrite <- (app_nil_r (to_be_bytes 8 _)) in C4.
    assert (length (hello_encode h) = 20%nat) as Hl
      by (unfold hello_encode; by rewrite !length_app, !length_to_be_bytes).
    rewrite Hl. cbn [Nat.eqb HELLO_WIRE_LEN negb].
    rewrite (range_ok _ _ _ _ _ C4), (range_ok _ _ _ _ _ C1), (range_ok _ _ _ _ _ C2),
      (range_ok _ _ _ _ _ C3) by apply length_to_be_bytes.
    cbn [mbind result_bind]. rewrite from_to_be_u64, !from_to_be_u32 by done. by destruct h.
Qed.

Lemma blocks_ok blocks bs :
  Forall wf_block blocks → encode_blocks blocks = Ok bs → parse_blocks bs = Ok blocks.
Proof.
  intros Hwf. unfold encode_blocks.
  destruct (Z.ltb_spec MAX_BLOCKS_BATCH (lenZ blocks)) as [|Hmax]; [done|]. intros H.
  apply bind_ok_inv in H as (items & Hm & H). destruct (_ <? _); [done|]. apply ok_inj in H as <-.
  assert (items = block_item <$> blocks ∧ Forall (λ b, wf_block b ∧ fits_block b) blocks
          ∧ (4 * length blocks ≤ length (concat items))%nat) as (-> & Hall & Hlen).
  { clear Hmax. revert items Hm. induction Hwf as [|b blocks Hb _ IH]; cbn [mapM_result]; intros items Hm.
    { by injection Hm as <-. }
    apply bind_ok_inv in Hm as (it & Hi & Hm). apply bind_ok_inv in Hm as (its & Hm & Hit).
    injection Hit as <-. apply IH in Hm as (-> & Hf & Hl). clear IH.
    destruct (deserialize_block_ok b Hb) as (bb & Es & _).
    assert (serialize_block (E:=NetError) b = Ok bb) as Es'.
    { unfold serialize_block, serialize_block_header in *. apply bind_ok_inv in Es as (hb & Eh & Es).
      rewrite (serialize_header_result _ _ Eh). cbn [mbind result_bind]. by apply ok_inj in Es as <-. }
    unfold encode_block_item in Hi. rewrite Es' in Hi. cbn [mbind result_bind] in Hi.
    destruct (Z.ltb_spec MAX_BLOCK_SIZE (lenZ bb)); [done|]. apply ok_inj in Hi as <-.
    assert (block_item b = write_bytes bb) as Eb by (unfold block_item; by rewrite Es).
    cbn [fmap list_fmap concat length]. rewrite Eb. split_and!; [done| |].
    - constructor; [|done]. split; [done|]. unfold fits_block. by rewrite Es.
    - rewrite length_app. unfold write_bytes at 1. rewrite length_app, length_to_be_bytes. cbn in Hl. lia. }
  assert (in_u32 (lenZ blocks)) as Hu by (unfold in_u32, lenZ, MAX_BLOCKS_BATCH in *; lia).
  unfold parse_blocks. open_tagged.
  rewrite (proj1 (take_u32_tagged _ _ _ Hu)). cbn [mbind result_bind].
  rewrite (proj2 (Z.ltb_ge _ _) Hmax). unfold lenZ in *. rewrite length_tagged, Nat2Z.id.
  rewrite (proj2 (Z.ltb_ge _ _)) by (apply Z.div_le_lower_bound; lia).
  rewrite (parse_items_exact block_item (λ b, wf_block b ∧ fits_block b) read_block_item) by done.
  cbn [mbind result_bind]. by rewrite length_tagged, Nat.eqb_refl.
Qed.

Lemma tx_ok tx bs : wf_tx tx → encode_tx tx = Ok bs → parse_tx bs = Ok tx.
Proof.
  intros Hwf. unfold encode_tx. cbv zeta.
  destruct (Z.ltb_spec MAX_TX_SIZE (lenZ (serialize_transaction_signed tx))) as [|Hmax]; [done|].
  intros <-%ok_inj. unfold parse_tx. cbv zeta. open_tagged.
  rewrite (proj1 (range_tagged _ _ _)). cbn [mbind result_bind].
  rewrite from_to_be_u32 by (unfold in_u32, lenZ, MAX_TX_SIZE in *; lia).
  rewrite (proj2 (Z.ltb_ge _ _) Hmax). unfold lenZ. rewrite length_tagged.
  rewrite (proj2 (Z.eqb_eq _ _)) by lia. cbn [negb].
  rewrite (cursor_drop _ _ _ (proj2 (range_tagged (E:=NetError) MSG_TX
    (Z.of_nat (length (serialize_transaction_signed tx))) (serialize_transaction_signed tx)))).
  by rewrite deserialize_signed_ok.
Qed.
End Messages.

(** ** Absence of panics *)

Section Panics.
Context `{HX : Hex, HXok : !HexOk, B3 : Blake3, B3ok : !Blake3Ok}.

Lemma map_err_no_panic {E F A} (f : E → F) (r : result E A) : r ≠ Panic → map_err f r ≠ Panic.
Proof. by destruct r. Qed.

Lemma has_tag_no_panic bs tag : (0 < length bs)%nat → has_tag bs tag ≠ Panic.
Proof. destruct bs; cbn; [lia|done]. Qed.

Lemma header_item_no_panic bs off : read_header_item bs off ≠ Panic.
Proof.
  unfold read_header_item. apply bind_no_panic; [apply take_u32_no_panic|]. intros [len o] E.
  apply take_u32_inv in E as ([? ?] & -> & _). cbn beta iota zeta. destruct (_ || _) eqn:Eg; [done|].
  apply orb_false_iff in Eg as [_ Eg]. apply Z.ltb_ge in Eg. unfold lenZ in Eg.
  apply bind_no_panic; [apply range_no_panic; lia|]. intros hb _.
  apply bind_no_panic; [apply map_err_no_panic, header_no_panic|done].
Qed.

Lemma block_item_no_panic bs off : read_block_item bs off ≠ Panic.
Proof.
  unfold read_block_item. apply bind_no_panic; [apply take_u32_no_panic|]. intros [len o] E.
  apply take_u32_inv in E as ([? ?] & -> & _). cbn beta iota zeta. destruct (_ || _) eqn:Eg; [done|].
  apply orb_false_iff in Eg as [_ Eg]. apply Z.ltb_ge in Eg. unfold lenZ in Eg.
  apply bind_no_panic; [apply range_no_panic; lia|]. intros hb _.
  apply bind_no_panic; [apply map_err_no_panic, block_no_panic|done].
Qed.

(** The opening of a parser: tag, then continue. *)
Ltac np_open :=
  match goal with |- context [if ?c then _ else _] => destruct c eqn:?; [done|] end;
  match goal with
  | H : (_ =? 0)%nat = false |- _ => apply Nat.eqb_neq in H
  | H : (_ <? _)%nat = false |- _ => apply Nat.ltb_ge in H
  end;
  apply bind_no_panic; [apply has_tag_no_panic; lia|];
  intros [] _; cbn [negb]; [|done].

Lemma parse_headers_no_panic bs : parse_headers bs ≠ Panic.
Proof.
  unfold parse_headers. np_open. apply bind_no_panic; [apply take_u32_no_panic|]. intros [count off] _.
  destruct (_ <? _); [done|]. destruct (_ <? _); [done|].
  apply bind_no_panic; [apply read_items_no_panic, header_item_no_panic|]. intros [??] _. by destruct (negb _).
Qed.

Lemma parse_blocks_no_panic bs : parse_blocks bs ≠ Panic.
Proof.
  unfold parse_blocks. np_open. apply bind_no_panic; [apply take_u32_no_panic|]. intros [count off] _.
  destruct (_ <? _); [done|]. destruct (_ <? _); [done|].
  apply bind_no_panic; [apply read_items_no_panic, block_item_no_panic|]. intros [??] _. by destruct (negb _).
Qed.

Lemma parse_get_headers_no_panic bs : parse_get_headers bs ≠ Panic.
Proof.
  unfold parse_get_headers. destruct (Nat.eqb_spec (length bs) 9) as [Hl|]; [|done]. cbn [negb].
  apply bind_no_panic; [apply has_tag_no_panic; lia|]. intros [] _; cbn [negb]; [|done].
  apply bind_no_panic; [unfold take_u64; by destruct (_ <? _)%nat|]. by intros [??] _.
Qed.

Lemma parse_get_blocks_no_panic bs : parse_get_blocks bs ≠ Panic.
Proof.
  unfold parse_get_blocks. np_open. apply bind_no_panic; [apply take_u32_no_panic|]. intros [count off] E.
  apply take_u32_inv in E as ([? ?] & -> & _).
  destruct (_ <? _); [done|]. destruct (Z.eqb_spec (count * 32) (lenZ bs - Z.of_nat (1 + 4))) as [Hz|]; [|done].
  cbn [negb]. unfold lenZ in Hz. apply bind_no_panic; [|by intros [??] _].
  apply (read_items_fixed_no_panic _ bs 32); [|lia]. intros o Ho. unfold read_hash_item. split.
  - apply bind_no_panic; [by apply range_no_panic|done].
  - intros x o' Er. apply bind_ok_inv in Er as (? & _ & Er). by injection Er.
Qed.

Lemma parse_inv_items_no_panic tag bs what : parse_inv_items tag bs what ≠ Panic.
Proof.
  unfold parse_inv_items. cbv zeta. np_open.
  apply bind_no_panic; [apply range_no_panic; lia|]. intros cb E. apply range_inv in E as (Hcl & _).
  apply from_be_u32 in Hcl. unfold in_u32 in Hcl.
  destruct (_ <? _); [done|].
  destruct (Z.eqb_spec (from_be_bytes cb * INV_ITEM_WIRE_LEN) (lenZ bs - 5)) as [Hz|]; [|done].
  cbn [negb]. unfold lenZ, INV_ITEM_WIRE_LEN in Hz. apply bind_no_panic; [|by intros [??] _].
  apply (read_items_fixed_no_panic _ bs 33); [|lia]. intros o Ho. unfold read_inv_item, byte_at. split.
  - destruct (bs !! o) eqn:El; [|apply lookup_ge_None in El; lia]. cbn [expect mbind result_bind].
    destruct (from_wire _); [|done]. cbn [ok_or mbind result_bind].
    apply bind_no_panic; [apply range_no_panic; lia|done].
  - intros x o' Er. apply bind_ok_inv in Er as (? & _ & Er). apply bind_ok_inv in Er as (? & _ & Er).
    apply bind_ok_inv in Er as (? & _ & Er). injection Er as _ <-. lia.
Qed.

Lemma parse_tx_no_panic bs : parse_tx bs ≠ Panic.
Proof.
  unfold parse_tx. cbv zeta. np_open. apply bind_no_panic; [apply range_no_panic; lia|]. intros cb _.
  destruct (_ <? _); [done|]. destruct (negb _); [done|]. apply map_err_no_panic, signed_no_panic.
Qed.

Lemma hello_no_panic bs : hello_decode bs ≠ Panic.
Proof.
  unfold hello_decode. destruct (Nat.eqb_spec (length bs) HELLO_WIRE_LEN) as [Hl|]; [|done]. cbn [negb].
  unfold HELLO_WIRE_LEN in Hl.
  do 4 (apply bind_no_panic; [apply range_no_panic; lia|intros ? _]). done.
Qed.

Lemma decode_message_no_panic bs : decode_message bs ≠ Panic.
Proof.
  unfold decode_message. destruct bs as [|b bs]; [done|]. cbv zeta.
  destruct (_ =? _). { pose proof (parse_get_headers_no_panic (b :: bs)). by destruct (parse_get_headers _). }
  destruct (_ =? _). { pose proof (parse_get_blocks_no_panic (b :: bs)). by destruct (parse_get_blocks _). }
  by destruct (is_known_tag _).
Qed.

Lemma read_prefixed_no_panic stream : read_length_prefixed stream ≠ Panic.
Proof.
  unfold read_length_prefixed. apply bind_no_panic; [by destruct (read_exact _ _)|]. intros [l s] _.
  cbv zeta. destruct (_ <? _); [done|]. by destruct (read_exact _ _).
Qed.
End Panics.

(** ** Framing *)

Lemma read_exact_app x rest : read_exact (x ++ rest) (length x) = Some (x, rest).
Proof.
  unfold read_exact. rewrite length_app, (proj2 (Nat.leb_le _ _)) by lia.
  by rewrite take_app_length, drop_app_length.
Qed.

Lemma frame_ok payload w rest :
  write_length_prefixed payload = Ok w → read_length_prefixed (w ++ rest) = Ok (payload, rest).
Proof.
  unfold write_length_prefixed. destruct (Z.ltb_spec MAX_MESSAGE_SIZE (lenZ payload)) as [|Hm]; [done|].
  intros <-%ok_inj. unfold read_length_prefixed. rewrite <- app_assoc.
  pose proof (read_exact_app (to_be_bytes 4 (lenZ payload)) (payload ++ rest)) as E.
  rewrite length_to_be_bytes in E. rewrite E. cbn [ok_or mbind result_bind].
  rewrite from_to_be_u32 by (unfold in_u32, lenZ, MAX_MESSAGE_SIZE in *; lia).
  rewrite (proj2 (Z.ltb_ge _ _) Hm). unfold lenZ. by rewrite Nat2Z.id, read_exact_app.
Qed.

(** ** The address book *)

(** A book as gossip may have filled it from [book0]. *)
Definition book_extends (book0 book : AddrBook) : Prop :=
  book0 ⊆ book ∧ ∀ nid r, book !! nid = Some r → book0 !! nid = None →
    ar_verified r = false ∧ is_dialable (ar_addr r) = true.

Lemma handle_addr_step es book0 book n :
  book_extends book0 book → n = Z.of_nat (size book) - Z.of_nat (size book0) →
  let '(book', n') := foldl (λ '(book, added) e,
    if negb (is_dialable (ae_addr e)) then (book, added) else
    let '(book, fresh) := book_insert book (ae_node_id e) (ae_addr e) false in
    (book, if fresh then added + 1 else added)) (book, n) es in
  book_extends book0 book' ∧ n' = Z.of_nat (size book') - Z.of_nat (size book0).
Proof.
  revert book n. induction es as [|e es IH]; intros book n Hb Hn; cbn [foldl]; [done|].
  destruct (is_dialable (ae_addr e)) eqn:Ed; cbn [negb]; [|by apply IH].
  unfold book_insert. destruct (book !! ae_node_id e) as [r|] eqn:Eb; [by apply IH|].
  apply IH.
  - destruct Hb as [Hsub Hnew]. split.
    + etransitivity; [done|]. by apply insert_subseteq.
    + unfold AddrBook in *. intros nid r Hr Hnone. destruct (decide (nid = ae_node_id e)) as [->|Hne].
      * rewrite lookup_insert_eq in Hr. by injection Hr as <-.
      * rewrite lookup_insert_ne in Hr by done. by apply (Hnew nid).
  - unfold AddrBook in *. rewrite map_size_insert_None by done. lia.
Qed.

Lemma book_entries_NoDup book : NoDup (ae_node_id <$> book_entries book).
Proof.
  unfold book_entries. rewrite <- list_fmap_compose.
  pose proof (NoDup_fst_map_to_list book) as H. done.
Qed.

Lemma elem_of_book_entries book e :
  e ∈ book_entries book ↔ ∃ r, book !! ae_node_id e = Some r ∧ ae_addr e = ar_addr r.
Proof.
  unfold book_entries, AddrBook in *. rewrite list_elem_of_fmap. split.
  - intros ([nid r] & -> & Hin). exists r. by rewrite elem_of_map_to_list in Hin.
  - intros (r & Hr & Ha). exists (ae_node_id e, r). rewrite elem_of_map_to_list. split; [|done].
    destruct e. cbn in *. by subst.
Qed.

#[export] Instance entry_le_total : Total entry_le.
Proof.
  intros a b. unfold entry_le. destruct (bytes_ltb (_ b ++ _) _) eqn:E; [|by left]. right.
  destruct (bytes_ltb (ae_node_id a ++ _) _) eqn:E'; [|done].
  pose proof (bytes_ltb_trans _ _ _ E E') as H. by rewrite bytes_ltb_irrefl in H.
Qed.

Lemma top_k_spec book k :
  ∃ rest, Sorted entry_le (top_k_sorted book k ++ rest)
    ∧ top_k_sorted book k ++ rest ≡ₚ book_entries book
    ∧ length (top_k_sorted book k) = Nat.min k (size book).
Proof.
  exists (drop k (merge_sort entry_le (book_entries book))). unfold top_k_sorted.
  rewrite take_drop. split_and!.
  - apply Sorted_merge_sort, _.
  - apply merge_sort_Permutation.
  - rewrite length_take, (Permutation_length (merge_sort_Permutation entry_le _)).
    unfold book_entries, AddrBook in *. by rewrite length_fmap, length_map_to_list.
Qed.

(** ** Claims *)

(** a payload of an untrusted peer cannot crash the node in the top-level
    dispatch, in any sync or gossip parser, in the HELLO decoder or in the
    framing: each returns a value or an error on every input. *)
Theorem wire_parsers_never_panic `{HX : Hex, HXok : !HexOk, B3 : Blake3, B3ok : !Blake3Ok} (bs : list byte) :
  decode_message bs ≠ Panic ∧ parse_get_headers bs ≠ Panic ∧ parse_headers bs ≠ Panic
  ∧ parse_get_blocks bs ≠ Panic ∧ parse_blocks bs ≠ Panic ∧ inv_parse bs ≠ Panic
  ∧ get_data_parse bs ≠ Panic ∧ not_found_parse bs ≠ Panic ∧ parse_tx bs ≠ Panic
  ∧ hello_decode bs ≠ Panic ∧ read_length_prefixed bs ≠ Panic.
Proof.
  split_and!.
  - apply decode_message_no_panic.
  - apply parse_get_headers_no_panic.
  - apply parse_headers_no_panic.
  - apply parse_get_blocks_no_panic.
  - apply parse_blocks_no_panic.
  - apply parse_inv_items_no_panic.
  - apply parse_inv_items_no_panic.
  - apply parse_inv_items_no_panic.
  - apply parse_tx_no_panic.
  - apply hello_no_panic.
  - apply read_prefixed_no_panic.
Qed.

(** The ADDR parser is the exception: its length check counts 39 bytes per
    entry, an IPv6 entry takes 51, and the family byte of the next entry is
    indexed without a check.  Five announced entries of which four IPv6 ones are
    present index one byte past the payload. *)
Definition addr_attack : list byte :=
  tagged MSG_ADDR 5 (concat (replicate 4 (encode_addr_entry
    {| ae_node_id := zero32; ae_addr := SockV6 (replicate 16 x01) 8333 0 0 |}))).

Example addr_attack_panics : parse_addr addr_attack = Panic.
Proof. vm_compute. reflexivity. Qed.

(** folding an ADDR message into the book keeps every record already there,
    adds only dialable addresses, unverified, and returns the number of new node
    ids; and the addresses a node broadcasts (at most [MAX_ADDR_ENTRIES] of them)
    always encode to a message the receiver parses to the same entries: the least
    ones of the book in the order of node ids. *)
Theorem addr_gossip_sound (book : AddrBook) (es : list AddrEntry) (k : nat) :
  (let '(book', added) := handle_addr_message es book in
   book ⊆ book'
   ∧ (∀ nid r, book' !! nid = Some r → book !! nid = None →
        ar_verified r = false ∧ is_dialable (ar_addr r) = true)
   ∧ added = Z.of_nat (size book') - Z.of_nat (size book))
  ∧ (Z.of_nat k ≤ MAX_ADDR_ENTRIES → Forall wf_addr_entry (book_entries book) →
     ∃ payload rest, encode_addr (top_k_sorted book k) = Ok payload
       ∧ parse_addr payload = Ok (top_k_sorted book k)
       ∧ Sorted entry_le (top_k_sorted book k ++ rest)
       ∧ top_k_sorted book k ++ rest ≡ₚ book_entries book
       ∧ length (top_k_sorted book k) = Nat.min k (size book)).
Proof.
  split.
  - unfold handle_addr_message.
    pose proof (handle_addr_step es book book 0) as H.
    destruct (foldl _ _ _) as [book' added]. destruct H as [[H1 H2] H3]; [|lia|by split_and!].
    split; [done|]. intros. congruence.
  - intros Hk Hwf. destruct (top_k_spec book k) as (rest & Hs & Hp & Hl).
    assert (Forall wf_addr_entry (top_k_sorted book k)) as Hwf'.
    { rewrite <- Hp in Hwf. by apply Forall_app in Hwf as [? _]. }
    assert (encode_addr (top_k_sorted book k) = Ok (tagged MSG_ADDR (lenZ (top_k_sorted book k))
      (concat (encode_addr_entry <$> top_k_sorted book k)))) as He.
    { unfold encode_addr. rewrite (proj2 (Z.ltb_ge _ _)); [done|]. unfold lenZ. lia. }
    eexists _, rest. split; [exact He|]. split; [|done]. apply addr_iff. done.
Qed.

(** ** Witnesses *)

Definition sample_addrs : list AddrEntry :=
  [{| ae_node_id := replicate 32 x02; ae_addr := SockV4 [x0a; x00; x00; x01] 8333 |};
   {| ae_node_id := replicate 32 x01; ae_addr := SockV6 (replicate 16 x20) 8333 0 0 |};
   {| ae_node_id := replicate 32 x03; ae_addr := SockV4 [x00; x00; x00; x00] 8333 |}].

Lemma wire_parsers_never_panic_witness :
  @parse_blocks toy_hex toy_blake3 [x04; xff; xff; xff; xff] ≠ Panic.
Proof.
  apply (@wire_parsers_never_panic toy_hex toy_hex_ok toy_blake3 toy_blake3_ok
    [x04; xff; xff; xff; xff]).
Defined.

Definition sample_book : AddrBook := (handle_addr_message sample_addrs ∅).1.

Lemma addr_gossip_sound_witness :
  size sample_book = 2%nat
  ∧ ∃ payload rest, encode_addr (top_k_sorted sample_book 2) = Ok payload
       ∧ parse_addr payload = Ok (top_k_sorted sample_book 2)
       ∧ Sorted entry_le (top_k_sorted sample_book 2 ++ rest)
       ∧ top_k_sorted sample_book 2 ++ rest ≡ₚ book_entries sample_book
       ∧ length (top_k_sorted sample_book 2) = Nat.min 2 (size sample_book).
Proof.
  split; [vm_compute; reflexivity|].
  apply (proj2 (addr_gossip_sound sample_book [] 2)); [unfold MAX_ADDR_ENTRIES; lia|by_eval].
Defined.
