(* ===== verification/Compact.v ===== *)
(** * Compact blocks (crates/strangecoin-net/src/gossip/compact_blocks.rs)

    The view of the chain the network layer works against ([BlockchainView]), the
    three compact-block messages with their codecs, and the reconstruction of a
    block from short ids: [fill_up], the GET_BLOCK_TXN answer and
    [apply_block_txn].  Indices are [usize] values as integers. *)

From S2P Require Import Prelude Bytes Abi Types Serialize Net.
Open Scope Z_scope.

(** The read side of the trait [BlockchainView]. *)
Class BlockchainView (C : Type) := {
  bv_tip_hash : C → string;
  bv_chain_len : C → nat;
  bv_chain_contains_tx : C → Transaction → bool;
  bv_mempool_contains : C → list byte → bool;
  bv_mempool_tx : C → list byte → option Transaction;
  bv_mempool_txs : C → list Transaction;
  bv_block_by_hash : C → string → option Block;
  bv_chain_contains_block : C → string → bool;
  bv_headers_from_height : C → Z → nat → list BlockHeader;
  bv_blocks_by_hashes : C → list (list byte) → nat → list Block
}.

(** Crate [siphasher]: [SipHasher24::new_with_keys(0, 0).hash(..)], a [u64]. *)
Class SipHash := siphash24 : list byte → Z.

Definition SHORT_ID_LEN : nat := 8.
Definition MAX_COMPACT_TXS : Z := 65536.
Definition MAX_PREFILLED : Z := 64.

Section Compact.
Context `{HX : Hex, B3 : Blake3, SIP : SipHash}.

Definition xor_byte (a b : byte) : byte := byte_of (Z.lxor (byte_val a) (byte_val b)).

Definition short_id (txid : list byte) (block_nonce : Z) : list byte :=
  let msg := zip_with xor_byte (take 8 txid) (to_le_bytes 8 block_nonce) ++ drop 8 txid in
  to_le_bytes 8 (siphash24 msg).

Definition derive_nonce (block_hash : list byte) : Z := from_le_bytes (take 8 block_hash).

Record CompactBlock := {
  cb_header : BlockHeader;
  cb_nonce : Z;
  cb_short_ids : list (list byte);
  cb_prefilled_txs : list (Z * Transaction)
}.
Record GetBlockTxn := { gb_block_hash : list byte; gb_missing_indices : list Z }.
Record BlockTxn := { bt_block_hash : list byte; bt_txs : list Transaction }.

(** The module's own test: the flag of a transfer. *)
Definition tx_is_coinbase (tx : Transaction) : bool :=
  match tx with Transfer t => tr_is_coinbase t | _ => false end.

Definition from_block (block : Block) : result NetError CompactBlock :=
  let h := header block in
  hash ← header_hash h;
  let nonce := derive_nonce hash in
  Ok {| cb_header := h; cb_nonce := nonce;
        cb_short_ids := (λ tx, short_id (txid tx) nonce) <$> b_transactions block;
        cb_prefilled_txs := match b_transactions block with
                            | first :: _ => if tx_is_coinbase first then [(0, first)] else []
                            | [] => []
                            end |}.

(** ** Codecs *)

(** A transaction body with its length; [what] opens the error texts. *)
Definition encode_body (what : string) (tx : Transaction) : result NetError (list byte) :=
  let body := serialize_transaction_signed tx in
  if MAX_TX_SIZE <? lenZ body
  then Err (Protocol (what +:+ "tx size " +:+ pretty (lenZ body) +:+ " > " +:+ pretty MAX_TX_SIZE))
  else Ok (write_bytes body).

Definition malformed (what detail : string) : NetError := Protocol (what +:+ detail).

Definition net_read_u32 (what : string) (bytes : list byte) (offset : nat) : result NetError (Z * nat) :=
  if (length bytes <? offset + 4)%nat then Err (malformed what "truncated u32")
  else Ok (from_be_bytes (slice bytes offset 4), (offset + 4)%nat).

Definition compact_encode (c : CompactBlock) : result NetError (list byte) :=
  if MAX_COMPACT_TXS <? lenZ (cb_short_ids c)
  then Err (Protocol ("compact block: " +:+ pretty (lenZ (cb_short_ids c)) +:+ " short ids > "
                      +:+ pretty MAX_COMPACT_TXS)) else
  if MAX_PREFILLED <? lenZ (cb_prefilled_txs c)
  then Err (Protocol ("compact block: " +:+ pretty (lenZ (cb_prefilled_txs c)) +:+ " prefilled > "
                      +:+ pretty MAX_PREFILLED)) else
  header_bytes ← serialize_header (cb_header c);
  prefilled ← mapM_result (λ p, body ← encode_body "compact block: prefilled " p.2;
                               Ok (to_be_bytes 4 p.1 ++ body)) (cb_prefilled_txs c);
  let out := byte_of MSG_COMPACT_BLOCK :: header_bytes ++ to_be_bytes 8 (cb_nonce c)
             ++ to_be_bytes 4 (lenZ (cb_short_ids c)) ++ concat (cb_short_ids c)
             ++ to_be_bytes 4 (lenZ (cb_prefilled_txs c)) ++ concat prefilled in
  if MAX_MESSAGE_SIZE <? lenZ out
  then Err (Protocol ("compact block: " +:+ pretty (lenZ out) +:+ " bytes > " +:+ pretty MAX_MESSAGE_SIZE))
  else Ok out.

Definition read_short_id (bytes : list byte) (offset : nat) : result NetError (list byte * nat) :=
  sid ← range bytes offset SHORT_ID_LEN; Ok (sid, (offset + SHORT_ID_LEN)%nat).

(** [[tx_len][tx]] of COMPACT_BLOCK and BLOCK_TXN. *)
Definition read_body (what item : string) (bytes : list byte) (offset : nat)
    : result NetError (Transaction * nat) :=
  '(tx_len, offset) ← net_read_u32 what bytes offset;
  if MAX_TX_SIZE <? tx_len
  then Err (Protocol (what +:+ item +:+ " size " +:+ pretty tx_len +:+ " > " +:+ pretty MAX_TX_SIZE)) else
  if lenZ bytes <? Z.of_nat offset + tx_len then Err (malformed what (item +:+ " exceeds payload")) else
  body ← range bytes offset (Z.to_nat tx_len);
  tx ← map_err (λ _, malformed what (item +:+ " decode")) (deserialize_transaction_signed body);
  Ok (tx, (offset + Z.to_nat tx_len)%nat).

Definition read_prefilled (bytes : list byte) (offset : nat) : result NetError ((Z * Transaction) * nat) :=
  '(index, offset) ← net_read_u32 "compact block: " bytes offset;
  '(tx, offset) ← read_body "compact block: " "prefilled tx" bytes offset;
  Ok ((index, tx), offset).

Definition compact_parse (bytes : list byte) : result NetError CompactBlock :=
  let what := "compact block: " in
  let bad := Err (malformed what "bad tag or truncated header") in
  if (length bytes <? 1 + HEADER_WIRE_LEN + 8 + 4)%nat then bad else
  ok ← has_tag bytes MSG_COMPACT_BLOCK;
  if negb ok then bad else
  hb ← range bytes 1 HEADER_WIRE_LEN;
  h ← map_err (λ e, malformed what ("header: " +:+ e)) (deserialize_header hb);
  nonce_bytes ← range bytes (1 + HEADER_WIRE_LEN) 8;
  '(short_count, offset) ← net_read_u32 what bytes (1 + HEADER_WIRE_LEN + 8);
  if MAX_COMPACT_TXS <? short_count
  then Err (malformed what ("short id count " +:+ pretty short_count +:+ " > " +:+ pretty MAX_COMPACT_TXS)) else
  if lenZ bytes <? Z.of_nat offset + short_count * Z.of_nat SHORT_ID_LEN
  then Err (malformed what "short ids exceed payload") else
  '(short_ids, offset) ← read_items (read_short_id bytes) (Z.to_nat short_count) offset;
  '(prefill_count, offset) ← net_read_u32 what bytes offset;
  if MAX_PREFILLED <? prefill_count
  then Err (malformed what ("prefilled count " +:+ pretty prefill_count +:+ " > " +:+ pretty MAX_PREFILLED)) else
  '(prefilled, offset) ← read_items (read_prefilled bytes) (Z.to_nat prefill_count) offset;
  if negb (offset =? length bytes)%nat then Err (malformed what "trailing bytes") else
  Ok {| cb_header := h; cb_nonce := from_be_bytes nonce_bytes; cb_short_ids := short_ids;
        cb_prefilled_txs := prefilled |}.

Definition get_block_txn_encode (g : GetBlockTxn) : result NetError (list byte) :=
  if MAX_COMPACT_TXS <? lenZ (gb_missing_indices g)
  then Err (Protocol ("get_block_txn: " +:+ pretty (lenZ (gb_missing_indices g)) +:+ " indices > "
                      +:+ pretty MAX_COMPACT_TXS)) else
  Ok (byte_of MSG_GET_BLOCK_TXN :: gb_block_hash g ++ to_be_bytes 4 (lenZ (gb_missing_indices g))
      ++ concat (to_be_bytes 4 <$> gb_missing_indices g)).

Definition get_block_txn_parse (bytes : list byte) : result NetError GetBlockTxn :=
  let what := "get_block_txn: " in
  let bad := Err (malformed what "bad tag or truncated") in
  if (length bytes <? 1 + 32 + 4)%nat then bad else
  ok ← has_tag bytes MSG_GET_BLOCK_TXN;
  if negb ok then bad else
  hash ← range bytes 1 32;
  '(count, offset) ← net_read_u32 what bytes 33;
  if MAX_COMPACT_TXS <? count
  then Err (malformed what ("index count " +:+ pretty count +:+ " > " +:+ pretty MAX_COMPACT_TXS)) else
  if negb (Z.of_nat offset + count * 4 =? lenZ bytes) then Err (malformed what "indices exceed payload") else
  '(indices, _) ← read_items (net_read_u32 what bytes) (Z.to_nat count) offset;
  Ok {| gb_block_hash := hash; gb_missing_indices := indices |}.

Definition block_txn_encode (t : BlockTxn) : result NetError (list byte) :=
  if MAX_COMPACT_TXS <? lenZ (bt_txs t)
  then Err (Protocol ("block_txn: " +:+ pretty (lenZ (bt_txs t)) +:+ " txs > " +:+ pretty MAX_COMPACT_TXS)) else
  bodies ← mapM_result (encode_body "block_txn: ") (bt_txs t);
  let out := byte_of MSG_BLOCK_TXN :: bt_block_hash t ++ to_be_bytes 4 (lenZ (bt_txs t)) ++ concat bodies in
  if MAX_MESSAGE_SIZE <? lenZ out
  then Err (Protocol ("block_txn: " +:+ pretty (lenZ out) +:+ " bytes > " +:+ pretty MAX_MESSAGE_SIZE))
  else Ok out.

Definition block_txn_parse (bytes : list byte) : result NetError BlockTxn :=
  let what := "block_txn: " in
  let bad := Err (malformed what "bad tag or truncated") in
  if (length bytes <? 1 + 32 + 4)%nat then bad else
  ok ← has_tag bytes MSG_BLOCK_TXN;
  if negb ok then bad else
  hash ← range bytes 1 32;
  '(count, offset) ← net_read_u32 what bytes 33;
  if MAX_COMPACT_TXS <? count
  then Err (malformed what ("tx count " +:+ pretty count +:+ " > " +:+ pretty MAX_COMPACT_TXS)) else
  '(txs, offset) ← read_items (read_body what "tx" bytes) (Z.to_nat count) offset;
  if negb (offset =? length bytes)%nat then Err (malformed what "trailing bytes") else
  Ok {| bt_block_hash := hash; bt_txs := txs |}.

(** ** Reconstruction *)

Inductive FillOutcome :=
  | Complete (block : Block)
  | Missing (req : GetBlockTxn).

Context {C : Type} `{BV : BlockchainView C}.

Definition find_mempool_tx_by_short_id (sid : list byte) (nonce : Z) (c : C) : option Transaction :=
  snd <$> list_find (λ tx, short_id (txid tx) nonce = sid) (bv_mempool_txs c).

Definition assemble_and_verify (h : BlockHeader) (txs : list Transaction) : result NetError Block :=
  root ← merkle_root (txid <$> txs);
  if decide (root = h_tx_root h) then Ok (from_header h txs)
  else Err (Protocol ("compact block: reconstructed tx_root " +:+ hex_encode root +:+ " != header "
                      +:+ hex_encode (h_tx_root h))).

Abbreviation Slots := (list (option Transaction)).

(** [slots[i] = Some(tx)] and [flags[i]], which panic out of range. *)
Definition set_slot {A} (slots : list A) (i : Z) (x : A) : result NetError (list A) :=
  if (0 <=? i) && (i <? lenZ slots) then Ok (<[Z.to_nat i := x]> slots) else Panic.
Definition get_slot {A} (slots : list A) (i : Z) : result NetError A :=
  if (0 <=? i) && (i <? lenZ slots) then expect (slots !! Z.to_nat i) else Panic.

(** The loop over the prefilled bodies both reconstructions open with. *)
Definition place_prefilled (n : Z) (acc : Slots * list bool) (p : Z * Transaction)
    : result NetError (Slots * list bool) :=
  let '(slots, prefilled_idx) := acc in
  let '(index, tx) := p in
  if n <=? index
  then Err (Protocol ("compact block: prefilled index " +:+ pretty index +:+ " out of range ("
                      +:+ pretty n +:+ ")")) else
  slots ← set_slot slots index (Some tx);
  prefilled_idx ← set_slot prefilled_idx index true;
  Ok (slots, prefilled_idx).

Definition prefilled (compact : CompactBlock) : result NetError (Slots * list bool) :=
  let n := length (cb_short_ids compact) in
  foldM (place_prefilled (Z.of_nat n)) (replicate n None, replicate n false) (cb_prefilled_txs compact).

(** [iter().with_index()]. *)
Definition with_index {A} (l : list A) : list (Z * A) := zip (seqZ 0 (lenZ l)) l.

Definition fill_slot (c : C) (nonce : Z) (prefilled_idx : list bool) (acc : Slots * list Z)
    (p : Z * list byte) : result NetError (Slots * list Z) :=
  let '(slots, missing) := acc in
  let '(i, sid) := p in
  pre ← get_slot prefilled_idx i;
  if pre : bool then Ok (slots, missing) else
  match find_mempool_tx_by_short_id sid nonce c with
  | Some tx => slots ← set_slot slots i (Some tx); Ok (slots, missing)
  | None => Ok (slots, missing ++ [i])
  end.

Definition fill_up (compact : CompactBlock) (c : C) : result NetError FillOutcome :=
  '(slots, prefilled_idx) ← prefilled compact;
  '(slots, missing) ← foldM (fill_slot c (cb_nonce compact) prefilled_idx) (slots, [])
                        (with_index (cb_short_ids compact));
  match missing with
  | _ :: _ =>
      hash ← header_hash (cb_header compact);
      Ok (Missing {| gb_block_hash := hash; gb_missing_indices := missing |})
  | [] =>
      txs ← mapM_result expect slots;
      Complete <$> assemble_and_verify (cb_header compact) txs
  end.

Definition handle_get_block_txn (req : GetBlockTxn) (c : C) : option BlockTxn :=
  block ← bv_block_by_hash c (hex_encode (gb_block_hash req));
  txs ← mapM (λ i : Z, b_transactions block !! Z.to_nat i) (gb_missing_indices req);
  Some {| bt_block_hash := gb_block_hash req; bt_txs := txs |}.

(** The loop over the supplied bodies. *)
Definition place_supplied (compact : CompactBlock) (prefilled_idx : list bool) (slots : Slots)
    (p : Z * Transaction) : result NetError Slots :=
  let '(idx, tx) := p in
  let n := lenZ (cb_short_ids compact) in
  if n <=? idx
  then Err (Protocol ("block_txn: index " +:+ pretty idx +:+ " out of range (" +:+ pretty n +:+ ")")) else
  pre ← get_slot prefilled_idx idx;
  if pre : bool
  then Err (Protocol ("block_txn: index " +:+ pretty idx +:+ " was prefilled, not missing")) else
  expected ← get_slot (cb_short_ids compact) idx;
  if negb (bool_decide (short_id (txid tx) (cb_nonce compact) = expected))
  then Err (Protocol ("block_txn: short id mismatch at index " +:+ pretty idx)) else
  set_slot slots idx (Some tx).

Definition still_missing {A} (i : Z) : result NetError A :=
  Err (Protocol ("block_txn: index " +:+ pretty i +:+ " still missing after apply")).

Definition refill_slot (c : C) (nonce : Z) (slots : Slots) (p : Z * list byte) : result NetError Slots :=
  let '(i, sid) := p in
  cur ← get_slot slots i;
  match cur with
  | Some _ => Ok slots
  | None => match find_mempool_tx_by_short_id sid nonce c with
            | Some tx => set_slot slots i (Some tx)
            | None => still_missing i
            end
  end.

Definition apply_block_txn (compact : CompactBlock) (missing_indices : list Z) (txn : BlockTxn) (c : C)
    : result NetError Block :=
  if negb (length (bt_txs txn) =? length missing_indices)%nat
  then Err (Protocol ("block_txn: " +:+ pretty (lenZ (bt_txs txn)) +:+ " txs for "
                      +:+ pretty (lenZ missing_indices) +:+ " indices")) else
  hash ← header_hash (cb_header compact);
  if decide (hash ≠ bt_block_hash txn)
  then Err (Protocol "block_txn: block hash does not match compact header") else
  '(slots, prefilled_idx) ← prefilled compact;
  slots ← foldM (place_supplied compact prefilled_idx) slots (zip missing_indices (bt_txs txn));
  slots ← foldM (refill_slot c (cb_nonce compact)) slots (with_index (cb_short_ids compact));
  txs ← mapM_result (λ p, match p.2 with Some tx => Ok tx | None => still_missing p.1 end) (with_index slots);
  assemble_and_verify (cb_header compact) txs.

End Compact.
