(* ===== verification/CompactProps.v ===== *)
(** * Properties of compact-block relay

    What a reconstruction returns fits the announcement; and the relay of a block
    between two nodes completes. *)

From S2P Require Import Prelude Bytes Abi Types Concrete Serialize SerializeProps Net NetProps Compact.
Open Scope Z_scope.

(** ** Slots *)

Lemma set_slot_length {A} (l l' : list A) i x : set_slot l i x = Ok l' → length l' = length l.
Proof. unfold set_slot. destruct (_ && _); [|done]. intros <-%ok_inj. apply length_insert. Qed.

Lemma set_slot_nat {A} (l : list A) (i : nat) x :
  (i < length l)%nat → set_slot l (Z.of_nat i) x = Ok (<[i := x]> l).
Proof.
  intros H. unfold set_slot, lenZ. rewrite (proj2 (Z.leb_le _ _)), (proj2 (Z.ltb_lt _ _)) by lia.
  cbn [andb]. by rewrite Nat2Z.id.
Qed.

Lemma get_slot_nat {A} (l : list A) (i : nat) x : l !! i = Some x → get_slot l (Z.of_nat i) = Ok x.
Proof.
  intros H. pose proof (lookup_lt_Some _ _ _ H). unfold get_slot, lenZ.
  rewrite (proj2 (Z.leb_le _ _)), (proj2 (Z.ltb_lt _ _)) by lia. cbn [andb]. by rewrite Nat2Z.id, H.
Qed.

(** Enumeration from [k]. *)
Lemma enumerate_eq {A} (l : list A) : with_index l = imap (λ i x, (Z.of_nat i, x)) l.
Proof.
  assert (∀ k, zip (seqZ (Z.of_nat k) (Z.of_nat (length l))) l = imap (λ i x, (Z.of_nat (k + i), x)) l) as H.
  { induction l as [|x l IH]; intros k; [done|]. cbn [length imap]. rewrite seqZ_cons by lia.
    cbn [zip_with]. f_equal; [by rewrite Nat.add_0_r|].
    replace (Z.pred (Z.of_nat (S (length l)))) with (Z.of_nat (length l)) by lia.
    replace (Z.succ (Z.of_nat k)) with (Z.of_nat (S k)) by lia. rewrite IH.
    apply imap_ext. intros i y _. unfold compose. f_equal. f_equal. lia. }
  exact (H 0%nat).
Qed.

Section Props.
Context `{HX : Hex, HXok : !HexOk, B3 : Blake3, B3ok : !Blake3Ok, SIP : SipHash}.
Context {C : Type} `{BV : BlockchainView C}.

Lemma prefilled_length compact slots pre :
  prefilled compact = Ok (slots, pre) →
  length slots = length (cb_short_ids compact) ∧ length pre = length (cb_short_ids compact).
Proof.
  unfold prefilled. intros H.
  apply (foldM_inv (λ acc, length acc.1 = length (cb_short_ids compact)
    ∧ length acc.2 = length (cb_short_ids compact))) in H; [done| |split; apply length_replicate].
  intros [s p] [i tx] [s' p'] _ [H1 H2] E. unfold place_prefilled in E. destruct (_ <=? _); [done|].
  apply bind_ok_inv in E as (s1 & E1 & E). apply bind_ok_inv in E as (p1 & E2 & E).
  injection E as <- <-. apply set_slot_length in E1, E2. cbn in *. by rewrite E1, E2.
Qed.

Lemma fill_slot_length c nonce pre acc p acc' :
  fill_slot c nonce pre acc p = Ok acc' → length acc'.1 = length acc.1.
Proof.
  destruct acc as [s m], p as [i sid], acc' as [s' m']. cbn. intros H.
  apply bind_ok_inv in H as (b & _ & H). destruct b; [by injection H as <- <-|].
  destruct (find_mempool_tx_by_short_id _ _ _); [|by injection H as <- <-].
  apply bind_ok_inv in H as (s1 & E1 & H). injection H as <- <-. by apply set_slot_length in E1.
Qed.

Lemma refill_slot_length c nonce s p s' :
  refill_slot c nonce s p = Ok s' → length s' = length s.
Proof.
  destruct p as [i sid]. cbn. intros H. apply bind_ok_inv in H as (cur & _ & H).
  destruct cur; [by injection H as <-|]. destruct (find_mempool_tx_by_short_id _ _ _); [|done].
  by apply set_slot_length in H.
Qed.

Lemma place_supplied_length compact pre s p s' :
  place_supplied compact pre s p = Ok s' → length s' = length s.
Proof.
  destruct p as [i tx]. unfold place_supplied. cbv zeta. intros H. destruct (_ <=? _); [done|].
  apply bind_ok_inv in H as (b & _ & H). destruct b; [done|].
  apply bind_ok_inv in H as (e & _ & H). destruct (negb _); [done|]. by apply set_slot_length in H.
Qed.

Lemma assemble_inv h txs b :
  assemble_and_verify h txs = Ok b →
  b = from_header h txs ∧ merkle_root (E:=NetError) (txid <$> txs) = Ok (h_tx_root h).
Proof.
  unfold assemble_and_verify. intros H. apply bind_ok_inv in H as (root & Er & H).
  case_decide as Hr; [|done]. injection H as <-. by rewrite Er, Hr.
Qed.

(** Whatever path a reconstruction takes, it ends in the root check. *)
Lemma fill_up_complete compact c b :
  fill_up compact c = Ok (Complete b) →
  ∃ txs, length txs = length (cb_short_ids compact) ∧ assemble_and_verify (cb_header compact) txs = Ok b.
Proof.
  unfold fill_up. intros H. apply bind_ok_inv in H as ([s p] & Ep & H).
  apply prefilled_length in Ep as [Hs Hp].
  apply bind_ok_inv in H as ([s' m] & Ef & H).
  assert (length s' = length (cb_short_ids compact)) as Hs'.
  { apply (foldM_inv (λ acc, length acc.1 = length (cb_short_ids compact))) in Ef; [done| |done].
    intros a x a' _ Ha E. by rewrite (fill_slot_length _ _ _ _ _ _ E). }
  destruct m as [|z m].
  - apply bind_ok_inv in H as (txs & Em & H). apply mapM_result_length in Em.
    exists txs. split; [lia|]. destruct (assemble_and_verify _ _); [|done..]. by injection H as ->.
  - apply bind_ok_inv in H as (hash & _ & H). done.
Qed.

Lemma apply_block_txn_inv compact mi txn c b :
  apply_block_txn compact mi txn c = Ok b →
  ∃ txs, length txs = length (cb_short_ids compact) ∧ assemble_and_verify (cb_header compact) txs = Ok b.
Proof.
  unfold apply_block_txn. intros H. destruct (negb _); [done|].
  apply bind_ok_inv in H as (hash & _ & H). case_decide; [done|].
  apply bind_ok_inv in H as ([s p] & Ep & H). apply prefilled_length in Ep as [Hs _].
  apply bind_ok_inv in H as (s1 & E1 & H). apply bind_ok_inv in H as (s2 & E2 & H).
  apply bind_ok_inv in H as (txs & Em & H). exists txs. split; [|done].
  apply mapM_result_length in Em. rewrite enumerate_eq, length_imap in Em. rewrite Em.
  apply (foldM_inv (λ s, length s = length (cb_short_ids compact))) in E2; [done| |].
  { intros a x a' _ Ha E. by rewrite (refill_slot_length _ _ _ _ _ E). }
  apply (foldM_inv (λ s, length s = length (cb_short_ids compact))) in E1; [done| |done].
  intros a x a' _ Ha E. by rewrite (place_supplied_length _ _ _ _ _ E).
Qed.
End Props.

(** ** Relay between two nodes *)

Section Relay.
Context `{HX : Hex, HXok : !HexOk, B3 : Blake3, B3ok : !Blake3Ok, SIP : SipHash}.
Context {C : Type} `{BV : BlockchainView C}.
Context (txs : list Transaction) (nonce : Z) (c : C).

Abbreviation sid tx := (short_id (txid tx) nonce).

(** No transaction of the receiver's pool has the short id of a different
    transaction of the block. *)
Definition no_clash : Prop :=
  ∀ tx tx', tx ∈ bv_mempool_txs c → tx' ∈ txs → sid tx = sid tx' → tx = tx'.

Context (Hclash : no_clash).

Lemma find_sound i tx tx' :
  txs !! i = Some tx → find_mempool_tx_by_short_id (sid tx) nonce c = Some tx' → tx' = tx.
Proof.
  intros Hi H. unfold find_mempool_tx_by_short_id in H.
  destruct (list_find _ _) as [[j t]|] eqn:E; [|done]. injection H as ->.
  apply list_find_Some in E as (Hj & Hs & _). apply Hclash; [|by eapply list_elem_of_lookup_2|done].
  by eapply list_elem_of_lookup_2.
Qed.

(** Slots that hold the block's transactions where they hold anything. *)
Definition sound (slots : list (option Transaction)) : Prop :=
  length slots = length txs ∧ ∀ i tx, slots !! i = Some (Some tx) → txs !! i = Some tx.
Definition filled (slots : list (option Transaction)) (i : nat) : Prop :=
  ∃ tx, slots !! i = Some (Some tx).
Definition mono (s s' : list (option Transaction)) : Prop := ∀ j, filled s j → filled s' j.

Lemma mono_trans s1 s2 s3 : mono s1 s2 → mono s2 s3 → mono s1 s3.
Proof. intros H1 H2 j Hj. by apply H2, H1. Qed.

Lemma sound_set slots i tx :
  sound slots → txs !! i = Some tx →
  ∃ s', set_slot slots (Z.of_nat i) (Some tx) = Ok s' ∧ sound s' ∧ filled s' i ∧ mono slots s'.
Proof.
  intros [Hl Hs] Hi. pose proof (lookup_lt_Some _ _ _ Hi) as Hlt.
  exists (<[i := Some tx]> slots). rewrite set_slot_nat by lia. split_and!; [done| | |].
  - split; [by rewrite length_insert|]. intros j t Hj.
    destruct (decide (i = j)) as [<-|Hne].
    + rewrite list_lookup_insert_eq in Hj by lia. congruence.
    + rewrite list_lookup_insert_ne in Hj by done. by apply Hs.
  - exists tx. by apply list_lookup_insert_eq; lia.
  - intros j [t Hj]. destruct (decide (i = j)) as [<-|Hne].
    + exists tx. apply list_lookup_insert_eq. lia.
    + exists t. by rewrite list_lookup_insert_ne.
Qed.

Lemma sound_not_filled slots i :
  sound slots → (i < length txs)%nat → ¬ filled slots i → slots !! i = Some None.
Proof.
  intros [Hl _] Hi Hn. destruct (slots !! i) as [[t|]|] eqn:E; [|done|].
  - destruct Hn. by exists t.
  - apply lookup_ge_None in E. lia.
Qed.

Lemma sound_complete slots :
  sound slots → (∀ i, (i < length txs)%nat → filled slots i) → slots = Some <$> txs.
Proof.
  intros [Hl Hs] Hf. apply list_eq. intros i. rewrite list_lookup_fmap.
  destruct (decide (i < length txs)%nat) as [Hi|Hi].
  - destruct (Hf i Hi) as [tx E]. by rewrite E, (Hs _ _ E).
  - rewrite !(proj2 (lookup_ge_None _ _)) by lia. done.
Qed.

Lemma enumerate_snoc {A} (l : list A) x : with_index (l ++ [x]) = with_index l ++ [(Z.of_nat (length l), x)].
Proof. rewrite !enumerate_eq, imap_app. cbn. by rewrite Nat.add_0_r. Qed.

(** What the mempool pass of [fill_up] computes on the first transactions. *)
Lemma fill_loop pre slots l1 l2 :
  length pre = length txs → sound slots → txs = l1 ++ l2 →
  ∃ s' m', foldM (fill_slot c nonce pre) (slots, []) (with_index ((λ tx, sid tx) <$> l1)) = Ok (s', m')
    ∧ sound s' ∧ mono slots s'
    ∧ (∀ i, (i < length l1)%nat → pre !! i = Some false → filled s' i ∨ Z.of_nat i ∈ m')
    ∧ Forall (λ z, ∃ i tx, z = Z.of_nat i ∧ txs !! i = Some tx ∧ pre !! i = Some false) m'
    ∧ (∀ i tx, (i < length l1)%nat → txs !! i = Some tx → pre !! i = Some false →
         find_mempool_tx_by_short_id (sid tx) nonce c = None → Z.of_nat i ∈ m').
Proof.
  intros Hp Hs. revert l2. induction l1 as [|x l1 IH] using rev_ind; intros l2 Htx.
  { exists slots, []. split_and!; [done|done|by intros ?|cbn; lia|done|cbn; lia]. }
  rewrite <- app_assoc in Htx. destruct (IH _ Htx) as (s1 & m1 & E & Hs1 & Hm1 & Hf & Hv & Hn). clear IH.
  assert (txs !! length l1 = Some x) as Hx by (by rewrite Htx, lookup_app_r, Nat.sub_diag by lia).
  pose proof (lookup_lt_Some _ _ _ Hx) as Hlt.
  rewrite fmap_app. cbn [fmap list_fmap]. rewrite enumerate_snoc, foldM_app, E, length_fmap.
  cbn [mbind result_bind foldM]. unfold fill_slot at 1. cbv zeta beta iota.
  destruct (lookup_lt_is_Some_2 pre (length l1)) as [p Ep]; [lia|].
  rewrite (get_slot_nat _ _ _ Ep). cbn [mbind result_bind]. rewrite length_app. cbn [length].
  assert (∀ i, (i < length l1 + 1)%nat → (i < length l1)%nat ∨ i = length l1) as Hsplit by lia.
  destruct p; cbn [mbind result_bind].
  - exists s1, m1. split_and!; try done.
    + intros i Hi Hpi. destruct (Hsplit i Hi) as [Hl | ->]; [by apply Hf|congruence].
    + intros i tx Hi Ht Hpi Hnone. destruct (Hsplit i Hi) as [Hl | ->]; [by eapply Hn|congruence].
  - destruct (find_mempool_tx_by_short_id (sid x) nonce c) as [t|] eqn:Ef.
    + apply (find_sound _ _ _ Hx) in Ef as Et. subst t.
      destruct (sound_set s1 _ _ Hs1 Hx) as (s2 & E2 & Hs2 & Hf2 & Hm2). rewrite E2. cbn [mbind result_bind].
      exists s2, m1. split_and!; try done; [by eapply mono_trans| |].
      * intros i Hi Hpi. destruct (Hsplit i Hi) as [Hl | ->]; [|by left].
        destruct (Hf i Hl Hpi); [left; by apply Hm2|by right].
      * intros i tx Hi Ht Hpi Hnone. destruct (Hsplit i Hi) as [Hl | ->]; [by eapply Hn|congruence].
    + exists s1, (m1 ++ [Z.of_nat (length l1)]). split_and!; try done.
      * intros i Hi Hpi. destruct (Hsplit i Hi) as [Hl | ->]; [|right; set_solver].
        destruct (Hf i Hl Hpi); [by left|right; set_solver].
      * apply Forall_app. split; [done|]. constructor; [|done]. by exists (length l1), x.
      * intros i tx Hi Ht Hpi Hnone. destruct (Hsplit i Hi) as [Hl | ->]; [|set_solver].
        apply elem_of_app. left. by eapply Hn.
Qed.

(** The second pass of [apply_block_txn] fills what is left. *)
Lemma refill_loop slots l1 l2 :
  sound slots → txs = l1 ++ l2 →
  (∀ i tx, txs !! i = Some tx → filled slots i ∨ find_mempool_tx_by_short_id (sid tx) nonce c ≠ None) →
  ∃ s', foldM (refill_slot c nonce) slots (with_index ((λ tx, sid tx) <$> l1)) = Ok s'
    ∧ sound s' ∧ mono slots s' ∧ ∀ i, (i < length l1)%nat → filled s' i.
Proof.
  intros Hs Htx Hfind. revert l2 Htx. induction l1 as [|x l1 IH] using rev_ind; intros l2 Htx.
  { exists slots. split_and!; [done|done|by intros ?|cbn; lia]. }
  rewrite <- app_assoc in Htx. destruct (IH _ Htx) as (s1 & E & Hs1 & Hm1 & Hf). clear IH.
  assert (txs !! length l1 = Some x) as Hx by (by rewrite Htx, lookup_app_r, Nat.sub_diag by lia).
  pose proof (lookup_lt_Some _ _ _ Hx) as Hlt.
  rewrite fmap_app. cbn [fmap list_fmap]. rewrite enumerate_snoc, foldM_app, E, length_fmap.
  cbn [mbind result_bind foldM]. unfold refill_slot at 1. cbv zeta beta iota.
  assert (∀ s, (∀ i, (i < length l1)%nat → filled s i) → filled s (length l1) →
            ∀ i, (i < length (l1 ++ [x]))%nat → filled s i) as Hall.
  { intros s Ha Hb i Hi. rewrite length_app in Hi. cbn in Hi.
    destruct (decide (i = length l1)) as [->|]; [done|apply Ha; lia]. }
  destruct (s1 !! length l1) as [cur|] eqn:Ec.
  2: { apply lookup_ge_None in Ec. destruct Hs1. lia. }
  rewrite (get_slot_nat _ _ _ Ec). cbn [mbind result_bind]. destruct cur as [t|]; cbn [mbind result_bind].
  { exists s1. split_and!; try done. apply Hall; [done|]. by exists t. }
  destruct (Hfind _ _ Hx) as [[t Ht]%Hm1|Hne].
  { congruence. }
  destruct (find_mempool_tx_by_short_id (sid x) nonce c) as [t|] eqn:Ef; [|done].
  apply (find_sound _ _ _ Hx) in Ef as ->.
  destruct (sound_set s1 _ _ Hs1 Hx) as (s2 & E2 & Hs2 & Hf2 & Hm2). rewrite E2. cbn [mbind result_bind].
  exists s2. split_and!; try done; [by eapply mono_trans|]. apply Hall; [|done].
  intros i Hi. by apply Hm2, Hf.
Qed.

(** The bodies the sender returns fit the missing slots. *)
Lemma supply_loop compact pre m slots :
  cb_short_ids compact = (λ tx, sid tx) <$> txs → cb_nonce compact = nonce → sound slots →
  Forall (λ z, ∃ i tx, z = Z.of_nat i ∧ txs !! i = Some tx ∧ pre !! i = Some false) m →
  ∃ tm s', mapM (λ z : Z, txs !! Z.to_nat z) m = Some tm
    ∧ foldM (place_supplied compact pre) slots (zip m tm) = Ok s'
    ∧ sound s' ∧ mono slots s' ∧ ∀ z, z ∈ m → filled s' (Z.to_nat z).
Proof.
  intros Hsid Hnon Hs Hm. revert slots Hs. induction Hm as [|z m (i & tx & -> & Hi & Hp) Hm IH]; intros slots Hs.
  { exists [], slots. split_and!; [done|done|done|by intros ?|set_solver]. }
  pose proof (lookup_lt_Some _ _ _ Hi) as Hlt.
  destruct (sound_set slots _ _ Hs Hi) as (s1 & E1 & Hs1 & Hf1 & Hm1).
  destruct (IH s1 Hs1) as (tm & s2 & Em & E2 & Hs2 & Hm2 & Hf2). clear IH.
  exists (tx :: tm), s2. cbn [mapM]. rewrite Nat2Z.id, Hi. cbn [mbind option_bind].
  split_and!; [|  |done|by eapply mono_trans|].
  - by rewrite Em.
  - assert (place_supplied compact pre slots (Z.of_nat i, tx) = Ok s1) as E.
    { unfold place_supplied. cbv zeta beta iota. rewrite Hsid. unfold lenZ.
      rewrite length_fmap, (proj2 (Z.leb_gt _ _)) by lia.
      rewrite (get_slot_nat _ _ _ Hp). cbn [mbind result_bind].
      rewrite (get_slot_nat _ i (sid tx)) by (by rewrite list_lookup_fmap, Hi). cbn [mbind result_bind].
      rewrite Hnon, bool_decide_eq_true_2 by done. done. }
    cbn [zip_with foldM]. by rewrite E.
  - intros z [->|Hz]%elem_of_cons; [|by apply Hf2]. rewrite Nat2Z.id. by apply Hm2.
Qed.
End Relay.

Section Claims.
Context `{HX : Hex, HXok : !HexOk, B3 : Blake3, B3ok : !Blake3Ok, SIP : SipHash}.
Context {C : Type} `{BV : BlockchainView C}.

Lemma from_block_inv b compact :
  from_block b = Ok compact →
  ∃ hash, header_hash (E:=NetError) (header b) = Ok hash
    ∧ cb_header compact = header b
    ∧ cb_short_ids compact = (λ tx, short_id (txid tx) (cb_nonce compact)) <$> b_transactions b
    ∧ (cb_prefilled_txs compact = []
       ∨ ∃ first rest, b_transactions b = first :: rest ∧ cb_prefilled_txs compact = [(0, first)]).
Proof.
  unfold from_block. cbv zeta. intros H. apply bind_ok_inv in H as (hash & Eh & H). injection H as <-.
  exists hash. cbn [cb_header cb_nonce cb_short_ids cb_prefilled_txs]. split_and!; try done.
  destruct (b_transactions b) as [|first rest]; [by left|].
  destruct (tx_is_coinbase first); [right; by exists first, rest|by left].
Qed.

Lemma prefilled_from_block b compact :
  from_block b = Ok compact →
  ∃ slots pre, prefilled compact = Ok (slots, pre) ∧ sound (b_transactions b) slots
    ∧ length pre = length (b_transactions b) ∧ ∀ i, pre !! i = Some true → filled slots i.
Proof.
  intros H. apply from_block_inv in H as (hash & _ & _ & Es & Ep). unfold prefilled. cbv zeta.
  rewrite Es, length_fmap.
  assert (sound (b_transactions b) (replicate (length (b_transactions b)) None)) as Hs0.
  { split; [apply length_replicate|]. intros i tx Hi. by apply lookup_replicate in Hi as [? _]. }
  destruct Ep as [-> | (first & rest & Et & ->)].
  - eexists _, _. split; [done|]. split_and!; [done|apply length_replicate|].
    intros i Hi. by apply lookup_replicate in Hi as [? _].
  - assert (b_transactions b !! 0%nat = Some first) as H0 by by rewrite Et.
    destruct (sound_set (b_transactions b) _ 0 first Hs0 H0) as (s' & E & Hs & Hf & Hm).
    exists s', (<[0%nat := true]> (replicate (length (b_transactions b)) false)).
    cbn [foldM]. unfold place_prefilled.
    rewrite (proj2 (Z.leb_gt _ _)) by (rewrite Et; cbn [length]; lia).
    change 0 with (Z.of_nat 0) at 1 2. rewrite E. cbn [mbind result_bind].
    rewrite set_slot_nat by (rewrite length_replicate, Et; cbn; lia). cbn [mbind result_bind].
    split_and!; [done|done|by rewrite length_insert, length_replicate|].
    intros [|i] Hi; [done|]. rewrite list_lookup_insert_ne in Hi by done.
    by apply lookup_replicate in Hi as [? _].
Qed.

Lemma mapM_expect {E} (txs : list Transaction) : mapM_result (E:=E) expect (Some <$> txs) = Ok txs.
Proof.
  induction txs as [|tx txs IH]; [done|]. rewrite fmap_cons.
  cbn [mapM_result expect mbind result_bind]. by rewrite IH.
Qed.

Lemma mapM_with_index (txs : list Transaction) :
  mapM_result (λ p : Z * option Transaction, match p.2 with Some tx => Ok tx | None => still_missing p.1 end)
    (with_index (Some <$> txs)) = Ok txs.
Proof.
  apply mapM_result_Forall2. rewrite enumerate_eq. apply Forall2_same_length_lookup_2.
  - by rewrite length_imap, length_fmap.
  - intros i p tx Hp Hi. rewrite list_lookup_imap, list_lookup_fmap, Hi in Hp. by injection Hp as <-.
Qed.

Lemma assemble_ok b :
  merkle_root (E:=NetError) (txid <$> b_transactions b) = Ok (b_tx_root b) →
  assemble_and_verify (header b) (b_transactions b) = Ok b.
Proof.
  intros H. unfold assemble_and_verify. rewrite H. cbn [mbind result_bind].
  rewrite decide_True by done. by rewrite from_header_header.
Qed.

(** C23: a reconstructed block fits the announcement.  Whatever short ids, prefilled
    bodies and answers a peer sends, a block returned by [fill_up] or
    [apply_block_txn] carries the announced header, as many transactions as short ids
    were announced, and transactions whose Merkle root is the one the header commits
    to.  If the header is that of some block with just as many transactions, the result
    is that block, unless a hash collides, where the transactions of both blocks are
    well formed (constructor parameters without commas and the like).  A different
    number of short ids is not excluded: [padded_block_reconstructed] below repeats the
    last transaction under the same root. *)
Theorem compact_reconstruction_sound (compact : CompactBlock) (c : C) (b : Block) :
  (fill_up compact c = Ok (Complete b) ∨ ∃ mi txn, apply_block_txn compact mi txn c = Ok b) →
  header b = cb_header compact
  ∧ length (b_transactions b) = length (cb_short_ids compact)
  ∧ merkle_root (E:=NetError) (txid <$> b_transactions b) = Ok (b_tx_root b)
  ∧ ∀ b0, header b0 = cb_header compact → length (b_transactions b0) = length (cb_short_ids compact) →
      merkle_root (E:=NetError) (txid <$> b_transactions b0) = Ok (b_tx_root b0) →
      Forall wf_tx (b_transactions b) → Forall wf_tx (b_transactions b0) →
      collision_free_on ((serialize_transaction_signed <$> b_transactions b)
        ++ (serialize_transaction_signed <$> b_transactions b0)
        ++ merkle_preimages (length (b_transactions b)) (txid <$> b_transactions b)
        ++ merkle_preimages (length (b_transactions b0)) (txid <$> b_transactions b0)) →
      b = b0.
Proof.
  intros H.
  assert (∃ txs, length txs = length (cb_short_ids compact)
            ∧ assemble_and_verify (cb_header compact) txs = Ok b) as (txs & Hl & Ha).
  { destruct H as [H|(mi & txn & H)]; [by apply fill_up_complete in H|by apply apply_block_txn_inv in H]. }
  apply assemble_inv in Ha as [-> Hr]. cbn [b_transactions from_header b_tx_root].
  rewrite header_from_header. split_and!; [done|done|done|].
  intros b0 Hh Hl0 Hr0 Hwf Hwf0 Hcf.
  assert (b_tx_root b0 = h_tx_root (cb_header compact)) as Et by by rewrite <- Hh.
  rewrite (txs_of_root (E:=NetError) txs (b_transactions b0) (h_tx_root (cb_header compact)));
    [|lia|done|done|done|done|by rewrite <- Et].
  by rewrite <- Hh, from_header_header.
Qed.

(** relay of a block completes in at most one round trip.  A node announces
    a block it holds as a compact block; the receiver either rebuilds that block
    from its own pool, or asks for the missing bodies, the announcing node
    answers, and the receiver rebuilds exactly that block.  It is enough that no
    pool transaction of the receiver shares a short id with a different
    transaction of the block. *)
Theorem compact_relay_complete {S : Type} `{SV : !BlockchainView S} (b : Block) (compact : CompactBlock)
    (sender : S) (c : C) :
  from_block b = Ok compact →
  wf_header (header b) →
  merkle_root (E:=NetError) (txid <$> b_transactions b) = Ok (b_tx_root b) →
  bv_block_by_hash sender (b_hash b) = Some b →
  no_clash (b_transactions b) (cb_nonce compact) c →
  fill_up compact c = Ok (Complete b)
  ∨ ∃ req txn, fill_up compact c = Ok (Missing req)
      ∧ handle_get_block_txn req sender = Some txn
      ∧ apply_block_txn compact (gb_missing_indices req) txn c = Ok b.
Proof.
  intros Hfb Hwf Hroot Hsend Hclash.
  destruct (prefilled_from_block b compact Hfb) as (slots & pre & Epre & Hs & Hpl & Hpf).
  destruct (from_block_inv b compact Hfb) as (hash & Eh & Ehd & Esid & _).
  destruct (fill_loop _ _ c Hclash pre slots (b_transactions b) []) as (s' & m & Ef & Hs' & Hm & Hfill & Hv & Hn);
    [done|done|by rewrite app_nil_r|]. rewrite <- Esid in Ef.
  unfold fill_up. rewrite Epre. cbn [mbind result_bind]. rewrite Ef. cbn [mbind result_bind].
  assert (∀ i, (i < length (b_transactions b))%nat → pre !! i = Some true ∨ pre !! i = Some false) as Hpre.
  { intros i Hi. destruct (lookup_lt_is_Some_2 pre i) as [[] E]; [lia|by left|by right]. }
  destruct m as [|z m]; [left|right].
  - assert (s' = Some <$> b_transactions b) as ->.
    { apply (sound_complete _ _ Hs'). intros i Hi. destruct (Hpre i Hi) as [Ht|Hf].
      - by apply Hm, Hpf.
      - destruct (Hfill i Hi Hf) as [|Hin]; [done|by apply elem_of_nil in Hin]. }
    rewrite mapM_expect. cbn [mbind result_bind]. rewrite Ehd. by rewrite assemble_ok.
  - set (mi := z :: m) in *.
    destruct (supply_loop _ (cb_nonce compact) c Hclash compact pre mi slots Esid eq_refl Hs Hv)
      as (tm & s1 & Em & E1 & Hs1 & Hm1 & Hf1).
    assert (hex_encode hash = b_hash b) as Hhash.
    { destruct Hwf as (_ & _ & _ & _ & _ & _ & _ & _ & _ & Hh). unfold header_hash in Eh, Hh.
      destruct (serialize_header (E:=string) (header b)) as [hb|e|] eqn:Eser; [|done..].
      rewrite (serialize_header_result _ _ Eser) in Eh. cbn in Eh, Hh.
      injection Eh as <-. by injection Hh. }
    rewrite Ehd, Eh. cbn [mbind result_bind].
    exists {| gb_block_hash := hash; gb_missing_indices := mi |}, {| bt_block_hash := hash; bt_txs := tm |}.
    split; [done|]. cbn [gb_missing_indices]. split.
    + unfold handle_get_block_txn. cbn [gb_block_hash gb_missing_indices]. rewrite Hhash, Hsend.
      cbn [mbind option_bind]. by rewrite Em.
    + unfold apply_block_txn. cbn [bt_txs bt_block_hash].
      assert (length tm = length mi) as -> by (symmetry; by eapply length_mapM).
      rewrite Nat.eqb_refl. cbn [negb]. rewrite Ehd, Eh. cbn [mbind result_bind].
      rewrite decide_False by (intros Hne; by apply Hne). rewrite Epre. cbn [mbind result_bind].
      rewrite E1. cbn [mbind result_bind].
      destruct (refill_loop _ _ c Hclash s1 (b_transactions b) []) as (s2 & E2 & Hs2 & _ & Hf2);
        [done|by rewrite app_nil_r| |].
      { intros i tx Hi. pose proof (lookup_lt_Some _ _ _ Hi) as Hlt.
        destruct (Hpre i Hlt) as [Ht|Hf]; [left; by apply Hm1, Hpf|].
        destruct (find_mempool_tx_by_short_id (short_id (txid tx) (cb_nonce compact)) (cb_nonce compact) c) eqn:Efd;
          [by right|]. left. rewrite <- (Nat2Z.id i). apply Hf1. by eapply Hn. }
      rewrite <- Esid in E2. rewrite E2. cbn [mbind result_bind].
      rewrite (sound_complete _ _ Hs2 Hf2), mapM_with_index. cbn [mbind result_bind].
      by rewrite assemble_ok.
Qed.
End Claims.

(** ** Witnesses *)

#[local] Existing Instance toy_hex.
#[local] Existing Instance toy_blake3.
#[local] Existing Instance toy_hex_ok.
#[local] Existing Instance toy_blake3_ok.
#[local] Instance toy_sip : SipHash := λ msg, from_le_bytes (take 8 (blake3 msg)).

(** A node reduced to its blocks and its pool. *)
#[local] Instance list_view : BlockchainView (list Block * list Transaction) := {|
  bv_tip_hash c := from_option b_hash "" (last c.1);
  bv_chain_len c := length c.1;
  bv_chain_contains_tx c tx := false;
  bv_mempool_contains c id := false;
  bv_mempool_tx c id := None;
  bv_mempool_txs c := c.2;
  bv_block_by_hash c h := snd <$> list_find (λ b, b_hash b = h) c.1;
  bv_chain_contains_block c h := false;
  bv_headers_from_height c from n := [];
  bv_blocks_by_hashes c hs n := []
|}.

Definition sample_compact : CompactBlock :=
  match from_block sample_block with
  | Ok c => c
  | _ => {| cb_header := header sample_block; cb_nonce := 0; cb_short_ids := []; cb_prefilled_txs := [] |}
  end.

Definition receiver : list Block * list Transaction := ([], [sample_transfer; sample_call]).
Definition sender : list Block * list Transaction := ([sample_block], []).

Lemma receiver_no_clash : no_clash (b_transactions sample_block) (cb_nonce sample_compact) receiver.
Proof.
  assert (Forall (λ tx, Forall (λ tx', short_id (txid tx) (cb_nonce sample_compact)
    = short_id (txid tx') (cb_nonce sample_compact) → tx = tx') (b_transactions sample_block))
    (bv_mempool_txs receiver)) as H by by_eval.
  intros tx tx' Htx Htx'. rewrite Forall_forall in H. specialize (H tx Htx).
  rewrite Forall_forall in H. exact (H tx' Htx').
Qed.

Lemma compact_relay_complete_witness :
  fill_up sample_compact receiver = Ok (Complete sample_block)
  ∨ ∃ req txn, fill_up sample_compact receiver = Ok (Missing req)
      ∧ handle_get_block_txn req sender = Some txn
      ∧ apply_block_txn sample_compact (gb_missing_indices req) txn receiver = Ok sample_block.
Proof.
  apply (compact_relay_complete (S:=list Block * list Transaction)).
  - vm_compute. reflexivity.
  - by_eval.
  - vm_compute. reflexivity.
  - vm_compute. reflexivity.
  - exact receiver_no_clash.
Defined.

Definition full_receiver : list Block * list Transaction :=
  ([], [sample_transfer; sample_create; sample_call]).

(** What the full receiver rebuilds from its pool. *)
Definition rebuilt : Block :=
  match fill_up sample_compact full_receiver with
  | Ok (Complete b) => b
  | _ => from_header (cb_header sample_compact) []
  end.

Lemma rebuilt_complete : fill_up sample_compact full_receiver = Ok (Complete rebuilt).
Proof. vm_compute. reflexivity. Qed.

Lemma compact_reconstruction_sound_witness :
  header rebuilt = cb_header sample_compact
  ∧ length (b_transactions rebuilt) = length (cb_short_ids sample_compact)
  ∧ rebuilt = sample_block.
Proof.
  destruct (compact_reconstruction_sound sample_compact full_receiver rebuilt (or_introl rebuilt_complete))
    as (H1 & H2 & _ & H4).
  split; [exact H1|]. split; [exact H2|]. apply H4; [vm_compute; reflexivity..|by_eval|by_eval|].
  by_eval.
Defined.

(** The root does not fix the number of transactions: with one short id more and
    the last of three transactions repeated, a block that was never announced is
    rebuilt under the same header. *)
Definition three : list Transaction := take 3 sample_txs.
Definition padded_compact : CompactBlock := {|
  cb_header := sample_header three; cb_nonce := 0;
  cb_short_ids := replicate 4 (replicate 8 x00);
  cb_prefilled_txs := with_index (three ++ [sample_create]) |}.

Example padded_block_reconstructed :
  fill_up padded_compact receiver
  = Ok (Complete (from_header (sample_header three) (three ++ [sample_create]))).
Proof. vm_compute. reflexivity. Qed.
