(* ===== verification/Erlay.v ===== *)
(** * Erlay set reconciliation (crates/strangecoin-net/src/gossip/erlay)

    Sketch envelopes ([mincut.rs], the sorted-list implementation that is
    compiled in by default), the per-peer reconciliation state machine
    ([reconcile.rs]) and the message that carries a sketch ([mod.rs]).  An
    [Instant] is an integer number of ticks; the clock is an argument. *)

From S2P Require Import Prelude Bytes Abi Types Serialize Net.
From stdpp Require Import sorting gmap.
Open Scope Z_scope.

Definition SKETCH_BITS : Z := 64.
Definition IMPL_STUB : Z := 0.
Definition MAGIC : list byte := as_bytes "ERS1".
Definition ENVELOPE_HEADER_LEN : nat := 15.

Abbreviation TxIdSet := (gset (list byte)).

Record Envelope := { ev_capacity : Z; ev_elements : list Z }.

(** First 8 bytes, big-endian; 0 is not an element. *)
Definition element (txid : list byte) : option Z :=
  let id := from_be_bytes (take 8 txid) in
  if id =? 0 then None else Some id.

(** [filter_map(short_id)], [sort_unstable], [dedup]. *)
Definition sketch_elements (set : TxIdSet) : list Z :=
  dedup (merge_sort (≤) (omap element (elements set))).

Definition create_sketch (set : TxIdSet) (capacity : Z) : list byte :=
  let capacity := Z.max 1 (Z.min capacity (two32 - 1)) in
  let els := sketch_elements set in
  let count := if lenZ els <? two32 then lenZ els else two32 - 1 in
  MAGIC ++ [byte_of IMPL_STUB] ++ to_le_bytes 2 SKETCH_BITS ++ to_le_bytes 4 capacity
  ++ to_le_bytes 4 count ++ concat (to_le_bytes 8 <$> els).

(** [payload.as_chunks::<8>()]. *)
Fixpoint sketch_chunks (n : nat) (payload : list byte) : list (list byte) :=
  match n with O => [] | S n => take 8 payload :: sketch_chunks n (drop 8 payload) end.

Definition sketch_malformed (detail : string) : NetError := Protocol ("erlay: sketch " +:+ detail).

Definition push_element (acc : option Z * list Z) (chunk : list byte) : result NetError (option Z * list Z) :=
  let '(prev, els) := acc in
  let e := from_le_bytes chunk in
  match prev with
  | Some p => if e <=? p then Err (sketch_malformed "elements not strictly ascending")
              else Ok (Some e, els ++ [e])
  | None => Ok (Some e, els ++ [e])
  end.

Definition parse_envelope (bytes : list byte) : result NetError Envelope :=
  if (length bytes <? ENVELOPE_HEADER_LEN)%nat then Err (sketch_malformed "header truncated") else
  magic ← range bytes 0 4;
  if decide (magic ≠ MAGIC) then Err (sketch_malformed "bad magic") else
  impl_id ← byte_at bytes 4;
  if negb (byte_val impl_id =? IMPL_STUB)
  then Err (Protocol ("erlay: unsupported sketch implementation " +:+ pretty (byte_val impl_id))) else
  bits ← range bytes 5 2;
  if negb (from_le_bytes bits =? SKETCH_BITS)
  then Err (Protocol ("erlay: unsupported field size " +:+ pretty (from_le_bytes bits) +:+ " bits")) else
  capacity ← range bytes 7 4;
  count ← range bytes 11 4;
  let payload := drop ENVELOPE_HEADER_LEN bytes in
  if negb (from_le_bytes count * 8 =? lenZ payload)
  then Err (sketch_malformed "count exceeds payload length") else
  '(_, els) ← foldM push_element (None, []) (sketch_chunks (length payload / 8) payload);
  Ok {| ev_capacity := from_le_bytes capacity; ev_elements := els |}.

(** The two-pointer walk and the two remainders. *)
Fixpoint xor_sorted (a : list Z) : list Z → list Z :=
  fix walk (b : list Z) : list Z :=
    match a, b with
    | [], _ => b
    | _, [] => a
    | x :: a', y :: b' =>
        if x <? y then x :: xor_sorted a' b
        else if y <? x then y :: walk b'
        else xor_sorted a' b'
    end.

Definition decode_difference (local_sketch remote_sketch : list byte) : result NetError (list Z) :=
  local ← parse_envelope local_sketch;
  remote ← parse_envelope remote_sketch;
  let capacity := Z.min (ev_capacity local) (ev_capacity remote) in
  let difference := xor_sorted (ev_elements local) (ev_elements remote) in
  if capacity <? lenZ difference
  then Err (Protocol ("erlay: difference " +:+ pretty (lenZ difference) +:+ " exceeds capacity " +:+ pretty capacity))
  else Ok difference.

(** ** ERLAY_RECONCILE *)

Definition MAX_ERLAY_SKETCH : Z := 1024 * 1024.

Record ErlayReconcile := { er_respond : bool; er_sketch : list byte }.

Definition erlay_encode (m : ErlayReconcile) : result NetError (list byte) :=
  if MAX_ERLAY_SKETCH <? lenZ (er_sketch m)
  then Err (Protocol ("erlay reconcile: sketch " +:+ pretty (lenZ (er_sketch m)) +:+ " bytes > "
                      +:+ pretty MAX_ERLAY_SKETCH)) else
  Ok (byte_of MSG_ERLAY_RECONCILE :: byte_of (if er_respond m then 1 else 0) :: er_sketch m).

Definition erlay_parse (bytes : list byte) : result NetError ErlayReconcile :=
  let bad := Err (Protocol "erlay reconcile: bad framing") in
  if (length bytes <? 2)%nat then bad else
  ok ← has_tag bytes MSG_ERLAY_RECONCILE;
  if negb ok then bad else
  flag ← byte_at bytes 1;
  respond ← (if byte_val flag =? 0 then Ok false else if byte_val flag =? 1 then Ok true
             else Err (Protocol ("erlay reconcile: respond flag " +:+ pretty (byte_val flag) +:+ " not 0/1")));
  let sketch := drop 2 bytes in
  if MAX_ERLAY_SKETCH <? lenZ sketch
  then Err (Protocol ("erlay reconcile: sketch " +:+ pretty (lenZ sketch) +:+ " bytes > "
                      +:+ pretty MAX_ERLAY_SKETCH))
  else Ok {| er_respond := respond; er_sketch := sketch |}.

(** ** Reconciliation state *)

Definition INITIAL_SKETCH_CAPACITY : Z := 100.
Definition MAX_SKETCH_CAPACITY : Z := 10000.
Definition CAPACITY_GROW_FAILURES : Z := 2.

Record ReconciliationConfig := {
  rc_interval : Z; rc_new_tx_trigger : Z; rc_initial_capacity : Z }.

Record PeerReconciliation := {
  pr_last_set_size : Z; pr_last_sketch : list byte; pr_reconciliation_interval : Z;
  pr_current_capacity : Z; pr_consecutive_failures : Z; pr_mismatch_count : Z }.

Definition peer_reconciliation_new (config : ReconciliationConfig) : PeerReconciliation := {|
  pr_last_set_size := 0; pr_last_sketch := []; pr_reconciliation_interval := rc_interval config;
  pr_current_capacity := rc_initial_capacity config; pr_consecutive_failures := 0;
  pr_mismatch_count := 0 |}.

Record ReconciliationState := {
  rs_known_set : TxIdSet;
  rs_new_txs_since_reconcile : Z;
  rs_last_reconciled : option Z;
  rs_peer_state : gmap NodeId PeerReconciliation;
  rs_config : ReconciliationConfig }.

Definition reconciliation_new (config : ReconciliationConfig) : ReconciliationState := {|
  rs_known_set := ∅; rs_new_txs_since_reconcile := 0; rs_last_reconciled := None;
  rs_peer_state := ∅; rs_config := config |}.

Definition note_new_tx (s : ReconciliationState) (txid : list byte) : ReconciliationState * bool :=
  if decide (txid ∈ rs_known_set s) then (s, false) else
  ({| rs_known_set := {[ txid ]} ∪ rs_known_set s;
      rs_new_txs_since_reconcile := saturating_add64 (rs_new_txs_since_reconcile s) 1;
      rs_last_reconciled := rs_last_reconciled s; rs_peer_state := rs_peer_state s;
      rs_config := rs_config s |}, true).

Definition note_txs (s : ReconciliationState) (txids : list (list byte)) : ReconciliationState * Z :=
  foldl (λ '(s, n) t, let '(s, fresh) := note_new_tx s t in (s, if fresh then n + 1 else n)) (s, 0) txids.

Definition mark_reconciled_at (s : ReconciliationState) (now : Z) : ReconciliationState := {|
  rs_known_set := rs_known_set s; rs_new_txs_since_reconcile := 0;
  rs_last_reconciled := Some now; rs_peer_state := rs_peer_state s; rs_config := rs_config s |}.

Definition due_at (s : ReconciliationState) (now : Z) : bool :=
  if rc_new_tx_trigger (rs_config s) <=? rs_new_txs_since_reconcile s then true else
  match rs_last_reconciled s with
  | None => true
  | Some prev => rc_interval (rs_config s) <=? Z.max 0 (now - prev)
  end.

Definition with_peer (s : ReconciliationState) (peer : NodeId) (r : PeerReconciliation) : ReconciliationState := {|
  rs_known_set := rs_known_set s; rs_new_txs_since_reconcile := rs_new_txs_since_reconcile s;
  rs_last_reconciled := rs_last_reconciled s; rs_peer_state := <[peer := r]> (rs_peer_state s);
  rs_config := rs_config s |}.

(** [entry(peer).or_insert_with(..)], the fresh sketch and its bookkeeping. *)
Definition peer_sketch (s : ReconciliationState) (peer : NodeId) : PeerReconciliation :=
  let record := default (peer_reconciliation_new (rs_config s)) (rs_peer_state s !! peer) in
  {| pr_last_set_size := Z.of_nat (size (rs_known_set s));
     pr_last_sketch := create_sketch (rs_known_set s) (pr_current_capacity record);
     pr_reconciliation_interval := pr_reconciliation_interval record;
     pr_current_capacity := pr_current_capacity record;
     pr_consecutive_failures := pr_consecutive_failures record;
     pr_mismatch_count := pr_mismatch_count record |}.

Definition local_sketch (s : ReconciliationState) (peer : NodeId) : ReconciliationState * list byte :=
  let record := peer_sketch s peer in
  (with_peer s peer record, pr_last_sketch record).

Definition reconciliation_forget_peer (s : ReconciliationState) (peer : NodeId) : ReconciliationState := {|
  rs_known_set := rs_known_set s; rs_new_txs_since_reconcile := rs_new_txs_since_reconcile s;
  rs_last_reconciled := rs_last_reconciled s; rs_peer_state := delete peer (rs_peer_state s);
  rs_config := rs_config s |}.

Definition exclusive_txids (known : TxIdSet) (difference : list Z) : list (list byte) :=
  sort_leaves (filter (λ t, from_option (λ id, bool_decide (id ∈ difference)) false (element t) = true)
                      (elements known)).

Definition on_success (record : PeerReconciliation) (difference : list Z) : PeerReconciliation := {|
  pr_last_set_size := pr_last_set_size record; pr_last_sketch := pr_last_sketch record;
  pr_reconciliation_interval := pr_reconciliation_interval record;
  pr_current_capacity := Z.min (pr_current_capacity record)
                               (Z.max (lenZ difference * 2) INITIAL_SKETCH_CAPACITY);
  pr_consecutive_failures := 0; pr_mismatch_count := pr_mismatch_count record |}.

Definition on_failure (record : PeerReconciliation) : PeerReconciliation :=
  let failures := Z.min (pr_consecutive_failures record + 1) (two32 - 1) in
  let grow := CAPACITY_GROW_FAILURES <=? failures in
  {| pr_last_set_size := pr_last_set_size record; pr_last_sketch := pr_last_sketch record;
     pr_reconciliation_interval := pr_reconciliation_interval record;
     pr_current_capacity := if grow then Z.min (saturating_mul64 (pr_current_capacity record) 2) MAX_SKETCH_CAPACITY
                            else pr_current_capacity record;
     pr_consecutive_failures := if grow then 0 else failures;
     pr_mismatch_count := saturating_add64 (pr_mismatch_count record) 1 |}.

Definition reconcile_at (s : ReconciliationState) (peer : NodeId) (remote : list byte) (now : Z)
    : result NetError (list (list byte)) * ReconciliationState :=
  let record := peer_sketch s peer in
  match decode_difference (pr_last_sketch record) remote with
  | Ok difference =>
      (Ok (exclusive_txids (rs_known_set s) difference),
       mark_reconciled_at (with_peer s peer (on_success record difference)) now)
  | Err e => (Err e, with_peer s peer (on_failure record))
  | Panic => (Panic, s)
  end.
