(* ===== verification/ErlayProps.v ===== *)
(** * Properties of Erlay reconciliation

    The sketch codec, the two-pointer difference against the set-theoretic one,
    a whole round between two nodes, and the invariant of the adaptive capacity. *)

From S2P Require Import Prelude Bytes Abi Types Concrete Serialize SerializeProps Net NetProps Erlay.
From stdpp Require Import sorting gmap.
From Stdlib Require Import Sorting.Sorted.
Open Scope Z_scope.

Abbreviation ascending := (StronglySorted Z.lt).

(** ** The two-pointer difference *)

Lemma xor_sorted_nil_r a : xor_sorted a [] = a.
Proof. by destruct a. Qed.

Lemma xor_sorted_cons x a y b :
  xor_sorted (x :: a) (y :: b)
  = if x <? y then x :: xor_sorted a (y :: b)
    else if y <? x then y :: xor_sorted (x :: a) b else xor_sorted a b.
Proof. done. Qed.

Lemma not_elem_below z y l : z < y → Forall (Z.lt y) l → z ∉ l.
Proof. intros Hz Hl Hin. rewrite Forall_forall in Hl. specialize (Hl z Hin). lia. Qed.

Lemma xor_sorted_spec a b :
  ascending a → ascending b →
  ascending (xor_sorted a b)
  ∧ (∀ m, Forall (Z.lt m) a → Forall (Z.lt m) b → Forall (Z.lt m) (xor_sorted a b))
  ∧ ∀ z, z ∈ xor_sorted a b ↔ (z ∈ a ∧ z ∉ b) ∨ (z ∉ a ∧ z ∈ b).
Proof.
  revert b. induction a as [|x a IHa]; intros b Ha Hb.
  { split_and!; [by destruct b|by destruct b|]. intros z. destruct b; cbn; set_solver. }
  induction b as [|y b IHb].
  { rewrite xor_sorted_nil_r. split_and!; [done|done|]. set_solver. }
  apply StronglySorted_inv in Ha as Ha'. destruct Ha' as [Ha' Hxa].
  apply StronglySorted_inv in Hb as Hb'. destruct Hb' as [Hb' Hyb].
  rewrite xor_sorted_cons. destruct (Z.ltb_spec x y) as [Hxy|Hxy]; [|destruct (Z.ltb_spec y x) as [Hyx|Hyx]].
  - destruct (IHa (y :: b) Ha' Hb) as (IH1 & IH2 & IH3).
    assert (Forall (Z.lt x) (y :: b)) as Hx.
    { constructor; [done|]. eapply Forall_impl; [done|]. cbn. lia. }
    split_and!.
    + constructor; [done|]. by apply IH2.
    + intros m Hm1 Hm2. inversion Hm1; subst. constructor; [done|]. by apply IH2.
    + intros z. rewrite elem_of_cons, IH3, (elem_of_cons a).
      assert (z = x → z ∉ y :: b) by (intros ->; rewrite Forall_forall in Hx; intros Hin; specialize (Hx x Hin); lia).
      assert (z = x → z ∉ a) by (intros -> Hin; rewrite Forall_forall in Hxa; specialize (Hxa x Hin); lia).
      destruct (decide (z = x)); tauto.
  - destruct (IHb Hb') as (IH1 & IH2 & IH3).
    assert (Forall (Z.lt y) (x :: a)) as Hy.
    { constructor; [done|]. eapply Forall_impl; [done|]. cbn. lia. }
    split_and!.
    + constructor; [done|]. by apply IH2.
    + intros m Hm1 Hm2. inversion Hm2; subst. constructor; [done|]. by apply IH2.
    + intros z. rewrite elem_of_cons, IH3, (elem_of_cons b).
      assert (z = y → z ∉ x :: a) by (intros ->; rewrite Forall_forall in Hy; intros Hin; specialize (Hy y Hin); lia).
      assert (z = y → z ∉ b) by (intros -> Hin; rewrite Forall_forall in Hyb; specialize (Hyb y Hin); lia).
      destruct (decide (z = y)); tauto.
  - assert (x = y) as -> by lia. destruct (IHa b Ha' Hb') as (IH1 & IH2 & IH3). split_and!.
    + done.
    + intros m Hm1 Hm2. inversion Hm1; inversion Hm2; subst. by apply IH2.
    + intros z. rewrite IH3, !elem_of_cons.
      assert (z = y → z ∉ a) by (intros -> Hin; rewrite Forall_forall in Hxa; specialize (Hxa y Hin); lia).
      assert (z = y → z ∉ b) by (intros -> Hin; rewrite Forall_forall in Hyb; specialize (Hyb y Hin); lia).
      destruct (decide (z = y)); tauto.
Qed.

(** ** Sketch elements *)

Lemma dedup_elem {A} `{EqDecision A} (l : list A) x : x ∈ dedup l ↔ x ∈ l.
Proof.
  induction l as [|a [|b l] IH]; [done|done|]. change (dedup (a :: b :: l)) with
    (if decide (a = b) then dedup (b :: l) else a :: dedup (b :: l)).
  destruct (decide (a = b)) as [->|]; [rewrite IH; set_solver|]. rewrite !(elem_of_cons _ x a), IH. done.
Qed.

Lemma dedup_ascending l : StronglySorted Z.le l → ascending (dedup l).
Proof.
  induction l as [|a [|b l] IH]; intros Hs; [constructor|by repeat constructor|].
  change (dedup (a :: b :: l)) with (if decide (a = b) then dedup (b :: l) else a :: dedup (b :: l)).
  apply StronglySorted_inv in Hs as [Hs Hall]. destruct (decide (a = b)) as [->|Hne]; [by apply IH|].
  constructor; [by apply IH|]. apply Forall_forall. intros z Hz. apply (proj1 (dedup_elem _ _)) in Hz.
  rewrite Forall_forall in Hall. apply StronglySorted_inv in Hs as [_ Hb].
  assert (a ≤ b) by (apply Hall; left). rewrite Forall_forall in Hb.
  apply elem_of_cons in Hz as [->|Hz]; [lia|]. specialize (Hb z Hz). lia.
Qed.

#[local] Instance Zle_total : Total Z.le.
Proof. intros x y. lia. Qed.
#[local] Instance Zle_trans : Transitive Z.le.
Proof. intros x y z. lia. Qed.

Lemma sketch_elements_ascending set : ascending (sketch_elements set).
Proof.
  apply dedup_ascending. apply Sorted_StronglySorted; [intros ???; lia|]. apply (Sorted_merge_sort _).
Qed.

Lemma elem_of_sketch set z : z ∈ sketch_elements set ↔ ∃ t, t ∈ set ∧ element t = Some z.
Proof.
  unfold sketch_elements. rewrite dedup_elem, merge_sort_Permutation, list_elem_of_omap.
  split; intros (t & H1 & H2); exists t; [by rewrite elem_of_elements in H1|by rewrite elem_of_elements].
Qed.

Lemma element_range t z : element t = Some z → in_u64 z.
Proof.
  unfold element. cbv zeta. destruct (_ =? 0); [done|]. intros [= <-].
  pose proof (from_be_bytes_range (take 8 t)) as H. unfold in_u64. split; [lia|].
  eapply Z.lt_le_trans; [apply H|]. change two64 with (256 ^ 8).
  apply Z.pow_le_mono_r; [lia|]. rewrite length_take. lia.
Qed.

Lemma sketch_elements_u64 set : Forall in_u64 (sketch_elements set).
Proof. apply Forall_forall. intros z (t & _ & Ht)%elem_of_sketch. by eapply element_range. Qed.

(** ** The envelope *)

Lemma from_to_le n z : 0 ≤ z < 256 ^ Z.of_nat n → from_le_bytes (to_le_bytes n z) = z.
Proof. intros. rewrite from_to_le_bytes. by apply Z.mod_small. Qed.

Lemma length_concat_le els : length (concat (to_le_bytes 8 <$> els)) = (8 * length els)%nat.
Proof.
  apply length_concat_fixed. apply Forall_forall. intros. apply length_to_le_bytes.
Qed.

Lemma chunks8_concat els : sketch_chunks (length els) (concat (to_le_bytes 8 <$> els)) = to_le_bytes 8 <$> els.
Proof.
  induction els as [|e els IH]; [done|].
  rewrite fmap_cons. cbn [concat length sketch_chunks].
  rewrite take_app_length', drop_app_length' by (symmetry; apply length_to_le_bytes). by rewrite IH.
Qed.

Lemma push_elements prev acc els :
  (∀ p, prev = Some p → Forall (Z.lt p) els) → ascending els → Forall in_u64 els →
  ∃ prev', foldM push_element (prev, acc) (to_le_bytes 8 <$> els) = Ok (prev', acc ++ els).
Proof.
  revert prev acc. induction els as [|e els IH]; intros prev acc Hp Ha Hu.
  { exists prev. by rewrite app_nil_r. }
  apply StronglySorted_inv in Ha as [Ha He]. apply Forall_cons_1 in Hu as [Hue Hu].
  assert (push_element (prev, acc) (to_le_bytes 8 e) = Ok (Some e, acc ++ [e])) as E.
  { unfold push_element. rewrite from_to_le by done. destruct prev as [p|]; [|done].
    specialize (Hp p eq_refl). apply Forall_inv in Hp. by rewrite (proj2 (Z.leb_gt _ _)). }
  rewrite fmap_cons. cbn [foldM]. rewrite E. cbn [mbind result_bind].
  destruct (IH (Some e) (acc ++ [e])) as [prev' ->]; [by intros p [= <-]|done|done|].
  exists prev'. by rewrite <- app_assoc.
Qed.

(** The capacity an envelope states. *)
Definition clamp (capacity : Z) : Z := Z.max 1 (Z.min capacity (two32 - 1)).

Lemma parse_create_sketch set capacity :
  lenZ (sketch_elements set) < two32 →
  parse_envelope (create_sketch set capacity)
  = Ok {| ev_capacity := clamp capacity; ev_elements := sketch_elements set |}.
Proof.
  intros Hn. unfold create_sketch. cbv zeta. fold (clamp capacity).
  rewrite (proj2 (Z.ltb_lt _ _) Hn). set (els := sketch_elements set) in *.
  assert (0 ≤ clamp capacity < two32) as Hc by (unfold clamp; lia).
  set (bs := MAGIC ++ _).
  pose proof (cursor_start bs) as C0. unfold bs in C0 at 2.
  pose proof (cursor_app _ _ _ _ C0) as C1. pose proof (cursor_app _ _ _ _ C1) as C2.
  pose proof (cursor_app _ _ _ _ C2) as C3. pose proof (cursor_app _ _ _ _ C3) as C4.
  pose proof (cursor_app _ _ _ _ C4) as C5.
  rewrite !length_to_le_bytes in *. change (length MAGIC) with 4%nat in *. cbn [length plus] in *.
  pose proof (cursor_length _ _ _ C5) as Hl. rewrite length_concat_le in Hl.
  unfold parse_envelope, ENVELOPE_HEADER_LEN. rewrite (proj2 (Nat.ltb_ge _ _)) by lia.
  rewrite (range_ok _ _ _ _ _ C0) by done. cbn [mbind result_bind].
  rewrite decide_False by (intros Hne; by apply Hne).
  apply cursor_byte in C1 as [E1 _]. unfold byte_at. rewrite E1. cbn [expect mbind result_bind].
  change (byte_val (byte_of IMPL_STUB) =? IMPL_STUB) with true. cbn [negb].
  rewrite (range_ok _ _ _ _ _ C2) by apply length_to_le_bytes. cbn [mbind result_bind].
  change (from_le_bytes (to_le_bytes 2 SKETCH_BITS) =? SKETCH_BITS) with true. cbn [negb].
  rewrite (range_ok _ _ _ _ _ C3), (range_ok _ _ _ _ _ C4) by apply length_to_le_bytes.
  cbn [mbind result_bind]. rewrite !from_to_le by (unfold lenZ in *; lia).
  rewrite (cursor_drop _ _ _ C5). unfold lenZ. rewrite length_concat_le.
  rewrite (proj2 (Z.eqb_eq _ _)) by lia. cbn [negb].
  replace (8 * length els / 8)%nat with (length els) by (rewrite Nat.mul_comm, Nat.div_mul; lia).
  rewrite chunks8_concat.
  destruct (push_elements None [] els) as [prev ->];
    [done|apply sketch_elements_ascending|apply sketch_elements_u64|done].
Qed.

(** ** One round *)

(** What one side holds that the other cannot have: its element is not in the
    other sketch. *)
Definition exclusive (known other : TxIdSet) (t : list byte) : Prop :=
  t ∈ known ∧ ∃ z, element t = Some z ∧ ∀ u, u ∈ other → element u ≠ Some z.

Lemma exclusive_txids_spec known other t :
  t ∈ exclusive_txids known (xor_sorted (sketch_elements known) (sketch_elements other))
  ↔ exclusive known other t.
Proof.
  unfold exclusive_txids, exclusive. rewrite sort_leaves_perm, list_elem_of_filter, elem_of_elements.
  destruct (xor_sorted_spec (sketch_elements known) (sketch_elements other)) as (_ & _ & Hx);
    [apply sketch_elements_ascending..|].
  destruct (element t) as [z|] eqn:Ez; cbn [from_option].
  - rewrite bool_decide_eq_true, Hx, !elem_of_sketch. split.
    + intros [H Ht]. split; [done|]. exists z. split; [done|]. intros u Hu Eu.
      destruct H as [[_ H]|[H _]]; apply H; [by exists u|by exists t].
    + intros (Ht & z' & [= <-] & Hn). split; [|done]. left. split; [by exists t|].
      intros (u & Hu & Eu). by apply (Hn u).
  - split; [by intros [? _]|]. by intros (_ & z & ? & _).
Qed.

Lemma exclusive_txids_sorted known d :
  StronglySorted bytes_le (exclusive_txids known d) ∧ NoDup (exclusive_txids known d).
Proof.
  split; [apply sort_leaves_sorted|]. unfold exclusive_txids. rewrite sort_leaves_perm.
  apply NoDup_filter, NoDup_elements.
Qed.

(** The elements on which two sketches differ, and the capacity of a round. *)
Definition sketch_diff (a b : TxIdSet) : list Z := xor_sorted (sketch_elements a) (sketch_elements b).
Definition round_capacity (a b : ReconciliationState) (pa pb : NodeId) : Z :=
  Z.min (clamp (pr_current_capacity (peer_sketch a pb))) (clamp (pr_current_capacity (peer_sketch b pa))).

Definition small_set (s : TxIdSet) : Prop := lenZ (sketch_elements s) < two32.

Lemma peer_sketch_eq s p :
  pr_last_sketch (peer_sketch s p) = create_sketch (rs_known_set s) (pr_current_capacity (peer_sketch s p)).
Proof. done. Qed.

Lemma decode_round a b pa pb :
  small_set (rs_known_set a) → small_set (rs_known_set b) →
  decode_difference (pr_last_sketch (peer_sketch a pb)) (pr_last_sketch (peer_sketch b pa))
  = if round_capacity a b pa pb <? lenZ (sketch_diff (rs_known_set a) (rs_known_set b))
    then Err (Protocol ("erlay: difference " +:+ pretty (lenZ (sketch_diff (rs_known_set a) (rs_known_set b)))
                        +:+ " exceeds capacity " +:+ pretty (round_capacity a b pa pb)))
    else Ok (sketch_diff (rs_known_set a) (rs_known_set b)).
Proof.
  intros Ha Hb. rewrite !peer_sketch_eq. unfold decode_difference.
  rewrite !parse_create_sketch by done. done.
Qed.

Lemma round_ok a b pa pb now :
  small_set (rs_known_set a) → small_set (rs_known_set b) →
  lenZ (sketch_diff (rs_known_set a) (rs_known_set b)) ≤ round_capacity a b pa pb →
  ∃ xs a', reconcile_at a pb (local_sketch b pa).2 now = (Ok xs, a')
    ∧ (∀ t, t ∈ xs ↔ exclusive (rs_known_set a) (rs_known_set b) t)
    ∧ StronglySorted bytes_le xs ∧ NoDup xs
    ∧ rs_known_set a' = rs_known_set a ∧ due_at a' now = (rc_new_tx_trigger (rs_config a) <=? 0) || (rc_interval (rs_config a) <=? 0).
Proof.
  intros Ha Hb Hc. unfold reconcile_at, local_sketch. cbv zeta. cbn [snd].
  rewrite decode_round, (proj2 (Z.ltb_ge _ _)) by done. eexists _, _. split; [done|].
  destruct (exclusive_txids_sorted (rs_known_set a) (sketch_diff (rs_known_set a) (rs_known_set b))) as [Hs Hn].
  split_and!; [intros t; apply exclusive_txids_spec|done|done|done|].
  unfold due_at, mark_reconciled_at, with_peer. cbn. rewrite Z.sub_diag.
  by destruct (_ <=? 0).
Qed.

Lemma round_err a b pa pb now :
  small_set (rs_known_set a) → small_set (rs_known_set b) →
  round_capacity a b pa pb < lenZ (sketch_diff (rs_known_set a) (rs_known_set b)) →
  ∃ e, reconcile_at a pb (local_sketch b pa).2 now
       = (Err e, with_peer a pb (on_failure (peer_sketch a pb))).
Proof.
  intros Ha Hb Hc. unfold reconcile_at, local_sketch. cbv zeta. cbn [snd].
  rewrite decode_round, (proj2 (Z.ltb_lt _ _)) by done. by eexists.
Qed.

Lemma sketch_diff_comm_len a b : lenZ (sketch_diff a b) = lenZ (sketch_diff b a).
Proof.
  assert (∀ x y, ascending x → ascending y → (∀ z, z ∈ x ↔ z ∈ y) → length x = length y) as Hlen.
  { intros x y Hx Hy He. apply Permutation_length, NoDup_Permutation; [| |done].
    - clear -Hx. induction Hx as [|z x _ IH Hz]; constructor; [|done].
      intros Hin. rewrite Forall_forall in Hz. specialize (Hz z Hin). lia.
    - clear -Hy. induction Hy as [|z x _ IH Hz]; constructor; [|done].
      intros Hin. rewrite Forall_forall in Hz. specialize (Hz z Hin). lia. }
  unfold lenZ, sketch_diff. f_equal.
  destruct (xor_sorted_spec (sketch_elements a) (sketch_elements b)) as (H1 & _ & E1);
    [apply sketch_elements_ascending..|].
  destruct (xor_sorted_spec (sketch_elements b) (sketch_elements a)) as (H2 & _ & E2);
    [apply sketch_elements_ascending..|].
  apply Hlen; [done|done|]. intros z. rewrite E1, E2. tauto.
Qed.

Lemma round_capacity_comm a b pa pb : round_capacity a b pa pb = round_capacity b a pb pa.
Proof. unfold round_capacity. lia. Qed.

(** C24: a reconciliation round between two nodes transmits exactly what is
    missing.  When the sketches differ in no more elements than the smaller of
    the two capacities, each side obtains, sorted and without repetition, the
    transaction ids it holds whose element the other sketch lacks, and after the
    two announcements both nodes know every id of either set that has an element
    (provided no two ids share one).  When they differ in more, both sides get an
    error, the trigger to fall back to full relay. *)
Theorem erlay_round_exact (a b : ReconciliationState) (pa pb : NodeId) (now now' : Z) :
  small_set (rs_known_set a) → small_set (rs_known_set b) →
  let ra := reconcile_at a pb (local_sketch b pa).2 now in
  let rb := reconcile_at b pa (local_sketch a pb).2 now' in
  if round_capacity a b pa pb <? lenZ (sketch_diff (rs_known_set a) (rs_known_set b))
  then (∃ e, ra.1 = Err e) ∧ (∃ e, rb.1 = Err e)
  else ∃ xa xb, ra.1 = Ok xa ∧ rb.1 = Ok xb
    ∧ (∀ t, t ∈ xa ↔ exclusive (rs_known_set a) (rs_known_set b) t)
    ∧ (∀ t, t ∈ xb ↔ exclusive (rs_known_set b) (rs_known_set a) t)
    ∧ StronglySorted bytes_le xa ∧ NoDup xa ∧ StronglySorted bytes_le xb ∧ NoDup xb
    ∧ ((∀ t u, t ∈ rs_known_set a ∪ rs_known_set b → u ∈ rs_known_set a ∪ rs_known_set b →
          is_Some (element t) → element t = element u → t = u) →
       ∀ t, t ∈ rs_known_set a ∪ rs_known_set b → is_Some (element t) →
         (t ∈ rs_known_set a ∨ t ∈ xb) ∧ (t ∈ rs_known_set b ∨ t ∈ xa)).
Proof.
  intros Ha Hb. cbv zeta.
  destruct (Z.ltb_spec (round_capacity a b pa pb) (lenZ (sketch_diff (rs_known_set a) (rs_known_set b)))) as [Hlt|Hle].
  - split.
    + destruct (round_err a b pa pb now Ha Hb Hlt) as [e ->]. by exists e.
    + rewrite round_capacity_comm, sketch_diff_comm_len in Hlt.
      destruct (round_err b a pb pa now' Hb Ha Hlt) as [e ->]. by exists e.
  - destruct (round_ok a b pa pb now Ha Hb Hle) as (xa & a' & -> & Hxa & Hsa & Hna & _).
    rewrite round_capacity_comm, sketch_diff_comm_len in Hle.
    destruct (round_ok b a pb pa now' Hb Ha Hle) as (xb & b' & -> & Hxb & Hsb & Hnb & _).
    exists xa, xb. split_and!; try done. intros Hinj t Ht [z Hz].
    assert (∀ known other, t ∈ known → t ∉ other → other ⊆ rs_known_set a ∪ rs_known_set b →
              exclusive known other t) as Hex.
    { intros known other Hk Ho Hsub. split; [done|]. exists z. split; [done|]. intros u Hu Eu.
      apply Ho. rewrite (Hinj t u); [done|done|by apply Hsub|by exists z|congruence]. }
    split.
    + destruct (decide (t ∈ rs_known_set a)); [by left|right]. apply Hxb, Hex; [set_solver|done|set_solver].
    + destruct (decide (t ∈ rs_known_set b)); [by left|right]. apply Hxa, Hex; [set_solver|done|set_solver].
Qed.

(** ** The adaptive capacity *)

Inductive erlay_step : ReconciliationState → ReconciliationState → Prop :=
  | step_note s t : erlay_step s (note_new_tx s t).1
  | step_sketch s p : erlay_step s (local_sketch s p).1
  | step_reconcile s p remote now : erlay_step s (reconcile_at s p remote now).2
  | step_mark s now : erlay_step s (mark_reconciled_at s now)
  | step_forget s p : erlay_step s (reconciliation_forget_peer s p).

Definition record_ok (low : Z) (r : PeerReconciliation) : Prop :=
  low ≤ pr_current_capacity r ≤ MAX_SKETCH_CAPACITY ∧ 0 ≤ pr_consecutive_failures r < CAPACITY_GROW_FAILURES.

Definition erlay_ok (low : Z) (s : ReconciliationState) : Prop :=
  low ≤ rc_initial_capacity (rs_config s) ≤ MAX_SKETCH_CAPACITY
  ∧ map_Forall (λ _, record_ok low) (rs_peer_state s).

Lemma peer_sketch_ok low s p : erlay_ok low s → record_ok low (peer_sketch s p).
Proof.
  intros [Hc Hm]. unfold record_ok, peer_sketch. cbv zeta.
  destruct (rs_peer_state s !! p) as [r|] eqn:E; cbn.
  - by apply (Hm p).
  - unfold CAPACITY_GROW_FAILURES. lia.
Qed.

Lemma with_peer_ok low s p r : erlay_ok low s → record_ok low r → erlay_ok low (with_peer s p r).
Proof. intros [Hc Hm] Hr. split; [done|]. by apply map_Forall_insert_2. Qed.

Lemma erlay_step_ok low s s' :
  1 ≤ low ≤ INITIAL_SKETCH_CAPACITY → erlay_step s s' → erlay_ok low s → erlay_ok low s'.
Proof.
  intros Hlow Hstep Hok. destruct Hstep as [s t|s p|s p remote now|s now|s p].
  - unfold note_new_tx. case_decide; [done|]. by destruct Hok.
  - apply with_peer_ok; [done|]. by apply peer_sketch_ok.
  - unfold reconcile_at. cbv zeta. pose proof (peer_sketch_ok low s p Hok) as Hr.
    destruct (decode_difference _ _) as [d|e|]; cbn [snd].
    + assert (erlay_ok low (with_peer s p (on_success (peer_sketch s p) d))) as Hw.
      { apply with_peer_ok; [done|]. destruct Hr. split; unfold on_success; cbn [pr_current_capacity
          pr_consecutive_failures]; unfold lenZ, INITIAL_SKETCH_CAPACITY, CAPACITY_GROW_FAILURES in *; lia. }
      destruct Hw. by split.
    + apply with_peer_ok; [done|]. destruct Hr as [Hc Hf]. unfold on_failure, record_ok. cbv zeta.
      cbn [pr_current_capacity pr_consecutive_failures].
      unfold saturating_mul64, INITIAL_SKETCH_CAPACITY, CAPACITY_GROW_FAILURES, MAX_SKETCH_CAPACITY in *.
      destruct (Z.leb_spec 2 (Z.min (pr_consecutive_failures (peer_sketch s p) + 1) (two32 - 1))); lia.
    + done.
  - by destruct Hok.
  - destruct Hok as [Hc Hm]. split; [done|]. by apply map_Forall_delete.
Qed.

(** however rounds succeed, fail or are interleaved with new transactions
    and disconnections, every peer's sketch capacity stays between the smaller of
    the configured and the initial capacity and [MAX_SKETCH_CAPACITY], and the
    failure counter never reaches the threshold that would have reset it. *)
Theorem erlay_capacity_invariant (config : ReconciliationConfig) (s : ReconciliationState) :
  1 ≤ rc_initial_capacity config ≤ MAX_SKETCH_CAPACITY →
  rtc erlay_step (reconciliation_new config) s →
  ∀ p r, rs_peer_state s !! p = Some r →
    Z.min (rc_initial_capacity config) INITIAL_SKETCH_CAPACITY ≤ pr_current_capacity r ≤ MAX_SKETCH_CAPACITY
    ∧ 0 ≤ pr_consecutive_failures r < CAPACITY_GROW_FAILURES.
Proof.
  intros Hc Hs. set (low := Z.min (rc_initial_capacity config) INITIAL_SKETCH_CAPACITY).
  assert (1 ≤ low ≤ INITIAL_SKETCH_CAPACITY) as Hlow by (unfold low, INITIAL_SKETCH_CAPACITY; lia).
  assert (erlay_ok low s) as [_ Hm].
  { eapply (rtc_ind_r (λ x, erlay_ok low x)); [| |exact Hs].
    - split; [cbn; unfold low; lia|]. apply map_Forall_empty.
    - intros y z _ Hyz. by apply erlay_step_ok. }
  intros p r Hr. by apply (Hm p).
Qed.

(** ** Witnesses *)

Definition sample_config : ReconciliationConfig :=
  {| rc_interval := 60; rc_new_tx_trigger := 1000; rc_initial_capacity := 100 |}.
Definition sample_id (n : Z) : list byte := to_be_bytes 8 n ++ replicate 24 x00.
Definition node_with (ids : list Z) : ReconciliationState :=
  (note_txs (reconciliation_new sample_config) (sample_id <$> ids)).1.

Lemma erlay_round_exact_witness :
  (∃ xa xb, (reconcile_at (node_with [1; 2; 3]) [x0b] (local_sketch (node_with [2; 4]) [x0a]).2 5).1 = Ok xa
    ∧ (reconcile_at (node_with [2; 4]) [x0a] (local_sketch (node_with [1; 2; 3]) [x0b]).2 6).1 = Ok xb
    ∧ (∀ t, t ∈ xa ↔ exclusive (rs_known_set (node_with [1; 2; 3])) (rs_known_set (node_with [2; 4])) t)).
Proof.
  assert ((round_capacity (node_with [1; 2; 3]) (node_with [2; 4]) [x0a] [x0b]
    <? lenZ (sketch_diff (rs_known_set (node_with [1; 2; 3])) (rs_known_set (node_with [2; 4])))) = false) as Hc
    by (vm_compute; reflexivity).
  assert (small_set (rs_known_set (node_with [1; 2; 3]))) as Ha by (vm_compute; reflexivity).
  assert (small_set (rs_known_set (node_with [2; 4]))) as Hb by (vm_compute; reflexivity).
  pose proof (erlay_round_exact (node_with [1; 2; 3]) (node_with [2; 4]) [x0a] [x0b] 5 6 Ha Hb) as H.
  cbv zeta in H. rewrite Hc in H. destruct H as (xa & xb & H1 & H2 & H3 & _).
  exists xa, xb. split; [exact H1|split; [exact H2|exact H3]].
Defined.

Lemma erlay_capacity_invariant_witness :
  100 ≤ pr_current_capacity (peer_sketch (node_with [1]) [x0a]) ≤ MAX_SKETCH_CAPACITY
  ∧ ∀ p r, rs_peer_state (local_sketch (reconciliation_new sample_config) [x0a]).1 !! p = Some r →
      Z.min (rc_initial_capacity sample_config) INITIAL_SKETCH_CAPACITY ≤ pr_current_capacity r
        ≤ MAX_SKETCH_CAPACITY
      ∧ 0 ≤ pr_consecutive_failures r < CAPACITY_GROW_FAILURES.
Proof.
  split; [vm_compute; split; discriminate|].
  apply (erlay_capacity_invariant sample_config).
  - vm_compute. split; discriminate.
  - apply rtc_once, step_sketch.
Defined.

(** The envelope holds the whole set, not [capacity] elements. *)
Example sketch_not_capacity_bounded :
  length (create_sketch (rs_known_set (node_with [1; 2; 3; 4; 5])) 1) = (15 + 5 * 8)%nat.
Proof. vm_compute. reflexivity. Qed.
