(* ===== verification/Gossip.v ===== *)
(** * Gossip (crates/strangecoin-net/src/gossip/mod.rs, broadcast.rs, erlay/fallback.rs)

    The gossip message type with its codec, the per-peer inventory knowledge, the
    INV and GET_DATA handlers, announcements, and the full-relay fallback of
    Erlay.  The peer manager is reached through [PeerLink]. *)

From S2P Require Import Prelude Bytes Abi Types Serialize Net Compact Erlay.
From stdpp Require Import sorting gmap.
Open Scope Z_scope.

(** What gossip uses of [PeerManager]: the connected peers in the order of
    their ids, the ban test, and delivery. *)
Class PeerLink (M : Type) := {
  connected_peers : M → list NodeId;
  is_banned : M → NodeId → bool;
  send_to_peer : M → NodeId → list byte → result NetError unit * M
}.

#[export] Program Instance InvKind_countable : Countable InvKind :=
  inj_countable (λ k, match k with InvTx => true | InvBlock => false end)
                (λ b : bool, Some (if b then InvTx else InvBlock)) _.
Next Obligation. by intros []. Qed.
#[export] Program Instance InventoryItem_countable : Countable InventoryItem :=
  inj_countable (λ i, (it_kind i, it_hash i)) (λ p, Some {| it_kind := p.1; it_hash := p.2 |}) _.
Next Obligation. by intros []. Qed.

Inductive GossipMessage :=
  | GInv (items : list InventoryItem)
  | GGetData (items : list InventoryItem)
  | GTx (tx : Transaction)
  | GBlock (block : Block)
  | GNotFound (items : list InventoryItem)
  | GCompactBlock (msg : CompactBlock)
  | GGetBlockTxn (msg : GetBlockTxn)
  | GBlockTxn (msg : BlockTxn)
  | GErlayReconcile (msg : ErlayReconcile).

(** [format!("{:#04x}", b)]. *)
Definition nibble_digit (n : Z) : string :=
  default "" ((λ c, String c EmptyString) <$> String.get (Z.to_nat n) "0123456789abcdef").
Definition hex_tag (b : Z) : string := "0x" +:+ nibble_digit (b / 16) +:+ nibble_digit (b mod 16).

Definition KNOWN_SET_CAP : nat := 4096.

(** [HashMap<NodeId, HashSet<InventoryItem>>]. *)
Definition GossipState : Type := gmap NodeId (gset InventoryItem).

Definition mark_known (st : GossipState) (peer : NodeId) (item : InventoryItem) : GossipState :=
  let set := default ∅ (st !! peer) in
  let set := if (KNOWN_SET_CAP <=? size set)%nat then ∅ else set in
  <[peer := {[ item ]} ∪ set]> st.

Definition knows (st : GossipState) (peer : NodeId) (item : InventoryItem) : bool :=
  match st !! peer with Some set => bool_decide (item ∈ set) | None => false end.

Definition forget_peer (st : GossipState) (peer : NodeId) : GossipState := delete peer st.

Section Gossip.
Context `{HX : Hex, B3 : Blake3}.

Definition gossip_encode (m : GossipMessage) : result NetError (list byte) :=
  match m with
  | GInv items => inv_encode items
  | GGetData items => get_data_encode items
  | GTx tx => encode_tx tx
  | GBlock block => encode_blocks [block]
  | GNotFound items => not_found_encode items
  | GCompactBlock msg => compact_encode msg
  | GGetBlockTxn msg => get_block_txn_encode msg
  | GBlockTxn msg => block_txn_encode msg
  | GErlayReconcile msg => erlay_encode msg
  end.

Definition gossip_parse (bytes : list byte) : result NetError GossipMessage :=
  match bytes with
  | [] => Err (Protocol "gossip: empty payload")
  | tag :: _ =>
      let tag := byte_val tag in
      if tag =? MSG_INV then GInv <$> inv_parse bytes
      else if tag =? MSG_GET_DATA then GGetData <$> get_data_parse bytes
      else if tag =? MSG_TX then GTx <$> parse_tx bytes
      else if tag =? MSG_BLOCKS then
        blocks ← parse_blocks bytes;
        if negb (length blocks =? 1)%nat
        then Err (Protocol ("gossip block message: count " +:+ pretty (lenZ blocks) +:+ " != 1"))
        else block ← expect (last blocks); Ok (GBlock block)
      else if tag =? MSG_NOTFOUND then GNotFound <$> not_found_parse bytes
      else if tag =? MSG_COMPACT_BLOCK then GCompactBlock <$> compact_parse bytes
      else if tag =? MSG_GET_BLOCK_TXN then GGetBlockTxn <$> get_block_txn_parse bytes
      else if tag =? MSG_BLOCK_TXN then GBlockTxn <$> block_txn_parse bytes
      else if tag =? MSG_ERLAY_RECONCILE then GErlayReconcile <$> erlay_parse bytes
      else Err (Protocol ("gossip: unknown message tag " +:+ hex_tag tag))
  end.

(** ** Announcements *)

Section Announce.
Context {M : Type} `{PL : PeerLink M}.

(** One recipient of the announcement loop. *)
Definition announce_to (st : GossipState) (item : InventoryItem) (payload : list byte)
    (acc : Z * M) (peer : NodeId) : Z * M :=
  let '(sent, m) := acc in
  if is_banned m peer then (sent, m) else
  if knows st peer item then (sent, m) else
  let '(r, m) := send_to_peer m peer payload in
  (if is_ok r then sent + 1 else sent, m).

Definition announce (m : M) (st : GossipState) (item : InventoryItem) : Z * M :=
  match inv_encode [item] with
  | Ok payload => foldl (announce_to st item payload) (0, m) (connected_peers m)
  | _ => (0, m)
  end.

Definition announce_tx (txid : list byte) (m : M) (st : GossipState) : Z * M := announce m st (inv_tx txid).
Definition announce_block (hash : list byte) (m : M) (st : GossipState) : Z * M := announce m st (inv_block hash).

(** ** Full-relay fallback *)

Definition inv_le (a b : InventoryItem) : Prop := bytes_ltb (it_hash b) (it_hash a) = false.
#[export] Instance inv_le_dec : RelDecision inv_le.
Proof. intros a b. unfold inv_le. apply _. Defined.

(** [items.chunks(n)]; [fuel] the length of the list is enough. *)
Fixpoint chunks {A} (fuel n : nat) (l : list A) : list (list A) :=
  match fuel, l with
  | S fuel, _ :: _ => take n l :: chunks fuel n (drop n l)
  | _, _ => []
  end.

Definition relay_chunk (st : GossipState) (peer : NodeId) (acc : Z * M) (chunk : list InventoryItem) : Z * M :=
  let '(sent, m) := acc in
  let fresh := filter (λ i, knows st peer i = false) chunk in
  match fresh with
  | [] => (sent, m)
  | _ =>
      match inv_encode fresh with
      | Ok payload =>
          let '(r, m) := send_to_peer m peer payload in
          (if is_ok r then sent + lenZ fresh else sent, m)
      | _ => (sent, m)
      end
  end.

Context {C : Type} `{BV : BlockchainView C}.

Definition fallback_items (txids : list (list byte)) (c : C) : list InventoryItem :=
  let items := match txids with
               | [] => (λ tx, inv_tx (txid tx)) <$> bv_mempool_txs c
               | _ => inv_tx <$> txids
               end in
  dedup (merge_sort inv_le items).

Definition fallback_full_relay (txids : list (list byte)) (peer : NodeId) (m : M) (st : GossipState) (c : C)
    : Z * M :=
  let items := fallback_items txids c in
  foldl (relay_chunk st peer) (0, m) (chunks (length items) (Z.to_nat MAX_INV_BATCH) items).

End Announce.

(** ** Handlers *)

Section Handlers.
Context {C : Type} `{BV : BlockchainView C}.

(** Does the local node have the object? *)
Definition have (c : C) (item : InventoryItem) : bool :=
  match it_kind item with
  | InvTx => bv_mempool_contains c (it_hash item)
  | InvBlock => bv_chain_contains_block c (hex_encode (it_hash item))
  end.

Definition handle_inv (items : list InventoryItem) (from : NodeId) (st : GossipState) (c : C)
    : list GossipMessage * GossipState :=
  let '(missing, st) := foldl (λ '(missing, st) item,
    let st := mark_known st from item in
    (if have c item then missing else missing ++ [item], st)) ([], st) items in
  (match missing with [] => [] | _ => [GGetData missing] end, st).

(** The full object behind an inventory item. *)
Definition serve (c : C) (item : InventoryItem) : option GossipMessage :=
  match it_kind item with
  | InvTx => GTx <$> bv_mempool_tx c (it_hash item)
  | InvBlock => GBlock <$> bv_block_by_hash c (hex_encode (it_hash item))
  end.

Definition serve_step (c : C) (from : NodeId)
    (acc : list GossipMessage * list InventoryItem * GossipState) (item : InventoryItem)
    : list GossipMessage * list InventoryItem * GossipState :=
  let '(out, missing, st) := acc in
  match serve c item with
  | Some m => (out ++ [m], missing, mark_known st from item)
  | None => (out, missing ++ [item], st)
  end.

Definition handle_get_data (items : list InventoryItem) (from : NodeId) (st : GossipState) (c : C)
    : list GossipMessage * GossipState :=
  let '(out, missing, st) := foldl (serve_step c from) ([], [], st) items in
  (match missing with [] => out | _ => out ++ [GNotFound missing] end, st).

End Handlers.
End Gossip.
