(* ===== verification/GossipProps.v ===== *)
(** * Properties of gossip

    Round trips and panic freedom of every gossip message, the handlers against
    their specifications, the bound on per-peer knowledge, and a whole
    INV / GET_DATA exchange between two nodes. *)

From S2P Require Import Prelude Bytes Abi Types Concrete Serialize SerializeProps Net NetProps Compact CompactProps Erlay ErlayProps Gossip.
From stdpp Require Import sorting gmap.
Open Scope Z_scope.

(** ** Compact-block codecs *)

Section Codecs.
Context `{HX : Hex, HXok : !HexOk, B3 : Blake3, B3ok : !Blake3Ok}.

Lemma net_read_u32_ok what bs off z rest :
  cursor bs off (to_be_bytes 4 z ++ rest) → in_u32 z →
  net_read_u32 what bs off = Ok (z, (off + 4)%nat) ∧ cursor bs (off + 4) rest.
Proof.
  intros H Hz. destruct (take_u32_ok bs off z rest H Hz) as [E Hc]. split; [|done].
  unfold take_u32 in E. unfold net_read_u32. by destruct (_ <? _)%nat.
Qed.

Lemma net_read_u32_inv what bs off z off' :
  net_read_u32 what bs off = Ok (z, off') → in_u32 z ∧ off' = (off + 4)%nat ∧ (off' ≤ length bs)%nat.
Proof.
  intros H. destruct (take_u32_inv bs off z off') as (? & ? & _ & ?); [|done].
  unfold net_read_u32 in H. unfold take_u32. by destruct (_ <? _)%nat.
Qed.

#[local] Instance index_canonical what : ItemCanonical (to_be_bytes 4) in_u32 (net_read_u32 what).
Proof.
  split. intros bs off z off' H. destruct (take_u32_inv bs off z off') as (? & ? & ? & ?); [|done].
  unfold net_read_u32 in H. unfold take_u32. by destruct (_ <? _)%nat.
Qed.

Lemma net_read_u32_no_panic what bs off : net_read_u32 what bs off ≠ Panic.
Proof. unfold net_read_u32. by destruct (_ <? _)%nat. Qed.

Definition is8 (s : list byte) : Prop := length s = 8%nat.
Definition fits_tx (tx : Transaction) : Prop := lenZ (serialize_transaction_signed tx) ≤ MAX_TX_SIZE.
Definition body_bytes (tx : Transaction) : list byte := write_bytes (serialize_transaction_signed tx).
Definition prefilled_bytes (p : Z * Transaction) : list byte := to_be_bytes 4 p.1 ++ body_bytes p.2.

#[local] Instance short_id_codec : ItemCodec (λ s : list byte, s) is8 read_short_id.
Proof.
  split. intros bs off x rest Hx H. unfold read_short_id. rewrite (range_ok _ _ _ _ _ H Hx).
  cbn [mbind result_bind]. by rewrite Hx.
Qed.

#[local] Instance index_codec what : ItemCodec (to_be_bytes 4) in_u32 (net_read_u32 what).
Proof.
  split. intros bs off x rest Hx H. rewrite length_to_be_bytes.
  by destruct (net_read_u32_ok what _ _ _ _ H Hx) as [E _].
Qed.

Lemma read_body_ok what item bs off tx rest :
  wf_tx tx → fits_tx tx → cursor bs off (body_bytes tx ++ rest) →
  read_body what item bs off = Ok (tx, (off + length (body_bytes tx))%nat).
Proof.
  intros Hwf Hfit H. unfold body_bytes, write_bytes in *. rewrite <- app_assoc in H.
  set (body := serialize_transaction_signed tx) in *. unfold fits_tx, lenZ in Hfit. fold body in Hfit.
  assert (in_u32 (Z.of_nat (length body))) as Hu by (unfold in_u32, MAX_TX_SIZE in *; lia).
  destruct (net_read_u32_ok what _ _ _ _ H Hu) as [E Hc]. unfold read_body. rewrite E. cbn [mbind result_bind].
  rewrite (proj2 (Z.ltb_ge _ _) Hfit). pose proof (cursor_length _ _ _ Hc) as Hl. rewrite length_app in Hl.
  unfold lenZ. rewrite (proj2 (Z.ltb_ge _ _)) by lia. rewrite Nat2Z.id, (range_ok _ _ _ _ _ Hc) by done.
  cbn [mbind result_bind]. unfold body. rewrite deserialize_signed_ok by done.
  cbn [map_err mbind result_bind]. rewrite length_app, length_to_be_bytes. f_equal. f_equal. lia.
Qed.

#[local] Instance body_codec what item :
  ItemCodec body_bytes (λ tx, wf_tx tx ∧ fits_tx tx) (read_body what item).
Proof. split. intros bs off x rest [Hx Hf] H. by eapply read_body_ok. Qed.

#[local] Instance prefilled_codec :
  ItemCodec prefilled_bytes (λ p, in_u32 p.1 ∧ wf_tx p.2 ∧ fits_tx p.2) read_prefilled.
Proof.
  split. intros bs off [i tx] rest (Hi & Hwf & Hf) H. unfold prefilled_bytes in *. cbn [fst snd] in *.
  rewrite <- app_assoc in H. destruct (net_read_u32_ok "compact block: " _ _ _ _ H Hi) as [E Hc].
  unfold read_prefilled. rewrite E. cbn [mbind result_bind].
  rewrite (read_body_ok _ _ _ _ _ _ Hwf Hf Hc). cbn [mbind result_bind].
  rewrite length_app, length_to_be_bytes. f_equal. f_equal. lia.
Qed.

Lemma encode_body_inv what tx bs : encode_body what tx = Ok bs → bs = body_bytes tx ∧ fits_tx tx.
Proof.
  unfold encode_body, fits_tx. cbv zeta. destruct (Z.ltb_spec MAX_TX_SIZE (lenZ (serialize_transaction_signed tx)));
    [done|]. by intros <-%ok_inj.
Qed.

Lemma encode_bodies_inv what txs bodies :
  mapM_result (encode_body what) txs = Ok bodies → bodies = body_bytes <$> txs ∧ Forall fits_tx txs.
Proof.
  revert bodies. induction txs as [|tx txs IH]; cbn [mapM_result]; intros bodies H; [by injection H as <-|].
  apply bind_ok_inv in H as (b & Eb & H). apply bind_ok_inv in H as (bs & Ebs & H). injection H as <-.
  apply encode_body_inv in Eb as [-> ?]. apply IH in Ebs as [-> ?]. split; [done|by constructor].
Qed.

Lemma encode_prefilled_inv ps out :
  mapM_result (λ p : Z * Transaction, body ← encode_body "compact block: prefilled " p.2;
                 Ok (to_be_bytes 4 p.1 ++ body)) ps = Ok out →
  out = prefilled_bytes <$> ps ∧ Forall (λ p, fits_tx p.2) ps.
Proof.
  revert out. induction ps as [|p ps IH]; cbn [mapM_result]; intros out H; [by injection H as <-|].
  apply bind_ok_inv in H as (b & Eb & H). apply bind_ok_inv in Eb as (body & Ebody & Eb). injection Eb as <-.
  apply bind_ok_inv in H as (bs & Ebs & H). injection H as <-.
  apply encode_body_inv in Ebody as [-> ?]. apply IH in Ebs as [-> ?]. split; [done|by constructor].
Qed.

Definition wf_compact (c : CompactBlock) : Prop :=
  wf_header (cb_header c) ∧ in_u64 (cb_nonce c) ∧ Forall is8 (cb_short_ids c)
  ∧ Forall (λ p, in_u32 p.1 ∧ wf_tx p.2) (cb_prefilled_txs c).

Lemma compact_ok c bs : wf_compact c → compact_encode c = Ok bs → compact_parse bs = Ok c.
Proof.
  intros (Hh & Hn & Hs & Hp). unfold compact_encode.
  destruct (Z.ltb_spec MAX_COMPACT_TXS (lenZ (cb_short_ids c))) as [|Hsm]; [done|].
  destruct (Z.ltb_spec MAX_PREFILLED (lenZ (cb_prefilled_txs c))) as [|Hpm]; [done|]. intros H.
  apply bind_ok_inv in H as (hb & Eh & H). apply bind_ok_inv in H as (pb & Ep & H).
  apply encode_prefilled_inv in Ep as [-> Hfit]. cbv zeta in H. destruct (_ <? _); [done|].
  apply ok_inj in H. destruct (deserialize_header_ok _ Hh) as (hb' & Eh' & Hl & Ed).
  rewrite (serialize_header_result _ _ Eh') in Eh. injection Eh as ->.
  assert (Forall (λ p, in_u32 p.1 ∧ wf_tx p.2 ∧ fits_tx p.2) (cb_prefilled_txs c)) as Hpf.
  { apply Forall_forall. intros p Hin. rewrite Forall_forall in Hp, Hfit.
    specialize (Hp p Hin). specialize (Hfit p Hin). tauto. }
  pose proof (cursor_start bs) as C0. rewrite <- H in C0 at 2.
  apply cursor_byte in C0 as [E0 C1]. cbn [plus] in C1.
  pose proof (cursor_app _ _ _ _ C1) as C2. pose proof (cursor_app _ _ _ _ C2) as C3.
  rewrite Hl, length_to_be_bytes in *.
  pose proof (cursor_length _ _ _ C3) as Hlen. rewrite !length_app, !length_to_be_bytes in Hlen.
  assert (in_u32 (lenZ (cb_short_ids c))) as Hsu by (unfold in_u32, lenZ, MAX_COMPACT_TXS in *; lia).
  assert (in_u32 (lenZ (cb_prefilled_txs c))) as Hpu by (unfold in_u32, lenZ, MAX_PREFILLED in *; lia).
  assert (length (concat (cb_short_ids c)) = (8 * length (cb_short_ids c))%nat) as Hcl
    by (rewrite <- (list_fmap_id (cb_short_ids c)) at 1; by apply length_concat_fixed).
  destruct (net_read_u32_ok "compact block: " _ _ _ _ C3 Hsu) as [E3 C4].
  unfold compact_parse. cbv zeta. rewrite (proj2 (Nat.ltb_ge _ _)) by lia.
  unfold has_tag, byte_at. rewrite E0. cbn [expect mbind result_bind].
  change (byte_val (byte_of MSG_COMPACT_BLOCK) =? MSG_COMPACT_BLOCK) with true. cbn [negb].
  rewrite (range_ok _ _ _ _ _ C1 Hl). cbn [mbind result_bind]. rewrite Ed. cbn [map_err mbind result_bind].
  rewrite (range_ok _ _ _ _ _ C2) by apply length_to_be_bytes. cbn [mbind result_bind].
  rewrite E3. cbn [mbind result_bind]. rewrite (proj2 (Z.ltb_ge _ _) Hsm).
  change (Z.of_nat SHORT_ID_LEN) with 8. unfold lenZ in *. rewrite (proj2 (Z.ltb_ge _ _)) by lia.
  rewrite Nat2Z.id. rewrite <- (list_fmap_id (cb_short_ids c)) in C4 at 1.
  rewrite (read_items_ok (λ s, s) is8 read_short_id _ _ _ _ Hs C4). cbn [mbind result_bind].
  rewrite list_fmap_id in C4. rewrite list_fmap_id.
  apply cursor_app in C4. destruct (net_read_u32_ok "compact block: " _ _ _ _ C4 Hpu) as [E5 C5].
  rewrite E5. cbn [mbind result_bind]. rewrite (proj2 (Z.ltb_ge _ _) Hpm), Nat2Z.id.
  rewrite <- (app_nil_r (concat (prefilled_bytes <$> _))) in C5.
  rewrite (read_items_ok prefilled_bytes _ read_prefilled _ _ _ _ Hpf C5). cbn [mbind result_bind].
  apply cursor_app in C5. pose proof (cursor_length _ _ _ C5) as Hend. cbn [length] in Hend.
  rewrite (proj2 (Nat.eqb_eq _ _)) by lia. cbn [negb]. rewrite from_to_be_u64 by done. by destruct c.
Qed.

Definition wf_get_block_txn (g : GetBlockTxn) : Prop :=
  is32 (gb_block_hash g) ∧ Forall in_u32 (gb_missing_indices g).

Lemma get_block_txn_ok g bs : wf_get_block_txn g → get_block_txn_encode g = Ok bs → get_block_txn_parse bs = Ok g.
Proof.
  intros [Hh Hi]. unfold get_block_txn_encode.
  destruct (Z.ltb_spec MAX_COMPACT_TXS (lenZ (gb_missing_indices g))) as [|Hm]; [done|]. intros H%ok_inj.
  assert (in_u32 (lenZ (gb_missing_indices g))) as Hu by (unfold in_u32, lenZ, MAX_COMPACT_TXS in *; lia).
  assert (length (concat (to_be_bytes 4 <$> gb_missing_indices g)) = (4 * length (gb_missing_indices g))%nat) as Hcl.
  { apply length_concat_fixed, Forall_forall. intros. apply length_to_be_bytes. }
  pose proof (cursor_start bs) as C0. rewrite <- H in C0 at 2.
  apply cursor_byte in C0 as [E0 C1]. cbn [plus] in C1. pose proof (cursor_app _ _ _ _ C1) as C2.
  rewrite Hh in C2. pose proof (cursor_length _ _ _ C2) as Hlen.
  rewrite length_app, length_to_be_bytes, Hcl in Hlen.
  destruct (net_read_u32_ok "get_block_txn: " _ _ _ _ C2 Hu) as [E2 C3].
  unfold get_block_txn_parse. cbv zeta. rewrite (proj2 (Nat.ltb_ge _ _)) by lia.
  unfold has_tag, byte_at. rewrite E0. cbn [expect mbind result_bind].
  change (byte_val (byte_of MSG_GET_BLOCK_TXN) =? MSG_GET_BLOCK_TXN) with true. cbn [negb].
  rewrite (range_ok _ _ _ _ _ C1 Hh). cbn [mbind result_bind]. cbn [plus] in E2, C3. rewrite E2. cbn [mbind result_bind].
  rewrite (proj2 (Z.ltb_ge _ _) Hm). unfold lenZ in *. rewrite (proj2 (Z.eqb_eq _ _)) by lia. cbn [negb].
  rewrite Nat2Z.id. rewrite <- (app_nil_r (concat _)) in C3.
  rewrite (read_items_ok (to_be_bytes 4) in_u32 (net_read_u32 "get_block_txn: ") _ _ _ _ Hi C3).
  cbn [mbind result_bind]. by destruct g.
Qed.

Lemma get_block_txn_inv bs g : get_block_txn_parse bs = Ok g → wf_get_block_txn g ∧ get_block_txn_encode g = Ok bs.
Proof.
  unfold get_block_txn_parse. cbv zeta. destruct (_ <? _)%nat; [done|]. destruct bs as [|b bs]; [done|].
  rewrite has_tag_cons. cbn [mbind result_bind].
  destruct (Z.eqb_spec (byte_val b) MSG_GET_BLOCK_TXN) as [Hb|]; [|done]. cbn [negb]. intros H.
  apply bind_ok_inv in H as (hash & Hh & H). apply range_inv in Hh as (H32 & D1 & _).
  apply bind_ok_inv in H as ([count off] & Hc & H). pose proof (net_read_u32_inv _ _ _ _ _ Hc) as (Hu & -> & Hl).
  apply item_inv in Hc as (_ & D2 & _).
  destruct (Z.ltb_spec MAX_COMPACT_TXS count) as [|Hm]; [done|].
  destruct (Z.eqb_spec (Z.of_nat (33 + 4) + count * 4) (lenZ (b :: bs))) as [Hsz|]; [|done]. cbn [negb] in H.
  apply bind_ok_inv in H as ([ixs off'] & Hr & H). apply ok_inj in H as <-.
  apply (read_items_inv _ _ _) in Hr as (Hn & Hwf & D3 & _); [|done].
  assert (length (concat (to_be_bytes 4 <$> ixs)) = (4 * length ixs)%nat) as Hcl.
  { apply length_concat_fixed, Forall_forall. intros. apply length_to_be_bytes. }
  unfold in_u32, lenZ in *. assert (drop off' (b :: bs) = []) as Hnil.
  { apply (f_equal length) in D3. rewrite length_app, length_drop, Hcl in D3. apply nil_length_inv. lia. }
  split; [done|]. unfold get_block_txn_encode, lenZ. cbn [gb_block_hash gb_missing_indices].
  replace (Z.of_nat (length ixs)) with count by lia. rewrite (proj2 (Z.ltb_ge _ _) Hm). f_equal.
  rewrite <- Hb, byte_of_val. f_equal. change (drop 1 (b :: bs)) with (drop 0 bs) in D1. rewrite drop_0 in D1.
  rewrite D1. change (1 + 32)%nat with 33%nat. by rewrite D2, D3, Hnil, app_nil_r.
Qed.

Definition wf_block_txn (t : BlockTxn) : Prop := is32 (bt_block_hash t) ∧ Forall wf_tx (bt_txs t).

Lemma block_txn_ok t bs : wf_block_txn t → block_txn_encode t = Ok bs → block_txn_parse bs = Ok t.
Proof.
  intros [Hh Hi]. unfold block_txn_encode.
  destruct (Z.ltb_spec MAX_COMPACT_TXS (lenZ (bt_txs t))) as [|Hm]; [done|]. intros H.
  apply bind_ok_inv in H as (bodies & Eb & H). apply encode_bodies_inv in Eb as [-> Hfit].
  cbv zeta in H. destruct (_ <? _); [done|]. apply ok_inj in H.
  assert (in_u32 (lenZ (bt_txs t))) as Hu by (unfold in_u32, lenZ, MAX_COMPACT_TXS in *; lia).
  assert (Forall (λ tx, wf_tx tx ∧ fits_tx tx) (bt_txs t)) as Hall by by apply Forall_and.
  pose proof (cursor_start bs) as C0. rewrite <- H in C0 at 2.
  apply cursor_byte in C0 as [E0 C1]. cbn [plus] in C1. pose proof (cursor_app _ _ _ _ C1) as C2.
  rewrite Hh in C2. pose proof (cursor_length _ _ _ C2) as Hlen.
  rewrite length_app, length_to_be_bytes in Hlen.
  destruct (net_read_u32_ok "block_txn: " _ _ _ _ C2 Hu) as [E2 C3].
  unfold block_txn_parse. cbv zeta. rewrite (proj2 (Nat.ltb_ge _ _)) by lia.
  unfold has_tag, byte_at. rewrite E0. cbn [expect mbind result_bind].
  change (byte_val (byte_of MSG_BLOCK_TXN) =? MSG_BLOCK_TXN) with true. cbn [negb].
  rewrite (range_ok _ _ _ _ _ C1 Hh). cbn [mbind result_bind]. cbn [plus] in E2, C3. rewrite E2. cbn [mbind result_bind].
  rewrite (proj2 (Z.ltb_ge _ _) Hm). unfold lenZ in *. rewrite Nat2Z.id.
  rewrite <- (app_nil_r (concat _)) in C3.
  rewrite (read_items_ok body_bytes _ (read_body "block_txn: " "tx") _ _ _ _ Hall C3). cbn [mbind result_bind].
  apply cursor_app in C3. pose proof (cursor_length _ _ _ C3) as Hend. cbn [length] in Hend.
  rewrite (proj2 (Nat.eqb_eq _ _)) by lia. cbn [negb]. by destruct t.
Qed.

Lemma erlay_message_ok m bs : erlay_encode m = Ok bs → erlay_parse bs = Ok m.
Proof.
  unfold erlay_encode. destruct (Z.ltb_spec MAX_ERLAY_SKETCH (lenZ (er_sketch m))) as [|Hm]; [done|].
  intros <-%ok_inj. unfold erlay_parse. cbv zeta. cbn [length Nat.ltb Nat.leb].
  rewrite has_tag_cons. cbn [mbind result_bind].
  change (byte_val (byte_of MSG_ERLAY_RECONCILE) =? MSG_ERLAY_RECONCILE) with true. cbn [negb].
  unfold byte_at. cbn [lookup list_lookup expect mbind result_bind].
  change (drop 2 (byte_of MSG_ERLAY_RECONCILE :: ?b :: er_sketch m)) with (er_sketch m).
  destruct m as [[] sk]; cbn [er_respond er_sketch] in *.
  - change (byte_val (byte_of 1) =? 0) with false. change (byte_val (byte_of 1) =? 1) with true.
    cbn [mbind result_bind drop]. by rewrite (proj2 (Z.ltb_ge _ _) Hm).
  - change (byte_val (byte_of 0) =? 0) with true.
    cbn [mbind result_bind drop]. by rewrite (proj2 (Z.ltb_ge _ _) Hm).
Qed.
Lemma erlay_message_inv bs m : erlay_parse bs = Ok m → erlay_encode m = Ok bs.
Proof.
  unfold erlay_parse. cbv zeta. destruct bs as [|b [|f sk]]; [done..|]. cbn [length Nat.ltb Nat.leb].
  rewrite has_tag_cons. cbn [mbind result_bind].
  destruct (Z.eqb_spec (byte_val b) MSG_ERLAY_RECONCILE) as [Hb|]; [|done]. cbn [negb].
  unfold byte_at. cbn [lookup list_lookup expect mbind result_bind].
  change (drop 2 (b :: f :: sk)) with sk. intros H. apply bind_ok_inv in H as (r & Hr & H).
  destruct (Z.ltb_spec MAX_ERLAY_SKETCH (lenZ sk)) as [|Hm]; [done|]. apply ok_inj in H as <-.
  assert (byte_of (if r then 1 else 0) = f) as Hf.
  { destruct (Z.eqb_spec (byte_val f) 0) as [E|]; [apply ok_inj in Hr as <-; by rewrite <- E, byte_of_val|].
    destruct (Z.eqb_spec (byte_val f) 1) as [E|]; [|done]. apply ok_inj in Hr as <-. by rewrite <- E, byte_of_val. }
  unfold erlay_encode. cbn [er_sketch er_respond]. rewrite (proj2 (Z.ltb_ge _ _) Hm).
  by rewrite Hf, <- Hb, byte_of_val.
Qed.
End Codecs.

(** ** Absence of panics *)

Section Panics.
Context `{HX : Hex, HXok : !HexOk, B3 : Blake3, B3ok : !Blake3Ok}.

Lemma read_body_no_panic what item bs off : read_body what item bs off ≠ Panic.
Proof.
  unfold read_body. apply bind_no_panic; [apply net_read_u32_no_panic|]. intros [len o] E.
  apply net_read_u32_inv in E as ([? ?] & -> & Ho). cbn beta iota zeta.
  destruct (_ <? len); [done|]. destruct (Z.ltb_spec (lenZ bs) (Z.of_nat (off + 4) + len)) as [|Hl]; [done|].
  unfold lenZ in Hl. apply bind_no_panic; [apply range_no_panic; lia|]. intros body _.
  apply bind_no_panic; [apply map_err_no_panic, signed_no_panic|done].
Qed.

Lemma read_prefilled_no_panic bs off : read_prefilled bs off ≠ Panic.
Proof.
  unfold read_prefilled. apply bind_no_panic; [apply net_read_u32_no_panic|]. intros [i o] _.
  apply bind_no_panic; [apply read_body_no_panic|]. by intros [??] _.
Qed.

(** The opening of the parsers: length, then tag. *)
Ltac np_tag :=
  cbv zeta; match goal with |- context [if (?a <? ?b)%nat then _ else _] =>
    destruct (Nat.ltb_spec a b) as [|Hlen]; [done|] end;
  apply bind_no_panic; [apply has_tag_no_panic; lia|]; intros [] _; cbn [negb]; [|done].

Lemma compact_parse_no_panic bs : compact_parse bs ≠ Panic.
Proof.
  unfold compact_parse. np_tag.
  apply bind_no_panic; [apply range_no_panic; lia|]. intros hb _.
  apply bind_no_panic; [apply map_err_no_panic, header_no_panic|]. intros h _.
  apply bind_no_panic; [apply range_no_panic; lia|]. intros nb _.
  apply bind_no_panic; [apply net_read_u32_no_panic|]. intros [sc off] E.
  apply net_read_u32_inv in E as ([? ?] & -> & Ho). destruct (_ <? sc); [done|].
  match goal with |- context [if ?a <? ?b then _ else _] => destruct (Z.ltb_spec a b) as [|Hs]; [done|] end.
  unfold lenZ in Hs. change (Z.of_nat SHORT_ID_LEN) with 8 in Hs.
  apply bind_no_panic.
  { apply (read_items_fixed_no_panic _ bs 8); [|lia]. intros o Hle. unfold read_short_id. split.
    - apply bind_no_panic; [by apply range_no_panic|done].
    - intros x o' Er. apply bind_ok_inv in Er as (? & _ & Er). by injection Er. }
  intros [sids off] _. apply bind_no_panic; [apply net_read_u32_no_panic|]. intros [pc off'] _.
  destruct (_ <? pc); [done|].
  apply bind_no_panic; [apply read_items_no_panic, read_prefilled_no_panic|]. intros [??] _.
  by destruct (negb _).
Qed.

Lemma get_block_txn_parse_no_panic bs : get_block_txn_parse bs ≠ Panic.
Proof.
  unfold get_block_txn_parse. np_tag. apply bind_no_panic; [apply range_no_panic; lia|]. intros h _.
  apply bind_no_panic; [apply net_read_u32_no_panic|]. intros [c off] _.
  destruct (_ <? c); [done|]. destruct (negb _); [done|].
  apply bind_no_panic; [apply read_items_no_panic, net_read_u32_no_panic|]. by intros [??] _.
Qed.

Lemma block_txn_parse_no_panic bs : block_txn_parse bs ≠ Panic.
Proof.
  unfold block_txn_parse. np_tag. apply bind_no_panic; [apply range_no_panic; lia|]. intros h _.
  apply bind_no_panic; [apply net_read_u32_no_panic|]. intros [c off] _. destruct (_ <? c); [done|].
  apply bind_no_panic; [apply read_items_no_panic, read_body_no_panic|]. intros [??] _. by destruct (negb _).
Qed.

Lemma erlay_parse_no_panic bs : erlay_parse bs ≠ Panic.
Proof.
  unfold erlay_parse. np_tag. apply bind_no_panic.
  { unfold byte_at. destruct (bs !! 1%nat) eqn:E; [done|]. apply lookup_ge_None in E. lia. }
  intros f _. apply bind_no_panic; [by destruct (byte_val f =? 0), (byte_val f =? 1)|]. intros r _. by destruct (_ <? _).
Qed.

Lemma fmap_no_panic {E A B} (f : A → B) (r : result E A) : r ≠ Panic → f <$> r ≠ Panic.
Proof. by destruct r. Qed.

Lemma gossip_parse_no_panic bs : gossip_parse bs ≠ Panic.
Proof.
  unfold gossip_parse. destruct bs as [|b bs]; [done|]. cbv zeta.
  destruct (_ =? MSG_INV); [apply fmap_no_panic, parse_inv_items_no_panic|].
  destruct (_ =? MSG_GET_DATA); [apply fmap_no_panic, parse_inv_items_no_panic|].
  destruct (_ =? MSG_TX); [apply fmap_no_panic, parse_tx_no_panic|].
  destruct (_ =? MSG_BLOCKS).
  { apply bind_no_panic; [apply parse_blocks_no_panic|]. intros blocks _.
    destruct blocks as [|blk [|? ?]]; done. }
  destruct (_ =? MSG_NOTFOUND); [apply fmap_no_panic, parse_inv_items_no_panic|].
  destruct (_ =? MSG_COMPACT_BLOCK); [apply fmap_no_panic, compact_parse_no_panic|].
  destruct (_ =? MSG_GET_BLOCK_TXN); [apply fmap_no_panic, get_block_txn_parse_no_panic|].
  destruct (_ =? MSG_BLOCK_TXN); [apply fmap_no_panic, block_txn_parse_no_panic|].
  destruct (_ =? MSG_ERLAY_RECONCILE); [apply fmap_no_panic, erlay_parse_no_panic|]. done.
Qed.
End Panics.

(** ** Messages *)

Section Messages.
Context `{HX : Hex, HXok : !HexOk, B3 : Blake3, B3ok : !Blake3Ok}.

Definition wf_message (m : GossipMessage) : Prop :=
  match m with
  | GInv items | GGetData items | GNotFound items => Forall wf_item items
  | GTx tx => wf_tx tx
  | GBlock b => wf_block b
  | GCompactBlock c => wf_compact c
  | GGetBlockTxn g => wf_get_block_txn g
  | GBlockTxn t => wf_block_txn t
  | GErlayReconcile _ => True
  end.

Definition message_tag (m : GossipMessage) : Z :=
  match m with
  | GInv _ => MSG_INV | GGetData _ => MSG_GET_DATA | GTx _ => MSG_TX | GBlock _ => MSG_BLOCKS
  | GNotFound _ => MSG_NOTFOUND | GCompactBlock _ => MSG_COMPACT_BLOCK
  | GGetBlockTxn _ => MSG_GET_BLOCK_TXN | GBlockTxn _ => MSG_BLOCK_TXN
  | GErlayReconcile _ => MSG_ERLAY_RECONCILE
  end.

Lemma encode_inv_items_tag tag items bs : encode_inv_items tag items = Ok bs → head bs = Some (byte_of tag).
Proof. unfold encode_inv_items. destruct (_ <? _); [done|]. by intros <-%ok_inj. Qed.

Lemma gossip_encode_tag m bs : gossip_encode m = Ok bs → head bs = Some (byte_of (message_tag m)).
Proof.
  destruct m; cbn [gossip_encode message_tag].
  - apply encode_inv_items_tag.
  - apply encode_inv_items_tag.
  - unfold encode_tx. cbv zeta. destruct (_ <? _); [done|]. by intros <-%ok_inj.
  - unfold encode_blocks. destruct (_ <? _); [done|]. intros H. apply bind_ok_inv in H as (? & _ & H).
    cbv zeta in H. destruct (_ <? _); [done|]. by apply ok_inj in H as <-.
  - apply encode_inv_items_tag.
  - unfold compact_encode. destruct (_ <? _); [done|]. destruct (_ <? _); [done|]. intros H.
    apply bind_ok_inv in H as (? & _ & H). apply bind_ok_inv in H as (? & _ & H). cbv zeta in H.
    destruct (_ <? _); [done|]. by apply ok_inj in H as <-.
  - unfold get_block_txn_encode. destruct (_ <? _); [done|]. by intros <-%ok_inj.
  - unfold block_txn_encode. destruct (_ <? _); [done|]. intros H. apply bind_ok_inv in H as (? & _ & H).
    cbv zeta in H. destruct (_ <? _); [done|]. by apply ok_inj in H as <-.
  - unfold erlay_encode. destruct (_ <? _); [done|]. by intros <-%ok_inj.
Qed.

Lemma gossip_roundtrip m bs : wf_message m → gossip_encode m = Ok bs → gossip_parse bs = Ok m.
Proof.
  intros Hwf He. pose proof (gossip_encode_tag m bs He) as Ht.
  destruct bs as [|b bs']; [done|]. injection Ht as Ht. unfold gossip_parse. cbv zeta.
  set (bs := b :: bs') in *. rewrite Ht.
  destruct m; cbn [message_tag gossip_encode wf_message] in *;
    repeat match goal with |- context [byte_val (byte_of ?t) =? ?u] =>
      let c := eval vm_compute in (byte_val (byte_of t) =? u) in
      change (byte_val (byte_of t) =? u) with c end; cbv iota.
  - unfold inv_parse. by rewrite (proj2 (inv_items_iff MSG_INV "INV" bs items ltac:(done)) (conj Hwf He)).
  - unfold get_data_parse. by rewrite (proj2 (inv_items_iff MSG_GET_DATA "GET_DATA" bs items ltac:(done)) (conj Hwf He)).
  - by rewrite (tx_ok _ _ Hwf He).
  - rewrite (blocks_ok [block] bs); [done|by constructor|done].
  - unfold not_found_parse. by rewrite (proj2 (inv_items_iff MSG_NOTFOUND "NOTFOUND" bs items ltac:(done)) (conj Hwf He)).
  - by rewrite (compact_ok _ _ Hwf He).
  - by rewrite (get_block_txn_ok _ _ Hwf He).
  - by rewrite (block_txn_ok _ _ Hwf He).
  - by rewrite (erlay_message_ok _ _ He).
Qed.

(** every gossip message a node encodes is parsed by its peer to the same
    message, whatever its kind, and no payload a peer may send makes the gossip
    parser panic. *)
Theorem gossip_message_roundtrip :
  (∀ m bs, wf_message m → gossip_encode m = Ok bs → gossip_parse bs = Ok m)
  ∧ ∀ bs, gossip_parse bs ≠ Panic.
Proof. split; [apply gossip_roundtrip|apply gossip_parse_no_panic]. Qed.

(** C25: every message without a transaction body has exactly one encoding: for
    GET_HEADERS, HEADERS, GET_BLOCKS, ADDR, INV, GET_DATA, NOTFOUND, GET_BLOCK_TXN,
    ERLAY_RECONCILE and HELLO, the parser accepts a payload exactly when it is the
    encoding of the value returned, and that value is well formed (hashes of 32 bytes,
    canonical headers whose hash field is recomputed, integers in range, addresses as
    [SocketAddr::new] builds them).  For BLOCKS, TX, COMPACT_BLOCK and BLOCK_TXN, whose
    transaction bodies are not canonical, what a well-formed sender encodes is what the
    receiver parses; and a length-prefixed stream gives back each payload and the rest
    of the stream. *)
Theorem wire_codecs_bijective (bs : list byte) :
  (∀ h, parse_get_headers bs = Ok h ↔ in_u64 h ∧ bs = encode_get_headers h)
  ∧ (∀ hs, parse_headers bs = Ok hs ↔ Forall wf_header hs ∧ encode_headers hs = Ok bs)
  ∧ (∀ hs, parse_get_blocks bs = Ok hs ↔ Forall is32 hs ∧ encode_get_blocks hs = Ok bs)
  ∧ (∀ items, inv_parse bs = Ok items ↔ Forall wf_item items ∧ inv_encode items = Ok bs)
  ∧ (∀ items, get_data_parse bs = Ok items ↔ Forall wf_item items ∧ get_data_encode items = Ok bs)
  ∧ (∀ items, not_found_parse bs = Ok items ↔ Forall wf_item items ∧ not_found_encode items = Ok bs)
  ∧ (∀ es, parse_addr bs = Ok es ↔ Forall wf_addr_entry es ∧ encode_addr es = Ok bs)
  ∧ (∀ g, get_block_txn_parse bs = Ok g ↔ wf_get_block_txn g ∧ get_block_txn_encode g = Ok bs)
  ∧ (∀ m, erlay_parse bs = Ok m ↔ erlay_encode m = Ok bs)
  ∧ (∀ h, hello_decode bs = Ok h ↔ wf_hello h ∧ hello_encode h = bs)
  ∧ (∀ blocks, Forall wf_block blocks → encode_blocks blocks = Ok bs → parse_blocks bs = Ok blocks)
  ∧ (∀ tx, wf_tx tx → encode_tx tx = Ok bs → parse_tx bs = Ok tx)
  ∧ (∀ c, wf_compact c → compact_encode c = Ok bs → compact_parse bs = Ok c)
  ∧ (∀ t, wf_block_txn t → block_txn_encode t = Ok bs → block_txn_parse bs = Ok t)
  ∧ (∀ payload rest, write_length_prefixed payload = Ok bs →
       read_length_prefixed (bs ++ rest) = Ok (payload, rest)).
Proof.
  split_and!; intros *.
  - apply get_headers_iff.
  - apply headers_iff.
  - apply get_blocks_iff.
  - by apply inv_items_iff.
  - by apply inv_items_iff.
  - by apply inv_items_iff.
  - apply addr_iff.
  - split; [apply get_block_txn_inv|intros [? ?]; by apply get_block_txn_ok].
  - split; [apply erlay_message_inv|apply erlay_message_ok].
  - apply hello_iff.
  - apply blocks_ok.
  - apply tx_ok.
  - apply compact_ok.
  - apply block_txn_ok.
  - apply frame_ok.
Qed.
End Messages.

(** ** Knowledge and handlers *)

Lemma filter_all {A} (P : A → Prop) `{∀ x, Decision (P x)} (l : list A) : Forall P l → filter P l = l.
Proof. induction 1; [done|]. rewrite filter_cons_True by done. by f_equal. Qed.

(** Every known set is within its cap. *)
Definition gossip_inv (st : GossipState) : Prop := map_Forall (λ _ s, (size s ≤ KNOWN_SET_CAP)%nat) st.

Lemma mark_known_inv st peer it : gossip_inv st → gossip_inv (mark_known st peer it).
Proof.
  intros H. unfold mark_known. apply map_Forall_insert_2; [|done].
  assert (size (default ∅ (st !! peer)) ≤ KNOWN_SET_CAP)%nat as Hs.
  { destruct (st !! peer) as [s|] eqn:E; [by apply (H peer)|]. cbn. rewrite size_empty. lia. }
  case_match eqn:E.
  - rewrite (right_id_L ∅ (∪)), size_singleton. unfold KNOWN_SET_CAP. lia.
  - apply Nat.leb_gt in E. pose proof (size_union_alt {[it]} (default ∅ (st !! peer))) as Hu.
    rewrite Hu, size_singleton.
    pose proof (subseteq_size (default ∅ (st !! peer) ∖ {[it]}) (default ∅ (st !! peer)) ltac:(set_solver)). lia.
Qed.

Lemma mark_known_knows st peer it : knows (mark_known st peer it) peer it = true.
Proof. unfold knows, mark_known, GossipState in *. rewrite lookup_insert_eq. apply bool_decide_eq_true. set_solver. Qed.

Lemma mark_known_other st peer peer' it it' :
  peer' ≠ peer → knows (mark_known st peer it) peer' it' = knows st peer' it'.
Proof. intros H. unfold knows, mark_known, GossipState in *. by rewrite lookup_insert_ne. Qed.

Lemma forget_peer_ok st peer :
  (gossip_inv st → gossip_inv (forget_peer st peer)) ∧ ∀ it, knows (forget_peer st peer) peer it = false.
Proof.
  split; [apply map_Forall_delete|]. intros it. unfold knows, forget_peer, GossipState in *. by rewrite lookup_delete_eq.
Qed.

Definition mark_all (st : GossipState) (peer : NodeId) (items : list InventoryItem) : GossipState :=
  foldl (λ st it, mark_known st peer it) st items.

Lemma mark_all_inv items st peer : gossip_inv st → gossip_inv (mark_all st peer items).
Proof. revert st. induction items; intros st H; [done|]. cbn. by apply IHitems, mark_known_inv. Qed.

Lemma mark_all_last items st peer it : last items = Some it → knows (mark_all st peer items) peer it = true.
Proof.
  intros H. apply last_Some in H as [l ->]. unfold mark_all. rewrite foldl_app. apply mark_known_knows.
Qed.

Section Handlers.
Context `{HX : Hex, HXok : !HexOk, B3 : Blake3, B3ok : !Blake3Ok}.

(** What the handlers rely on: membership agrees with lookup, and an object is
    stored under its own id.  [view_inv] is the invariant of the node. *)
Class ViewOk (C : Type) `{BV : BlockchainView C} := {
  view_inv : C → Prop;
  view_mempool_contains c id : bv_mempool_contains c id = bool_decide (is_Some (bv_mempool_tx c id));
  view_mempool_tx c id tx : view_inv c → bv_mempool_tx c id = Some tx → txid tx = id;
  view_contains_block c h : bv_chain_contains_block c h = bool_decide (is_Some (bv_block_by_hash c h));
  view_block_by_hash c h b : view_inv c → bv_block_by_hash c h = Some b → b_hash b = h
}.

(** The message delivers the object the item names. *)
Definition delivers (it : InventoryItem) (m : GossipMessage) : Prop :=
  match it_kind it, m with
  | InvTx, GTx tx => txid tx = it_hash it
  | InvBlock, GBlock b => b_hash b = hex_encode (it_hash it)
  | _, _ => False
  end.

Section One.
Context {C : Type} `{BV : BlockchainView C}.

Lemma handle_inv_spec items from st (c : C) :
  let missing := filter (λ it, have c it = false) items in
  handle_inv items from st c
  = (match missing with [] => [] | _ => [GGetData missing] end, mark_all st from items).
Proof.
  cbv zeta. unfold handle_inv.
  assert (∀ acc st, foldl (λ '(missing, st) item,
    let st := mark_known st from item in
    (if have c item then missing else missing ++ [item], st)) (acc, st) items
    = (acc ++ filter (λ it, have c it = false) items, mark_all st from items)) as H.
  { clear. induction items as [|it items IH]; intros acc st; [cbn; by rewrite (right_id_L [] (++))|].
    cbn [foldl]. rewrite IH. rewrite filter_cons.
    destruct (have c it); [by rewrite decide_False by done|].
    rewrite decide_True by done. by rewrite <- (assoc_L (++)). }
  by rewrite H.
Qed.

Lemma handle_get_data_spec items from st (c : C) :
  let missing := filter (λ it, serve c it = None) items in
  handle_get_data items from st c
  = (match missing with [] => omap (serve c) items | _ => omap (serve c) items ++ [GNotFound missing] end,
     mark_all st from (filter (λ it, serve c it ≠ None) items)).
Proof.
  cbv zeta. unfold handle_get_data.
  assert (∀ out acc st, foldl (serve_step c from) (out, acc, st) items
    = (out ++ omap (serve c) items, acc ++ filter (λ it, serve c it = None) items,
       mark_all st from (filter (λ it, serve c it ≠ None) items))) as H.
  { clear. induction items as [|it items IH]; intros out acc st; [cbn; by rewrite !(right_id_L [] (++))|].
    cbn [foldl]. unfold serve_step at 2. rewrite !filter_cons. cbn [omap list_omap].
    destruct (serve c it) as [m|] eqn:E; rewrite IH.
    - rewrite (decide_False (P:=Some m = None)), decide_True by done.
      rewrite <- (assoc_L (++)). done.
    - rewrite decide_True, (decide_False (P:=None ≠ None)) by (try done; tauto).
      by rewrite <- (assoc_L (++)). }
  by rewrite H.
Qed.

Context `{VO : !ViewOk C}.

Lemma have_serve (c : C) it : have c it = bool_decide (serve c it ≠ None).
Proof.
  unfold have, serve. destruct (it_kind it).
  - rewrite view_mempool_contains. apply bool_decide_ext. rewrite is_Some_alt. by destruct (bv_mempool_tx _ _).
  - rewrite view_contains_block. apply bool_decide_ext. rewrite is_Some_alt. by destruct (bv_block_by_hash _ _).
Qed.

Lemma serve_delivers (c : C) it m : view_inv c → serve c it = Some m → delivers it m.
Proof.
  intros Hc. unfold serve, delivers. destruct (it_kind it).
  - destruct (bv_mempool_tx _ _) eqn:E; [|done]. intros [= <-]. by eapply view_mempool_tx.
  - destruct (bv_block_by_hash _ _) eqn:E; [|done]. intros [= <-]. by eapply view_block_by_hash.
Qed.

Lemma serves_all (c : C) items :
  view_inv c → Forall (λ it, have c it = true) items →
  Forall2 delivers items (omap (serve c) items) ∧ filter (λ it, serve c it = None) items = [].
Proof.
  intros Hc. induction 1 as [|it items H _ [IH1 IH2]]; [by split; [constructor|]|].
  rewrite have_serve in H. apply bool_decide_eq_true in H. cbn [omap list_omap]. rewrite filter_cons.
  destruct (serve c it) as [m|] eqn:E; [|done]. rewrite decide_False by done.
  split; [constructor; [by eapply serve_delivers|done]|done].
Qed.
End One.

(** in an INV / GET_DATA exchange the receiver asks the announcer for exactly
    the announced objects it does not have, in the announced order (and for
    nothing when it has them all), and notes the announcer as knowing the last
    announced object; an announcer that has what it announced answers with exactly
    one object per request, each the object the request names, and never
    NOTFOUND.  Both nodes keep each peer's known set within its cap. *)
Theorem inv_exchange {A R : Type} `{VA : ViewOk A, VR : BlockchainView R}
    (announcer : A) (receiver : R) items me peer sta str :
  view_inv announcer → Forall (λ it, have announcer it = true) items →
  gossip_inv sta → gossip_inv str →
  let missing := filter (λ it, have receiver it = false) items in
  let '(reqs, str') := handle_inv items me str receiver in
  let '(replies, sta') := handle_get_data missing peer sta announcer in
  reqs = match missing with [] => [] | _ => [GGetData missing] end
  ∧ Forall2 delivers missing replies
  ∧ (∀ it, last items = Some it → knows str' me it = true)
  ∧ (∀ it, last missing = Some it → knows sta' peer it = true)
  ∧ gossip_inv sta' ∧ gossip_inv str'.
Proof.
  intros Ha Hi Hsa Hsr missing. rewrite handle_inv_spec, handle_get_data_spec. cbv zeta. fold missing.
  assert (Forall (λ it, have announcer it = true) missing) as Hm.
  { apply Forall_forall. intros it [_ Hit]%list_elem_of_filter. by eapply Forall_forall in Hi. }
  destruct (serves_all announcer missing Ha Hm) as [Hd Hn]. rewrite Hn.
  assert (filter (λ it, serve announcer it ≠ None) missing = missing) as ->.
  { apply filter_all. eapply Forall_impl; [exact Hm|]. intros it. cbn. rewrite have_serve.
    apply bool_decide_eq_true. }
  split_and!; auto using mark_all_inv, mark_all_last.
Qed.
End Handlers.

(** ** Full relay *)

(** What relaying relies on of the peer link: a delivered payload is appended to
    what the peer got, a failed delivery leaves it as it was. *)
Class LinkOk (M : Type) `{PL : PeerLink M} := {
  sent : M → NodeId → list (list byte);
  send_sent m peer p : let '(r, m') := send_to_peer m peer p in
    sent m' peer = sent m peer ++ (if is_ok r then [p] else [])
}.

Section Chunks.
Context {A : Type}.

Lemma chunks_ok fuel n (l : list A) :
  (0 < n)%nat → (length l ≤ fuel)%nat →
  concat (chunks fuel n l) = l ∧ Forall (λ c, (0 < length c ≤ n)%nat) (chunks fuel n l).
Proof.
  intros Hn. revert l. induction fuel as [|fuel IH]; intros [|a l] Hl; cbn [chunks concat];
    try (cbn in Hl; lia); try (by split; [|constructor]).
  destruct (IH (drop n (a :: l))) as [IH1 IH2]; [rewrite length_drop; cbn in *; lia|].
  rewrite IH1. split; [apply take_drop|]. constructor; [|done]. rewrite length_take. cbn. lia.
Qed.
End Chunks.

Lemma dedup_NoDup {A} `{EqDecision A} (R : relation A) (l : list A) :
  AntiSymm (=) R → StronglySorted R l → NoDup (dedup l).
Proof.
  intros Has. induction l as [|a [|b l] IH]; intros Hs; [constructor|apply NoDup_singleton|].
  change (dedup (a :: b :: l)) with (if decide (a = b) then dedup (b :: l) else a :: dedup (b :: l)).
  apply StronglySorted_inv in Hs as [Hs Hall]. destruct (decide (a = b)) as [->|Hne]; [by apply IH|].
  constructor; [|by apply IH]. rewrite dedup_elem. intros Hin. apply elem_of_cons in Hin as [?|Hin]; [done|].
  apply StronglySorted_inv in Hs as [_ Hb]. rewrite Forall_forall in Hall, Hb. apply Hne.
  apply (anti_symm R); [apply Hall; left|by apply Hb].
Qed.

Section Relay.
Context `{HX : Hex, HXok : !HexOk, B3 : Blake3, B3ok : !Blake3Ok}.
Context {M : Type} `{LO : LinkOk M}.

(** The INV payload of a batch. *)
Definition inv_payload (batch : list InventoryItem) (p : list byte) : Prop := inv_encode batch = Ok p.

Definition fresh_for (st : GossipState) (peer : NodeId) (l : list InventoryItem) : list InventoryItem :=
  filter (λ i, knows st peer i = false) l.

Definition reliable : Prop := ∀ (m : M) peer p, is_ok (send_to_peer m peer p).1 = true.

Lemma relay_chunk_ok st peer n m chunk :
  (length chunk ≤ Z.to_nat MAX_INV_BATCH)%nat →
  let '(n', m') := relay_chunk st peer (n, m) chunk in
  ∃ batches ps, Forall2 inv_payload batches ps ∧ sent m' peer = sent m peer ++ ps
    ∧ n' = n + lenZ (concat batches)
    ∧ (concat batches = fresh_for st peer chunk ∨ concat batches = [] ∧ ¬ reliable)
    ∧ Forall (λ b, (0 < length b)%nat) batches.
Proof.
  intros Hc. unfold relay_chunk. fold (fresh_for st peer chunk).
  assert (length (fresh_for st peer chunk) ≤ length chunk)%nat as Hf by apply length_filter.
  assert (∃ p, inv_encode (fresh_for st peer chunk) = Ok p) as [p Hp].
  { unfold inv_encode, encode_inv_items. destruct (_ <? _) eqn:E; [|by eexists].
    apply Z.ltb_lt in E. unfold lenZ, MAX_INV_BATCH in *. lia. }
  destruct (fresh_for st peer chunk) as [|i fr] eqn:Efr.
  { exists [], []. rewrite (right_id_L [] (++)). split_and!; [constructor|done|unfold lenZ; cbn; lia|by left|constructor]. }
  rewrite Hp. pose proof (send_sent m peer p) as Hs. destruct (send_to_peer m peer p) as [r m'] eqn:Es.
  destruct (is_ok r) eqn:Er.
  - exists [i :: fr], [p]. split_and!; [constructor; [exact Hp|constructor]|done| |left|constructor; [cbn; lia|constructor]];
      cbn [concat]; by rewrite (right_id_L [] (++)).
  - exists [], []. split_and!; [constructor|done|unfold lenZ; cbn; lia| |constructor].
    right. split; [done|]. intros H. specialize (H m peer p). rewrite Es in H. cbn in H. congruence.
Qed.

Lemma relay_chunks_ok st peer cs n m :
  Forall (λ c, (0 < length c ≤ Z.to_nat MAX_INV_BATCH)%nat) cs →
  let '(n', m') := foldl (relay_chunk st peer) (n, m) cs in
  ∃ batches ps, Forall2 inv_payload batches ps ∧ sent m' peer = sent m peer ++ ps
    ∧ n' = n + lenZ (concat batches) ∧ sublist (concat batches) (fresh_for st peer (concat cs))
    ∧ (reliable → concat batches = fresh_for st peer (concat cs))
    ∧ Forall (λ b, (0 < length b)%nat) batches.
Proof.
  intros H. revert n m. induction H as [|c cs Hc _ IH]; intros n m; cbn [foldl concat].
  { exists [], []. rewrite (right_id_L [] (++)).
    split_and!; [constructor|done|unfold lenZ; cbn; lia|constructor|done|constructor]. }
  pose proof (relay_chunk_ok st peer n m c ltac:(lia)) as H1.
  destruct (relay_chunk st peer (n, m) c) as [n1 m1] eqn:E1.
  destruct H1 as (b1 & p1 & Hp1 & Hs1 & Hn1 & Hf1 & Hb1). specialize (IH n1 m1).
  destruct (foldl (relay_chunk st peer) (n1, m1) cs) as [n2 m2] eqn:E2.
  destruct IH as (b2 & p2 & Hp2 & Hs2 & Hn2 & Hf2 & Hr2 & Hb2).
  exists (b1 ++ b2), (p1 ++ p2). rewrite concat_app. unfold fresh_for in *. rewrite filter_app.
  split_and!; [by apply Forall2_app|by rewrite Hs2, Hs1, (assoc_L (++))|unfold lenZ in *; rewrite length_app; lia| | |by apply Forall_app].
  - destruct Hf1 as [-> |[-> _]]; [by apply sublist_app|by apply sublist_inserts_l].
  - intros Hr. rewrite (Hr2 Hr). destruct Hf1 as [-> |[_ Hn]]; [done|by destruct Hn].
Qed.

Lemma dedup_txs_NoDup l :
  Forall (λ i, it_kind i = InvTx) l → StronglySorted inv_le l → NoDup (dedup l).
Proof.
  intros Hk H. apply (dedup_NoDup (λ a b, inv_le a b ∧ it_kind a = InvTx ∧ it_kind b = InvTx)).
  - intros [k1 h1] [k2 h2] (Ha & K1 & K2) (Hb & _ & _). cbn in *. subst.
    by rewrite (bytes_ltb_total h1 h2 Hb Ha).
  - induction H as [|i l H IH Ha]; [constructor|]. apply Forall_cons in Hk as [Hi Hk].
    constructor; [by apply IH|]. apply Forall_forall. intros x Hx. rewrite Forall_forall in Hk, Ha.
    split_and!; [by apply Ha|done|by apply Hk].
Qed.

#[local] Instance inv_le_trans : Transitive inv_le.
Proof. intros a b c H1 H2. exact (bytes_le_trans _ _ _ H1 H2). Qed.
#[local] Instance inv_le_total : Total inv_le.
Proof.
  intros a b. unfold inv_le. destruct (bytes_ltb (it_hash b) (it_hash a)) eqn:E; [|by left]. right.
  destruct (bytes_ltb (it_hash a) (it_hash b)) eqn:E'; [|done].
  pose proof (bytes_ltb_trans _ _ _ E E') as H. by rewrite bytes_ltb_irrefl in H.
Qed.

Context {C : Type} `{BV : BlockchainView C}.

Lemma fallback_items_ok txids (c : C) :
  let ids := match txids with [] => txid <$> bv_mempool_txs c | _ => txids end in
  NoDup (fallback_items txids c) ∧ ∀ it, it ∈ fallback_items txids c ↔ ∃ id, it = inv_tx id ∧ id ∈ ids.
Proof.
  cbv zeta. set (ids := match txids with [] => _ | _ => _ end).
  assert (fallback_items txids c = dedup (merge_sort inv_le (inv_tx <$> ids))) as ->.
  { unfold fallback_items, ids. destruct txids; [|done]. by rewrite <- list_fmap_compose. }
  split.
  - apply dedup_txs_NoDup; [|apply (StronglySorted_merge_sort _)].
    rewrite merge_sort_Permutation. apply Forall_fmap. by apply Forall_true.
  - intros it. by rewrite dedup_elem, merge_sort_Permutation, list_elem_of_fmap.
Qed.

(** the full-relay fallback announces to the reconciliation partner, each at
    most once, only objects of the requested set (the whole pool when no set is
    given) the partner is not known to have, in well-formed INV messages within the
    batch bound, and counts exactly the announced items; over a link that delivers,
    it announces all of them. *)
Theorem fallback_relay_complete txids peer (m : M) st (c : C) :
  let ids := match txids with [] => txid <$> bv_mempool_txs c | _ => txids end in
  let '(n, m') := fallback_full_relay txids peer m st c in
  ∃ batches payloads, Forall2 inv_payload batches payloads
    ∧ sent m' peer = sent m peer ++ payloads
    ∧ n = lenZ (concat batches) ∧ NoDup (concat batches) ∧ Forall (λ b, (0 < length b)%nat) batches
    ∧ (∀ it, it ∈ concat batches → knows st peer it = false ∧ ∃ id, it = inv_tx id ∧ id ∈ ids)
    ∧ (reliable → ∀ id, id ∈ ids → knows st peer (inv_tx id) = false → inv_tx id ∈ concat batches).
Proof.
  cbv zeta. destruct (fallback_items_ok txids c) as [Hnd Hel]. cbv zeta in Hel.
  unfold fallback_full_relay. set (items := fallback_items txids c) in *.
  destruct (chunks_ok (length items) (Z.to_nat MAX_INV_BATCH) items) as [Hcat Hlen]; [unfold MAX_INV_BATCH; lia|done|].
  pose proof (relay_chunks_ok st peer _ 0 m Hlen) as H. rewrite Hcat in H.
  destruct (foldl _ _ _) as [n m']. destruct H as (bs & ps & Hp & Hs & Hn & Hsub & Hr & Hb).
  exists bs, ps. split_and!; [done|done|lia| |done| |].
  - apply (sublist_NoDup _ (fresh_for st peer items)); [by apply NoDup_filter|exact Hsub].
  - intros it Hit. eapply elem_of_sublist in Hit; [|exact Hsub]. apply list_elem_of_filter in Hit as [? Hit].
    split; [done|]. by apply Hel.
  - intros Hrel id Hid Hk. rewrite (Hr Hrel). apply list_elem_of_filter. split; [done|]. apply Hel. by exists id.
Qed.
End Relay.

(** ** Witnesses *)

#[local] Existing Instance toy_hex.
#[local] Existing Instance toy_blake3.
#[local] Existing Instance toy_hex_ok.
#[local] Existing Instance toy_blake3_ok.

Lemma wire_codecs_bijective_witness :
  parse_headers (match encode_headers [sample_header sample_txs] with Ok bs => bs | _ => [] end)
  = Ok [sample_header sample_txs]
  ∧ parse_addr (match encode_addr sample_addrs with Ok bs => bs | _ => [] end) = Ok sample_addrs
  ∧ parse_tx (match encode_tx sample_transfer with Ok bs => bs | _ => [] end) = Ok sample_transfer.
Proof.
  split_and!.
  - assert (is_ok (encode_headers [sample_header sample_txs]) = true) as H by (vm_compute; reflexivity).
    destruct (encode_headers [sample_header sample_txs]) as [bs|e|] eqn:E; [|discriminate H..].
    apply (wire_codecs_bijective bs). split; [by_eval|exact E].
  - apply (wire_codecs_bijective _). split; [by_eval|]. vm_compute. reflexivity.
  - assert (is_ok (encode_tx sample_transfer) = true) as H by (vm_compute; reflexivity).
    destruct (encode_tx sample_transfer) as [bs|e|] eqn:E; [|discriminate H..].
    apply (wire_codecs_bijective bs); [by_eval|exact E].
Defined.

Lemma gossip_message_roundtrip_witness :
  (∃ bs, gossip_encode (GTx sample_transfer) = Ok bs ∧ gossip_parse bs = Ok (GTx sample_transfer))
  ∧ gossip_parse [] ≠ Panic.
Proof.
  destruct gossip_message_roundtrip as [H1 H2]. split; [|apply H2].
  destruct (gossip_encode (GTx sample_transfer)) as [bs| |] eqn:E; [|vm_compute in E; discriminate E..].
  exists bs. split; [done|]. apply H1; [by_eval|exact E].
Defined.

(** A node that keeps its pool and its blocks as lists. *)
Record Lists := { ls_blocks : list Block; ls_pool : list Transaction }.

#[local] Instance lists_view : BlockchainView Lists := {|
  bv_tip_hash c := from_option b_hash "" (last (ls_blocks c));
  bv_chain_len c := length (ls_blocks c);
  bv_chain_contains_tx c tx := false;
  bv_mempool_contains c id := bool_decide (is_Some (list_find (λ t, txid t = id) (ls_pool c)));
  bv_mempool_tx c id := snd <$> list_find (λ t, txid t = id) (ls_pool c);
  bv_mempool_txs c := ls_pool c;
  bv_block_by_hash c h := snd <$> list_find (λ b, b_hash b = h) (ls_blocks c);
  bv_chain_contains_block c h := bool_decide (is_Some (list_find (λ b, b_hash b = h) (ls_blocks c)));
  bv_headers_from_height c from n := [];
  bv_blocks_by_hashes c hs n := []
|}.

#[local] Program Instance lists_view_ok : ViewOk Lists := {| view_inv _ := True |}.
Next Obligation. intros c id. apply bool_decide_ext. cbn. by rewrite fmap_is_Some. Qed.
Next Obligation.
  intros c id tx _ H. apply fmap_Some in H as ([i t] & H & ->). by apply list_find_Some in H as (_ & ? & _).
Qed.
Next Obligation. intros c h. apply bool_decide_ext. cbn. by rewrite fmap_is_Some. Qed.
Next Obligation.
  intros c h b _ H. apply fmap_Some in H as ([i t] & H & ->). by apply list_find_Some in H as (_ & ? & _).
Qed.

Definition full_node : Lists := {| ls_blocks := []; ls_pool := [sample_transfer; sample_call] |}.
Definition fresh_node : Lists := {| ls_blocks := []; ls_pool := [sample_call] |}.
Definition offered : list InventoryItem := [inv_tx (txid sample_transfer); inv_tx (txid sample_call)].

Lemma gossip_inv_empty : gossip_inv ∅.
Proof. apply map_Forall_empty. Qed.

Lemma inv_exchange_witness :
  let '(reqs, _) := handle_inv offered [] ∅ fresh_node in
  reqs = [GGetData [inv_tx (txid sample_transfer)]]
  ∧ (handle_get_data [inv_tx (txid sample_transfer)] [] ∅ full_node).1 = [GTx sample_transfer].
Proof.
  assert (filter (λ it, have fresh_node it = false) offered = [inv_tx (txid sample_transfer)]) as Hm
    by (vm_compute; reflexivity).
  assert (Forall (λ it, have full_node it = true) offered) as Hh by by_eval.
  pose proof (inv_exchange full_node fresh_node offered [] [] ∅ ∅ I Hh gossip_inv_empty gossip_inv_empty) as H.
  cbv zeta in H. rewrite Hm in H. destruct (handle_inv _ _ _ _) as [reqs st].
  destruct (handle_get_data _ _ _ _) as [replies st'] eqn:E. destruct H as (H & _). split; [exact H|].
  apply (f_equal fst) in E. rewrite <- E. vm_compute. reflexivity.
Defined.

(** A link that records every payload, to one peer. *)
#[local] Instance log_link : PeerLink (list (list byte)) := {|
  connected_peers m := [];
  is_banned m p := false;
  send_to_peer m p bs := (Ok tt, m ++ [bs])
|}.
#[local] Program Instance log_link_ok : LinkOk (list (list byte)) := {| sent m _ := m |}.
Next Obligation. done. Qed.

Lemma fallback_relay_complete_witness :
  let '(n, m') := fallback_full_relay [] [] [] ∅ full_node in
  ∃ batches payloads, Forall2 inv_payload batches payloads ∧ m' = payloads ∧ n = lenZ (concat batches)
    ∧ inv_tx (txid sample_call) ∈ concat batches.
Proof.
  pose proof (fallback_relay_complete [] [] [] ∅ full_node) as H. cbv zeta in H.
  destruct (fallback_full_relay _ _ _ _ _) as [n m'].
  destruct H as (bs & ps & H1 & H2 & H3 & _ & _ & _ & H4). exists bs, ps. split_and!; [done|exact H2|done|].
  apply H4; [by intros ???|right; left|done].
Defined.
