(* ===== verification/Executor.v ===== *)
(** * Block executor (src/blockchain/block_executor.rs)

    Validation of one block against its parent state and chain, followed by its
    application through the VM; construction and mining of blocks.  The clock is an
    argument, the shutdown flag of the miner is the bound on its nonce search, and
    the compile-time feature [vm-wasm] is a boolean. *)

From S2P Require Import Prelude Bytes U256 Abi Types Address Serialize Consensus Emission SparseMerkle State Node Mempool Net.
Open Scope Z_scope.

Definition GRANT_BLOCK_INDEX : Z := 1.

(** The executor the node instantiates: [WasmiExecutor::new] and [insert_code]. *)
Class VmRuntime (V : Type) := {
  vm_executor :: VmExecutor V;
  vm_new : V;
  insert_code : V → string → list byte → V
}.

Abbreviation Codes := (gmap string (list byte)).

Record BlockView := {
  vw_chain : list Block;
  vw_now : Z;
  vw_allow_grant_blocks : bool;
  vw_allow_zero_state_root : bool;
  vw_expected_consensus_version : Z;
  vw_phase : ConsensusPhase;
  vw_chain_id : Z;
  vw_codes : option Codes
}.

Definition view_new (chain : list Block) (now : Z) (allow_grant_blocks : bool)
    (expected_consensus_version chain_id : Z) : BlockView := {|
  vw_chain := chain; vw_now := now; vw_allow_grant_blocks := allow_grant_blocks;
  vw_allow_zero_state_root := false;
  vw_expected_consensus_version := expected_consensus_version; vw_phase := Pow;
  vw_chain_id := chain_id; vw_codes := None |}.

Definition with_phase (v : BlockView) (phase : ConsensusPhase) : BlockView := {|
  vw_chain := vw_chain v; vw_now := vw_now v; vw_allow_grant_blocks := vw_allow_grant_blocks v;
  vw_allow_zero_state_root := vw_allow_zero_state_root v;
  vw_expected_consensus_version := vw_expected_consensus_version v; vw_phase := phase;
  vw_chain_id := vw_chain_id v; vw_codes := vw_codes v |}.

Definition with_allow_zero_state_root (v : BlockView) (allow : bool) : BlockView := {|
  vw_chain := vw_chain v; vw_now := vw_now v; vw_allow_grant_blocks := vw_allow_grant_blocks v;
  vw_allow_zero_state_root := allow;
  vw_expected_consensus_version := vw_expected_consensus_version v; vw_phase := vw_phase v;
  vw_chain_id := vw_chain_id v; vw_codes := vw_codes v |}.

Definition with_codes (v : BlockView) (codes : Codes) : BlockView := {|
  vw_chain := vw_chain v; vw_now := vw_now v; vw_allow_grant_blocks := vw_allow_grant_blocks v;
  vw_allow_zero_state_root := vw_allow_zero_state_root v;
  vw_expected_consensus_version := vw_expected_consensus_version v; vw_phase := vw_phase v;
  vw_chain_id := vw_chain_id v; vw_codes := Some codes |}.

(** ** Checks *)

Definition invalid {A} (block : Block) (reason : string) : result Node.StrangecoinError A :=
  Err (Node.InvalidBlock ("block " +:+ pretty (b_index block) +:+ ": " +:+ reason)).

(** ["0".repeat(64)]. *)
Definition zero_hash_string : string := String.string_of_list_byte (replicate 64 "0"%byte).

Definition validate_position (block : Block) (chain : list Block)
    : result Node.StrangecoinError unit :=
  if b_index block =? 0 then
    match chain with
    | _ :: _ => invalid block "genesis block applied on a non-empty chain"
    | [] =>
        if decide (b_previous_hash block = zero_hash_string) then Ok tt
        else invalid block "genesis previous_hash must be 64 zeroes"
    end
  else
    match last chain with
    | None => invalid block "parent block is missing"
    | Some parent =>
        if negb (b_index block =? Z.of_nat (length chain)) then
          invalid block ("index " +:+ pretty (b_index block) +:+ " does not follow parent height "
                         +:+ pretty (b_index parent))
        else if decide (b_previous_hash block = b_hash parent) then Ok tt
        else invalid block ("previous_hash " +:+ b_previous_hash block
                            +:+ " does not match parent hash " +:+ b_hash parent)
    end.

(** Gas a transaction reserves. *)
Definition reserved_gas (tx : Transaction) : Z :=
  match tx with Call call => ca_gas_limit call | Create create => cr_gas_limit create | Transfer _ => 0 end.

Definition enforce_block_gas_limit (transactions : list Transaction)
    : result Node.StrangecoinError unit :=
  let total := sum64 (reserved_gas <$> transactions) in
  if BLOCK_GAS_LIMIT <? total then Err (Node.BlockGasLimitExceeded total BLOCK_GAS_LIMIT) else Ok tt.

Definition enforce_receipt_gas_limit (receipts : list Receipt) : result Node.StrangecoinError unit :=
  let total := sum64 (rc_gas_used <$> receipts) in
  if BLOCK_GAS_LIMIT <? total then Err (Node.BlockGasLimitExceeded total BLOCK_GAS_LIMIT) else Ok tt.

Section Executor.
Context `{HX : Hex, B3 : Blake3, B32 : Bech32, SK : Secp256k1}.
Context `{VR : VmRuntime V} (vm_wasm : bool).

Definition validate_target (block : Block) (chain : list Block) : result Node.StrangecoinError unit :=
  if b_index block mod RETARGET_INTERVAL =? 0 then
    expected ← hex_encode <$> compute_target chain;
    if decide (b_target block = expected) then Ok tt
    else invalid block ("target " +:+ b_target block +:+ " at retarget height, expected " +:+ expected)
  else
    match last chain with
    | None => invalid block "parent block is missing"
    | Some parent =>
        if decide (b_target block = b_target parent) then Ok tt
        else invalid block ("target " +:+ b_target block
               +:+ " changed outside a retarget height, expected " +:+ b_target parent)
    end.

(** The size checks that open [validate_and_apply]. *)
Definition check_sizes (block : Block) : result Node.StrangecoinError unit :=
  bytes ← serialize_block block;
  if MAX_BLOCK_SIZE <? Z.of_nat (length bytes) then Err (Node.SizeLimitExceeded "block") else
  if bool_decide (Exists (λ tx, MAX_TX_SIZE < signed_len tx) (b_transactions block))
  then Err (Node.SizeLimitExceeded "transaction") else Ok tt.

(** One transaction of the signature loop. *)
Definition check_tx (chain_id : Z) (_ : unit) (tx : Transaction) : result Node.StrangecoinError unit :=
  if negb (tx_chain_id tx =? chain_id) then Err (Node.InvalidChainId chain_id (tx_chain_id tx)) else
  Node.lift (verify_transaction tx).

(** A new executor with every registered code. *)
Definition seed_executor (codes : option Codes) : V :=
  match codes with
  | Some codes => foldl (λ vm e, insert_code vm e.1 e.2) vm_new (map_to_list codes)
  | None => vm_new
  end.

Definition apply_and_execute (parent_state : State) (block : Block) (view : BlockView)
    : result Node.StrangecoinError State :=
  if vm_wasm then
    fst <$> Node.lift (apply_block_with_vm parent_state block (vw_chain_id view)
                         (seed_executor (vw_codes view)))
  else Node.lift (apply_block parent_state block (vw_chain_id view)).

(** The commitments checked after the transition. *)
Definition check_state_commitment (block : Block) (view : BlockView) (new_state : State)
    : result Node.StrangecoinError unit :=
  let computed_root := compute_state_root (balances new_state) in
  if decide (b_state_root block = zero32) then
    if (b_index block =? 0) || vw_allow_zero_state_root view then Ok tt
    else invalid block "state root is zero but a state commitment is required"
  else if decide (b_state_root block = computed_root) then Ok tt
  else invalid block ("state root mismatch: stored " +:+ Node.debug_hex_bytes (b_state_root block)
                      +:+ ", computed " +:+ Node.debug_hex_bytes computed_root).

Definition check_receipts_commitment (block : Block) (new_state : State)
    : result Node.StrangecoinError unit :=
  let computed := receipts_root (receipts new_state) in
  if decide (b_receipts_root block = zero32) then
    if b_index block =? 0 then Ok tt
    else invalid block "receipts root is zero but a receipts commitment is required"
  else if decide (b_receipts_root block = computed) then Ok tt
  else invalid block ("receipts root mismatch: stored " +:+ Node.debug_hex_bytes (b_receipts_root block)
                      +:+ ", computed " +:+ Node.debug_hex_bytes computed).

Definition validate_and_apply (parent_state : State) (block : Block) (view : BlockView)
    : result Node.StrangecoinError State :=
  _ ← check_sizes block;
  _ ← validate_position block (vw_chain view);
  computed_hash ← hex_encode <$> block_hash block;
  if negb (bool_decide (b_hash block = computed_hash))
  then invalid block ("header hash mismatch: stored " +:+ b_hash block +:+ ", computed " +:+ computed_hash) else
  if decide (vw_phase view = Pos) then invalid block "PoS validation phase is not active until Stage 7" else
  if negb (b_consensus_version block =? vw_expected_consensus_version view)
  then invalid block ("consensus_version mismatch: got " +:+ pretty (b_consensus_version block)
         +:+ ", expected " +:+ pretty (vw_expected_consensus_version view)) else
  _ ← Node.lift (validate_tx_root block);
  _ ← Node.lift (validate_timestamp block (vw_chain view) (vw_now view));
  _ ← (if 0 <? b_index block then
         _ ← Node.lift (validate_difficulty block);
         validate_target block (vw_chain view)
       else Ok tt);
  let is_opt_in_grant_block := vw_allow_grant_blocks view && (b_index block =? GRANT_BLOCK_INDEX) in
  _ ← (if is_opt_in_grant_block then Ok tt
       else foldM (check_tx (vw_chain_id view)) tt (b_transactions block));
  _ ← enforce_block_gas_limit (b_transactions block);
  new_state ← apply_and_execute parent_state block view;
  _ ← enforce_receipt_gas_limit (receipts new_state);
  _ ← check_state_commitment block view new_state;
  _ ← check_receipts_commitment block new_state;
  Ok new_state.

(** ** Code registry *)

Definition collect_block_codes (block : Block) (chain_id : Z) (codes : Codes) : Codes :=
  foldl (λ codes tx, match tx with
    | Create create =>
        match derive_contract_address (cr_from create) (cr_nonce create) chain_id with
        | Ok address => <[address := cr_init_code create]> codes
        | _ => codes
        end
    | _ => codes
    end) codes (b_transactions block).

Definition codes_from_chain (chain : list Block) (chain_id : Z) : Codes :=
  foldl (λ codes block, collect_block_codes block chain_id codes) ∅ chain.

End Executor.
