(* ===== verification/ExecutorProps.v ===== *)
(** * Properties of block validation

    [accepted] lists what a block must satisfy, one field per check of the code;
    [validate_and_apply] decides exactly that ([Rules] restates it in terms of the
    documented rules).  The clock enters only through the
    future bound, and the parent state only through its accounts and storage. *)

From S2P Require Import Prelude Bytes U256 Abi Types Address Concrete Serialize SerializeProps Consensus ConsensusProps Emission SparseMerkle State StateEquiv Node Mempool Net Executor.
Open Scope Z_scope.

Section ExecutorProps.
Context `{HX : Hex, B3 : Blake3, B32 : Bech32, SK : Secp256k1}.
Context `{VR : VmRuntime V} (vm_wasm : bool).

(** ** The rules, declaratively *)

Definition follows (block : Block) (chain : list Block) : Prop :=
  if b_index block =? 0 then chain = [] ∧ b_previous_hash block = zero_hash_string
  else ∃ parent, last chain = Some parent ∧ b_index block = Z.of_nat (length chain)
         ∧ b_previous_hash block = b_hash parent.

(** The target a block on top of [chain] must declare. *)
Definition scheduled_target (index : Z) (chain : list Block) (target : string) : Prop :=
  if index mod RETARGET_INTERVAL =? 0
  then ∃ t, compute_target (E:=Node.StrangecoinError) chain = Ok t ∧ target = hex_encode t
  else b_target <$> last chain = Some target.

(** A commitment of the header: the computed root, or zero where zero is allowed. *)
Definition committed (zero_allowed : Prop) (stored computed : list byte) : Prop :=
  if decide (stored = zero32) then zero_allowed else stored = computed.

Definition tx_valid (chain_id : Z) (tx : Transaction) : Prop :=
  tx_chain_id tx = chain_id ∧ verify_transaction tx = Ok tt.

(** What a block must satisfy to extend [vw_chain view] from [s] to [s']. *)
Record accepted (s : State) (block : Block) (view : BlockView) (s' : State) : Prop := {
  acc_size : ∃ bytes, serialize_block (E:=Node.StrangecoinError) block = Ok bytes
               ∧ Z.of_nat (length bytes) ≤ MAX_BLOCK_SIZE;
  acc_tx_sizes : Forall (λ tx, signed_len tx ≤ MAX_TX_SIZE) (b_transactions block);
  acc_position : follows block (vw_chain view);
  acc_hash : hex_encode <$> block_hash (E:=Node.StrangecoinError) block = Ok (b_hash block);
  acc_phase : vw_phase view = Pow;
  acc_version : b_consensus_version block = vw_expected_consensus_version view;
  acc_tx_root : compute_tx_root (E:=CoreError) (b_transactions block) = Ok (b_tx_root block);
  acc_time : validate_timestamp block (vw_chain view) (vw_now view) = Ok tt;
  acc_pow : 0 < b_index block → validate_difficulty block = Ok tt;
  acc_target : 0 < b_index block → scheduled_target (b_index block) (vw_chain view) (b_target block);
  acc_txs : vw_allow_grant_blocks view = false ∨ b_index block ≠ GRANT_BLOCK_INDEX →
            Forall (tx_valid (vw_chain_id view)) (b_transactions block);
  acc_gas : sum64 (reserved_gas <$> b_transactions block) ≤ BLOCK_GAS_LIMIT;
  acc_apply : apply_and_execute vm_wasm s block view = Ok s';
  acc_gas_used : sum64 (rc_gas_used <$> receipts s') ≤ BLOCK_GAS_LIMIT;
  acc_state_root : committed (b_index block = 0 ∨ vw_allow_zero_state_root view = true)
                     (b_state_root block) (compute_state_root (balances s'));
  acc_receipts_root : committed (b_index block = 0) (b_receipts_root block) (receipts_root (receipts s'))
}.

(** ** Each check decides its rule *)

(** A check that succeeds with [tt] exactly under [P]. *)
Abbreviation decides r P := (r = Ok tt ↔ P).

Lemma bind_unit_ok {E A} (r : result E unit) (P : Prop) (k : unit → result E A) a :
  decides r P → ((r ≫= k) = Ok a ↔ P ∧ k tt = Ok a).
Proof.
  destruct r as [[]| |]; cbn; intros H.
  - split; [|by intros [_ ?]]. intros. split; [by apply H|done].
  - split; [done|]. intros [HP _]. by apply H in HP.
  - split; [done|]. intros [HP _]. by apply H in HP.
Qed.

Lemma lift_decides (r : result CoreError unit) : decides (Node.lift r) (r = Ok tt).
Proof. apply Node.lift_ok. Qed.

Lemma check_sizes_ok block :
  decides (check_sizes block)
    ((∃ bytes, serialize_block (E:=Node.StrangecoinError) block = Ok bytes
        ∧ Z.of_nat (length bytes) ≤ MAX_BLOCK_SIZE)
     ∧ Forall (λ tx, signed_len tx ≤ MAX_TX_SIZE) (b_transactions block)).
Proof.
  unfold check_sizes. destruct (serialize_block block) as [bytes| |]; cbn [mbind result_bind].
  2,3: split; [done|]; intros [(? & ? & _) _]; done.
  destruct (Z.ltb_spec MAX_BLOCK_SIZE (Z.of_nat (length bytes))) as [Hlt|Hle].
  { split; [done|]. intros [(b & [= <-] & ?) _]. lia. }
  destruct (bool_decide_reflect (Exists (λ tx, MAX_TX_SIZE < signed_len tx) (b_transactions block))) as [Hex|Hex].
  - split; [done|]. intros [_ Hall]. exfalso. apply Exists_exists in Hex as (tx & Hin & Hlt).
    rewrite Forall_forall in Hall. specialize (Hall tx Hin). lia.
  - split; [|done]. intros _. split; [by exists bytes|]. apply Forall_forall. intros tx Hin.
    apply Z.nlt_ge. intros Hlt. apply Hex, Exists_exists. by exists tx.
Qed.

Lemma validate_position_ok block chain : decides (validate_position block chain) (follows block chain).
Proof.
  unfold validate_position, follows. destruct (b_index block =? 0).
  - destruct chain as [|b l]; [|by split; [|intros [? _]]]. case_decide; split; try done.
    by intros [_ ?].
  - destruct (last chain) as [p|] eqn:E; [|split; [done|by intros (? & ? & _)]].
    destruct (Z.eqb_spec (b_index block) (Z.of_nat (length chain))); cbn [negb].
    + case_decide; split; try done; [by eauto|]. by intros (? & [= <-] & _ & ?).
    + split; [done|]. by intros (? & _ & ? & _).
Qed.

Lemma hash_ok (block : Block) (k : result Node.StrangecoinError State) s' :
  (computed_hash ← hex_encode <$> block_hash block;
   if negb (bool_decide (b_hash block = computed_hash))
   then invalid block ("header hash mismatch: stored " +:+ b_hash block +:+ ", computed " +:+ computed_hash)
   else k) = Ok s'
  ↔ hex_encode <$> block_hash (E:=Node.StrangecoinError) block = Ok (b_hash block) ∧ k = Ok s'.
Proof.
  destruct (block_hash block) as [h| |]; cbn; [|by split; [|intros [? _]]..].
  destruct (bool_decide_reflect (b_hash block = hex_encode h)) as [->|Hne]; cbn [negb].
  - split; [done|by intros [_ ?]].
  - split; [done|]. intros [[= Hh] _]. congruence.
Qed.

Lemma tx_root_ok block :
  decides (validate_tx_root block)
    (compute_tx_root (E:=CoreError) (b_transactions block) = Ok (b_tx_root block)).
Proof.
  unfold validate_tx_root. destruct (compute_tx_root _) as [r| |]; cbn; [|done..].
  case_decide as Hr; split; try done; [by rewrite Hr|]. intros [= ?]. congruence.
Qed.

Lemma validate_target_ok block chain :
  decides (validate_target block chain) (scheduled_target (b_index block) chain (b_target block)).
Proof.
  unfold validate_target, scheduled_target. destruct (_ mod _ =? 0).
  - destruct (compute_target chain) as [t| |]; cbn; [|by split; [|intros (? & ? & _)]..].
    case_decide as Ht; split; try done; [by eauto|]. by intros (? & [= <-] & ?).
  - destruct (last chain) as [p|]; cbn; [|done].
    case_decide as Ht; split; try done; [by rewrite Ht|]. intros [= ?]. congruence.
Qed.

Lemma pow_ok block chain :
  decides (if 0 <? b_index block
           then (_ ← Node.lift (validate_difficulty block); validate_target block chain) else Ok tt)
    ((0 < b_index block → validate_difficulty block = Ok tt)
     ∧ (0 < b_index block → scheduled_target (b_index block) chain (b_target block))).
Proof.
  destruct (Z.ltb_spec 0 (b_index block)) as [H|H].
  - rewrite (bind_unit_ok _ _ _ _ (lift_decides _)), (validate_target_ok block chain). tauto.
  - split; [|done]. intros _. split; lia.
Qed.

Lemma check_txs_ok chain_id txs :
  decides (foldM (check_tx chain_id) tt txs) (Forall (tx_valid chain_id) txs).
Proof.
  induction txs as [|tx txs IH]; cbn [foldM]; [done|].
  rewrite Forall_cons, (bind_unit_ok _ (tx_valid chain_id tx)), IH; [done|].
  unfold check_tx, tx_valid. destruct (Z.eqb_spec (tx_chain_id tx) chain_id); cbn [negb].
  - rewrite (lift_decides _). tauto.
  - by split; [|intros [? _]].
Qed.

Lemma sigs_ok view block :
  decides (if vw_allow_grant_blocks view && (b_index block =? GRANT_BLOCK_INDEX) then Ok tt
           else foldM (check_tx (vw_chain_id view)) tt (b_transactions block))
    (vw_allow_grant_blocks view = false ∨ b_index block ≠ GRANT_BLOCK_INDEX →
       Forall (tx_valid (vw_chain_id view)) (b_transactions block)).
Proof.
  pose proof (check_txs_ok (vw_chain_id view) (b_transactions block)) as Hc.
  destruct (vw_allow_grant_blocks view); cbn [andb].
  - destruct (Z.eqb_spec (b_index block) GRANT_BLOCK_INDEX).
    + split; [|done]. by intros _ [?|?].
    + rewrite Hc. tauto.
  - rewrite Hc. tauto.
Qed.

Lemma gas_ok txs :
  decides (enforce_block_gas_limit txs) (sum64 (reserved_gas <$> txs) ≤ BLOCK_GAS_LIMIT).
Proof. unfold enforce_block_gas_limit. destruct (Z.ltb_spec BLOCK_GAS_LIMIT (sum64 (reserved_gas <$> txs))); split; (done || lia). Qed.

Lemma gas_used_ok rs :
  decides (enforce_receipt_gas_limit rs) (sum64 (rc_gas_used <$> rs) ≤ BLOCK_GAS_LIMIT).
Proof. unfold enforce_receipt_gas_limit. destruct (Z.ltb_spec BLOCK_GAS_LIMIT (sum64 (rc_gas_used <$> rs))); split; (done || lia). Qed.

Lemma state_commitment_ok block view s' :
  decides (check_state_commitment block view s')
    (committed (b_index block = 0 ∨ vw_allow_zero_state_root view = true)
       (b_state_root block) (compute_state_root (balances s'))).
Proof.
  unfold check_state_commitment, committed. case_decide.
  - destruct (Z.eqb_spec (b_index block) 0), (vw_allow_zero_state_root view); cbn [orb]; (split; [try done; auto|try done]).
    by intros [?|?].
  - case_decide; done.
Qed.

Lemma receipts_commitment_ok block s' :
  decides (check_receipts_commitment block s')
    (committed (b_index block = 0) (b_receipts_root block) (receipts_root (receipts s'))).
Proof.
  unfold check_receipts_commitment, committed. case_decide.
  - by destruct (Z.eqb_spec (b_index block) 0).
  - case_decide; done.
Qed.

(** The commitments and the gas used, checked on the new state. *)
Lemma post_checks_ok s block view s' :
  (new_state ← apply_and_execute vm_wasm s block view;
   _ ← enforce_receipt_gas_limit (receipts new_state);
   _ ← check_state_commitment block view new_state;
   _ ← check_receipts_commitment block new_state;
   Ok new_state) = Ok s'
  ↔ apply_and_execute vm_wasm s block view = Ok s'
    ∧ sum64 (rc_gas_used <$> receipts s') ≤ BLOCK_GAS_LIMIT
    ∧ committed (b_index block = 0 ∨ vw_allow_zero_state_root view = true)
        (b_state_root block) (compute_state_root (balances s'))
    ∧ committed (b_index block = 0) (b_receipts_root block) (receipts_root (receipts s')).
Proof.
  destruct (apply_and_execute vm_wasm s block view) as [t| |]; cbn [mbind result_bind];
    [|by split; [|intros [? _]]..].
  setoid_rewrite (bind_unit_ok _ _ _ _ (gas_used_ok (receipts t))).
  setoid_rewrite (bind_unit_ok _ _ _ _ (state_commitment_ok block view t)).
  setoid_rewrite (bind_unit_ok _ _ _ _ (receipts_commitment_ok block t)).
  split; [intros (? & ? & ? & [= <-]); done|]. intros ([= ->] & ? & ? & ?). done.
Qed.

Lemma validate_and_apply_ok s block view s' :
  validate_and_apply vm_wasm s block view = Ok s' ↔ accepted s block view s'.
Proof.
  unfold validate_and_apply.
  rewrite (bind_unit_ok _ _ _ _ (check_sizes_ok block)).
  rewrite (bind_unit_ok _ _ _ _ (validate_position_ok block (vw_chain view))).
  rewrite hash_ok.
  destruct (vw_phase view) eqn:Hphase.
  2: { rewrite decide_True by done. split; [by intros (_ & _ & _ & ?)|]. intros []. congruence. }
  rewrite decide_False by done.
  destruct (Z.eqb_spec (b_consensus_version block) (vw_expected_consensus_version view)) as [Hv|Hv].
  2: { split; [by intros (_ & _ & _ & ?)|]. by intros []. }
  cbn [negb].
  rewrite (bind_unit_ok _ (compute_tx_root (E:=CoreError) (b_transactions block) = Ok (b_tx_root block)))
    by (rewrite Node.lift_ok; apply tx_root_ok).
  rewrite (bind_unit_ok _ _ _ _ (lift_decides _)).
  rewrite (bind_unit_ok _ _ _ _ (pow_ok block (vw_chain view))).
  rewrite (bind_unit_ok _ _ _ _ (sigs_ok view block)).
  rewrite (bind_unit_ok _ _ _ _ (gas_ok (b_transactions block))).
  rewrite post_checks_ok.
  split.
  - intros ([? ?] & ? & ? & ? & ? & [? ?] & ? & ? & ? & ? & ? & ?). by constructor.
  - intros []. tauto.
Qed.

(** ** What acceptance depends on *)

(** The same view read at another time. *)
Definition at_time (view : BlockView) (now : Z) : BlockView := {|
  vw_chain := vw_chain view; vw_now := now; vw_allow_grant_blocks := vw_allow_grant_blocks view;
  vw_allow_zero_state_root := vw_allow_zero_state_root view;
  vw_expected_consensus_version := vw_expected_consensus_version view; vw_phase := vw_phase view;
  vw_chain_id := vw_chain_id view; vw_codes := vw_codes view |}.

(** A clock reading the future bound does not overflow. *)
Definition clock_ok (now : Z) : Prop := 0 ≤ now ∧ now + MAX_FUTURE_TIME < two64.
#[export] Instance clock_ok_dec now : Decision (clock_ok now).
Proof. unfold clock_ok. apply _. Defined.

Lemma validate_timestamp_later block chain now now' :
  now ≤ now' → clock_ok now → clock_ok now' →
  validate_timestamp block chain now = Ok tt → validate_timestamp block chain now' = Ok tt.
Proof.
  intros Hle [? ?] [? ?]. unfold validate_timestamp. destruct (b_index block =? 0); [done|].
  destruct (median_time_past chain (b_index block)) as [m| |]; cbn [mbind result_bind]; [|done..].
  destruct (Z.leb_spec (b_timestamp block) m); [done|].
  unfold add64. rewrite !wrap64_small by (unfold in_u64, MAX_FUTURE_TIME in *; lia).
  destruct (Z.ltb_spec (now + MAX_FUTURE_TIME) (b_timestamp block)); [done|].
  destruct (Z.ltb_spec (now' + MAX_FUTURE_TIME) (b_timestamp block)); [lia|done].
Qed.

(** A block accepted once stays acceptable. *)
Lemma accepted_later s block view s' now :
  vw_now view ≤ now → clock_ok (vw_now view) → clock_ok now →
  accepted s block view s' → accepted s block (at_time view now) s'.
Proof.
  intros Hle H H' []. constructor; try done. by apply (validate_timestamp_later _ _ (vw_now view)).
Qed.

Lemma apply_and_execute_equiv s t block view :
  s ≡ t → result_rel (λ x y, x ≡ y ∧ receipts x = receipts y)
            (apply_and_execute vm_wasm s block view) (apply_and_execute vm_wasm t block view).
Proof.
  intros H. unfold apply_and_execute. destruct vm_wasm.
  - pose proof (apply_block_equiv s t block (vw_chain_id view)
      (Some (seed_executor (vw_codes view))) H) as Hr.
    unfold apply_block_with_vm. destruct (apply_block_inner s _ _ _) as [[? ?]| |],
      (apply_block_inner t _ _ _) as [[? ?]| |]; cbn in Hr |- *; try done; [|congruence].
    by destruct Hr as (? & ? & _).
  - pose proof (apply_block_equiv (V:=NoVm) s t block (vw_chain_id view) None H) as Hr.
    unfold apply_block. destruct (apply_block_inner s _ _ _) as [[? ?]| |],
      (apply_block_inner t _ _ _) as [[? ?]| |]; cbn in Hr |- *; try done; [|congruence].
    by destruct Hr as (? & ? & _).
Qed.

(** Acceptance reads only the accounts and the storage of the parent state. *)
Lemma accepted_equiv s t block view s' :
  s ≡ t → accepted s block view s' →
  ∃ t', accepted t block view t' ∧ s' ≡ t' ∧ receipts s' = receipts t'.
Proof.
  intros H []. destruct (result_rel_ok _ _ _ _ (apply_and_execute_equiv s t block view H) acc_apply0)
    as (t' & E & Ht & Hr). exists t'. split; [|done].
  constructor; try done; [by rewrite <- Hr| |by rewrite <- Hr]. destruct Ht as [Hb _]. by rewrite <- Hb.
Qed.

End ExecutorProps.
