(* ===== verification/Rules.v ===== *)
(** * The rules of a block

    Block validation against the rules the documentation gives, written without the
    checks of the code: positions, medians, numbers, signatures, and the state
    transition as a relation.  [rules strict] is the rule set with ([strict = true]) or
    without the nonce rule of invariant 11, which the code leaves to the mempool. *)

From S2P Require Import Prelude Bytes U256 Abi Types Address Concrete Serialize SerializeProps Consensus ConsensusProps Emission SparseMerkle State StateViews StateEquiv StateProps BlockProps Node Mempool Net Executor ExecutorProps.
Open Scope Z_scope.

(** ** The transition as a relation *)

Section Transition.
Context `{HX : Hex, B3 : Blake3, B32 : Bech32}.
Context `{VM : VmExecutor V}.
Context (strict : bool) (block : Block) (chain_id : Z).

(** The nonce rule: a transaction carries the nonce of its account plus one. *)
Definition in_turn (s : State) (from : string) (n : Z) : Prop := strict = true → n = get_nonce s from + 1.

(** One transaction.  A transfer moves its amount between balances that stay within
    [u64] and raises the nonce of its sender; contracts run through the executor. *)
Inductive tx_step : Work (V:=V) → Z * Transaction → Work (V:=V) → Prop :=
  | ts_coinbase w i tx : is_coinbase tx = true → tx_step w (i, tx) w
  | ts_transfer s vm rs i t s1 s2 :
      tr_is_coinbase t = false → in_turn s (tr_from t) (tr_nonce t) →
      tr_amount t ≤ get_balance s (tr_from t) →
      s1 = set_balance s (tr_from t) (get_balance s (tr_from t) - tr_amount t) →
      get_balance s1 (tr_to t) + tr_amount t < two64 →
      s2 = set_balance s1 (tr_to t) (get_balance s1 (tr_to t) + tr_amount t) →
      tx_step (s, vm, rs) (i, Transfer t)
        (set_nonce s2 (tr_from t) (wrap64 (get_nonce s2 (tr_from t) + 1)), vm,
         rs ++ [transfer_receipt (Transfer t) block i
                  [{| vt_from := tr_from t; vt_to := tr_to t; vt_amount := tr_amount t |}]])
  | ts_create s vm rs i c s' vm' r :
      in_turn s (cr_from c) (cr_nonce c) → apply_create s c chain_id vm block i = Ok (s', vm', r) →
      tx_step (s, Some vm, rs) (i, Create c) (s', Some vm', rs ++ [r])
  | ts_call s vm rs i c s' r :
      in_turn s (ca_from c) (ca_nonce c) → apply_call s block c vm i = Ok (s', r) →
      tx_step (s, Some vm, rs) (i, Call c) (s', Some vm, rs ++ [r]).

Inductive tx_steps : Work (V:=V) → list (Z * Transaction) → Work (V:=V) → Prop :=
  | tss_nil w : tx_steps w [] w
  | tss_cons w itx w1 itxs w' : tx_step w itx w1 → tx_steps w1 itxs w' → tx_steps w (itx :: itxs) w'.

(** The allocations of a genesis block. *)
Inductive allocations : Work (V:=V) → list (Z * Transaction) → Work (V:=V) → Prop :=
  | al_nil w : allocations w [] w
  | al_cons s vm rs i t itxs w' :
      tr_chain_id t = chain_id → get_balance s (tr_to t) + tr_amount t < two64 →
      allocations (set_balance s (tr_to t) (get_balance s (tr_to t) + tr_amount t), vm,
                   rs ++ [transfer_receipt (Transfer t) block i []]) itxs w' →
      allocations (s, vm, rs) ((i, Transfer t) :: itxs) w'.

(** A whole block: allocations at genesis; otherwise transactions of this network and a
    first coinbase within the reward, which is credited before the others run. *)
Definition transition (s : State) (vm : option V) (s' : State) : Prop :=
  ∃ s1 vm1 rs, s' = with_receipts s1 rs ∧
  if b_index block =? 0 then allocations (with_receipts s [], vm, []) (enumerate (b_transactions block)) (s1, vm1, rs)
  else
    Forall (λ tx, tx_chain_id tx = chain_id) (b_transactions block) ∧
    ∃ k cb, list_find (λ tx, is_coinbase tx = true) (b_transactions block) = Some (k, Transfer cb)
      ∧ tr_amount cb ≤ reward_of s block chain_id
      ∧ get_balance s (tr_to cb) + tr_amount cb < two64
      ∧ tx_steps (set_balance (with_receipts s []) (tr_to cb) (get_balance s (tr_to cb) + tr_amount cb), vm,
                  [transfer_receipt (Transfer cb) block (Z.of_nat k mod two32) []])
          (enumerate (b_transactions block)) (s1, vm1, rs).
End Transition.

(** Without the nonce rule the relation is what [apply_block_inner] computes. *)
Section Computed.
Context `{HX : Hex, B3 : Blake3, B32 : Bech32}.
Context `{VM : VmExecutor V}.
Context (block : Block) (chain_id : Z).

Lemma credit_receiver_iff s t s' :
  credit_receiver s t = Ok s' ↔ get_balance s (tr_to t) + tr_amount t < two64
    ∧ s' = set_balance s (tr_to t) (get_balance s (tr_to t) + tr_amount t).
Proof.
  unfold credit_receiver. destruct (checked_add64 _ _) as [b|] eqn:E; cbn.
  - apply checked_add64_Some in E as [-> ?]. split; [by intros [= <-]|]. by intros [_ ->].
  - split; [done|]. intros [H _]. by rewrite (proj2 (checked_add64_Some _ _ _) (conj eq_refl H)) in E.
Qed.

Lemma deduct_sender_iff s t s' :
  deduct_sender s t = Ok s' ↔ tr_amount t ≤ get_balance s (tr_from t)
    ∧ s' = set_balance s (tr_from t) (get_balance s (tr_from t) - tr_amount t).
Proof.
  unfold deduct_sender. destruct (Z.ltb_spec (get_balance s (tr_from t)) (tr_amount t)) as [|H]; [split; [done|lia]|].
  rewrite (proj2 (checked_sub64_Some _ _ _) (conj eq_refl H)). cbn. split; [by intros [= <-]|]. by intros [_ ->].
Qed.

Lemma tx_step_iff itx (w w' : Work (V:=V)) : apply_tx block chain_id w itx = Ok w' ↔ tx_step false block chain_id w itx w'.
Proof.
  destruct w as [[s vm] rs], itx as [i tx]. unfold apply_tx. destruct (is_coinbase tx) eqn:Hcb.
  { split; [intros [= <-]; by constructor|]. intros H. inversion H; subst; try done. cbn in Hcb. congruence. }
  split.
  - destruct tx as [t|c|c].
    + intros H. apply bind_ok_inv in H as (s1 & H1 & H). apply bind_ok_inv in H as (s2 & H2 & [= <-]).
      apply deduct_sender_iff in H1 as [? E1]. apply credit_receiver_iff in H2 as [? E2].
      by eapply (ts_transfer _ _ _ s vm rs i t s1 s2).
    + destruct vm as [vm|]; [|done]. intros H. apply bind_ok_inv in H as ([[s1 vm1] r] & H & [= <-]). by constructor.
    + destruct vm as [vm|]; [|done]. intros H. apply bind_ok_inv in H as ([s1 r] & H & [= <-]). by constructor.
  - intros H. inversion H as [|s0 vm0 rs0 i0 t s1 s2 _ _ Hle E1 Hlt E2|s0 vm0 rs0 i0 c s1 vm1 r _ Hc|s0 vm0 rs0 i0 c s1 r _ Hc];
      subst; [congruence|..]; cbn [is_coinbase].
    + rewrite (proj2 (deduct_sender_iff s t _) (conj Hle eq_refl)). cbn [mbind result_bind].
      by rewrite (proj2 (credit_receiver_iff _ t _) (conj Hlt eq_refl)).
    + by rewrite Hc.
    + by rewrite Hc.
Qed.

Lemma tx_steps_iff itxs (w w' : Work (V:=V)) :
  foldM (apply_tx block chain_id) w itxs = Ok w' ↔ tx_steps false block chain_id w itxs w'.
Proof.
  revert w. induction itxs as [|itx itxs IH]; intros w; cbn [foldM].
  { split; [intros [= <-]; constructor|]. by inversion 1. }
  split.
  - intros H. apply bind_ok_inv in H as (w1 & H1 & H). apply tx_step_iff in H1. econstructor; [done|by apply IH].
  - inversion 1 as [|? ? w1 ? ? H1 H2]; subst. apply tx_step_iff in H1. rewrite H1. by apply IH.
Qed.

Lemma allocations_iff itxs (w w' : Work (V:=V)) :
  foldM (apply_genesis_tx block chain_id) w itxs = Ok w' ↔ allocations block chain_id w itxs w'.
Proof.
  revert w. induction itxs as [|[i tx] itxs IH]; intros [[s vm] rs]; cbn [foldM].
  { split; [intros [= <-]; constructor|]. by inversion 1. }
  unfold apply_genesis_tx at 2, validate_tx_chain_id. split.
  - destruct (Z.eqb_spec (tx_chain_id tx) chain_id) as [Hid|]; [|done]. intros H.
    apply bind_ok_inv in H as (w1 & H1 & H). apply bind_ok_inv in H1 as ([] & _ & H1).
    destruct tx as [t|c|c]; [|done..]. apply bind_ok_inv in H1 as (s1 & H1 & E). apply ok_inj in E as <-. apply credit_receiver_iff in H1 as [? ->].
    constructor; [done|done|by apply IH].
  - inversion 1 as [|s0 vm0 rs0 i0 t itxs0 w0 Hid Hlt H1]; subst. cbn [tx_chain_id].
    rewrite (proj2 (Z.eqb_eq _ _) eq_refl). cbn [mbind result_bind].
    rewrite (proj2 (credit_receiver_iff s t _) (conj Hlt eq_refl)). cbn [mbind result_bind]. by apply IH.
Qed.

Lemma transition_iff s (vm : option V) s' :
  (∃ vm', apply_block_inner s block chain_id vm = Ok (s', vm')) ↔ transition false block chain_id s vm s'.
Proof.
  unfold apply_block_inner, transition. destruct (b_index block =? 0).
  - split.
    + intros [vm' H]. apply bind_ok_inv in H as ([[s1 vm1] rs] & H & [= <- _]). apply allocations_iff in H. by eauto 6.
    + intros (s1 & vm1 & rs & -> & H%allocations_iff). unfold apply_genesis. rewrite H. by eexists.
  - split.
    + intros [vm' H]. apply bind_ok_inv in H as ([[s1 vm1] rs] & H & [= <- _]).
      apply apply_non_genesis_inv in H as (Hid & k & cb & s0 & Hf & Hle & Hc & H%tx_steps_iff).
      change (credit (with_receipts s []) (tr_to cb) (tr_amount cb)) with (credit_receiver (with_receipts s []) cb) in Hc.
      apply credit_receiver_iff in Hc as [Hlt ->]. exists s1, vm1, rs. split; [done|]. split; [done|]. by exists k, cb.
    + intros (s1 & vm1 & rs & -> & Hid & k & cb & Hf & Hle & Hlt & H%tx_steps_iff).
      unfold apply_non_genesis. rewrite (proj2 (chain_ids_ok _ _) Hid). cbn [mbind result_bind]. rewrite Hf.
      cbn [ok_or mbind result_bind]. change (block_reward_at_height_for_chain _ _ _) with (reward_of s block chain_id).
      rewrite (proj2 (Z.ltb_ge _ _) Hle).
      rewrite (proj2 (credit_receiver_iff (with_receipts s []) cb _) (conj Hlt eq_refl)). cbn [mbind result_bind app].
      change (get_balance (with_receipts s []) (tr_to cb)) with (get_balance s (tr_to cb)). rewrite H. by eexists.
Qed.

Lemma transition_lax s (vm : option V) s' : transition true block chain_id s vm s' → transition false block chain_id s vm s'.
Proof.
  assert (∀ w itx w', tx_step true block chain_id w itx w' → tx_step (V:=V) false block chain_id w itx w') as H1
    by (intros w itx w' []; econstructor; eauto; done).
  assert (∀ w itxs w', tx_steps true block chain_id w itxs w' → tx_steps (V:=V) false block chain_id w itxs w') as H2
    by (induction 1; econstructor; eauto).
  intros (s1 & vm1 & rs & -> & H). exists s1, vm1, rs. split; [done|]. destruct (b_index block =? 0); [done|].
  destruct H as (? & k & cb & ? & ? & ? & ?). split; [done|]. exists k, cb. eauto.
Qed.
(** A block of coinbases has no nonce to check. *)
Lemma transition_coinbases s (vm : option V) s' :
  Forall (λ tx, is_coinbase tx = true) (b_transactions block) →
  transition false block chain_id s vm s' → transition true block chain_id s vm s'.
Proof.
  intros Hcb%Forall_enumerate (s1 & vm1 & rs & -> & H). exists s1, vm1, rs. split; [done|].
  destruct (b_index block =? 0); [done|].
  destruct H as (? & k & cb & ? & ? & ? & H). split; [done|]. exists k, cb. split_and!; [done..|].
  induction H as [|w [i tx] w1 itxs w' Hs _ IH]; [constructor|].
  apply Forall_cons in Hcb as [Hi Hcb]. cbn in Hi. econstructor; [|by apply IH].
  inversion Hs; subst; try done; [by constructor|]. cbn in Hi. congruence.
Qed.
End Computed.

(** ** The rules *)

Section Rules.
Context `{HX : Hex, HXok : !HexOk, B3 : Blake3, B3ok : !Blake3Ok, B32 : Bech32, SK : Secp256k1}.
Context `{VR : VmRuntime V} (vm_wasm : bool).

(** Above the median of the last timestamps, at most two hours after the clock. *)
Definition time_rule (block : Block) (chain : list Block) (now : Z) : Prop :=
  ∃ m, is_median (mtp_window chain (b_index block)) m ∧ m < b_timestamp block ≤ now + MAX_FUTURE_TIME.

(** The header hash, as a number, does not exceed the declared target. *)
Definition work_rule (block : Block) : Prop :=
  ∃ hash, block_hash (E:=CoreError) block = Ok hash ∧ valid_target (b_target block)
    ∧ from_be_bytes hash ≤ target_val (b_target block).

(** The target of the parent, or at every 2016th height that target scaled by the time
    the window took, within a factor of four. *)
Definition target_rule (block : Block) (chain : list Block) : Prop :=
  if b_index block mod RETARGET_INTERVAL =? 0 then
    ∃ first parent out, retarget_window chain first parent ∧ valid_target (b_target parent) ∧ is32 out
      ∧ from_be_bytes out = retarget_ref (target_val (b_target parent)) (elapsed first parent)
      ∧ b_target block = hex_encode out
  else ∃ parent, last chain = Some parent ∧ b_target block = b_target parent.

Definition limits_rule (tx : Transaction) : Prop :=
  match tx with
  | Create c => cr_init_code c ≠ [] ∧ Z.of_nat (length (cr_init_code c)) ≤ MAX_CODE_SIZE
                ∧ cr_gas_limit c ≤ BLOCK_GAS_LIMIT
  | Call c => ca_gas_limit c ≠ 0
  | Transfer _ => True
  end.

(** A transaction of this network: a coinbase, or one within the limits of its kind that
    the key of its sender signed. *)
Definition tx_rule (chain_id : Z) (tx : Transaction) : Prop :=
  tx_chain_id tx = chain_id ∧
  (is_coinbase tx = true ∨
   is_coinbase tx = false ∧ limits_rule tx ∧ length (signature tx) = 65%nat ∧
   ∃ recid pk net, signature tx !! 64%nat = Some recid
     ∧ recover_ecdsa (take 64 (signature tx)) (byte_val recid) (blake3 (serialize_transaction tx)) = Some pk
     ∧ decode_address (sender tx) = Ok (pk, net)).

Definition transition_rule (strict : bool) (s : State) (block : Block) (view : BlockView) (s' : State) : Prop :=
  if vm_wasm
  then transition strict block (vw_chain_id view) s (Some (seed_executor (V:=V) (vw_codes view))) s'
  else transition (V:=NoVm) strict block (vw_chain_id view) s None s'.

(** What a block must satisfy to extend [vw_chain view] from [s] to [s']. *)
Record rules (strict : bool) (s : State) (block : Block) (view : BlockView) (s' : State) : Prop := {
  ru_size : ∃ bytes, serialize_block (E:=Node.StrangecoinError) block = Ok bytes
              ∧ Z.of_nat (length bytes) ≤ MAX_BLOCK_SIZE;
  ru_tx_sizes : Forall (λ tx, signed_len tx ≤ MAX_TX_SIZE) (b_transactions block);
  ru_position : follows block (vw_chain view);
  ru_hash : hex_encode <$> block_hash (E:=Node.StrangecoinError) block = Ok (b_hash block);
  ru_phase : vw_phase view = Pow;
  ru_version : b_consensus_version block = vw_expected_consensus_version view;
  ru_tx_root : compute_tx_root (E:=CoreError) (b_transactions block) = Ok (b_tx_root block);
  ru_time : 0 < b_index block → time_rule block (vw_chain view) (vw_now view);
  ru_work : 0 < b_index block → work_rule block;
  ru_target : 0 < b_index block → target_rule block (vw_chain view);
  ru_txs : vw_allow_grant_blocks view = false ∨ b_index block ≠ GRANT_BLOCK_INDEX →
           Forall (tx_rule (vw_chain_id view)) (b_transactions block);
  ru_gas : sumZ (reserved_gas <$> b_transactions block) ≤ BLOCK_GAS_LIMIT;
  ru_transition : transition_rule strict s block view s';
  ru_gas_used : sumZ (rc_gas_used <$> receipts s') ≤ BLOCK_GAS_LIMIT;
  ru_state_root : committed (b_index block = 0 ∨ vw_allow_zero_state_root view = true)
                    (b_state_root block) (compute_state_root (balances s'));
  ru_receipts_root : committed (b_index block = 0) (b_receipts_root block) (receipts_root (receipts s'))
}.

(** The machine arithmetic of the checks is exact: clock and timestamps within [u64],
    gas that adds up below [2^64], a parent target of at most [2^233] where the target
    is recomputed. *)
Record regular (s : State) (block : Block) (view : BlockView) : Prop := {
  rg_clock : clock_ok (vw_now view);
  rg_times : Forall (λ b, in_u64 (b_timestamp b)) (vw_chain view);
  rg_gas : in_u64 (sumZ (reserved_gas <$> b_transactions block));
  rg_gas_used s' : transition_rule false s block view s' → in_u64 (sumZ (rc_gas_used <$> receipts s'));
  rg_target parent : b_index block mod RETARGET_INTERVAL = 0 → last (vw_chain view) = Some parent →
    target_val (b_target parent) ≤ 2 ^ 233
}.

(** ** Each check of the code against its rule *)

Lemma follows_length block chain : follows block chain → b_index block = Z.of_nat (length chain).
Proof. unfold follows. destruct (Z.eqb_spec (b_index block) 0); [by intros [-> _]|]. by intros (? & _ & ? & _). Qed.

Lemma median_unique l m m' : is_median l m → is_median l m' → m = m'.
Proof.
  intros (lo & hi & Hp & Hl & H1 & H2) (lo' & hi' & Hp' & Hl' & H1' & H2').
  assert (∀ lo hi lo' hi' m m', l ≡ₚ lo ++ m :: hi → l ≡ₚ lo' ++ m' :: hi' → length lo = length lo' →
    Forall (λ z, z ≤ m) lo → Forall (λ z, m' ≤ z) hi' → m' ≤ m) as Hle; [|by apply Z.le_antisymm; eapply Hle; eauto; lia].
  clear. intros lo hi lo' hi' m m' Hp Hp' Hlen H1 H2.
  destruct (Z.le_gt_cases m' m) as [|Hgt]; [done|]. exfalso.
  assert (length (filter (λ z, z < m') l) = length (filter (λ z, z < m') l)) as E by done.
  rewrite Hp in E at 1. rewrite Hp' in E.
  rewrite !filter_app, !length_app, filter_cons_True, filter_cons_False in E by lia.
  assert (filter (λ z, z < m') lo = lo) as Elo.
  { clear -H1 Hgt. induction H1 as [|z lo Hz _ IH]; [done|]. rewrite filter_cons_True by lia. by rewrite IH. }
  assert (filter (λ z, z < m') hi' = []) as Ehi.
  { clear -H2. induction H2 as [|z hi Hz _ IH]; [done|]. by rewrite filter_cons_False by lia. }
  pose proof (length_filter (λ z, z < m') lo') as Hf. rewrite Elo, Ehi in E. cbn [length] in E. lia.
Qed.

Lemma time_iff block chain now :
  clock_ok now → b_index block = Z.of_nat (length chain) →
  validate_timestamp block chain now = Ok tt ↔ (0 < b_index block → time_rule block chain now).
Proof.
  intros [Hn Hf] Hi. destruct (Z.eq_dec (b_index block) 0) as [H0|H0].
  { unfold validate_timestamp. rewrite H0. cbn. split; [intros _; lia|done]. }
  assert (0 < b_index block) as Hp by lia.
  destruct (validate_timestamp_correct block chain now Hp Hi Hn Hf) as (m & Hm & Hiff & _). rewrite Hiff. split.
  - intros H _. by exists m.
  - intros H. destruct (H Hp) as (m' & Hm' & ?). by rewrite (median_unique _ _ _ Hm Hm').
Qed.

Lemma window_exists chain parent :
  RETARGET_INTERVAL ≤ Z.of_nat (length chain) → last chain = Some parent → ∃ first, retarget_window chain first parent.
Proof.
  intros Hl Hp. unfold retarget_window, RETARGET_INTERVAL in *. apply last_Some in Hp as [front ->].
  rewrite length_app in Hl. cbn [length] in Hl. set (k := (length front - 2015)%nat).
  destruct (front !! k) as [first|] eqn:Ek; [|apply lookup_ge_None in Ek; lia].
  exists first, (take k front), (drop (S k) front). split.
  - rewrite app_comm_cons, app_assoc. f_equal. symmetry. by apply take_drop_middle.
  - rewrite length_drop. lia.
Qed.

Lemma target_iff s block view :
  regular s block view → follows block (vw_chain view) → 0 < b_index block →
  scheduled_target (b_index block) (vw_chain view) (b_target block) ↔ target_rule block (vw_chain view).
Proof.
  intros [_ Ht _ _ Htg] Hf Hp. pose proof (follows_length _ _ Hf) as Hi.
  unfold scheduled_target, target_rule. destruct (Z.eqb_spec (b_index block mod RETARGET_INTERVAL) 0) as [Hm|Hm].
  2:{ destruct (last (vw_chain view)); cbn; split; [intros [= ?]; eauto|intros (? & [= <-] & ->); done|done|by intros (? & ? & _)]. }
  destruct (last (vw_chain view)) as [parent|] eqn:El.
  2:{ apply last_None in El. rewrite El in Hi. cbn in Hi. lia. }
  assert (RETARGET_INTERVAL ≤ Z.of_nat (length (vw_chain view))) as Hlen.
  { rewrite <- Hi. apply Z.div_exact in Hm; [|done]. unfold RETARGET_INTERVAL in *. lia. }
  assert (∀ first, retarget_window (vw_chain view) first parent → valid_target (b_target parent) →
    ∃ out, compute_target (E:=Node.StrangecoinError) (vw_chain view) = Ok out ∧ is32 out
      ∧ from_be_bytes out = retarget_ref (target_val (b_target parent)) (elapsed first parent)) as Hc.
  { intros first Hw Hv. pose proof Hw as (older & mid & E & _). rewrite E in Ht.
    apply Forall_app in Ht as [_ Ht]. apply Forall_cons in Ht as [Hff Ht]. apply Forall_app in Ht as [_ Ht%Forall_inv].
    destruct (compute_target_correct (E:=Node.StrangecoinError) _ _ _ Hw Hff Ht Hv) as (out & Eo & H32 & _ & Hr).
    exists out. split_and!; [done..|]. apply Hr. by apply (Htg parent). }
  split.
  - intros (t & Ec & Et). destruct (window_exists _ _ Hlen El) as [first Hw].
    assert (valid_target (b_target parent)) as Hv.
    { destruct Hw as (older & mid & E & Hmid). unfold compute_target in Ec.
      destruct (Z.ltb_spec (Z.of_nat (length (vw_chain view))) RETARGET_INTERVAL); [lia|].
      apply bind_ok_inv in Ec as (f & _ & Ec). apply bind_ok_inv in Ec as (p & Elast & Ec). cbv zeta in Ec.
      apply bind_ok_inv in Ec as (arr & Ea & _).
      assert (p = parent) as ->.
      { rewrite <- (take_drop (length (vw_chain view) - Z.to_nat RETARGET_INTERVAL) (vw_chain view)), last_app in El.
        unfold expect in Elast. destruct (last (drop _ _)); [|done]. congruence. }
      unfold target_array in Ea. unfold valid_target. destruct (hex_decode (b_target parent)); [|done].
      cbn in Ea. by case_decide. }
    destruct (Hc first Hw Hv) as (out & Eo & H32 & Hr). rewrite Ec in Eo. injection Eo as ->.
    exists first, parent, out. by split_and!.
  - intros (first & p & out & Hw & Hv & H32 & Hr & Et).
    assert (p = parent) as ->.
    { destruct Hw as (older & mid & E & _). rewrite E in El. rewrite app_comm_cons, app_assoc, last_snoc in El. by injection El. }
    destruct (Hc first Hw Hv) as (out' & Eo & H32' & Hr'). exists out'. split; [done|]. rewrite Et. f_equal.
    apply from_be_bytes_inj; [by rewrite H32, H32'|by rewrite Hr, Hr'].
Qed.

Lemma limits_iff tx : verify_limits tx = Ok tt ↔ limits_rule tx.
Proof.
  destruct tx as [t|c|c]; cbn; [done|..].
  - destruct (Nat.eqb_spec (length (cr_init_code c)) 0) as [E|E].
    { split; [done|]. intros [H _]. by destruct (cr_init_code c). }
    destruct (Z.ltb_spec MAX_CODE_SIZE (Z.of_nat (length (cr_init_code c)))); [split; [done|lia]|].
    destruct (Z.ltb_spec BLOCK_GAS_LIMIT (cr_gas_limit c)); [split; [done|lia]|].
    split; [|done]. intros _. split; [|done]. intros Hn. by rewrite Hn in E.
  - by destruct (Z.eqb_spec (ca_gas_limit c) 0).
Qed.

Lemma tx_iff chain_id tx : tx_valid chain_id tx ↔ tx_rule chain_id tx.
Proof. unfold tx_valid, tx_rule. by rewrite verify_transaction_correct, limits_iff. Qed.

Lemma transition_computed s block view s' :
  apply_and_execute vm_wasm s block view = Ok s' ↔ transition_rule false s block view s'.
Proof.
  unfold apply_and_execute, transition_rule. destruct vm_wasm.
  - rewrite <- transition_iff. unfold apply_block_with_vm. destruct (apply_block_inner s block _ _) as [[x y]| |]; cbn.
    + split; [intros [= <-]; by exists y|]. by intros [y' [= <- _]].
    + split; [done|]. by intros [? ?].
    + split; [done|]. by intros [? ?].
  - rewrite <- transition_iff. unfold apply_block. destruct (apply_block_inner s block _ _) as [[x y]| |]; cbn.
    + split; [intros [= <-]; by exists y|]. by intros [y' [= <- _]].
    + split; [done|]. by intros [? ?].
    + split; [done|]. by intros [? ?].
Qed.

Lemma accepted_iff s block view s' :
  regular s block view → accepted vm_wasm s block view s' ↔ rules false s block view s'.
Proof.
  intros Hr. pose proof Hr as [Hclk _ Hg Hgu _].
  assert (∀ txs, Forall (tx_valid (vw_chain_id view)) txs ↔ Forall (tx_rule (vw_chain_id view)) txs) as Htx.
  { intros txs. apply Forall_iff. intros tx. apply tx_iff. }
  split.
  - intros [Hsz Htsz Hpos Hhash Hph Hver Hroot Htime Hwork Htgt Htxs Hgas Happ Hused Hsr Hrr]. assert (transition_rule false s block view s') as Ht by by apply transition_computed.
    constructor; try done.
    + by apply (proj1 (time_iff _ _ _ Hclk (follows_length _ _ Hpos))).
    + intros H. by apply difficulty_iff, Hwork.
    + intros H. by apply (target_iff s), Htgt.
    + intros H. by apply Htx, Htxs.
    + by rewrite <- sum64_exact.
    + rewrite <- sum64_exact; [done|]. by apply Hgu.
  - intros [Hsz Htsz Hpos Hhash Hph Hver Hroot Htime Hwork Htgt Htxs Hgas Happ Hused Hsr Hrr]. constructor; try done.
    + by apply (proj2 (time_iff _ _ _ Hclk (follows_length _ _ Hpos))).
    + intros H. by apply difficulty_iff, Hwork.
    + intros H. by apply (target_iff s), Htgt.
    + intros H. by apply Htx, Htxs.
    + by rewrite sum64_exact.
    + by apply transition_computed.
    + rewrite sum64_exact; [done|]. by apply Hgu.
Qed.

Lemma rules_lax s block view s' : rules true s block view s' → rules false s block view s'.
Proof.
  intros []. constructor; try done. unfold transition_rule in *. destruct vm_wasm; by apply transition_lax.
Qed.

End Rules.
