(* ===== verification/StateCache.v ===== *)
(** * State cache (src/blockchain/state_cache.rs)

    The node's copy of accounts and contract storage, its conversions to and from
    a [State], and its reconstruction from a chain of blocks.  LevelDB access and
    the JSON forms are outside the model; the deterministic pair-list form of the
    contract storage map is [contract_storage_to_json]. *)

From S2P Require Import Prelude Bytes U256 Abi Types Address Serialize Consensus Emission SparseMerkle State Node Mempool Net Executor.
From stdpp Require Import sorting.
Open Scope Z_scope.

Record StateCache := {
  sc_accounts : gmap string Account;
  sc_contract_storage : ContractStorageMap
}.

#[export] Instance StateCache_eq_dec : EqDecision StateCache.
Proof. solve_decision. Defined.

Definition cache_new : StateCache := {| sc_accounts := ∅; sc_contract_storage := ∅ |}.

Definition from_accounts (accounts : gmap string Account) : StateCache :=
  {| sc_accounts := accounts; sc_contract_storage := ∅ |}.

Definition from_state (s : State) : StateCache :=
  {| sc_accounts := balances s; sc_contract_storage := contract_storage s |}.

Definition to_state (c : StateCache) : State :=
  {| balances := sc_accounts c; contract_storage := sc_contract_storage c; receipts := [];
     storage_undo := ∅; value_transfers_undo := ∅ |}.

Definition set_contract_storage (c : StateCache) (m : ContractStorageMap) : StateCache :=
  {| sc_accounts := sc_accounts c; sc_contract_storage := m |}.

(** ** Reads *)

Definition cache_get (c : StateCache) (address : string) : option Account := sc_accounts c !! address.

Definition cache_balance (c : StateCache) (address : string) : Z :=
  default 0 (balance <$> sc_accounts c !! address).

Definition cache_nonce (c : StateCache) (address : string) : Z :=
  default 0 (nonce <$> sc_accounts c !! address).

Definition cache_contains_key (c : StateCache) (address : string) : bool :=
  bool_decide (is_Some (sc_accounts c !! address)).

Definition cache_len (c : StateCache) : Z := Z.of_nat (size (sc_accounts c)).

Definition cache_is_empty (c : StateCache) : bool := bool_decide (sc_accounts c = ∅).

(** Iteration over the keys of a [HashMap]: some fixed order. *)
Definition cache_keys (c : StateCache) : list string := (map_to_list (sc_accounts c)).*1.

Definition cache_total_supply (c : StateCache) : Z :=
  sum64 ((λ p, balance p.2) <$> map_to_list (sc_accounts c)).

(** The accounts with a balance, as [address → balance]. *)
Definition nonzero (accounts : gmap string Account) : gmap string Z :=
  balance <$> filter (λ p, balance p.2 ≠ 0) accounts.

Definition nonzero_balances (c : StateCache) : gmap string Z := nonzero (sc_accounts c).

(** ** Writes *)

(** [commit] takes the contents of the shared storage handle. *)
Definition commit (c : StateCache) (s : State) : StateCache :=
  {| sc_accounts := balances s; sc_contract_storage := contract_storage s |}.

Definition cache_replace (c other : StateCache) : StateCache := other.

(** [accounts.clear()]: the contract storage stays. *)
Definition invalidate (c : StateCache) : StateCache :=
  {| sc_accounts := ∅; sc_contract_storage := sc_contract_storage c |}.

Definition cache_credit (c : StateCache) (address : string) (amount : Z) : StateCache :=
  let account := default account_default (sc_accounts c !! address) in
  {| sc_accounts := <[address := account_set_balance account
                        (saturating_add64 (balance account) amount)]> (sc_accounts c);
     sc_contract_storage := sc_contract_storage c |}.

Definition ensure_account (c : StateCache) (address : string) : StateCache :=
  {| sc_accounts := <[address := default account_default (sc_accounts c !! address)]> (sc_accounts c);
     sc_contract_storage := sc_contract_storage c |}.

(** ** Persisted form of the contract storage *)

(** [sort_by(|a, b| a.0.cmp(&b.0))] on strings. *)
Definition fst_le {A} (p q : string * A) : Prop := str_ltb q.1 p.1 = false.
#[export] Instance fst_le_dec {A} : RelDecision (@fst_le A).
Proof. intros p q. unfold fst_le. apply _. Defined.

Abbreviation ContractStorageJson := (list (string * list (string * list byte))).

Section Cache.
Context `{HX : Hex, B3 : Blake3, B32 : Bech32, SK : Secp256k1}.
Context `{VR : VmRuntime V} (vm_wasm : bool).

Definition contract_storage_to_json (map : ContractStorageMap) : ContractStorageJson :=
  merge_sort fst_le ((λ e, (e.1, merge_sort fst_le
    ((λ kv : list byte * list byte, (hex_encode kv.1, kv.2)) <$> map_to_list e.2))) <$> map_to_list map).

(** [hex::decode(..).ok()?] then [try_into().ok()?]. *)
Definition slot_from_json (storage : ContractStorage) (slot : string * list byte)
    : option ContractStorage :=
  bytes ← hex_decode slot.1;
  if decide (length bytes = 32%nat) then Some (<[bytes := slot.2]> storage) else None.

Definition contract_storage_from_json (raw : ContractStorageJson) : option ContractStorageMap :=
  foldl (λ acc e, map ← acc;
      storage ← foldl (λ acc slot, storage ← acc; slot_from_json storage slot) (Some ∅) e.2;
      Some (<[e.1 := storage]> map))
    (Some ∅) raw.

(** ** Rollback and reconstruction *)

Definition cache_unapply_block (c : StateCache) (block : Block) (chain_id : Z)
    : result Node.StrangecoinError StateCache :=
  rolled_back ← Node.lift (unapply_block (to_state c) block chain_id);
  Ok (commit c rolled_back).

(** What a node's configuration fixes for every block it validates. *)
Record Rules := {
  rl_now : Z;
  rl_allow_grant_blocks : bool;
  rl_allow_zero_state_root : bool;
  rl_rules : ConsensusManager;
  rl_chain_id : Z
}.

(** The view under which the block at [height] on top of [chain] is validated. *)
Definition view_at (R : Rules) (chain : list Block) (height : Z) (codes : Codes) : BlockView :=
  with_codes
    (with_allow_zero_state_root
      (with_phase
        (view_new chain (rl_now R) (rl_allow_grant_blocks R)
           (expected_version (rl_rules R) height) (rl_chain_id R))
        (phase_at (rl_rules R) height))
      (rl_allow_zero_state_root R))
    codes.

Definition rebuild_step (R : Rules) (chain : list Block) (acc : State * Codes) (hb : nat * Block)
    : result Node.StrangecoinError (State * Codes) :=
  let '(state, codes) := acc in
  let '(height, block) := hb in
  let view := view_at R (take height chain) (Z.of_nat height) codes in
  state ← validate_and_apply vm_wasm state block view;
  Ok (state, collect_block_codes block (rl_chain_id R) codes).

Definition rebuild_from_chain (R : Rules) (chain : list Block)
    : result Node.StrangecoinError (StateCache * list Receipt) :=
  '(state, _) ← foldM (rebuild_step R chain) (state_new, ∅) (imap pair chain);
  Ok (from_state state, receipts state).

End Cache.
