(* ===== verification/Chain.v ===== *)
(** * Blockchain (src/blockchain/blockchain_facade.rs, block_executor.rs,
      state_cache.rs, chain_selector.rs, src/consensus/mod.rs)

    The node's chain data and the operations on it: genesis, grant blocks, commit,
    mining, admission of transactions, full validation, and fork-choice adoption.
    The storage handle (LevelDB) is not part of the record.  Every reading of the
    clock is an argument; the shutdown flag of the miner is observed before each
    nonce, so the number of nonces it tries is an argument too ([fuel]); the length of a
    transaction's JSON form is a function of the client ([json_len]). *)

From S2P Require Import Prelude Bytes U256 Abi Types Address Serialize Consensus Emission SparseMerkle State Node Mempool Net Executor StateCache.
Open Scope Z_scope.

Record Blockchain := {
  bc_chain : list Block;
  bc_balances : StateCache;
  bc_difficulty : Z;
  bc_mempool : Mempool;
  bc_allow_grant_blocks : bool;
  bc_allow_zero_state_root : bool;
  bc_total_work : U256;
  bc_rules : ConsensusManager;
  bc_chain_id : Z;
  bc_codes : Codes;
  bc_receipts : list Receipt
}.

Definition bc_config (bc : Blockchain) (now : Z) : Rules := {|
  rl_now := now;
  rl_allow_grant_blocks := bc_allow_grant_blocks bc;
  rl_allow_zero_state_root := bc_allow_zero_state_root bc;
  rl_rules := bc_rules bc;
  rl_chain_id := bc_chain_id bc
|}.

Definition with_chain (bc : Blockchain) (chain : list Block) : Blockchain := {|
  bc_chain := chain; bc_balances := bc_balances bc; bc_difficulty := bc_difficulty bc;
  bc_mempool := bc_mempool bc; bc_allow_grant_blocks := bc_allow_grant_blocks bc;
  bc_allow_zero_state_root := bc_allow_zero_state_root bc; bc_total_work := bc_total_work bc;
  bc_rules := bc_rules bc; bc_chain_id := bc_chain_id bc; bc_codes := bc_codes bc;
  bc_receipts := bc_receipts bc |}.

Definition with_cache (bc : Blockchain) (c : StateCache) : Blockchain := {|
  bc_chain := bc_chain bc; bc_balances := c; bc_difficulty := bc_difficulty bc;
  bc_mempool := bc_mempool bc; bc_allow_grant_blocks := bc_allow_grant_blocks bc;
  bc_allow_zero_state_root := bc_allow_zero_state_root bc; bc_total_work := bc_total_work bc;
  bc_rules := bc_rules bc; bc_chain_id := bc_chain_id bc; bc_codes := bc_codes bc;
  bc_receipts := bc_receipts bc |}.

Definition with_mempool (bc : Blockchain) (p : Mempool) : Blockchain := {|
  bc_chain := bc_chain bc; bc_balances := bc_balances bc; bc_difficulty := bc_difficulty bc;
  bc_mempool := p; bc_allow_grant_blocks := bc_allow_grant_blocks bc;
  bc_allow_zero_state_root := bc_allow_zero_state_root bc; bc_total_work := bc_total_work bc;
  bc_rules := bc_rules bc; bc_chain_id := bc_chain_id bc; bc_codes := bc_codes bc;
  bc_receipts := bc_receipts bc |}.

(** The facade's [ensure_account] and the two flags. *)
Definition facade_ensure_account (bc : Blockchain) (address : string) : Blockchain :=
  with_cache bc (ensure_account (bc_balances bc) address).

Definition set_allow_grant_blocks (bc : Blockchain) (allow : bool) : Blockchain := {|
  bc_chain := bc_chain bc; bc_balances := bc_balances bc; bc_difficulty := bc_difficulty bc;
  bc_mempool := bc_mempool bc; bc_allow_grant_blocks := allow;
  bc_allow_zero_state_root := bc_allow_zero_state_root bc; bc_total_work := bc_total_work bc;
  bc_rules := bc_rules bc; bc_chain_id := bc_chain_id bc; bc_codes := bc_codes bc;
  bc_receipts := bc_receipts bc |}.

Definition set_allow_zero_state_root (bc : Blockchain) (allow : bool) : Blockchain := {|
  bc_chain := bc_chain bc; bc_balances := bc_balances bc; bc_difficulty := bc_difficulty bc;
  bc_mempool := bc_mempool bc; bc_allow_grant_blocks := bc_allow_grant_blocks bc;
  bc_allow_zero_state_root := allow; bc_total_work := bc_total_work bc;
  bc_rules := bc_rules bc; bc_chain_id := bc_chain_id bc; bc_codes := bc_codes bc;
  bc_receipts := bc_receipts bc |}.

(** The record [open_blockchain] builds before it loads anything, and the one
    [open_local] builds. *)
Definition blockchain_empty (chain_id : Z) : Blockchain := {|
  bc_chain := []; bc_balances := cache_new; bc_difficulty := 1; bc_mempool := mempool_new chain_id;
  bc_allow_grant_blocks := false; bc_allow_zero_state_root := false; bc_total_work := u256_zero;
  bc_rules := manager_new; bc_chain_id := chain_id; bc_codes := ∅; bc_receipts := [] |}.

Definition local_empty (chain_id : Z) : Blockchain := {|
  bc_chain := []; bc_balances := cache_new; bc_difficulty := 0; bc_mempool := mempool_new chain_id;
  bc_allow_grant_blocks := true; bc_allow_zero_state_root := true; bc_total_work := u256_zero;
  bc_rules := manager_new; bc_chain_id := chain_id; bc_codes := ∅; bc_receipts := [] |}.

Definition MAX_TARGET_HEX : string := "ffffffffffffffffffffffffffffffffffffffffffffffffffffffffffffffff".

(** A block header before sealing: no hash, no commitments. *)
Definition unsealed (index timestamp : Z) (txs : list Transaction) (previous_hash target : string)
    (consensus_version : Z) : Block := {|
  b_index := index; b_timestamp := timestamp; b_transactions := txs;
  b_previous_hash := previous_hash; b_hash := ""; b_nonce := 0; b_target := target;
  b_consensus_version := consensus_version; b_state_root := zero32; b_tx_root := zero32;
  b_receipts_root := zero32 |}.

Definition set_tx_root (b : Block) (r : list byte) : Block := {|
  b_index := b_index b; b_timestamp := b_timestamp b; b_transactions := b_transactions b;
  b_previous_hash := b_previous_hash b; b_hash := b_hash b; b_nonce := b_nonce b;
  b_target := b_target b; b_consensus_version := b_consensus_version b;
  b_state_root := b_state_root b; b_tx_root := r; b_receipts_root := b_receipts_root b |}.

Definition set_commitments (b : Block) (state_root receipts_root : list byte) : Block := {|
  b_index := b_index b; b_timestamp := b_timestamp b; b_transactions := b_transactions b;
  b_previous_hash := b_previous_hash b; b_hash := b_hash b; b_nonce := b_nonce b;
  b_target := b_target b; b_consensus_version := b_consensus_version b;
  b_state_root := state_root; b_tx_root := b_tx_root b; b_receipts_root := receipts_root |}.

Definition set_hash (b : Block) (h : string) : Block := {|
  b_index := b_index b; b_timestamp := b_timestamp b; b_transactions := b_transactions b;
  b_previous_hash := b_previous_hash b; b_hash := h; b_nonce := b_nonce b;
  b_target := b_target b; b_consensus_version := b_consensus_version b;
  b_state_root := b_state_root b; b_tx_root := b_tx_root b; b_receipts_root := b_receipts_root b |}.

Definition set_pow_nonce (b : Block) (n : Z) : Block := {|
  b_index := b_index b; b_timestamp := b_timestamp b; b_transactions := b_transactions b;
  b_previous_hash := b_previous_hash b; b_hash := b_hash b; b_nonce := n;
  b_target := b_target b; b_consensus_version := b_consensus_version b;
  b_state_root := b_state_root b; b_tx_root := b_tx_root b; b_receipts_root := b_receipts_root b |}.

(** ** Genesis configuration (src/consensus/mod.rs)

    The fields of the JSON file that the code reads. *)
Record GenesisConfig := {
  gc_network_id : Z;
  gc_chain_id : Z;
  gc_timestamp : Z;
  gc_initial_holder_pubkey : string;
  gc_initial_amount : Z
}.

Definition EXPECTED_GENESIS_HASH : list byte :=
  [x0d; x40; x0a; x4c; x50; x61; x4e; x50; xee; x4b; x33; x61; x7f; x90; xe8; x53;
   x37; xbb; x3b; x18; xc8; x8c; xe7; xb5; xb9; x2a; x9d; x89; x74; x5a; x83; xcc].
Definition EXPECTED_TESTNET_GENESIS_HASH : list byte :=
  [x71; x0d; x83; xd5; xc9; x2c; x4e; x57; x40; x00; x28; xb1; x5d; x97; xe8; x25;
   xd9; x1d; x92; x81; x82; x4d; x54; x72; xa1; x10; xe4; xd0; x6d; x24; xb2; x70].

Section Chain.
Context `{HX : Hex, B3 : Blake3, B32 : Bech32, SK : Secp256k1}.
Context `{VR : VmRuntime V} (vm_wasm : bool).

Definition calculate_hash {E} (block : Block) : result E string := hex_encode <$> block_hash block.

Definition seal {E} (b : Block) : result E Block := h ← calculate_hash b; Ok (set_hash b h).

(** [strip_prefix("0x").unwrap_or(..)]. *)
Definition strip_0x (s : string) : string :=
  match strip_prefix (as_bytes "0x") (as_bytes s) with
  | Some rest => String.string_of_list_byte rest
  | None => s
  end.

(** [PublicKey::from_slice(..)?]. *)
Definition pk_from_slice_err (bytes : list byte) : result Node.StrangecoinError PublicKey :=
  match pk_from_slice bytes with inl pk => Ok pk | inr _ => Err Node.Secp256k1Error end.

(** [load_genesis] on the parsed file: the holder's address, then the block. *)
Definition genesis_holder (genesis : GenesisConfig) : result Node.StrangecoinError string :=
  pk_bytes ← ok_or (hex_decode (strip_0x (gc_initial_holder_pubkey genesis))) Node.HexError;
  public_key ← pk_from_slice_err pk_bytes;
  Node.lift (encode_address public_key (gc_network_id genesis)).

Definition load_genesis (genesis : GenesisConfig) : result Node.StrangecoinError Block :=
  if negb (gc_network_id genesis =? gc_chain_id genesis)
  then Err (Node.GenesisNetworkMismatch (gc_network_id genesis) (gc_chain_id genesis)) else
  initial_holder_addr ← genesis_holder genesis;
  let genesis_tx := tx_coinbase "genesis" initial_holder_addr (gc_initial_amount genesis)
                      (gc_chain_id genesis) in
  target_bytes ← ok_or (hex_decode MAX_TARGET_HEX) Node.HexError;
  target_arr ← expect (if decide (length target_bytes = 32%nat) then Some target_bytes else None);
  let block := unsealed 0 (gc_timestamp genesis) [genesis_tx] zero_hash_string
                 (hex_encode target_arr) CURRENT_CONSENSUS_VERSION in
  root ← compute_tx_root (b_transactions block);
  seal (set_tx_root block root).

Definition validate_genesis (block : Block) (chain_id : Z) : result Node.StrangecoinError unit :=
  if is_regtest chain_id then Ok tt else
  expected ← (if chain_id =? CHAIN_ID_MAINNET then Ok EXPECTED_GENESIS_HASH
              else if chain_id =? CHAIN_ID_TESTNET then Ok EXPECTED_TESTNET_GENESIS_HASH
              else Err (Node.ConfigError ("unknown network ID: " +:+ pretty chain_id)));
  hash ← block_hash block;
  if decide (hash = expected) then Ok tt else Err (Node.GenesisMismatch expected hash).

Definition regtest_genesis_block {E} (consensus_version : Z) : result E Block :=
  let genesis_tx := tx_coinbase "genesis" "regtest_initial_holder" 1000000000 CHAIN_ID_REGTEST in
  target_arr ← target_array MAX_TARGET_HEX;
  let block := unsealed 0 0 [genesis_tx] zero_hash_string (hex_encode target_arr) consensus_version in
  root ← compute_tx_root (b_transactions block);
  seal (set_tx_root block root).

(** ** Views and commits *)

Definition view_for (bc : Blockchain) (now height : Z) : BlockView :=
  view_at (bc_config bc now) (bc_chain bc) height (bc_codes bc).

(** Pushes an applied block: chain, receipts, cache and total work. *)
Definition install (bc : Blockchain) (block : Block) (new_state : State) (codes : Codes) (p : Mempool)
    : result Node.StrangecoinError Blockchain :=
  let chain := bc_chain bc ++ [block] in
  work ← cumulative_work chain;
  Ok {| bc_chain := chain; bc_balances := commit (bc_balances bc) new_state;
        bc_difficulty := bc_difficulty bc; bc_mempool := p;
        bc_allow_grant_blocks := bc_allow_grant_blocks bc;
        bc_allow_zero_state_root := bc_allow_zero_state_root bc; bc_total_work := work;
        bc_rules := bc_rules bc; bc_chain_id := bc_chain_id bc; bc_codes := codes;
        bc_receipts := receipts new_state |}.

(** The mempool loop of [commit_block]. *)
Definition drop_confirmed (p : Mempool) (txs : list Transaction) : Mempool :=
  foldl (λ p tx, if is_coinbase tx then p else mempool_remove p (txid tx)) p txs.

Definition commit_block (bc : Blockchain) (now : Z) (block : Block)
    : result Node.StrangecoinError Blockchain :=
  new_state ← validate_and_apply vm_wasm (to_state (bc_balances bc)) block
                (view_for bc now (b_index block));
  install bc block new_state (collect_block_codes block (bc_chain_id bc) (bc_codes bc))
    (drop_confirmed (bc_mempool bc) (b_transactions block)).

Definition create_genesis_block (bc : Blockchain) (now : Z) : result Node.StrangecoinError Blockchain :=
  let genesis_transaction := tx_coinbase "genesis" "initial_wallet_address" 10000 (bc_chain_id bc) in
  let genesis_block := unsealed 0 0 [genesis_transaction] zero_hash_string MAX_TARGET_HEX
                         (expected_version (bc_rules bc) 0) in
  root ← compute_tx_root (b_transactions genesis_block);
  genesis_block ← seal (set_tx_root genesis_block root);
  let view := with_phase (view_new [] now (bc_allow_grant_blocks bc)
                (expected_version (bc_rules bc) 0) (bc_chain_id bc)) (phase_at (bc_rules bc) 0) in
  match validate_and_apply vm_wasm state_new genesis_block view with
  | Ok new_state => install bc genesis_block new_state (bc_codes bc) (bc_mempool bc)
  | Err _ => Ok bc
  | Panic => Panic
  end.

(** [open_local], less the directory and the database. *)
Definition open_local (chain_id now : Z) : result Node.StrangecoinError Blockchain :=
  create_genesis_block (local_empty chain_id) now.

Definition create_grant_block (bc : Blockchain) (now now' : Z) (wallet_address : string) (amount : Z)
    : result Node.StrangecoinError Blockchain :=
  previous_block ← expect (last (bc_chain bc));
  let height := add64 (b_index previous_block) 1 in
  let coinbase := tx_coinbase "coinbase" wallet_address 0 (bc_chain_id bc) in
  let transfer := tx_transfer "initial_wallet_address" wallet_address amount 0 (bc_chain_id bc) in
  let block := unsealed height now [coinbase; transfer] (b_hash previous_block)
                 (b_target previous_block) (expected_version (bc_rules bc) height) in
  root ← compute_tx_root (b_transactions block);
  let block := set_tx_root block root in
  let parent_state := to_state (bc_balances bc) in
  match apply_block parent_state block (bc_chain_id bc) with
  | Ok post =>
      block ← seal (set_commitments block (compute_state_root (balances post))
                      (receipts_root (receipts post)));
      match validate_and_apply vm_wasm parent_state block (view_for bc now' height) with
      | Ok new_state => install bc block new_state (bc_codes bc) (bc_mempool bc)
      | Err _ => Ok bc
      | Panic => Panic
      end
  | Err _ => Ok bc
  | Panic => Panic
  end.

Definition grant_initial_balance_to_first_wallet (bc : Blockchain) (now now' : Z)
    (wallet_address : string) : result Node.StrangecoinError (Blockchain * bool) :=
  if negb (bc_allow_grant_blocks bc) then Err Node.GrantBlocksDisabled else
  if negb (length (bc_chain bc) =? 1)%nat then Ok (bc, false) else
  if cache_contains_key (bc_balances bc) wallet_address then Ok (bc, false) else
  let is_first_wallet := (cache_len (bc_balances bc) =? 1)
                         && cache_contains_key (bc_balances bc) "initial_wallet_address" in
  if negb is_first_wallet then Ok (bc, false) else
  match cache_get (bc_balances bc) "initial_wallet_address" with
  | Some a =>
      if 0 <? balance a then
        bc ← create_grant_block bc now now' wallet_address (balance a);
        Ok (bc, true)
      else Ok (bc, false)
  | None => Ok (bc, false)
  end.

(** ** Mining *)

(** The proof-of-work loop: [fuel] nonces are tried before the shutdown flag stops it. *)
Fixpoint pow_loop (fuel : nat) (target : U256) (block : Block) : result Node.StrangecoinError (option Block) :=
  match fuel with
  | O => Ok None
  | S fuel =>
      hash ← calculate_hash block;
      hash_arr ← target_array hash;
      if u256_le (u256_from_bytes hash_arr) target
      then Ok (Some (set_hash block hash))
      else pow_loop fuel target (set_pow_nonce block (add64 (b_nonce block) 1))
  end.

(** The block [mine_block_inner] assembles before the proof-of-work loop. *)
Definition candidate_block (bc : Blockchain) (now now' : Z) (previous_block : Block)
    (txs : list Transaction) : result Node.StrangecoinError (option Block) :=
  let height := add64 (b_index previous_block) 1 in
  mtp ← median_time_past (bc_chain bc) height;
  target ← (if height mod RETARGET_INTERVAL =? 0 then hex_encode <$> compute_target (bc_chain bc)
            else Ok (b_target previous_block));
  let block := unsealed height (Z.max now (add64 mtp 1)) txs (b_hash previous_block) target
                 (expected_version (bc_rules bc) height) in
  root ← compute_tx_root (b_transactions block);
  let block := set_tx_root block root in
  match apply_and_execute vm_wasm (to_state (bc_balances bc)) block (view_for bc now' height) with
  | Ok post => Ok (Some (set_commitments block (compute_state_root (balances post))
                           (receipts_root (receipts post))))
  | Err _ => Ok None
  | Panic => Panic
  end.

Definition mine_block_inner (bc : Blockchain) (fuel : nat) (now now' : Z) (previous_block : Block)
    (txs : list Transaction) : result Node.StrangecoinError (option Block) :=
  candidate ← candidate_block bc now now' previous_block txs;
  match candidate with
  | Some block =>
      target_arr ← target_array (b_target block);
      pow_loop fuel (u256_from_bytes target_arr) block
  | None => Ok None
  end.

Definition mine_block (bc : Blockchain) (fuel : nat) (now now' now'' : Z)
    : result Node.StrangecoinError (Blockchain * option Block) :=
  if mempool_is_empty (bc_mempool bc) then Ok (bc, None) else
  previous_block ← expect (last (bc_chain bc));
  let txs := get_pending (bc_mempool bc) 1000 in
  match txs with
  | [] => Ok (bc, None)
  | _ =>
      let total_supply := cache_total_supply (bc_balances bc) in
      let height := add64 (b_index previous_block) 1 in
      let coinbase_amount := block_reward_at_height_for_chain height total_supply (bc_chain_id bc) in
      let miner_address := default "miner" (head (cache_keys (bc_balances bc))) in
      let coinbase_tx := tx_coinbase "coinbase" miner_address coinbase_amount (bc_chain_id bc) in
      mined ← mine_block_inner bc fuel now now' previous_block (coinbase_tx :: txs);
      match mined with
      | Some block =>
          match commit_block bc now'' block with
          | Ok bc' => Ok (bc', Some block)
          | Err _ => Ok (bc, None)
          | Panic => Panic
          end
      | None => Ok (bc, None)
      end
  end.

(** ** Fresh chain *)

(** The balances loop of [install_fresh_genesis]. *)
Definition credit_genesis (c : StateCache) (tx : Transaction) : StateCache :=
  if decide (sender tx = "genesis") then c else
  match receiver tx with Some r => cache_credit c r (value tx) | None => c end.

(** [genesis_file] is what the network's genesis file parses to, if there is one. *)
Definition install_fresh_genesis (bc : Blockchain) (genesis_file : option GenesisConfig)
    : result Node.StrangecoinError Blockchain :=
  let chain_id := bc_chain_id bc in
  genesis_block ←
    (if is_regtest chain_id then regtest_genesis_block (expected_version (bc_rules bc) 0)
     else if negb ((chain_id =? CHAIN_ID_MAINNET) || (chain_id =? CHAIN_ID_TESTNET)) then Panic
     else
       config ← expect genesis_file;
       match load_genesis config with
       | Ok block =>
           let declared := default 0 (tx_chain_id <$> head (b_transactions block)) in
           if negb (declared =? chain_id) then Panic else Ok block
       | _ => Panic
       end);
  match validate_genesis genesis_block chain_id with
  | Ok _ => Ok (with_cache (with_chain bc (bc_chain bc ++ [genesis_block]))
                  (foldl credit_genesis (bc_balances bc) (b_transactions genesis_block)))
  | _ => Panic
  end.

(** ** Transactions and full validation *)

Definition add_transaction (json_len : Transaction → Z) (bc : Blockchain) (tx : Transaction)
    : result Node.StrangecoinError (InsertOutcome * Blockchain) :=
  if bool_decide (sender tx = "") || bool_decide (receiver tx = Some "")
  then Err (Node.SizeLimitExceeded "empty address") else
  if MAX_TX_SIZE <? json_len tx then Err (Node.SizeLimitExceeded "transaction") else
  let account_state := default account_default (cache_get (bc_balances bc) (sender tx)) in
  '(outcome, p) ← mempool_insert (bc_mempool bc) tx account_state;
  Ok (outcome, with_mempool bc p).

(** One pending transaction of [validate_chain]: [Err] is [return false]. *)
Definition spend_pending (s : State) (tx : Transaction) : result unit State :=
  let required := tx_cost tx in
  let sender_balance := get_balance s (sender tx) in
  if sender_balance <? required then Err tt else
  let s := set_balance s (sender tx) (saturating_sub64 sender_balance required) in
  match receiver tx with
  | Some r => Ok (set_balance s r (saturating_add64 (get_balance s r) (value tx)))
  | None => Ok s
  end.

Definition block_too_large {E} (block : Block) : result E bool :=
  bytes ← serialize_block block; Ok (MAX_BLOCK_SIZE <? Z.of_nat (length bytes)).

Definition validate_chain (bc : Blockchain) (now : Z) : result Node.StrangecoinError bool :=
  match bc_chain bc with
  | [] => Ok false
  | _ =>
      too_large ← foldM (λ (found : bool) block,
        if found then Ok true else block_too_large block) false (bc_chain bc);
      if (too_large : bool) then Ok false else
      match rebuild_from_chain vm_wasm (bc_config bc now) (bc_chain bc) with
      | Ok (reconstructed, _) =>
          match foldM spend_pending (to_state reconstructed) (transactions (bc_mempool bc)) with
          | Ok _ => Ok (bool_decide (nonzero_balances reconstructed = nonzero_balances (bc_balances bc)))
          | _ => Ok false
          end
      | Err _ => Ok false
      | Panic => Panic
      end
  end.

Definition rebuild_state_cache (bc : Blockchain) (now : Z) : result Node.StrangecoinError Blockchain :=
  '(balances, receipts) ← rebuild_from_chain vm_wasm (bc_config bc now) (bc_chain bc);
  Ok {| bc_chain := bc_chain bc; bc_balances := balances; bc_difficulty := bc_difficulty bc;
        bc_mempool := bc_mempool bc; bc_allow_grant_blocks := bc_allow_grant_blocks bc;
        bc_allow_zero_state_root := bc_allow_zero_state_root bc; bc_total_work := bc_total_work bc;
        bc_rules := bc_rules bc; bc_chain_id := bc_chain_id bc;
        bc_codes := codes_from_chain (bc_chain bc) (bc_chain_id bc); bc_receipts := receipts |}.

(** ** Queries *)

Definition chain_has_tx (chain : list Block) (tx : Transaction) : bool :=
  existsb (λ b, existsb (λ t, bool_decide (txid t = txid tx)) (b_transactions b)) chain.

Definition headers_from_height (chain : list Block) (from_height : Z) (max : nat) : list BlockHeader :=
  header <$> take max (filter (λ b, from_height ≤ b_index b) chain).

Definition blocks_by_hashes (chain : list Block) (hashes : list (list byte)) (max : nat) : list Block :=
  match hashes with
  | [] => []
  | _ =>
      let by_hash : gmap string Block := foldl (λ m b, <[b_hash b := b]> m) ∅ chain in
      take max (omap (λ h, by_hash !! hex_encode h) hashes)
  end.

Definition block_by_hash (chain : list Block) (h : string) : option Block :=
  snd <$> list_find (λ b, b_hash b = h) chain.

Definition chain_contains_block (chain : list Block) (h : string) : bool :=
  existsb (λ b, bool_decide (b_hash b = h)) chain.

(** ** Adoption *)

(** One transaction of the merge loop: the merged pool and the ids merged so far. *)
Definition merge_tx (chain : list Block) (rebuilt : StateCache) (acc : Mempool * list TxId)
    (tx : Transaction) : result Node.StrangecoinError (Mempool * list TxId) :=
  let '(merged, merged_txids) := acc in
  if chain_has_tx chain tx then Ok acc else
  let id := txid tx in
  if decide (id ∈ merged_txids) then Ok acc else
  let account := default account_default (cache_get rebuilt (sender tx)) in
  match mempool_insert merged tx account with
  | Ok (_, merged') => Ok (merged', merged_txids ++ [id])
  | Err _ => Ok acc
  | Panic => Panic
  end.

(** The wire balances are compared when they are present and not empty. *)
Definition wire_agrees (wire : option (gmap string Account)) (rebuilt : StateCache) : bool :=
  match wire with
  | Some w => bool_decide (w = ∅) || bool_decide (nonzero w = nonzero_balances rebuilt)
  | None => true
  end.

Definition try_adopt_candidate (current : Blockchain) (now : Z) (candidate_chain : list Block)
    (candidate_balances : option (gmap string Account)) (candidate_mempool_txs : list Transaction)
    (candidate_difficulty : Z) : result Node.StrangecoinError (Blockchain * bool) :=
  if (length candidate_chain <=? 1)%nat then Ok (current, false) else
  candidate ← chain_info candidate_chain;
  match candidate with
  | None => Ok (current, false)
  | Some candidate_info =>
  ours ← chain_info (bc_chain current);
  let should_adopt := match ours with
    | None => true
    | Some current_info => is_better candidate_info current_info
    end in
  if negb should_adopt then Ok (current, false) else
  match rebuild_from_chain vm_wasm (bc_config current now) candidate_chain with
  | Err _ => Ok (current, false)
  | Panic => Panic
  | Ok (rebuilt, receipts) =>
      if negb (wire_agrees candidate_balances rebuilt) then Ok (current, false) else
      '(merged, _) ← foldM (merge_tx candidate_chain rebuilt) (mempool_new (bc_chain_id current), [])
                       (candidate_mempool_txs ++ transactions (bc_mempool current));
      work ← cumulative_work candidate_chain;
      Ok ({| bc_chain := candidate_chain; bc_balances := rebuilt;
             bc_difficulty := candidate_difficulty; bc_mempool := merged;
             bc_allow_grant_blocks := bc_allow_grant_blocks current;
             bc_allow_zero_state_root := bc_allow_zero_state_root current;
             bc_total_work := work; bc_rules := bc_rules current;
             bc_chain_id := bc_chain_id current;
             bc_codes := codes_from_chain candidate_chain (bc_chain_id current);
             bc_receipts := receipts |}, true)
  end
  end.

End Chain.
