(* ===== verification/ChainProps.v ===== *)
(** * Properties of whole chains

    [valid_chain] builds a chain block by block from the empty state, each block
    [accepted] on top of the previous ones.  Reconstruction computes exactly this
    relation; from it follow the integrity of accepted chains, the commitment of
    the tip hash to every header, and the bound on the money supply. *)

From S2P Require Import Prelude Bytes U256 Abi Types Address Concrete Serialize SerializeProps Consensus ConsensusProps Emission SparseMerkle State StateViews StateStorage StateEquiv StateProps BlockProps Node Mempool Net Executor ExecutorProps StateCache.
Open Scope Z_scope.

Lemma foldM_ext {E S A} (f g : S → A → result E S) xs s :
  (∀ s x, x ∈ xs → f s x = g s x) → foldM f s xs = foldM g s xs.
Proof.
  revert s. induction xs as [|x xs IH]; intros s H; cbn [foldM]; [done|].
  rewrite H by by left. destruct (g s x); cbn [mbind result_bind]; [|done..].
  apply IH. intros. apply H. by right.
Qed.

Section ChainProps.
Context `{HX : Hex, B3 : Blake3, B32 : Bech32, SK : Secp256k1}.
Context `{VR : VmRuntime V} (vm_wasm : bool).

(** The view of the block that follows [chain]. *)
Definition next_view (R : Rules) (chain : list Block) : BlockView :=
  view_at R chain (Z.of_nat (length chain)) (codes_from_chain chain (rl_chain_id R)).

Inductive valid_chain (R : Rules) : list Block → State → Prop :=
  | vc_nil : valid_chain R [] state_new
  | vc_snoc chain s block s' :
      valid_chain R chain s → accepted vm_wasm s block (next_view R chain) s' →
      valid_chain R (chain ++ [block]) s'.

(** ** Reconstruction computes the relation *)

Lemma codes_from_chain_snoc chain block id :
  codes_from_chain (chain ++ [block]) id = collect_block_codes block id (codes_from_chain chain id).
Proof. unfold codes_from_chain. by rewrite foldl_app. Qed.

Lemma imap_pair_snoc (chain : list Block) block :
  imap pair (chain ++ [block]) = imap pair chain ++ [(length chain, block)].
Proof. rewrite imap_app. cbn. by rewrite Nat.add_0_r. Qed.

Lemma rebuild_fold_snoc R chain block acc :
  foldM (rebuild_step vm_wasm R (chain ++ [block])) acc (imap pair (chain ++ [block]))
  = (acc' ← foldM (rebuild_step vm_wasm R chain) acc (imap pair chain);
     rebuild_step vm_wasm R (chain ++ [block]) acc' (length chain, block)).
Proof.
  rewrite imap_pair_snoc, foldM_app.
  rewrite (foldM_ext _ (rebuild_step vm_wasm R chain)).
  - destruct (foldM _ acc (imap pair chain)) as [a| |]; cbn [mbind result_bind foldM]; [|done..].
    by destruct (rebuild_step vm_wasm R (chain ++ [block]) a _).
  - intros [s codes] [h b] Hin. unfold rebuild_step. apply elem_of_lookup_imap_1 in Hin as (i & y & E & Hy).
    injection E as <- _. apply lookup_lt_Some in Hy. by rewrite take_app_le by lia.
Qed.

Lemma rebuild_step_last R chain block s codes :
  rebuild_step vm_wasm R (chain ++ [block]) (s, codes) (length chain, block)
  = (s' ← validate_and_apply vm_wasm s block (view_at R chain (Z.of_nat (length chain)) codes);
     Ok (s', collect_block_codes block (rl_chain_id R) codes)).
Proof. unfold rebuild_step. by rewrite take_app_length. Qed.

Lemma rebuild_fold_iff R chain s codes :
  foldM (rebuild_step vm_wasm R chain) (state_new, ∅) (imap pair chain) = Ok (s, codes)
  ↔ valid_chain R chain s ∧ codes = codes_from_chain chain (rl_chain_id R).
Proof.
  revert s codes. induction chain as [|block chain IH] using rev_ind; intros s codes.
  - cbn. split; [intros [= <- <-]; split; [constructor|done]|]. intros [H ->].
    inversion H as [|c ? b ? _ _ E]; [done|]. by destruct c.
  - rewrite rebuild_fold_snoc. split.
    + intros H. apply bind_ok_inv in H as ([s0 c0] & H0 & H). apply IH in H0 as [Hv ->].
      rewrite rebuild_step_last in H. apply bind_ok_inv in H as (s1 & H1 & [= <- <-]).
      apply validate_and_apply_ok in H1. split; [by econstructor|]. by rewrite codes_from_chain_snoc.
    + intros [H ->]. inversion H as [E|c s0 b ? Hv Ha E]; [by destruct chain|].
      apply app_inj_2 in E as [-> [= ->]]; [|done].
      rewrite (proj2 (IH s0 (codes_from_chain chain (rl_chain_id R)))) by done.
      cbn [mbind result_bind]. rewrite rebuild_step_last.
      apply validate_and_apply_ok in Ha. unfold next_view in Ha. rewrite Ha. cbn [mbind result_bind].
      by rewrite codes_from_chain_snoc.
Qed.

Lemma rebuild_iff R chain c rs :
  rebuild_from_chain vm_wasm R chain = Ok (c, rs)
  ↔ ∃ s, valid_chain R chain s ∧ c = from_state s ∧ rs = receipts s.
Proof.
  unfold rebuild_from_chain. split.
  - intros H. apply bind_ok_inv in H as ([s codes] & H & [= <- <-]).
    apply rebuild_fold_iff in H as [H _]. by exists s.
  - intros (s & H & -> & ->).
    by rewrite (proj2 (rebuild_fold_iff R chain s _) (conj H eq_refl)).
Qed.

Lemma valid_chain_functional R chain s s' : valid_chain R chain s → valid_chain R chain s' → s = s'.
Proof.
  intros H H'. pose proof (proj2 (rebuild_fold_iff R chain s _) (conj H eq_refl)) as E.
  rewrite (proj2 (rebuild_fold_iff R chain s' _) (conj H' eq_refl)) in E. congruence.
Qed.

(** ** Time *)

Definition later (R : Rules) (now : Z) : Rules := {|
  rl_now := now; rl_allow_grant_blocks := rl_allow_grant_blocks R;
  rl_allow_zero_state_root := rl_allow_zero_state_root R; rl_rules := rl_rules R;
  rl_chain_id := rl_chain_id R |}.

Lemma valid_chain_later R chain s now :
  rl_now R ≤ now → clock_ok (rl_now R) → clock_ok now →
  valid_chain R chain s → valid_chain (later R now) chain s.
Proof.
  intros Hle H H'. induction 1 as [|chain s block s' _ IH Ha]; [constructor|].
  econstructor; [exact IH|]. by apply (accepted_later vm_wasm s block (next_view R chain) s' now).
Qed.

(** ** Positions and links *)

Lemma follows_index block chain : follows block chain → b_index block = Z.of_nat (length chain).
Proof.
  unfold follows. destruct (Z.eqb_spec (b_index block) 0) as [E|E].
  - intros [-> _]. done.
  - by intros (p & _ & ? & _).
Qed.

(** Every block of a valid chain was accepted on its own prefix. *)
Lemma valid_chain_lookup R chain s k block :
  valid_chain R chain s → chain !! k = Some block →
  ∃ t t', valid_chain R (take k chain) t ∧ accepted vm_wasm t block (next_view R (take k chain)) t'
    ∧ valid_chain R (take (S k) chain) t'.
Proof.
  induction 1 as [|chain s b s' Hv IH Ha]; [done|]. intros Hk.
  destruct (decide (k < length chain)%nat) as [Hlt|Hge].
  - rewrite lookup_app_l in Hk by done. destruct (IH Hk) as (t & t' & ? & ? & ?).
    exists t, t'. rewrite !take_app_le by lia. done.
  - rewrite lookup_app_r in Hk by lia. destruct (k - length chain)%nat as [|j] eqn:E; [|by destruct j].
    injection Hk as <-. assert (k = length chain) as -> by lia.
    exists s, s'. rewrite take_app_length, take_ge by (rewrite length_app; cbn; lia).
    split_and!; [done..|]. by econstructor.
Qed.

(** ** The tip commits to the headers *)

(** Encoded headers of a chain. *)
Definition header_bytes (chain : list Block) : list (list byte) :=
  omap (λ b, match serialize_block_header (E:=CoreError) b with Ok bs => Some bs | _ => None end) chain.

Lemma write_bytes32_inv {E} s p : write_bytes32 (E:=E) s = Ok p → hex_decode s = Some p ∧ is32 p.
Proof. unfold write_bytes32. intros H. inv_result. case_decide; [|done]. by inv_result. Qed.

(** Equal encodings have the same height and the same predecessor bytes. *)
Lemma serialize_header_inj {E E'} h h' bs :
  serialize_header (E:=E) h = Ok bs → serialize_header (E:=E') h' = Ok bs →
  to_be_bytes 8 (h_index h) = to_be_bytes 8 (h_index h')
  ∧ hex_decode (h_previous_hash h) = hex_decode (h_previous_hash h').
Proof.
  unfold serialize_header. intros H H'.
  apply bind_ok_inv in H as (p & Hp & H), H' as (p' & Hp' & H').
  apply bind_ok_inv in H as (q & _ & H), H' as (q' & _ & H').
  apply write_bytes32_inv in Hp as [-> Hp], Hp' as [-> Hp'].
  apply ok_inj in H, H'. rewrite <- H in H'. apply (f_equal tail) in H'. cbn [tail] in H'.
  apply app_inj_1 in H' as [Ei H']; [|by rewrite !length_to_be_bytes].
  apply app_inj_1 in H' as [_ H']; [|by rewrite !length_to_be_bytes].
  apply app_inj_1 in H' as [-> _]; [|by rewrite Hp, Hp']. done.
Qed.

Lemma accepted_hash s block view s' :
  accepted vm_wasm s block view s' →
  ∃ bs, serialize_block_header (E:=CoreError) block = Ok bs ∧ b_hash block = hex_encode (blake3 bs).
Proof.
  intros H. pose proof (acc_hash _ _ _ _ _ H) as Hh. clear H.
  unfold block_hash, serialize_block_header, serialize_header in *.
  destruct (write_bytes32 (E:=Node.StrangecoinError) (h_previous_hash (header block))) as [p| |] eqn:Ep; [|done..].
  apply write_bytes32_inv in Ep as [Hp Lp].
  destruct (write_bytes32 (E:=Node.StrangecoinError) (h_target (header block))) as [q| |] eqn:Eq; [|done..].
  apply write_bytes32_inv in Eq as [Hq Lq]. cbn [fmap result_fmap mbind result_bind] in Hh. apply ok_inj in Hh.
  unfold write_bytes32. rewrite Hp. cbn [expect mbind result_bind]. rewrite decide_True by done.
  cbn [mbind result_bind]. rewrite Hq. cbn [expect mbind result_bind]. rewrite decide_True by done.
  cbn [mbind result_bind]. eexists. split; [done|]. by rewrite <- Hh.
Qed.

Lemma header_bytes_snoc chain block bs :
  serialize_block_header (E:=CoreError) block = Ok bs →
  header_bytes (chain ++ [block]) = header_bytes chain ++ [bs].
Proof. intros H. unfold header_bytes. rewrite omap_app. cbn. by rewrite H. Qed.

Lemma follows_parent block chain parent :
  follows block (chain ++ [parent]) → b_previous_hash block = b_hash parent.
Proof.
  unfold follows. destruct (b_index block =? 0).
  - intros [H _]. by destruct chain.
  - rewrite last_snoc. by intros (p & [= <-] & _ & ?).
Qed.

Lemma tip_commits `{HXok : !HexOk, B3ok : !Blake3Ok} R R' chain chain' s s' tip tip' :
  valid_chain R chain s → valid_chain R' chain' s' →
  last chain = Some tip → last chain' = Some tip' → b_hash tip = b_hash tip' →
  Z.of_nat (length chain) ≤ two64 → Z.of_nat (length chain') ≤ two64 →
  collision_free_on (header_bytes chain ++ header_bytes chain') →
  header_bytes chain = header_bytes chain' ∧ b_hash <$> chain = b_hash <$> chain'.
Proof.
  intros H. revert chain' s' tip tip'. induction H as [|chain s b s1 Hv IH Ha];
    intros chain' s' tip tip' H' Ht Ht' Eh Hl Hl' Hcf; [done|].
  destruct H' as [|chain' t b' t1 Hv' Ha']; [done|].
  rewrite last_snoc in Ht, Ht'. injection Ht as <-. injection Ht' as <-.
  rewrite length_app in Hl, Hl'. cbn [length] in Hl, Hl'.
  destruct (accepted_hash _ _ _ _ Ha) as (bs & Hbs & Hh), (accepted_hash _ _ _ _ Ha') as (bs' & Hbs' & Hh').
  rewrite (header_bytes_snoc _ _ _ Hbs), (header_bytes_snoc _ _ _ Hbs') in Hcf |- *.
  assert (bs = bs') as <-.
  { apply Hcf; [set_solver..|]. rewrite Hh, Hh' in Eh. apply (f_equal hex_decode) in Eh.
    rewrite !hex_decode_encode in Eh. by injection Eh. }
  destruct (serialize_header_inj _ _ _ Hbs Hbs') as [Ei Ep]. cbn in Ei, Ep.
  pose proof (acc_position _ _ _ _ _ Ha) as P. pose proof (acc_position _ _ _ _ _ Ha') as P'. cbn in P, P'.
  assert (length chain = length chain') as Elen.
  { apply Nat2Z.inj. rewrite <- (follows_index _ _ P), <- (follows_index _ _ P').
    apply to_be_u64_inj; [rewrite (follows_index _ _ P)|rewrite (follows_index _ _ P')|done];
      unfold in_u64; lia. }
  destruct chain as [|p chain _] using rev_ind.
  { destruct chain'; [|done]. cbn. by rewrite Eh. }
  destruct chain' as [|p' chain' _] using rev_ind; [rewrite length_app in Elen; cbn in Elen; lia|].
  assert (b_hash p = b_hash p') as Epar.
  { apply follows_parent in P, P'. rewrite P, P' in Ep.
    inversion Hv as [E|c0 s0 b0 ? _ A E]; [by destruct chain|]. apply app_inj_2 in E as [-> [= ->]]; [|done].
    inversion Hv' as [E|c1 s2 b1 ? _ A' E]; [by destruct chain'|]. apply app_inj_2 in E as [-> [= ->]]; [|done].
    destruct (accepted_hash _ _ _ _ A) as (x & _ & Hx), (accepted_hash _ _ _ _ A') as (x' & _ & Hx').
    rewrite Hx, Hx', !hex_decode_encode in Ep. rewrite Hx, Hx'. congruence. }
  destruct (IH _ _ p p' Hv') as [E1 E2]; [apply last_snoc|apply last_snoc|done|..].
  - lia.
  - lia.
  - eapply collision_free_sub; [|exact Hcf]. set_solver.
  - split; [by rewrite E1|]. rewrite fmap_app, E2, (fmap_app _ (_ ++ [_])). cbn. by rewrite Eh.
Qed.

(** ** Money supply *)

Context `{VL : !VmLaws V}.

(** The monetary policy in unbounded integers: the supply after [n] blocks that all
    claim their full reward, on top of a genesis allocation. *)
Fixpoint issuance (chain_id alloc : Z) (n : nat) : Z :=
  match n with
  | O => alloc
  | S m =>
      let supply := issuance chain_id alloc m in
      supply + (if is_regtest chain_id then 0
                else Z.max (halving_schedule (Z.of_nat n))
                       (supply * TAIL_RATE_NUMERATOR / (TAIL_RATE_DENOMINATOR * BLOCKS_PER_YEAR)))
  end.

Definition typed_block (block : Block) : Prop := Forall tx_ok (b_transactions block).

Lemma reward_le s block chain_id cap :
  in_range s → supply s ≤ cap →
  reward_of s block chain_id ≤
    if is_regtest chain_id then 0
    else Z.max (halving_schedule (b_index block))
           (cap * TAIL_RATE_NUMERATOR / (TAIL_RATE_DENOMINATOR * BLOCKS_PER_YEAR)).
Proof.
  intros Hi Hle. unfold reward_of, block_reward_at_height_for_chain, is_regtest.
  destruct (chain_id =? CHAIN_ID_REGTEST); [done|]. apply Z.max_le_compat_l.
  unfold calculate_tail_reward. rewrite total_supply_wrap. pose proof (supply_nonneg s Hi) as H0.
  pose proof (Z.mod_le (supply s) two64 H0 ltac:(lia)) as H1.
  pose proof (Z.mod_pos_bound (supply s) two64 ltac:(lia)) as H2.
  change (mul64 TAIL_RATE_DENOMINATOR BLOCKS_PER_YEAR) with (TAIL_RATE_DENOMINATOR * BLOCKS_PER_YEAR).
  apply Z.div_le_mono; [done|]. unfold mul64, wrap64.
  pose proof (Z.mod_le (supply s mod two64 * TAIL_RATE_NUMERATOR) two64) as H3.
  unfold TAIL_RATE_NUMERATOR in *. lia.
Qed.

Lemma apply_and_execute_effect s block view s' :
  wf s → typed_block block → apply_and_execute vm_wasm s block view = Ok s' →
  wf s' ∧ (b_index block = 0 → supply s' = supply s + allocation block) ∧
  (b_index block ≠ 0 → supply s' ≤ supply s + reward_of s block (vw_chain_id view)).
Proof.
  intros Hwf Hok H. unfold apply_and_execute in H.
  assert (∃ W (VW : VmExecutor W) (_ : VmLaws W) (w w' : option W),
    apply_block_inner s block (vw_chain_id view) w = Ok (s', w')) as (W & VW & LW & w & w' & E).
  { destruct vm_wasm.
    - unfold apply_block_with_vm in H.
      destruct (apply_block_inner s block _ _) as [[x y]| |] eqn:E; [|done..]. cbn in H. injection H as <-. by exists V, vm_executor, VL, (Some (seed_executor (vw_codes view))), y.
    - unfold apply_block in H. destruct (apply_block_inner s block _ _) as [[x y]| |] eqn:E; [|done..].
      cbn in H. injection H as <-. by exists NoVm, _, _, None, y. }
  destruct (apply_block_effect _ _ _ _ _ _ Hwf Hok E) as (Hw & H0 & H1).
  split_and!; [done..|]. intros Hne. destruct (H1 Hne) as (k & cb & _ & Hm & Hs & _). lia.
Qed.

Lemma wf_state_new : wf state_new.
Proof. split_and!; [apply map_Forall_empty..|]. split; apply map_Forall_empty. Qed.

Lemma valid_chain_supply R chain s :
  valid_chain R chain s → Forall typed_block chain →
  wf s ∧ (chain = [] → supply s = 0) ∧
  ∀ g, head chain = Some g → supply s ≤ issuance (rl_chain_id R) (allocation g) (length chain - 1).
Proof.
  induction 1 as [|chain s b s' Hv IH Ha]; intros Hty; [split_and!; [apply wf_state_new|done|done]|].
  apply Forall_app in Hty as [Hty Hb%Forall_inv]. destruct (IH Hty) as (Hw & H0 & Hs).
  destruct (apply_and_execute_effect _ _ _ _ Hw Hb (acc_apply _ _ _ _ _ Ha)) as (Hw' & E0 & E1).
  pose proof (follows_index _ _ (acc_position _ _ _ _ _ Ha)) as Hidx. cbn in Hidx.
  split_and!; [done|by destruct chain|]. intros g Hg. rewrite length_app. cbn [length].
  destruct chain as [|g' chain].
  - cbn in Hg. injection Hg as <-. cbn in Hidx |- *. rewrite (E0 Hidx), H0 by done. lia.
  - cbn in Hg. injection Hg as <-. specialize (Hs g' eq_refl). cbn [length] in Hs, Hidx |- *.
    replace (S (length chain) - 1)%nat with (length chain) in Hs by lia.
    replace (S (length chain) + 1 - 1)%nat with (S (length chain)) by lia. cbn [issuance].
    assert (b_index b ≠ 0) as Hne by lia. specialize (E1 Hne).
    pose proof (reward_le s b (rl_chain_id R) _ (proj1 (proj2 Hw)) Hs) as Hr. rewrite Hidx in Hr.
    cbn [vw_chain_id next_view view_at with_codes with_allow_zero_state_root with_phase view_new] in E1. lia.
Qed.

(** C11: Reconstruction computes validity: [rebuild_from_chain] succeeds exactly on the
    chains that build up block by block from the empty state, every block accepted
    under the rules of its own height, and returns the accounts, storage and last
    receipts of that run; a chain it accepted stays accepted, with the same result,
    at any later time. *)
Theorem rebuild_refines_valid_chain (R : Rules) (chain : list Block) (now : Z) :
  rl_now R ≤ now → clock_ok (rl_now R) → clock_ok now →
  (∀ c rs, rebuild_from_chain vm_wasm R chain = Ok (c, rs)
     ↔ ∃ s, valid_chain R chain s ∧ c = from_state s ∧ rs = receipts s)
  ∧ (∀ out, rebuild_from_chain vm_wasm R chain = Ok out →
       rebuild_from_chain vm_wasm (later R now) chain = Ok out).
Proof.
  intros Hle H H'. split; [intros; apply rebuild_iff|]. intros [c rs] (s & Hs & -> & ->)%rebuild_iff.
  apply rebuild_iff. exists s. split; [|done]. by apply valid_chain_later.
Qed.

(** C13: Integrity of accepted chains: block [k] has height [k], links to the hash of
    block [k-1] (64 zeroes for genesis), stores the hash of its own header, declares
    the version of its height, carries only transactions of the network that verify
    (the opt-in grant block apart), and beyond genesis meets its target, which is the
    one the schedule fixes. *)
Theorem accepted_chain_integrity `{B3ok : !Blake3Ok} (R : Rules) (chain : list Block) out (k : nat) (block : Block) :
  rebuild_from_chain vm_wasm R chain = Ok out → chain !! k = Some block →
  b_index block = Z.of_nat k
  ∧ Some (b_previous_hash block) =
      match k with O => Some zero_hash_string | S j => b_hash <$> chain !! j end
  ∧ b_consensus_version block = expected_version (rl_rules R) (Z.of_nat k)
  ∧ (rl_allow_grant_blocks R = false ∨ Z.of_nat k ≠ GRANT_BLOCK_INDEX →
       Forall (tx_valid (rl_chain_id R)) (b_transactions block))
  ∧ ∃ h, block_hash (E:=CoreError) block = Ok h ∧ b_hash block = hex_encode h
      ∧ (k ≠ O → valid_target (b_target block) ∧ from_be_bytes h ≤ target_val (b_target block)
                 ∧ scheduled_target (Z.of_nat k) (take k chain) (b_target block)).
Proof.
  intros Hr Hk. destruct out as [c rs]. apply rebuild_iff in Hr as (s & Hv & _ & _).
  destruct (valid_chain_lookup _ _ _ _ _ Hv Hk) as (t & t' & _ & Ha & _).
  pose proof (acc_position _ _ _ _ _ Ha) as Hp. pose proof (follows_index _ _ Hp) as Hidx.
  cbn [next_view view_at with_codes with_allow_zero_state_root with_phase view_new vw_chain] in Hp, Hidx.
  assert (length (take k chain) = k) as Hlen by (apply lookup_lt_Some in Hk; rewrite length_take; lia).
  rewrite Hlen in Hidx. destruct (accepted_hash _ _ _ _ Ha) as (bs & Hbs & Hh).
  split_and!; [done| | | |exists (blake3 bs); split_and!].
  - destruct k as [|j]; unfold follows in Hp; rewrite Hidx in Hp; cbn in Hp.
    + by destruct Hp as [_ ->].
    + destruct Hp as (p & Hl & _ & ->). rewrite last_lookup, Hlen in Hl. cbn in Hl.
      rewrite lookup_take in Hl. case_decide; [|done]. by rewrite Hl.
  - pose proof (acc_version _ _ _ _ _ Ha) as Hver. cbn in Hver. by rewrite Hlen in Hver.
  - pose proof (acc_txs _ _ _ _ _ Ha) as Htx. cbn in Htx. by rewrite Hidx in Htx.
  - unfold block_hash. by rewrite Hbs.
  - done.
  - intros Hk0. assert (0 < b_index block) as Hpos by (rewrite Hidx; destruct k; [done|lia]).
    pose proof (acc_pow _ _ _ _ _ Ha Hpos) as (h & Eh & Ht & Hle)%difficulty_iff.
    unfold block_hash in Eh. rewrite Hbs in Eh. injection Eh as <-. split_and!; [done..|].
    pose proof (acc_target _ _ _ _ _ Ha Hpos) as Hs. by rewrite Hidx in Hs.
Qed.

(** The tip hash commits to the whole chain: two chains accepted under any rules
    whose tips carry the same hash have the same height and the same encoded headers,
    block by block, unless two of those headers collide under the hash. *)
Theorem tip_hash_commits_to_chain `{HXok : !HexOk, B3ok : !Blake3Ok} (R R' : Rules)
    (chain chain' : list Block) out out' (tip tip' : Block) :
  rebuild_from_chain vm_wasm R chain = Ok out → rebuild_from_chain vm_wasm R' chain' = Ok out' →
  last chain = Some tip → last chain' = Some tip' → b_hash tip = b_hash tip' →
  Z.of_nat (length chain) ≤ two64 → Z.of_nat (length chain') ≤ two64 →
  collision_free_on (header_bytes chain ++ header_bytes chain') →
  length chain = length chain' ∧ header_bytes chain = header_bytes chain'
  ∧ b_hash <$> chain = b_hash <$> chain'.
Proof.
  destruct out as [c rs], out' as [c' rs']. intros (s & Hv & _)%rebuild_iff (s' & Hv' & _)%rebuild_iff Ht Ht' Eh Hl Hl' Hcf.
  destruct (tip_commits R R' chain chain' s s' tip tip') as [E1 E2]; [done..|]. split_and!; [|done..].
  apply (f_equal length) in E2. by rewrite !length_fmap in E2.
Qed.

(** C14: Monetary policy over whole chains: the accounts reconstructed from an accepted
    chain satisfy the state invariant and sum to at most what the emission schedule
    issues by that height on top of the genesis allocation; on regtest, where blocks
    mint nothing, to at most the genesis allocation. *)
Theorem chain_supply_bounded (R : Rules) (genesis : Block) (rest : list Block) c rs :
  rebuild_from_chain vm_wasm R (genesis :: rest) = Ok (c, rs) →
  Forall typed_block (genesis :: rest) →
  wf (to_state c) ∧
  supply (to_state c) ≤ issuance (rl_chain_id R) (allocation genesis) (length rest) ∧
  (is_regtest (rl_chain_id R) = true → supply (to_state c) ≤ allocation genesis).
Proof.
  intros (s & Hv & -> & _)%rebuild_iff Hty.
  destruct (valid_chain_supply _ _ _ Hv Hty) as (Hw & _ & Hs). specialize (Hs genesis eq_refl).
  cbn [length] in Hs. replace (S (length rest) - 1)%nat with (length rest) in Hs by lia.
  change (supply (to_state (from_state s))) with (supply s).
  split_and!; [done|done|]. intros Hreg. etransitivity; [exact Hs|].
  generalize (length rest). intros n. clear -Hreg. induction n as [|n IH]; cbn [issuance]; [done|].
  rewrite Hreg. lia.
Qed.

End ChainProps.
