(* ===== verification/NodeProps.v ===== *)
(** * Properties of the node

    A node is [consistent] at a time when its cache, code registry, total work and
    receipts are those its chain determines, and its pool is well formed.  Every
    operation preserves this; adoption and mining are shown to do what they promise. *)

From S2P Require Import Prelude Bytes U256 Abi Types Address Concrete Serialize SerializeProps Consensus ConsensusProps Emission SparseMerkle State StateViews StateStorage StateEquiv StateProps BlockProps Node Mempool Net MempoolProps Executor ExecutorProps StateCache ChainProps Chain.
Open Scope Z_scope.

Section NodeProps.
Context `{HX : Hex, B3 : Blake3, B32 : Bech32, SK : Secp256k1}.
Context `{VR : VmRuntime V} (vm_wasm : bool).

(** Everything the node keeps besides its chain is determined by the chain; its receipts
    are related by [P] to those of the tip, which may depend on the chain. *)
Record coherent (P : list Block → list Receipt → list Receipt → Prop) (now : Z) (bc : Blockchain) : Prop := {
  cons_state : ∃ s, valid_chain vm_wasm (bc_config bc now) (bc_chain bc) s
                 ∧ bc_balances bc = from_state s ∧ P (bc_chain bc) (bc_receipts bc) (receipts s);
  cons_codes : bc_codes bc = codes_from_chain (bc_chain bc) (bc_chain_id bc);
  cons_work : cumulative_work (E:=Node.StrangecoinError) (bc_chain bc) = Ok (bc_total_work bc);
  cons_pool : pool_ok (bc_mempool bc) ∧ mp_chain_id (bc_mempool bc) = bc_chain_id bc;
  cons_clock : clock_ok now
}.

(** The receipts are those of the tip. *)
Definition consistent : Z → Blockchain → Prop := coherent (λ _, eq).

Section Coherent.
Context (P : list Block → list Receipt → list Receipt → Prop) `{HP : !∀ chain, Reflexive (P chain)}.

Lemma coherent_later now now' bc :
  now ≤ now' → clock_ok now' → coherent P now bc → coherent P now' bc.
Proof.
  intros Hle Hok [(s & Hv & ? & ?) ? ? ? ?]. constructor; try done. exists s. split; [|done].
  by apply (valid_chain_later vm_wasm (bc_config bc now) (bc_chain bc) s now').
Qed.

(** ** Installing a block *)

(** The part of [install] that acceptance justifies. *)
Lemma install_coherent now bc block s' codes p bc' :
  coherent P now bc →
  accepted vm_wasm (to_state (bc_balances bc)) block (view_for bc now (b_index block)) s' →
  codes = collect_block_codes block (bc_chain_id bc) (bc_codes bc) →
  pool_ok p → mp_chain_id p = bc_chain_id bc →
  install bc block s' codes p = Ok bc' → coherent P now bc'.
Proof.
  intros [(s & Hv & Hb & Hr) Hc Hw _ Hclk] Ha -> Hp Hid H. unfold install in H.
  apply bind_ok_inv in H as (w & Ew & [= <-]).
  assert (b_index block = Z.of_nat (length (bc_chain bc))) as Hidx
    by (apply (follows_index block), (acc_position _ _ _ _ _ Ha)).
  unfold view_for in Ha. rewrite Hidx, Hc in Ha.
  assert (to_state (bc_balances bc) ≡ s) as He by (by rewrite Hb).
  destruct (accepted_equiv vm_wasm _ _ _ _ _ He Ha) as (t & Ht & [E1 E2] & E3).
  constructor; cbn [bc_balances bc_receipts bc_codes bc_chain bc_chain_id bc_total_work bc_mempool];
    [|by rewrite codes_from_chain_snoc, Hc|done|done|done].
  exists t. split_and!; [by econstructor|unfold commit, from_state; by rewrite E1, E2|by rewrite E3].
Qed.

Lemma drop_confirmed_ok p txs :
  pool_ok p → pool_ok (drop_confirmed p txs) ∧ mp_chain_id (drop_confirmed p txs) = mp_chain_id p.
Proof.
  revert p. induction txs as [|tx txs IH]; intros p Hp; [done|].
  change (drop_confirmed p (tx :: txs))
    with (drop_confirmed (if is_coinbase tx then p else mempool_remove p (txid tx)) txs).
  destruct (is_coinbase tx); [by apply IH|]. by destruct (IH _ (remove_ok p (txid tx) Hp)) as [? ->].
Qed.

Lemma commit_coherent now bc block bc' :
  coherent P now bc → commit_block vm_wasm bc now block = Ok bc' → coherent P now bc'.
Proof.
  intros Hc H. unfold commit_block in H. apply bind_ok_inv in H as (s' & Ha & H).
  apply validate_and_apply_ok in Ha. destruct (cons_pool _ _ _ Hc) as [Hp Hid].
  destruct (drop_confirmed_ok _ (b_transactions block) Hp) as [Hp' Hid'].
  eapply (install_coherent now bc block s' _ _ bc' Hc Ha eq_refl Hp'); [by rewrite Hid'|exact H].
Qed.

(** ** Genesis *)

Lemma genesis_coherent now bc bc' :
  bc_chain bc = [] → bc_codes bc = ∅ → clock_ok now →
  pool_ok (bc_mempool bc) → mp_chain_id (bc_mempool bc) = bc_chain_id bc →
  create_genesis_block vm_wasm bc now = Ok bc' → bc_chain bc' ≠ [] → coherent P now bc'.
Proof.
  intros Hch Hco Hclk Hp Hid H Hne. unfold create_genesis_block in H.
  apply bind_ok_inv in H as (root & _ & H). apply bind_ok_inv in H as (g & Hg & H).
  assert (b_transactions g = [tx_coinbase "genesis" "initial_wallet_address" 10000 (bc_chain_id bc)]
          ∧ b_index g = 0) as [Htx Hidx].
  { unfold seal in Hg. apply bind_ok_inv in Hg as (h & _ & [= <-]). done. }
  destruct (validate_and_apply _ _ g _) as [s'|e|] eqn:Ha; [|injection H as <-; done|done].
  apply validate_and_apply_ok in Ha. unfold install in H. apply bind_ok_inv in H as (w & Ew & [= <-]).
  rewrite Hch in *. constructor; cbn; [| |done|done|done].
  - exists s'. split_and!; [|done..]. apply (vc_snoc vm_wasm _ [] state_new g s'); [constructor|].
    destruct Ha. constructor; try done.
    unfold committed in *. destruct (decide (b_state_root g = zero32)); [by left|done].
  - rewrite Hco. unfold codes_from_chain, collect_block_codes. cbn. by rewrite Htx.
Qed.

(** ** Grant blocks *)

Lemma grant_coherent now now' bc wallet amount bc' :
  coherent P now' bc → create_grant_block vm_wasm bc now now' wallet amount = Ok bc' →
  coherent P now' bc'.
Proof.
  intros Hc H. unfold create_grant_block in H.
  apply bind_ok_inv in H as (p & _ & H). apply bind_ok_inv in H as (root & _ & H).
  destruct (apply_block _ _ _) as [post|e|]; [|by injection H as <-|done].
  apply bind_ok_inv in H as (g & Hg & H).
  assert (b_transactions g = [tx_coinbase "coinbase" wallet 0 (bc_chain_id bc);
            tx_transfer "initial_wallet_address" wallet amount 0 (bc_chain_id bc)]
          ∧ b_index g = add64 (b_index p) 1) as [Htx Hidx].
  { unfold seal in Hg. apply bind_ok_inv in Hg as (h & _ & [= <-]). done. }
  destruct (validate_and_apply _ _ g _) as [s'|e|] eqn:Ha; [|by injection H as <-|done].
  apply validate_and_apply_ok in Ha. rewrite <- Hidx in Ha. destruct (cons_pool _ _ _ Hc) as [Hp Hid].
  eapply (install_coherent now' bc g s'); [done|done| |done..|exact H].
  unfold collect_block_codes. by rewrite Htx.
Qed.

Lemma grant_first_coherent now now' bc wallet bc' b :
  coherent P now' bc → grant_initial_balance_to_first_wallet vm_wasm bc now now' wallet = Ok (bc', b) →
  coherent P now' bc'.
Proof.
  intros Hc H. unfold grant_initial_balance_to_first_wallet in H.
  repeat (case_match; try (injection H as <- _; done); try done).
  apply bind_ok_inv in H as (bc1 & H & [= <- _]). by eapply grant_coherent.
Qed.

(** ** Mining *)

Lemma mine_coherent fuel now now' now'' bc bc' b :
  coherent P now'' bc → mine_block vm_wasm bc fuel now now' now'' = Ok (bc', b) → coherent P now'' bc'.
Proof.
  intros Hc H. unfold mine_block in H. case_match; [by injection H as <- _|].
  apply bind_ok_inv in H as (p & _ & H). case_match; [by injection H as <- _|].
  apply bind_ok_inv in H as ([blk|] & _ & H); [|by injection H as <- _].
  destruct (commit_block _ _ _ _) as [bc1|e|] eqn:E; [|by injection H as <- _|done].
  injection H as <- _. by eapply commit_coherent.
Qed.

(** ** Transactions *)

Lemma with_mempool_coherent now bc p :
  coherent P now bc → pool_ok p → mp_chain_id p = bc_chain_id bc → coherent P now (with_mempool bc p).
Proof. intros [] ? ?. by constructor. Qed.

Lemma insert_chain_id p tx acc out p' :
  mempool_insert p tx acc = Ok (out, p') → mp_chain_id p' = mp_chain_id p.
Proof.
  intros H. apply insert_inv in H as (_ & _ & _ & _ & H).
  destruct (find_replaceable p tx); [by destruct H as (_ & _ & ->)|].
  destruct H as (_ & g & _ & ->). cbn [mp_chain_id store]. apply removes_chain.
Qed.

Lemma add_transaction_coherent json_len now bc tx out bc' :
  coherent P now bc → add_transaction json_len bc tx = Ok (out, bc') → coherent P now bc'.
Proof.
  intros Hc H. unfold add_transaction in H. case_match; [done|]. case_match; [done|].
  apply bind_ok_inv in H as ([o p] & Hi & [= _ <-]). destruct (cons_pool _ _ _ Hc) as [Hp Hid].
  apply with_mempool_coherent; [done|by eapply insert_ok|]. by rewrite (insert_chain_id _ _ _ _ _ Hi).
Qed.

(** ** Adoption *)

(** What the merge loop keeps: a good pool, without confirmed transactions. *)
Definition merged_ok (chain : list Block) (chain_id : Z) (acc : Mempool * list TxId) : Prop :=
  pool_ok acc.1 ∧ mp_chain_id acc.1 = chain_id ∧
  ∀ id tx, mp_txs acc.1 !! id = Some tx → chain_has_tx chain tx = false.

Lemma insert_new p tx acc out p' id x :
  mempool_insert p tx acc = Ok (out, p') → mp_txs p' !! id = Some x → x = tx ∨ mp_txs p !! id = Some x.
Proof.
  intros H Hx. apply insert_inv in H as (_ & _ & _ & _ & H).
  destruct (find_replaceable p tx) as [|c ids] eqn:E.
  - destruct H as (_ & _ & ->). cbn in Hx. apply lookup_insert_Some in Hx as [[_ <-]|[_ ?]]; auto.
  - destruct H as (_ & g & _ & ->). cbn [mp_txs store] in Hx.
    apply lookup_insert_Some in Hx as [[_ <-]|[_ Hx]]; [by left|]. right.
    rewrite removes_txs in Hx. by case_decide.
Qed.

Lemma merge_tx_ok chain chain_id rebuilt acc tx acc' :
  merged_ok chain chain_id acc → merge_tx chain rebuilt acc tx = Ok acc' → merged_ok chain chain_id acc'.
Proof.
  destruct acc as [p ids]. intros Hm H. unfold merge_tx in H. destruct (chain_has_tx chain tx) eqn:Ec; [by injection H as <-|].
  case_decide; [by injection H as <-|].
  destruct (mempool_insert p tx _) as [[o p']|e|] eqn:Hi; [|by injection H as <-|done].
  injection H as <-. destruct Hm as (Hp & Hid & Hn). split_and!; cbn.
  - by eapply insert_ok.
  - by rewrite (insert_chain_id _ _ _ _ _ Hi).
  - intros id x Hx. destruct (insert_new _ _ _ _ _ _ _ Hi Hx) as [->|?]; [done|]. by eapply Hn.
Qed.

Lemma merge_ok chain chain_id rebuilt txs acc acc' :
  merged_ok chain chain_id acc → foldM (merge_tx chain rebuilt) acc txs = Ok acc' →
  merged_ok chain chain_id acc'.
Proof. apply foldM_inv. intros. by eapply merge_tx_ok. Qed.

(** The two outcomes of an adoption attempt. *)
Lemma adopt_inv now bc chain wire txs diff bc' adopted :
  try_adopt_candidate vm_wasm bc now chain wire txs diff = Ok (bc', adopted) →
  if adopted then
    (1 < length chain)%nat ∧
    (∃ s, valid_chain vm_wasm (bc_config bc now) chain s ∧ bc_balances bc' = from_state s
       ∧ bc_receipts bc' = receipts s ∧ wire_agrees wire (from_state s) = true) ∧
    (∃ cand ours, chain_info (E:=Node.StrangecoinError) chain = Ok (Some cand)
       ∧ chain_info (E:=Node.StrangecoinError) (bc_chain bc) = Ok ours
       ∧ from_option (λ o, is_better cand o = true) True ours) ∧
    bc_chain bc' = chain ∧ bc_config bc' now = bc_config bc now ∧
    bc_codes bc' = codes_from_chain chain (bc_chain_id bc) ∧
    cumulative_work (E:=Node.StrangecoinError) chain = Ok (bc_total_work bc') ∧
    merged_ok chain (bc_chain_id bc) (bc_mempool bc', [])
  else bc' = bc.
Proof.
  intros H. unfold try_adopt_candidate in H.
  destruct (Nat.leb_spec (length chain) 1) as [|Hlen]; [by injection H as <- <-|].
  apply bind_ok_inv in H as ([cand|] & Ec & H); [|by injection H as <- <-].
  apply bind_ok_inv in H as (ours & Eo & H).
  match type of H with (if negb ?b then _ else _) = _ => destruct b eqn:Hbet end;
    cbn [negb] in H; [|by injection H as <- <-].
  destruct (rebuild_from_chain _ _ _) as [[rebuilt rs]|e|] eqn:Er; [|by injection H as <- <-|done].
  destruct (wire_agrees wire rebuilt) eqn:Hw; cbn [negb] in H; [|by injection H as <- <-].
  apply bind_ok_inv in H as ([p ids] & Hm & H). apply bind_ok_inv in H as (w & Ew & [= <- <-]).
  apply rebuild_iff in Er as (s & Hv & -> & ->). split_and!; [done|by exists s| |done|done|done|done|].
  - exists cand, ours. split_and!; [done..|]. by destruct ours.
  - assert (merged_ok chain (bc_chain_id bc) (mempool_new (bc_chain_id bc), [])) as H0.
    { split_and!; [apply pool_new_ok|done|done]. }
    destruct (merge_ok _ _ _ _ _ _ H0 Hm) as (? & ? & ?). by split_and!.
Qed.

Lemma adopt_coherent now bc chain wire txs diff bc' adopted :
  coherent P now bc → try_adopt_candidate vm_wasm bc now chain wire txs diff = Ok (bc', adopted) →
  coherent P now bc'.
Proof.
  intros Hc H%adopt_inv. destruct adopted; [|by subst].
  destruct H as (_ & (s & Hv & Hb & Hr & _) & _ & Hch & Hcfg & Hco & Hw & Hp & Hid & _).
  assert (bc_chain_id bc' = bc_chain_id bc) as Eid by (by injection Hcfg).
  constructor; rewrite ?Hch, ?Hcfg, ?Eid; try done; [|by destruct Hc].
  exists s. by rewrite Hr.
Qed.

(** ** Rebuilding the cache *)

Lemma rebuild_cache_coherent now bc bc' :
  coherent P now bc → rebuild_state_cache vm_wasm bc now = Ok bc' → coherent P now bc'.
Proof.
  intros [_ ? ? ? ?] H. unfold rebuild_state_cache in H. apply bind_ok_inv in H as ([c rs] & H & [= <-]).
  apply rebuild_iff in H as (s & Hv & -> & ->). constructor; try done. by exists s.
Qed.
End Coherent.

Lemma consistent_later now now' bc :
  now ≤ now' → clock_ok now' → consistent now bc → consistent now' bc.
Proof. apply coherent_later. Qed.
Lemma commit_consistent now bc block bc' :
  consistent now bc → commit_block vm_wasm bc now block = Ok bc' → consistent now bc'.
Proof. by apply commit_coherent. Qed.
Lemma add_transaction_consistent json_len now bc tx out bc' :
  consistent now bc → add_transaction json_len bc tx = Ok (out, bc') → consistent now bc'.
Proof. by apply add_transaction_coherent. Qed.
Lemma adopt_consistent now bc chain wire txs diff bc' adopted :
  consistent now bc → try_adopt_candidate vm_wasm bc now chain wire txs diff = Ok (bc', adopted) →
  consistent now bc'.
Proof. by apply adopt_coherent. Qed.

(** ** Reachable nodes *)

Inductive node_step (json_len : Transaction → Z) (now : Z) (bc bc' : Blockchain) : Prop :=
  | step_commit block : commit_block vm_wasm bc now block = Ok bc' → node_step json_len now bc bc'
  | step_mine fuel t t' mined :
      mine_block vm_wasm bc fuel t t' now = Ok (bc', mined) → node_step json_len now bc bc'
  | step_grant t wallet granted :
      grant_initial_balance_to_first_wallet vm_wasm bc t now wallet = Ok (bc', granted) →
      node_step json_len now bc bc'
  | step_tx tx outcome :
      add_transaction json_len bc tx = Ok (outcome, bc') → node_step json_len now bc bc'
  | step_adopt chain wire txs difficulty adopted :
      try_adopt_candidate vm_wasm bc now chain wire txs difficulty = Ok (bc', adopted) →
      node_step json_len now bc bc'
  | step_rebuild : rebuild_state_cache vm_wasm bc now = Ok bc' → node_step json_len now bc bc'.

(** A node opened on a fresh database, then driven by its operations in any order,
    the clock never running backwards. *)
Inductive node_reachable (json_len : Transaction → Z) (chain_id : Z) : Z → Blockchain → Prop :=
  | node_open now bc :
      clock_ok now → open_local vm_wasm chain_id now = Ok bc → bc_chain bc ≠ [] →
      node_reachable json_len chain_id now bc
  | node_next now now' bc bc' :
      node_reachable json_len chain_id now bc → now ≤ now' → clock_ok now' →
      node_step json_len now' bc bc' → node_reachable json_len chain_id now' bc'.

Lemma node_step_coherent P `{!∀ chain, Reflexive (P chain)} json_len now bc bc' :
  coherent P now bc → node_step json_len now bc bc' → coherent P now bc'.
Proof.
  intros Hc []; eauto using commit_coherent, mine_coherent, grant_first_coherent,
    add_transaction_coherent, adopt_coherent, rebuild_cache_coherent.
Qed.

Lemma reachable_consistent json_len chain_id now bc :
  node_reachable json_len chain_id now bc → consistent now bc.
Proof.
  induction 1 as [now bc Hclk Ho Hne|now now' bc bc' _ IH Hle Hclk Hs].
  - by apply (genesis_coherent (λ _, eq) now (local_empty chain_id)).
  - apply (node_step_coherent (λ _, eq) json_len now' bc); [|done]. by eapply consistent_later.
Qed.

(** ** Agreement *)

Lemma chain_info_wf chain info :
  chain_info (E:=Node.StrangecoinError) chain = Ok (Some info) → wf_info info.
Proof.
  unfold chain_info. destruct (last chain); [|done]. intros H. apply bind_ok_inv in H as (w & Hw & [= <-]).
  unfold wf_info. cbn. unfold cumulative_work in Hw.
  refine (foldM_inv wf256 _ _ _ _ _ wf256_zero Hw). intros total x total' _ Ht H.
  unfold add_work in H. apply bind_ok_inv in H as (arr & Ha & [= <-]).
  unfold target_array in Ha. apply bind_ok_inv in Ha as (tb & _ & Ha). case_decide as H32; [|done].
  injection Ha as <-. apply u256_add_spec; [done|]. by apply work_from_target_spec.
Qed.

(** C15: Adoption installs only better, fully validated chains: an attempt leaves the
    node untouched, or installs a chain that strictly precedes its own in fork
    choice, that reconstructs under the node's own rules, whose sent balances (if
    any) match, and after which the pool holds no confirmed transaction; either way
    the node stays consistent. *)
Theorem adoption_sound now bc chain wire txs difficulty bc' adopted :
  consistent now bc →
  try_adopt_candidate vm_wasm bc now chain wire txs difficulty = Ok (bc', adopted) →
  consistent now bc' ∧
  (adopted = false → bc' = bc) ∧
  (adopted = true → bc_chain bc' = chain
    ∧ (∃ out, rebuild_from_chain vm_wasm (bc_config bc now) chain = Ok out
         ∧ wire_agrees wire out.1 = true)
    ∧ (∃ cand ours, chain_info (E:=Node.StrangecoinError) chain = Ok (Some cand)
         ∧ chain_info (E:=Node.StrangecoinError) (bc_chain bc) = Ok ours
         ∧ from_option (better cand) True ours)
    ∧ ∀ id tx, mp_txs (bc_mempool bc') !! id = Some tx → chain_has_tx chain tx = false).
Proof.
  intros Hc H. split; [by eapply adopt_consistent|]. apply adopt_inv in H.
  destruct adopted; [|done]. split; [done|]. intros _.
  destruct H as (_ & (s & Hv & _ & _ & Hw) & (cand & ours & Ec & Eo & Hb) & Hch & _ & _ & _ & _ & _ & Hp).
  split_and!; [done| |exists cand, ours; split_and!; [done..|]|done].
  - exists (from_state s, receipts s). split; [|done]. apply rebuild_iff. by exists s.
  - destruct ours as [o|]; [|done]. cbn in Hb |- *.
    apply is_better_spec in Hb; [done|by eapply chain_info_wf|by eapply chain_info_wf].
Qed.

Lemma merge_no_panic chain chain_id rebuilt txs acc :
  merged_ok chain chain_id acc → ∃ acc', foldM (merge_tx chain rebuilt) acc txs = Ok acc'.
Proof.
  revert acc. induction txs as [|tx txs IH]; intros acc Hm; cbn [foldM]; [by exists acc|].
  assert (∃ a, merge_tx chain rebuilt acc tx = Ok a) as [a Ha].
  { destruct acc as [p ids]. unfold merge_tx. case_match; [by eexists|]. case_decide; [by eexists|].
    pose proof (insert_no_panic p tx (default account_default (cache_get rebuilt (sender tx))) (proj1 Hm)).
    destruct (mempool_insert p tx _) as [[? ?]| |]; [by eexists..|done]. }
  rewrite Ha. cbn [mbind result_bind]. apply IH. by eapply merge_tx_ok.
Qed.

(** An offer from a consistent node with the same rules is judged by fork choice alone. *)
Lemma adopt_offer now bc other txs difficulty info info' :
  consistent now bc → consistent now other → bc_config other now = bc_config bc now →
  (is_better info info' = true → 1 < length (bc_chain other))%nat →
  chain_info (E:=Node.StrangecoinError) (bc_chain other) = Ok (Some info) →
  chain_info (E:=Node.StrangecoinError) (bc_chain bc) = Ok (Some info') →
  ∃ bc', try_adopt_candidate vm_wasm bc now (bc_chain other) (Some (sc_accounts (bc_balances other)))
           txs difficulty = Ok (bc', is_better info info')
    ∧ bc_chain bc' = (if is_better info info' then bc_chain other else bc_chain bc)
    ∧ bc_balances bc' = (if is_better info info' then bc_balances other else bc_balances bc).
Proof.
  intros Hc [(s & Hv & Hb & Hr) _ Hw _ _] Hcfg Hlen Ei Ei'. unfold try_adopt_candidate.
  destruct (Nat.leb_spec (length (bc_chain other)) 1).
  { destruct (is_better info info'); [lia|by exists bc]. }
  rewrite Ei. cbn [mbind result_bind]. rewrite Ei'. cbn [mbind result_bind].
  destruct (is_better info info'); cbn [negb]; [|by exists bc].
  rewrite <- Hcfg, (proj2 (rebuild_iff vm_wasm _ _ (from_state s) (receipts s))) by (by exists s).
  assert (wire_agrees (Some (sc_accounts (bc_balances other))) (from_state s) = true) as ->.
  { cbn. rewrite Hb. apply orb_true_iff. right. by apply bool_decide_eq_true. }
  cbn [negb]. destruct (merge_no_panic (bc_chain other) (bc_chain_id bc) (from_state s)
    (txs ++ transactions (bc_mempool bc)) (mempool_new (bc_chain_id bc), [])) as [[p ids] ->].
  { split_and!; [apply pool_new_ok|done|done]. }
  cbn [mbind result_bind]. rewrite Hw. cbn [mbind result_bind]. eexists. split; [done|].
  split; [done|]. by rewrite Hb.
Qed.

(** C16: Nodes converge: when two consistent nodes with the same rules hold chains that
    fork choice tells apart, the preferred one longer than its genesis, and each is
    offered the other's chain with its balances, neither attempt fails, exactly one of
    them switches, and both end on the same chain with the same accounts and storage.
    The other node may still be at its genesis; two nodes with nothing but different
    genesis blocks keep them, as a candidate of one block is never adopted. *)
Theorem nodes_converge now n1 n2 i1 i2 txs1 txs2 :
  consistent now n1 → consistent now n2 → bc_config n1 now = bc_config n2 now →
  chain_info (E:=Node.StrangecoinError) (bc_chain n1) = Ok (Some i1) →
  chain_info (E:=Node.StrangecoinError) (bc_chain n2) = Ok (Some i2) →
  chain_key i1 ≠ chain_key i2 →
  (better i1 i2 → 1 < length (bc_chain n1))%nat → (better i2 i1 → 1 < length (bc_chain n2))%nat →
  ∃ n1' n2' b, try_adopt_candidate vm_wasm n1 now (bc_chain n2) (Some (sc_accounts (bc_balances n2)))
                 txs1 (bc_difficulty n2) = Ok (n1', b)
    ∧ try_adopt_candidate vm_wasm n2 now (bc_chain n1) (Some (sc_accounts (bc_balances n1)))
        txs2 (bc_difficulty n1) = Ok (n2', negb b)
    ∧ bc_chain n1' = bc_chain n2' ∧ bc_balances n1' = bc_balances n2'.
Proof.
  intros H1 H2 Hcfg E1 E2 Hne L1 L2.
  pose proof (chain_info_wf _ _ E1) as W1. pose proof (chain_info_wf _ _ E2) as W2.
  assert (is_better i1 i2 = negb (is_better i2 i1)) as Hneg.
  { pose proof (is_better_spec i1 i2 W1 W2) as S1. pose proof (is_better_spec i2 i1 W2 W1) as S2.
    destruct (is_better i1 i2), (is_better i2 i1); try done.
    - destruct (better_irrefl i1). apply (better_trans _ i2); [by apply S1|by apply S2].
    - destruct (better_total i1 i2 W1 W2) as [B|[B|B]]; [by apply S1 in B|by apply S2 in B|done]. }
  pose proof (is_better_spec i1 i2 W1 W2) as S1. pose proof (is_better_spec i2 i1 W2 W1) as S2.
  destruct (adopt_offer now n1 n2 txs1 (bc_difficulty n2) i2 i1) as (n1' & A1 & C1 & B1); [done|done|done|tauto|done..|].
  destruct (adopt_offer now n2 n1 txs2 (bc_difficulty n1) i1 i2) as (n2' & A2 & C2 & B2); [done|done|done|tauto|done..|].
  rewrite Hneg in A2, C2, B2. exists n1', n2', (is_better i2 i1). split_and!; [done|done|..].
  - rewrite C1, C2. by destruct (is_better i2 i1).
  - rewrite B1, B2. by destruct (is_better i2 i1).
Qed.

End NodeProps.
