(* ===== verification/MiningProps.v ===== *)
(** * Properties of mining

    The nonce search finds the first nonce that meets the target, and the block a
    node seals is one its own validation accepts. *)

From S2P Require Import Prelude Bytes U256 Abi Types Address Concrete Serialize SerializeProps Consensus ConsensusProps Emission SparseMerkle State StateViews StateStorage StateEquiv StateProps BlockProps Node Mempool Net MempoolProps Executor ExecutorProps StateCache ChainProps Chain NodeProps.
Open Scope Z_scope.

Section MiningProps.
Context `{HX : Hex, B3 : Blake3, B32 : Bech32, SK : Secp256k1}.
Context `{HXok : !HexOk, B3ok : !Blake3Ok}.
Context `{VR : VmRuntime V} (vm_wasm : bool).

(** ** The nonce search *)

(** The header is encodable: both hash fields are 32 bytes of hex. *)
Definition encodable (block : Block) : Prop :=
  valid_target (b_previous_hash block) ∧ valid_target (b_target block).
#[export] Instance encodable_dec block : Decision (encodable block).
Proof. unfold encodable, valid_target. destruct (hex_decode _), (hex_decode _); apply _. Defined.

(** The block after [i] increments of its nonce. *)
Definition try_nonce (block : Block) (i : nat) : Block :=
  set_pow_nonce block (wrap64 (b_nonce block + Z.of_nat i)).

Definition header_digest (block : Block) : list byte :=
  match block_hash (E:=CoreError) block with Ok h => h | _ => [] end.

(** Nonce [i] of the search meets the target. *)
Definition meets (target : Z) (block : Block) (i : nat) : Prop :=
  from_be_bytes (header_digest (try_nonce block i)) ≤ target.
#[export] Instance meets_dec target block i : Decision (meets target block i).
Proof. unfold meets. apply _. Defined.

Definition sealed (block : Block) : Block := set_hash block (hex_encode (header_digest block)).

Lemma valid_target_bytes {E} s : valid_target s → ∃ b, write_bytes32 (E:=E) s = Ok b.
Proof.
  unfold valid_target, write_bytes32. destruct (hex_decode s) as [b|]; [|done]. intros H.
  exists b. cbn. by rewrite decide_True.
Qed.

Lemma encodable_hash {E} block :
  encodable block → block_hash (E:=E) block = Ok (header_digest block) ∧ is32 (header_digest block).
Proof.
  intros [Hp Ht]. unfold header_digest, block_hash, serialize_block_header, serialize_header.
  cbn [header h_previous_hash h_target].
  unfold valid_target, write_bytes32 in *.
  destruct (hex_decode (b_previous_hash block)) as [p|]; [|done].
  destruct (hex_decode (b_target block)) as [t|]; [|done].
  cbn [expect mbind result_bind]. rewrite !decide_True by done. cbn. split; [done|]. apply blake3_length.
Qed.

Lemma seal_ok {E} block : encodable block → seal (E:=E) block = Ok (sealed block).
Proof. intros H. unfold seal, calculate_hash. by rewrite (proj1 (encodable_hash block H)). Qed.

Lemma encodable_nonce block n : encodable block → encodable (set_pow_nonce block n).
Proof. done. Qed.

Lemma pow_step fuel target block :
  encodable block → wf256 target →
  pow_loop (S fuel) target block
  = if from_be_bytes (header_digest block) <=? limbs_val target
    then Ok (Some (sealed block))
    else pow_loop fuel target (set_pow_nonce block (add64 (b_nonce block) 1)).
Proof.
  intros He Ht. cbn [pow_loop]. unfold calculate_hash.
  destruct (encodable_hash (E:=Node.StrangecoinError) block He) as [-> H32]. cbn [fmap result_fmap mbind result_bind].
  unfold target_array. rewrite hex_decode_encode. cbn [expect mbind result_bind].
  rewrite decide_True by done. cbn [mbind result_bind].
  destruct (u256_from_bytes_spec _ H32) as [Wh Vh]. rewrite u256_le_spec, Vh by done.
  done.
Qed.

Lemma try_nonce_next block i :
  in_u64 (b_nonce block) →
  try_nonce (set_pow_nonce block (add64 (b_nonce block) 1)) i = try_nonce block (S i).
Proof.
  intros H. unfold try_nonce, set_pow_nonce. cbn. f_equal. unfold add64, wrap64.
  rewrite Zplus_mod_idemp_l. f_equal. lia.
Qed.

Lemma try_nonce_0 block : in_u64 (b_nonce block) → try_nonce block 0 = block.
Proof.
  intros H. unfold try_nonce. rewrite Z.add_0_r, wrap64_small by done. by destruct block.
Qed.

(** C18: The proof-of-work search is exact: on an encodable header it never panics, and
    it returns the block sealed at the first of the [fuel] nonces it may try whose
    header hash meets the target, or nothing when none of them does; so it finds a
    block whenever one exists within the nonces it is allowed. *)
Theorem pow_search_first (fuel : nat) (target : list byte) (block : Block) :
  encodable block → is32 target → in_u64 (b_nonce block) →
  match pow_loop fuel (u256_from_bytes target) block with
  | Ok (Some b) => ∃ i, (i < fuel)%nat ∧ b = sealed (try_nonce block i)
      ∧ meets (from_be_bytes target) block i
      ∧ ∀ j, (j < i)%nat → ¬ meets (from_be_bytes target) block j
  | Ok None => ∀ j, (j < fuel)%nat → ¬ meets (from_be_bytes target) block j
  | _ => False
  end.
Proof.
  intros He Ht. destruct (u256_from_bytes_spec _ Ht) as [Wt Vt]. revert block He.
  induction fuel as [|fuel IH]; intros block He Hn; [cbn; lia|].
  assert (meets (from_be_bytes target) block 0 ↔ from_be_bytes (header_digest block) ≤ from_be_bytes target) as H0
    by (unfold meets; by rewrite try_nonce_0).
  rewrite pow_step, Vt by done.
  destruct (Z.leb_spec (from_be_bytes (header_digest block)) (from_be_bytes target)) as [Hd|Hd].
  - exists 0%nat. rewrite try_nonce_0 by done. split_and!; [lia|done|by apply H0|lia].
  - pose proof (IH _ (encodable_nonce _ (add64 (b_nonce block) 1) He) (wrap64_range _)) as Hs.
    destruct (pow_loop fuel _ _) as [[b|]|e|]; [| |done..].
    + destruct Hs as (i & Hi & -> & Hm & Hmin). exists (S i). unfold meets in *.
      rewrite try_nonce_next in * by done. split_and!; [lia|done|done|].
      intros [|j] Hj; [rewrite H0; lia|]. rewrite <- try_nonce_next by done. apply Hmin. lia.
    + intros [|j] Hj; [rewrite H0; lia|]. unfold meets in *. rewrite <- try_nonce_next by done. apply Hs. lia.
Qed.

(** ** Execution does not see the seal *)

Definition with_header (ctx : ExecutionContext) (h : BlockHeader) : ExecutionContext := {|
  cx_block := h; cx_accounts := cx_accounts ctx; cx_caller := cx_caller ctx;
  cx_callee := cx_callee ctx; cx_value := cx_value ctx; cx_gas_limit := cx_gas_limit ctx;
  cx_gas_used := cx_gas_used ctx; cx_depth := cx_depth ctx; cx_reentrant := cx_reentrant ctx;
  cx_read_only := cx_read_only ctx; cx_block_context := cx_block_context ctx;
  cx_storage := cx_storage ctx; cx_storage_overlay := cx_storage_overlay ctx;
  cx_storage_address := cx_storage_address ctx; cx_input := cx_input ctx |}.

(** Contracts learn about the block through [BlockContext] only: the executor never
    reads the header view of a frame. *)
Class HeaderBlind (W : Type) `{VmExecutor W} : Prop := {
  execute_blind : ∀ vm ctx h, execute vm (with_header ctx h) = execute vm ctx;
  constructor_blind : ∀ vm ctx h, execute_constructor vm (with_header ctx h) = execute_constructor vm ctx
}.

(** Blocks that differ at most in links, seal and commitments. *)
Definition same_body (b b' : Block) : Prop :=
  b_index b = b_index b' ∧ b_timestamp b = b_timestamp b' ∧ b_transactions b = b_transactions b'.

Section Blind.
Context `{VM : VmExecutor W} `{HB : !HeaderBlind W}.

Lemma make_context_blind s b b' caller callee v g i :
  same_body b b' →
  make_context s b caller callee v g i = with_header (make_context s b' caller callee v g i) (header b).
Proof.
  intros (Hi & Ht & Htx). unfold make_context, with_header, find_coinbase_receiver. cbn.
  by rewrite Hi, Ht, Htx.
Qed.

Lemma apply_tx_blind chain_id b b' (w : @Work W) itx :
  same_body b b' → apply_tx b chain_id w itx = apply_tx b' chain_id w itx.
Proof.
  intros Hb. pose proof Hb as (Hi & _ & _). destruct w as [[s vm] rs], itx as [i tx]. unfold apply_tx.
  destruct (is_coinbase tx); [done|]. unfold transfer_receipt.
  destruct tx as [t|c|c]; [by rewrite Hi|..]; (destruct vm as [vm|]; [|done]).
  - unfold apply_create. rewrite Hi.
    destruct (derive_contract_address _ _ _) as [a| |]; cbn [mbind result_bind]; [|done..].
    destruct (bool_decide _); [done|]. destruct (_ <? _); [done|].
    destruct (map_err _ _) as [vm'| |]; cbn [mbind result_bind]; [|done..].
    by rewrite (make_context_blind _ b b') , constructor_blind by done.
  - unfold apply_call. rewrite Hi. destruct (_ <? _); [done|]. destruct (negb _); [done|].
    by rewrite (make_context_blind _ b b'), execute_blind by done.
Qed.

Lemma apply_genesis_tx_blind chain_id b b' (w : @Work W) itx :
  same_body b b' → apply_genesis_tx b chain_id w itx = apply_genesis_tx b' chain_id w itx.
Proof.
  intros (Hi & _ & _). destruct w as [[s vm] rs], itx as [i tx]. unfold apply_genesis_tx, transfer_receipt.
  by rewrite Hi.
Qed.

Lemma apply_block_blind s b b' chain_id (vm : option W) :
  same_body b b' → apply_block_inner s b chain_id vm = apply_block_inner s b' chain_id vm.
Proof.
  intros Hb. pose proof Hb as (Hi & _ & Htx).
  unfold apply_block_inner, apply_genesis, apply_non_genesis, transfer_receipt. rewrite Hi, Htx.
  assert (∀ (w : @Work W) l, foldM (apply_tx b chain_id) w l = foldM (apply_tx b' chain_id) w l) as E1
    by (intros; apply foldM_ext; intros; by apply apply_tx_blind).
  assert (∀ (w : @Work W) l, foldM (apply_genesis_tx b chain_id) w l = foldM (apply_genesis_tx b' chain_id) w l) as E2
    by (intros; apply foldM_ext; intros; by apply apply_genesis_tx_blind).
  destruct (_ =? 0); [by rewrite E2|].
  destruct (foldM _ tt _) as [[]| |]; cbn [mbind result_bind]; [|done..].
  destruct (ok_or _ _) as [[k cb]| |]; cbn [mbind result_bind]; [|done..].
  destruct cb as [cb|?|?]; cbn [mbind result_bind]; [|done..]. destruct (_ <? _); [done|].
  destruct (credit_receiver _ _) as [s1| |]; cbn [mbind result_bind]; [|done..]. by rewrite E1.
Qed.

End Blind.

(** ** Own blocks are accepted *)

Lemma pow_loop_found fuel target block b :
  encodable block → wf256 target → in_u64 (b_nonce block) →
  pow_loop fuel target block = Ok (Some b) →
  ∃ n, b = sealed (set_pow_nonce block n)
    ∧ from_be_bytes (header_digest (set_pow_nonce block n)) ≤ limbs_val target.
Proof.
  intros He Hw Hn H. revert block He Hn H. induction fuel as [|fuel IH]; intros block He Hn H; [done|].
  rewrite pow_step in H by done.
  destruct (Z.leb_spec (from_be_bytes (header_digest block)) (limbs_val target)) as [Hd|Hd].
  - injection H as <-. exists (b_nonce block). by destruct block.
  - destruct (IH _ (encodable_nonce _ _ He) (wrap64_range _) H) as (n & -> & Hm). by exists n.
Qed.

(** What sealing does not establish: limits, signatures, clock. *)
Record mineable (bc : Blockchain) (now : Z) (block : Block) : Prop := {
  mi_size : ∀ bytes, serialize_block (E:=Node.StrangecoinError) block = Ok bytes →
              Z.of_nat (length bytes) ≤ MAX_BLOCK_SIZE;
  mi_tx_sizes : Forall (λ tx, signed_len tx ≤ MAX_TX_SIZE) (b_transactions block);
  mi_txs : Forall (tx_valid (bc_chain_id bc)) (b_transactions block);
  mi_gas : sum64 (reserved_gas <$> b_transactions block) ≤ BLOCK_GAS_LIMIT;
  mi_gas_used : ∀ s', apply_and_execute vm_wasm (to_state (bc_balances bc)) block
                        (view_for bc now (b_index block)) = Ok s' →
                  sum64 (rc_gas_used <$> receipts s') ≤ BLOCK_GAS_LIMIT;
  mi_roots : b_state_root block ≠ zero32 ∧ b_receipts_root block ≠ zero32;
  mi_phase : phase_at (bc_rules bc) (b_index block) = Pow;
  mi_time : b_timestamp block ≤ add64 now MAX_FUTURE_TIME
            ∧ ∀ m, median_time_past (E:=CoreError) (bc_chain bc) (b_index block) = Ok m → m < u64_max
}.

Lemma merkle_loop_E {E E'} fuel l h : merkle_loop (E:=E) fuel l = Ok h → merkle_loop (E:=E') fuel l = Ok h.
Proof.
  revert l. induction fuel as [|fuel IH]; intros [|a [|b l]]; cbn [merkle_loop];
    try (by intros [= <-]); try done. apply IH.
Qed.

Lemma compute_tx_root_E {E E'} txs h : compute_tx_root (E:=E) txs = Ok h → compute_tx_root (E:=E') txs = Ok h.
Proof.
  unfold compute_tx_root, merkle_root. destruct txs as [|a [|b txs]]; cbn [fmap list_fmap].
  1,2: by intros [= <-].
  apply merkle_loop_E.
Qed.

Lemma median_E {E E'} blocks h m :
  median_time_past (E:=E) blocks h = Ok m → median_time_past (E:=E') blocks h = Ok m.
Proof.
  unfold median_time_past. destruct (h =? 0); [intros [= <-]; done|]. case_decide; [done|].
  unfold expect. by destruct (_ !! _); [intros [= <-]|].
Qed.

Lemma apply_and_execute_blind `{HB : !HeaderBlind V} s b b' view view' :
  same_body b b' → vw_chain_id view = vw_chain_id view' → vw_codes view = vw_codes view' →
  apply_and_execute vm_wasm s b view = apply_and_execute vm_wasm s b' view'.
Proof.
  intros Hb Hid Hco. unfold apply_and_execute, apply_block_with_vm, apply_block. rewrite Hid, Hco.
  assert (HeaderBlind NoVm) as HN by (by split).
  destruct vm_wasm; by rewrite (apply_block_blind s b b').
Qed.

(** The assembled block and the state it was executed to. *)
Lemma candidate_inv bc now now' prev txs c :
  candidate_block vm_wasm bc now now' prev txs = Ok (Some c) →
  b_index c = add64 (b_index prev) 1 ∧ b_transactions c = txs ∧ b_previous_hash c = b_hash prev ∧
  b_nonce c = 0 ∧ b_consensus_version c = expected_version (bc_rules bc) (b_index c) ∧
  compute_tx_root (E:=CoreError) (b_transactions c) = Ok (b_tx_root c) ∧
  (∃ m, median_time_past (E:=CoreError) (bc_chain bc) (b_index c) = Ok m
     ∧ b_timestamp c = Z.max now (add64 m 1)) ∧
  (if b_index c mod RETARGET_INTERVAL =? 0
   then hex_encode <$> compute_target (E:=Node.StrangecoinError) (bc_chain bc) = Ok (b_target c)
   else b_target c = b_target prev) ∧
  ∃ b0 post, same_body b0 c
    ∧ apply_and_execute vm_wasm (to_state (bc_balances bc)) b0 (view_for bc now' (b_index c)) = Ok post
    ∧ b_state_root c = compute_state_root (balances post)
    ∧ b_receipts_root c = receipts_root (receipts post).
Proof.
  intros H. unfold candidate_block in H.
  apply bind_ok_inv in H as (m & Hm & H). apply bind_ok_inv in H as (target & Ht & H).
  apply bind_ok_inv in H as (root & Hr & H).
  destruct (apply_and_execute _ _ _ _) as [post|e|] eqn:Ha; [|done..]. apply ok_inj in H. injection H as <-.
  cbn. split_and!; [done..|by eapply compute_tx_root_E| | |].
  - exists m. split; [by eapply median_E|done].
  - destruct (_ =? 0); [done|]. by injection Ht.
  - eexists _, post. by split_and!; [|exact Ha|..].
Qed.

Lemma tip_facts R chain s prev :
  valid_chain vm_wasm R chain s → last chain = Some prev →
  b_index prev = Z.of_nat (length chain) - 1 ∧ ∃ h, is32 h ∧ b_hash prev = hex_encode h.
Proof.
  intros Hv Hl. destruct Hv as [|chain s b s' Hv Ha]; [done|].
  rewrite last_snoc in Hl. injection Hl as <-. rewrite length_app. cbn [length].
  rewrite (follows_index _ _ (acc_position _ _ _ _ _ Ha)). split; [cbn; lia|].
  destruct (accepted_hash _ _ _ _ _ Ha) as (bs & _ & ->). exists (blake3 bs). split; [apply blake3_length|done].
Qed.

(** The block that comes out of the search. *)
Lemma mine_inv bc fuel now now' prev txs block h :
  is32 h → b_hash prev = hex_encode h →
  mine_block_inner vm_wasm bc fuel now now' prev txs = Ok (Some block) →
  ∃ c n, candidate_block vm_wasm bc now now' prev txs = Ok (Some c)
    ∧ encodable c ∧ block = sealed (set_pow_nonce c n)
    ∧ from_be_bytes (header_digest (set_pow_nonce c n)) ≤ target_val (b_target c).
Proof.
  intros H32 Hh H. unfold mine_block_inner in H. apply bind_ok_inv in H as ([c|] & Hc & H); [|done].
  apply bind_ok_inv in H as (tb & Ht & H).
  destruct (candidate_inv _ _ _ _ _ _ Hc) as (_ & _ & Hp & Hn & _).
  unfold target_array in Ht. apply bind_ok_inv in Ht as (tb' & Hd & Ht).
  case_decide as Htb; [|done]. injection Ht as ->.
  assert (hex_decode (b_target c) = Some tb) as Hd' by (unfold expect in Hd; by destruct (hex_decode (b_target c)); inv_result).
  assert (encodable c) as He.
  { unfold encodable, valid_target. rewrite Hp, Hh, hex_decode_encode, Hd'. done. }
  destruct (u256_from_bytes_spec _ Htb) as [Wt Vt].
  destruct (pow_loop_found _ _ _ _ He Wt ltac:(by rewrite Hn) H) as (n & -> & Hm).
  exists c, n. split_and!; [done..|]. unfold target_val. rewrite Hd', <- Vt. done.
Qed.

Lemma sealed_digest c n : header_digest (sealed (set_pow_nonce c n)) = header_digest (set_pow_nonce c n).
Proof. done. Qed.

Lemma mined_accepted `{HB : !HeaderBlind V} bc now now' now'' prev txs c n s :
  valid_chain vm_wasm (bc_config bc now'') (bc_chain bc) s → last (bc_chain bc) = Some prev →
  Z.of_nat (length (bc_chain bc)) < two64 →
  candidate_block vm_wasm bc now now' prev txs = Ok (Some c) → encodable c →
  from_be_bytes (header_digest (set_pow_nonce c n)) ≤ target_val (b_target c) →
  mineable bc now'' (sealed (set_pow_nonce c n)) →
  ∃ post, accepted vm_wasm (to_state (bc_balances bc)) (sealed (set_pow_nonce c n))
            (view_for bc now'' (b_index c)) post.
Proof.
  intros Hv Hl Hlen Hc He Hpow Hmi. set (b := sealed (set_pow_nonce c n)) in *.
  destruct (tip_facts _ _ _ _ Hv Hl) as (Hidx & _).
  destruct (candidate_inv _ _ _ _ _ _ Hc) as (Ei & Etx & Ep & _ & Ev & Er & (m & Em & Ets) & Et & b0 & post & Hb0 & Ha & Es & Erc).
  assert (0 < Z.of_nat (length (bc_chain bc))) as Hpos by (destruct (bc_chain bc); [done|cbn; lia]).
  assert (b_index c = Z.of_nat (length (bc_chain bc))) as Eidx.
  { rewrite Ei, Hidx. unfold add64. rewrite wrap64_small; unfold in_u64; lia. }
  destruct Hmi as [M1 M2 M3 M4 M5 [M6 M7] M8 [M9 M10]]. specialize (M10 m Em).
  change (b_timestamp b) with (b_timestamp c) in M9.
  assert (apply_and_execute vm_wasm (to_state (bc_balances bc)) b (view_for bc now'' (b_index c)) = Ok post) as Hex.
  { rewrite <- Ha. apply apply_and_execute_blind; [|done..]. destruct Hb0 as (? & ? & ?). by split_and!. }
  exists post. constructor; try done.
  - unfold serialize_block. destruct (encodable_hash (E:=Node.StrangecoinError) b He) as [Hb _].
    unfold block_hash in Hb. destruct (serialize_block_header b) as [hd| |] eqn:Ehd; [|done..].
    cbn [mbind result_bind]. eexists. split; [done|]. apply M1. unfold serialize_block. by rewrite Ehd.
  - unfold follows. cbn. rewrite Eidx. destruct (Z.eqb_spec (Z.of_nat (length (bc_chain bc))) 0); [lia|].
    exists prev. by rewrite Ep.
  - destruct (encodable_hash (E:=Node.StrangecoinError) b He) as [-> _]. done.
  - unfold validate_timestamp. cbn. rewrite Eidx in *.
    destruct (Z.eqb_spec (Z.of_nat (length (bc_chain bc))) 0); [lia|]. rewrite Em. cbn [mbind result_bind].
    assert (0 ≤ m ∨ m < 0) as [Hm0|Hm0] by lia.
    + unfold add64 in Ets. rewrite wrap64_small in Ets by (unfold in_u64; lia).
      destruct (Z.leb_spec (b_timestamp c) m); [lia|].
      destruct (Z.ltb_spec (add64 now'' MAX_FUTURE_TIME) (b_timestamp c)); [lia|done].
    + pose proof (wrap64_range (m + 1)) as [? ?]. unfold add64 in Ets.
      destruct (Z.leb_spec (b_timestamp c) m); [lia|].
      destruct (Z.ltb_spec (add64 now'' MAX_FUTURE_TIME) (b_timestamp c)); [lia|done].
  - intros _. apply difficulty_iff. exists (header_digest b).
    split_and!; [by apply encodable_hash|by destruct He|done].
  - intros _. cbn. unfold scheduled_target. destruct (_ =? 0).
    + destruct (compute_target (bc_chain bc)) as [tg| |]; [|done..]. exists tg. split; [done|]. by injection Et.
    + rewrite Hl, Et. done.
  - by apply M5.
  - unfold committed. rewrite decide_False by done. done.
  - unfold committed. rewrite decide_False by done. done.
Qed.

(** C17: A node accepts the blocks it mines: a block sealed on top of a consistent
    node's tip in the proof-of-work phase (the only one any network is in), within the
    size, gas and clock limits, with roots other than the all-zero word and carrying
    transactions that verify, is committed by that node (at the tip it was mined on),
    which stays consistent; header hash, links, version, roots, target and work come out right by
    construction. *)
Theorem mined_block_accepted `{HB : !HeaderBlind V} bc fuel now now' now'' prev txs block :
  consistent vm_wasm now'' bc → last (bc_chain bc) = Some prev →
  Z.of_nat (length (bc_chain bc)) < two64 →
  mine_block_inner vm_wasm bc fuel now now' prev txs = Ok (Some block) →
  mineable bc now'' block →
  ∃ bc', commit_block vm_wasm bc now'' block = Ok bc'
    ∧ bc_chain bc' = bc_chain bc ++ [block] ∧ b_transactions block = txs ∧ consistent vm_wasm now'' bc'.
Proof.
  intros Hc Hl Hlen Hm Hmi. destruct (cons_state _ _ _ _ Hc) as (s & Hv & _).
  destruct (tip_facts _ _ _ _ Hv Hl) as (_ & h & H32 & Hh).
  destruct (mine_inv _ _ _ _ _ _ _ _ H32 Hh Hm) as (c & n & Hcand & He & -> & Hpow).
  destruct (mined_accepted bc now now' now'' prev txs c n s Hv Hl Hlen Hcand He Hpow Hmi) as [post Ha].
  assert (∃ w, cumulative_work (E:=Node.StrangecoinError) (bc_chain bc ++ [sealed (set_pow_nonce c n)]) = Ok w) as [w Hw].
  { unfold cumulative_work. rewrite foldM_app. fold (cumulative_work (E:=Node.StrangecoinError) (bc_chain bc)).
    rewrite (cons_work _ _ _ _ Hc). cbn [mbind result_bind foldM].
    destruct (target_array_ok (E:=Node.StrangecoinError) (b_target c) (proj2 He)) as (tb & Etb & _).
    unfold add_work. cbn. rewrite Etb. by eexists. }
  assert (∃ bc', commit_block vm_wasm bc now'' (sealed (set_pow_nonce c n)) = Ok bc'
    ∧ bc_chain bc' = bc_chain bc ++ [sealed (set_pow_nonce c n)]) as (bc' & Hcb & Hch).
  { apply validate_and_apply_ok in Ha. unfold commit_block.
    change (b_index (sealed (set_pow_nonce c n))) with (b_index c). rewrite Ha. cbn [mbind result_bind].
    unfold install. rewrite Hw. cbn [mbind result_bind]. by eexists. }
  exists bc'. split_and!; [done..| |by eapply commit_consistent].
  by destruct (candidate_inv _ _ _ _ _ _ Hcand) as (_ & ? & _).
Qed.

End MiningProps.
