(* ===== verification/ChainWitness.v ===== *)
(** * The chain theorems on a concrete node

    A regtest node is opened, grants its genesis balance to a first wallet and mines
    a block, with the stand-ins of [Concrete] for the external crates; a second node
    grants to another wallet, so that the two disagree. *)

From S2P Require Import Prelude Bytes U256 Abi Types Address Concrete Serialize SerializeProps Consensus ConsensusProps Emission SparseMerkle State StateViews StateStorage StateEquiv StateProps BlockProps StateWitness Node Mempool Net MempoolProps Executor ExecutorProps Rules StateCache ChainProps Chain NodeProps MiningProps.
Open Scope Z_scope.

#[local] Existing Instances toy_hex toy_blake3 toy_bech32 toy_secp toy_vm.
#[local] Existing Instances toy_hex_ok toy_blake3_ok toy_vm_laws.

Definition toy_runtime : VmRuntime ToyVm :=
  {| vm_executor := toy_vm; vm_new := ∅; insert_code vm a c := <[a := c]> vm |}.
#[local] Existing Instance toy_runtime.

#[local] Instance toy_blind : HeaderBlind ToyVm.
Proof. by split. Qed.

Definition no_json (tx : Transaction) : Z := 0.

(** ** The nodes *)

Definition start : Z := 1700000000.

Definition unwrap (r : result Node.StrangecoinError Blockchain) : Blockchain :=
  match r with Ok bc => bc | _ => blockchain_empty 0 end.

Definition node0 : Blockchain := Eval vm_compute in unwrap (open_local true CHAIN_ID_REGTEST start).

Definition granted (wallet : string) : result Node.StrangecoinError (Blockchain * bool) :=
  grant_initial_balance_to_first_wallet true node0 start (start + 1) wallet.

Definition node1 : Blockchain := Eval vm_compute in unwrap (fst <$> granted "wallet").
Definition node2 : Blockchain := Eval vm_compute in unwrap (fst <$> granted "other wallet").

Lemma node0_open : open_local true CHAIN_ID_REGTEST start = Ok node0.
Proof. vm_compute. reflexivity. Qed.
Lemma node1_granted : granted "wallet" = Ok (node1, true).
Proof. vm_compute. reflexivity. Qed.
Lemma node2_granted : granted "other wallet" = Ok (node2, true).
Proof. vm_compute. reflexivity. Qed.

Lemma granted_reachable wallet n :
  granted wallet = Ok (n, true) → node_reachable true no_json CHAIN_ID_REGTEST (start + 1) n.
Proof.
  intros H. apply (node_next true no_json CHAIN_ID_REGTEST start (start + 1) node0 n).
  - apply node_open; [by_eval|exact node0_open|discriminate].
  - done.
  - by_eval.
  - by apply (step_grant true no_json (start + 1) node0 n start wallet true).
Qed.

Lemma node1_consistent : consistent true (start + 1) node1.
Proof. eapply reachable_consistent, (granted_reachable "wallet"), node1_granted. Qed.
Lemma node2_consistent : consistent true (start + 1) node2.
Proof. eapply reachable_consistent, (granted_reachable "other wallet"), node2_granted. Qed.

Lemma node1_rebuild :
  rebuild_from_chain true (bc_config node1 (start + 1)) (bc_chain node1)
  = Ok (bc_balances node1, bc_receipts node1).
Proof. destruct node1_consistent as [(s & Hv & Hb & Hr) _ _ _ _]. apply rebuild_iff. by exists s. Qed.

(** ** Witnesses: chains *)

Lemma rebuild_refines_valid_chain_witness :
  rebuild_from_chain true (later (bc_config node1 (start + 1)) (start + 99)) (bc_chain node1)
  = Ok (bc_balances node1, bc_receipts node1).
Proof.
  refine (proj2 (rebuild_refines_valid_chain true (bc_config node1 (start + 1)) (bc_chain node1) (start + 99)
    _ _ _) _ node1_rebuild).
  - vm_compute. discriminate.
  - by_eval.
  - by_eval.
Defined.

Lemma accepted_chain_integrity_witness :
  match bc_chain node1 !! 1%nat, bc_chain node1 !! 0%nat with
  | Some block, Some genesis => b_index block = 1 ∧ Some (b_previous_hash block) = Some (b_hash genesis)
  | _, _ => False
  end.
Proof.
  destruct (bc_chain node1 !! 1%nat) as [block|] eqn:E; [|discriminate E].
  pose proof (accepted_chain_integrity true (bc_config node1 (start + 1)) (bc_chain node1) _ 1 block
    node1_rebuild E) as (H1 & H2 & _).
  split; [exact H1|exact H2].
Defined.

(** The genesis of [node0] with its target spelled in capitals: another block, the
    same header bytes and hash. *)
Definition capital_genesis : list Block :=
  (λ b, {| b_index := b_index b; b_timestamp := b_timestamp b; b_transactions := b_transactions b;
     b_previous_hash := b_previous_hash b; b_hash := b_hash b; b_nonce := b_nonce b;
     b_target := "FFFFFFFFFFFFFFFFFFFFFFFFFFFFFFFFFFFFFFFFFFFFFFFFFFFFFFFFFFFFFFFF";
     b_consensus_version := b_consensus_version b; b_state_root := b_state_root b;
     b_tx_root := b_tx_root b; b_receipts_root := b_receipts_root b |}) <$> bc_chain node0.

Lemma capital_rebuild :
  is_ok (rebuild_from_chain true (bc_config node0 start) capital_genesis)
  && is_ok (rebuild_from_chain true (bc_config node0 start) (bc_chain node0)) = true.
Proof. vm_compute. reflexivity. Qed.

Lemma tip_hash_commits_to_chain_witness :
  header_bytes (bc_chain node0) = header_bytes capital_genesis.
Proof.
  pose proof capital_rebuild as Hok. apply andb_true_iff in Hok as [Hc H0].
  destruct (rebuild_from_chain true (bc_config node0 start) capital_genesis) as [out'|e|] eqn:E';
    [|discriminate Hc|discriminate Hc].
  destruct (rebuild_from_chain true (bc_config node0 start) (bc_chain node0)) as [out|e|] eqn:E;
    [|discriminate H0|discriminate H0].
  refine (proj1 (proj2 (tip_hash_commits_to_chain true (bc_config node0 start) (bc_config node0 start)
    (bc_chain node0) capital_genesis out out' _ _ E E' eq_refl eq_refl eq_refl _ _ _))).
  - vm_compute. discriminate.
  - vm_compute. discriminate.
  - apply collision_free_on_pairs. by_eval.
Defined.

Lemma chain_supply_bounded_witness :
  supply (to_state (bc_balances node1)) ≤ 10000.
Proof.
  assert (Forall typed_block (bc_chain node1)) as Hty by by_eval.
  destruct (bc_chain node1) as [|genesis rest] eqn:E; [discriminate E|].
  pose proof node1_rebuild as Hr. rewrite E in Hr.
  refine (Z.le_trans _ _ _ (proj2 (proj2 (chain_supply_bounded true (bc_config node1 (start + 1)) genesis rest
    _ _ Hr Hty)) eq_refl) _).
  injection E as <- _. vm_compute. discriminate.
Defined.

(** ** Witnesses: nodes *)

Definition info_of (n : Blockchain) : ChainInfo :=
  match chain_info (E:=Node.StrangecoinError) (bc_chain n) with
  | Ok (Some i) => i
  | _ => {| ci_tip_height := 0; ci_tip_hash := ""; ci_total_work := u256_zero; ci_tip_timestamp := 0 |}
  end.

Lemma node1_info : chain_info (E:=Node.StrangecoinError) (bc_chain node1) = Ok (Some (info_of node1)).
Proof. vm_compute. reflexivity. Qed.
Lemma node2_info : chain_info (E:=Node.StrangecoinError) (bc_chain node2) = Ok (Some (info_of node2)).
Proof. vm_compute. reflexivity. Qed.
Lemma same_config : bc_config node1 (start + 1) = bc_config node2 (start + 1).
Proof. reflexivity. Qed.
Lemma long_chains : (1 < length (bc_chain node1))%nat ∧ (1 < length (bc_chain node2))%nat.
Proof. cbn. lia. Qed.

Lemma adoption_sound_witness :
  match try_adopt_candidate true node1 (start + 1) (bc_chain node2)
          (Some (sc_accounts (bc_balances node2))) [] 0 with
  | Ok (n, _) => consistent true (start + 1) n
  | _ => False
  end.
Proof.
  destruct (adopt_offer true (start + 1) node1 node2 [] 0 (info_of node2) (info_of node1)
    node1_consistent node2_consistent (eq_sym same_config) (λ _, proj2 long_chains) node2_info node1_info)
    as (n & E & _). rewrite E.
  exact (proj1 (adoption_sound true (start + 1) node1 (bc_chain node2) _ [] 0 n _ node1_consistent E)).
Defined.

Lemma nodes_converge_witness :
  ∃ n1' n2' b, try_adopt_candidate true node1 (start + 1) (bc_chain node2)
                 (Some (sc_accounts (bc_balances node2))) [] (bc_difficulty node2) = Ok (n1', b)
    ∧ try_adopt_candidate true node2 (start + 1) (bc_chain node1)
        (Some (sc_accounts (bc_balances node1))) [] (bc_difficulty node1) = Ok (n2', negb b)
    ∧ bc_chain n1' = bc_chain n2'.
Proof.
  destruct (nodes_converge true (start + 1) node1 node2 (info_of node1) (info_of node2) [] []
    node1_consistent node2_consistent same_config node1_info node2_info ltac:(by_eval)
    (λ _, proj1 long_chains) (λ _, proj2 long_chains)) as (n1' & n2' & b & H1 & H2 & H3 & _).
  exists n1', n2', b. split; [exact H1|]. split; [exact H2|exact H3].
Defined.

(** ** Witnesses: mining *)

Definition tip1 : Block := default (unsealed 0 0 [] "" "" 0) (last (bc_chain node1)).
Definition coinbase1 : list Transaction := [tx_coinbase "coinbase" "miner" 0 CHAIN_ID_REGTEST].

Definition mined : Block := Eval vm_compute in
  match mine_block_inner true node1 3 (start + 2) (start + 2) tip1 coinbase1 with
  | Ok (Some b) => b | _ => tip1 end.

Lemma mined_ok : mine_block_inner true node1 3 (start + 2) (start + 2) tip1 coinbase1 = Ok (Some mined).
Proof. vm_compute. reflexivity. Qed.

(** Six nonces against a target that fails the first ones: the block of [node1]. *)
Lemma pow_search_first_witness :
  match pow_loop 6 (u256_from_bytes (x20 :: replicate 31 x00)) tip1 with
  | Ok (Some b) => b_hash b = hex_encode (header_digest b)
  | _ => False
  end.
Proof.
  pose proof (pow_search_first 6 (x20 :: replicate 31 x00) tip1 ltac:(by_eval) eq_refl ltac:(by_eval)) as H.
  assert (match pow_loop 6 (u256_from_bytes (x20 :: replicate 31 x00)) tip1 with Ok (Some _) => true | _ => false end = true) as Hn
    by (vm_compute; reflexivity).
  destruct (pow_loop 6 (u256_from_bytes (x20 :: replicate 31 x00)) tip1) as [[b|]|e|].
  - destruct H as (i & _ & Hb & _). rewrite Hb. reflexivity.
  - discriminate Hn.
  - exact H.
  - exact H.
Defined.

Lemma mined_gas :
  match apply_and_execute true (to_state (bc_balances node1)) mined (view_for node1 (start + 2) (b_index mined)) with
  | Ok s' => sum64 (rc_gas_used <$> receipts s') <=? BLOCK_GAS_LIMIT
  | _ => true
  end = true.
Proof. vm_compute. reflexivity. Qed.

Lemma mined_mineable : mineable true node1 (start + 2) mined.
Proof.
  constructor.
  - intros bytes H.
    assert (bool_decide (is_ok (serialize_block (E:=Node.StrangecoinError) mined)
      ∧ match serialize_block (E:=Node.StrangecoinError) mined with
        | Ok b => Z.of_nat (length b) ≤ MAX_BLOCK_SIZE | _ => True end) = true) as Hb by (vm_compute; reflexivity).
    apply bool_decide_eq_true in Hb as [_ Hb]. by rewrite H in Hb.
  - by_eval.
  - constructor; [|constructor]. split; [reflexivity|vm_compute; reflexivity].
  - vm_compute. discriminate.
  - intros s' H. pose proof mined_gas as Hg. rewrite H in Hg. by apply Z.leb_le.
  - split; vm_compute; discriminate.
  - reflexivity.
  - split; [vm_compute; discriminate|]. intros m H. vm_compute in H. injection H as <-. reflexivity.
Qed.

(** [mined] on top of [node1], whose cache is read with and without receipts. *)
Definition mined_view : BlockView := view_for node1 (start + 2) 2.
Definition mined_gas_used (r : result Node.StrangecoinError State) : option Z :=
  match r with Ok s' => Some (sumZ (rc_gas_used <$> receipts s')) | _ => None end.

Lemma mined_validates :
  mined_gas_used (validate_and_apply true (to_state (bc_balances node1)) mined mined_view) = Some 0.
Proof. vm_compute. reflexivity. Qed.
Lemma mined_executes :
  mined_gas_used (apply_and_execute true (to_state (bc_balances node1)) mined mined_view) = Some 0.
Proof. vm_compute. reflexivity. Qed.

Lemma mined_regular : regular true (to_state (bc_balances node1)) mined mined_view.
Proof.
  constructor; [by_eval|by_eval|unfold in_u64; by_eval| |].
  - intros s' H%transition_computed. pose proof mined_executes as E. rewrite H in E. injection E as E. by rewrite E.
  - intros parent H. discriminate H.
Qed.


Lemma mined_block_accepted_witness :
  ∃ n, commit_block true node1 (start + 2) mined = Ok n ∧ bc_chain n = bc_chain node1 ++ [mined].
Proof.
  assert (consistent true (start + 2) node1) as Hc.
  { apply (consistent_later true (start + 1)); [done|by_eval|exact node1_consistent]. }
  destruct (mined_block_accepted true node1 3 (start + 2) (start + 2) (start + 2) tip1 coinbase1 mined
    Hc eq_refl ltac:(vm_compute; reflexivity) mined_ok mined_mineable) as (n & H1 & H2 & _).
  exists n. split; [exact H1|exact H2].
Defined.

(** ** A fresh node *)

(** The genesis that [install_fresh_genesis] puts on an empty regtest chain credits
    nobody, since its only transaction comes from "genesis"; reconstruction from the
    chain credits the holder, and [validate_chain] rejects the fresh node's own data. *)
Example fresh_genesis_cache_disagrees :
  match install_fresh_genesis (blockchain_empty CHAIN_ID_REGTEST) None with
  | Ok bc => validate_chain true bc start
  | _ => Ok true
  end = Ok false.
Proof. vm_compute. reflexivity. Qed.
