(* ===== verification/Persist.v ===== *)
(** * Persistence (src/blockchain/state_cache.rs)

    Loading, saving and migrating the node's database.  The database is modelled by
    the values its keys hold once parsed: the entries "chain", "balances",
    "contract_storage" and "difficulty", and one entry per stored transaction.  JSON
    text and the LevelDB files are outside the model; accounts keep the flat form that
    their hand-written serde impls give them. *)

From S2P Require Import Prelude Bytes U256 Abi Types Address Serialize Consensus Emission SparseMerkle State Node Mempool Net Executor StateCache Chain.
From stdpp Require Import sorting.
Open Scope Z_scope.

(** Base64 with the standard alphabet. *)
Class Base64 := base64_decode : string → option (list byte).

(** The two forms the "balances" entry may have: current and legacy. *)
Inductive BalancesJson :=
  | AccountMap (m : gmap string AccountFlat)
  | LegacyMap (m : gmap string Z).

Record Db := {
  db_chain : option (list Block);
  db_balances : option BalancesJson;
  db_contract_storage : option ContractStorageJson;
  db_difficulty : option Z;
  db_txs : gmap string Transaction
}.

Record PersistedState := {
  ps_chain : option (list Block);
  ps_balances : option (gmap string Account);
  ps_contract_storage : option ContractStorageMap;
  ps_difficulty : option Z;
  ps_mempool_txs : list Transaction
}.

(** Deserialization of a map fails when one of its accounts does. *)
Definition load_accounts (m : gmap string AccountFlat) : option (gmap string Account) :=
  if decide (map_Forall (λ _ f, is_Some (account_deserialize f)) m)
  then Some (omap account_deserialize m) else None.

Definition load_balances (b : BalancesJson) : option (gmap string Account) :=
  match b with
  | AccountMap m => load_accounts m
  | LegacyMap m => Some ((λ balance, account_eoa balance 0) <$> m)
  end.

(** The key of a pending transaction: [format!("{}:{}", sender, nonce)]. *)
Definition tx_key (tx : Transaction) : string := sender tx +:+ ":" +:+ pretty (tx_nonce tx).

Section Persist.
Context `{HX : Hex, B3 : Blake3, B32 : Bech32, SK : Secp256k1, B64 : Base64}.
Context `{VR : VmRuntime V} (vm_wasm : bool).

(** LevelDB iterates in the order of the key bytes. *)
Definition load_persisted_state (db : Db) : PersistedState := {|
  ps_chain := db_chain db;
  ps_balances := db_balances db ≫= load_balances;
  ps_contract_storage := db_contract_storage db ≫= contract_storage_from_json;
  ps_difficulty := db_difficulty db;
  ps_mempool_txs := (merge_sort fst_le (map_to_list (db_txs db))).*2
|}.

(** A transaction whose key is taken is skipped. *)
Definition save_tx (txs : gmap string Transaction) (tx : Transaction) : gmap string Transaction :=
  match txs !! tx_key tx with Some _ => txs | None => <[tx_key tx := tx]> txs end.

Definition save_state (db : Db) (bc : Blockchain) : Db := {|
  db_chain := Some (bc_chain bc);
  db_balances := Some (AccountMap (account_serialize <$> sc_accounts (bc_balances bc)));
  db_contract_storage := Some (contract_storage_to_json (sc_contract_storage (bc_balances bc)));
  db_difficulty := Some (bc_difficulty bc);
  db_txs := foldl save_tx (db_txs db) (transactions (bc_mempool bc))
|}.

(** ** Migrations *)

Definition migrate_initial_wallet_balance (bc : Blockchain) (now now' : Z)
    : result Node.StrangecoinError Blockchain :=
  if negb (bc_allow_grant_blocks bc) then Ok bc else
  if negb (length (bc_chain bc) =? 1)%nat then Ok bc else
  match cache_get (bc_balances bc) "initial_wallet_address" with
  | None => Ok bc
  | Some a =>
      let placeholder_amount := balance a in
      let real_wallets := filter (λ k, k ≠ "initial_wallet_address") (cache_keys (bc_balances bc)) in
      match real_wallets with
      | [wallet] =>
          if negb (default 0 (balance <$> cache_get (bc_balances bc) wallet) =? 0) then Ok bc
          else create_grant_block vm_wasm bc now now' wallet placeholder_amount
      | _ => Ok bc
      end
  end.

(** The public key a base64 address holds. *)
Definition legacy_key (addr : string) : option PublicKey :=
  pk_bytes ← base64_decode addr;
  match pk_from_slice pk_bytes with inl pk => Some pk | inr _ => None end.

(** The address an account moves to, if it is a legacy one. *)
Definition migrated_address (network_id : Z) (addr : string) : option string :=
  if is_ok (decode_address addr) then None else
  pk ← legacy_key addr;
  match encode_address pk network_id with Ok bech32_addr => Some bech32_addr | _ => None end.

(** The balances loop: new balances and the number of migrated addresses. *)
Definition migrate_account (network_id : Z) (acc : gmap string Z * nat) (e : string * Account)
    : gmap string Z * nat :=
  let '(new_balances, migrated_count) := acc in
  let '(new_addr, migrated_count) := match migrated_address network_id e.1 with
    | Some a => (a, S migrated_count) | None => (e.1, migrated_count) end in
  (<[new_addr := add64 (default 0 (new_balances !! new_addr)) (balance e.2)]> new_balances,
   migrated_count).

Definition reserved_names : list string :=
  ["genesis"; "coinbase"; "initial_wallet_address"; "regtest_initial_holder"; "recipient"].

Definition legacy_field (field : string) : bool :=
  negb (is_ok (decode_address field)) && negb (bool_decide (field ∈ reserved_names))
  && bool_decide (is_Some (legacy_key field)).

Definition legacy_in_chain (chain : list Block) : bool :=
  existsb (λ block, existsb (λ tx, legacy_field (sender tx) || legacy_field (default "" (receiver tx)))
    (b_transactions block)) chain.

Definition migrate_addresses_to_bech32 (bc : Blockchain) (genesis_file : option GenesisConfig)
    : result Node.StrangecoinError Blockchain :=
  let '(new_balances, migrated_count) :=
    foldl (migrate_account (bc_chain_id bc)) (∅, O) (map_to_list (sc_accounts (bc_balances bc))) in
  let bc := if (0 <? migrated_count)%nat
            then with_cache bc (from_accounts ((λ b, account_eoa b 0) <$> new_balances)) else bc in
  if legacy_in_chain (bc_chain bc) then install_fresh_genesis (with_chain bc []) genesis_file
  else Ok bc.

(** ** Opening *)

(** [let _ = mempool.insert(tx, &AccountState::default())]. *)
Definition reload_tx (p : Mempool) (tx : Transaction) : result Node.StrangecoinError Mempool :=
  match mempool_insert p tx account_default with
  | Ok (_, p') => Ok p'
  | Err _ => Ok p
  | Panic => Panic
  end.

Definition with_loaded (bc : Blockchain) (cache : StateCache) (difficulty : Z) (work : U256) : Blockchain := {|
  bc_chain := bc_chain bc; bc_balances := cache; bc_difficulty := difficulty;
  bc_mempool := bc_mempool bc; bc_allow_grant_blocks := bc_allow_grant_blocks bc;
  bc_allow_zero_state_root := bc_allow_zero_state_root bc; bc_total_work := work;
  bc_rules := bc_rules bc; bc_chain_id := bc_chain_id bc; bc_codes := bc_codes bc;
  bc_receipts := bc_receipts bc |}.

Definition with_registry (bc : Blockchain) (codes : Codes) : Blockchain := {|
  bc_chain := bc_chain bc; bc_balances := bc_balances bc; bc_difficulty := bc_difficulty bc;
  bc_mempool := bc_mempool bc; bc_allow_grant_blocks := bc_allow_grant_blocks bc;
  bc_allow_zero_state_root := bc_allow_zero_state_root bc; bc_total_work := bc_total_work bc;
  bc_rules := bc_rules bc; bc_chain_id := bc_chain_id bc; bc_codes := codes;
  bc_receipts := bc_receipts bc |}.

(** The stored chain, whose genesis must be the network's, or a fresh genesis. *)
Definition load_chain (bc : Blockchain) (chain : option (list Block)) (genesis_file : option GenesisConfig)
    : result Node.StrangecoinError Blockchain :=
  match chain with
  | Some chain =>
      match head chain with
      | Some b =>
          match validate_genesis b (bc_chain_id bc) with
          | Ok _ => Ok (with_chain bc chain) | _ => Panic end
      | None => Ok (with_chain bc chain)
      end
  | None => install_fresh_genesis bc genesis_file
  end.

Definition load_cache (c : StateCache) (loaded : PersistedState) : StateCache :=
  let c := match ps_balances loaded with Some accounts => from_accounts accounts | None => c end in
  match ps_contract_storage loaded with Some m => set_contract_storage c m | None => c end.

Definition open_blockchain (db : Db) (genesis_file : option GenesisConfig) (chain_id now now' : Z)
    : result Node.StrangecoinError (Blockchain * Db) :=
  let bc := blockchain_empty chain_id in
  let loaded := load_persisted_state db in
  p ← foldM reload_tx (bc_mempool bc) (ps_mempool_txs loaded);
  bc ← load_chain (with_mempool bc p) (ps_chain loaded) genesis_file;
  work ← cumulative_work (bc_chain bc);
  let bc := with_loaded bc (load_cache (bc_balances bc) loaded)
              (default (bc_difficulty bc) (ps_difficulty loaded)) work in
  bc ← migrate_initial_wallet_balance bc now now';
  bc ← migrate_addresses_to_bech32 bc genesis_file;
  let bc := with_registry bc (codes_from_chain (bc_chain bc) chain_id) in
  Ok (bc, save_state db bc).

End Persist.
