(* ===== verification/PersistProps.v ===== *)
(** * Properties of persistence

    Saving a node and opening it again gives the node back, less its mempool: the
    stored pending transactions are re-admitted against an empty account, so only
    those that cost nothing return. *)

From S2P Require Import Prelude Bytes U256 Abi Types Address Concrete Serialize Consensus Emission SparseMerkle State Node Mempool Net MempoolProps Executor ExecutorProps StateCache ChainProps Chain NodeProps ChainWitness Persist.
From stdpp Require Import sorting.
Open Scope Z_scope.

(** ** Maps from lists of entries *)

Section Entries.
Context {K V A : Type} `{Countable K}.

(** A loop of fallible insertions that all succeed. *)
Lemma fold_insert_some (step : gmap K V → A → option (gmap K V)) (f : K * V → A) l m :
  (∀ m kv, kv ∈ l → step m (f kv) = Some (<[kv.1 := kv.2]> m)) →
  foldl (λ acc a, m ← acc; step m a) (Some m) (f <$> l)
  = Some (foldl (λ m kv, <[kv.1 := kv.2]> m) m l).
Proof.
  revert m. induction l as [|kv l IH]; intros m Hs; [done|]. cbn [fmap list_fmap foldl mbind option_bind].
  rewrite Hs by by left. apply IH. intros m' kv' Hin. apply Hs. by right.
Qed.

Lemma fold_insert_perm (l : list (K * V)) (m : gmap K V) :
  l ≡ₚ map_to_list m → foldl (λ m kv, <[kv.1 := kv.2]> m) ∅ l = m.
Proof.
  intros Hl. transitivity (list_to_map (reverse l) : gmap K V).
  - clear Hl. induction l as [|[k v] l IH] using rev_ind; [done|].
    rewrite foldl_app, reverse_app. cbn. by rewrite IH.
  - assert (reverse l ≡ₚ map_to_list m) as Hr by (by rewrite <- Hl, reverse_Permutation).
    rewrite <- (list_to_map_to_list m). apply list_to_map_proper; [|done].
    rewrite Hr. apply NoDup_fst_map_to_list.
Qed.
End Entries.

Section PersistProps.
Context `{HX : Hex, B3 : Blake3, B32 : Bech32, SK : Secp256k1, B64 : Base64}.
Context `{HXok : !HexOk}.
Context `{VR : VmRuntime V} (vm_wasm : bool).

(** ** Contract storage *)

Definition slots_typed (m : ContractStorageMap) : Prop :=
  map_Forall (λ _ st, map_Forall (λ k _, length k = 32%nat) st) m.

Lemma slots_roundtrip (st : ContractStorage) l :
  map_Forall (λ k _, length k = 32%nat) st →
  l ≡ₚ (λ kv : list byte * list byte, (hex_encode kv.1, kv.2)) <$> map_to_list st →
  foldl (λ acc slot, storage ← acc; slot_from_json storage slot) (Some ∅) l = Some st.
Proof.
  intros H32 Hl. destruct (Permutation_map_inv _ _ Hl) as (l' & -> & Hp).
  change (map ?f l') with (f <$> l'). rewrite fold_insert_some.
  - f_equal. by apply fold_insert_perm.
  - intros m [k v] Hin. rewrite <- Hp in Hin. apply elem_of_map_to_list in Hin.
    unfold slot_from_json. cbn. rewrite hex_decode_encode. cbn. by rewrite decide_True by by eapply H32.
Qed.

Lemma storage_roundtrip m :
  slots_typed m → contract_storage_from_json (contract_storage_to_json m) = Some m.
Proof.
  intros Ht. unfold contract_storage_from_json, contract_storage_to_json.
  set (raw := merge_sort fst_le _).
  assert (raw ≡ₚ (λ e : string * ContractStorage, (e.1, merge_sort fst_le
    ((λ kv : list byte * list byte, (hex_encode kv.1, kv.2)) <$> map_to_list e.2))) <$> map_to_list m) as Hraw
    by apply merge_sort_Permutation.
  clearbody raw. destruct (Permutation_map_inv _ _ Hraw) as (l & -> & Hp).
  change (map ?f l) with (f <$> l).
  rewrite (fold_insert_some (λ map e, storage ← foldl (λ acc slot, storage ← acc; slot_from_json storage slot) (Some ∅) e.2;
    Some (<[e.1 := storage]> map))).
  - f_equal. by apply fold_insert_perm.
  - intros m' [a st] Hin. rewrite <- Hp in Hin. apply elem_of_map_to_list in Hin. cbn [fst snd].
    rewrite (slots_roundtrip st); [done|by eapply Ht|apply merge_sort_Permutation].
Qed.

Lemma accounts_roundtrip m : load_accounts (account_serialize <$> m) = Some m.
Proof.
  unfold load_accounts. rewrite decide_True.
  - f_equal. apply map_eq. intros a. rewrite lookup_omap, lookup_fmap.
    destruct (m !! a); [|done]. apply account_flat_roundtrip.
  - intros a f Hf. rewrite lookup_fmap in Hf. destruct (m !! a); [|done]. injection Hf as <-.
    rewrite account_flat_roundtrip. by eexists.
Qed.

(** ** Reloaded transactions *)

(** A transaction passes against an empty account only if it costs nothing. *)
Lemma reload_cost p tx out p' : mempool_insert p tx account_default = Ok (out, p') → tx_cost tx = 0.
Proof.
  intros H. apply insert_inv in H as (_ & _ & _ & H & _). unfold validate_against_pool in H.
  apply bind_ok_inv in H as ([] & _ & H). change (balance account_default) with 0 in H.
  destruct (Z.ltb_spec (saturating_sub64 0 (sum64 (tx_cost <$> omap (λ id, mp_txs p !! id)
    (pending_ids p (sender tx) (find_replaceable p tx))))) (tx_cost tx)) as [|Hle]; [done|].
  assert (0 ≤ tx_cost tx) by (unfold tx_cost, add64, wrap64; by apply Z.mod_pos_bound).
  assert (∀ x, 0 ≤ x → saturating_sub64 0 x = 0) as Hs by (intros; unfold saturating_sub64; lia).
  rewrite Hs in Hle; [lia|]. rewrite sum64_mod. by apply Z.mod_pos_bound.
Qed.

Lemma reload_ok txs p :
  pool_ok p →
  ∃ p', foldM reload_tx p txs = Ok p' ∧ pool_ok p' ∧ mp_chain_id p' = mp_chain_id p ∧
    ∀ id tx, mp_txs p' !! id = Some tx → mp_txs p !! id = Some tx ∨ tx ∈ txs ∧ tx_cost tx = 0.
Proof.
  revert p. induction txs as [|tx txs IH]; intros p Hp; [exists p; auto|]. cbn [foldM]. unfold reload_tx.
  destruct (mempool_insert p tx account_default) as [[o p1]| |] eqn:E.
  - destruct (IH p1) as (p' & H1 & H2 & H3 & H4); [by eapply insert_ok|].
    exists p'. split_and!; [done..|by rewrite H3, (insert_chain_id _ _ _ _ _ E)|].
    intros id x Hx. destruct (H4 id x Hx) as [H|[? ?]].
    + destruct (insert_new _ _ _ _ _ _ _ E H) as [->|?]; [|by left]. right. split; [by left|].
      by eapply reload_cost.
    + right. split; [by right|done].
  - destruct (IH p Hp) as (p' & H1 & H2 & H3 & H4). exists p'. split_and!; [done..|].
    intros id x Hx. destruct (H4 id x Hx) as [H|[? ?]]; [by left|]. right. split; [by right|done].
  - by destruct (insert_no_panic p tx account_default Hp).
Qed.

(** ** Stored transactions *)

(** Every stored transaction is under its own key. *)
Definition db_ok (db : Db) : Prop := map_Forall (λ k tx, k = tx_key tx) (db_txs db).

Lemma save_tx_ok txs tx :
  map_Forall (λ k tx, k = tx_key tx) txs → map_Forall (λ k tx, k = tx_key tx) (save_tx txs tx).
Proof. intros H. unfold save_tx. destruct (txs !! tx_key tx); [done|]. by apply map_Forall_insert_2. Qed.

Lemma save_state_ok db bc : db_ok db → db_ok (save_state db bc).
Proof.
  unfold db_ok, save_state. cbn [db_txs]. generalize (transactions (bc_mempool bc)) as l. intros l.
  generalize (db_txs db). induction l as [|tx l IH]; intros txs H; [done|]. by apply IH, save_tx_ok.
Qed.

Lemma save_stored txs l : (∀ tx, tx ∈ l → is_Some (txs !! tx_key tx)) → foldl save_tx txs l = txs.
Proof.
  induction l as [|tx l IH]; intros H; [done|]. cbn [foldl].
  assert (save_tx txs tx = txs) as -> by (unfold save_tx; by destruct (H tx ltac:(by left)) as [? ->]).
  apply IH. intros x Hx. apply H. by right.
Qed.

Lemma loaded_stored db tx : tx ∈ ps_mempool_txs (load_persisted_state db) → ∃ k, db_txs db !! k = Some tx.
Proof.
  cbn. intros ([k x] & -> & Hin)%list_elem_of_fmap. exists k. apply elem_of_map_to_list.
  by rewrite merge_sort_Permutation in Hin.
Qed.

(** ** Addresses *)

(** No account moves and the chain mentions no base64 key. *)
Definition modern (bc : Blockchain) : Prop :=
  map_Forall (λ a _, migrated_address (bc_chain_id bc) a = None) (sc_accounts (bc_balances bc))
  ∧ legacy_in_chain (bc_chain bc) = false.

Lemma migrate_none network_id l acc :
  (∀ e, e ∈ l → migrated_address network_id e.1 = None) →
  (foldl (migrate_account network_id) acc l).2 = acc.2.
Proof.
  revert acc. induction l as [|e l IH]; intros acc H; [done|]. cbn [foldl].
  rewrite IH by (intros; apply H; by right). destruct acc. cbn. by rewrite (H e) by by left.
Qed.

Lemma migrate_modern bc genesis_file :
  modern bc → migrate_addresses_to_bech32 bc genesis_file = Ok bc.
Proof.
  intros [Ha Hc]. unfold migrate_addresses_to_bech32.
  pose proof (migrate_none (bc_chain_id bc) (map_to_list (sc_accounts (bc_balances bc))) (∅, O)) as Hn.
  destruct (foldl (migrate_account (bc_chain_id bc)) (∅, O) _) as [nb n]. cbn in Hn.
  rewrite Hn by (intros [a x] Hin%elem_of_map_to_list; by eapply Ha). cbn. by rewrite Hc.
Qed.

(** ** Restart *)

(** The node [bc] with pool [p], as it comes back from its database: flags off,
    the rules of a new manager, no receipts. *)
Definition reopened (bc : Blockchain) (p : Mempool) : Blockchain := {|
  bc_chain := bc_chain bc; bc_balances := bc_balances bc; bc_difficulty := bc_difficulty bc;
  bc_mempool := p; bc_allow_grant_blocks := false; bc_allow_zero_state_root := false;
  bc_total_work := bc_total_work bc; bc_rules := manager_new; bc_chain_id := bc_chain_id bc;
  bc_codes := bc_codes bc; bc_receipts := [] |}.

Lemma restart_reopens (db : Db) (bc : Blockchain) (genesis_file : option GenesisConfig) (t t' : Z) :
  cumulative_work (E:=Node.StrangecoinError) (bc_chain bc) = Ok (bc_total_work bc) →
  bc_codes bc = codes_from_chain (bc_chain bc) (bc_chain_id bc) →
  db_ok db → slots_typed (sc_contract_storage (bc_balances bc)) → modern bc →
  (∃ b, head (bc_chain bc) = Some b ∧ validate_genesis b (bc_chain_id bc) = Ok tt) →
  ∃ p, open_blockchain vm_wasm (save_state db bc) genesis_file (bc_chain_id bc) t t'
         = Ok (reopened bc p, save_state db bc)
    ∧ pool_ok p ∧ mp_chain_id p = bc_chain_id bc
    ∧ (∀ id tx, mp_txs p !! id = Some tx → tx_cost tx = 0).
Proof.
  intros Hwork Hcodes Hdb Hst Hm (b & Hb & Hg). set (db1 := save_state db bc).
  destruct (reload_ok (ps_mempool_txs (load_persisted_state db1)) (mempool_new (bc_chain_id bc)))
    as (p & Hp & Hok & Hid & Hcost); [apply pool_new_ok|].
  unfold open_blockchain. cbv zeta. cbn [bc_mempool blockchain_empty].
  rewrite Hp. cbn [mbind result_bind].
  assert (ps_chain (load_persisted_state db1) = Some (bc_chain bc)) as -> by done.
  unfold load_chain. rewrite Hb. cbn [bc_chain_id with_mempool blockchain_empty]. rewrite Hg.
  cbn [mbind result_bind bc_chain with_chain]. rewrite Hwork. cbn [mbind result_bind].
  assert (load_cache (bc_balances (with_chain (with_mempool (blockchain_empty (bc_chain_id bc)) p) (bc_chain bc)))
    (load_persisted_state db1) = bc_balances bc) as ->.
  { unfold load_cache, load_persisted_state, db1, save_state.
    cbn [ps_balances ps_contract_storage db_balances db_contract_storage mbind option_bind load_balances].
    rewrite accounts_roundtrip, storage_roundtrip by done. by destruct (bc_balances bc). }
  unfold migrate_initial_wallet_balance. cbn [bc_allow_grant_blocks with_loaded with_chain with_mempool
    blockchain_empty negb mbind result_bind].
  rewrite migrate_modern by (split; apply Hm). cbn [mbind result_bind].
  assert (∀ id tx, mp_txs p !! id = Some tx → tx_cost tx = 0 ∧ is_Some (db_txs db1 !! tx_key tx)) as Hstored.
  { intros id x Hx. destruct (Hcost id x Hx) as [E|[E ?]]; [done|]. split; [done|].
    apply loaded_stored in E as [k Hk]. pose proof (save_state_ok db bc Hdb k x Hk) as ->. by exists x. }
  exists p. split_and!; [|done|done|intros; by eapply Hstored]. do 2 f_equal.
  - unfold reopened. by rewrite Hcodes.
  - unfold save_state at 1. unfold db1, save_state. f_equal.
    cbn [bc_mempool with_registry with_loaded with_chain with_mempool db_txs].
    fold (db_txs (save_state db bc)). apply save_stored. intros tx Hin.
    unfold transactions in Hin. apply list_elem_of_fmap in Hin as ([id x] & -> & Hin%elem_of_map_to_list).
    by eapply Hstored.
Qed.

(** C21: Saving a node and opening it again, on a database that keeps every transaction
    under its own key, restores the chain, the accounts, the contract storage, the
    difficulty, the total work and the code registry, for a consistent node with the
    genesis of its network and without legacy addresses; opening writes nothing new to
    the database.  Of the stored pending transactions only those that cost nothing are
    in the reopened pool. *)
Theorem restart_roundtrip (db : Db) (bc : Blockchain) (genesis_file : option GenesisConfig) (now t t' : Z) :
  consistent vm_wasm now bc → db_ok db → slots_typed (sc_contract_storage (bc_balances bc)) →
  modern bc →
  (∃ b, head (bc_chain bc) = Some b ∧ validate_genesis b (bc_chain_id bc) = Ok tt) →
  ∃ bc', open_blockchain vm_wasm (save_state db bc) genesis_file (bc_chain_id bc) t t'
           = Ok (bc', save_state db bc)
    ∧ bc_chain bc' = bc_chain bc ∧ bc_balances bc' = bc_balances bc
    ∧ bc_difficulty bc' = bc_difficulty bc ∧ bc_total_work bc' = bc_total_work bc
    ∧ bc_codes bc' = bc_codes bc
    ∧ (∀ id tx, mp_txs (bc_mempool bc') !! id = Some tx → tx_cost tx = 0).
Proof.
  intros Hc Hdb Hst Hm Hg.
  destruct (restart_reopens db bc genesis_file t t') as (p & Ho & _ & _ & Hcost);
    [apply (cons_work _ _ _ _ Hc)|apply (cons_codes _ _ _ _ Hc)|done..|].
  by exists (reopened bc p).
Qed.

End PersistProps.

(** ** A concrete restart *)

#[local] Existing Instances toy_hex toy_blake3 toy_bech32 toy_secp toy_hex_ok toy_runtime.

(** Any decoder will do; this one reads hex. *)
#[local] Instance toy_base64 : Base64 := λ s, toy_unhex (as_bytes s).

Definition blank_db : Db := {|
  db_chain := None; db_balances := None; db_contract_storage := None; db_difficulty := None; db_txs := ∅ |}.

Lemma restart_roundtrip_witness :
  ∃ bc', open_blockchain true (save_state blank_db node1) None CHAIN_ID_REGTEST start start
    = Ok (bc', save_state blank_db node1) ∧ bc_chain bc' = bc_chain node1.
Proof.
  destruct (restart_roundtrip true blank_db node1 None (start + 1) start start) as (bc' & H1 & H2 & _).
  - exact node1_consistent.
  - by_eval.
  - by_eval.
  - split; [by_eval|vm_compute; reflexivity].
  - exists (hd (unsealed 0 0 [] "" "" 0) (bc_chain node1)). split; vm_compute; reflexivity.
  - exists bc'. split; [exact H1|exact H2].
Defined.
