(* ===== verification/Lifecycle.v ===== *)
(** * The life of a node

    Every way a node starts (locally, on an empty or a stored database, after a
    restart) and every operation on it, with the standing its cache has: [Verified]
    when the cached accounts are those of the chain, [Unverified] when they come from
    elsewhere.  The code registry, the total work and the pool are right throughout.
    The test hooks [push_block_unchecked], [with_state_cache_mut] and [with_inner_mut],
    which skip validation and have no caller in the node, are left out. *)

From S2P Require Import Prelude Bytes U256 Abi Types Address Concrete Serialize Consensus Emission SparseMerkle State Node Mempool Net MempoolProps Executor ExecutorProps StateCache ChainProps Chain NodeProps ChainWitness Persist PersistProps.
Open Scope Z_scope.

Section Lifecycle.
Context `{HX : Hex, B3 : Blake3, B32 : Bech32, SK : Secp256k1, B64 : Base64}.
Context `{HXok : !HexOk}.
Context `{VR : VmRuntime V} (vm_wasm : bool).

(** ** What the node keeps right whatever its cache holds *)

Record registered (chain_id : Z) (bc : Blockchain) : Prop := {
  reg_chain_id : bc_chain_id bc = chain_id;
  reg_rules : bc_rules bc = manager_new;
  reg_codes : bc_codes bc = codes_from_chain (bc_chain bc) chain_id;
  reg_work : cumulative_work (E:=Node.StrangecoinError) (bc_chain bc) = Ok (bc_total_work bc);
  reg_pool : pool_ok (bc_mempool bc) ∧ mp_chain_id (bc_mempool bc) = chain_id
}.

Lemma install_registered id bc block s' codes p bc' :
  registered id bc → codes = collect_block_codes block id (bc_codes bc) →
  pool_ok p → mp_chain_id p = id → install bc block s' codes p = Ok bc' → registered id bc'.
Proof.
  intros [? ? Hc _ _] -> Hp Hid H. unfold install in H. apply bind_ok_inv in H as (w & Ew & [= <-]).
  constructor; try done. cbn [bc_codes bc_chain]. by rewrite codes_from_chain_snoc, Hc.
Qed.

Lemma commit_registered id now bc block bc' :
  registered id bc → commit_block vm_wasm bc now block = Ok bc' → registered id bc'.
Proof.
  intros Hr H. unfold commit_block in H. apply bind_ok_inv in H as (s' & _ & H).
  destruct (reg_pool _ _ Hr) as [Hp Hid]. destruct (drop_confirmed_ok _ (b_transactions block) Hp) as [Hp' Hid'].
  eapply install_registered; [done| |exact Hp'|by rewrite Hid'|exact H]. by rewrite (reg_chain_id _ _ Hr).
Qed.

Lemma grant_registered id now now' bc wallet amount bc' :
  registered id bc → create_grant_block vm_wasm bc now now' wallet amount = Ok bc' → registered id bc'.
Proof.
  intros Hr H. unfold create_grant_block in H.
  apply bind_ok_inv in H as (p & _ & H). apply bind_ok_inv in H as (root & _ & H).
  destruct (apply_block _ _ _) as [post|e|]; [|by injection H as <-|done].
  apply bind_ok_inv in H as (g & Hg & H).
  assert (b_transactions g = [tx_coinbase "coinbase" wallet 0 (bc_chain_id bc);
            tx_transfer "initial_wallet_address" wallet amount 0 (bc_chain_id bc)]) as Htx
    by (unfold seal in Hg; by apply bind_ok_inv in Hg as (h & _ & [= <-])).
  destruct (validate_and_apply _ _ g _) as [s'|e|]; [|by injection H as <-|done].
  destruct (reg_pool _ _ Hr). eapply install_registered; [done| |done..|exact H].
  unfold collect_block_codes. by rewrite Htx.
Qed.

Lemma mine_registered id fuel now now' now'' bc bc' b :
  registered id bc → mine_block vm_wasm bc fuel now now' now'' = Ok (bc', b) → registered id bc'.
Proof.
  intros Hr H. unfold mine_block in H. case_match; [by injection H as <- _|].
  apply bind_ok_inv in H as (p & _ & H). case_match; [by injection H as <- _|].
  apply bind_ok_inv in H as ([blk|] & _ & H); [|by injection H as <- _].
  destruct (commit_block _ _ _ _) as [bc1|e|] eqn:E; [|by injection H as <- _|done].
  injection H as <- _. by eapply commit_registered.
Qed.

Lemma add_transaction_registered json_len id bc tx out bc' :
  registered id bc → add_transaction json_len bc tx = Ok (out, bc') → registered id bc'.
Proof.
  intros [? ? ? ? [Hp Hid]] H. unfold add_transaction in H. case_match; [done|]. case_match; [done|].
  apply bind_ok_inv in H as ([o p] & Hi & [= _ <-]).
  constructor; try done. cbn [bc_mempool with_mempool]. split; [by eapply insert_ok|].
  by rewrite (insert_chain_id _ _ _ _ _ Hi).
Qed.

Lemma adopt_registered id now bc chain wire txs diff bc' adopted :
  registered id bc → try_adopt_candidate vm_wasm bc now chain wire txs diff = Ok (bc', adopted) →
  registered id bc'.
Proof.
  intros Hr H%adopt_inv. destruct adopted; [|by subst].
  destruct H as (_ & _ & _ & Hch & Hcfg & Hco & Hw & Hp & Hid & _). destruct Hr as [Ei Er _ _ _].
  injection Hcfg as _ _ Er' Ei'. cbn in Hp, Hid.
  constructor; rewrite ?Hch; try congruence. split; [done|congruence].
Qed.

Lemma rebuild_registered id now bc bc' :
  registered id bc → rebuild_state_cache vm_wasm bc now = Ok bc' → registered id bc'.
Proof.
  intros [] H. unfold rebuild_state_cache in H. apply bind_ok_inv in H as ([c rs] & _ & [= <-]).
  constructor; try done. cbn [bc_codes bc_chain]. by subst.
Qed.

Lemma step_registered json_len id now bc bc' :
  registered id bc → node_step vm_wasm json_len now bc bc' → registered id bc'.
Proof.
  intros Hr []; eauto using commit_registered, mine_registered, add_transaction_registered,
    adopt_registered, rebuild_registered.
  match goal with H : grant_initial_balance_to_first_wallet _ _ _ _ _ = _ |- _ =>
    unfold grant_initial_balance_to_first_wallet in H;
    repeat (case_match; try (injection H as <- _; done); try done);
    apply bind_ok_inv in H as (bc1 & H & [= <- _]) end.
  by eapply grant_registered.
Qed.

(** ** Opening *)

Definition same_but_chain (bc bc' : Blockchain) : Prop :=
  bc_chain_id bc' = bc_chain_id bc ∧ bc_rules bc' = bc_rules bc ∧ bc_mempool bc' = bc_mempool bc
  ∧ bc_total_work bc' = bc_total_work bc ∧ bc_allow_grant_blocks bc' = bc_allow_grant_blocks bc.

(** The genesis block is that of the network: two nodes of it install the same one. *)
Lemma fresh_genesis_unique bc1 bc2 genesis_file b1 b2 :
  bc_chain_id bc1 = bc_chain_id bc2 → bc_rules bc1 = bc_rules bc2 →
  install_fresh_genesis bc1 genesis_file = Ok b1 → install_fresh_genesis bc2 genesis_file = Ok b2 →
  ∃ g, bc_chain b1 = bc_chain bc1 ++ [g] ∧ bc_chain b2 = bc_chain bc2 ++ [g]
    ∧ same_but_chain bc1 b1 ∧ same_but_chain bc2 b2.
Proof.
  intros Hid Hr H1 H2. unfold install_fresh_genesis in H1, H2. rewrite Hid, Hr in H1.
  apply bind_ok_inv in H1 as (g & Hg & H1). apply bind_ok_inv in H2 as (g' & Hg' & H2).
  rewrite Hg in Hg'. injection Hg' as <-. destruct (validate_genesis g _); try done.
  injection H1 as <-. injection H2 as <-. by exists g.
Qed.

Lemma migrate_addresses_registered id bc genesis_file bc' :
  registered id (with_registry bc (codes_from_chain (bc_chain bc) id)) →
  legacy_in_chain (bc_chain bc) = false
  ∨ (∃ bc0, bc_chain bc0 = [] ∧ bc_chain_id bc0 = id ∧ bc_rules bc0 = manager_new ∧
       ∃ b0, install_fresh_genesis bc0 genesis_file = Ok b0 ∧ bc_chain b0 = bc_chain bc) →
  migrate_addresses_to_bech32 bc genesis_file = Ok bc' →
  registered id (with_registry bc' (codes_from_chain (bc_chain bc') id)).
Proof.
  intros [Hid Hr _ Hw Hp] Hl H. 
  cbn [bc_chain_id bc_rules bc_chain bc_total_work bc_mempool with_registry] in Hid, Hr, Hw, Hp.
  unfold migrate_addresses_to_bech32 in H.
  destruct (foldl _ _ _) as [nb n]. set (bc1 := if (0 <? n)%nat then _ else bc) in H.
  assert (same_but_chain bc bc1 ∧ bc_chain bc1 = bc_chain bc) as ((I1 & R1 & M1 & W1 & _) & C1)
    by (unfold bc1; by destruct (0 <? n)%nat).
  rewrite C1 in H. destruct (legacy_in_chain (bc_chain bc)).
  - destruct Hl as [?|(bc0 & E0 & Hid0 & Hr0 & b0 & Hb0 & Eb0)]; [done|].
    destruct (fresh_genesis_unique bc0 (with_chain bc1 []) genesis_file b0 bc') as (g & G0 & G' & _ & S);
      [by cbn; congruence..|done|done|].
    destruct S as (I2 & R2 & M2 & W2 & _). cbn in G', I2, R2, M2, W2. rewrite E0 in G0. cbn in G0.
    assert (bc_chain bc' = bc_chain bc) as Ec by congruence.
    constructor; cbn [bc_chain_id bc_rules bc_codes bc_chain bc_total_work bc_mempool with_registry];
      [congruence|congruence|done|congruence|]. rewrite M2, M1. exact Hp.
  - injection H as <-. constructor; cbn [bc_chain_id bc_rules bc_codes bc_chain bc_total_work bc_mempool with_registry];
      [congruence|congruence|done|congruence|]. rewrite M1. exact Hp.
Qed.

Lemma open_registered db genesis_file id t t' bc db' :
  from_option (λ chain, legacy_in_chain chain = false) True (db_chain db) →
  open_blockchain vm_wasm db genesis_file id t t' = Ok (bc, db') → registered id bc.
Proof.
  intros Hl H. unfold open_blockchain in H. cbv zeta in H.
  destruct (reload_ok (ps_mempool_txs (load_persisted_state db)) (mempool_new id))
    as (p & Hp & Hok & Hid & _); [apply pool_new_ok|].
  cbn [bc_mempool blockchain_empty] in H. rewrite Hp in H. cbn [mbind result_bind] in H.
  apply bind_ok_inv in H as (bc1 & H1 & H). apply bind_ok_inv in H as (w & Hw & H).
  set (bc0 := with_mempool (blockchain_empty id) p) in H1.
  assert (same_but_chain bc0 bc1 ∧ (legacy_in_chain (bc_chain bc1) = false ∨
            install_fresh_genesis bc0 genesis_file = Ok bc1)) as ((I1 & R1 & M1 & _ & G1) & Hcase).
  { unfold load_chain in H1. cbn [ps_chain load_persisted_state] in H1.
    destruct (db_chain db) as [chain|]; cbn in Hl.
    - assert (bc1 = with_chain bc0 chain) as ->
        by (destruct (head chain); [case_match; try done|]; by injection H1 as <-).
      split; [done|by left].
    - by destruct (fresh_genesis_unique bc0 bc0 genesis_file bc1 bc1) as (_ & _ & _ & ? & _); [..|auto]. }
  apply bind_ok_inv in H as (bc2 & H2 & H). unfold migrate_initial_wallet_balance in H2.
  cbn [bc_allow_grant_blocks with_loaded] in H2. rewrite G1 in H2. injection H2 as <-.
  apply bind_ok_inv in H as (bc3 & H3 & [= <- _]).
  apply (migrate_addresses_registered id) in H3; [done| |].
  - constructor; cbn [bc_chain_id bc_rules bc_codes bc_chain bc_total_work bc_mempool with_registry with_loaded];
      [by rewrite I1|by rewrite R1|done|done|by rewrite M1].
  - destruct Hcase as [?|Hf]; [by left|]. right. exists bc0. split_and!; [done..|]. by exists bc1.
Qed.

(** ** Lives *)

(** Where the cached accounts stand: unverified, or those of the chain; in the second
    case, the chain at the last restart, if any. *)
Inductive Standing := Unverified | Verified (restart : option (list Block)).

Definition verified_if (b : bool) (st : Standing) : Standing := if b then st else Unverified.

(** [start_node] puts the configured flags on the node it has opened. *)
Definition configured (bc : Blockchain) (grants zero_roots : bool) : Blockchain :=
  set_allow_zero_state_root (set_allow_grant_blocks bc grants) zero_roots.

(** A node saved to [db] that opening can restore. *)
Record restorable (db : Db) (bc : Blockchain) : Prop := {
  rest_db : db_ok db;
  rest_slots : slots_typed (sc_contract_storage (bc_balances bc));
  rest_modern : modern bc;
  rest_genesis : ∃ b, head (bc_chain bc) = Some b ∧ validate_genesis b (bc_chain_id bc) = Ok tt
}.

Inductive node_life (json_len : Transaction → Z) (chain_id : Z) : Z → Standing → Blockchain → Prop :=
  | life_local now bc :
      clock_ok now → open_local vm_wasm chain_id now = Ok bc → bc_chain bc ≠ [] →
      node_life json_len chain_id now (Verified None) bc
  | life_start now db genesis_file t t' bc db' :
      clock_ok now → from_option (λ chain, legacy_in_chain chain = false) True (db_chain db) →
      open_blockchain vm_wasm db genesis_file chain_id t t' = Ok (bc, db') →
      node_life json_len chain_id now Unverified bc
  | life_step now now' st bc bc' :
      node_life json_len chain_id now st bc → now ≤ now' → clock_ok now' →
      node_step vm_wasm json_len now' bc bc' → node_life json_len chain_id now' st bc'
  | life_adopt now now' st bc chain wire txs difficulty bc' :
      node_life json_len chain_id now st bc → now ≤ now' → clock_ok now' →
      try_adopt_candidate vm_wasm bc now' chain wire txs difficulty = Ok (bc', true) →
      node_life json_len chain_id now' (Verified None) bc'
  | life_rebuild now now' st bc bc' :
      node_life json_len chain_id now st bc → now ≤ now' → clock_ok now' →
      rebuild_state_cache vm_wasm bc now' = Ok bc' →
      node_life json_len chain_id now' (Verified None) bc'
  | life_account now st bc address :
      node_life json_len chain_id now st bc →
      node_life json_len chain_id now (verified_if (cache_contains_key (bc_balances bc) address) st)
        (facade_ensure_account bc address)
  | life_flags now st bc grants zero_roots :
      node_life json_len chain_id now st bc →
      node_life json_len chain_id now
        (verified_if (eqb grants (bc_allow_grant_blocks bc) && eqb zero_roots (bc_allow_zero_state_root bc)) st)
        (configured bc grants zero_roots)
  | life_restart now now' r bc db genesis_file t t' bc' db' :
      node_life json_len chain_id now (Verified r) bc → now ≤ now' → clock_ok now' → restorable db bc →
      open_blockchain vm_wasm (save_state db bc) genesis_file chain_id t t' = Ok (bc', db') →
      node_life json_len chain_id now' (Verified (Some (bc_chain bc)))
        (configured bc' (bc_allow_grant_blocks bc) (bc_allow_zero_state_root bc)).

(** The receipts are those of the tip, or none while the chain is still the one [r]
    of the last restart. *)
Definition receipts_since (r : option (list Block)) (chain : list Block) (rs tip : list Receipt) : Prop :=
  rs = tip ∨ rs = [] ∧ r = Some chain.
#[local] Instance receipts_since_refl r chain : Reflexive (receipts_since r chain).
Proof. intros rs. by left. Qed.

Definition stands (now : Z) (st : Standing) (bc : Blockchain) : Prop :=
  match st with Unverified => True | Verified r => coherent vm_wasm (receipts_since r) now bc end.

Lemma stands_later now now' st bc : now ≤ now' → clock_ok now' → stands now st bc → stands now' st bc.
Proof. destruct st; [done|]. intros ? ? Hc. by eapply coherent_later. Qed.

Lemma verified_coherent id r now bc s :
  registered id bc → clock_ok now → valid_chain vm_wasm (bc_config bc now) (bc_chain bc) s →
  bc_balances bc = from_state s → receipts_since r (bc_chain bc) (bc_receipts bc) (receipts s) →
  stands now (Verified r) bc.
Proof. intros [<- ? ? ? [? ?]] ? ? ? ?. constructor; try done. by exists s. Qed.

Lemma local_registered id now bc :
  clock_ok now → open_local vm_wasm id now = Ok bc → bc_chain bc ≠ [] →
  registered id bc ∧ ∀ r, stands now (Verified r) bc.
Proof.
  intros Hk Ho Hne. assert (∀ r, stands now (Verified r) bc) as Hs.
  { intros r. apply (genesis_coherent vm_wasm _ now (local_empty id)); try done; apply pool_new_ok. }
  split; [|done]. destruct (Hs None) as [_ Hc Hw Hp _].
  assert (bc_chain_id bc = id ∧ bc_rules bc = manager_new) as [Ei Er].
  { unfold open_local, create_genesis_block in Ho. apply bind_ok_inv in Ho as (root & _ & Ho).
    apply bind_ok_inv in Ho as (g & _ & Ho). case_match; [|by injection Ho as <-|done].
    unfold install in Ho. by apply bind_ok_inv in Ho as (w & _ & [= <-]). }
  rewrite Ei in *. by constructor.
Qed.

Lemma adopt_stands id now bc chain wire txs d bc' :
  clock_ok now → registered id bc →
  try_adopt_candidate vm_wasm bc now chain wire txs d = Ok (bc', true) → stands now (Verified None) bc'.
Proof.
  intros Hk Hr H. pose proof (adopt_registered _ _ _ _ _ _ _ _ _ Hr H) as Hr'.
  apply adopt_inv in H as (_ & (s & Hv & Hb & Hrs & _) & _ & Hch & Hcfg & _).
  eapply (verified_coherent id _ _ _ s); [done|done|by rewrite Hch, Hcfg|done|by left].
Qed.

Lemma rebuild_stands id now bc bc' :
  clock_ok now → registered id bc → rebuild_state_cache vm_wasm bc now = Ok bc' →
  stands now (Verified None) bc'.
Proof.
  intros Hk Hr H. pose proof (rebuild_registered _ _ _ _ Hr H) as Hr'.
  unfold rebuild_state_cache in H. apply bind_ok_inv in H as ([c rs] & H & [= <-]).
  apply rebuild_iff in H as (s & Hv & -> & ->).
  eapply (verified_coherent id _ _ _ s); [done..|by left].
Qed.

Lemma ensure_present bc a :
  cache_contains_key (bc_balances bc) a = true → facade_ensure_account bc a = bc.
Proof.
  intros [x Hx]%bool_decide_eq_true. destruct bc as [? [m st]]. unfold facade_ensure_account, with_cache, ensure_account.
  cbn in *. do 2 f_equal. rewrite Hx. by apply insert_id.
Qed.

Lemma configured_same bc : configured bc (bc_allow_grant_blocks bc) (bc_allow_zero_state_root bc) = bc.
Proof. by destruct bc. Qed.

Lemma restart_stands id now r bc db gf t t' bc' db' :
  clock_ok now → registered id bc → stands now (Verified r) bc → restorable db bc →
  open_blockchain vm_wasm (save_state db bc) gf id t t' = Ok (bc', db') →
  let bc'' := configured bc' (bc_allow_grant_blocks bc) (bc_allow_zero_state_root bc) in
  registered id bc'' ∧ stands now (Verified (Some (bc_chain bc))) bc''.
Proof.
  intros Hk [<- Hru Hco Hw _] [(s & Hv & Hb & _) _ _ _ _] [? ? ? ?] Ho.
  destruct (restart_reopens vm_wasm db bc gf t t') as (p & Ho' & Hp & Hid & _); [done..|].
  rewrite Ho' in Ho. injection Ho as <- _. cbv zeta.
  assert (registered (bc_chain_id bc) (configured (reopened bc p) (bc_allow_grant_blocks bc)
            (bc_allow_zero_state_root bc))) as Hr by by constructor.
  split; [done|]. eapply (verified_coherent _ _ _ _ s); [done|done| |done|by right].
  unfold bc_config in *. by rewrite Hru in Hv.
Qed.

Lemma life_ok json_len id now st bc :
  node_life json_len id now st bc → clock_ok now ∧ registered id bc ∧ stands now st bc.
Proof.
  induction 1 as
    [now bc Hk Ho Hne|now db gf t t' bc db' Hk Hl Ho|now now' st bc bc' _ (? & Hr & Hs) Hle Hk Hst
    |now now' st bc ch wire txs d bc' _ (? & Hr & Hs) Hle Hk Ha|now now' st bc bc' _ (? & Hr & Hs) Hle Hk Hb
    |now st bc a _ (? & Hr & Hs)|now st bc g z _ (? & Hr & Hs)
    |now now' r bc db gf t t' bc' db' _ (? & Hr & Hs) Hle Hk Hre Ho].
  - by destruct (local_registered id now bc).
  - split_and!; [done|by eapply open_registered|done].
  - split_and!; [done|by eapply step_registered|]. apply (stands_later now now') in Hs; [|done..].
    destruct st; [done|]. by eapply node_step_coherent; [apply _|..].
  - split_and!; [done|by eapply adopt_registered|by eapply adopt_stands].
  - split_and!; [done|by eapply rebuild_registered|by eapply rebuild_stands].
  - split_and!; [done|by destruct Hr; constructor|].
    destruct (cache_contains_key _ a) eqn:E; [|done]. by rewrite ensure_present.
  - split_and!; [done|by destruct Hr; constructor|].
    destruct (eqb g _ && eqb z _) eqn:E; [|done].
    apply andb_true_iff in E as [->%eqb_prop ->%eqb_prop]. by rewrite configured_same.
  - split; [done|]. eapply restart_stands; [done|done|by eapply stands_later|done|done].
Qed.

(** C5: What a node keeps besides its chain, over its whole life.  However it
    starts (locally, on an empty database with the network's genesis, on a stored one,
    or by a restart; stored chains without legacy addresses), and whatever blocks,
    transactions, chains, wallet look-ups, flag settings and restarts follow, the clock
    never running backwards, its code registry and total work are those of its
    chain and its pool is well formed.  Whenever its standing is verified, a
    reconstruction of the chain yields exactly its cached accounts and storage, and its
    receipts are those of the tip, or none while the chain is still the one of the last
    restart.  A local start, every adopted chain and every rebuild of the cache verify
    the node; blocks, transactions and restarts keep it so (restarts with the same flags,
    of a node whose saved form opens again: storage slots of 32 bytes, no legacy address,
    the genesis of its network, stored transactions under their own keys).  A start on any other
    database does not verify it (the fresh genesis of a network leaves the cache empty),
    nor do an account added for a new wallet or a change of the flags, until the next
    adoption or rebuild. *)
Theorem node_state_sound json_len chain_id now st bc :
  node_life json_len chain_id now st bc →
  bc_chain_id bc = chain_id
  ∧ bc_codes bc = codes_from_chain (bc_chain bc) chain_id
  ∧ cumulative_work (E:=Node.StrangecoinError) (bc_chain bc) = Ok (bc_total_work bc)
  ∧ pool_ok (bc_mempool bc) ∧ mp_chain_id (bc_mempool bc) = chain_id
  ∧ ∀ restart, st = Verified restart →
      ∃ rs, rebuild_from_chain vm_wasm (bc_config bc now) (bc_chain bc) = Ok (bc_balances bc, rs)
        ∧ (bc_receipts bc = rs ∨ bc_receipts bc = [] ∧ restart = Some (bc_chain bc)).
Proof.
  intros (_ & [? _ ? ? [? ?]] & Hs)%life_ok. split_and!; [done..|]. intros r ->.
  destruct Hs as [(s & Hv & Hb & Hr) _ _ _ _]. exists (receipts s). split; [|exact Hr].
  apply rebuild_iff. by exists s.
Qed.

End Lifecycle.

(** ** A concrete life *)

#[local] Existing Instances toy_hex toy_blake3 toy_bech32 toy_secp toy_hex_ok toy_runtime.
#[local] Instance toy_base64 : Base64 := λ s, toy_unhex (as_bytes s).

(** A node started on an empty database, configured, given the chain of [node1], and
    restarted. *)
Definition fresh_node : Blockchain := Eval vm_compute in
  unwrap (fst <$> open_blockchain true blank_db None CHAIN_ID_REGTEST start start).
Definition synced_node : Blockchain := Eval vm_compute in
  unwrap (fst <$> try_adopt_candidate true (configured fresh_node true true) (start + 1) (bc_chain node1) None [] 0).
Definition restarted_node : Blockchain := Eval vm_compute in
  unwrap (fst <$> open_blockchain true (save_state blank_db synced_node) None CHAIN_ID_REGTEST start start).

Lemma fresh_node_opens :
  fst <$> open_blockchain true blank_db None CHAIN_ID_REGTEST start start = Ok fresh_node.
Proof. vm_compute. reflexivity. Qed.
Lemma synced_node_adopts :
  try_adopt_candidate true (configured fresh_node true true) (start + 1) (bc_chain node1) None [] 0
  = Ok (synced_node, true).
Proof. vm_compute. reflexivity. Qed.
Lemma restarted_node_opens :
  fst <$> open_blockchain true (save_state blank_db synced_node) None CHAIN_ID_REGTEST start start
  = Ok restarted_node.
Proof. vm_compute. reflexivity. Qed.

Lemma opens_with {A B} (r : result Node.StrangecoinError (A * B)) a : fst <$> r = Ok a → ∃ b, r = Ok (a, b).
Proof. destruct r as [[a' b]| |]; [|done..]. intros [= <-]. by exists b. Qed.

Lemma demo_life :
  node_life true no_json CHAIN_ID_REGTEST (start + 2) (Verified (Some (bc_chain synced_node)))
    (configured restarted_node true true).
Proof.
  destruct (opens_with _ _ fresh_node_opens) as [d0 H0]. destruct (opens_with _ _ restarted_node_opens) as [d1 H1].
  assert (node_life true no_json CHAIN_ID_REGTEST (start + 1) (Verified None) synced_node) as Hl.
  { eapply (life_adopt true no_json CHAIN_ID_REGTEST start (start + 1) _ (configured fresh_node true true));
      [|done|by_eval|exact synced_node_adopts].
    apply life_flags, (life_start true no_json CHAIN_ID_REGTEST start blank_db None start start fresh_node d0);
      [by_eval|done|exact H0]. }
  apply (life_restart true no_json CHAIN_ID_REGTEST (start + 1) (start + 2) None synced_node blank_db None
    start start restarted_node d1 Hl); [done|by_eval| |exact H1].
  split; [by_eval|by_eval|split; [by_eval|vm_compute; reflexivity]|].
  exists (hd (unsealed 0 0 [] "" "" 0) (bc_chain node1)). split; vm_compute; reflexivity.
Qed.

Lemma node_state_sound_witness :
  ∃ rs, rebuild_from_chain true (bc_config (configured restarted_node true true) (start + 2)) (bc_chain node1)
          = Ok (bc_balances node1, rs)
    ∧ bc_codes restarted_node = codes_from_chain (bc_chain node1) CHAIN_ID_REGTEST
    ∧ sc_accounts (bc_balances fresh_node) = ∅ ∧ bc_receipts restarted_node = [] ∧ rs = bc_receipts node1.
Proof.
  destruct (node_state_sound true no_json CHAIN_ID_REGTEST (start + 2) _ _ demo_life)
    as (_ & Hcodes & _ & _ & _ & Hs).
  destruct (Hs _ eq_refl) as (rs & Hr & _). exists rs. split; [exact Hr|]. split; [exact Hcodes|].
  split; [reflexivity|]. split; [reflexivity|].
  assert (rebuild_from_chain true (bc_config (configured restarted_node true true) (start + 2)) (bc_chain node1)
    = Ok (bc_balances node1, bc_receipts node1)) as E by (vm_compute; reflexivity).
  pose proof (eq_trans (eq_sym Hr) E) as E'. by injection E'.
Defined.
