(* ===== verification/Sync.v ===== *)
(** * Headers-first sync (crates/strangecoin-net/src/sync.rs)

    The header cache and its ingestion, fork choice over headers, and the
    download loop against one peer.  The encrypted session with the peer is the
    class [SyncPeer]: one request payload out, one reply payload in; the handshake
    that opens the session is not modelled.  The peer's serving side
    ([serve_request]) is the read-only part of the connection loop. *)

From S2P Require Import Prelude Bytes U256 Abi Types Serialize Consensus Net Compact Gossip.
From stdpp Require Import gmap sets.
Open Scope Z_scope.

Definition invalid_block (msg : string) : NetError := Protocol ("invalid block: " +:+ msg).
Definition shutdown_error : NetError := Transport "sync aborted by shutdown".

(** ** Header cache *)

Record HeaderCache := {
  hc_by_hash : gmap string BlockHeader;
  hc_max_index : option Z
}.

Definition header_cache_new : HeaderCache := {| hc_by_hash := ∅; hc_max_index := None |}.
Definition header_cache_len (c : HeaderCache) : nat := size (hc_by_hash c).
Definition cache_headers (c : HeaderCache) : list BlockHeader := (map_to_list (hc_by_hash c)).*2.

Definition header_cache_insert (c : HeaderCache) (h : BlockHeader) : HeaderCache := {|
  hc_by_hash := <[h_hash h := h]> (hc_by_hash c);
  hc_max_index := Some (match hc_max_index c with Some m => m `max` h_index h | None => h_index h end)
|}.

Record BranchPlan := {
  bp_fork_index : Z;
  bp_headers : list BlockHeader;
  bp_candidate_info : ChainInfo
}.

Record SyncOutcome := {
  so_candidate : option (list Block);
  so_headers_ingested : nat;
  so_blocks_downloaded : nat;
  so_peer_tip_height : Z
}.

(** A peer's session at the level of payloads, with the shutdown flag as it is
    polled between requests. *)
Class SyncPeer (P : Type) := {
  shutdown : P → bool;
  request : P → list byte → result NetError (list byte) * P
}.

Section Sync.
Context `{HX : Hex, B3 : Blake3}.

(** The link test of one header: [prev] the header accepted before it in the batch. *)
Definition linked (c : HeaderCache) (local_hashes : gset string) (prev : option (string * Z))
    (h : BlockHeader) : bool :=
  match prev with
  | Some (hash, index) => bool_decide (h_previous_hash h = hash) && (h_index h =? wrap64 (index + 1))
  | None => (h_index h =? 0)
            || bool_decide (is_Some (hc_by_hash c !! h_previous_hash h))
            || bool_decide (h_previous_hash h ∈ local_hashes)
  end.

Fixpoint ingest_loop {E} (local_hashes : gset string) (c : HeaderCache) (prev : option (string * Z))
    (accepted : nat) (batch : list BlockHeader) : result E (HeaderCache * nat) :=
  match batch with
  | [] => Ok (c, accepted)
  | h :: batch =>
      match validate_header_pow h with
      | Panic => Panic
      | Err _ => Ok (c, accepted)
      | Ok _ =>
          if negb (linked c local_hashes prev h) then Ok (c, accepted) else
          ingest_loop local_hashes (header_cache_insert c h) (Some (h_hash h, h_index h)) (S accepted) batch
      end
  end.

Definition ingest {E} (c : HeaderCache) (batch : list BlockHeader) (local_hashes : gset string)
    : result E (HeaderCache * nat) :=
  ingest_loop local_hashes c None 0 batch.

(** ** Branch plan *)

(** The ancestry ending at [current], ascending; [steps] more parents may be
    looked up, the rest of the walk is in [chain]. *)
Fixpoint walk (c : HeaderCache) (steps : nat) (current : BlockHeader) (chain : list BlockHeader)
    : option (list BlockHeader) :=
  let chain := current :: chain in
  if h_index current =? 0 then Some chain else
  match steps with
  | O => None
  | S steps => parent ← hc_by_hash c !! h_previous_hash current; walk c steps parent chain
  end.

Definition walk_ancestry (c : HeaderCache) (tip : BlockHeader) : option (list BlockHeader) :=
  walk c (header_cache_len c) tip [].

Definition tips (c : HeaderCache) : list BlockHeader :=
  let parents : gset string := list_to_set (h_previous_hash <$> cache_headers c) in
  filter (λ h, h_hash h ∉ parents) (cache_headers c).

Definition branch_info {E} (tip : BlockHeader) (ancestry : list BlockHeader) : result E ChainInfo :=
  work ← cumulative_work_headers ancestry;
  Ok {| ci_tip_height := h_index tip; ci_tip_hash := h_hash tip; ci_total_work := work;
        ci_tip_timestamp := h_timestamp tip |}.

(** One tip of the search for the best branch. *)
Definition consider {E} (c : HeaderCache) (genesis : string) (best : option (list BlockHeader * ChainInfo))
    (tip : BlockHeader) : result E (option (list BlockHeader * ChainInfo)) :=
  match walk_ancestry c tip with
  | None => Ok best
  | Some ancestry =>
      if negb (bool_decide (h_hash <$> head ancestry = Some genesis)) then Ok best else
      info ← branch_info tip ancestry;
      let better := match best with None => true | Some (_, current) => is_better info current end in
      Ok (if better then Some (ancestry, info) else best)
  end.

(** The number of leading headers shared with the local chain, and the index of
    the last of them. *)
Fixpoint fork_point (fork_index : Z) (shared : nat) (ancestry : list BlockHeader) (local_chain : list Block)
    : Z * nat :=
  match ancestry, local_chain with
  | hdr :: ancestry, local :: local_chain =>
      if bool_decide (h_hash hdr = b_hash local)
      then fork_point (h_index hdr) (S shared) ancestry local_chain
      else (fork_index, shared)
  | _, _ => (fork_index, shared)
  end.

Definition plan_best_branch {E} (local_chain : list Block) (c : HeaderCache) : result E (option BranchPlan) :=
  match local_chain with
  | [] => Ok None
  | genesis :: _ =>
      if (header_cache_len c =? 0)%nat then Ok None else
      local ← chain_info local_chain;
      match local with
      | None => Ok None
      | Some local_info =>
          best ← foldM (consider c (b_hash genesis)) None (tips c);
          match best with
          | None => Ok None
          | Some (ancestry, candidate_info) =>
              if negb (is_better candidate_info local_info) then Ok None else
              let '(fork_index, shared) := fork_point 0 0 ancestry local_chain in
              if (shared =? 0)%nat || (length local_chain <? shared)%nat then Ok None else
              match drop shared ancestry with
              | [] => Ok None
              | headers => Ok (Some {| bp_fork_index := fork_index; bp_headers := headers;
                                       bp_candidate_info := candidate_info |})
              end
          end
      end
  end.

(** ** Download *)

Section Download.
Context {P : Type} `{SP : SyncPeer P}.

(** Phase 1.  [None] is a loop that has not ended within [fuel] requests. *)
Fixpoint header_phase (fuel : nat) (local_hashes : gset string) (p : P) (c : HeaderCache) (from_height : Z)
    : option (result NetError (HeaderCache * P)) :=
  match fuel with
  | O => None
  | S fuel =>
      if shutdown p then Some (Err shutdown_error) else
      let '(reply, p) := request p (encode_get_headers from_height) in
      match (payload ← reply; parse_headers payload) with
      | Err e => Some (Err e)
      | Panic => Some Panic
      | Ok [] => Some (Ok (c, p))
      | Ok headers =>
          match ingest c headers local_hashes with
          | Err e => Some (Err e)
          | Panic => Some Panic
          | Ok (_, O) => Some (Err (invalid_block "headers-first: peer sent no valid header"))
          | Ok (c, accepted) =>
              if (lenZ headers <? MAX_HEADERS_BATCH) || (accepted <? length headers)%nat
              then Some (Ok (c, p))
              else header_phase fuel local_hashes p c
                     (match hc_max_index c with Some m => wrap64 (m + 1) | None => 0 end)
          end
      end
  end.

Definition requested_hash (h : BlockHeader) : result NetError (list byte) :=
  bytes ← ok_or (hex_decode (h_hash h)) (invalid_block "headers-first: non-hex header hash");
  if negb (length bytes =? 32)%nat then Err (invalid_block "headers-first: bad header hash") else Ok bytes.

(** The check of one body: [seen] the hashes received before it in the batch. *)
Definition check_body (expected : gset string) (seen : gset string) (b : Block)
    : result NetError (gset string) :=
  hash ← block_hash b;
  let actual := hex_encode hash in
  if negb (bool_decide (actual = b_hash b)) || negb (bool_decide (actual ∈ expected))
  then Err (invalid_block "headers-first: block hash mismatch")
  else Ok ({[ actual ]} ∪ seen).

(** One chunk of phase 3: the bodies it brought. *)
Definition fetch_chunk (p : P) (chunk : list BlockHeader) : result NetError (list Block * P) :=
  if shutdown p then Err shutdown_error else
  requested ← mapM_result requested_hash chunk;
  payload ← encode_get_blocks requested;
  let '(reply, p) := request p payload in
  payload ← reply;
  batch ← parse_blocks payload;
  seen ← foldM (check_body (list_to_set (h_hash <$> chunk))) ∅ batch;
  if negb (size seen =? length batch)%nat || (length chunk <? length batch)%nat
  then Err (invalid_block "headers-first: duplicate blocks in response")
  else Ok (batch, p).

Fixpoint body_phase (total : nat) (p : P) (blocks : list Block) (cs : list (list BlockHeader))
    : result NetError (list Block * P) :=
  match cs with
  | [] => Ok (blocks, p)
  | chunk :: cs =>
      '(batch, p) ← fetch_chunk p chunk;
      let blocks := blocks ++ batch in
      if (length blocks =? total)%nat then Ok (blocks, p) else body_phase total p blocks cs
  end.

(** Phases 2 to 4. *)
Definition download (local_chain : list Block) (c : HeaderCache) (p : P) : result NetError (SyncOutcome * P) :=
  plan ← plan_best_branch local_chain c;
  match plan with
  | None => Ok ({| so_candidate := None; so_headers_ingested := header_cache_len c; so_blocks_downloaded := 0;
                   so_peer_tip_height := default 0 (hc_max_index c) |}, p)
  | Some plan =>
      let headers := bp_headers plan in
      '(blocks, p) ← body_phase (length headers) p []
                       (chunks (length headers) (Z.to_nat MAX_BLOCKS_BATCH) headers);
      if negb (length blocks =? length headers)%nat
      then Err (invalid_block ("headers-first: got " +:+ pretty (lenZ blocks) +:+ " of "
                               +:+ pretty (lenZ headers) +:+ " blocks")) else
      (* [local_chain[..=fork_index]] *)
      if lenZ local_chain <=? bp_fork_index plan then Panic else
      Ok ({| so_candidate := Some (take (Z.to_nat (bp_fork_index plan + 1)) local_chain ++ blocks);
             so_headers_ingested := header_cache_len c; so_blocks_downloaded := length headers;
             so_peer_tip_height := ci_tip_height (bp_candidate_info plan) |}, p)
  end.

Definition sync_headers_first (fuel : nat) (local_chain : list Block) (p : P)
    : option (result NetError (SyncOutcome * P)) :=
  let local_hashes := list_to_set (b_hash <$> local_chain) in
  match header_phase fuel local_hashes p header_cache_new 0 with
  | None => None
  | Some (Ok (c, p)) => Some (download local_chain c p)
  | Some (Err e) => Some (Err e)
  | Some Panic => Some Panic
  end.

End Download.

(** ** The serving side *)

(** The reply to a sync request; [None] when the peer answers nothing. *)
Definition serve_request {C} `{BV : BlockchainView C} (c : C) (payload : list byte) : option (list byte) :=
  match decode_message payload with
  | Ok (GetHeaders from_height) =>
      match encode_headers (bv_headers_from_height c from_height (Z.to_nat MAX_HEADERS_BATCH)) with
      | Ok out => Some out
      | _ => None
      end
  | Ok (GetBlocks hashes) =>
      match encode_blocks (bv_blocks_by_hashes c hashes (Z.to_nat MAX_BLOCKS_BATCH)) with
      | Ok out => Some out
      | _ => None
      end
  | _ => None
  end.

End Sync.
