(* ===== verification/View.v ===== *)
(** * The node as the network sees it (src/blockchain/blockchain_facade.rs)

    The implementation of [BlockchainView] by the node's chain and pool, the laws
    the gossip handlers rely on, and a peer that answers sync requests from it. *)

From S2P Require Import Prelude Bytes U256 Abi Types Address Serialize SerializeProps Consensus Mempool MempoolProps Net Compact Gossip GossipProps Chain Sync.
Open Scope Z_scope.

Section View.
Context `{HX : Hex, B3 : Blake3, B32 : Bech32, SK : Secp256k1}.

Definition facade_view : BlockchainView Blockchain := {|
  bv_tip_hash bc := from_option b_hash "" (last (bc_chain bc));
  bv_chain_len bc := length (bc_chain bc);
  bv_chain_contains_tx bc tx := chain_has_tx (bc_chain bc) tx;
  bv_mempool_contains bc id := mempool_contains (bc_mempool bc) id;
  bv_mempool_tx bc id := mempool_get (bc_mempool bc) id;
  bv_mempool_txs bc := transactions (bc_mempool bc);
  bv_block_by_hash bc h := block_by_hash (bc_chain bc) h;
  bv_chain_contains_block bc h := chain_contains_block (bc_chain bc) h;
  bv_headers_from_height bc from max := headers_from_height (bc_chain bc) from max;
  bv_blocks_by_hashes bc hashes max := blocks_by_hashes (bc_chain bc) hashes max
|}.
#[export] Existing Instance facade_view.

#[export] Program Instance facade_view_ok : ViewOk Blockchain := {| view_inv bc := pool_ok (bc_mempool bc) |}.
Next Obligation. done. Qed.
Next Obligation. intros bc id tx Hp H. by apply (pool_txs _ Hp) in H as (? & _). Qed.
Next Obligation.
  intros bc h. change (chain_contains_block (bc_chain bc) h
    = bool_decide (is_Some (block_by_hash (bc_chain bc) h))).
  unfold chain_contains_block, block_by_hash. apply Bool.eq_iff_eq_true.
  rewrite bool_decide_eq_true, fmap_is_Some, existsb_exists. split.
  - intros (b & Hb & E%bool_decide_eq_true). by eapply list_find_elem_of; [apply list_elem_of_In|].
  - intros [[i b] H]. apply list_find_Some in H as (Hl & E & _). exists b.
    split; [by apply list_elem_of_In; eapply list_elem_of_lookup_2|by apply bool_decide_eq_true].
Qed.
Next Obligation.
  intros bc h b _ H. apply fmap_Some in H as ([i b'] & H & ->). by apply list_find_Some in H as (_ & ? & _).
Qed.

(** A node that answers sync requests from its chain. *)
#[export] Instance serving_peer : SyncPeer Blockchain := {|
  shutdown _ := false;
  request bc payload := (match serve_request bc payload with
                         | Some out => Ok out
                         | None => Err (Transport "sync I/O timeout")
                         end, bc)
|}.
End View.
