(* ===== verification/SyncProps.v ===== *)
(** * Properties of headers-first sync

    What ingestion accepts, the branch fork choice plans, the bodies a round may
    deliver, and the whole round against a peer that serves its chain. *)

From S2P Require Import Prelude Bytes U256 Abi Types Concrete Serialize SerializeProps Consensus ConsensusProps Net NetProps Compact CompactProps Erlay ErlayProps Gossip GossipProps Chain Sync.
From stdpp Require Import gmap sets.
Open Scope Z_scope.

Section Ingest.
Context `{HX : Hex, HXok : !HexOk, B3 : Blake3, B3ok : !Blake3Ok}.

(** Each header after the first names its predecessor and the next index. *)
Definition follows (a b : BlockHeader) : Prop :=
  h_previous_hash b = h_hash a ∧ h_index b = wrap64 (h_index a + 1).

Fixpoint links (prev : option BlockHeader) (hs : list BlockHeader) : Prop :=
  match hs with
  | [] => True
  | h :: hs => match prev with Some a => follows a h | None => True end ∧ links (Some h) hs
  end.

(** The parent of the first header of a batch is known, or it is a genesis. *)
Definition anchored (c : HeaderCache) (local : gset string) (h : BlockHeader) : Prop :=
  h_index h = 0 ∨ is_Some (hc_by_hash c !! h_previous_hash h) ∨ h_previous_hash h ∈ local.

Definition pow_ok (h : BlockHeader) : Prop := validate_header_pow h = Ok tt.

(** Why ingestion stops before [h], [a] the header accepted last. *)
Definition refused (c : HeaderCache) (local : gset string) (a : option BlockHeader) (h : BlockHeader) : Prop :=
  ¬ pow_ok h ∨ match a with Some a => ¬ follows a h | None => ¬ anchored c local h end.

Definition insert_all (c : HeaderCache) (hs : list BlockHeader) : HeaderCache := foldl header_cache_insert c hs.

Definition prev_of (a : option BlockHeader) : option (string * Z) := (λ h, (h_hash h, h_index h)) <$> a.

Lemma linked_true c local a h :
  linked c local (prev_of a) h = true ↔ match a with Some a => follows a h | None => anchored c local h end.
Proof.
  destruct a as [a|]; cbn.
  - rewrite andb_true_iff, bool_decide_eq_true, Z.eqb_eq. done.
  - rewrite !orb_true_iff, !bool_decide_eq_true, Z.eqb_eq. unfold anchored. tauto.
Qed.

(** The loop: [a] the header accepted last, [c] the cache with it. *)
Lemma ingest_loop_spec {E} local batch c0 c a k c' n :
  match a with Some _ => True | None => c0 = c end →
  ingest_loop (E:=E) local c (prev_of a) k batch = Ok (c', n) →
  ∃ acc rest, batch = acc ++ rest ∧ n = (k + length acc)%nat ∧ c' = insert_all c acc
    ∧ Forall pow_ok acc ∧ links a acc
    ∧ match a, acc with None, h :: _ => anchored c0 local h | _, _ => True end
    ∧ match rest with
      | [] => True
      | h :: _ => refused c0 local (match last acc with Some l => Some l | None => a end) h
      end.
Proof.
  revert c a k. induction batch as [|h batch IH]; intros c a k Hc; cbn [ingest_loop].
  { intros [= <- <-]. exists [], []. cbn. split_and!; first [done|lia|by constructor|by destruct a]. }
  destruct (validate_header_pow h) as [[]| |] eqn:Ep; [| |done].
  2: { intros [= <- <-]. exists [], (h :: batch). cbn.
       split_and!; first [done|lia|by constructor|by destruct a|idtac]. left. unfold pow_ok. by rewrite Ep. }
  destruct (linked c local (prev_of a) h) eqn:El; cbn [negb].
  - intros H. apply (IH _ (Some h)) in H as (acc & rest & -> & -> & -> & Hp & Hl & _ & Hr); [|done].
    exists (h :: acc), rest. apply linked_true in El. split_and!; [done|cbn; lia|done|by constructor| | |].
    + cbn [links]. split; [by destruct a|done].
    + destruct a; [done|]. by subst c0.
    + destruct rest; [done|]. rewrite last_cons. by destruct (last acc).
  - intros [= <- <-]. exists [], (h :: batch). cbn.
    split_and!; first [done|lia|by constructor|by destruct a|idtac]. right.
    assert (¬ linked c local (prev_of a) h = true) as Hn by congruence. rewrite linked_true in Hn.
    destruct a; [done|]. by subst c0.
Qed.

Lemma ingest_spec {E} c batch local c' n :
  ingest (E:=E) c batch local = Ok (c', n) →
  ∃ acc rest, batch = acc ++ rest ∧ n = length acc ∧ c' = insert_all c acc
    ∧ Forall pow_ok acc ∧ links None acc
    ∧ match head acc with Some h => anchored c local h | None => True end
    ∧ match rest with [] => True | h :: _ => refused c local (last acc) h end.
Proof.
  intros H. apply (ingest_loop_spec _ _ c c None) in H as (acc & rest & ? & -> & ? & ? & ? & Ha & Hr); [|done].
  exists acc, rest. split_and!; try done; [by destruct acc|]. destruct rest; [done|].
  by destruct (last acc).
Qed.

(** ** The cache invariant *)

(** Every entry is under its own hash, passed the work check and is within the
    largest index. *)
Definition cache_ok (c : HeaderCache) : Prop :=
  map_Forall (λ k h, h_hash h = k ∧ pow_ok h
    ∧ match hc_max_index c with Some m => h_index h ≤ m | None => False end) (hc_by_hash c).

Lemma header_cache_new_ok : cache_ok header_cache_new.
Proof. apply map_Forall_empty. Qed.

Lemma header_cache_insert_ok c h : cache_ok c → pow_ok h → cache_ok (header_cache_insert c h).
Proof.
  intros Hc Hp k h' Hk. cbn in *. apply lookup_insert_Some in Hk as [[<- <-]|[_ Hk]].
  - split_and!; [done..|]. destruct (hc_max_index c); lia.
  - destruct (Hc k h' Hk) as (? & ? & Hm). split_and!; [done..|]. destruct (hc_max_index c); [lia|done].
Qed.

Lemma insert_all_ok hs c : cache_ok c → Forall pow_ok hs → cache_ok (insert_all c hs).
Proof.
  intros Hc H. revert c Hc. induction H as [|h hs Hh _ IH]; intros c Hc; [done|]. by apply IH, header_cache_insert_ok.
Qed.

Lemma ingest_ok {E} c batch local c' n : cache_ok c → ingest (E:=E) c batch local = Ok (c', n) → cache_ok c'.
Proof. intros Hc H. apply ingest_spec in H as (acc & ? & _ & _ & -> & ? & _). by apply insert_all_ok. Qed.

(** ingesting a batch of headers keeps the longest prefix of it in which every
    header meets its own target, links to its predecessor by hash and index, and
    starts at a genesis or at a known header; the header after that prefix fails one
    of these tests.  The cache then holds the old entries and exactly that prefix,
    each under its own hash, all of them with valid proof of work, and its largest
    index bounds them. *)
Theorem ingest_accepts_valid_prefix c batch local c' n :
  cache_ok c → ingest (E:=NetError) c batch local = Ok (c', n) →
  cache_ok c' ∧ c' = insert_all c (take n batch) ∧ (n ≤ length batch)%nat
  ∧ Forall pow_ok (take n batch) ∧ links None (take n batch)
  ∧ (∀ h, head (take n batch) = Some h → anchored c local h)
  ∧ (∀ h, batch !! n = Some h → refused c local (last (take n batch)) h).
Proof.
  intros Hc H. pose proof (ingest_ok _ _ _ _ _ Hc H) as Hc'.
  apply ingest_spec in H as (acc & rest & -> & -> & -> & Hp & Hl & Ha & Hr).
  rewrite take_app_length. split_and!; try done.
  - rewrite length_app. lia.
  - intros h E. by rewrite E in Ha.
  - intros h E. rewrite lookup_app_r, Nat.sub_diag in E by lia. destruct rest; [done|]. by injection E as ->.
Qed.
End Ingest.

(** ** Fork choice over headers *)

Section Plan.
Context `{HX : Hex, HXok : !HexOk, B3 : Blake3, B3ok : !Blake3Ok}.

Definition cached (c : HeaderCache) (h : BlockHeader) : Prop := hc_by_hash c !! h_hash h = Some h.

(** Each header of the list names the one before it as its parent. *)
Fixpoint connected (hs : list BlockHeader) : Prop :=
  match hs with
  | a :: (b :: _) as hs => h_previous_hash b = h_hash a ∧ connected hs
  | _ => True
  end.

Lemma connected_cons a b hs :
  connected (a :: b :: hs) ↔ h_previous_hash b = h_hash a ∧ connected (b :: hs).
Proof. done. Qed.

Lemma walk_spec c steps cur chain anc :
  cache_ok c → walk c steps cur chain = Some anc → connected (cur :: chain) →
  ∃ pre, anc = pre ++ cur :: chain ∧ Forall (cached c) pre ∧ connected anc
    ∧ h_index <$> head anc = Some 0.
Proof.
  intros Hc. revert cur chain. induction steps as [|steps IH]; intros cur chain H Hl; cbn [walk] in H;
    cbv zeta in H; destruct (Z.eqb_spec (h_index cur) 0) as [E0|E0].
  1, 3: injection H as <-; exists []; cbn; rewrite E0; split_and!; [done|constructor|exact Hl|done].
  { done. }
  apply bind_Some in H as (par & Hp & H). destruct (Hc _ _ Hp) as (Eh & _ & _).
  apply IH in H as (pre & -> & Hpre & Hcon & Hhd); [|by rewrite connected_cons].
  exists (pre ++ [par]). rewrite <- (assoc_L (++)). split_and!; [done| |done|done].
  apply Forall_app. split; [done|]. apply Forall_singleton. unfold cached. by rewrite Eh.
Qed.

Lemma elem_of_cache_headers c h : cache_ok c → h ∈ cache_headers c ↔ cached c h.
Proof.
  intros Hc. unfold cache_headers, cached. rewrite list_elem_of_fmap. split.
  - intros ([k h'] & -> & Hin). apply elem_of_map_to_list in Hin. cbn. by destruct (Hc _ _ Hin) as (-> & _).
  - intros H. exists (h_hash h, h). split; [done|]. by apply elem_of_map_to_list.
Qed.

Lemma walk_ancestry_spec c tip anc :
  cache_ok c → cached c tip → walk_ancestry c tip = Some anc →
  Forall (cached c) anc ∧ connected anc ∧ h_index <$> head anc = Some 0 ∧ last anc = Some tip.
Proof.
  intros Hc Ht H. apply walk_spec in H as (pre & -> & Hp & Hcon & Hh); [|done|done].
  split_and!; [apply Forall_app; by repeat constructor|done|done|by rewrite last_snoc].
Qed.

Lemma cached_pow c h : cache_ok c → cached c h → pow_ok h.
Proof. intros Hc H. by destruct (Hc _ _ H) as (_ & ? & _). Qed.

Lemma pow_valid_target h : pow_ok h → valid_target (h_target h).
Proof.
  unfold pow_ok. intros H. pose proof H as H'. unfold validate_header_pow in H'.
  apply bind_ok_inv in H' as (hash & Hh & _).
  by destruct (proj1 (validate_header_pow_correct h hash Hh) H) as (_ & Hv & _).
Qed.

Lemma branch_info_ok {E} c tip anc :
  cache_ok c → Forall (cached c) anc →
  ∃ info, branch_info (E:=E) tip anc = Ok info ∧ wf_info info ∧ ci_tip_hash info = h_hash tip
    ∧ ci_tip_height info = h_index tip ∧ ci_tip_timestamp info = h_timestamp tip
    ∧ limbs_val (ci_total_work info) = sumZ ((λ h, work_val (h_target h)) <$> anc) mod 2 ^ 256.
Proof.
  intros Hc Ha. destruct (fold_work_spec (E:=E) h_target anc u256_zero) as (w & Ew & Hw & Vw); [by_eval| |].
  { eapply Forall_impl; [exact Ha|]. intros h Hh. by eapply pow_valid_target, cached_pow. }
  unfold branch_info, cumulative_work_headers. rewrite Ew. cbn [mbind result_bind]. eexists.
  split_and!; [done|exact Hw|done..|]. cbn. rewrite Vw. f_equal.
Qed.

(** A branch of the cache that shares the local genesis. *)
Definition branch (c : HeaderCache) (genesis : string) (tip : BlockHeader) (anc : list BlockHeader)
    (info : ChainInfo) : Prop :=
  walk_ancestry c tip = Some anc ∧ h_hash <$> head anc = Some genesis
  ∧ branch_info (E:=NetError) tip anc = Ok info.

(** [best] is a branch of one of [ts] and none of them beats it. *)
Definition best_of (c : HeaderCache) (genesis : string) (ts : list BlockHeader)
    (best : option (list BlockHeader * ChainInfo)) : Prop :=
  match best with
  | None => ∀ tip anc info, tip ∈ ts → ¬ branch c genesis tip anc info
  | Some (anc, info) =>
      (∃ tip, tip ∈ ts ∧ branch c genesis tip anc info)
      ∧ ∀ tip anc' info', tip ∈ ts → branch c genesis tip anc' info' → is_better info' info = false
  end.

Lemma branch_wf c genesis tip anc info :
  cache_ok c → cached c tip → branch c genesis tip anc info → wf_info info.
Proof.
  intros Hc Ht (Hw & _ & Hb). apply walk_ancestry_spec in Hw as (Ha & _); [|done|done].
  destruct (branch_info_ok (E:=NetError) c tip anc Hc Ha) as (i & Ei & Hi & _).
  rewrite Hb in Ei. by apply ok_inj in Ei as <-.
Qed.

Lemma branch_det c genesis tip anc info anc' info' :
  branch c genesis tip anc info → branch c genesis tip anc' info' → anc = anc' ∧ info = info'.
Proof.
  intros (Hw & _ & Hi) (Hw' & _ & Hi'). rewrite Hw in Hw'. injection Hw' as <-.
  rewrite Hi in Hi'. by apply ok_inj in Hi'.
Qed.

Lemma branch_not_better c genesis tip anc info :
  cache_ok c → cached c tip → branch c genesis tip anc info → is_better info info = false.
Proof.
  intros Hc Ht Hb. pose proof (branch_wf c genesis tip anc info Hc Ht Hb) as W.
  destruct (is_better info info) eqn:E; [|done]. apply is_better_spec in E; [|done..].
  by apply better_irrefl in E.
Qed.

Lemma not_better_trans a b c : wf_info a → wf_info b → wf_info c →
  is_better a c = false → is_better b c = true → is_better a b = false.
Proof.
  intros Wa Wb Wc Hac Hbc. destruct (is_better a b) eqn:E; [|done].
  apply is_better_spec in Hbc, E; [|done..].
  assert (is_better a c = true) by (apply is_better_spec; [done..|]; by eapply better_trans). congruence.
Qed.

Lemma consider_step c genesis ts best tip best' :
  cache_ok c → Forall (cached c) (tip :: ts) → best_of c genesis ts best →
  consider (E:=NetError) c genesis best tip = Ok best' → best_of c genesis (ts ++ [tip]) best'.
Proof.
  intros Hc Hcs Hb H. apply Forall_cons in Hcs as [Htip Hts]. unfold consider in H.
  assert (∀ t, t ∈ ts → cached c t) as Hin by (by apply Forall_forall).
  assert (∀ b, (∀ anc info, ¬ branch c genesis tip anc info) → best_of c genesis ts b → best_of c genesis (ts ++ [tip]) b) as Hskip.
  { intros [[anc info]|] Hn Hbo; cbn in Hbo |- *.
    - destruct Hbo as [(t & Ht & Hbr) Hbo]. split; [exists t; set_solver|].
      intros t' anc' info' [Ht' | ->%list_elem_of_singleton]%elem_of_app Hbr'; [by eapply Hbo|by destruct (Hn anc' info')].
    - intros t anc info [Ht | ->%list_elem_of_singleton]%elem_of_app; [by apply Hbo|apply Hn]. }
  destruct (walk_ancestry c tip) as [anc|] eqn:Ew.
  2: { apply ok_inj in H as <-. apply Hskip; [|done]. intros anc info (Hw & _). congruence. }
  destruct (bool_decide_reflect (h_hash <$> head anc = Some genesis)) as [Eg|Eg]; cbn [negb] in H.
  2: { apply ok_inj in H as <-. apply Hskip; [|done]. intros anc' info (Hw & Hg & _). congruence. }
  apply bind_ok_inv in H as (info & Ei & H). cbv zeta in H. apply ok_inj in H as <-.
  assert (branch c genesis tip anc info) as Hbr by done.
  destruct best as [[anc0 info0]|]; cbn in Hb |- *.
  - destruct Hb as [(t0 & Ht0 & Hbr0) Hopt].
    destruct (is_better info info0) eqn:Eb; split.
    + exists tip. split; [set_solver|done].
    + intros t anc' info' [Ht | ->%list_elem_of_singleton]%elem_of_app Hbr'.
      * apply (not_better_trans _ _ info0); eauto using branch_wf.
      * destruct (branch_det _ _ _ _ _ _ _ Hbr Hbr') as [<- <-]. by eapply branch_not_better.
    + exists t0. split; [set_solver|done].
    + intros t anc' info' [Ht | ->%list_elem_of_singleton]%elem_of_app Hbr'; [by eapply Hopt|].
      by destruct (branch_det _ _ _ _ _ _ _ Hbr Hbr') as [<- <-].
  - split; [exists tip; split; [set_solver|done]|].
    intros t anc' info' [Ht | ->%list_elem_of_singleton]%elem_of_app Hbr'; [by destruct (Hb t anc' info')|].
    destruct (branch_det _ _ _ _ _ _ _ Hbr Hbr') as [<- <-]. by eapply branch_not_better.
Qed.

Lemma consider_fold c genesis rest ts best best' :
  cache_ok c → Forall (cached c) (ts ++ rest) → best_of c genesis ts best →
  foldM (consider (E:=NetError) c genesis) best rest = Ok best' → best_of c genesis (ts ++ rest) best'.
Proof.
  intros Hc. revert ts best. induction rest as [|t rest IH]; intros ts best Hcs Hb H; cbn [foldM] in H.
  { apply ok_inj in H as <-. by rewrite (right_id_L [] (++)). }
  apply bind_ok_inv in H as (b1 & H1 & H). rewrite cons_middle, (assoc_L (++)) in *.
  eapply IH; [done| |done]. eapply consider_step; [done| |done|done].
  apply Forall_app in Hcs as [[??]%Forall_app _]. constructor; [|done]. by apply Forall_singleton.
Qed.

Lemma tips_cached c : cache_ok c → Forall (cached c) (tips c).
Proof.
  intros Hc. apply Forall_forall. intros h [_ Hh]%list_elem_of_filter. by apply elem_of_cache_headers.
Qed.

Lemma fork_point_spec anc local fi sh fi' sh' :
  fork_point fi sh anc local = (fi', sh') →
  ∃ k, sh' = (sh + k)%nat ∧ (k ≤ length anc)%nat ∧ (k ≤ length local)%nat
    ∧ h_hash <$> take k anc = b_hash <$> take k local
    ∧ fi' = default fi (h_index <$> last (take k anc))
    ∧ ∀ h b, anc !! k = Some h → local !! k = Some b → h_hash h ≠ b_hash b.
Proof.
  revert local fi sh. induction anc as [|h anc IH]; intros [|b local] fi sh H; cbn [fork_point] in H.
  1-3: injection H as <- <-; exists 0%nat; cbn; split_and!; try done; lia.
  destruct (bool_decide_reflect (h_hash h = b_hash b)) as [E|E].
  - apply IH in H as (k & -> & ? & ? & Ht & -> & Hm). exists (S k). cbn. rewrite E, Ht.
    split_and!; [lia..|done| |done]. rewrite last_cons. by destruct (last (take k anc)).
  - injection H as <- <-. exists 0%nat. cbn. split_and!; try done; try lia. by intros ?? [= <-] [= <-].
Qed.

(** A planned branch is a chain of cached headers, so each meets its own
    target, connected by parent hashes from the shared genesis to a tip, whose
    claimed work is the sum of their works; it beats the local chain under the
    fork-choice order, and no other compatible branch of the cache beats it.  The
    headers to download are those after the longest prefix it shares with the local
    chain, and there is at least one. *)
Lemma plan_best_branch_sound local c plan :
  cache_ok c → plan_best_branch (E:=NetError) local c = Ok (Some plan) →
  ∃ genesis anc tip info local_info k,
    head local = Some genesis ∧ chain_info (E:=NetError) local = Ok (Some local_info)
    ∧ tip ∈ tips c ∧ last anc = Some tip ∧ h_hash <$> head anc = Some (b_hash genesis)
    ∧ Forall pow_ok anc ∧ connected anc
    ∧ bp_candidate_info plan = info ∧ ci_tip_hash info = h_hash tip
    ∧ limbs_val (ci_total_work info) = sumZ ((λ h, work_val (h_target h)) <$> anc) mod 2 ^ 256
    ∧ is_better info local_info = true
    ∧ (∀ tip' anc' info', tip' ∈ tips c → branch c (b_hash genesis) tip' anc' info' → is_better info' info = false)
    ∧ (0 < k ≤ length local)%nat ∧ h_hash <$> take k anc = b_hash <$> take k local
    ∧ (∀ h b, anc !! k = Some h → local !! k = Some b → h_hash h ≠ b_hash b)
    ∧ h_index <$> last (take k anc) = Some (bp_fork_index plan)
    ∧ bp_headers plan = drop k anc ∧ bp_headers plan ≠ [].
Proof.
  intros Hc H. unfold plan_best_branch in H. destruct local as [|genesis rest] eqn:El; [done|].
  rewrite <- El in *. destruct (header_cache_len c =? 0)%nat; [done|].
  apply bind_ok_inv in H as ([li|] & Eli & H); [|done].
  apply bind_ok_inv in H as (best & Hf & H).
  pose proof (tips_cached c Hc) as Htc.
  apply (consider_fold c (b_hash genesis) (tips c) []) in Hf; [|done|done|by intros ??? ?%not_elem_of_nil].
  cbn [app] in Hf. destruct best as [[anc info]|]; [|done].
  destruct (is_better info li) eqn:Eb; [|done]. cbn [negb] in H.
  destruct (fork_point 0 0 anc local) as [fi sh] eqn:Efp.
  apply fork_point_spec in Efp as (k & -> & Hk1 & Hk2 & Ht & -> & Hm). cbn [Nat.add] in H.
  destruct (Nat.eqb_spec k 0); [done|]. cbn [orb] in H. destruct (_ <? _)%nat; [done|].
  destruct (drop k anc) as [|h0 hs] eqn:Ed; [done|]. apply ok_inj in H. injection H as <-.
  destruct Hf as [(tip & Htip & Hbr) Hopt]. pose proof Hbr as (Hw & Hg & Hi).
  assert (cached c tip) as Hct by (by eapply Forall_forall in Htc).
  destruct (walk_ancestry_spec c tip anc Hc Hct Hw) as (Ha & Hcon & _ & Hlast).
  destruct (branch_info_ok (E:=NetError) c tip anc Hc Ha) as (i & Ei & _ & Hth & _ & _ & Hwk).
  rewrite Hi in Ei. apply ok_inj in Ei as <-.
  exists genesis, anc, tip, info, li, k. subst local. cbn [bp_candidate_info bp_fork_index bp_headers].
  split_and!; try done; try lia.
  - eapply Forall_impl; [exact Ha|]. intros h. by apply cached_pow.
  - destruct (last (take k anc)) eqn:E; [done|]. apply last_None in E.
    apply (f_equal length) in E. rewrite length_take in E. cbn in E. lia.
Qed.
End Plan.

(** ** Bodies *)

Lemma list_to_set_size_NoDup (l : list string) :
  (size (list_to_set l : gset string) ≤ length l)%nat
  ∧ (size (list_to_set l : gset string) = length l → NoDup l).
Proof.
  induction l as [|x l [IH1 IH2]]; cbn [list_to_set length].
  { rewrite size_empty. split; [done|constructor]. }
  destruct (decide (x ∈ l)) as [Hx|Hx].
  - rewrite subseteq_union_1_L by set_solver. split; [lia|]. intros H. exfalso. lia.
  - rewrite size_union, size_singleton by set_solver. split; [lia|]. intros H. constructor; [done|]. apply IH2. lia.
Qed.

Section Bodies.
Context `{HX : Hex, HXok : !HexOk, B3 : Blake3, B3ok : !Blake3Ok}.
Context {P : Type} `{SP : SyncPeer P}.

(** The block carries its own hash. *)
Definition hash_ok (b : Block) : Prop := hex_encode <$> block_hash (E:=NetError) b = Ok (b_hash b).

(** What one chunk of requested headers may bring. *)
Definition batch_ok (chunk : list BlockHeader) (batch : list Block) : Prop :=
  Forall hash_ok batch ∧ NoDup (b_hash <$> batch) ∧ (b_hash <$> batch) ⊆ (h_hash <$> chunk)
  ∧ (length batch ≤ length chunk)%nat.

Lemma check_bodies expected batch seen seen' :
  foldM (check_body expected) seen batch = Ok seen' →
  Forall hash_ok batch ∧ (∀ b, b ∈ batch → b_hash b ∈ expected)
  ∧ seen' = list_to_set (b_hash <$> batch) ∪ seen.
Proof.
  revert seen. induction batch as [|b batch IH]; intros seen H; cbn [foldM] in H.
  { apply ok_inj in H as <-. cbn. split_and!; [constructor|by intros ? ?%not_elem_of_nil|set_solver]. }
  apply bind_ok_inv in H as (s1 & H1 & H). unfold check_body in H1.
  apply bind_ok_inv in H1 as (hash & Eh & H1).
  destruct (bool_decide_reflect (hex_encode hash = b_hash b)) as [E1|]; [|done].
  destruct (bool_decide_reflect (hex_encode hash ∈ expected)) as [E2|]; [|done].
  cbn [negb orb] in H1. apply ok_inj in H1 as <-. apply IH in H as (Ha & Hb & ->).
  split_and!.
  - constructor; [|done]. unfold hash_ok. rewrite Eh. cbn. by rewrite E1.
  - intros b' [-> |Hb']%elem_of_cons; [by rewrite <- E1|by apply Hb].
  - rewrite E1. cbn. set_solver.
Qed.

Lemma fetch_chunk_ok p chunk batch p' : fetch_chunk p chunk = Ok (batch, p') → batch_ok chunk batch.
Proof.
  unfold fetch_chunk. destruct (shutdown p); [done|]. intros H.
  apply bind_ok_inv in H as (req & _ & H). apply bind_ok_inv in H as (pl & _ & H).
  destruct (request p pl) as [reply p1]. apply bind_ok_inv in H as (pl' & _ & H).
  apply bind_ok_inv in H as (bt & _ & H). apply bind_ok_inv in H as (seen & Hs & H).
  apply check_bodies in Hs as (Hh & Hin & ->). rewrite (right_id_L ∅ (∪)) in H.
  destruct (Nat.eqb_spec (size (list_to_set (b_hash <$> bt) : gset string)) (length bt)) as [E|]; [|done].
  cbn [negb orb] in H. destruct (Nat.ltb_spec (length chunk) (length bt)); [done|].
  apply ok_inj in H. injection H as <- <-. split_and!; [done| | |lia].
  - apply list_to_set_size_NoDup. by rewrite length_fmap.
  - intros x (b & -> & Hb)%list_elem_of_fmap. specialize (Hin b Hb). by apply elem_of_list_to_set in Hin.
Qed.

Lemma body_phase_ok total p blocks cs blocks' p' :
  body_phase total p blocks cs = Ok (blocks', p') →
  ∃ bs rest, blocks' = blocks ++ concat bs ∧ ∃ cs', cs = cs' ++ rest ∧ Forall2 batch_ok cs' bs.
Proof.
  revert p blocks. induction cs as [|chunk cs IH]; intros p blocks H; cbn [body_phase] in H.
  { apply ok_inj in H. injection H as <- <-. exists [], []. cbn [concat]. rewrite (right_id_L [] (++)).
    split; [done|]. exists []. split; [done|constructor]. }
  apply bind_ok_inv in H as ([batch p1] & Hf & H). apply fetch_chunk_ok in Hf. cbv zeta in H.
  destruct (_ =? _)%nat.
  - apply ok_inj in H. injection H as <- <-. exists [batch], cs. cbn [concat]. rewrite (right_id_L [] (++)).
    split; [done|]. exists [chunk]. split; [done|]. constructor; [done|constructor].
  - apply IH in H as (bs & rest & -> & cs' & -> & Hbs). exists (batch :: bs), rest. cbn.
    rewrite <- (assoc_L (++)). split; [done|]. exists (chunk :: cs'). split; [done|]. by constructor.
Qed.

Lemma batches_bound cs bs : Forall2 batch_ok cs bs → (length (concat bs) ≤ length (concat cs))%nat.
Proof. induction 1 as [|c b cs bs (_ & _ & _ & Hl) _ IH]; cbn; [lia|]. rewrite !length_app. lia. Qed.

Lemma batches_full cs bs :
  Forall2 batch_ok cs bs → length (concat bs) = length (concat cs) →
  b_hash <$> concat bs ≡ₚ h_hash <$> concat cs.
Proof.
  induction 1 as [|c b cs bs Hb Hbs IH]; cbn [concat]; [done|]. rewrite !length_app. intros Hl.
  pose proof (batches_bound _ _ Hbs). destruct Hb as (_ & Hnd & Hsub & Hle).
  rewrite !fmap_app, IH by lia. apply Permutation_app_tail.
  apply submseteq_length_Permutation; [by apply NoDup_submseteq|]. rewrite !length_fmap. lia.
Qed.

(** All the bodies of a plan, in full. *)
Lemma bodies_ok total p headers blocks p' :
  body_phase total p [] (chunks (length headers) (Z.to_nat MAX_BLOCKS_BATCH) headers) = Ok (blocks, p') →
  length blocks = length headers →
  b_hash <$> blocks ≡ₚ h_hash <$> headers ∧ Forall hash_ok blocks.
Proof.
  intros H Hl. destruct (chunks_ok (length headers) (Z.to_nat MAX_BLOCKS_BATCH) headers) as [Hcat Hlen];
    [unfold MAX_BLOCKS_BATCH; lia|done|].
  apply body_phase_ok in H as (bs & rest & -> & cs' & Ecs & Hbs). cbn [app] in *. rewrite Ecs in *.
  rewrite concat_app in Hcat. pose proof (batches_bound _ _ Hbs) as Hle.
  assert (concat rest = []) as Er.
  { apply nil_length_inv. apply (f_equal length) in Hcat. rewrite length_app in Hcat. lia. }
  rewrite Er, (right_id_L [] (++)) in Hcat. split.
  - rewrite batches_full by (done || by rewrite Hl, Hcat). by rewrite Hcat.
  - clear -Hbs. induction Hbs as [|? ? ? ? (Hh & _)]; [constructor|]. by apply Forall_app.
Qed.

Lemma header_phase_cache fuel local p c h c' p' :
  cache_ok c → header_phase fuel local p c h = Some (Ok (c', p')) → cache_ok c'.
Proof.
  revert p c h. induction fuel as [|fuel IH]; intros p c h Hc H; [done|]. cbn [header_phase] in H.
  destruct (shutdown p); [done|]. destruct (request p (encode_get_headers h)) as [reply p1].
  destruct (payload ← reply; parse_headers payload) as [[|h0 hs]| |]; [by simplify_eq| |done|done].
  destruct (ingest c (h0 :: hs) local) as [[c1 [|n]]| |] eqn:Ei; [done| |done|done].
  apply ingest_ok in Ei; [|done]. destruct (_ || _); [by simplify_eq|]. by eapply IH.
Qed.

(** A header with a local block's hash and another index: a hash collision, since
    the hash covers the index. *)
Definition index_clash (local : list Block) : Prop :=
  ∃ h b, b ∈ local ∧ h_hash h = b_hash b ∧ h_index h ≠ b_index b.

(** whatever a peer sends, a candidate a sync round produces is a prefix of the
    local chain, the part the peer's branch shares with it, followed by bodies that
    carry their own hashes and are exactly the bodies of the rest of that branch (up
    to order); the branch is a connected chain of headers with valid proof of work
    from the local genesis and has more work, or wins the tie-break, over the local
    chain.  (Otherwise the peer has found a hash collision with a local block.) *)
Theorem sync_candidate_sound fuel local (p : P) out p' cand :
  (∀ i b, local !! i = Some b → b_index b = Z.of_nat i) →
  sync_headers_first fuel local p = Some (Ok (out, p')) → so_candidate out = Some cand →
  index_clash local
  ∨ ∃ anc tip info local_info k blocks,
      Forall pow_ok anc ∧ connected anc ∧ last anc = Some tip
      ∧ h_hash <$> head anc = b_hash <$> head local
      ∧ ci_tip_hash info = h_hash tip
      ∧ limbs_val (ci_total_work info) = sumZ ((λ h, work_val (h_target h)) <$> anc) mod 2 ^ 256
      ∧ chain_info (E:=NetError) local = Ok (Some local_info) ∧ is_better info local_info = true
      ∧ (0 < k < length anc)%nat ∧ h_hash <$> take k anc = b_hash <$> take k local
      ∧ cand = take k local ++ blocks
      ∧ b_hash <$> blocks ≡ₚ h_hash <$> drop k anc ∧ Forall hash_ok blocks.
Proof.
  intros Hidx H Hcand. unfold sync_headers_first in H. cbv zeta in H.
  destruct (header_phase _ _ _ _ _) as [[[c p1]| |]|] eqn:Eh; [|done..].
  apply header_phase_cache in Eh; [|apply header_cache_new_ok]. injection H as H. unfold download in H.
  apply bind_ok_inv in H as ([plan|] & Hplan & H); [|apply ok_inj in H; by injection H as <- <-].
  destruct (plan_best_branch_sound local c plan Eh Hplan) as (g & anc & tip & info & li & k & Hg & Hli & _ & Hlast
    & Hhd & Hpow & Hcon & Einfo & Hth & Hwork & Hbet & _ & Hk & Hsh & _ & Hfi & Hhs & Hne).
  apply bind_ok_inv in H as ([blocks p2] & Hb & H). cbv zeta in H.
  destruct (Nat.eqb_spec (length blocks) (length (bp_headers plan))) as [El|]; [|done]. cbn [negb] in H.
  destruct (_ <=? _); [done|]. apply ok_inj in H. injection H as <- <-. injection Hcand as <-.
  destruct (bodies_ok _ _ _ _ _ Hb El) as [Hperm Hok].
  assert (k < length anc)%nat as Hka.
  { rewrite Hhs in Hne. destruct (Nat.lt_ge_cases k (length anc)); [done|]. by rewrite drop_ge in Hne. }
  destruct (lookup_lt_is_Some_2 local (k - 1)) as [b Hb']; [lia|].
  destruct (lookup_lt_is_Some_2 anc (k - 1)) as [h Hh]; [lia|].
  assert (h_hash h = b_hash b) as Ehb.
  { assert ((h_hash <$> take k anc) !! (k - 1)%nat = (b_hash <$> take k local) !! (k - 1)%nat) as E by by rewrite Hsh.
    rewrite !list_lookup_fmap, !lookup_take_lt, Hh, Hb' in E by lia. by injection E. }
  assert (h_index h = bp_fork_index plan) as Efi.
  { rewrite last_lookup, length_take, Nat.min_l, lookup_take_lt in Hfi by lia.
    replace (Init.Nat.pred k) with (k - 1)%nat in Hfi by lia. rewrite Hh in Hfi. by injection Hfi. }
  destruct (decide (h_index h = b_index b)) as [Eb|Nb].
  - right. exists anc, tip, info, li, k, blocks. rewrite (Hidx _ _ Hb') in Eb.
    rewrite <- Efi, Eb. replace (Z.to_nat (Z.of_nat (k - 1) + 1)) with k by lia.
    split_and!; try done; try lia.
    + by rewrite Hhd, Hg.
    + by rewrite <- Hhs.
  - left. exists h, b. split_and!; [by eapply list_elem_of_lookup_2|done|done].
Qed.
End Bodies.
