(* ===== verification/SyncRound.v ===== *)
(** * A sync round against a serving node

    A node that syncs from a peer with a valid, better chain downloads that chain:
    the header phase, fork choice and the body phase of [Sync] composed with the
    peer's replies from its own chain. *)

From S2P Require Import Prelude Bytes U256 Abi Types Address Concrete Serialize SerializeProps Consensus ConsensusProps Net NetProps Compact CompactProps Erlay ErlayProps Gossip GossipProps Chain ChainWitness Sync View SyncProps.
From stdpp Require Import gmap sets.
Open Scope Z_scope.

Section Round.
Context `{HX : Hex, HXok : !HexOk, B3 : Blake3, B3ok : !Blake3Ok, B32 : Bech32, SK : Secp256k1}.

(** The chain of a node that follows the rules headers can show: well-formed
    blocks at their own heights, each linked to the one before, meeting its target;
    no hash occurs twice and the genesis has no parent in the chain. *)
Record chain_shape (chain : list Block) : Prop := {
  shape_wf : Forall wf_block chain;
  shape_pow : Forall (λ b, pow_ok (header b)) chain;
  shape_index : ∀ i b, chain !! i = Some b → b_index b = Z.of_nat i;
  shape_link : connected (header <$> chain);
  shape_unique : NoDup (b_hash <$> chain);
  shape_root : ∀ g, head chain = Some g → b_previous_hash g ∉ b_hash <$> chain
}.

(** ** Served headers *)

Lemma filter_index chain (from : nat) k :
  (∀ i b, chain !! i = Some b → b_index b = Z.of_nat (k + i)) →
  filter (λ b, Z.of_nat from ≤ b_index b) chain = drop (from - k) chain.
Proof.
  revert k. induction chain as [|b chain IH]; intros k H; [by rewrite drop_nil|].
  rewrite filter_cons. pose proof (H 0%nat b eq_refl) as Hb. rewrite Nat.add_0_r in Hb.
  rewrite (IH (S k)) by (intros i b' Hi; rewrite (H (S i) b' Hi); f_equal; lia).
  destruct (decide (Z.of_nat from ≤ b_index b)) as [Hle|Hgt].
  - replace (from - k)%nat with 0%nat by lia. by replace (from - S k)%nat with 0%nat by lia.
  - replace (from - k)%nat with (S (from - S k)) by lia. done.
Qed.

Lemma encode_headers_ok hs :
  Forall wf_header hs → lenZ hs ≤ MAX_HEADERS_BATCH → ∃ bs, encode_headers hs = Ok bs.
Proof.
  intros Hwf Hl. unfold encode_headers. rewrite (proj2 (Z.ltb_ge _ _) Hl), (mapM_items _ header_item).
  2: { eapply Forall_impl; [done|]. apply encode_header_item. }
  cbn [mbind result_bind]. rewrite (proj2 (Z.ltb_ge _ _)); [by eexists|].
  unfold lenZ in *. rewrite length_tagged, length_header_items by done.
  unfold MAX_HEADERS_BATCH, MAX_MESSAGE_SIZE, HEADER_WIRE_LEN in *. lia.
Qed.

Lemma decode_get_headers h : in_u64 h → decode_message (encode_get_headers h) = Ok (GetHeaders h).
Proof.
  intros Hh. pose proof (proj2 (get_headers_iff (encode_get_headers h) h) (conj Hh eq_refl)) as E.
  unfold decode_message. unfold encode_get_headers at 1. cbv zeta.
  change (byte_val (byte_of MSG_GET_HEADERS) =? MSG_GET_HEADERS) with true. cbv iota.
  by rewrite E.
Qed.

Lemma serve_headers (bc : Blockchain) (m : nat) :
  chain_shape (bc_chain bc) → Z.of_nat m < two64 →
  let hs := header <$> take (Z.to_nat MAX_HEADERS_BATCH) (drop m (bc_chain bc)) in
  ∃ bs, request bc (encode_get_headers (Z.of_nat m)) = (Ok bs, bc) ∧ parse_headers bs = Ok hs.
Proof.
  intros Hs Hm. cbv zeta. cbn [request serving_peer]. unfold serve_request.
  rewrite decode_get_headers by (unfold in_u64; lia). cbn [bv_headers_from_height facade_view].
  unfold headers_from_height. rewrite (filter_index _ _ 0) by apply (shape_index _ Hs).
  rewrite Nat.sub_0_r. set (hs := header <$> _).
  assert (Forall wf_header hs) as Hwf.
  { apply Forall_fmap. apply Forall_take, Forall_drop. eapply Forall_impl; [apply (shape_wf _ Hs)|]. by intros b (? & _). }
  destruct (encode_headers_ok hs) as [bs Hb]; [done| |].
  { unfold lenZ, hs. rewrite length_fmap, length_take. unfold MAX_HEADERS_BATCH. lia. }
  exists bs. rewrite Hb. split; [done|]. by apply headers_iff.
Qed.

(** ** Ingestion of a valid batch *)

Lemma ingest_loop_all {E} local batch c a k :
  Forall pow_ok batch → links a batch →
  match a, batch with None, h :: _ => anchored c local h | _, _ => True end →
  ingest_loop (E:=E) local c (prev_of a) k batch = Ok (insert_all c batch, (k + length batch)%nat).
Proof.
  intros Hp. revert c a k. induction Hp as [|h batch Hh _ IH]; intros c a k Hl Ha; cbn [ingest_loop].
  { cbn. by rewrite Nat.add_0_r. }
  rewrite Hh. destruct Hl as [Hf Hl].
  rewrite (proj2 (linked_true c local a h)) by by destruct a. cbn [negb].
  rewrite (IH _ (Some h)) by done. cbn [length insert_all foldl]. by rewrite <- plus_n_Sm.
Qed.

Lemma ingest_all {E} local batch c :
  Forall pow_ok batch → links None batch → (∀ h, head batch = Some h → anchored c local h) →
  ingest (E:=E) c batch local = Ok (insert_all c batch, length batch).
Proof.
  intros Hp Hl Ha. apply (ingest_loop_all local batch c None 0); [done|done|].
  destruct batch; [done|]. by apply Ha.
Qed.

Lemma connected_lookup hs i a b :
  connected hs → hs !! i = Some a → hs !! S i = Some b → h_previous_hash b = h_hash a.
Proof.
  revert i. induction hs as [|x [|y hs] IH]; intros [|i] Hc Ha Hb; try done.
  - by destruct Hc as [Hc _]; cbn in *; simplify_eq.
  - destruct Hc as [_ Hc]. by eapply IH.
Qed.

(** The headers of a chain from height [m] on link up. *)
Lemma shape_links chain m n a :
  chain_shape chain → lenZ chain < two64 →
  match a with
  | Some h => (0 < m)%nat ∧ header <$> chain !! (m - 1)%nat = Some h
  | None => True
  end →
  links a (header <$> take n (drop m chain)).
Proof.
  intros Hs Hlen. revert m a. induction n as [|n IH]; intros m a Ha; [done|].
  destruct (drop m chain) as [|b rest] eqn:Ed; [done|].
  assert (chain !! m = Some b) as Hb.
  { rewrite <- (Nat.add_0_r m), <- lookup_drop, Ed. done. }
  cbn [take fmap list_fmap links]. split.
  - destruct a as [h|]; [|done]. destruct Ha as [Hm Hp]. apply fmap_Some in Hp as (b0 & Hb0 & ->).
    split.
    + apply (connected_lookup (header <$> chain) (m - 1)); [apply (shape_link _ Hs)| |].
      * by rewrite list_lookup_fmap, Hb0.
      * replace (S (m - 1)) with m by lia. by rewrite list_lookup_fmap, Hb.
    + cbn [header h_index]. rewrite (shape_index _ Hs _ _ Hb), (shape_index _ Hs _ _ Hb0).
      apply lookup_lt_Some in Hb. unfold wrap64, lenZ in *. rewrite Z.mod_small; lia.
  - assert (rest = drop (S m) chain) as ->.
    { replace (S m) with (m + 1)%nat by lia. rewrite <- drop_drop, Ed. done. }
    apply IH. split; [lia|]. replace (S m - 1)%nat with m by lia. by rewrite Hb.
Qed.

(** ** The header phase *)

(** The cache after the first [m] headers of the chain. *)
Definition synced (chain : list Block) (m : nat) : HeaderCache := insert_all header_cache_new (header <$> take m chain).

Lemma insert_all_app c xs ys : insert_all c (xs ++ ys) = insert_all (insert_all c xs) ys.
Proof. apply foldl_app. Qed.

Lemma insert_all_lookup hs c k :
  NoDup (h_hash <$> hs) →
  hc_by_hash (insert_all c hs) !! k
  = match list_find (λ h, h_hash h = k) hs with Some (_, h) => Some h | None => hc_by_hash c !! k end.
Proof.
  revert c. induction hs as [|h hs IH]; intros c Hn; [done|]. apply NoDup_cons in Hn as [Hh Hn].
  cbn [insert_all foldl]. fold (insert_all (header_cache_insert c h) hs). rewrite IH by done.
  cbn [list_find hc_by_hash header_cache_insert]. destruct (decide (h_hash h = k)) as [E|E].
  - rewrite (proj2 (list_find_None _ _)).
    + by rewrite E, lookup_insert_eq.
    + apply Forall_forall. intros h' Hh' E'. apply Hh. rewrite E, <- E'. by apply list_elem_of_fmap_2.
  - rewrite lookup_insert_ne by done. by destruct (list_find _ hs) as [[]|].
Qed.

Lemma find_hash hs i h :
  NoDup (h_hash <$> hs) → hs !! i = Some h → list_find (λ h', h_hash h' = h_hash h) hs = Some (i, h).
Proof.
  intros Hn Hi. apply list_find_Some. split_and!; [done|done|]. intros j y Hj Hlt E.
  assert (j = i); [|lia].
  apply (NoDup_lookup _ _ _ (h_hash h) Hn); rewrite list_lookup_fmap; [by rewrite Hj; cbn; rewrite E|by rewrite Hi].
Qed.

Lemma headers_unique chain m : chain_shape chain → NoDup (h_hash <$> (header <$> take m chain)).
Proof.
  intros Hs. rewrite <- list_fmap_compose. change (h_hash ∘ header) with b_hash. rewrite fmap_take.
  eapply sublist_NoDup; [apply (shape_unique _ Hs)|apply sublist_take].
Qed.

Lemma synced_lookup chain m i b :
  chain_shape chain → (i < m)%nat → chain !! i = Some b →
  hc_by_hash (synced chain m) !! b_hash b = Some (header b).
Proof.
  intros Hs Hi Hb. unfold synced. rewrite insert_all_lookup by by apply headers_unique.
  change (b_hash b) with (h_hash (header b)). rewrite (find_hash _ i (header b)); [done|by apply headers_unique|].
  by rewrite list_lookup_fmap, lookup_take_lt, Hb.
Qed.

Lemma synced_max chain m :
  chain_shape chain → (0 < m ≤ length chain)%nat → hc_max_index (synced chain m) = Some (Z.of_nat m - 1).
Proof.
  intros Hs. induction m as [|m IH]; intros Hm; [lia|].
  destruct (lookup_lt_is_Some_2 chain m) as [b Hb]; [lia|].
  unfold synced. rewrite (take_S_r _ _ _ Hb), fmap_app, insert_all_app. cbn. fold (synced chain m).
  rewrite (shape_index _ Hs _ _ Hb). destruct m as [|m]; [cbn; f_equal; lia|].
  rewrite IH by lia. f_equal. lia.
Qed.

Lemma synced_step chain m n :
  insert_all (synced chain m) (header <$> take n (drop m chain)) = synced chain (m + n).
Proof. unfold synced. by rewrite <- insert_all_app, <- fmap_app, take_take_drop. Qed.

Lemma header_phase_complete (bc : Blockchain) local fuel (m : nat) :
  let chain := bc_chain bc in
  chain_shape chain → lenZ chain < two64 → (m ≤ length chain)%nat →
  lenZ chain - Z.of_nat m < Z.of_nat fuel * MAX_HEADERS_BATCH →
  header_phase fuel local bc (synced chain m) (Z.of_nat m) = Some (Ok (synced chain (length chain), bc)).
Proof.
  intros chain Hs Hlen. revert m. induction fuel as [|fuel IH]; intros m Hm Hf; [unfold lenZ in Hf; lia|].
  cbn [header_phase]. change (shutdown bc) with false. cbv iota.
  destruct (serve_headers bc m Hs) as (bs & -> & Hp); [unfold lenZ in *; fold chain; lia|]. fold chain in Hp.
  cbn [mbind result_bind]. rewrite Hp. set (hs := header <$> _).
  set (n := Z.to_nat MAX_HEADERS_BATCH) in *.
  assert (length hs = Nat.min n (length chain - m)) as Hhl
    by (unfold hs; rewrite length_fmap, length_take, length_drop; done).
  destruct (decide (m = length chain)) as [->|Hne].
  { unfold hs. by rewrite drop_all, take_nil. }
  assert (0 < length hs)%nat as Hpos by (rewrite Hhl; unfold n, MAX_HEADERS_BATCH; lia).
  destruct hs as [|h0 hs0] eqn:Ehs; [cbn in Hpos; lia|]. rewrite <- Ehs in *. clear h0 hs0 Ehs.
  assert (ingest (E:=NetError) (synced chain m) hs local = Ok (synced chain (m + n), length hs)) as ->.
  { rewrite <- synced_step. apply ingest_all.
    - apply Forall_fmap. apply Forall_take, Forall_drop, (shape_pow _ Hs).
    - by apply shape_links.
    - intros h Hh. unfold hs in Hh. rewrite head_lookup, list_lookup_fmap, lookup_take_lt, lookup_drop, Nat.add_0_r in Hh
        by (unfold n, MAX_HEADERS_BATCH; lia).
      apply fmap_Some in Hh as (b & Hb & ->). destruct m as [|m].
      + left. cbn. by rewrite (shape_index _ Hs _ _ Hb).
      + right. left. destruct (lookup_lt_is_Some_2 chain m) as [b0 Hb0]; [lia|].
        rewrite (connected_lookup (header <$> chain) m (header b0) (header b));
          [|apply (shape_link _ Hs)|by rewrite list_lookup_fmap, Hb0|by rewrite list_lookup_fmap, Hb].
        cbn [header h_hash]. rewrite (synced_lookup chain (S m) m b0) by (done || lia). done. }
  destruct (length hs) as [|k] eqn:Ek; [lia|]. rewrite <- Ek in *.
  rewrite (Nat.ltb_irrefl (length hs)), orb_false_r.
  destruct (Z.ltb_spec (lenZ hs) MAX_HEADERS_BATCH) as [Hlt|Hge].
  - unfold synced. rewrite !take_ge by (unfold lenZ, n, MAX_HEADERS_BATCH in *; lia). done.
  - assert (m + n ≤ length chain)%nat by (unfold lenZ, n, MAX_HEADERS_BATCH in *; lia).
    rewrite synced_max by (done || (split; [unfold n, MAX_HEADERS_BATCH; lia|done])).
    replace (wrap64 _) with (Z.of_nat (m + n)).
    + apply IH; [done|]. unfold lenZ, n, MAX_HEADERS_BATCH in *. lia.
    + unfold wrap64, lenZ in *. rewrite Z.mod_small; lia.
Qed.

(** ** Fork choice *)

Definition full_cache (chain : list Block) : HeaderCache := synced chain (length chain).

Lemma full_cache_ok chain : chain_shape chain → cache_ok (full_cache chain).
Proof.
  intros Hs. apply insert_all_ok; [apply header_cache_new_ok|]. apply Forall_fmap, Forall_take, (shape_pow _ Hs).
Qed.

Lemma full_cache_lookup chain k h :
  chain_shape chain →
  hc_by_hash (full_cache chain) !! k = Some h ↔ ∃ b, b ∈ chain ∧ h = header b ∧ k = b_hash b.
Proof.
  intros Hs. split.
  - unfold full_cache, synced. rewrite firstn_all. rewrite insert_all_lookup.
    2: { pose proof (headers_unique chain (length chain) Hs) as H. by rewrite firstn_all in H. }
    destruct (list_find _ _) as [[i h']|] eqn:E; [|done]. intros [= ->].
    apply list_find_Some in E as (Hi & Ek & _). rewrite list_lookup_fmap in Hi.
    apply fmap_Some in Hi as (b & Hb & ->). exists b. split_and!; [by eapply list_elem_of_lookup_2|done|done].
  - intros (b & (i & Hb)%list_elem_of_lookup & -> & ->). eapply synced_lookup; [done| |done].
    by apply lookup_lt_Some in Hb.
Qed.

Lemma cached_full chain h : chain_shape chain → cached (full_cache chain) h ↔ ∃ b, b ∈ chain ∧ h = header b.
Proof.
  intros Hs. unfold cached. rewrite full_cache_lookup by done. split; [intros (b & ? & ? & _); by exists b|].
  intros (b & ? & ->). by exists b.
Qed.

Lemma full_cache_len chain : chain_shape chain → header_cache_len (full_cache chain) = length chain.
Proof.
  intros Hs. unfold header_cache_len. rewrite <- size_dom. transitivity (size (list_to_set (b_hash <$> chain) : gset string)).
  - f_equal. apply set_eq. intros k. rewrite elem_of_dom, elem_of_list_to_set, list_elem_of_fmap. split.
    + intros [h Hh]. apply full_cache_lookup in Hh as (b & ? & _ & ->); [|done]. by exists b.
    + intros (b & -> & Hb). exists (header b). apply full_cache_lookup; [done|]. by exists b.
  - rewrite size_list_to_set by apply (shape_unique _ Hs). apply length_fmap.
Qed.

Lemma NoDup_headers c : cache_ok c → NoDup (cache_headers c).
Proof.
  intros Hc. unfold cache_headers. apply NoDup_fmap_2_strong; [|apply NoDup_map_to_list].
  intros [k h] [k' h'] H1 H2 E. cbn in E. subst h'.
  apply elem_of_map_to_list in H1, H2. destruct (Hc _ _ H1) as [<- _], (Hc _ _ H2) as [<- _]. done.
Qed.

Lemma same_hash chain i j b b' : chain_shape chain →
  chain !! i = Some b → chain !! j = Some b' → b_hash b = b_hash b' → i = j.
Proof.
  intros Hs Hi Hj E. apply (NoDup_lookup _ _ _ (b_hash b) (shape_unique _ Hs)); rewrite list_lookup_fmap.
  - by rewrite Hi.
  - by rewrite Hj, E.
Qed.

Lemma parent_at chain i b b' : chain_shape chain →
  chain !! i = Some b → chain !! S i = Some b' → b_previous_hash b' = b_hash b.
Proof.
  intros Hs Hi Hj. apply (connected_lookup (header <$> chain) i (header b) (header b') (shape_link _ Hs));
    by rewrite list_lookup_fmap, ?Hi, ?Hj.
Qed.

Lemma tips_full chain tip : chain_shape chain → last chain = Some tip → tips (full_cache chain) = [header tip].
Proof.
  intros Hs Hl. pose proof (full_cache_ok chain Hs) as Hc.
  assert (∀ h, h ∈ tips (full_cache chain) ↔ h = header tip) as Hel.
  { intros h. unfold tips. rewrite list_elem_of_filter, elem_of_list_to_set.
    rewrite last_lookup in Hl. split.
    - intros [Hp Hh]. apply elem_of_cache_headers in Hh; [|done].
      apply cached_full in Hh as (b & (i & Hb)%list_elem_of_lookup & ->); [|done].
      destruct (decide (i = pred (length chain))) as [->|Hne]; [congruence|].
      destruct (lookup_lt_is_Some_2 chain (S i)) as [b' Hb']; [apply lookup_lt_Some in Hb; lia|].
      destruct Hp. apply list_elem_of_fmap. exists (header b'). split.
      + symmetry. by apply (parent_at chain i b b').
      + apply elem_of_cache_headers; [done|]. apply cached_full; [done|]. exists b'.
        split; [by eapply list_elem_of_lookup_2|done].
    - intros ->. split.
      + intros (h' & E & Hh')%list_elem_of_fmap. apply elem_of_cache_headers in Hh'; [|done].
        apply cached_full in Hh' as (b' & (j & Hb')%list_elem_of_lookup & ->); [|done].
        change (b_hash tip = b_previous_hash b') in E. destruct j as [|j].
        * apply (shape_root _ Hs b'); [by rewrite head_lookup|]. rewrite <- E.
          apply list_elem_of_fmap_2. by eapply list_elem_of_lookup_2.
        * destruct (lookup_lt_is_Some_2 chain j) as [b Hb]; [apply lookup_lt_Some in Hb'; lia|].
          rewrite (parent_at chain j b b') in E by done. apply (same_hash chain _ j _ b) in Hl; [|done..].
          apply lookup_lt_Some in Hb'. lia.
      + apply elem_of_cache_headers; [done|]. apply cached_full; [done|]. exists tip.
        split; [by eapply list_elem_of_lookup_2|done]. }
  assert (NoDup (tips (full_cache chain))) as Hn by by apply NoDup_filter, NoDup_headers.
  destruct (tips (full_cache chain)) as [|x [|y l]].
  - by destruct (not_elem_of_nil (header tip)); apply Hel.
  - f_equal. apply Hel. left.
  - apply NoDup_cons in Hn as [Hx _]. destruct Hx. assert (x = header tip) as -> by (apply Hel; left).
    assert (y = header tip) as -> by (apply Hel; right; left). left.
Qed.

Lemma walk_chain chain steps i b :
  chain_shape chain → chain !! i = Some b → (i ≤ steps)%nat →
  walk (full_cache chain) steps (header b) (header <$> drop (S i) chain) = Some (header <$> chain).
Proof.
  intros Hs. revert i b. induction steps as [|steps IH]; intros i b Hb Hi; cbn [walk]; cbv zeta;
    rewrite <- fmap_cons, <- (drop_S _ _ _ Hb).
  all: change (h_index (header b)) with (b_index b); rewrite (shape_index _ Hs _ _ Hb).
  - assert (i = 0)%nat as -> by lia. done.
  - destruct i as [|i]; [done|]. rewrite (proj2 (Z.eqb_neq _ _)) by lia.
    destruct (lookup_lt_is_Some_2 chain i) as [b0 Hb0]; [apply lookup_lt_Some in Hb; lia|].
    change (h_previous_hash (header b)) with (b_previous_hash b). rewrite (parent_at chain i b0 b) by done.
    rewrite (proj2 (full_cache_lookup chain _ (header b0) Hs)).
    + cbn [mbind option_bind]. apply IH; [done|lia].
    + exists b0. split; [by eapply list_elem_of_lookup_2|done].
Qed.

Lemma foldM_fmap {E S A B} (f : S → B → result E S) (g : A → B) xs s :
  foldM f s (g <$> xs) = foldM (λ s x, f s (g x)) s xs.
Proof. revert s. induction xs as [|x xs IH]; intros s; [done|]. cbn. destruct (f s (g x)); [apply IH|done..]. Qed.

Lemma branch_info_chain {E} chain tip ri :
  last chain = Some tip → chain_info (E:=E) chain = Ok (Some ri) →
  branch_info (E:=E) (header tip) (header <$> chain) = Ok ri.
Proof.
  intros Hl H. unfold chain_info in H. rewrite Hl in H. unfold branch_info, cumulative_work_headers.
  rewrite foldM_fmap. unfold cumulative_work in H.
  change (λ s x, add_work s (h_target (header x))) with (λ total block, add_work (E:=E) total (b_target block)).
  destruct (foldM _ _ chain); [|done..]. cbn [mbind result_bind] in *. apply ok_inj in H. by injection H as <-.
Qed.

(** The local chain and the remote one start at the same genesis, the remote one
    wins fork choice and is not a part of the local one. *)
Record worth_syncing (local remote : list Block) : Prop := {
  ws_genesis : ∃ g g', head local = Some g ∧ head remote = Some g' ∧ b_hash g = b_hash g';
  ws_better : ∃ li ri, chain_info (E:=NetError) local = Ok (Some li)
    ∧ chain_info (E:=NetError) remote = Ok (Some ri) ∧ is_better ri li = true;
  ws_new : ¬ (b_hash <$> remote) `prefix_of` (b_hash <$> local)
}.

Lemma plan_complete local chain :
  chain_shape chain → worth_syncing local chain →
  ∃ k ri, (0 < k ≤ length local)%nat ∧ (k < length chain)%nat
    ∧ b_hash <$> take k chain = b_hash <$> take k local
    ∧ plan_best_branch (E:=NetError) local (full_cache chain)
      = Ok (Some {| bp_fork_index := Z.of_nat k - 1; bp_headers := header <$> drop k chain;
                    bp_candidate_info := ri |}).
Proof.
  intros Hs [(g & g' & Hg & Hg' & Eg) (li & ri & Hli & Hri & Hb) Hnew].
  destruct local as [|g0 local0] eqn:El; [done|]. rewrite <- El in *.
  assert (g0 = g) as -> by (subst local; by injection Hg).
  assert (0 < length chain)%nat as Hpos by (destruct chain; [done|cbn; lia]).
  destruct (last chain) as [tip|] eqn:Hl; [|apply last_None in Hl; by subst].
  destruct (fork_point 0 0 (header <$> chain) local) as [fi sh] eqn:Efp.
  pose proof Efp as Efp'. apply fork_point_spec in Efp' as (k & -> & Hk1 & Hk2 & Ht & Hfi & Hm). cbn [Nat.add] in *.
  rewrite <- fmap_take in Ht, Hfi. rewrite <- list_fmap_compose in Ht. change (h_hash ∘ header) with b_hash in Ht.
  rewrite length_fmap in Hk1.
  assert (0 < k)%nat as Hk0.
  { destruct k; [|lia]. destruct (Hm (header g') g); [|by rewrite <- head_lookup|done].
    by rewrite list_lookup_fmap, <- head_lookup, Hg'. }
  assert (k < length chain)%nat as Hkc.
  { destruct (Nat.lt_ge_cases k (length chain)); [done|]. destruct Hnew.
    rewrite take_ge in Ht by done. rewrite Ht, fmap_take. apply prefix_take. }
  assert (fi = Z.of_nat k - 1) as ->.
  { destruct (lookup_lt_is_Some_2 chain (k - 1)) as [b Hbk]; [lia|].
    rewrite Hfi, last_lookup, length_fmap, length_take, Nat.min_l, list_lookup_fmap, lookup_take_lt by lia.
    replace (Init.Nat.pred k) with (k - 1)%nat by lia. rewrite Hbk. cbn.
    rewrite (shape_index _ Hs _ _ Hbk). lia. }
  exists k, ri. split_and!; [lia|lia|lia|done|].
  unfold plan_best_branch. rewrite El at 1. rewrite full_cache_len by done.
  rewrite (proj2 (Nat.eqb_neq _ _)) by lia. rewrite Hli. cbn [mbind result_bind].
  rewrite (tips_full chain tip) by done. cbn [foldM]. unfold consider, walk_ancestry.
  rewrite full_cache_len by done.
  assert (walk (full_cache chain) (length chain) (header tip) [] = Some (header <$> chain)) as ->.
  { rewrite last_lookup in Hl. pose proof (walk_chain chain (length chain) _ tip Hs Hl ltac:(lia)) as E.
    replace (S (Init.Nat.pred (length chain))) with (length chain) in E by lia. by rewrite drop_all in E. }
  rewrite bool_decide_eq_true_2; [|rewrite head_lookup, list_lookup_fmap, <- head_lookup, Hg'; cbn; by rewrite Eg].
  cbn [negb]. rewrite (branch_info_chain chain tip ri) by done. cbn [mbind result_bind]. rewrite Hb. cbn [negb].
  rewrite Efp. rewrite (proj2 (Nat.eqb_neq k 0)) by lia. rewrite (proj2 (Nat.ltb_ge _ _)) by lia. cbn [orb].
  rewrite <- fmap_drop. destruct (header <$> drop k chain) eqn:Ed; [|done].
  apply (f_equal length) in Ed. rewrite length_fmap, length_drop in Ed. cbn in Ed. lia.
Qed.

(** ** Served bodies *)

Lemma wf_hash b : wf_block b →
  ∃ hash, block_hash (E:=NetError) b = Ok hash ∧ is32 hash ∧ b_hash b = hex_encode hash.
Proof.
  intros (Hh & _). destruct (header_item_wf _ Hh) as (bs & Es & _).
  exists (blake3 bs). unfold block_hash, serialize_block_header. rewrite (serialize_header_result _ _ Es).
  split_and!; [done|apply blake3_length|]. destruct Hh as (_ & _ & _ & _ & _ & _ & _ & _ & _ & Hh).
  unfold header_hash in Hh. rewrite Es in Hh. cbn in Hh. by injection Hh.
Qed.

Lemma requested_ok seg : Forall wf_block seg →
  ∃ raws, mapM_result requested_hash (header <$> seg) = Ok raws
    ∧ Forall is32 raws ∧ hex_encode <$> raws = b_hash <$> seg.
Proof.
  induction 1 as [|b seg Hb _ (raws & E & H32 & Eh)]; [by exists []|].
  destruct (wf_hash b Hb) as (hash & _ & Hh & Ehash). exists (hash :: raws).
  assert (requested_hash (header b) = Ok hash) as E1.
  { unfold requested_hash. change (h_hash (header b)) with (b_hash b). rewrite Ehash, hex_decode_encode.
    cbn [ok_or mbind result_bind]. by rewrite Hh. }
  rewrite !fmap_cons. cbn [mapM_result]. rewrite E1, Ehash. cbn [mbind result_bind]. rewrite E. cbn [mbind result_bind].
  split_and!; [done|by constructor|by rewrite Eh].
Qed.

Lemma by_hash_lookup (chain : list Block) (m : gmap string Block) b :
  NoDup (b_hash <$> chain) → b ∈ chain → foldl (λ m b, <[b_hash b := b]> m) m chain !! b_hash b = Some b.
Proof.
  assert (∀ l (m : gmap string Block) k, k ∉ b_hash <$> l → foldl (λ m b, <[b_hash b := b]> m) m l !! k = m !! k) as Hno.
  { induction l as [|x l IH]; intros m' k Hk; [done|]. apply not_elem_of_cons in Hk as [Hx Hk]. cbn [foldl].
    rewrite IH by done. by rewrite lookup_insert_ne. }
  revert m. induction chain as [|x chain IH]; intros m Hn Hin; [by apply not_elem_of_nil in Hin|].
  apply NoDup_cons in Hn as [Hx Hn]. cbn [foldl]. apply elem_of_cons in Hin as [->|Hin].
  - rewrite Hno by done. apply lookup_insert_eq.
  - by apply IH.
Qed.

Lemma blocks_by_hashes_ok chain raws seg n :
  NoDup (b_hash <$> chain) → (∀ b, b ∈ seg → b ∈ chain) → hex_encode <$> raws = b_hash <$> seg →
  (length seg ≤ n)%nat → blocks_by_hashes chain raws n = seg.
Proof.
  intros Hn Hin E Hl. unfold blocks_by_hashes.
  assert (∀ (raws : list (list byte)) (seg : list Block), (∀ b, b ∈ seg → b ∈ chain) → hex_encode <$> raws = b_hash <$> seg →
    omap (λ h, foldl (λ m b, <[b_hash b := b]> m) (∅ : gmap string Block) chain !! hex_encode h) raws = seg) as Hom.
  { clear raws seg Hin E Hl. induction raws as [|r raws IH]; intros [|b seg] Hin E; try done.
    cbn [fmap list_fmap] in E. injection E as Eb E. cbn [omap list_omap].
    rewrite Eb, by_hash_lookup by (done || (apply Hin; left)). f_equal. apply IH; [|done]. intros; apply Hin; by right. }
  destruct raws as [|r raws]; [by destruct seg|]. cbv zeta. rewrite (Hom _ seg) by done. by apply take_ge.
Qed.

Lemma decode_get_blocks raws bs :
  Forall is32 raws → encode_get_blocks raws = Ok bs → decode_message bs = Ok (GetBlocks raws).
Proof.
  intros H32 He. pose proof (proj2 (get_blocks_iff bs raws) (conj H32 He)) as Hp.
  unfold encode_get_blocks in He. destruct (_ <? _); [done|]. apply ok_inj in He. rewrite <- He in Hp |- *.
  unfold decode_message. unfold tagged at 1. cbn [app]. cbv zeta.
  change (byte_val (byte_of MSG_GET_BLOCKS) =? MSG_GET_HEADERS) with false.
  change (byte_val (byte_of MSG_GET_BLOCKS) =? MSG_GET_BLOCKS) with true. cbv iota. by rewrite Hp.
Qed.

Lemma check_bodies_ok expected seg seen :
  Forall wf_block seg → (∀ b, b ∈ seg → b_hash b ∈ expected) →
  foldM (check_body expected) seen seg = Ok (list_to_set (b_hash <$> seg) ∪ seen).
Proof.
  intros Hwf. revert seen. induction Hwf as [|b seg Hb _ IH]; intros seen Hin; cbn [foldM].
  { cbn. by rewrite (left_id_L ∅ (∪)). }
  destruct (wf_hash b Hb) as (hash & Eh & _ & Ehash).
  assert (check_body expected seen b = Ok ({[ b_hash b ]} ∪ seen)) as ->.
  { unfold check_body. rewrite Eh. cbn [mbind result_bind].
    by rewrite <- Ehash, bool_decide_eq_true_2, bool_decide_eq_true_2 by (done || (apply Hin; left)). }
  cbn [mbind result_bind]. rewrite IH by (intros; apply Hin; by right). f_equal. cbn. set_solver.
Qed.

(** Each batch of bodies the node may be asked for fits one message. *)
Definition bodies_fit (chain : list Block) : Prop :=
  ∀ m, is_ok (encode_blocks (take (Z.to_nat MAX_BLOCKS_BATCH) (drop m chain))) = true.

(** The reply to the request for a batch of the chain. *)
Lemma serve_bodies (bc : Blockchain) m :
  let seg := take (Z.to_nat MAX_BLOCKS_BATCH) (drop m (bc_chain bc)) in
  chain_shape (bc_chain bc) →
  ∃ raws pl, mapM_result requested_hash (header <$> seg) = Ok raws ∧ encode_get_blocks raws = Ok pl
    ∧ request bc pl = (match encode_blocks seg with
                       | Ok out => Ok out
                       | _ => Err (Transport "sync I/O timeout")
                       end, bc).
Proof.
  intros seg Hs. assert (Forall wf_block seg) as Hwf by apply Forall_take, Forall_drop, (shape_wf _ Hs).
  assert (length seg ≤ Z.to_nat MAX_BLOCKS_BATCH)%nat as Hlen by (unfold seg; rewrite length_take; lia).
  destruct (requested_ok seg Hwf) as (raws & Er & H32 & Eh).
  assert (length raws = length seg) as Hrl by (apply (f_equal length) in Eh; by rewrite !length_fmap in Eh).
  assert (∃ pl, encode_get_blocks raws = Ok pl) as [pl Epl].
  { unfold encode_get_blocks. rewrite (proj2 (Z.ltb_ge _ _)); [by eexists|].
    unfold lenZ, MAX_BLOCKS_BATCH in *. lia. }
  exists raws, pl. split_and!; [done|done|]. cbn [request serving_peer]. unfold serve_request.
  rewrite (decode_get_blocks raws pl) by done. cbn [bv_blocks_by_hashes facade_view].
  rewrite (blocks_by_hashes_ok (bc_chain bc) raws seg); [|apply (shape_unique _ Hs)| |done|done].
  2: { intros b Hb. eapply elem_of_sublist; [exact Hb|]. etrans; [apply sublist_take|apply sublist_drop]. }
  by destruct (encode_blocks seg).
Qed.

Lemma fetch_ok (bc : Blockchain) m :
  let seg := take (Z.to_nat MAX_BLOCKS_BATCH) (drop m (bc_chain bc)) in
  chain_shape (bc_chain bc) → bodies_fit (bc_chain bc) → fetch_chunk bc (header <$> seg) = Ok (seg, bc).
Proof.
  intros seg Hs Hfit. assert (Forall wf_block seg) as Hwf by apply Forall_take, Forall_drop, (shape_wf _ Hs).
  destruct (serve_bodies bc m Hs) as (raws & pl & Er & Epl & Erq). fold seg in Er, Erq.
  unfold fetch_chunk. change (shutdown bc) with false. cbv iota. rewrite Er. cbn [mbind result_bind].
  rewrite Epl. cbn [mbind result_bind]. rewrite Erq.
  specialize (Hfit m). fold seg in Hfit. destruct (encode_blocks seg) as [out| |] eqn:Eb; [|done..].
  cbn [mbind result_bind]. rewrite (blocks_ok seg out) by done. cbn [mbind result_bind].
  rewrite check_bodies_ok; [|done|].
  2: { intros b Hb. apply elem_of_list_to_set. rewrite <- list_fmap_compose. by apply (list_elem_of_fmap_2 b_hash). }
  cbn [mbind result_bind]. rewrite (right_id_L ∅ (∪)), size_list_to_set.
  - rewrite length_fmap, Nat.eqb_refl. cbn [negb orb]. rewrite length_fmap, Nat.ltb_irrefl. done.
  - unfold seg. rewrite fmap_take, fmap_drop. eapply sublist_NoDup; [apply (shape_unique _ Hs)|].
    etrans; [apply sublist_take|apply sublist_drop].
Qed.

Lemma bodies_complete (bc : Blockchain) fuel m acc :
  let n := Z.to_nat MAX_BLOCKS_BATCH in
  let rest := drop m (bc_chain bc) in
  chain_shape (bc_chain bc) → bodies_fit (bc_chain bc) → (length rest ≤ fuel)%nat →
  body_phase (length acc + length rest) bc acc (chunks fuel n (header <$> rest)) = Ok (acc ++ rest, bc).
Proof.
  cbv zeta. intros Hs Hfit. set (n := Z.to_nat MAX_BLOCKS_BATCH).
  assert (0 < n)%nat as Hn by (unfold n, MAX_BLOCKS_BATCH; lia).
  revert m acc. induction fuel as [|fuel IH]; intros m acc Hf.
  { apply Nat.le_0_r, nil_length_inv in Hf. rewrite Hf. cbn. by rewrite (right_id_L [] (++)). }
  destruct (drop m (bc_chain bc)) as [|b0 rest0] eqn:Ed; [cbn; by rewrite (right_id_L [] (++))|].
  rewrite <- Ed in *. cbn [chunks]. destruct (header <$> drop m (bc_chain bc)) as [|h0 hs0] eqn:Eh.
  { rewrite Ed in Eh. done. }
  rewrite <- Eh in *. rewrite <- fmap_take, <- fmap_drop, drop_drop. cbn [body_phase].
  pose proof (fetch_ok bc m Hs Hfit) as Hfetch. cbv zeta in Hfetch. fold n in Hfetch. rewrite Hfetch.
  cbn [mbind result_bind]. set (seg := take n (drop m (bc_chain bc))) in *.
  assert (drop m (bc_chain bc) = seg ++ drop (m + n) (bc_chain bc)) as Esplit.
  { unfold seg. rewrite <- drop_drop. symmetry. apply take_drop. }
  assert (0 < length seg)%nat by (unfold seg; rewrite Ed; destruct n; [lia|cbn; lia]).
  rewrite Esplit in Hf |- *. rewrite length_app in Hf. rewrite !length_app. set (tail := drop (m + n) (bc_chain bc)) in *.
  destruct (Nat.eqb_spec (length acc + length seg) (length acc + (length seg + length tail))) as [E|E].
  - assert (tail = []) as Et by (apply nil_length_inv; lia). by rewrite Et, (right_id_L [] (++)).
  - specialize (IH (m + n)%nat (acc ++ seg) ltac:(fold tail; lia)). rewrite length_app in IH.
    fold tail in IH. rewrite Nat.add_assoc, IH. by rewrite (assoc_L (++)).
Qed.

(** C22: a round against a node that serves a valid chain with the same genesis, one
    that wins fork choice over the local chain, ends, within one request more than
    the number of header batches, with a candidate: the common prefix of the two
    chains followed by all the peer's remaining blocks in order, so the candidate has
    the hashes of the peer's chain.  (The peer's bodies must fit one message per
    batch of 128.) *)
Theorem sync_round_complete (peer : Blockchain) (local : list Block) (fuel : nat) :
  chain_shape (bc_chain peer) → lenZ (bc_chain peer) < two64 → bodies_fit (bc_chain peer) →
  worth_syncing local (bc_chain peer) →
  lenZ (bc_chain peer) < Z.of_nat fuel * MAX_HEADERS_BATCH →
  ∃ k out, sync_headers_first fuel local peer = Some (Ok (out, peer))
    ∧ so_candidate out = Some (take k local ++ drop k (bc_chain peer))
    ∧ b_hash <$> (take k local ++ drop k (bc_chain peer)) = b_hash <$> bc_chain peer
    ∧ (0 < k < length (bc_chain peer))%nat ∧ so_headers_ingested out = length (bc_chain peer).
Proof.
  intros Hs Hlen Hfit Hw Hf. destruct (plan_complete local (bc_chain peer) Hs Hw) as (k & ri & Hk & Hkc & Ht & Hplan).
  unfold sync_headers_first. cbv zeta.
  pose proof (header_phase_complete peer (list_to_set (b_hash <$> local)) fuel 0 Hs Hlen) as Hh. cbv zeta in Hh.
  unfold lenZ in Hf, Hh. specialize (Hh ltac:(lia) ltac:(lia)).
  change (synced (bc_chain peer) 0) with header_cache_new in Hh. change (Z.of_nat 0) with 0 in Hh. rewrite Hh.
  fold (full_cache (bc_chain peer)). unfold download. rewrite Hplan. cbn [mbind result_bind bp_headers].
  pose proof (bodies_complete peer (length (drop k (bc_chain peer))) k [] Hs Hfit (le_n _)) as Hb.
  cbv zeta in Hb. cbn [length Nat.add app] in Hb. rewrite length_fmap, Hb. cbn [mbind result_bind].
  rewrite Nat.eqb_refl. cbn [negb bp_fork_index bp_candidate_info].
  rewrite (proj2 (Z.leb_gt _ _)) by (unfold lenZ; lia).
  replace (Z.to_nat (Z.of_nat k - 1 + 1)) with k by lia.
  exists k. eexists. split_and!; [done|done| |lia|lia|cbn; by apply full_cache_len].
  by rewrite fmap_app, <- Ht, <- fmap_app, take_drop.
Qed.

(** The serving side answers a batch that exceeds one message with nothing, and
    the requesting side always asks for the same batches: the round fails. *)
Lemma oversized_batch_stalls (peer : Blockchain) m :
  let seg := take (Z.to_nat MAX_BLOCKS_BATCH) (drop m (bc_chain peer)) in
  chain_shape (bc_chain peer) → is_ok (encode_blocks seg) = false →
  fetch_chunk peer (header <$> seg) = Err (Transport "sync I/O timeout").
Proof.
  intros seg Hs Hbig. destruct (serve_bodies peer m Hs) as (raws & pl & Er & Epl & Erq). fold seg in Er, Erq.
  unfold fetch_chunk. change (shutdown peer) with false. cbv iota. rewrite Er. cbn [mbind result_bind].
  rewrite Epl. cbn [mbind result_bind]. rewrite Erq. by destruct (encode_blocks seg).
Qed.
End Round.

(** ** Witnesses: a fresh node syncs from one that has granted a wallet *)

#[local] Existing Instances toy_hex toy_blake3 toy_bech32 toy_secp.
#[local] Existing Instances toy_hex_ok toy_blake3_ok.

Lemma node1_shape : chain_shape (bc_chain node1).
Proof.
  split.
  - by_eval.
  - repeat constructor; vm_compute; reflexivity.
  - intros [|[|i]] b H; cbn in H; [injection H as <-; reflexivity..|done].
  - vm_compute. repeat split.
  - by_eval.
  - intros g [= <-]. by_eval.
Qed.

Lemma node1_worth : worth_syncing (bc_chain node0) (bc_chain node1).
Proof.
  split.
  - eexists _, _. split_and!; vm_compute; reflexivity.
  - eexists _, _. split_and!; vm_compute; reflexivity.
  - intros H%prefix_length. vm_compute in H. lia.
Qed.

Lemma node1_fits : bodies_fit (bc_chain node1).
Proof. intros [|[|[|m]]]; vm_compute; reflexivity. Qed.

Lemma sync_round_complete_witness :
  ∃ k out, sync_headers_first 1 (bc_chain node0) node1 = Some (Ok (out, node1))
    ∧ so_candidate out = Some (take k (bc_chain node0) ++ drop k (bc_chain node1))
    ∧ b_hash <$> (take k (bc_chain node0) ++ drop k (bc_chain node1)) = b_hash <$> bc_chain node1
    ∧ (0 < k < length (bc_chain node1))%nat ∧ so_headers_ingested out = length (bc_chain node1).
Proof.
  apply sync_round_complete.
  - exact node1_shape.
  - reflexivity.
  - exact node1_fits.
  - exact node1_worth.
  - reflexivity.
Defined.

Definition round_out : option SyncOutcome :=
  match sync_headers_first 1 (bc_chain node0) node1 with Some (Ok (out, _)) => Some out | _ => None end.

Lemma round_candidate : round_out ≫= so_candidate = Some (bc_chain node1).
Proof. vm_compute. reflexivity. Qed.

Lemma round_result : ∃ out p, sync_headers_first 1 (bc_chain node0) node1 = Some (Ok (out, p))
  ∧ so_candidate out = Some (bc_chain node1).
Proof.
  pose proof round_candidate as H. unfold round_out in H.
  destruct (sync_headers_first 1 (bc_chain node0) node1) as [[[out p]| |]|]; [|discriminate H..].
  by exists out, p.
Qed.

Lemma node0_indexed i b : bc_chain node0 !! i = Some b → b_index b = Z.of_nat i.
Proof. destruct i as [|i]; intros H; cbn in H; [injection H as <-; reflexivity|done]. Qed.

Lemma sync_candidate_sound_witness :
  index_clash (bc_chain node0)
  ∨ ∃ anc k blocks, Forall pow_ok anc ∧ connected anc
      ∧ bc_chain node1 = take k (bc_chain node0) ++ blocks
      ∧ b_hash <$> blocks ≡ₚ h_hash <$> drop k anc.
Proof.
  destruct round_result as (out & p & E & Hc).
  destruct (sync_candidate_sound 1 (bc_chain node0) node1 out p (bc_chain node1) node0_indexed E Hc)
    as [Hi|(anc & _ & _ & _ & k & blocks & H1 & H2 & _ & _ & _ & _ & _ & _ & _ & _ & H3 & H4 & _)];
    [left; exact Hi|].
  right. exists anc, k, blocks. exact (conj H1 (conj H2 (conj H3 H4))).
Defined.

Definition ingested : result NetError (HeaderCache * nat) := ingest header_cache_new (header <$> bc_chain node1) ∅.

Lemma ingested_two : snd <$> ingested = Ok 2%nat.
Proof. vm_compute. reflexivity. Qed.

Lemma ingest_accepts_valid_prefix_witness :
  ∃ c n, ingest (E:=NetError) header_cache_new (header <$> bc_chain node1) ∅ = Ok (c, n) ∧ n = 2%nat ∧ cache_ok c.
Proof.
  pose proof ingested_two as H2. unfold ingested in H2.
  destruct (ingest (E:=NetError) header_cache_new (header <$> bc_chain node1) ∅) as [[c n]| |] eqn:E;
    [|discriminate H2..].
  exists c, n. split; [done|].
  destruct (ingest_accepts_valid_prefix header_cache_new (header <$> bc_chain node1) ∅ c n header_cache_new_ok E) as [H _].
  split; [by injection H2|exact H].
Defined.
