(* ===== verification/Float.v ===== *)
(** * Binary floating point

    [f64] and [f32] values as rationals, with every operation rounded to the
    nearest value of 53 (24) significant bits, ties to even.  The values the code
    meets are finite and in the normal range, so exponents are not bounded and
    there are no infinities, NaNs or subnormals. *)

From S2P Require Import Prelude.
From Stdlib Require Import QArith Qround Qabs Qpower Lqa.
Open Scope Z_scope.

(** The integer nearest to [n / d], ties to even. *)
Definition half_even (n d : Z) : Z :=
  let q := n / d in
  let r := n mod d in
  if 2 * r <? d then q else if d <? 2 * r then q + 1 else if Z.even q then q else q + 1.

(** The exponent [e] with [2 ^ e <= n / d < 2 ^ (e + 1)]. *)
Definition exponent (n d : positive) : Z :=
  let k := Z.log2 (Z.pos n) - Z.log2 (Z.pos d) in
  if (if 0 <=? k then Z.pos d * 2 ^ k <=? Z.pos n else Z.pos d <=? Z.pos n * 2 ^ (- k)) then k else k - 1.

(** [n / d] with [p] significant bits. *)
Definition rnd_pos (p : Z) (n d : positive) : Q :=
  let s := p - 1 - exponent n d in
  if 0 <=? s then Qmake (half_even (Z.pos n * 2 ^ s) (Z.pos d)) (Z.to_pos (2 ^ s))
  else Qmake (half_even (Z.pos n) (Z.pos d * 2 ^ (- s)) * 2 ^ (- s)) 1.

Definition rnd (p : Z) (x : Q) : Q :=
  match Qnum x with
  | Z0 => 0%Q
  | Zpos n => rnd_pos p n (Qden x)
  | Zneg n => Qopp (rnd_pos p n (Qden x))
  end.

Definition f64 : Q → Q := rnd 53.
Definition f32 : Q → Q := rnd 24.

(** [x as u32], [x as u64]: truncation towards zero, saturating. *)
Definition to_uint (bits : Z) (x : Q) : Z := Z.max 0 (Z.min (2 ^ bits - 1) (Qfloor x)).

(** [f64::min], [f32::clamp]. *)
Definition fmin (x y : Q) : Q := if Qle_bool x y then x else y.
Definition fmax (x y : Q) : Q := if Qle_bool x y then y else x.
Definition clamp01 (x : Q) : Q := if Qle_bool x 0 then 0%Q else if Qle_bool 1 x then 1%Q else x.

(** [x < y]. *)
Definition flt (x y : Q) : bool := negb (Qle_bool y x).

(** ** Durations

    A [Duration] is a number of nanoseconds. *)

Definition NANOS : Z := 1000000000.

(** [Duration::as_secs_f64], [as_secs_f32]: the seconds, plus the nanoseconds over
    a thousand million. *)
Definition as_secs_float (fl : Q → Q) (d : Z) : Q :=
  fl (Qplus (fl (inject_Z (d / NANOS))) (fl (Qdiv (fl (inject_Z (d mod NANOS))) (inject_Z NANOS)))).

(** [Duration::from_secs_f64], [from_secs_f32] of a non-negative number: the nearest
    nanosecond. *)
Definition from_secs_float (x : Q) : Z :=
  let y := Qmult x (inject_Z NANOS) in half_even (Qnum y) (Z.pos (Qden y)).

(** ** Error bounds *)

Lemma half_even_error n d : 0 < d → Z.abs (2 * (d * half_even n d - n)) ≤ d.
Proof.
  intros Hd. unfold half_even. pose proof (Z.div_mod n d ltac:(lia)). pose proof (Z.mod_pos_bound n d Hd).
  repeat case_match; rewrite ?Z.ltb_lt, ?Z.ltb_ge in *; lia.
Qed.

Lemma half_even_nonneg n d : 0 < d → 0 ≤ n → 0 ≤ half_even n d.
Proof. intros Hd Hn. pose proof (half_even_error n d Hd). nia. Qed.

Lemma exponent_spec n d :
  let e := exponent n d in
  (0 ≤ e → Z.pos d * 2 ^ e ≤ Z.pos n < Z.pos d * 2 ^ (e + 1))
  ∧ (e < 0 → Z.pos d ≤ Z.pos n * 2 ^ (- e) < Z.pos d * 2).
Proof.
  cbv zeta. unfold exponent. set (k := Z.log2 (Z.pos n) - Z.log2 (Z.pos d)).
  pose proof (Z.log2_spec (Z.pos n) ltac:(lia)) as [Hn1 Hn2].
  pose proof (Z.log2_spec (Z.pos d) ltac:(lia)) as [Hd1 Hd2].
  pose proof (Z.log2_nonneg (Z.pos n)). pose proof (Z.log2_nonneg (Z.pos d)).
  set (a := Z.log2 (Z.pos n)) in *. set (b := Z.log2 (Z.pos d)) in *.
  rewrite Z.pow_succ_r in Hn2, Hd2 by lia.
  assert (0 < 2 ^ a) by (apply Z.pow_pos_nonneg; lia). assert (0 < 2 ^ b) by (apply Z.pow_pos_nonneg; lia).
  destruct (Z.leb_spec 0 k) as [Hk|Hk].
  - assert (2 ^ a = 2 ^ b * 2 ^ k) as Ea by (rewrite <- Z.pow_add_r by lia; f_equal; lia).
    assert (0 < 2 ^ k) by (apply Z.pow_pos_nonneg; lia).
    destruct (Z.leb_spec (Z.pos d * 2 ^ k) (Z.pos n)) as [Hle|Hlt].
    + split; [|lia]. intros _. split; [done|]. rewrite Z.pow_add_r, Z.pow_1_r by lia. nia.
    + destruct (decide (k = 0)) as [E0|].
      * split; [lia|]. intros _. rewrite E0 in *. change (- (0 - 1)) with 1. rewrite Z.pow_1_r. change (2 ^ 0) with 1 in *. nia.
      * split; [|lia]. intros _. replace (2 ^ k) with (2 * 2 ^ (k - 1)) in * by
          (rewrite <- Z.pow_succ_r by lia; f_equal; lia).
        replace (k - 1 + 1) with (Z.succ (k - 1)) by lia. rewrite Z.pow_succ_r by lia. nia.
  - assert (2 ^ b = 2 ^ a * 2 ^ (- k)) as Eb by (rewrite <- Z.pow_add_r by lia; f_equal; lia).
    assert (0 < 2 ^ (- k)) by (apply Z.pow_pos_nonneg; lia).
    destruct (Z.leb_spec (Z.pos d) (Z.pos n * 2 ^ (- k))) as [Hle|Hlt].
    + split; [lia|]. intros _. split; [done|]. nia.
    + split; [lia|]. intros _. replace (- (k - 1)) with (Z.succ (- k)) by lia. rewrite Z.pow_succ_r by lia. nia.
Qed.

(** Half a unit in the last place, relative. *)
Definition eps (p : Z) : Q := Qmake 1 (Z.to_pos (2 ^ p)).

Lemma two_pow_pos p : 0 ≤ p → 0 < 2 ^ p.
Proof. intros. apply Z.pow_pos_nonneg; lia. Qed.

(** [n / d] against [m / c], in integers. *)
Lemma eps_bounds p n d m c :
  1 ≤ p → (Z.abs (m * Z.pos d - Z.pos n * Z.pos c) * 2 ^ p ≤ Z.pos n * Z.pos c)%Z →
  (Qmake (Z.pos n) d * (1 - eps p) <= Qmake m c <= Qmake (Z.pos n) d * (1 + eps p))%Q.
Proof.
  intros Hp H. pose proof (two_pow_pos p ltac:(lia)) as H2. unfold eps, Qle, Qminus. cbn.
  rewrite !Pos2Z.inj_mul, Z2Pos.id by lia. set (P := 2 ^ p) in *. split; nia.
Qed.

Lemma rnd_pos_bounds p n d :
  1 ≤ p → (Qmake (Z.pos n) d * (1 - eps p) <= rnd_pos p n d <= Qmake (Z.pos n) d * (1 + eps p))%Q.
Proof.
  intros Hp. destruct (exponent_spec n d) as [He1 He2]. unfold rnd_pos. set (e := exponent n d) in *. cbv zeta.
  assert (2 ^ p = 2 * 2 ^ (p - 1)) as Ep by (rewrite <- Z.pow_succ_r by lia; f_equal; lia).
  pose proof (two_pow_pos (p - 1) ltac:(lia)).
  destruct (Z.leb_spec 0 (p - 1 - e)) as [Hs|Hs].
  - set (s := p - 1 - e) in *. pose proof (two_pow_pos s Hs). apply eps_bounds; [done|].
    rewrite Z2Pos.id by lia.
    pose proof (half_even_error (Z.pos n * 2 ^ s) (Z.pos d) ltac:(lia)) as Hh.
    assert (Z.pos d * 2 ^ (p - 1) ≤ Z.pos n * 2 ^ s) as Hbig.
    { destruct (Z.le_gt_cases 0 e) as [Hge|Hlt].
      - specialize (He1 Hge). replace (2 ^ (p - 1)) with (2 ^ e * 2 ^ s) by (rewrite <- Z.pow_add_r by lia; f_equal; lia). nia.
      - specialize (He2 Hlt). replace (2 ^ s) with (2 ^ (- e) * 2 ^ (p - 1)) by (rewrite <- Z.pow_add_r by lia; f_equal; lia). nia. }
    rewrite Ep. set (m := half_even _ _) in *. nia.
  - set (s := p - 1 - e) in *. pose proof (two_pow_pos (- s) ltac:(lia)). apply eps_bounds; [done|].
    pose proof (half_even_error (Z.pos n) (Z.pos d * 2 ^ (- s)) ltac:(nia)) as Hh.
    destruct (He1 ltac:(lia)) as [Hbig _].
    replace (2 ^ e) with (2 ^ (- s) * 2 ^ (p - 1)) in Hbig by (rewrite <- Z.pow_add_r by lia; f_equal; lia).
    rewrite Ep. set (m := half_even _ _) in *. nia.
Qed.

Lemma rnd_bounds p x : 1 ≤ p → (0 <= x)%Q → (x * (1 - eps p) <= rnd p x <= x * (1 + eps p))%Q.
Proof.
  intros Hp Hx. unfold rnd. destruct x as [[|n|n] d]; cbn [Qnum Qden].
  - split; unfold Qle; cbn; lia.
  - by apply rnd_pos_bounds.
  - unfold Qle in Hx. cbn in Hx. lia.
Qed.

Lemma eps_range p : 1 ≤ p → (0 < eps p <= 1 # 2)%Q.
Proof.
  intros Hp. unfold eps, Qlt, Qle. cbn. pose proof (two_pow_pos p ltac:(lia)).
  assert (2 ≤ 2 ^ p) by (change 2 with (2 ^ 1) at 1; apply Z.pow_le_mono_r; lia). rewrite Z2Pos.id by lia. lia.
Qed.

Lemma rnd_nonneg p x : 1 ≤ p → (0 <= x)%Q → (0 <= rnd p x)%Q.
Proof. intros Hp Hx. pose proof (rnd_bounds p x Hp Hx). pose proof (eps_range p Hp). nra. Qed.

Lemma rnd_zero p : rnd p 0 = 0%Q.
Proof. done. Qed.

Lemma to_uint_range bits x : 0 ≤ bits → 0 ≤ to_uint bits x < 2 ^ bits.
Proof. intros Hb. unfold to_uint. pose proof (two_pow_pos bits Hb). lia. Qed.

Lemma to_uint_le bits x : (0 <= x)%Q → (inject_Z (to_uint bits x) <= x)%Q.
Proof.
  intros Hx. unfold to_uint. apply (Qle_trans _ (inject_Z (Z.max 0 (Qfloor x)))).
  - rewrite <- Zle_Qle. lia.
  - destruct (Z.max_spec 0 (Qfloor x)) as [[_ ->]|[_ ->]]; [apply Qfloor_le|done].
Qed.

Lemma clamp01_range x : (0 <= clamp01 x <= 1)%Q.
Proof.
  unfold clamp01. destruct (Qle_bool x 0) eqn:E0; [split; unfold Qle; cbn; lia|].
  destruct (Qle_bool 1 x) eqn:E1; [split; unfold Qle; cbn; lia|].
  apply not_true_iff_false in E0, E1. rewrite Qle_bool_iff in E0, E1. lra.
Qed.

Lemma clamp01_ge x y : (y <= x)%Q → (y <= 1)%Q → (y <= clamp01 x)%Q.
Proof.
  intros H1 H2. unfold clamp01. destruct (Qle_bool x 0) eqn:E0.
  - rewrite Qle_bool_iff in E0. lra.
  - destruct (Qle_bool 1 x) eqn:E1; [done|done].
Qed.

Lemma fmin_le x y : (fmin x y <= x)%Q ∧ (fmin x y <= y)%Q.
Proof.
  unfold fmin. destruct (Qle_bool x y) eqn:E; [rewrite Qle_bool_iff in E; split; [apply Qle_refl|done]|].
  apply not_true_iff_false in E. rewrite Qle_bool_iff in E. split; [lra|apply Qle_refl].
Qed.

Lemma flt_true x y : flt x y = true ↔ (x < y)%Q.
Proof.
  unfold flt. destruct (Qle_bool y x) eqn:E; cbn.
  - rewrite Qle_bool_iff in E. split; [done|]. intros H. exfalso. lra.
  - apply not_true_iff_false in E. rewrite Qle_bool_iff in E. split; [intros _; lra|done].
Qed.

Lemma flt_false x y : flt x y = false ↔ (y <= x)%Q.
Proof. unfold flt. rewrite negb_false_iff. apply Qle_bool_iff. Qed.

Lemma from_secs_bounds x :
  (0 <= x)%Q → (x * inject_Z NANOS - (1 # 2) <= inject_Z (from_secs_float x) <= x * inject_Z NANOS + (1 # 2))%Q
  ∧ 0 ≤ from_secs_float x.
Proof.
  intros Hx. unfold from_secs_float. set (y := Qmult x (inject_Z NANOS)).
  assert (0 <= y)%Q as Hy by (unfold y; apply Qmult_le_0_compat; [done|by vm_compute]).
  pose proof (half_even_error (Qnum y) (Z.pos (Qden y)) ltac:(lia)) as H. clearbody y. destruct y as [n d]. cbn [Qnum Qden] in *.
  split.
  - unfold Qle, Qminus. cbn. rewrite ?Pos2Z.inj_mul in *. set (h := half_even _ _) in *. split; nia.
  - apply half_even_nonneg; [lia|]. unfold Qle in Hy. cbn in Hy. lia.
Qed.
