(* ===== verification/RateLimiter.v ===== *)
(** * Rate limiter (crates/strangecoin-net/src/rate_limiter.rs)

    Token buckets, the per-peer limiter with its violation window and fast-path
    ban, and the address-keyed container.  An [Instant] is a number of nanoseconds
    and the clock is an argument. *)

From S2P Require Import Prelude Bytes Net Float.
From Stdlib Require Import QArith.
From stdpp Require Import gmap.
Open Scope Z_scope.

(** [u32] arithmetic of release builds. *)
Definition wrap32 (z : Z) : Z := z mod two32.

Inductive MessageType :=
  | MtInv | MtBlock | MtTx | MtHello | MtGetData | MtCompactBlock | MtGetBlockTxn | MtBlockTxn
  | MtErlayReconcile | MtAddr.

Inductive MessageClass := McGetHeaders | McGetBlocks | McOther.

Inductive RateLimitError := Exceeded | Ban.

#[export] Instance MessageType_eq_dec : EqDecision MessageType.
Proof. solve_decision. Defined.
#[export] Instance RateLimitError_eq_dec : EqDecision RateLimitError.
Proof. solve_decision. Defined.

Definition message_type_code (t : MessageType) : nat :=
  match t with
  | MtInv => 0 | MtBlock => 1 | MtTx => 2 | MtHello => 3 | MtGetData => 4 | MtCompactBlock => 5
  | MtGetBlockTxn => 6 | MtBlockTxn => 7 | MtErlayReconcile => 8 | MtAddr => 9
  end.

#[export] Program Instance MessageType_countable : Countable MessageType :=
  inj_countable message_type_code
    (λ n, [MtInv; MtBlock; MtTx; MtHello; MtGetData; MtCompactBlock; MtGetBlockTxn; MtBlockTxn;
           MtErlayReconcile; MtAddr] !! n) _.
Next Obligation. by intros []. Qed.

Record BucketSpec := { bs_capacity : Z; bs_refill : Z }.

Record RateLimitConfig := {
  rl_main : BucketSpec; rl_get_headers : BucketSpec; rl_get_blocks : BucketSpec;
  rl_inv : BucketSpec; rl_block : BucketSpec; rl_tx : BucketSpec;
  rl_ban_threshold : Z; rl_ban_window : Z; rl_ban_duration : Z
}.

Definition spec (capacity refill : Z) : BucketSpec := {| bs_capacity := capacity; bs_refill := refill |}.

Definition rate_limit_default : RateLimitConfig := {|
  rl_main := spec 1000 100; rl_get_headers := spec 100 10; rl_get_blocks := spec 100 10;
  rl_inv := spec 100 10; rl_block := spec 30 3; rl_tx := spec 1000 100;
  rl_ban_threshold := 5; rl_ban_window := 60 * NANOS; rl_ban_duration := 300 * NANOS
|}.

(** ** Buckets *)

Record TokenBucket := { tb_capacity : Z; tb_tokens : Z; tb_refill_rate : Z; tb_last_refill : Z }.

Definition bucket_with_spec (s : BucketSpec) (now : Z) : TokenBucket := {|
  tb_capacity := bs_capacity s; tb_tokens := bs_capacity s; tb_refill_rate := bs_refill s;
  tb_last_refill := now |}.

Definition set_bucket (b : TokenBucket) (tokens last_refill : Z) : TokenBucket := {|
  tb_capacity := tb_capacity b; tb_tokens := tokens; tb_refill_rate := tb_refill_rate b;
  tb_last_refill := last_refill |}.

(** The tokens due since the last refill, as the code computes them. *)
Definition due_tokens (b : TokenBucket) (now : Z) : Q :=
  f64 (Qmult (as_secs_float f64 (now - tb_last_refill b)) (inject_Z (tb_refill_rate b))).

Definition refill_at (b : TokenBucket) (now : Z) : TokenBucket :=
  if tb_refill_rate b =? 0 then b else
  if now <=? tb_last_refill b then b else
  let space := wrap32 (tb_capacity b - tb_tokens b) in
  if space =? 0 then set_bucket b (tb_tokens b) now else
  let due := due_tokens b now in
  if flt due 1 then b else
  let space_f := inject_Z space in
  let add := to_uint 32 (fmin due space_f) in
  let credited := from_secs_float (f64 (Qdiv (inject_Z add) (inject_Z (tb_refill_rate b)))) in
  set_bucket b (wrap32 (tb_tokens b + add)) (if flt space_f due then now else tb_last_refill b + credited).

Definition try_consume_at (b : TokenBucket) (now count : Z) : TokenBucket * bool :=
  let b := refill_at b now in
  if count <=? tb_tokens b then (set_bucket b (tb_tokens b - count) (tb_last_refill b), true) else (b, false).

(** [take]: saturating. *)
Definition bucket_take (b : TokenBucket) (count : Z) : TokenBucket :=
  set_bucket b (Z.max 0 (tb_tokens b - count)) (tb_last_refill b).

(** ** One peer *)

Record PeerRateLimiter := {
  pl_main_bucket : TokenBucket;
  pl_per_type_buckets : gmap MessageType TokenBucket;
  pl_sync_get_headers : TokenBucket;
  pl_sync_get_blocks : TokenBucket;
  pl_violation_count : Z;
  pl_last_violation : option Z;
  pl_ban_threshold : Z;
  pl_ban_window : Z;
  pl_ban_duration : Z;
  pl_banned_until : option Z
}.

Definition peer_limiter_new (config : RateLimitConfig) (now : Z) : PeerRateLimiter := {|
  pl_main_bucket := bucket_with_spec (rl_main config) now;
  pl_per_type_buckets := <[MtTx := bucket_with_spec (rl_tx config) now]>
    (<[MtBlock := bucket_with_spec (rl_block config) now]>
      (<[MtInv := bucket_with_spec (rl_inv config) now]> ∅));
  pl_sync_get_headers := bucket_with_spec (rl_get_headers config) now;
  pl_sync_get_blocks := bucket_with_spec (rl_get_blocks config) now;
  pl_violation_count := 0; pl_last_violation := None;
  pl_ban_threshold := rl_ban_threshold config; pl_ban_window := rl_ban_window config;
  pl_ban_duration := rl_ban_duration config; pl_banned_until := None |}.

Definition with_buckets (p : PeerRateLimiter) (main : TokenBucket) (types : gmap MessageType TokenBucket)
    (headers blocks : TokenBucket) : PeerRateLimiter := {|
  pl_main_bucket := main; pl_per_type_buckets := types; pl_sync_get_headers := headers;
  pl_sync_get_blocks := blocks; pl_violation_count := pl_violation_count p;
  pl_last_violation := pl_last_violation p; pl_ban_threshold := pl_ban_threshold p;
  pl_ban_window := pl_ban_window p; pl_ban_duration := pl_ban_duration p;
  pl_banned_until := pl_banned_until p |}.

Definition with_violations (p : PeerRateLimiter) (count : Z) (last : option Z) (banned : option Z)
    : PeerRateLimiter := {|
  pl_main_bucket := pl_main_bucket p; pl_per_type_buckets := pl_per_type_buckets p;
  pl_sync_get_headers := pl_sync_get_headers p; pl_sync_get_blocks := pl_sync_get_blocks p;
  pl_violation_count := count; pl_last_violation := last; pl_ban_threshold := pl_ban_threshold p;
  pl_ban_window := pl_ban_window p; pl_ban_duration := pl_ban_duration p; pl_banned_until := banned |}.

Definition with_main (p : PeerRateLimiter) (main : TokenBucket) : PeerRateLimiter :=
  with_buckets p main (pl_per_type_buckets p) (pl_sync_get_headers p) (pl_sync_get_blocks p).

Abbreviation Verdict := (result RateLimitError unit).

Definition limiter_guard (p : PeerRateLimiter) (now : Z) : PeerRateLimiter * Verdict :=
  match pl_banned_until p with
  | Some until => if now <? until then (p, Err Ban) else (with_violations p 0 None None, Ok tt)
  | None => (p, Ok tt)
  end.

Definition record_violation (p : PeerRateLimiter) (now : Z) : PeerRateLimiter * Verdict :=
  let count := match pl_last_violation p with
               | Some last => if pl_ban_window p <=? Z.max 0 (now - last) then 0 else pl_violation_count p
               | None => pl_violation_count p
               end in
  let count := wrap32 (count + 1) in
  if pl_ban_threshold p <=? count
  then (with_violations p count (Some now) (Some (now + pl_ban_duration p)), Err Ban)
  else (with_violations p count (Some now) (pl_banned_until p), Err Exceeded).

(** The charge of the main bucket and a second one, both or neither: the buckets
    refilled, and charged when both have a token. *)
Definition charge_both (main sub : TokenBucket) (now : Z) : TokenBucket * TokenBucket * bool :=
  let main := refill_at main now in
  let sub := refill_at sub now in
  if (1 <=? tb_tokens main) && (1 <=? tb_tokens sub)
  then (bucket_take main 1, bucket_take sub 1, true) else (main, sub, false).

(** The end of a charge: a refused message is a violation. *)
Definition settle (p : PeerRateLimiter) (now : Z) (charged : bool) : PeerRateLimiter * Verdict :=
  if charged then (p, Ok tt) else record_violation p now.

Definition charge_main (p : PeerRateLimiter) (now : Z) : PeerRateLimiter * Verdict :=
  let '(main, ok) := try_consume_at (pl_main_bucket p) now 1 in
  settle (with_main p main) now ok.

Definition charge_type (p : PeerRateLimiter) (now : Z) (t : MessageType) : PeerRateLimiter * Verdict :=
  match pl_per_type_buckets p !! t with
  | Some sub =>
      let '(main, sub, ok) := charge_both (pl_main_bucket p) sub now in
      settle (with_buckets p main (<[t := sub]> (pl_per_type_buckets p)) (pl_sync_get_headers p)
                (pl_sync_get_blocks p)) now ok
  | None =>
      let main := refill_at (pl_main_bucket p) now in
      if 1 <=? tb_tokens main then (with_main p (bucket_take main 1), Ok tt)
      else record_violation (with_main p main) now
  end.

Definition charge_class (p : PeerRateLimiter) (now : Z) (class : MessageClass) : PeerRateLimiter * Verdict :=
  match class with
  | McGetHeaders =>
      let '(main, sub, ok) := charge_both (pl_main_bucket p) (pl_sync_get_headers p) now in
      settle (with_buckets p main (pl_per_type_buckets p) sub (pl_sync_get_blocks p)) now ok
  | McGetBlocks =>
      let '(main, sub, ok) := charge_both (pl_main_bucket p) (pl_sync_get_blocks p) now in
      settle (with_buckets p main (pl_per_type_buckets p) (pl_sync_get_headers p) sub) now ok
  | McOther => charge_main p now
  end.

(** [self.guard(now)?] before a charge. *)
Definition guarded (p : PeerRateLimiter) (now : Z) (f : PeerRateLimiter → PeerRateLimiter * Verdict)
    : PeerRateLimiter * Verdict :=
  let '(p, v) := limiter_guard p now in match v with Ok _ => f p | _ => (p, v) end.

Definition check_rate_at (p : PeerRateLimiter) (now : Z) (t : MessageType) : PeerRateLimiter * Verdict :=
  guarded p now (λ p, charge_type p now t).
Definition check_at (p : PeerRateLimiter) (now : Z) : PeerRateLimiter * Verdict :=
  guarded p now (λ p, charge_main p now).
Definition check_class_at (p : PeerRateLimiter) (now : Z) (class : MessageClass) : PeerRateLimiter * Verdict :=
  guarded p now (λ p, charge_class p now class).

Definition limiter_ban (p : PeerRateLimiter) (now : Z) : PeerRateLimiter :=
  with_violations p (pl_violation_count p) (pl_last_violation p) (Some (now + pl_ban_duration p)).

Definition is_banned_at (p : PeerRateLimiter) (now : Z) : bool :=
  match pl_banned_until p with Some until => now <? until | None => false end.

(** ** All peers *)

#[export] Instance SocketAddr_countable : Countable SocketAddr.
Proof.
  refine (inj_countable' (λ a, match a with SockV4 o p => (true, o, p, 0, 0) | SockV6 o p f s => (false, o, p, f, s) end)
            (λ '(v, o, p, f, s), if (v : bool) then SockV4 o p else SockV6 o p f s) _).
  by intros [].
Defined.

Record RateLimiter := { lm_config : RateLimitConfig; lm_peers : gmap SocketAddr PeerRateLimiter }.

Definition rate_limiter_new (config : RateLimitConfig) : RateLimiter := {| lm_config := config; lm_peers := ∅ |}.

Definition peer_entry (l : RateLimiter) (addr : SocketAddr) (now : Z) : PeerRateLimiter :=
  default (peer_limiter_new (lm_config l) now) (lm_peers l !! addr).

Definition put_peer (l : RateLimiter) (addr : SocketAddr) (p : PeerRateLimiter) : RateLimiter :=
  {| lm_config := lm_config l; lm_peers := <[addr := p]> (lm_peers l) |}.

Definition limiter_check_rate_at (l : RateLimiter) (now : Z) (addr : SocketAddr) (t : MessageType)
    : RateLimiter * Verdict :=
  let '(p, v) := check_rate_at (peer_entry l addr now) now t in (put_peer l addr p, v).
Definition limiter_check_at (l : RateLimiter) (now : Z) (addr : SocketAddr) : RateLimiter * Verdict :=
  let '(p, v) := check_at (peer_entry l addr now) now in (put_peer l addr p, v).
Definition limiter_check_class_at (l : RateLimiter) (now : Z) (addr : SocketAddr) (class : MessageClass)
    : RateLimiter * Verdict :=
  let '(p, v) := check_class_at (peer_entry l addr now) now class in (put_peer l addr p, v).
Definition limiter_ban_at (l : RateLimiter) (now : Z) (addr : SocketAddr) : RateLimiter :=
  put_peer l addr (limiter_ban (peer_entry l addr now) now).
Definition limiter_is_banned_at (l : RateLimiter) (now : Z) (addr : SocketAddr) : bool :=
  match lm_peers l !! addr with Some p => is_banned_at p now | None => false end.
Definition limiter_violations (l : RateLimiter) (addr : SocketAddr) : Z :=
  match lm_peers l !! addr with Some p => pl_violation_count p | None => 0 end.
