(* ===== verification/RateLimiterProps.v ===== *)
(** * Properties of the rate limiter

    The bucket invariant, the bound on what a peer gets through whatever the
    rounding of the refill, and the violation window with its ban. *)

From S2P Require Import Prelude Bytes Net Float RateLimiter.
From Stdlib Require Import QArith Qround Lqa.
From stdpp Require Import gmap.
Open Scope Z_scope.

(** ** The bucket *)

Record bucket_ok (b : TokenBucket) : Prop := {
  bk_tokens : 0 ≤ tb_tokens b ≤ tb_capacity b;
  bk_capacity : tb_capacity b < two32;
  bk_rate : 0 ≤ tb_refill_rate b < two32
}.

Lemma inject_le a b : (inject_Z a <= inject_Z b)%Q ↔ a ≤ b.
Proof. by rewrite <- Zle_Qle. Qed.

Lemma inject_nonneg a : 0 ≤ a → (0 <= inject_Z a)%Q.
Proof. intros. change 0%Q with (inject_Z 0). by apply inject_le. Qed.

Lemma elapsed_bounds d :
  0 ≤ d → (0 <= as_secs_float f64 d)%Q
    ∧ (inject_Z d * (1 - (4 # 9007199254740992)) <= as_secs_float f64 d * inject_Z NANOS
       <= inject_Z d * (1 + (4 # 9007199254740992)))%Q.
Proof.
  intros Hd. unfold as_secs_float. pose proof (Z.div_mod d NANOS ltac:(done)) as Ed.
  pose proof (Z.mod_pos_bound d NANOS ltac:(done)) as Hr. pose proof (Z.div_pos d NANOS Hd ltac:(done)) as Hq.
  set (s := d / NANOS) in *. set (r := d mod NANOS) in *.
  assert (inject_Z d == inject_Z NANOS * inject_Z s + inject_Z r)%Q as Ei
    by (rewrite Ed at 1; by rewrite inject_Z_plus, inject_Z_mult).
  pose proof (inject_nonneg s Hq) as Hs0. pose proof (inject_nonneg r ltac:(lia)) as Hr0.
  pose proof (rnd_bounds 53 _ ltac:(lia) Hs0) as Ha. pose proof (rnd_bounds 53 _ ltac:(lia) Hr0) as Hb.
  fold f64 in Ha, Hb. pose proof (rnd_nonneg 53 _ ltac:(lia) Hs0) as Ha0. pose proof (rnd_nonneg 53 _ ltac:(lia) Hr0) as Hb0.
  fold f64 in Ha0, Hb0. set (a := f64 (inject_Z s)) in *. set (b := f64 (inject_Z r)) in *.
  assert (b / inject_Z NANOS == b * (1 # 1000000000))%Q as Eq
    by (unfold Qdiv; change (/ inject_Z NANOS)%Q with (1 # 1000000000)%Q; apply Qeq_refl).
  set (q := (b / inject_Z NANOS)%Q) in *. clearbody q.
  assert (0 <= q)%Q as Hq0 by lra.
  pose proof (rnd_bounds 53 _ ltac:(lia) Hq0) as Hc. pose proof (rnd_nonneg 53 _ ltac:(lia) Hq0) as Hc0.
  fold f64 in Hc, Hc0. set (c := f64 q) in *.
  assert (0 <= a + c)%Q as Hs by lra.
  pose proof (rnd_bounds 53 _ ltac:(lia) Hs) as He. pose proof (rnd_nonneg 53 _ ltac:(lia) Hs) as He0.
  fold f64 in He, He0. change (eps 53) with (1 # 9007199254740992)%Q in *.
  change (inject_Z NANOS) with (1000000000 # 1)%Q in *. split; [done|]. lra.
Qed.

(** The tokens due are the elapsed time times the rate, up to rounding. *)
Lemma due_bounds b now :
  bucket_ok b → tb_last_refill b < now →
  let d := now - tb_last_refill b in
  (0 <= due_tokens b now)%Q
  ∧ (inject_Z (d * tb_refill_rate b) * (1 - (6 # 9007199254740992)) <= due_tokens b now * inject_Z NANOS
     <= inject_Z (d * tb_refill_rate b) * (1 + (6 # 9007199254740992)))%Q.
Proof.
  intros [_ _ Hr] Hn d. unfold due_tokens. fold d.
  destruct (elapsed_bounds d ltac:(lia)) as [He0 He]. set (e := as_secs_float f64 d) in *.
  pose proof (inject_nonneg (tb_refill_rate b) ltac:(lia)) as Hr0. set (r := inject_Z (tb_refill_rate b)) in *.
  assert (0 <= e * r)%Q as Hx by by apply Qmult_le_0_compat.
  pose proof (rnd_bounds 53 _ ltac:(lia) Hx) as Hb. pose proof (rnd_nonneg 53 _ ltac:(lia) Hx) as Hb0.
  fold f64 in Hb, Hb0. split; [done|]. change (eps 53) with (1 # 9007199254740992)%Q in *.
  destruct He as [He1 He2].
  assert (e * inject_Z NANOS * r <= inject_Z d * (1 + (4 # 9007199254740992)) * r)%Q as Hm by by apply Qmult_le_compat_r.
  assert (inject_Z d * (1 - (4 # 9007199254740992)) * r <= e * inject_Z NANOS * r)%Q as Hl by by apply Qmult_le_compat_r.
  rewrite inject_Z_mult. fold r.
  assert (0 <= inject_Z d * r)%Q as Hd0 by (apply Qmult_le_0_compat; [apply inject_nonneg; lia|done]).
  set (x := (e * r)%Q) in *. set (y := (inject_Z d * r)%Q) in *.
  assert (x * inject_Z NANOS <= y * (1 + (4 # 9007199254740992)))%Q as Hm' by (unfold x, y; lra).
  assert (y * (1 - (4 # 9007199254740992)) <= x * inject_Z NANOS)%Q as Hl' by (unfold x, y; lra).
  change (inject_Z NANOS) with (1000000000 # 1)%Q in *. clearbody x y. lra.
Qed.

(** The time credited for [add] tokens at [rate] per second. *)
Lemma credited_bounds add rate :
  0 ≤ add → 0 < rate →
  let c := from_secs_float (f64 (inject_Z add / inject_Z rate)) in
  0 ≤ c
  ∧ 2 * (add * NANOS * (2 ^ 53 - 1)) ≤ (2 * c + 1) * rate * 2 ^ 53
  ∧ 2 * c * rate * 2 ^ 53 ≤ 2 * (add * NANOS * (2 ^ 53 + 1)) + rate * 2 ^ 53.
Proof.
  intros Ha Hr c. assert (0 <= inject_Z add / inject_Z rate)%Q as Hx0.
  { apply Qle_shift_div_l; [change 0%Q with (inject_Z 0); by rewrite <- Zlt_Qlt|].
    rewrite Qmult_0_l. by apply inject_nonneg. }
  pose proof (rnd_bounds 53 _ ltac:(lia) Hx0) as Hb. pose proof (rnd_nonneg 53 _ ltac:(lia) Hx0) as Hb0.
  fold f64 in Hb, Hb0. destruct (from_secs_bounds _ Hb0) as [Hc Hc0]. fold c in Hc, Hc0. split; [done|].
  set (x := (inject_Z add / inject_Z rate)%Q) in *. set (y := f64 x) in *.
  assert (x * inject_Z rate == inject_Z add)%Q as Ex.
  { unfold x. field. intros E. unfold Qeq in E. cbn in E. lia. }
  assert (0 < inject_Z rate)%Q as Hr0 by (change 0%Q with (inject_Z 0); by rewrite <- Zlt_Qlt).
  set (r := inject_Z rate) in *. change (eps 53) with (1 # 9007199254740992)%Q in *.
  change (inject_Z NANOS) with (1000000000 # 1)%Q in *.
  assert (y * r <= x * (1 + (1 # 9007199254740992)) * r)%Q as Hy1 by (apply Qmult_le_compat_r; lra).
  assert (x * (1 - (1 # 9007199254740992)) * r <= y * r)%Q as Hy2 by (apply Qmult_le_compat_r; lra).
  assert ((y * (1000000000 # 1) - (1 # 2)) * r <= inject_Z c * r)%Q as Hc1 by (apply Qmult_le_compat_r; lra).
  assert (inject_Z c * r <= (y * (1000000000 # 1) + (1 # 2)) * r)%Q as Hc2 by (apply Qmult_le_compat_r; lra).
  set (yr := (y * r)%Q) in *. set (xr := (x * r)%Q) in *. set (cr := (inject_Z c * r)%Q) in *.
  assert (yr <= inject_Z add * (1 + (1 # 9007199254740992)))%Q by (rewrite <- Ex; unfold xr, yr in *; lra).
  assert (inject_Z add * (1 - (1 # 9007199254740992)) <= yr)%Q by (rewrite <- Ex; unfold xr, yr in *; lra).
  assert (yr * (1000000000 # 1) - (1 # 2) * r <= cr <= yr * (1000000000 # 1) + (1 # 2) * r)%Q by (unfold yr; lra).
  clearbody yr. split.
  - apply inject_le. rewrite !inject_Z_mult, inject_Z_plus, !inject_Z_mult. fold r.
    change (inject_Z (2 ^ 53 - 1)) with (9007199254740991 # 1)%Q. change (inject_Z (2 ^ 53)) with (9007199254740992 # 1)%Q.
    change (inject_Z NANOS) with (1000000000 # 1)%Q. change (inject_Z 2) with (2 # 1)%Q. change (inject_Z 1) with (1 # 1)%Q.
    assert (((2 # 1) * inject_Z c + (1 # 1)) * r == (2 # 1) * cr + r)%Q as Ec by (unfold cr; ring). rewrite Ec. lra.
  - apply inject_le. rewrite inject_Z_plus, !inject_Z_mult. fold r.
    change (inject_Z (2 ^ 53 + 1)) with (9007199254740993 # 1)%Q. change (inject_Z (2 ^ 53)) with (9007199254740992 # 1)%Q.
    change (inject_Z NANOS) with (1000000000 # 1)%Q. change (inject_Z 2) with (2 # 1)%Q.
    assert ((2 # 1) * inject_Z c * r == (2 # 1) * cr)%Q as Ec by (unfold cr; ring). rewrite Ec. lra.
Qed.

Definition potential (b : TokenBucket) : Z := tb_tokens b * NANOS - tb_refill_rate b * tb_last_refill b.

(** The tokens a refill credits, against the time. *)
Lemma credit_bounds b now space :
  bucket_ok b → tb_last_refill b < now → 0 ≤ space < two32 →
  let add := to_uint 32 (fmin (due_tokens b now) (inject_Z space)) in
  0 ≤ add ≤ space
  ∧ add * NANOS * 2 ^ 53 ≤ (now - tb_last_refill b) * tb_refill_rate b * (2 ^ 53 + 6)
  ∧ (flt (inject_Z space) (due_tokens b now) = false →
     (now - tb_last_refill b) * tb_refill_rate b * (2 ^ 53 - 6) ≤ space * NANOS * 2 ^ 53).
Proof.
  intros Hb Hn Hsp add. destruct (due_bounds b now Hb Hn) as [Hd0 [Hd1 Hd2]].
  set (z := (now - tb_last_refill b) * tb_refill_rate b) in *. set (due := due_tokens b now) in *.
  assert (0 <= inject_Z space)%Q as Hs0 by (apply inject_nonneg; lia).
  assert (0 <= fmin due (inject_Z space))%Q as Hm0 by (unfold fmin; by destruct (Qle_bool due (inject_Z space))).
  destruct (fmin_le due (inject_Z space)) as [Hm1 Hm2].
  pose proof (to_uint_le 32 _ Hm0) as Ha. fold add in Ha.
  change (inject_Z NANOS) with (1000000000 # 1)%Q in *. split_and!.
  - apply to_uint_range. lia.
  - apply inject_le. exact (Qle_trans _ _ _ Ha Hm2).
  - apply inject_le. rewrite !inject_Z_mult. change (inject_Z NANOS) with (1000000000 # 1)%Q.
    change (inject_Z (2 ^ 53)) with (9007199254740992 # 1)%Q. change (inject_Z (2 ^ 53 + 6)) with (9007199254740998 # 1)%Q. lra.
  - intros Hf. apply flt_false in Hf. apply inject_le. rewrite !inject_Z_mult. change (inject_Z NANOS) with (1000000000 # 1)%Q.
    change (inject_Z (2 ^ 53)) with (9007199254740992 # 1)%Q. change (inject_Z (2 ^ 53 - 6)) with (9007199254740986 # 1)%Q. lra.
Qed.

(** The arithmetic of a refill: what is credited against the time that passed. *)
Lemma credited_potential t r last now space add c (full : bool) :
  0 ≤ add ≤ space → space < two32 → 0 < r < two32 → last < now → 0 ≤ c →
  add * NANOS * 2 ^ 53 ≤ (now - last) * r * (2 ^ 53 + 6) →
  (full = false → (now - last) * r * (2 ^ 53 - 6) ≤ space * NANOS * 2 ^ 53) →
  2 * (add * NANOS * (2 ^ 53 - 1)) ≤ (2 * c + 1) * r * 2 ^ 53 →
  2 * c * r * 2 ^ 53 ≤ 2 * (add * NANOS * (2 ^ 53 + 1)) + r * 2 ^ 53 →
  let last' := if full then now else last + c in
  (t + add) * NANOS - r * last' ≤ t * NANOS - r * last + 3000 + r ∧ last' ≤ Z.max last (now + 8000).
Proof.
  intros Ha Hs Hr Hn Hc H1 H2 H3 H4. cbv zeta. change two32 with 4294967296 in *.
  change (2 ^ 53) with 9007199254740992 in *. unfold NANOS in *.
  replace ((2 * c + 1) * r) with (2 * (c * r) + r) in H3 by ring.
  replace (2 * c * r) with (2 * (c * r)) in H4 by ring.
  destruct full.
  - split; [|lia]. replace (r * now) with (r * last + (now - last) * r) by ring.
    set (z := (now - last) * r) in *. clearbody z. lia.
  - specialize (H2 eq_refl). replace (r * (last + c)) with (r * last + c * r) by ring.
    assert (c * r ≤ (now - last) * r + 7000 + r) as Hy.
    { set (z := (now - last) * r) in *. set (y := c * r) in *. clearbody z y. lia. }
    split; [set (y := c * r) in *; clearbody y; lia|]. assert (c ≤ now - last + 7001); [nia|lia].
Qed.

Lemma refill_ok b now :
  bucket_ok b →
  let b' := refill_at b now in
  bucket_ok b' ∧ tb_capacity b' = tb_capacity b ∧ tb_refill_rate b' = tb_refill_rate b
  ∧ tb_tokens b ≤ tb_tokens b'
  ∧ potential b' ≤ potential b + 3000 + tb_refill_rate b
  ∧ tb_last_refill b' ≤ Z.max (tb_last_refill b) (now + 8000).
Proof.
  intros Hb. cbv zeta. pose proof Hb as [Ht Hc Hr]. unfold refill_at.
  destruct (Z.eqb_spec (tb_refill_rate b) 0) as [E0|Hr0].
  { split_and!; try done. all: lia. }
  destruct (Z.leb_spec now (tb_last_refill b)) as [Hle|Hn].
  { split_and!; try done. all: lia. }
  cbv zeta.
  assert (wrap32 (tb_capacity b - tb_tokens b) = tb_capacity b - tb_tokens b) as ->
    by (unfold wrap32; rewrite Z.mod_small; lia).
  set (space := tb_capacity b - tb_tokens b).
  destruct (Z.eqb_spec space 0) as [Es|Hs].
  { cbn. split_and!; try done; unfold potential; cbn; try nia. }
  destruct (flt (due_tokens b now) 1).
  { split_and!; try done. all: lia. }
  destruct (credit_bounds b now space Hb Hn) as (Ha & H1 & H2); [unfold space; lia|].
  set (add := to_uint 32 (fmin (due_tokens b now) (inject_Z space))) in *. clearbody add.
  destruct (credited_bounds add (tb_refill_rate b)) as (Hcr & H3 & H4); [lia|lia|].
  set (c := from_secs_float _) in *. clearbody c.
  assert (wrap32 (tb_tokens b + add) = tb_tokens b + add) as -> by (unfold wrap32; rewrite Z.mod_small; lia).
  destruct (credited_potential (tb_tokens b) (tb_refill_rate b) (tb_last_refill b) now space add c
    (flt (inject_Z space) (due_tokens b now))) as [Hp Hl]; try done; [unfold space; lia|lia|].
  unfold potential. cbn [tb_tokens tb_refill_rate tb_last_refill tb_capacity set_bucket].
  split_and!; [split; cbn; lia|done|done|lia|done|done].
Qed.

(** ** One charge *)

(** What a charge of a bucket does: [accepted] tokens leave it, and the balance of
    tokens against time grows by at most the rounding slack of one refill. *)
Definition charged (b b' : TokenBucket) (now : Z) (accepted : bool) : Prop :=
  bucket_ok b' ∧ tb_capacity b' = tb_capacity b ∧ tb_refill_rate b' = tb_refill_rate b
  ∧ potential b' + (if accepted then NANOS else 0) ≤ potential b + 3000 + tb_refill_rate b
  ∧ tb_last_refill b' ≤ Z.max (tb_last_refill b) (now + 8000).

Lemma refill_charged b now : bucket_ok b → charged b (refill_at b now) now false.
Proof. intros Hb. destruct (refill_ok b now Hb) as (?&?&?&?&?&?). unfold charged. split_and!; try done. lia. Qed.

Lemma take_charged b now :
  bucket_ok b → 1 ≤ tb_tokens (refill_at b now) → charged b (bucket_take (refill_at b now) 1) now true.
Proof.
  intros Hb Ht. destruct (refill_ok b now Hb) as ([Hk1 Hk2 Hk3] & Hc & Hr & _ & Hp & Hl).
  unfold charged, bucket_take, potential, NANOS in *. set (r := refill_at b now) in *. clearbody r. cbn.
  split_and!; try done; [split; cbn; lia|lia].
Qed.

Lemma try_consume_charged b now :
  bucket_ok b → let '(b', ok) := try_consume_at b now 1 in charged b b' now ok.
Proof.
  intros Hb. unfold try_consume_at. destruct (Z.leb_spec 1 (tb_tokens (refill_at b now))) as [H1|H1].
  - replace (set_bucket _ _ _) with (bucket_take (refill_at b now) 1); [by apply take_charged|].
    unfold bucket_take. f_equal. lia.
  - by apply refill_charged.
Qed.

Lemma charge_both_charged m s now :
  bucket_ok m → bucket_ok s →
  let '(m', s', ok) := charge_both m s now in charged m m' now ok ∧ charged s s' now ok.
Proof.
  intros Hm Hs. unfold charge_both.
  destruct (Z.leb_spec 1 (tb_tokens (refill_at m now))); destruct (Z.leb_spec 1 (tb_tokens (refill_at s now))); cbn;
    auto using take_charged, refill_charged.
Qed.

(** ** One peer *)

Record limiter_ok (p : PeerRateLimiter) : Prop := {
  lk_main : bucket_ok (pl_main_bucket p);
  lk_types : map_Forall (λ _, bucket_ok) (pl_per_type_buckets p);
  lk_headers : bucket_ok (pl_sync_get_headers p);
  lk_blocks : bucket_ok (pl_sync_get_blocks p)
}.

(** One check of a peer, at a time. *)
Inductive Check := CheckRate (t : MessageType) | CheckMain | CheckClass (c : MessageClass).

Definition check (p : PeerRateLimiter) (now : Z) (c : Check) : PeerRateLimiter * Verdict :=
  match c with
  | CheckRate t => check_rate_at p now t
  | CheckMain => check_at p now
  | CheckClass c => check_class_at p now c
  end.

Definition accepted (v : Verdict) : bool := match v with Ok _ => true | _ => false end.

(** The buckets of a limiter, which violations and bans leave alone. *)
Definition same_buckets (p p' : PeerRateLimiter) : Prop :=
  pl_main_bucket p' = pl_main_bucket p ∧ pl_per_type_buckets p' = pl_per_type_buckets p
  ∧ pl_sync_get_headers p' = pl_sync_get_headers p ∧ pl_sync_get_blocks p' = pl_sync_get_blocks p.

Lemma same_buckets_ok p p' : same_buckets p p' → limiter_ok p → limiter_ok p'.
Proof. intros (E1 & E2 & E3 & E4) []. split; by rewrite ?E1, ?E2, ?E3, ?E4. Qed.

Lemma record_violation_spec p now :
  let '(p', v) := record_violation p now in same_buckets p p' ∧ accepted v = false.
Proof. unfold record_violation. cbv zeta. by destruct (pl_ban_threshold p <=? _). Qed.

Lemma guard_spec p now : let '(p', v) := limiter_guard p now in same_buckets p p' ∧ (v = Ok tt ∨ v = Err Ban).
Proof. unfold limiter_guard. destruct (pl_banned_until p) as [u|]; [destruct (now <? u)|]; (split; [done|auto]). Qed.

Lemma settle_spec p now b :
  let '(p', v) := settle p now b in same_buckets p p' ∧ accepted v = b.
Proof. destruct b; cbn; [done|apply record_violation_spec]. Qed.

(** A charge: the limiter stays well formed and the main bucket pays. *)
Definition paid (p p' : PeerRateLimiter) (now : Z) (v : Verdict) : Prop :=
  limiter_ok p' ∧ charged (pl_main_bucket p) (pl_main_bucket p') now (accepted v).

Lemma settle_paid p q now b :
  limiter_ok q → charged (pl_main_bucket p) (pl_main_bucket q) now b →
  let '(p', v) := settle q now b in paid p p' now v.
Proof.
  intros Hq Hc. pose proof (settle_spec q now b) as H. destruct (settle q now b) as [p' v].
  destruct H as [Hs <-]. split; [by eapply same_buckets_ok|]. by rewrite (proj1 Hs).
Qed.

Lemma charge_main_paid p now : limiter_ok p → let '(p', v) := charge_main p now in paid p p' now v.
Proof.
  intros [Hm Ht Hh Hb]. unfold charge_main. pose proof (try_consume_charged _ now Hm) as Hc.
  destruct (try_consume_at _ _ _) as [m ok]. apply settle_paid; [|done]. split; try done. apply Hc.
Qed.

Lemma charge_type_paid p now t : limiter_ok p → let '(p', v) := charge_type p now t in paid p p' now v.
Proof.
  intros [Hm Ht Hh Hb]. unfold charge_type. destruct (pl_per_type_buckets p !! t) as [s|] eqn:Es.
  - pose proof (charge_both_charged _ _ now Hm (Ht _ _ Es)) as Hc.
    destruct (charge_both _ _ _) as [[m s'] ok]. destruct Hc as [Hc1 Hc2]. apply settle_paid; [|done].
    split; try done; [apply Hc1|]. cbn. apply map_Forall_insert_2; [apply Hc2|done].
  - destruct (Z.leb_spec 1 (tb_tokens (refill_at (pl_main_bucket p) now))) as [H1|H1].
    + pose proof (take_charged _ now Hm H1) as Hc. split; [|done]. split; try done. apply Hc.
    + pose proof (refill_charged _ now Hm) as Hc.
      apply (settle_paid p (with_main p (refill_at (pl_main_bucket p) now)) now false); [|done]. split; try done. apply Hc.
Qed.

Lemma charge_class_paid p now c : limiter_ok p → let '(p', v) := charge_class p now c in paid p p' now v.
Proof.
  intros Hp. pose proof Hp as [Hm Ht Hh Hb]. destruct c; cbn [charge_class]; [| |by apply charge_main_paid].
  - pose proof (charge_both_charged _ _ now Hm Hh) as Hc.
    destruct (charge_both _ _ _) as [[m s'] ok]. destruct Hc as [Hc1 Hc2]. apply settle_paid; [|done].
    split; try done; [apply Hc1|apply Hc2].
  - pose proof (charge_both_charged _ _ now Hm Hb) as Hc.
    destruct (charge_both _ _ _) as [[m s'] ok]. destruct Hc as [Hc1 Hc2]. apply settle_paid; [|done].
    split; try done; [apply Hc1|apply Hc2].
Qed.

Lemma guarded_paid p now f :
  limiter_ok p → (∀ q, limiter_ok q → let '(p', v) := f q in paid q p' now v) →
  let '(p', v) := guarded p now f in paid p p' now v.
Proof.
  intros Hp Hf. unfold guarded. pose proof (guard_spec p now) as Hg. destruct (limiter_guard p now) as [q v].
  destruct Hg as [Hs Hv]. pose proof (same_buckets_ok _ _ Hs Hp) as Hq. unfold paid in *. destruct Hv as [-> | ->].
  - specialize (Hf q Hq). destruct (f q) as [p' v]. by rewrite (proj1 Hs) in Hf.
  - split; [done|]. rewrite (proj1 Hs). cbn. unfold charged. destruct (lk_main p Hp) as [? ? ?]. split_and!; try done; lia.
Qed.

Lemma check_paid p now c : limiter_ok p → let '(p', v) := check p now c in paid p p' now v.
Proof.
  intros Hp. destruct c; apply guarded_paid; try done; intros q Hq;
    [by apply charge_type_paid|by apply charge_main_paid|by apply charge_class_paid].
Qed.

(** ** Any sequence of checks *)

Fixpoint run_checks (p : PeerRateLimiter) (cs : list (Z * Check)) : PeerRateLimiter * Z :=
  match cs with
  | [] => (p, 0)
  | (now, c) :: cs =>
      let '(p, v) := check p now c in
      let '(p, n) := run_checks p cs in (p, n + (if accepted v then 1 else 0))
  end.

Lemma run_checks_bound cs T : ∀ p,
  limiter_ok p → Forall (λ c, c.1 ≤ T) cs → tb_last_refill (pl_main_bucket p) ≤ T + 8000 →
  let '(p', n) := run_checks p cs in
  limiter_ok p' ∧ tb_last_refill (pl_main_bucket p') ≤ T + 8000
  ∧ tb_refill_rate (pl_main_bucket p') = tb_refill_rate (pl_main_bucket p)
  ∧ potential (pl_main_bucket p') + n * NANOS
    ≤ potential (pl_main_bucket p) + Z.of_nat (length cs) * (3000 + tb_refill_rate (pl_main_bucket p)).
Proof.
  induction cs as [|[now c] cs IH]; intros p Hp HT Hl; cbn [run_checks length]; [split_and!; try done; lia|].
  apply Forall_cons in HT as [Hn HT]. cbn in Hn. pose proof (check_paid p now c Hp) as H.
  destruct (check p now c) as [q v]. destruct H as (Hq & Hk & _ & Hr & Hpot & Hlast).
  specialize (IH q Hq HT ltac:(lia)). destruct (run_checks q cs) as [p' n]. destruct IH as (Hp' & Hl' & Hr' & Hpot').
  rewrite Hr in *. split_and!; try done. destruct (accepted v); lia.
Qed.

Definition spec_ok (s : BucketSpec) : Prop := 0 ≤ bs_capacity s < two32 ∧ 0 ≤ bs_refill s < two32.

Definition config_ok (c : RateLimitConfig) : Prop :=
  spec_ok (rl_main c) ∧ spec_ok (rl_get_headers c) ∧ spec_ok (rl_get_blocks c) ∧ spec_ok (rl_inv c)
  ∧ spec_ok (rl_block c) ∧ spec_ok (rl_tx c).

Lemma bucket_with_spec_ok s now : spec_ok s → bucket_ok (bucket_with_spec s now).
Proof. intros [Hc Hr]. split; cbn; lia. Qed.

Lemma peer_limiter_new_ok c now : config_ok c → limiter_ok (peer_limiter_new c now).
Proof.
  intros (?&?&?&?&?&?). split; try by apply bucket_with_spec_ok. cbn.
  repeat (apply map_Forall_insert_2; [by apply bucket_with_spec_ok|]). apply map_Forall_empty.
Qed.

(** C34: the rate limiter bounds what a peer gets through.  Whatever messages a peer
    sends and whenever they are checked (also with a clock that steps back), up to
    time [T] it has at most the burst capacity of the main bucket accepted, plus its
    refill rate times the time since the limiter was made, that time taken eight
    microseconds longer, and plus [3000 + rate] billionths of a message per check: the
    last two terms cover the rounding of the floating-point refill. *)
Theorem traffic_bound config t0 T cs :
  config_ok config → t0 ≤ T → Forall (λ c, c.1 ≤ T) cs →
  let rate := bs_refill (rl_main config) in
  (run_checks (peer_limiter_new config t0) cs).2 * NANOS
  ≤ bs_capacity (rl_main config) * NANOS + rate * (T - t0 + 8000) + Z.of_nat (length cs) * (3000 + rate).
Proof.
  intros Hc Ht HT rate. pose proof (run_checks_bound cs T _ (peer_limiter_new_ok config t0 Hc) HT) as H.
  destruct (run_checks _ _) as [p n]. destruct H as ([Hk _ _ _] & Hl & Hr & Hp); [cbn; lia|].
  unfold potential in Hp. cbn in Hp, Hr |- *. fold rate in Hp, Hr. destruct Hk as [[Hk _] _ [Hk2 _]]. unfold NANOS in *. nia.
Qed.

Lemma traffic_bound_witness :
  (run_checks (peer_limiter_new rate_limit_default 0) (replicate 40 (5 * NANOS, CheckRate MtBlock))).2 * NANOS
  ≤ 1000 * NANOS + 100 * (5 * NANOS - 0 + 8000) + 40 * (3000 + 100).
Proof.
  apply (traffic_bound rate_limit_default 0 (5 * NANOS) (replicate 40 (5 * NANOS, CheckRate MtBlock))).
  - unfold config_ok, spec_ok. cbn. lia.
  - unfold NANOS. lia.
  - by apply Forall_replicate.
Defined.

(** ** Violations and bans *)

(** Below the threshold unless banned; the counters fit their types. *)
Definition ban_inv (p : PeerRateLimiter) : Prop :=
  0 < pl_ban_threshold p < two32 ∧ 0 < pl_ban_duration p ∧ 0 ≤ pl_violation_count p < two32
  ∧ (pl_banned_until p = None → pl_violation_count p < pl_ban_threshold p).

(** What a charge may do to the ban state: nothing when it accepts, one more
    violation (a fresh count after a quiet window) when it refuses. *)
Definition ban_step (p p' : PeerRateLimiter) (now : Z) (v : Verdict) : Prop :=
  pl_ban_threshold p' = pl_ban_threshold p ∧ pl_ban_duration p' = pl_ban_duration p
  ∧ match v with
    | Ok _ => pl_violation_count p' = pl_violation_count p ∧ pl_banned_until p' = None
    | Err Exceeded => pl_violation_count p' < pl_ban_threshold p ∧ pl_banned_until p' = None
        ∧ (pl_violation_count p' = pl_violation_count p + 1 ∨ pl_violation_count p' = 1)
    | Err Ban => pl_ban_threshold p ≤ pl_violation_count p' ∧ pl_banned_until p' = Some (now + pl_ban_duration p)
        ∧ (pl_violation_count p' = pl_violation_count p + 1 ∨ pl_violation_count p' = 1)
    | Panic => False
    end.

Lemma record_violation_step p now :
  ban_inv p → pl_banned_until p = None → let '(p', v) := record_violation p now in ban_step p p' now v ∧ ban_inv p'.
Proof.
  intros (Ht & Hd & Hc & Hb) E. specialize (Hb E). unfold record_violation.
  assert (∃ c, (c = 0 ∨ c = pl_violation_count p) ∧
    match pl_last_violation p with
    | Some last => if pl_ban_window p <=? Z.max 0 (now - last) then 0 else pl_violation_count p
    | None => pl_violation_count p end = c) as (c & Hcc & ->).
  { destruct (pl_last_violation p) as [l|]; [destruct (pl_ban_window p <=? _)|]; eauto. }
  unfold wrap32. rewrite Z.mod_small by (destruct Hcc; lia). unfold ban_step, ban_inv.
  destruct (Z.leb_spec (pl_ban_threshold p) (c + 1)); cbn; rewrite ?E; destruct Hcc; split_and!; try done; try lia.
Qed.

Lemma settle_step p q now b :
  ban_inv q → pl_banned_until q = None → pl_ban_threshold q = pl_ban_threshold p →
  pl_ban_duration q = pl_ban_duration p → pl_violation_count q = pl_violation_count p →
  let '(p', v) := settle q now b in ban_step p p' now v ∧ ban_inv p'.
Proof.
  intros Hi E E1 E2 E3. destruct b; cbn [settle]; [by unfold ban_step; rewrite E|].
  pose proof (record_violation_step q now Hi E) as H. destruct (record_violation q now) as [p' v].
  by unfold ban_step in *; rewrite E1, E2, E3 in H.
Qed.

(** A charge of a peer that is not banned. *)
Definition charge (p : PeerRateLimiter) (now : Z) (c : Check) : PeerRateLimiter * Verdict :=
  match c with
  | CheckRate t => charge_type p now t
  | CheckMain => charge_main p now
  | CheckClass c => charge_class p now c
  end.

Lemma check_guarded p now c : check p now c = guarded p now (λ p, charge p now c).
Proof. by destruct c. Qed.

Lemma charge_step p now c :
  ban_inv p → pl_banned_until p = None → let '(p', v) := charge p now c in ban_step p p' now v ∧ ban_inv p'.
Proof.
  intros Hi E.
  assert (∀ m t h b ok, let '(p', v) := settle (with_buckets p m t h b) now ok in ban_step p p' now v ∧ ban_inv p') as Hs
    by (intros; by apply settle_step).
  destruct c as [t| |[]]; cbn [charge charge_class]; unfold charge_type, charge_main.
  - destruct (_ !! t); [destruct (charge_both _ _ _) as [[??] ?]; apply Hs|].
    destruct (1 <=? _); [apply (Hs _ _ _ _ true)|apply (Hs _ _ _ _ false)].
  - destruct (try_consume_at _ _ _); apply Hs.
  - destruct (charge_both _ _ _) as [[??] ?]; apply Hs.
  - destruct (charge_both _ _ _) as [[??] ?]; apply Hs.
  - destruct (try_consume_at _ _ _); apply Hs.
Qed.

(** the fast-path ban.  From any state the limiter can be in, a check refused
    with [Ban] leaves the peer banned until a time after the check; until then every
    check of every kind is refused and changes nothing; from then on the first check
    is answered as one of a peer with no violations.  A check that is not answered
    [Ban] leaves the peer below the threshold, so that the violation that reaches it
    is always answered [Ban]. *)
Theorem ban_enforced p now c :
  ban_inv p →
  let '(p', v) := check p now c in
  ban_inv p'
  ∧ (v = Err Ban → ∃ until, pl_banned_until p' = Some until ∧ now < until
     ∧ (∀ now' c', now' < until → check p' now' c' = (p', Err Ban))
     ∧ (∀ now' c', until ≤ now' → check p' now' c' = charge (with_violations p' 0 None None) now' c'))
  ∧ (v ≠ Err Ban → pl_banned_until p' = None ∧ pl_violation_count p' < pl_ban_threshold p').
Proof.
  intros Hi. rewrite check_guarded. unfold guarded, limiter_guard.
  assert (∀ q u, pl_banned_until q = Some u →
    (∀ now' c', now' < u → check q now' c' = (q, Err Ban))
    ∧ (∀ now' c', u ≤ now' → check q now' c' = charge (with_violations q 0 None None) now' c')) as Hban.
  { intros q u Eu. split; intros now' c' Hn; rewrite check_guarded; unfold guarded, limiter_guard; rewrite Eu;
      destruct (Z.ltb_spec now' u); try lia; done. }
  assert (∀ q, ban_inv q → pl_banned_until q = None → let '(p', v) := charge q now c in
    ban_inv p' ∧ (v = Err Ban → ∃ until, pl_banned_until p' = Some until ∧ now < until
      ∧ (∀ now' c', now' < until → check p' now' c' = (p', Err Ban))
      ∧ (∀ now' c', until ≤ now' → check p' now' c' = charge (with_violations p' 0 None None) now' c'))
    ∧ (v ≠ Err Ban → pl_banned_until p' = None ∧ pl_violation_count p' < pl_ban_threshold p')) as Hfresh.
  { intros q Hq E. pose proof (charge_step q now c Hq E) as H. destruct (charge q now c) as [p' v].
    destruct H as [(Et & Ed & Hv) Hi']. destruct Hq as (? & ? & ? & Hlow). specialize (Hlow E). split; [done|]. split.
    - intros ->. destruct Hv as (_ & Eu & _). exists (now + pl_ban_duration q). split_and!; [done|lia|by apply Hban|by apply Hban].
    - intros Hne. destruct v as [?|[]|]; [|destruct Hv as (? & ? & _)|done|done]; (split; [tauto|lia]). }
  destruct (pl_banned_until p) as [u|] eqn:Eu; [|by apply Hfresh].
  destruct (Z.ltb_spec now u) as [Hn|Hn].
  - split_and!; try done. intros _. exists u. split_and!; [done|done|by apply Hban|by apply Hban].
  - apply Hfresh; [|done]. destruct Hi as (? & ? & ? & _). unfold ban_inv. cbn. split_and!; lia.
Qed.

(** Five refused messages inside the window. *)
Definition noisy_peer : PeerRateLimiter :=
  (run_checks (peer_limiter_new rate_limit_default 0) (replicate 34 (0, CheckRate MtBlock))).1.

Lemma noisy_peer_state : pl_violation_count noisy_peer = 4 ∧ pl_banned_until noisy_peer = None
  ∧ pl_ban_threshold noisy_peer = 5 ∧ pl_ban_duration noisy_peer = 300 * NANOS.
Proof. by vm_compute. Qed.

Lemma ban_enforced_witness :
  ban_inv noisy_peer ∧ let '(p', v) := check noisy_peer 1 (CheckRate MtBlock) in
  ban_inv p'
  ∧ (v = Err Ban → ∃ until, pl_banned_until p' = Some until ∧ 1 < until
     ∧ (∀ now' c', now' < until → check p' now' c' = (p', Err Ban))
     ∧ (∀ now' c', until ≤ now' → check p' now' c' = charge (with_violations p' 0 None None) now' c'))
  ∧ (v ≠ Err Ban → pl_banned_until p' = None ∧ pl_violation_count p' < pl_ban_threshold p').
Proof.
  assert (ban_inv noisy_peer) as Hi.
  { destruct noisy_peer_state as (E1 & E2 & E3 & E4). unfold ban_inv. rewrite E1, E2, E3, E4. unfold NANOS. split_and!; lia. }
  split; [exact Hi|]. exact (ban_enforced noisy_peer 1 (CheckRate MtBlock) Hi).
Defined.
