(* ===== verification/Noise.v ===== *)
(** * Noise transport (crates/strangecoin-net/src/noise, protocol.rs)

    The node identity, the XX handshake with its identity binding, the encrypted
    record layer and the frames built on it.  The [snow], [ed25519-dalek], [hkdf]
    crates are class parameters; what the code relies on of them is stated in
    [NoiseProps]. *)

From S2P Require Import Prelude Bytes Net.
From stdpp Require Import pretty.
Open Scope Z_scope.

Inductive NoiseError :=
  | NoiseInit (what : string)
  | NoiseState (what : string)
  | NoiseInput (what : string)
  | NoiseDecrypt
  | NoiseDh
  | NoiseRng
  | NoiseAuth
  | NoiseReplay.
#[export] Instance NoiseError_eq_dec : EqDecision NoiseError.
Proof. solve_decision. Defined.

(** [NoiseError::to_string]. *)
Definition noise_error_text (e : NoiseError) : string :=
  match e with
  | NoiseInit s => "noise init failed: " +:+ s
  | NoiseState s => "noise state problem: " +:+ s
  | NoiseInput s => "noise invalid input: " +:+ s
  | NoiseDecrypt => "noise decryption failed"
  | NoiseDh => "noise diffie-hellman failed"
  | NoiseRng => "noise rng failed"
  | NoiseAuth => "remote identity mismatch"
  | NoiseReplay => "nonce out of sequence"
  end.

(** [impl From<NoiseError> for NetError]. *)
Definition from_noise (e : NoiseError) : NetError := Handshake (noise_error_text e).

Inductive NoiseRole := Initiator | Responder.
#[export] Instance NoiseRole_eq_dec : EqDecision NoiseRole.
Proof. solve_decision. Defined.

Definition MAX_NOISE_MSG_LEN : Z := 65535.
Definition NOISE_TAG_LEN : nat := 16.
Definition NOISE_NONCE_LEN : nat := 8.
Definition MAX_TRANSPORT_PAYLOAD : nat := Z.to_nat (MAX_NOISE_MSG_LEN - Z.of_nat NOISE_TAG_LEN).
Definition MAX_ENCRYPTED_PART : nat := Z.to_nat (Z.of_nat NOISE_NONCE_LEN + MAX_NOISE_MSG_LEN).
Definition ENCRYPTED_FRAME_OVERHEAD : nat := NOISE_NONCE_LEN + NOISE_TAG_LEN.
Definition AUTH_BLOB_LEN : nat := 96.
Definition MAX_XX_OVERHEAD : Z := 96.
Definition MAX_HANDSHAKE_MSG : Z := 512.
Definition HANDSHAKE_BUF : Z := 512.

(** ** External crates *)

(** Crate [snow]: the XX handshake and transport state machines.  An operation
    that fails may have changed the state. *)
Class Snow := {
  HandshakeState : Type;
  TransportState : Type;
  snow_build : NoiseRole → list byte → list byte → result NoiseError HandshakeState;
  snow_write : HandshakeState → list byte → result NoiseError (list byte) * HandshakeState;
  snow_read : HandshakeState → list byte → result NoiseError (list byte) * HandshakeState;
  snow_hash : HandshakeState → list byte;
  snow_finished : HandshakeState → bool;
  snow_remote_static : HandshakeState → option (list byte);
  snow_transport : HandshakeState → result NoiseError TransportState;
  snow_encrypt : TransportState → list byte → result NoiseError (list byte) * TransportState;
  snow_decrypt : TransportState → list byte → result NoiseError (list byte) * TransportState;
  snow_rekey : TransportState → TransportState
}.

(** Crate [ed25519-dalek]: the public key of a seed, signing, the test of a public
    key's encoding, and [verify_strict] of a 64-byte signature. *)
Class Ed25519 := {
  ed_public : list byte → list byte;
  ed_sign : list byte → list byte → list byte;
  ed_valid_key : list byte → bool;
  ed_verify_strict : list byte → list byte → list byte → bool
}.

(** Crates [hkdf] with [sha2], and the keyed hash of [blake3]: 32 bytes out. *)
Class Kdf := {
  hkdf_sha256 : list byte → list byte → list byte;
  blake3_keyed : list byte → list byte → list byte
}.

(** ** Node identity (noise/auth.rs, noise/ephemeral.rs) *)

Definition EPHEMERAL_INFO : list byte := as_bytes "noise_ephemeral_v1".
Definition NOISE_STATIC_INFO : list byte := as_bytes "noise_static_v1".

(** The identity: the long-term seed and the shared handshake counter. *)
Record NodeKeypair := { kp_seed : list byte; kp_counter : Z }.

Definition keypair_from_seed (seed : list byte) : NodeKeypair := {| kp_seed := seed; kp_counter := 0 |}.

Section Identity.
Context `{HX : Hex, B3 : Blake3, ED : Ed25519, KD : Kdf}.

Definition node_id_of (public : list byte) : NodeId := blake3 public.

Definition public_key (k : NodeKeypair) : list byte := ed_public (kp_seed k).
Definition node_id (k : NodeKeypair) : NodeId := node_id_of (public_key k).
Definition keypair_sign (k : NodeKeypair) (msg : list byte) : list byte := ed_sign (kp_seed k) msg.

Definition ephemeral_seed (seed : list byte) (counter : Z) : list byte :=
  hkdf_sha256 seed (EPHEMERAL_INFO ++ to_be_bytes 8 counter).
Definition noise_static_seed (seed : list byte) : list byte := hkdf_sha256 seed NOISE_STATIC_INFO.
Definition noise_static_private_key (k : NodeKeypair) : list byte := noise_static_seed (kp_seed k).

(** [fetch_add] on the counter. *)
Definition next_ephemeral_seed (k : NodeKeypair) : list byte * NodeKeypair :=
  (ephemeral_seed (kp_seed k) (kp_counter k),
   {| kp_seed := kp_seed k; kp_counter := (kp_counter k + 1) mod two64 |}).

Definition verify_node_id (signature msg public : list byte) (expected : NodeId) : result NetError unit :=
  if negb (ed_verify_strict public msg signature) then Err (Handshake "ed25519 signature verification failed") else
  let derived := node_id_of public in
  if bool_decide (derived = expected) then Ok tt
  else Err (Handshake ("node_id mismatch: expected " +:+ hex_encode expected +:+ ", peer is " +:+ hex_encode derived)).

(** The random source handed to [snow]: a keyed hash in counter mode. *)
Record Blake3Random := { br_seed : list byte; br_block_index : Z; br_block : list byte; br_pos : nat }.

Definition random_new (seed : list byte) : Blake3Random :=
  {| br_seed := seed; br_block_index := 0; br_block := zero32; br_pos := 32 |}.

Definition random_refill (r : Blake3Random) : Blake3Random := {|
  br_seed := br_seed r; br_block_index := (br_block_index r + 1) mod two64;
  br_block := blake3_keyed (br_seed r) (to_be_bytes 8 (br_block_index r)); br_pos := 0 |}.

(** [n] bytes, one at a time; an index outside the block is a [Panic]. *)
Fixpoint try_fill_bytes (r : Blake3Random) (n : nat) : result NoiseError (list byte * Blake3Random) :=
  match n with
  | O => Ok ([], r)
  | S n =>
      let r := if (br_pos r =? length (br_block r))%nat then random_refill r else r in
      b ← expect (br_block r !! br_pos r);
      '(bs, r) ← try_fill_bytes {| br_seed := br_seed r; br_block_index := br_block_index r;
                                   br_block := br_block r; br_pos := S (br_pos r) |} n;
      Ok (b :: bs, r)
  end.

End Identity.

Section Noise.
Context `{HX : Hex, B3 : Blake3, SN : Snow, ED : Ed25519, KD : Kdf}.

(** ** Record layer (noise/transport.rs) *)

Record NoiseTransport := {
  nt_state : TransportState; nt_send_nonce : Z; nt_recv_nonce : Z; nt_expected_node_id : option NodeId
}.

Definition transport_new (state : TransportState) (expected : option NodeId) : NoiseTransport :=
  {| nt_state := state; nt_send_nonce := 0; nt_recv_nonce := 0; nt_expected_node_id := expected |}.

Definition set_transport (t : NoiseTransport) (state : TransportState) (send recv : Z) : NoiseTransport :=
  {| nt_state := state; nt_send_nonce := send; nt_recv_nonce := recv; nt_expected_node_id := nt_expected_node_id t |}.

(** [u64::checked_add(1)]. *)
Definition next_nonce (n : Z) : option Z := if n + 1 <? two64 then Some (n + 1) else None.

(** The bytes written to a buffer of [out_len] bytes. *)
Definition transport_encrypt (t : NoiseTransport) (plaintext : list byte) (out_len : nat)
    : result NoiseError (list byte) * NoiseTransport :=
  if (MAX_TRANSPORT_PAYLOAD <? length plaintext)%nat
  then (Err (NoiseInput ("transport payload too large: " +:+ pretty (lenZ plaintext) +:+ " > "
                         +:+ pretty (Z.of_nat MAX_TRANSPORT_PAYLOAD))), t) else
  let need := (NOISE_NONCE_LEN + length plaintext + NOISE_TAG_LEN)%nat in
  if (out_len <? need)%nat
  then (Err (NoiseInput ("transport buffer too small: need " +:+ pretty (Z.of_nat need) +:+ ", got "
                         +:+ pretty (Z.of_nat out_len))), t) else
  let '(r, state) := snow_encrypt (nt_state t) plaintext in
  let t := set_transport t state (nt_send_nonce t) (nt_recv_nonce t) in
  match r with
  | Ok ct =>
      match next_nonce (nt_send_nonce t) with
      | Some n => (Ok (to_be_bytes 8 (nt_send_nonce t) ++ ct), set_transport t state n (nt_recv_nonce t))
      | None => (Err (NoiseState "send nonce exhausted"), t)
      end
  | Err e => (Err e, t)
  | Panic => (Panic, t)
  end.

Definition transport_decrypt (t : NoiseTransport) (message : list byte) (out_len : nat)
    : result NoiseError (list byte) * NoiseTransport :=
  if (length message <? NOISE_NONCE_LEN + NOISE_TAG_LEN)%nat
  then (Err (NoiseInput ("transport message too short: " +:+ pretty (lenZ message))), t) else
  if negb (from_be_bytes (take NOISE_NONCE_LEN message) =? nt_recv_nonce t) then (Err NoiseReplay, t) else
  let ciphertext := drop NOISE_NONCE_LEN message in
  let need := (length ciphertext - NOISE_TAG_LEN)%nat in
  if (out_len <? need)%nat
  then (Err (NoiseInput ("transport buffer too small: need " +:+ pretty (Z.of_nat need) +:+ ", got "
                         +:+ pretty (Z.of_nat out_len))), t) else
  let '(r, state) := snow_decrypt (nt_state t) ciphertext in
  let t := set_transport t state (nt_send_nonce t) (nt_recv_nonce t) in
  match r with
  | Ok p =>
      match next_nonce (nt_recv_nonce t) with
      | Some n => (Ok p, set_transport t state (nt_send_nonce t) n)
      | None => (Err (NoiseState "receive nonce exhausted"), t)
      end
  | Err e => (Err e, t)
  | Panic => (Panic, t)
  end.

Definition transport_rekey (t : NoiseTransport) : NoiseTransport :=
  set_transport t (snow_rekey (nt_state t)) (nt_send_nonce t) (nt_recv_nonce t).

(** ** Encrypted frames (protocol.rs) *)

(** [.map_err(|e| NetError::Transport(e.to_string()))]. *)
Definition as_transport {A} (r : result NoiseError A) : result NetError A :=
  match r with Ok a => Ok a | Err e => Err (Transport (noise_error_text e)) | Panic => Panic end.

(** The loop over the chunks of a message; [fuel] over their number is enough. *)
Fixpoint encrypt_parts (fuel : nat) (t : NoiseTransport) (msg out : list byte)
    : result NetError (list byte) * NoiseTransport :=
  match fuel with
  | O => (Panic, t)
  | S fuel =>
      let '(r, t) := transport_encrypt t (take MAX_TRANSPORT_PAYLOAD msg) MAX_ENCRYPTED_PART in
      match as_transport r with
      | Ok part =>
          let rest := drop MAX_TRANSPORT_PAYLOAD msg in
          match rest with
          | [] => (Ok (out ++ part), t)
          | _ => encrypt_parts fuel t rest (out ++ part)
          end
      | Err e => (Err e, t)
      | Panic => (Panic, t)
      end
  end.

Definition div_ceil (a b : Z) : Z := (a + b - 1) / b.

Definition encrypt_frame (t : NoiseTransport) (msg : list byte) : result NetError (list byte) * NoiseTransport :=
  let parts := Z.max 1 (div_ceil (lenZ msg) (Z.of_nat MAX_TRANSPORT_PAYLOAD)) in
  let wire_len := 4 + lenZ msg + parts * Z.of_nat ENCRYPTED_FRAME_OVERHEAD in
  if MAX_MESSAGE_SIZE <? wire_len then (Err (size_err "encrypted message"), t) else
  let '(r, t) := encrypt_parts (S (length msg)) t msg [] in
  match r with
  | Ok out => (Ok (to_be_bytes 4 (lenZ out) ++ out), t)
  | Err e => (Err e, t)
  | Panic => (Panic, t)
  end.

(** The loop over the parts of a frame; every turn takes at least one byte. *)
Fixpoint decrypt_parts (fuel : nat) (t : NoiseTransport) (blob plaintext : list byte)
    : result NetError (list byte) * NoiseTransport :=
  match blob with
  | [] => (Ok plaintext, t)
  | _ =>
      match fuel with
      | O => (Panic, t)
      | S fuel =>
          let part := take MAX_ENCRYPTED_PART blob in
          if (length part <? ENCRYPTED_FRAME_OVERHEAD)%nat then (Err (size_err "encrypted part"), t) else
          let '(r, t) := transport_decrypt t part (length part - ENCRYPTED_FRAME_OVERHEAD) in
          match as_transport r with
          | Ok chunk => decrypt_parts fuel t (drop MAX_ENCRYPTED_PART blob) (plaintext ++ chunk)
          | Err e => (Err e, t)
          | Panic => (Panic, t)
          end
      end
  end.

Definition decrypt_frame (t : NoiseTransport) (raw : list byte) : result NetError (list byte) * NoiseTransport :=
  if (length raw <? 4)%nat then (Err (size_err "encrypted frame prefix"), t) else
  let total := from_be_bytes (take 4 raw) in
  if MAX_MESSAGE_SIZE <? total then (Err (size_err "encrypted frame"), t) else
  if negb (total =? lenZ raw - 4) then (Err (size_err "encrypted frame length"), t) else
  if total <? Z.of_nat ENCRYPTED_FRAME_OVERHEAD then (Err (size_err "encrypted frame"), t) else
  decrypt_parts (length (drop 4 raw)) t (drop 4 raw) [].

(** One frame off a stream: the async reader strips the length prefix, which is put
    back for [decrypt_frame]. *)
Definition read_encrypted_frame (t : NoiseTransport) (stream : list byte)
    : result NetError (list byte * list byte) * NoiseTransport :=
  match read_length_prefixed stream with
  | Ok (body, stream) =>
      let '(r, t) := decrypt_frame t (to_be_bytes 4 (lenZ body) ++ body) in
      (payload ← r; Ok (payload, stream), t)
  | Err e => (Err e, t)
  | Panic => (Panic, t)
  end.

(** ** HELLO over the transport (protocol/hello.rs) *)

Definition write_hello (t : NoiseTransport) (hello : Hello) : result NetError (list byte) * NoiseTransport :=
  encrypt_frame t (hello_encode hello).

Definition accept_hello (payload : list byte) (local_network_id : Z) : result NetError Hello :=
  hello ← hello_decode payload;
  validate_hello hello local_network_id;; Ok hello.

Definition read_hello (t : NoiseTransport) (frame : list byte) (local_network_id : Z)
    : result NetError Hello * NoiseTransport :=
  let '(r, t) := decrypt_frame t frame in
  (payload ← r; accept_hello payload local_network_id, t).

Definition read_hello_frame (t : NoiseTransport) (stream : list byte) (network_id : Z)
    : result NetError (Hello * list byte) * NoiseTransport :=
  match read_length_prefixed stream with
  | Ok (body, stream) =>
      let '(r, t) := read_hello t (to_be_bytes 4 (lenZ body) ++ body) network_id in
      (hello ← r; Ok (hello, stream), t)
  | Err e => (Err e, t)
  | Panic => (Panic, t)
  end.

(** ** XX handshake (noise/handshake.rs) *)

Record NoiseHandshake := {
  nh_state : HandshakeState;
  nh_role : NoiseRole;
  nh_expected_remote_static : option (list byte);
  nh_identity : NodeKeypair;
  nh_expected_node_id : option NodeId;
  nh_peer_node_id : option NodeId;
  nh_writes : Z;
  nh_reads : Z
}.

Definition set_handshake (h : NoiseHandshake) (state : HandshakeState) (peer : option NodeId) (writes reads : Z)
    : NoiseHandshake := {|
  nh_state := state; nh_role := nh_role h; nh_expected_remote_static := nh_expected_remote_static h;
  nh_identity := nh_identity h; nh_expected_node_id := nh_expected_node_id h; nh_peer_node_id := peer;
  nh_writes := writes; nh_reads := reads |}.

(** [build]: draws one ephemeral seed from the identity. *)
Definition handshake_build (static_key : list byte) (identity : NodeKeypair) (expected : option NodeId)
    (role : NoiseRole) : result NoiseError NoiseHandshake * NodeKeypair :=
  let '(seed, identity) := next_ephemeral_seed identity in
  (state ← snow_build role static_key seed;
   Ok {| nh_state := state; nh_role := role; nh_expected_remote_static := None; nh_identity := identity;
         nh_expected_node_id := expected; nh_peer_node_id := None; nh_writes := 0; nh_reads := 0 |}, identity).

Definition expect_remote_static (h : NoiseHandshake) (key : list byte) : NoiseHandshake := {|
  nh_state := nh_state h; nh_role := nh_role h; nh_expected_remote_static := Some key;
  nh_identity := nh_identity h; nh_expected_node_id := nh_expected_node_id h;
  nh_peer_node_id := nh_peer_node_id h; nh_writes := nh_writes h; nh_reads := nh_reads h |}.

Definition should_sign (h : NoiseHandshake) : bool :=
  match nh_role h with Initiator => nh_writes h =? 1 | Responder => nh_writes h =? 0 end.
Definition should_verify (h : NoiseHandshake) : bool :=
  match nh_role h with Initiator => nh_reads h =? 0 | Responder => nh_reads h =? 1 end.

(** [get_remote_static()?.get(..32)?]. *)
Definition remote_static (h : NoiseHandshake) : option (list byte) :=
  k ← snow_remote_static (nh_state h);
  if (32 <=? length k)%nat then Some (take 32 k) else None.

Definition verify_remote_static (h : NoiseHandshake) : result NoiseError unit :=
  match nh_expected_remote_static h with
  | None => Ok tt
  | Some expected =>
      match remote_static h with
      | None => Ok tt
      | Some remote => if bool_decide (remote = expected) then Ok tt else Err NoiseAuth
      end
  end.

(** The auth blob a signing round appends: the public key and the signature over the
    handshake hash before the message. *)
Definition auth_blob (h : NoiseHandshake) : list byte :=
  public_key (nh_identity h) ++ keypair_sign (nh_identity h) (snow_hash (nh_state h)).

Definition write_message (h : NoiseHandshake) (payload : list byte) (out_len : Z)
    : result NoiseError (list byte) * NoiseHandshake :=
  let extra := if should_sign h then Z.of_nat AUTH_BLOB_LEN else 0 in
  let need := lenZ payload + extra + MAX_XX_OVERHEAD in
  if out_len <? need
  then (Err (NoiseInput ("handshake buffer too small: need " +:+ pretty need +:+ ", got " +:+ pretty out_len)), h) else
  let full := if 0 <? extra then payload ++ auth_blob h else payload in
  let '(r, state) := snow_write (nh_state h) full in
  match r with
  | Ok msg => (Ok msg, set_handshake h state (nh_peer_node_id h) ((nh_writes h + 1) mod two8) (nh_reads h))
  | _ => (r, set_handshake h state (nh_peer_node_id h) (nh_writes h) (nh_reads h))
  end.

(** The identity check on a payload with the peer's auth blob at its end: the length
    of what precedes the blob, and the authenticated id. *)
Definition verify_peer_identity (expected : option NodeId) (handshake_hash payload : list byte)
    : result NoiseError (nat * NodeId) :=
  if (length payload <? AUTH_BLOB_LEN)%nat then Err NoiseAuth else
  let at_ := (length payload - AUTH_BLOB_LEN)%nat in
  let blob := drop at_ payload in
  let public := take 32 blob in
  let signature := drop 32 blob in
  if negb (ed_valid_key public) then Err NoiseAuth else
  if negb (ed_verify_strict public handshake_hash signature) then Err NoiseAuth else
  let id := node_id_of public in
  match expected with
  | Some e => if bool_decide (e = id) then Ok (at_, id) else Err NoiseAuth
  | None => Ok (at_, id)
  end.

(** The length of the caller-visible payload. *)
Definition read_message (h : NoiseHandshake) (message : list byte) (out_len : Z)
    : result NoiseError nat * NoiseHandshake :=
  if out_len <? lenZ message
  then (Err (NoiseInput ("handshake buffer too small: need " +:+ pretty (lenZ message) +:+ ", got "
                         +:+ pretty out_len)), h) else
  let hash := snow_hash (nh_state h) in
  let '(r, state) := snow_read (nh_state h) message in
  let h' := set_handshake h state (nh_peer_node_id h) (nh_writes h) (nh_reads h) in
  let bump peer := set_handshake h state peer (nh_writes h) ((nh_reads h + 1) mod two8) in
  match r with
  | Ok payload =>
      match verify_remote_static h' with
      | Ok _ =>
          if should_verify h then
            match verify_peer_identity (nh_expected_node_id h) hash payload with
            | Ok (n, id) => (Ok n, bump (Some id))
            | Err e => (Err e, h')
            | Panic => (Panic, h')
            end
          else (Ok (length payload), bump (nh_peer_node_id h))
      | Err e => (Err e, h')
      | Panic => (Panic, h')
      end
  | Err e => (Err e, h')
  | Panic => (Panic, h')
  end.

Definition into_transport (h : NoiseHandshake) : result NetError (NoiseTransport * NodeId) :=
  if negb (snow_finished (nh_state h)) then Err (from_noise (NoiseState "handshake is not finished")) else
  map_err from_noise (verify_remote_static h);;
  id ← ok_or (nh_peer_node_id h) (Handshake "peer node_id was never authenticated");
  state ← map_err from_noise (snow_transport (nh_state h));
  Ok (transport_new state (nh_expected_node_id h), id).

(** ** The handshake over a stream (peer/manager.rs)

    The bytes written, the handshake and the rest of the stream. *)

Definition read_bounded_handshake_msg (stream : list byte) : result NetError (list byte * list byte) :=
  '(msg, stream) ← read_length_prefixed stream;
  if MAX_HANDSHAKE_MSG <? lenZ msg
  then Err (Protocol ("handshake message " +:+ pretty (lenZ msg) +:+ " bytes > " +:+ pretty MAX_HANDSHAKE_MSG)) else
  Ok (msg, stream).

Definition write_round (h : NoiseHandshake) : result NetError (list byte * NoiseHandshake) :=
  let '(r, h) := write_message h [] HANDSHAKE_BUF in
  msg ← map_err from_noise r;
  out ← write_length_prefixed msg;
  Ok (out, h).

Definition read_round (h : NoiseHandshake) (stream : list byte) : result NetError (NoiseHandshake * list byte) :=
  '(msg, stream) ← read_bounded_handshake_msg stream;
  let '(r, h) := read_message h msg HANDSHAKE_BUF in
  map_err from_noise r;;
  Ok (h, stream).

Definition drive_initiator_handshake (h : NoiseHandshake) (stream : list byte)
    : result NetError (list byte * NoiseHandshake * list byte) :=
  '(out1, h) ← write_round h;
  '(h, stream) ← read_round h stream;
  '(out3, h) ← write_round h;
  Ok (out1 ++ out3, h, stream).

Definition drive_responder_handshake (h : NoiseHandshake) (stream : list byte)
    : result NetError (list byte * NoiseHandshake * list byte) :=
  '(h, stream) ← read_round h stream;
  '(out2, h) ← write_round h;
  '(h, stream) ← read_round h stream;
  Ok (out2, h, stream).

End Noise.
