(* ===== verification/NoiseProps.v ===== *)
(** * Properties of the Noise transport

    The laws the code relies on of [snow] and [ed25519-dalek], the round trip of
    encrypted frames, the refusal of replayed frames, and the handshake: what a
    completed one proves about the peer, and that honest peers complete it. *)

From S2P Require Import Prelude Bytes Net NetProps Noise.
Open Scope Z_scope.

(** ** Laws of the crates *)

(** Documented behaviour of [snow].  [xx_paired k w r]: after [k] messages, [w] is
    the side that writes next and [r] the side that reads it.  [t_paired n a b]: [b]
    can decrypt what [a] encrypts next, [n] messages having gone that way. *)
Class SnowOk `{SN : Snow} := {
  xx_paired : nat → HandshakeState → HandshakeState → Prop;
  t_paired : Z → TransportState → TransportState → Prop;
  xx_build : ∀ si ei sr er, is32 si → is32 ei → is32 sr → is32 er →
    ∃ i r, snow_build Initiator si ei = Ok i ∧ snow_build Responder sr er = Ok r ∧ xx_paired 0 i r;
  xx_step : ∀ k w r p, xx_paired k w r → (k < 3)%nat → (length p ≤ 96)%nat →
    ∃ m w' r', snow_write w p = (Ok m, w') ∧ snow_read r m = (Ok p, r')
      ∧ (length m ≤ length p + 96)%nat ∧ xx_paired (S k) r' w';
  xx_hash : ∀ k w r, xx_paired k w r → snow_hash w = snow_hash r;
  xx_finished : ∀ w r, xx_paired 3 w r → snow_finished w = true ∧ snow_finished r = true;
  xx_transport : ∀ w r, xx_paired 3 w r →
    ∃ tw tr, snow_transport w = Ok tw ∧ snow_transport r = Ok tr ∧ t_paired 0 tw tr ∧ t_paired 0 tr tw;
  t_step : ∀ n a b p, t_paired n a b → n + 1 < two64 → (length p ≤ MAX_TRANSPORT_PAYLOAD)%nat →
    ∃ c a' b', snow_encrypt a p = (Ok c, a') ∧ length c = (length p + NOISE_TAG_LEN)%nat
      ∧ snow_decrypt b c = (Ok p, b') ∧ t_paired (n + 1) a' b'
      ∧ ∀ m, t_paired m b a → t_paired m b' a'
}.

(** Documented behaviour of [ed25519-dalek]. *)
Class EdOk `{ED : Ed25519} : Prop := {
  ed_public_length : ∀ seed, is32 (ed_public seed);
  ed_sign_length : ∀ seed m, length (ed_sign seed m) = 64%nat;
  ed_public_valid : ∀ seed, ed_valid_key (ed_public seed) = true;
  ed_sign_verifies : ∀ seed m, ed_verify_strict (ed_public seed) m (ed_sign seed m) = true
}.

(** Documented: 32 bytes were asked for. *)
Class KdfOk `{KD : Kdf} : Prop := {
  hkdf_length : ∀ seed info, is32 (hkdf_sha256 seed info);
  keyed_length : ∀ key m, is32 (blake3_keyed key m)
}.

(** ** Sizes *)

Lemma max_payload : Z.of_nat MAX_TRANSPORT_PAYLOAD = 65519.
Proof. unfold MAX_TRANSPORT_PAYLOAD. rewrite Z2Nat.id; [done|by vm_compute]. Qed.
Lemma max_part : Z.of_nat MAX_ENCRYPTED_PART = 65543.
Proof. unfold MAX_ENCRYPTED_PART. rewrite Z2Nat.id; [done|by vm_compute]. Qed.

Opaque MAX_TRANSPORT_PAYLOAD MAX_ENCRYPTED_PART.

Ltac sizes := pose proof max_payload; pose proof max_part;
  unfold ENCRYPTED_FRAME_OVERHEAD, NOISE_NONCE_LEN, NOISE_TAG_LEN, lenZ in *.

Section Frames.
Context `{SN : Snow, SK : !SnowOk}.

(** [b] is ready to read what [a] sends next. *)
Definition in_session (a b : NoiseTransport) : Prop :=
  0 ≤ nt_send_nonce a ∧ nt_recv_nonce b = nt_send_nonce a
  ∧ t_paired (nt_send_nonce a) (nt_state a) (nt_state b).

(** The other direction. *)
Definition other_way (m : Z) (a b : NoiseTransport) : Prop :=
  nt_send_nonce b = m ∧ nt_recv_nonce a = m ∧ t_paired m (nt_state b) (nt_state a).

(** One part: encrypted by the sender, decrypted by the receiver. *)
Lemma part_roundtrip a b p :
  in_session a b → nt_send_nonce a + 1 < two64 → (length p ≤ MAX_TRANSPORT_PAYLOAD)%nat →
  ∃ part a' b',
    transport_encrypt a p MAX_ENCRYPTED_PART = (Ok part, a')
    ∧ length part = (length p + ENCRYPTED_FRAME_OVERHEAD)%nat
    ∧ transport_decrypt b part (length part - ENCRYPTED_FRAME_OVERHEAD) = (Ok p, b')
    ∧ in_session a' b' ∧ nt_send_nonce a' = nt_send_nonce a + 1
    ∧ (∀ m, other_way m a b → other_way m a' b').
Proof.
  intros (H0 & Er & Hp) Hn Hl. destruct (t_step _ _ _ p Hp Hn Hl) as (c & sa & sb & Ee & Hc & Ed & Hp' & Hother).
  exists (to_be_bytes 8 (nt_send_nonce a) ++ c), (set_transport a sa (nt_send_nonce a + 1) (nt_recv_nonce a)),
    (set_transport b sb (nt_send_nonce b) (nt_send_nonce a + 1)).
  assert (next_nonce (nt_send_nonce a) = Some (nt_send_nonce a + 1)) as En
    by (unfold next_nonce; destruct (Z.ltb_spec (nt_send_nonce a + 1) two64); [done|lia]).
  sizes. split_and!.
  - unfold transport_encrypt. destruct (Nat.ltb_spec MAX_TRANSPORT_PAYLOAD (length p)); [lia|].
    destruct (Nat.ltb_spec MAX_ENCRYPTED_PART (NOISE_NONCE_LEN + length p + NOISE_TAG_LEN)) as [Hlt|];
      [unfold NOISE_NONCE_LEN, NOISE_TAG_LEN in Hlt; lia|].
    rewrite Ee. cbn. by rewrite En.
  - rewrite length_app, length_to_be_bytes, Hc. lia.
  - rewrite length_app, length_to_be_bytes, Hc. unfold transport_decrypt.
    rewrite length_app, length_to_be_bytes, Hc.
    destruct (Nat.ltb_spec (8 + (length p + 16)) (NOISE_NONCE_LEN + NOISE_TAG_LEN)) as [Hlt|];
      [unfold NOISE_NONCE_LEN, NOISE_TAG_LEN in Hlt; lia|].
    rewrite take_app_length' by by rewrite length_to_be_bytes.
    rewrite drop_app_length' by by rewrite length_to_be_bytes.
    rewrite from_to_be_u64 by (split; lia). rewrite Er, Z.eqb_refl. cbn [negb]. rewrite Hc.
    destruct (Nat.ltb_spec (8 + (length p + 16) - (8 + 16)) (length p + 16 - NOISE_TAG_LEN)) as [Hlt|];
      [unfold NOISE_TAG_LEN in Hlt; lia|].
    rewrite Ed. cbn. by rewrite En.
  - unfold in_session. cbn. split_and!; [lia|done|done].
  - done.
  - intros m (E1 & E2 & E3). unfold other_way. cbn. split_and!; auto.
Qed.

Lemma decrypt_parts_done fuel t acc : decrypt_parts fuel t [] acc = (Ok acc, t).
Proof. by destruct fuel. Qed.

(** The parts of a message, one after the other. *)
Lemma parts_roundtrip fuel : ∀ a b msg out,
  in_session a b → (length msg < fuel)%nat → nt_send_nonce a + lenZ msg + 1 < two64 →
  ∃ blob a' b',
    encrypt_parts fuel a msg out = (Ok (out ++ blob), a')
    ∧ (ENCRYPTED_FRAME_OVERHEAD ≤ length blob)%nat
    ∧ lenZ blob = lenZ msg + Z.max 1 (div_ceil (lenZ msg) (Z.of_nat MAX_TRANSPORT_PAYLOAD)) * Z.of_nat ENCRYPTED_FRAME_OVERHEAD
    ∧ (∀ fuel' acc, (length blob ≤ fuel')%nat → decrypt_parts fuel' b blob acc = (Ok (acc ++ msg), b'))
    ∧ in_session a' b' ∧ nt_send_nonce a < nt_send_nonce a' ≤ nt_send_nonce a + lenZ msg + 1
    ∧ (∀ m, other_way m a b → other_way m a' b').
Proof.
  induction fuel as [|fuel IH]; intros a b msg out Hs Hf Hn; [lia|]. cbn [encrypt_parts].
  pose proof max_payload as HM. pose proof max_part as HP.
  destruct (part_roundtrip a b (take MAX_TRANSPORT_PAYLOAD msg) Hs) as (part & a1 & b1 & Ee & Hl & Ed & Hs1 & Hn1 & Ho);
    [unfold lenZ in *; lia|rewrite length_take; lia|].
  rewrite Ee. cbn [as_transport]. rewrite length_take in Hl.
  set (rest := drop MAX_TRANSPORT_PAYLOAD msg). pose proof (length_drop msg MAX_TRANSPORT_PAYLOAD) as Hr. fold rest in Hr.
  assert (take MAX_TRANSPORT_PAYLOAD msg ++ rest = msg) as Etd by apply take_drop.
  assert (∀ tail fuel' acc, (length part ≤ fuel')%nat → (tail ≠ [] → length part = MAX_ENCRYPTED_PART) →
    ∃ fuel'', (fuel' = S fuel'')%nat ∧
    decrypt_parts fuel' b (part ++ tail) acc = decrypt_parts fuel'' b1 tail (acc ++ take MAX_TRANSPORT_PAYLOAD msg)) as Hdec.
  { intros tail fuel' acc Hf' Ht. assert (24 ≤ length part ≤ MAX_ENCRYPTED_PART)%nat as Hp24 by (sizes; lia). destruct fuel' as [|fuel']; [lia|]. exists fuel'. split; [done|].
    assert (take MAX_ENCRYPTED_PART (part ++ tail) = part ∧ drop MAX_ENCRYPTED_PART (part ++ tail) = tail) as [Et Edr].
    { destruct tail as [|x tail]; [rewrite app_nil_r; split; [apply take_ge; lia|apply drop_ge; lia]|].
      specialize (Ht ltac:(done)). split; [by apply take_app_length'|by apply drop_app_length']. }
    destruct part as [|y part]; [cbn in Hp24; lia|]. cbn [app decrypt_parts].
    change (y :: part ++ tail) with ((y :: part) ++ tail). rewrite Et.
    destruct (Nat.ltb_spec (length (y :: part)) ENCRYPTED_FRAME_OVERHEAD) as [Hlt|_];
      [unfold ENCRYPTED_FRAME_OVERHEAD, NOISE_NONCE_LEN, NOISE_TAG_LEN in Hlt; lia|].
    rewrite Ed. cbn [as_transport]. by rewrite Edr. }
  destruct rest as [|x rest'] eqn:Erest.
  - exists part, a1, b1. rewrite app_nil_r in Etd. rewrite Etd in Hdec. cbn [length] in Hr.
    split; [exact eq_refl|]. split; [lia|]. split.
    { assert (div_ceil (lenZ msg) (Z.of_nat MAX_TRANSPORT_PAYLOAD) ≤ 1); [|unfold lenZ in *; lia].
      unfold div_ceil, lenZ. rewrite HM. apply Z.lt_succ_r, Z.div_lt_upper_bound; lia. }
    split; [|split; [exact Hs1|split; [unfold lenZ; lia|exact Ho]]].
    intros fuel' acc Hf'. destruct (Hdec [] fuel' acc Hf' ltac:(intros []; reflexivity)) as (fuel'' & _ & E).
    rewrite app_nil_r in E. by rewrite E, decrypt_parts_done.
  - destruct (IH a1 b1 (x :: rest') (out ++ part) Hs1) as (blob & a' & b' & E1 & Hm & Hlb & E2 & Hs' & Hn' & Ho');
      [cbn [length] in *; lia|unfold lenZ in *; cbn [length] in *; lia|].
    exists (part ++ blob), a', b'. rewrite E1, app_assoc. unfold lenZ in *. cbn [length] in *.
    split; [exact eq_refl|]. split; [rewrite length_app; lia|]. split.
    { rewrite length_app, Nat2Z.inj_add, Hlb. unfold div_ceil. rewrite HM in *.
      replace (Z.of_nat (length msg)) with (Z.of_nat (S (length rest')) + 65519) by lia.
      replace (Z.of_nat (S (length rest')) + 65519 + 65519 - 1) with (Z.of_nat (S (length rest')) + 65519 - 1 + 1 * 65519) by ring.
      rewrite Z.div_add by lia. assert (1 ≤ (Z.of_nat (S (length rest')) + 65519 - 1) / 65519); [|sizes; lia].
      apply Z.div_le_lower_bound; lia. }
    split; [|split; [exact Hs'|split; [lia|auto]]].
    intros fuel' acc Hf'. rewrite length_app in Hf'.
    destruct (Hdec blob fuel' acc) as (fuel'' & -> & E); [lia|intros _; sizes; lia|].
    rewrite E, E2 by (sizes; lia). by rewrite <- app_assoc, Etd.
Qed.

(** The size of the frame of a message. *)
Definition frame_len (msg : list byte) : Z :=
  4 + lenZ msg + Z.max 1 (div_ceil (lenZ msg) (Z.of_nat MAX_TRANSPORT_PAYLOAD)) * Z.of_nat ENCRYPTED_FRAME_OVERHEAD.

Lemma read_prefixed_body body rest :
  lenZ body ≤ MAX_MESSAGE_SIZE → read_length_prefixed (to_be_bytes 4 (lenZ body) ++ body ++ rest) = Ok (body, rest).
Proof.
  intros H. pose proof (frame_ok body (to_be_bytes 4 (lenZ body) ++ body) rest) as Hf. rewrite <- app_assoc in Hf.
  apply Hf. unfold write_length_prefixed. by rewrite (proj2 (Z.ltb_ge _ _) H).
Qed.

Lemma frame_roundtrip a b msg :
  in_session a b → frame_len msg ≤ MAX_MESSAGE_SIZE → nt_send_nonce a < 2 ^ 63 →
  ∃ frame a' b',
    encrypt_frame a msg = (Ok frame, a') ∧ decrypt_frame b frame = (Ok msg, b')
    ∧ (∀ rest, read_encrypted_frame b (frame ++ rest) = (Ok (msg, rest), b'))
    ∧ in_session a' b' ∧ nt_send_nonce a < nt_send_nonce a'
    ∧ (∀ m, other_way m a b → other_way m a' b').
Proof.
  intros Hs Hl Hn. unfold encrypt_frame. fold (frame_len msg). unfold MAX_MESSAGE_SIZE in *.
  rewrite (proj2 (Z.ltb_ge _ _) Hl).
  assert (lenZ msg ≤ 33554432) as Hm by (unfold frame_len, lenZ in *; lia).
  destruct (parts_roundtrip (S (length msg)) a b msg [] Hs) as (blob & a' & b' & E1 & Hmin & Hlen & E2 & Hs' & Hn' & Ho);
    [lia|change (2 ^ 63) with 9223372036854775808 in Hn; lia|].
  rewrite E1. cbn [app].
  assert (lenZ blob = frame_len msg - 4) as Hb by (unfold frame_len; lia).
  assert (decrypt_frame b (to_be_bytes 4 (lenZ blob) ++ blob) = (Ok msg, b')) as Ed.
  { unfold decrypt_frame. rewrite take_app_length' by by rewrite length_to_be_bytes.
    rewrite drop_app_length' by by rewrite length_to_be_bytes.
    assert (length (to_be_bytes 4 (lenZ blob) ++ blob) = 4 + length blob)%nat as El by by rewrite length_app, length_to_be_bytes.
    rewrite (proj2 (Nat.ltb_ge _ _)) by lia. rewrite from_to_be_u32 by (unfold in_u32, lenZ in *; lia).
    unfold MAX_MESSAGE_SIZE. rewrite (proj2 (Z.ltb_ge _ _)) by lia.
    rewrite (proj2 (Z.eqb_eq _ _)) by (unfold lenZ in *; lia). cbn [negb].
    rewrite (proj2 (Z.ltb_ge _ _)) by (unfold lenZ in *; lia).
    rewrite E2 by lia. done. }
  exists (to_be_bytes 4 (lenZ blob) ++ blob), a', b'. split_and!; [done|done| |done|lia|done].
  intros rest. unfold read_encrypted_frame. rewrite <- app_assoc, read_prefixed_body by (unfold MAX_MESSAGE_SIZE; lia).
  by rewrite Ed.
Qed.

End Frames.

(** C33: encrypted frames.  When the two ends of a session are in step and fewer than
    2^63 nonces were used, a message that
    fits (its frame is at most 32 MiB) is turned into a frame that the other end
    reads back, from the frame or from a stream that starts with it, whatever the
    number of chunks; both ends are in step again in that direction and the other
    direction is untouched, so that any sequence of messages goes through.  A message
    that does not fit is refused before a nonce is used. *)
Theorem encrypted_frames_roundtrip `{SN : Snow, SK : !SnowOk} (a b : NoiseTransport) (msg : list byte) :
  in_session a b → nt_send_nonce a < 2 ^ 63 →
  (frame_len msg ≤ MAX_MESSAGE_SIZE →
   ∃ frame a' b', encrypt_frame a msg = (Ok frame, a') ∧ decrypt_frame b frame = (Ok msg, b')
     ∧ (∀ rest, read_encrypted_frame b (frame ++ rest) = (Ok (msg, rest), b'))
     ∧ in_session a' b' ∧ (∀ m, other_way m a b → other_way m a' b'))
  ∧ (MAX_MESSAGE_SIZE < frame_len msg → encrypt_frame a msg = (Err (size_err "encrypted message"), a)).
Proof.
  intros Hs Hn. split.
  - intros Hl. destruct (frame_roundtrip a b msg Hs Hl Hn) as (f & a' & b' & ? & ? & ? & ? & _ & ?). eauto 10.
  - intros Hl. unfold encrypt_frame. fold (frame_len msg). by rewrite (proj2 (Z.ltb_lt _ _) Hl).
Qed.

(** ** Replayed and reordered frames *)

Section Replay.
Context `{SN : Snow}.

(** An accepted part carries the expected nonce, and the counter moves on. *)
Lemma transport_decrypt_ok t part n p t' :
  transport_decrypt t part n = (Ok p, t') →
  (24 ≤ length part)%nat ∧ from_be_bytes (take 8 part) = nt_recv_nonce t ∧ nt_recv_nonce t' = nt_recv_nonce t + 1.
Proof.
  unfold transport_decrypt. destruct (Nat.ltb_spec (length part) (NOISE_NONCE_LEN + NOISE_TAG_LEN)) as [|H24]; [done|].
  destruct (Z.eqb_spec (from_be_bytes (take NOISE_NONCE_LEN part)) (nt_recv_nonce t)) as [En|]; [|done]. cbn [negb].
  destruct (_ <? _)%nat; [done|]. destruct (snow_decrypt _ _) as [[q|e|] st]; [|done..].
  unfold next_nonce. destruct (_ <? two64); [|done]. intros [= <- <-]. done.
Qed.

Lemma transport_decrypt_stale t part n :
  (24 ≤ length part)%nat → from_be_bytes (take 8 part) ≠ nt_recv_nonce t →
  transport_decrypt t part n = (Err NoiseReplay, t).
Proof.
  intros H Hne. unfold transport_decrypt. destruct (Nat.ltb_spec (length part) (NOISE_NONCE_LEN + NOISE_TAG_LEN)) as [Hlt|_];
    [unfold NOISE_NONCE_LEN, NOISE_TAG_LEN in Hlt; lia|].
  rewrite (proj2 (Z.eqb_neq _ _)); [done|exact Hne].
Qed.

Lemma decrypt_parts_mono fuel : ∀ t blob acc p t',
  decrypt_parts fuel t blob acc = (Ok p, t') → nt_recv_nonce t ≤ nt_recv_nonce t'.
Proof.
  induction fuel as [|fuel IH]; intros t blob acc p t'; (destruct blob as [|x blob]; [by rewrite decrypt_parts_done; intros [= _ <-]|]);
    cbn [decrypt_parts]; [done|].
  destruct (_ <? _)%nat; [done|]. destruct (transport_decrypt _ _ _) as [[q|e|] t1] eqn:Ed; [|done..]. cbn [as_transport].
  apply transport_decrypt_ok in Ed as (_ & _ & En). intros H%IH. lia.
Qed.

(** What the first part of an accepted frame shows. *)
Lemma decrypt_frame_ok t raw p t' :
  decrypt_frame t raw = (Ok p, t') →
  nt_recv_nonce t < nt_recv_nonce t'
  ∧ ∀ u, nt_recv_nonce u ≠ nt_recv_nonce t → decrypt_frame u raw = (Err (Transport "nonce out of sequence"), u).
Proof.
  unfold decrypt_frame. destruct (_ <? 4)%nat; [done|]. destruct (MAX_MESSAGE_SIZE <? _); [done|].
  destruct (Z.eqb_spec (from_be_bytes (take 4 raw)) (lenZ raw - 4)) as [Et|]; [|done]. cbn [negb].
  destruct (Z.ltb_spec (from_be_bytes (take 4 raw)) (Z.of_nat ENCRYPTED_FRAME_OVERHEAD)) as [|H24]; [done|].
  set (blob := drop 4 raw). assert (24 ≤ length blob)%nat as Hl.
  { unfold blob. rewrite length_drop. unfold lenZ, ENCRYPTED_FRAME_OVERHEAD, NOISE_NONCE_LEN, NOISE_TAG_LEN in *. lia. }
  destruct blob as [|x blob']; [cbn in Hl; lia|]. cbn [length decrypt_parts].
  destruct (_ <? _)%nat; [done|]. destruct (transport_decrypt t _ _) as [[q|e|] t1] eqn:Ed; [|done..]. cbn [as_transport].
  apply transport_decrypt_ok in Ed as (Hp & En & En1). intros H%decrypt_parts_mono. split; [lia|].
  intros u Hu. rewrite transport_decrypt_stale; [done|done|congruence].
Qed.

End Replay.

(** no replay.  A frame that a transport accepted moves its receive counter on,
    and at every other value of the counter, hence at every later point of the
    session, the same frame is refused and the transport is left as it was. *)
Theorem replayed_frame_refused `{SN : Snow} (t t' : NoiseTransport) (raw msg : list byte) :
  decrypt_frame t raw = (Ok msg, t') →
  nt_recv_nonce t < nt_recv_nonce t'
  ∧ (∀ u, nt_recv_nonce t' ≤ nt_recv_nonce u →
      decrypt_frame u raw = (Err (Transport "nonce out of sequence"), u)).
Proof. intros [H1 H2]%decrypt_frame_ok. split; [done|]. intros u Hu. apply H2. lia. Qed.

(** A frame that was encrypted and not delivered, as when the socket buffer is full
    ([Connection::send_payload] returns after [encrypt_frame]), puts the session out
    of step: the peer refuses the next frame. *)
Lemma lost_frame_breaks_session `{SN : Snow, SK : !SnowOk} a b lost msg :
  in_session a b → nt_send_nonce a < 2 ^ 62 →
  frame_len lost ≤ MAX_MESSAGE_SIZE → frame_len msg ≤ MAX_MESSAGE_SIZE →
  ∃ f1 a1 f2 a2, encrypt_frame a lost = (Ok f1, a1) ∧ (nt_send_nonce a1 < 2 ^ 63 →
    encrypt_frame a1 msg = (Ok f2, a2) ∧ decrypt_frame b f2 = (Err (Transport "nonce out of sequence"), b)).
Proof.
  intros Hs Hn H1 H2.
  destruct (frame_roundtrip a b lost Hs H1) as (f1 & a1 & b1 & E1 & _ & _ & Hs1 & Hlt & _); [lia|].
  destruct (decide (nt_send_nonce a1 < 2 ^ 63)) as [Hn1|]; [|by exists f1, a1, [], a1].
  destruct (frame_roundtrip a1 b1 msg Hs1 H2 Hn1) as (f2 & a2 & b2 & E2 & D2 & _).
  exists f1, a1, f2, a2. split; [done|]. intros _. split; [done|].
  apply (decrypt_frame_ok _ _ _ _ D2). destruct Hs as (_ & -> & _), Hs1 as (_ & -> & _). lia.
Qed.

(** ** The handshake *)

Section Handshake.
Context `{B3 : Blake3, SN : Snow, ED : Ed25519, KD : Kdf}.

(** A valid signature over [hash] under a key of the node [id]. *)
Definition signed_by (id : NodeId) (hash : list byte) : Prop :=
  ∃ public signature, node_id_of public = id ∧ ed_valid_key public = true
    ∧ ed_verify_strict public hash signature = true.

Definition pinned (expected : option NodeId) (id : NodeId) : Prop := ∀ e, expected = Some e → e = id.

Lemma verify_peer_identity_ok expected hash payload n id :
  verify_peer_identity expected hash payload = Ok (n, id) → signed_by id hash ∧ pinned expected id.
Proof.
  unfold verify_peer_identity. destruct (_ <? _)%nat; [done|]. set (blob := drop _ payload).
  destruct (ed_valid_key (take 32 blob)) eqn:Ek; [|done]. cbn [negb].
  destruct (ed_verify_strict (take 32 blob) hash (drop 32 blob)) eqn:Ev; [|done]. cbn [negb].
  intros H. assert (id = node_id_of (take 32 blob) ∧ pinned expected id) as [-> Hp].
  { destruct expected as [e|]; [destruct (bool_decide_reflect (e = node_id_of (take 32 blob))) as [He|]; [|done]|];
      injection H as <- <-; (split; [done|]); intros e' He'; congruence. }
  split; [|done]. by exists (take 32 blob), (drop 32 blob).
Qed.

(** A side that has signed and verified nothing yet. *)
Definition fresh_handshake (h : NoiseHandshake) (role : NoiseRole) : Prop :=
  nh_role h = role ∧ nh_peer_node_id h = None ∧ nh_writes h = 0 ∧ nh_reads h = 0.

(** The fields a round leaves alone. *)
Definition same_side (h h' : NoiseHandshake) : Prop :=
  nh_role h' = nh_role h ∧ nh_expected_node_id h' = nh_expected_node_id h ∧ nh_identity h' = nh_identity h
  ∧ nh_expected_remote_static h' = nh_expected_remote_static h.

Lemma write_round_inv h out h' :
  write_round h = Ok (out, h') →
  ∃ m s full, full = (if should_sign h then auth_blob h else []) ∧ snow_write (nh_state h) full = (Ok m, s)
    ∧ h' = set_handshake h s (nh_peer_node_id h) ((nh_writes h + 1) mod two8) (nh_reads h).
Proof.
  unfold write_round, write_message.
  assert ((if 0 <? (if should_sign h then Z.of_nat AUTH_BLOB_LEN else 0) then [] ++ auth_blob h else [])
          = (if should_sign h then auth_blob h else [])) as -> by by destruct (should_sign h).
  destruct (HANDSHAKE_BUF <? _); [done|]. destruct (snow_write _ _) as [[m|e|] s] eqn:Ew; [|done..].
  cbn [map_err mbind result_bind]. intros (o & _ & H)%bind_ok_inv. injection H as _ <-. eauto 10.
Qed.

Lemma read_round_inv h stream h' rest :
  read_round h stream = Ok (h', rest) →
  ∃ m p s, snow_read (nh_state h) m = (Ok p, s) ∧ nh_state h' = s ∧ same_side h h'
    ∧ nh_writes h' = nh_writes h ∧ nh_reads h' = (nh_reads h + 1) mod two8
    ∧ if should_verify h
      then ∃ id, nh_peer_node_id h' = Some id ∧ signed_by id (snow_hash (nh_state h)) ∧ pinned (nh_expected_node_id h) id
      else nh_peer_node_id h' = nh_peer_node_id h.
Proof.
  unfold read_round. intros ([m rest1] & _ & H)%bind_ok_inv. unfold read_message in H.
  destruct (HANDSHAKE_BUF <? lenZ m); [done|]. destruct (snow_read (nh_state h) m) as [[p|e|] s] eqn:Er; [|done..].
  destruct (verify_remote_static _) as [[]|e|]; [|done..]. exists m, p, s. split; [done|].
  destruct (should_verify h).
  - destruct (verify_peer_identity _ _ _) as [[n id]|e|] eqn:Ev; [|done..]. cbn in H. injection H as <- <-.
    apply verify_peer_identity_ok in Ev as [Hs Hp]. split_and!; try done. by exists id.
  - cbn in H. injection H as <- <-. by split_and!.
Qed.

Lemma into_transport_ok h t id :
  into_transport h = Ok (t, id) → nh_peer_node_id h = Some id ∧ nt_expected_node_id t = nh_expected_node_id h.
Proof.
  unfold into_transport. destruct (negb _); [done|]. intros ([] & _ & H)%bind_ok_inv.
  apply bind_ok_inv in H as (i & Hi & H). apply bind_ok_inv in H as (st & _ & H). injection H as <- ->.
  destruct (nh_peer_node_id h); [by injection Hi as ->|done].
Qed.

End Handshake.

(** C32: a completed handshake authenticates the peer, against any stream of bytes.
    The id the code reports belongs to a key under which the peer signed the
    transcript of this very handshake (for the initiator the hash after its own
    first message, for the responder the hash after its signed reply); and where the
    caller pinned the peer it meant to reach, the id is that one. *)
Theorem handshake_authenticates `{B3 : Blake3, SN : Snow, ED : Ed25519, KD : Kdf} h stream out h' rest t id role :
  fresh_handshake h role →
  match role with
  | Initiator => drive_initiator_handshake h stream
  | Responder => drive_responder_handshake h stream
  end = Ok (out, h', rest) →
  into_transport h' = Ok (t, id) →
  pinned (nh_expected_node_id h) id ∧ nt_expected_node_id t = nh_expected_node_id h
  ∧ match role with
    | Initiator => ∃ m s, snow_write (nh_state h) [] = (Ok m, s) ∧ signed_by id (snow_hash s)
    | Responder => ∃ m p s m' s', snow_read (nh_state h) m = (Ok p, s)
        ∧ snow_write s (public_key (nh_identity h) ++ keypair_sign (nh_identity h) (snow_hash s)) = (Ok m', s')
        ∧ signed_by id (snow_hash s')
    end.
Proof.
  intros (Er & Ep & Ew & Erd) Hd [Hid Ht]%into_transport_ok. destruct role; cbn in Hd.
  - apply bind_ok_inv in Hd as ([o1 h1] & (m1 & s1 & f & -> & Hw1 & ->)%write_round_inv & Hd).
    apply bind_ok_inv in Hd as ([h2 st2] & (m2 & p2 & s2 & _ & _ & (Es1 & Es2 & Es3 & Es4) & _ & _ & Hv)%read_round_inv & Hd).
    apply bind_ok_inv in Hd as ([o3 h3] & (m3 & s3 & f3 & -> & _ & ->)%write_round_inv & Hd). injection Hd as <- <- <-.
    unfold should_sign in Hw1. rewrite Er, Ew in Hw1. unfold should_verify in Hv. cbn in Hv. rewrite Er, Erd in Hv. cbn in Hv.
    destruct Hv as (id' & Hid' & Hs & Hp). cbn in Hid. rewrite Hid' in Hid. injection Hid as ->.
    cbn in Ht, Es2. rewrite Es2 in Ht. split_and!; [done|done|]. by exists m1, s1.
  - apply bind_ok_inv in Hd as ([h1 st1] & (m1 & p1 & s1 & Hr1 & E1 & (Es1 & Es2 & Es3 & Es4) & Ew1 & Erd1 & Hv1)%read_round_inv & Hd).
    apply bind_ok_inv in Hd as ([o2 h2] & (m2 & s2 & f2 & -> & Hw2 & ->)%write_round_inv & Hd).
    apply bind_ok_inv in Hd as ([h3 st3] & (m3 & p3 & s3 & _ & _ & (Et1 & Et2 & Et3 & Et4) & _ & _ & Hv3)%read_round_inv & Hd).
    injection Hd as <- <- <-. unfold should_verify in Hv3. cbn in Hv3. rewrite Es1, Er, Erd1, Erd in Hv3. cbn in Hv3.
    destruct Hv3 as (id' & Hid' & Hs & Hp). rewrite Hid' in Hid. injection Hid as ->. cbn in Et2, Hp, Hs. rewrite Es2 in *.
    unfold should_sign in Hw2. rewrite Es1, Er, Ew1, Ew in Hw2. cbn in Hw2. unfold auth_blob in Hw2. rewrite E1, Es3 in Hw2.
    rewrite Et2 in Ht. split_and!; [done|done|]. by exists m1, p1, s1, m2, s2.
Qed.

(** ** Honest peers *)

Section Honest.
Context `{B3 : Blake3, SN : Snow, ED : Ed25519, KD : Kdf}.

Lemma write_round_ok h m s :
  snow_write (nh_state h) (if should_sign h then auth_blob h else []) = (Ok m, s) → (length m ≤ 192)%nat →
  write_round h = Ok (to_be_bytes 4 (lenZ m) ++ m,
    set_handshake h s (nh_peer_node_id h) ((nh_writes h + 1) mod two8) (nh_reads h)).
Proof.
  intros Hw Hl. unfold write_round, write_message.
  assert ((if 0 <? (if should_sign h then Z.of_nat AUTH_BLOB_LEN else 0) then [] ++ auth_blob h else [])
          = (if should_sign h then auth_blob h else [])) as -> by by destruct (should_sign h).
  rewrite (proj2 (Z.ltb_ge _ _)) by by destruct (should_sign h).
  rewrite Hw. cbn [map_err mbind result_bind]. unfold write_length_prefixed.
  rewrite (proj2 (Z.ltb_ge _ _)) by (unfold MAX_MESSAGE_SIZE, lenZ; lia). done.
Qed.

Lemma read_round_ok h m p s rest :
  snow_read (nh_state h) m = (Ok p, s) → (length m ≤ 192)%nat → nh_expected_remote_static h = None →
  read_round h (to_be_bytes 4 (lenZ m) ++ m ++ rest) =
    if should_verify h then
      '(n, id) ← map_err from_noise (verify_peer_identity (nh_expected_node_id h) (snow_hash (nh_state h)) p);
      Ok (set_handshake h s (Some id) (nh_writes h) ((nh_reads h + 1) mod two8), rest)
    else Ok (set_handshake h s (nh_peer_node_id h) (nh_writes h) ((nh_reads h + 1) mod two8), rest).
Proof.
  intros Hr Hl He. unfold read_round, read_bounded_handshake_msg.
  rewrite read_prefixed_body by (unfold MAX_MESSAGE_SIZE, lenZ; lia). cbn [mbind result_bind].
  rewrite (proj2 (Z.ltb_ge _ _)) by (unfold MAX_HANDSHAKE_MSG, lenZ; lia). cbn [mbind result_bind].
  unfold read_message. rewrite (proj2 (Z.ltb_ge _ _)) by (unfold HANDSHAKE_BUF, lenZ; lia). rewrite Hr.
  unfold verify_remote_static. cbn [nh_expected_remote_static set_handshake]. rewrite He.
  destruct (should_verify h); [|done]. by destruct (verify_peer_identity _ _ _) as [[n id]|e|].
Qed.

Context `{EK : !EdOk, KK : !KdfOk}.

(** The blob of an honest peer verifies. *)
Lemma verify_honest expected k hash :
  pinned expected (node_id k) →
  verify_peer_identity expected hash (public_key k ++ keypair_sign k hash) = Ok (O, node_id k).
Proof.
  intros Hp. unfold verify_peer_identity.
  pose proof (ed_public_length (kp_seed k)) as Hpk. pose proof (ed_sign_length (kp_seed k) hash) as Hsg.
  unfold public_key, keypair_sign. unfold is32 in Hpk. rewrite length_app, Hpk, Hsg. cbn [AUTH_BLOB_LEN Nat.add Nat.ltb Nat.leb Nat.sub].
  rewrite drop_0, take_app_length', drop_app_length' by done. rewrite ed_public_valid, ed_sign_verifies. cbn [negb].
  fold (public_key k) (node_id k). destruct expected as [e|]; [|done]. rewrite bool_decide_true; [done|by apply Hp].
Qed.

(** The two sides of the exchange, given what [snow] does on the three messages. *)
Definition side (role : NoiseRole) (state : HandshakeState) (k : NodeKeypair) (expected : option NodeId) : NoiseHandshake :=
  {| nh_state := state; nh_role := role; nh_expected_remote_static := None; nh_identity := k;
     nh_expected_node_id := expected; nh_peer_node_id := None; nh_writes := 0; nh_reads := 0 |}.

Definition prefixed (m : list byte) : list byte := to_be_bytes 4 (lenZ m) ++ m.

Lemma initiator_completes i0 i1 i2 i3 ki kr ei m1 m2 m3 rest :
  pinned ei (node_id kr) → (length m1 ≤ 192)%nat → (length m2 ≤ 192)%nat → (length m3 ≤ 192)%nat →
  snow_write i0 [] = (Ok m1, i1) →
  snow_read i1 m2 = (Ok (public_key kr ++ keypair_sign kr (snow_hash i1)), i2) →
  snow_write i2 (public_key ki ++ keypair_sign ki (snow_hash i2)) = (Ok m3, i3) →
  drive_initiator_handshake (side Initiator i0 ki ei) (prefixed m2 ++ rest) =
    Ok (prefixed m1 ++ prefixed m3, set_handshake (side Initiator i0 ki ei) i3 (Some (node_id kr)) 2 1, rest).
Proof.
  intros Hp L1 L2 L3 W1 R2 W3. unfold drive_initiator_handshake.
  rewrite (write_round_ok (side Initiator i0 ki ei) m1 i1 W1 L1). cbn [mbind result_bind].
  set (h1 := set_handshake _ _ _ _ _). unfold prefixed at 1. rewrite <- app_assoc.
  rewrite (read_round_ok h1 m2 _ i2 rest R2 L2) by done.
  change (should_verify h1) with true. change (nh_expected_node_id h1) with ei. change (nh_state h1) with i1.
  rewrite (verify_honest ei kr (snow_hash i1) Hp). cbn [map_err mbind result_bind]. set (h2 := set_handshake h1 _ _ _ _).
  rewrite (write_round_ok h2 m3 i3 W3 L3). done.
Qed.

Lemma responder_completes r0 r1 r2 r3 ki kr er m1 m2 m3 p1 rest :
  pinned er (node_id ki) → (length m1 ≤ 192)%nat → (length m2 ≤ 192)%nat → (length m3 ≤ 192)%nat →
  snow_read r0 m1 = (Ok p1, r1) →
  snow_write r1 (public_key kr ++ keypair_sign kr (snow_hash r1)) = (Ok m2, r2) →
  snow_read r2 m3 = (Ok (public_key ki ++ keypair_sign ki (snow_hash r2)), r3) →
  drive_responder_handshake (side Responder r0 kr er) ((prefixed m1 ++ prefixed m3) ++ rest) =
    Ok (prefixed m2, set_handshake (side Responder r0 kr er) r3 (Some (node_id ki)) 1 2, rest).
Proof.
  intros Hp L1 L2 L3 R1 W2 R3. unfold drive_responder_handshake. rewrite <- app_assoc. unfold prefixed at 1. rewrite <- app_assoc.
  rewrite (read_round_ok (side Responder r0 kr er) m1 p1 r1 _ R1 L1) by done.
  change (should_verify (side Responder r0 kr er)) with false. cbn [mbind result_bind]. set (h1 := set_handshake _ _ _ _ _).
  rewrite (write_round_ok h1 m2 r2 W2 L2). cbn [mbind result_bind]. set (h2 := set_handshake h1 _ _ _ _).
  unfold prefixed at 1. rewrite <- app_assoc, (read_round_ok h2 m3 _ r3 rest R3 L3) by done.
  change (should_verify h2) with true. change (nh_expected_node_id h2) with er. change (nh_state h2) with r2.
  rewrite (verify_honest er ki (snow_hash r2) Hp). done.
Qed.

End Honest.

(** Honest peers complete the handshake.  Whatever the two identities and however
    often they have been used, with no pin or the right one, each side finishes from
    the bytes the other wrote (and leaves what follows them in the stream), reports
    the other's id, and the two transports are in step in both directions. *)
Lemma honest_handshake_completes `{B3 : Blake3, SN : Snow, SK : !SnowOk, ED : Ed25519, EK : !EdOk, KD : Kdf, KK : !KdfOk}
    (ki kr : NodeKeypair) (ei er : option NodeId) :
  pinned ei (node_id kr) → pinned er (node_id ki) →
  ∃ hi ki' hr kr' out_i out_r hi' hr' ti tr,
    handshake_build (noise_static_private_key ki) ki ei Initiator = (Ok hi, ki')
    ∧ handshake_build (noise_static_private_key kr) kr er Responder = (Ok hr, kr')
    ∧ (∀ rest, drive_initiator_handshake hi (out_r ++ rest) = Ok (out_i, hi', rest))
    ∧ (∀ rest, drive_responder_handshake hr (out_i ++ rest) = Ok (out_r, hr', rest))
    ∧ into_transport hi' = Ok (ti, node_id kr) ∧ into_transport hr' = Ok (tr, node_id ki)
    ∧ in_session ti tr ∧ in_session tr ti.
Proof.
  intros Hpi Hpr. unfold handshake_build. cbn [next_ephemeral_seed].
  set (ki' := {| kp_seed := kp_seed ki; kp_counter := (kp_counter ki + 1) mod two64 |}).
  set (kr' := {| kp_seed := kp_seed kr; kp_counter := (kp_counter kr + 1) mod two64 |}).
  destruct (xx_build (noise_static_private_key ki) (ephemeral_seed (kp_seed ki) (kp_counter ki))
    (noise_static_private_key kr) (ephemeral_seed (kp_seed kr) (kp_counter kr)))
    as (i0 & r0 & Ei & Er & Hx0); try apply hkdf_length.
  rewrite Ei, Er. cbn [mbind result_bind].
  assert (∀ k hash, length (public_key k ++ keypair_sign k hash) = 96%nat) as Hblob.
  { intros. rewrite length_app. unfold public_key, keypair_sign. by rewrite ed_public_length, ed_sign_length. }
  destruct (xx_step 0 i0 r0 [] Hx0) as (m1 & i1 & r1 & W1 & R1 & L1 & Hx1); [lia|cbn; lia|].
  destruct (xx_step 1 r1 i1 (public_key kr' ++ keypair_sign kr' (snow_hash r1)) Hx1) as (m2 & r2 & i2 & W2 & R2 & L2 & Hx2);
    [lia|by rewrite Hblob|].
  destruct (xx_step 2 i2 r2 (public_key ki' ++ keypair_sign ki' (snow_hash i2)) Hx2) as (m3 & i3 & r3 & W3 & R3 & L3 & Hx3);
    [lia|by rewrite Hblob|].
  destruct (xx_finished _ _ Hx3) as [Fr Fi]. destruct (xx_transport _ _ Hx3) as (tr & ti & Tr & Ti & Hp1 & Hp2).
  rewrite Hblob in L2, L3. cbn in L1.
  rewrite (xx_hash _ _ _ Hx1) in R2. rewrite (xx_hash _ _ _ Hx2) in R3.
  exists (side Initiator i0 ki' ei), ki', (side Responder r0 kr' er), kr', (prefixed m1 ++ prefixed m3), (prefixed m2),
    (set_handshake (side Initiator i0 ki' ei) i3 (Some (node_id kr)) 2 1),
    (set_handshake (side Responder r0 kr' er) r3 (Some (node_id ki)) 1 2), (transport_new ti ei), (transport_new tr er).
  split; [done|]. split; [done|]. split; [|split; [|split; [|split; [|split]]]].
  - intros rest. by apply (initiator_completes i0 i1 i2 i3 ki' kr' ei); try lia.
  - intros rest. by apply (responder_completes r0 r1 r2 r3 ki' kr' er m1 m2 m3 []); try lia.
  - unfold into_transport. cbn. rewrite Fi. cbn. by rewrite Ti.
  - unfold into_transport. cbn. rewrite Fr. cbn. by rewrite Tr.
  - unfold in_session. cbn. done.
  - unfold in_session. cbn. done.
Qed.
