(* ===== verification/NoiseConcrete.v ===== *)
(** * A concrete Noise stack

    Toy instances of [snow], [ed25519-dalek] and [hkdf] that satisfy the laws of
    [NoiseProps], and its theorems at concrete sessions. *)

From S2P Require Import Prelude Bytes Net NetProps Concrete Noise NoiseProps.
Open Scope Z_scope.

Definition pad32 (bs : list byte) : list byte := take 32 (bs ++ zero32).

Lemma pad32_length bs : is32 (pad32 bs).
Proof. unfold is32, pad32. rewrite length_take, length_app. change (length zero32) with 32%nat. lia. Qed.

(** The transcript in the clear; a message is its payload and a trailer. *)
Definition toy_tail (n : nat) : list byte := replicate n xaa.

Definition toy_snow : Snow := {|
  HandshakeState := nat * list byte;
  TransportState := unit;
  snow_build _ static ephemeral := Ok (O, []);
  snow_write h p := if (h.1 <? 3)%nat then (Ok (p ++ toy_tail 96), (S h.1, h.2 ++ p ++ toy_tail 1)) else (Err NoiseDh, h);
  snow_read h m :=
    let p := take (length m - 96) m in
    if (h.1 <? 3)%nat then (Ok p, (S h.1, h.2 ++ p ++ toy_tail 1)) else (Err NoiseDh, h);
  snow_hash h := h.2;
  snow_finished h := (h.1 =? 3)%nat;
  snow_remote_static _ := None;
  snow_transport h := if (h.1 =? 3)%nat then Ok tt else Err NoiseDh;
  snow_encrypt t p := (Ok (p ++ toy_tail NOISE_TAG_LEN), t);
  snow_decrypt t c := (Ok (take (length c - NOISE_TAG_LEN) c), t);
  snow_rekey t := t
|}.

Lemma toy_strip p n : take (length (p ++ toy_tail n) - n) (p ++ toy_tail n) = p.
Proof. rewrite length_app. unfold toy_tail. rewrite length_replicate, take_app_length'; [done|lia]. Qed.

Definition toy_snow_ok : SnowOk (SN := toy_snow).
Proof.
  refine (@Build_SnowOk toy_snow (λ (k : nat) (w r : nat * list byte), w = r ∧ w.1 = k) (λ _ _ _, True) _ _ _ _ _ _).
  - intros. by exists (O, []), (O, []).
  - intros k w r p [<- Hw] Hk Hp. cbn [snow_write snow_read toy_snow]. rewrite Hw, (proj2 (Nat.ltb_lt _ _) Hk).
    exists (p ++ toy_tail 96), (S k, w.2 ++ p ++ toy_tail 1), (S k, w.2 ++ p ++ toy_tail 1).
    rewrite toy_strip, length_app. unfold toy_tail. rewrite length_replicate. split_and!; try done; lia.
  - by intros k w r [<- _].
  - intros w r [<- Hw]. cbn. by rewrite Hw.
  - intros w r [<- Hw]. cbn. rewrite Hw. by exists tt, tt.
  - intros n a b p _ _ _. exists (p ++ toy_tail NOISE_TAG_LEN), a, b. cbn [snow_encrypt snow_decrypt toy_snow].
    rewrite toy_strip, length_app. unfold toy_tail. by rewrite length_replicate.
Defined.

(** A signature is the key and the first bytes of the message. *)
Definition toy_ed : Ed25519 := {|
  ed_public := pad32;
  ed_sign seed m := pad32 seed ++ pad32 m;
  ed_valid_key k := (length k =? 32)%nat;
  ed_verify_strict k m s := bool_decide (s = k ++ pad32 m)
|}.

Lemma toy_ed_ok : EdOk (ED := toy_ed).
Proof.
  split; cbn.
  - apply pad32_length.
  - intros. by rewrite length_app, !pad32_length.
  - intros. by rewrite pad32_length.
  - intros. by apply bool_decide_true.
Qed.

Definition toy_kdf : Kdf := {| hkdf_sha256 seed info := pad32 (info ++ seed); blake3_keyed key m := pad32 (m ++ key) |}.

Lemma toy_kdf_ok : KdfOk (KD := toy_kdf).
Proof. split; intros; apply pad32_length. Qed.

Existing Instance toy_snow.
Existing Instance toy_snow_ok.
Existing Instance toy_ed.
Existing Instance toy_ed_ok.
Existing Instance toy_kdf.
Existing Instance toy_kdf_ok.
Existing Instance toy_blake3.

(** ** Sessions *)

Definition alice : NodeKeypair := keypair_from_seed (replicate 32 x01).
Definition bob : NodeKeypair := keypair_from_seed (replicate 32 x02).
Definition session_end : NoiseTransport := transport_new tt None.
Definition ping : list byte := as_bytes "ping".

Lemma toy_in_session : in_session session_end session_end.
Proof. done. Qed.

Lemma ping_fits : frame_len ping ≤ MAX_MESSAGE_SIZE.
Proof. unfold frame_len. rewrite max_payload. by vm_compute. Qed.

Lemma encrypted_frames_roundtrip_witness :
  ∃ frame a' b', encrypt_frame session_end ping = (Ok frame, a') ∧ decrypt_frame session_end frame = (Ok ping, b').
Proof.
  destruct (encrypted_frames_roundtrip session_end session_end ping toy_in_session ltac:(by vm_compute)) as [H _].
  destruct (H ping_fits) as (f & a' & b' & E1 & E2 & _). exists f, a', b'. split; [exact E1|exact E2].
Defined.

(** The frame of [ping]: length, nonce, text and tag. *)
Definition ping_frame : list byte := to_be_bytes 4 28 ++ to_be_bytes 8 0 ++ ping ++ toy_tail 16.

Lemma ping_frame_accepted : decrypt_frame session_end ping_frame = (Ok ping, set_transport session_end tt 0 1).
Proof.
  unfold decrypt_frame. change (length ping_frame) with 32%nat. change (from_be_bytes (take 4 ping_frame)) with 28.
  cbn [Nat.ltb Nat.leb lenZ]. change (MAX_MESSAGE_SIZE <? 28) with false. change (28 =? lenZ ping_frame - 4) with true.
  change (28 <? Z.of_nat ENCRYPTED_FRAME_OVERHEAD) with false. cbn [negb].
  set (blob := drop 4 ping_frame). change (length blob) with 28%nat.
  assert (take MAX_ENCRYPTED_PART blob = blob) as Et by (apply take_ge; pose proof max_part; change (length blob) with 28%nat; lia).
  assert (drop MAX_ENCRYPTED_PART blob = []) as Ed by (apply drop_ge; pose proof max_part; change (length blob) with 28%nat; lia).
  cbn [decrypt_parts]. destruct blob as [|x blob'] eqn:Eb; [done|]. rewrite Et, Ed, <- Eb. by vm_compute.
Qed.

Lemma replayed_frame_refused_witness :
  decrypt_frame (set_transport session_end tt 0 1) ping_frame
  = (Err (Transport "nonce out of sequence"), set_transport session_end tt 0 1).
Proof.
  destruct (replayed_frame_refused session_end _ ping_frame ping ping_frame_accepted) as [_ H].
  apply H. cbn. lia.
Defined.

(** ** The initiator's side of a session with [bob] *)

Definition dialling : NoiseHandshake := side Initiator (O, []) alice (Some (node_id bob)).
Definition bob_reply : list byte :=
  prefixed ((public_key bob ++ keypair_sign bob (toy_tail 1)) ++ toy_tail 96).

Lemma dialling_completes :
  ∃ out h' t, drive_initiator_handshake dialling bob_reply = Ok (out, h', []) ∧ into_transport h' = Ok (t, node_id bob).
Proof. eexists _, _, _. split; vm_compute; reflexivity. Qed.

Lemma handshake_authenticates_witness :
  ∃ m s, snow_write (nh_state dialling) [] = (Ok m, s) ∧ signed_by (node_id bob) (snow_hash s).
Proof.
  destruct dialling_completes as (out & h' & t & Hd & Ht).
  destruct (handshake_authenticates dialling bob_reply out h' [] t (node_id bob) Initiator) as (_ & _ & H).
  - unfold fresh_handshake. cbn. auto.
  - exact Hd.
  - exact Ht.
  - exact H.
Defined.
