(* ===== verification/Peers.v ===== *)
(** * Peer management (crates/strangecoin-net/src/peer)

    The peer database with its bans ([store.rs]), the scoring formula and the ban
    ladder ([scoring.rs], in [f32] arithmetic), the live connections ([pool.rs]) and
    the manager that joins them ([manager.rs]).  An [Instant] is a number of
    nanoseconds and every reading of the clock is an argument.  A call runs to its end
    before the next one: interleavings inside a call, between its locks, are left
    out.  [network.json] is the parsed document last written. *)

From S2P Require Import Prelude Bytes Net Float RateLimiter Noise Serialize Gossip.
From Stdlib Require Import QArith.
From stdpp Require Import gmap sorting pretty.
Open Scope Z_scope.

(** ** Records (peer/store.rs) *)

Inductive BanReason := InvalidBlocks | ProtocolViolation | RateLimited | Manual.
#[export] Instance BanReason_eq_dec : EqDecision BanReason.
Proof. solve_decision. Defined.

Record BanRecord := { bn_until : Z; bn_reason : BanReason; bn_banned_at : Z; bn_persistent : bool }.

Record PeerRecord := {
  pr_node_id : NodeId;
  pr_addr : SocketAddr;
  pr_last_seen : Z;
  pr_score : Q;
  pr_latency_ewma : Z;
  pr_invalid_count : Z;
  pr_violation_count : Z;
  pr_uptime_seconds : Z;
  pr_observed_seconds : Z;
  pr_uptime_anchor : Z;
  pr_responsive_since_anchor : bool;
  pr_verified : bool
}.

Definition INITIAL_PEER_SCORE : Q := 1.

Definition new_record (node_id : NodeId) (addr : SocketAddr) (verified : bool) (now : Z) : PeerRecord := {|
  pr_node_id := node_id; pr_addr := addr; pr_last_seen := now; pr_score := INITIAL_PEER_SCORE;
  pr_latency_ewma := 0; pr_invalid_count := 0; pr_violation_count := 0; pr_uptime_seconds := 0;
  pr_observed_seconds := 0; pr_uptime_anchor := now; pr_responsive_since_anchor := verified;
  pr_verified := verified |}.

(** A known peer seen again. *)
Definition refresh_record (r : PeerRecord) (addr : SocketAddr) (verified : bool) (now : Z) : PeerRecord := {|
  pr_node_id := pr_node_id r; pr_addr := addr; pr_last_seen := now; pr_score := pr_score r;
  pr_latency_ewma := pr_latency_ewma r; pr_invalid_count := pr_invalid_count r;
  pr_violation_count := pr_violation_count r; pr_uptime_seconds := pr_uptime_seconds r;
  pr_observed_seconds := pr_observed_seconds r; pr_uptime_anchor := pr_uptime_anchor r;
  pr_responsive_since_anchor := verified || pr_responsive_since_anchor r;
  pr_verified := pr_verified r || verified |}.

(** The fields the scoring code assigns. *)
Definition set_record (r : PeerRecord) (last_seen : Z) (score : Q) (ewma invalid violations uptime observed anchor : Z)
    (responsive : bool) : PeerRecord := {|
  pr_node_id := pr_node_id r; pr_addr := pr_addr r; pr_last_seen := last_seen; pr_score := score;
  pr_latency_ewma := ewma; pr_invalid_count := invalid; pr_violation_count := violations;
  pr_uptime_seconds := uptime; pr_observed_seconds := observed; pr_uptime_anchor := anchor;
  pr_responsive_since_anchor := responsive; pr_verified := pr_verified r |}.

(** ** Scoring (peer/scoring.rs) *)

Definition LATENCY_EWMA_ALPHA : Q := f32 (1 # 10).
Definition LATENCY_NORM_MS : Q := 100.
Definition SCORE_EPSILON : Q := f32 (1 # 1000000).

Record ScoringConfig := {
  sc_w_latency : Q; sc_w_invalid : Q; sc_w_violation : Q; sc_w_uptime : Q;
  sc_warn_threshold : Q; sc_temp_ban_threshold : Q; sc_persistent_ban_threshold : Q;
  sc_temp_ban_duration : Z; sc_persistent_ban_duration : Z;
  sc_invalid_full_weight : Z; sc_violation_full_weight : Z
}.

Definition scoring_default : ScoringConfig := {|
  sc_w_latency := f32 (2 # 10); sc_w_invalid := f32 (5 # 10); sc_w_violation := f32 (2 # 10);
  sc_w_uptime := f32 (1 # 10); sc_warn_threshold := f32 (4 # 10); sc_temp_ban_threshold := f32 (2 # 10);
  sc_persistent_ban_threshold := f32 (5 # 100); sc_temp_ban_duration := 60 * 60 * NANOS;
  sc_persistent_ban_duration := 60 * 60 * 24 * 30 * NANOS; sc_invalid_full_weight := 6;
  sc_violation_full_weight := 4 |}.

Inductive BanDecision := NoAction | Warn | TempBan (until : Z) | PersistentBan (until : Z).

Definition latency_norm (r : PeerRecord) : Q :=
  let ms := f32 (as_secs_float f32 (pr_latency_ewma r) * 1000) in
  clamp01 (f32 (ms / LATENCY_NORM_MS)).

Definition uptime_norm (r : PeerRecord) : Q :=
  if pr_observed_seconds r =? 0 then 1%Q else
  clamp01 (f32 (f32 (inject_Z (pr_uptime_seconds r)) / f32 (inject_Z (pr_observed_seconds r)))).

(** The grading part of the score. *)
Definition quality (r : PeerRecord) (c : ScoringConfig) : Q :=
  let grading_max := f32 (sc_w_latency c + sc_w_uptime c) in
  if flt 0 grading_max then
    f32 (f32 (f32 (sc_w_latency c * f32 (1 - latency_norm r)) + f32 (sc_w_uptime c * uptime_norm r)) / grading_max)
  else 0%Q.

(** The weight of a counter. *)
Definition penalty (weight : Q) (count full : Z) : Q :=
  f32 (weight * f32 (f32 (inject_Z count) / f32 (inject_Z (Z.max 1 full)))).

Definition invalid_weight (r : PeerRecord) (c : ScoringConfig) : Q :=
  penalty (sc_w_invalid c) (pr_invalid_count r) (sc_invalid_full_weight c).
Definition violation_weight (r : PeerRecord) (c : ScoringConfig) : Q :=
  penalty (sc_w_violation c) (pr_violation_count r) (sc_violation_full_weight c).

Definition compute_score (r : PeerRecord) (c : ScoringConfig) : Q :=
  let abuse := f32 (invalid_weight r c + violation_weight r c) in
  clamp01 (f32 (quality r c - abuse)).

Definition decide_ban (score : Q) (c : ScoringConfig) (now : Z) : BanDecision :=
  let below threshold := flt score (f32 (threshold - SCORE_EPSILON)) in
  if below (sc_persistent_ban_threshold c) then PersistentBan (now + sc_persistent_ban_duration c)
  else if below (sc_temp_ban_threshold c) then TempBan (now + sc_temp_ban_duration c)
  else if below (sc_warn_threshold c) then Warn
  else NoAction.

Definition set_score (r : PeerRecord) (score : Q) : PeerRecord :=
  set_record r (pr_last_seen r) score (pr_latency_ewma r) (pr_invalid_count r) (pr_violation_count r)
    (pr_uptime_seconds r) (pr_observed_seconds r) (pr_uptime_anchor r) (pr_responsive_since_anchor r).

Definition update_score (r : PeerRecord) (c : ScoringConfig) (now : Z) : PeerRecord * BanDecision :=
  let score := compute_score r c in (set_score r score, decide_ban score c now).

Definition record_latency_sample (r : PeerRecord) (sample : Z) : PeerRecord :=
  let next := f32 (f32 (f32 (1 - LATENCY_EWMA_ALPHA) * as_secs_float f32 (pr_latency_ewma r))
                   + f32 (LATENCY_EWMA_ALPHA * as_secs_float f32 sample)) in
  set_record r (pr_last_seen r) (pr_score r) (from_secs_float (fmax next 0)) (pr_invalid_count r)
    (pr_violation_count r) (pr_uptime_seconds r) (pr_observed_seconds r) (pr_uptime_anchor r)
    (pr_responsive_since_anchor r).

(** [note_message] and [record.last_seen = now]. *)
Definition note_message (r : PeerRecord) (now : Z) : PeerRecord :=
  set_record r now (pr_score r) (pr_latency_ewma r) (pr_invalid_count r) (pr_violation_count r)
    (pr_uptime_seconds r) (pr_observed_seconds r) (pr_uptime_anchor r) true.

Definition sat64 (a b : Z) : Z := Z.min (two64 - 1) (a + b).

Definition accrue_uptime (r : PeerRecord) (now : Z) : PeerRecord :=
  let elapsed := Z.max 0 (now - pr_uptime_anchor r) / NANOS in
  if elapsed =? 0 then r else
  set_record r (pr_last_seen r) (pr_score r) (pr_latency_ewma r) (pr_invalid_count r) (pr_violation_count r)
    (if pr_responsive_since_anchor r then sat64 (pr_uptime_seconds r) elapsed else pr_uptime_seconds r)
    (sat64 (pr_observed_seconds r) elapsed) now false.

Definition dominant_reason (r : PeerRecord) (c : ScoringConfig) : BanReason :=
  if (0 <? pr_invalid_count r) && Qle_bool (violation_weight r c) (invalid_weight r c)
  then InvalidBlocks else ProtocolViolation.

(** ** Peer database (peer/store.rs) *)

Record PeerStore := {
  ps_peers : gmap NodeId PeerRecord;
  ps_ban_state : gmap NodeId BanRecord;
  ps_historical_bans : list (NodeId * BanRecord)
}.

Definition store_new : PeerStore := {| ps_peers := ∅; ps_ban_state := ∅; ps_historical_bans := [] |}.

Definition with_peers (s : PeerStore) (peers : gmap NodeId PeerRecord) : PeerStore :=
  {| ps_peers := peers; ps_ban_state := ps_ban_state s; ps_historical_bans := ps_historical_bans s |}.

Definition add_peer (s : PeerStore) (node_id : NodeId) (addr : SocketAddr) (verified : bool) (now : Z)
    : PeerStore * bool :=
  match ps_peers s !! node_id with
  | Some r => (with_peers s (<[node_id := refresh_record r addr verified now]> (ps_peers s)), false)
  | None => (with_peers s (<[node_id := new_record node_id addr verified now]> (ps_peers s)), true)
  end.

Definition remove_peer (s : PeerStore) (node_id : NodeId) : PeerStore * option PeerRecord :=
  (with_peers s (delete node_id (ps_peers s)), ps_peers s !! node_id).

Definition peer_ids_sorted (s : PeerStore) : list NodeId := sort_leaves (map_to_list (ps_peers s)).*1.

Definition store_ban_peer (s : PeerStore) (node_id : NodeId) (reason : BanReason) (until banned_at : Z)
    (persistent : bool) : PeerStore := {|
  ps_peers := ps_peers s;
  ps_ban_state := <[node_id := {| bn_until := until; bn_reason := reason; bn_banned_at := banned_at;
                                  bn_persistent := persistent |}]> (ps_ban_state s);
  ps_historical_bans := ps_historical_bans s |}.

Definition store_unban_peer (s : PeerStore) (node_id : NodeId) : PeerStore * option BanRecord :=
  match ps_ban_state s !! node_id with
  | Some r => ({| ps_peers := ps_peers s; ps_ban_state := delete node_id (ps_ban_state s);
                  ps_historical_bans := ps_historical_bans s ++ [(node_id, r)] |}, Some r)
  | None => (s, None)
  end.

Definition store_is_banned (s : PeerStore) (node_id : NodeId) : bool :=
  bool_decide (is_Some (ps_ban_state s !! node_id)).

Definition expire_bans (s : PeerStore) (now : Z) : PeerStore * list NodeId :=
  let expired := (filter (λ p, bn_until p.2 < now) (map_to_list (ps_ban_state s))).*1 in
  (foldl (λ s id, (store_unban_peer s id).1) s expired, expired).

Definition ingest_addr_entries (s : PeerStore) (entries : list AddrEntry) (now : Z) : PeerStore * Z :=
  foldl (λ '(s, added) e,
    if negb (is_dialable (ae_addr e)) then (s, added) else
    let '(s, fresh) := add_peer s (ae_node_id e) (ae_addr e) false now in
    (s, if fresh then added + 1 else added)) (s, 0) entries.

Definition store_entries (s : PeerStore) : list AddrEntry :=
  (λ p, {| ae_node_id := p.1; ae_addr := pr_addr p.2 |}) <$> map_to_list (ps_peers s).

Definition known_addr_entries (s : PeerStore) (max_count : nat) : list AddrEntry :=
  take max_count (merge_sort entry_le (store_entries s)).

(** ** The persisted document *)

(** [SocketAddr]'s [to_string] and [parse]. *)
Class AddrText := { addr_to_string : SocketAddr → string; addr_parse : string → option SocketAddr }.

Record PersistedPeer := {
  pp_node_id : string; pp_addr : string; pp_score : Q; pp_latency_ewma_ms : Z; pp_invalid_count : Z;
  pp_violation_count : Z; pp_uptime_seconds : Z; pp_observed_seconds : Z; pp_verified : bool;
  pp_last_seen_age_secs : Z
}.

Record PersistedBan := {
  pb_node_id : string; pb_ban_remaining_secs : Z; pb_banned_at_age_secs : Z; pb_reason : BanReason;
  pb_persistent : bool
}.

(** [a.saturating_duration_since(b).as_secs()]. *)
Definition secs_since (a b : Z) : Z := Z.max 0 (a - b) / NANOS.

Section Persist.
Context `{HX : Hex, AT : AddrText}.

Definition persisted_peer (r : PeerRecord) (now : Z) : PersistedPeer := {|
  pp_node_id := hex_encode (pr_node_id r); pp_addr := addr_to_string (pr_addr r); pp_score := pr_score r;
  pp_latency_ewma_ms := (pr_latency_ewma r / 1000000) mod two64; pp_invalid_count := pr_invalid_count r;
  pp_violation_count := pr_violation_count r; pp_uptime_seconds := pr_uptime_seconds r;
  pp_observed_seconds := pr_observed_seconds r; pp_verified := pr_verified r;
  pp_last_seen_age_secs := secs_since now (pr_last_seen r) |}.

(** [hex::decode(..).ok()?.try_into().ok()?]. *)
Definition parse_node_id (text : string) : option NodeId :=
  bs ← hex_decode text; if (length bs =? 32)%nat then Some bs else None.

(** [now.checked_sub(..).unwrap_or(now)]: the clock starts at 0. *)
Definition instant_back (now age_secs : Z) : Z :=
  if age_secs * NANOS <=? now then now - age_secs * NANOS else now.

Definition peer_into_record (p : PersistedPeer) (now : Z) : option PeerRecord :=
  id ← parse_node_id (pp_node_id p);
  addr ← addr_parse (pp_addr p);
  Some {| pr_node_id := id; pr_addr := addr; pr_last_seen := instant_back now (pp_last_seen_age_secs p);
          pr_score := pp_score p; pr_latency_ewma := pp_latency_ewma_ms p * 1000000;
          pr_invalid_count := pp_invalid_count p; pr_violation_count := pp_violation_count p;
          pr_uptime_seconds := pp_uptime_seconds p; pr_observed_seconds := pp_observed_seconds p;
          pr_uptime_anchor := now; pr_responsive_since_anchor := false; pr_verified := pp_verified p |}.

Definition persisted_ban (node_id : NodeId) (b : BanRecord) (now : Z) : PersistedBan := {|
  pb_node_id := hex_encode node_id; pb_ban_remaining_secs := secs_since (bn_until b) now;
  pb_banned_at_age_secs := secs_since now (bn_banned_at b); pb_reason := bn_reason b;
  pb_persistent := bn_persistent b |}.

Definition ban_into_record (p : PersistedBan) (now : Z) : option (NodeId * BanRecord) :=
  if pb_ban_remaining_secs p =? 0 then None else
  id ← parse_node_id (pb_node_id p);
  Some (id, {| bn_until := now + pb_ban_remaining_secs p * NANOS; bn_reason := pb_reason p;
               bn_banned_at := instant_back now (pb_banned_at_age_secs p); bn_persistent := pb_persistent p |}).

(** The [known_peers] and [banned_peers] arrays. *)
Record NetworkJson := { nj_known_peers : list PersistedPeer; nj_banned_peers : list PersistedBan }.

Definition load_from_network_json (s : PeerStore) (doc : NetworkJson) (now : Z) : PeerStore :=
  let s := foldl (λ s p, match peer_into_record p now with
                         | Some r => with_peers s (<[pr_node_id r := r]> (ps_peers s))
                         | None => s
                         end) s (nj_known_peers doc) in
  foldl (λ s p, match ban_into_record p now with
                | Some (id, b) => {| ps_peers := ps_peers s; ps_ban_state := <[id := b]> (ps_ban_state s);
                                     ps_historical_bans := ps_historical_bans s |}
                | None => s
                end) s (nj_banned_peers doc).

Definition save_to_network_json (s : PeerStore) (now : Z) : NetworkJson :=
  let bans ids := omap (λ id, (λ b, persisted_ban id b now) <$> ps_ban_state s !! id) ids in
  let extra := sort_leaves (filter (λ id, ps_peers s !! id = None) (map_to_list (ps_ban_state s)).*1) in
  {| nj_known_peers := omap (λ id, (λ r, persisted_peer r now) <$> ps_peers s !! id) (peer_ids_sorted s);
     nj_banned_peers := bans (peer_ids_sorted s) ++ bans extra |}.

End Persist.
