(* ===== verification/Manager.v ===== *)
(** * Connections and the peer manager (peer/pool.rs, peer/manager.rs)

    A connection holds its Noise transport and the write half of its socket, a class
    parameter.  The outbound and inbound session set-up run on the bytes the other
    side sends, as the handshake does. *)

From S2P Require Import Prelude Bytes Net Float RateLimiter Noise Serialize Gossip Peers.
From stdpp Require Import gmap sorting pretty.
Open Scope Z_scope.

(** The write half of a [tokio] socket: [try_write]. *)
Inductive WriteOutcome := Wrote (n : nat) | WouldBlock | WriteFailed.
Class Socket := { Sock : Type; try_write : Sock → list byte → WriteOutcome * Sock }.

Section Manager.
Context `{HX : Hex, B3 : Blake3, SN : Snow, ED : Ed25519, KD : Kdf, SO : Socket, AT : AddrText}.

(** ** Connections (peer/pool.rs) *)

Record Connection := {
  cn_node_id : NodeId;
  cn_peer_addr : SocketAddr;
  cn_capabilities : Z;
  cn_transport : NoiseTransport;
  cn_write : Sock;
  cn_read_half : option (list byte)
}.

Definition connection_new (transport : NoiseTransport) (write : Sock) (peer_addr : SocketAddr) (node_id : NodeId)
    (capabilities : Z) : Connection := {|
  cn_node_id := node_id; cn_peer_addr := peer_addr; cn_capabilities := capabilities;
  cn_transport := transport; cn_write := write; cn_read_half := None |}.

Definition set_connection (c : Connection) (transport : NoiseTransport) (write : Sock) (read : option (list byte))
    : Connection := {|
  cn_node_id := cn_node_id c; cn_peer_addr := cn_peer_addr c; cn_capabilities := cn_capabilities c;
  cn_transport := transport; cn_write := write; cn_read_half := read |}.

Definition park_read_half (c : Connection) (read : list byte) : Connection :=
  set_connection c (cn_transport c) (cn_write c) (Some read).
Definition take_read_half (c : Connection) : option (list byte) * Connection :=
  (cn_read_half c, set_connection c (cn_transport c) (cn_write c) None).

(** The [try_write] loop; every turn writes at least one byte. *)
Fixpoint write_frame (fuel : nat) (s : Sock) (frame : list byte) : result NetError unit * Sock :=
  match frame with
  | [] => (Ok tt, s)
  | _ =>
      match fuel with
      | O => (Panic, s)
      | S fuel =>
          let '(o, s) := try_write s frame in
          match o with
          | Wrote O => (Err (Transport "socket closed while writing frame"), s)
          | Wrote n => write_frame fuel s (drop n frame)
          | WouldBlock => (Err (Transport "socket backpressure (try_write WouldBlock)"), s)
          | WriteFailed => (Err (Transport ""), s)
          end
      end
  end.

Definition send_payload (c : Connection) (payload : list byte) : result NetError unit * Connection :=
  let '(r, transport) := encrypt_frame (cn_transport c) payload in
  match r with
  | Ok frame =>
      let '(r, write) := write_frame (length frame) (cn_write c) frame in
      (r, set_connection c transport write (cn_read_half c))
  | Err e => (Err e, set_connection c transport (cn_write c) (cn_read_half c))
  | Panic => (Panic, set_connection c transport (cn_write c) (cn_read_half c))
  end.

Record ConnectionPool := { cp_connections : gmap NodeId Connection; cp_max_per_ip_range : Z }.

Definition pool_new (max_per_ip_range : Z) : ConnectionPool :=
  {| cp_connections := ∅; cp_max_per_ip_range := max_per_ip_range |}.

Definition with_connections (p : ConnectionPool) (m : gmap NodeId Connection) : ConnectionPool :=
  {| cp_connections := m; cp_max_per_ip_range := cp_max_per_ip_range p |}.

Definition pool_len (p : ConnectionPool) : Z := Z.of_nat (size (cp_connections p)).

Definition ip_range_key (a : SocketAddr) : list byte :=
  match a with SockV4 o _ => take 3 o | SockV6 o _ _ _ => take 8 o end.

Definition count_by_ip_range (p : ConnectionPool) (a : SocketAddr) : Z :=
  lenZ (filter (λ c, ip_range_key (cn_peer_addr c.2) = ip_range_key a) (map_to_list (cp_connections p))).

Definition add_connection (p : ConnectionPool) (c : Connection) : result NetError ConnectionPool :=
  if bool_decide (is_Some (cp_connections p !! cn_node_id c))
  then Err (Peer ("peer " +:+ hex_encode (cn_node_id c) +:+ " is already connected")) else
  if cp_max_per_ip_range p <=? count_by_ip_range p (cn_peer_addr c)
  then Err (Peer "per-IP-range connection limit reached") else
  Ok (with_connections p (<[cn_node_id c := c]> (cp_connections p))).

Definition remove_connection (p : ConnectionPool) (id : NodeId) : ConnectionPool * option Connection :=
  (with_connections p (delete id (cp_connections p)), cp_connections p !! id).

Definition node_ids_sorted (p : ConnectionPool) : list NodeId := sort_leaves (map_to_list (cp_connections p)).*1.

(** ** The manager (peer/manager.rs) *)

Record PeerManagerConfig := {
  pc_scoring : ScoringConfig; pc_max_connections : Z; pc_max_per_ip_range : Z; pc_network_id : Z;
  pc_local_capabilities : Z; pc_network_json_path : bool
}.

Definition manager_config_default : PeerManagerConfig := {|
  pc_scoring := scoring_default; pc_max_connections := 50; pc_max_per_ip_range := 8; pc_network_id := 3;
  pc_local_capabilities := STAGE2_CAPABILITIES; pc_network_json_path := false |}.

Record PeerManager := {
  pm_store : PeerStore;
  pm_pool : ConnectionPool;
  pm_config : PeerManagerConfig;
  pm_identity : NodeKeypair;
  pm_local_height : Z;
  pm_saved : option NetworkJson
}.

Definition peer_manager_new (config : PeerManagerConfig) (identity : NodeKeypair) (file : option NetworkJson) (now : Z)
    : PeerManager := {|
  pm_store := match file with
              | Some doc => if pc_network_json_path config then load_from_network_json store_new doc now else store_new
              | None => store_new
              end;
  pm_pool := pool_new (pc_max_per_ip_range config); pm_config := config; pm_identity := identity;
  pm_local_height := 0; pm_saved := file |}.

Definition with_store (m : PeerManager) (s : PeerStore) : PeerManager := {|
  pm_store := s; pm_pool := pm_pool m; pm_config := pm_config m; pm_identity := pm_identity m;
  pm_local_height := pm_local_height m; pm_saved := pm_saved m |}.
Definition with_pool (m : PeerManager) (p : ConnectionPool) : PeerManager := {|
  pm_store := pm_store m; pm_pool := p; pm_config := pm_config m; pm_identity := pm_identity m;
  pm_local_height := pm_local_height m; pm_saved := pm_saved m |}.
Definition with_identity (m : PeerManager) (k : NodeKeypair) : PeerManager := {|
  pm_store := pm_store m; pm_pool := pm_pool m; pm_config := pm_config m; pm_identity := k;
  pm_local_height := pm_local_height m; pm_saved := pm_saved m |}.
Definition set_local_height (m : PeerManager) (height : Z) : PeerManager := {|
  pm_store := pm_store m; pm_pool := pm_pool m; pm_config := pm_config m; pm_identity := pm_identity m;
  pm_local_height := height; pm_saved := pm_saved m |}.

(** A failing write is only logged. *)
Definition persist (m : PeerManager) (now : Z) : PeerManager :=
  if pc_network_json_path (pm_config m) then
    {| pm_store := pm_store m; pm_pool := pm_pool m; pm_config := pm_config m; pm_identity := pm_identity m;
       pm_local_height := pm_local_height m; pm_saved := Some (save_to_network_json (pm_store m) now) |}
  else m.

Definition local_node_id (m : PeerManager) : NodeId := node_id (pm_identity m).
Definition manager_is_banned (m : PeerManager) (id : NodeId) : bool := store_is_banned (pm_store m) id.

Definition learn_addrs (m : PeerManager) (entries : list AddrEntry) (now : Z) : PeerManager * Z :=
  let '(s, added) := ingest_addr_entries (pm_store m) entries now in (with_store m s, added).

Definition dial_candidates (m : PeerManager) (max_count : nat) : list AddrEntry :=
  known_addr_entries (pm_store m) max_count.

Definition check_admission (m : PeerManager) (addr : SocketAddr) : result NetError unit :=
  if pc_max_connections (pm_config m) <=? pool_len (pm_pool m)
  then Err (Peer ("max_connections " +:+ pretty (pc_max_connections (pm_config m)) +:+ " reached")) else
  if pc_max_per_ip_range (pm_config m) <=? count_by_ip_range (pm_pool m) addr
  then Err (Peer "per-IP-range connection limit reached") else Ok tt.

Definition banned_error (id : NodeId) : NetError := Peer ("peer " +:+ hex_encode id +:+ " is banned").

Definition register_connection (m : PeerManager) (c : Connection) (now : Z) : result NetError NodeId * PeerManager :=
  if bool_decide (cn_node_id c = local_node_id m) then (Err (Peer "refusing to register self"), m) else
  if manager_is_banned m (cn_node_id c) then (Err (banned_error (cn_node_id c)), m) else
  if pc_max_connections (pm_config m) <=? pool_len (pm_pool m)
  then (Err (Peer ("max_connections " +:+ pretty (pc_max_connections (pm_config m)) +:+ " reached")), m) else
  match add_connection (pm_pool m) c with
  | Ok p =>
      (Ok (cn_node_id c),
       with_store (with_pool m p) (add_peer (pm_store m) (cn_node_id c) (cn_peer_addr c) true now).1)
  | Err e => (Err e, m)
  | Panic => (Panic, m)
  end.

Definition disconnect_peer (m : PeerManager) (id : NodeId) : PeerManager * bool :=
  let '(p, c) := remove_connection (pm_pool m) id in (with_pool m p, bool_decide (is_Some c)).

Definition manager_send_to_peer (m : PeerManager) (id : NodeId) (payload : list byte)
    : result NetError unit * PeerManager :=
  match cp_connections (pm_pool m) !! id with
  | Some c =>
      let '(r, c) := send_payload c payload in
      (r, with_pool m (with_connections (pm_pool m) (<[id := c]> (cp_connections (pm_pool m)))))
  | None => (Err (Peer ("peer " +:+ hex_encode id +:+ " not connected")), m)
  end.

Definition broadcast_message (m : PeerManager) (payload : list byte) : PeerManager * Z :=
  foldl (λ '(m, sent) id,
    if manager_is_banned m id then (m, sent) else
    match cp_connections (pm_pool m) !! id with
    | None => (m, sent)
    | Some _ => let '(r, m) := manager_send_to_peer m id payload in (m, if is_ok r then sent + 1 else sent)
    end) (m, 0) (node_ids_sorted (pm_pool m)).

(** The manager is the peer link of gossip and of the address broadcast. *)
Definition manager_link : PeerLink PeerManager := {|
  connected_peers m := node_ids_sorted (pm_pool m);
  is_banned := manager_is_banned;
  send_to_peer := manager_send_to_peer
|}.
Definition manager_addr_sender : AddrSender PeerManager := manager_send_to_peer.

(** *** Events, scores and bans *)

Record DecisionOutcome := { do_banned : bool; do_needs_save : bool }.
Definition outcome (banned needs_save : bool) : DecisionOutcome :=
  {| do_banned := banned; do_needs_save := needs_save |}.

Inductive Counter := CtInvalid | CtViolation.

Definition apply_decision (s : PeerStore) (id : NodeId) (reason : BanReason) (d : BanDecision) (now : Z)
    : PeerStore * DecisionOutcome :=
  match d with
  | NoAction | Warn => (s, outcome false false)
  | TempBan until => (store_ban_peer s id reason until now false, outcome true false)
  | PersistentBan until => (store_ban_peer s id reason until now true, outcome true true)
  end.

Definition finish_decision (m : PeerManager) (id : NodeId) (o : DecisionOutcome) (now : Z) : PeerManager :=
  let m := if do_banned o then (disconnect_peer m id).1 else m in
  if do_needs_save o then persist m now else m.

Definition bump (r : PeerRecord) (counter : Counter) : PeerRecord :=
  set_record r (pr_last_seen r) (pr_score r) (pr_latency_ewma r)
    (match counter with CtInvalid => wrap32 (pr_invalid_count r + 1) | CtViolation => pr_invalid_count r end)
    (match counter with CtInvalid => pr_violation_count r | CtViolation => wrap32 (pr_violation_count r + 1) end)
    (pr_uptime_seconds r) (pr_observed_seconds r) (pr_uptime_anchor r) (pr_responsive_since_anchor r).

Definition put_record (s : PeerStore) (id : NodeId) (r : PeerRecord) : PeerStore :=
  with_peers s (<[id := r]> (ps_peers s)).

Definition record_event (m : PeerManager) (id : NodeId) (reason : BanReason) (counter : Counter) (now : Z)
    : PeerManager :=
  match ps_peers (pm_store m) !! id with
  | None => m
  | Some r =>
      let '(r, d) := update_score (note_message (bump r counter) now) (pc_scoring (pm_config m)) now in
      let '(s, o) := apply_decision (put_record (pm_store m) id r) id reason d now in
      finish_decision (with_store m s) id o now
  end.

Definition record_invalid_block (m : PeerManager) (id : NodeId) (now : Z) : PeerManager :=
  record_event m id InvalidBlocks CtInvalid now.
Definition record_protocol_violation (m : PeerManager) (id : NodeId) (now : Z) : PeerManager :=
  record_event m id ProtocolViolation CtViolation now.
Definition record_rate_violation (m : PeerManager) (id : NodeId) (now : Z) : PeerManager :=
  record_event m id RateLimited CtViolation now.

Definition ban_peer (m : PeerManager) (id : NodeId) (reason : BanReason) (until : Z) (persistent : bool) (now : Z)
    : PeerManager :=
  let m := with_store m (store_ban_peer (pm_store m) id reason until now persistent) in
  let m := (disconnect_peer m id).1 in
  if persistent then persist m now else m.

Definition unban_peer (m : PeerManager) (id : NodeId) (now : Z) : PeerManager * bool :=
  let '(s, r) := store_unban_peer (pm_store m) id in
  let m := with_store m s in
  (if bool_decide (is_Some r) then persist m now else m, bool_decide (is_Some r)).

Definition apply_rate_verdict (m : PeerManager) (id : NodeId) (verdict : Verdict) (ban_duration now : Z) : PeerManager :=
  match verdict with
  | Err e =>
      let m := record_rate_violation m id now in
      match e with
      | Ban => ban_peer m id RateLimited (now + ban_duration) true now
      | Exceeded => m
      end
  | _ => m
  end.

Definition record_latency (m : PeerManager) (id : NodeId) (sample now : Z) : PeerManager :=
  match ps_peers (pm_store m) !! id with
  | None => m
  | Some r =>
      let '(r, d) := update_score (note_message (record_latency_sample r sample) now) (pc_scoring (pm_config m)) now in
      let '(s, o) := apply_decision (put_record (pm_store m) id r) id (dominant_reason r (pc_scoring (pm_config m))) d now in
      finish_decision (with_store m s) id o now
  end.

Record TickReport := { tr_expired_bans : Z; tr_newly_banned : Z; tr_warned : Z }.

(** What the loop of [tick_at] carries: the store, the report, the peers to drop and
    whether to write the file. *)
Record TickState := { tk_store : PeerStore; tk_report : TickReport; tk_disconnect : list NodeId; tk_needs_save : bool }.

Definition tick_peer (c : ScoringConfig) (now : Z) (expired : list NodeId) (t : TickState) (id : NodeId) : TickState :=
  let banned_now := store_is_banned (tk_store t) id in
  match ps_peers (tk_store t) !! id with
  | None => t
  | Some r =>
      let r := accrue_uptime r now in
      let at_ s := {| tk_store := s; tk_report := tk_report t; tk_disconnect := tk_disconnect t; tk_needs_save := tk_needs_save t |} in
      if banned_now || bool_decide (id ∈ expired) then at_ (put_record (tk_store t) id r) else
      let '(r, d) := update_score r c now in
      let s := put_record (tk_store t) id r in
      match d with
      | NoAction => at_ s
      | _ =>
          let '(s, o) := apply_decision s id (dominant_reason r c) d now in
          let rep := tk_report t in
          match d with
          | Warn => {| tk_store := s;
                       tk_report := {| tr_expired_bans := tr_expired_bans rep; tr_newly_banned := tr_newly_banned rep;
                                       tr_warned := tr_warned rep + 1 |};
                       tk_disconnect := tk_disconnect t; tk_needs_save := tk_needs_save t || do_needs_save o |}
          | _ => {| tk_store := s;
                    tk_report := {| tr_expired_bans := tr_expired_bans rep; tr_newly_banned := tr_newly_banned rep + 1;
                                    tr_warned := tr_warned rep |};
                    tk_disconnect := tk_disconnect t ++ [id]; tk_needs_save := tk_needs_save t || do_needs_save o |}
          end
      end
  end.

Definition tick_at (m : PeerManager) (now : Z) : PeerManager * TickReport :=
  let '(s, expired) := expire_bans (pm_store m) now in
  let t0 := {| tk_store := s;
               tk_report := {| tr_expired_bans := lenZ expired; tr_newly_banned := 0; tr_warned := 0 |};
               tk_disconnect := []; tk_needs_save := negb (bool_decide (expired = [])) |} in
  let t := foldl (tick_peer (pc_scoring (pm_config m)) now expired) t0 (peer_ids_sorted s) in
  let m := foldl (λ m id, (disconnect_peer m id).1) (with_store m (tk_store t)) (tk_disconnect t) in
  (if tk_needs_save t then persist m now else m, tk_report t).

(** *** Session set-up *)

(** HELLO as this node sends it. *)
Definition local_hello (m : PeerManager) : Hello :=
  hello_new (pc_network_id (pm_config m)) (pc_local_capabilities (pm_config m)) (pm_local_height m).

(** The outbound flow up to the registration, on the bytes [stream] the peer sends:
    the bytes written, the connection with its read half parked. *)
Definition dial_session (m : PeerManager) (h : NoiseHandshake) (addr : SocketAddr) (stream : list byte) (sock : Sock)
    : result NetError (list byte * Connection) :=
  '(out, h, stream) ← drive_initiator_handshake h stream;
  '(transport, peer) ← into_transport h;
  if manager_is_banned m peer then Err (banned_error peer) else
  check_admission m addr;;
  let '(r, transport) := write_hello transport (local_hello m) in
  hello_out ← r;
  let '(r, transport) := read_hello_frame transport stream (pc_network_id (pm_config m)) in
  '(peer_hello, stream) ← r;
  let capabilities := negotiate_capabilities (pc_local_capabilities (pm_config m)) (hl_capabilities peer_hello) in
  Ok (out ++ hello_out, park_read_half (connection_new transport sock addr peer capabilities) stream).

Definition connect_to_peer (m : PeerManager) (addr : SocketAddr) (expected : option NodeId) (stream : list byte)
    (sock : Sock) (now : Z) : result NetError (list byte * NodeId) * PeerManager :=
  if bool_decide (expected = Some (local_node_id m)) then (Err (Peer "refusing to dial self"), m) else
  if from_option (manager_is_banned m) false expected
  then (Err (banned_error (default [] expected)), m) else
  match check_admission m addr with
  | Ok _ =>
      let '(r, keys) := handshake_build (noise_static_private_key (pm_identity m)) (pm_identity m) expected Initiator in
      let m := with_identity m keys in
      match h ← map_err from_noise r; dial_session m h addr stream sock with
      | Ok (out, c) =>
          let '(r, m) := register_connection m c now in
          (id ← r; Ok (out, id), m)
      | Err e => (Err e, m)
      | Panic => (Panic, m)
      end
  | Err e => (Err e, m)
  | Panic => (Panic, m)
  end.

(** The inbound flow: a peer whose HELLO is refused gets an unverified record and a
    protocol violation. *)
Definition accept_inbound (m : PeerManager) (peer_addr : SocketAddr) (stream : list byte) (sock : Sock) (now : Z)
    : result NetError (list byte * Connection) * PeerManager :=
  match check_admission m peer_addr with
  | Ok _ =>
      let '(r, keys) := handshake_build (noise_static_private_key (pm_identity m)) (pm_identity m) None Responder in
      let m := with_identity m keys in
      match
        h ← map_err from_noise r;
        '(out, h, stream) ← drive_responder_handshake h stream;
        '(transport, peer) ← into_transport h;
        if manager_is_banned m peer then Err (banned_error peer) else
        check_admission m peer_addr;;
        Ok (out, transport, peer, stream)
      with
      | Ok (out, transport, peer, stream) =>
          let '(r, transport) := read_hello_frame transport stream (pc_network_id (pm_config m)) in
          match r with
          | Ok (peer_hello, stream) =>
              let capabilities := negotiate_capabilities (pc_local_capabilities (pm_config m)) (hl_capabilities peer_hello) in
              let '(r, transport) := write_hello transport (local_hello m) in
              match r with
              | Ok hello_out =>
                  let c := park_read_half (connection_new transport sock peer_addr peer capabilities) stream in
                  let '(r, m) := register_connection m c now in
                  (r;; Ok (out ++ hello_out, c), m)
              | Err e => (Err e, m)
              | Panic => (Panic, m)
              end
          | Err e =>
              let m := with_store m (add_peer (pm_store m) peer peer_addr false now).1 in
              (Err e, record_protocol_violation m peer now)
          | Panic => (Panic, m)
          end
      | Err e => (Err e, m)
      | Panic => (Panic, m)
      end
  | Err e => (Err e, m)
  | Panic => (Panic, m)
  end.

End Manager.
