(* ===== verification/ManagerProps.v ===== *)
(** * Properties of peer management

    The invariant of the manager under every operation, what scoring can and cannot
    do to a peer, how bans expire, and the round trip of the persisted document. *)

From S2P Require Import Prelude Bytes Net Float RateLimiter Noise Serialize SerializeProps Gossip Peers Manager.
From Stdlib Require Import QArith Lqa.
From stdpp Require Import gmap sorting.
Open Scope Z_scope.

(** ** Records *)

Create HintDb peers.

Record record_ok (id : NodeId) (r : PeerRecord) : Prop := {
  rk_id : pr_node_id r = id;
  rk_score : (0 <= pr_score r <= 1)%Q;
  rk_latency : 0 ≤ pr_latency_ewma r;
  rk_invalid : 0 ≤ pr_invalid_count r < two32;
  rk_violations : 0 ≤ pr_violation_count r < two32;
  rk_uptime : 0 ≤ pr_uptime_seconds r ≤ pr_observed_seconds r;
  rk_observed : pr_observed_seconds r < two64
}.

Lemma wrap32_range z : 0 ≤ wrap32 z < two32.
Proof. by apply Z.mod_pos_bound. Qed.

Lemma new_record_ok id addr v now : record_ok id (new_record id addr v now).
Proof. split; cbn; try lia; [done|unfold INITIAL_PEER_SCORE; lra]. Qed.

Lemma refresh_record_ok id r addr v now : record_ok id r → record_ok id (refresh_record r addr v now).
Proof. by intros []; split. Qed.

Lemma note_message_ok id r now : record_ok id r → record_ok id (note_message r now).
Proof. by intros []; split. Qed.

Lemma bump_ok id r c : record_ok id r → record_ok id (bump r c).
Proof. intros []. split; cbn; try done; destruct c; try done; apply wrap32_range. Qed.

Lemma set_score_ok id r c : record_ok id r → record_ok id (set_score r (compute_score r c)).
Proof. intros []. split; cbn; try done. apply clamp01_range. Qed.

Lemma latency_sample_ok id r d : record_ok id r → record_ok id (record_latency_sample r d).
Proof.
  intros []. split; cbn; try done. apply from_secs_bounds. unfold fmax.
  destruct (Qle_bool _ 0) eqn:E; [lra|]. apply not_true_iff_false in E. rewrite Qle_bool_iff in E. lra.
Qed.

Lemma accrue_ok id r now : record_ok id r → record_ok id (accrue_uptime r now).
Proof.
  intros Hr. pose proof Hr as []. unfold accrue_uptime. cbv zeta.
  assert (0 ≤ Z.max 0 (now - pr_uptime_anchor r) / NANOS) by (apply Z.div_pos; [lia|done]).
  set (e := Z.max 0 (now - pr_uptime_anchor r) / NANOS) in *.
  destruct (e =? 0); [done|]. split; cbn; try done; unfold sat64; destruct (pr_responsive_since_anchor r); lia.
Qed.

#[export] Hint Resolve new_record_ok refresh_record_ok note_message_ok bump_ok set_score_ok latency_sample_ok accrue_ok : peers.

(** ** The invariant *)

Definition store_ok (s : PeerStore) : Prop := map_Forall record_ok (ps_peers s).

(** A known peer keeps its record. *)
Definition known_extends (s s' : PeerStore) : Prop := ∀ id, is_Some (ps_peers s !! id) → is_Some (ps_peers s' !! id).

Lemma known_put s id r : known_extends s (put_record s id r).
Proof. intros i Hi. cbn. destruct (decide (i = id)) as [-> |]; [by rewrite lookup_insert_eq|by rewrite lookup_insert_ne]. Qed.

Lemma put_record_ok s id r : store_ok s → record_ok id r → store_ok (put_record s id r).
Proof. intros. by apply map_Forall_insert_2. Qed.

Lemma add_peer_ok s id addr v now :
  store_ok s → let s' := (add_peer s id addr v now).1 in
  store_ok s' ∧ ps_ban_state s' = ps_ban_state s ∧ known_extends s s' ∧ is_Some (ps_peers s' !! id).
Proof.
  intros Hs. unfold add_peer. destruct (ps_peers s !! id) as [r|] eqn:E; cbn.
  - split_and!; [|done|apply (known_put s)|by rewrite lookup_insert_eq].
    apply put_record_ok; [done|]. apply refresh_record_ok, (Hs _ _ E).
  - split_and!; [|done|apply (known_put s)|by rewrite lookup_insert_eq].
    apply put_record_ok; auto with peers.
Qed.

Section Manager.
Context `{HX : Hex, B3 : Blake3, SN : Snow, ED : Ed25519, KD : Kdf, SO : Socket, AT : AddrText}.

Record pool_ok (m : PeerManager) : Prop := {
  pk_id : ∀ id c, cp_connections (pm_pool m) !! id = Some c → cn_node_id c = id;
  pk_self : ∀ id, is_Some (cp_connections (pm_pool m) !! id) → id ≠ local_node_id m;
  pk_banned : ∀ id, is_Some (cp_connections (pm_pool m) !! id) → manager_is_banned m id = false;
  pk_known : ∀ id, is_Some (cp_connections (pm_pool m) !! id) → is_Some (ps_peers (pm_store m) !! id);
  pk_len : pool_len (pm_pool m) ≤ Z.max 0 (pc_max_connections (pm_config m));
  pk_range : ∀ a, count_by_ip_range (pm_pool m) a ≤ Z.max 0 (pc_max_per_ip_range (pm_config m));
  pk_limit : cp_max_per_ip_range (pm_pool m) = pc_max_per_ip_range (pm_config m)
}.

Definition manager_ok (m : PeerManager) : Prop := store_ok (pm_store m) ∧ pool_ok m.

(** *** Pools *)

Lemma count_insert (conns : gmap NodeId Connection) mx id c a :
  conns !! id = None →
  count_by_ip_range {| cp_connections := <[id := c]> conns; cp_max_per_ip_range := mx |} a
  = count_by_ip_range {| cp_connections := conns; cp_max_per_ip_range := mx |} a
    + (if decide (ip_range_key (cn_peer_addr c) = ip_range_key a) then 1 else 0).
Proof.
  intros Hn. unfold count_by_ip_range, lenZ. cbn.
  rewrite (Permutation_length (filter_Permutation _ _ _ (map_to_list_insert conns id c Hn))).
  rewrite filter_cons. cbn. destruct (decide (ip_range_key (cn_peer_addr c) = ip_range_key a)); cbn [length]; lia.
Qed.

Lemma count_delete (conns : gmap NodeId Connection) mx mx' id a :
  count_by_ip_range {| cp_connections := delete id conns; cp_max_per_ip_range := mx |} a
  ≤ count_by_ip_range {| cp_connections := conns; cp_max_per_ip_range := mx' |} a.
Proof.
  destruct (conns !! id) as [c|] eqn:E.
  - pose proof (count_insert (delete id conns) mx id c a (lookup_delete_eq _ _)) as H. rewrite insert_delete_id in H by done.
    unfold count_by_ip_range in *. cbn in *. destruct (decide _); lia.
  - rewrite delete_id by done. unfold count_by_ip_range. cbn. lia.
Qed.

(** The same session, its transport and socket moved on. *)
Lemma count_replace (conns : gmap NodeId Connection) mx id c c' a :
  conns !! id = Some c → cn_peer_addr c' = cn_peer_addr c →
  count_by_ip_range {| cp_connections := <[id := c']> conns; cp_max_per_ip_range := mx |} a
  = count_by_ip_range {| cp_connections := conns; cp_max_per_ip_range := mx |} a.
Proof.
  intros E Ea. rewrite <- (insert_delete_id conns id c E) at 2. rewrite <- insert_delete_eq.
  rewrite !count_insert by apply lookup_delete_eq. by rewrite Ea.
Qed.

(** *** Dropping sessions *)

Definition drop_all (m : PeerManager) (ids : list NodeId) : PeerManager :=
  foldl (λ m id, (disconnect_peer m id).1) m ids.

(** What dropping sessions leaves. *)
Lemma drop_all_spec ids : ∀ m,
  let m' := drop_all m ids in
  pm_store m' = pm_store m ∧ pm_config m' = pm_config m ∧ pm_identity m' = pm_identity m
  ∧ cp_max_per_ip_range (pm_pool m') = cp_max_per_ip_range (pm_pool m)
  ∧ pool_len (pm_pool m') ≤ pool_len (pm_pool m)
  ∧ (∀ a, count_by_ip_range (pm_pool m') a ≤ count_by_ip_range (pm_pool m) a)
  ∧ (∀ i c, cp_connections (pm_pool m') !! i = Some c → (i ∉ ids) ∧ cp_connections (pm_pool m) !! i = Some c).
Proof.
  induction ids as [|id ids IH]; intros m; cbn [drop_all foldl].
  - split_and!; try done. intros i c Hc. split; [apply not_elem_of_nil|done].
  - specialize (IH (disconnect_peer m id).1). fold (drop_all (disconnect_peer m id).1 ids).
    destruct IH as (E1 & E2 & E3 & E4 & E5 & E6 & E7). rewrite E1, E2, E3, E4. cbn in *. split_and!; try done.
    + etrans; [exact E5|]. unfold pool_len. cbn. rewrite map_size_delete. destruct (_ !! id); unfold Datatypes.id; lia.
    + intros a. etrans; [apply E6|]. destruct (pm_pool m). apply count_delete.
    + intros i c [Hi Hc]%E7. apply lookup_delete_Some in Hc as [Hne Hc]. split; [|done].
      apply not_elem_of_cons. auto.
Qed.

(** A change of the store followed by the drop of the sessions it banned. *)
Lemma manager_ok_drop m s ids :
  manager_ok m → store_ok s → known_extends (pm_store m) s →
  (∀ i, i ∉ ids → store_is_banned (pm_store m) i = false → store_is_banned s i = false) →
  manager_ok (drop_all (with_store m s) ids).
Proof.
  intros [_ [H1 H2 H3 H4 H5 H6 H7]] Hs Hk Hb.
  destruct (drop_all_spec ids (with_store m s)) as (E1 & E2 & E3 & E4 & E5 & E6 & E7). cbn in *.
  set (m' := drop_all _ _) in *. clearbody m'. unfold manager_ok. rewrite E1. split; [done|].
  assert (∀ i, is_Some (cp_connections (pm_pool m') !! i) → (i ∉ ids) ∧ is_Some (cp_connections (pm_pool m) !! i)) as E8
    by (intros i [c Hc]; apply E7 in Hc as [? ?]; eauto).
  split; unfold local_node_id, manager_is_banned in *; rewrite ?E1, ?E2, ?E3, ?E4.
  - intros id c [_ Hc]%E7. by apply H1.
  - intros id [_ Hc]%E8. by apply H2.
  - intros id [Hi Hc]%E8. apply Hb; [done|]. by apply H3.
  - intros id [_ Hc]%E8. by apply Hk, H4.
  - lia.
  - intros a. etrans; [apply E6|]. apply H6.
  - done.
Qed.

Lemma manager_ok_store m s :
  manager_ok m → store_ok s → known_extends (pm_store m) s →
  (∀ i, store_is_banned (pm_store m) i = false → store_is_banned s i = false) → manager_ok (with_store m s).
Proof. intros. by apply (manager_ok_drop m s []); auto. Qed.

Lemma persist_ok m now : manager_ok m → manager_ok (persist m now).
Proof. unfold persist. destruct (pc_network_json_path (pm_config m)); [|done]. by intros [? []]; split. Qed.

Lemma disconnect_ok m id : manager_ok m → manager_ok (disconnect_peer m id).1.
Proof.
  intros Hm. assert (manager_ok (drop_all (with_store m (pm_store m)) [id])) as H.
  { apply manager_ok_drop; auto; [apply Hm|by intros i]. }
  cbn in H. by destruct m.
Qed.

Lemma is_banned_insert s id reason until at_ p i :
  i ≠ id → store_is_banned (store_ban_peer s id reason until at_ p) i = store_is_banned s i.
Proof. intros Hne. unfold store_is_banned. cbn. by rewrite lookup_insert_ne. Qed.

(** The ends of [record_event] and [record_latency]. *)
Lemma decision_ok m id r reason d now :
  manager_ok m → record_ok id r →
  let '(s, o) := apply_decision (put_record (pm_store m) id r) id reason d now in
  manager_ok (finish_decision (with_store m s) id o now).
Proof.
  intros Hm Hr. set (s0 := put_record (pm_store m) id r).
  assert (store_ok s0) as Hs0 by (apply put_record_ok; [apply Hm|done]).
  assert (known_extends (pm_store m) s0) as Hk by apply known_put.
  assert (∀ reason until at_ p, manager_ok (disconnect_peer (with_store m (store_ban_peer s0 id reason until at_ p)) id).1) as Hban.
  { intros. change (manager_ok (drop_all (with_store m (store_ban_peer s0 id reason0 until at_ p)) [id])).
    apply manager_ok_drop; try done. intros i Hi. rewrite is_banned_insert; [done|]. by rewrite list_elem_of_singleton in Hi. }
  destruct d; cbn; unfold finish_decision; cbn [do_banned do_needs_save outcome].
  - by apply manager_ok_store.
  - by apply manager_ok_store.
  - apply Hban.
  - apply persist_ok, Hban.
Qed.

Lemma record_event_ok m id reason c now : manager_ok m → manager_ok (record_event m id reason c now).
Proof.
  intros Hm. unfold record_event. destruct (ps_peers (pm_store m) !! id) as [r|] eqn:E; [|done].
  cbn [update_score]. pose proof (proj1 Hm _ _ E) as Hr.
  pose proof (decision_ok m id _ reason (decide_ban (compute_score (note_message (bump r c) now) (pc_scoring (pm_config m)))
    (pc_scoring (pm_config m)) now) now Hm (set_score_ok id _ (pc_scoring (pm_config m)) (note_message_ok _ _ now (bump_ok id r c Hr)))) as H.
  by destruct (apply_decision _ _ _ _ _).
Qed.

Lemma record_latency_ok m id sample now : manager_ok m → manager_ok (record_latency m id sample now).
Proof.
  intros Hm. unfold record_latency. destruct (ps_peers (pm_store m) !! id) as [r|] eqn:E; [|done].
  cbn [update_score]. pose proof (proj1 Hm _ _ E) as Hr.
  set (r1 := note_message (record_latency_sample r sample) now).
  pose proof (decision_ok m id _ (dominant_reason (set_score r1 (compute_score r1 (pc_scoring (pm_config m)))) (pc_scoring (pm_config m)))
    (decide_ban (compute_score r1 (pc_scoring (pm_config m))) (pc_scoring (pm_config m)) now) now Hm
    (set_score_ok id r1 (pc_scoring (pm_config m)) (note_message_ok _ _ now (latency_sample_ok id r sample Hr)))) as H.
  by destruct (apply_decision _ _ _ _ _).
Qed.

Lemma ban_peer_ok m id reason until p now : manager_ok m → manager_ok (ban_peer m id reason until p now).
Proof.
  intros Hm. unfold ban_peer.
  assert (manager_ok (drop_all (with_store m (store_ban_peer (pm_store m) id reason until now p)) [id])) as H.
  { apply manager_ok_drop; [done|apply Hm|by intros i|]. intros i Hi. rewrite is_banned_insert; [done|].
    by rewrite list_elem_of_singleton in Hi. }
  destruct p; [by apply persist_ok|done].
Qed.

Lemma store_unban_spec s id :
  let '(s', r) := store_unban_peer s id in
  ps_peers s' = ps_peers s ∧ r = ps_ban_state s !! id ∧ ps_ban_state s' = delete id (ps_ban_state s).
Proof.
  unfold store_unban_peer. destruct (ps_ban_state s !! id) eqn:E; cbn; [done|]. by rewrite delete_id.
Qed.

Lemma store_unban_banned s id i : store_is_banned s i = false → store_is_banned (store_unban_peer s id).1 i = false.
Proof.
  pose proof (store_unban_spec s id) as H. destruct (store_unban_peer s id) as [s' r]. destruct H as (_ & _ & E).
  unfold store_is_banned. cbn. rewrite E. intros Hb%bool_decide_eq_false. apply bool_decide_eq_false. intros [b Hl].
  apply Hb. apply lookup_delete_Some in Hl as [_ Hl]. eauto.
Qed.

Lemma unban_peer_ok m id now : manager_ok m → manager_ok (unban_peer m id now).1.
Proof.
  intros Hm. unfold unban_peer. pose proof (store_unban_spec (pm_store m) id) as Hs.
  pose proof (store_unban_banned (pm_store m) id) as Hb. destruct (store_unban_peer (pm_store m) id) as [s r]. destruct Hs as (Ep & _ & _).
  assert (manager_ok (with_store m s)) as H.
  { apply manager_ok_store; [done|unfold store_ok; rewrite Ep; apply Hm|by intros i; rewrite Ep|done]. }
  cbn. destruct (bool_decide _); [by apply persist_ok|done].
Qed.

Lemma apply_rate_verdict_ok m id v d now : manager_ok m → manager_ok (apply_rate_verdict m id v d now).
Proof.
  intros Hm. pose proof (record_event_ok m id RateLimited CtViolation now Hm) as H.
  destruct v as [|[]|]; cbn [apply_rate_verdict]; [done|exact H|by apply ban_peer_ok|done].
Qed.

(** *** New sessions *)

Lemma register_ok m c now : manager_ok m → manager_ok (register_connection m c now).2.
Proof.
  intros Hm. unfold register_connection. destruct (bool_decide_reflect (cn_node_id c = local_node_id m)) as [|Hself]; [done|].
  destruct (manager_is_banned m (cn_node_id c)) eqn:Eb; [done|].
  destruct (Z.leb_spec (pc_max_connections (pm_config m)) (pool_len (pm_pool m))) as [|Hlen]; [done|].
  unfold add_connection. destruct (bool_decide_reflect (is_Some (cp_connections (pm_pool m) !! cn_node_id c))) as [|Hnew]; [done|].
  rewrite <- eq_None_not_Some in Hnew.
  destruct (Z.leb_spec (cp_max_per_ip_range (pm_pool m)) (count_by_ip_range (pm_pool m) (cn_peer_addr c))) as [|Hrange]; [done|].
  destruct Hm as [Hs [H1 H2 H3 H4 H5 H6 H7]].
  destruct (add_peer_ok (pm_store m) (cn_node_id c) (cn_peer_addr c) true now Hs) as (Hs' & Eban & Hk & Hin).
  set (s' := (add_peer _ _ _ _ _).1) in *. cbn [snd]. split; [done|].
  assert (∀ i, is_Some (<[cn_node_id c := c]> (cp_connections (pm_pool m)) !! i) →
    i = cn_node_id c ∨ is_Some (cp_connections (pm_pool m) !! i)) as Hi.
  { intros i. destruct (decide (i = cn_node_id c)) as [-> |]; [auto|]. rewrite lookup_insert_ne by done. auto. }
  split; cbn.
  - intros i c' [[<- <-]|[_ Hc]]%lookup_insert_Some; [done|]. by apply H1.
  - intros i [-> |Hc]%Hi; [done|by apply H2].
  - unfold manager_is_banned, store_is_banned in *. cbn. rewrite Eban. intros i [-> |Hc]%Hi; [done|by apply H3].
  - intros i [-> |Hc]%Hi; [done|by apply Hk, H4].
  - unfold pool_len in *. cbn. rewrite map_size_insert_None by done. lia.
  - intros a. unfold with_connections. rewrite count_insert by done.
    change {| cp_connections := cp_connections (pm_pool m); cp_max_per_ip_range := cp_max_per_ip_range (pm_pool m) |}
      with (with_connections (pm_pool m) (cp_connections (pm_pool m))).
    replace (with_connections (pm_pool m) (cp_connections (pm_pool m))) with (pm_pool m) by by destruct (pm_pool m).
    specialize (H6 a). destruct (decide _) as [Ek|]; [|lia].
    assert (count_by_ip_range (pm_pool m) (cn_peer_addr c) = count_by_ip_range (pm_pool m) a) as Ec
      by (unfold count_by_ip_range; f_equal; apply list_filter_iff; intros x; by rewrite Ek).
    lia.
  - done.
Qed.

Lemma send_payload_same c p : let c' := (send_payload c p).2 in
  cn_node_id c' = cn_node_id c ∧ cn_peer_addr c' = cn_peer_addr c.
Proof.
  unfold send_payload. destruct (encrypt_frame _ _) as [[f|e|] t]; [|done..]. by destruct (write_frame _ _ _).
Qed.

Lemma send_ok m id p : manager_ok m → manager_ok (manager_send_to_peer m id p).2.
Proof.
  intros [Hs [H1 H2 H3 H4 H5 H6 H7]]. unfold manager_send_to_peer.
  destruct (cp_connections (pm_pool m) !! id) as [c|] eqn:E; [|done].
  pose proof (send_payload_same c p) as Hc. destruct (send_payload c p) as [r c']. destruct Hc as [E1 E2]. cbn [snd] in *.
  assert (∀ i, is_Some (<[id := c']> (cp_connections (pm_pool m)) !! i) → is_Some (cp_connections (pm_pool m) !! i)) as Hi.
  { intros i. destruct (decide (i = id)) as [-> |]; [by rewrite E|by rewrite lookup_insert_ne]. }
  split; [done|]. split; cbn.
  - intros i c0 [[<- <-]|[_ Hc]]%lookup_insert_Some; [|by apply H1]. rewrite E1. by apply H1.
  - intros i Hc%Hi. by apply H2.
  - intros i Hc%Hi. by apply H3.
  - intros i Hc%Hi. by apply H4.
  - unfold pool_len in *. cbn. by rewrite map_size_insert_Some.
  - intros a. unfold with_connections. rewrite (count_replace _ _ _ _ _ _ E E2). destruct (pm_pool m). apply H6.
  - done.
Qed.

Lemma broadcast_ok m p : manager_ok m → manager_ok (broadcast_message m p).1.
Proof.
  unfold broadcast_message. generalize (node_ids_sorted (pm_pool m)). intros ids Hm.
  assert (∀ n, manager_ok (foldl (λ '(m, sent) id,
    if manager_is_banned m id then (m, sent) else
    match cp_connections (pm_pool m) !! id with
    | None => (m, sent)
    | Some _ => let '(r, m) := manager_send_to_peer m id p in (m, if is_ok r then sent + 1 else sent)
    end) (m, n) ids).1) as H; [|apply H].
  revert m Hm. induction ids as [|id ids IH]; intros m Hm n; cbn [foldl]; [done|].
  destruct (manager_is_banned m id); [by apply IH|]. destruct (cp_connections (pm_pool m) !! id); [|by apply IH].
  pose proof (send_ok m id p Hm) as Hs. destruct (manager_send_to_peer m id p) as [r m']. by apply IH.
Qed.

Lemma ingest_entries_ok es now : ∀ s n, store_ok s →
  let s' := (foldl (λ '(s, added) e,
    if negb (is_dialable (ae_addr e)) then (s, added) else
    let '(s, fresh) := add_peer s (ae_node_id e) (ae_addr e) false now in
    (s, if fresh then added + 1 else added)) (s, n) es).1 in
  store_ok s' ∧ ps_ban_state s' = ps_ban_state s ∧ known_extends s s'.
Proof.
  induction es as [|e es IH]; intros s n Hs; cbv zeta; cbn [foldl]; [split_and!; [done|done|by intros i]|].
  destruct (negb _); [by apply IH|]. pose proof (add_peer_ok s (ae_node_id e) (ae_addr e) false now Hs) as Ha.
  destruct (add_peer s _ _ _ _) as [s1 fresh]. destruct Ha as (Hs1 & Eb & Hk & _).
  destruct (IH s1 (if fresh then n + 1 else n) Hs1) as (Hs2 & Eb2 & Hk2). split_and!; [done|by rewrite Eb2|].
  intros i Hi. by apply Hk2, Hk.
Qed.

Lemma learn_ok m es now : manager_ok m → manager_ok (learn_addrs m es now).1.
Proof.
  intros Hm. unfold learn_addrs. destruct (ingest_entries_ok es now (pm_store m) 0 (proj1 Hm)) as (Hs & Eb & Hk).
  fold (ingest_addr_entries (pm_store m) es now) in Hs, Eb, Hk. destruct (ingest_addr_entries _ _ _) as [s n]. cbn in *.
  apply manager_ok_store; try done. intros i. unfold store_is_banned. by rewrite Eb.
Qed.

(** A use of the identity advances its counter only. *)
Lemma identity_ok m k : manager_ok m → kp_seed k = kp_seed (pm_identity m) → manager_ok (with_identity m k).
Proof.
  intros [Hs [H1 H2 H3 H4 H5 H6 H7]] Ek. split; [done|]. split; try done.
  cbn. unfold local_node_id, node_id, public_key in *. cbn. by rewrite Ek.
Qed.

Lemma handshake_build_seed sk k e role : kp_seed (handshake_build sk k e role).2 = kp_seed k.
Proof. done. Qed.

Lemma connect_ok m addr e stream sock now : manager_ok m → manager_ok (connect_to_peer m addr e stream sock now).2.
Proof.
  intros Hm. unfold connect_to_peer. destruct (bool_decide _); [done|]. destruct (from_option _ _ _); [done|].
  destruct (check_admission m addr); [|done..].
  pose proof (handshake_build_seed (noise_static_private_key (pm_identity m)) (pm_identity m) e Initiator) as Hk.
  destruct (handshake_build _ _ _ _) as [r k]. pose proof (identity_ok m k Hm Hk) as Hm'.
  destruct (h ← map_err from_noise r; _) as [[out c]|err|]; [|done..].
  pose proof (register_ok _ c now Hm') as H. by destruct (register_connection _ _ _).
Qed.

Lemma accept_ok m addr stream sock now : manager_ok m → manager_ok (accept_inbound m addr stream sock now).2.
Proof.
  intros Hm. unfold accept_inbound. destruct (check_admission m addr); [|done..].
  pose proof (handshake_build_seed (noise_static_private_key (pm_identity m)) (pm_identity m) None Responder) as Hk.
  destruct (handshake_build _ _ _ _) as [r k]. pose proof (identity_ok m k Hm Hk) as Hm'.
  destruct (h ← map_err from_noise r; _) as [[[[out t] peer] st]|err|]; [|done..].
  destruct (read_hello_frame _ _ _) as [[[hello st']|err|] t']; [| |done].
  - destruct (write_hello _ _) as [[ho|err|] t'']; [|done..].
    set (c := park_read_half _ _). pose proof (register_ok _ c now Hm') as H. by destruct (register_connection _ _ _) as [[]].
  - destruct (add_peer_ok (pm_store (with_identity m k)) peer addr false now (proj1 Hm')) as (Hs & Eb & Hk' & _).
    apply record_event_ok, manager_ok_store; try done. intros i. unfold store_is_banned. by rewrite Eb.
Qed.

(** *** The tick *)

Lemma unban_all_spec ids : ∀ s,
  let s' := foldl (λ s id, (store_unban_peer s id).1) s ids in
  ps_peers s' = ps_peers s
  ∧ (∀ i, ps_ban_state s' !! i = if decide (i ∈ ids) then None else ps_ban_state s !! i)
  ∧ (∀ i b, (i, b) ∈ ps_historical_bans s ∨ (i ∈ ids ∧ ps_ban_state s !! i = Some b) → (i, b) ∈ ps_historical_bans s').
Proof.
  induction ids as [|id ids IH]; intros s; cbv zeta; cbn [foldl].
  - split_and!; [done|intros i; by rewrite decide_False by apply not_elem_of_nil|].
    intros i b [H|[H%not_elem_of_nil _]]; done.
  - specialize (IH (store_unban_peer s id).1). cbv zeta in IH. destruct IH as (E1 & E2 & E3).
    pose proof (store_unban_spec s id) as Hs.
    assert (∀ i b, (i, b) ∈ ps_historical_bans s ∨ (i = id ∧ ps_ban_state s !! i = Some b) →
      (i, b) ∈ ps_historical_bans (store_unban_peer s id).1) as Hh.
    { unfold store_unban_peer. intros i b. destruct (ps_ban_state s !! id) as [b0|] eqn:E; cbn.
      - rewrite elem_of_app, list_elem_of_singleton. intros [?|[-> Hb]]; [auto|right; congruence].
      - intros [?|[-> Hb]]; [done|congruence]. }
    destruct (store_unban_peer s id) as [s1 r]. destruct Hs as (F1 & _ & F2). cbn [fst] in *. split_and!.
    + by rewrite E1.
    + intros i. rewrite E2, F2. destruct (decide (i ∈ ids)) as [Hi|Hi].
      * by rewrite decide_True by (apply list_elem_of_further; exact Hi).
      * destruct (decide (i = id)) as [-> |Hne].
        -- rewrite decide_True by apply list_elem_of_here. by rewrite lookup_delete_eq.
        -- rewrite decide_False by (rewrite not_elem_of_cons; auto). by rewrite lookup_delete_ne.
    + intros i b H. apply E3. rewrite F2. destruct (decide (i = id)) as [-> |Hne].
      * left. apply Hh. destruct H as [|[_ Hb]]; auto.
      * destruct H as [H|[Hi Hb]]; [left; by apply Hh; left|right]. split; [|by rewrite lookup_delete_ne].
        apply elem_of_cons in Hi as [|]; done.
Qed.

(** The bans whose time has passed, and what lifting them leaves. *)
Lemma expire_bans_spec s now :
  let '(s', expired) := expire_bans s now in
  ps_peers s' = ps_peers s
  ∧ (∀ i, i ∈ expired ↔ ∃ b, ps_ban_state s !! i = Some b ∧ bn_until b < now)
  ∧ (∀ i, ps_ban_state s' !! i = if decide (i ∈ expired) then None else ps_ban_state s !! i)
  ∧ (∀ i b, ps_ban_state s !! i = Some b → i ∈ expired → (i, b) ∈ ps_historical_bans s').
Proof.
  unfold expire_bans. set (expired := (filter _ _).*1). destruct (unban_all_spec expired s) as (E1 & E2 & E3).
  split_and!; [done| |done|intros i b Hb Hi; apply E3; auto].
  intros i. unfold expired. rewrite list_elem_of_fmap. split.
  - intros ([j b] & -> & [Hb Hj]%list_elem_of_filter). apply elem_of_map_to_list in Hj. eauto.
  - intros (b & Hb & Hu). exists (i, b). split; [done|]. apply list_elem_of_filter. split; [done|]. by apply elem_of_map_to_list.
Qed.

(** What the loop of a tick keeps, relative to the store [s0] it starts from. *)
Record tick_inv (s0 : PeerStore) (expired : list NodeId) (t : TickState) : Prop := {
  ti_store : store_ok (tk_store t);
  ti_known : known_extends s0 (tk_store t);
  ti_bans : ∀ i b, ps_ban_state s0 !! i = Some b → ps_ban_state (tk_store t) !! i = Some b;
  ti_new : ∀ i, i ∉ tk_disconnect t → store_is_banned s0 i = false → store_is_banned (tk_store t) i = false;
  ti_expired : ∀ i, i ∈ expired → ps_ban_state s0 !! i = None → ps_ban_state (tk_store t) !! i = None;
  ti_history : ps_historical_bans (tk_store t) = ps_historical_bans s0
}.

Lemma tick_put s0 expired t id r :
  tick_inv s0 expired t → record_ok id r →
  tick_inv s0 expired {| tk_store := put_record (tk_store t) id r; tk_report := tk_report t;
    tk_disconnect := tk_disconnect t; tk_needs_save := tk_needs_save t |}.
Proof.
  intros [] Hr. split; cbn; try done; [by apply put_record_ok|]. intros i Hi. apply known_put. auto.
Qed.

(** A new ban minted by the loop. *)
Lemma tick_ban s0 expired t id r reason until now p rep ns :
  tick_inv s0 expired t → record_ok id r → store_is_banned (tk_store t) id = false → id ∉ expired →
  tick_inv s0 expired {| tk_store := store_ban_peer (put_record (tk_store t) id r) id reason until now p;
    tk_report := rep; tk_disconnect := tk_disconnect t ++ [id]; tk_needs_save := ns |}.
Proof.
  intros Ht Hr Hb He. pose proof (tick_put _ _ _ id r Ht Hr) as [H1 H2 H3 H4 H5 H6]. cbn in *.
  apply bool_decide_eq_false in Hb. rewrite <- eq_None_not_Some in Hb. split; cbn.
  - done.
  - done.
  - intros i b Hi. destruct (decide (i = id)) as [-> |]; [|rewrite lookup_insert_ne by done; auto].
    rewrite (H3 _ _ Hi) in Hb. done.
  - intros i. rewrite elem_of_app, list_elem_of_singleton. intros Hi Hn. rewrite is_banned_insert by tauto. apply H4; tauto.
  - intros i Hi Hn. rewrite lookup_insert_ne by (intros ->; done). by apply H5.
  - done.
Qed.

Lemma tick_peer_inv c now s0 expired t id : tick_inv s0 expired t → tick_inv s0 expired (tick_peer c now expired t id).
Proof.
  intros Ht. unfold tick_peer. destruct (ps_peers (tk_store t) !! id) as [r|] eqn:Er; [|done].
  pose proof (ti_store _ _ _ Ht _ _ Er) as Hr. apply (accrue_ok _ _ now) in Hr.
  destruct (store_is_banned (tk_store t) id) eqn:Eb; [by apply tick_put|]. cbn [orb].
  destruct (bool_decide_reflect (id ∈ expired)) as [|He]; [by apply tick_put|]. cbn [update_score].
  pose proof (set_score_ok id _ c Hr) as Hr'. destruct (decide_ban _ _ _); cbn [apply_decision].
  - by apply tick_put.
  - pose proof (tick_put _ _ _ _ _ Ht Hr') as []. by split.
  - by apply tick_ban.
  - by apply tick_ban.
Qed.

Lemma tick_loop_inv c now s0 expired ids : ∀ t,
  tick_inv s0 expired t → tick_inv s0 expired (foldl (tick_peer c now expired) t ids).
Proof. induction ids as [|id ids IH]; intros t Ht; cbn; [done|]. by apply IH, tick_peer_inv. Qed.

(** A tick, as its loop invariant and the drop of the banned sessions. *)
Lemma tick_at_spec m now :
  manager_ok m →
  ∃ t, tick_inv (expire_bans (pm_store m) now).1 (expire_bans (pm_store m) now).2 t
    ∧ ∃ m', manager_ok m' ∧ pm_store m' = tk_store t
      ∧ (tick_at m now).1 = if tk_needs_save t then persist m' now else m'.
Proof.
  intros Hm. unfold tick_at. pose proof (expire_bans_spec (pm_store m) now) as Hx.
  destruct (expire_bans (pm_store m) now) as [s expired]. destruct Hx as (Ep & _ & Eb & _). cbn [fst snd].
  set (t0 := {| tk_store := s; tk_report := _; tk_disconnect := []; tk_needs_save := _ |}).
  set (t := foldl _ t0 _).
  assert (tick_inv s expired t) as Ht.
  { apply tick_loop_inv. split; try done; [unfold store_ok; cbn; rewrite Ep; apply Hm|by intros i]. }
  exists t. split; [done|]. exists (drop_all (with_store m (tk_store t)) (tk_disconnect t)).
  split_and!; [|by destruct (drop_all_spec (tk_disconnect t) (with_store m (tk_store t)))|done].
  apply manager_ok_drop; [done|apply Ht| |].
  - intros i Hi. apply (ti_known _ _ _ Ht). by rewrite Ep.
  - intros i Hi Hn. apply (ti_new _ _ _ Ht); [done|]. unfold store_is_banned in *. rewrite Eb.
    by destruct (decide (i ∈ expired)).
Qed.

Lemma tick_ok m now : manager_ok m → manager_ok (tick_at m now).1.
Proof.
  intros Hm. destruct (tick_at_spec m now Hm) as (t & _ & m' & Hm' & _ & ->).
  destruct (tk_needs_save t); [by apply persist_ok|done].
Qed.

(** *** Reachable managers *)

(** One call of the manager, with what the outside decides: clock, peers' bytes,
    verdicts, samples. *)
Inductive manager_step (m : PeerManager) : PeerManager → Prop :=
  | StLearn entries now : manager_step m (learn_addrs m entries now).1
  | StRegister c now : manager_step m (register_connection m c now).2
  | StConnect addr expected stream sock now : manager_step m (connect_to_peer m addr expected stream sock now).2
  | StAccept addr stream sock now : manager_step m (accept_inbound m addr stream sock now).2
  | StDisconnect id : manager_step m (disconnect_peer m id).1
  | StSend id payload : manager_step m (manager_send_to_peer m id payload).2
  | StBroadcast payload : manager_step m (broadcast_message m payload).1
  | StInvalid id now : manager_step m (record_invalid_block m id now)
  | StViolation id now : manager_step m (record_protocol_violation m id now)
  | StVerdict id verdict duration now : manager_step m (apply_rate_verdict m id verdict duration now)
  | StLatency id sample now : manager_step m (record_latency m id sample now)
  | StBan id reason until p now : manager_step m (ban_peer m id reason until p now)
  | StUnban id now : manager_step m (unban_peer m id now).1
  | StTick now : manager_step m (tick_at m now).1
  | StHeight h : manager_step m (set_local_height m h).

Lemma manager_step_ok m m' : manager_step m m' → manager_ok m → manager_ok m'.
Proof.
  intros [] Hm; auto using learn_ok, register_ok, connect_ok, accept_ok, disconnect_ok, send_ok, broadcast_ok,
    record_event_ok, apply_rate_verdict_ok, record_latency_ok, ban_peer_ok, unban_peer_ok, tick_ok.
  - by apply record_event_ok.
  - by apply record_event_ok.
  - by destruct Hm as [? []].
Qed.

(** The numbers of a file written by the node. *)
Definition document_ok (doc : NetworkJson) : Prop :=
  Forall (λ p, (0 <= pp_score p <= 1)%Q ∧ 0 ≤ pp_latency_ewma_ms p ∧ 0 ≤ pp_invalid_count p < two32
    ∧ 0 ≤ pp_violation_count p < two32 ∧ 0 ≤ pp_uptime_seconds p ≤ pp_observed_seconds p
    ∧ pp_observed_seconds p < two64) (nj_known_peers doc).

Lemma load_bans_peers (bans : list PersistedBan) now : ∀ s,
  ps_peers (foldl (λ s p, match ban_into_record p now with
    | Some (id, b) => {| ps_peers := ps_peers s; ps_ban_state := <[id := b]> (ps_ban_state s);
                         ps_historical_bans := ps_historical_bans s |}
    | None => s end) s bans) = ps_peers s.
Proof.
  induction bans as [|p bans IH]; intros s; cbn [foldl]; [done|]. rewrite IH.
  by destruct (ban_into_record p now) as [[]|].
Qed.

Lemma load_ok s doc now : store_ok s → document_ok doc → store_ok (load_from_network_json s doc now).
Proof.
  unfold document_ok, load_from_network_json, store_ok. intros Hs Hd. rewrite load_bans_peers.
  revert s Hs. induction Hd as [|p ps (H1 & H2 & H3 & H4 & H5 & H6) _ IH]; intros s Hs; cbn [foldl]; [done|]. apply IH.
  unfold peer_into_record. destruct (parse_node_id (pp_node_id p)) as [id|]; [|done]. cbn.
  destruct (addr_parse (pp_addr p)) as [a|]; [|done]. cbn. apply map_Forall_insert_2; [|done]. split; cbn; try done. lia.
Qed.

Lemma new_ok config keys file now : from_option document_ok True file → manager_ok (peer_manager_new config keys file now).
Proof.
  intros Hf. split.
  - cbn. assert (store_ok store_new) as H0 by apply map_Forall_empty. destruct file as [doc|]; [|done].
    destruct (pc_network_json_path config); [by apply load_ok|done].
  - split; cbn; try (intros ? [? H%lookup_empty_Some]; done); try (intros ? ? H%lookup_empty_Some; done); try done.
    + unfold pool_len. cbn [cp_connections pool_new]. rewrite map_size_empty. apply Z.le_max_l.
    + intros a. unfold count_by_ip_range. cbn [cp_connections pool_new]. rewrite map_to_list_empty. apply Z.le_max_l.
Qed.

End Manager.

(** C35: the manager's invariant.  From a fresh manager, or one started from a file it
    wrote, any sequence of calls (sessions set up in either direction against any
    bytes, events, verdicts, latency samples, bans, ticks, sends) keeps: every
    connected peer is filed under its own id, is not this node, is known to the
    store and is not banned; the number of sessions and the number per address range
    stay within their limits; and every record has its score in [0, 1], its
    counters in range and its responsive time at most its observed time. *)
Theorem reachable_manager_ok `{HX : Hex, B3 : Blake3, SN : Snow, ED : Ed25519, KD : Kdf, SO : Socket, AT : AddrText}
    config keys file now m :
  from_option document_ok True file → rtc manager_step (peer_manager_new config keys file now) m → manager_ok m.
Proof.
  intros Hf Hr. pose proof (new_ok config keys file now Hf) as H0. induction Hr as [|m1 m2 m3 Hs _ IH]; [done|].
  apply IH. by eapply manager_step_ok.
Qed.

(** bans and the tick.  A ban that has not run out when the manager ticks is left
    exactly as it was, neither lifted nor extended; one that has run out is lifted,
    kept in the audit trail, and the same tick does not ban the peer again whatever
    its score; and a peer the tick bans has no session after it. *)
Theorem tick_serves_bans `{HX : Hex, B3 : Blake3, SN : Snow, ED : Ed25519, KD : Kdf, SO : Socket, AT : AddrText} m now :
  manager_ok m →
  let m' := (tick_at m now).1 in
  (∀ id b, ps_ban_state (pm_store m) !! id = Some b → now ≤ bn_until b → ps_ban_state (pm_store m') !! id = Some b)
  ∧ (∀ id b, ps_ban_state (pm_store m) !! id = Some b → bn_until b < now →
      ps_ban_state (pm_store m') !! id = None ∧ (id, b) ∈ ps_historical_bans (pm_store m'))
  ∧ (∀ id, manager_is_banned m' id = true → cp_connections (pm_pool m') !! id = None).
Proof.
  intros Hm m'. pose proof (tick_ok m now Hm) as Hok. fold m' in Hok.
  destruct (tick_at_spec m now Hm) as (t & [_ _ Tb _ Te Th] & m1 & _ & Es & Em). fold m' in Em.
  assert (pm_store m' = tk_store t) as Et.
  { rewrite Em, <- Es. destruct (tk_needs_save t); [|done]. unfold persist. by destruct (pc_network_json_path (pm_config m1)). }
  pose proof (expire_bans_spec (pm_store m) now) as Hx. destruct (expire_bans (pm_store m) now) as [s expired].
  destruct Hx as (_ & Hexp & Hb & Hh). cbn in *. rewrite Et. split_and!.
  - intros id b Hid Hu. apply Tb. rewrite Hb, decide_False; [done|]. intros (b' & Hb' & Hu')%Hexp. simplify_eq. lia.
  - intros id b Hid Hu. assert (id ∈ expired) as Hin by (apply Hexp; eauto). split.
    + apply Te; [done|]. by rewrite Hb, decide_True.
    + rewrite Th. by apply Hh.
  - intros id Hban. apply eq_None_not_Some. intros Hc. apply (pk_banned _ (proj2 Hok)) in Hc. congruence.
Qed.
