(* ===== verification/PeersProps.v ===== *)
(** * Scoring and persistence of peers

    What the score can do to a well-behaved peer under the rounding of [f32], the
    round trip of the persisted document, and concrete managers. *)

From S2P Require Import Prelude Bytes Net Float RateLimiter Noise NoiseProps NoiseConcrete Concrete Serialize SerializeProps Gossip Peers Manager ManagerProps.
From Stdlib Require Import QArith Lqa.
From stdpp Require Import gmap sorting.
Open Scope Z_scope.

(** ** The score of a well-behaved peer *)

(** No offence, and responsive in all of the observed time. *)
Record clean (r : PeerRecord) : Prop := {
  cl_invalid : pr_invalid_count r = 0;
  cl_violations : pr_violation_count r = 0;
  cl_latency : 0 ≤ pr_latency_ewma r;
  cl_uptime : pr_uptime_seconds r = pr_observed_seconds r;
  cl_observed : 0 ≤ pr_observed_seconds r < two64
}.

Lemma inject_pos z : 0 < z → (0 < inject_Z z)%Q.
Proof. intros. change 0%Q with (inject_Z 0). by rewrite <- Zlt_Qlt. Qed.

Lemma f32_bounds x : (0 <= x)%Q → (x * (1 - (1 # 16777216)) <= f32 x <= x * (1 + (1 # 16777216)))%Q.
Proof. intros Hx. exact (rnd_bounds 24 x ltac:(lia) Hx). Qed.

Lemma uptime_norm_clean r : clean r → ((99 # 100) <= uptime_norm r <= 1)%Q.
Proof.
  intros [_ _ _ Hu [Ho _]]. unfold uptime_norm. destruct (Z.eqb_spec (pr_observed_seconds r) 0) as [|Hne]; [lra|].
  split; [|apply clamp01_range]. rewrite Hu. set (x := f32 (inject_Z (pr_observed_seconds r))).
  assert (0 < inject_Z (pr_observed_seconds r))%Q as Hp by (apply inject_pos; lia).
  assert (0 < x)%Q as Hx by (pose proof (f32_bounds _ (Qlt_le_weak _ _ Hp)); unfold x; lra).
  assert (x / x == 1)%Q as E by (field; lra). apply clamp01_ge; [|lra].
  assert (0 <= x / x)%Q as H0 by lra. pose proof (f32_bounds _ H0). lra.
Qed.

Lemma latency_norm_range r : (0 <= latency_norm r <= 1)%Q.
Proof. apply clamp01_range. Qed.

Lemma quality_clean r : clean r → ((3 # 10) <= quality r scoring_default)%Q.
Proof.
  intros Hc. pose proof (uptime_norm_clean r Hc) as Hu. pose proof (latency_norm_range r) as Hl. unfold quality.
  set (u := uptime_norm r) in *. set (l := latency_norm r) in *. clearbody u l.
  set (gm := f32 (sc_w_latency scoring_default + sc_w_uptime scoring_default)).
  assert (gm == 10066330 # 33554432)%Q as Eg by (by vm_compute).
  assert (flt 0 gm = true) as -> by by vm_compute.
  assert (sc_w_latency scoring_default == 13421773 # 67108864)%Q as Ewl by by vm_compute.
  assert (sc_w_uptime scoring_default == 13421773 # 134217728)%Q as Ewu by by vm_compute.
  set (wl := sc_w_latency scoring_default) in *. set (wu := sc_w_uptime scoring_default) in *. clearbody wl wu gm.
  assert (0 <= 1 - l)%Q as H1 by lra. pose proof (f32_bounds _ H1) as B1. set (a := f32 (1 - l)) in *. clearbody a.
  assert (0 <= wl * a)%Q as H2 by (apply Qmult_le_0_compat; lra). pose proof (f32_bounds _ H2) as B2.
  set (b := f32 (wl * a)) in *. clearbody b. set (wla := (wl * a)%Q) in *. clearbody wla.
  assert (wu * (99 # 100) <= wu * u)%Q as H3 by (apply Qmult_le_l; lra).
  assert (0 <= wu * u)%Q as H3' by lra. pose proof (f32_bounds _ H3') as B3. set (c := f32 (wu * u)) in *. clearbody c.
  set (wuu := (wu * u)%Q) in *. clearbody wuu.
  assert (0 <= b + c)%Q as H4 by lra. pose proof (f32_bounds _ H4) as B4. set (d := f32 (b + c)) in *. clearbody d.
  assert ((320 # 1000) <= d / gm)%Q as H5 by (apply Qle_shift_div_l; lra).
  assert (0 <= d / gm)%Q as H6 by lra. pose proof (f32_bounds _ H6) as B6. lra.
Qed.

Lemma score_clean r : clean r → ((1 # 4) <= compute_score r scoring_default)%Q.
Proof.
  intros Hc. pose proof (quality_clean r Hc) as Hq. destruct Hc as [E1 E2 _ _ _]. unfold compute_score, invalid_weight, violation_weight.
  rewrite E1, E2. set (q := quality r scoring_default) in *. clearbody q.
  assert (f32 (penalty (sc_w_invalid scoring_default) 0 (sc_invalid_full_weight scoring_default)
    + penalty (sc_w_violation scoring_default) 0 (sc_violation_full_weight scoring_default)) = 0%Q) as -> by by vm_compute.
  apply clamp01_ge; [|lra]. assert (0 <= q - 0)%Q as H0 by lra. pose proof (f32_bounds _ H0). lra.
Qed.

(** A warning at most. *)
Definition harmless (d : BanDecision) : Prop := d = NoAction ∨ d = Warn.

Lemma decide_harmless score now : ((1 # 4) <= score)%Q → harmless (decide_ban score scoring_default now).
Proof.
  intros Hs. unfold decide_ban, harmless.
  assert (∀ thr, (thr <= 1 # 4)%Q → flt score thr = false) as Hf by (intros thr Ht; apply flt_false; lra).
  rewrite !Hf by by vm_compute. destruct (flt _ _); auto.
Qed.

(** ** A session as the manager scores it *)

(** What the manager does to a peer's record on a message with its latency
    ([record_latency]) and on a tick ([tick_at]). *)
Inductive PeerEvent := EvMessage (sample : Z) | EvTick.

Definition score_event (r : PeerRecord) (now : Z) (e : PeerEvent) : PeerRecord * BanDecision :=
  match e with
  | EvMessage sample => update_score (note_message (record_latency_sample r sample) now) scoring_default now
  | EvTick => update_score (accrue_uptime r now) scoring_default now
  end.

Fixpoint score_run (r : PeerRecord) (evs : list (Z * PeerEvent)) : list BanDecision :=
  match evs with
  | [] => []
  | (now, e) :: evs => let '(r, d) := score_event r now e in d :: score_run r evs
  end.

(** Between two ticks there is a message; [heard] when one came since the last tick. *)
Fixpoint heard_between (heard : bool) (evs : list (Z * PeerEvent)) : bool :=
  match evs with
  | [] => true
  | (_, EvMessage _) :: evs => heard_between true evs
  | (_, EvTick) :: evs => heard && heard_between false evs
  end.

Lemma message_clean r d now : clean r → clean (note_message (record_latency_sample r d) now).
Proof.
  intros [E1 E2 E3 E4 E5]. split; cbn; try done. apply from_secs_bounds. unfold fmax.
  destruct (Qle_bool _ 0) eqn:E; [lra|]. apply not_true_iff_false in E. rewrite Qle_bool_iff in E. lra.
Qed.

Lemma tick_clean r now : clean r → pr_responsive_since_anchor r = true → clean (accrue_uptime r now).
Proof.
  intros Hc Hr. pose proof Hc as [E1 E2 E3 E4 E5]. unfold accrue_uptime. cbv zeta.
  assert (0 ≤ Z.max 0 (now - pr_uptime_anchor r) / NANOS) by (apply Z.div_pos; [lia|done]).
  destruct (_ =? 0); [done|]. rewrite Hr. split; cbn; try done; [by rewrite E4|unfold sat64; lia].
Qed.

Lemma set_score_clean r s : clean r → clean (set_score r s).
Proof. intros []. by split. Qed.

Lemma score_run_harmless evs : ∀ r heard,
  clean r → (heard = true → pr_responsive_since_anchor r = true) → heard_between heard evs = true →
  Forall harmless (score_run r evs).
Proof.
  induction evs as [|[now [d|]] evs IH]; intros r heard Hc Hh Hb; [constructor| |]; cbn [score_run score_event update_score heard_between] in *.
  - pose proof (message_clean r d now Hc) as Hc'. constructor; [by apply decide_harmless, score_clean|].
    apply (IH _ true); [by apply set_score_clean|done|done].
  - apply andb_true_iff in Hb as [-> Hb]. pose proof (tick_clean r now Hc (Hh eq_refl)) as Hc'.
    constructor; [by apply decide_harmless, score_clean|]. apply (IH _ false); [by apply set_score_clean|done|done].
Qed.

(** C36: scoring does not ban a well-behaved peer.  Under the default weights and
    thresholds, a peer that commits no offence and has at least one message recorded
    (by [record_latency]) between any two ticks is at most warned, at every message and
    every tick, for all latencies (however bad) and clock readings, with all the rounding of the
    single-precision formula. *)
Theorem responsive_peer_never_banned node_id addr now0 evs :
  heard_between true evs = true → Forall harmless (score_run (new_record node_id addr true now0) evs).
Proof.
  intros Hb. apply (score_run_harmless evs _ true); [|done|done].
  split; cbn; try done; lia.
Qed.

Definition peer_addr0 : SocketAddr := SockV4 [x0a; x00; x00; x01] 8081.

Lemma responsive_peer_never_banned_witness :
  Forall harmless (score_run (new_record zero32 peer_addr0 true 0)
    [(1, EvMessage (900 * NANOS)); (60 * NANOS, EvTick); (61 * NANOS, EvMessage (900 * NANOS)); (120 * NANOS, EvTick)]).
Proof. apply (responsive_peer_never_banned zero32 peer_addr0 0). reflexivity. Defined.

(** The formula does ban on grading alone: a peer with no offence that was seen slow
    and is silent from then on. *)
Definition silent_peer : PeerRecord :=
  set_record (new_record zero32 peer_addr0 true 0) 0 1 (200 * 1000000) 0 0 60 3600 0 false.

Lemma silent_peer_banned :
  pr_invalid_count silent_peer = 0 ∧ pr_violation_count silent_peer = 0
  ∧ (update_score silent_peer scoring_default 0).2 = PersistentBan (2592000 * NANOS).
Proof. by vm_compute. Qed.

(** ** The persisted document *)

(** Documented: an address without a flow label is parsed back from its text. *)
Definition plain_addr (a : SocketAddr) : Prop :=
  match a with
  | SockV4 o port => length o = 4%nat ∧ 0 ≤ port < 65536
  | SockV6 o port flow scope => length o = 16%nat ∧ 0 ≤ port < 65536 ∧ flow = 0 ∧ 0 ≤ scope < two32
  end.

Class AddrTextOk `{AT : AddrText} : Prop := {
  addr_text_roundtrip : ∀ a, plain_addr a → addr_parse (addr_to_string a) = Some a
}.

Section Roundtrip.
Context `{HX : Hex, HK : !HexOk, AT : AddrText, AK : !AddrTextOk}.

(** What a restart keeps of a record and of a ban: whole seconds and milliseconds. *)
Definition restored_peer (r : PeerRecord) (now now' : Z) : PeerRecord := {|
  pr_node_id := pr_node_id r; pr_addr := pr_addr r;
  pr_last_seen := instant_back now' (secs_since now (pr_last_seen r)); pr_score := pr_score r;
  pr_latency_ewma := pr_latency_ewma r / 1000000 * 1000000; pr_invalid_count := pr_invalid_count r;
  pr_violation_count := pr_violation_count r; pr_uptime_seconds := pr_uptime_seconds r;
  pr_observed_seconds := pr_observed_seconds r; pr_uptime_anchor := now'; pr_responsive_since_anchor := false;
  pr_verified := pr_verified r |}.

Definition restored_ban (b : BanRecord) (now now' : Z) : option BanRecord :=
  if secs_since (bn_until b) now =? 0 then None else
  Some {| bn_until := now' + secs_since (bn_until b) now * NANOS; bn_reason := bn_reason b;
          bn_banned_at := instant_back now' (secs_since now (bn_banned_at b)); bn_persistent := bn_persistent b |}.

(** Ids of 32 bytes, addresses with a text form, latencies within 64 bits of milliseconds. *)
Definition savable (s : PeerStore) : Prop :=
  map_Forall (λ id r, pr_node_id r = id ∧ is32 id ∧ plain_addr (pr_addr r) ∧ 0 ≤ pr_latency_ewma r / 1000000 < two64) (ps_peers s)
  ∧ map_Forall (λ id _, is32 id) (ps_ban_state s).

Lemma parse_node_id_hex id : is32 id → parse_node_id (hex_encode id) = Some id.
Proof. intros H. unfold parse_node_id. rewrite hex_decode_encode. cbn. by rewrite (proj2 (Nat.eqb_eq _ _) H). Qed.

Lemma peer_roundtrip r now now' :
  is32 (pr_node_id r) → plain_addr (pr_addr r) → 0 ≤ pr_latency_ewma r / 1000000 < two64 →
  peer_into_record (persisted_peer r now) now' = Some (restored_peer r now now').
Proof.
  intros H1 H2 H3. unfold peer_into_record, persisted_peer. cbn [pp_node_id pp_addr].
  rewrite parse_node_id_hex by done. cbn. rewrite addr_text_roundtrip by done. cbn.
  unfold restored_peer. rewrite (Z.mod_small (pr_latency_ewma r / 1000000)) by done. done.
Qed.

Lemma ban_roundtrip id b now now' :
  is32 id → ban_into_record (persisted_ban id b now) now' = (λ b, (id, b)) <$> restored_ban b now now'.
Proof.
  intros H. unfold ban_into_record, restored_ban, persisted_ban. cbn [pb_ban_remaining_secs pb_node_id].
  destruct (secs_since (bn_until b) now =? 0); [done|]. by rewrite parse_node_id_hex.
Qed.

Lemma load_peers_spec s now now' ids : savable s → ∀ s0,
  let s1 := foldl (λ s p, match peer_into_record p now' with
                          | Some r => with_peers s (<[pr_node_id r := r]> (ps_peers s))
                          | None => s
                          end) s0 (omap (λ id, (λ r, persisted_peer r now) <$> ps_peers s !! id) ids) in
  ps_ban_state s1 = ps_ban_state s0
  ∧ ∀ i, ps_peers s1 !! i = match ps_peers s !! i with
                            | Some r => if decide (i ∈ ids) then Some (restored_peer r now now') else ps_peers s0 !! i
                            | None => ps_peers s0 !! i
                            end.
Proof.
  intros [Hp _]. induction ids as [|id ids IH]; intros s0; cbv zeta.
  - split; [done|]. intros i. destruct (ps_peers s !! i); [|done]. by rewrite decide_False by apply not_elem_of_nil.
  - cbn [omap list_omap]. destruct (ps_peers s !! id) as [r|] eqn:Er; cbn.
    + destruct (Hp _ _ Er) as (Eid & H32 & Ha & Hl). rewrite peer_roundtrip by (rewrite ?Eid; done).
      destruct (IH (with_peers s0 (<[id := restored_peer r now now']> (ps_peers s0)))) as [E1 E2].
      cbn [pr_node_id restored_peer]. rewrite Eid. split; [exact E1|]. intros i. rewrite E2. cbn.
      destruct (decide (i = id)) as [-> |Hne].
      * rewrite Er, lookup_insert_eq. rewrite (decide_True (P := id ∈ id :: ids)) by apply list_elem_of_here. by destruct (decide (id ∈ ids)).
      * rewrite lookup_insert_ne by done. destruct (ps_peers s !! i); [|done].
        destruct (decide (i ∈ ids)) as [Hi|Hi]; [by rewrite decide_True by (apply list_elem_of_further; exact Hi)|].
        by rewrite decide_False by (rewrite not_elem_of_cons; auto).
    + destruct (IH s0) as [E1 E2]. split; [exact E1|]. intros i. rewrite E2. destruct (ps_peers s !! i) eqn:Ei; [|done].
      destruct (decide (i ∈ ids)) as [Hi|Hi]; [by rewrite decide_True by (apply list_elem_of_further; exact Hi)|].
      rewrite decide_False; [done|]. rewrite not_elem_of_cons. split; [congruence|done].
Qed.

Lemma load_bans_spec s now now' ids : savable s → NoDup ids → ∀ s0,
  (∀ i, i ∈ ids → ps_ban_state s0 !! i = None) →
  let s1 := foldl (λ s p, match ban_into_record p now' with
                          | Some (id, b) => {| ps_peers := ps_peers s; ps_ban_state := <[id := b]> (ps_ban_state s);
                                               ps_historical_bans := ps_historical_bans s |}
                          | None => s
                          end) s0 (omap (λ id, (λ b, persisted_ban id b now) <$> ps_ban_state s !! id) ids) in
  ∀ i, ps_ban_state s1 !! i = if decide (i ∈ ids) then (b ← ps_ban_state s !! i; restored_ban b now now') else ps_ban_state s0 !! i.
Proof.
  intros [_ Hb] Hnd. induction Hnd as [|id ids Hni _ IH]; intros s0 H0; cbv zeta.
  - intros i. by rewrite decide_False by apply not_elem_of_nil.
  - assert (∀ i, i ∈ ids → ps_ban_state s0 !! i = None) as H0' by (intros; apply H0; by apply list_elem_of_further).
    pose proof (H0 id (list_elem_of_here _ _)) as Hid.
    assert (∀ s1, (∀ i, i ∈ ids → ps_ban_state s1 !! i = None) → (∀ i, i ≠ id → ps_ban_state s1 !! i = ps_ban_state s0 !! i) →
      ps_ban_state s1 !! id = (b ← ps_ban_state s !! id; restored_ban b now now') → ∀ i,
      ps_ban_state (foldl (λ s p, match ban_into_record p now' with
        | Some (id, b) => {| ps_peers := ps_peers s; ps_ban_state := <[id := b]> (ps_ban_state s);
                             ps_historical_bans := ps_historical_bans s |}
        | None => s end) s1 (omap (λ id, (λ b, persisted_ban id b now) <$> ps_ban_state s !! id) ids)) !! i
      = if decide (i ∈ id :: ids) then (b ← ps_ban_state s !! i; restored_ban b now now') else ps_ban_state s0 !! i) as Hstep.
    { intros s1 G1 G2 G3 i. rewrite (IH s1 G1). destruct (decide (i = id)) as [-> |Hne].
      - rewrite decide_False by done. rewrite decide_True by apply list_elem_of_here. done.
      - destruct (decide (i ∈ ids)) as [Hi|Hi]; [by rewrite decide_True by (apply list_elem_of_further; exact Hi)|].
        rewrite decide_False by (rewrite not_elem_of_cons; auto). by apply G2. }
    cbn [omap list_omap]. destruct (ps_ban_state s !! id) as [b|] eqn:Eb; cbn [fmap option_fmap option_map].
    + cbn [foldl]. rewrite ban_roundtrip by exact (Hb _ _ Eb). destruct (restored_ban b now now') as [b'|] eqn:Er; cbn.
      * apply Hstep; cbn; rewrite ?Eb; cbn.
        -- intros i Hi. rewrite lookup_insert_ne by (intros ->; done). auto.
        -- intros i Hne. by rewrite lookup_insert_ne.
        -- by rewrite lookup_insert_eq.
      * apply Hstep; [done|done|]. rewrite Hid, ?Eb. cbn. by rewrite ?Er.
    + apply Hstep; [done|done|]. by rewrite Hid, ?Eb.
Qed.

Lemma keys_in {A} (m : gmap NodeId A) i : i ∈ (map_to_list m).*1 ↔ is_Some (m !! i).
Proof.
  rewrite list_elem_of_fmap. split.
  - intros ([j a] & -> & H%elem_of_map_to_list). eauto.
  - intros [a Ha]. exists (i, a). split; [done|]. by apply elem_of_map_to_list.
Qed.

Lemma ids_sorted_in s i : i ∈ peer_ids_sorted s ↔ is_Some (ps_peers s !! i).
Proof. unfold peer_ids_sorted. rewrite sort_leaves_perm. apply keys_in. Qed.

Lemma sort_NoDup l : NoDup l → NoDup (sort_leaves l).
Proof. by rewrite sort_leaves_perm. Qed.

End Roundtrip.

(** peers and bans survive a restart.  Loading at [now'] the document written at
    [now] gives every peer back with its address, verification, score, counters and
    uptime, its latency in whole milliseconds, and every ban that had a full second
    left, for that number of seconds after [now'], with its reason and flag; a ban
    with less than a second left is gone, and nothing else is there. *)
Theorem network_json_roundtrip `{HX : Hex, HK : !HexOk, AT : AddrText, AK : !AddrTextOk} s now now' :
  savable s →
  let s' := load_from_network_json store_new (save_to_network_json s now) now' in
  (∀ id, ps_peers s' !! id = (λ r, restored_peer r now now') <$> ps_peers s !! id)
  ∧ (∀ id, ps_ban_state s' !! id = (b ← ps_ban_state s !! id; restored_ban b now now')).
Proof.
  intros Hs. cbv zeta. unfold load_from_network_json, save_to_network_json. cbn [nj_known_peers nj_banned_peers].
  destruct (load_peers_spec s now now' (peer_ids_sorted s) Hs store_new) as [E1 E2].
  change (ps_ban_state store_new) with (∅ : gmap NodeId BanRecord) in E1.
  set (s1 := foldl _ store_new _) in *. set (extra := sort_leaves (filter _ _)).
  rewrite <- omap_app. set (ids := peer_ids_sorted s ++ extra).
  assert (∀ i, i ∈ extra ↔ ps_peers s !! i = None ∧ is_Some (ps_ban_state s !! i)) as Hex.
  { intros i. unfold extra. by rewrite sort_leaves_perm, list_elem_of_filter, keys_in. }
  assert (NoDup ids) as Hnd.
  { apply NoDup_app. split_and!; [apply sort_NoDup, NoDup_fst_map_to_list| |apply sort_NoDup, list.NoDup_filter, NoDup_fst_map_to_list].
    intros i [r Hr]%ids_sorted_in [Hn _]%Hex. congruence. }
  split.
  - intros id. rewrite load_bans_peers, E2. destruct (ps_peers s !! id) as [r|] eqn:Er; [|exact (lookup_empty id)].
    rewrite decide_True; [done|]. apply ids_sorted_in. by rewrite Er.
  - intros id. rewrite (load_bans_spec s now now' ids Hs Hnd s1) by (intros i _; by rewrite E1, lookup_empty).
    destruct (decide (id ∈ ids)) as [|Hn]; [done|]. rewrite E1, lookup_empty.
    destruct (ps_ban_state s !! id) as [b|] eqn:Eb; [|done]. exfalso. apply Hn. unfold ids. rewrite elem_of_app.
    destruct (ps_peers s !! id) as [r|] eqn:Er; [left; apply ids_sorted_in; by rewrite Er|right; apply Hex; by rewrite Eb].
Qed.

(** ** Concrete managers *)

#[export] Instance plain_addr_dec a : Decision (plain_addr a).
Proof. destruct a; apply _. Defined.

Definition savableb (s : PeerStore) : bool :=
  forallb (λ p, bool_decide (pr_node_id p.2 = p.1 ∧ is32 p.1 ∧ plain_addr (pr_addr p.2) ∧ 0 ≤ pr_latency_ewma p.2 / 1000000 < two64))
    (map_to_list (ps_peers s))
  && forallb (λ p, bool_decide (is32 p.1)) (map_to_list (ps_ban_state s)).

Lemma savableb_true s : savableb s = true → savable s.
Proof.
  unfold savableb. rewrite andb_true_iff, !forallb_forall. intros [H1 H2]. split.
  - intros id r Hr%elem_of_map_to_list%list_elem_of_In. by apply H1, bool_decide_eq_true in Hr.
  - intros id b Hb%elem_of_map_to_list%list_elem_of_In. by apply H2, bool_decide_eq_true in Hb.
Qed.

Definition toy_addr_text : AddrText := {|
  addr_to_string a := String.string_of_list_byte
    match a with
    | SockV4 o p => x04 :: o ++ to_be_bytes 2 p
    | SockV6 o p _ s => x06 :: o ++ to_be_bytes 2 p ++ to_be_bytes 4 s
    end;
  addr_parse t :=
    match as_bytes t with
    | x04 :: bs => Some (SockV4 (take 4 bs) (from_be_bytes (drop 4 bs)))
    | x06 :: bs => Some (SockV6 (take 16 bs) (from_be_bytes (take 2 (drop 16 bs))) 0 (from_be_bytes (drop 18 bs)))
    | _ => None
    end
|}.

Lemma toy_addr_text_ok : AddrTextOk (AT := toy_addr_text).
Proof.
  split. intros [o p|o p f s]; cbn [addr_parse addr_to_string toy_addr_text plain_addr]; unfold as_bytes;
    rewrite String.list_byte_of_string_of_list_byte.
  - intros [Ho Hp]. rewrite take_app_length', drop_app_length' by done. by rewrite from_to_be_bytes, Z.mod_small.
  - intros (Ho & Hp & -> & Hs). rewrite take_app_length' by done.
    rewrite drop_app_length' by done. rewrite take_app_length' by by rewrite length_to_be_bytes.
    replace (drop 18 (o ++ to_be_bytes 2 p ++ to_be_bytes 4 s)) with (to_be_bytes 4 s).
    + by rewrite !from_to_be_bytes, !Z.mod_small.
    + rewrite app_assoc, drop_app_length'; [done|]. by rewrite length_app, length_to_be_bytes, Ho.
Qed.

(** A socket that takes everything. *)
Definition toy_socket : Socket := {| Sock := list byte; try_write s bs := (Wrote (length bs), s ++ bs) |}.

Existing Instance toy_addr_text.
Existing Instance toy_addr_text_ok.
Existing Instance toy_socket.
Existing Instance toy_hex.

Definition carol_id : NodeId := replicate 32 x03.
Definition manager0 : PeerManager := peer_manager_new manager_config_default alice None 0.
Definition session_with (id : NodeId) : Connection :=
  connection_new (transport_new tt None) [] peer_addr0 id 7.

(** [bob] connects, offends twelve times and is banned and dropped; [carol] stays. *)
Definition manager1 : PeerManager := (register_connection manager0 (session_with (node_id bob)) 0).2.
Definition manager2 : PeerManager := (register_connection manager1 (session_with carol_id) 0).2.
Definition manager3 : PeerManager := Nat.iter 12 (λ m, record_invalid_block m (node_id bob) NANOS) manager2.

Lemma manager3_reachable : rtc manager_step (peer_manager_new manager_config_default alice None 0) manager3.
Proof.
  apply (rtc_l _ _ manager1); [exact (StRegister manager0 (session_with (node_id bob)) 0)|].
  apply (rtc_l _ _ manager2); [exact (StRegister manager1 (session_with carol_id) 0)|]. unfold manager3.
  generalize manager2 as m. intros m.
  generalize 12%nat as n. intros n. induction n as [|n IH]; cbn [Nat.iter]; [apply rtc_refl|].
  eapply rtc_r; [exact IH|]. apply StInvalid.
Qed.

Lemma manager3_state :
  manager_is_banned manager3 (node_id bob) = true ∧ node_ids_sorted (pm_pool manager3) = [carol_id].
Proof. by vm_compute. Qed.

Lemma reachable_manager_ok_witness : manager_ok manager3.
Proof. exact (reachable_manager_ok manager_config_default alice None 0 manager3 I manager3_reachable). Defined.

Lemma manager3_ok : manager_ok manager3.
Proof.
  assert (∀ m m', rtc manager_step m m' → manager_ok m → manager_ok m') as H.
  { induction 1 as [|m1 m2 m3 Hs _ IH]; [done|]. intros Hm. apply IH. by eapply manager_step_ok. }
  exact (H _ _ manager3_reachable (new_ok manager_config_default alice None 0 I)).
Qed.

Definition bob_ban : BanRecord :=
  {| bn_until := NANOS + 60 * 60 * 24 * 30 * NANOS; bn_reason := InvalidBlocks; bn_banned_at := NANOS; bn_persistent := true |}.

Lemma bob_ban_state : ps_ban_state (pm_store manager3) !! node_id bob = Some bob_ban.
Proof. by vm_compute. Qed.

(** A month later the ban is over. *)
Lemma tick_serves_bans_witness :
  let m := (tick_at manager3 (2592002 * NANOS)).1 in
  ps_ban_state (pm_store m) !! node_id bob = None ∧ (node_id bob, bob_ban) ∈ ps_historical_bans (pm_store m).
Proof.
  destruct (tick_serves_bans manager3 (2592002 * NANOS) manager3_ok) as (_ & H & _).
  apply (H (node_id bob) bob_ban bob_ban_state). reflexivity.
Defined.

Lemma network_json_roundtrip_witness :
  let s' := load_from_network_json store_new (save_to_network_json (pm_store manager3) (2 * NANOS)) 0 in
  (∀ id, ps_peers s' !! id = (λ r, restored_peer r (2 * NANOS) 0) <$> ps_peers (pm_store manager3) !! id)
  ∧ (∀ id, ps_ban_state s' !! id = (b ← ps_ban_state (pm_store manager3) !! id; restored_ban b (2 * NANOS) 0)).
Proof.
  apply (network_json_roundtrip (HK := toy_hex_ok) (pm_store manager3) (2 * NANOS) 0).
  apply savableb_true. vm_compute. reflexivity.
Defined.

(** A rate-limit ban replaces whatever ban is in force: the month shrinks to five
    minutes. *)
Lemma rate_ban_shortens :
  let m := apply_rate_verdict manager3 (node_id bob) (Err Ban) (300 * NANOS) (2 * NANOS) in
  bn_until <$> ps_ban_state (pm_store m) !! node_id bob = Some (302 * NANOS).
Proof. by vm_compute. Qed.
