(* ===== verification/SessionProps.v ===== *)
(** * Session set-up between two nodes

    The outbound flow of one manager against the inbound flow of another: handshake,
    HELLO exchange and registration, end to end. *)

From S2P Require Import Prelude Bytes Net NetProps Float RateLimiter Noise NoiseProps Serialize Gossip Peers Manager ManagerProps NoiseConcrete PeersProps.
From stdpp Require Import gmap sorting.
Open Scope Z_scope.

Section Session.
Context `{HX : Hex, B3 : Blake3, SN : Snow, SK : !SnowOk, ED : Ed25519, EK : !EdOk, KD : Kdf, KK : !KdfOk, SO : Socket, AT : AddrText}.

(** What a manager asks of a session with [peer] at [addr]: room, no ban, no session
    with it yet, and a HELLO whose fields fit the wire. *)
Record can_meet (m : PeerManager) (addr : SocketAddr) (peer : NodeId) : Prop := {
  cm_admission : check_admission m addr = Ok tt;
  cm_self : peer ≠ local_node_id m;
  cm_banned : manager_is_banned m peer = false;
  cm_new : cp_connections (pm_pool m) !! peer = None;
  cm_limit : cp_max_per_ip_range (pm_pool m) = pc_max_per_ip_range (pm_config m);
  cm_hello : wf_hello (local_hello m)
}.

(** Connected under the id, at the address, with the capabilities. *)
Definition connected_to (m : PeerManager) (peer : NodeId) (addr : SocketAddr) (caps : Z) : Prop :=
  ∃ c, cp_connections (pm_pool m) !! peer = Some c ∧ cn_peer_addr c = addr ∧ cn_capabilities c = caps
    ∧ ∃ r, ps_peers (pm_store m) !! peer = Some r ∧ pr_verified r = true ∧ pr_addr r = addr.

Lemma can_meet_identity m k addr peer :
  kp_seed k = kp_seed (pm_identity m) → can_meet m addr peer → can_meet (with_identity m k) addr peer.
Proof.
  intros Ek []. split; try done. unfold local_node_id, node_id, public_key in *. cbn. by rewrite Ek.
Qed.

Lemma register_can_meet m addr c now :
  can_meet m addr (cn_node_id c) → cn_peer_addr c = addr →
  ∃ m', register_connection m c now = (Ok (cn_node_id c), m') ∧ connected_to m' (cn_node_id c) addr (cn_capabilities c).
Proof.
  intros [Ha Hs Hb Hn Hl _] Ec. unfold check_admission in Ha. unfold register_connection, add_connection.
  rewrite bool_decide_false by done. rewrite Hb. destruct (_ <=? pool_len _); [done|].
  rewrite bool_decide_false by (rewrite Hn; by intros []). rewrite Hl, Ec. destruct (_ <=? count_by_ip_range _ _); [done|].
  eexists. split; [done|]. exists c. cbn. rewrite lookup_insert_eq. split_and!; [done|done|done|].
  unfold add_peer. destruct (ps_peers (pm_store m) !! cn_node_id c) as [r|]; cbn; rewrite lookup_insert_eq; eexists; (split; [done|]); cbn.
  - split; [apply orb_true_r|done].
  - done.
Qed.

Lemma read_hello_of_frame t stream p rest t' nid :
  read_encrypted_frame t stream = (Ok (p, rest), t') →
  read_hello_frame t stream nid = (hello ← accept_hello p nid; Ok (hello, rest), t').
Proof.
  unfold read_encrypted_frame, read_hello_frame, read_hello. destruct (read_length_prefixed stream) as [[body st]|e|]; [|done..].
  destruct (decrypt_frame _ _) as [[q|e|] u]; [|done..]. cbn. by intros [= -> -> ->].
Qed.

Lemma accept_wf_hello h nid :
  wf_hello h → hl_version h = MIN_PROTO_VERSION → hl_network_id h = nid → accept_hello (hello_encode h) nid = Ok h.
Proof.
  intros Hw Hv Hn. unfold accept_hello. rewrite (proj2 (hello_iff (hello_encode h) h)) by done. cbn [mbind result_bind].
  unfold validate_hello. rewrite Hv, Hn, Z.ltb_irrefl, Z.eqb_refl. done.
Qed.

Lemma hello_fits h : frame_len (hello_encode h) ≤ MAX_MESSAGE_SIZE.
Proof.
  unfold frame_len. rewrite max_payload. assert (lenZ (hello_encode h) = 20) as ->.
  { unfold lenZ, hello_encode. by rewrite !length_app, !length_to_be_bytes. }
  by vm_compute.
Qed.

(** HELLO in both directions over transports in step. *)
Lemma hello_exchange ti tr hi hr nid :
  in_session ti tr → in_session tr ti → nt_send_nonce ti = 0 → nt_send_nonce tr = 0 →
  accept_hello (hello_encode hi) nid = Ok hi → accept_hello (hello_encode hr) nid = Ok hr →
  ∃ fi fr ti1 ti2 tr1 tr2,
    write_hello ti hi = (Ok fi, ti1) ∧ read_hello_frame tr fi nid = (Ok (hi, []), tr1)
    ∧ write_hello tr1 hr = (Ok fr, tr2) ∧ read_hello_frame ti1 fr nid = (Ok (hr, []), ti2).
Proof.
  intros Hir Hri Ei Er Hi Hr. unfold write_hello.
  destruct (frame_roundtrip ti tr (hello_encode hi) Hir (hello_fits hi)) as (fi & ti1 & tr1 & E1 & _ & R1 & _ & _ & Ho);
    [rewrite Ei; by vm_compute|].
  assert (other_way 0 ti tr) as Hother by (destruct Hri as (_ & E & Hp); rewrite Er in E, Hp; by split_and!).
  destruct (Ho 0 Hother) as (G1 & G2 & G3).
  destruct (frame_roundtrip tr1 ti1 (hello_encode hr)) as (fr & tr2 & ti2 & E2 & _ & R2 & _);
    [unfold in_session; rewrite G1, G2; by split_and!|apply hello_fits|rewrite G1; by vm_compute|].
  specialize (R1 []). specialize (R2 []). rewrite app_nil_r in R1, R2.
  exists fi, fr, ti1, ti2, tr1, tr2. split_and!; [done| |done|].
  - by rewrite (read_hello_of_frame _ _ _ _ _ nid R1), Hi.
  - by rewrite (read_hello_of_frame _ _ _ _ _ nid R2), Hr.
Qed.

Lemma into_transport_fresh h t id : into_transport h = Ok (t, id) → nt_send_nonce t = 0.
Proof.
  unfold into_transport. destruct (negb _); [done|]. intros ([] & _ & H)%bind_ok_inv.
  apply bind_ok_inv in H as (i & _ & H). apply bind_ok_inv in H as (st & _ & H). by injection H as <- _.
Qed.

End Session.

(** C31: honest nodes connect.  When one node dials another of the same network, each
    has room for the other, has not banned it and has no session with it, and the
    dialler pinned nobody or the right id, then both ends of the set-up succeed on
    the bytes of the other: the dialler learns the id of the node it reached, both
    managers hold the session under the other's id with the common capabilities,
    and both stores know the other as verified. *)
Theorem honest_nodes_connect `{HX : Hex, B3 : Blake3, SN : Snow, SK : !SnowOk, ED : Ed25519, EK : !EdOk, KD : Kdf, KK : !KdfOk, SO : Socket, AT : AddrText}
    mi mr addr_i addr_r expected (sock_i sock_r : Sock) now_i now_r :
  can_meet mi addr_r (local_node_id mr) → can_meet mr addr_i (local_node_id mi) →
  pc_network_id (pm_config mi) = pc_network_id (pm_config mr) → pinned expected (local_node_id mr) →
  let caps := Z.land (pc_local_capabilities (pm_config mi)) (pc_local_capabilities (pm_config mr)) in
  ∃ out_i out_r c mi' mr',
    connect_to_peer mi addr_r expected out_r sock_i now_i = (Ok (out_i, local_node_id mr), mi')
    ∧ accept_inbound mr addr_i out_i sock_r now_r = (Ok (out_r, c), mr')
    ∧ connected_to mi' (local_node_id mr) addr_r caps ∧ connected_to mr' (local_node_id mi) addr_i caps.
Proof.
  intros Hmi Hmr Hnet Hpin caps.
  destruct (honest_handshake_completes (pm_identity mi) (pm_identity mr) expected None) as
    (hi & ki & hr & kr & o_i & o_r & hi' & hr' & ti & tr & Bi & Br & Di & Dr & Ti & Tr & Sir & Sri); [done|done|].
  pose proof (handshake_build_seed (noise_static_private_key (pm_identity mi)) (pm_identity mi) expected Initiator) as Eki.
  pose proof (handshake_build_seed (noise_static_private_key (pm_identity mr)) (pm_identity mr) None Responder) as Ekr.
  rewrite Bi in Eki. rewrite Br in Ekr. cbn [snd] in Eki, Ekr.
  apply (can_meet_identity _ _ _ _ Eki) in Hmi as Hmi1. apply (can_meet_identity _ _ _ _ Ekr) in Hmr as Hmr1.
  set (nid := pc_network_id (pm_config mr)) in *.
  destruct (hello_exchange ti tr (local_hello (with_identity mi ki)) (local_hello (with_identity mr kr)) nid Sir Sri)
    as (fi & fr & ti1 & ti2 & tr1 & tr2 & W1 & R1 & W2 & R2);
    [by eapply into_transport_fresh|by eapply into_transport_fresh|by apply accept_wf_hello; [apply Hmi1| |]
    |by apply accept_wf_hello; [apply Hmr1| |]|].
  set (ci := park_read_half (connection_new ti2 sock_i addr_r (local_node_id mr) caps) []).
  set (cr := park_read_half (connection_new tr2 sock_r addr_i (local_node_id mi) caps) []).
  destruct (register_can_meet (with_identity mi ki) addr_r ci now_i Hmi1 eq_refl) as (mi' & Ri & Ci).
  destruct (register_can_meet (with_identity mr kr) addr_i cr now_r Hmr1 eq_refl) as (mr' & Rr & Cr).
  exists (o_i ++ fi), (o_r ++ fr), cr, mi', mr'. split_and!; [| |exact Ci|exact Cr].
  - unfold connect_to_peer. rewrite bool_decide_false; [|intros ->; by apply (cm_self _ _ _ Hmi); symmetry; apply (Hpin _ eq_refl)].
    assert (from_option (manager_is_banned mi) false expected = false) as ->.
    { destruct expected as [e|]; [|done]. cbn. rewrite (Hpin e eq_refl). apply Hmi. }
    rewrite (cm_admission _ _ _ Hmi), Bi. cbn [map_err mbind result_bind]. unfold dial_session. rewrite Di. cbn [mbind result_bind].
    rewrite Ti. cbn [mbind result_bind]. change (manager_is_banned (with_identity mi ki) (node_id (pm_identity mr))) with (manager_is_banned mi (local_node_id mr)).
    rewrite (cm_banned _ _ _ Hmi), (cm_admission _ _ _ Hmi1). cbn [mbind result_bind].
    rewrite W1. cbn [mbind result_bind].
    change (pc_network_id (pm_config (with_identity mi ki))) with (pc_network_id (pm_config mi)). rewrite Hnet, R2. cbn [mbind result_bind].
    change (register_connection _ _ now_i) with (register_connection (with_identity mi ki) ci now_i). by rewrite Ri.
  - unfold accept_inbound. rewrite (cm_admission _ _ _ Hmr), Br. cbn [map_err mbind result_bind]. rewrite Dr. cbn [mbind result_bind].
    rewrite Tr. cbn [mbind result_bind]. change (manager_is_banned (with_identity mr kr) (node_id (pm_identity mi))) with (manager_is_banned mr (local_node_id mi)).
    rewrite (cm_banned _ _ _ Hmr), (cm_admission _ _ _ Hmr1). cbn [mbind result_bind].
    change (pc_network_id (pm_config (with_identity mr kr))) with nid. rewrite R1, W2.
    assert (negotiate_capabilities (pc_local_capabilities (pm_config (with_identity mr kr))) (hl_capabilities (local_hello (with_identity mi ki))) = caps)
      as -> by (unfold negotiate_capabilities, caps; cbn; apply Z.land_comm).
    change (park_read_half (connection_new tr2 sock_r addr_i (node_id (pm_identity mi)) caps) []) with cr. by rewrite Rr.
Qed.

(** *** Two concrete nodes *)

Definition bob_manager : PeerManager := peer_manager_new manager_config_default bob None 0.
Definition peer_addr1 : SocketAddr := SockV4 [x0a; x00; x01; x02] 8081.

Lemma fresh_can_meet keys addr peer :
  bool_decide (peer = node_id keys) = false → can_meet (peer_manager_new manager_config_default keys None 0) addr peer.
Proof.
  intros Hne%bool_decide_eq_false. split; try done; vm_compute; auto.
Qed.

Lemma honest_nodes_connect_witness :
  ∃ out_i out_r c mi' mr',
    connect_to_peer manager0 peer_addr1 (Some (local_node_id bob_manager)) out_r [] 1 = (Ok (out_i, local_node_id bob_manager), mi')
    ∧ accept_inbound bob_manager peer_addr0 out_i [] 1 = (Ok (out_r, c), mr')
    ∧ connected_to mi' (local_node_id bob_manager) peer_addr1 7 ∧ connected_to mr' (local_node_id manager0) peer_addr0 7.
Proof.
  apply (honest_nodes_connect manager0 bob_manager peer_addr0 peer_addr1 (Some (local_node_id bob_manager)) [] [] 1 1).
  - apply fresh_can_meet. vm_compute. reflexivity.
  - apply fresh_can_meet. vm_compute. reflexivity.
  - reflexivity.
  - intros e He. by injection He as ->.
Defined.
