(* ===== verification/Engine.v ===== *)
(** * Sync engine (crates/strangecoin-net/src/sync_engine.rs)

    The bounded inbox with its dedupe set, the consumer that drains it, and the node
    as the engine drives it ([BlockchainFacade]'s write side).  A channel is the list
    of messages queued in it; the consumer takes one message per step. *)

From S2P Require Import Prelude Bytes U256 Abi Types Address Serialize Consensus Mempool StateCache Executor Node Net Compact Gossip Chain Persist View Float RateLimiter.
From stdpp Require Import gmap.
Open Scope Z_scope.

Definition HEADERS_INBOX_CAP : nat := 64.
Definition BLOCKS_INBOX_CAP : nat := 256.
Definition SEEN_CAP : nat := 4096.

(** ** Messages *)

Inductive Incoming :=
  | NewBlock (block : Block) (from : option SocketAddr)
  | NewHeaders (headers : list BlockHeader) (from : option SocketAddr)
  | NewTx (tx : Transaction) (from : option SocketAddr)
  | CandidateChain (chain : list Block) (balances : option (gmap string Account))
      (mempool_txs pending_transactions : list Transaction) (difficulty : Z) (from : option SocketAddr).

Definition incoming_sender (m : Incoming) : option SocketAddr :=
  match m with NewBlock _ f | NewHeaders _ f | NewTx _ f | CandidateChain _ _ _ _ _ f => f end.

(** ** The dedupe set *)

Definition SeenCache : Type := gset string.

Definition seen_reserve (seen : SeenCache) (key : string) : SeenCache * bool :=
  if decide (key ∈ seen) then (seen, false) else
  let seen := if (SEEN_CAP <=? size seen)%nat then ∅ else seen in
  ({[key]} ∪ seen, true).

Definition seen_release (seen : SeenCache) (key : string) : SeenCache := seen ∖ {[key]}.

(** ** The inbox *)

Record Inbox := {
  ib_headers : list Incoming;
  ib_blocks : list Incoming;
  ib_open : bool;
  ib_seen : SeenCache;
  ib_rate_limiter : RateLimiter
}.

Definition inbox_new (limiter : RateLimiter) : Inbox :=
  {| ib_headers := []; ib_blocks := []; ib_open := true; ib_seen := ∅; ib_rate_limiter := limiter |}.

Definition is_headers (m : Incoming) : bool := match m with NewHeaders _ _ => true | _ => false end.

Definition with_seen (i : Inbox) (seen : SeenCache) : Inbox := {|
  ib_headers := ib_headers i; ib_blocks := ib_blocks i; ib_open := ib_open i; ib_seen := seen;
  ib_rate_limiter := ib_rate_limiter i |}.
Definition with_limiter (i : Inbox) (l : RateLimiter) : Inbox := {|
  ib_headers := ib_headers i; ib_blocks := ib_blocks i; ib_open := ib_open i; ib_seen := ib_seen i;
  ib_rate_limiter := l |}.

Inductive TrySend := Sent (i : Inbox) | Full | Closed.

(** [lane.try_send(msg)] on the lane of the message. *)
Definition try_send (i : Inbox) (m : Incoming) : TrySend :=
  if negb (ib_open i) then Closed else
  if is_headers m then
    if (HEADERS_INBOX_CAP <=? length (ib_headers i))%nat then Full
    else Sent {| ib_headers := ib_headers i ++ [m]; ib_blocks := ib_blocks i; ib_open := ib_open i;
                 ib_seen := ib_seen i; ib_rate_limiter := ib_rate_limiter i |}
  else
    if (BLOCKS_INBOX_CAP <=? length (ib_blocks i))%nat then Full
    else Sent {| ib_headers := ib_headers i; ib_blocks := ib_blocks i ++ [m]; ib_open := ib_open i;
                 ib_seen := ib_seen i; ib_rate_limiter := ib_rate_limiter i |}.

Section Inbox.
Context `{HX : Hex, B3 : Blake3}.

Definition dedupe_key (m : Incoming) : option string :=
  match m with
  | NewBlock block _ => Some ("b:" +:+ b_hash block)
  | NewTx tx _ => Some ("t:" +:+ hex_encode (txid tx))
  | CandidateChain chain _ _ _ _ _ => (λ b, "c:" +:+ b_hash b) <$> last chain
  | NewHeaders _ _ => None
  end.

Definition release_key (i : Inbox) (key : option string) : Inbox :=
  match key with Some k => with_seen i (seen_release (ib_seen i) k) | None => i end.

Definition enqueue (i : Inbox) (m : Incoming) (inbound : bool) (now : Z) : Inbox * bool :=
  let key := dedupe_key m in
  let '(seen, fresh) := match key with Some k => seen_reserve (ib_seen i) k | None => (ib_seen i, true) end in
  if negb fresh then (i, false) else
  let i := with_seen i seen in
  match try_send i m with
  | Sent i => (i, true)
  | Full =>
      let i := match inbound, incoming_sender m with
               | true, Some addr => with_limiter i (limiter_ban_at (ib_rate_limiter i) now addr)
               | _, _ => i
               end in
      (release_key i key, false)
  | Closed => (release_key i key, false)
  end.

Definition inbox_push (i : Inbox) (m : Incoming) (now : Z) : Inbox * bool := enqueue i m false now.
Definition push_inbound (i : Inbox) (m : Incoming) (now : Z) : Inbox * bool := enqueue i m true now.

(** [select! { biased; headers.recv(), blocks.recv() }]: the headers lane first. *)
Definition inbox_recv (i : Inbox) : option (Incoming * Inbox) :=
  match ib_headers i with
  | m :: rest => Some (m, {| ib_headers := rest; ib_blocks := ib_blocks i; ib_open := ib_open i;
                             ib_seen := ib_seen i; ib_rate_limiter := ib_rate_limiter i |})
  | [] =>
      match ib_blocks i with
      | m :: rest => Some (m, {| ib_headers := []; ib_blocks := rest; ib_open := ib_open i;
                                 ib_seen := ib_seen i; ib_rate_limiter := ib_rate_limiter i |})
      | [] => None
      end
  end.

End Inbox.

(** ** Processing *)

Record ChainSnapshot := {
  cs_chain : list Block; cs_balances : gmap string Account; cs_difficulty : Z;
  cs_mempool_txs : list Transaction; cs_total_work : U256
}.

(** [EventSink]; the reason of a rejection is the error itself, not its text. *)
Inductive EngineEvent (E : Type) :=
  | BlockApplied (height : Z) (hash : string)
  | BlockReorged (old_tip new_tip : string)
  | TxAccepted (txid : string)
  | TxRejected (txid : string) (reason : E)
  | StatePersisted (height : Z).
Arguments BlockApplied {E}. Arguments BlockReorged {E}. Arguments TxAccepted {E}.
Arguments TxRejected {E}. Arguments StatePersisted {E}.

(** The write side of the trait [BlockchainView]. *)
Class NodeOps (C E : Type) := {
  op_adopt : C → list Block → option (gmap string Account) → list Transaction → Z → result E (C * bool);
  op_apply_tx : C → Transaction → result E C;
  op_add_block : C → Block → result E C;
  op_save_state : C → C;
  op_snapshot_wire : C → ChainSnapshot
}.

Section Engine.
Context `{HX : Hex, B3 : Blake3} {C E : Type} `{BV : BlockchainView C, NO : NodeOps C E}.

Record World := { w_node : C; w_events : list (EngineEvent E); w_snapshots : list ChainSnapshot }.

Definition with_node (w : World) (c : C) : World :=
  {| w_node := c; w_events := w_events w; w_snapshots := w_snapshots w |}.
Definition publish (w : World) (evs : list (EngineEvent E)) : World :=
  {| w_node := w_node w; w_events := w_events w ++ evs; w_snapshots := w_snapshots w |}.

Definition announce_applied (w : World) (old_tip : string) : World :=
  let c := w_node w in
  let height := Z.max 0 (Z.of_nat (bv_chain_len c) - 1) in
  let new_tip := bv_tip_hash c in
  let reorg := if bool_decide (new_tip = old_tip) then []
               else if bv_chain_contains_block c old_tip then [] else [BlockReorged old_tip new_tip] in
  {| w_node := c; w_events := w_events w ++ reorg ++ [StatePersisted height; BlockApplied height new_tip];
     w_snapshots := w_snapshots w ++ [op_snapshot_wire c] |}.

(** One transaction of a rejected candidate's pool. *)
Definition salvage (acc : result E C) (tx : Transaction) : result E C :=
  c ← acc;
  if bv_chain_contains_tx c tx then Ok c else
  if bv_mempool_contains c (txid tx) then Ok c else
  match op_apply_tx c tx with Ok c' => Ok c' | Err _ => Ok c | Panic => Panic end.

Definition process (w : World) (m : Incoming) : result E World :=
  match m with
  | CandidateChain chain balances mempool_txs pending difficulty _ =>
      let old_tip := bv_tip_hash (w_node w) in
      match op_adopt (w_node w) chain balances mempool_txs difficulty with
      | Ok (c, true) => Ok (announce_applied (with_node w c) old_tip)
      | Ok (c, false) =>
          c ← foldl salvage (Ok c) (mempool_txs ++ pending);
          Ok (with_node w (op_save_state c))
      | Err _ => Ok w
      | Panic => Panic
      end
  | NewBlock block _ =>
      let old_tip := bv_tip_hash (w_node w) in
      match op_add_block (w_node w) block with
      | Ok c => Ok (announce_applied (with_node w c) old_tip)
      | Err _ => Ok w
      | Panic => Panic
      end
  | NewTx tx _ =>
      let id := hex_encode (txid tx) in
      match op_apply_tx (w_node w) tx with
      | Ok c => Ok (publish (with_node w c) [TxAccepted id])
      | Err e => Ok (publish w [TxRejected id e])
      | Panic => Panic
      end
  | NewHeaders _ _ => Ok w
  end.

End Engine.

(** ** The node behind the engine (src/blockchain/blockchain_facade.rs) *)

(** The chain, its database and the announcements of evicted transactions. *)
Record Facade := { fc_chain : Blockchain; fc_db : Db; fc_evicted : list TxId }.

Section Facade.
Context `{HX : Hex, B3 : Blake3, B32 : Bech32, SK : Secp256k1}.
Context `{VR : VmRuntime V} (vm_wasm : bool) (json_len : Transaction → Z) (now : Z).

Definition facade_save (f : Facade) : Facade :=
  {| fc_chain := fc_chain f; fc_db := save_state (fc_db f) (fc_chain f); fc_evicted := fc_evicted f |}.
Definition facade_set (f : Facade) (bc : Blockchain) : Facade :=
  {| fc_chain := bc; fc_db := fc_db f; fc_evicted := fc_evicted f |}.

Definition facade_add_block (f : Facade) (block : Block) : result Node.StrangecoinError Facade :=
  bc ← commit_block vm_wasm (fc_chain f) now block; Ok (facade_save (facade_set f bc)).

Definition facade_apply_tx (f : Facade) (tx : Transaction) : result Node.StrangecoinError Facade :=
  '(outcome, bc) ← add_transaction json_len (fc_chain f) tx;
  let f := facade_set f bc in
  Ok match outcome with
     | Replaced evicted => {| fc_chain := fc_chain f; fc_db := fc_db f; fc_evicted := fc_evicted f ++ evicted |}
     | _ => f
     end.

Definition facade_adopt (f : Facade) (chain : list Block) (balances : option (gmap string Account))
    (mempool_txs : list Transaction) (difficulty : Z) : result Node.StrangecoinError (Facade * bool) :=
  '(bc, adopted) ← try_adopt_candidate vm_wasm (fc_chain f) now chain balances mempool_txs difficulty;
  let f := facade_set f bc in
  Ok (if adopted : bool then facade_save f else f, adopted).

Definition snapshot_wire (bc : Blockchain) : ChainSnapshot := {|
  cs_chain := bc_chain bc; cs_balances := sc_accounts (bc_balances bc); cs_difficulty := bc_difficulty bc;
  cs_mempool_txs := []; cs_total_work := bc_total_work bc |}.

Definition facade_ops : NodeOps Facade Node.StrangecoinError := {|
  op_adopt := facade_adopt; op_apply_tx := facade_apply_tx; op_add_block := facade_add_block;
  op_save_state := facade_save; op_snapshot_wire f := snapshot_wire (fc_chain f)
|}.

(** The read side, through the chain. *)
Definition facade_reads : BlockchainView Facade := {|
  bv_tip_hash f := bv_tip_hash (fc_chain f);
  bv_chain_len f := bv_chain_len (fc_chain f);
  bv_chain_contains_tx f := bv_chain_contains_tx (fc_chain f);
  bv_mempool_contains f := bv_mempool_contains (fc_chain f);
  bv_mempool_tx f := bv_mempool_tx (fc_chain f);
  bv_mempool_txs f := bv_mempool_txs (fc_chain f);
  bv_block_by_hash f := bv_block_by_hash (fc_chain f);
  bv_chain_contains_block f := bv_chain_contains_block (fc_chain f);
  bv_headers_from_height f := bv_headers_from_height (fc_chain f);
  bv_blocks_by_hashes f := bv_blocks_by_hashes (fc_chain f)
|}.

(** What the engine task does with one message at time [now]. *)
Definition engine_process (w : World (C := Facade) (E := Node.StrangecoinError)) (m : Incoming)
    : result Node.StrangecoinError (World (C := Facade) (E := Node.StrangecoinError)) :=
  process (BV := facade_reads) (NO := facade_ops) w m.

(** One turn of the loop of [SyncEngine::run] with a message queued; an idle turn
    changes nothing. *)
Definition engine_turn (i : Inbox) (w : World (C := Facade) (E := Node.StrangecoinError))
    : result Node.StrangecoinError (Inbox * World (C := Facade) (E := Node.StrangecoinError)) :=
  match inbox_recv i with
  | Some (m, i) => w ← engine_process w m; Ok (i, w)
  | None => Ok (i, w)
  end.

End Facade.
