(* ===== verification/EngineProps.v ===== *)
(** * Properties of the sync engine

    The inbox is a pair of bounded first-in first-out lanes behind a bounded dedupe
    set; draining it keeps the node consistent, persisted and correctly announced. *)

From S2P Require Import Prelude Bytes U256 Abi Types Address Concrete Serialize Consensus StateCache Mempool Executor ExecutorProps Node Net Compact Gossip ChainProps Chain NodeProps ChainWitness Persist PersistProps View Float RateLimiter Engine.
From stdpp Require Import gmap.
Open Scope Z_scope.

(** ** The inbox *)

Section InboxProps.
Context `{HX : Hex, B3 : Blake3}.

Definition in_lane (m : Incoming) (i : Inbox) : list Incoming :=
  if is_headers m then ib_headers i else ib_blocks i.
Definition lane_cap (m : Incoming) : nat := if is_headers m then HEADERS_INBOX_CAP else BLOCKS_INBOX_CAP.

Definition headers_of (l : list Incoming) : list Incoming := filter (λ m, is_headers m = true) l.
Definition blocks_of (l : list Incoming) : list Incoming := filter (λ m, is_headers m = false) l.

Record inbox_bounded (i : Inbox) : Prop := {
  bounded_headers : (length (ib_headers i) ≤ HEADERS_INBOX_CAP)%nat;
  bounded_blocks : (length (ib_blocks i) ≤ BLOCKS_INBOX_CAP)%nat;
  bounded_seen : (size (ib_seen i) ≤ SEEN_CAP)%nat
}.

Lemma reserve_spec seen key :
  seen_reserve seen key = (seen, false) ∧ key ∈ seen
  ∨ ∃ seen', seen_reserve seen key = (seen', true) ∧ (key ∉ seen) ∧ key ∈ seen'
      ∧ ((size seen ≤ SEEN_CAP)%nat → (size seen' ≤ SEEN_CAP)%nat).
Proof.
  unfold seen_reserve. case_decide as Hin; [by left|]. right. eexists. split_and!; [done|done|set_solver|].
  destruct (Nat.leb_spec SEEN_CAP (size seen)) as [|Hlt]; intros _.
  - rewrite union_empty_r_L, size_singleton. unfold SEEN_CAP. lia.
  - rewrite size_union by set_solver. rewrite size_singleton. lia.
Qed.

Lemma release_size seen key : (size (seen_release seen key) ≤ size seen)%nat.
Proof. apply subseteq_size. unfold seen_release. set_solver. Qed.

Lemma try_send_spec i m :
  match try_send i m with
  | Sent i' => ib_open i = true ∧ (length (in_lane m i) < lane_cap m)%nat
      ∧ i' = {| ib_headers := ib_headers i ++ headers_of [m]; ib_blocks := ib_blocks i ++ blocks_of [m];
                ib_open := true; ib_seen := ib_seen i; ib_rate_limiter := ib_rate_limiter i |}
  | Full => ib_open i = true ∧ (lane_cap m ≤ length (in_lane m i))%nat
  | Closed => ib_open i = false
  end.
Proof.
  unfold try_send, in_lane, lane_cap, headers_of, blocks_of. destruct (ib_open i) eqn:Ho; cbn [negb]; [|done].
  destruct (is_headers m) eqn:Hm.
  - destruct (Nat.leb_spec HEADERS_INBOX_CAP (length (ib_headers i))); [done|]. split_and!; [done|lia|].
    rewrite filter_cons_True, filter_cons_False by congruence. by rewrite app_nil_r.
  - destruct (Nat.leb_spec BLOCKS_INBOX_CAP (length (ib_blocks i))); [done|]. split_and!; [done|lia|].
    rewrite filter_cons_False, filter_cons_True by congruence. by rewrite app_nil_r.
Qed.

(** Whether a push that fails on a full lane bans its sender. *)
Definition flood_ban (i : Inbox) (m : Incoming) (inbound : bool) (now : Z) : RateLimiter :=
  match inbound, incoming_sender m with
  | true, Some addr => limiter_ban_at (ib_rate_limiter i) now addr
  | _, _ => ib_rate_limiter i
  end.

Lemma banned_now l now addr t :
  now ≤ t < now + pl_ban_duration (peer_entry l addr now) →
  limiter_is_banned_at (limiter_ban_at l now addr) t addr = true.
Proof.
  intros H. unfold limiter_is_banned_at, limiter_ban_at, put_peer. cbn [lm_peers]. rewrite lookup_insert_eq.
  unfold is_banned_at, limiter_ban. cbn [pl_banned_until with_violations]. lia.
Qed.

(** The four ways [enqueue] ends. *)
Inductive enqueued (i : Inbox) (m : Incoming) (inbound : bool) (now : Z) : Inbox * bool → Prop :=
  | enq_duplicate key : dedupe_key m = Some key → key ∈ ib_seen i → enqueued i m inbound now (i, false)
  | enq_sent i' :
      ib_open i = true → (length (in_lane m i) < lane_cap m)%nat →
      (∀ key, dedupe_key m = Some key → (key ∉ ib_seen i) ∧ key ∈ ib_seen i') →
      ib_headers i' = ib_headers i ++ headers_of [m] → ib_blocks i' = ib_blocks i ++ blocks_of [m] →
      ib_open i' = true → ib_rate_limiter i' = ib_rate_limiter i →
      ((size (ib_seen i) ≤ SEEN_CAP)%nat → (size (ib_seen i') ≤ SEEN_CAP)%nat) →
      enqueued i m inbound now (i', true)
  | enq_dropped i' :
      (ib_open i = true → (lane_cap m ≤ length (in_lane m i))%nat) →
      (∀ key, dedupe_key m = Some key → key ∉ ib_seen i') →
      ib_headers i' = ib_headers i → ib_blocks i' = ib_blocks i → ib_open i' = ib_open i →
      ib_rate_limiter i' = (if ib_open i then flood_ban i m inbound now else ib_rate_limiter i) →
      ((size (ib_seen i) ≤ SEEN_CAP)%nat → (size (ib_seen i') ≤ SEEN_CAP)%nat) →
      enqueued i m inbound now (i', false).

Lemma release_fields i key :
  ib_headers (release_key i key) = ib_headers i ∧ ib_blocks (release_key i key) = ib_blocks i
  ∧ ib_open (release_key i key) = ib_open i ∧ ib_rate_limiter (release_key i key) = ib_rate_limiter i
  ∧ (size (ib_seen (release_key i key)) ≤ size (ib_seen i))%nat
  ∧ ∀ k, key = Some k → k ∉ ib_seen (release_key i key).
Proof.
  destruct key as [k|]; cbn; [|done]. split_and!; [done..|apply release_size|].
  intros k' [= <-]. unfold seen_release. set_solver.
Qed.

Lemma enqueue_spec i m inbound now : enqueued i m inbound now (enqueue i m inbound now).
Proof.
  unfold enqueue. set (key := dedupe_key m).
  destruct (match key with Some k => seen_reserve (ib_seen i) k | None => (ib_seen i, true) end)
    as [seen fresh] eqn:E.
  destruct fresh; cbn [negb].
  2:{ destruct key as [k|] eqn:Ek; [|done].
      destruct (reserve_spec (ib_seen i) k) as [[_ Hin]|(s & E' & _)]; [|congruence].
      by apply (enq_duplicate i m inbound now k). }
  assert (((size (ib_seen i) ≤ SEEN_CAP)%nat → (size seen ≤ SEEN_CAP)%nat)
    ∧ ∀ k, key = Some k → (k ∉ ib_seen i) ∧ k ∈ seen) as [Hsz Hkey].
  { destruct key as [k|]; [|by injection E as <-].
    destruct (reserve_spec (ib_seen i) k) as [[E' _]|(s & E' & Hni & Hs & Hsz)]; [congruence|].
    rewrite E' in E. injection E as <-. split; [done|]. by intros ? [= <-]. }
  pose proof (try_send_spec (with_seen i seen) m) as Hs.
  destruct (try_send (with_seen i seen) m) as [i'| |].
  - destruct Hs as (Ho & Hl & ->). by apply enq_sent.
  - destruct Hs as [Ho Hl]. set (j := match inbound with true => _ | false => _ end).
    assert (ib_headers j = ib_headers i ∧ ib_blocks j = ib_blocks i ∧ ib_open j = ib_open i
      ∧ ib_seen j = seen ∧ ib_rate_limiter j = flood_ban i m inbound now) as (J1 & J2 & J3 & J4 & J5).
    { unfold j, flood_ban. by destruct inbound, (incoming_sender m). }
    destruct (release_fields j key) as (R1 & R2 & R3 & R4 & R5 & R6).
    change (ib_open (with_seen i seen)) with (ib_open i) in Ho.
    apply enq_dropped; [done|done|congruence..| |rewrite J4 in R5; lia].
    rewrite R4, J5. by rewrite Ho.
  - destruct (release_fields (with_seen i seen) key) as (R1 & R2 & R3 & R4 & R5 & R6).
    change (ib_open (with_seen i seen)) with (ib_open i) in Hs.
    apply enq_dropped; [congruence|done..| |cbn [ib_seen with_seen] in R5; lia].
    rewrite R4. by rewrite Hs.
Qed.

(** C28: Every way a message can be refused leaves the queues alone: a push either
    appends the message at the end of its lane and reserves its key, or reports failure
    with both lanes unchanged: a message already seen changes nothing at all, a message
    that meets a full or closed lane gives its key back so that it can be sent again,
    and when a peer's message meets a full lane the peer is banned for its ban period. *)
Theorem enqueue_outcome i m inbound now :
  let '(i', sent) := enqueue i m inbound now in
  if sent then
    ib_open i = true ∧ (length (in_lane m i) < lane_cap m)%nat ∧ in_lane m i' = in_lane m i ++ [m]
    ∧ ∀ key, dedupe_key m = Some key → (key ∉ ib_seen i) ∧ key ∈ ib_seen i'
  else
    ib_headers i' = ib_headers i ∧ ib_blocks i' = ib_blocks i ∧
    ((∃ key, dedupe_key m = Some key ∧ key ∈ ib_seen i) ∧ i' = i
     ∨ (ib_open i = false ∨ (lane_cap m ≤ length (in_lane m i))%nat)
       ∧ (∀ key, dedupe_key m = Some key → key ∉ ib_seen i')
       ∧ ∀ addr t, ib_open i = true → inbound = true → incoming_sender m = Some addr →
           now ≤ t < now + pl_ban_duration (peer_entry (ib_rate_limiter i) addr now) →
           limiter_is_banned_at (ib_rate_limiter i') t addr = true).
Proof.
  pose proof (enqueue_spec i m inbound now) as H. destruct (enqueue i m inbound now) as [i' sent].
  inversion H as [key Hk Hin|j Ho Hl Hk Eh Eb _ _ _|j Hl Hk Eh Eb Ho Er _]; subst.
  - split_and!; [done..|]. left. by split; [exists key|].
  - split_and!; [done..| |done]. unfold in_lane, headers_of, blocks_of in *. destruct (is_headers m) eqn:Em.
    + by rewrite Eh, filter_cons_True.
    + by rewrite Eb, filter_cons_True.
  - split_and!; [done..|]. right. split_and!; [|done|].
    + destruct (ib_open i); [right; by apply Hl|by left].
    + intros addr t Hop -> Hs Ht. rewrite Er, Hop. unfold flood_ban. rewrite Hs. by apply banned_now.
Qed.

(** ** Delivery *)

(** The inbox in use: the messages accepted so far, and those handed to the engine. *)
Inductive inbox_run : list Incoming → list Incoming → Inbox → Prop :=
  | run_new limiter : inbox_run [] [] (inbox_new limiter)
  | run_push accepted got i m inbound now i' sent :
      inbox_run accepted got i → enqueue i m inbound now = (i', sent) →
      inbox_run (if sent : bool then accepted ++ [m] else accepted) got i'
  | run_recv accepted got i m i' :
      inbox_run accepted got i → inbox_recv i = Some (m, i') → inbox_run accepted (got ++ [m]) i'.

Lemma enqueue_bounded i m inbound now :
  inbox_bounded i → inbox_bounded (enqueue i m inbound now).1.
Proof.
  intros [Hh Hb Hs]. pose proof (enqueue_spec i m inbound now) as H.
  destruct (enqueue i m inbound now) as [i' sent]. cbn [fst].
  inversion H as [key Hk Hin|j Ho Hl Hk Eh Eb _ _ Hz|j Hl Hk Eh Eb Ho Er Hz]; subst; constructor;
    rewrite ?Eh, ?Eb; auto.
  all: unfold in_lane, lane_cap, headers_of, blocks_of in *; rewrite length_app.
  - destruct (decide (is_headers m = true)) as [Em|Em].
    + rewrite Em in Hl. rewrite filter_cons_True by done. cbn. lia.
    + rewrite filter_cons_False by done. cbn. lia.
  - destruct (decide (is_headers m = false)) as [Em|Em].
    + rewrite Em in Hl. rewrite filter_cons_True by done. cbn. lia.
    + rewrite filter_cons_False by done. cbn. lia.
Qed.

Lemma recv_spec i m i' :
  inbox_recv i = Some (m, i') →
  (ib_headers i = m :: ib_headers i' ∧ ib_blocks i' = ib_blocks i
   ∨ ib_headers i = [] ∧ ib_headers i' = [] ∧ ib_blocks i = m :: ib_blocks i')
  ∧ ib_seen i' = ib_seen i.
Proof.
  unfold inbox_recv. destruct (ib_headers i) as [|h hs] eqn:Eh.
  - destruct (ib_blocks i) as [|b bs]; [done|]. intros [= <- <-]. split; [by right|done].
  - intros [= <- <-]. split; [by left|done].
Qed.

Lemma recv_bounded i m i' : inbox_bounded i → inbox_recv i = Some (m, i') → inbox_bounded i'.
Proof.
  intros [Hh Hb Hs] (H & Es)%recv_spec. constructor; [..|by rewrite Es].
  - destruct H as [(E & _)|(_ & E & _)]; [rewrite E in Hh; cbn in Hh; lia|rewrite E; cbn; lia].
  - destruct H as [(_ & E)|(_ & _ & E)]; [by rewrite E|rewrite E in Hb; cbn in Hb; lia].
Qed.

Lemma run_lanes accepted got i :
  inbox_run accepted got i →
  (Forall (λ m, is_headers m = true) (ib_headers i) ∧ Forall (λ m, is_headers m = false) (ib_blocks i))
  ∧ headers_of accepted = headers_of got ++ ib_headers i
  ∧ blocks_of accepted = blocks_of got ++ ib_blocks i.
Proof.
  induction 1 as [limiter|acc got i m inbound now i' sent _ IH Hp|acc got i m i' _ IH Hr]; [done|..].
  - destruct IH as ((F1 & F2) & E1 & E2). pose proof (enqueue_spec i m inbound now) as H. rewrite Hp in H.
    inversion H as [key Hk Hin|j Ho Hl Hk Eh Eb _ _ _|j Hl Hk Eh Eb Ho Er _]; subst; [done| |by rewrite Eh, Eb].
    rewrite Eh, Eb. unfold headers_of, blocks_of in *. rewrite !filter_app, E1, E2, <- !app_assoc.
    split_and!; [..|done|done]; apply Forall_app; split; try done; apply Forall_forall;
      intros x Hx%list_elem_of_filter; apply Hx.
  - destruct IH as ((F1 & F2) & E1 & E2). apply recv_spec in Hr as ([[Eh Eb]|(Eh & Eh' & Eb)] & _).
    + rewrite Eh in F1, E1. apply Forall_cons in F1 as [Hm F1]. rewrite Eb.
      unfold headers_of, blocks_of in *. rewrite !filter_app, E1, E2, <- !app_assoc.
      rewrite filter_cons_True, filter_cons_False by congruence. by split_and!.
    + rewrite Eb in F2, E2. apply Forall_cons in F2 as [Hm F2]. rewrite Eh in E1. rewrite Eh'.
      unfold headers_of, blocks_of in *. rewrite !filter_app, E1, E2, <- !app_assoc.
      rewrite filter_cons_False, filter_cons_True by congruence. by split_and!.
Qed.

(** The inbox is two bounded first-in first-out queues: whatever its producers push
    and however the engine drains it, each lane has delivered exactly the messages it
    accepted, in order and without loss, up to those still queued; the headers lane
    never holds more than 64 messages, the other lane never more than 256 and the
    dedupe set never more than 4096 keys; and headers are delivered before blocks. *)
Theorem inbox_fifo accepted got i :
  inbox_run accepted got i →
  headers_of accepted = headers_of got ++ ib_headers i
  ∧ blocks_of accepted = blocks_of got ++ ib_blocks i
  ∧ inbox_bounded i
  ∧ ∀ m i', inbox_recv i = Some (m, i') → is_headers m = false → ib_headers i = [].
Proof.
  intros H. pose proof (run_lanes _ _ _ H) as ((F1 & F2) & E1 & E2). split_and!; [done..| |].
  - clear F1 F2 E1 E2. induction H as [limiter|acc got i m inbound now i' sent _ IH Hp|acc got i m i' _ IH Hr].
    + constructor; cbn; rewrite ?size_empty; lia.
    + pose proof (enqueue_bounded i m inbound now IH) as Hb. by rewrite Hp in Hb.
    + by eapply recv_bounded.
  - intros m i' ([[Eh _]|(Eh & _)] & _)%recv_spec Hm; [|done].
    rewrite Eh in F1. apply Forall_cons in F1 as [? _]. congruence.
Qed.
End InboxProps.

(** ** Processing *)

Section EngineProps.
Context `{HX : Hex, B3 : Blake3, B32 : Bech32, SK : Secp256k1}.
Context `{VR : VmRuntime V} (vm_wasm : bool) (json_len : Transaction → Z).

Abbreviation world := (World (C := Facade) (E := Node.StrangecoinError)).
Abbreviation chain_of w := (bc_chain (fc_chain (w_node w))).

Definition tip_string (chain : list Block) : string := from_option b_hash "" (last chain).

(** What is published when [chain] replaces a chain with tip [old_tip]. *)
Definition announcement (old_tip : string) (chain : list Block) : list (EngineEvent Node.StrangecoinError) :=
  let h := Z.of_nat (length chain) - 1 in
  (if chain_contains_block chain old_tip then [] else [BlockReorged old_tip (tip_string chain)])
  ++ [StatePersisted h; BlockApplied h (tip_string chain)].

Lemma tip_contained chain : chain ≠ [] → chain_contains_block chain (tip_string chain) = true.
Proof.
  intros Hne. destruct (last chain) as [b|] eqn:El; [|by apply last_None in El].
  unfold chain_contains_block, tip_string. rewrite El. cbn. apply existsb_exists. exists b.
  split; [|by apply bool_decide_eq_true]. apply list_elem_of_In.
  apply last_Some in El as [l ->]. set_solver.
Qed.

Lemma announce_effect (w : world) old_tip :
  chain_of w ≠ [] →
  announce_applied (BV := facade_reads) (NO := facade_ops vm_wasm json_len 0) w old_tip
  = {| w_node := w_node w; w_events := w_events w ++ announcement old_tip (chain_of w);
       w_snapshots := w_snapshots w ++ [snapshot_wire (fc_chain (w_node w))] |}.
Proof.
  intros Hne. unfold announce_applied, announcement.
  cbn [bv_chain_len bv_tip_hash bv_chain_contains_block facade_reads facade_view op_snapshot_wire facade_ops].
  assert (Z.max 0 (Z.of_nat (length (chain_of w)) - 1) = Z.of_nat (length (chain_of w)) - 1) as ->
    by (destruct (chain_of w); [done|cbn [length]; lia]).
  fold (tip_string (chain_of w)). case_bool_decide as E; [|done].
  by rewrite <- E, tip_contained.
Qed.

Lemma commit_chain now bc block bc' :
  commit_block vm_wasm bc now block = Ok bc' → bc_chain bc' = bc_chain bc ++ [block].
Proof.
  intros H. unfold commit_block, install in H. apply bind_ok_inv in H as (s & _ & H).
  by apply bind_ok_inv in H as (? & _ & [= <-]).
Qed.

Lemma add_transaction_chain bc tx out bc' :
  add_transaction json_len bc tx = Ok (out, bc') → bc_chain bc' = bc_chain bc.
Proof.
  intros H. unfold add_transaction in H. case_match; [done|]. case_match; [done|].
  by apply bind_ok_inv in H as ([o p] & _ & [= _ <-]).
Qed.

Lemma apply_tx_inv f tx f' :
  facade_apply_tx json_len f tx = Ok f' →
  fc_db f' = fc_db f ∧ ∃ out, add_transaction json_len (fc_chain f) tx = Ok (out, fc_chain f').
Proof.
  unfold facade_apply_tx. intros H. apply bind_ok_inv in H as ([out bc] & H & [= <-]).
  destruct out; split; try done; by eexists.
Qed.

(** Salvaging a pool is a sequence of accepted transactions. *)
Lemma salvage_inv now (P : Blockchain → Prop) f txs f' :
  (∀ bc tx out bc', P bc → add_transaction json_len bc tx = Ok (out, bc') → P bc') → P (fc_chain f) →
  foldl (salvage (BV := facade_reads) (NO := facade_ops vm_wasm json_len now)) (Ok f) txs = Ok f' →
  P (fc_chain f') ∧ fc_db f' = fc_db f.
Proof.
  intros Hstep. revert f. induction txs as [|tx txs IH]; intros f Hf; cbn [foldl]; [by intros [= <-]|].
  destruct (salvage (Ok f) tx) as [f1|e|] eqn:E.
  - assert (P (fc_chain f1) ∧ fc_db f1 = fc_db f) as [Hf1 Hdb].
    { unfold salvage in E. cbn [mbind result_bind] in E. do 2 (case_match; [by injection E as <-|]).
      cbn [op_apply_tx facade_ops] in E.
      destruct (facade_apply_tx json_len f tx) as [f2|e|] eqn:Ea; [|by injection E as <-|done].
      injection E as <-. apply apply_tx_inv in Ea as (? & out & Ea). eauto. }
    rewrite <- Hdb. by apply IH.
  - intros H. exfalso. clear -H. induction txs; [done|]. by apply IHtxs.
  - intros H. exfalso. clear -H. induction txs; [done|]. by apply IHtxs.
Qed.

(** The outcomes of processing a message. *)
Inductive processed (now : Z) (w : world) : Incoming → world → Prop :=
  | proc_ignored hs from : processed now w (NewHeaders hs from) w
  | proc_block_refused block from e :
      commit_block vm_wasm (fc_chain (w_node w)) now block = Err e → processed now w (NewBlock block from) w
  | proc_adopt_failed chain balances mempool_txs pending difficulty from e :
      try_adopt_candidate vm_wasm (fc_chain (w_node w)) now chain balances mempool_txs difficulty = Err e →
      processed now w (CandidateChain chain balances mempool_txs pending difficulty from) w
  | proc_block block from bc :
      commit_block vm_wasm (fc_chain (w_node w)) now block = Ok bc →
      let f := facade_save (facade_set (w_node w) bc) in
      processed now w (NewBlock block from)
        {| w_node := f; w_events := w_events w ++ announcement (tip_string (chain_of w)) (bc_chain bc);
           w_snapshots := w_snapshots w ++ [snapshot_wire bc] |}
  | proc_adopted chain balances mempool_txs pending difficulty from bc :
      try_adopt_candidate vm_wasm (fc_chain (w_node w)) now chain balances mempool_txs difficulty
        = Ok (bc, true) →
      let f := facade_save (facade_set (w_node w) bc) in
      processed now w (CandidateChain chain balances mempool_txs pending difficulty from)
        {| w_node := f; w_events := w_events w ++ announcement (tip_string (chain_of w)) chain;
           w_snapshots := w_snapshots w ++ [snapshot_wire bc] |}
  | proc_salvaged chain balances mempool_txs pending difficulty from bc f :
      try_adopt_candidate vm_wasm (fc_chain (w_node w)) now chain balances mempool_txs difficulty
        = Ok (bc, false) →
      (∀ P : Blockchain → Prop,
         (∀ bc tx out bc', P bc → add_transaction json_len bc tx = Ok (out, bc') → P bc') →
         P (fc_chain (w_node w)) → P (fc_chain f)) →
      fc_db f = save_state (fc_db (w_node w)) (fc_chain f) →
      processed now w (CandidateChain chain balances mempool_txs pending difficulty from) (with_node w f)
  | proc_tx tx from f out :
      add_transaction json_len (fc_chain (w_node w)) tx = Ok (out, fc_chain f) →
      fc_db f = fc_db (w_node w) →
      processed now w (NewTx tx from) (publish (with_node w f) [TxAccepted (hex_encode (txid tx))])
  | proc_tx_refused tx from e :
      add_transaction json_len (fc_chain (w_node w)) tx = Err e →
      processed now w (NewTx tx from) (publish w [TxRejected (hex_encode (txid tx)) e]).

Lemma process_spec now (w : world) m w' :
  engine_process vm_wasm json_len now w m = Ok w' → processed now w m w'.
Proof.
  intros H. unfold engine_process in H. destruct m as [block from|hs from|tx from|chain balances txs pend diff from];
    cbn [process] in H.
  - cbn [op_add_block facade_ops] in H. unfold facade_add_block in H.
    destruct (commit_block vm_wasm _ now block) as [bc|e|] eqn:E; cbn [mbind result_bind] in H;
      [|injection H as <-; by econstructor|done].
    injection H as <-. pose proof (commit_chain _ _ _ _ E) as Hc.
    pose proof (announce_effect (with_node w (facade_save (facade_set (w_node w) bc)))
      (tip_string (chain_of w))) as Ha. cbn [w_node with_node fc_chain facade_save facade_set] in Ha.
    refine (eq_rect_r _ (proc_block now w block from bc E) (Ha _)). rewrite Hc. by destruct (chain_of w).
  - injection H as <-. constructor.
  - cbn [op_apply_tx facade_ops] in H. unfold facade_apply_tx in H.
    destruct (facade_apply_tx json_len (w_node w) tx) as [f|e|] eqn:E; unfold facade_apply_tx in E;
      rewrite E in H; [..|done]; injection H as <-.
    + apply apply_tx_inv in E as (Hdb & out & E). by eapply proc_tx.
    + apply proc_tx_refused. destruct (add_transaction json_len _ tx) as [[o bc]|e'|]; [done| |done].
      cbn [mbind result_bind] in E. congruence.
  - cbn [op_adopt facade_ops] in H. unfold facade_adopt in H.
    destruct (try_adopt_candidate vm_wasm _ now chain balances txs diff) as [[bc adopted]|e|] eqn:E;
      cbn [mbind result_bind] in H; [|injection H as <-; by econstructor|done].
    pose proof (adopt_inv _ _ _ _ _ _ _ _ _ E) as Hinv. destruct adopted.
    + injection H as <-. destruct Hinv as (Hl & _ & _ & Hc & _).
      pose proof (announce_effect (with_node w (facade_save (facade_set (w_node w) bc)))
        (tip_string (chain_of w))) as Ha. cbn [w_node with_node fc_chain facade_save facade_set] in Ha.
      rewrite Hc in Ha. refine (eq_rect_r _ (proc_adopted now w chain balances txs pend diff from bc E) (Ha _)).
      by destruct chain.
    + rewrite Hinv in H. apply bind_ok_inv in H as (f & Hf & [= <-]).
      apply (proc_salvaged now w chain balances txs pend diff from bc (facade_save f)); [done|..].
      * intros P Hstep HP. by destruct (salvage_inv now P (facade_set (w_node w) (fc_chain (w_node w))) _ _ Hstep HP Hf) as [? _].
      * destruct (salvage_inv now (λ _, True) _ _ _ (λ _ _ _ _ _ _, I) I Hf) as [_ Hdb].
        cbn [fc_db facade_save fc_chain]. by rewrite Hdb.
Qed.

(** The engine publishes from a world in which nothing is announced yet and whose
    database already holds the chain of [bc]. *)
Definition saved_then_announced (now : Z) (w : world) (bc : Blockchain) (w' : world) : Prop :=
  ∃ f, fc_chain f = bc ∧ db_chain (fc_db f) = Some (bc_chain bc)
    ∧ w' = announce_applied (BV := facade_reads) (NO := facade_ops vm_wasm json_len now)
             (with_node w f) (tip_string (chain_of w)).

(** What publishing adds. *)
Lemma saved_then_announced_intro now (w : world) bc :
  bc_chain bc ≠ [] →
  saved_then_announced now w bc
    {| w_node := facade_save (facade_set (w_node w) bc);
       w_events := w_events w ++ announcement (tip_string (chain_of w)) (bc_chain bc);
       w_snapshots := w_snapshots w ++ [snapshot_wire bc] |}.
Proof.
  intros Hne. exists (facade_save (facade_set (w_node w) bc)). split_and!; [done|done|].
  symmetry. exact (announce_effect (with_node w (facade_save (facade_set (w_node w) bc))) (tip_string (chain_of w)) Hne).
Qed.

(** A block on top is not a reorganisation. *)
Lemma announcement_extend (chain : list Block) block :
  chain ≠ [] →
  announcement (tip_string chain) (chain ++ [block])
  = [StatePersisted (Z.of_nat (length chain)); BlockApplied (Z.of_nat (length chain)) (b_hash block)].
Proof.
  intros Hne. unfold announcement. assert (tip_string (chain ++ [block]) = b_hash block) as ->
    by (unfold tip_string; by rewrite last_snoc).
  assert (chain_contains_block (chain ++ [block]) (tip_string chain) = true) as ->.
  { pose proof (tip_contained _ Hne) as Ht. unfold chain_contains_block in *. by rewrite existsb_app, Ht. }
  rewrite length_app. cbn [length app]. by replace (Z.of_nat (length chain + 1) - 1) with (Z.of_nat (length chain)) by lia.
Qed.


(** ** The engine and its node *)

Definition applied (ev : EngineEvent Node.StrangecoinError) : option (Z * string) :=
  match ev with BlockApplied h hash => Some (h, hash) | _ => None end.

(** An inbox and a node, from a node with chain [chain0] saved in its database: any
    producer pushes any message, the engine takes its turns, the clock never runs
    backwards. *)
Inductive system_run (chain_id : Z) (chain0 : list Block) : Z → Inbox → world → Prop :=
  | sys_start now bc db limiter :
      node_reachable vm_wasm json_len chain_id now bc → bc_chain bc = chain0 → db_chain db = Some chain0 →
      system_run chain_id chain0 now (inbox_new limiter)
        {| w_node := {| fc_chain := bc; fc_db := db; fc_evicted := [] |}; w_events := []; w_snapshots := [] |}
  | sys_push now i w m inbound instant :
      system_run chain_id chain0 now i w →
      system_run chain_id chain0 now (enqueue i m inbound instant).1 w
  | sys_turn now now' i w i' w' :
      system_run chain_id chain0 now i w → now ≤ now' → clock_ok now' →
      engine_turn vm_wasm json_len now' i w = Ok (i', w') → system_run chain_id chain0 now' i' w'.

(** What the subscribers of the engine know is what the node has. *)
Record announced (chain0 : list Block) (w : world) : Prop := {
  ann_db : db_chain (fc_db (w_node w)) = Some (chain_of w);
  ann_tip : match last (omap applied (w_events w)) with
            | None => chain_of w = chain0
            | Some (h, hash) => h = Z.of_nat (length (chain_of w)) - 1 ∧ hash = tip_string (chain_of w)
                ∧ cs_chain <$> last (w_snapshots w) = Some (chain_of w)
            end;
  ann_count : length (w_snapshots w) = length (omap applied (w_events w))
}.

Lemma announcement_applied old_tip chain :
  omap applied (announcement old_tip chain) = [(Z.of_nat (length chain) - 1, tip_string chain)].
Proof. unfold announcement. rewrite omap_app. by destruct (chain_contains_block _ _). Qed.

Lemma announced_new chain0 (w : world) old_tip f :
  announced chain0 w → db_chain (fc_db f) = Some (bc_chain (fc_chain f)) →
  announced chain0 {| w_node := f; w_events := w_events w ++ announcement old_tip (bc_chain (fc_chain f));
                      w_snapshots := w_snapshots w ++ [snapshot_wire (fc_chain f)] |}.
Proof.
  intros [_ _ Hc] Hdb. constructor; cbn [w_node w_events w_snapshots]; [done|..];
    rewrite omap_app, announcement_applied.
  - rewrite !last_snoc. by split_and!.
  - rewrite !length_app, Hc. done.
Qed.

Lemma announced_quiet chain0 (w w' : world) :
  announced chain0 w → chain_of w' = chain_of w → db_chain (fc_db (w_node w')) = Some (chain_of w) →
  w_snapshots w' = w_snapshots w → omap applied (w_events w') = omap applied (w_events w) →
  announced chain0 w'.
Proof. intros [_ Ht Hc] E Hdb Es Ee. constructor; rewrite ?E, ?Es, ?Ee; done. Qed.

Lemma processed_announced chain0 now (w w' : world) m :
  announced chain0 w → processed now w m w' → announced chain0 w'.
Proof.
  intros Ha H. destruct H as [hs from|block from e E|chain bal txs pend diff from e E|block from bc E f
    |chain bal txs pend diff from bc E f|chain bal txs pend diff from bc f E' Hf Hdb|tx from f out E Hdb|tx from e E].
  - done.
  - done.
  - done.
  - apply (announced_new chain0 w (tip_string (chain_of w)) f Ha). done.
  - apply adopt_inv in E as (_ & _ & _ & E & _). rewrite <- E.
    apply (announced_new chain0 w (tip_string (chain_of w)) f Ha). done.
  - assert (bc_chain (fc_chain f) = chain_of w) as E.
    { apply (Hf (λ bc, bc_chain bc = chain_of w)); [|done].
      intros b0 tx out bc' <- Hx. by eapply add_transaction_chain. }
    apply (announced_quiet chain0 w); try done. cbn [w_node with_node]. rewrite Hdb. cbn [save_state db_chain].
    by rewrite E.
  - apply (announced_quiet chain0 w); [done|by apply add_transaction_chain in E| |done|].
    + cbn [w_node publish with_node]. rewrite Hdb. apply Ha.
    + cbn [w_events publish with_node]. rewrite omap_app. cbn. by rewrite app_nil_r.
  - apply (announced_quiet chain0 w); [done|done|apply Ha|done|].
    cbn [w_events publish]. rewrite omap_app. cbn. by rewrite app_nil_r.
Qed.

Lemma processed_consistent now (w w' : world) m :
  consistent vm_wasm now (fc_chain (w_node w)) → processed now w m w' →
  consistent vm_wasm now (fc_chain (w_node w')).
Proof.
  intros Hc H. destruct H as [hs from|block from e E|chain bal txs pend diff from e E|block from bc E f
    |chain bal txs pend diff from bc E f|chain bal txs pend diff from bc f E' Hf Hdb|tx from f out E Hdb|tx from e E];
    [done|done|done|by eapply commit_consistent|by eapply adopt_consistent| |by eapply add_transaction_consistent|done].
  apply (Hf (consistent vm_wasm now)); [|done]. intros. by eapply add_transaction_consistent.
Qed.

(** C26: From wire to announcement: for a node that was opened locally and driven by its
    operations, whatever messages peers push and whenever the engine
    takes its turns, the node behind it stays consistent with its chain, the database
    holds the chain the node is on, the inbox stays within its bounds, the last
    announced height and hash are those of the current tip, the last snapshot sent to
    subscribers is the current chain, one snapshot goes out per applied announcement,
    and a node that announced nothing is still on the chain it started with. *)
Theorem engine_system_sound chain_id chain0 now i w :
  system_run chain_id chain0 now i w →
  consistent vm_wasm now (fc_chain (w_node w)) ∧ announced chain0 w ∧ inbox_bounded i.
Proof.
  induction 1 as [now bc db limiter Hr <- Hdb|now i w m inbound t _ (Hc & Ha & Hb)
    |now now' i w i' w' _ (Hc & Ha & Hb) Hle Hclk Ht].
  - split_and!; [by eapply reachable_consistent|by constructor|].
    constructor; cbn; rewrite ?size_empty; lia.
  - split_and!; [done..|by apply enqueue_bounded].
  - apply (consistent_later vm_wasm now now') in Hc; [|done..]. unfold engine_turn in Ht.
    destruct (inbox_recv i) as [[m j]|] eqn:Er; [|by injection Ht as <- <-].
    apply bind_ok_inv in Ht as (w1 & Hp & [= <- <-]). apply process_spec in Hp.
    split_and!; [by eapply processed_consistent|by eapply processed_announced|by eapply recv_bounded].
Qed.
End EngineProps.

(** ** A concrete engine *)

#[local] Existing Instances toy_hex toy_blake3 toy_bech32 toy_secp toy_vm.
#[local] Existing Instances toy_hex_ok toy_blake3_ok toy_runtime.

Definition toy_db (bc : Blockchain) : Db := save_state blank_db bc.
Definition toy_world (bc : Blockchain) : World (C := Facade) (E := Node.StrangecoinError) :=
  {| w_node := {| fc_chain := bc; fc_db := toy_db bc; fc_evicted := [] |}; w_events := []; w_snapshots := [] |}.
Definition toy_limiter : RateLimiter := rate_limiter_new rate_limit_default.

(** [node1]'s chain, offered by a peer to [node2], which adopts it. *)
Definition toy_offer : Incoming :=
  CandidateChain (bc_chain node1) None [] [] 0 (Some (SockV4 [] 1)).
Definition toy_inbox : Inbox := (enqueue (inbox_new toy_limiter) toy_offer true 0).1.

Definition offer_events (r : result Node.StrangecoinError (Inbox * World (C := Facade) (E := Node.StrangecoinError)))
    : list (EngineEvent Node.StrangecoinError) :=
  match r with Ok (_, w) => w_events w | _ => [] end.

Lemma offer_adopted :
  bool_decide (omap applied (offer_events (engine_turn true no_json (start + 1) toy_inbox (toy_world node2)))
    = [(1, tip_string (bc_chain node1))]) = true.
Proof. vm_compute. reflexivity. Qed.

Lemma node2_system :
  system_run true no_json CHAIN_ID_REGTEST (bc_chain node2) (start + 1) (inbox_new toy_limiter) (toy_world node2).
Proof.
  apply (sys_start true no_json CHAIN_ID_REGTEST (bc_chain node2) (start + 1) node2 (toy_db node2) toy_limiter).
  - eapply granted_reachable, node2_granted.
  - reflexivity.
  - reflexivity.
Qed.

Lemma engine_system_sound_witness :
  match engine_turn true no_json (start + 1) toy_inbox (toy_world node2) with
  | Ok (i, w) => consistent true (start + 1) (fc_chain (w_node w)) ∧ announced (bc_chain node2) w
      ∧ last (omap applied (w_events w)) = Some (1, tip_string (bc_chain node1))
  | _ => False
  end.
Proof.
  pose proof offer_adopted as Ha. apply bool_decide_eq_true in Ha.
  destruct (engine_turn true no_json (start + 1) toy_inbox (toy_world node2)) as [[i w]|e|] eqn:E;
    [|discriminate Ha|discriminate Ha].
  destruct (engine_system_sound true no_json CHAIN_ID_REGTEST (bc_chain node2) (start + 1) i w) as (H1 & H2 & _).
  - eapply sys_turn; [apply sys_push, node2_system|apply Z.le_refl|by_eval|exact E].
  - split_and!; [exact H1|exact H2|]. cbn [offer_events] in Ha. rewrite Ha. reflexivity.
Defined.

Definition process_events (r : result Node.StrangecoinError (World (C := Facade) (E := Node.StrangecoinError)))
    : list (Z * string) :=
  match r with Ok w => omap applied (w_events w) | _ => [] end.

Lemma offer_processed :
  bool_decide (process_events (engine_process true no_json (start + 1) (toy_world node2) toy_offer) = []) = false.
Proof. vm_compute. reflexivity. Qed.


(** A headers message overtakes a candidate queued before it. *)
Definition toy_headers : Incoming := NewHeaders [] None.
Definition toy_inbox2 : Inbox := (enqueue toy_inbox toy_headers true 0).1.

Lemma toy_pushes :
  (enqueue (inbox_new toy_limiter) toy_offer true 0).2 && (enqueue toy_inbox toy_headers true 0).2
  && match inbox_recv toy_inbox2 with Some (m, _) => is_headers m | None => false end = true.
Proof. vm_compute. reflexivity. Qed.

Lemma inbox_fifo_witness :
  match inbox_recv toy_inbox2 with
  | Some (m, i) => is_headers m = true ∧ blocks_of [toy_offer; toy_headers] = blocks_of [m] ++ ib_blocks i
      ∧ inbox_bounded i
  | None => False
  end.
Proof.
  pose proof toy_pushes as H. apply andb_true_iff in H as [[H1 H2]%andb_true_iff H3].
  destruct (inbox_recv toy_inbox2) as [[m i]|] eqn:E; [|discriminate H3].
  destruct (inbox_fifo [toy_offer; toy_headers] [m] i) as (_ & H & Hb & _).
  - apply (run_recv [toy_offer; toy_headers] [] toy_inbox2 m i); [|exact E].
    apply (run_push [toy_offer] [] toy_inbox toy_headers true 0 toy_inbox2 true);
      [|rewrite <- H2; apply surjective_pairing].
    apply (run_push [] [] (inbox_new toy_limiter) toy_offer true 0 toy_inbox true);
      [apply run_new|rewrite <- H1; apply surjective_pairing].
  - split_and!; [exact H3|exact H|exact Hb].
Defined.
