(* ===== verification/ConnLoop.v ===== *)
(** * The connection loop (crates/strangecoin-net/src/peer/connection_loop.rs)

    What the node does with one decrypted payload of a peer: charge the rate limiter,
    serve sync requests, run the gossip, compact-block and Erlay handlers, queue data
    for the engine, and answer through the peer manager.  The inbox and the loop share
    one rate limiter, as the node wires them.  The clock is read once per event. *)

From S2P Require Import Prelude Bytes Types Serialize Net Compact Erlay Gossip Float RateLimiter Noise Peers Manager Engine.
From stdpp Require Import gmap.
Open Scope Z_scope.

Section ConnLoop.
Context `{HX : Hex, B3 : Blake3, SIP : SipHash, SN : Snow, ED : Ed25519, KD : Kdf, SO : Socket, AT : AddrText}.
Context {C : Type} `{BV : BlockchainView C}.

Record ConnectionContext := {
  cx_manager : PeerManager;
  cx_inbox : Inbox;
  cx_gossip : GossipState;
  cx_reconciliation : ReconciliationState
}.

Definition with_manager (x : ConnectionContext) (m : PeerManager) : ConnectionContext := {|
  cx_manager := m; cx_inbox := cx_inbox x; cx_gossip := cx_gossip x;
  cx_reconciliation := cx_reconciliation x |}.
Definition with_inbox (x : ConnectionContext) (i : Inbox) : ConnectionContext := {|
  cx_manager := cx_manager x; cx_inbox := i; cx_gossip := cx_gossip x;
  cx_reconciliation := cx_reconciliation x |}.
Definition with_gossip (x : ConnectionContext) (g : GossipState) : ConnectionContext := {|
  cx_manager := cx_manager x; cx_inbox := cx_inbox x; cx_gossip := g;
  cx_reconciliation := cx_reconciliation x |}.
Definition with_reconciliation (x : ConnectionContext) (s : ReconciliationState) : ConnectionContext := {|
  cx_manager := cx_manager x; cx_inbox := cx_inbox x; cx_gossip := cx_gossip x;
  cx_reconciliation := s |}.

(** Compact blocks waiting for their BLOCK_TXN. *)
Definition PendingCompact : Type := gmap (list byte) (CompactBlock * GetBlockTxn).

Definition message_type (tag : Z) : option MessageType :=
  if tag =? MSG_INV then Some MtInv
  else if tag =? MSG_TX then Some MtTx
  else if tag =? MSG_BLOCKS then Some MtBlock
  else if tag =? MSG_GET_DATA then Some MtGetData
  else if tag =? MSG_COMPACT_BLOCK then Some MtCompactBlock
  else if tag =? MSG_GET_BLOCK_TXN then Some MtGetBlockTxn
  else if tag =? MSG_BLOCK_TXN then Some MtBlockTxn
  else if tag =? MSG_ERLAY_RECONCILE then Some MtErlayReconcile
  else if tag =? MSG_ADDR then Some MtAddr
  else None.

(** The charge of [dispatch_frame]. *)
Definition charge_frame (l : RateLimiter) (now : Z) (addr : SocketAddr) (payload : list byte)
    : RateLimiter * Verdict :=
  match payload with
  | [] => limiter_check_at l now addr
  | b :: _ =>
      let tag := byte_val b in
      if tag =? MSG_GET_HEADERS then limiter_check_class_at l now addr McGetHeaders
      else if tag =? MSG_GET_BLOCKS then limiter_check_class_at l now addr McGetBlocks
      else match message_type tag with
           | Some t => limiter_check_rate_at l now addr t
           | None => limiter_check_at l now addr
           end
  end.

(** ** Answers *)

Definition send_or_log (x : ConnectionContext) (id : NodeId) (payload : list byte)
    : result NetError ConnectionContext :=
  let '(r, m) := manager_send_to_peer (cx_manager x) id payload in
  match r with Panic => Panic | _ => Ok (with_manager x m) end.

(** [match encoded { Ok(out) => send_or_log(..), Err(err) => warn!(..) }]. *)
Definition reply (x : ConnectionContext) (id : NodeId) (encoded : result NetError (list byte))
    : result NetError ConnectionContext :=
  match encoded with
  | Ok out => send_or_log x id out
  | Err _ => Ok x
  | Panic => Panic
  end.

Definition send_gossip_messages (x : ConnectionContext) (id : NodeId) (messages : list GossipMessage)
    : result NetError ConnectionContext :=
  foldM (λ x message, reply x id (gossip_encode message)) x messages.

Definition violation (x : ConnectionContext) (id : NodeId) (now : Z) : ConnectionContext :=
  with_manager x (record_protocol_violation (cx_manager x) id now).

(** ** Erlay *)

(** The items of each batch the peer is not known to have; empty batches are dropped. *)
Definition fresh_batches (g : GossipState) (id : NodeId) (txids : list (list byte)) : list (list InventoryItem) :=
  filter (λ b : list InventoryItem, b ≠ [])
    ((λ chunk : list (list byte), filter (λ item, knows g id item = false) (inv_tx <$> chunk))
       <$> chunks (length txids) (Z.to_nat MAX_INV_BATCH) txids).

Definition handle_erlay_reconcile (x : ConnectionContext) (c : C) (id : NodeId) (message : ErlayReconcile) (now : Z)
    : result NetError ConnectionContext :=
  let '(outcome, recon) := reconcile_at (cx_reconciliation x) id (er_sketch message) now in
  let reply_sketch := if er_respond message then pr_last_sketch <$> rs_peer_state recon !! id else None in
  let x := with_reconciliation x recon in
  x ← match outcome with
      | Ok txids => foldM (λ x fresh, reply x id (inv_encode fresh)) x (fresh_batches (cx_gossip x) id txids)
      | Err _ =>
          Ok (with_manager x (fallback_full_relay (PL := manager_link) [] id (cx_manager x) (cx_gossip x) c).2)
      | Panic => Panic
      end;
  match reply_sketch with
  | Some sketch => reply x id (erlay_encode {| er_respond := false; er_sketch := sketch |})
  | None => Ok x
  end.

Definition maybe_start_reconciliation (x : ConnectionContext) (id : NodeId) (capabilities : Z) (now : Z)
    : result NetError ConnectionContext :=
  if Z.land capabilities (bit CapErlay) =? 0 then Ok x else
  if negb (due_at (cx_reconciliation x) now) then Ok x else
  let '(recon, sketch) := local_sketch (cx_reconciliation x) id in
  let x := with_reconciliation x (mark_reconciled_at recon now) in
  reply x id (erlay_encode {| er_respond := true; er_sketch := sketch |}).

(** ** Gossip *)

Definition push_block (x : ConnectionContext) (addr : SocketAddr) (block : Block) (now : Z) : ConnectionContext :=
  with_inbox x (push_inbound (cx_inbox x) (NewBlock block (Some addr)) now).1.

Definition dispatch_gossip (x : ConnectionContext) (c : C) (id : NodeId) (addr : SocketAddr) (payload : list byte)
    (pending : PendingCompact) (now : Z) : result NetError (ConnectionContext * PendingCompact) :=
  match gossip_parse payload with
  | Err _ => Ok (violation x id now, pending)
  | Panic => Panic
  | Ok message =>
      match message with
      | GInv items =>
          let '(out, g) := handle_inv items id (cx_gossip x) c in
          x ← send_gossip_messages (with_gossip x g) id out; Ok (x, pending)
      | GGetData items =>
          let '(out, g) := handle_get_data items id (cx_gossip x) c in
          x ← send_gossip_messages (with_gossip x g) id out; Ok (x, pending)
      | GTx tx =>
          let '(i, queued) := push_inbound (cx_inbox x) (NewTx tx (Some addr)) now in
          let x := with_inbox x i in
          Ok (if queued : bool then with_reconciliation x (note_new_tx (cx_reconciliation x) (txid tx)).1 else x,
              pending)
      | GBlock block => Ok (push_block x addr block now, pending)
      | GNotFound _ => Ok (x, pending)
      | GCompactBlock compact =>
          match fill_up compact c with
          | Ok (Complete block) => Ok (push_block x addr block now, pending)
          | Ok (Missing request) =>
              x ← reply x id (get_block_txn_encode request);
              hash ← header_hash (cb_header compact);
              Ok (x, <[hash := (compact, request)]> pending)
          | Err _ => Ok (violation x id now, pending)
          | Panic => Panic
          end
      | GGetBlockTxn request =>
          match handle_get_block_txn request c with
          | Some response => x ← reply x id (block_txn_encode response); Ok (x, pending)
          | None => Ok (x, pending)
          end
      | GBlockTxn txn =>
          match pending !! bt_block_hash txn with
          | Some (compact, request) =>
              let pending := delete (bt_block_hash txn) pending in
              match apply_block_txn compact (gb_missing_indices request) txn c with
              | Ok block => Ok (push_block x addr block now, pending)
              | Err _ => Ok (violation x id now, pending)
              | Panic => Panic
              end
          | None => Ok (x, pending)
          end
      | GErlayReconcile message => x ← handle_erlay_reconcile x c id message now; Ok (x, pending)
      end
  end.

(** ** One frame *)

(** The context, the compact blocks in flight and whether the session goes on. *)
Definition dispatch_frame (x : ConnectionContext) (c : C) (id : NodeId) (addr : SocketAddr) (payload : list byte)
    (pending : PendingCompact) (now : Z) : result NetError (ConnectionContext * PendingCompact * bool) :=
  let '(limiter, verdict) := charge_frame (ib_rate_limiter (cx_inbox x)) now addr payload in
  let x := with_inbox x (with_limiter (cx_inbox x) limiter) in
  match verdict with
  | Err e =>
      let m := apply_rate_verdict (cx_manager x) id verdict (rl_ban_duration (lm_config limiter)) now in
      Ok (with_manager x m, pending, match e with Exceeded => true | Ban => false end)
  | Panic => Panic
  | Ok _ =>
      match decode_message payload with
      | Ok (GetHeaders from_height) =>
          x ← reply x id (encode_headers (bv_headers_from_height c from_height (Z.to_nat MAX_HEADERS_BATCH)));
          Ok (x, pending, true)
      | Ok (GetBlocks hashes) =>
          x ← reply x id (encode_blocks (bv_blocks_by_hashes c hashes (Z.to_nat MAX_BLOCKS_BATCH)));
          Ok (x, pending, true)
      | Ok (KnownTag _) =>
          '(x, pending) ← dispatch_gossip x c id addr payload pending now;
          Ok (x, pending, true)
      | Ok (UnknownMessage _) => Ok (x, pending, true)
      | Err _ => Ok (violation x id now, pending, false)
      | Panic => Panic
      end
  end.

(** ** The session *)

(** What one iteration of the loop meets: the shutdown flag at its top, or a branch of the
    [select!].  A read ends with a decrypted frame or with an error (end of stream, time-out,
    a bad length or a frame that does not decrypt). *)
Inductive LoopEvent :=
  | EvShutdown
  | EvShutdownTick
  | EvFrame (payload : list byte)
  | EvReadError (e : NetError)
  | EvReconcileTick.

(** One iteration: the session after it, and whether the loop goes on. *)
Definition loop_step (x : ConnectionContext) (id : NodeId) (addr : SocketAddr) (capabilities : Z)
    (pending : PendingCompact) (now : Z) (c : C) (ev : LoopEvent)
    : result NetError (ConnectionContext * PendingCompact * bool) :=
  match ev with
  | EvShutdown => Ok (x, pending, false)
  | EvShutdownTick => Ok (x, pending, true)
  | EvFrame payload => dispatch_frame x c id addr payload pending now
  | EvReadError _ => Ok (x, pending, false)
  | EvReconcileTick => x ← maybe_start_reconciliation x id capabilities now; Ok (x, pending, true)
  end.

(** The loop until it breaks; [c] is the node each event finds.  The shutdown flag follows
    a list that ends without a break. *)
Fixpoint connection_loop (x : ConnectionContext) (id : NodeId) (addr : SocketAddr) (capabilities : Z)
    (pending : PendingCompact) (events : list (Z * C * LoopEvent)) : result NetError ConnectionContext :=
  match events with
  | [] => Ok x
  | (now, c, ev) :: events =>
      '(x, pending, alive) ← loop_step x id addr capabilities pending now c ev;
      if alive : bool then connection_loop x id addr capabilities pending events else Ok x
  end.

Definition session_closed (x : ConnectionContext) (id : NodeId) : ConnectionContext := {|
  cx_manager := (disconnect_peer (cx_manager x) id).1; cx_inbox := cx_inbox x;
  cx_gossip := forget_peer (cx_gossip x) id;
  cx_reconciliation := reconciliation_forget_peer (cx_reconciliation x) id |}.

Definition run_connection (x : ConnectionContext) (id : NodeId) (addr : SocketAddr) (capabilities : Z)
    (events : list (Z * C * LoopEvent)) : result NetError ConnectionContext :=
  x ← connection_loop x id addr capabilities ∅ events; Ok (session_closed x id).

End ConnLoop.
