(* ===== verification/ConnLoopProps.v ===== *)
(** * Properties of the connection loop

    Whatever a peer sends, its session ends without a panic, keeps the shared state of
    the node within its invariants and leaves nothing of the peer behind. *)

From S2P Require Import Prelude Bytes U256 Abi Types Address Concrete Serialize SerializeProps Consensus StateCache Mempool Executor ExecutorProps Node Net NetProps Compact CompactProps Erlay ErlayProps Gossip GossipProps ChainProps Chain NodeProps ChainWitness View Float RateLimiter Noise NoiseProps NoiseConcrete Peers Manager ManagerProps PeersProps Engine EngineProps ConnLoop.
From stdpp Require Import gmap.
Open Scope Z_scope.

(** ** Totality of folds *)

Lemma foldM_total {E A B} (P : A → Prop) (f : A → B → result E A) xs a :
  (∀ a x, x ∈ xs → P a → ∃ a', f a x = Ok a' ∧ P a') → P a → ∃ a', foldM f a xs = Ok a' ∧ P a'.
Proof.
  revert a. induction xs as [|x xs IH]; intros a H Ha; [by exists a|]. cbn [foldM].
  destruct (H a x ltac:(left) Ha) as (a' & -> & Ha'). cbn [mbind result_bind]. apply IH; [|done].
  intros b y Hy. apply H. by right.
Qed.

Lemma foldM_no_panic {E A B} (P : A → Prop) (f : A → B → result E A) xs a :
  (∀ a x, x ∈ xs → P a → f a x ≠ Panic ∧ ∀ a', f a x = Ok a' → P a') → P a → foldM f a xs ≠ Panic.
Proof.
  revert a. induction xs as [|x xs IH]; intros a H Ha; [done|]. cbn [foldM].
  destruct (H a x ltac:(left) Ha) as [Hn Hok]. apply bind_no_panic; [done|]. intros a' E'. apply IH; [|by apply Hok].
  intros b y Hy. apply H. by right.
Qed.

Lemma mapM_no_panic {E A B} (f : A → result E B) xs :
  (∀ x, x ∈ xs → f x ≠ Panic) → mapM_result f xs ≠ Panic.
Proof.
  induction xs as [|x xs IH]; intros H; [done|]. cbn [mapM_result]. apply bind_no_panic; [apply H; left|].
  intros y _. apply bind_no_panic; [|done]. apply IH. intros z Hz. apply H. by right.
Qed.

(** ** What the loop relies on *)

Section Reconstruct.
Context `{HX : Hex, HXok : !HexOk, B3 : Blake3, B3ok : !Blake3Ok, SIP : SipHash}.
Context {C : Type} `{BV : BlockchainView C}.

(** The hex fields of a header decode, so that it can be written to the wire. *)
Definition encodable (h : BlockHeader) : Prop := ∃ bs, serialize_header (E:=NetError) h = Ok bs.

(** The node has only encodable blocks to serve. *)
Record servable (c : C) : Prop := {
  serve_headers_ok n k : Forall encodable (bv_headers_from_height c n k);
  serve_blocks_ok hs k : Forall (λ b, encodable (header b)) (bv_blocks_by_hashes c hs k);
  serve_block_ok h b : bv_block_by_hash c h = Some b → encodable (header b)
}.

(** A compact block off the wire: its header is encodable and its indices are unsigned. *)
Definition compact_typed (compact : CompactBlock) : Prop :=
  encodable (cb_header compact) ∧ Forall (λ p : Z * Transaction, 0 ≤ p.1) (cb_prefilled_txs compact).

Definition pending_typed (p : CompactBlock * GetBlockTxn) : Prop :=
  compact_typed p.1 ∧ Forall (λ i, 0 ≤ i) (gb_missing_indices p.2).

Lemma wf_encodable h : wf_header h → encodable h.
Proof. intros Hh. destruct (header_item_wf h Hh) as (bs & Es & _). exists bs. exact (serialize_header_result _ _ Es). Qed.

Lemma read_items_Forall {A} (read : nat → result NetError (A * nat)) (P : A → Prop) n off xs off' :
  (∀ o x o', read o = Ok (x, o') → P x) → read_items read n off = Ok (xs, off') → Forall P xs.
Proof.
  intros Hr. revert off xs. induction n as [|n IH]; intros off xs H; cbn [read_items] in H.
  { injection H as <- _. constructor. }
  apply bind_ok_inv in H as ([x o] & Ex & H). apply bind_ok_inv in H as ([ys o2] & Ey & H). injection H as <- <-.
  constructor; [by eapply Hr|by eapply IH].
Qed.

Lemma compact_parse_typed bs compact : compact_parse bs = Ok compact → compact_typed compact.
Proof.
  unfold compact_parse. intros H. cbv zeta in H. destruct (_ <? _)%nat; [done|].
  apply bind_ok_inv in H as (ok & _ & H). destruct (negb ok); [done|].
  apply bind_ok_inv in H as (hb & _ & H). apply bind_ok_inv in H as (h & Eh & H).
  apply bind_ok_inv in H as (nb & _ & H). apply bind_ok_inv in H as ([sc o1] & _ & H).
  destruct (_ <? _); [done|]. destruct (_ <? _); [done|].
  apply bind_ok_inv in H as ([sids o2] & _ & H). apply bind_ok_inv in H as ([pc o3] & _ & H).
  destruct (_ <? _); [done|]. apply bind_ok_inv in H as ([pre o4] & Ep & H).
  destruct (negb _); [done|]. injection H as <-. split; cbn [cb_header cb_prefilled_txs].
  - destruct (deserialize_header_cases hb) as [(e & E)|(h' & E & Hwf & _)]; rewrite E in Eh; [done|].
    injection Eh as <-. by apply wf_encodable.
  - eapply read_items_Forall; [|exact Ep]. intros o [i tx] o' Hr. unfold read_prefilled in Hr.
    apply bind_ok_inv in Hr as ([i' o5] & Ei & Hr). apply bind_ok_inv in Hr as ([tx' o6] & _ & Hr).
    injection Hr as <- _ _. apply net_read_u32_inv in Ei as ([? ?] & _). cbn. lia.
Qed.

Lemma set_slot_no_panic {A} (l : list A) i x : 0 ≤ i < lenZ l → set_slot l i x ≠ Panic.
Proof. intros H. unfold set_slot. by rewrite (proj2 (Z.leb_le _ _)), (proj2 (Z.ltb_lt _ _)) by lia. Qed.

Lemma get_slot_no_panic {A} (l : list A) i : 0 ≤ i < lenZ l → get_slot l i ≠ Panic.
Proof.
  intros H. unfold get_slot. rewrite (proj2 (Z.leb_le _ _)), (proj2 (Z.ltb_lt _ _)) by lia. cbn [andb].
  destruct (l !! Z.to_nat i) eqn:E; [done|]. apply lookup_ge_None in E. unfold lenZ in H. lia.
Qed.

Lemma with_index_bound {A} (l : list A) i x : (i, x) ∈ with_index l → 0 ≤ i < lenZ l ∧ l !! Z.to_nat i = Some x.
Proof.
  rewrite enumerate_eq. intros H. apply elem_of_lookup_imap_1 in H as (k & y & [= -> ->] & H). rewrite Nat2Z.id.
  split; [|done]. apply lookup_lt_Some in H. unfold lenZ. lia.
Qed.

Lemma prefilled_no_panic compact :
  Forall (λ p : Z * Transaction, 0 ≤ p.1) (cb_prefilled_txs compact) → prefilled compact ≠ Panic.
Proof.
  intros Hp. unfold prefilled. set (n := length (cb_short_ids compact)).
  apply (foldM_no_panic (λ acc : list (option Transaction) * list bool, length acc.1 = n ∧ length acc.2 = n)).
  2:{ cbn [fst snd]. by rewrite !length_replicate. }
  intros [s p] [i tx] Hin [H1 H2]. rewrite Forall_forall in Hp. specialize (Hp _ Hin). cbn in Hp, H1, H2.
  unfold place_prefilled. destruct (Z.leb_spec (Z.of_nat n) i) as [|Hi]; [done|]. split.
  - apply bind_no_panic; [apply set_slot_no_panic; unfold lenZ; lia|]. intros s' _.
    apply bind_no_panic; [apply set_slot_no_panic; unfold lenZ; lia|done].
  - intros [s' p'] H. apply bind_ok_inv in H as (s1 & E1 & H). apply bind_ok_inv in H as (p1 & E2 & [= <- <-]).
    apply set_slot_length in E1, E2. cbn. lia.
Qed.

Lemma header_hash_ok h : encodable h → ∃ hash, header_hash (E:=NetError) h = Ok hash.
Proof. intros [bs E]. unfold header_hash. rewrite E. by eexists. Qed.

Lemma assemble_no_panic h txs : assemble_and_verify h txs ≠ Panic.
Proof.
  unfold assemble_and_verify. destruct (merkle_root_total (E:=NetError) (txid <$> txs)) as [r ->].
  cbn [mbind result_bind]. by case_decide.
Qed.

Definition filled (slots : list (option Transaction)) (k : nat) : Prop := ∃ tx, slots !! k = Some (Some tx).

Lemma set_slot_filled slots i tx slots' :
  set_slot slots i (Some tx) = Ok slots' →
  (∀ k, filled slots k → filled slots' k) ∧ filled slots' (Z.to_nat i).
Proof.
  unfold set_slot. destruct ((0 <=? i) && (i <? lenZ slots)) eqn:Hb; [|done]. intros [= <-].
  apply andb_true_iff in Hb as [Hb1%Z.leb_le Hb2%Z.ltb_lt]. unfold lenZ in Hb2. split.
  - intros k [x Hx]. destruct (decide (k = Z.to_nat i)) as [->|Hne].
    + exists tx. apply list_lookup_insert_eq. lia.
    + exists x. by rewrite list_lookup_insert_ne.
  - exists tx. apply list_lookup_insert_eq. lia.
Qed.

Lemma prefilled_filled compact slots pre k :
  prefilled compact = Ok (slots, pre) → pre !! k = Some true → filled slots k.
Proof.
  unfold prefilled. intros H. revert k. change (∀ k, (slots, pre).2 !! k = Some true → filled (slots, pre).1 k).
  refine (foldM_inv (λ acc : list (option Transaction) * list bool,
    ∀ k, acc.2 !! k = Some true → filled acc.1 k) _ _ _ _ _ _ H).
  - intros [s p] [i tx] [s' p'] _ IH E j Hj. unfold place_prefilled in E. destruct (_ <=? _); [done|].
    apply bind_ok_inv in E as (s1 & E1 & E). apply bind_ok_inv in E as (p1 & E2 & [= <- <-]).
    apply set_slot_filled in E1 as [Hold Hnew]. cbn [fst snd] in *. unfold set_slot in E2.
    destruct (_ && _); [|done]. injection E2 as <-. destruct (decide (j = Z.to_nat i)) as [->|Hne]; [done|].
    rewrite list_lookup_insert_ne in Hj by done. by apply Hold, IH.
  - cbn [fst snd]. intros j Hj. apply lookup_replicate in Hj as [Hj _]. done.
Qed.

Lemma fill_slots_filled c nonce pre l slots missing slots' missing' :
  foldM (fill_slot c nonce pre) (slots, missing) l = Ok (slots', missing') →
  (∀ k, filled slots k → filled slots' k) ∧ (missing ≠ [] → missing' ≠ []) ∧
  ∀ i sid, (i, sid) ∈ l → missing' ≠ [] ∨ filled slots' (Z.to_nat i) ∨ pre !! Z.to_nat i = Some true.
Proof.
  revert slots missing. induction l as [|[i sid] l IH]; intros slots missing H; cbn [foldM] in H.
  { injection H as <- <-. split_and!; [done|done|]. intros i sid Hin. by apply not_elem_of_nil in Hin. }
  apply bind_ok_inv in H as ([s m] & E & H). apply IH in H as (H1 & H2 & H3). unfold fill_slot in E.
  assert ((∀ k, filled slots k → filled s k) ∧ (missing ≠ [] → m ≠ []) ∧
    (m ≠ [] ∨ filled s (Z.to_nat i) ∨ pre !! Z.to_nat i = Some true)) as (G1 & G2 & G3).
  { apply bind_ok_inv in E as (b & Eb & E). destruct b.
    - injection E as <- <-. split_and!; [done|done|]. right. right. unfold get_slot in Eb.
      destruct (_ && _); [|done]. by destruct (pre !! Z.to_nat i); [injection Eb as ->|].
    - destruct (find_mempool_tx_by_short_id sid nonce c) as [tx|].
      + apply bind_ok_inv in E as (s1 & E1 & [= <- <-]). apply set_slot_filled in E1 as [? ?]. split_and!; auto.
      + injection E as <- <-. split_and!; [done| |left]; by destruct missing. }
  split_and!; [auto|auto|]. intros j sid' Hin. apply elem_of_cons in Hin as [[= -> ->]|Hin]; [|by eapply H3].
  destruct G3 as [?|[?|?]]; auto.
Qed.

Lemma fill_up_no_panic compact c :
  compact_typed compact → fill_up compact c ≠ Panic
  ∧ ∀ req, fill_up compact c = Ok (Missing req) → Forall (λ i, 0 ≤ i) (gb_missing_indices req).
Proof.
  intros [He Hp]. unfold fill_up. pose proof (prefilled_no_panic compact Hp) as Hnp.
  destruct (prefilled compact) as [[s p]|e|] eqn:Epre; [|by split..]. cbn [mbind result_bind].
  destruct (prefilled_length _ _ _ Epre) as [Hs Hl].
  set (inv := λ acc : list (option Transaction) * list Z, length acc.1 = length (cb_short_ids compact) ∧ Forall (λ i, 0 ≤ i) acc.2).
  assert (∀ acc x, x ∈ with_index (cb_short_ids compact) → inv acc →
    fill_slot c (cb_nonce compact) p acc x ≠ Panic ∧ ∀ a', fill_slot c (cb_nonce compact) p acc x = Ok a' → inv a') as Hstep.
  { intros [s0 m0] [i sid] Hin [I1 I2]. cbn in I1, I2. apply with_index_bound in Hin as [Hi _].
    assert (0 ≤ i < lenZ p) as Hip by (unfold lenZ in *; lia).
    assert (0 ≤ i < lenZ s0) as His by (unfold lenZ in *; lia). split.
    - unfold fill_slot. apply bind_no_panic; [by apply get_slot_no_panic|]. intros [] _; [done|].
      destruct (find_mempool_tx_by_short_id _ _ _); [|done].
      apply bind_no_panic; [by apply set_slot_no_panic|done].
    - intros [s1 m1] E. split; [cbn; rewrite <- I1; by apply (fill_slot_length _ _ _ (s0, m0) _ (s1, m1) E)|].
      unfold fill_slot in E. apply bind_ok_inv in E as (b & _ & E). destruct b; [by injection E as <- <-|].
      destruct (find_mempool_tx_by_short_id _ _ _).
      + by apply bind_ok_inv in E as (? & _ & [= <- <-]).
      + injection E as <- <-. cbn. apply Forall_app. split; [done|]. constructor; [lia|constructor]. }
  assert (inv (s, [])) as H0 by (split; [done|constructor]).
  pose proof (foldM_no_panic inv _ _ _ Hstep H0) as Hf.
  destruct (foldM (fill_slot c (cb_nonce compact) p) (s, []) (with_index (cb_short_ids compact)))
    as [[s' m]|e|] eqn:Ef; [|by split..]. cbn [mbind result_bind].
  assert (inv (s', m)) as [I1 I2].
  { eapply foldM_inv; [|exact H0|exact Ef]. intros a x a' Hx Ha E. by apply (Hstep a x). }
  cbn in I1, I2. apply fill_slots_filled in Ef as (F1 & _ & F3). destruct m as [|z m].
  - split; [|intros req H; apply bind_ok_inv in H as (txs & _ & H); by destruct (assemble_and_verify _ txs)].
    apply bind_no_panic; [|intros txs _; apply fmap_no_panic, assemble_no_panic].
    apply mapM_no_panic. intros o (k & Hk)%list_elem_of_lookup. pose proof (lookup_lt_Some _ _ _ Hk) as Hlt.
    destruct (lookup_lt_is_Some_2 (cb_short_ids compact) k) as [sid Hsid]; [lia|].
    assert (filled s' k) as [tx Htx].
    { destruct (F3 (Z.of_nat k) sid) as [?|[?|Hpre]].
      - rewrite enumerate_eq. apply elem_of_lookup_imap. by exists k, sid.
      - done.
      - by rewrite Nat2Z.id in *.
      - rewrite Nat2Z.id in Hpre. apply F1. by eapply prefilled_filled. }
    rewrite Htx in Hk. by injection Hk as <-.
  - destruct (header_hash_ok _ He) as [h ->]. cbn [mbind result_bind]. split; [done|]. by intros req [= <-].
Qed.

Lemma apply_block_txn_no_panic compact mi txn c :
  compact_typed compact → Forall (λ i, 0 ≤ i) mi → apply_block_txn compact mi txn c ≠ Panic.
Proof.
  intros [He Hp] Hmi. unfold apply_block_txn. destruct (negb _); [done|].
  destruct (header_hash_ok _ He) as [h ->]. cbn [mbind result_bind]. case_decide; [done|].
  pose proof (prefilled_no_panic compact Hp) as Hnp.
  destruct (prefilled compact) as [[s p]|e|] eqn:Epre; [|done..]. cbn [mbind result_bind].
  destruct (prefilled_length _ _ _ Epre) as [Hs Hl].
  set (inv := λ slots : list (option Transaction), length slots = length (cb_short_ids compact)).
  assert (∀ a x, x ∈ zip mi (bt_txs txn) → inv a → place_supplied compact p a x ≠ Panic
    ∧ ∀ a', place_supplied compact p a x = Ok a' → inv a') as Hplace.
  { intros a [i tx] Hin Ha. apply elem_of_zip_l in Hin. rewrite Forall_forall in Hmi. specialize (Hmi _ Hin).
    split; [|intros a' E; unfold inv; by rewrite (place_supplied_length _ _ _ _ _ E)].
    unfold place_supplied. cbv zeta. destruct (Z.leb_spec (lenZ (cb_short_ids compact)) i) as [|Hi]; [done|].
    unfold inv, lenZ in *.
    apply bind_no_panic; [apply get_slot_no_panic; unfold lenZ; lia|]. intros [] _; [done|].
    apply bind_no_panic; [apply get_slot_no_panic; unfold lenZ; lia|]. intros sid _.
    destruct (negb _); [done|]. apply set_slot_no_panic. unfold lenZ. lia. }
  apply bind_no_panic; [by apply (foldM_no_panic inv)|]. intros s1 E1.
  assert (inv s1) as H1 by (eapply foldM_inv; [|exact Hs|exact E1]; intros a x a' Hx Ha E; by apply (Hplace a x)).
  assert (∀ a x, x ∈ with_index (cb_short_ids compact) → inv a → refill_slot c (cb_nonce compact) a x ≠ Panic
    ∧ ∀ a', refill_slot c (cb_nonce compact) a x = Ok a' → inv a') as Hrefill.
  { intros a [i sid] Hin Ha. apply with_index_bound in Hin as [Hi _].
    split; [|intros a' E; unfold inv; by rewrite (refill_slot_length _ _ _ _ _ E)].
    unfold inv, lenZ in *. unfold refill_slot.
    apply bind_no_panic; [apply get_slot_no_panic; unfold lenZ; lia|]. intros [] _; [done|].
    destruct (find_mempool_tx_by_short_id _ _ _); [apply set_slot_no_panic; unfold lenZ; lia|done]. }
  apply bind_no_panic; [by apply (foldM_no_panic inv)|]. intros s2 _.
  apply bind_no_panic; [|intros; apply assemble_no_panic]. apply mapM_no_panic. by intros [i [tx|]] _.
Qed.
End Reconstruct.

(** ** Sending *)

(** The cipher reports its failures ([snow] returns [Result]). *)
Class SnowTotal `{SN : Snow} := { snow_encrypt_total t p : (snow_encrypt t p).1 ≠ Panic }.

Section Loop.
Context `{HX : Hex, HXok : !HexOk, B3 : Blake3, B3ok : !Blake3Ok, SIP : SipHash}.
Context `{SN : Snow, ST : !SnowTotal, ED : Ed25519, KD : Kdf, SO : Socket, AT : AddrText}.
Context {C : Type} `{BV : BlockchainView C}.

Lemma write_frame_no_panic fuel s frame : (length frame ≤ fuel)%nat → (write_frame fuel s frame).1 ≠ Panic.
Proof.
  revert s frame. induction fuel as [|fuel IH]; intros s [|b frame] Hl; try done; [cbn in Hl; lia|].
  cbn [write_frame]. destruct (try_write s (b :: frame)) as [[[|n]| |] s']; [done| |done|done].
  apply IH. rewrite length_drop. cbn [length] in *. lia.
Qed.

Lemma encrypt_parts_no_panic fuel t msg out : (length msg < fuel)%nat → (encrypt_parts fuel t msg out).1 ≠ Panic.
Proof.
  revert t msg out. induction fuel as [|fuel IH]; intros t msg out Hl; [lia|]. cbn [encrypt_parts].
  assert ((transport_encrypt t (take MAX_TRANSPORT_PAYLOAD msg) MAX_ENCRYPTED_PART).1 ≠ Panic) as Hn.
  { unfold transport_encrypt. destruct (_ <? _)%nat; [done|]. cbv zeta. destruct (_ <? _)%nat; [done|].
    pose proof (snow_encrypt_total (nt_state t) (take MAX_TRANSPORT_PAYLOAD msg)) as Hs.
    destruct (snow_encrypt _ _) as [[ct|e|] st]; [|done|done]. cbn [nt_send_nonce set_transport].
    by destruct (next_nonce _). }
  destruct (transport_encrypt _ _ _) as [[part|e|] t']; cbn [as_transport]; [|done|done].
  destruct (drop MAX_TRANSPORT_PAYLOAD msg) as [|b rest] eqn:Ed; [done|]. rewrite <- Ed. apply IH.
  pose proof NoiseProps.max_payload. apply (f_equal length) in Ed. rewrite length_drop in *. cbn [length] in Ed. lia.
Qed.

Lemma send_no_panic (m : PeerManager) id p : (manager_send_to_peer m id p).1 ≠ Panic.
Proof.
  unfold manager_send_to_peer. destruct (_ !! id) as [c|]; [|done]. unfold send_payload, encrypt_frame.
  cbv zeta. destruct (_ <? _); [done|].
  pose proof (encrypt_parts_no_panic (S (length p)) (cn_transport c) p [] ltac:(lia)) as He.
  destruct (encrypt_parts _ _ _ _) as [[out|e|] t]; [|done|done].
  set (frame := to_be_bytes 4 (lenZ out) ++ out).
  pose proof (write_frame_no_panic (length frame) (cn_write c) frame (le_n _)) as Hw.
  by destruct (write_frame _ _ _) as [[]].
Qed.

(** ** The invariant of the shared state *)

Record context_ok (low : Z) (x : ConnectionContext) : Prop := {
  ok_manager : manager_ok (cx_manager x);
  ok_inbox : inbox_bounded (cx_inbox x);
  ok_gossip : gossip_inv (cx_gossip x);
  ok_erlay : erlay_ok low (cx_reconciliation x)
}.

(** A handler that cannot fail and keeps the invariant. *)
Definition handled (low : Z) (r : result NetError ConnectionContext) : Prop :=
  ∃ x, r = Ok x ∧ context_ok low x.

Lemma with_manager_ok low x m : context_ok low x → manager_ok m → context_ok low (with_manager x m).
Proof. intros [] Hm. by constructor. Qed.
Lemma with_inbox_ok low x i : context_ok low x → inbox_bounded i → context_ok low (with_inbox x i).
Proof. intros [] Hi. by constructor. Qed.

Lemma reply_ok low x id r : context_ok low x → r ≠ Panic → handled low (reply x id r).
Proof.
  intros Hx Hr. destruct r as [out|e|]; [|by exists x|done]. cbn [reply]. unfold send_or_log.
  pose proof (send_no_panic (cx_manager x) id out) as Hn. pose proof (send_ok (cx_manager x) id out (ok_manager _ _ Hx)) as Hm.
  destruct (manager_send_to_peer _ _ _) as [[]]; try done; (eexists; split; [done|]); by apply with_manager_ok.
Qed.

Lemma reply_all_ok {A} low x id (enc : A → result NetError (list byte)) l :
  context_ok low x → (∀ a, a ∈ l → enc a ≠ Panic) → handled low (foldM (λ x a, reply x id (enc a)) x l).
Proof.
  intros Hx Hl. apply foldM_total; [|done]. intros y a Ha Hy. apply reply_ok; auto.
Qed.

Lemma violation_ok low x id now : context_ok low x → context_ok low (violation x id now).
Proof. intros Hx. apply with_manager_ok; [done|]. apply record_event_ok, Hx. Qed.

Lemma push_ok low x m now : context_ok low x → context_ok low (with_inbox x (push_inbound (cx_inbox x) m now).1).
Proof. intros Hx. apply with_inbox_ok; [done|]. apply enqueue_bounded, Hx. Qed.

(** ** Encoders do not panic *)

Lemma encode_inv_no_panic tag items : encode_inv_items tag items ≠ Panic.
Proof. unfold encode_inv_items. by destruct (_ <? _). Qed.

Lemma encode_headers_no_panic hs : Forall encodable hs → encode_headers hs ≠ Panic.
Proof.
  intros H. unfold encode_headers. destruct (_ <? _); [done|]. apply bind_no_panic; [|intros; by destruct (_ <? _)].
  apply mapM_no_panic. intros h Hh. rewrite Forall_forall in H. by destruct (H h Hh) as [bs ->].
Qed.

Lemma encode_blocks_no_panic bs : Forall (λ b, encodable (header b)) bs → encode_blocks bs ≠ Panic.
Proof.
  intros H. unfold encode_blocks. destruct (_ <? _); [done|]. apply bind_no_panic; [|intros; by destruct (_ <? _)].
  apply mapM_no_panic. intros b Hb. rewrite Forall_forall in H. destruct (H b Hb) as [h Eh].
  unfold encode_block_item, serialize_block, serialize_block_header. rewrite Eh. cbn [mbind result_bind].
  by destruct (_ <? _).
Qed.

Lemma block_txn_encode_no_panic t : block_txn_encode t ≠ Panic.
Proof.
  unfold block_txn_encode. destruct (_ <? _); [done|]. apply bind_no_panic; [|intros; by destruct (_ <? _)].
  apply mapM_no_panic. intros tx _. unfold encode_body. by destruct (_ <? _).
Qed.

Lemma served_no_panic (c : C) from items g m :
  servable c → m ∈ (handle_get_data items from g c).1 → gossip_encode m ≠ Panic.
Proof.
  intros Hc. rewrite handle_get_data_spec. cbn [fst]. intros Hin.
  assert (m ∈ omap (serve c) items ∨ ∃ l, m = GNotFound l) as [Hs|[l ->]].
  { destruct (filter _ items) in Hin; [by left|]. apply elem_of_app in Hin as [?|Hn%list_elem_of_singleton]; [by left|].
    right. by eexists. }
  - apply list_elem_of_omap in Hs as ([[] h] & _ & E); unfold serve in E; cbn in E.
    + apply fmap_Some in E as (tx & _ & ->). cbn. unfold encode_tx. cbv zeta. by destruct (_ <? _).
    + apply fmap_Some in E as (b & Hb & ->). cbn [gossip_encode]. apply encode_blocks_no_panic.
      constructor; [by eapply serve_block_ok|constructor].
  - apply encode_inv_no_panic.
Qed.

Lemma handlers_inv (c : C) from items g :
  gossip_inv g → gossip_inv (handle_inv items from g c).2 ∧ gossip_inv (handle_get_data items from g c).2.
Proof. intros Hg. rewrite handle_inv_spec, handle_get_data_spec. cbn [snd]. auto using mark_all_inv. Qed.

(** ** Erlay *)

Lemma parse_envelope_no_panic bs : parse_envelope bs ≠ Panic.
Proof.
  unfold parse_envelope, ENVELOPE_HEADER_LEN. destruct (Nat.ltb_spec (length bs) 15) as [|Hl]; [done|].
  apply bind_no_panic; [apply range_no_panic; lia|]. intros m _. case_decide; [done|].
  apply bind_no_panic.
  { unfold byte_at. destruct (bs !! 4%nat) eqn:E; [done|]. apply lookup_ge_None in E. lia. }
  intros i _. destruct (negb _); [done|]. apply bind_no_panic; [apply range_no_panic; lia|]. intros b _.
  destruct (negb _); [done|]. apply bind_no_panic; [apply range_no_panic; lia|]. intros c _.
  apply bind_no_panic; [apply range_no_panic; lia|]. intros n _. cbv zeta. destruct (negb _); [done|].
  apply bind_no_panic; [|by intros [? ?] _].
  apply (foldM_no_panic (λ _, True)); [|done]. intros [[p|] els] ch _ _; cbn; [by destruct (_ <=? _)|done].
Qed.

Lemma reconcile_no_panic s id sk now : (reconcile_at s id sk now).1 ≠ Panic.
Proof.
  unfold reconcile_at. cbv zeta.
  assert (∀ a, decode_difference a sk ≠ Panic) as Hd.
  { intros a. unfold decode_difference. apply bind_no_panic; [apply parse_envelope_no_panic|]. intros l _.
    apply bind_no_panic; [apply parse_envelope_no_panic|]. intros r _. cbv zeta. by destruct (_ <? _). }
  specialize (Hd (pr_last_sketch (peer_sketch s id))). by destruct (decode_difference _ _).
Qed.

Lemma erlay_encode_no_panic m : erlay_encode m ≠ Panic.
Proof. unfold erlay_encode. by destruct (_ <? _). Qed.

Lemma fallback_ok (c : C) id g (m : PeerManager) :
  manager_ok m → manager_ok (fallback_full_relay (PL := manager_link) [] id m g c).2.
Proof.
  intros Hm. unfold fallback_full_relay. cbv zeta.
  generalize (chunks (length (fallback_items [] c)) (Z.to_nat MAX_INV_BATCH) (fallback_items [] c)) as l.
  assert (∀ l acc, manager_ok acc.2 → manager_ok (foldl (relay_chunk (PL := manager_link) g id) acc l).2) as H;
    [|intros l; by apply H].
  induction l as [|ch l IH]; intros [n m0] H0; [done|]. cbn [foldl]. apply IH. unfold relay_chunk. cbv zeta.
  destruct (filter _ ch); [done|]. destruct (inv_encode _) as [out| |]; [|done..].
  pose proof (send_ok m0 id out H0) as Hs. cbn [send_to_peer manager_link].
  by destruct (manager_send_to_peer m0 id out).
Qed.

Context (low : Z) (low_range : 1 ≤ low ≤ INITIAL_SKETCH_CAPACITY).

Lemma with_reconciliation_ok x s :
  context_ok low x → erlay_step (cx_reconciliation x) s → context_ok low (with_reconciliation x s).
Proof. intros [] Hs. constructor; try done. by eapply erlay_step_ok. Qed.

Lemma erlay_handled x c id message now :
  context_ok low x → handled low (handle_erlay_reconcile x c id message now).
Proof.
  intros Hx. unfold handle_erlay_reconcile.
  pose proof (reconcile_no_panic (cx_reconciliation x) id (er_sketch message) now) as Hn.
  pose proof (step_reconcile (cx_reconciliation x) id (er_sketch message) now) as Hs.
  destruct (reconcile_at _ _ _ _) as [outcome recon]. cbn [fst snd] in Hn, Hs. cbv zeta.
  apply (with_reconciliation_ok x) in Hs; [|done]. set (y := with_reconciliation x recon) in *.
  match goal with |- handled _ (?r ≫= _) => assert (handled low r) as (z & -> & Hz) end.
  { destruct outcome as [txids|e|]; [|eexists; split; [done|]|done].
    - apply (reply_all_ok low y id inv_encode); [done|]. intros a _. apply encode_inv_no_panic.
    - apply with_manager_ok; [done|]. apply fallback_ok, Hs. }
  cbn [mbind result_bind]. destruct (if er_respond message then _ else _) as [sk|]; [|by exists z].
  apply reply_ok; [done|apply erlay_encode_no_panic].
Qed.

Lemma tick_handled x id caps now :
  context_ok low x → handled low (maybe_start_reconciliation x id caps now).
Proof.
  intros Hx. unfold maybe_start_reconciliation. destruct (_ =? 0); [by exists x|].
  destruct (negb _); [by exists x|].
  pose proof (step_sketch (cx_reconciliation x) id) as Hs.
  destruct (local_sketch _ _) as [recon sk]. cbn [fst] in Hs. cbv zeta.
  apply reply_ok; [|apply erlay_encode_no_panic].
  apply (with_reconciliation_ok x recon) in Hs; [|done].
  exact (with_reconciliation_ok _ (mark_reconciled_at recon now) Hs (step_mark recon now)).
Qed.

(** ** Frames *)

Abbreviation pending_ok p := (map_Forall (λ _, pending_typed) p).

Lemma gossip_compact_typed bs compact : gossip_parse bs = Ok (GCompactBlock compact) → compact_typed compact.
Proof.
  unfold gossip_parse. destruct bs as [|b bs]; [done|]. cbv zeta.
  destruct (_ =? MSG_INV); [by destruct (inv_parse _)|].
  destruct (_ =? MSG_GET_DATA); [by destruct (get_data_parse _)|].
  destruct (_ =? MSG_TX); [by destruct (parse_tx _)|].
  destruct (_ =? MSG_BLOCKS).
  { intros H. apply bind_ok_inv in H as (l & _ & H). destruct (negb _); [done|]. by apply bind_ok_inv in H as (? & _ & H). }
  destruct (_ =? MSG_NOTFOUND); [by destruct (not_found_parse _)|].
  destruct (_ =? MSG_COMPACT_BLOCK).
  { destruct (compact_parse (b :: bs)) as [c'| |] eqn:E; [|done..]. intros [= <-]. by eapply compact_parse_typed. }
  destruct (_ =? MSG_GET_BLOCK_TXN); [by destruct (get_block_txn_parse _)|].
  destruct (_ =? MSG_BLOCK_TXN); [by destruct (block_txn_parse _)|].
  destruct (_ =? MSG_ERLAY_RECONCILE); [by destruct (erlay_parse _)|]. done.
Qed.

Lemma gossip_handled x (c : C) id addr payload pending now :
  context_ok low x → servable c → pending_ok pending →
  ∃ x' pending', dispatch_gossip x c id addr payload pending now = Ok (x', pending')
    ∧ context_ok low x' ∧ pending_ok pending'.
Proof.
  intros Hx Hc Hp. unfold dispatch_gossip. pose proof (gossip_parse_no_panic payload) as Hn.
  destruct (gossip_parse payload) as [msg|e|] eqn:Eg; [|by exists (violation x id now), pending; auto using violation_ok|done].
  destruct msg as [items|items|tx|blk|items|compact|req|txn|er].
  - pose proof (handlers_inv c id items (cx_gossip x) (ok_gossip _ _ Hx)) as [Hg _].
    assert (∀ m, m ∈ (handle_inv items id (cx_gossip x) c).1 → gossip_encode m ≠ Panic) as He.
    { rewrite handle_inv_spec. cbn [fst]. destruct (filter _ items); [by intros m ?%not_elem_of_nil|].
      intros m ->%list_elem_of_singleton. apply encode_inv_no_panic. }
    destruct (handle_inv items id (cx_gossip x) c) as [out g]. cbn [fst snd] in *.
    destruct (reply_all_ok low (with_gossip x g) id gossip_encode out) as (y & E & Hy); [by destruct Hx|done|].
    unfold send_gossip_messages. rewrite E. by exists y, pending.
  - pose proof (handlers_inv c id items (cx_gossip x) (ok_gossip _ _ Hx)) as [_ Hg].
    pose proof (served_no_panic c id items (cx_gossip x)) as He.
    destruct (handle_get_data items id (cx_gossip x) c) as [out g]. cbn [fst snd] in *.
    destruct (reply_all_ok low (with_gossip x g) id gossip_encode out) as (y & E & Hy); [by destruct Hx|by auto|].
    unfold send_gossip_messages. rewrite E. by exists y, pending.
  - pose proof (push_ok low x (NewTx tx (Some addr)) now Hx) as Hi.
    destruct (push_inbound _ _ now) as [i queued]. cbn [fst] in Hi. eexists _, pending. split; [done|].
    split; [|done]. destruct queued; [|done]. apply with_reconciliation_ok; [done|]. apply step_note.
  - eexists _, pending. split; [done|]. split; [by apply push_ok|done].
  - by exists x, pending.
  - pose proof (gossip_compact_typed _ _ Eg) as Ht. destruct (fill_up_no_panic compact c Ht) as [Hf Hm].
    destruct (fill_up compact c) as [[blk|req]|e|] eqn:Ef; [| | |done].
    + eexists _, pending. split; [done|]. split; [by apply push_ok|done].
    + destruct (reply_ok low x id (get_block_txn_encode req) Hx) as (y & -> & Hy).
      { unfold get_block_txn_encode. by destruct (_ <? _). }
      destruct (header_hash_ok (cb_header compact) (proj1 Ht)) as [h Eh]. cbn [mbind result_bind]. rewrite Eh.
      cbn [mbind result_bind]. eexists _, _. split; [done|]. split; [done|]. apply map_Forall_insert_2; [|done].
      split; [done|]. by apply Hm.
    + eexists _, pending. split; [done|]. split; [by apply violation_ok|done].
  - destruct (handle_get_block_txn req c) as [resp|]; [|by exists x, pending].
    destruct (reply_ok low x id (block_txn_encode resp) Hx (block_txn_encode_no_panic resp)) as (y & -> & Hy).
    by exists y, pending.
  - destruct (pending !! bt_block_hash txn) as [[compact req]|] eqn:El; [|by exists x, pending].
    destruct (Hp _ _ El) as [Ht Hi]. pose proof (apply_block_txn_no_panic compact _ txn c Ht Hi) as Ha.
    assert (pending_ok (delete (bt_block_hash txn) pending)) as Hd by (by apply map_Forall_delete).
    destruct (apply_block_txn _ _ _ _) as [blk|e|]; [| |done]; eexists _, _; (split; [done|]); split; try done.
    + by apply push_ok.
    + by apply violation_ok.
  - destruct (erlay_handled x c id er now Hx) as (y & -> & Hy). by exists y, pending.
Qed.

Lemma verdict_no_panic l now addr payload : (charge_frame l now addr payload).2 ≠ Panic.
Proof.
  assert (∀ p f, (∀ p : PeerRateLimiter, (f p).2 ≠ Panic) → (guarded p now f).2 ≠ Panic) as Hg.
  { intros p f Hf. unfold guarded, limiter_guard. destruct (pl_banned_until p); [|apply Hf].
    destruct (_ <? _); [done|apply Hf]. }
  assert (∀ p, (record_violation p now).2 ≠ Panic) as Hv.
  { intros p. unfold record_violation. cbv zeta. by destruct (_ <=? wrap32 _). }
  assert (∀ p b, (settle p now b).2 ≠ Panic) as Hs by (intros p []; [done|apply Hv]).
  assert (∀ p, (charge_main p now).2 ≠ Panic) as Hmain.
  { intros p. unfold charge_main. destruct (try_consume_at _ _ _). apply Hs. }
  assert (∀ p c, (charge_class p now c).2 ≠ Panic) as Hclass.
  { intros p []; cbn [charge_class]; [| |apply Hmain]; destruct (charge_both _ _ _) as [[? ?] ?]; apply Hs. }
  assert (∀ p t, (charge_type p now t).2 ≠ Panic) as Htype.
  { intros p t. unfold charge_type. destruct (_ !! t); [destruct (charge_both _ _ _) as [[? ?] ?]; apply Hs|].
    cbv zeta. destruct (_ <=? _); [done|apply Hv]. }
  assert (∀ a, (limiter_check_at l now a).2 ≠ Panic) as H1.
  { intros a. unfold limiter_check_at. pose proof (Hg (peer_entry l a now) _ Hmain) as H.
    unfold check_at. by destruct (guarded _ _ _). }
  assert (∀ a c, (limiter_check_class_at l now a c).2 ≠ Panic) as H2.
  { intros a c. unfold limiter_check_class_at. pose proof (Hg (peer_entry l a now) _ (λ p, Hclass p c)) as H.
    unfold check_class_at. by destruct (guarded _ _ _). }
  assert (∀ a t, (limiter_check_rate_at l now a t).2 ≠ Panic) as H3.
  { intros a t. unfold limiter_check_rate_at. pose proof (Hg (peer_entry l a now) _ (λ p, Htype p t)) as H.
    unfold check_rate_at. by destruct (guarded _ _ _). }
  unfold charge_frame. destruct payload as [|b bs]; [done|]. cbv zeta. destruct (_ =? _); [done|].
  destruct (_ =? _); [done|]. by destruct (message_type _).
Qed.

Lemma frame_handled x (c : C) id addr payload pending now :
  context_ok low x → servable c → pending_ok pending →
  ∃ x' pending' alive, dispatch_frame x c id addr payload pending now = Ok (x', pending', alive)
    ∧ context_ok low x' ∧ pending_ok pending'.
Proof.
  intros Hx Hc Hp. unfold dispatch_frame.
  pose proof (verdict_no_panic (ib_rate_limiter (cx_inbox x)) now addr payload) as Hv.
  destruct (charge_frame _ now addr payload) as [l v]. cbn [snd] in Hv. cbv zeta.
  assert (context_ok low (with_inbox x (with_limiter (cx_inbox x) l))) as Hy.
  { apply with_inbox_ok; [done|]. by destruct (ok_inbox _ _ Hx). }
  set (y := with_inbox x _) in *. destruct v as [[]|e|]; [| |done].
  2:{ eexists _, pending, _. split; [done|]. split; [|done]. apply with_manager_ok; [done|].
      apply apply_rate_verdict_ok, Hy. }
  pose proof (decode_message_no_panic payload) as Hn.
  destruct (decode_message payload) as [[n|hs|t|bs]|e|]; [..|done].
  - destruct (reply_ok low y id (encode_headers (bv_headers_from_height c n (Z.to_nat MAX_HEADERS_BATCH))) Hy)
      as (z & -> & Hz); [by apply encode_headers_no_panic, serve_headers_ok|]. by exists z, pending, true.
  - destruct (reply_ok low y id (encode_blocks (bv_blocks_by_hashes c hs (Z.to_nat MAX_BLOCKS_BATCH))) Hy)
      as (z & -> & Hz); [by apply encode_blocks_no_panic, serve_blocks_ok|]. by exists z, pending, true.
  - destruct (gossip_handled y c id addr payload pending now Hy Hc Hp) as (z & q & -> & Hz & Hq). by exists z, q, true.
  - by exists y, pending, true.
  - eexists _, pending, false. split; [done|]. split; [by apply violation_ok|done].
Qed.

Lemma step_handled x (c : C) id addr caps pending now ev :
  context_ok low x → servable c → pending_ok pending →
  ∃ x' pending' alive, loop_step x id addr caps pending now c ev = Ok (x', pending', alive)
    ∧ context_ok low x' ∧ pending_ok pending'.
Proof.
  intros Hx Hc Hp. destruct ev as [| |payload|e|]; cbn [loop_step].
  1,2,4: by eexists _, _, _.
  - by apply frame_handled.
  - destruct (tick_handled x id caps now Hx) as (y & -> & Hy). by eexists _, _, _.
Qed.

Lemma loop_handled x id addr caps pending events :
  context_ok low x → pending_ok pending → Forall (λ ev : Z * C * LoopEvent, servable ev.1.2) events →
  handled low (connection_loop x id addr caps pending events).
Proof.
  intros Hx Hp Hev. revert x pending Hx Hp. induction Hev as [|[[now c] ev] events Hc _ IH]; intros x pending Hx Hp;
    cbn [connection_loop]; [by exists x|].
  destruct (step_handled x c id addr caps pending now ev Hx Hc Hp) as (y & q & alive & -> & Hy & Hq).
  cbn [mbind result_bind]. destruct alive; [by apply IH|by exists y].
Qed.

Lemma closed_ok x id : context_ok low x → context_ok low (session_closed x id).
Proof.
  intros [Hm Hi Hg He]. constructor; cbn; [by apply disconnect_ok|done|by apply forget_peer_ok|].
  by eapply erlay_step_ok; [| |exact He]; [|apply step_forget].
Qed.

(** C29: No peer can crash its session or corrupt the node through it: for any sequence of
    frames, read errors, timer ticks and shutdowns, whatever bytes the frames hold, the
    connection loop of a node with encodable blocks runs to its end without a panic; the
    peer manager, the inbox, the gossip knowledge and the reconciliation state keep their
    invariants; and afterwards the peer has no registered connection, no known-inventory
    set and no reconciliation record. *)
Theorem session_sound x id addr caps events :
  context_ok low x → Forall (λ ev : Z * C * LoopEvent, servable ev.1.2) events →
  ∃ x', run_connection x id addr caps events = Ok x' ∧ context_ok low x'
    ∧ cp_connections (pm_pool (cx_manager x')) !! id = None
    ∧ cx_gossip x' !! id = None ∧ rs_peer_state (cx_reconciliation x') !! id = None.
Proof.
  intros Hx Hev. unfold run_connection.
  destruct (loop_handled x id addr caps ∅ events Hx (map_Forall_empty _) Hev) as (y & -> & Hy).
  cbn [mbind result_bind]. eexists. split; [done|]. split; [by apply closed_ok|].
  cbn [session_closed cx_manager cx_gossip cx_reconciliation]. split_and!.
  - cbn. apply lookup_delete_eq.
  - apply lookup_delete_eq.
  - cbn. apply lookup_delete_eq.
Qed.

(** ** The gate *)

Lemma rate_ban_effect m id d now :
  let m' := apply_rate_verdict m id (Err Ban) d now in
  ps_ban_state (pm_store m') !! id
    = Some {| bn_until := now + d; bn_reason := RateLimited; bn_banned_at := now; bn_persistent := true |}
  ∧ cp_connections (pm_pool m') !! id = None.
Proof.
  cbn [apply_rate_verdict]. unfold ban_peer, persist. cbv zeta.
  destruct (pc_network_json_path _); cbn; split; first [apply lookup_insert_eq|apply lookup_delete_eq].
Qed.

(** What a frame does, by the verdict of the limiter. *)
Lemma frame_gate x (c : C) id addr payload pending now x' pending' alive :
  dispatch_frame x c id addr payload pending now = Ok (x', pending', alive) →
  let '(l, verdict) := charge_frame (ib_rate_limiter (cx_inbox x)) now addr payload in
  (alive = false ↔ verdict = Err Ban ∨ verdict = Ok tt ∧ ∃ e, decode_message payload = Err e)
  ∧ (verdict ≠ Ok tt → cx_inbox x' = with_limiter (cx_inbox x) l ∧ cx_gossip x' = cx_gossip x
       ∧ cx_reconciliation x' = cx_reconciliation x ∧ pending' = pending)
  ∧ (verdict = Err Ban →
       ps_ban_state (pm_store (cx_manager x')) !! id
         = Some {| bn_until := now + rl_ban_duration (lm_config l); bn_reason := RateLimited;
                   bn_banned_at := now; bn_persistent := true |}
       ∧ cp_connections (pm_pool (cx_manager x')) !! id = None)
  ∧ (verdict = Ok tt → (∃ bs, decode_message payload = Ok (UnknownMessage bs)) →
       x' = with_inbox x (with_limiter (cx_inbox x) l) ∧ pending' = pending).
Proof.
  intros H. unfold dispatch_frame in H. destruct (charge_frame _ now addr payload) as [l v]. cbv zeta in H.
  destruct v as [[]|e|]; [| |done].
  - assert (∀ a b, (a, b, true) = (x', pending', alive) → alive = true) as Ht by (by intros a b [= _ _ <-]).
    destruct (decode_message payload) as [[n|hs|t|bs]|e|] eqn:Ed; [..|done].
    1-3: apply bind_ok_inv in H as (y & _ & H); try destruct y; apply ok_inj, Ht in H; subst alive;
      split_and!; [split; [done|intros [?|[_ [? ?]]]; done]|done|done|intros _ [? ?]; done].
    + injection H as <- <- <-. split_and!; [split; [done|intros [?|[_ [? ?]]]; done]|done|done|done].
    + injection H as <- <- <-. split_and!; [split; [intros _; right; by eauto|done]|done|done|intros _ [? ?]; done].
  - injection H as <- <- <-. split_and!; [|done| |done].
    + destruct e; (split; [intros He|intros [?|[? _]]]); try done; by left.
    + intros [= ->]. apply (rate_ban_effect (cx_manager x) id).
Qed.

(** C30: The rate limiter is the gate of every frame, and the loop ends for four reasons
    only.  It breaks when the shutdown flag is set, when a read fails (end of stream,
    time-out, a frame that does not decrypt), when the limiter bans the peer, and when an
    admitted frame is a malformed sync request; after anything else it goes on.  A frame
    the limiter refuses is not looked at: the queues, the gossip knowledge, the
    reconciliation state and the compact blocks in flight stay as they were; on a ban the
    peer's id is banned for the limiter's period and its connection removed.  An admitted
    frame with a tag of a future version changes nothing but the limiter. *)
Theorem dispatch_gate x (c : C) id addr caps pending now ev x' pending' alive :
  loop_step x id addr caps pending now c ev = Ok (x', pending', alive) →
  (∀ events, connection_loop x id addr caps pending ((now, c, ev) :: events)
             = if alive then connection_loop x' id addr caps pending' events else Ok x')
  ∧ match ev with
    | EvShutdown | EvReadError _ => alive = false ∧ x' = x ∧ pending' = pending
    | EvShutdownTick => alive = true ∧ x' = x ∧ pending' = pending
    | EvReconcileTick => alive = true ∧ pending' = pending
    | EvFrame payload =>
        let '(l, verdict) := charge_frame (ib_rate_limiter (cx_inbox x)) now addr payload in
        (alive = false ↔ verdict = Err Ban ∨ verdict = Ok tt ∧ ∃ e, decode_message payload = Err e)
        ∧ (verdict ≠ Ok tt → cx_inbox x' = with_limiter (cx_inbox x) l ∧ cx_gossip x' = cx_gossip x
             ∧ cx_reconciliation x' = cx_reconciliation x ∧ pending' = pending)
        ∧ (verdict = Err Ban →
             ps_ban_state (pm_store (cx_manager x')) !! id
               = Some {| bn_until := now + rl_ban_duration (lm_config l); bn_reason := RateLimited;
                         bn_banned_at := now; bn_persistent := true |}
             ∧ cp_connections (pm_pool (cx_manager x')) !! id = None)
        ∧ (verdict = Ok tt → (∃ bs, decode_message payload = Ok (UnknownMessage bs)) →
             x' = with_inbox x (with_limiter (cx_inbox x) l) ∧ pending' = pending)
    end.
Proof.
  intros H. split; [intros events; cbn [connection_loop]; by rewrite H|].
  destruct ev as [| |payload|e|]; cbn [loop_step] in H.
  1,2,4: by injection H as <- <- <-.
  - by apply (frame_gate x c).
  - apply bind_ok_inv in H as (y & _ & [= <- <- <-]). done.
Qed.
End Loop.

(** ** The node behind the loop *)

Section NodeLoop.
Context `{HX : Hex, B3 : Blake3, B32 : Bech32, SK : Secp256k1}.
Context `{VR : VmRuntime V} (vm_wasm : bool).

Lemma valid_encodable R chain s : valid_chain vm_wasm R chain s → Forall (λ b, encodable (header b)) chain.
Proof.
  induction 1 as [|chain s block s' _ IH Ha]; [constructor|]. apply Forall_app. split; [done|].
  constructor; [|constructor]. destruct (acc_size _ _ _ _ _ Ha) as (bytes & E & _).
  unfold serialize_block in E. apply bind_ok_inv in E as (h & E & _). exists h.
  exact (serialize_header_result _ _ E).
Qed.

Lemma by_hash_in (chain : list Block) h b :
  foldl (λ m b, <[b_hash b := b]> m) (∅ : gmap string Block) chain !! h = Some b → b ∈ chain.
Proof.
  assert (∀ l (m : gmap string Block), foldl (λ m b, <[b_hash b := b]> m) m l !! h = Some b → b ∈ l ∨ m !! h = Some b) as H.
  { induction l as [|x l IH]; intros m Hl; [by right|]. cbn [foldl] in Hl. apply IH in Hl as [?|Hl]; [left; by right|].
    apply lookup_insert_Some in Hl as [[_ <-]|[_ ?]]; [left; left|by right]. }
  intros Hl. by destruct (H chain ∅ Hl).
Qed.

(** A consistent node can serve every block it has. *)
Lemma consistent_servable now bc : consistent vm_wasm now bc → servable bc.
Proof.
  intros [(s & Hv & _) _ _ _ _]. apply valid_encodable in Hv as He. rewrite Forall_forall in He. constructor.
  - intros n k. cbn [bv_headers_from_height facade_view]. unfold headers_from_height. apply Forall_fmap, Forall_forall.
    intros b Hb. apply He. apply list_elem_of_lookup in Hb as [i Hb]. apply lookup_take_Some in Hb as [Hb _].
    apply list_elem_of_lookup_2 in Hb. by apply list_elem_of_filter in Hb as [_ ?].
  - intros hs k. cbn [bv_blocks_by_hashes facade_view]. unfold blocks_by_hashes.
    destruct hs as [|h0 hs]; [constructor|]. cbv zeta. apply Forall_forall. intros b Hb. apply He.
    apply list_elem_of_lookup in Hb as [i Hb]. apply lookup_take_Some in Hb as [Hb _].
    apply list_elem_of_lookup_2, list_elem_of_omap in Hb as (h & _ & Hb). by eapply by_hash_in.
  - intros h b Hb. apply He. cbn [bv_block_by_hash facade_view] in Hb. unfold block_by_hash in Hb.
    apply fmap_Some in Hb as ([i b'] & Hb & ->). apply list_find_Some in Hb as (Hb & _). by eapply list_elem_of_lookup_2.
Qed.
End NodeLoop.

(** ** A concrete session *)

#[local] Existing Instances toy_hex toy_blake3 toy_bech32 toy_secp toy_vm toy_hex_ok toy_blake3_ok toy_runtime.
#[local] Existing Instances toy_snow toy_ed toy_kdf toy_socket toy_addr_text.
#[local] Instance flat_sip : SipHash := λ msg, lenZ msg.

#[local] Instance toy_snow_total : SnowTotal (SN := toy_snow).
Proof. constructor. intros t p. by cbv. Qed.

Definition toy_context : ConnectionContext := {|
  cx_manager := manager1; cx_inbox := inbox_new toy_limiter; cx_gossip := ∅;
  cx_reconciliation := reconciliation_new sample_config |}.

Lemma toy_context_ok : context_ok 100 toy_context.
Proof.
  constructor; cbn [cx_manager cx_inbox cx_gossip cx_reconciliation toy_context].
  - apply (manager_step_ok manager0 manager1 (StRegister manager0 (session_with (node_id bob)) 0)).
    apply (new_ok manager_config_default alice None 0 I).
  - constructor; cbn; rewrite ?size_empty; lia.
  - apply map_Forall_empty.
  - split; [cbn; unfold MAX_SKETCH_CAPACITY; lia|apply map_Forall_empty].
Qed.

(** A request, an empty frame, a truncated compact block, a future tag, timer ticks and
    the end of the stream. *)
Definition toy_events : list (Z * Blockchain * LoopEvent) :=
  [(1, node1, EvFrame (encode_get_headers 0)); (2, node1, EvFrame []); (2, node1, EvShutdownTick);
   (3, node1, EvFrame [byte_of MSG_COMPACT_BLOCK]); (4, node1, EvFrame [xff]); (5, node1, EvReconcileTick);
   (6, node1, EvReadError (Transport "end of stream"))].

Lemma session_sound_witness :
  ∃ x', run_connection toy_context (node_id bob) peer_addr0 7 toy_events = Ok x' ∧ context_ok 100 x'
    ∧ cp_connections (pm_pool (cx_manager x')) !! node_id bob = None.
Proof.
  destruct (session_sound 100 ltac:(by_eval) toy_context (node_id bob) peer_addr0 7 toy_events toy_context_ok)
    as (x' & H1 & H2 & H3 & _).
  - pose proof (consistent_servable true _ _ node1_consistent) as H. repeat (constructor; [exact H|]). constructor.
  - exists x'. exact (conj H1 (conj H2 H3)).
Defined.

Lemma future_tag_admitted : is_ok (charge_frame toy_limiter 1 peer_addr0 [xff]).2 = true.
Proof. vm_compute. reflexivity. Qed.

(** A frame with a future tag: the loop goes on and nothing but the limiter moves. *)
Lemma dispatch_gate_witness :
  ∃ x' p' alive, loop_step toy_context (node_id bob) peer_addr0 7 ∅ 1 node1 (EvFrame [xff]) = Ok (x', p', alive)
    ∧ p' = ∅ ∧ cx_manager x' = cx_manager toy_context ∧ cx_gossip x' = cx_gossip toy_context.
Proof.
  destruct (step_handled 100 ltac:(by_eval) toy_context node1 (node_id bob) peer_addr0 7 ∅ 1 (EvFrame [xff]) toy_context_ok
    (consistent_servable true _ _ node1_consistent) (map_Forall_empty _)) as (x' & p' & alive & E & _).
  exists x', p', alive. split; [exact E|]. pose proof future_tag_admitted as Hv.
  pose proof (proj2 (dispatch_gate toy_context node1 (node_id bob) peer_addr0 7 ∅ 1 (EvFrame [xff]) x' p' alive E)) as H.
  cbv beta iota in H. cbn [cx_inbox toy_context ib_rate_limiter inbox_new] in H.
  destruct (charge_frame toy_limiter 1 peer_addr0 [xff]) as [l [[]|e|]]; [|discriminate Hv|discriminate Hv].
  destruct H as (_ & _ & _ & H). destruct (H eq_refl (ex_intro _ [xff] eq_refl)) as [-> ->].
  unfold with_inbox. cbn [cx_manager cx_gossip]. split; [reflexivity|]. split; reflexivity.
Defined.
