(* ===== verification/Config.v ===== *)
(** * Node configuration (src/config.rs, parse_rate_spec of rate_limiter.rs)

    The configuration from the parsed file on: its defaults, its validation, and how it
    becomes the tunables of the rate limiter and the peer manager.  Reading and parsing
    TOML is I/O.  The message of a [ConfigError] is represented by its cause. *)

From S2P Require Import Prelude Bytes Abi Net Float RateLimiter Peers Manager.
From Stdlib Require Import QArith.
Open Scope Z_scope.

(** A TOML float read as [f32]. *)
Inductive FloatValue := Finite (q : Q) | PosInf | NegInf | NaN.

(** [x < y] and [is_finite]. *)
Definition fv_lt (x y : FloatValue) : bool :=
  match x, y with
  | Finite p, Finite q => flt p q
  | NaN, _ | _, NaN => false
  | NegInf, NegInf => false | NegInf, _ => true
  | PosInf, _ => false
  | Finite _, PosInf => true
  | Finite _, NegInf => false
  end.
Definition is_finite (x : FloatValue) : bool := match x with Finite _ => true | _ => false end.
(** [x >= 0.0]. *)
Definition fv_nonneg (x : FloatValue) : bool :=
  match x with Finite q => Qle_bool 0 q | PosInf => true | _ => false end.
(** [x + y] is at most 0 (of finite summands, whose rounded sum is finite or an infinity
    of its sign). *)
Definition fv_sum_le_0 (x y : FloatValue) : bool :=
  match x, y with Finite p, Finite q => Qle_bool (f32 (p + q)) 0 | _, _ => false end.

(** ** Rate specifications *)

Inductive SpecError :=
  | MissingSuffix | MissingSlash | BadCapacity | BadWindow | ZeroWindow | ZeroCapacity | NoRefill.

(** The encodings of the characters [str::trim] removes. *)
Definition WHITE_SPACE : list (list byte) :=
  [[x09]; [x0a]; [x0b]; [x0c]; [x0d]; [x20]; [xc2; x85]; [xc2; xa0]; [xe1; x9a; x80];
   [xe2; x80; x80]; [xe2; x80; x81]; [xe2; x80; x82]; [xe2; x80; x83]; [xe2; x80; x84]; [xe2; x80; x85];
   [xe2; x80; x86]; [xe2; x80; x87]; [xe2; x80; x88]; [xe2; x80; x89]; [xe2; x80; x8a]; [xe2; x80; xa8];
   [xe2; x80; xa9]; [xe2; x80; xaf]; [xe2; x81; x9f]; [xe3; x80; x80]].

Fixpoint trim_front (spaces : list (list byte)) (fuel : nat) (s : list byte) : list byte :=
  match fuel with
  | O => s
  | S fuel =>
      match head (omap (λ w, strip_prefix w s) spaces) with
      | Some s => trim_front spaces fuel s
      | None => s
      end
  end.

(** Every turn removes a byte. *)
Definition trim (s : list byte) : list byte :=
  let s := trim_front WHITE_SPACE (length s) s in
  reverse (trim_front (reverse <$> WHITE_SPACE) (length s) (reverse s)).

(** [s.split_once(c)]. *)
Definition split_once (c : byte) (s : list byte) : option (list byte * list byte) :=
  '(i, _) ← list_find (c =.) s; Some (take i s, drop (S i) s).

Definition u32_max : Z := two32 - 1.

Definition parse_rate_spec (spec : list byte) : result SpecError BucketSpec :=
  let spec := trim spec in
  core ← ok_or (strip_suffix (lit "s") spec) MissingSuffix;
  '(cap_s, win_s) ← ok_or (split_once "/"%byte core) MissingSlash;
  capacity ← ok_or (parse_uint u32_max (trim cap_s)) BadCapacity;
  window ← ok_or (parse_uint u32_max (trim win_s)) BadWindow;
  if window =? 0 then Err ZeroWindow else
  if capacity =? 0 then Err ZeroCapacity else
  let refill := capacity / window in
  if refill =? 0 then Err NoRefill else
  Ok {| bs_capacity := capacity; bs_refill := refill |}.

(** ** The configuration *)

Inductive NodeMode := Full | Light | Archival.

Record RateLimitPerTypeConfig := {
  pt_inv : list byte; pt_block : list byte; pt_tx : list byte; pt_get_headers : list byte; pt_get_blocks : list byte
}.

Record NetworkConfig := {
  nc_listen_addr : SocketAddr; nc_seeds : list SocketAddr; nc_max_peers : Z;
  nc_peer_ban_threshold : FloatValue; nc_max_connections : Z; nc_max_per_ip_range : Z;
  nc_rate_limit_ban_threshold : Z; nc_rate_limit_ban_window_sec : Z; nc_rate_limit_ban_duration_sec : Z;
  nc_rate_limit_main_capacity : Z; nc_rate_limit_main_refill : Z; nc_rate_limit_per_type : RateLimitPerTypeConfig;
  nc_w_latency : FloatValue; nc_w_invalid : FloatValue; nc_w_violation : FloatValue; nc_w_uptime : FloatValue;
  nc_warn_threshold : FloatValue; nc_persistent_threshold : FloatValue;
  nc_temp_ban_duration_sec : Z; nc_persistent_ban_duration_sec : Z;
  nc_invalid_full_weight : Z; nc_violation_full_weight : Z
}.

Record Config := {
  cf_network_id : Z; cf_node_mode : NodeMode; cf_network : NetworkConfig; cf_storage_path : string;
  cf_log_level : string; cf_data_dir : string; cf_allow_grant_blocks : bool; cf_allow_zero_state_root : option bool
}.

Definition per_type_default : RateLimitPerTypeConfig := {|
  pt_inv := lit "100/10s"; pt_block := lit "30/10s"; pt_tx := lit "1000/10s";
  pt_get_headers := lit "100/10s"; pt_get_blocks := lit "100/10s" |}.

Definition network_default : NetworkConfig := {|
  nc_listen_addr := SockV4 [x7f; x00; x00; x01] 8081; nc_seeds := []; nc_max_peers := 50;
  nc_peer_ban_threshold := Finite (f32 (2 # 10)); nc_max_connections := 50; nc_max_per_ip_range := 8;
  nc_rate_limit_ban_threshold := 5; nc_rate_limit_ban_window_sec := 60; nc_rate_limit_ban_duration_sec := 300;
  nc_rate_limit_main_capacity := 1000; nc_rate_limit_main_refill := 100;
  nc_rate_limit_per_type := per_type_default;
  nc_w_latency := Finite (f32 (2 # 10)); nc_w_invalid := Finite (f32 (5 # 10));
  nc_w_violation := Finite (f32 (2 # 10)); nc_w_uptime := Finite (f32 (1 # 10));
  nc_warn_threshold := Finite (f32 (4 # 10)); nc_persistent_threshold := Finite (f32 (5 # 100));
  nc_temp_ban_duration_sec := 3600; nc_persistent_ban_duration_sec := 60 * 60 * 24 * 30;
  nc_invalid_full_weight := 6; nc_violation_full_weight := 4 |}.

Definition config_default : Config := {|
  cf_network_id := 3; cf_node_mode := Full; cf_network := network_default; cf_storage_path := "./data/leveldb";
  cf_log_level := "info"; cf_data_dir := "./data"; cf_allow_grant_blocks := false; cf_allow_zero_state_root := None |}.

(** ** Validation *)

Inductive ConfigProblem :=
  | ZeroNetworkId | UnknownNetwork (id : Z) | ZeroStateRootForbidden | ZeroMaxPeers | BanThresholdRange
  | ThresholdOrder | WeightRange (name : string) | NoGradingWeight | ZeroTempBan | ZeroPersistentBan
  | ZeroInvalidWeight | ZeroViolationWeight | ZeroMaxConnections | ZeroPerIpRange | ZeroLimitThreshold
  | ZeroLimitWindow | ZeroLimitDuration | ZeroMainCapacity | ZeroMainRefill
  | BadRateSpec (name : string) (e : SpecError) | EmptyDataDir | EmptyStoragePath.

(** [if bad { return Err(..) }]. *)
Definition reject (bad : bool) (p : ConfigProblem) : result ConfigProblem unit := if bad then Err p else Ok tt.

Definition check_weight (w : string * FloatValue) : result ConfigProblem unit :=
  reject (negb (is_finite w.2 && fv_nonneg w.2)) (WeightRange w.1).

Definition check_spec (s : string * list byte) : result ConfigProblem unit :=
  match parse_rate_spec s.2 with Ok _ => Ok tt | Err e => Err (BadRateSpec s.1 e) | Panic => Panic end.

Fixpoint each {A} (f : A → result ConfigProblem unit) (l : list A) : result ConfigProblem unit :=
  match l with [] => Ok tt | a :: l => _ ← f a; each f l end.

Definition config_validate (c : Config) : result ConfigProblem unit :=
  let n := cf_network c in
  let pt := nc_rate_limit_per_type n in
  _ ← reject (cf_network_id c =? 0) ZeroNetworkId;
  _ ← reject (negb (cf_network_id c =? 1) && negb (cf_network_id c =? 2) && negb (cf_network_id c =? 3))
        (UnknownNetwork (cf_network_id c));
  _ ← reject (bool_decide (cf_allow_zero_state_root c = Some true) && negb (cf_network_id c =? 3))
        ZeroStateRootForbidden;
  _ ← reject (nc_max_peers n =? 0) ZeroMaxPeers;
  _ ← reject (negb (fv_lt (Finite 0) (nc_peer_ban_threshold n) && fv_lt (nc_peer_ban_threshold n) (Finite 1)))
        BanThresholdRange;
  _ ← reject (negb (fv_lt (Finite 0) (nc_persistent_threshold n)
                    && fv_lt (nc_persistent_threshold n) (nc_peer_ban_threshold n)
                    && fv_lt (nc_peer_ban_threshold n) (nc_warn_threshold n)
                    && fv_lt (nc_warn_threshold n) (Finite 1))) ThresholdOrder;
  _ ← each check_weight [("peer_scoring_w_latency", nc_w_latency n); ("peer_scoring_w_invalid", nc_w_invalid n);
                          ("peer_scoring_w_violation", nc_w_violation n); ("peer_scoring_w_uptime", nc_w_uptime n)];
  _ ← reject (fv_sum_le_0 (nc_w_latency n) (nc_w_uptime n)) NoGradingWeight;
  _ ← reject (nc_temp_ban_duration_sec n =? 0) ZeroTempBan;
  _ ← reject (nc_persistent_ban_duration_sec n =? 0) ZeroPersistentBan;
  _ ← reject (nc_invalid_full_weight n =? 0) ZeroInvalidWeight;
  _ ← reject (nc_violation_full_weight n =? 0) ZeroViolationWeight;
  _ ← reject (nc_max_connections n =? 0) ZeroMaxConnections;
  _ ← reject (nc_max_per_ip_range n =? 0) ZeroPerIpRange;
  _ ← reject (nc_rate_limit_ban_threshold n =? 0) ZeroLimitThreshold;
  _ ← reject (nc_rate_limit_ban_window_sec n =? 0) ZeroLimitWindow;
  _ ← reject (nc_rate_limit_ban_duration_sec n =? 0) ZeroLimitDuration;
  _ ← reject (nc_rate_limit_main_capacity n =? 0) ZeroMainCapacity;
  _ ← reject (nc_rate_limit_main_refill n =? 0) ZeroMainRefill;
  _ ← each check_spec [("inv", pt_inv pt); ("block", pt_block pt); ("tx", pt_tx pt);
                        ("get_headers", pt_get_headers pt); ("get_blocks", pt_get_blocks pt)];
  _ ← reject (bool_decide (cf_data_dir c = "")) EmptyDataDir;
  reject (bool_decide (cf_storage_path c = "")) EmptyStoragePath.

(** [Config::load] after reading and parsing the file. *)
Definition config_load (parsed : option Config) : option (result ConfigProblem Config) :=
  (λ c, _ ← config_validate c; Ok c) <$> parsed.

Definition zero_state_root_allowed (c : Config) : bool :=
  default (cf_network_id c =? 3) (cf_allow_zero_state_root c).

(** ** What the configuration becomes *)

(** The rational of a finite value; [ScoringConfig] holds finite values only. *)
Definition finite (x : FloatValue) : option Q := match x with Finite q => Some q | _ => None end.

Definition config_scoring (n : NetworkConfig) : option ScoringConfig :=
  w_latency ← finite (nc_w_latency n); w_invalid ← finite (nc_w_invalid n);
  w_violation ← finite (nc_w_violation n); w_uptime ← finite (nc_w_uptime n);
  warn ← finite (nc_warn_threshold n); ban ← finite (nc_peer_ban_threshold n);
  persistent ← finite (nc_persistent_threshold n);
  Some {| sc_w_latency := w_latency; sc_w_invalid := w_invalid; sc_w_violation := w_violation;
          sc_w_uptime := w_uptime; sc_warn_threshold := warn; sc_temp_ban_threshold := ban;
          sc_persistent_ban_threshold := persistent;
          sc_temp_ban_duration := nc_temp_ban_duration_sec n * NANOS;
          sc_persistent_ban_duration := nc_persistent_ban_duration_sec n * NANOS;
          sc_invalid_full_weight := nc_invalid_full_weight n;
          sc_violation_full_weight := nc_violation_full_weight n |}.

Definition peer_manager_config (c : Config) : option PeerManagerConfig :=
  scoring ← config_scoring (cf_network c);
  Some {| pc_scoring := scoring; pc_max_connections := nc_max_connections (cf_network c);
          pc_max_per_ip_range := nc_max_per_ip_range (cf_network c); pc_network_id := cf_network_id c;
          pc_local_capabilities := pc_local_capabilities manager_config_default;
          pc_network_json_path := pc_network_json_path manager_config_default |}.

Definition rate_limit_config (c : Config) : RateLimitConfig :=
  let n := cf_network c in
  let pt := nc_rate_limit_per_type n in
  let spec raw fallback := match parse_rate_spec raw with Ok s => s | _ => fallback end in
  {| rl_main := {| bs_capacity := nc_rate_limit_main_capacity n; bs_refill := nc_rate_limit_main_refill n |};
     rl_get_headers := spec (pt_get_headers pt) (rl_get_headers rate_limit_default);
     rl_get_blocks := spec (pt_get_blocks pt) (rl_get_blocks rate_limit_default);
     rl_inv := spec (pt_inv pt) (rl_inv rate_limit_default);
     rl_block := spec (pt_block pt) (rl_block rate_limit_default);
     rl_tx := spec (pt_tx pt) (rl_tx rate_limit_default);
     rl_ban_threshold := nc_rate_limit_ban_threshold n;
     rl_ban_window := nc_rate_limit_ban_window_sec n * NANOS;
     rl_ban_duration := nc_rate_limit_ban_duration_sec n * NANOS |}.
