(* ===== verification/ConfigProps.v ===== *)
(** * Properties of the configuration

    A configuration that passes validation gives the rate limiter and the peer scoring
    the ranges their own theorems ask for; rate specifications are read as printed. *)

From S2P Require Import Prelude Bytes Abi Net Float RateLimiter RateLimiterProps Peers Manager Config.
From Stdlib Require Import QArith Lqa.
Open Scope Z_scope.

(** ** Trimming *)

(** No character starts where [s] starts. *)
Definition untrimmed (spaces : list (list byte)) (s : list byte) : Prop :=
  Forall (λ w, head w ≠ None ∧ head w ≠ head s) spaces.

Lemma trim_front_none spaces fuel s : untrimmed spaces s → trim_front spaces fuel s = s.
Proof.
  intros H. destruct fuel as [|fuel]; [done|]. cbn [trim_front].
  assert (omap (λ w, strip_prefix w s) spaces = []) as ->; [|done].
  induction H as [|w ws [Hw Hne] _ IH]; [done|]. cbn [omap list_omap]. unfold strip_prefix at 1.
  rewrite decide_False; [done|]. intros E. apply Hne. rewrite <- E at 1. destruct s as [|b s]; [|by destruct w].
  rewrite take_nil in E. by rewrite <- E in Hw.
Qed.

Lemma trim_none s :
  untrimmed WHITE_SPACE s → untrimmed (reverse <$> WHITE_SPACE) (reverse s) → trim s = s.
Proof.
  intros H1 H2. unfold trim. cbv zeta. rewrite (trim_front_none _ _ s) by done.
  rewrite (trim_front_none _ _ (reverse s)) by done. apply reverse_involutive.
Qed.

Lemma forallb_elem {A} (f : A → bool) l x : forallb f l = true → x ∈ l → f x = true.
Proof. intros H Hx. by apply (proj1 (forallb_forall f l) H x), list_elem_of_In. Qed.

Definition plain (b : byte) : bool := is_digit b || bool_decide (b = "s"%byte).

Lemma plain_ends (b : byte) s spaces :
  plain b = true → forallb (λ w, match head w with Some c => negb (plain c) | None => false end) spaces = true →
  head s = Some b → untrimmed spaces s.
Proof.
  intros Hb Hs Hh. apply Forall_forall. intros w Hw. pose proof (forallb_elem _ _ w Hs Hw) as H. cbn beta in H. rewrite Hh.
  destruct (head w) as [c|]; [|done]. split; [done|]. intros [= ->]. by rewrite Hb in H.
Qed.

Lemma trim_plain a b s :
  plain a = true → plain b = true → head s = Some a → last s = Some b → trim s = s.
Proof.
  intros Ha Hb Hh Hl. apply trim_none.
  - by apply (plain_ends a).
  - apply (plain_ends b); [done|done|]. by rewrite <- last_reverse, reverse_involutive.
Qed.

Lemma digits_ends n : 0 ≤ n ≤ u32_max →
  ∃ a b, head (dec n) = Some a ∧ last (dec n) = Some b ∧ is_digit a = true ∧ is_digit b = true.
Proof.
  intros Hn. destruct (dec_spec n u32_max Hn) as (_ & Hd & Hne). destruct (dec n) as [|a s] eqn:E; [done|].
  destruct (last (a :: s)) as [b|] eqn:El; [|by apply last_None in El]. exists a, b. split_and!; [done|done|..].
  - apply (forallb_elem _ _ _ Hd). left.
  - apply (forallb_elem _ _ _ Hd). apply last_Some in El as [l ->]. apply elem_of_app. right. left.
Qed.

(** ** Rate specifications *)

Lemma split_once_slash n s : 0 ≤ n ≤ u32_max → split_once "/"%byte (dec n ++ "/"%byte :: s) = Some (dec n, s).
Proof.
  intros Hn. destruct (dec_spec n u32_max Hn) as (_ & Hd & _).
  unfold split_once. rewrite list_find_skip; [| |done].
  - cbn [mbind option_bind]. rewrite take_app_length. f_equal. f_equal.
    replace (S (length (dec n))) with (length (dec n ++ ["/"%byte])) by (rewrite length_app; cbn; lia).
    replace (dec n ++ "/"%byte :: s) with ((dec n ++ ["/"%byte]) ++ s) by by rewrite <- app_assoc.
    apply drop_app_length.
  - apply Forall_forall. intros b Hb <-. by pose proof (forallb_elem _ _ _ Hd Hb).
Qed.

Lemma parse_uint_bound max t v : 0 ≤ max → parse_uint max t = Some v → 0 ≤ v ≤ max.
Proof.
  intros Hm. assert (∀ s acc v, 0 ≤ acc ≤ max → parse_digits max acc s = Some v → 0 ≤ v ≤ max) as H.
  { induction s as [|b s IH]; intros acc v' Ha E; cbn [parse_digits] in E; [by injection E as <-|].
    destruct (is_digit b) eqn:Eb; [|done]. destruct (Z.leb_spec (acc * 10 + (byte_val b - 48)) max); [|done].
    unfold is_digit in Eb. apply andb_true_iff in Eb as [Eb1%Z.leb_le _]. eapply IH; [|exact E]. lia. }
  unfold parse_uint. destruct t as [|b t]; [done|]. case_decide; [destruct t; [done|]|]; apply H; lia.
Qed.

Lemma rate_spec_bounds s b :
  parse_rate_spec s = Ok b → 1 ≤ bs_refill b ≤ bs_capacity b ∧ bs_capacity b ≤ u32_max.
Proof.
  unfold parse_rate_spec. cbv zeta. intros H. apply bind_ok_inv in H as (core & _ & H).
  apply bind_ok_inv in H as ([cs ws] & _ & H). apply bind_ok_inv in H as (c & Ec & H). apply bind_ok_inv in H as (w & Ew & H).
  assert (∀ t v, ok_or (parse_uint u32_max t) BadCapacity = Ok v → 0 ≤ v ≤ u32_max) as Hr.
  { intros t v E. destruct (parse_uint u32_max t) eqn:Ep; [|done]. injection E as <-. by eapply parse_uint_bound; [|exact Ep]. }
  assert (0 ≤ w ≤ u32_max) as Hww.
  { apply (Hr (trim ws)). by destruct (parse_uint u32_max (trim ws)). }
  apply Hr in Ec. destruct (Z.eqb_spec w 0); [done|]. destruct (Z.eqb_spec c 0); [done|].
  destruct (Z.eqb_spec (c / w) 0); [done|]. injection H as <-. cbn.
  pose proof (Z.div_pos c w ltac:(lia) ltac:(lia)). pose proof (Z.div_le_upper_bound c w c ltac:(lia) ltac:(nia)). lia.
Qed.

(** Rate specifications are read as printed: ["<capacity>/<window>s"] with numbers of
    32 bits gives a bucket of that capacity that refills the quotient per second, and is
    refused, with the cause, exactly when the window or the capacity is zero or the
    capacity is below the window; whatever text is accepted, the bucket refills at least
    one and at most its capacity of tokens per second. *)
Theorem rate_spec_correct cap win s b :
  0 ≤ cap ≤ u32_max → 0 ≤ win ≤ u32_max →
  parse_rate_spec (dec cap ++ lit "/" ++ dec win ++ lit "s")
    = (if win =? 0 then Err ZeroWindow else if cap =? 0 then Err ZeroCapacity else
       if cap <? win then Err NoRefill else Ok {| bs_capacity := cap; bs_refill := cap / win |})
  ∧ (parse_rate_spec s = Ok b → 1 ≤ bs_refill b ≤ bs_capacity b ∧ bs_capacity b ≤ u32_max).
Proof.
  intros Hc Hw. split.
  - destruct (digits_ends cap Hc) as (a & a' & Ha & Ha' & Da & Da'). destruct (digits_ends win Hw) as (z & z' & Hz & Hz' & Dz & Dz').
    assert (∀ c, is_digit c = true → plain c = true) as Hp by (intros c Hd; unfold plain; by rewrite Hd).
    change (lit "/") with ["/"%byte]. change (lit "s") with ["s"%byte]. unfold parse_rate_spec. cbv zeta.
    rewrite (trim_plain a "s"%byte); [|by apply Hp|by vm_compute| |by rewrite !app_assoc, last_snoc].
    2:{ destruct (dec cap) as [|x xs]; [done|]. cbn in Ha |- *. done. }
    rewrite !app_assoc. change (lit "s") with ["s"%byte]. rewrite strip_suffix_app. cbn [ok_or mbind result_bind].
    rewrite <- app_assoc. cbn [app]. rewrite split_once_slash by done. cbn [ok_or mbind result_bind].
    rewrite (trim_plain a a' (dec cap)) by auto. rewrite parse_uint_dec by done. cbn [ok_or mbind result_bind].
    rewrite (trim_plain z z' (dec win)) by auto. rewrite parse_uint_dec by done. cbn [ok_or mbind result_bind].
    destruct (Z.eqb_spec win 0); [done|]. destruct (Z.eqb_spec cap 0); [done|].
    destruct (Z.ltb_spec cap win); [by rewrite Z.div_small by lia|].
    destruct (Z.eqb_spec (cap / win) 0) as [E|]; [|done]. pose proof (Z.div_str_pos cap win ltac:(lia)). lia.
  - apply rate_spec_bounds.
Qed.

(** ** Validation *)

Lemma reject_ok b p : reject b p = Ok tt ↔ b = false.
Proof. unfold reject. by destruct b. Qed.

Lemma each_ok {A} (f : A → result ConfigProblem unit) l : each f l = Ok tt ↔ Forall (λ a, f a = Ok tt) l.
Proof.
  induction l as [|a l IH]; cbn [each]; [by split|]. rewrite Forall_cons, <- IH. destruct (f a) as [[]| |]; cbn; naive_solver.
Qed.

Lemma check_spec_ok s : check_spec s = Ok tt ↔ is_ok (parse_rate_spec s.2) = true.
Proof. unfold check_spec. by destruct (parse_rate_spec s.2). Qed.

(** A field of the file fits its type. *)
Record config_typed (c : Config) : Prop := {
  ty_counts : Forall (λ z, 0 ≤ z) [cf_network_id c; nc_max_connections (cf_network c); nc_max_per_ip_range (cf_network c);
    nc_temp_ban_duration_sec (cf_network c); nc_persistent_ban_duration_sec (cf_network c);
    nc_rate_limit_ban_window_sec (cf_network c); nc_rate_limit_ban_duration_sec (cf_network c);
    nc_invalid_full_weight (cf_network c); nc_violation_full_weight (cf_network c)];
  ty_u32 : Forall (λ z, 0 ≤ z < two32) [nc_rate_limit_ban_threshold (cf_network c);
    nc_rate_limit_main_capacity (cf_network c); nc_rate_limit_main_refill (cf_network c)]
}.

(** Scoring parameters that make sense: ordered bands, no negative weight, something to
    grade by, and bans that last. *)
Record scoring_sane (s : ScoringConfig) : Prop := {
  ss_bands : (0 < sc_persistent_ban_threshold s)%Q ∧ (sc_persistent_ban_threshold s < sc_temp_ban_threshold s)%Q
    ∧ (sc_temp_ban_threshold s < sc_warn_threshold s)%Q ∧ (sc_warn_threshold s < 1)%Q;
  ss_weights : Forall (λ w, (0 <= w)%Q) [sc_w_latency s; sc_w_invalid s; sc_w_violation s; sc_w_uptime s];
  ss_grading : (0 < f32 (sc_w_latency s + sc_w_uptime s))%Q;
  ss_durations : 0 < sc_temp_ban_duration s ∧ 0 < sc_persistent_ban_duration s;
  ss_full : 0 < sc_invalid_full_weight s ∧ 0 < sc_violation_full_weight s
}.

Lemma flt_lt p q : flt p q = true ↔ (p < q)%Q.
Proof.
  unfold flt. rewrite negb_true_iff. split.
  - intros H. apply Qnot_le_lt. intros Hle. apply Qle_bool_iff in Hle. congruence.
  - intros H. destruct (Qle_bool q p) eqn:E; [|done]. apply Qle_bool_iff in E. lra.
Qed.

Lemma fv_between x : fv_lt (Finite 0) x = true → fv_lt x (Finite 1) = true → ∃ q, x = Finite q ∧ (0 < q)%Q ∧ (q < 1)%Q.
Proof. destruct x; cbn; try done. rewrite !flt_lt. eauto. Qed.

Lemma fv_lt_finite x q : fv_lt x (Finite q) = true → x = NegInf ∨ ∃ p, x = Finite p ∧ (p < q)%Q.
Proof. destruct x; cbn; try done; [rewrite flt_lt; eauto|by left]. Qed.

Lemma weight_ok n w : check_weight (n, w) = Ok tt → ∃ q, w = Finite q ∧ (0 <= q)%Q.
Proof.
  unfold check_weight. rewrite reject_ok, negb_false_iff, andb_true_iff. cbn [snd]. intros [Hf Hn].
  destruct w as [q| | |]; try done. exists q. split; [done|]. by apply Qle_bool_iff.
Qed.

(** The scoring part of a validated configuration. *)
Lemma scoring_validated n :
  fv_lt (Finite 0) (nc_persistent_threshold n) && fv_lt (nc_persistent_threshold n) (nc_peer_ban_threshold n)
    && fv_lt (nc_peer_ban_threshold n) (nc_warn_threshold n) && fv_lt (nc_warn_threshold n) (Finite 1) = true →
  each check_weight [("peer_scoring_w_latency", nc_w_latency n); ("peer_scoring_w_invalid", nc_w_invalid n);
    ("peer_scoring_w_violation", nc_w_violation n); ("peer_scoring_w_uptime", nc_w_uptime n)] = Ok tt →
  fv_sum_le_0 (nc_w_latency n) (nc_w_uptime n) = false →
  0 < nc_temp_ban_duration_sec n → 0 < nc_persistent_ban_duration_sec n →
  0 < nc_invalid_full_weight n → 0 < nc_violation_full_weight n →
  ∃ s, config_scoring n = Some s ∧ scoring_sane s.
Proof.
  rewrite !andb_true_iff, each_ok, !Forall_cons. intros (((H0 & H1) & H2) & H3) (W1 & W2 & W3 & W4 & _) Hg Ht Hp Hi Hv.
  apply weight_ok in W1 as (w1 & E1 & W1), W2 as (w2 & E2 & W2), W3 as (w3 & E3 & W3), W4 as (w4 & E4 & W4).
  destruct (nc_persistent_threshold n) as [p| | |] eqn:Ep, (nc_peer_ban_threshold n) as [b| | |] eqn:Eb,
    (nc_warn_threshold n) as [w| | |] eqn:Ew; try discriminate.
  cbn in H0, H1, H2, H3. rewrite flt_lt in H0, H1, H2, H3.
  unfold config_scoring. rewrite E1, E2, E3, E4, Ep, Eb, Ew. cbn. eexists. split; [done|].
  rewrite E1, E4 in Hg. cbn in Hg. constructor; cbn; [done|by repeat constructor| |unfold NANOS; lia|done].
  apply Qnot_le_lt. intros Hle. apply Qle_bool_iff in Hle. congruence.
Qed.

Lemma spec_of_ok s fallback :
  is_ok (parse_rate_spec s) = true →
  let b := match parse_rate_spec s with Ok b => b | _ => fallback end in
  spec_ok b ∧ 1 ≤ bs_refill b.
Proof.
  destruct (parse_rate_spec s) as [b| |] eqn:E; [|done..]. intros _. cbv zeta.
  destruct (rate_spec_bounds s b E) as (? & ?). unfold spec_ok, u32_max in *. lia.
Qed.

(** C37: Validation makes the configuration safe to run: a configuration that passes it
    names a known network and accepts blocks without a state commitment on regtest only;
    its scoring parameters exist as finite numbers with ordered bands, non-negative
    weights, a positive grading part and positive durations; every rate-limit bucket
    refills, and every limiter built from it starts in the state the traffic and ban
    theorems need.  The default configuration passes and yields the default limits and
    the default peer manager. *)
Theorem validated_config_sane c :
  (config_typed c → config_validate c = Ok tt →
   (cf_network_id c = 1 ∨ cf_network_id c = 2 ∨ cf_network_id c = 3)
   ∧ (zero_state_root_allowed c = true → cf_network_id c = 3)
   ∧ (∃ pm, peer_manager_config c = Some pm ∧ scoring_sane (pc_scoring pm)
       ∧ 0 < pc_max_connections pm ∧ 0 < pc_max_per_ip_range pm)
   ∧ Forall (λ b, spec_ok b ∧ 1 ≤ bs_refill b)
       [rl_main (rate_limit_config c); rl_get_headers (rate_limit_config c); rl_get_blocks (rate_limit_config c);
        rl_inv (rate_limit_config c); rl_block (rate_limit_config c); rl_tx (rate_limit_config c)]
   ∧ ∀ now, limiter_ok (peer_limiter_new (rate_limit_config c) now) ∧ ban_inv (peer_limiter_new (rate_limit_config c) now))
  ∧ config_validate config_default = Ok tt ∧ rate_limit_config config_default = rate_limit_default
  ∧ peer_manager_config config_default = Some manager_config_default.
Proof.
  split; [|split_and!; by vm_compute].
  intros [Hu H32] H. rewrite !Forall_cons in Hu. rewrite !Forall_cons in H32. destruct Hu as (U1 & U2 & U3 & U4 & U5 & U6 & U7 & U8 & U9 & _).
  destruct H32 as (B1 & B2 & B3 & _). unfold config_validate in H. cbv zeta in H.
  do 21 (apply bind_ok_inv in H as ([] & ? & H)).
  repeat match goal with E : reject _ _ = Ok tt |- _ => apply reject_ok in E end.
  repeat match goal with E : (_ =? 0) = false |- _ => apply Z.eqb_neq in E end.
  rewrite !negb_false_iff in *.
  match goal with E : each check_spec _ = Ok tt |- _ =>
    rewrite each_ok, !Forall_cons, !check_spec_ok in E; destruct E as (S1 & S2 & S3 & S4 & S5 & _) end.
  cbn [snd] in S1, S2, S3, S4, S5.
  assert (Forall (λ b, spec_ok b ∧ 1 ≤ bs_refill b)
       [rl_main (rate_limit_config c); rl_get_headers (rate_limit_config c); rl_get_blocks (rate_limit_config c);
        rl_inv (rate_limit_config c); rl_block (rate_limit_config c); rl_tx (rate_limit_config c)]) as Hspecs.
  { repeat constructor; try (by apply spec_of_ok); cbn; lia. }
  split_and!; [| | |done|].
  - destruct (Z.eqb_spec (cf_network_id c) 1), (Z.eqb_spec (cf_network_id c) 2), (Z.eqb_spec (cf_network_id c) 3); auto; discriminate.
  - unfold zero_state_root_allowed. destruct (cf_allow_zero_state_root c) as [[]|]; cbn [default]; [|done|by rewrite Z.eqb_eq].
    intros _. match goal with E : bool_decide _ && negb _ = false |- _ => rewrite bool_decide_eq_true_2 in E by done;
      cbn [andb] in E; rewrite negb_false_iff in E; by apply Z.eqb_eq in E end.
  - edestruct (scoring_validated (cf_network c)) as (s & Es & Hs); [done|done|done|lia|lia|lia|lia|].
    unfold peer_manager_config. rewrite Es. cbn. eexists. split; [done|]. cbn. split_and!; [done|lia|lia].
  - intros now. rewrite !Forall_cons in Hspecs. destruct Hspecs as ([? _] & [? _] & [? _] & [? _] & [? _] & [? _] & _). split.
    + apply peer_limiter_new_ok. by split_and!.
    + unfold ban_inv. cbn [peer_limiter_new pl_ban_threshold pl_ban_duration pl_violation_count pl_banned_until rate_limit_config
        rl_ban_threshold rl_ban_duration]. unfold NANOS. split_and!; try lia.
Qed.

(** ** A concrete configuration *)

Lemma rate_spec_correct_witness :
  parse_rate_spec (dec 15 ++ lit "/" ++ dec 10 ++ lit "s") = Ok {| bs_capacity := 15; bs_refill := 1 |}.
Proof.
  rewrite (proj1 (rate_spec_correct 15 10 [] {| bs_capacity := 0; bs_refill := 0 |} ltac:(by vm_compute) ltac:(by vm_compute))).
  reflexivity.
Defined.

Lemma validated_config_sane_witness :
  ∃ pm, peer_manager_config config_default = Some pm ∧ scoring_sane (pc_scoring pm).
Proof.
  destruct (proj1 (validated_config_sane config_default)) as (_ & _ & (pm & H1 & H2 & _) & _).
  - constructor; repeat constructor; vm_compute; congruence.
  - vm_compute. reflexivity.
  - exists pm. exact (conj H1 H2).
Defined.
