(* ===== verification/Precompiles.v ===== *)
(** * Gas weights and precompiled contracts (vm-wasm/src/gas.rs, vm-wasm/src/precompiles)

    The weight table of host calls, the standalone gas counter, and the seven built-in
    contracts at the addresses [0x01] to [0x07].  Modular exponentiation is translated
    limb by limb; the digests and signature checks are those of the external crates. *)

From S2P Require Import Prelude Bytes U256 Abi Types Address Noise.
Open Scope Z_scope.

(** ** Gas (gas.rs) *)

Inductive HostCallWeight :=
  | WSecp256k1Verify
  | WBlsVerify
  | WBlake3 (bytes : Z)
  | WKeccak (bytes : Z)
  | WSha256 (bytes : Z)
  | WStorageRead
  | WStorageWrite
  | WCall
  | WDelegateCall
  | WStaticCall
  | WBlockContext
  | WGasLeft
  | WInputRead
  | WEmitLog (topics : Z)
  | WMemoryGrow.

(** [HostCallWeight::gas]. *)
Definition weight_gas (w : HostCallWeight) : Z :=
  match w with
  | WSecp256k1Verify => 3000
  | WBlsVerify => 12000
  | WBlake3 bytes => add64 50 (mul64 6 (div_ceil bytes 64))
  | WKeccak bytes => add64 30 (mul64 6 (div_ceil bytes 32))
  | WSha256 bytes => add64 50 (mul64 12 (div_ceil bytes 32))
  | WStorageRead => 200
  | WStorageWrite => 5000
  | WCall => 700
  | WDelegateCall => 700
  | WStaticCall => 700
  | WBlockContext => 3
  | WGasLeft => 3
  | WInputRead => 3
  | WEmitLog topics => add64 375 (mul64 375 topics)
  | WMemoryGrow => 3
  end.

Record FuelGasCounter := { fg_limit : Z; fg_spent : Z }.

Definition counter_new (limit : Z) : FuelGasCounter := {| fg_limit := limit; fg_spent := 0 |}.

(** [GasCounter::spend]: the verdict and the counter afterwards. *)
Definition spend (c : FuelGasCounter) (gas : Z) : result VmError unit * FuelGasCounter :=
  match checked_add64 (fg_spent c) gas with
  | None => (Err OutOfGas, c)
  | Some next =>
      if fg_limit c <? next then (Err OutOfGas, c)
      else (Ok tt, {| fg_limit := fg_limit c; fg_spent := next |})
  end.

Definition spend_host_call (c : FuelGasCounter) (w : HostCallWeight) : result VmError unit * FuelGasCounter :=
  spend c (weight_gas w).

(** [gas_left]: an unchecked subtraction. *)
Definition counter_left (c : FuelGasCounter) : Z := sub64 (fg_limit c) (fg_spent c).
Definition counter_used (c : FuelGasCounter) : Z := fg_spent c.

(** ** Results (precompiles/mod.rs) *)

Record PrecompileOutput := { po_output : list byte; po_gas_used : Z }.

Inductive PrecompileError :=
  | InvalidInput (msg : string)
  | PrecompileNotImplemented (feature : string) (gas_used : Z).

Definition GAS_ED25519_VERIFY : Z := 2000.

Definition modexp_gas (result_bytes : Z) : Z := saturating_add64 50 (saturating_mul64 50 result_bytes).

Definition hash_gas (w : HostCallWeight) : Z := weight_gas w.

(** ** Multi-limb arithmetic (precompiles/modexp.rs) *)

(** [limbs.pop()] while the last of several is zero, on the reversed vector. *)
Fixpoint pop_zeros (r : list Z) : list Z :=
  match r with
  | w :: (_ :: _) as tl => if w =? 0 then pop_zeros tl else r
  | _ => r
  end.

Definition trim_limbs (limbs : list Z) : list Z :=
  let l := reverse (pop_zeros (reverse limbs)) in
  if decide (l = [0]) then [] else l.

(** [be.rchunks(8)]. *)
Definition rchunks8 (be : list byte) : list (list byte) :=
  let len := length be in
  (λ i, drop (len - 8 * (i + 1)) (take (len - 8 * i) be)) <$> seq 0 ((len + 7) / 8).

Definition to_le_limbs (be : list byte) : list Z :=
  foldl (λ w b, Z.lor (wrap64 (Z.shiftl w 8)) (byte_val b)) 0 <$> rchunks8 be.

(** [le_bytes.pop()] while the last of several is zero, on the reversed vector. *)
Fixpoint pop_zero_bytes (r : list byte) : list byte :=
  match r with
  | b :: (_ :: _) as tl => if byte_val b =? 0 then pop_zero_bytes tl else r
  | _ => r
  end.

Definition from_le_limbs (limbs : list Z) (out_len : nat) : list byte :=
  let le_bytes := limbs ≫= to_le_bytes 8 in
  let be := pop_zero_bytes (reverse le_bytes) in
  if (out_len <=? length be)%nat then drop (length be - out_len) be
  else replicate (out_len - length be) x00 ++ be.

(** One row per limb of [a]; the inner loop is that of [u256_mul], and the last carry is
    stored, not added. *)
Fixpoint mul_limb_rows (a b : list Z) (i : nat) (out : list Z) : list Z :=
  match a with
  | [] => out
  | ai :: a =>
      if ai =? 0 then mul_limb_rows a b (S i) out
      else let '(out1, carry) := mul_row ai b i out 0 in
           mul_limb_rows a b (S i) (<[(i + length b)%nat := wrap64 carry]> out1)
  end.

Definition mul_limbs (a b : list Z) : list Z :=
  match a, b with
  | [], _ | _, [] => []
  | _, _ => trim_limbs (mul_limb_rows a b 0 (replicate (length a + length b) 0))
  end.

(** [for i in (0..len).rev()] with early returns. *)
Fixpoint cmp_loop (ixs : list nat) (a b : list Z) : comparison :=
  match ixs with
  | [] => Eq
  | i :: ixs => match Z.compare (limb a i) (limb b i) with Eq => cmp_loop ixs a b | ord => ord end
  end.

Definition cmp_limbs (a b : list Z) : comparison :=
  cmp_loop (reverse (seq 0 (Nat.max (length a) (length b)))) a b.

(** [b.get(i)] is 0 past the end. *)
Fixpoint sub_limbs_loop (a b : list Z) (borrow : Z) : list Z :=
  match a with
  | [] => []
  | x :: a =>
      let '(d1, o1) := overflowing_sub64 x (default 0 (head b)) in
      let '(d2, o2) := overflowing_sub64 d1 borrow in
      d2 :: sub_limbs_loop a (tail b) (Z.b2z (o1 || o2))
  end.

Definition sub_limbs (a b : list Z) : list Z := trim_limbs (sub_limbs_loop a b 0).

Definition shift_push_bit (limbs : list Z) (bit : Z) : list Z :=
  let '(l, carry) := shl1_loop limbs (Z.land bit 1) in
  if carry =? 0 then l else l ++ [1].

(** One bit of the long division. *)
Definition mod_step (a m rem : list Z) (i : nat) : list Z :=
  let bit := Z.land (Z.shiftr (limb a (i / 64)) (Z.of_nat (i mod 64))) 1 in
  let rem := shift_push_bit rem bit in
  match cmp_limbs rem m with Lt => rem | _ => sub_limbs rem m end.

Definition mod_limbs (a m : list Z) : list Z :=
  foldl (mod_step a m) [] (reverse (seq 0 (length a * 64))).

(** [(exp[exp.len() - 1 - i / 8] >> (i % 8)) & 1]. *)
Definition exp_bit (exp : list byte) (i : nat) : Z :=
  Z.land (Z.shiftr (byte_val (default x00 (exp !! (length exp - 1 - i / 8)%nat))) (Z.of_nat (i mod 8))) 1.

(** One bit of the exponent. *)
Definition pow_step (b m : list Z) (exp : list byte) (res : list Z) (i : nat) : list Z :=
  let res := mod_limbs (mul_limbs res res) m in
  if exp_bit exp i =? 1 then mod_limbs (mul_limbs res b) m else res.

Definition modpow (base exp modulus : list byte) : list byte :=
  let m := trim_limbs (to_le_limbs modulus) in
  if bool_decide (m = []) || bool_decide (m = [1]) then replicate (length modulus) x00
  else
    let b := mod_limbs (to_le_limbs base) m in
    from_le_limbs (foldl (pow_step b m exp) [1] (reverse (seq 0 (length exp * 8)))) (length modulus).

Definition HEADER_LEN : Z := 96.

(** [data[a..b]]; the ranges the code uses are in bounds. *)
Definition byte_range (data : list byte) (a b : Z) : list byte :=
  take (Z.to_nat (b - a)) (drop (Z.to_nat a) data).

Definition read_len (header : list byte) (field : string) : result PrecompileError Z :=
  if existsb (λ b, negb (byte_val b =? 0)) (take 24 header)
  then Err (InvalidInput ("modexp " +:+ field +:+ " does not fit in 64 bits"))
  else Ok (from_be_bytes (byte_range header 24 32)).

Definition modexp_run (data : list byte) : result PrecompileError PrecompileOutput :=
  let len := Z.of_nat (length data) in
  if len <? HEADER_LEN
  then Err (InvalidInput ("modexp expects at least " +:+ pretty HEADER_LEN +:+ " header bytes, got " +:+ pretty len))
  else
    base_len ← read_len (byte_range data 0 32) "base_len";
    exp_len ← read_len (byte_range data 32 64) "exp_len";
    mod_len ← read_len (byte_range data 64 96) "mod_len";
    body ← ok_or (n ← checked_add64 HEADER_LEN base_len; n ← checked_add64 n exp_len; checked_add64 n mod_len)
             (InvalidInput "modexp input length overflow");
    if len <? body
    then Err (InvalidInput ("modexp input truncated: need " +:+ pretty body +:+ " bytes, got " +:+ pretty len))
    else
      let gas_used := modexp_gas mod_len in
      let base_end := HEADER_LEN + base_len in
      let exp_end := base_end + exp_len in
      if mod_len =? 0 then Ok {| po_output := []; po_gas_used := gas_used |}
      else Ok {| po_output := modpow (byte_range data HEADER_LEN base_end) (byte_range data base_end exp_end)
                                (byte_range data exp_end body);
                 po_gas_used := gas_used |}.

(** ** The other precompiles *)

(** Crates [sha2] and [tiny-keccak]. *)
Class Digests := {
  sha256 : list byte → list byte;
  keccak256 : list byte → list byte
}.

Definition ECRECOVER_INPUT_LEN : nat := 97.
Definition ED25519_MIN_INPUT_LEN : nat := 96.

Section Precompiles.
Context `{B3 : Blake3, SK : Secp256k1, ED : Ed25519, DG : Digests}.

Definition recovered (gas_used : Z) (pk : option PublicKey) : PrecompileOutput := {|
  po_output := match pk with Some pk => pk_serialize pk | None => [] end; po_gas_used := gas_used |}.

Definition ecrecover_run (data : list byte) : result PrecompileError PrecompileOutput :=
  let gas_used := weight_gas WSecp256k1Verify in
  if negb (length data =? ECRECOVER_INPUT_LEN)%nat
  then Err (InvalidInput ("ecrecover expects " +:+ pretty ECRECOVER_INPUT_LEN +:+ " bytes, got " +:+ pretty (length data)))
  else
    let v := byte_val (default x00 (data !! 32%nat)) in
    if (v =? 27) || (v =? 28)
    then Ok (recovered gas_used (recover_ecdsa (byte_range data 33 97) (v - 27) (byte_range data 0 32)))
    else Err (InvalidInput ("ecrecover recovery id byte must be 27 or 28, got " +:+ pretty v)).

Definition sha256_run (data : list byte) : result PrecompileError PrecompileOutput :=
  Ok {| po_output := sha256 data; po_gas_used := hash_gas (WSha256 (Z.of_nat (length data))) |}.

Definition keccak_run (data : list byte) : result PrecompileError PrecompileOutput :=
  Ok {| po_output := keccak256 data; po_gas_used := hash_gas (WKeccak (Z.of_nat (length data))) |}.

Definition blake3_run (data : list byte) : result PrecompileError PrecompileOutput :=
  Ok {| po_output := blake3 data; po_gas_used := hash_gas (WBlake3 (Z.of_nat (length data))) |}.

Definition ed25519_verify_run (data : list byte) : result PrecompileError PrecompileOutput :=
  if (length data <? ED25519_MIN_INPUT_LEN)%nat
  then Err (InvalidInput ("ed25519_verify expects at least " +:+ pretty ED25519_MIN_INPUT_LEN +:+ " bytes, got "
                          +:+ pretty (length data)))
  else
    let pk := byte_range data 0 32 in
    let verified := ed_valid_key pk && ed_verify_strict pk (drop 96 data) (byte_range data 32 96) in
    Ok {| po_output := replicate 31 x00 ++ [if verified then x01 else x00];
          po_gas_used := GAS_ED25519_VERIFY |}.

Definition bls_aggregate_run (_ : list byte) : result PrecompileError PrecompileOutput :=
  Err (PrecompileNotImplemented "bls_aggregate" (weight_gas WBlsVerify)).

Definition dispatch_precompile (callee : string) (data : list byte) : result PrecompileError PrecompileOutput :=
  if decide (callee = "0x01") then ecrecover_run data
  else if decide (callee = "0x02") then sha256_run data
  else if decide (callee = "0x03") then keccak_run data
  else if decide (callee = "0x04") then blake3_run data
  else if decide (callee = "0x05") then ed25519_verify_run data
  else if decide (callee = "0x06") then bls_aggregate_run data
  else if decide (callee = "0x07") then modexp_run data
  else Err (InvalidInput ("unknown precompile address `" +:+ callee +:+ "`")).

End Precompiles.
