(* ===== verification/PrecompileProps.v ===== *)
(** * Properties of the precompiles

    The multi-limb routines of modular exponentiation are exact on the integers they
    represent, so the precompile returns [base ^ exp mod modulus] on the width of the
    modulus; the gas counter never spends more than its limit. *)

From S2P Require Import Prelude Bytes U256 Abi Types Address Noise Precompiles.
Open Scope Z_scope.

Abbreviation W n := (two64 ^ Z.of_nat n).

(** ** Trimming *)

Lemma pop_zeros_spec r : ∃ k, r = replicate k 0 ++ pop_zeros r.
Proof.
  induction r as [|w r [k IH]]; [by exists 0%nat|]. cbn.
  destruct r as [|w' r']; [by exists 0%nat|].
  destruct (Z.eqb_spec w 0) as [->|]; [|by exists 0%nat].
  exists (S k). cbn [replicate app]. by rewrite <- IH.
Qed.

Lemma pop_zeros_head r w w' tl : pop_zeros r = w :: w' :: tl → w ≠ 0.
Proof.
  induction r as [|x r IH]; cbn; [done|]. destruct r as [|y r]; [done|].
  destruct (Z.eqb_spec x 0) as [->|Hx]; [exact IH|]. by intros [= <- _ _].
Qed.

Lemma limbs_val_zeros k : limbs_val (replicate k 0) = 0.
Proof. induction k as [|k IH]; cbn [replicate limbs_val]; [done|]. rewrite IH. lia. Qed.

Lemma trim_split l : ∃ k l', l = l' ++ replicate k 0 ∧ trim_limbs l = (if decide (l' = [0]) then [] else l')
  ∧ (∀ x y pre, l' = pre ++ [y; x] → x ≠ 0).
Proof.
  destruct (pop_zeros_spec (reverse l)) as [k Hk].
  exists k, (reverse (pop_zeros (reverse l))). split; [|split; [done|]].
  - rewrite <- (reverse_involutive l) at 1. rewrite Hk at 1.
    by rewrite reverse_app, reverse_replicate.
  - intros x y pre H. apply (f_equal reverse) in H. rewrite reverse_involutive, reverse_app in H. cbn in H.
    by eapply pop_zeros_head.
Qed.

Lemma trim_spec l : Forall in_u64 l →
  Forall in_u64 (trim_limbs l) ∧ limbs_val (trim_limbs l) = limbs_val l
  ∧ (limbs_val l = 0 → trim_limbs l = []) ∧ (limbs_val l = 1 → trim_limbs l = [1]).
Proof.
  intros H. destruct (trim_split l) as (k & l' & -> & -> & Hlast).
  apply Forall_app in H as [H _]. rewrite limbs_val_app, limbs_val_zeros, Z.mul_0_r, Z.add_0_r.
  destruct (decide (l' = [0])) as [->|Hne]; [by cbn|].
  split; [done|]. split; [done|].
  destruct l' as [|z l' _] using rev_ind; [by cbn|].
  apply Forall_app in H as [Hl Hz%Forall_singleton].
  rewrite limbs_val_app. cbn [limbs_val]. rewrite Z.mul_0_r, Z.add_0_r.
  pose proof (limbs_val_range l' Hl) as Hr. unfold in_u64 in *.
  destruct l' as [|y l' _] using rev_ind.
  { cbn [limbs_val length app] in *. split; intros E.
    - exfalso. apply Hne. cbn. f_equal. lia.
    - cbn. f_equal. lia. }
  assert (z ≠ 0) by (apply (Hlast z y l'); by rewrite <- app_assoc).
  rewrite length_app in *. cbn [length] in *.
  assert (two64 ≤ W (length l' + 1)).
  { rewrite Nat.add_1_r, pow64_S. pose proof (Z.pow_pos_nonneg two64 (Z.of_nat (length l'))). lia. }
  split; intros E; nia.
Qed.

(** ** Bytes to limbs and back *)

Lemma from_be_bytes_snoc bs b : from_be_bytes (bs ++ [b]) = from_be_bytes bs * two8 + byte_val b.
Proof. unfold from_be_bytes. rewrite reverse_app. cbn. lia. Qed.

Lemma chunk_limb c : (length c ≤ 8)%nat →
  foldl (λ w b, Z.lor (wrap64 (Z.shiftl w 8)) (byte_val b)) 0 c = from_be_bytes c.
Proof.
  induction c as [|b c IH] using rev_ind; intros Hl; [done|].
  rewrite length_app in Hl. cbn [length] in Hl.
  rewrite foldl_app. cbn [foldl]. rewrite IH by lia. rewrite from_be_bytes_snoc.
  pose proof (from_be_bytes_range c) as Hr. pose proof (byte_val_range b) as Hb.
  assert (256 ^ Z.of_nat (length c) ≤ 256 ^ 7) by (apply Z.pow_le_mono_r; lia).
  rewrite Z.shiftl_mul_pow2 by lia. change (2 ^ 8) with two8.
  rewrite wrap64_small by (unfold in_u64; change (256 ^ 7) with 72057594037927936 in *; lia).
  rewrite <- Z.add_nocarry_lor; [done|]. apply Z.bits_inj'. intros n Hn.
  rewrite Z.land_spec, Z.bits_0. change two8 with (2 ^ 8).
  destruct (Z.ltb_spec n 8) as [Hn8|Hn8].
  - by rewrite Z.mul_pow2_bits_low.
  - apply andb_false_intro2. rewrite <- (Z.mod_small (byte_val b) (2 ^ 8)) by done.
    by apply Z.mod_pow2_bits_high.
Qed.

Lemma rchunks8_snoc pre c : length c = 8%nat → rchunks8 (pre ++ c) = c :: rchunks8 pre.
Proof.
  intros Hc. unfold rchunks8. rewrite length_app, Hc.
  replace ((length pre + 8 + 7) / 8)%nat with (S ((length pre + 7) / 8)).
  2: { replace (length pre + 8 + 7)%nat with (length pre + 7 + 1 * 8)%nat by lia.
       rewrite Nat.div_add by lia. lia. }
  cbn [seq]. rewrite fmap_cons. f_equal.
  - replace (length pre + 8 - 8 * (0 + 1))%nat with (length pre) by lia.
    rewrite firstn_all2 by (rewrite length_app; lia). by rewrite drop_app_length.
  - rewrite <- fmap_S_seq, <- list_fmap_compose. apply list_fmap_ext. intros _ i Hi%list_elem_of_lookup_2.
    apply elem_of_seq in Hi. cbn [compose].
    replace (length pre + 8 - 8 * (S i + 1))%nat with (length pre - 8 * (i + 1))%nat by lia.
    replace (length pre + 8 - 8 * S i)%nat with (length pre - 8 * i)%nat by lia.
    unfold compose. by rewrite take_app_le by lia.
Qed.

Lemma rchunks8_short c : c ≠ [] → (length c ≤ 8)%nat → rchunks8 c = [c].
Proof.
  intros Hc Hl. unfold rchunks8. destruct c as [|b c]; [done|]. cbn [length] in *.
  replace ((S (length c) + 7) / 8)%nat with 1%nat.
  2: { apply (Nat.div_unique _ 8 1 (length c)); lia. }
  cbn [seq fmap list_fmap]. replace (S (length c) - 8 * (0 + 1))%nat with 0%nat by lia.
  by rewrite firstn_all2 by (cbn; lia).
Qed.

(** Induction on a byte string eight bytes at a time from its end. *)
Lemma rchunks_ind (P : list byte → Prop) :
  P [] → (∀ c, c ≠ [] → (length c ≤ 8)%nat → P c) →
  (∀ pre c, length c = 8%nat → P pre → P (pre ++ c)) → ∀ bs, P bs.
Proof.
  intros H0 H1 H2 bs. remember (length bs) as n eqn:Hn.
  revert bs Hn. induction (lt_wf n) as [n _ IH]. intros bs Hn.
  destruct (decide (length bs ≤ 8)%nat) as [Hl|Hl].
  { destruct bs; [done|]. by apply H1. }
  rewrite <- (firstn_skipn (length bs - 8) bs). apply H2; [rewrite length_drop; lia|].
  eapply IH; [|done]. rewrite length_take. lia.
Qed.

Lemma to_le_limbs_spec be :
  Forall in_u64 (to_le_limbs be) ∧ limbs_val (to_le_limbs be) = from_be_bytes be.
Proof.
  assert (∀ c, (length c ≤ 8)%nat → in_u64 (from_be_bytes c)) as Hin.
  { intros c Hc. pose proof (from_be_bytes_range c) as Hr. unfold in_u64.
    assert (256 ^ Z.of_nat (length c) ≤ 256 ^ 8) by (apply Z.pow_le_mono_r; lia).
    change (256 ^ 8) with two64 in *. lia. }
  induction be as [|c Hne Hl|pre c Hl [IH1 IH2]] using rchunks_ind; [done|..]; unfold to_le_limbs in *.
  - rewrite rchunks8_short by done. cbn. rewrite chunk_limb by done.
    split; [by apply Forall_singleton, Hin|lia].
  - rewrite rchunks8_snoc by done. cbn [fmap list_fmap limbs_val]. rewrite chunk_limb by lia.
    split; [apply Forall_cons; split; [apply Hin; lia|done]|].
    rewrite IH2. unfold from_be_bytes. rewrite reverse_app, from_le_bytes_app, length_reverse, Hl.
    change (256 ^ Z.of_nat 8) with two64. lia.
Qed.

Lemma pop_zero_bytes_spec r :
  from_be_bytes (pop_zero_bytes r) = from_be_bytes r ∧ (length (pop_zero_bytes r) ≤ length r)%nat.
Proof.
  induction r as [|b r [IH1 IH2]]; [done|]. cbn. destruct r as [|b' r']; [done|].
  destruct (Z.eqb_spec (byte_val b) 0) as [E|]; [|done].
  split; [|cbn [length] in *; lia]. rewrite IH1.
  change (b :: b' :: r') with ([b] ++ (b' :: r')). unfold from_be_bytes.
  rewrite reverse_app, from_le_bytes_app. cbn. rewrite E. lia.
Qed.

Lemma limbs_to_bytes l : Forall in_u64 l → from_le_bytes (l ≫= to_le_bytes 8) = limbs_val l.
Proof.
  induction 1 as [|w l Hw _ IH]; [done|]. cbn [limbs_val].
  rewrite bind_cons, from_le_bytes_app, length_to_le_bytes, from_to_le_bytes.
  change (256 ^ Z.of_nat 8) with two64. rewrite Z.mod_small, IH by done. lia.
Qed.

Lemma from_be_bytes_zeros k be : from_be_bytes (replicate k x00 ++ be) = from_be_bytes be.
Proof.
  unfold from_be_bytes. rewrite reverse_app, from_le_bytes_app, reverse_replicate.
  enough (from_le_bytes (replicate k x00) = 0) as -> by lia.
  induction k as [|k IH]; cbn [replicate from_le_bytes]; [done|]. rewrite IH. done.
Qed.

Lemma from_le_limbs_spec l n : Forall in_u64 l → limbs_val l < 256 ^ Z.of_nat n →
  from_le_limbs l n = to_be_bytes n (limbs_val l).
Proof.
  intros Hl Hn. unfold from_le_limbs. set (be := pop_zero_bytes _).
  assert (from_be_bytes be = limbs_val l) as Hv.
  { unfold be. rewrite (proj1 (pop_zero_bytes_spec _)). unfold from_be_bytes.
    rewrite reverse_involutive. by apply limbs_to_bytes. }
  destruct (Nat.leb_spec n (length be)) as [Hle|Hlt].
  - assert (length (drop (length be - n) be) = n) as Hlen by (rewrite length_drop; lia).
    rewrite <- Hlen at 2. rewrite <- (to_from_be_bytes (drop _ be)) at 1. f_equal.
    rewrite <- (firstn_skipn (length be - n) be) in Hv. unfold from_be_bytes in *.
    rewrite reverse_app, from_le_bytes_app, length_reverse, Hlen in Hv.
    pose proof (from_le_bytes_range (reverse (drop (length be - n) be))) as H1.
    pose proof (from_le_bytes_range (reverse (take (length be - n) be))) as H2.
    rewrite length_reverse, Hlen in H1. destruct H2 as [H2 _].
    set (T := from_le_bytes (reverse (take _ _))) in *. assert (T = 0) as HT by nia. rewrite HT in Hv. lia.
  - assert (length (replicate (n - length be) x00 ++ be) = n) as Hlen by (rewrite length_app, length_replicate; lia).
    rewrite <- Hlen at 2. rewrite <- (to_from_be_bytes (replicate _ _ ++ be)) at 1.
    by rewrite from_be_bytes_zeros, Hv.
Qed.

(** ** Multiplication *)

Lemma mul_row_above ai b idx r c k : (idx + length b ≤ k)%nat → limb (mul_row ai b idx r c).1 k = limb r k.
Proof.
  revert idx r c. induction b as [|bj b IH]; intros idx r c Hk; cbn [mul_row length] in *; [done|].
  rewrite IH by lia. unfold limb. by rewrite list_lookup_insert_ne by lia.
Qed.

Lemma mul_limb_rows_spec N a b i r :
  Forall in_u64 a → Forall in_u64 b → wf_limbs N r → (i + length a + length b ≤ N)%nat →
  (∀ k, (i + length b ≤ k)%nat → limb r k = 0) →
  wf_limbs N (mul_limb_rows a b i r)
  ∧ limbs_val (mul_limb_rows a b i r) = limbs_val r + limbs_val a * limbs_val b * W i.
Proof.
  intros Ha Hb. revert i r. induction Ha as [|ai a Hai Ha IH]; intros i r Hr Hi Hz; cbn [length] in Hi.
  { cbn [mul_limb_rows limbs_val]. split; [done|lia]. }
  cbn [mul_limb_rows limbs_val]. destruct (Z.eqb_spec ai 0) as [->|Hne].
  { destruct (IH (S i) r Hr) as [I1 I2]; [lia|intros; apply Hz; lia|]. split; [done|].
    rewrite I2, pow64_S. lia. }
  destruct (mul_row_spec N ai b i r 0 Hai Hb Hr) as (R1 & R2 & R3); [lia|done|].
  pose proof (mul_row_above ai b i r 0) as Habove.
  destruct (mul_row ai b i r 0) as [r1 c] eqn:E. cbn [fst snd] in *.
  rewrite (wrap64_small c) by done.
  assert (limb r1 (i + length b) = 0) as H0 by (rewrite Habove by lia; apply Hz; lia).
  destruct (IH (S i) (<[(i + length b)%nat := c]> r1)) as [I1 I2].
  - by apply wf_limbs_insert.
  - lia.
  - intros k Hk. unfold limb. rewrite list_lookup_insert_ne by lia.
    fold (limb r1 k). rewrite Habove by lia. apply Hz. lia.
  - split; [done|]. rewrite I2, limbs_val_insert by (rewrite (proj1 R1); lia). rewrite H0, pow64_S. lia.
Qed.

Lemma mul_limbs_spec a b : Forall in_u64 a → Forall in_u64 b →
  Forall in_u64 (mul_limbs a b) ∧ limbs_val (mul_limbs a b) = limbs_val a * limbs_val b.
Proof.
  intros Ha Hb. unfold mul_limbs. destruct a as [|x a]; [done|]. destruct b as [|y b].
  { split; [done|]. cbn [limbs_val]. lia. }
  set (A := x :: a) in *. set (B := y :: b) in *.
  destruct (mul_limb_rows_spec (length A + length B) A B 0 (replicate (length A + length B) 0)) as [H1 H2]; try done.
  { split; [apply length_replicate|]. by apply Forall_replicate. }
  { intros k _. unfold limb. destruct (_ !! k) as [v|] eqn:E; [|done].
    by apply lookup_replicate in E as [-> _]. }
  destruct (trim_spec _ (proj2 H1)) as (T1 & T2 & _). split; [done|].
  rewrite T2, H2, limbs_val_zeros. change (W 0) with 1. lia.
Qed.

(** ** Comparison and subtraction *)

(** The value of the [n] lowest limbs. *)
Fixpoint low_val (n : nat) (l : list Z) : Z :=
  match n with O => 0 | S n => low_val n l + limb l n * W n end.

Lemma low_val_take n l : low_val n l = limbs_val (take n l).
Proof.
  induction n as [|n IH]; [done|]. cbn [low_val]. rewrite IH.
  destruct (l !! n) as [w|] eqn:E; unfold limb; rewrite E.
  - rewrite (take_S_r _ _ _ E), limbs_val_app, length_take_le by (apply lookup_lt_Some in E; lia).
    change (default 0 (Some w)) with w. cbn [limbs_val]. ring.
  - apply lookup_ge_None in E. rewrite !firstn_all2 by lia. cbn. lia.
Qed.

Lemma low_val_all n l : (length l ≤ n)%nat → low_val n l = limbs_val l.
Proof. intros H. by rewrite low_val_take, firstn_all2. Qed.

Lemma low_val_range n l : Forall in_u64 l → 0 ≤ low_val n l < W n.
Proof.
  intros Hl. induction n as [|n IH]; [done|]. cbn [low_val]. rewrite pow64_S.
  pose proof (limb_range l n Hl). unfold in_u64 in *. nia.
Qed.

Lemma cmp_limbs_spec a b : Forall in_u64 a → Forall in_u64 b → cmp_limbs a b = Z.compare (limbs_val a) (limbs_val b).
Proof.
  intros Ha Hb. unfold cmp_limbs.
  rewrite <- (low_val_all (Nat.max (length a) (length b)) a), <- (low_val_all (Nat.max (length a) (length b)) b) by lia.
  induction (Nat.max _ _) as [|n IH]; [done|].
  rewrite seq_S, reverse_app. cbn [reverse rev_append app cmp_loop low_val Nat.add].
  pose proof (low_val_range n a Ha). pose proof (low_val_range n b Hb).
  destruct (Z.compare_spec (limb a n) (limb b n)) as [E|E|E].
  - change (rev_append (seq 0 n) []) with (reverse (seq 0 n)). rewrite IH, E. rewrite !(Z.add_comm _ (limb b n * _)). symmetry. apply Z.add_compare_mono_l.
  - symmetry. apply Z.compare_lt_iff. nia.
  - symmetry. apply Z.compare_gt_iff. nia.
Qed.

Lemma sub_digit x y c : in_u64 x → in_u64 y → 0 ≤ c ≤ 1 →
  let o := Z.b2z ((x <? y) || (sub64 x y <? c)) in
  in_u64 (sub64 (sub64 x y) c) ∧ sub64 (sub64 x y) c = x - y - c + two64 * o.
Proof.
  intros Hx Hy Hc. cbn zeta. split; [apply wrap64_range|]. unfold sub64, wrap64, in_u64 in *.
  destruct (Z.ltb_spec x y) as [E|E]; cbn [orb Z.b2z].
  - rewrite <- (Z.mod_unique (x - y) two64 (-1) (x - y + two64)) by lia. rewrite Z.mod_small by lia. lia.
  - rewrite (Z.mod_small (x - y)) by lia. destruct (Z.ltb_spec (x - y) c) as [E'|E']; cbn [Z.b2z].
    + rewrite <- (Z.mod_unique (x - y - c) two64 (-1) (x - y - c + two64)); lia.
    + rewrite Z.mod_small; lia.
Qed.

Lemma sub_limbs_loop_spec a b c : Forall in_u64 a → Forall in_u64 b → 0 ≤ c ≤ 1 →
  wf_limbs (length a) (sub_limbs_loop a b c)
  ∧ ∃ t, limbs_val (sub_limbs_loop a b c) = limbs_val a - limbs_val b - c + W (length a) * t.
Proof.
  intros Ha. revert b c. induction Ha as [|x a Hx Ha IH]; intros b c Hb Hc.
  { split; [done|]. exists (limbs_val b + c). cbn [sub_limbs_loop limbs_val length]. change (W 0) with 1. lia. }
  cbn [sub_limbs_loop length overflowing_sub64].
  assert (∃ y b', default 0 (head b) = y ∧ tail b = b' ∧ in_u64 y ∧ Forall in_u64 b' ∧ limbs_val b = y + two64 * limbs_val b')
    as (y & b' & -> & -> & Hy & Hb' & ->).
  { destruct Hb as [|y b Hy Hb]; [by exists 0, []|by exists y, b]. }
  destruct (sub_digit x y c Hx Hy Hc) as [D1 D2]. unfold overflowing_sub64.
  set (o := (x <? y) || _) in *. destruct (IH b' (Z.b2z o)) as [I1 [t I2]]; [done|by destruct o|].
  rewrite wf_limbs_cons. split; [done|]. exists t. cbn [limbs_val]. rewrite I2, D2, pow64_S. lia.
Qed.

Lemma sub_limbs_spec a b : Forall in_u64 a → Forall in_u64 b → limbs_val b ≤ limbs_val a →
  Forall in_u64 (sub_limbs a b) ∧ limbs_val (sub_limbs a b) = limbs_val a - limbs_val b.
Proof.
  intros Ha Hb Hle. destruct (sub_limbs_loop_spec a b 0 Ha Hb) as [H1 [t H2]]; [lia|].
  destruct (trim_spec _ (proj2 H1)) as (T1 & T2 & _). split; [done|]. unfold sub_limbs. rewrite T2.
  pose proof (limbs_val_range _ (proj2 H1)) as R. rewrite (proj1 H1) in R.
  pose proof (limbs_val_range _ Ha) as HA. pose proof (proj1 (limbs_val_range _ Hb)) as HB.
  set (P := W (length a)) in *. assert (t = 0) as -> by nia. lia.
Qed.

(** ** Reduction *)

Lemma shift_push_bit_spec l bit : Forall in_u64 l → 0 ≤ bit ≤ 1 →
  Forall in_u64 (shift_push_bit l bit) ∧ limbs_val (shift_push_bit l bit) = 2 * limbs_val l + bit.
Proof.
  intros Hl Hb. unfold shift_push_bit.
  replace (Z.land bit 1) with bit by (assert (bit = 0 ∨ bit = 1) as [-> | ->] by lia; done).
  destruct (shl1_loop_spec (length l) l bit) as (H1 & H2 & H3); [done|done|].
  destruct (shl1_loop l bit) as [l' c]. cbn [fst snd] in *. destruct (Z.eqb_spec c 0) as [->|Hc].
  - split; [apply H1|lia].
  - assert (c = 1) as -> by lia. split; [apply Forall_app; split; [apply H1|by apply Forall_singleton]|].
    rewrite limbs_val_app, (proj1 H1). cbn [limbs_val]. lia.
Qed.

(** Bit [i] of a number. *)
Definition bit_of (x : Z) (i : nat) : Z := (x / 2 ^ Z.of_nat i) mod 2.

Lemma bit_of_range x i : 0 ≤ bit_of x i ≤ 1.
Proof. unfold bit_of. pose proof (Z.mod_pos_bound (x / 2 ^ Z.of_nat i) 2). lia. Qed.

Lemma div_pow2_step x i : x / 2 ^ Z.of_nat i = 2 * (x / 2 ^ Z.of_nat (S i)) + bit_of x i.
Proof.
  unfold bit_of. rewrite Nat2Z.inj_succ, Z.pow_succ_r by lia.
  rewrite (Z.mul_comm 2 (2 ^ _)), <- Z.div_div by lia. apply Z.div_mod. lia.
Qed.

Lemma land_shiftr_bit w i : Z.land (Z.shiftr w (Z.of_nat i)) 1 = bit_of w i.
Proof.
  unfold bit_of. rewrite Z.shiftr_div_pow2 by lia. change 1 with (Z.ones 1). by rewrite Z.land_ones by lia.
Qed.

(** Digits of a positional number hold its bits. *)
Lemma digit_bit (k : nat) w v i : (0 < k)%nat → 0 ≤ w < 2 ^ Z.of_nat k →
  bit_of (w + 2 ^ Z.of_nat k * v) i = if (i <? k)%nat then bit_of w i else bit_of v (i - k).
Proof.
  intros Hk Hw. unfold bit_of. destruct (Nat.ltb_spec i k) as [Hi|Hi].
  - assert (2 ^ Z.of_nat k = 2 ^ (Z.of_nat k - Z.of_nat i - 1) * 2 * 2 ^ Z.of_nat i) as E.
    { rewrite <- (Z.pow_1_r 2) at 3. rewrite <- !Z.pow_add_r by lia. f_equal. lia. }
    replace (2 ^ Z.of_nat k * v) with (v * 2 ^ (Z.of_nat k - Z.of_nat i - 1) * 2 * 2 ^ Z.of_nat i) by (rewrite E; ring).
    rewrite Z.div_add by lia. by rewrite Z.mod_add by lia.
  - replace (Z.of_nat i) with (Z.of_nat k + Z.of_nat (i - k)) at 1 by lia.
    rewrite Z.pow_add_r, <- Z.div_div by lia. do 2 f_equal.
    rewrite (Z.mul_comm _ v), Z.div_add, Z.div_small; lia.
Qed.

Lemma limbs_bit a i : Forall in_u64 a →
  Z.land (Z.shiftr (limb a (i / 64)) (Z.of_nat (i mod 64))) 1 = bit_of (limbs_val a) i.
Proof.
  intros Ha. rewrite land_shiftr_bit. revert i. induction Ha as [|w a Hw _ IH]; intros i.
  { unfold limb, bit_of. cbn. by rewrite !Z.div_0_l by lia. }
  cbn [limbs_val]. change two64 with (2 ^ Z.of_nat 64). rewrite digit_bit; [|lia|done].
  destruct (Nat.ltb_spec i 64) as [Hi|Hi].
  - by rewrite Nat.div_small, Nat.mod_small by done.
  - rewrite <- IH. replace i with (i - 64 + 1 * 64)%nat at 1 2 by lia.
    rewrite Nat.div_add, Nat.Div0.mod_add by lia. by rewrite Nat.add_1_r.
Qed.

Lemma mod_step_spec a m rem i : Forall in_u64 a → Forall in_u64 m → 0 < limbs_val m →
  Forall in_u64 rem → limbs_val rem = (limbs_val a / 2 ^ Z.of_nat (S i)) mod limbs_val m →
  Forall in_u64 (mod_step a m rem i)
  ∧ limbs_val (mod_step a m rem i) = (limbs_val a / 2 ^ Z.of_nat i) mod limbs_val m.
Proof.
  intros Ha Hm Hpos Hr Hv. unfold mod_step. rewrite limbs_bit by done.
  destruct (shift_push_bit_spec rem (bit_of (limbs_val a) i) Hr (bit_of_range _ _)) as [S1 S2].
  rewrite cmp_limbs_spec, div_pow2_step by done. set (M := limbs_val m) in *.
  pose proof (Z.mod_pos_bound (limbs_val a / 2 ^ Z.of_nat (S i)) M Hpos) as Hb.
  pose proof (bit_of_range (limbs_val a) i) as Hbit.
  set (q := limbs_val a / 2 ^ Z.of_nat (S i)) in *.
  assert (∃ k, q = M * k + limbs_val rem) as [k ->].
  { exists (q / M). rewrite Hv. by apply Z.div_mod; lia. }
  destruct (Z.compare_spec (limbs_val (shift_push_bit rem (bit_of (limbs_val a) i))) M) as [E|E|E].
  2: { split; [done|]. rewrite S2 in *. apply (Z.mod_unique _ _ (2 * k)); lia. }
  all: destruct (sub_limbs_spec _ _ S1 Hm) as [U1 U2]; [lia|]; split; [done|]; rewrite U2, S2 in *;
    apply (Z.mod_unique _ _ (2 * k + 1)); lia.
Qed.

Lemma mod_limbs_spec a m : Forall in_u64 a → Forall in_u64 m → 0 < limbs_val m →
  Forall in_u64 (mod_limbs a m) ∧ limbs_val (mod_limbs a m) = limbs_val a mod limbs_val m.
Proof.
  intros Ha Hm Hpos. unfold mod_limbs.
  enough (∀ n rem, Forall in_u64 rem → limbs_val rem = (limbs_val a / 2 ^ Z.of_nat n) mod limbs_val m →
    let r := foldl (mod_step a m) rem (reverse (seq 0 n)) in
    Forall in_u64 r ∧ limbs_val r = limbs_val a mod limbs_val m) as H.
  { apply H; [done|]. pose proof (limbs_val_range a Ha) as Hr.
    rewrite Z.div_small; [by rewrite Z.mod_0_l by lia|].
    rewrite Nat2Z.inj_mul, Z.mul_comm, Z.pow_mul_r by lia. exact Hr. }
  induction n as [|n IH]; intros rem Hr Hv; cbn zeta.
  { change (2 ^ Z.of_nat 0) with 1 in Hv. rewrite Z.div_1_r in Hv. done. }
  rewrite seq_S, reverse_snoc. cbn [foldl Nat.add].
  destruct (mod_step_spec a m rem n Ha Hm Hpos Hr Hv) as [M1 M2]. by apply IH.
Qed.

(** ** Exponentiation *)

Lemma le_bytes_bit bs i :
  bit_of (byte_val (default x00 (bs !! (i / 8)%nat))) (i mod 8) = bit_of (from_le_bytes bs) i.
Proof.
  revert i. induction bs as [|b bs IH]; intros i.
  { unfold bit_of. cbn. by rewrite !Z.div_0_l by lia. }
  cbn [from_le_bytes]. change two8 with (2 ^ Z.of_nat 8). rewrite digit_bit; [|lia|apply byte_val_range].
  destruct (Nat.ltb_spec i 8) as [Hi|Hi].
  - by rewrite Nat.div_small, Nat.mod_small by done.
  - rewrite <- IH. replace i with (i - 8 + 1 * 8)%nat at 1 2 by lia.
    rewrite Nat.div_add, Nat.Div0.mod_add by lia. by rewrite Nat.add_1_r.
Qed.

Lemma exp_bit_spec exp i : (i < length exp * 8)%nat → exp_bit exp i = bit_of (from_be_bytes exp) i.
Proof.
  intros Hi. assert (i / 8 < length exp)%nat by (apply Nat.Div0.div_lt_upper_bound; lia).
  unfold exp_bit, from_be_bytes. rewrite land_shiftr_bit, <- le_bytes_bit.
  do 3 f_equal. rewrite reverse_lookup by done. f_equal. lia.
Qed.

Lemma pow_step_spec b m exp res i B :
  Forall in_u64 b → Forall in_u64 m → 1 < limbs_val m → (i < length exp * 8)%nat →
  limbs_val b = B mod limbs_val m → Forall in_u64 res →
  limbs_val res = B ^ (from_be_bytes exp / 2 ^ Z.of_nat (S i)) mod limbs_val m →
  Forall in_u64 (pow_step b m exp res i)
  ∧ limbs_val (pow_step b m exp res i) = B ^ (from_be_bytes exp / 2 ^ Z.of_nat i) mod limbs_val m.
Proof.
  intros Hb Hm Hpos Hi HB Hr Hv. unfold pow_step. rewrite exp_bit_spec by done.
  destruct (mul_limbs_spec res res Hr Hr) as [Q1 Q2].
  destruct (mod_limbs_spec _ m Q1 Hm) as [R1 R2]; [lia|].
  set (e := from_be_bytes exp) in *. set (M := limbs_val m) in *.
  pose proof (from_be_bytes_range exp) as [He _]. fold e in He.
  assert (0 ≤ e / 2 ^ Z.of_nat (S i)) as Hq by (apply Z.div_pos; lia).
  assert (limbs_val (mod_limbs (mul_limbs res res) m) = B ^ (2 * (e / 2 ^ Z.of_nat (S i))) mod M) as Hsq.
  { rewrite R2, Q2, Hv, <- Z.mul_mod by lia. f_equal.
    rewrite <- Z.pow_add_r by lia. f_equal. lia. }
  rewrite (div_pow2_step e i). pose proof (bit_of_range e i) as Hbit.
  destruct (Z.eqb_spec (bit_of e i) 1) as [->|Hne].
  - destruct (mul_limbs_spec _ b R1 Hb) as [U1 U2]. destruct (mod_limbs_spec _ m U1 Hm) as [V1 V2]; [lia|].
    split; [done|]. rewrite V2, U2, Hsq, HB, <- Z.mul_mod by lia. f_equal.
    rewrite Z.pow_add_r, Z.pow_1_r by lia. done.
  - split; [done|]. replace (bit_of e i) with 0 by lia. by rewrite Z.add_0_r.
Qed.

Lemma pow_loop_limbs b m exp B : Forall in_u64 b → Forall in_u64 m → 1 < limbs_val m →
  limbs_val b = B mod limbs_val m →
  ∀ n res, (n ≤ length exp * 8)%nat → Forall in_u64 res →
  limbs_val res = B ^ (from_be_bytes exp / 2 ^ Z.of_nat n) mod limbs_val m →
  let r := foldl (pow_step b m exp) res (reverse (seq 0 n)) in
  Forall in_u64 r ∧ limbs_val r = B ^ from_be_bytes exp mod limbs_val m.
Proof.
  intros Hb Hm Hpos HB n. induction n as [|n IH]; intros res Hn Hr Hv; cbn zeta.
  { change (2 ^ Z.of_nat 0) with 1 in Hv. by rewrite Z.div_1_r in Hv. }
  rewrite seq_S, reverse_snoc. cbn [foldl Nat.add].
  destruct (pow_step_spec b m exp res n B) as [P1 P2]; try done. by apply IH; [lia|..].
Qed.

Lemma to_be_bytes_0 n : to_be_bytes n 0 = replicate n x00.
Proof.
  unfold to_be_bytes. enough (to_le_bytes n 0 = replicate n x00) as -> by apply reverse_replicate.
  induction n as [|n IH]; [done|]. cbn [to_le_bytes replicate]. f_equal. exact IH.
Qed.

Lemma modpow_spec base exp modulus :
  let M := from_be_bytes modulus in
  modpow base exp modulus
  = to_be_bytes (length modulus) (if M =? 0 then 0 else from_be_bytes base ^ from_be_bytes exp mod M).
Proof.
  cbn zeta. unfold modpow. destruct (to_le_limbs_spec modulus) as [L1 L2].
  destruct (trim_spec _ L1) as (T1 & T2 & T3 & T4). rewrite L2 in *.
  set (m := trim_limbs _) in *. set (M := from_be_bytes modulus) in *.
  pose proof (from_be_bytes_range modulus) as HM. fold M in HM.
  destruct (decide (M = 0)) as [E|E].
  { rewrite T3 by done. rewrite E. cbn. by rewrite to_be_bytes_0. }
  destruct (Z.eqb_spec M 0) as [|_]; [done|]. destruct (decide (M = 1)) as [E1|E1].
  { rewrite T4 by done. rewrite E1, Z.mod_1_r. cbn. by rewrite to_be_bytes_0. }
  rewrite !bool_decide_eq_false_2 by (intros Hm; rewrite Hm in T2; cbn [limbs_val] in T2; lia). cbn [orb].
  destruct (to_le_limbs_spec base) as [B1 B2]. destruct (mod_limbs_spec _ m B1 T1) as [C1 C2]; [lia|].
  destruct (pow_loop_limbs _ m exp (from_be_bytes base) C1 T1) with (n := (length exp * 8)%nat) (res := [1])
    as [P1 P2].
  - lia.
  - by rewrite C2, B2.
  - done.
  - by apply Forall_singleton.
  - pose proof (from_be_bytes_range exp) as He. rewrite Z.div_small.
    + cbn [limbs_val]. rewrite Z.pow_0_r, Z.mod_small; lia.
    + rewrite Nat2Z.inj_mul, (Z.mul_comm _ (Z.of_nat 8)), Z.pow_mul_r by lia. exact He.
  - rewrite T2 in P2. rewrite from_le_limbs_spec; [by rewrite P2|done|].
    rewrite P2. pose proof (Z.mod_pos_bound (from_be_bytes base ^ from_be_bytes exp) M). lia.
Qed.

(** ** The precompile *)

Lemma existsb_zero_prefix bs : existsb (λ b, negb (byte_val b =? 0)) bs = false ↔ bs = replicate (length bs) x00.
Proof.
  induction bs as [|b bs IH]; [done|]. cbn [existsb length replicate].
  rewrite orb_false_iff, negb_false_iff, Z.eqb_eq, IH. split.
  - intros [Hb ->]. rewrite length_replicate. f_equal. by apply byte_val_inj.
  - intros [= -> ->]. rewrite length_replicate. done.
Qed.

(** A 32-byte size header: its value when it is below [2^64]. *)
Lemma read_len_spec header field : length header = 32%nat →
  if from_be_bytes header <? two64 then read_len header field = Ok (from_be_bytes header)
  else ∃ msg, read_len header field = Err (InvalidInput msg).
Proof.
  intros Hl. unfold read_len. assert (length (take 24 header) = 24%nat) as Ht by (rewrite length_take; lia).
  assert (byte_range header 24 32 = drop 24 header) as Hs.
  { unfold byte_range. rewrite firstn_all2; [done|]. rewrite length_drop. lia. }
  assert (length (drop 24 header) = 8%nat) as Hd by (rewrite length_drop; lia).
  assert (from_be_bytes header = from_be_bytes (drop 24 header) + two64 * from_be_bytes (take 24 header)) as Hv.
  { rewrite <- (firstn_skipn 24 header) at 1. unfold from_be_bytes.
    rewrite reverse_app, from_le_bytes_app, length_reverse, Hd. done. }
  pose proof (from_be_bytes_range (drop 24 header)) as R1. rewrite Hd in R1. change (256 ^ Z.of_nat 8) with two64 in R1.
  pose proof (from_be_bytes_range (take 24 header)) as R2. rewrite Hs.
  destruct (existsb _ _) eqn:E.
  - destruct (Z.ltb_spec (from_be_bytes header) two64) as [Hlt|]; [|eauto]. exfalso.
    assert (from_be_bytes (take 24 header) = 0) as E0 by lia.
    enough (existsb (λ b, negb (byte_val b =? 0)) (take 24 header) = false) by congruence.
    apply existsb_zero_prefix. rewrite <- (to_from_be_bytes (take 24 header)) at 1. by rewrite E0, to_be_bytes_0.
  - apply existsb_zero_prefix in E. rewrite E in Hv.
    rewrite <- (app_nil_r (replicate _ _)), from_be_bytes_zeros in Hv.
    change (from_be_bytes []) with 0 in Hv. rewrite Z.mul_0_r, Z.add_0_r in Hv.
    destruct (Z.ltb_spec (from_be_bytes header) two64); [by rewrite Hv|lia].
Qed.

Lemma modexp_gas_spec n : 0 ≤ n → modexp_gas n = Z.min (50 + 50 * n) u64_max.
Proof. intros. unfold modexp_gas, saturating_add64, saturating_mul64. lia. Qed.

Lemma length_range data a b : 0 ≤ a ≤ b → b ≤ Z.of_nat (length data) → length (byte_range data a b) = Z.to_nat (b - a).
Proof. intros. unfold byte_range. rewrite length_take, length_drop. lia. Qed.

Lemma ok_or_bind_err {E A B} (o : option A) (e : E) (k : A → result E B) :
  o = None → (a ← ok_or o e; k a) = Err e.
Proof. by intros ->. Qed.

(** C10: Precompile 0x07 on every input: with three size headers that fit the data it
    returns [base ^ exp mod modulus] (0 for modulus 0) as exactly [mod_len] big-endian
    bytes and charges 50 gas plus 50 per byte of the modulus, saturating; on anything
    else it is an invalid-input error, never a panic. *)
Theorem modexp_correct data :
  Z.of_nat (length data) < two64 →
  let len := λ i, from_be_bytes (byte_range data (32 * i) (32 * i + 32)) in
  let base_end := HEADER_LEN + len 0 in
  let exp_end := base_end + len 1 in
  let body := exp_end + len 2 in
  if decide (HEADER_LEN ≤ Z.of_nat (length data) ∧ body ≤ Z.of_nat (length data)) then
    let B := from_be_bytes (byte_range data HEADER_LEN base_end) in
    let E := from_be_bytes (byte_range data base_end exp_end) in
    let M := from_be_bytes (byte_range data exp_end body) in
    modexp_run data = Ok {|
      po_output := to_be_bytes (Z.to_nat (len 2)) (if M =? 0 then 0 else B ^ E mod M);
      po_gas_used := Z.min (50 + 50 * len 2) u64_max |}
  else ∃ msg, modexp_run data = Err (InvalidInput msg).
Proof.
  intros Hlen. cbn zeta. unfold modexp_run. set (n := Z.of_nat (length data)) in *.
  destruct (Z.ltb_spec n HEADER_LEN) as [Hs|Hs].
  { destruct (decide _) as [[? _]|_]; [lia|by eexists]. }
  unfold HEADER_LEN in *.
  change (32 * 0) with 0. change (32 * 1) with 32. change (32 * 2) with 64.
  change (0 + 32) with 32. change (32 + 32) with 64. change (64 + 32) with 96.
  pose proof (read_len_spec (byte_range data 0 32) "base_len" ltac:(rewrite length_range; lia)) as R0.
  pose proof (read_len_spec (byte_range data 32 64) "exp_len" ltac:(rewrite length_range; lia)) as R1.
  pose proof (read_len_spec (byte_range data 64 96) "mod_len" ltac:(rewrite length_range; lia)) as R2.
  set (l0 := from_be_bytes (byte_range data 0 32)) in *. set (l1 := from_be_bytes (byte_range data 32 64)) in *.
  set (l2 := from_be_bytes (byte_range data 64 96)) in *.
  assert (0 ≤ l0 ∧ 0 ≤ l1 ∧ 0 ≤ l2) as (H0 & H1 & H2) by (repeat split; apply from_be_bytes_range).
  destruct (Z.ltb_spec l0 two64).
  2: { destruct R0 as [msg ->]. cbn [mbind result_bind]. rewrite decide_False by lia. by eexists. }
  rewrite R0. cbn [mbind result_bind]. destruct (Z.ltb_spec l1 two64).
  2: { destruct R1 as [msg ->]. cbn [mbind result_bind]. rewrite decide_False by lia. by eexists. }
  rewrite R1. cbn [mbind result_bind]. destruct (Z.ltb_spec l2 two64).
  2: { destruct R2 as [msg ->]. cbn [mbind result_bind]. rewrite decide_False by lia. by eexists. }
  rewrite R2. cbn [mbind result_bind]. unfold checked_add64.
  destruct (decide (96 + l0 < two64)); cbn [mbind option_bind ok_or result_bind].
  2: { rewrite decide_False by lia. by eexists. }
  destruct (decide (96 + l0 + l1 < two64)); cbn [mbind option_bind ok_or result_bind].
  2: { rewrite decide_False by lia. by eexists. }
  destruct (decide (96 + l0 + l1 + l2 < two64)); cbn [mbind option_bind ok_or result_bind].
  2: { rewrite decide_False by lia. by eexists. }
  destruct (Z.ltb_spec n (96 + l0 + l1 + l2)).
  { rewrite decide_False by lia. by eexists. }
  rewrite decide_True by lia. rewrite modexp_gas_spec by done.
  destruct (Z.eqb_spec l2 0) as [E|E]; [by rewrite E|].
  rewrite modpow_spec, length_range by lia.
  by replace (96 + l0 + l1 + l2 - (96 + l0 + l1)) with l2 by lia.
Qed.

(** 2 ^ 10 mod 1000 = 24, on two bytes. *)
Lemma modexp_correct_witness :
  let data := to_be_bytes 32 1 ++ to_be_bytes 32 1 ++ to_be_bytes 32 2 ++ [x02; x0a; x03; xe8] in
  modexp_run data = Ok {| po_output := [x00; x18]; po_gas_used := 150 |}.
Proof.
  cbn zeta. set (data := _ ++ _). pose proof (modexp_correct data) as H.
  assert (Z.of_nat (length data) < two64) as Hl by (vm_compute; reflexivity).
  specialize (H Hl). vm_compute in H. vm_compute. exact H.
Defined.

(** ** The gas counter *)

Lemma weight_gas_u64 w : in_u64 (weight_gas w).
Proof. destruct w; cbn [weight_gas]; try apply wrap64_range; done. Qed.

(** Every weight is positive when sizes are those of a 32-bit memory and at most four topics. *)
Definition weight_sane (w : HostCallWeight) : Prop :=
  match w with
  | WBlake3 n | WKeccak n | WSha256 n => 0 ≤ n < two32
  | WEmitLog n => 0 ≤ n ≤ 4
  | _ => True
  end.

Lemma weight_gas_pos w : weight_sane w → 3 ≤ weight_gas w.
Proof.
  destruct w as [| |n|n|n| | | | | | | | |n|]; cbn [weight_sane weight_gas]; try lia; intros H.
  all: unfold add64, mul64; rewrite ?(wrap64_small (_ * _)), ?wrap64_small;
    unfold in_u64, div_ceil in *; Z.div_mod_to_equations; lia.
Qed.

(** A gas counter never spends more than its limit: a charge that fits is added, any
    other is refused with [OutOfGas] and changes nothing, so what is left plus what was
    used is always the limit. *)
Theorem counter_spends_within_limit limit (ops : list HostCallWeight) :
  in_u64 limit →
  let c := foldl (λ c w, (spend_host_call c w).2) (counter_new limit) ops in
  counter_used c + counter_left c = limit ∧ 0 ≤ counter_used c ≤ limit
  ∧ ∀ w, if weight_gas w <=? counter_left c
         then spend_host_call c w = (Ok tt, {| fg_limit := limit; fg_spent := counter_used c + weight_gas w |})
         else spend_host_call c w = (Err OutOfGas, c).
Proof.
  intros Hl. cbn zeta.
  assert (fg_limit (counter_new limit) = limit ∧ 0 ≤ fg_spent (counter_new limit) ≤ limit) as H.
  { unfold in_u64 in Hl. cbn. lia. }
  revert H. generalize (counter_new limit) as c. induction ops as [|w ops IH]; intros c [E Hs]; cbn [foldl].
  - unfold counter_used, counter_left, in_u64, sub64 in *. rewrite E, wrap64_small by (unfold in_u64; lia).
    split; [lia|]. split; [done|]. intros w. pose proof (weight_gas_u64 w) as Hw.
    unfold spend_host_call, spend, checked_add64, in_u64 in *. rewrite E.
    destruct (Z.leb_spec (weight_gas w) (limit - fg_spent c)).
    + rewrite decide_True by lia. by destruct (Z.ltb_spec limit (fg_spent c + weight_gas w)); [lia|].
    + case_decide; [|done]. by destruct (Z.ltb_spec limit (fg_spent c + weight_gas w)); [|lia].
  - apply IH. unfold spend_host_call, spend, checked_add64. pose proof (weight_gas_u64 w) as Hw.
    unfold in_u64 in *. case_decide; [|done].
    destruct (Z.ltb_spec (fg_limit c) (fg_spent c + weight_gas w)); cbn; [done|]. rewrite E in *. lia.
Qed.

Lemma counter_spends_within_limit_witness :
  (let c := foldl (λ c w, (spend_host_call c w).2) (counter_new 1000) [WStorageRead; WStorageWrite; WCall] in
   counter_used c + counter_left c = 1000 ∧ 0 ≤ counter_used c ≤ 1000)
  ∧ (foldl (λ c w, (spend_host_call c w).2) (counter_new 1000) [WStorageRead; WStorageWrite; WCall]).(fg_spent) = 900.
Proof.
  split; [|reflexivity]. destruct (counter_spends_within_limit 1000 [WStorageRead; WStorageWrite; WCall]) as (H1 & H2 & _).
  - unfold in_u64. lia.
  - exact (conj H1 H2).
Defined.
