(* ===== verification/Vm.v ===== *)
(** * The contract executor (crates/strangecoin-vm-wasm/src: lib.rs, error.rs, host)

    Contract code runs on the wasmi crate, which is the parameter [Wasmi]: a module is
    instantiated into an instance with an exported memory, and a guest computation runs
    on fuel and memory until it returns, traps or calls a host function.  Everything
    around the engine is modelled: the fourteen host functions, nested calls with their
    gates, value settlement and merging, call frames, calldata dispatch, and the
    executor the core sees as a [VmExecutor]. *)

From S2P Require Import Prelude Bytes U256 Abi AbiCodec Types Address Node Executor Noise Precompiles.
Open Scope Z_scope.

(** ** The engine *)

(** [wasmi::Error]: a typed host failure, the trap codes the executor tells apart, or
    anything else with its text. *)
Inductive WasmError :=
  | VmHostError (e : VmError)
  | TrapOutOfFuel
  | TrapStackOverflow
  | TrapGrowthOperationLimited
  | WasmMessage (text : string).

(** The imports of the namespace [sc], with their [i32] (and one [i64]) arguments. *)
Inductive HostCall :=
  | HCall (to_ptr to_len value data_ptr data_len out_ptr out_len : Z)
  | HDelegateCall (to_ptr to_len data_ptr data_len out_ptr out_len : Z)
  | HStaticCall (to_ptr to_len data_ptr data_len out_ptr out_len : Z)
  | HStorageRead (key_ptr out_ptr out_len : Z)
  | HStorageWrite (key_ptr val_ptr val_len : Z)
  | HBlockContext (out_ptr out_len : Z)
  | HGasLeft
  | HInputRead (out_ptr out_len : Z)
  | HEmitLog (topics_ptr topics_count data_ptr data_len : Z)
  | HBlake3 (in_ptr in_len out_ptr : Z)
  | HKeccak (in_ptr in_len out_ptr : Z)
  | HSha256 (in_ptr in_len out_ptr : Z)
  | HSecp256k1Verify (pk_ptr hash_ptr sig_ptr : Z)
  | HBlsVerify.

(** Why a running guest hands control back. *)
Inductive Stop (G : Type) :=
  | Returned (value : option Z)
  | Trapped (e : WasmError)
  | HostCalled (c : HostCall) (k : Z → G).
Arguments Returned {G} value.
Arguments Trapped {G} e.
Arguments HostCalled {G} c k.

(** The typed signatures [invoke_export] probes. *)
Inductive Signature := SigArgsI32 | SigArgs | SigI32 | SigUnit | SigOther.

Class Wasmi := {
  Module : Type;
  WasmInstance : Type;
  Guest : Type;
  module_new : list byte → Module + string;
  module_exports_func : Module → string → bool;
  (** Linking against the host functions and the resource limiter. *)
  instantiate : Module → WasmInstance * option (list byte) + string;
  start_function : WasmInstance → Guest;
  get_func : WasmInstance → string → option Signature;
  invoke_func : WasmInstance → string → list Z → Guest;
  (** [Memory::grow] by a number of pages. *)
  memory_grow : WasmInstance → list byte → Z → option (list byte);
  (** Runs until the next stop: fuel left, memory, and the reason. *)
  guest_run : Guest → Z → option (list byte) → Z * option (list byte) * Stop Guest;
  error_text : WasmError → string
}.

(** The wasm types of the arguments. *)
Definition is_i32 (z : Z) : Prop := - 2 ^ 31 ≤ z < 2 ^ 31.
Definition is_i64 (z : Z) : Prop := - two63 ≤ z < two63.
Definition well_typed (c : HostCall) : Prop :=
  match c with
  | HCall a b v d e f g => is_i64 v ∧ Forall is_i32 [a; b; d; e; f; g]
  | HDelegateCall a b c d e f | HStaticCall a b c d e f => Forall is_i32 [a; b; c; d; e; f]
  | HEmitLog a b c d => Forall is_i32 [a; b; c; d]
  | HStorageRead a b c | HStorageWrite a b c | HBlake3 a b c | HKeccak a b c | HSha256 a b c
  | HSecp256k1Verify a b c => Forall is_i32 [a; b; c]
  | HBlockContext a b | HInputRead a b => Forall is_i32 [a; b]
  | HGasLeft | HBlsVerify => True
  end.

(** Documented: fuel is only consumed, calls are type-checked, growing appends pages. *)
Class WasmiOk `{Wasmi} : Prop := {
  guest_run_fuel : ∀ g fuel mem, (guest_run g fuel mem).1.1 ≤ fuel ∧ (0 ≤ fuel → 0 ≤ (guest_run g fuel mem).1.1);
  guest_run_typed : ∀ g fuel mem c k, (guest_run g fuel mem).2 = HostCalled c k → well_typed c;
  memory_grow_app : ∀ i mem pages mem', memory_grow i mem pages = Some mem' →
    ∃ tl, mem' = mem ++ tl ∧ Z.of_nat (length tl) = pages * 65536
}.

(** [Secp256k1::verify_ecdsa] on a compact signature; [false] also when it does not parse. *)
Class EcdsaVerify `{Secp256k1} := verify_ecdsa : PublicKey → list byte → list byte → bool.

(** ** Errors (error.rs) *)

Inductive WasmiError :=
  | NoCode (address : string)
  | OutOfFuel
  | EngineError (text : string)
  | InstantiateError (text : string)
  | MissingExport (name : string)
  | TypeMismatch (text : string)
  | CoreVm (e : VmError).

(** ** Host state (host/state.rs) *)

Record HostState := {
  hs_ctx : ExecutionContext;
  hs_code : gmap string (list byte);
  hs_abis : gmap string ContractAbi;
  hs_call_stack : list string;
  hs_last_return_data : list byte;
  hs_logs : list Log;
  hs_value_transfers : list ValueTransfer
}.

Definition host_state_new (ctx : ExecutionContext) (code : gmap string (list byte))
    (abis : gmap string ContractAbi) (call_stack : list string) : HostState := {|
  hs_ctx := ctx; hs_code := code; hs_abis := abis; hs_call_stack := call_stack;
  hs_last_return_data := []; hs_logs := []; hs_value_transfers := [] |}.

(** [Store<HostState>]: fuel, the exported memory, and the host state. *)
Record Store := { st_fuel : Z; st_memory : option (list byte); st_data : HostState }.

Definition with_fuel (st : Store) (fuel : Z) : Store :=
  {| st_fuel := fuel; st_memory := st_memory st; st_data := st_data st |}.
Definition with_memory (st : Store) (mem : option (list byte)) : Store :=
  {| st_fuel := st_fuel st; st_memory := mem; st_data := st_data st |}.
Definition with_data (st : Store) (d : HostState) : Store :=
  {| st_fuel := st_fuel st; st_memory := st_memory st; st_data := d |}.

(** Assignments to the mutable fields of the host state. *)
Definition set_host (d : HostState) (overlay : ContractStorageMap) (accounts : gmap string Account)
    (return_data : list byte) (logs : list Log) (transfers : list ValueTransfer) : HostState :=
  let c := hs_ctx d in {|
  hs_ctx := {| cx_block := cx_block c; cx_accounts := accounts; cx_caller := cx_caller c;
    cx_callee := cx_callee c; cx_value := cx_value c; cx_gas_limit := cx_gas_limit c;
    cx_gas_used := cx_gas_used c; cx_depth := cx_depth c; cx_reentrant := cx_reentrant c;
    cx_read_only := cx_read_only c; cx_block_context := cx_block_context c; cx_storage := cx_storage c;
    cx_storage_overlay := overlay; cx_storage_address := cx_storage_address c; cx_input := cx_input c |};
  hs_code := hs_code d; hs_abis := hs_abis d; hs_call_stack := hs_call_stack d;
  hs_last_return_data := return_data; hs_logs := logs; hs_value_transfers := transfers |}.

(** ** Memory access (host/abi.rs, host/mod.rs) *)

Definition get_memory (st : Store) : result WasmError (list byte) :=
  ok_or (st_memory st) (WasmMessage "host ABI: module does not export `memory`").

Definition checked_range (ptr len mem_size : Z) : result WasmError (Z * Z) :=
  stop ← ok_or (checked_add64 ptr len) (WasmMessage "host ABI: pointer + length overflow");
  if mem_size <? stop then Err (WasmMessage "host ABI: access out of bounds") else Ok (ptr, stop).

Definition mem_read_bytes (st : Store) (ptr len : Z) : result WasmError (list byte) :=
  memory ← get_memory st;
  '(from, stop) ← checked_range ptr len (Z.of_nat (length memory));
  Ok (byte_range memory from stop).

Definition read_array32 (st : Store) (ptr : Z) : result WasmError (list byte) :=
  bytes ← mem_read_bytes st ptr 32;
  if (length bytes =? 32)%nat then Ok bytes else Panic.

Definition mem_write_bytes (st : Store) (ptr : Z) (data : list byte) : result WasmError Store :=
  memory ← get_memory st;
  '(from, _) ← checked_range ptr (Z.of_nat (length data)) (Z.of_nat (length memory));
  Ok (with_memory st (Some (copy_at (Z.to_nat from) data memory))).

(** [charge_host_call]. *)
Definition charge_host_call (st : Store) (w : HostCallWeight) : result WasmError Store :=
  let fuel := st_fuel st in
  if fuel <? weight_gas w then Err TrapOutOfFuel else Ok (with_fuel st (fuel - weight_gas w)).

Definition checked_u32 (value : Z) (what : string) : result WasmError Z :=
  if value <? 0 then Err (WasmMessage ("host ABI: negative " +:+ what)) else Ok value.

(** ** Storage (host/storage) *)

Definition storage_read (st : Store) (key_ptr out_ptr out_len : Z) : result WasmError (Z * Store) :=
  st ← charge_host_call st WStorageRead;
  key_ptr ← checked_u32 key_ptr "key_ptr";
  out_ptr ← checked_u32 out_ptr "out_ptr";
  out_len ← checked_u32 out_len "out_len";
  key ← read_array32 st key_ptr;
  let ctx := hs_ctx (st_data st) in
  let address := cx_storage_address ctx in
  let staged := overlay ← cx_storage_overlay ctx !! address; overlay !! key in
  let value := match staged with
               | Some v => Some v
               | None => storage ← cx_storage ctx !! address; storage !! key
               end in
  match value with
  | None => Ok (0, st)
  | Some value =>
      if out_len <? Z.of_nat (length value) then Ok (-1, st)
      else st ← mem_write_bytes st out_ptr value; Ok (Z.of_nat (length value), st)
  end.

(** [map.values().map(Vec::len).sum()]. *)
Definition value_bytes (m : ContractStorage) : Z := sumZ ((λ kv, Z.of_nat (length kv.2)) <$> map_to_list m).

Definition storage_write (st : Store) (key_ptr val_ptr val_len : Z) : result WasmError (Z * Store) :=
  st ← charge_host_call st WStorageWrite;
  key_ptr ← checked_u32 key_ptr "key_ptr";
  val_ptr ← checked_u32 val_ptr "val_ptr";
  val_len ← checked_u32 val_len "val_len";
  key ← read_array32 st key_ptr;
  value ← mem_read_bytes st val_ptr val_len;
  let d := st_data st in
  let ctx := hs_ctx d in
  if cx_read_only ctx
  then Err (WasmMessage "storage_write: called from a read-only (staticcall) frame") else
  let address := cx_storage_address ctx in
  let persisted := from_option value_bytes 0 (cx_storage ctx !! address) in
  let overlay := default ∅ (cx_storage_overlay ctx !! address) in
  let replaced := from_option (λ v, Z.of_nat (length v)) 0 (overlay !! key) in
  let staged := saturating_sub64 (value_bytes overlay) replaced in
  if MAX_STORAGE_PER_CONTRACT <?
     saturating_add64 (saturating_add64 persisted staged) (Z.of_nat (length value))
  then Err (VmHostError MaxStoragePerContract) else
  Ok (1, with_data st (set_host d (<[address := <[key := value]> overlay]> (cx_storage_overlay ctx))
                        (cx_accounts ctx) (hs_last_return_data d) (hs_logs d) (hs_value_transfers d))).

(** ** Context and logs (host/context, host/logs) *)

Definition block_context (st : Store) (out_ptr out_len : Z) : result WasmError (Z * Store) :=
  st ← charge_host_call st WBlockContext;
  out_ptr ← checked_u32 out_ptr "out_ptr";
  out_len ← checked_u32 out_len "out_len";
  let bc := cx_block_context (hs_ctx (st_data st)) in
  let buf := to_le_bytes 8 (bc_height bc) ++ to_le_bytes 8 (bc_timestamp bc)
             ++ to_le_bytes 8 (bc_block_gas_limit bc) ++ as_bytes (bc_coinbase bc) in
  if out_len <? Z.of_nat (length buf) then Ok (-1, st)
  else st ← mem_write_bytes st out_ptr buf; Ok (Z.of_nat (length buf), st).

(** [u64 as i64]. *)
Definition as_i64 (z : Z) : Z := if z <? two63 then z else z - two64.

Definition gas_left (st : Store) : result WasmError (Z * Store) :=
  st ← charge_host_call st WGasLeft;
  Ok (as_i64 (st_fuel st), st).

Definition input_read (st : Store) (out_ptr out_len : Z) : result WasmError (Z * Store) :=
  st ← charge_host_call st WInputRead;
  out_ptr ← checked_u32 out_ptr "out_ptr";
  out_len ← checked_u32 out_len "out_len";
  let input := cx_input (hs_ctx (st_data st)) in
  if out_len <? Z.of_nat (length input) then Ok (-1, st)
  else match input with
       | [] => Ok (0, st)
       | _ => st ← mem_write_bytes st out_ptr input; Ok (Z.of_nat (length input), st)
       end.

Definition MAX_TOPICS : Z := 4.

Definition read_topics (st : Store) (topics_ptr : Z) (n : nat) : result WasmError (list (list byte)) :=
  mapM_result (λ i, if topics_ptr + Z.of_nat (i * 32) <? two32
                    then read_array32 st (topics_ptr + Z.of_nat (i * 32))
                    else Err (WasmMessage "emit_log: topics pointer overflow")) (seq 0 n).

Definition emit_log (st : Store) (topics_ptr topics_count data_ptr data_len : Z) : result WasmError (Z * Store) :=
  topics_count ← checked_u32 topics_count "topics_count";
  if MAX_TOPICS <? topics_count
  then Err (WasmMessage ("emit_log: at most " +:+ pretty MAX_TOPICS +:+ " topics, got " +:+ pretty topics_count)) else
  st ← charge_host_call st (WEmitLog topics_count);
  topics_ptr ← checked_u32 topics_ptr "topics_ptr";
  data_ptr ← checked_u32 data_ptr "data_ptr";
  data_len ← checked_u32 data_len "data_len";
  topics ← read_topics st topics_ptr (Z.to_nat topics_count);
  data ← mem_read_bytes st data_ptr data_len;
  let d := st_data st in
  let ctx := hs_ctx d in
  if cx_read_only ctx
  then Err (WasmMessage "emit_log: called from a read-only (staticcall) frame") else
  let log := {| log_address := cx_callee ctx; log_topics := topics; log_data := data |} in
  Ok (1, with_data st (set_host d (cx_storage_overlay ctx) (cx_accounts ctx) (hs_last_return_data d)
                        (hs_logs d ++ [log]) (hs_value_transfers d))).

(** ** Value transfers (host/calls/mod.rs) *)

Definition balance_in (accounts : gmap string Account) (a : string) : Z :=
  from_option balance 0 (accounts !! a).

(** [transfer_value]: [None] is the refusal, which changes nothing. *)
Definition transfer_value (accounts : gmap string Account) (from to : string) (value : Z)
    : option (gmap string Account) :=
  let from_balance := balance_in accounts from in
  if from_balance <? value then None else
  let accounts := match accounts !! from with
                  | Some acc => <[from := account_set_balance acc (from_balance - value)]> accounts
                  | None => accounts
                  end in
  let recipient := default account_default (accounts !! to) in
  Some (<[to := account_set_balance recipient (saturating_add64 (balance recipient) value)]> accounts).

Inductive CallKind := KCall | KDelegateCall | KStaticCall.
#[export] Instance CallKind_eq_dec : EqDecision CallKind.
Proof. solve_decision. Defined.

Definition base_weight (k : CallKind) : HostCallWeight :=
  match k with KCall => WCall | KDelegateCall => WDelegateCall | KStaticCall => WStaticCall end.

Definition STATUS_OK : Z := 0.
Definition STATUS_REVERTED : Z := 1.
Definition STATUS_FAILED : Z := 2.
Definition MAX_TARGET_LEN : Z := 128.

(** Which export a frame invokes. *)
Inductive FrameEntry := EntrySelector | EntryConstructor.
#[export] Instance FrameEntry_eq_dec : EqDecision FrameEntry.
Proof. solve_decision. Defined.

Record FrameOutcome := {
  fo_result : ExecutionResult;
  fo_storage_overlay : ContractStorageMap;
  fo_accounts : gmap string Account;
  fo_logs : list Log;
  fo_return_data : list byte
}.

(** [data.get(..4)]. *)
Definition selector_of (data : list byte) : option (list byte) :=
  if (4 <=? length data)%nat then Some (take 4 data) else None.

(** The entry of [to] that [data] selects is marked [non_reentrant]. *)
Definition guarded_entry (abis : gmap string ContractAbi) (to : string) (data : list byte) : bool :=
  from_option en_non_reentrant false
    (abi ← abis !! to; sel ← selector_of data; entry_by_selector abi sel).

(** The depth and reentrancy gates: whether [to] is already on the call stack. *)
Definition call_gates (d : HostState) (to : string) (data : list byte) : result WasmError bool :=
  if MAX_CALL_DEPTH <? Z.min (cx_depth (hs_ctx d) + 1) (two32 - 1) then Err (VmHostError MaxCallDepth) else
  let is_reentrant := bool_decide (to ∈ hs_call_stack d) in
  if is_reentrant && guarded_entry (hs_abis d) to data then Err (VmHostError ReentrancyDetected)
  else Ok is_reentrant.

(** The context a nested frame starts from. *)
Definition child_context (ctx : ExecutionContext) (kind : CallKind) (to : string) (value fuel : Z)
    (data : list byte) (is_reentrant : bool) : ExecutionContext := {|
  cx_block := cx_block ctx; cx_accounts := cx_accounts ctx;
  cx_caller := match kind with KDelegateCall => cx_caller ctx | _ => cx_callee ctx end;
  cx_callee := to;
  cx_value := match kind with KCall => value | KDelegateCall => cx_value ctx | KStaticCall => 0 end;
  cx_gas_limit := fuel; cx_gas_used := 0;
  cx_depth := Z.min (cx_depth ctx + 1) (two32 - 1); cx_reentrant := is_reentrant;
  cx_read_only := cx_read_only ctx || bool_decide (kind = KStaticCall);
  cx_block_context := cx_block_context ctx; cx_storage := cx_storage ctx;
  cx_storage_overlay := cx_storage_overlay ctx;
  cx_storage_address := match kind with KDelegateCall => cx_storage_address ctx | _ => to end;
  cx_input := data |}.

Definition with_accounts (ctx : ExecutionContext) (accounts : gmap string Account) : ExecutionContext := {|
  cx_block := cx_block ctx; cx_accounts := accounts; cx_caller := cx_caller ctx; cx_callee := cx_callee ctx;
  cx_value := cx_value ctx; cx_gas_limit := cx_gas_limit ctx; cx_gas_used := cx_gas_used ctx;
  cx_depth := cx_depth ctx; cx_reentrant := cx_reentrant ctx; cx_read_only := cx_read_only ctx;
  cx_block_context := cx_block_context ctx; cx_storage := cx_storage ctx;
  cx_storage_overlay := cx_storage_overlay ctx; cx_storage_address := cx_storage_address ctx;
  cx_input := cx_input ctx |}.

(** What a nested call hands back before it is merged. *)
Record ChildOutcome := {
  ch_status : Z;
  ch_gas_used : Z;
  ch_return_data : list byte;
  ch_overlay : option ContractStorageMap;
  ch_accounts : option (gmap string Account);
  ch_logs : list Log;
  ch_transfers : list ValueTransfer
}.

Definition child_plain (status gas_used : Z) (return_data : list byte) (accounts : option (gmap string Account))
    : ChildOutcome := {|
  ch_status := status; ch_gas_used := gas_used; ch_return_data := return_data; ch_overlay := None;
  ch_accounts := accounts; ch_logs := []; ch_transfers := [] |}.

Section Vm.
Context `{B3 : Blake3, SK : Secp256k1, ED : Ed25519, DG : Digests, EV : !EcdsaVerify, WA : Wasmi}.

(** [impl From<wasmi::Error> for WasmiError]. *)
Definition from_wasm (err : WasmError) : WasmiError :=
  match err with
  | VmHostError e => CoreVm e
  | TrapOutOfFuel => OutOfFuel
  | TrapStackOverflow | TrapGrowthOperationLimited => CoreVm OutOfMemory
  | WasmMessage _ => EngineError (error_text err)
  end.

(** [Display] of [WasmiError]. *)
Definition wasmi_error_text (err : WasmiError) : string :=
  match err with
  | NoCode address => "no contract code registered for address `" +:+ address +:+ "`"
  | OutOfFuel => "out of gas"
  | EngineError t => "wasmi engine error: " +:+ t
  | InstantiateError t => "module instantiation failed: " +:+ t
  | MissingExport n => "missing export `" +:+ n +:+ "`"
  | TypeMismatch t => "type mismatch: " +:+ t
  | CoreVm e => Node.vm_error_text e
  end.

(** [impl From<WasmiError> for VmError]. *)
Definition to_vm_error (err : WasmiError) : VmError :=
  match err with
  | OutOfFuel => OutOfGas
  | CoreVm inner => inner
  | NoCode address => HostFunctionError "execute" ("no contract code for address `" +:+ address +:+ "`")
  | other => HostFunctionError "wasmi" (wasmi_error_text other)
  end.

(** ** Cryptography (host/crypto) *)

Definition hash_host (st : Store) (w : HostCallWeight) (hash_fn : list byte → list byte)
    (in_ptr in_len out_ptr : Z) : result WasmError (Z * Store) :=
  st ← charge_host_call st w;
  in_len ← checked_u32 in_len "in_len";
  in_ptr ← checked_u32 in_ptr "in_ptr";
  out_ptr ← checked_u32 out_ptr "out_ptr";
  input ← mem_read_bytes st in_ptr in_len;
  match mem_write_bytes st out_ptr (hash_fn input) with
  | Ok st => Ok (1, st)
  | Err _ => Ok (0, st)
  | Panic => Panic
  end.

Definition blake3_hash (st : Store) (in_ptr in_len out_ptr : Z) : result WasmError (Z * Store) :=
  len ← checked_u32 in_len "in_len";
  hash_host st (WBlake3 len) blake3 in_ptr in_len out_ptr.

Definition keccak_hash (st : Store) (in_ptr in_len out_ptr : Z) : result WasmError (Z * Store) :=
  len ← checked_u32 in_len "in_len";
  hash_host st (WKeccak len) keccak256 in_ptr in_len out_ptr.

Definition sha256_hash (st : Store) (in_ptr in_len out_ptr : Z) : result WasmError (Z * Store) :=
  len ← checked_u32 in_len "in_len";
  hash_host st (WSha256 len) sha256 in_ptr in_len out_ptr.

Definition secp256k1_verify (st : Store) (pk_ptr hash_ptr sig_ptr : Z) : result WasmError (Z * Store) :=
  st ← charge_host_call st WSecp256k1Verify;
  pk_ptr ← checked_u32 pk_ptr "pk_ptr";
  hash_ptr ← checked_u32 hash_ptr "hash_ptr";
  sig_ptr ← checked_u32 sig_ptr "sig_ptr";
  pk_bytes ← mem_read_bytes st pk_ptr 33;
  hash ← read_array32 st hash_ptr;
  sig_bytes ← mem_read_bytes st sig_ptr 64;
  match pk_from_slice pk_bytes with
  | inr _ => Ok (0, st)
  | inl pk => Ok (Z.b2z (verify_ecdsa pk sig_bytes hash), st)
  end.

Definition bls_verify (st : Store) : result WasmError (Z * Store) :=
  st ← charge_host_call st WBlsVerify;
  Err (WasmMessage "bls_verify: not implemented until Stage 7 (BLS12-381)").

(** ** Nested calls (host/calls/mod.rs) *)

Definition run_precompile_nested (to : string) (data : list byte) (gas_budget : Z) : Z * Z * list byte :=
  match dispatch_precompile to data with
  | Ok out => if gas_budget <? po_gas_used out then (STATUS_FAILED, gas_budget, [])
              else (STATUS_OK, po_gas_used out, po_output out)
  | Err (PrecompileNotImplemented _ gas_used) => (STATUS_REVERTED, Z.min gas_used gas_budget, [])
  | Err (InvalidInput _) => (STATUS_REVERTED, gas_budget, [])
  | Panic => (STATUS_FAILED, gas_budget, [])
  end.

(** A call frame: code, context, call stack, entry. *)
Definition Frame : Type := list byte → ExecutionContext → list string → FrameEntry → result WasmiError FrameOutcome.

(** The callee: a refused value, a precompile, a contract, or a plain account. *)
Definition run_child (frame : Frame) (code : gmap string (list byte)) (kind : CallKind) (to : string)
    (value fuel : Z) (data : list byte) (stack : list string) (ctx : ExecutionContext)
    (accounts : option (gmap string Account)) : result WasmError ChildOutcome :=
  match accounts with
  | None => Ok (child_plain STATUS_FAILED fuel [] None)
  | Some accounts =>
    if bool_decide (kind ≠ KCall) && (0 <? value) then Ok (child_plain STATUS_FAILED fuel [] None)
    else if is_precompile_address to then
      let '(status, gas_used, return_data) := run_precompile_nested to data fuel in
      Ok (child_plain status gas_used return_data (if status =? STATUS_OK then Some accounts else None))
    else match code !! to with
    | None => Ok (child_plain STATUS_OK 0 [] (Some accounts))
    | Some wasm =>
      match frame wasm (with_accounts ctx accounts) stack EntrySelector with
      | Ok out => Ok {|
          ch_status := match ex_status (fo_result out) with
                       | StSuccess => STATUS_OK | StReverted => STATUS_REVERTED
                       | StOutOfGas | StFailed => STATUS_FAILED end;
          ch_gas_used := ex_gas_used (fo_result out); ch_return_data := fo_return_data out;
          ch_overlay := Some (fo_storage_overlay out); ch_accounts := Some (fo_accounts out);
          ch_logs := fo_logs out; ch_transfers := ex_value_transfers (fo_result out) |}
      | Err (NoCode _) => Ok (child_plain STATUS_OK 0 [] (Some accounts))
      | Err (CoreVm ReentrancyDetected) => Err (VmHostError ReentrancyDetected)
      | Err (CoreVm MaxCallDepth) => Err (VmHostError MaxCallDepth)
      | Err _ => Ok (child_plain STATUS_FAILED fuel [] None)
      | Panic => Panic
      end
    end
  end.

(** Gas, and on success the child's overlay, accounts, logs and transfers. *)
Definition merge_child (st : Store) (kind : CallKind) (sender to : string) (value : Z) (ch : ChildOutcome) : Store :=
  let d := st_data st in
  let ctx := hs_ctx d in
  let d :=
    if ch_status ch =? STATUS_OK then
      let own := if bool_decide (kind = KCall) && (0 <? value)
                 then [{| vt_from := sender; vt_to := to; vt_amount := value |}] else [] in
      set_host d (default (cx_storage_overlay ctx) (ch_overlay ch)) (default (cx_accounts ctx) (ch_accounts ch))
        (ch_return_data ch) (hs_logs d ++ ch_logs ch) (hs_value_transfers d ++ own ++ ch_transfers ch)
    else set_host d (cx_storage_overlay ctx) (cx_accounts ctx) (ch_return_data ch) (hs_logs d) (hs_value_transfers d) in
  {| st_fuel := saturating_sub64 (st_fuel st) (ch_gas_used ch); st_memory := st_memory st; st_data := d |}.

Definition nested_call (frame : Frame) (st : Store) (kind : CallKind)
    (to_ptr to_len value data_ptr data_len out_ptr out_len : Z) : result WasmError (Z * Store) :=
  st ← charge_host_call st (base_weight kind);
  to_ptr ← checked_u32 to_ptr "to_ptr";
  to_len ← checked_u32 to_len "to_len";
  data_ptr ← checked_u32 data_ptr "data_ptr";
  data_len ← checked_u32 data_len "data_len";
  out_ptr ← checked_u32 out_ptr "out_ptr";
  out_len ← checked_u32 out_len "out_len";
  if MAX_TARGET_LEN <? to_len then Err (WasmMessage "call: target address too long") else
  if value <? 0 then Err (WasmMessage "call: negative value") else
  to_bytes ← mem_read_bytes st to_ptr to_len;
  to ← ok_or (from_utf8 to_bytes) (WasmMessage "call: target address is not UTF-8");
  data ← mem_read_bytes st data_ptr data_len;
  is_reentrant ← call_gates (st_data st) to data;
  let d := st_data st in
  let fuel := st_fuel st in
  let child := child_context (hs_ctx d) kind to value fuel data is_reentrant in
  let sender := cx_storage_address (hs_ctx d) in
  let accounts := if bool_decide (kind = KCall) && (0 <? value)
                  then transfer_value (cx_accounts child) sender to value else Some (cx_accounts child) in
  ch ← run_child frame (hs_code d) kind to value fuel data (hs_call_stack d ++ [to]) child accounts;
  let st := merge_child st kind sender to value ch in
  let n := Nat.min (length (ch_return_data ch)) (Z.to_nat out_len) in
  st ← (if (0 <? n)%nat then mem_write_bytes st out_ptr (take n (ch_return_data ch)) else Ok st);
  Ok (ch_status ch, st).

(** host/calls/call.rs, delegatecall.rs, staticcall.rs. *)
Definition call (frame : Frame) (st : Store) (to_ptr to_len value data_ptr data_len out_ptr out_len : Z)
    : result WasmError (Z * Store) :=
  nested_call frame st KCall to_ptr to_len value data_ptr data_len out_ptr out_len.

Definition delegatecall (frame : Frame) (st : Store) (to_ptr to_len data_ptr data_len out_ptr out_len : Z)
    : result WasmError (Z * Store) :=
  nested_call frame st KDelegateCall to_ptr to_len 0 data_ptr data_len out_ptr out_len.

Definition staticcall (frame : Frame) (st : Store) (to_ptr to_len data_ptr data_len out_ptr out_len : Z)
    : result WasmError (Z * Store) :=
  nested_call frame st KStaticCall to_ptr to_len 0 data_ptr data_len out_ptr out_len.

(** The registered imports (host/mod.rs: [register]). *)
Definition host_call (frame : Frame) (st : Store) (c : HostCall) : result WasmError (Z * Store) :=
  match c with
  | HCall tp tl v dp dl op ol => call frame st tp tl v dp dl op ol
  | HDelegateCall tp tl dp dl op ol => delegatecall frame st tp tl dp dl op ol
  | HStaticCall tp tl dp dl op ol => staticcall frame st tp tl dp dl op ol
  | HStorageRead kp op ol => storage_read st kp op ol
  | HStorageWrite kp vp vl => storage_write st kp vp vl
  | HBlockContext op ol => block_context st op ol
  | HGasLeft => gas_left st
  | HInputRead op ol => input_read st op ol
  | HEmitLog tp tc dp dl => emit_log st tp tc dp dl
  | HBlake3 ip il op => blake3_hash st ip il op
  | HKeccak ip il op => keccak_hash st ip il op
  | HSha256 ip il op => sha256_hash st ip il op
  | HSecp256k1Verify pp hp sp => secp256k1_verify st pp hp sp
  | HBlsVerify => bls_verify st
  end.

(** A guest with its host calls.  The bound is on the number of host calls; every one
    that succeeds has charged gas, so one more than the fuel is never reached. *)
Fixpoint run_guest (frame : Frame) (n : nat) (st : Store) (g : Guest) : result WasmError (option Z * Store) :=
  match n with
  | O => Panic
  | S n =>
      let '(fuel, mem, stop) := guest_run g (st_fuel st) (st_memory st) in
      let st := with_memory (with_fuel st fuel) mem in
      match stop with
      | Returned v => Ok (v, st)
      | Trapped e => Err e
      | HostCalled c k => r ← host_call frame st c; run_guest frame n r.2 (k r.1)
      end
  end.

Definition call_guest (frame : Frame) (st : Store) (g : Guest) : result WasmError (option Z * Store) :=
  run_guest frame (S (Z.to_nat (st_fuel st))) st g.

(** ** Call frames (lib.rs) *)

Definition MAIN_EXPORT : string := "main".
Definition CONSTRUCTOR_EXPORT : string := "constructor".
Definition WASM_PAGE_BYTES : Z := 65536.

Definition resolve_dispatch_entry (abis : gmap string ContractAbi) (ctx : ExecutionContext) : option string :=
  selector ← selector_of (cx_input ctx);
  abi ← abis !! cx_callee ctx;
  entry ← entry_by_selector abi selector;
  Some (en_name entry).

(** [i32::try_from(usize)]. *)
Definition to_i32 (z : Z) : result WasmiError Z := if z <? 2 ^ 31 then Ok z else Err (CoreVm OutOfMemory).

Definition stage_calldata (inst : WasmInstance) (st : Store) : result WasmiError (Z * Z * Store) :=
  let data := cx_input (hs_ctx (st_data st)) in
  let data_len := Z.of_nat (length data) in
  if data_len =? 0 then Ok (0, 0, st) else
  memory ← ok_or (st_memory st) (EngineError "host ABI: module does not export `memory`");
  let old_size := Z.of_nat (length memory) in
  new_size ← ok_or (checked_add64 old_size data_len) (CoreVm OutOfMemory);
  let old_pages := div_ceil old_size WASM_PAGE_BYTES in
  let new_pages := div_ceil new_size WASM_PAGE_BYTES in
  memory ← (if old_pages <? new_pages
            then ok_or (memory_grow inst memory (new_pages - old_pages)) (CoreVm OutOfMemory) else Ok memory);
  memory ← (if new_size <=? Z.of_nat (length memory) then Ok (copy_at (Z.to_nat old_size) data memory)
            else Err (EngineError "calldata staging: out of bounds memory access"));
  ptr ← to_i32 old_size;
  len ← to_i32 data_len;
  Ok (ptr, len, with_memory st (Some memory)).

(** [f.call(&mut store, args).map_err(WasmiError::from)]. *)
Definition call_export (frame : Frame) (inst : WasmInstance) (st : Store) (name : string) (args : list Z)
    : result WasmiError (option Z * Store) :=
  map_err from_wasm (call_guest frame st (invoke_func inst name args)).

(** [value.to_le_bytes().to_vec()] of an [i32] result. *)
Definition i32_result (r : option Z * Store) : list byte * Store := (to_le_bytes 4 (default 0 r.1), r.2).

Definition invoke_export (frame : Frame) (inst : WasmInstance) (st : Store) (name : string) (with_calldata : bool)
    : result WasmiError (list byte * Store) :=
  let mismatch := Err (TypeMismatch ("export `" +:+ name +:+ "` has no supported signature")) in
  match get_func inst name with
  | None => Err (MissingExport name)
  | Some SigArgsI32 =>
      if with_calldata then
        '(ptr, len, st) ← stage_calldata inst st;
        i32_result <$> call_export frame inst st name [ptr; len]
      else mismatch
  | Some SigArgs =>
      if with_calldata then
        '(ptr, len, st) ← stage_calldata inst st;
        (λ r, ([], r.2)) <$> call_export frame inst st name [ptr; len]
      else mismatch
  | Some SigI32 => i32_result <$> call_export frame inst st name []
  | Some SigUnit => (λ r, ([], r.2)) <$> call_export frame inst st name []
  | Some SigOther => mismatch
  end.

(** A frame that ran no code. *)
Definition idle_outcome (status : TxStatus) (gas_used : Z) (accounts : gmap string Account) : FrameOutcome := {|
  fo_result := {| ex_gas_used := gas_used; ex_logs := []; ex_status := status; ex_return_data := [];
                  ex_storage_overlay := ∅; ex_value_transfers := [] |};
  fo_storage_overlay := ∅; fo_accounts := accounts; fo_logs := []; fo_return_data := [] |}.

Definition finished_outcome (gas_limit : Z) (st : Store) (return_data : list byte) : FrameOutcome :=
  let d := st_data st in {|
  fo_result := {| ex_gas_used := saturating_sub64 gas_limit (st_fuel st); ex_logs := hs_logs d;
                  ex_status := StSuccess; ex_return_data := return_data;
                  ex_storage_overlay := cx_storage_overlay (hs_ctx d);
                  ex_value_transfers := hs_value_transfers d |};
  fo_storage_overlay := cx_storage_overlay (hs_ctx d); fo_accounts := cx_accounts (hs_ctx d);
  fo_logs := hs_logs d; fo_return_data := return_data |}.

(** The entry transfer of a top-level call: the accounts the code sees and the seeded
    trail; [None] when the caller cannot pay. *)
Definition settle_entry (ctx : ExecutionContext) (entry : FrameEntry)
    : option (gmap string Account * list ValueTransfer) :=
  if bool_decide (entry = EntrySelector) && (cx_depth ctx =? 0) && (0 <? cx_value ctx) then
    accounts ← transfer_value (cx_accounts ctx) (cx_caller ctx) (cx_callee ctx) (cx_value ctx);
    Some (accounts, [{| vt_from := cx_caller ctx; vt_to := cx_callee ctx; vt_amount := cx_value ctx |}])
  else Some (cx_accounts ctx, []).

(** The part of a frame after settlement. *)
Definition run_module (frame : Frame) (wasm : list byte) (ctx : ExecutionContext) (seeded : list ValueTransfer)
    (code : gmap string (list byte)) (abis : gmap string ContractAbi) (call_stack : list string)
    (entry : FrameEntry) (dispatch_entry : option string) : result WasmiError FrameOutcome :=
  match module_new wasm with
  | inr e => Err (EngineError ("module decode: " +:+ e))
  | inl module =>
    if bool_decide (entry = EntryConstructor) && negb (module_exports_func module CONSTRUCTOR_EXPORT)
    then Ok (idle_outcome StSuccess 0 (cx_accounts ctx))
    else match instantiate module with
    | inr e => Err (InstantiateError e)
    | inl (inst, memory) =>
      let d := host_state_new ctx code abis call_stack in
      let st := {| st_fuel := cx_gas_limit ctx; st_memory := memory;
                   st_data := set_host d (cx_storage_overlay ctx) (cx_accounts ctx) [] [] seeded |} in
      '(_, st) ← map_err (λ e, InstantiateError (error_text e)) (call_guest frame st (start_function inst));
      '(return_data, st) ← match entry with
                           | EntrySelector =>
                               match dispatch_entry with
                               | Some name => invoke_export frame inst st name true
                               | None => invoke_export frame inst st MAIN_EXPORT false
                               end
                           | EntryConstructor => invoke_export frame inst st CONSTRUCTOR_EXPORT true
                           end;
      Ok (finished_outcome (cx_gas_limit ctx) st return_data)
    end
  end.

(** One frame, nested frames through [frame]. *)
Definition frame_body (code : gmap string (list byte)) (abis : gmap string ContractAbi) (frame : Frame) : Frame :=
  λ wasm ctx call_stack entry,
  let dispatch_entry := match entry with
                        | EntrySelector => resolve_dispatch_entry abis ctx
                        | EntryConstructor => None
                        end in
  match settle_entry ctx entry with
  | None => Ok (idle_outcome StFailed (cx_gas_limit ctx) (cx_accounts ctx))
  | Some (accounts, seeded) =>
      run_module frame wasm (with_accounts ctx accounts) seeded code abis call_stack entry dispatch_entry
  end.

(** The bound is on the nesting, which the depth gate keeps below [MAX_CALL_DEPTH]. *)
Fixpoint run_frame (n : nat) (code : gmap string (list byte)) (abis : gmap string ContractAbi) : Frame :=
  match n with
  | O => λ _ _ _ _, Panic
  | S n => frame_body code abis (run_frame n code abis)
  end.

(** ** The executor *)

Record WasmiExecutor := { we_code : gmap string (list byte); we_abis : gmap string ContractAbi }.

Definition wasmi_new : WasmiExecutor := {| we_code := ∅; we_abis := ∅ |}.

Definition wasmi_insert_code (ex : WasmiExecutor) (address : string) (wasm : list byte) : WasmiExecutor :=
  {| we_code := <[address := wasm]> (we_code ex); we_abis := we_abis ex |}.

Definition insert_abi (ex : WasmiExecutor) (address : string) (abi : ContractAbi) : WasmiExecutor :=
  {| we_code := we_code ex; we_abis := <[address := abi]> (we_abis ex) |}.

Definition MAX_FRAMES : nat := Z.to_nat (MAX_CALL_DEPTH + 1).

(** The outermost frame. *)
Definition top_frame (ex : WasmiExecutor) (wasm : list byte) (ctx : ExecutionContext) (entry : FrameEntry)
    : result WasmiError ExecutionResult :=
  fo_result <$> run_frame MAX_FRAMES (we_code ex) (we_abis ex) wasm ctx [cx_callee ctx] entry.

Definition execute_wasm (ex : WasmiExecutor) (wasm : list byte) (ctx : ExecutionContext)
    : result WasmiError ExecutionResult :=
  top_frame ex wasm ctx EntrySelector.

Definition entry_transfer (ctx : ExecutionContext) : list ValueTransfer :=
  if 0 <? cx_value ctx
  then [{| vt_from := cx_caller ctx; vt_to := cx_callee ctx; vt_amount := cx_value ctx |}] else [].

Definition precompile_result (gas_used : Z) (status : TxStatus) (return_data : list byte)
    (transfers : list ValueTransfer) : ExecutionResult := {|
  ex_gas_used := gas_used; ex_logs := []; ex_status := status; ex_return_data := return_data;
  ex_storage_overlay := ∅; ex_value_transfers := transfers |}.

Definition execute_precompile (ctx : ExecutionContext) : result WasmiError ExecutionResult :=
  match dispatch_precompile (cx_callee ctx) (cx_input ctx) with
  | Ok out =>
      if cx_gas_limit ctx <? po_gas_used out then Err OutOfFuel
      else Ok (precompile_result (po_gas_used out) StSuccess (po_output out) (entry_transfer ctx))
  | Err (PrecompileNotImplemented _ gas_used) =>
      if cx_gas_limit ctx <? gas_used then Err OutOfFuel
      else Ok (precompile_result gas_used StReverted [] [])
  | Err (InvalidInput _) => Ok (precompile_result (cx_gas_limit ctx) StReverted [] [])
  | Panic => Panic
  end.

Definition wasmi_execute (ex : WasmiExecutor) (ctx : ExecutionContext) : result WasmiError ExecutionResult :=
  if is_precompile_address (cx_callee ctx) then execute_precompile ctx else
  wasm ← ok_or (we_code ex !! cx_callee ctx) (NoCode (cx_callee ctx));
  top_frame ex wasm ctx EntrySelector.

Definition wasmi_execute_constructor (ex : WasmiExecutor) (ctx : ExecutionContext) : result WasmiError ExecutionResult :=
  wasm ← ok_or (we_code ex !! cx_callee ctx) (NoCode (cx_callee ctx));
  top_frame ex wasm ctx EntryConstructor.

Definition wasmi_register_code (ex : WasmiExecutor) (address : string) (wasm : list byte)
    : result VmError WasmiExecutor :=
  match module_new wasm with
  | inr e => Err (HostFunctionError "register_code" ("invalid wasm for `" +:+ address +:+ "`: " +:+ e))
  | inl _ => Ok (wasmi_insert_code ex address wasm)
  end.

(** Metering categories and their prices. *)
Inductive Opcode := OpInstruction | OpHostCall | OpMemoryGrow | OpOther.

Definition gas_cost (opcode : Opcode) : Z :=
  match opcode with OpInstruction => 1 | OpHostCall => 1 | OpMemoryGrow => 3 | OpOther => 1 end.

(** [impl VmExecutor for WasmiExecutor]. *)
Definition wasmi_executor : VmExecutor WasmiExecutor := {|
  execute ex ctx := map_err to_vm_error (wasmi_execute ex ctx);
  execute_constructor ex ctx := map_err to_vm_error (wasmi_execute_constructor ex ctx);
  register_code := wasmi_register_code
|}.

(** What block execution instantiates. *)
Definition wasmi_runtime : VmRuntime WasmiExecutor := {|
  vm_executor := wasmi_executor;
  vm_new := wasmi_new;
  insert_code := wasmi_insert_code
|}.

End Vm.
