(* ===== verification/VmProps.v ===== *)
(** * Properties of the contract executor

    Every host call either leaves the host state alone or has one of three effects: a
    staged storage write, a log, or the merge of a nested call.  Invariants of frames are
    proved once per effect and lifted through guests and nested frames. *)

From S2P Require Import Prelude Bytes U256 Abi AbiCodec Types Address State StateViews StateStorage StateProps Node Executor MiningProps Noise Precompiles PrecompileProps Vm.
Open Scope Z_scope.

Section VmProps.
Context `{B3 : Blake3, SK : Secp256k1, ED : Ed25519, DG : Digests, EV : !EcdsaVerify, WA : Wasmi}.

(** ** Effects of host calls *)

(** The accounts a nested call starts from: [None] when the value cannot be paid. *)
Definition child_accounts (d : HostState) (kind : CallKind) (to : string) (value : Z) : option (gmap string Account) :=
  if bool_decide (kind = KCall) && (0 <? value)
  then transfer_value (cx_accounts (hs_ctx d)) (cx_storage_address (hs_ctx d)) to value
  else Some (cx_accounts (hs_ctx d)).

Inductive effect (frame : Frame) (d : HostState) : HostState → Prop :=
  | eff_none : effect frame d d
  | eff_write key value :
      let ctx := hs_ctx d in
      let a := cx_storage_address ctx in
      let overlay := default ∅ (cx_storage_overlay ctx !! a) in
      cx_read_only ctx = false →
      from_option value_bytes 0 (cx_storage ctx !! a)
        + (value_bytes overlay - from_option (λ v, Z.of_nat (length v)) 0 (overlay !! key))
        + Z.of_nat (length value) ≤ MAX_STORAGE_PER_CONTRACT →
      effect frame d (set_host d (<[a := <[key := value]> overlay]> (cx_storage_overlay ctx)) (cx_accounts ctx)
                        (hs_last_return_data d) (hs_logs d) (hs_value_transfers d))
  | eff_log log :
      cx_read_only (hs_ctx d) = false → log_address log = cx_callee (hs_ctx d) →
      effect frame d (set_host d (cx_storage_overlay (hs_ctx d)) (cx_accounts (hs_ctx d))
                        (hs_last_return_data d) (hs_logs d ++ [log]) (hs_value_transfers d))
  | eff_call kind to value fuel mem data reentrant ch :
      0 ≤ value → 0 ≤ fuel → (kind ≠ KCall → value = 0) →
      call_gates d to data = Ok reentrant →
      run_child frame (hs_code d) kind to value fuel data (hs_call_stack d ++ [to])
        (child_context (hs_ctx d) kind to value fuel data reentrant) (child_accounts d kind to value) = Ok ch →
      effect frame d (st_data (merge_child {| st_fuel := fuel; st_memory := mem; st_data := d |}
                                 kind (cx_storage_address (hs_ctx d)) to value ch)).

(** Gas reported by frames is not negative. *)
Definition gas_nonneg (frame : Frame) : Prop := ∀ wasm ctx stack e out,
  0 ≤ cx_gas_limit ctx → frame wasm ctx stack e = Ok out → 0 ≤ ex_gas_used (fo_result out).

(** A host call that comes back has paid for it and touched only what its effect says. *)
Definition host_ok (frame : Frame) (st st' : Store) : Prop :=
  0 ≤ st_fuel st' ≤ st_fuel st - 3 ∧ effect frame (st_data st) (st_data st').

Lemma charge_ok st w st' : 0 ≤ st_fuel st → 3 ≤ weight_gas w → charge_host_call st w = Ok st' →
  0 ≤ st_fuel st' ≤ st_fuel st - 3 ∧ st_data st' = st_data st ∧ st_memory st' = st_memory st.
Proof.
  intros H0 H3 H. unfold charge_host_call in H. destruct (Z.ltb_spec (st_fuel st) (weight_gas w)); [done|].
  apply ok_inj in H as <-. cbn. split; [lia|done].
Qed.

(** Steps through the binds, guards and matches of a successful host function. *)
Ltac host_steps H :=
  repeat (cbn zeta beta in H; lazymatch type of H with
  | mbind _ _ = Ok _ => let x := fresh "x" in let E := fresh "E" in apply bind_ok_inv in H as (x & E & H)
  | (let '(_, _) := ?p in _) = Ok _ => let E := fresh "Ep" in destruct p eqn:E
  | Err _ = Ok _ => discriminate H
  | Panic = Ok _ => discriminate H
  | (if ?b then _ else _) = Ok _ => let E := fresh "Eb" in destruct b eqn:E
  | match ?o with _ => _ end = Ok _ => let E := fresh "Eo" in destruct o eqn:E
  | Ok _ = Ok _ => injection H as ? ?; subst
  end).

Lemma write_bytes_ok st ptr data st' : mem_write_bytes st ptr data = Ok st' →
  st_fuel st' = st_fuel st ∧ st_data st' = st_data st.
Proof. unfold mem_write_bytes. intros H. host_steps H. apply ok_inj in H as <-. done. Qed.

(** A charge followed by steps that only write memory. *)
Ltac quiet H :=
  host_steps H;
  repeat match goal with
  | E : charge_host_call _ _ = Ok _ |- _ => apply charge_ok in E as (? & ? & _); [|done|first [done|apply weight_gas_pos; cbn; lia]]
  | E : mem_write_bytes _ _ _ = Ok _ |- _ => apply write_bytes_ok in E as (? & ?)
  end;
  (split; [lia|]); repeat match goal with E : st_data _ = _ |- _ => rewrite E end; apply eff_none.

Lemma storage_read_ok frame st a b c v st' : 0 ≤ st_fuel st → storage_read st a b c = Ok (v, st') → host_ok frame st st'.
Proof. intros H0 H. unfold storage_read in H. quiet H. Qed.

Lemma block_context_ok frame st a b v st' : 0 ≤ st_fuel st → block_context st a b = Ok (v, st') → host_ok frame st st'.
Proof. intros H0 H. unfold block_context in H. quiet H. Qed.

Lemma gas_left_ok frame st v st' : 0 ≤ st_fuel st → gas_left st = Ok (v, st') → host_ok frame st st'.
Proof. intros H0 H. unfold gas_left in H. quiet H. Qed.

Lemma input_read_ok frame st a b v st' : 0 ≤ st_fuel st → input_read st a b = Ok (v, st') → host_ok frame st st'.
Proof. intros H0 H. unfold input_read in H. quiet H. Qed.

Lemma secp256k1_verify_ok frame st a b c v st' :
  0 ≤ st_fuel st → secp256k1_verify st a b c = Ok (v, st') → host_ok frame st st'.
Proof. intros H0 H. unfold secp256k1_verify in H. quiet H. Qed.

Lemma hash_host_ok frame st w f a b c v st' :
  0 ≤ st_fuel st → 3 ≤ weight_gas w → hash_host st w f a b c = Ok (v, st') → host_ok frame st st'.
Proof. intros H0 Hw H. unfold hash_host in H. quiet H. Qed.

Lemma checked_u32_ok v what x : checked_u32 v what = Ok x → x = v ∧ 0 ≤ v.
Proof. unfold checked_u32. destruct (Z.ltb_spec v 0); [done|]. intros [= ->]. done. Qed.

Lemma storage_write_ok frame st a b c v st' :
  0 ≤ st_fuel st → storage_write st a b c = Ok (v, st') → host_ok frame st st'.
Proof.
  intros H0 H. unfold storage_write in H. host_steps H.
  apply charge_ok in E as (Hf & Hd & _); [|done|done].
  split; [cbn; lia|]. cbn [st_data with_data]. rewrite Hd in *.
  apply eff_write; [done|]. apply Z.ltb_ge in Eb0.
  unfold saturating_add64, saturating_sub64, MAX_STORAGE_PER_CONTRACT in *. lia.
Qed.

Lemma emit_log_ok frame st a b c d v st' :
  0 ≤ st_fuel st → emit_log st a b c d = Ok (v, st') → host_ok frame st st'.
Proof.
  intros H0 H. unfold emit_log in H. host_steps H.
  apply checked_u32_ok in E as [-> Hx]. apply Z.ltb_ge in Eb. unfold MAX_TOPICS in Eb.
  apply charge_ok in E0 as (Hf & Hd & _); [|done|apply weight_gas_pos; cbn; lia].
  split; [cbn; lia|]. cbn [st_data with_data]. rewrite Hd in *. by apply eff_log.
Qed.

(** ** Nested calls *)

Lemma read_len_shape header field :
  (∃ n, read_len header field = Ok n ∧ 0 ≤ n) ∨ ∃ msg, read_len header field = Err (InvalidInput msg).
Proof. unfold read_len. destruct (existsb _ _); [right; eauto|left]. eexists. split; [done|]. apply from_be_bytes_range. Qed.

(** Gas charged by precompiles is a [u64]. *)
Lemma dispatch_gas to data :
  match dispatch_precompile to data with
  | Ok out => 0 ≤ po_gas_used out
  | Err (PrecompileNotImplemented _ g) => 0 ≤ g
  | Err (InvalidInput _) => True
  | Panic => False
  end.
Proof.
  pose proof (λ w, proj1 (weight_gas_u64 w)) as Hw.
  unfold dispatch_precompile. repeat case_decide.
  - unfold ecrecover_run. destruct (negb _); [done|]. destruct (_ || _); [|done]. exact (Hw WSecp256k1Verify).
  - exact (Hw (WSha256 _)).
  - exact (Hw (WKeccak _)).
  - exact (Hw (WBlake3 _)).
  - unfold ed25519_verify_run. by destruct (_ <? _)%nat.
  - done.
  - unfold modexp_run. destruct (_ <? _); [done|].
    destruct (read_len_shape (byte_range data 0 32) "base_len") as [(l0 & -> & _)|[m ->]]; cbn [mbind result_bind]; [|done].
    destruct (read_len_shape (byte_range data 32 64) "exp_len") as [(l1 & -> & _)|[m ->]]; cbn [mbind result_bind]; [|done].
    destruct (read_len_shape (byte_range data 64 96) "mod_len") as [(l2 & -> & Hl2)|[m ->]]; cbn [mbind result_bind]; [|done].
    destruct (ok_or _ _) as [body|e|] eqn:E; cbn [mbind result_bind].
    2: { unfold ok_or in E. case_match; by simplify_eq. }
    2: { unfold ok_or in E. by case_match. }
    destruct (_ <? _); [done|].
    assert (0 ≤ modexp_gas l2) by (rewrite modexp_gas_spec by done; lia). by destruct (_ =? 0).
  - done.
Qed.

Lemma precompile_nested_gas to data fuel status gas rd : 0 ≤ fuel →
  run_precompile_nested to data fuel = (status, gas, rd) → 0 ≤ gas ≤ fuel.
Proof.
  intros H0. unfold run_precompile_nested. pose proof (dispatch_gas to data) as Hg.
  destruct (dispatch_precompile to data) as [out|[msg|feature g]|].
  - destruct (Z.ltb_spec fuel (po_gas_used out)); intros [= <- <- <-]; lia.
  - intros [= <- <- <-]. lia.
  - intros [= <- <- <-]. lia.
  - intros [= <- <- <-]. lia.
Qed.

Lemma run_child_gas frame code kind to value fuel data stack ctx accounts ch :
  gas_nonneg frame → 0 ≤ fuel → cx_gas_limit ctx = fuel →
  run_child frame code kind to value fuel data stack ctx accounts = Ok ch → 0 ≤ ch_gas_used ch.
Proof.
  intros Hf H0 Hctx H. unfold run_child in H.
  destruct accounts as [accounts|]; [|injection H as <-; cbn; lia].
  destruct (_ && _); [injection H as <-; cbn; lia|].
  destruct (is_precompile_address to).
  { destruct (run_precompile_nested to data fuel) as [[status gas] rd] eqn:E.
    apply ok_inj in H as <-. cbn. exact (proj1 (precompile_nested_gas _ _ _ _ _ _ H0 E)). }
  destruct (code !! to) as [wasm|]; [|injection H as <-; cbn; lia].
  destruct (frame _ _ _ _) as [out|[]|] eqn:E; try (injection H as <-; cbn; lia); [| |done].
  - apply ok_inj in H as <-. cbn. eapply Hf; [|exact E]. cbn. lia.
  - destruct e; try (injection H as <-; cbn; lia); done.
Qed.

(** A nested call that comes back: the charge, the gates, the child, and its merge. *)
Lemma nested_call_inv frame st kind a b value c d e f v st' :
  0 ≤ st_fuel st → nested_call frame st kind a b value c d e f = Ok (v, st') →
  ∃ fuel mem to data r ch, 0 ≤ fuel ≤ st_fuel st - 3 ∧ 0 ≤ value ∧ call_gates (st_data st) to data = Ok r
    ∧ run_child frame (hs_code (st_data st)) kind to value fuel data (hs_call_stack (st_data st) ++ [to])
        (child_context (hs_ctx (st_data st)) kind to value fuel data r) (child_accounts (st_data st) kind to value) = Ok ch
    ∧ v = ch_status ch
    ∧ let m := merge_child {| st_fuel := fuel; st_memory := mem; st_data := st_data st |} kind
                 (cx_storage_address (hs_ctx (st_data st))) to value ch in
      st_fuel st' = st_fuel m ∧ st_data st' = st_data m.
Proof.
  intros H0 H. unfold nested_call in H. apply bind_ok_inv in H as (st1 & E & H).
  apply charge_ok in E as (Hc & Hd & _); [|done|by destruct kind].
  do 6 (apply bind_ok_inv in H as (?x & _ & H)). destruct (_ <? _); [done|].
  destruct (Z.ltb_spec value 0) as [|Hv]; [done|].
  apply bind_ok_inv in H as (tb & _ & H). apply bind_ok_inv in H as (to & _ & H).
  apply bind_ok_inv in H as (data & _ & H). apply bind_ok_inv in H as (r & Hg & H).
  cbn zeta in H. apply bind_ok_inv in H as (ch & Hch & H). apply bind_ok_inv in H as (st2 & Hw & H).
  injection H as <- <-. destruct st1 as [f1 m1 d1]. cbn [st_data st_fuel] in *. subst d1.
  exists f1, m1, to, data, r, ch. split_and!; [lia..|done|exact Hch|done| |];
    (destruct (0 <? _)%nat; [by apply write_bytes_ok in Hw as [? ?]|by apply ok_inj in Hw as <-]).
Qed.

Lemma nested_call_ok frame st kind a b value c d e f v st' :
  gas_nonneg frame → 0 ≤ st_fuel st → (kind ≠ KCall → value = 0) →
  nested_call frame st kind a b value c d e f = Ok (v, st') → host_ok frame st st'.
Proof.
  intros Hf H0 Hk H. apply nested_call_inv in H as (fuel & mem & to & data & r & ch & Hc & Hv & Hg & Hch & -> & Ef & Ed); [|done].
  assert (0 ≤ ch_gas_used ch) as Hgas by (by eapply run_child_gas; [exact Hf|exact (proj1 Hc)| |exact Hch]).
  unfold host_ok. rewrite Ef, Ed. split.
  - unfold merge_child, saturating_sub64. cbn [st_fuel]. lia.
  - eapply eff_call; [done|lia|done|done|exact Hch].
Qed.

Lemma host_call_ok frame st c v st' :
  gas_nonneg frame → well_typed c → 0 ≤ st_fuel st → host_call frame st c = Ok (v, st') → host_ok frame st st'.
Proof.
  intros Hf Hc H0 H. destruct c; cbn [host_call] in H; unfold call, delegatecall, staticcall in H.
  - by eapply nested_call_ok; [..|exact H].
  - by eapply nested_call_ok; [..|exact H].
  - by eapply nested_call_ok; [..|exact H].
  - by eapply storage_read_ok.
  - by eapply storage_write_ok.
  - by eapply block_context_ok.
  - by eapply gas_left_ok.
  - by eapply input_read_ok.
  - by eapply emit_log_ok.
  - apply bind_ok_inv in H as (len & [-> Hl]%checked_u32_ok & H). eapply hash_host_ok; [done| |exact H].
    apply weight_gas_pos. cbn in *. rewrite !Forall_cons in Hc. unfold is_i32 in Hc. lia.
  - apply bind_ok_inv in H as (len & [-> Hl]%checked_u32_ok & H). eapply hash_host_ok; [done| |exact H].
    apply weight_gas_pos. cbn in *. rewrite !Forall_cons in Hc. unfold is_i32 in Hc. lia.
  - apply bind_ok_inv in H as (len & [-> Hl]%checked_u32_ok & H). eapply hash_host_ok; [done| |exact H].
    apply weight_gas_pos. cbn in *. rewrite !Forall_cons in Hc. unfold is_i32 in Hc. lia.
  - by eapply secp256k1_verify_ok.
  - unfold bls_verify in H. by apply bind_ok_inv in H as (? & _ & ?).
Qed.

Lemma charge_negative st w st' : st_fuel st < 0 → charge_host_call st w ≠ Ok st'.
Proof.
  intros H. unfold charge_host_call. pose proof (weight_gas_u64 w) as [Hw _]. by destruct (Z.ltb_spec (st_fuel st) (weight_gas w)); [|lia].
Qed.

Lemma host_call_negative frame st c r : st_fuel st < 0 → host_call frame st c ≠ Ok r.
Proof.
  intros Hn H. destruct c; cbn [host_call] in H;
    unfold call, delegatecall, staticcall, nested_call, storage_read, storage_write, block_context, gas_left, input_read, emit_log, blake3_hash,
      keccak_hash, sha256_hash, secp256k1_verify, bls_verify, hash_host in H;
    repeat (lazymatch type of H with
    | mbind _ (charge_host_call _ _) = _ => apply bind_ok_inv in H as (? & ?%charge_negative & _); [done|exact Hn]
    | mbind _ _ = _ => apply bind_ok_inv in H as (? & _ & H)
    | (if ?b then _ else _) = _ => destruct b; [discriminate H|]
    end).
Qed.

(** ** Guests and frames *)

Context {WK : WasmiOk}.

(** What a run of guest code does to fuel and host state; with negative fuel no host call
    succeeds. *)
Definition ran (frame : Frame) (st st' : Store) : Prop :=
  st_fuel st' ≤ st_fuel st ∧ (0 ≤ st_fuel st → 0 ≤ st_fuel st') ∧ rtc (effect frame) (st_data st) (st_data st').

Lemma ran_trans frame st1 st2 st3 : ran frame st1 st2 → ran frame st2 st3 → ran frame st1 st3.
Proof. intros (? & ? & ?) (? & ? & ?). split; [lia|]. split; [auto|]. by etrans. Qed.

Lemma run_guest_ok frame n st g v st' :
  gas_nonneg frame → run_guest frame n st g = Ok (v, st') → ran frame st st'.
Proof.
  intros Hf. revert st g. induction n as [|n IH]; intros st g H; [done|]. cbn [run_guest] in H.
  destruct (guest_run_fuel g (st_fuel st) (st_memory st)) as [Hg Hg0].
  pose proof (guest_run_typed g (st_fuel st) (st_memory st)) as Ht.
  destruct (guest_run g (st_fuel st) (st_memory st)) as [[f1 m1] stop]. cbn [fst snd] in *.
  assert (ran frame st (with_memory (with_fuel st f1) m1)) as R1 by (split; [done|]; split; [done|reflexivity]).
  destruct stop as [r|e|c k]; [|done|].
  - injection H as <- <-. exact R1.
  - apply bind_ok_inv in H as ([r st1] & H1 & H2). cbn [fst snd] in H2. apply (ran_trans _ _ _ _ R1).
    apply (ran_trans _ _ st1); [|by eapply IH].
    destruct (decide (0 ≤ f1)) as [H0|H0]; [|by apply host_call_negative in H1; cbn; [|lia]].
    destruct (host_call_ok frame (with_memory (with_fuel st f1) m1) c r st1) as [F1 E1];
      [done|by eapply Ht|done|done|]. split; [lia|]. split; [lia|]. by apply rtc_once.
Qed.

Lemma stage_calldata_ok inst st p l st' : stage_calldata inst st = Ok (p, l, st') →
  st_fuel st' = st_fuel st ∧ st_data st' = st_data st.
Proof.
  intros H. unfold stage_calldata in H. cbn zeta in H. destruct (_ =? 0); [by injection H as _ _ <-|].
  host_steps H; done.
Qed.

Lemma invoke_export_ok frame inst st name calldata rd st' :
  gas_nonneg frame → invoke_export frame inst st name calldata = Ok (rd, st') → ran frame st st'.
Proof.
  intros Hf H.
  assert (∀ st1 args (f : option Z * Store → list byte * Store), (∀ r, (f r).2 = r.2) →
    st_fuel st1 = st_fuel st → st_data st1 = st_data st →
    f <$> call_export frame inst st1 name args = Ok (rd, st') → ran frame st st') as Hcall.
  { intros st1 args f Hsnd E1 E2 Hc. unfold call_export, call_guest in Hc.
    destruct (run_guest _ _ _ _) as [r|e|] eqn:E; cbn in Hc; [|done..]. injection Hc as Hc.
    assert (st' = r.2) as -> by (rewrite <- Hsnd, Hc; done). destruct r as [r st2].
    unfold ran. rewrite <- E1, <- E2. by eapply run_guest_ok; [|exact E]. }
  unfold invoke_export in H. destruct (get_func inst name) as [[]|]; try done.
  - destruct calldata; [|done]. apply bind_ok_inv in H as ([[p l] st1] & Hs & H).
    apply stage_calldata_ok in Hs as [? ?]. by eapply Hcall; [..|exact H].
  - destruct calldata; [|done]. apply bind_ok_inv in H as ([[p l] st1] & Hs & H).
    apply stage_calldata_ok in Hs as [? ?]. by eapply Hcall; [..|exact H].
  - by eapply Hcall; [..|exact H].
  - by eapply Hcall; [..|exact H].
Qed.

(** The host state a frame starts from. *)
Definition initial_state (code : gmap string (list byte)) (abis : gmap string ContractAbi) (ctx : ExecutionContext)
    (accounts : gmap string Account) (stack : list string) (seeded : list ValueTransfer) : HostState :=
  set_host (host_state_new (with_accounts ctx accounts) code abis stack) (cx_storage_overlay ctx) accounts [] [] seeded.

(** How a frame that comes back has run: the caller could not pay; or a deployment had no
    constructor; or its code ran, with some sequence of effects on the initial state. *)
Lemma frame_body_cases code abis frame wasm ctx stack entry out :
  gas_nonneg frame → frame_body code abis frame wasm ctx stack entry = Ok out →
  (settle_entry ctx entry = None ∧ out = idle_outcome StFailed (cx_gas_limit ctx) (cx_accounts ctx))
  ∨ ∃ accounts seeded, settle_entry ctx entry = Some (accounts, seeded)
    ∧ (entry = EntryConstructor ∧ out = idle_outcome StSuccess 0 accounts
       ∨ ∃ st rd, out = finished_outcome (cx_gas_limit ctx) st rd
         ∧ (0 ≤ cx_gas_limit ctx → 0 ≤ st_fuel st ≤ cx_gas_limit ctx)
         ∧ rtc (effect frame) (initial_state code abis ctx accounts stack seeded) (st_data st)).
Proof.
  intros Hf H. unfold frame_body in H. cbn zeta in H.
  destruct (settle_entry ctx entry) as [[accounts seeded]|] eqn:Es; [|left; by injection H as <-].
  right. exists accounts, seeded. split; [done|]. unfold run_module in H.
  destruct (module_new wasm) as [module|]; [|done].
  destruct (bool_decide (entry = EntryConstructor) && _) eqn:Ec.
  { left. injection H as <-. apply andb_true_iff in Ec as [Ec%bool_decide_eq_true _]. done. }
  right. destruct (instantiate module) as [[inst mem]|]; [|done]. cbn zeta in H.
  apply bind_ok_inv in H as ([v st1] & H1 & H).
  unfold call_guest in H1. destruct (run_guest _ _ _ _) as [[v' st1']|e|] eqn:Eg; [|done..].
  cbn in H1. injection H1 as -> ->.
  apply run_guest_ok in Eg; [|done].
  apply bind_ok_inv in H as ([rd st2] & H2 & H). injection H as <-.
  exists st2, rd. split; [done|].
  assert (ran frame st1 st2) as R2.
  { destruct entry; [destruct (resolve_dispatch_entry _ _)|]; (eapply invoke_export_ok; [done|exact H2]). }
  destruct (ran_trans _ _ _ _ Eg R2) as (F1 & F2 & R). cbn in F1, F2. split; [lia|exact R].
Qed.

(** Outcomes of frames satisfy [P] when bodies do, given it of nested frames. *)
Lemma frame_induction code abis (P : ExecutionContext → FrameEntry → FrameOutcome → Prop) :
  (∀ frame, (∀ wasm ctx stack e out, 0 ≤ cx_gas_limit ctx → frame wasm ctx stack e = Ok out → P ctx e out) →
    ∀ wasm ctx stack e out, 0 ≤ cx_gas_limit ctx → frame_body code abis frame wasm ctx stack e = Ok out → P ctx e out) →
  ∀ n wasm ctx stack e out, 0 ≤ cx_gas_limit ctx → run_frame n code abis wasm ctx stack e = Ok out → P ctx e out.
Proof. intros H n. induction n as [|n IH]; [done|]. cbn [run_frame]. by apply H. Qed.

Lemma run_frame_gas n code abis wasm ctx stack e out :
  0 ≤ cx_gas_limit ctx → run_frame n code abis wasm ctx stack e = Ok out →
  0 ≤ ex_gas_used (fo_result out) ≤ cx_gas_limit ctx.
Proof.
  revert wasm ctx stack e out.
  apply (frame_induction code abis (λ ctx _ out, 0 ≤ ex_gas_used (fo_result out) ≤ cx_gas_limit ctx)).
  intros frame Hf wasm ctx stack e out H0 H.
  assert (gas_nonneg frame) as Hg by (intros w c s k o Hc Ho; apply (Hf _ _ _ _ _ Hc Ho)).
  destruct (frame_body_cases _ _ _ _ _ _ _ _ Hg H) as [[_ ->]|(acc & sd & _ & [[_ ->]|(st & rd & -> & Hs & _)])];
    cbn; unfold saturating_sub64; lia.
Qed.

Lemma run_frame_nonneg n code abis : gas_nonneg (run_frame n code abis).
Proof. intros w c s e o Hc H. exact (proj1 (run_frame_gas _ _ _ _ _ _ _ _ Hc H)). Qed.

(** Rule for a property of outcomes: it holds of a frame whose caller cannot pay, of a
    deployment without constructor, and of every run whose nested frames have it. *)
Lemma frame_rule code abis (P : ExecutionContext → FrameEntry → FrameOutcome → Prop) :
  (∀ ctx e, P ctx e (idle_outcome StFailed (cx_gas_limit ctx) (cx_accounts ctx))) →
  (∀ ctx acc sd, settle_entry ctx EntryConstructor = Some (acc, sd) → P ctx EntryConstructor (idle_outcome StSuccess 0 acc)) →
  (∀ frame, (∀ wasm ctx stack e out, frame wasm ctx stack e = Ok out → P ctx e out) →
    ∀ ctx e acc sd stack st rd, settle_entry ctx e = Some (acc, sd) →
    rtc (effect frame) (initial_state code abis ctx acc stack sd) (st_data st) →
    P ctx e (finished_outcome (cx_gas_limit ctx) st rd)) →
  ∀ n wasm ctx stack e out, run_frame n code abis wasm ctx stack e = Ok out → P ctx e out.
Proof.
  intros H1 H2 H3 n. induction n as [|n IH]; intros wasm ctx stack e out H; [done|]. cbn [run_frame] in H.
  destruct (frame_body_cases _ _ _ _ _ _ _ _ (run_frame_nonneg n code abis) H)
    as [[_ ->]|(acc & sd & Es & [[-> ->]|(st & rd & -> & Hs & Hr)])]; [apply H1|by eapply H2|].
  by eapply (H3 _ IH).
Qed.

(** A child that is merged: it ran no code, or its frame succeeded. *)
Lemma run_child_success frame code kind to value fuel data stack ctx accounts ch :
  run_child frame code kind to value fuel data stack ctx accounts = Ok ch → ch_status ch = STATUS_OK →
  ∃ acc, accounts = Some acc
    ∧ ((∃ gas rd, ch = child_plain STATUS_OK gas rd (Some acc))
       ∨ ∃ wasm out, code !! to = Some wasm ∧ frame wasm (with_accounts ctx acc) stack EntrySelector = Ok out
           ∧ ex_status (fo_result out) = StSuccess ∧ ch_overlay ch = Some (fo_storage_overlay out)
           ∧ ch_accounts ch = Some (fo_accounts out) ∧ ch_logs ch = fo_logs out
           ∧ ch_transfers ch = ex_value_transfers (fo_result out)).
Proof.
  intros H Hs. unfold run_child in H.
  destruct accounts as [acc|]; [|by injection H as <-]. exists acc. split; [done|].
  destruct (_ && _); [by injection H as <-|]. destruct (is_precompile_address to).
  { destruct (run_precompile_nested to data fuel) as [[status gas] rd].
    injection H as <-. cbn in Hs. subst status. left. by exists gas, rd. }
  destruct (code !! to) as [wasm|]; [|injection H as <-; left; by eexists _, _].
  destruct (frame _ _ _ _) as [out|[]|] eqn:E; try (by injection H as <-); [| | |done].
  - injection H as <-. right. exists wasm, out. cbn in Hs. by destruct (ex_status (fo_result out)).
  - injection H as <-. left. by eexists _, _.
  - destruct e; try discriminate H; by injection H as <-.
Qed.

Lemma rtc_preserves {A} (R : A → A → Prop) (P : A → Prop) x y :
  (∀ u v, R u v → P u → P v) → rtc R x y → P x → P y.
Proof. intros H. induction 1; eauto. Qed.

(** ** Value: the audit trail is what happened *)

Fixpoint replay (accounts : gmap string Account) (ts : list ValueTransfer) : option (gmap string Account) :=
  match ts with
  | [] => Some accounts
  | t :: ts => accounts ← transfer_value accounts (vt_from t) (vt_to t) (vt_amount t); replay accounts ts
  end.

Lemma replay_app A ts us : replay A (ts ++ us) = (B ← replay A ts; replay B us).
Proof.
  revert A. induction ts as [|t ts IH]; intros A; cbn; [done|].
  destruct (transfer_value A _ _ _) as [B|]; cbn; [apply IH|done].
Qed.

(** A trail with amounts of type [u64] that leads from accounts [A] to [B]. *)
Definition trail (A : gmap string Account) (ts : list ValueTransfer) (B : gmap string Account) : Prop :=
  replay A ts = Some B ∧ Forall (λ t, 0 ≤ vt_amount t) ts.

Lemma trail_app A B C ts us : trail A ts B → trail B us C → trail A (ts ++ us) C.
Proof. intros [H1 F1] [H2 F2]. split; [|by apply Forall_app]. rewrite replay_app, H1. done. Qed.

Lemma settle_entry_trail ctx e acc sd : settle_entry ctx e = Some (acc, sd) → trail (cx_accounts ctx) sd acc.
Proof.
  unfold settle_entry. destruct (_ && _) eqn:E.
  - apply andb_true_iff in E as [_ E%Z.ltb_lt]. intros H. destruct (transfer_value _ _ _ _) as [A|] eqn:Et; [|done].
    injection H as <- <-. split; [cbn; by rewrite Et|]. apply Forall_singleton. cbn. lia.
  - intros [= <- <-]. done.
Qed.

Lemma child_accounts_trail d kind to value acc : 0 ≤ value → child_accounts d kind to value = Some acc →
  trail (cx_accounts (hs_ctx d))
    (if bool_decide (kind = KCall) && (0 <? value)
     then [{| vt_from := cx_storage_address (hs_ctx d); vt_to := to; vt_amount := value |}] else []) acc.
Proof.
  intros Hv. unfold child_accounts. destruct (_ && _); [|by intros [= <-]].
  intros H. split; [cbn; by rewrite H|by apply Forall_singleton].
Qed.

Lemma effect_trail frame A d d' :
  (∀ wasm ctx stack e out, frame wasm ctx stack e = Ok out →
     ex_status (fo_result out) = StSuccess →
     trail (cx_accounts ctx) (ex_value_transfers (fo_result out)) (fo_accounts out)) →
  effect frame d d' → trail A (hs_value_transfers d) (cx_accounts (hs_ctx d)) →
  trail A (hs_value_transfers d') (cx_accounts (hs_ctx d')).
Proof.
  intros Hf He HA. destruct He as [|key value ctx a overlay Hr Hc|log Hr Hl|kind to value fuel mem data r ch Hv H0 Hk Hg Hch];
    [done..|]. unfold merge_child. cbn [st_data]. destruct (Z.eqb_spec (ch_status ch) STATUS_OK) as [E|]; [|done].
  cbn [set_host hs_value_transfers hs_ctx cx_accounts].
  destruct (run_child_success _ _ _ _ _ _ _ _ _ _ _ Hch E) as (acc & Ha & [(gas & rd & ->)|(wasm & out & _ & Ho & Hs & _ & -> & _ & ->)]).
  all: apply (trail_app _ _ _ _ _ HA), (trail_app _ acc); [by apply child_accounts_trail|]; cbn [default].
  - done.
  - exact (Hf _ _ _ _ _ Ho Hs).
Qed.

Lemma run_frame_trail n code abis wasm ctx stack e out :
  run_frame n code abis wasm ctx stack e = Ok out → ex_status (fo_result out) = StSuccess →
  trail (cx_accounts ctx) (ex_value_transfers (fo_result out)) (fo_accounts out).
Proof.
  revert wasm ctx stack e out. apply (frame_rule code abis (λ ctx _ out, ex_status (fo_result out) = StSuccess →
    trail (cx_accounts ctx) (ex_value_transfers (fo_result out)) (fo_accounts out))); [done|by intros ctx acc sd [= <- <-]|].
  intros frame Hf ctx e acc sd stack st rd Hset Hrun _. cbn.
  apply (rtc_preserves _ (λ d, trail (cx_accounts ctx) (hs_value_transfers d) (cx_accounts (hs_ctx d))) _ _
    (λ u v, effect_trail frame (cx_accounts ctx) u v Hf) Hrun).
  cbn. by eapply settle_entry_trail.
Qed.

(** ** Read-only frames *)

(** The context of a frame is fixed but for its accounts and its overlay. *)
Definition same_frame (d d' : HostState) : Prop :=
  hs_ctx d' = hs_ctx (set_host d (cx_storage_overlay (hs_ctx d')) (cx_accounts (hs_ctx d')) [] [] [])
  ∧ hs_code d' = hs_code d ∧ hs_abis d' = hs_abis d ∧ hs_call_stack d' = hs_call_stack d.

Lemma effect_same_frame frame d d' : effect frame d d' → same_frame d d'.
Proof.
  destruct 1 as [|key value ctx a overlay Hr Hc|log Hr Hl|kind to value fuel mem data r ch Hv H0 Hk Hg Hch].
  2-3: done.
  - split; [|done]. destruct d as [[]]. done.
  - unfold merge_child. cbn [st_data]. by destruct (_ =? _).
Qed.

Lemma effect_read_only frame d d' :
  (∀ wasm ctx stack out, frame wasm ctx stack EntrySelector = Ok out →
     ex_status (fo_result out) = StSuccess → cx_read_only ctx = true →
     fo_storage_overlay out = cx_storage_overlay ctx ∧ fo_logs out = []) →
  effect frame d d' → cx_read_only (hs_ctx d) = true →
  cx_read_only (hs_ctx d') = true ∧ cx_storage_overlay (hs_ctx d') = cx_storage_overlay (hs_ctx d) ∧ hs_logs d' = hs_logs d.
Proof.
  intros Hf He HA. destruct He as [|key value ctx a overlay Hr Hc|log Hr Hl|kind to value fuel mem data r ch Hv H0 Hk Hg Hch];
    [done|unfold ctx in *; congruence|congruence|].
  unfold merge_child. cbn [st_data]. destruct (Z.eqb_spec (ch_status ch) STATUS_OK) as [E|]; [|done].
  cbn [set_host hs_logs hs_ctx cx_storage_overlay cx_read_only]. split; [done|].
  destruct (run_child_success _ _ _ _ _ _ _ _ _ _ _ Hch E) as (acc & Ha & [(gas & rd & ->)|(wasm & out & _ & Ho & Hs & -> & _ & -> & _)]).
  - cbn. by rewrite app_nil_r.
  - destruct (Hf _ _ _ _ Ho Hs) as [-> ->]; [cbn; by rewrite HA|]. cbn. by rewrite app_nil_r.
Qed.

Lemma run_frame_read_only n code abis wasm ctx stack out :
  run_frame n code abis wasm ctx stack EntrySelector = Ok out →
  ex_status (fo_result out) = StSuccess → cx_read_only ctx = true →
  fo_storage_overlay out = cx_storage_overlay ctx ∧ fo_logs out = [].
Proof.
  intros H.
  refine (frame_rule code abis (λ ctx e out, e = EntrySelector → ex_status (fo_result out) = StSuccess →
    cx_read_only ctx = true → fo_storage_overlay out = cx_storage_overlay ctx ∧ fo_logs out = []) _ _ _
    n wasm ctx stack EntrySelector out H eq_refl); [done..|].
  intros frame Hf ctx' e acc sd stack' st rd _ Hrun -> _ Hro. cbn.
  refine (proj2 (rtc_preserves _ (λ d, cx_read_only (hs_ctx d) = true
    ∧ cx_storage_overlay (hs_ctx d) = cx_storage_overlay ctx' ∧ hs_logs d = []) _ _ _ Hrun _)); [|done].
  intros u v Huv (Hu & E1 & E2). rewrite <- E1, <- E2. eapply effect_read_only; [|exact Huv|done].
  intros w c s o Ho. by eapply Hf.
Qed.

(** ** The storage cap *)

(** Persisted and staged bytes of every contract with staged writes are within the cap. *)
Definition within_cap (storage overlay : ContractStorageMap) : Prop := ∀ a m, overlay !! a = Some m →
  from_option value_bytes 0 (storage !! a) + value_bytes m ≤ MAX_STORAGE_PER_CONTRACT.

Lemma value_bytes_insert m k v :
  value_bytes (<[k := v]> m) = value_bytes m - from_option (λ v, Z.of_nat (length v)) 0 (m !! k) + Z.of_nat (length v).
Proof.
  unfold value_bytes. destruct (m !! k) as [w|] eqn:E; cbn [from_option].
  - rewrite <- (insert_delete_id m k w) at 2 by done.
    rewrite <- insert_delete_eq. rewrite !map_to_list_insert by apply lookup_delete_eq. cbn. lia.
  - rewrite map_to_list_insert by done. cbn. lia.
Qed.

Lemma effect_cap frame d d' :
  (∀ wasm ctx stack e out, frame wasm ctx stack e = Ok out →
     within_cap (cx_storage ctx) (cx_storage_overlay ctx) → within_cap (cx_storage ctx) (fo_storage_overlay out)) →
  effect frame d d' → within_cap (cx_storage (hs_ctx d)) (cx_storage_overlay (hs_ctx d)) →
  cx_storage (hs_ctx d') = cx_storage (hs_ctx d) ∧ within_cap (cx_storage (hs_ctx d)) (cx_storage_overlay (hs_ctx d')).
Proof.
  intros Hf He HA. destruct He as [|key value ctx a overlay Hr Hc|log Hr Hl|kind to value fuel mem data r ch Hv H0 Hk Hg Hch];
    [done| |done|].
  - split; [done|]. cbn. intros b m. destruct (decide (a = b)) as [<-|Hne].
    + rewrite lookup_insert_eq. intros [= <-]. rewrite value_bytes_insert. unfold overlay, a, ctx in *. lia.
    + rewrite lookup_insert_ne by done. apply HA.
  - unfold merge_child. cbn [st_data]. destruct (Z.eqb_spec (ch_status ch) STATUS_OK) as [E|]; [|done].
    cbn [set_host hs_ctx cx_storage cx_storage_overlay]. split; [done|].
    destruct (run_child_success _ _ _ _ _ _ _ _ _ _ _ Hch E) as (acc & Ha & [(gas & rd & ->)|(wasm & out & _ & Ho & Hs & -> & _)]);
      [done|]. exact (Hf _ _ _ _ _ Ho HA).
Qed.

Lemma run_frame_cap n code abis wasm ctx stack e out :
  run_frame n code abis wasm ctx stack e = Ok out →
  within_cap (cx_storage ctx) (cx_storage_overlay ctx) → within_cap (cx_storage ctx) (fo_storage_overlay out).
Proof.
  revert wasm ctx stack e out. apply (frame_rule code abis (λ ctx e out,
    within_cap (cx_storage ctx) (cx_storage_overlay ctx) → within_cap (cx_storage ctx) (fo_storage_overlay out))).
  - intros ctx e _ a m. cbn. by rewrite lookup_empty.
  - intros ctx acc sd _ _ a m. cbn. by rewrite lookup_empty.
  - intros frame Hf ctx e acc sd stack st rd _ Hrun Hcap. cbn.
    refine (proj2 (rtc_preserves _ (λ d, cx_storage (hs_ctx d) = cx_storage ctx
      ∧ within_cap (cx_storage ctx) (cx_storage_overlay (hs_ctx d))) _ _ _ Hrun _)); [|done].
    intros u v Huv [E Hu]. rewrite <- E in *. destruct (effect_cap frame u v Hf Huv Hu) as [-> ?]. done.
Qed.

(** ** Totality *)

Lemma bind_np {E A B} (r : result E A) (f : A → result E B) :
  r ≠ Panic → (∀ a, r = Ok a → f a ≠ Panic) → (r ≫= f) ≠ Panic.
Proof. intros H1 H2. destruct r; cbn; [by apply H2|done..]. Qed.

Lemma ok_or_np {E A} (o : option A) (e : E) : ok_or o e ≠ Panic.
Proof. by destruct o. Qed.

Lemma charge_np st w : charge_host_call st w ≠ Panic.
Proof. unfold charge_host_call. by destruct (_ <? _). Qed.

Lemma checked_u32_np v what : checked_u32 v what ≠ Panic.
Proof. unfold checked_u32. by destruct (_ <? _). Qed.

Lemma checked_range_np p l n : checked_range p l n ≠ Panic.
Proof. unfold checked_range. apply bind_np; [apply ok_or_np|]. intros a _. by destruct (_ <? _). Qed.

Lemma read_bytes_np st p l : mem_read_bytes st p l ≠ Panic.
Proof.
  unfold mem_read_bytes. apply bind_np; [apply ok_or_np|]. intros m _. apply bind_np; [apply checked_range_np|].
  by intros [] _.
Qed.

Lemma write_bytes_np st p data : mem_write_bytes st p data ≠ Panic.
Proof.
  unfold mem_write_bytes. apply bind_np; [apply ok_or_np|]. intros m _. apply bind_np; [apply checked_range_np|].
  by intros [] _.
Qed.

Lemma read_bytes_length st p l bs : 0 ≤ p → 0 ≤ l → mem_read_bytes st p l = Ok bs → Z.of_nat (length bs) = l.
Proof.
  intros Hp Hl H. unfold mem_read_bytes in H. apply bind_ok_inv in H as (m & _ & H).
  apply bind_ok_inv in H as ([a b] & Hr & H). injection H as <-. unfold checked_range in Hr.
  apply bind_ok_inv in Hr as (stop & Hs & Hr). destruct (checked_add64 p l) eqn:Ec; [|done].
  injection Hs as <-. apply checked_add64_Some in Ec as [-> _].
  destruct (Z.ltb_spec (Z.of_nat (length m)) (p + l)); [done|]. injection Hr as <- <-.
  rewrite length_range; lia.
Qed.

Lemma read_array32_np st p : 0 ≤ p → read_array32 st p ≠ Panic.
Proof.
  intros Hp. unfold read_array32. apply bind_np; [apply read_bytes_np|]. intros bs H.
  apply read_bytes_length in H; [|done|done]. by destruct (Nat.eqb_spec (length bs) 32); [|lia].
Qed.

(** Discharges the binds of a host function one by one. *)
Ltac np :=
  repeat (cbn beta zeta; match goal with
  | H : mem_write_bytes _ _ _ = Panic |- _ => destruct (write_bytes_np _ _ _ H)
  | |- Ok _ ≠ Panic => done
  | |- Err _ ≠ Panic => done
  | |- charge_host_call _ _ ≠ Panic => apply charge_np
  | |- checked_u32 _ _ ≠ Panic => apply checked_u32_np
  | |- mem_read_bytes _ _ _ ≠ Panic => apply read_bytes_np
  | |- mem_write_bytes _ _ _ ≠ Panic => apply write_bytes_np
  | |- ok_or _ _ ≠ Panic => apply ok_or_np
  | H : checked_u32 _ _ = Ok _ |- _ => apply checked_u32_ok in H as [-> ?]
  | |- read_array32 _ _ ≠ Panic => apply read_array32_np; lia
  | |- (_ ≫= _) ≠ Panic => apply bind_np; [|intros ? ?]
  | |- (if ?b then _ else _) ≠ Panic => destruct b eqn:?
  | |- match ?o with _ => _ end ≠ Panic => destruct o eqn:?
  end).

Lemma read_topics_np st p n : 0 ≤ p → read_topics st p n ≠ Panic.
Proof.
  intros Hp. unfold read_topics. generalize (seq 0 n) as l. induction l as [|i l IH]; [done|]. cbn [mapM_result].
  np. done.
Qed.

Lemma hash_host_np st w f a b c : hash_host st w f a b c ≠ Panic.
Proof.
  unfold hash_host. np.
Qed.

(** Frames at depth [D] come back. *)
Definition frame_total (frame : Frame) (D : Z) : Prop := ∀ wasm ctx stack e,
  0 ≤ cx_gas_limit ctx → cx_depth ctx = D → frame wasm ctx stack e ≠ Panic.

Lemma call_gates_depth d to data r : 0 ≤ cx_depth (hs_ctx d) → call_gates d to data = Ok r →
  cx_depth (hs_ctx d) + 1 ≤ MAX_CALL_DEPTH.
Proof.
  unfold call_gates. destruct (Z.ltb_spec MAX_CALL_DEPTH (Z.min (cx_depth (hs_ctx d) + 1) (two32 - 1))); [done|].
  intros _ _. unfold MAX_CALL_DEPTH in *. lia.
Qed.

Lemma run_child_np frame code kind to value fuel data stack ctx accounts :
  (∀ wasm acc, frame wasm (with_accounts ctx acc) stack EntrySelector ≠ Panic) →
  run_child frame code kind to value fuel data stack ctx accounts ≠ Panic.
Proof.
  intros Hf. unfold run_child. destruct accounts as [acc|]; [|done]. destruct (_ && _); [done|].
  destruct (is_precompile_address to); [by destruct (run_precompile_nested to data fuel) as [[]]|].
  destruct (code !! to) as [wasm|]; [|done]. specialize (Hf wasm acc).
  destruct (frame _ _ _ _) as [out|[]|]; try done. by destruct e.
Qed.

Lemma nested_call_np frame st kind a b value c d e f :
  (cx_depth (hs_ctx (st_data st)) + 1 ≤ MAX_CALL_DEPTH → frame_total frame (cx_depth (hs_ctx (st_data st)) + 1)) →
  0 ≤ st_fuel st → 0 ≤ cx_depth (hs_ctx (st_data st)) → nested_call frame st kind a b value c d e f ≠ Panic.
Proof.
  intros Hf H0 HD. unfold nested_call. apply bind_np; [apply charge_np|]. intros st1 Hc.
  apply charge_ok in Hc as (Hc & Hd & _); [|done|by destruct kind].
  do 6 (apply bind_np; [apply checked_u32_np|intros ? _]). destruct (_ <? _); [done|]. destruct (_ <? _); [done|].
  apply bind_np; [apply read_bytes_np|intros tb _]. apply bind_np; [apply ok_or_np|intros to _].
  apply bind_np; [apply read_bytes_np|intros data _]. apply bind_np.
  { unfold call_gates. destruct (_ <? _); [done|]. by destruct (_ && _). }
  intros r Hg. cbn zeta. rewrite Hd in *. pose proof (call_gates_depth _ _ _ _ HD Hg) as HD1. apply bind_np.
  - apply run_child_np. intros wasm acc. apply (Hf HD1); [exact (proj1 Hc)|].
    cbn. unfold MAX_CALL_DEPTH in *. lia.
  - intros ch _. apply bind_np; [|done]. destruct (0 <? _)%nat; [apply write_bytes_np|done].
Qed.

Lemma host_call_np frame st c :
  (cx_depth (hs_ctx (st_data st)) + 1 ≤ MAX_CALL_DEPTH → frame_total frame (cx_depth (hs_ctx (st_data st)) + 1)) →
  0 ≤ st_fuel st → 0 ≤ cx_depth (hs_ctx (st_data st)) → host_call frame st c ≠ Panic.
Proof.
  intros Hf H0 HD. destruct c; cbn [host_call]; unfold call, delegatecall, staticcall; try by apply nested_call_np.
  - unfold storage_read. np.
  - unfold storage_write. np.
  - unfold block_context. np.
  - unfold gas_left. np.
  - unfold input_read. np.
  - unfold emit_log. np. by apply read_topics_np.
  - unfold blake3_hash. np. apply hash_host_np.
  - unfold keccak_hash. np. apply hash_host_np.
  - unfold sha256_hash. np. apply hash_host_np.
  - unfold secp256k1_verify. np.
  - unfold bls_verify. np.
Qed.

Lemma effect_depth frame d d' : effect frame d d' → cx_depth (hs_ctx d') = cx_depth (hs_ctx d).
Proof. intros [-> _]%effect_same_frame. done. Qed.

Lemma effects_depth frame d d' : rtc (effect frame) d d' → cx_depth (hs_ctx d') = cx_depth (hs_ctx d).
Proof. induction 1 as [|x y z Hxy _ IH]; [done|]. by rewrite IH, (effect_depth _ _ _ Hxy). Qed.

(** With one step more than its fuel a guest comes back: every host call costs fuel. *)
Lemma run_guest_np frame n st g :
  gas_nonneg frame → 0 ≤ st_fuel st < Z.of_nat n → 0 ≤ cx_depth (hs_ctx (st_data st)) →
  (cx_depth (hs_ctx (st_data st)) + 1 ≤ MAX_CALL_DEPTH → frame_total frame (cx_depth (hs_ctx (st_data st)) + 1)) →
  run_guest frame n st g ≠ Panic.
Proof.
  intros Hf. revert st g. induction n as [|n IH]; intros st g H0 HD Ht; [lia|]. cbn [run_guest].
  destruct (guest_run_fuel g (st_fuel st) (st_memory st)) as [Hg Hg0]. specialize (Hg0 (proj1 H0)).
  pose proof (guest_run_typed g (st_fuel st) (st_memory st)) as Hty.
  destruct (guest_run g (st_fuel st) (st_memory st)) as [[f1 m1] stop]. cbn [fst snd] in *.
  destruct stop as [r|e|c k]; [done..|].
  apply bind_np; [apply host_call_np; [done|exact Hg0|done]|].
  intros [r st1] H1. cbn [fst snd].
  destruct (host_call_ok frame (with_memory (with_fuel st f1) m1) c r st1) as [F1 E1];
    [done|by eapply Hty|exact Hg0|done|].
  cbn in F1, E1. apply effect_depth in E1. apply IH; [lia|by rewrite E1|by rewrite E1].
Qed.

Lemma call_guest_np frame st g :
  gas_nonneg frame → 0 ≤ st_fuel st → 0 ≤ cx_depth (hs_ctx (st_data st)) →
  (cx_depth (hs_ctx (st_data st)) + 1 ≤ MAX_CALL_DEPTH → frame_total frame (cx_depth (hs_ctx (st_data st)) + 1)) →
  call_guest frame st g ≠ Panic.
Proof. intros Hf H0 HD Ht. apply run_guest_np; [done|lia|done|done]. Qed.

Lemma map_err_np {E F A} (f : E → F) (r : result E A) : r ≠ Panic → map_err f r ≠ Panic.
Proof. by destruct r. Qed.

Lemma fmap_np {E A B} (f : A → B) (r : result E A) : r ≠ Panic → f <$> r ≠ Panic.
Proof. by destruct r. Qed.

Lemma invoke_export_np frame inst st name calldata :
  gas_nonneg frame → 0 ≤ st_fuel st → 0 ≤ cx_depth (hs_ctx (st_data st)) →
  (cx_depth (hs_ctx (st_data st)) + 1 ≤ MAX_CALL_DEPTH → frame_total frame (cx_depth (hs_ctx (st_data st)) + 1)) →
  invoke_export frame inst st name calldata ≠ Panic.
Proof.
  intros Hf H0 HD Ht.
  assert (∀ st1 args, st_fuel st1 = st_fuel st → st_data st1 = st_data st → call_export frame inst st1 name args ≠ Panic) as Hc.
  { intros st1 args E1 E2. apply map_err_np, call_guest_np; rewrite ?E1, ?E2; done. }
  assert (stage_calldata inst st ≠ Panic) as Hs.
  { unfold stage_calldata, to_i32. np. }
  unfold invoke_export. destruct (get_func inst name) as [[]|]; try done; try (by apply fmap_np, Hc).
  all: destruct calldata; [|done]; apply bind_np; [done|]; intros [[p l] st1] [? ?]%stage_calldata_ok; by apply fmap_np, Hc.
Qed.

Lemma frame_body_np code abis frame wasm ctx stack entry :
  gas_nonneg frame → 0 ≤ cx_gas_limit ctx → 0 ≤ cx_depth ctx →
  (cx_depth ctx + 1 ≤ MAX_CALL_DEPTH → frame_total frame (cx_depth ctx + 1)) →
  frame_body code abis frame wasm ctx stack entry ≠ Panic.
Proof.
  intros Hf H0 HD Ht. unfold frame_body. cbn zeta. destruct (settle_entry ctx entry) as [[acc sd]|]; [|done].
  unfold run_module. destruct (module_new wasm) as [m|]; [|done]. destruct (_ && _); [done|].
  destruct (instantiate m) as [[inst mem]|]; [|done]. cbn zeta. apply bind_np.
  { by apply map_err_np, call_guest_np. }
  intros [v st1] H1. unfold call_guest in H1. destruct (run_guest _ _ _ _) as [[v' st1']|e|] eqn:Eg; [|done..].
  cbn in H1. injection H1 as -> ->. apply run_guest_ok in Eg as (_ & F1 & R1); [|done].
  specialize (F1 H0). apply effects_depth in R1. cbn in R1. apply bind_np; [|by intros [] _].
  destruct entry; [destruct (resolve_dispatch_entry _ _)|]; apply invoke_export_np; rewrite ?R1; try done; lia.
Qed.

Lemma run_frame_total n code abis D :
  0 ≤ D ≤ MAX_CALL_DEPTH → MAX_CALL_DEPTH < D + Z.of_nat n → frame_total (run_frame n code abis) D.
Proof.
  revert D. induction n as [|n IH]; intros D HD Hn wasm ctx stack e H0 Hd; [lia|]. cbn [run_frame].
  apply frame_body_np; [apply run_frame_nonneg|done|lia|]. rewrite Hd. intros Hle. apply IH; lia.
Qed.

(** ** Blindness to the block header *)

Definition blind_store (h : BlockHeader) (st : Store) : Store :=
  let d := st_data st in
  with_data st {| hs_ctx := with_header (hs_ctx d) h; hs_code := hs_code d; hs_abis := hs_abis d;
    hs_call_stack := hs_call_stack d; hs_last_return_data := hs_last_return_data d; hs_logs := hs_logs d;
    hs_value_transfers := hs_value_transfers d |}.

Definition blind_pair {A} (h : BlockHeader) (r : A * Store) : A * Store := (r.1, blind_store h r.2).

Definition frame_blind (frame : Frame) : Prop := ∀ wasm ctx h stack e,
  frame wasm (with_header ctx h) stack e = frame wasm ctx stack e.

Lemma charge_blind h st w : charge_host_call (blind_store h st) w = blind_store h <$> charge_host_call st w.
Proof. unfold charge_host_call. cbn. by destruct (_ <? _). Qed.

Lemma write_bytes_blind h st p data : mem_write_bytes (blind_store h st) p data = blind_store h <$> mem_write_bytes st p data.
Proof.
  unfold mem_write_bytes, get_memory. change (st_memory (blind_store h st)) with (st_memory st).
  destruct (ok_or (st_memory st) _) as [m| |]; cbn; [|done..]. by destruct (checked_range _ _ _) as [[]| |].
Qed.

Ltac blind :=
  repeat (cbn [mbind result_bind fmap result_fmap]; first
  [ done
  | rewrite charge_blind | rewrite write_bytes_blind
  | match goal with
    | |- context [charge_host_call ?s ?w] => destruct (charge_host_call s w)
    | |- context [checked_u32 ?s ?w] => destruct (checked_u32 s w)
    | |- context [mem_read_bytes (blind_store ?h ?s) ?p ?l] => change (mem_read_bytes (blind_store h s) p l) with (mem_read_bytes s p l)
    | |- context [read_array32 (blind_store ?h ?s) ?p] => change (read_array32 (blind_store h s) p) with (read_array32 s p)
    | |- context [read_topics (blind_store ?h ?s) ?p ?n] => change (read_topics (blind_store h s) p n) with (read_topics s p n)
    | |- context [mem_read_bytes ?s ?p ?l] => destruct (mem_read_bytes s p l)
    | |- context [read_array32 ?s ?p] => destruct (read_array32 s p)
    | |- context [read_topics ?s ?p ?n] => destruct (read_topics s p n)
    end ]); cbn [mbind result_bind fmap result_fmap].

(** The first bind on the left, by cases. *)
Ltac bind_case x :=
  match goal with
  | |- mbind _ ?r = _ => destruct r as [x| |]; cbn [mbind result_bind fmap result_fmap]; [|done|done]
  end.

Lemma hash_host_blind h st w f a b c : hash_host (blind_store h st) w f a b c = blind_pair h <$> hash_host st w f a b c.
Proof. unfold hash_host. blind. by destruct (mem_write_bytes a0 _ _). Qed.

Lemma storage_read_blind h st a b c : storage_read (blind_store h st) a b c = blind_pair h <$> storage_read st a b c.
Proof.
  unfold storage_read. blind. change (hs_ctx (st_data (blind_store h a0))) with (with_header (hs_ctx (st_data a0)) h).
  cbn [with_header cx_storage_address cx_storage_overlay cx_storage]. cbn zeta.
  match goal with |- match ?v with Some _ => _ | None => _ end = _ => destruct v end; [|done].
  destruct (Z.ltb _ _); [done|]. blind. by destruct (mem_write_bytes _ _ _).
Qed.

Lemma storage_write_blind h st a b c : storage_write (blind_store h st) a b c = blind_pair h <$> storage_write st a b c.
Proof.
  unfold storage_write. blind. cbn [blind_store st_data with_data hs_ctx with_header cx_storage_address cx_storage_overlay cx_storage cx_read_only].
  destruct (cx_read_only _); [done|]. by destruct (_ <? _).
Qed.

Lemma block_context_blind h st a b : block_context (blind_store h st) a b = blind_pair h <$> block_context st a b.
Proof.
  unfold block_context. blind. change (cx_block_context (hs_ctx (st_data (blind_store h a0)))) with (cx_block_context (hs_ctx (st_data a0))).
  destruct (_ <? _); [done|]. blind. by destruct (mem_write_bytes _ _ _).
Qed.

Lemma input_read_blind h st a b : input_read (blind_store h st) a b = blind_pair h <$> input_read st a b.
Proof.
  unfold input_read. blind. change (cx_input (hs_ctx (st_data (blind_store h a0)))) with (cx_input (hs_ctx (st_data a0))).
  destruct (_ <? _); [done|]. destruct (cx_input _); [done|]. blind. by destruct (mem_write_bytes _ _ _).
Qed.

Lemma emit_log_blind h st a b c d : emit_log (blind_store h st) a b c d = blind_pair h <$> emit_log st a b c d.
Proof.
  unfold emit_log. destruct (checked_u32 b _); cbn [mbind result_bind fmap result_fmap]; [|done..].
  destruct (_ <? _); [done|]. blind. cbn [blind_store st_data with_data hs_ctx with_header cx_read_only].
  by destruct (cx_read_only _).
Qed.

Lemma secp256k1_verify_blind h st a b c :
  secp256k1_verify (blind_store h st) a b c = blind_pair h <$> secp256k1_verify st a b c.
Proof. unfold secp256k1_verify. blind. by destruct (pk_from_slice _). Qed.

Lemma run_child_blind frame h code kind to value fuel data stack ctx accounts : frame_blind frame →
  run_child frame code kind to value fuel data stack (with_header ctx h) accounts
  = run_child frame code kind to value fuel data stack ctx accounts.
Proof.
  intros Hf. unfold run_child. destruct accounts as [acc|]; [|done].
  change (with_accounts (with_header ctx h) acc) with (with_header (with_accounts ctx acc) h).
  destruct (_ && _); [done|]. destruct (is_precompile_address to); [done|].
  destruct (code !! to) as [wasm|]; [|done]. by rewrite Hf.
Qed.

Lemma merge_child_blind h st kind sender to value ch :
  merge_child (blind_store h st) kind sender to value ch = blind_store h (merge_child st kind sender to value ch).
Proof. unfold merge_child. by destruct (_ =? _). Qed.

Lemma nested_call_blind frame h st kind a b value c d e f : frame_blind frame →
  nested_call frame (blind_store h st) kind a b value c d e f = blind_pair h <$> nested_call frame st kind a b value c d e f.
Proof.
  intros Hf. unfold nested_call. rewrite charge_blind.
  destruct (charge_host_call st _) as [st1| |]; cbn [mbind result_bind fmap result_fmap]; [|done..].
  bind_case to_ptr. bind_case to_len. bind_case data_ptr. bind_case data_len. bind_case out_ptr. bind_case out_len.
  destruct (_ <? _); [done|]. destruct (_ <? _); [done|].
  change (mem_read_bytes (blind_store h st1)) with (mem_read_bytes st1).
  bind_case tb. bind_case to. bind_case data.
  change (call_gates (st_data (blind_store h st1)) to data) with (call_gates (st_data st1) to data).
  bind_case r.
  change (child_context (hs_ctx (st_data (blind_store h st1))) kind to value (st_fuel (blind_store h st1)) data r)
    with (with_header (child_context (hs_ctx (st_data st1)) kind to value (st_fuel st1) data r) h).
  rewrite run_child_blind by done.
  change (cx_accounts (with_header ?x h)) with (cx_accounts x).
  change (cx_storage_address (hs_ctx (st_data (blind_store h st1)))) with (cx_storage_address (hs_ctx (st_data st1))).
  change (hs_code (st_data (blind_store h st1))) with (hs_code (st_data st1)).
  change (hs_call_stack (st_data (blind_store h st1))) with (hs_call_stack (st_data st1)).
  change (st_fuel (blind_store h st1)) with (st_fuel st1).
  bind_case ch.
  rewrite merge_child_blind. destruct (0 <? _)%nat; [|done]. rewrite write_bytes_blind. by destruct (mem_write_bytes _ _ _).
Qed.

Lemma host_call_blind frame h st c : frame_blind frame →
  host_call frame (blind_store h st) c = blind_pair h <$> host_call frame st c.
Proof.
  intros Hf. destruct c; cbn [host_call]; unfold call, delegatecall, staticcall; try by apply nested_call_blind.
  - apply storage_read_blind.
  - apply storage_write_blind.
  - apply block_context_blind.
  - unfold gas_left. blind.
  - apply input_read_blind.
  - apply emit_log_blind.
  - unfold blake3_hash. destruct (checked_u32 _ _); [apply hash_host_blind|done..].
  - unfold keccak_hash. destruct (checked_u32 _ _); [apply hash_host_blind|done..].
  - unfold sha256_hash. destruct (checked_u32 _ _); [apply hash_host_blind|done..].
  - apply secp256k1_verify_blind.
  - unfold bls_verify. blind.
Qed.

Lemma run_guest_blind frame h n st g : frame_blind frame →
  run_guest frame n (blind_store h st) g = blind_pair h <$> run_guest frame n st g.
Proof.
  intros Hf. revert st g. induction n as [|n IH]; intros st g; [done|]. cbn [run_guest].
  change (st_fuel (blind_store h st)) with (st_fuel st). change (st_memory (blind_store h st)) with (st_memory st).
  destruct (guest_run g (st_fuel st) (st_memory st)) as [[f1 m1] [r|e|c k]]; [done..|].
  change (with_memory (with_fuel (blind_store h st) f1) m1) with (blind_store h (with_memory (with_fuel st f1) m1)).
  rewrite host_call_blind by done.
  destruct (host_call frame _ c) as [[r st1]| |]; cbn [mbind result_bind fmap result_fmap]; [|done..].
  cbn [blind_pair fst snd]. apply IH.
Qed.

Lemma invoke_export_blind frame h inst st name calldata : frame_blind frame →
  invoke_export frame inst (blind_store h st) name calldata = blind_pair h <$> invoke_export frame inst st name calldata.
Proof.
  intros Hf.
  assert (∀ st args (f : option Z * Store → list byte * Store), (∀ r, f (blind_pair h r) = blind_pair h (f r)) →
    f <$> call_export frame inst (blind_store h st) name args = blind_pair h <$> (f <$> call_export frame inst st name args)) as Hc.
  { intros st1 args f Hfb. unfold call_export, call_guest. change (st_fuel (blind_store h st1)) with (st_fuel st1).
    rewrite run_guest_blind by done. destruct (run_guest _ _ _ _) as [r| |]; cbn; [|done..]. by rewrite Hfb. }
  assert (stage_calldata inst (blind_store h st)
          = (λ r : Z * Z * Store, (r.1, blind_store h r.2)) <$> stage_calldata inst st) as Hs.
  { unfold stage_calldata. change (cx_input (hs_ctx (st_data (blind_store h st)))) with (cx_input (hs_ctx (st_data st))).
    change (st_memory (blind_store h st)) with (st_memory st). cbn zeta. destruct (_ =? 0); [done|].
    repeat (let x := fresh in bind_case x). done. }
  unfold invoke_export. destruct (get_func inst name) as [[]|]; try done; try by apply Hc.
  all: destruct calldata; [|done]; rewrite Hs; destruct (stage_calldata inst st) as [[[p l] st1]| |];
    cbn [mbind result_bind fmap result_fmap fst snd]; [by apply Hc|done..].
Qed.

Lemma run_frame_blind n code abis : frame_blind (run_frame n code abis).
Proof.
  induction n as [|n IH]; intros wasm ctx h stack e; [done|]. cbn [run_frame]. unfold frame_body. cbn zeta.
  change (resolve_dispatch_entry abis (with_header ctx h)) with (resolve_dispatch_entry abis ctx).
  change (settle_entry (with_header ctx h) e) with (settle_entry ctx e).
  destruct (settle_entry ctx e) as [[acc sd]|]; [|done].
  unfold run_module. destruct (module_new wasm) as [m|]; [|done]. destruct (_ && _); [done|].
  destruct (instantiate m) as [[inst mem]|]; [|done]. cbn zeta. unfold call_guest.
  set (st := {| st_data := set_host (host_state_new (with_accounts ctx acc) _ _ _) _ _ _ _ _ |}).
  match goal with |- context [run_guest (run_frame n code abis) _ ?s _] =>
    change s with (blind_store h st) end.
  change (st_fuel (blind_store h st)) with (st_fuel st). rewrite run_guest_blind by done.
  destruct (run_guest _ _ _ _) as [[v st1]| |]; cbn [mbind result_bind fmap result_fmap map_err blind_pair fst snd]; [|done..].
  assert (∀ name b, invoke_export (run_frame n code abis) inst (blind_store h st1) name b
    = blind_pair h <$> invoke_export (run_frame n code abis) inst st1 name b) as Hi
    by (intros; by apply invoke_export_blind).
  destruct e; [destruct (resolve_dispatch_entry abis ctx) as [name|]|]; rewrite Hi;
    destruct (invoke_export _ _ _ _ _) as [[rd st2]| |]; done.
Qed.

End VmProps.
