(* ===== verification/VmContract.v ===== *)
(** * The executor meets the contract of the core

    [WasmiExecutor] satisfies what the theorems about states, chains and miners assume of
    an executor ([VmLaws], [HeaderBlind]); executions come back within their gas; storage
    and logs are protected from read-only frames and capped; and a contract call settles
    on the state exactly the balances its code saw. *)

From S2P Require Import Prelude Bytes U256 Abi AbiCodec Types Address Serialize State StateViews StateStorage StateProps Ledger Node Executor MiningProps Noise Precompiles PrecompileProps Vm VmProps.
Open Scope Z_scope.

Section Contract.
Context `{HX : Hex, B3 : Blake3, B32 : Bech32, SK : Secp256k1, ED : Ed25519, DG : Digests, EV : !EcdsaVerify, WA : Wasmi, WK : !WasmiOk}.

(** ** Results of the executor *)

(** A successful result comes from a precompile or from the outermost frame. *)
Lemma execute_cases ex ctx r : wasmi_execute ex ctx = Ok r →
  (is_precompile_address (cx_callee ctx) = true ∧ execute_precompile ctx = Ok r)
  ∨ ∃ wasm out, run_frame MAX_FRAMES (we_code ex) (we_abis ex) wasm ctx [cx_callee ctx] EntrySelector = Ok out
      ∧ r = fo_result out.
Proof.
  unfold wasmi_execute. destruct (is_precompile_address _); [by left|]. intros H. right.
  apply bind_ok_inv in H as (wasm & _ & H). unfold top_frame in H.
  destruct (run_frame _ _ _ _ _ _ _) as [out| |] eqn:E; [|done..]. injection H as <-. by exists wasm, out.
Qed.

Lemma constructor_cases ex ctx r : wasmi_execute_constructor ex ctx = Ok r →
  ∃ wasm out, run_frame MAX_FRAMES (we_code ex) (we_abis ex) wasm ctx [cx_callee ctx] EntryConstructor = Ok out
    ∧ r = fo_result out.
Proof.
  unfold wasmi_execute_constructor. intros H. apply bind_ok_inv in H as (wasm & _ & H). unfold top_frame in H.
  destruct (run_frame _ _ _ _ _ _ _) as [out| |] eqn:E; [|done..]. injection H as <-. by exists wasm, out.
Qed.

Lemma map_err_ok {E F A} (f : E → F) (r : result E A) a : map_err f r = Ok a → r = Ok a.
Proof. by destruct r; cbn; intros [= ->]. Qed.

(** Transfers come with the success of the frame. *)
Lemma run_frame_amounts n code abis wasm ctx stack e out :
  run_frame n code abis wasm ctx stack e = Ok out →
  Forall (λ t, 0 ≤ vt_amount t) (ex_value_transfers (fo_result out)).
Proof.
  intros H. destruct (decide (ex_status (fo_result out) = StSuccess)) as [Hs|Hs].
  - by eapply run_frame_trail.
  - refine (frame_rule code abis (λ _ _ out, ex_status (fo_result out) ≠ StSuccess →
      Forall (λ t, 0 ≤ vt_amount t) (ex_value_transfers (fo_result out))) _ _ _ n wasm ctx stack e out H Hs);
      [by constructor..|]. by intros.
Qed.

Lemma execute_precompile_transfers ctx r : execute_precompile ctx = Ok r →
  ex_value_transfers r = (if decide (ex_status r = StSuccess) then entry_transfer ctx else []).
Proof.
  unfold execute_precompile. destruct (dispatch_precompile _ _) as [out|[]|]; [|by intros [= <-]| |done].
  - destruct (_ <? _); [done|]. by intros [= <-].
  - destruct (_ <? _); [done|]. by intros [= <-].
Qed.

Lemma entry_transfer_amounts ctx : Forall (λ t, 0 ≤ vt_amount t) (entry_transfer ctx).
Proof.
  unfold entry_transfer. destruct (Z.ltb_spec 0 (cx_value ctx)); [|done]. apply Forall_singleton. cbn. lia.
Qed.

(** The seeded entry transfer stays at the head of the trail. *)
Lemma effect_extends frame ts d d' : effect frame d d' → (∃ us, hs_value_transfers d = ts ++ us) →
  ∃ us, hs_value_transfers d' = ts ++ us.
Proof.
  intros He [us Hu]. destruct He as [| | |kind to value fuel mem data r ch Hv H0 Hk Hg Hch]; [by exists us..|].
  unfold merge_child. cbn [st_data]. destruct (_ =? _); cbn; rewrite Hu; [|by exists us].
  eexists. by rewrite <- app_assoc.
Qed.

Lemma run_frame_entry n code abis wasm ctx stack out :
  run_frame n code abis wasm ctx stack EntrySelector = Ok out → ex_status (fo_result out) = StSuccess →
  cx_depth ctx = 0 → 0 < cx_value ctx →
  ∃ us, ex_value_transfers (fo_result out)
        = {| vt_from := cx_caller ctx; vt_to := cx_callee ctx; vt_amount := cx_value ctx |} :: us.
Proof.
  intros H. refine (frame_rule code abis (λ ctx e out, e = EntrySelector → ex_status (fo_result out) = StSuccess →
    cx_depth ctx = 0 → 0 < cx_value ctx → ∃ us, ex_value_transfers (fo_result out)
        = {| vt_from := cx_caller ctx; vt_to := cx_callee ctx; vt_amount := cx_value ctx |} :: us)
    _ _ _ n wasm ctx stack EntrySelector out H eq_refl); [done..|].
  intros frame _ c e acc sd stk st rd Hset Hrun -> _ Hd Hv. cbn.
  unfold settle_entry in Hset. rewrite Hd in Hset. destruct (Z.ltb_spec 0 (cx_value c)); [|lia]. cbn in Hset.
  destruct (transfer_value _ _ _ _); [|done]. injection Hset as _ <-.
  apply (rtc_preserves _ (λ d, ∃ us, hs_value_transfers d = [_] ++ us) _ _ (λ u v, effect_extends frame _ u v) Hrun).
  by exists [].
Qed.

Lemma wasmi_vm_laws : @VmLaws WasmiExecutor wasmi_executor.
Proof.
  split; cbn [execute execute_constructor wasmi_executor].
  - intros ex ctx r [[_ H]|(wasm & out & H & ->)]%map_err_ok%execute_cases; [|by eapply run_frame_amounts].
    rewrite (execute_precompile_transfers _ _ H). case_decide; [apply entry_transfer_amounts|constructor].
  - intros ex ctx r (wasm & out & H & ->)%map_err_ok%constructor_cases. by eapply run_frame_amounts.
  - intros ex ctx r [[_ H]|(wasm & out & H & ->)]%map_err_ok%execute_cases Hs Hd Hv.
    + rewrite (execute_precompile_transfers _ _ H), decide_True by done. unfold entry_transfer.
      by destruct (Z.ltb_spec 0 (cx_value ctx)); [|lia].
    + by destruct (run_frame_entry _ _ _ _ _ _ _ H Hs Hd Hv) as [us ->].
Qed.

Lemma wasmi_header_blind : @HeaderBlind WasmiExecutor wasmi_executor.
Proof.
  split; intros ex ctx h; cbn [execute execute_constructor wasmi_executor]; f_equal.
  - unfold wasmi_execute, top_frame. change (cx_callee (with_header ctx h)) with (cx_callee ctx).
    destruct (is_precompile_address _); [done|]. destruct (ok_or _ _) as [wasm| |]; cbn [mbind result_bind]; [|done..].
    by rewrite run_frame_blind.
  - unfold wasmi_execute_constructor, top_frame. change (cx_callee (with_header ctx h)) with (cx_callee ctx).
    destruct (ok_or _ _) as [wasm| |]; cbn [mbind result_bind]; [|done..]. by rewrite run_frame_blind.
Qed.

(** ** Termination and gas *)

Lemma execute_precompile_gas ctx r : 0 ≤ cx_gas_limit ctx → execute_precompile ctx = Ok r →
  0 ≤ ex_gas_used r ≤ cx_gas_limit ctx.
Proof.
  intros H0. unfold execute_precompile. pose proof (dispatch_gas (cx_callee ctx) (cx_input ctx)) as Hg.
  destruct (dispatch_precompile _ _) as [out|[msg|f g]|]; [| | |done].
  - destruct (Z.ltb_spec (cx_gas_limit ctx) (po_gas_used out)); [done|]. intros [= <-]. cbn. lia.
  - intros [= <-]. cbn. lia.
  - destruct (Z.ltb_spec (cx_gas_limit ctx) g); [done|]. intros [= <-]. cbn. lia.
Qed.

Lemma top_frame_np ex wasm ctx e : 0 ≤ cx_gas_limit ctx → cx_depth ctx = 0 → top_frame ex wasm ctx e ≠ Panic.
Proof.
  intros H0 Hd. unfold top_frame. apply fmap_np.
  refine (run_frame_total MAX_FRAMES _ _ 0 _ _ _ _ _ _ H0 Hd); [done|].
  unfold MAX_FRAMES. rewrite Z2Nat.id; unfold MAX_CALL_DEPTH; lia.
Qed.

(** C7: Contract execution always comes back: whatever the code does (host calls in a loop,
    recursion through nested calls, precompiles, malformed pointers), a call and a
    deployment return a result or an error, never a panic, and a result reports at most
    the gas it was given. *)
Theorem execution_total ex ctx :
  0 ≤ cx_gas_limit ctx → cx_depth ctx = 0 →
  match wasmi_execute ex ctx with Ok r => 0 ≤ ex_gas_used r ≤ cx_gas_limit ctx | Err _ => True | Panic => False end
  ∧ match wasmi_execute_constructor ex ctx with Ok r => 0 ≤ ex_gas_used r ≤ cx_gas_limit ctx | Err _ => True | Panic => False end.
Proof.
  intros H0 Hd. split.
  - destruct (wasmi_execute ex ctx) as [r|e|] eqn:E; [|done|].
    + destruct (execute_cases _ _ _ E) as [[_ H]|(wasm & out & H & ->)];
        [by apply execute_precompile_gas|by eapply run_frame_gas].
    + unfold wasmi_execute in E. destruct (is_precompile_address _).
      * unfold execute_precompile in E. pose proof (dispatch_gas (cx_callee ctx) (cx_input ctx)) as Hg.
        destruct (dispatch_precompile _ _) as [out|[]|]; [|done| |done]; by destruct (_ <? _).
      * destruct (ok_or _ _) eqn:Eo; [|done|by destruct (ok_or_np _ _ Eo)].
        exact (top_frame_np _ _ _ _ H0 Hd E).
  - destruct (wasmi_execute_constructor ex ctx) as [r|e|] eqn:E; [|done|].
    + destruct (constructor_cases _ _ _ E) as (wasm & out & H & ->). by eapply run_frame_gas.
    + unfold wasmi_execute_constructor in E. destruct (ok_or _ _) eqn:Eo; [|done|by destruct (ok_or_np _ _ Eo)].
      exact (top_frame_np _ _ _ _ H0 Hd E).
Qed.

(** ** Confinement *)

(** C8: Isolation of nested calls: after a [staticcall] the storage overlay and the logs of
    the calling frame are what they were, whatever the callee and the contracts it calls
    did; and after any nested call that did not succeed the overlay, the accounts, the
    logs and the trail of value transfers are what they were.  Value transfers under a
    [staticcall] are not part of the first half: the code lets them through. *)
Theorem nested_calls_confined n code abis st kind a b value c d e f status st' :
  0 ≤ st_fuel st → (kind ≠ KCall → value = 0) →
  nested_call (run_frame n code abis) st kind a b value c d e f = Ok (status, st') →
  let before := st_data st in
  let after := st_data st' in
  (kind = KStaticCall ∨ status ≠ STATUS_OK →
   cx_storage_overlay (hs_ctx after) = cx_storage_overlay (hs_ctx before) ∧ hs_logs after = hs_logs before)
  ∧ (status ≠ STATUS_OK →
     cx_accounts (hs_ctx after) = cx_accounts (hs_ctx before)
     ∧ hs_value_transfers after = hs_value_transfers before).
Proof.
  intros H0 Hk H. cbn zeta.
  apply nested_call_inv in H as (fuel & mem & to & data & r & ch & Hc & Hv & Hg & Hch & -> & _ & ->); [|done].
  unfold merge_child. cbn [st_data]. destruct (Z.eqb_spec (ch_status ch) STATUS_OK) as [E|E]; [|done].
  split; [|done]. intros [->|]; [|done]. cbn.
  destruct (run_child_success _ _ _ _ _ _ _ _ _ _ _ Hch E) as (acc & Ha & [(gas & rd & ->)|(wasm & out & _ & Ho & Hs & -> & _ & -> & _)]).
  - cbn. by rewrite app_nil_r.
  - destruct (run_frame_read_only _ _ _ _ _ _ _ Ho Hs) as [-> ->]; [apply orb_true_r|]. cbn. by rewrite app_nil_r.
Qed.

Lemma result_overlay n code abis wasm ctx stack e out :
  run_frame n code abis wasm ctx stack e = Ok out → ex_storage_overlay (fo_result out) = fo_storage_overlay out.
Proof. revert wasm ctx stack e out. by apply (frame_rule code abis (λ _ _ out, _ (fo_result out) = _ out)). Qed.

(** C9: The staged storage of a contract execution stays within the cap: in the overlay a
    result carries, every contract's persisted and staged value bytes together are at
    most [MAX_STORAGE_PER_CONTRACT], across all nested frames. *)
Theorem storage_capped ex ctx r :
  within_cap (cx_storage ctx) (cx_storage_overlay ctx) →
  wasmi_execute ex ctx = Ok r ∨ wasmi_execute_constructor ex ctx = Ok r →
  within_cap (cx_storage ctx) (ex_storage_overlay r).
Proof.
  intros Hc [[[_ H]|(wasm & out & H & ->)]%execute_cases|(wasm & out & H & ->)%constructor_cases].
  - unfold execute_precompile in H. intros a m.
    destruct (dispatch_precompile _ _) as [out|[]|]; [destruct (_ <? _); [done|]| |destruct (_ <? _); [done|]|done];
      injection H as <-; cbn; by rewrite lookup_empty.
  - rewrite (result_overlay _ _ _ _ _ _ _ _ H). by eapply run_frame_cap.
  - rewrite (result_overlay _ _ _ _ _ _ _ _ H). by eapply run_frame_cap.
Qed.

(** ** Settlement on the state *)

Lemma balance_in_insert A k x a : balance_in (<[k := x]> A) a = if decide (a = k) then balance x else balance_in A a.
Proof.
  unfold balance_in. case_decide; subst; [by rewrite lookup_insert_eq|by rewrite lookup_insert_ne by done].
Qed.

(** A transfer within the view: a bump down, then a saturating bump up. *)
Lemma transfer_value_spec A from to v B : 0 ≤ v → transfer_value A from to v = Some B →
  v ≤ balance_in A from
  ∧ ∀ a, balance_in B a = let mid := bump (balance_in A) from (- v) in
      if decide (a = to) then saturating_add64 (mid to) v else mid a.
Proof.
  intros Hv H. unfold transfer_value in H. cbn zeta in H.
  destruct (Z.ltb_spec (balance_in A from) v) as [|Hle]; [done|]. injection H as <-. split; [done|].
  set (A1 := match A !! from with Some _ => _ | None => _ end).
  assert (∀ a, balance_in A1 a = bump (balance_in A) from (- v) a) as H1.
  { intros a. unfold A1. rewrite bump_at. destruct (A !! from) as [acc|] eqn:E.
    - rewrite balance_in_insert, balance_set_balance. case_decide; [subst; lia|done].
    - unfold balance_in in *. rewrite E in Hle. cbn in Hle. case_decide; [subst; rewrite E; cbn; lia|done]. }
  intros a. cbn zeta. rewrite balance_in_insert, balance_set_balance, <- !H1.
  unfold balance_in at 1. destruct (A1 !! to) eqn:E; cbn; [unfold balance_in; rewrite E; done|].
  case_decide; [|done]. unfold balance_in. by rewrite E.
Qed.

(** A trail of the view commits on a state with the same balances, without overflow. *)
Lemma trail_commits A ts B s :
  solid s → in_range s → supply s < two64 → (∀ a, balance_in A a = bal s a) → trail A ts B →
  ∃ s', foldM commit_transfer s ts = Ok s' ∧ ∀ a, balance_in B a = bal s' a.
Proof.
  intros Hs Hi Hsup Hb [Hr Hts]. revert A s Hs Hi Hsup Hb Hr.
  induction Hts as [|t ts Ht _ IH]; intros A s Hs Hi Hsup Hb Hr; cbn in Hr.
  { injection Hr as <-. by exists s. }
  destruct (transfer_value A _ _ _) as [A1|] eqn:Et; [|done]. cbn in Hr.
  destruct (transfer_value_spec _ _ _ _ _ Ht Et) as [Hle H1]. rewrite Hb in Hle.
  destruct (debit_ok s (vt_from t) (vt_amount t) Hs Hle) as [m Em].
  destruct (debit_spec _ _ _ _ Hs Em) as (_ & Hsm & _ & Bm & Him). specialize (Him Hi Ht).
  pose proof (supply_bump _ _ _ _ Bm) as Sm. pose proof (bal_le_supply m (vt_to t) Hsm Him) as Hmt.
  destruct (credit_ok m (vt_to t) (vt_amount t) Hsm) as [s1 E1]; [lia|].
  destruct (credit_spec _ _ _ _ Hsm E1) as (_ & Hs1 & _ & B1 & Hi1). specialize (Hi1 Him Ht).
  pose proof (supply_bump _ _ _ _ B1) as S1.
  destruct (IH A1 s1) as (s' & Es' & Hb'); [done|done|lia| |done|].
  - intros a. rewrite H1, B1, bump_at. cbn zeta.
    assert (∀ a, bump (balance_in A) (vt_from t) (- vt_amount t) a = bal m a) as Hm.
    { intros a'. rewrite Bm, !bump_at. by rewrite Hb. }
    rewrite !Hm. case_decide; [|done]. subst. unfold saturating_add64. lia.
  - exists s'. split; [|done]. cbn [foldM]. rewrite commit_transfer_move. unfold move. rewrite Em. cbn [mbind result_bind].
    rewrite E1. exact Es'.
Qed.

Lemma transfer_value_ok A from to v : v ≤ balance_in A from → ∃ B, transfer_value A from to v = Some B.
Proof. intros H. unfold transfer_value. destruct (Z.ltb_spec (balance_in A from) v); [lia|]. eauto. Qed.

Lemma commit_value_ok id s ts s' : foldM commit_transfer s ts = Ok s' →
  ∃ s2, commit_value_transfers s id ts = Ok s2 ∧ ∀ a, bal s2 a = bal s' a.
Proof.
  unfold commit_value_transfers. destruct ts as [|t ts]; [by intros [= <-]; eauto|]. intros ->. by eexists.
Qed.

(** The transfers of a result: a trail from the accounts of the context. *)
Lemma execute_trail ex ctx r :
  cx_value ctx ≤ balance_in (cx_accounts ctx) (cx_caller ctx) → wasmi_execute ex ctx = Ok r →
  (ex_status r ≠ StSuccess → ex_value_transfers r = []) ∧ ∃ B, trail (cx_accounts ctx) (ex_value_transfers r) B.
Proof.
  intros Hv [[_ H]|(wasm & out & H & ->)]%execute_cases.
  - rewrite (execute_precompile_transfers _ _ H). split; [by intros; rewrite decide_False|].
    case_decide; [|by eexists]. unfold entry_transfer. destruct (Z.ltb_spec 0 (cx_value ctx)); [|by eexists].
    destruct (transfer_value_ok _ _ (cx_callee ctx) _ Hv) as [B HB]. exists B.
    split; [cbn; by rewrite HB|]. apply Forall_singleton. cbn. lia.
  - assert (ex_status (fo_result out) ≠ StSuccess → ex_value_transfers (fo_result out) = []) as Hn.
    { revert H. generalize (cx_callee ctx :: nil) as stk. revert wasm ctx out Hv. intros wasm ctx out _ stk H.
      refine (frame_rule (we_code ex) (we_abis ex) (λ _ _ out, ex_status (fo_result out) ≠ StSuccess →
        ex_value_transfers (fo_result out) = []) _ _ _ _ _ _ _ _ _ H); [done..|]. by intros. }
    split; [done|]. destruct (decide (ex_status (fo_result out) = StSuccess)) as [Hs|Hs].
    + eexists. by eapply run_frame_trail.
    + rewrite Hn by done. by eexists.
Qed.

Lemma balance_in_bal s a : balance_in (balances s) a = bal s a.
Proof. unfold balance_in, get_balance. by destruct (balances s !! a). Qed.

Lemma flush_bal s r id a : storage_ok s → bal (flush_storage_writes s r id) a = bal s a.
Proof. intros H. by destruct (flush_spec s r id H) as ((_ & _ & Hb & _) & _). Qed.

Lemma commit_trail id s ts B :
  wf s → supply s < two64 → trail (balances s) ts B →
  ∃ s', commit_value_transfers s id ts = Ok s' ∧ storage_ok s' ∧ ∀ a, bal s' a = balance_in B a.
Proof.
  intros (Hs & Hi & Hok) Hsup Ht. destruct (trail_commits (balances s) ts B s) as (m & Em & Hb); [done..|apply balance_in_bal|done|].
  destruct (commit_value_ok id _ _ _ Em) as (s' & Es & Hb'). exists s'. split; [done|].
  split; [|intros a; by rewrite Hb', Hb].
  destruct (commit_spec id ts s s' Hs Hi (proj2 Ht) Es) as (_ & _ & (V1 & _ & V3 & _ & V5) & _).
  apply (storage_ok_ext s); [|done]. intros a. by apply sview_ext.
Qed.

(** C6: Contract calls settle: on a well-formed state whose supply fits 64 bits, a call
    transaction whose sender covers its value is always applied (never an overflow, an
    inconsistency or a panic of the executor), keeps the state well formed and the supply
    unchanged, uses at most its gas, and leaves every account with exactly the balance
    obtained by replaying the transfers in its receipt on the accounts the code started
    from. *)
Theorem apply_call_settles ex s block call i :
  wf s → supply s < two64 → tx_ok (Call call) → 0 ≤ ca_gas_limit call →
  let s1 := set_nonce s (ca_from call) (add64 (non s (ca_from call)) 1) in
  if bal s (ca_from call) <? ca_value call
  then apply_call (VM:=wasmi_executor) s block call ex i
       = Err (InsufficientBalance (ca_from call) (bal s (ca_from call)) (ca_value call))
  else ∃ s' rc B, apply_call (VM:=wasmi_executor) s block call ex i = Ok (s', rc)
    ∧ wf s' ∧ supply s' = supply s ∧ 0 ≤ rc_gas_used rc ≤ ca_gas_limit call
    ∧ trail (balances s1) (rc_value_transfers rc) B ∧ ∀ a, bal s' a = balance_in B a.
Proof.
  intros Hwf Hsup Hv Hg. cbn zeta.
  enough (if bal s (ca_from call) <? ca_value call
    then apply_call (VM:=wasmi_executor) s block call ex i
         = Err (InsufficientBalance (ca_from call) (bal s (ca_from call)) (ca_value call))
    else ∃ s' rc B, apply_call (VM:=wasmi_executor) s block call ex i = Ok (s', rc)
      ∧ 0 ≤ rc_gas_used rc ≤ ca_gas_limit call
      ∧ trail (balances (set_nonce s (ca_from call) (add64 (non s (ca_from call)) 1))) (rc_value_transfers rc) B
      ∧ ∀ a, bal s' a = balance_in B a) as H.
  { destruct (_ <? _); [done|]. destruct H as (s' & rc & B & H & Hr). exists s', rc, B. split; [done|].
    destruct (call_step_ok (VM:=wasmi_executor) (VL:=wasmi_vm_laws) 0 _ _ _ _ _ _ _ Hwf Hv H).
    split; [done|]. split; [by apply step_supply_eq|done]. }
  unfold apply_call. destruct (Z.ltb_spec (bal s (ca_from call)) (ca_value call)) as [|Hle]; [done|].
  destruct (bump_nonce_spec s (ca_from call) Hwf) as (Hwf1 & (_ & Hb1 & _) & _).
  set (s1 := set_nonce s (ca_from call) (add64 (non s (ca_from call)) 1)) in *.
  assert (supply s1 < two64) as Hsup1 by (rewrite (supply_same s s1); done).
  assert (ca_value call ≤ balance_in (balances s1) (ca_from call)) as Hle1 by (by rewrite balance_in_bal, Hb1).
  destruct (negb _).
  - set (ts := if 0 <? ca_value call then _ else _).
    assert (∃ B, trail (balances s1) ts B) as [B HB].
    { unfold ts. destruct (Z.ltb_spec 0 (ca_value call)); [|by eexists].
      destruct (transfer_value_ok _ _ (ca_to call) _ Hle1) as [B HB]. exists B.
      split; [cbn; by rewrite HB|]. by apply Forall_singleton. }
    destruct (commit_trail (txid (Call call)) s1 ts B Hwf1 Hsup1 HB) as (s' & -> & _ & Hb'). by eexists s', _, B.
  - set (ctx := make_context _ _ _ _ _ _ _). destruct (execution_total ex ctx Hg eq_refl) as [Ht _].
    cbn [execute wasmi_executor]. destruct (wasmi_execute ex ctx) as [r|e|] eqn:Ex; cbn [map_err]; [| |done].
    + destruct (execute_trail ex ctx r Hle1 Ex) as [Hn [B HB]]. destruct (decide (ex_status r = StSuccess)) as [Hs|Hs].
      * destruct (commit_trail (txid (Call call)) s1 _ B Hwf1 Hsup1 HB) as (s2 & E2 & Hok2 & Hb2).
        rewrite E2. cbn [mbind result_bind]. eexists _, _, B. split; [done|]. split; [exact Ht|]. split; [exact HB|].
        intros a. rewrite <- Hb2. by apply flush_bal.
      * cbn [mbind result_bind]. exists s1. eexists _, (balances s1). split; [done|]. split; [exact Ht|]. cbn.
        rewrite (Hn Hs). split; [done|]. intros a. by rewrite balance_in_bal.
    + exists s1. eexists _, (balances s1). split; [done|]. cbn. split; [lia|]. split; [done|].
      intros a. by rewrite balance_in_bal.
Qed.

End Contract.
