(* ===== verification/VmWitness.v ===== *)
(** * The executor on concrete contracts

    A small engine with the laws of [Wasmi]: a module is one byte that names a list of
    host calls, executed in order at one unit of fuel each.  The theorems of the executor
    run on it, and two contracts show a value transfer out of a read-only frame. *)

From S2P Require Import Prelude Bytes U256 Abi AbiCodec Types Address Concrete Serialize State StateViews StateStorage StateProps StateWitness Node Executor MiningProps Noise NoiseConcrete Precompiles PrecompileProps Vm VmProps VmContract.
Open Scope Z_scope.

#[local] Existing Instances toy_hex toy_blake3 toy_bech32 toy_secp.

(** ** The engine *)

#[export] Instance well_typed_dec c : Decision (well_typed c).
Proof. destruct c; cbn; unfold is_i32, is_i64; apply _. Defined.

(** The memory of every module: two account names, a zero key and a value. *)
Definition demo_memory : list byte := as_bytes "bob" ++ as_bytes "carol" ++ replicate 32 x00 ++ [x01; x02; x03; x04].

(** Module 1 stores, logs and pays bob; module 2 pays bob; module 3 calls carol read-only. *)
Definition script (b : byte) : list HostCall :=
  match b with
  | x01 => [HStorageWrite 8 40 4; HEmitLog 8 1 40 2; HCall 0 3 5 0 0 0 0]
  | x02 => [HCall 0 3 2 0 0 0 0]
  | x03 => [HStaticCall 3 5 0 0 0 0]
  | _ => []
  end.

Definition toy_wasmi : Wasmi := {|
  Module := byte; WasmInstance := byte; Guest := list HostCall;
  module_new wasm := match wasm with [b] => inl b | _ => inr "bad module" end;
  module_exports_func _ name := bool_decide (name = "constructor");
  instantiate b := inl (b, Some demo_memory);
  start_function _ := [];
  get_func _ name := if decide (name = "main" ∨ name = "constructor") then Some SigI32 else None;
  invoke_func b _ _ := script b;
  memory_grow _ mem pages := if pages <? 0 then None else Some (mem ++ replicate (Z.to_nat (pages * 65536)) x00);
  guest_run g fuel mem :=
    if fuel <? 1 then (fuel, mem, Trapped TrapOutOfFuel)
    else match g with
         | [] => (fuel - 1, mem, Returned (Some 7))
         | c :: g => (fuel - 1, mem, if decide (well_typed c) then HostCalled c (λ _, g) else Trapped (WasmMessage "type"))
         end;
  error_text e := match e with WasmMessage t => t | _ => "trap" end
|}.
#[local] Existing Instance toy_wasmi.

Lemma toy_wasmi_ok : WasmiOk (H := toy_wasmi).
Proof.
  split.
  - intros g fuel mem. cbn. destruct (Z.ltb_spec fuel 1); [done|]. destruct g; cbn; lia.
  - intros g fuel mem c k. cbn. destruct (_ <? _); [done|]. destruct g as [|c' g]; [done|]. cbn.
    destruct (decide (well_typed c')) as [H|H]; [by intros [= <- _]|done].
  - intros i mem pages mem'. cbn. destruct (Z.ltb_spec pages 0); [done|]. intros [= <-].
    eexists. split; [done|]. rewrite length_replicate. lia.
Qed.
#[local] Existing Instance toy_wasmi_ok.

Definition toy_digests : Digests := {| sha256 := blake3; keccak256 := blake3 |}.
#[local] Existing Instance toy_digests.
Definition toy_verify : EcdsaVerify := λ pk sg digest, bool_decide (head sg = Some pk).
#[local] Existing Instance toy_verify.

(** ** Contracts *)

Definition contract (b : byte) (funds : Z) : Account :=
  Contract {| ct_code_hash := blake3 [b]; ct_storage_root := zero32; ct_nonce := 1; ct_balance := funds |}.

Definition vm_state : State :=
  with_balances state_new
    (<["user" := account_eoa 100 0]> (<["shop" := contract x01 10]> (<["carol" := contract x02 9]>
      (<["sam" := contract x03 0]> ∅)))).

Definition vm_demo : WasmiExecutor :=
  wasmi_insert_code (wasmi_insert_code (wasmi_insert_code wasmi_new "shop" [x01]) "carol" [x02]) "sam" [x03].

Definition call_ctx (callee : string) (value gas : Z) : ExecutionContext :=
  make_context vm_state (demo_block []) "user" callee value gas [].

Definition shop_result : ExecutionResult :=
  match wasmi_execute vm_demo (call_ctx "shop" 20 10000) with Ok r => r | _ => precompile_result 0 StFailed [] [] end.

(** A call with value 20 that stores four bytes, logs, and passes 5 on to bob. *)
Example shop_call :
  ex_status shop_result = StSuccess ∧ ex_gas_used shop_result = 6455
  ∧ ex_storage_overlay shop_result = {[ "shop" := {[ zero32 := [x01; x02; x03; x04] ]} ]}
  ∧ ex_value_transfers shop_result
    = [{| vt_from := "user"; vt_to := "shop"; vt_amount := 20 |};
       {| vt_from := "shop"; vt_to := "bob"; vt_amount := 5 |}].
Proof. by_eval. Qed.

(** ** Witnesses *)

Lemma call_ctx_fields callee value gas :
  cx_gas_limit (call_ctx callee value gas) = gas ∧ cx_depth (call_ctx callee value gas) = 0
  ∧ cx_storage_overlay (call_ctx callee value gas) = ∅.
Proof. split_and!; reflexivity. Qed.

Lemma shop_call_ok : is_ok (wasmi_execute vm_demo (call_ctx "shop" 20 10000)) = true.
Proof. vm_compute. reflexivity. Qed.

Lemma execution_total_witness :
  match wasmi_execute vm_demo (call_ctx "shop" 20 10000) with
  | Ok r => 0 ≤ ex_gas_used r ≤ cx_gas_limit (call_ctx "shop" 20 10000) | Err _ => True | Panic => False
  end.
Proof.
  destruct (call_ctx_fields "shop" 20 10000) as (Hg & Hd & _).
  destruct (execution_total vm_demo (call_ctx "shop" 20 10000)) as [H _]; [rewrite Hg; lia|exact Hd|exact H].
Defined.

Lemma storage_capped_witness :
  ∃ r, wasmi_execute vm_demo (call_ctx "shop" 20 10000) = Ok r
    ∧ within_cap (cx_storage (call_ctx "shop" 20 10000)) (ex_storage_overlay r).
Proof.
  pose proof shop_call_ok as H.
  destruct (wasmi_execute vm_demo (call_ctx "shop" 20 10000)) as [r|e|] eqn:E; [|discriminate H|discriminate H].
  exists r. split; [reflexivity|]. apply (storage_capped vm_demo (call_ctx "shop" 20 10000)); [|left; exact E].
  destruct (call_ctx_fields "shop" 20 10000) as (_ & _ & Ho).
  intros a m Hm. rewrite Ho, lookup_empty in Hm. discriminate Hm.
Defined.

(** The frame of sam about to call carol read-only. *)
Definition sam_store : Store := {|
  st_fuel := 9000; st_memory := Some demo_memory;
  st_data := host_state_new (call_ctx "sam" 0 10000) (we_code vm_demo) ∅ ["sam"] |}.

Definition sam_call : result WasmError (Z * Store) :=
  nested_call (run_frame 5 (we_code vm_demo) ∅) sam_store KStaticCall 3 5 0 0 0 0 0.

Lemma sam_call_ok : match sam_call with Ok (status, _) => status =? STATUS_OK | _ => false end = true.
Proof. vm_compute. reflexivity. Qed.

Lemma nested_calls_confined_witness :
  ∃ st', sam_call = Ok (STATUS_OK, st')
    ∧ cx_storage_overlay (hs_ctx (st_data st')) = cx_storage_overlay (hs_ctx (st_data sam_store))
    ∧ hs_logs (st_data st') = [].
Proof.
  pose proof sam_call_ok as H. destruct sam_call as [[status st']|e|] eqn:E; [|discriminate H|discriminate H].
  apply Z.eqb_eq in H. subst status. exists st'. split; [reflexivity|].
  exact (proj1 (nested_calls_confined 5 (we_code vm_demo) ∅ sam_store KStaticCall 3 5 0 0 0 0 0 STATUS_OK st'
    ltac:(cbn; lia) (λ _, eq_refl) E) (or_introl eq_refl)).
Defined.

(** Carol's code runs read-only and still pays 2 to bob out of her balance. *)
Lemma static_call_moves_value :
  match sam_call with
  | Ok (_, st') => hs_value_transfers (st_data st') = [{| vt_from := "carol"; vt_to := "bob"; vt_amount := 2 |}]
      ∧ balance_in (cx_accounts (hs_ctx (st_data st'))) "bob" = 2
  | _ => False
  end.
Proof.
  assert (match sam_call with
    | Ok (_, st') => bool_decide (hs_value_transfers (st_data st') = [{| vt_from := "carol"; vt_to := "bob"; vt_amount := 2 |}]
        ∧ balance_in (cx_accounts (hs_ctx (st_data st'))) "bob" = 2)
    | _ => false end = true) as H by (vm_compute; reflexivity).
  destruct sam_call as [[status st']|e|]; [|discriminate H|discriminate H]. by apply bool_decide_eq_true in H.
Qed.

Definition shop_tx : CallTx := {|
  ca_from := "user"; ca_to := "shop"; ca_data := []; ca_value := 20; ca_gas_limit := 10000; ca_fee := 0; ca_nonce := 0;
  ca_chain_id := 1; ca_signature := [] |}.

Lemma apply_call_settles_witness :
  ∃ s' rc, apply_call (VM := wasmi_executor) vm_state (demo_block []) shop_tx vm_demo 0 = Ok (s', rc)
    ∧ wf s' ∧ supply s' = supply vm_state ∧ 0 ≤ rc_gas_used rc ≤ 10000.
Proof.
  assert (wf vm_state) as Hwf by by_eval. assert (supply vm_state < two64) as Hsup by by_eval.
  pose proof (apply_call_settles vm_demo vm_state (demo_block []) shop_tx 0 Hwf Hsup ltac:(cbn; lia) ltac:(cbn; lia)) as H.
  cbn zeta in H. assert ((bal vm_state (ca_from shop_tx) <? ca_value shop_tx) = false) as E by (vm_compute; reflexivity).
  rewrite E in H. destruct H as (s' & rc & B & H1 & H2 & H3 & H4 & _).
  exists s', rc. exact (conj H1 (conj H2 (conj H3 H4))).
Defined.
